(* ===== verification/_CoqProject ===== *)
-Q . S2P
Prelude.v
BoundedQueue.v
TerminalCore.v
TerminalFacts.v
TerminalStreams.v
TerminalReadiness.v
Canonical.v
Abi.v
DataPlane.v
Capability.v
ResourceTable.v
ResourceFacts.v
ResourceMachine.v
ResourceTransfer.v
Usercopy.v
Channel.v
ChannelFacts.v
ChannelSystem.v
ChannelMachine.v
ChannelTransfer.v
ChannelGC.v
ChannelWait.v
HandleCalls.v
Invocation.v
InvocationFacts.v
Protocol.v
ProtocolCalls.v
ProtocolFacts.v
ProtocolMachine.v
ProtocolRuns.v
ProtocolCallRuns.v
ProtocolTables.v
ProtocolSamples.v
KernelCalls.v
ServiceDirectory.v
ServiceFacts.v
ServiceCalls.v
VmAllocator.v
Zones.v
Slab.v
Kmalloc.v
Paging.v
PageFacts.v
PageSharing.v
PageMapping.v
PageUnmapping.v
PageFork.v
VmInfo.v
VmCalls.v
VmPages.v
Framebuffer.v
VmLedger.v
VmMoves.v
VmWorld.v
FramebufferLease.v
VmSamples.v
InputEventSource.v
InputFacts.v
Console.v
ConsoleFacts.v
