(* ===== verification/Prelude.v ===== *)
(** A verification of parts of NaOS, a microkernel-style operating system in C++.

    * The program

    The kernel under src/naos names everything a process may use by handles in a
    per-process capability table.  Processes exchange bytes and capabilities over raw
    channels and over protocols, which are request queues with one invocation per
    call; kernel objects such as memory objects, shared rings and the service
    directory are called through protocols too, by dispatch workers.  Below, physical
    memory is divided into zones with reference-counted pages, a slab allocator and
    the kernel heap; page tables are shared between address spaces after a fork; an
    address space joins areas, page tables, files and devices.  The framebuffer is a
    device with one writer, the console draws the kernel log on it, and key events
    reach one subscriber over a channel.  In user space the service ttyd implements
    the line discipline of terminals.

    * How it is modelled

    Every method that runs under one lock is one function from the state to its
    result and the new state; calls are compositions of methods, and where calls of
    several threads interleave, the methods are the steps of a transition system and
    the theorems hold for all its runs.  A struct is a [Record], an enumeration an
    [Inductive], an address a [Z] with 0 for the null pointer, a heap a finite map
    from addresses.  Integers are [Z] with the wrap-around of their width written out
    ([u64], [u32], [i32] below).  Errors are status values of the source; [None] as the
    result of an operation is a stop of the kernel or, in Console.v, an access outside
    an array.  What the code does not control comes in as arguments: failed
    allocations, new addresses, copies from user memory, the clock.  Code outside
    the repository is a parameter with the laws the kernel relies on:
    the hash map of the capability table ([HandleMap]), the ordered list of areas
    ([AreaList]), the buddy system ([Buddy]), the vectors of the service directory,
    generated message codecs, UTF-8 decoding.  Between components the classes
    [FrameStore], [Devices] and [CountsMappings] play the same part: the client is
    proved against the class and the implementation is an instance.

    * The files

    Basics.
    - Prelude.v: machine integers, arrays, circular arrays, sums over maps, and the
      simulation of sequences of operations.
    - Abi.v: constants and plain structures of include/naos/abi.h and the error
      numbers of includes/kernel/errno.hpp.
    - Usercopy.v: the range checks of includes/kernel/usercopy.hpp.
    - Canonical.v: the value wire of include/naos/canonical.hpp.
    - BoundedQueue.v: includes/kernel/ipc/bounded_queue.hpp and its refinement to a
      bounded FIFO with a claimed head.

    Terminal line discipline (src/usr/ttyd/terminal_core.cc).
    - TerminalCore.v has the operations; TerminalFacts.v their invariant and the
      accounting of canonical records; TerminalStreams.v and TerminalReadiness.v what
      the two sides read and how readiness is reported.

    Capabilities (includes/kernel/capability.hpp, src/kernel/resource.cc).
    - Capability.v and ResourceTable.v have the records and the table's methods;
      ResourceFacts.v the lemmas on single methods; ResourceMachine.v the table as a
      state machine: counts and hooks balance, authority only shrinks, closed handles
      stay closed; ResourceTransfer.v fork and the move between two tables.

    Raw channels (src/kernel/ipc/channel.cc, src/kernel/syscall/channel.cc).
    - Channel.v has one channel, ChannelSystem.v all of them with the collection of
      orphans; ChannelFacts.v and ChannelMachine.v show that all counters are exact
      and within their limits; ChannelTransfer.v that a send or receive happens whole
      or not at all; ChannelGC.v that the collection is exact; ChannelWait.v waiting;
      HandleCalls.v the system calls.

    Protocols and invocations (src/kernel/ipc/invocation.cc).
    - Invocation.v has the life of one call and Protocol.v the request queues;
      InvocationFacts.v and ProtocolFacts.v their invariants; ProtocolCalls.v the
      calls; ProtocolMachine.v the atomic steps, ProtocolRuns.v and
      ProtocolCallRuns.v that every call is a run of them and what holds along all
      runs; ProtocolTables.v what a call does to the caller's table;
      ProtocolSamples.v a complete exchange.

    Kernel objects.
    - DataPlane.v: memory objects and shared rings (src/kernel/mm/data_plane.cc).
    - KernelCalls.v: their methods and the dispatch worker, of invocation.cc.
    - ServiceDirectory.v, ServiceFacts.v and ServiceCalls.v:
      src/kernel/service_directory.cc, the registry it implements, and its calls with
      the protection of the system's names.

    Memory (src/kernel/mm, src/kernel/arch/paging.cc).
    - VmAllocator.v: the areas of an address space, first fit without overlap.
    - Zones.v: zones, page reference counts and zone detection.
    - Slab.v and Kmalloc.v: slab groups and the kernel heap.
    - Paging.v: the page-table operations; PageFacts.v: the structure of tables that
      several address spaces share; PageSharing.v, PageMapping.v, PageUnmapping.v and
      PageFork.v: splitting, mapping, unmapping and forking change the pages they are
      asked to change in the address space they are asked to, and no other.
    - VmInfo.v and VmCalls.v: the address space of a process, page faults and memory
      system calls; VmPages.v: what a page shows after a fault; VmLedger.v, VmMoves.v
      and VmWorld.v: the books of file mappings over all processes.

    Screen and input.
    - Framebuffer.v and FramebufferLease.v: src/kernel/dev/framebuffer.cc and that its
      writable mappings belong to the holder of the lease; VmSamples.v: concrete
      address spaces.
    - Console.v and ConsoleFacts.v: the early terminal of includes/kernel/terminal.hpp
      and src/kernel/terminal.cc and the drawing of src/kernel/framebuffer.cc; every
      access and every pixel is in range.
    - InputEventSource.v and InputFacts.v: src/kernel/input_event_source.cc on the
      channels; no event is lost without a mark.

    * Fuel and bounds

    Loops are structural where they run over a list.  The others carry fuel that
    bounds the rounds of the loop in the source: the length of the string for the
    console ([push_string]), as every round takes a byte; the rows above for
    [previous_loop]; the number of registered channels for [mark_loop], each of which
    enters the work list once; of requests for their deletion and of queued messages
    for [drain]; of areas for [remove_loop], which removes one per round; of zones for
    the binary search [which_loop] and of size classes for [class_search]; the pages
    of a range for [unmap_loop] and its top-level entries for the loop of
    [clone_readonly_to], as every round advances by one at least.  [grow_loop] takes
    any fuel: the test of the source is false whenever the loop is entered.  The
    receive loop of protocols ends because each round takes a request out of its
    queue ([receive_terminates]).  Where a loop of the source need not end, as in the
    waiting calls, the theorem says under which history it does.

    * Not modelled

    Context switches, scheduling, interrupts, timers, signals, the processor and its
    devices, boot code and assembly: they act on hardware state, and what they
    contribute appears as steps or arguments of the environment.  The virtual file
    system, the file systems behind it and the loaders: address spaces see them
    through [Devices].  The creation and exit of processes as a whole: only their
    parts on tables and address spaces are here.  The views of terminals and their
    switching, [stand_terminal], the user-space programs around [terminal_core], and
    everything generated from interface descriptions.  Weak memory is not modelled:
    atomics are single steps.  A publication of an input event and a flush of the
    console run as a whole although the source drops its lock between their parts. *)
From stdpp Require Import base list numbers gmap.

Local Open Scope Z_scope.

(** ** Machine integers *)

(** [u64 x] is the value a 64-bit unsigned register holds after computing
    [x]; [u32], [u16] and [u8] likewise; [i32 x] is the two's-complement value
    of a conversion to a 32-bit [int]. *)
Definition u64 (x : Z) : Z := x mod 2 ^ 64.
Definition u32 (x : Z) : Z := x mod 2 ^ 32.
Definition u16 (x : Z) : Z := x mod 2 ^ 16.
Definition u8 (x : Z) : Z := x mod 2 ^ 8.
Definition i32 (x : Z) : Z := (x + 2 ^ 31) mod 2 ^ 32 - 2 ^ 31.
Definition i64 (x : Z) : Z := (x + 2 ^ 63) mod 2 ^ 64 - 2 ^ 63.

(** [has_flag v f] is the C++ test [(v & f) != 0]; [no_flag_outside v m] is
    [(v & ~m) == 0] for values of one width. *)
Definition has_flag (v f : Z) : bool := negb (Z.land v f =? 0).
Definition no_flag_outside (v m : Z) : bool := Z.ldiff v m =? 0.

(** ** Arrays indexed by machine integers *)

(** [zget a i] and [zset a i x] are [a[i]] and [a[i] = x].  An index outside
    the array is undefined behaviour in the source; the invariants of the
    components show that no operation computes one. *)
Definition zget {A} `{Inhabited A} (a : list A) (i : Z) : A := a !!! Z.to_nat i.
Definition zset {A} (a : list A) (i : Z) (x : A) : list A := <[Z.to_nat i := x]> a.

(** [ring_list a h n] is the sequence of [n] elements that a circular array
    [a] holds from position [h] on. *)
Definition ring_list {A} `{Inhabited A} (a : list A) (h n : Z) : list A :=
  (λ k, zget a ((h + Z.of_nat k) mod Z.of_nat (length a))) <$> seq 0 (Z.to_nat n).

(** The sum of a list of integers. *)
Definition sum_Z (l : list Z) : Z := foldr Z.add 0 l.

(** Decompose a [Forall] over a concrete list and close the elements. *)
Ltac solve_Forall :=
  repeat first [apply Forall_nil_2 | apply Forall_cons_2]; simpl; first [done | lia].

(** ** Machine-integer lemmas *)

Lemma u64_small x : 0 ≤ x < 2 ^ 64 → u64 x = x.
Proof. intros. unfold u64. by rewrite Z.mod_small. Qed.

Lemma u64_range x : 0 ≤ u64 x < 2 ^ 64.
Proof. unfold u64. apply Z.mod_pos_bound. lia. Qed.

Lemma u32_small x : 0 ≤ x < 2 ^ 32 → u32 x = x.
Proof. intros. unfold u32. by rewrite Z.mod_small. Qed.

Lemma u16_small x : 0 ≤ x < 2 ^ 16 → u16 x = x.
Proof. intros. unfold u16. by rewrite Z.mod_small. Qed.

Lemma i32_small x : - 2 ^ 31 ≤ x < 2 ^ 31 → i32 x = x.
Proof. intros. unfold i32. rewrite Z.mod_small; lia. Qed.

Lemma i64_small x : - 2 ^ 63 ≤ x < 2 ^ 63 → i64 x = x.
Proof. intros. unfold i64. rewrite Z.mod_small; lia. Qed.

Lemma has_flag_lor a b f : has_flag (Z.lor a b) f = has_flag a f || has_flag b f.
Proof.
  unfold has_flag. rewrite Z.land_lor_distr_l. apply eq_true_iff_eq. rewrite orb_true_iff, !negb_true_iff, !Z.eqb_neq, Z.lor_eq_0_iff.
  destruct (Z.eq_dec (Z.land a f) 0); tauto.
Qed.

Lemma no_flag_outside_spec v m :
  no_flag_outside v m = true ↔ ∀ i, Z.testbit v i = true → Z.testbit m i = true.
Proof.
  unfold no_flag_outside. rewrite Z.eqb_eq. split.
  - intros H i Hi. destruct (Z.testbit m i) eqn:Hm; [done|].
    assert (Z.testbit (Z.ldiff v m) i = true) as Hd
      by (rewrite Z.ldiff_spec, Hi, Hm; done).
    rewrite H, Z.bits_0 in Hd. done.
  - intros H. apply Z.bits_inj. intros i. rewrite Z.ldiff_spec, Z.bits_0.
    destruct (Z.testbit v i) eqn:Hv; [rewrite (H i Hv)|]; done.
Qed.

(** ** Array lemmas *)

Section arrays.
Context {A : Type} `{Inhabited A}.
Implicit Types (a : list A) (x : A).

Lemma length_zset a i x : length (zset a i x) = length a.
Proof. unfold zset. apply length_insert. Qed.

Lemma zget_zset_eq a i x : 0 ≤ i < Z.of_nat (length a) → zget (zset a i x) i = x.
Proof. intros. unfold zget, zset. apply list_lookup_total_insert_eq. lia. Qed.

Lemma zget_zset_ne a i j x : 0 ≤ i → 0 ≤ j → i ≠ j → zget (zset a i x) j = zget a j.
Proof. intros. unfold zget, zset. apply list_lookup_total_insert_ne. lia. Qed.

Lemma take_zset a n x :
  0 ≤ n < Z.of_nat (length a) → take (Z.to_nat (n + 1)) (zset a n x) = take (Z.to_nat n) a ++ [x].
Proof.
  intros. replace (Z.to_nat (n + 1)) with (S (Z.to_nat n)) by lia. unfold zset.
  rewrite (take_S_r _ _ x) by (apply list_lookup_insert_eq; lia). by rewrite take_insert_ge by lia.
Qed.

Lemma length_ring_list a h n : length (ring_list a h n) = Z.to_nat n.
Proof. unfold ring_list. by rewrite length_fmap, length_seq. Qed.

Lemma ring_list_lookup a h n k :
  (k < Z.to_nat n)%nat →
  ring_list a h n !! k = Some (zget a ((h + Z.of_nat k) mod Z.of_nat (length a))).
Proof.
  intros. unfold ring_list. rewrite list_lookup_fmap, lookup_seq_lt by done. done.
Qed.

(** Two positions of one lap of a circular array are equal only when their
    offsets are. *)
Lemma ring_index_inj (h c i j : Z) :
  0 ≤ i < c → 0 ≤ j < c → (h + i) mod c = (h + j) mod c → i = j.
Proof.
  intros Hi Hj Heq.
  assert ((i - j) mod c = 0) as Hd.
  { replace (i - j) with ((h + i) - (h + j)) by lia.
    by rewrite Zminus_mod, Heq, Z.sub_diag, Z.mod_0_l by lia. }
  apply Z.mod_divide in Hd; [|lia]. destruct Hd as [q Hq]. clear Heq h.
  destruct (Z.lt_trichotomy q 0) as [?|[->|?]]; nia.
Qed.

Lemma ring_index_range (c x : Z) : 0 < c → 0 ≤ x mod c < c.
Proof. intros. apply Z.mod_pos_bound. lia. Qed.

Lemma ring_list_nil a h n : n ≤ 0 → ring_list a h n = [].
Proof. intros. unfold ring_list. by replace (Z.to_nat n) with 0%nat by lia. Qed.

Lemma ring_list_ext a a' h n :
  length a = length a' →
  (∀ k, 0 ≤ k < n → zget a ((h + k) mod Z.of_nat (length a))
                    = zget a' ((h + k) mod Z.of_nat (length a))) →
  ring_list a h n = ring_list a' h n.
Proof.
  intros Hlen Hext. apply list_eq_same_length with (n := Z.to_nat n).
  - by rewrite length_ring_list.
  - by rewrite length_ring_list.
  - intros i x y Hi Hx Hy. rewrite ring_list_lookup in Hx, Hy by done.
    rewrite <- Hlen, <- (Hext (Z.of_nat i)) in Hy by lia. congruence.
Qed.

(** Appending: the slot one past the last element becomes the new last one. *)
Lemma ring_list_push a h n x :
  0 ≤ n < Z.of_nat (length a) →
  ring_list (zset a ((h + n) mod Z.of_nat (length a)) x) h (n + 1) = ring_list a h n ++ [x].
Proof.
  intros Hn. set (c := Z.of_nat (length a)) in *.
  apply list_eq_same_length with (n := Z.to_nat (n + 1)).
  - rewrite length_app, length_ring_list. simpl. lia.
  - by rewrite length_ring_list.
  - intros i y z Hi Hy Hz. rewrite ring_list_lookup in Hy by done.
    rewrite length_zset in Hy. fold c in Hy.
    pose proof (ring_index_range c (h + n) ltac:(lia)).
    pose proof (ring_index_range c (h + Z.of_nat i) ltac:(lia)).
    destruct (decide (Z.of_nat i = n)) as [<-|Hne].
    + rewrite zget_zset_eq in Hy by done.
      rewrite lookup_app_r in Hz by (rewrite length_ring_list; lia).
      rewrite length_ring_list in Hz. replace (i - _)%nat with 0%nat in Hz by lia.
      simpl in Hz. congruence.
    + rewrite lookup_app_l in Hz by (rewrite length_ring_list; lia).
      rewrite ring_list_lookup in Hz by lia. fold c in Hz.
      rewrite zget_zset_ne in Hy; [congruence|lia..|].
      intros E. apply (ring_index_inj h c) in E; lia.
Qed.

(** Consuming: the head element comes off and the rest starts one further. *)
Lemma ring_list_pop a h n :
  0 ≤ h < Z.of_nat (length a) → 0 < n →
  ring_list a h n = zget a h :: ring_list a ((h + 1) mod Z.of_nat (length a)) (n - 1).
Proof.
  intros Hh Hn. unfold ring_list.
  replace (Z.to_nat n) with (S (Z.to_nat (n - 1))) by lia. simpl. f_equal.
  - f_equal. rewrite Z.add_0_r. by apply Z.mod_small.
  - rewrite <- fmap_S_seq, <- list_fmap_compose. apply list_fmap_ext. intros i k _. simpl.
    f_equal. rewrite Zplus_mod_idemp_l. f_equal. lia.
Qed.

(** Overwriting the head leaves the rest of the sequence alone. *)
Lemma ring_list_set_rest a h n x :
  0 ≤ h < Z.of_nat (length a) → 0 < n ≤ Z.of_nat (length a) →
  ring_list (zset a h x) ((h + 1) mod Z.of_nat (length a)) (n - 1) = tail (ring_list a h n).
Proof.
  intros Hh Hn. rewrite (ring_list_pop a) by lia. simpl.
  apply ring_list_ext; [apply length_zset|].
  intros k Hk. rewrite length_zset, Zplus_mod_idemp_l.
  pose proof (ring_index_range (Z.of_nat (length a)) (h + 1 + k) ltac:(lia)).
  apply zget_zset_ne; [lia..|].
  rewrite <- (Z.mod_small h (Z.of_nat (length a))) at 1 by done.
  replace (h mod _) with ((h + 0) mod Z.of_nat (length a)) by (f_equal; lia).
  rewrite <- Z.add_assoc. intros E. apply ring_index_inj in E; lia.
Qed.

Lemma ring_list_set_head a h n x :
  0 ≤ h < Z.of_nat (length a) → 0 < n ≤ Z.of_nat (length a) →
  ring_list (zset a h x) h n = x :: tail (ring_list a h n).
Proof.
  intros Hh Hn. rewrite (ring_list_pop (zset a h x)) by (rewrite ?length_zset; lia).
  rewrite zget_zset_eq, length_zset, ring_list_set_rest by lia. done.
Qed.

End arrays.

(** ** Sums and reshaped lists *)

Lemma sum_Z_app l k : sum_Z (l ++ k) = sum_Z l + sum_Z k.
Proof. unfold sum_Z. induction l; simpl in *; lia. Qed.

#[export] Instance sum_Z_proper : Proper ((≡ₚ) ==> (=)) sum_Z.
Proof.
  intros l1 l2. induction 1 as [|x l1 l2 _ IH|x y l|l1 l2 l3 _ IH1 _ IH2]; simpl; lia.
Qed.

Lemma sum_Z_nonneg l : Forall (λ x, 0 ≤ x) l → 0 ≤ sum_Z l.
Proof. unfold sum_Z. induction 1; simpl; lia. Qed.

(** Cutting a list by sizes that add up to its length: one more piece at the
    end is one more element of the result. *)
Lemma reshape_snoc {A} (szs : list nat) (l x : list A) :
  sum_list szs = length l →
  reshape (szs ++ [length x]) (l ++ x) = reshape szs l ++ [x].
Proof.
  revert l. induction szs as [|n szs IH]; intros l Hl; simpl in *.
  - destruct l; [|done]. simpl. by rewrite take_ge by lia.
  - rewrite take_app_le, drop_app_le by lia. f_equal. apply IH. rewrite length_drop. lia.
Qed.

Lemma sum_list_to_nat (l : list Z) :
  Forall (λ x, 0 ≤ x) l → Z.of_nat (sum_list (Z.to_nat <$> l)) = sum_Z l.
Proof. unfold sum_Z. induction 1 as [|x l Hx _ IH]; csimpl; [done|]. rewrite <- IH. lia. Qed.

Lemma ring_list_Forall {A} `{Inhabited A} (P : A → Prop) (a : list A) h n :
  (0 < length a)%nat → Forall P a → Forall P (ring_list a h n).
Proof.
  intros Hl HP. unfold ring_list. apply Forall_fmap, Forall_forall. intros k _. simpl. unfold zget.
  pose proof (ring_index_range (Z.of_nat (length a)) (h + Z.of_nat k) ltac:(lia)).
  apply (Forall_lookup_total_1 _ _ _ HP). lia.
Qed.

(** ** Finite maps *)

(** The sum of [f] over the values of a map. *)
Definition total {A} (f : A → Z) (m : gmap Z A) : Z := sum_Z (f <$> (map_to_list m).*2).

Section maps.
Context {A : Type}.
Implicit Types (m : gmap Z A) (f : A → Z).

Lemma total_delete f m k x : m !! k = Some x → total f m = f x + total f (delete k m).
Proof.
  intros Hk. unfold total. rewrite <- (insert_delete_id m k x Hk) at 1.
  rewrite map_to_list_insert by apply lookup_delete_eq. done.
Qed.

Lemma total_insert f m k x : total f (<[k := x]> m) = f x + total f (delete k m).
Proof. rewrite (total_delete f _ k x) by apply lookup_insert_eq. by rewrite delete_insert_eq. Qed.

Lemma total_nonneg f m : (∀ k x, m !! k = Some x → 0 ≤ f x) → 0 ≤ total f m.
Proof.
  intros Hf. apply sum_Z_nonneg, Forall_fmap, Forall_fmap, Forall_forall. intros [k x] Hin.
  apply elem_of_map_to_list in Hin. by apply (Hf k).
Qed.

Lemma alter_absent (g : A → A) m k : m !! k = None → alter g k m = m.
Proof. intros Hk. apply alter_id. intros x Hx. congruence. Qed.

Lemma alter_present (g : A → A) m k x : m !! k = Some x → alter g k m = <[k := g x]> m.
Proof.
  intros Hk. apply map_eq. intros k'. destruct (decide (k' = k)) as [->|Hne].
  - by rewrite lookup_alter_eq, lookup_insert_eq, Hk.
  - by rewrite lookup_alter_ne, lookup_insert_ne.
Qed.
End maps.

(** ** Sequences of operations *)

(** The results of a sequence of operations and the state it ends in. *)
Fixpoint run_ops {S O R} (step : S → O → R * S) (s : S) (ops : list O) : list R * S :=
  match ops with
  | [] => ([], s)
  | op :: ops' =>
    let '(r, s') := step s op in
    let '(rs, s'') := run_ops step s' ops' in (r :: rs, s'')
  end.

(** A machine whose steps agree with those of an abstract one agrees with it
    on sequences. *)
Lemma run_ops_simulation {S A O R} (step : S → O → R * S) (spec : A → O → R * A) (wf : S → Prop) (abs : S → A) :
  (∀ s op, wf s → wf (step s op).2 ∧ spec (abs s) op = ((step s op).1, abs (step s op).2)) →
  ∀ s ops, wf s →
    wf (run_ops step s ops).2 ∧ run_ops spec (abs s) ops = ((run_ops step s ops).1, abs (run_ops step s ops).2).
Proof.
  intros Hstep s ops. revert s. induction ops as [|op ops IH]; intros s Hwf; simpl; [done|].
  destruct (Hstep s op Hwf) as [Hwf' ->]. destruct (step s op) as [r s']. simpl in *.
  destruct (IH s' Hwf') as [? ->]. by destruct (run_ops step s' ops).
Qed.

Lemma run_ops_cons {S O R} (step : S → O → R * S) s op ops :
  run_ops step s (op :: ops)
  = ((step s op).1 :: (run_ops step (step s op).2 ops).1, (run_ops step (step s op).2 ops).2).
Proof. simpl. destruct (step s op) as [r s']. simpl. by destruct (run_ops step s' ops). Qed.
