(* ===== verification/BoundedQueue.v ===== *)
(** The fixed-storage FIFO with a queue-head claim,
    [naos::ipc::bounded_queue<T>] of includes/kernel/ipc/bounded_queue.hpp.

    The queue is a circular array; a receive transaction first claims the head
    and later commits or cancels the claim.  The file gives the operations as
    the header writes them, a well-formedness invariant they preserve, the
    abstract queue they implement and the refinement between the two.  [T] is
    the pointer type the channels use: assignment copies, [T{}] is the null
    pointer [T_default]. *)
From stdpp Require Import base list numbers.
From S2P Require Import Prelude.

Local Open Scope Z_scope.

Create HintDb queue.

(** [storage_] is [None] when the owner passed a null storage pointer. *)
Record bounded_queue (T : Type) : Type := Build_bounded_queue {
  storage_ : option (list T);
  capacity_ : Z;
  head_ : Z;
  count_ : Z;
  claimed_ : bool;
}.
Arguments Build_bounded_queue {T} _ _ _ _ _.
Arguments storage_ {T} _.
Arguments capacity_ {T} _.
Arguments head_ {T} _.
Arguments count_ {T} _.
Arguments claimed_ {T} _.

(** The abstract FIFO the header promises: the queued values in order and
    whether the first one belongs to a receive transaction. *)
Record fifo (T : Type) : Type := Build_fifo {
  fifo_limit : Z;
  fifo_items : list T;
  fifo_claimed : bool;
}.
Arguments Build_fifo {T} _ _ _.
Arguments fifo_limit {T} _.
Arguments fifo_items {T} _.
Arguments fifo_claimed {T} _.

Section queue.
Context {T : Type} `{EqDecision T} (T_default : T).
#[local] Instance T_inhabited : Inhabited T := populate T_default.
Implicit Types (q : bounded_queue T) (value : T).

Definition make_bounded_queue (storage : option (list T)) (capacity : Z) : bounded_queue T :=
  Build_bounded_queue storage capacity 0 0 false.

Definition storage_of q : list T := match storage_ q with Some s => s | None => [] end.

(** [storage_[(head_ + offset) % capacity_]]. *)
Definition queue_at q (offset : Z) : T :=
  zget (storage_of q) (u64 (head_ q + offset) mod capacity_ q).

Definition queue_front q : T := zget (storage_of q) (head_ q).

Definition try_push q value : bool * bounded_queue T :=
  match storage_ q with
  | None => (false, q)
  | Some s =>
    if (capacity_ q =? 0) || (count_ q =? capacity_ q) then (false, q)
    else (true, Build_bounded_queue
                  (Some (zset s (u64 (head_ q + count_ q) mod capacity_ q) value))
                  (capacity_ q) (head_ q) (u64 (count_ q + 1)) (claimed_ q))
  end.

Definition claim_front q : bool * bounded_queue T :=
  if (count_ q =? 0) || claimed_ q then (false, q)
  else (true, Build_bounded_queue (storage_ q) (capacity_ q) (head_ q) (count_ q) true).

(** The search loop of [remove]: the first offset that holds [value], or
    [count_].  The loop runs at most [count_] times, which is the fuel. *)
Fixpoint find_offset (fuel : nat) q value (offset : Z) : Z :=
  match fuel with
  | O => offset
  | S fuel' =>
    if (offset <? count_ q) && negb (bool_decide (queue_at q offset = value))
    then find_offset fuel' q value (offset + 1)
    else offset
  end.

(** The shift loop of [remove], on the storage array. *)
Fixpoint shift_loop (fuel : nat) (s : list T) (head cap count current : Z) : list T :=
  match fuel with
  | O => s
  | S fuel' =>
    if current + 1 <? count
    then shift_loop fuel'
           (zset s (u64 (head + current) mod cap) (zget s (u64 (head + current + 1) mod cap)))
           head cap count (current + 1)
    else s
  end.

Definition queue_remove q value : bool * bounded_queue T :=
  if count_ q =? 0 then (false, q)
  else
    let offset := find_offset (Z.to_nat (count_ q)) q value 0 in
    if (offset =? count_ q) || (claimed_ q && (offset =? 0)) then (false, q)
    else
      let s := shift_loop (Z.to_nat (count_ q)) (storage_of q) (head_ q) (capacity_ q)
                 (count_ q) offset in
      let s' := zset s (u64 (head_ q + count_ q - 1) mod capacity_ q) T_default in
      (true, Build_bounded_queue (Some s') (capacity_ q) (head_ q) (u64 (count_ q - 1)) (claimed_ q)).

Definition cancel_claim q : bounded_queue T :=
  Build_bounded_queue (storage_ q) (capacity_ q) (head_ q) (count_ q) false.

Definition commit_claim q : bounded_queue T :=
  if negb (claimed_ q) || (count_ q =? 0) then q
  else Build_bounded_queue (storage_ q) (capacity_ q) (u64 (head_ q + 1) mod capacity_ q)
         (u64 (count_ q - 1)) false.

Definition is_claimed q : bool := claimed_ q.
Definition queue_empty q : bool := count_ q =? 0.
Definition queue_full q : bool := negb (capacity_ q =? 0) && (count_ q =? capacity_ q).
Definition queue_size q : Z := count_ q.

(** ** The abstract queue *)

Definition fifo_push (f : fifo T) value : bool * fifo T :=
  if Z.of_nat (length (fifo_items f)) <? fifo_limit f
  then (true, Build_fifo (fifo_limit f) (fifo_items f ++ [value]) (fifo_claimed f))
  else (false, f).

Definition fifo_claim (f : fifo T) : bool * fifo T :=
  match fifo_items f, fifo_claimed f with
  | _ :: _, false => (true, Build_fifo (fifo_limit f) (fifo_items f) true)
  | _, _ => (false, f)
  end.

Definition fifo_cancel (f : fifo T) : fifo T :=
  Build_fifo (fifo_limit f) (fifo_items f) false.

Definition fifo_commit (f : fifo T) : fifo T :=
  match fifo_items f, fifo_claimed f with
  | _ :: items, true => Build_fifo (fifo_limit f) items false
  | _, _ => f
  end.

(** Remove the first occurrence of [value], unless it is the claimed head. *)
Definition fifo_remove (f : fifo T) value : bool * fifo T :=
  match list_find (λ x, x = value) (fifo_items f) with
  | None => (false, f)
  | Some (k, _) =>
    if fifo_claimed f && bool_decide (k = 0%nat) then (false, f)
    else (true, Build_fifo (fifo_limit f)
                  (take k (fifo_items f) ++ drop (S k) (fifo_items f)) (fifo_claimed f))
  end.

(** ** Invariant and abstraction *)

(** Capacities are bounded because the storage is an array of pointers in one
    address space. *)
Record queue_wf q : Prop := Build_queue_wf {
  qwf_storage : ∃ s, storage_ q = Some s ∧ Z.of_nat (length s) = capacity_ q;
  qwf_capacity : 0 < capacity_ q ≤ 2 ^ 61;
  qwf_head : 0 ≤ head_ q < capacity_ q;
  qwf_count : 0 ≤ count_ q ≤ capacity_ q;
  qwf_claim : claimed_ q = true → 0 < count_ q;
}.

Definition queue_items q : list T := ring_list (storage_of q) (head_ q) (count_ q).

Definition queue_fifo q : fifo T := Build_fifo (capacity_ q) (queue_items q) (claimed_ q).

(** ** Operation sequences *)

(** Every public operation that changes the queue, with its boolean result
    ([true] for the operations that return nothing). *)
Inductive queue_op : Type :=
| OpPush (value : T)
| OpClaim
| OpCancel
| OpCommit
| OpRemove (value : T).

Definition queue_step q (op : queue_op) : bool * bounded_queue T :=
  match op with
  | OpPush v => try_push q v
  | OpClaim => claim_front q
  | OpCancel => (true, cancel_claim q)
  | OpCommit => (true, commit_claim q)
  | OpRemove v => queue_remove q v
  end.

Definition fifo_step (f : fifo T) (op : queue_op) : bool * fifo T :=
  match op with
  | OpPush v => fifo_push f v
  | OpClaim => fifo_claim f
  | OpCancel => (true, fifo_cancel f)
  | OpCommit => (true, fifo_commit f)
  | OpRemove v => fifo_remove f v
  end.

(** ** Lemmas *)

Lemma queue_wf_storage q :
  queue_wf q → storage_ q = Some (storage_of q) ∧ Z.of_nat (length (storage_of q)) = capacity_ q.
Proof.
  intros [(s & Hs & Hlen) _ _ _ _]. unfold storage_of. rewrite Hs. done.
Qed.

(** Under the invariant no index computation of the queue wraps. *)
Lemma queue_index q k :
  queue_wf q → 0 ≤ k ≤ capacity_ q → u64 (head_ q + k) = head_ q + k.
Proof. intros [] Hk. apply u64_small. lia. Qed.

Lemma make_bounded_queue_wf s :
  0 < Z.of_nat (length s) ≤ 2 ^ 61 →
  queue_wf (make_bounded_queue (Some s) (Z.of_nat (length s))).
Proof. intros. split; simpl; eauto; lia || done. Qed.

Lemma queue_items_length q : queue_wf q → Z.of_nat (length (queue_items q)) = count_ q.
Proof. intros []. unfold queue_items. rewrite length_ring_list. lia. Qed.

Lemma queue_items_lookup q k :
  queue_wf q → 0 ≤ k < count_ q → queue_items q !! Z.to_nat k = Some (queue_at q k).
Proof.
  intros Hwf Hk. pose proof (queue_wf_storage q Hwf) as [_ Hlen].
  unfold queue_items. rewrite ring_list_lookup by lia. f_equal. unfold queue_at.
  destruct Hwf. rewrite Hlen, u64_small by lia. do 2 f_equal. lia.
Qed.

Lemma queue_front_items q :
  queue_wf q → 0 < count_ q → ∃ rest, queue_items q = queue_front q :: rest.
Proof.
  intros Hwf Hc. pose proof (queue_wf_storage q Hwf) as [_ Hlen]. destruct Hwf.
  unfold queue_items, queue_front. rewrite ring_list_pop by lia. eauto.
Qed.

Lemma try_push_refines q value :
  queue_wf q →
  queue_wf (try_push q value).2 ∧
  fifo_push (queue_fifo q) value = ((try_push q value).1, queue_fifo (try_push q value).2).
Proof.
  intros Hwf. pose proof (queue_wf_storage q Hwf) as [Hs Hlen].
  pose proof (queue_items_length q Hwf) as Hil.
  unfold fifo_push, try_push. simpl. rewrite Hs, Hil. destruct Hwf.
  destruct (Z.eqb_spec (capacity_ q) 0); [lia|]. simpl.
  destruct (Z.eqb_spec (count_ q) (capacity_ q)) as [E|E]; simpl.
  { split; [by split|]. by rewrite (proj2 (Z.ltb_ge _ _)) by lia. }
  rewrite (proj2 (Z.ltb_lt _ _)) by lia. rewrite !u64_small by lia. split.
  - split; simpl; [|lia..]. eexists. split; [done|]. rewrite length_zset. done.
  - unfold queue_fifo, queue_items. cbn [storage_of storage_ capacity_ head_ count_ claimed_].
    rewrite <- Hlen, ring_list_push by lia. done.
Qed.

Lemma claim_front_refines q :
  queue_wf q →
  queue_wf (claim_front q).2 ∧
  fifo_claim (queue_fifo q) = ((claim_front q).1, queue_fifo (claim_front q).2).
Proof.
  intros Hwf. pose proof (queue_items_length q Hwf) as Hil.
  unfold claim_front, fifo_claim. simpl.
  destruct (Z.eqb_spec (count_ q) 0) as [E|E]; simpl.
  { split; [done|]. destruct (queue_items q) eqn:Hq; [done|]. simpl in Hil. lia. }
  destruct (queue_items q) eqn:Hq; [simpl in Hil; lia|].
  destruct (claimed_ q) eqn:Hcl; simpl; [by split|]. split.
  - destruct Hwf. split; simpl; eauto; lia.
  - unfold queue_fifo, queue_items, storage_of in *. simpl. by rewrite Hq.
Qed.

Lemma cancel_claim_refines q :
  queue_wf q →
  queue_wf (cancel_claim q) ∧ fifo_cancel (queue_fifo q) = queue_fifo (cancel_claim q).
Proof. intros Hwf. split; [|done]. destruct Hwf. by split. Qed.

Lemma commit_claim_refines q :
  queue_wf q →
  queue_wf (commit_claim q) ∧ fifo_commit (queue_fifo q) = queue_fifo (commit_claim q).
Proof.
  intros Hwf. pose proof (queue_wf_storage q Hwf) as [Hs Hlen].
  unfold commit_claim, fifo_commit. simpl.
  destruct (claimed_ q) eqn:Hcl; simpl; [|by destruct (queue_items q)].
  destruct (Z.eqb_spec (count_ q) 0) as [E|E].
  { destruct Hwf as [? ? ? ? Hc]. specialize (Hc Hcl). lia. }
  destruct Hwf. rewrite !u64_small by lia.
  pose proof (ring_index_range (capacity_ q) (head_ q + 1) ltac:(lia)). split.
  - split; simpl; eauto; lia || done.
  - unfold queue_items, queue_fifo. simpl. rewrite ring_list_pop by lia.
    unfold queue_items, storage_of in *. simpl. by rewrite Hlen.
Qed.

(** The search loop stops at the first queued occurrence of [value]. *)
Lemma find_offset_spec q value fuel offset :
  queue_wf q → 0 ≤ offset ≤ count_ q → count_ q - offset ≤ Z.of_nat fuel →
  let r := find_offset fuel q value offset in
  offset ≤ r ≤ count_ q ∧ (∀ k, offset ≤ k < r → queue_at q k ≠ value) ∧
  (r < count_ q → queue_at q r = value).
Proof.
  intros Hwf. revert offset. induction fuel as [|fuel IH]; intros offset Ho Hf; simpl.
  { repeat split; lia. }
  destruct (Z.ltb_spec (offset) (count_ q)) as [Hlt|Hge]; simpl; [|repeat split; lia].
  destruct (decide (queue_at q offset = value)) as [He|Hne].
  - rewrite bool_decide_true by done. simpl. repeat split; [lia..|done].
  - rewrite bool_decide_false by done. simpl.
    destruct (IH (offset + 1)) as (Hr & Hb & He); [lia..|]. repeat split; [lia..| |done].
    intros k Hk. destruct (decide (k = offset)) as [->|]; [done|]. apply Hb. lia.
Qed.

Lemma find_offset_list_find q value :
  queue_wf q → let r := find_offset (Z.to_nat (count_ q)) q value 0 in
  0 ≤ r ≤ count_ q ∧
  list_find (λ x, x = value) (queue_items q)
    = if r =? count_ q then None else Some (Z.to_nat r, value).
Proof.
  intros Hwf. pose proof (queue_items_length q Hwf) as Hlen.
  assert (0 ≤ count_ q) by (destruct Hwf; lia).
  destruct (find_offset_spec q value (Z.to_nat (count_ q)) 0) as (Hr & Hb & He); [done|lia..|].
  cbv zeta in *. set (r := find_offset _ q value 0) in *. split; [done|].
  destruct (Z.eqb_spec r (count_ q)) as [E|E].
  - apply list_find_None, Forall_lookup. intros i x Hx.
    pose proof (lookup_lt_Some _ _ _ Hx).
    rewrite <- (Nat2Z.id i), queue_items_lookup in Hx by (done || lia).
    injection Hx as <-. apply Hb. lia.
  - apply list_find_Some. rewrite queue_items_lookup by (done || lia).
    repeat split; [by rewrite He by lia|]. intros i x Hx Hi.
    rewrite <- (Nat2Z.id i), queue_items_lookup in Hx by (done || lia).
    injection Hx as <-. apply Hb. lia.
Qed.

(** What the shift loop leaves at every queued position. *)
Lemma shift_loop_spec fuel s h c n cur :
  Z.of_nat (length s) = c → 0 < c ≤ 2 ^ 61 → 0 ≤ h < c → n ≤ c → 0 ≤ cur →
  n - cur ≤ Z.of_nat fuel →
  length (shift_loop fuel s h c n cur) = length s ∧
  ∀ k, 0 ≤ k < n →
    zget (shift_loop fuel s h c n cur) ((h + k) mod c)
    = zget s ((h + (if (cur <=? k) && (k + 1 <? n) then k + 1 else k)) mod c).
Proof.
  intros Hlen Hc Hh Hn. revert s cur Hlen. induction fuel as [|fuel IH]; intros s cur Hlen Hcur Hf.
  { split; [done|]. intros k Hk. simpl. by rewrite (proj2 (Z.leb_gt _ _)) by lia. }
  simpl. destruct (Z.ltb_spec (cur + 1) n) as [Hlt|Hge].
  2: { split; [done|]. intros k Hk. rewrite andb_comm.
       destruct (Z.ltb_spec (k + 1) n); simpl; [|done]. by rewrite (proj2 (Z.leb_gt _ _)) by lia. }
  rewrite !u64_small by lia.
  destruct (IH (zset s ((h + cur) mod c) (zget s ((h + cur + 1) mod c))) (cur + 1)) as [IHl IHk];
    [by rewrite length_zset|lia..|]. split; [by rewrite IHl, length_zset|].
  intros k Hk. rewrite IHk by done.
  pose proof (ring_index_range c (h + cur) ltac:(lia)).
  destruct (Z.leb_spec (cur + 1) k), (Z.ltb_spec (k + 1) n), (Z.leb_spec cur k);
    simpl; try lia;
    match goal with
    | |- zget _ ((h + ?j) mod c) = _ =>
      pose proof (ring_index_range c (h + j) ltac:(lia));
      destruct (decide (j = cur)) as [Ej|];
      [rewrite Ej, zget_zset_eq by lia; do 2 f_equal; lia
      |rewrite zget_zset_ne; [first [done|lia]|lia..|intros E; apply ring_index_inj in E; lia]]
    end.
Qed.

Lemma queue_remove_items q off :
  queue_wf q → 0 ≤ off < count_ q →
  let s := shift_loop (Z.to_nat (count_ q)) (storage_of q) (head_ q) (capacity_ q) (count_ q) off in
  let s' := zset s ((head_ q + count_ q - 1) mod capacity_ q) T_default in
  length s' = length (storage_of q) ∧
  ring_list s' (head_ q) (count_ q - 1)
    = take (Z.to_nat off) (queue_items q) ++ drop (S (Z.to_nat off)) (queue_items q).
Proof.
  intros Hwf Ho s s'. pose proof (queue_wf_storage q Hwf) as [_ Hlen].
  pose proof (queue_items_length q Hwf) as Hil. pose proof Hwf as [_ Hcap Hh Hcnt _].
  destruct (shift_loop_spec (Z.to_nat (count_ q)) (storage_of q) (head_ q) (capacity_ q)
              (count_ q) off) as [Hl Hk]; [done|lia..|]. fold s in Hl, Hk.
  assert (length s' = length (storage_of q)) as Hl' by (unfold s'; by rewrite length_zset).
  split; [done|].
  apply list_eq_same_length with (n := Z.to_nat (count_ q - 1)).
  { rewrite length_app, length_take, length_drop. lia. }
  { by rewrite length_ring_list. }
  intros i x y Hi Hx Hy. rewrite ring_list_lookup in Hx by done.
  rewrite Hl', Hlen in Hx. unfold s' in Hx.
  pose proof (ring_index_range (capacity_ q) (head_ q + Z.of_nat i) ltac:(lia)).
  pose proof (ring_index_range (capacity_ q) (head_ q + count_ q - 1) ltac:(lia)).
  rewrite zget_zset_ne in Hx; [|lia..|].
  2: { replace (head_ q + count_ q - 1) with (head_ q + (count_ q - 1)) by lia.
       intros E. apply ring_index_inj in E; lia. }
  rewrite Hk in Hx by lia.
  assert (∀ k, 0 ≤ k < count_ q →
    queue_items q !! Z.to_nat k = Some (zget (storage_of q) ((head_ q + k) mod capacity_ q))) as Hq.
  { intros k Hkr. rewrite queue_items_lookup by done. unfold queue_at. by rewrite u64_small by lia. }
  destruct (Z.leb_spec off (Z.of_nat i)); simpl in Hx.
  - rewrite (proj2 (Z.ltb_lt _ _)) in Hx by lia.
    rewrite lookup_app_r, lookup_drop in Hy by (rewrite length_take; lia).
    rewrite length_take in Hy.
    replace (S (Z.to_nat off) + (i - _ `min` _))%nat with (Z.to_nat (Z.of_nat i + 1)) in Hy by lia.
    rewrite Hq in Hy by lia. congruence.
  - rewrite lookup_app_l, lookup_take_lt in Hy by (rewrite ?length_take; lia).
    rewrite <- (Nat2Z.id i), Hq in Hy by lia. congruence.
Qed.

Lemma queue_remove_refines q value :
  queue_wf q →
  queue_wf (queue_remove q value).2 ∧
  fifo_remove (queue_fifo q) value = ((queue_remove q value).1, queue_fifo (queue_remove q value).2).
Proof.
  intros Hwf. pose proof (find_offset_list_find q value Hwf) as [Hr Hf]. cbv zeta in Hf, Hr.
  unfold queue_remove, fifo_remove. cbn [fifo_items queue_fifo fifo_claimed fifo_limit].
  rewrite Hf. set (r := find_offset _ q value 0) in *.
  destruct (Z.eqb_spec (count_ q) 0) as [E0|E0].
  { rewrite (proj2 (Z.eqb_eq _ _)) by lia. done. }
  destruct (Z.eqb_spec r (count_ q)) as [E|E]; [done|]. simpl.
  replace (bool_decide (Z.to_nat r = 0%nat)) with (r =? 0)
    by (destruct (Z.eqb_spec r 0); [rewrite bool_decide_true|rewrite bool_decide_false]; done || lia).
  destruct (claimed_ q && (r =? 0)) eqn:Hcl; [done|]. simpl.
  pose proof Hwf as [_ Hcap Hh Hcnt Hclm]. rewrite !u64_small by lia.
  destruct (queue_remove_items q r Hwf ltac:(lia)) as [Hl Hi]; cbv zeta in Hl, Hi. split.
  - pose proof (queue_wf_storage q Hwf) as [_ Hlen]. split; simpl; [|lia..|].
    + eexists. split; [done|]. lia.
    + intros Hq. rewrite Hq in Hcl. specialize (Hclm Hq). simpl in Hcl. lia.
  - unfold queue_fifo, queue_items at 3.
    cbn [storage_of storage_ capacity_ head_ count_ claimed_]. by rewrite Hi.
Qed.

#[local] Hint Resolve try_push_refines claim_front_refines cancel_claim_refines
  commit_claim_refines queue_remove_refines : queue.

Lemma queue_step_refines q op :
  queue_wf q →
  queue_wf (queue_step q op).2 ∧
  fifo_step (queue_fifo q) op = ((queue_step q op).1, queue_fifo (queue_step q op).2).
Proof.
  intros Hwf. destruct op; simpl; auto with queue.
  - destruct (cancel_claim_refines q Hwf) as [? ->]. done.
  - destruct (commit_claim_refines q Hwf) as [? ->]. done.
Qed.

(** C31: Refinement.  From any well-formed queue, every sequence of pushes,
    claims, cancels, commits and removals returns exactly the results the
    abstract FIFO returns and ends in a well-formed queue that holds the
    abstract FIFO's contents, although storage positions wrap around. *)
Theorem bounded_queue_refines_fifo q ops :
  queue_wf q →
  queue_wf (run_ops queue_step q ops).2 ∧
  run_ops fifo_step (queue_fifo q) ops
    = ((run_ops queue_step q ops).1, queue_fifo (run_ops queue_step q ops).2).
Proof.
  apply (run_ops_simulation queue_step fifo_step queue_wf queue_fifo). apply queue_step_refines.
Qed.

(** Operations that other threads may interleave with a receive transaction. *)
Definition keeps_claim (op : queue_op) : bool :=
  match op with OpCancel | OpCommit => false | _ => true end.

Lemma fifo_step_keeps_head f op x items :
  fifo_items f = x :: items → fifo_claimed f = true → keeps_claim op = true →
  ∃ items', fifo_items (fifo_step f op).2 = x :: items' ∧ fifo_claimed (fifo_step f op).2 = true
            ∧ (op = OpClaim → (fifo_step f op).1 = false).
Proof.
  intros Hi Hc Hk. destruct op; try done; simpl.
  - unfold fifo_push. rewrite Hi. destruct (_ <? _); simpl; rewrite ?Hi; eauto with congruence.
  - unfold fifo_claim. rewrite Hi, Hc. simpl. eauto.
  - unfold fifo_remove. rewrite Hi, Hc.
    destruct (list_find _ _) as [[[|k] y]|] eqn:Hf; simpl; eauto.
    exists (take k items ++ drop (S k) items). done.
Qed.

(** A claimed head belongs to one receive transaction.  While the claim is
    held, pushes, removals and further claims by others leave the head value
    in place, no second claim succeeds, and the commit that ends the
    transaction takes off exactly that value. *)
Theorem claimed_head_is_exclusive q ops :
  queue_wf q → claimed_ q = true → forallb keeps_claim ops = true →
  let '(results, q') := run_ops queue_step q ops in
  queue_front q' = queue_front q ∧ claimed_ q' = true ∧
  queue_items q' = queue_front q :: queue_items (commit_claim q') ∧
  (∀ i, ops !! i = Some OpClaim → results !! i = Some false).
Proof.
  revert q. induction ops as [|op ops IH]; intros q Hwf Hc Hk; simpl.
  - pose proof (commit_claim_refines q Hwf) as [_ Hcm].
    destruct (queue_front_items q Hwf) as [rest Hr]; [by apply qwf_claim|].
    repeat split; [done| |intros i; by rewrite lookup_nil].
    apply (f_equal fifo_items) in Hcm. unfold fifo_commit in Hcm. simpl in Hcm.
    rewrite Hr, Hc in Hcm. simpl in Hcm. congruence.
  - apply andb_prop in Hk as [Hk Hks].
    destruct (queue_step_refines q op Hwf) as [Hwf' Hst].
    destruct (queue_front_items q Hwf) as [rest Hr]; [by apply qwf_claim|].
    destruct (fifo_step_keeps_head (queue_fifo q) op (queue_front q) rest Hr Hc Hk)
      as (items' & Hi' & Hc' & Hcl).
    rewrite Hst in Hi', Hc', Hcl. destruct (queue_step q op) as [r q1] eqn:Hs. simpl in *.
    destruct (queue_front_items q1 Hwf') as [rest1 Hr1]; [by apply qwf_claim|].
    assert (queue_front q1 = queue_front q) as Hf by congruence.
    specialize (IH q1 Hwf' Hc' Hks). destruct (run_ops queue_step q1 ops) as [rs q2].
    rewrite Hf in IH. destruct IH as (? & ? & ? & Hn). repeat split; try done.
    intros [|i] Hop; simpl in *; [|auto]. injection Hop as ->. by rewrite Hcl.
Qed.

End queue.

Lemma bounded_queue_refines_fifo_witness :
  let q := make_bounded_queue (Some [0; 0; 0]) 3 in
  let ops := [OpPush 7; OpPush 8; OpClaim; OpCommit; OpPush 9; OpPush 10; OpRemove 9; OpClaim] in
  run_ops (fifo_step (T := Z)) (queue_fifo 0 q) ops
    = ((run_ops (queue_step 0) q ops).1, queue_fifo 0 (run_ops (queue_step 0) q ops).2).
Proof.
  intros q ops. apply (bounded_queue_refines_fifo 0 q ops).
  apply (make_bounded_queue_wf [0; 0; 0]). simpl. lia.
Defined.

Lemma claimed_head_is_exclusive_witness :
  let q := (claim_front (try_push (make_bounded_queue (Some [0; 0]) 2) 5).2).2 in
  queue_front 0 (run_ops (queue_step 0) q [OpPush 6; OpClaim; OpRemove 5]).2 = 5.
Proof.
  intros q.
  pose proof (claimed_head_is_exclusive 0 q [OpPush 6; OpClaim; OpRemove 5]) as H.
  assert (queue_wf q) as Hwf.
  { split; [exists [5; 0]; done|vm_compute..]; [split; [reflexivity|discriminate]|
      split; [discriminate|reflexivity]|split; discriminate|done]. }
  specialize (H Hwf eq_refl eq_refl).
  destruct (run_ops (queue_step 0) q [OpPush 6; OpClaim; OpRemove 5]) as [rs q'] eqn:E.
  destruct H as [H _]. exact H.
Defined.
