(* ===== verification/TerminalCore.v ===== *)
(** The user-space PTY line discipline, [ttyd::terminal_core] of
    src/usr/ttyd/terminal_core.hpp and terminal_core.cc.

    One record holds the object's fields; each public method is a definition
    over it.  An [int] result that is a byte count is [Done n] and a negative
    errno is [Fail e].  The control-event handler is called through a function
    pointer into the service: a call is recorded in the ghost field [raised_]
    and the handler does not re-enter the object.  [std::size_t] arithmetic on
    queue positions and sizes stays within [queue_capacity] (the invariant
    [tty_wf] of TerminalFacts.v), so it is written without wrap-around;
    [eof_count_], [generation_] and the 16-bit record sizes wrap as in the
    source. *)
From stdpp Require Import base list numbers.
From S2P Require Import Prelude.

Local Open Scope Z_scope.

(** ** Data *)

Definition queue_capacity : Z := 4096.
Arguments queue_capacity : simpl never.

(** A zero-initialised array of [queue_capacity] elements. *)
Definition zeros : list Z := replicate (Z.to_nat queue_capacity) 0.
Arguments zeros : simpl never.

Record termios : Type := Build_termios {
  input_flags : Z;
  output_flags : Z;
  control_flags : Z;
  local_flags : Z;
  line_ : Z;
  control_chars : list Z;
  input_baud : Z;
  output_baud : Z;
}.

Record winsize : Type := Build_winsize {
  rows : Z;
  columns : Z;
  x_pixels : Z;
  y_pixels : Z;
}.

Inductive control_event : Type := interrupt | quit | suspend.

Module termios_cc.
Definition vintr : Z := 0.
Definition vquit : Z := 1.
Definition verase : Z := 2.
Definition vkill : Z := 3.
Definition veof : Z := 4.
Definition vtime : Z := 5.
Definition vmin : Z := 6.
Definition vstart : Z := 8.
Definition vstop : Z := 9.
Definition vsusp : Z := 10.
End termios_cc.

(** The flag values are octal in the header; here in hexadecimal. *)
Module termios_iflag.
Definition inlcr : Z := 0x40.
Definition igncr : Z := 0x80.
Definition icrnl : Z := 0x100.
Definition ixon : Z := 0x400.
Definition ixany : Z := 0x800.
Definition supported : Z := Z.lor inlcr (Z.lor igncr (Z.lor icrnl (Z.lor ixon ixany))).
End termios_iflag.

Module termios_oflag.
Definition opost : Z := 0x1.
Definition onlcr : Z := 0x4.
Definition supported : Z := Z.lor opost onlcr.
End termios_oflag.

Module termios_cflag.
Definition cs8 : Z := 0x30.
Definition cread : Z := 0x80.
Definition supported : Z := Z.lor cs8 cread.
End termios_cflag.

Module termios_lflag.
Definition isig : Z := 0x1.
Definition icanon : Z := 0x2.
Definition echo : Z := 0x8.
Definition echoe : Z := 0x10.
Definition echok : Z := 0x20.
Definition echonl : Z := 0x40.
Definition noflsh : Z := 0x80.
Definition tostop : Z := 0x100.
Definition ixten : Z := 0x8000.
Definition supported : Z :=
  Z.lor isig (Z.lor icanon (Z.lor echo (Z.lor echoe (Z.lor echok
    (Z.lor echonl (Z.lor noflsh (Z.lor tostop ixten))))))).
End termios_lflag.

Module tty_poll.
Definition readable : Z := 0x001.
Definition writable : Z := 0x004.
Definition error : Z := 0x008.
Definition hangup : Z := 0x010.
End tty_poll.

Definition chr_lf : Z := 10.
Definition chr_cr : Z := 13.
Definition chr_bs : Z := 8.
Definition chr_space : Z := 32.

Inductive tty_errno : Type := EINVAL | EIO | EPIPE | EAGAIN | ENOTSUP.
Inductive tty_result : Type := Done (n : Z) | Fail (e : tty_errno).

(** A [(pointer, size)] pair passed by a caller: a null pointer with the size
    the caller named, or the bytes it points to. *)
Inductive source_buffer : Type := NullSource (size : Z) | Bytes (bytes : list Z).

(** A destination [(pointer, size)] pair. *)
Record dest_buffer : Type := Build_dest { dest_null : bool; dest_size : Z }.

(** ** The byte ring *)

Record ring : Type := Build_ring {
  data_ : list Z;
  ring_head_ : Z;
  ring_size_ : Z;
}.

Definition empty_ring : ring := Build_ring zeros 0 0.

Definition ring_available (r : ring) : Z := ring_size_ r.
Definition ring_free_space (r : ring) : Z := queue_capacity - ring_size_ r.
Definition ring_empty (r : ring) : bool := ring_size_ r =? 0.
Definition ring_full (r : ring) : bool := ring_size_ r =? queue_capacity.

Definition ring_push (r : ring) (value : Z) : bool * ring :=
  if ring_full r then (false, r)
  else (true, Build_ring (zset (data_ r) ((ring_head_ r + ring_size_ r) mod queue_capacity) value)
                (ring_head_ r) (ring_size_ r + 1)).

Definition ring_pop (r : ring) : option Z * ring :=
  if ring_empty r then (None, r)
  else (Some (zget (data_ r) (ring_head_ r)),
        Build_ring (data_ r) ((ring_head_ r + 1) mod queue_capacity) (ring_size_ r - 1)).

Definition ring_clear (r : ring) : ring := Build_ring (data_ r) 0 0.

(** ** The terminal *)

Record terminal_core : Type := Build_terminal_core {
  input_ring_ : ring;
  output_ring_ : ring;
  canonical_line_ : list Z;
  canonical_size_ : Z;
  input_record_sizes_ : list Z;
  input_record_head_ : Z;
  input_record_count_ : Z;
  termios_ : termios;
  winsize_ : winsize;
  control_handler_ : option Z;
  control_handler_data_ : Z;
  eof_count_ : Z;
  output_paused_ : bool;
  input_shutdown_ : bool;
  master_hung_up_ : bool;
  slave_hung_up_ : bool;
  generation_ : Z;
  raised_ : list (control_event * Z);
}.

(** Field assignments. *)

Definition with_input_ring (r : ring) (t : terminal_core) : terminal_core :=
  Build_terminal_core r (output_ring_ t) (canonical_line_ t) (canonical_size_ t)
    (input_record_sizes_ t) (input_record_head_ t) (input_record_count_ t) (termios_ t)
    (winsize_ t) (control_handler_ t) (control_handler_data_ t) (eof_count_ t) (output_paused_ t)
    (input_shutdown_ t) (master_hung_up_ t) (slave_hung_up_ t) (generation_ t) (raised_ t).

Definition with_output_ring (r : ring) (t : terminal_core) : terminal_core :=
  Build_terminal_core (input_ring_ t) r (canonical_line_ t) (canonical_size_ t)
    (input_record_sizes_ t) (input_record_head_ t) (input_record_count_ t) (termios_ t)
    (winsize_ t) (control_handler_ t) (control_handler_data_ t) (eof_count_ t) (output_paused_ t)
    (input_shutdown_ t) (master_hung_up_ t) (slave_hung_up_ t) (generation_ t) (raised_ t).

Definition with_line (l : list Z) (n : Z) (t : terminal_core) : terminal_core :=
  Build_terminal_core (input_ring_ t) (output_ring_ t) l n (input_record_sizes_ t)
    (input_record_head_ t) (input_record_count_ t) (termios_ t) (winsize_ t) (control_handler_ t)
    (control_handler_data_ t) (eof_count_ t) (output_paused_ t) (input_shutdown_ t)
    (master_hung_up_ t) (slave_hung_up_ t) (generation_ t) (raised_ t).

Definition with_records (s : list Z) (h n : Z) (t : terminal_core) : terminal_core :=
  Build_terminal_core (input_ring_ t) (output_ring_ t) (canonical_line_ t) (canonical_size_ t) s h
    n (termios_ t) (winsize_ t) (control_handler_ t) (control_handler_data_ t) (eof_count_ t)
    (output_paused_ t) (input_shutdown_ t) (master_hung_up_ t) (slave_hung_up_ t) (generation_ t)
    (raised_ t).

Definition with_termios (v : termios) (t : terminal_core) : terminal_core :=
  Build_terminal_core (input_ring_ t) (output_ring_ t) (canonical_line_ t) (canonical_size_ t)
    (input_record_sizes_ t) (input_record_head_ t) (input_record_count_ t) v (winsize_ t)
    (control_handler_ t) (control_handler_data_ t) (eof_count_ t) (output_paused_ t)
    (input_shutdown_ t) (master_hung_up_ t) (slave_hung_up_ t) (generation_ t) (raised_ t).

Definition with_winsize (v : winsize) (t : terminal_core) : terminal_core :=
  Build_terminal_core (input_ring_ t) (output_ring_ t) (canonical_line_ t) (canonical_size_ t)
    (input_record_sizes_ t) (input_record_head_ t) (input_record_count_ t) (termios_ t) v
    (control_handler_ t) (control_handler_data_ t) (eof_count_ t) (output_paused_ t)
    (input_shutdown_ t) (master_hung_up_ t) (slave_hung_up_ t) (generation_ t) (raised_ t).

Definition with_handler (h : option Z) (d : Z) (t : terminal_core) : terminal_core :=
  Build_terminal_core (input_ring_ t) (output_ring_ t) (canonical_line_ t) (canonical_size_ t)
    (input_record_sizes_ t) (input_record_head_ t) (input_record_count_ t) (termios_ t)
    (winsize_ t) h d (eof_count_ t) (output_paused_ t) (input_shutdown_ t) (master_hung_up_ t)
    (slave_hung_up_ t) (generation_ t) (raised_ t).

Definition with_eof_count (n : Z) (t : terminal_core) : terminal_core :=
  Build_terminal_core (input_ring_ t) (output_ring_ t) (canonical_line_ t) (canonical_size_ t)
    (input_record_sizes_ t) (input_record_head_ t) (input_record_count_ t) (termios_ t)
    (winsize_ t) (control_handler_ t) (control_handler_data_ t) n (output_paused_ t)
    (input_shutdown_ t) (master_hung_up_ t) (slave_hung_up_ t) (generation_ t) (raised_ t).

Definition with_paused (b : bool) (t : terminal_core) : terminal_core :=
  Build_terminal_core (input_ring_ t) (output_ring_ t) (canonical_line_ t) (canonical_size_ t)
    (input_record_sizes_ t) (input_record_head_ t) (input_record_count_ t) (termios_ t)
    (winsize_ t) (control_handler_ t) (control_handler_data_ t) (eof_count_ t) b
    (input_shutdown_ t) (master_hung_up_ t) (slave_hung_up_ t) (generation_ t) (raised_ t).

Definition with_shutdown (b : bool) (t : terminal_core) : terminal_core :=
  Build_terminal_core (input_ring_ t) (output_ring_ t) (canonical_line_ t) (canonical_size_ t)
    (input_record_sizes_ t) (input_record_head_ t) (input_record_count_ t) (termios_ t)
    (winsize_ t) (control_handler_ t) (control_handler_data_ t) (eof_count_ t) (output_paused_ t)
    b (master_hung_up_ t) (slave_hung_up_ t) (generation_ t) (raised_ t).

Definition with_master_hup (b : bool) (t : terminal_core) : terminal_core :=
  Build_terminal_core (input_ring_ t) (output_ring_ t) (canonical_line_ t) (canonical_size_ t)
    (input_record_sizes_ t) (input_record_head_ t) (input_record_count_ t) (termios_ t)
    (winsize_ t) (control_handler_ t) (control_handler_data_ t) (eof_count_ t) (output_paused_ t)
    (input_shutdown_ t) b (slave_hung_up_ t) (generation_ t) (raised_ t).

Definition with_slave_hup (b : bool) (t : terminal_core) : terminal_core :=
  Build_terminal_core (input_ring_ t) (output_ring_ t) (canonical_line_ t) (canonical_size_ t)
    (input_record_sizes_ t) (input_record_head_ t) (input_record_count_ t) (termios_ t)
    (winsize_ t) (control_handler_ t) (control_handler_data_ t) (eof_count_ t) (output_paused_ t)
    (input_shutdown_ t) (master_hung_up_ t) b (generation_ t) (raised_ t).

Definition with_generation (n : Z) (t : terminal_core) : terminal_core :=
  Build_terminal_core (input_ring_ t) (output_ring_ t) (canonical_line_ t) (canonical_size_ t)
    (input_record_sizes_ t) (input_record_head_ t) (input_record_count_ t) (termios_ t)
    (winsize_ t) (control_handler_ t) (control_handler_data_ t) (eof_count_ t) (output_paused_ t)
    (input_shutdown_ t) (master_hung_up_ t) (slave_hung_up_ t) n (raised_ t).

Definition with_raised (l : list (control_event * Z)) (t : terminal_core) : terminal_core :=
  Build_terminal_core (input_ring_ t) (output_ring_ t) (canonical_line_ t) (canonical_size_ t)
    (input_record_sizes_ t) (input_record_head_ t) (input_record_count_ t) (termios_ t)
    (winsize_ t) (control_handler_ t) (control_handler_data_ t) (eof_count_ t) (output_paused_ t)
    (input_shutdown_ t) (master_hung_up_ t) (slave_hung_up_ t) (generation_ t) l.


Definition default_termios : termios :=
  Build_termios
    (Z.lor termios_iflag.icrnl termios_iflag.ixon)
    (Z.lor termios_oflag.opost termios_oflag.onlcr)
    (Z.lor termios_cflag.cs8 termios_cflag.cread)
    (Z.lor termios_lflag.isig (Z.lor termios_lflag.icanon (Z.lor termios_lflag.echo
      (Z.lor termios_lflag.echoe (Z.lor termios_lflag.echok termios_lflag.ixten)))))
    0
    ([3; 28; 127; 21; 4; 0; 1; 0; 17; 19; 26] ++ replicate 21 0)
    15 15.

Definition make_terminal_core : terminal_core :=
  Build_terminal_core empty_ring empty_ring zeros 0 zeros 0 0
    default_termios (Build_winsize 24 80 0 0) None 0 0 false false false false 1 [].

Definition lflag (t : terminal_core) (f : Z) : bool := has_flag (local_flags (termios_ t)) f.
Definition iflag (t : terminal_core) (f : Z) : bool := has_flag (input_flags (termios_ t)) f.
Definition oflag (t : terminal_core) (f : Z) : bool := has_flag (output_flags (termios_ t)) f.
Definition cc (t : terminal_core) (i : Z) : Z := zget (control_chars (termios_ t)) i.

Definition is_canonical (t : terminal_core) : bool := lflag t termios_lflag.icanon.

Definition bump_generation (t : terminal_core) : terminal_core :=
  let g := u64 (generation_ t + 1) in
  with_generation (if g =? 0 then 1 else g) t.

Definition enqueue_input_byte (t : terminal_core) (value : Z) : bool * terminal_core :=
  let '(ok, r) := ring_push (input_ring_ t) value in
  if ok then (true, bump_generation (with_input_ring r t)) else (false, t).

(** The copy loop of [enqueue_input_line]: push until the ring refuses. *)
Fixpoint push_line (bytes : list Z) (r : ring) (written : Z) : Z * ring :=
  match bytes with
  | [] => (written, r)
  | b :: bytes' =>
    let '(ok, r') := ring_push r b in
    if ok then push_line bytes' r' (written + 1) else (written, r)
  end.

Definition enqueue_input_record (t : terminal_core) (size : Z) : bool * terminal_core :=
  if (queue_capacity <? size) || (input_record_count_ t =? queue_capacity) then (false, t)
  else (true, with_records
                (zset (input_record_sizes_ t)
                   ((input_record_head_ t + input_record_count_ t) mod queue_capacity) (u16 size))
                (input_record_head_ t) (input_record_count_ t + 1) t).

Definition enqueue_input_line (t : terminal_core) : Z * terminal_core :=
  if (ring_free_space (input_ring_ t) <? canonical_size_ t)
     || (input_record_count_ t =? queue_capacity) then (0, t)
  else
    let '(written, r) :=
      push_line (take (Z.to_nat (canonical_size_ t)) (canonical_line_ t)) (input_ring_ t) 0 in
    let t1 := with_input_ring r t in
    if negb (written =? canonical_size_ t) then (0, t1)
    else
      let '(ok, t2) := enqueue_input_record t1 written in
      if ok then (written, bump_generation (with_line (canonical_line_ t2) 0 t2)) else (0, t2).

(** [count] calls of [pop]; a call on an empty ring leaves the destination
    byte unwritten, which is [None] here. *)
Fixpoint pop_into (count : nat) (r : ring) : list (option Z) * ring :=
  match count with
  | O => ([], r)
  | S count' =>
    let '(b, r') := ring_pop r in
    let '(bs, r'') := pop_into count' r' in (b :: bs, r'')
  end.

(** The result is [None] when there is no record, else the bytes stored in
    the destination. *)
Definition read_canonical_record (t : terminal_core) (max_size : Z)
    : option (list (option Z)) * terminal_core :=
  if input_record_count_ t =? 0 then (None, t)
  else
    let remaining := zget (input_record_sizes_ t) (input_record_head_ t) in
    let count := Z.min remaining max_size in
    let '(bytes, r) := pop_into (Z.to_nat count) (input_ring_ t) in
    let remaining' := u16 (remaining - count) in
    let sizes := zset (input_record_sizes_ t) (input_record_head_ t) remaining' in
    let t1 := with_input_ring r t in
    let t2 := if remaining' =? 0
              then with_records sizes ((input_record_head_ t + 1) mod queue_capacity)
                     (input_record_count_ t - 1) t1
              else with_records sizes (input_record_head_ t) (input_record_count_ t) t1 in
    (Some bytes, bump_generation t2).

Definition clear_input_records (t : terminal_core) : terminal_core :=
  with_records (input_record_sizes_ t) 0 0 t.

Definition try_enqueue_output_byte (t : terminal_core) (value : Z) : bool * terminal_core :=
  let '(ok, r) := ring_push (output_ring_ t) value in
  if ok then (true, bump_generation (with_output_ring r t)) else (false, t).

Definition echo_byte_size (t : terminal_core) (value : Z) : Z :=
  if negb (lflag t termios_lflag.echo)
     && (negb (value =? chr_lf) || negb (lflag t termios_lflag.echonl)) then 0
  else if (value =? chr_lf) && oflag t termios_oflag.onlcr then 2 else 1.

Definition echo_erase_size (t : terminal_core) : Z :=
  if negb (lflag t termios_lflag.echoe) then 0 else 3.

Definition echo_kill_size (t : terminal_core) : Z :=
  if negb (lflag t termios_lflag.echok) then 0 else 1.

Definition echo_byte (t : terminal_core) (value : Z) : bool * terminal_core :=
  if ring_free_space (output_ring_ t) <? echo_byte_size t value then (false, t)
  else
    let t1 := if (value =? chr_lf) && oflag t termios_oflag.onlcr
                 && negb (echo_byte_size t value =? 0)
              then (try_enqueue_output_byte t chr_cr).2 else t in
    let t2 := if negb (echo_byte_size t1 value =? 0)
              then (try_enqueue_output_byte t1 value).2 else t1 in
    (true, t2).

Definition echo_erase (t : terminal_core) : bool * terminal_core :=
  if ring_free_space (output_ring_ t) <? echo_erase_size t then (false, t)
  else if echo_erase_size t =? 0 then (true, t)
  else
    let t1 := (try_enqueue_output_byte t chr_bs).2 in
    let t2 := (try_enqueue_output_byte t1 chr_space).2 in
    (true, (try_enqueue_output_byte t2 chr_bs).2).

Definition echo_kill (t : terminal_core) : bool * terminal_core :=
  if ring_free_space (output_ring_ t) <? echo_kill_size t then (false, t)
  else (true, if negb (echo_kill_size t =? 0) then (try_enqueue_output_byte t chr_lf).2 else t).

Definition handle_control_event (t : terminal_core) (value : Z) : terminal_core :=
  if negb (lflag t termios_lflag.isig) then t
  else match control_handler_ t with
  | None => t
  | Some _ =>
    let raise event := with_raised (raised_ t ++ [(event, control_handler_data_ t)]) t in
    if value =? cc t termios_cc.vintr then raise interrupt
    else if value =? cc t termios_cc.vquit then raise quit
    else if value =? cc t termios_cc.vsusp then raise suspend
    else t
  end.

(** ** [receive_input] *)

(** The translation of one input byte; [None] for a carriage return that is
    ignored. *)
Definition translate_input (t : terminal_core) (value : Z) : option Z :=
  if value =? chr_cr then
    if iflag t termios_iflag.igncr then None
    else if iflag t termios_iflag.icrnl then Some chr_lf
    else Some value
  else if (value =? chr_lf) && iflag t termios_iflag.inlcr then Some chr_cr
  else Some value.

(** The flow-control block: [true] when the byte was VSTOP or VSTART and is
    consumed here. *)
Definition flow_control (t : terminal_core) (value : Z) : bool * terminal_core :=
  if negb (iflag t termios_iflag.ixon) then (false, t)
  else if value =? cc t termios_cc.vstop then
    (true, if output_paused_ t then t else bump_generation (with_paused true t))
  else if value =? cc t termios_cc.vstart then
    (true, if output_paused_ t then bump_generation (with_paused false t) else t)
  else if output_paused_ t && iflag t termios_iflag.ixany then
    (false, bump_generation (with_paused false t))
  else (false, t).

Definition is_signal_char (t : terminal_core) (value : Z) : bool :=
  lflag t termios_lflag.isig &&
  ((value =? cc t termios_cc.vintr) || (value =? cc t termios_cc.vquit)
   || (value =? cc t termios_cc.vsusp)).

(** The queues dropped by a signal character, and by flushing both queues. *)
Definition drop_input (t : terminal_core) : terminal_core :=
  with_eof_count 0
    (clear_input_records
      (with_line (canonical_line_ t) 0 (with_input_ring (ring_clear (input_ring_ t)) t))).

Definition drop_output (t : terminal_core) : terminal_core :=
  with_output_ring (ring_clear (output_ring_ t)) t.

Definition signal_input (t : terminal_core) (value : Z) : terminal_core :=
  let t1 := handle_control_event t value in
  if lflag t1 termios_lflag.noflsh then t1
  else bump_generation (drop_output (drop_input t1)).

(** The canonical branch of one byte; [false] when the method returns because
    a queue has no room. *)
Definition canonical_input (t : terminal_core) (value : Z) : bool * terminal_core :=
  let extended := lflag t termios_lflag.ixten in
  if extended && (value =? cc t termios_cc.verase) then
    if negb (canonical_size_ t =? 0) then
      if ring_free_space (output_ring_ t) <? echo_erase_size t then (false, t)
      else (true, (echo_erase (with_line (canonical_line_ t) (canonical_size_ t - 1) t)).2)
    else (true, t)
  else if extended && (value =? cc t termios_cc.vkill) then
    if ring_free_space (output_ring_ t) <? echo_kill_size t then (false, t)
    else (true, (echo_kill (with_line (canonical_line_ t) 0 t)).2)
  else if (canonical_size_ t =? 0) && (value =? cc t termios_cc.veof) then
    let '(ok, t1) := enqueue_input_record t 0 in
    if ok then (true, bump_generation t1) else (false, t1)
  else if queue_capacity <=? canonical_size_ t then (false, t)
  else if ring_free_space (output_ring_ t) <? echo_byte_size t value then (false, t)
  else if (value =? chr_lf) &&
          ((ring_free_space (input_ring_ t) <? canonical_size_ t + 1)
           || (input_record_count_ t =? queue_capacity)) then (false, t)
  else
    let t1 := with_line (zset (canonical_line_ t) (canonical_size_ t) value)
                (canonical_size_ t + 1) t in
    let t2 := (echo_byte t1 value).2 in
    if value =? chr_lf then
      let '(written, t3) := enqueue_input_line t2 in (negb (written =? 0), t3)
    else (true, t2).

(** The non-canonical branch of one byte. *)
Definition raw_input (t : terminal_core) (value : Z) : bool * terminal_core :=
  if ring_full (input_ring_ t) || (ring_free_space (output_ring_ t) <? echo_byte_size t value)
  then (false, t)
  else
    let t1 := with_input_ring (ring_push (input_ring_ t) value).2 t in
    (true, bump_generation (echo_byte t1 value).2).

(** The loop body: [true] to go on with the next byte. *)
Definition receive_byte (t : terminal_core) (raw : Z) : bool * terminal_core :=
  match translate_input t raw with
  | None => (true, t)
  | Some value =>
    let '(consumed, t1) := flow_control t value in
    if consumed then (true, t1)
    else if is_signal_char t1 value then (true, signal_input t1 value)
    else if is_canonical t1 then canonical_input t1 value
    else raw_input t1 value
  end.

(** The loop: the number of bytes consumed and whether it ran to the end. *)
Fixpoint receive_loop (t : terminal_core) (data : list Z) (consumed : Z)
    : bool * Z * terminal_core :=
  match data with
  | [] => (true, consumed, t)
  | b :: data' =>
    let '(go_on, t') := receive_byte t b in
    if go_on then receive_loop t' data' (consumed + 1) else (false, consumed, t')
  end.

(** The result, [*consumed] (when [consumed] is a pointer) and the object. *)
Definition receive_input (t : terminal_core) (data : source_buffer) (nonblock consumed_null : bool)
    : tty_result * Z * terminal_core :=
  match data with
  | NullSource size =>
    if negb (size =? 0) || consumed_null then (Fail EINVAL, 0, t)
    else if slave_hung_up_ t then (Fail EIO, 0, t)
    else if input_shutdown_ t then (Fail EPIPE, 0, t)
    else (Done 0, 0, t)
  | Bytes bytes =>
    if consumed_null then (Fail EINVAL, 0, t)
    else if slave_hung_up_ t then (Fail EIO, 0, t)
    else if input_shutdown_ t then (Fail EPIPE, 0, t)
    else
      let '(finished, consumed, t') := receive_loop t bytes 0 in
      if finished then (Done (i32 consumed), consumed, t')
      else if nonblock && negb (consumed =? 0) then (Done (i32 consumed), consumed, t')
      else (Fail EAGAIN, consumed, t')
  end.

(** ** [read_input] *)

(** The loop [while (count < max_size && pop(value)) data[count++] = value]. *)
Fixpoint pop_while (room : nat) (r : ring) : list Z * ring :=
  match room with
  | O => ([], r)
  | S room' =>
    match ring_pop r with
    | (Some b, r') => let '(bs, r'') := pop_while room' r' in (b :: bs, r'')
    | (None, _) => ([], r)
    end
  end.

(** The result, the destination bytes (a [None] was not written) and the
    object. *)
Definition read_input (t : terminal_core) (dest : dest_buffer) (nonblock read_null : bool)
    (timeout_expired : bool) : tty_result * list (option Z) * terminal_core :=
  let max_size := dest_size dest in
  if (dest_null dest && negb (max_size =? 0)) || read_null then (Fail EINVAL, [], t)
  else if max_size =? 0 then (Done 0, [], t)
  else
    match (if is_canonical t then read_canonical_record t max_size else (None, t)) with
    | (Some bytes, t') => (Done (i32 (Z.of_nat (length bytes))), bytes, t')
    | (None, _) =>
      if ring_empty (input_ring_ t) then
        if negb (eof_count_ t =? 0) then
          (Done 0, [], bump_generation (with_eof_count (eof_count_ t - 1) t))
        else if input_shutdown_ t then (Done 0, [], t)
        else if master_hung_up_ t then (Done 0, [], t)
        else if negb (is_canonical t) && negb (cc t termios_cc.vtime =? 0) && timeout_expired
        then (Done 0, [], t)
        else if negb (is_canonical t) && (cc t termios_cc.vmin =? 0) && (cc t termios_cc.vtime =? 0)
        then (Done 0, [], t)
        else (Fail EAGAIN, [], t)
      else
        let minimum := Z.min (cc t termios_cc.vmin) max_size in
        if negb (is_canonical t) && negb (minimum =? 0)
           && (ring_available (input_ring_ t) <? minimum) && negb timeout_expired
        then (Fail EAGAIN, [], t)
        else
          let '(bytes, r) := pop_while (Z.to_nat max_size) (input_ring_ t) in
          (Done (i32 (Z.of_nat (length bytes))), Some <$> bytes,
           bump_generation (with_input_ring r t))
    end.

(** ** Output *)

Definition translates_newline (t : terminal_core) (value : Z) : bool :=
  oflag t termios_oflag.opost && oflag t termios_oflag.onlcr && (value =? chr_lf).

Fixpoint write_loop (t : terminal_core) (data : list Z) (written : Z) : bool * Z * terminal_core :=
  match data with
  | [] => (true, written, t)
  | value :: data' =>
    let required_space := if translates_newline t value then 2 else 1 in
    if ring_free_space (output_ring_ t) <? required_space then (false, written, t)
    else
      let t1 := if translates_newline t value then (try_enqueue_output_byte t chr_cr).2 else t in
      let t2 := (try_enqueue_output_byte t1 value).2 in
      write_loop t2 data' (written + 1)
  end.

Definition write_output (t : terminal_core) (data : source_buffer) (nonblock written_null : bool)
    : tty_result * Z * terminal_core :=
  match data with
  | NullSource size =>
    if negb (size =? 0) || written_null then (Fail EINVAL, 0, t)
    else if master_hung_up_ t then (Fail EIO, 0, t)
    else (Done 0, 0, t)
  | Bytes bytes =>
    if written_null then (Fail EINVAL, 0, t)
    else if master_hung_up_ t then (Fail EIO, 0, t)
    else if (Z.of_nat (length bytes) =? 0) then (Done 0, 0, t)
    else if output_paused_ t then (Fail EAGAIN, 0, t)
    else
      let '(finished, written, t') := write_loop t bytes 0 in
      if finished then (Done (i32 written), written, t')
      else if nonblock && negb (written =? 0) then (Done (i32 written), written, t')
      else (Fail EAGAIN, written, t')
  end.

Definition read_output (t : terminal_core) (dest : dest_buffer) (nonblock read_null : bool)
    : tty_result * list Z * terminal_core :=
  let max_size := dest_size dest in
  if (dest_null dest && negb (max_size =? 0)) || read_null then (Fail EINVAL, [], t)
  else if max_size =? 0 then (Done 0, [], t)
  else if ring_empty (output_ring_ t) then
    if slave_hung_up_ t then (Fail EIO, [], t) else (Fail EAGAIN, [], t)
  else
    let '(bytes, r) := pop_while (Z.to_nat max_size) (output_ring_ t) in
    (Done (i32 (Z.of_nat (length bytes))), bytes, bump_generation (with_output_ring r t)).

(** ** Control operations *)

Definition flush (t : terminal_core) (queue : Z) : tty_result * terminal_core :=
  if (queue <? 0) || (2 <? queue) then (Fail EINVAL, t)
  else
    let t1 := if (queue =? 0) || (queue =? 2) then drop_input t else t in
    let t2 := if (queue =? 1) || (queue =? 2) then drop_output t1 else t1 in
    (Done 0, bump_generation t2).

Definition send_eof (t : terminal_core) : terminal_core :=
  if is_canonical t then
    let '(ok, t1) := enqueue_input_record t 0 in
    if ok then bump_generation t1 else t1
  else bump_generation (with_eof_count (u64 (eof_count_ t + 1)) t).

Definition shutdown_input (t : terminal_core) : terminal_core :=
  bump_generation (with_shutdown true t).
Definition hangup_master (t : terminal_core) : terminal_core :=
  bump_generation (with_master_hup true t).
Definition hangup_slave (t : terminal_core) : terminal_core :=
  bump_generation (with_slave_hup true t).

Definition open_master (t : terminal_core) : terminal_core :=
  if negb (master_hung_up_ t) then t else bump_generation (with_master_hup false t).
Definition open_slave (t : terminal_core) : terminal_core :=
  if negb (slave_hung_up_ t) then t else bump_generation (with_slave_hup false t).

Definition send_break (t : terminal_core) (duration_ms : Z) : tty_result :=
  if slave_hung_up_ t then Fail EIO else Fail ENOTSUP.

Definition set_flow (t : terminal_core) (action : Z) : tty_result * terminal_core :=
  if 3 <? action then (Fail EINVAL, t)
  else
    let pause := (action =? 0) || (action =? 2) in
    (Done 0, if eqb (output_paused_ t) pause then t else bump_generation (with_paused pause t)).

Definition validate_termios (value : termios) : bool :=
  no_flag_outside (input_flags value) termios_iflag.supported &&
  no_flag_outside (output_flags value) termios_oflag.supported &&
  no_flag_outside (control_flags value) termios_cflag.supported &&
  no_flag_outside (local_flags value) termios_lflag.supported.

Definition set_termios (t : terminal_core) (value : termios) : tty_result * terminal_core :=
  if negb (validate_termios value) then (Fail EINVAL, t)
  else
    let t1 := with_termios value t in
    let t2 := if negb (iflag t1 termios_iflag.ixon) then with_paused false t1 else t1 in
    (Done 0, bump_generation t2).

Definition set_winsize (t : terminal_core) (value : winsize) : terminal_core :=
  bump_generation (with_winsize value t).

Definition set_control_event_handler (t : terminal_core) (handler : option Z) (user_data : Z)
    : terminal_core :=
  bump_generation (with_handler handler user_data t).

Definition notify_external_change (t : terminal_core) : terminal_core := bump_generation t.

(** ** Readiness *)

Definition events_if (b : bool) (e : Z) : Z := if b then e else 0.

Definition input_poll_events (t : terminal_core) : Z :=
  Z.lor (events_if (negb (ring_empty (input_ring_ t)) || negb (input_record_count_ t =? 0)
                    || negb (eof_count_ t =? 0) || master_hung_up_ t) tty_poll.readable)
  (Z.lor (events_if (negb (ring_full (input_ring_ t)) && negb (master_hung_up_ t)) tty_poll.writable)
         (events_if (master_hung_up_ t) (Z.lor tty_poll.error tty_poll.hangup))).

Definition output_poll_events (t : terminal_core) : Z :=
  Z.lor (events_if (negb (ring_empty (output_ring_ t)) || slave_hung_up_ t) tty_poll.readable)
  (Z.lor (events_if (negb (ring_full (output_ring_ t)) && negb (master_hung_up_ t)
                     && negb (output_paused_ t)) tty_poll.writable)
         (events_if (slave_hung_up_ t) (Z.lor tty_poll.error tty_poll.hangup))).

Definition master_poll_events (t : terminal_core) : Z :=
  let echo_enabled := lflag t termios_lflag.echo || lflag t termios_lflag.echonl in
  let echo_space := if negb echo_enabled then 0 else if oflag t termios_oflag.onlcr then 2 else 1 in
  let input_space :=
    if is_canonical t
    then (canonical_size_ t <? queue_capacity) && (input_record_count_ t <? queue_capacity)
    else negb (ring_full (input_ring_ t)) in
  Z.lor (events_if (negb (ring_empty (output_ring_ t)) || slave_hung_up_ t) tty_poll.readable)
  (Z.lor (events_if (input_space && negb (input_shutdown_ t) && negb (slave_hung_up_ t)
                     && (echo_space <=? ring_free_space (output_ring_ t))) tty_poll.writable)
         (events_if (slave_hung_up_ t) (Z.lor tty_poll.error tty_poll.hangup))).

Definition slave_poll_events (t : terminal_core) : Z :=
  Z.lor (events_if (negb (ring_empty (input_ring_ t)) || negb (input_record_count_ t =? 0)
                    || negb (eof_count_ t =? 0) || input_shutdown_ t || master_hung_up_ t)
           tty_poll.readable)
  (Z.lor (events_if (negb (ring_full (output_ring_ t)) && negb (master_hung_up_ t)
                     && negb (output_paused_ t)) tty_poll.writable)
         (events_if (master_hung_up_ t) (Z.lor tty_poll.error tty_poll.hangup))).

(** ** Operation sequences *)

(** Every public method that can change the object. *)
Inductive tty_op : Type :=
| ReceiveInput (data : source_buffer) (nonblock consumed_null : bool)
| ReadInput (dest : dest_buffer) (nonblock read_null timeout_expired : bool)
| WriteOutput (data : source_buffer) (nonblock written_null : bool)
| ReadOutput (dest : dest_buffer) (nonblock read_null : bool)
| Flush (queue : Z)
| SendEof
| ShutdownInput
| HangupMaster
| HangupSlave
| OpenMaster
| OpenSlave
| SetFlow (action : Z)
| SetTermios (value : termios)
| SetWinsize (value : winsize)
| SetControlEventHandler (handler : option Z) (user_data : Z)
| NotifyExternalChange.

Definition tty_step (t : terminal_core) (op : tty_op) : terminal_core :=
  match op with
  | ReceiveInput d nb cn => (receive_input t d nb cn).2
  | ReadInput d nb rn te => (read_input t d nb rn te).2
  | WriteOutput d nb wn => (write_output t d nb wn).2
  | ReadOutput d nb rn => (read_output t d nb rn).2
  | Flush q => (flush t q).2
  | SendEof => send_eof t
  | ShutdownInput => shutdown_input t
  | HangupMaster => hangup_master t
  | HangupSlave => hangup_slave t
  | OpenMaster => open_master t
  | OpenSlave => open_slave t
  | SetFlow a => (set_flow t a).2
  | SetTermios v => (set_termios t v).2
  | SetWinsize v => set_winsize t v
  | SetControlEventHandler h d => set_control_event_handler t h d
  | NotifyExternalChange => notify_external_change t
  end.

Definition tty_run (t : terminal_core) (ops : list tty_op) : terminal_core := foldl tty_step t ops.
