(* ===== verification/TerminalFacts.v ===== *)
(** Properties of the line discipline of TerminalCore.v: the byte rings as
    FIFO lists, the type invariant every method preserves, canonical record
    accounting, the byte streams seen by the two sides, readiness and the
    readiness generation. *)
From stdpp Require Import base list numbers.
From S2P Require Import Prelude TerminalCore.

Local Open Scope Z_scope.

Create HintDb tty.

(** ** Invariants *)

Definition is_byte (x : Z) : Prop := 0 ≤ x < 256.

Record ring_wf (r : ring) : Prop := Build_ring_wf {
  rwf_length : Z.of_nat (length (data_ r)) = queue_capacity;
  rwf_bytes : Forall is_byte (data_ r);
  rwf_head : 0 ≤ ring_head_ r < queue_capacity;
  rwf_size : 0 ≤ ring_size_ r ≤ queue_capacity;
}.

Definition ring_bytes (r : ring) : list Z := ring_list (data_ r) (ring_head_ r) (ring_size_ r).

Record termios_wf (v : termios) : Prop := Build_termios_wf {
  twf_chars : length (control_chars v) = 32%nat;
  twf_bytes : Forall is_byte (control_chars v);
}.

Definition record_list (t : terminal_core) : list Z :=
  ring_list (input_record_sizes_ t) (input_record_head_ t) (input_record_count_ t).

Definition pending_line (t : terminal_core) : list Z :=
  take (Z.to_nat (canonical_size_ t)) (canonical_line_ t).

Record tty_wf (t : terminal_core) : Prop := Build_tty_wf {
  wf_input : ring_wf (input_ring_ t);
  wf_output : ring_wf (output_ring_ t);
  wf_line_length : Z.of_nat (length (canonical_line_ t)) = queue_capacity;
  wf_line_bytes : Forall is_byte (canonical_line_ t);
  wf_line_size : 0 ≤ canonical_size_ t ≤ queue_capacity;
  wf_records_length : Z.of_nat (length (input_record_sizes_ t)) = queue_capacity;
  wf_records_sizes : Forall (λ s, 0 ≤ s ≤ queue_capacity) (input_record_sizes_ t);
  wf_records_head : 0 ≤ input_record_head_ t < queue_capacity;
  wf_records_count : 0 ≤ input_record_count_ t ≤ queue_capacity;
  wf_termios : termios_wf (termios_ t);
  wf_eof : 0 ≤ eof_count_ t < 2 ^ 64;
  wf_generation : 0 < generation_ t < 2 ^ 64;
}.

(** What the callers' types guarantee about the arguments. *)
Definition source_ok (d : source_buffer) : Prop :=
  match d with NullSource size => 0 ≤ size | Bytes bs => Forall is_byte bs end.

Definition op_ok (op : tty_op) : Prop :=
  match op with
  | ReceiveInput d _ _ | WriteOutput d _ _ => source_ok d
  | ReadInput d _ _ _ | ReadOutput d _ _ => 0 ≤ dest_size d
  | SetTermios v => termios_wf v
  | _ => True
  end.

(** ** Rings as FIFO lists *)

Lemma ring_bytes_length r : ring_wf r → Z.of_nat (length (ring_bytes r)) = ring_size_ r.
Proof. intros []. unfold ring_bytes. rewrite length_ring_list. lia. Qed.

Lemma ring_empty_bytes r : ring_wf r → ring_empty r = true ↔ ring_bytes r = [].
Proof.
  intros Hwf. pose proof (ring_bytes_length r Hwf). unfold ring_empty. rewrite Z.eqb_eq.
  destruct (ring_bytes r); simpl in *; split; (done || lia).
Qed.

Lemma length_zeros : Z.of_nat (length zeros) = queue_capacity.
Proof. unfold zeros. rewrite length_replicate. done. Qed.

Lemma zeros_bytes : Forall is_byte zeros.
Proof. apply Forall_replicate. unfold is_byte. lia. Qed.

Lemma empty_ring_wf : ring_wf empty_ring.
Proof. split; simpl; [apply length_zeros|apply zeros_bytes|done..]. Qed.

Lemma ring_push_full r v : ring_full r = true → ring_push r v = (false, r).
Proof. intros H. unfold ring_push. by rewrite H. Qed.

Lemma ring_push_room r v :
  ring_wf r → 0 < ring_free_space r →
  (ring_push r v).1 = true ∧ ring_bytes (ring_push r v).2 = ring_bytes r ++ [v] ∧
  ring_size_ (ring_push r v).2 = ring_size_ r + 1.
Proof.
  intros [Hl _ Hh Hs] Hf. unfold ring_free_space in Hf. unfold ring_push, ring_full.
  rewrite (proj2 (Z.eqb_neq _ _)) by lia. simpl. repeat split.
  unfold ring_bytes. simpl. rewrite <- Hl. by rewrite ring_list_push by lia.
Qed.

Lemma ring_push_wf r v : ring_wf r → is_byte v → ring_wf (ring_push r v).2.
Proof.
  intros Hwf Hv. unfold ring_push, ring_full.
  destruct (Z.eqb_spec (ring_size_ r) queue_capacity); simpl; [done|].
  destruct Hwf. split; simpl; [by rewrite length_zset| |lia..]. by apply Forall_insert.
Qed.

Lemma ring_pop_spec r :
  ring_wf r →
  ring_wf (ring_pop r).2 ∧ (ring_pop r).1 = head (ring_bytes r) ∧
  ring_bytes (ring_pop r).2 = tail (ring_bytes r).
Proof.
  intros Hwf. pose proof (ring_empty_bytes r Hwf) as He. unfold ring_pop.
  destruct (ring_empty r) eqn:E; simpl.
  { rewrite (proj1 He eq_refl). done. }
  unfold ring_empty in E. apply Z.eqb_neq in E. destruct Hwf as [Hl Hb Hh Hs].
  unfold ring_bytes. simpl. rewrite (ring_list_pop (data_ r)) by lia. rewrite Hl. repeat split; simpl.
  - done.
  - done.
  - pose proof (ring_index_range queue_capacity (ring_head_ r + 1)). lia.
  - pose proof (ring_index_range queue_capacity (ring_head_ r + 1)). lia.
  - lia.
  - lia.
Qed.

Lemma ring_clear_wf r : ring_wf r → ring_wf (ring_clear r).
Proof. intros []. split; simpl; unfold queue_capacity in *; done || lia. Qed.

Lemma ring_clear_bytes r : ring_bytes (ring_clear r) = [].
Proof. done. Qed.

Lemma pop_while_spec n r :
  ring_wf r →
  ring_wf (pop_while n r).2 ∧ (pop_while n r).1 = take n (ring_bytes r) ∧
  ring_bytes (pop_while n r).2 = drop n (ring_bytes r).
Proof.
  revert r. induction n as [|n IH]; intros r Hwf; simpl; [done|].
  destruct (ring_pop_spec r Hwf) as (Hwf' & Hh & Ht).
  destruct (ring_pop r) as [[b|] r'] eqn:E; simpl in *; destruct (ring_bytes r) as [|b' bs] eqn:Hb; try done.
  destruct (IH r' Hwf') as (? & H1 & H2). destruct (pop_while n r') as [bs' r''].
  simpl in *. subst. by injection Hh as ->.
Qed.

Lemma pop_into_spec n r :
  ring_wf r →
  ring_wf (pop_into n r).2 ∧
  (pop_into n r).1 = (Some <$> take n (ring_bytes r))
                     ++ replicate (n - length (ring_bytes r)) None ∧
  ring_bytes (pop_into n r).2 = drop n (ring_bytes r).
Proof.
  revert r. induction n as [|n IH]; intros r Hwf; simpl; [done|].
  destruct (ring_pop_spec r Hwf) as (Hwf' & Hh & Ht).
  destruct (ring_pop r) as [b r'] eqn:E; simpl in *.
  destruct (IH r' Hwf') as (? & H1 & H2). destruct (pop_into n r') as [bs' r''].
  simpl in *. subst. rewrite H2, Ht.
  destruct (ring_bytes r) as [|b' bs]; simpl; [|done].
  rewrite take_nil, drop_nil, Nat.sub_0_r. done.
Qed.

Lemma push_line_spec l r w :
  ring_wf r → Forall is_byte l → Z.of_nat (length l) ≤ ring_free_space r →
  ring_wf (push_line l r w).2 ∧ (push_line l r w).1 = w + Z.of_nat (length l) ∧
  ring_bytes (push_line l r w).2 = ring_bytes r ++ l ∧
  ring_size_ (push_line l r w).2 = ring_size_ r + Z.of_nat (length l).
Proof.
  revert r w. induction l as [|b l IH]; intros r w Hwf Hb Hf; simpl in *.
  { rewrite app_nil_r. split_and!; (done || lia). }
  apply Forall_cons_1 in Hb as [Hb Hbs].
  destruct (ring_push_room r b Hwf ltac:(lia)) as (H1 & H2 & H3).
  pose proof (ring_push_wf r b Hwf Hb) as Hwf'.
  destruct (ring_push r b) as [ok r']. simpl in *. subst.
  destruct (IH r' (w + 1) Hwf' Hbs) as (? & -> & -> & ->); [unfold ring_free_space in *; lia|].
  rewrite H2, H3, <- app_assoc. split_and!; (done || lia).
Qed.

(** ** Preservation of the invariant *)

Ltac wf_setter := intros []; intros; split; simpl; try done; lia.

Lemma with_input_ring_wf t r : tty_wf t → ring_wf r → tty_wf (with_input_ring r t).
Proof. wf_setter. Qed.
Lemma with_output_ring_wf t r : tty_wf t → ring_wf r → tty_wf (with_output_ring r t).
Proof. wf_setter. Qed.
Lemma with_line_wf t l n :
  tty_wf t → Z.of_nat (length l) = queue_capacity → Forall is_byte l →
  0 ≤ n ≤ queue_capacity → tty_wf (with_line l n t).
Proof. wf_setter. Qed.
Lemma with_line_size_wf t n :
  tty_wf t → 0 ≤ n ≤ queue_capacity → tty_wf (with_line (canonical_line_ t) n t).
Proof. wf_setter. Qed.
Lemma with_records_wf t s h n :
  tty_wf t → Z.of_nat (length s) = queue_capacity → Forall (λ s, 0 ≤ s ≤ queue_capacity) s →
  0 ≤ h < queue_capacity → 0 ≤ n ≤ queue_capacity → tty_wf (with_records s h n t).
Proof. wf_setter. Qed.
Lemma with_termios_wf t v : tty_wf t → termios_wf v → tty_wf (with_termios v t).
Proof. wf_setter. Qed.
Lemma with_winsize_wf t v : tty_wf t → tty_wf (with_winsize v t).
Proof. wf_setter. Qed.
Lemma with_handler_wf t h d : tty_wf t → tty_wf (with_handler h d t).
Proof. wf_setter. Qed.
Lemma with_eof_count_wf t n : tty_wf t → 0 ≤ n < 2 ^ 64 → tty_wf (with_eof_count n t).
Proof. wf_setter. Qed.
Lemma with_paused_wf t b : tty_wf t → tty_wf (with_paused b t).
Proof. wf_setter. Qed.
Lemma with_shutdown_wf t b : tty_wf t → tty_wf (with_shutdown b t).
Proof. wf_setter. Qed.
Lemma with_master_hup_wf t b : tty_wf t → tty_wf (with_master_hup b t).
Proof. wf_setter. Qed.
Lemma with_slave_hup_wf t b : tty_wf t → tty_wf (with_slave_hup b t).
Proof. wf_setter. Qed.
Lemma with_raised_wf t l : tty_wf t → tty_wf (with_raised l t).
Proof. wf_setter. Qed.

Lemma bump_generation_wf t : tty_wf t → tty_wf (bump_generation t).
Proof.
  intros []. unfold bump_generation. pose proof (u64_range (generation_ t + 1)).
  split; simpl; try done. destruct (Z.eqb_spec (u64 (generation_ t + 1)) 0); lia.
Qed.

Lemma chr_lf_byte : is_byte chr_lf.
Proof. done. Qed.
Lemma chr_cr_byte : is_byte chr_cr.
Proof. done. Qed.
Lemma chr_bs_byte : is_byte chr_bs.
Proof. done. Qed.
Lemma chr_space_byte : is_byte chr_space.
Proof. done. Qed.

#[export] Hint Resolve wf_input wf_output wf_line_length wf_line_bytes wf_termios
  ring_push_wf ring_clear_wf with_input_ring_wf with_output_ring_wf with_line_size_wf
  with_termios_wf with_winsize_wf with_handler_wf with_eof_count_wf with_paused_wf
  with_shutdown_wf with_master_hup_wf with_slave_hup_wf with_raised_wf bump_generation_wf
  chr_lf_byte chr_cr_byte chr_bs_byte chr_space_byte : tty.

Lemma try_enqueue_output_byte_wf t v :
  tty_wf t → is_byte v → tty_wf (try_enqueue_output_byte t v).2.
Proof.
  intros. unfold try_enqueue_output_byte. destruct (ring_push (output_ring_ t) v) as [[] r] eqn:E;
    simpl; [|done]. replace r with (ring_push (output_ring_ t) v).2 by (by rewrite E). auto 6 with tty.
Qed.
#[export] Hint Resolve try_enqueue_output_byte_wf : tty.

Lemma enqueue_input_record_wf t n : tty_wf t → 0 ≤ n → tty_wf (enqueue_input_record t n).2.
Proof.
  intros Hwf Hn. unfold enqueue_input_record.
  destruct ((queue_capacity <? n) || _) eqn:E; simpl; [done|].
  apply orb_false_elim in E as [E1%Z.ltb_ge E2%Z.eqb_neq]. pose proof Hwf as [].
  apply with_records_wf; auto; [by rewrite length_zset| |lia].
  apply Forall_insert; [done|]. rewrite u16_small; [lia|]. unfold queue_capacity in *. lia.
Qed.

Lemma enqueue_input_line_wf t : tty_wf t → tty_wf (enqueue_input_line t).2.
Proof.
  intros Hwf. pose proof Hwf as []. unfold enqueue_input_line.
  destruct (_ || _) eqn:E; simpl; [done|].
  apply orb_false_elim in E as [E1%Z.ltb_ge E2%Z.eqb_neq].
  destruct (push_line_spec (take (Z.to_nat (canonical_size_ t)) (canonical_line_ t))
              (input_ring_ t) 0) as (Hr & Hw & _ & _);
    [done|by apply Forall_take|rewrite length_take; lia|].
  destruct (push_line _ _ _) as [w r]. simpl in *.
  destruct (negb _); simpl; [auto with tty|].
  pose proof (enqueue_input_record_wf (with_input_ring r t) w) as Hrec.
  destruct (enqueue_input_record _ w) as [[] t2]; simpl in *; [|auto with tty lia].
  assert (tty_wf t2) as Hwf2 by (apply Hrec; [auto with tty|lia]).
  apply bump_generation_wf, with_line_size_wf; [done|]. done.
Qed.

Lemma echo_byte_wf t v : tty_wf t → is_byte v → tty_wf (echo_byte t v).2.
Proof.
  intros. unfold echo_byte. repeat case_match; simpl; auto with tty.
Qed.
Lemma echo_erase_wf t : tty_wf t → tty_wf (echo_erase t).2.
Proof. intros. unfold echo_erase. repeat case_match; simpl; auto 6 with tty. Qed.
Lemma echo_kill_wf t : tty_wf t → tty_wf (echo_kill t).2.
Proof. intros. unfold echo_kill. repeat case_match; simpl; auto with tty. Qed.

Lemma handle_control_event_wf t v : tty_wf t → tty_wf (handle_control_event t v).
Proof. intros. unfold handle_control_event. repeat case_match; auto with tty. Qed.

Lemma drop_input_wf t : tty_wf t → tty_wf (drop_input t).
Proof.
  intros Hwf. unfold drop_input, clear_input_records.
  apply with_eof_count_wf; [|done]. pose proof Hwf as [].
  apply with_records_wf; simpl; try done.
  change (canonical_line_ t) with (canonical_line_ (with_input_ring (ring_clear (input_ring_ t)) t)).
  apply with_line_size_wf; [auto with tty|done].
Qed.
Lemma drop_output_wf t : tty_wf t → tty_wf (drop_output t).
Proof. intros. unfold drop_output. auto 6 with tty. Qed.
#[export] Hint Resolve enqueue_input_record_wf enqueue_input_line_wf echo_byte_wf echo_erase_wf
  echo_kill_wf handle_control_event_wf drop_input_wf drop_output_wf : tty.

Lemma flow_control_wf t v : tty_wf t → tty_wf (flow_control t v).2.
Proof. intros. unfold flow_control. repeat case_match; simpl; auto with tty. Qed.

Lemma signal_input_wf t v : tty_wf t → tty_wf (signal_input t v).
Proof. intros. unfold signal_input. repeat case_match; auto 6 with tty. Qed.

Lemma canonical_input_wf t v : tty_wf t → is_byte v → tty_wf (canonical_input t v).2.
Proof.
  intros Hwf Hv. pose proof Hwf as []. unfold canonical_input. cbv zeta.
  destruct (lflag t _ && (v =? cc t termios_cc.verase)).
  { destruct (Z.eqb_spec (canonical_size_ t) 0); simpl; [done|].
    case_match; simpl; [done|]. apply echo_erase_wf, with_line_size_wf; [done|lia]. }
  destruct (lflag t _ && (v =? cc t termios_cc.vkill)).
  { case_match; simpl; [done|]. apply echo_kill_wf, with_line_size_wf; done. }
  destruct ((canonical_size_ t =? 0) && _).
  { pose proof (enqueue_input_record_wf t 0 Hwf ltac:(lia)).
    destruct (enqueue_input_record t 0) as [[] t1]; simpl in *; auto with tty. }
  destruct (Z.leb_spec queue_capacity (canonical_size_ t)); [done|].
  destruct (_ <? echo_byte_size t v); [done|].
  destruct ((v =? chr_lf) && _); [done|].
  assert (tty_wf (with_line (zset (canonical_line_ t) (canonical_size_ t) v)
                    (canonical_size_ t + 1) t)) as Hw.
  { apply with_line_wf; [done|by rewrite length_zset|by apply Forall_insert|lia]. }
  destruct (v =? chr_lf); simpl; [|auto with tty].
  pose proof (enqueue_input_line_wf _ (echo_byte_wf _ v Hw Hv)).
  destruct (enqueue_input_line _) as [w t3]. done.
Qed.

Lemma raw_input_wf t v : tty_wf t → is_byte v → tty_wf (raw_input t v).2.
Proof. intros. unfold raw_input. case_match; simpl; auto 8 with tty. Qed.

Lemma translate_input_byte t v v' : translate_input t v = Some v' → is_byte v → is_byte v'.
Proof. unfold translate_input. intros. repeat case_match; simplify_eq; auto with tty. Qed.

#[export] Hint Resolve flow_control_wf signal_input_wf canonical_input_wf raw_input_wf : tty.

Lemma receive_byte_wf t v : tty_wf t → is_byte v → tty_wf (receive_byte t v).2.
Proof.
  intros Hwf Hv. unfold receive_byte. destruct (translate_input t v) as [v'|] eqn:Ht; [|done].
  apply translate_input_byte in Ht; [|done].
  pose proof (flow_control_wf t v' Hwf). destruct (flow_control t v') as [[] t1]; [done|].
  simpl in *. repeat case_match; simpl; auto with tty.
Qed.

Lemma receive_loop_wf t data n :
  tty_wf t → Forall is_byte data → tty_wf (receive_loop t data n).2.
Proof.
  revert t n. induction data as [|b data IH]; intros t n Hwf Hd; simpl; [done|].
  apply Forall_cons_1 in Hd as [Hb Hd]. pose proof (receive_byte_wf t b Hwf Hb).
  destruct (receive_byte t b) as [[] t']; simpl in *; auto.
Qed.

Lemma read_canonical_record_wf t m :
  tty_wf t → 0 ≤ m → tty_wf (read_canonical_record t m).2.
Proof.
  intros Hwf Hm. unfold read_canonical_record.
  destruct (Z.eqb_spec (input_record_count_ t) 0); [done|]. pose proof Hwf as [].
  set (rem := zget (input_record_sizes_ t) (input_record_head_ t)).
  assert (0 ≤ rem ≤ queue_capacity) as Hrem.
  { unfold rem, zget. apply (Forall_lookup_total_1 _ _ _ wf_records_sizes0). lia. }
  destruct (pop_into_spec (Z.to_nat (Z.min rem m)) (input_ring_ t) wf_input0) as (Hr & _ & _).
  destruct (pop_into _ _) as [bs r]. simpl in *.
  rewrite u16_small by (unfold queue_capacity in *; lia).
  apply bump_generation_wf. pose proof (ring_index_range queue_capacity (input_record_head_ t + 1)).
  destruct (_ =? 0); apply with_records_wf; auto with tty; try lia;
    first [by rewrite length_zset | apply Forall_insert; [done|lia]].
Qed.

Lemma pop_while_wf n r : ring_wf r → ring_wf (pop_while n r).2.
Proof. intros. by apply pop_while_spec. Qed.
#[export] Hint Resolve receive_byte_wf receive_loop_wf pop_while_wf : tty.

Lemma read_input_wf t d nb rn te : tty_wf t → 0 ≤ dest_size d → tty_wf (read_input t d nb rn te).2.
Proof.
  intros Hwf Hd. unfold read_input. cbv zeta.
  case_match; [done|]. case_match; [done|].
  destruct (if is_canonical t then _ else _) as [[bs|] t'] eqn:E; simpl.
  { revert E. destruct (is_canonical t); [intros E|done].
    pose proof (read_canonical_record_wf t (dest_size d) Hwf Hd) as H1. by rewrite E in H1. }
  destruct (ring_empty (input_ring_ t)).
  - destruct (Z.eqb_spec (eof_count_ t) 0); simpl.
    + repeat case_match; done.
    + apply bump_generation_wf, with_eof_count_wf; [done|]. destruct Hwf; lia.
  - destruct (_ && negb te); [done|].
    pose proof (pop_while_wf (Z.to_nat (dest_size d)) (input_ring_ t) (wf_input t Hwf)).
    destruct (pop_while _ _). simpl in *. auto with tty.
Qed.

Lemma write_loop_wf t data n : tty_wf t → Forall is_byte data → tty_wf (write_loop t data n).2.
Proof.
  revert t n. induction data as [|b data IH]; intros t n Hwf Hd; simpl; [done|].
  apply Forall_cons_1 in Hd as [Hb Hd]. repeat case_match; simpl; auto with tty.
Qed.

Lemma receive_input_wf t d nb cn : tty_wf t → source_ok d → tty_wf (receive_input t d nb cn).2.
Proof.
  intros Hwf Hd. unfold receive_input. destruct d as [n|bs]; simpl in *.
  { repeat case_match; done. }
  pose proof (receive_loop_wf t bs 0 Hwf Hd).
  destruct (receive_loop t bs 0) as [[fin n] t']. simpl in *. repeat case_match; done.
Qed.

Lemma write_output_wf t d nb wn : tty_wf t → source_ok d → tty_wf (write_output t d nb wn).2.
Proof.
  intros Hwf Hd. unfold write_output. destruct d as [n|bs]; simpl in *.
  { repeat case_match; done. }
  pose proof (write_loop_wf t bs 0 Hwf Hd).
  destruct (write_loop t bs 0) as [[fin n] t']. simpl in *. repeat case_match; done.
Qed.

Lemma read_output_wf t d nb rn : tty_wf t → tty_wf (read_output t d nb rn).2.
Proof.
  intros Hwf. unfold read_output. cbv zeta. repeat case_match; simpl; try done.
  apply bump_generation_wf, with_output_ring_wf; [done|].
  replace r with (pop_while (Z.to_nat (dest_size d)) (output_ring_ t)).2 by (by rewrite H2).
  auto with tty.
Qed.

Lemma send_eof_wf t : tty_wf t → tty_wf (send_eof t).
Proof.
  intros Hwf. unfold send_eof. destruct (is_canonical t).
  - pose proof (enqueue_input_record_wf t 0 Hwf ltac:(lia)).
    destruct (enqueue_input_record t 0) as [[] t1]; simpl in *; auto with tty.
  - apply bump_generation_wf, with_eof_count_wf; [done|apply u64_range].
Qed.

Lemma set_termios_wf t v : tty_wf t → termios_wf v → tty_wf (set_termios t v).2.
Proof. intros. unfold set_termios. repeat case_match; simpl; auto with tty. Qed.

#[export] Hint Resolve receive_input_wf read_input_wf write_output_wf read_output_wf send_eof_wf
  set_termios_wf : tty.

Lemma tty_step_wf t op : tty_wf t → op_ok op → tty_wf (tty_step t op).
Proof.
  intros Hwf Hop. destruct op; simpl in *; auto with tty;
    unfold flush, shutdown_input, hangup_master, hangup_slave, open_master, open_slave,
      set_flow, set_winsize, set_control_event_handler, notify_external_change;
    repeat case_match; simpl; auto 6 with tty.
Qed.

Lemma default_termios_wf : termios_wf default_termios.
Proof.
  split; [done|]. simpl. solve_Forall.
Qed.

Lemma make_terminal_core_wf : tty_wf make_terminal_core.
Proof.
  split; simpl; auto using empty_ring_wf, length_zeros, zeros_bytes, default_termios_wf; try done.
  apply Forall_replicate. done.
Qed.

(** C36: Type invariant.  Whatever sequence of public methods a service calls
    on a new terminal, every queue index stays inside its array, every size
    stays within the 4096-byte capacity, stored bytes stay bytes and the
    readiness generation stays a non-zero 64-bit value. *)
Theorem tty_run_preserves_wf ops :
  Forall op_ok ops → tty_wf (tty_run make_terminal_core ops).
Proof.
  unfold tty_run. generalize make_terminal_core_wf. generalize make_terminal_core as t.
  induction ops as [|op ops IH]; intros t Hwf Hops; simpl; [done|].
  apply Forall_cons_1 in Hops as [Hop Hops]. apply IH; [by apply tty_step_wf|done].
Qed.

Lemma tty_run_preserves_wf_witness :
  tty_wf (tty_run make_terminal_core
            [ReceiveInput (Bytes [97; 13]) true false; ReadInput (Build_dest false 8) true false false]).
Proof.
  apply tty_run_preserves_wf. solve_Forall.
Defined.

(** ** Canonical records *)

(** The committed input of a canonical terminal, one list per record. *)
Definition committed (t : terminal_core) : list (list Z) :=
  reshape (Z.to_nat <$> record_list t) (ring_bytes (input_ring_ t)).

Definition records_account (t : terminal_core) : Prop :=
  sum_Z (record_list t) = ring_size_ (input_ring_ t).

(** The fields records and committed input depend on. *)
Definition input_side (t : terminal_core) :=
  (input_ring_ t, input_record_sizes_ t, input_record_head_ t, input_record_count_ t, termios_ t).

(** Operations that leave the terminal in canonical mode. *)
Definition keeps_canonical (op : tty_op) : Prop :=
  match op with
  | SetTermios v => has_flag (local_flags v) termios_lflag.icanon = true
  | _ => True
  end.

Lemma input_side_inv t t' :
  input_side t = input_side t' →
  record_list t = record_list t' ∧ input_ring_ t = input_ring_ t' ∧ committed t = committed t' ∧
  is_canonical t = is_canonical t'.
Proof.
  intros [= H1 H2 H3 H4 H5].
  assert (record_list t = record_list t') as Hr by (unfold record_list; congruence).
  repeat split; auto; [unfold committed; congruence|unfold is_canonical, lflag; by rewrite H5].
Qed.

Lemma record_list_nonneg t : tty_wf t → Forall (λ x, 0 ≤ x) (record_list t).
Proof.
  intros []. eapply Forall_impl.
  2: apply ring_list_Forall; [|exact wf_records_sizes0]; unfold queue_capacity in *; lia.
  simpl. lia.
Qed.

Ltac side := repeat case_match; simplify_eq/=; reflexivity.

Lemma try_enqueue_output_byte_side t v : input_side (try_enqueue_output_byte t v).2 = input_side t.
Proof. unfold try_enqueue_output_byte. side. Qed.
Lemma echo_byte_side t v : input_side (echo_byte t v).2 = input_side t.
Proof. unfold echo_byte. repeat case_match; simpl; rewrite ?try_enqueue_output_byte_side; done. Qed.
Lemma echo_erase_side t : input_side (echo_erase t).2 = input_side t.
Proof. unfold echo_erase. repeat case_match; simpl; rewrite ?try_enqueue_output_byte_side; done. Qed.
Lemma echo_kill_side t : input_side (echo_kill t).2 = input_side t.
Proof. unfold echo_kill. repeat case_match; simpl; rewrite ?try_enqueue_output_byte_side; done. Qed.
Lemma flow_control_side t v : input_side (flow_control t v).2 = input_side t.
Proof. unfold flow_control. side. Qed.
Lemma handle_control_event_side t v : input_side (handle_control_event t v) = input_side t.
Proof. unfold handle_control_event. side. Qed.
Lemma write_loop_side t data n : input_side (write_loop t data n).2 = input_side t.
Proof.
  revert t n. induction data as [|b data IH]; intros t n; simpl; [done|].
  repeat case_match; simpl; rewrite ?IH, ?try_enqueue_output_byte_side; done.
Qed.
Lemma write_output_side t d nb wn : input_side (write_output t d nb wn).2 = input_side t.
Proof.
  unfold write_output. destruct d as [|bs]; [side|]. pose proof (write_loop_side t bs 0).
  destruct (write_loop t bs 0) as [[? ?] ?]. simpl in *. repeat case_match; done.
Qed.
Lemma read_output_side t d nb rn : input_side (read_output t d nb rn).2 = input_side t.
Proof. unfold read_output. side. Qed.

(** Adding a record. *)
Lemma enqueue_input_record_room t n :
  tty_wf t → 0 ≤ n ≤ queue_capacity → input_record_count_ t < queue_capacity →
  (enqueue_input_record t n).1 = true ∧
  record_list (enqueue_input_record t n).2 = record_list t ++ [n] ∧
  input_ring_ (enqueue_input_record t n).2 = input_ring_ t ∧
  termios_ (enqueue_input_record t n).2 = termios_ t.
Proof.
  intros [] Hn Hc. unfold enqueue_input_record.
  rewrite (proj2 (Z.ltb_ge _ _)), (proj2 (Z.eqb_neq _ _)) by lia. simpl. repeat split.
  unfold record_list. simpl. rewrite <- wf_records_length0, ring_list_push by lia.
  rewrite u16_small; [done|]. unfold queue_capacity in *. lia.
Qed.

Lemma enqueue_input_record_full t n :
  input_record_count_ t = queue_capacity → enqueue_input_record t n = (false, t).
Proof. intros H. unfold enqueue_input_record. by rewrite H, Z.eqb_refl, orb_true_r. Qed.

Lemma enqueue_input_record_account t :
  tty_wf t → records_account t → records_account (enqueue_input_record t 0).2.
Proof.
  intros Hwf Ha. destruct (decide (input_record_count_ t = queue_capacity)).
  { by rewrite enqueue_input_record_full. }
  destruct (enqueue_input_record_room t 0) as (_ & Hr & Hi & _); [done|done|destruct Hwf; lia|].
  unfold records_account. rewrite Hr, Hi, sum_Z_app. simpl. unfold records_account in Ha. lia.
Qed.

(** Committing the pending line. *)
Lemma enqueue_input_line_room t :
  tty_wf t → canonical_size_ t ≤ ring_free_space (input_ring_ t) →
  input_record_count_ t < queue_capacity →
  let t' := (enqueue_input_line t).2 in
  (enqueue_input_line t).1 = canonical_size_ t ∧
  record_list t' = record_list t ++ [canonical_size_ t] ∧
  ring_bytes (input_ring_ t') = ring_bytes (input_ring_ t) ++ pending_line t ∧
  ring_size_ (input_ring_ t') = ring_size_ (input_ring_ t) + canonical_size_ t ∧
  termios_ t' = termios_ t ∧ canonical_size_ t' = 0.
Proof.
  intros Hwf Hf Hc. pose proof Hwf as []. unfold enqueue_input_line. cbv zeta.
  rewrite (proj2 (Z.ltb_ge _ _)), (proj2 (Z.eqb_neq _ _)) by lia. simpl.
  assert (Z.of_nat (length (pending_line t)) = canonical_size_ t) as Hl.
  { unfold pending_line. rewrite length_take. lia. }
  destruct (push_line_spec (pending_line t) (input_ring_ t) 0) as (Hr & Hw & Hb & Hs);
    [done|by apply Forall_take|lia|]. fold (pending_line t).
  destruct (push_line (pending_line t) (input_ring_ t) 0) as [w r]. simpl in *.
  assert (w = canonical_size_ t) as -> by lia. rewrite Z.eqb_refl. simpl.
  destruct (enqueue_input_record_room (with_input_ring r t) (canonical_size_ t))
    as (Hok & Hrec & Hi & Ht); [auto with tty|lia|done|].
  destruct (enqueue_input_record (with_input_ring r t) (canonical_size_ t)) as [ok t2].
  simpl in *. subst ok. unfold bump_generation. simpl. rewrite Hi.
  repeat split; done || lia.
Qed.

Lemma records_account_side t t' :
  input_side t' = input_side t → records_account t → records_account t'.
Proof.
  intros Hs Ha. apply input_side_inv in Hs as (Hr & Hi & _). unfold records_account. congruence.
Qed.

Lemma drop_input_account t : records_account (drop_input t).
Proof. done. Qed.

Lemma signal_input_account t v : records_account t → records_account (signal_input t v).
Proof.
  intros Ha. unfold signal_input.
  case_match; [|done]. by apply (records_account_side t), Ha; apply handle_control_event_side.
Qed.

(** A byte the canonical branch stores in the pending line: no editing
    character, and no VEOF at the start of a line. *)
Definition stores (t : terminal_core) (v : Z) : bool :=
  negb (lflag t termios_lflag.ixten && (v =? cc t termios_cc.verase)) &&
  negb (lflag t termios_lflag.ixten && (v =? cc t termios_cc.vkill)) &&
  negb ((canonical_size_ t =? 0) && (v =? cc t termios_cc.veof)).

(** The room a stored byte needs: in the line buffer, for its echo and, for a
    newline, for the whole line in the input queue. *)
Definition has_room (t : terminal_core) (v : Z) : bool :=
  (canonical_size_ t <? queue_capacity) &&
  (echo_byte_size t v <=? ring_free_space (output_ring_ t)) &&
  negb ((v =? chr_lf) && ((ring_free_space (input_ring_ t) <? canonical_size_ t + 1)
                          || (input_record_count_ t =? queue_capacity))).

Definition stored (t : terminal_core) (v : Z) : terminal_core :=
  (echo_byte (with_line (zset (canonical_line_ t) (canonical_size_ t) v) (canonical_size_ t + 1) t) v).2.

Lemma canonical_input_stores t v :
  stores t v = true →
  canonical_input t v =
    if has_room t v then
      if v =? chr_lf then (negb ((enqueue_input_line (stored t v)).1 =? 0), (enqueue_input_line (stored t v)).2)
      else (true, stored t v)
    else (false, t).
Proof.
  unfold stores, canonical_input, has_room, stored. cbv zeta. intros Hs.
  apply andb_prop in Hs as [Hs H3%negb_true_iff]. apply andb_prop in Hs as [H1%negb_true_iff H2%negb_true_iff].
  rewrite H1, H2, H3. rewrite (Z.leb_antisym (canonical_size_ t)), (Z.leb_antisym (ring_free_space _)).
  destruct (canonical_size_ t <? queue_capacity); simpl; [|done].
  destruct (ring_free_space (output_ring_ t) <? echo_byte_size t v); simpl; [done|].
  destruct ((v =? chr_lf) && _); simpl; [done|].
  destruct (v =? chr_lf); [|done]. by destruct (enqueue_input_line _).
Qed.

Lemma echo_byte_line t v :
  canonical_line_ (echo_byte t v).2 = canonical_line_ t ∧
  canonical_size_ (echo_byte t v).2 = canonical_size_ t.
Proof. unfold echo_byte, try_enqueue_output_byte. repeat case_match; simplify_eq/=; done. Qed.

Lemma stored_spec t v :
  tty_wf t → is_byte v → canonical_size_ t < queue_capacity →
  tty_wf (stored t v) ∧ input_side (stored t v) = input_side t ∧
  pending_line (stored t v) = pending_line t ++ [v] ∧
  canonical_size_ (stored t v) = canonical_size_ t + 1.
Proof.
  intros Hwf Hv Hc. pose proof Hwf as []. unfold stored. set (t1 := with_line _ _ t).
  assert (tty_wf t1) as Hwf1.
  { apply with_line_wf; [done|by rewrite length_zset|by apply Forall_insert|lia]. }
  destruct (echo_byte_line t1 v) as [Hl Hn]. split_and!; auto with tty.
  - by rewrite echo_byte_side.
  - unfold pending_line. rewrite Hl, Hn. simpl. by rewrite take_zset by lia.
Qed.

(** A newline commits the pending line as one record. *)
Lemma canonical_input_newline t :
  tty_wf t → stores t chr_lf = true → has_room t chr_lf = true →
  let t' := (canonical_input t chr_lf).2 in
  (canonical_input t chr_lf).1 = true ∧
  record_list t' = record_list t ++ [canonical_size_ t + 1] ∧
  ring_bytes (input_ring_ t') = ring_bytes (input_ring_ t) ++ pending_line t ++ [chr_lf] ∧
  ring_size_ (input_ring_ t') = ring_size_ (input_ring_ t) + (canonical_size_ t + 1) ∧
  termios_ t' = termios_ t ∧ canonical_size_ t' = 0.
Proof.
  intros Hwf Hs Hr. rewrite canonical_input_stores, Hr by done. simpl.
  unfold has_room in Hr. rewrite !andb_true_iff, Z.ltb_lt, Z.leb_le, negb_true_iff in Hr.
  destruct Hr as [[Hc He] Hr]. simpl in Hr.
  apply orb_false_elim in Hr as [Hr%Z.ltb_ge Hcnt%Z.eqb_neq].
  destruct (stored_spec t chr_lf Hwf chr_lf_byte Hc) as (Hwf' & Hside & Hp & Hn).
  pose proof Hside as [= H1 H2 H3 H4 H5]. pose proof (wf_records_count t Hwf).
  destruct (enqueue_input_line_room (stored t chr_lf)) as (Hw & Hrec & Hb & Hz & Ht & Hz0);
    [done|rewrite Hn, H1; done|rewrite H4; lia|]. cbv zeta in *.
  apply input_side_inv in Hside as (Hrl & _).
  rewrite Hw, Hrec, Hb, Hz, Ht, Hz0, Hp, Hn, H1, Hrl, H5. pose proof (wf_line_size t Hwf).
  split_and!; try done. by rewrite (proj2 (Z.eqb_neq _ _)) by lia.
Qed.

Lemma side_frame t t' :
  input_side t' = input_side t →
  input_ring_ t' = input_ring_ t ∧ termios_ t' = termios_ t ∧
  (record_list t' = record_list t ∨ record_list t' = record_list t ++ [0]).
Proof.
  intros Hs. pose proof Hs as [= ? ? ? ? ?]. apply input_side_inv in Hs as (? & _). auto.
Qed.

(** Every other byte the canonical branch handles leaves the committed input
    alone, except that VEOF commits an empty record. *)
Lemma canonical_input_other t v :
  tty_wf t → is_byte v → stores t v && (v =? chr_lf) && has_room t v = false →
  let t' := (canonical_input t v).2 in
  input_ring_ t' = input_ring_ t ∧ termios_ t' = termios_ t ∧
  (record_list t' = record_list t ∨ record_list t' = record_list t ++ [0]).
Proof.
  intros Hwf Hv Hno. cbv zeta. destruct (stores t v) eqn:Hs.
  - rewrite canonical_input_stores by done.
    destruct (has_room t v) eqn:Hr; [|auto].
    rewrite andb_true_r in Hno. simpl in Hno. rewrite Hno. simpl.
    unfold has_room in Hr. rewrite !andb_true_iff, Z.ltb_lt in Hr. destruct Hr as [[Hc _] _].
    apply side_frame. by apply (stored_spec t v Hwf Hv Hc).
  - clear Hno. unfold stores in Hs. unfold canonical_input. cbv zeta.
    destruct (lflag t _ && (v =? cc t termios_cc.verase)) eqn:H1.
    { repeat case_match; simpl; auto. apply side_frame. by rewrite echo_erase_side. }
    destruct (lflag t _ && (v =? cc t termios_cc.vkill)) eqn:H2.
    { repeat case_match; simpl; auto. apply side_frame. by rewrite echo_kill_side. }
    destruct ((canonical_size_ t =? 0) && _); [|done].
    destruct (decide (input_record_count_ t = queue_capacity)) as [Hf|Hf].
    { rewrite enqueue_input_record_full by done. auto. }
    destruct (enqueue_input_record_room t 0) as (Hok & Hrec & Hi & Ht);
      [done|done|destruct Hwf; lia|].
    destruct (enqueue_input_record t 0) as [ok t1]. simpl in *. subst ok. auto.
Qed.

Lemma canonical_input_account t v :
  tty_wf t → is_byte v → records_account t → records_account (canonical_input t v).2.
Proof.
  intros Hwf Hv Ha. unfold records_account in *.
  destruct (stores t v && (v =? chr_lf) && has_room t v) eqn:E.
  - rewrite !andb_true_iff, Z.eqb_eq in E. destruct E as [[Hs ->] Hr].
    destruct (canonical_input_newline t Hwf Hs Hr) as (_ & -> & _ & -> & _).
    rewrite sum_Z_app. simpl. lia.
  - destruct (canonical_input_other t v Hwf Hv E) as (-> & _ & [-> | ->]); [done|].
    rewrite sum_Z_app. simpl. lia.
Qed.

Lemma canonical_input_mode t v : tty_wf t → is_byte v → termios_ (canonical_input t v).2 = termios_ t.
Proof.
  intros Hwf Hv. destruct (stores t v && (v =? chr_lf) && has_room t v) eqn:E.
  - rewrite !andb_true_iff, Z.eqb_eq in E. destruct E as [[Hs ->] Hr].
    by destruct (canonical_input_newline t Hwf Hs Hr) as (_ & _ & _ & _ & -> & _).
  - by destruct (canonical_input_other t v Hwf Hv E) as (_ & -> & _).
Qed.

(** The state of a terminal used in canonical mode only. *)
Definition canonical_ok (t : terminal_core) : Prop :=
  tty_wf t ∧ is_canonical t = true ∧ records_account t.

Lemma canonical_ok_side t t' :
  tty_wf t' → input_side t' = input_side t → canonical_ok t → canonical_ok t'.
Proof.
  intros Hwf' Hs (_ & Hc & Ha). split_and!; [done| |by apply (records_account_side t)].
  apply input_side_inv in Hs as (_ & _ & _ & ->). done.
Qed.

Lemma is_canonical_termios t t' : termios_ t' = termios_ t → is_canonical t' = is_canonical t.
Proof. unfold is_canonical, lflag. by intros ->. Qed.

Lemma receive_byte_canonical t v : canonical_ok t → is_byte v → canonical_ok (receive_byte t v).2.
Proof.
  intros (Hwf & Hc & Ha) Hv. pose proof (receive_byte_wf t v Hwf Hv) as Hwf'.
  revert Hwf'. unfold receive_byte. destruct (translate_input t v) as [v'|] eqn:Ht; [|done].
  apply translate_input_byte in Ht; [|done].
  pose proof (flow_control_side t v') as Hs. pose proof (flow_control_wf t v' Hwf) as Hwf1.
  destruct (flow_control t v') as [stop t1]. simpl in *.
  assert (canonical_ok t1) as Hok1 by (by apply (canonical_ok_side t)).
  destruct Hok1 as (_ & Hc1 & Ha1). destruct stop; [done|].
  destruct (is_signal_char t1 v'); intros Hwf'.
  - split_and!; [done| |by apply signal_input_account].
    rewrite <- Hc1. apply is_canonical_termios. unfold signal_input, handle_control_event.
    repeat case_match; done.
  - rewrite Hc1 in *. split_and!; [done| |by apply canonical_input_account].
    rewrite <- Hc1. by apply is_canonical_termios, canonical_input_mode.
Qed.

Lemma receive_loop_canonical t data n :
  canonical_ok t → Forall is_byte data → canonical_ok (receive_loop t data n).2.
Proof.
  revert t n. induction data as [|b data IH]; intros t n Hok Hd; simpl; [done|].
  apply Forall_cons_1 in Hd as [Hb Hd]. pose proof (receive_byte_canonical t b Hok Hb).
  destruct (receive_byte t b) as [[] t']; simpl in *; auto.
Qed.

Lemma committed_nil t : tty_wf t → committed t = [] ↔ input_record_count_ t = 0.
Proof.
  intros Hwf. unfold committed, record_list. pose proof Hwf as [].
  split.
  - intros H%(f_equal length). rewrite length_reshape, length_fmap, length_ring_list in H.
    simpl in H. lia.
  - intros ->. by rewrite ring_list_nil by lia.
Qed.

(** The first record, seen as the head of the record ring and as the front of
    the input queue. *)
Lemma committed_cons t rec recs :
  canonical_ok t → committed t = rec :: recs →
  let n := zget (input_record_sizes_ t) (input_record_head_ t) in
  0 < input_record_count_ t ∧
  Z.of_nat (length rec) = n ∧ record_list t = n :: tail (record_list t) ∧
  rec = take (Z.to_nat n) (ring_bytes (input_ring_ t)) ∧
  n ≤ ring_size_ (input_ring_ t) ∧
  recs = reshape (Z.to_nat <$> tail (record_list t)) (drop (Z.to_nat n) (ring_bytes (input_ring_ t))).
Proof.
  intros (Hwf & Hc & Ha) Hcm n.
  assert (0 < input_record_count_ t) as Hcnt.
  { pose proof (committed_nil t Hwf) as [_ Hn]. pose proof (wf_records_count t Hwf).
    destruct (decide (input_record_count_ t = 0)) as [E|]; [by rewrite Hn in Hcm|lia]. }
  assert (record_list t = n :: tail (record_list t)) as Hrl.
  { unfold record_list. destruct Hwf. by rewrite ring_list_pop by lia. }
  pose proof (record_list_nonneg t Hwf) as Hnn. rewrite Hrl in Hnn.
  apply Forall_cons_1 in Hnn as [Hn0 Hnn]. pose proof (sum_Z_nonneg _ Hnn) as Hsum.
  unfold records_account in Ha. rewrite Hrl in Ha. simpl in Ha.
  pose proof (ring_bytes_length _ (wf_input t Hwf)) as Hlen.
  unfold committed in Hcm. rewrite Hrl in Hcm. simpl in Hcm. injection Hcm as <- <-.
  split_and!; try done; [rewrite length_take|]; lia.
Qed.

Lemma read_canonical_record_none t m :
  tty_wf t → committed t = [] → read_canonical_record t m = (None, t).
Proof. intros Hwf Hc%committed_nil; [|done]. unfold read_canonical_record. by rewrite Hc. Qed.

Lemma read_canonical_record_some t m rec recs :
  canonical_ok t → 0 < m → committed t = rec :: recs →
  ∃ t', read_canonical_record t m = (Some (Some <$> take (Z.to_nat m) rec), t') ∧
    canonical_ok t' ∧
    committed t' = if Z.of_nat (length rec) <=? m then recs else drop (Z.to_nat m) rec :: recs.
Proof.
  intros Hok Hm Hcm. destruct (committed_cons t rec recs Hok Hcm) as (Hcnt & Hlr & Hrl & Hrec & Hns & Hrecs).
  destruct Hok as (Hwf & Hc & Ha).
  pose proof (read_canonical_record_wf t m Hwf ltac:(lia)) as Hwf'. revert Hwf'.
  unfold read_canonical_record. rewrite (proj2 (Z.eqb_neq _ _)) by lia. cbv zeta.
  set (n := zget (input_record_sizes_ t) (input_record_head_ t)) in *.
  pose proof (ring_bytes_length _ (wf_input t Hwf)) as Hlen.
  destruct (pop_into_spec (Z.to_nat (Z.min n m)) (input_ring_ t) (wf_input t Hwf)) as (Hr & Hb & Hd).
  pose proof (ring_bytes_length _ Hr) as Hlen'.
  destruct (pop_into _ _) as [bs r]. simpl in *. pose proof Hwf as [].
  pose proof (rwf_size _ wf_input0) as Hrs.
  rewrite (u16_small (n - Z.min n m)) by (unfold queue_capacity in *; lia).
  replace (_ - length (ring_bytes (input_ring_ t)))%nat with 0%nat in Hb by lia.
  rewrite app_nil_r in Hb. rewrite Hd, length_drop in Hlen'.
  intros Hwf'. eexists. split; [|split; [split_and!; [exact Hwf'| |]|]].
  - do 2 f_equal. rewrite Hb, Hrec. f_equal. rewrite take_take. f_equal. lia.
  - rewrite <- Hc. apply is_canonical_termios. by case_match.
  - unfold records_account in *. rewrite Hrl in Ha. simpl in Ha.
    destruct (Z.eqb_spec (n - Z.min n m) 0); unfold record_list; simpl.
    + rewrite <- wf_records_length0, ring_list_set_rest by lia. fold (record_list t). lia.
    + rewrite ring_list_set_head by lia. fold (record_list t). simpl. lia.
  - unfold committed. destruct (Z.eqb_spec (n - Z.min n m) 0), (Z.leb_spec (Z.of_nat (length rec)) m);
      try lia; unfold record_list; simpl.
    + rewrite <- wf_records_length0, ring_list_set_rest by lia. fold (record_list t).
      rewrite Hrecs, Hd. do 2 f_equal. lia.
    + rewrite ring_list_set_head by lia. fold (record_list t). simpl.
      rewrite Hd, Hrecs, Hrec, drop_drop. f_equal; [|do 2 f_equal; lia].
      rewrite take_drop_commute. do 2 f_equal; lia.
Qed.

(** With no record queued, the input queue of a canonical terminal is empty. *)
Lemma canonical_no_record t : canonical_ok t → committed t = [] → ring_empty (input_ring_ t) = true.
Proof.
  intros (Hwf & _ & Ha) Hc%committed_nil; [|done]. unfold records_account, record_list in Ha.
  rewrite Hc, ring_list_nil in Ha by lia. unfold ring_empty. simpl in Ha. by rewrite <- Ha.
Qed.

(** A read of a canonical terminal with no record queued. *)
Lemma read_input_canonical_none t d nb te :
  canonical_ok t → committed t = [] → dest_null d = false → 0 < dest_size d →
  read_input t d nb false te =
    if negb (eof_count_ t =? 0) then
      (Done 0, [], bump_generation (with_eof_count (eof_count_ t - 1) t))
    else if input_shutdown_ t || master_hung_up_ t then (Done 0, [], t)
    else (Fail EAGAIN, [], t).
Proof.
  intros Hok Hc Hn Hd. pose proof (canonical_no_record t Hok Hc) as He. destruct Hok as (Hwf & Hm & _).
  unfold read_input. rewrite Hn, Hm, He, read_canonical_record_none by done. simpl.
  rewrite (proj2 (Z.eqb_neq _ _)) by lia. repeat case_match; done.
Qed.

Lemma read_input_canonical t d nb rn te :
  canonical_ok t → 0 ≤ dest_size d → canonical_ok (read_input t d nb rn te).2.
Proof.
  intros Hok Hd. pose proof (read_input_wf t d nb rn te ltac:(by destruct Hok) Hd) as Hwf'.
  destruct ((dest_null d && negb (dest_size d =? 0)) || rn) eqn:E1.
  { unfold read_input. by rewrite E1. }
  destruct (Z.eqb_spec (dest_size d) 0) as [E2|E2].
  { unfold read_input. rewrite E2. repeat case_match; done. }
  assert (dest_null d = false ∧ rn = false) as [Hn ->].
  { destruct (dest_null d), rn; simpl in *; try done.
  }
  destruct (committed t) as [|rec recs] eqn:Hc.
  - rewrite read_input_canonical_none in * by (done || lia).
    repeat case_match; simpl in *; try done. by apply (canonical_ok_side t).
  - destruct (read_canonical_record_some t (dest_size d) rec recs) as (t' & Hr & Hok' & _);
      [done|lia|done|]. destruct Hok as (_ & Hm & _).
    unfold read_input. rewrite Hn, Hm. simpl. rewrite (proj2 (Z.eqb_neq _ _)) by done. by rewrite Hr.
Qed.

Lemma tty_step_canonical t op :
  canonical_ok t → op_ok op → keeps_canonical op → canonical_ok (tty_step t op).
Proof.
  intros Hok Hop Hk. pose proof (tty_step_wf t op ltac:(by destruct Hok) Hop) as Hwf'.
  destruct op; simpl in *; try by apply (canonical_ok_side t).
  - unfold receive_input. destruct data as [n|bs]; simpl in *.
    { repeat case_match; done. }
    pose proof (receive_loop_canonical t bs 0 Hok Hop).
    destruct (receive_loop t bs 0) as [[fin n] t']. simpl in *. repeat case_match; done.
  - by apply read_input_canonical.
  - apply (canonical_ok_side t); auto. by rewrite write_output_side.
  - apply (canonical_ok_side t); auto. by rewrite read_output_side.
  - unfold flush in *. destruct (_ || _); [done|]. simpl in *.
    destruct Hok as (_ & Hc & Ha).
    split_and!; [done|rewrite <- Hc; apply is_canonical_termios|unfold records_account in *].
    all: repeat case_match; try done.
  - unfold send_eof in *. destruct Hok as (Hwf & Hc & Ha). rewrite Hc in *.
    pose proof (enqueue_input_record_account t Hwf Ha).
    assert (termios_ (enqueue_input_record t 0).2 = termios_ t) as Ht.
    { unfold enqueue_input_record. by destruct (_ || _). }
    destruct (enqueue_input_record t 0) as [[] t1]; simpl in *; split_and!; try done;
      rewrite <- Hc; by apply is_canonical_termios.
  - apply (canonical_ok_side t); auto. unfold open_master. by case_match.
  - apply (canonical_ok_side t); auto. unfold open_slave. by case_match.
  - apply (canonical_ok_side t); auto. unfold set_flow. repeat case_match; done.
  - destruct Hok as (Hwf & Hc & Ha). unfold set_termios in *.
    repeat case_match; simpl in *; split_and!; done.
Qed.



(** Canonical reads.  A read of a canonical terminal with a record queued
    returns the oldest record, cut to the destination size: exactly the bytes
    of that record, never bytes of the next one, and never an unwritten
    destination byte.  What did not fit stays the oldest record; a record that
    fits is gone. *)
Theorem canonical_read_returns_one_record t d nb te rec recs :
  canonical_ok t → dest_null d = false → 0 < dest_size d → committed t = rec :: recs →
  let '(result, bytes, t') := read_input t d nb false te in
  bytes = Some <$> take (Z.to_nat (dest_size d)) rec ∧
  result = Done (Z.min (Z.of_nat (length rec)) (dest_size d)) ∧
  committed t' = (if Z.of_nat (length rec) <=? dest_size d then recs
                  else drop (Z.to_nat (dest_size d)) rec :: recs) ∧
  canonical_ok t'.
Proof.
  intros Hok Hn Hd Hc.
  destruct (read_canonical_record_some t (dest_size d) rec recs) as (t' & Hr & Hok' & Hc');
    [done|lia|done|].
  destruct (committed_cons t rec recs Hok Hc) as (_ & Hl & _ & _ & Hsz & _).
  destruct Hok as (Hwf & Hm & _). pose proof (rwf_size _ (wf_input t Hwf)).
  unfold read_input. rewrite Hn, Hm. simpl. rewrite (proj2 (Z.eqb_neq _ _)) by lia. rewrite Hr.
  split_and!; try done. f_equal. rewrite length_fmap, length_take.
  unfold queue_capacity in *. rewrite i32_small; lia.
Qed.

(** A terminal that has received two lines. *)
Definition two_lines : terminal_core :=
  tty_step make_terminal_core (ReceiveInput (Bytes [97; 10; 98; 10]) true false).

Lemma two_lines_ok : canonical_ok two_lines ∧ committed two_lines = [[97; 10]; [98; 10]].
Proof.
  split; [|by vm_compute]. unfold two_lines. apply tty_step_canonical; [|solve_Forall|done].
  split; [apply make_terminal_core_wf|done].
Qed.

Lemma canonical_read_returns_one_record_witness :
  let '(result, bytes, t') := read_input two_lines (Build_dest false 16) true false false in
  bytes = [Some 97; Some 10] ∧ result = Done 2 ∧ committed t' = [[98; 10]] ∧ canonical_ok t'.
Proof.
  destruct two_lines_ok as [Hok Hc].
  exact (canonical_read_returns_one_record two_lines (Build_dest false 16) true false
           [97; 10] [[98; 10]] Hok eq_refl eq_refl Hc).
Defined.

(** ** Echo and output *)

(** The bytes [echo_byte] sends to the master side. *)
Definition echo_bytes (t : terminal_core) (v : Z) : list Z :=
  if echo_byte_size t v =? 0 then []
  else if (v =? chr_lf) && oflag t termios_oflag.onlcr then [chr_cr; v] else [v].

(** The bytes [write_output] sends to the master side for one byte. *)
Definition output_bytes (t : terminal_core) (v : Z) : list Z :=
  if translates_newline t v then [chr_cr; v] else [v].

Lemma echo_bytes_length t v : Z.of_nat (length (echo_bytes t v)) = echo_byte_size t v.
Proof.
  unfold echo_bytes, echo_byte_size.
  destruct (_ && (_ || _)); [done|]. by destruct ((v =? chr_lf) && _).
Qed.

Lemma try_enqueue_output_byte_room t v :
  tty_wf t → 0 < ring_free_space (output_ring_ t) →
  let t' := (try_enqueue_output_byte t v).2 in
  ring_bytes (output_ring_ t') = ring_bytes (output_ring_ t) ++ [v] ∧
  ring_free_space (output_ring_ t') = ring_free_space (output_ring_ t) - 1 ∧
  termios_ t' = termios_ t.
Proof.
  intros Hwf Hf. cbv zeta. unfold try_enqueue_output_byte.
  destruct (ring_push_room (output_ring_ t) v (wf_output t Hwf) Hf) as (H1 & H2 & H3).
  destruct (ring_push _ _) as [ok r]. simpl in *. subst ok. simpl.
  unfold ring_free_space in *. split_and!; (done || lia).
Qed.

Lemma echo_byte_size_termios t t' v :
  termios_ t' = termios_ t → echo_byte_size t' v = echo_byte_size t v.
Proof. unfold echo_byte_size, lflag, oflag. by intros ->. Qed.

Lemma echo_byte_room t v :
  tty_wf t → echo_byte_size t v ≤ ring_free_space (output_ring_ t) →
  let t' := (echo_byte t v).2 in
  ring_bytes (output_ring_ t') = ring_bytes (output_ring_ t) ++ echo_bytes t v ∧
  ring_free_space (output_ring_ t') = ring_free_space (output_ring_ t) - echo_byte_size t v.
Proof.
  intros Hwf Hf. cbv zeta. unfold echo_byte. rewrite (proj2 (Z.ltb_ge _ _)) by done. simpl.
  pose proof (echo_bytes_length t v) as Hlen. unfold echo_bytes in *.
  destruct (Z.eqb_spec (echo_byte_size t v) 0) as [E|E]; simpl in *.
  { rewrite andb_false_r, E. simpl. rewrite app_nil_r. split; [done|lia]. }
  rewrite andb_true_r. destruct ((v =? chr_lf) && _); simpl in *.
  - destruct (try_enqueue_output_byte_room t chr_cr Hwf ltac:(lia)) as (Hb & Hs & Ht).
    rewrite (echo_byte_size_termios t) by done. rewrite (proj2 (Z.eqb_neq _ _)) by done. simpl.
    destruct (try_enqueue_output_byte_room (try_enqueue_output_byte t chr_cr).2 v)
      as (Hb' & Hs' & _); [auto with tty|lia|].
    rewrite Hb', Hb, <- app_assoc. split; [done|lia].
  - rewrite (proj2 (Z.eqb_neq _ _)) by done. simpl.
    destruct (try_enqueue_output_byte_room t v Hwf ltac:(lia)) as (Hb & Hs & _). split; [done|lia].
Qed.

Lemma output_bytes_termios t t' v : termios_ t' = termios_ t → output_bytes t' v = output_bytes t v.
Proof. unfold output_bytes, translates_newline, oflag. by intros ->. Qed.

Lemma write_byte_room t v :
  tty_wf t → is_byte v → Z.of_nat (length (output_bytes t v)) ≤ ring_free_space (output_ring_ t) →
  let t1 := if translates_newline t v then (try_enqueue_output_byte t chr_cr).2 else t in
  let t2 := (try_enqueue_output_byte t1 v).2 in
  tty_wf t2 ∧ ring_bytes (output_ring_ t2) = ring_bytes (output_ring_ t) ++ output_bytes t v ∧
  termios_ t2 = termios_ t.
Proof.
  intros Hwf Hv Hf. cbv zeta. unfold output_bytes in *.
  destruct (translates_newline t v); simpl in *.
  - destruct (try_enqueue_output_byte_room t chr_cr Hwf ltac:(lia)) as (Hb & Hs & Ht).
    destruct (try_enqueue_output_byte_room (try_enqueue_output_byte t chr_cr).2 v)
      as (Hb' & Hs' & Ht'); [auto with tty|lia|].
    rewrite Hb', Hb, Ht', Ht, <- app_assoc. auto with tty.
  - destruct (try_enqueue_output_byte_room t v Hwf ltac:(lia)) as (Hb & Hs & Ht). auto with tty.
Qed.

Lemma write_loop_spec t data n :
  tty_wf t → Forall is_byte data →
  let '(finished, written, t') := write_loop t data n in
  ∃ k : nat, written = n + Z.of_nat k ∧ (k ≤ length data)%nat ∧
    tty_wf t' ∧ termios_ t' = termios_ t ∧
    ring_bytes (output_ring_ t') = ring_bytes (output_ring_ t) ++ concat (output_bytes t <$> take k data) ∧
    (if finished then k = length data
     else ∃ v, data !! k = Some v ∧
               ring_free_space (output_ring_ t') < Z.of_nat (length (output_bytes t v))).
Proof.
  revert t n. induction data as [|v data IH]; intros t n Hwf Hd.
  { simpl. exists 0%nat. simpl. rewrite app_nil_r. split_and!; (done || lia). }
  apply Forall_cons_1 in Hd as [Hv Hd]. cbn [write_loop].
  replace (if translates_newline t v then 2 else 1) with (Z.of_nat (length (output_bytes t v)))
    by (unfold output_bytes; by case_match).
  destruct (Z.ltb_spec (ring_free_space (output_ring_ t)) (Z.of_nat (length (output_bytes t v)))).
  { exists 0%nat. simpl. rewrite app_nil_r. split_and!; try (done || lia). eauto. }
  destruct (write_byte_room t v) as (Hwf' & Hb & Ht); [done..|].
  specialize (IH _ (n + 1) Hwf' Hd). destruct (write_loop _ data (n + 1)) as [[fin w] t'].
  destruct IH as (k & Hw & Hk & Hwf2 & Ht2 & Hb2 & Hfin). exists (S k). simpl.
  assert (∀ x, output_bytes (try_enqueue_output_byte
            (if translates_newline t v then (try_enqueue_output_byte t chr_cr).2 else t) v).2 x
          = output_bytes t x) as Ho by (intros; by apply output_bytes_termios).
  rewrite Ht2, Ht, Hb2, Hb, <- app_assoc. split_and!; try (done || lia).
  - do 2 f_equal. f_equal. apply list_fmap_ext. auto.
  - destruct fin; [lia|]. destruct Hfin as (x & Hx & Hlt). exists x. by rewrite Ho in Hlt.
Qed.

(** Output translation.  A write to a terminal that is not hung up and not
    paused queues, after what was queued before, exactly the translation of
    the bytes it reports as written; it stops early only at a byte whose whole
    translation does not fit, so CR LF pairs are never split, and a blocking
    write that stops early reports EAGAIN while a non-blocking one reports its
    progress. *)
Theorem write_output_queues_translation t bytes nb :
  tty_wf t → Forall is_byte bytes → master_hung_up_ t = false → output_paused_ t = false →
  Z.of_nat (length bytes) < 2 ^ 31 →
  let '(result, written, t') := write_output t (Bytes bytes) nb false in
  ∃ k : nat, written = Z.of_nat k ∧ (k ≤ length bytes)%nat ∧
    ring_bytes (output_ring_ t')
      = ring_bytes (output_ring_ t) ++ concat (output_bytes t <$> take k bytes) ∧
    ((k = length bytes ∧ result = Done (Z.of_nat k)) ∨
     (∃ v, bytes !! k = Some v ∧
        ring_free_space (output_ring_ t') < Z.of_nat (length (output_bytes t v)) ∧
        result = if nb && negb (Z.of_nat k =? 0) then Done (Z.of_nat k) else Fail EAGAIN)).
Proof.
  intros Hwf Hd Hm Hp Hlen. unfold write_output. rewrite Hm, Hp.
  destruct (Z.eqb_spec (Z.of_nat (length bytes)) 0) as [E|E].
  { exists 0%nat. destruct bytes; [|done]. simpl. rewrite app_nil_r. split_and!; [done..|]. by left. }
  pose proof (write_loop_spec t bytes 0 Hwf Hd) as Hs.
  destruct (write_loop t bytes 0) as [[fin w] t']. destruct Hs as (k & -> & Hk & _ & _ & Hb & Hfin).
  rewrite Z.add_0_l, i32_small by lia.
  destruct fin; [exists k; split_and!; auto|]. destruct Hfin as (v & Hv & Hlt).
  destruct (nb && negb (Z.of_nat k =? 0)) eqn:Hnb; exists k; split_and!; try done;
    right; exists v; by rewrite ?Hnb.
Qed.

Lemma write_output_queues_translation_witness :
  let '(result, written, t') := write_output make_terminal_core (Bytes [104; 10]) true false in
  ∃ k : nat, written = Z.of_nat k ∧ (k ≤ 2)%nat ∧
    ring_bytes (output_ring_ t') = [] ++ concat (output_bytes make_terminal_core <$> take k [104; 10]) ∧
    ((k = 2%nat ∧ result = Done (Z.of_nat k)) ∨
     (∃ v, [104; 10] !! k = Some v ∧
        ring_free_space (output_ring_ t') < Z.of_nat (length (output_bytes make_terminal_core v)) ∧
        result = if true && negb (Z.of_nat k =? 0) then Done (Z.of_nat k) else Fail EAGAIN)).
Proof.
  exact (write_output_queues_translation make_terminal_core [104; 10] true make_terminal_core_wf
           ltac:(solve_Forall) eq_refl eq_refl eq_refl).
Defined.
