(* ===== verification/TerminalStreams.v ===== *)
(** The byte streams of the line discipline of TerminalCore.v, end to end: a
    typed line reaches the slave side as one record and the master side as its
    echo, the editing characters undo what they should, the non-canonical mode
    is a transparent FIFO, a blocked receive can be retried, and the readiness
    bits agree with what the read methods do. *)
From stdpp Require Import base list numbers.
From S2P Require Import Prelude TerminalCore TerminalFacts.

Local Open Scope Z_scope.

(** A byte the input processing hands on as it is: not rewritten, not flow
    control and not a signal. *)
Definition passes (v : termios) (b : Z) : bool :=
  let cc i := zget (control_chars v) i in
  negb ((b =? chr_cr) && (has_flag (input_flags v) termios_iflag.igncr
                          || has_flag (input_flags v) termios_iflag.icrnl)) &&
  negb ((b =? chr_lf) && has_flag (input_flags v) termios_iflag.inlcr) &&
  negb (has_flag (input_flags v) termios_iflag.ixon
        && ((b =? cc termios_cc.vstop) || (b =? cc termios_cc.vstart))) &&
  negb (has_flag (local_flags v) termios_lflag.isig
        && ((b =? cc termios_cc.vintr) || (b =? cc termios_cc.vquit) || (b =? cc termios_cc.vsusp))).

(** A byte with no special meaning in canonical mode: also not an editing
    character and not VEOF. *)
Definition plain (v : termios) (b : Z) : bool :=
  let cc i := zget (control_chars v) i in
  passes v b &&
  negb (has_flag (local_flags v) termios_lflag.ixten
        && ((b =? cc termios_cc.verase) || (b =? cc termios_cc.vkill))) &&
  negb (b =? cc termios_cc.veof).

(** ** One received byte *)

(** What one step of the receive loop may leave unchanged. *)
Definition queues (t : terminal_core) :=
  (input_side t, output_ring_ t, canonical_line_ t, canonical_size_ t, eof_count_ t,
   slave_hung_up_ t, input_shutdown_ t).

Lemma passes_receive t b :
  passes (termios_ t) b = true →
  ∃ t1, queues t1 = queues t ∧ (tty_wf t → tty_wf t1) ∧
    receive_byte t b = (if is_canonical t then canonical_input t1 b else raw_input t1 b).
Proof.
  unfold passes. rewrite !andb_true_iff, !negb_true_iff. intros (((H1 & H2) & H3) & H4).
  unfold receive_byte. replace (translate_input t b) with (Some b).
  2: { unfold translate_input, iflag.
       destruct (b =? chr_cr); cbn [andb] in *; [|by rewrite H2].
       apply orb_false_elim in H1 as [-> ->]. done. }
  pose proof (flow_control_wf t b) as Hwf.
  assert ((flow_control t b).1 = false ∧ queues (flow_control t b).2 = queues t) as [Hc Hq].
  { unfold flow_control, iflag, cc in *. destruct (has_flag _ termios_iflag.ixon); simpl in *; [|done].
    apply orb_false_elim in H3 as [-> ->]. by destruct (output_paused_ t && _). }
  destruct (flow_control t b) as [stop t1]. simpl in *. subst stop.
  assert (termios_ t1 = termios_ t) as Ht by (unfold queues, input_side in Hq; congruence).
  exists t1. split_and!; [done|auto|]. unfold is_signal_char, lflag, cc. rewrite Ht, H4.
  by rewrite (is_canonical_termios t).
Qed.

Lemma plain_stores t b : plain (termios_ t) b = true → stores t b = true.
Proof.
  unfold plain, stores, lflag, cc. rewrite !andb_true_iff, !negb_true_iff.
  intros ((_ & H5) & ->). rewrite andb_false_r.
  destruct (has_flag _ termios_lflag.ixten); simpl in *; [|done].
  by apply orb_false_elim in H5 as [-> ->].
Qed.

Lemma plain_passes v b : plain v b = true → passes v b = true.
Proof. unfold plain. rewrite !andb_true_iff. by intros ((H & _) & _). Qed.

(** The room to type the bytes [l] and then a newline. *)
Definition line_room (t : terminal_core) (l : list Z) : Prop :=
  canonical_size_ t + Z.of_nat (length l) < queue_capacity ∧
  canonical_size_ t + Z.of_nat (length l) + 1 ≤ ring_free_space (input_ring_ t) ∧
  input_record_count_ t < queue_capacity ∧
  Z.of_nat (length (concat (echo_bytes t <$> (l ++ [chr_lf])))) ≤ ring_free_space (output_ring_ t).

Lemma echo_bytes_termios t t' v : termios_ t' = termios_ t → echo_bytes t' v = echo_bytes t v.
Proof.
  intros H. unfold echo_bytes. rewrite (echo_byte_size_termios t) by done. unfold oflag. by rewrite H.
Qed.

Lemma stored_output t v :
  tty_wf t → is_byte v → canonical_size_ t < queue_capacity →
  echo_byte_size t v ≤ ring_free_space (output_ring_ t) →
  ring_bytes (output_ring_ (stored t v)) = ring_bytes (output_ring_ t) ++ echo_bytes t v ∧
  ring_free_space (output_ring_ (stored t v)) = ring_free_space (output_ring_ t) - echo_byte_size t v.
Proof.
  intros Hwf Hv Hc He. unfold stored. set (t2 := with_line _ _ t).
  assert (tty_wf t2).
  { destruct Hwf. apply with_line_wf; [done|by rewrite length_zset|by apply Forall_insert|lia]. }
  destruct (echo_byte_room t2 v) as (Ho & Hf); [done|by rewrite (echo_byte_size_termios t)|].
  rewrite (echo_byte_size_termios t) in Hf by done. by rewrite (echo_bytes_termios t) in Ho by done.
Qed.

Lemma enqueue_input_line_output t : output_ring_ (enqueue_input_line t).2 = output_ring_ t.
Proof.
  unfold enqueue_input_line, enqueue_input_record. repeat case_match; simplify_eq/=; done.
Qed.

Lemma receive_plain_byte t b :
  canonical_ok t → is_byte b → plain (termios_ t) b = true → b ≠ chr_lf →
  canonical_size_ t < queue_capacity → echo_byte_size t b ≤ ring_free_space (output_ring_ t) →
  let t' := (receive_byte t b).2 in
  (receive_byte t b).1 = true ∧ canonical_ok t' ∧ input_side t' = input_side t ∧
  pending_line t' = pending_line t ++ [b] ∧ canonical_size_ t' = canonical_size_ t + 1 ∧
  ring_bytes (output_ring_ t') = ring_bytes (output_ring_ t) ++ echo_bytes t b ∧
  ring_free_space (output_ring_ t') = ring_free_space (output_ring_ t) - echo_byte_size t b.
Proof.
  intros Hok Hb Hp Hlf Hc He. pose proof (receive_byte_canonical t b Hok Hb) as Hok'.
  destruct Hok as (Hwf & Hm & _). destruct (passes_receive t b (plain_passes _ _ Hp)) as (t1 & Hq & Hwf1 & Hr).
  cbv zeta. rewrite Hr, Hm in *. injection Hq as H1 H2 H3 H4 H5 H6 H7 H8 H9 H10 H11.
  specialize (Hwf1 Hwf).
  rewrite canonical_input_stores in * by (apply plain_stores; by rewrite H5).
  assert (has_room t1 b = true) as Hroom.
  { unfold has_room. rewrite (echo_byte_size_termios t), H6, H8 by done.
    rewrite (proj2 (Z.ltb_lt _ _)), (proj2 (Z.leb_le _ _)), (proj2 (Z.eqb_neq _ _)) by done. done. }
  rewrite Hroom, (proj2 (Z.eqb_neq _ _)) in * by done. cbn [fst snd] in *.
  destruct (stored_spec t1 b Hwf1 Hb ltac:(lia)) as (_ & Hs & Hpl & Hn).
  destruct (stored_output t1 b) as (Ho & Hf);
    [done|done|lia|by rewrite (echo_byte_size_termios t), H6|].
  rewrite (echo_byte_size_termios t) in Hf by done. rewrite (echo_bytes_termios t) in Ho by done.
  rewrite H6 in Ho, Hf.
  split_and!; try done; [|rewrite Hpl|lia].
  - rewrite Hs. unfold input_side. congruence.
  - unfold pending_line. by rewrite H7, H8.
Qed.

Lemma receive_plain_newline t :
  canonical_ok t → plain (termios_ t) chr_lf = true →
  canonical_size_ t < queue_capacity → canonical_size_ t + 1 ≤ ring_free_space (input_ring_ t) →
  input_record_count_ t < queue_capacity →
  echo_byte_size t chr_lf ≤ ring_free_space (output_ring_ t) →
  let t' := (receive_byte t chr_lf).2 in
  (receive_byte t chr_lf).1 = true ∧ canonical_ok t' ∧
  committed t' = committed t ++ [pending_line t ++ [chr_lf]] ∧ pending_line t' = [] ∧
  ring_bytes (output_ring_ t') = ring_bytes (output_ring_ t) ++ echo_bytes t chr_lf.
Proof.
  intros Hok Hp Hc Hi Hrc He. pose proof (receive_byte_canonical t chr_lf Hok chr_lf_byte) as Hok'.
  destruct Hok as (Hwf & Hm & Ha). destruct (passes_receive t chr_lf (plain_passes _ _ Hp)) as (t1 & Hq & Hwf1 & Hr).
  cbv zeta. rewrite Hr, Hm in *. injection Hq as H1 H2 H3 H4 H5 H6 H7 H8 H9 H10 H11.
  specialize (Hwf1 Hwf).
  assert (has_room t1 chr_lf = true) as Hroom.
  { unfold has_room. rewrite (echo_byte_size_termios t), H6, H8, H1, H4 by done.
    rewrite (proj2 (Z.ltb_lt _ _)), (proj2 (Z.leb_le _ _)) by done. simpl.
    by rewrite (proj2 (Z.ltb_ge _ _)), (proj2 (Z.eqb_neq _ _)) by lia. }
  assert (stores t1 chr_lf = true) as Hst by (apply plain_stores; by rewrite H5).
  destruct (canonical_input_newline t1 Hwf1 Hst Hroom) as (Hok1 & Hrec & Hb & _ & _ & Hz).
  cbv zeta in *. split_and!; [done|done| | |].
  - unfold committed. rewrite Hrec, Hb, fmap_app.
    replace (record_list t1) with (record_list t) by (unfold record_list; by rewrite H2, H3, H4).
    replace (pending_line t1) with (pending_line t) by (unfold pending_line; by rewrite H7, H8).
    rewrite H1, H8. simpl. pose proof (wf_line_size t Hwf). pose proof (wf_line_length t Hwf).
    replace (Z.to_nat (canonical_size_ t + 1)) with (length (pending_line t ++ [chr_lf])).
    2: { rewrite length_app. unfold pending_line. rewrite length_take. simpl. lia. }
    apply reshape_snoc. pose proof (sum_list_to_nat _ (record_list_nonneg t Hwf)) as Hsum.
    pose proof (ring_bytes_length _ (wf_input t Hwf)). unfold records_account in Ha. lia.
  - unfold pending_line. by rewrite Hz.
  - rewrite canonical_input_stores, Hroom by done. simpl. rewrite enqueue_input_line_output.
    destruct (stored_output t1 chr_lf) as (-> & _);
      [done|done|lia|by rewrite (echo_byte_size_termios t), H6|].
    by rewrite H6, (echo_bytes_termios t).
Qed.

Lemma receive_loop_app t a b n :
  receive_loop t (a ++ b) n =
    let '(fin, k, t') := receive_loop t a n in
    if fin then receive_loop t' b k else (false, k, t').
Proof.
  revert t n. induction a as [|x a IH]; intros t n; simpl; [done|].
  destruct (receive_byte t x) as [[] t']; [apply IH|done].
Qed.

Lemma receive_plain_bytes t l n :
  canonical_ok t → Forall is_byte l → forallb (plain (termios_ t)) l = true → chr_lf ∉ l →
  canonical_size_ t + Z.of_nat (length l) < queue_capacity →
  Z.of_nat (length (concat (echo_bytes t <$> l))) ≤ ring_free_space (output_ring_ t) →
  let '(fin, k, t') := receive_loop t l n in
  fin = true ∧ k = n + Z.of_nat (length l) ∧ canonical_ok t' ∧ input_side t' = input_side t ∧
  pending_line t' = pending_line t ++ l ∧ canonical_size_ t' = canonical_size_ t + Z.of_nat (length l) ∧
  ring_bytes (output_ring_ t') = ring_bytes (output_ring_ t) ++ concat (echo_bytes t <$> l) ∧
  ring_free_space (output_ring_ t')
    = ring_free_space (output_ring_ t) - Z.of_nat (length (concat (echo_bytes t <$> l))).
Proof.
  revert t n. induction l as [|b l IH]; intros t n Hok Hl Hp Hlf Hc He.
  { simpl. rewrite !app_nil_r. split_and!; (done || lia). }
  csimpl. apply Forall_cons_1 in Hl as [Hb Hl]. csimpl in Hp. csimpl in Hc. csimpl in He. apply andb_prop in Hp as [Hpb Hp].
  apply not_elem_of_cons in Hlf as [Hbl Hlf]. rewrite length_app in He.
  pose proof (echo_bytes_length t b) as Heb.
  destruct (receive_plain_byte t b) as (Hr & Hok1 & Hs & Hpl & Hn & Ho & Hf); [done..|lia|lia|].
  destruct (receive_byte t b) as [go t1]. cbn [fst snd] in *. subst go.
  assert (termios_ t1 = termios_ t) as Ht by (unfold input_side in Hs; congruence).
  assert (concat (echo_bytes t1 <$> l) = concat (echo_bytes t <$> l)) as Hech.
  { f_equal. apply list_fmap_ext. intros. by apply echo_bytes_termios. }
  specialize (IH t1 (n + 1) Hok1 Hl). rewrite Ht, Hech in IH. specialize (IH Hp Hlf ltac:(lia) ltac:(lia)).
  destruct (receive_loop t1 l (n + 1)) as [[fin k] t'].
  destruct IH as (-> & -> & Hok' & Hs' & Hpl' & Hn' & Ho' & Hf').
  rewrite Hs', Hs, Hpl', Hpl, Ho', Ho, Hf', Hf, length_app, <- !app_assoc.
  split_and!; (done || lia).
Qed.

(** A typed line.  In canonical mode, receiving a line of ordinary bytes and
    a newline, with room for it and its echo, consumes all of it; the slave
    side gets it as one new record behind the records already queued, preceded
    by what was already typed on that line; the master side gets exactly its
    echo; and the line buffer is empty again. *)
Theorem typed_line_becomes_record t l nb :
  canonical_ok t → slave_hung_up_ t = false → input_shutdown_ t = false →
  Forall is_byte l → forallb (plain (termios_ t)) (l ++ [chr_lf]) = true → chr_lf ∉ l →
  line_room t l →
  let '(result, consumed, t') := receive_input t (Bytes (l ++ [chr_lf])) nb false in
  result = Done (Z.of_nat (length l) + 1) ∧ consumed = Z.of_nat (length l) + 1 ∧
  canonical_ok t' ∧ committed t' = committed t ++ [pending_line t ++ l ++ [chr_lf]] ∧
  pending_line t' = [] ∧
  ring_bytes (output_ring_ t') = ring_bytes (output_ring_ t) ++ concat (echo_bytes t <$> (l ++ [chr_lf])).
Proof.
  intros Hok Hh Hsd Hl Hp Hlf (Hc & Hi & Hrc & He).
  rewrite forallb_app, andb_true_iff in Hp. destruct Hp as [Hp Hpn]. simpl in Hpn.
  rewrite andb_true_r in Hpn. rewrite fmap_app, concat_app, length_app in He. simpl in He.
  rewrite app_nil_r in He. pose proof (echo_bytes_length t chr_lf) as Hel.
  unfold receive_input. rewrite Hh, Hsd, receive_loop_app.
  pose proof (receive_plain_bytes t l 0 Hok Hl Hp Hlf ltac:(lia) ltac:(lia)) as Hrl.
  destruct (receive_loop t l 0) as [[fin k] t1].
  destruct Hrl as (-> & -> & Hok1 & Hs & Hpl & Hn & Ho & Hf).
  pose proof Hs as [= H1 H2 H3 H4 H5].
  destruct (receive_plain_newline t1) as (Hr & Hok2 & Hcm & Hz & Ho2);
    [done|by rewrite H5|lia|rewrite H1; lia|lia|rewrite (echo_byte_size_termios t) by done; lia|].
  cbv zeta in *. simpl. destruct (receive_byte t1 chr_lf) as [go t2]. cbn [fst snd] in *. subst go.
  apply input_side_inv in Hs as (_ & _ & Hcm1 & _).
  pose proof (wf_line_size t ltac:(by destruct Hok)). unfold queue_capacity in *.
  rewrite Z.add_0_l, i32_small by lia. rewrite Hcm, Hcm1, Hpl, Ho2, Ho, (echo_bytes_termios t) by done.
  rewrite fmap_app, concat_app, <- !app_assoc. simpl. rewrite app_nil_r. done.
Qed.

Lemma typed_line_becomes_record_witness :
  let '(result, consumed, t') := receive_input two_lines (Bytes [99; 100; 10]) true false in
  result = Done 3 ∧ consumed = 3 ∧ canonical_ok t' ∧
  committed t' = committed two_lines ++ [pending_line two_lines ++ [99; 100; 10]] ∧
  pending_line t' = [] ∧
  ring_bytes (output_ring_ t')
    = ring_bytes (output_ring_ two_lines) ++ concat (echo_bytes two_lines <$> [99; 100; 10]).
Proof.
  destruct two_lines_ok as [Hok _].
  apply (typed_line_becomes_record two_lines [99; 100] true Hok); try by vm_compute.
  - solve_Forall.
  - rewrite !not_elem_of_cons. split_and!; [done|done|apply not_elem_of_nil].
Defined.

(** Erasing.  Typing an ordinary byte and then VERASE, with room for both
    echoes, consumes both and leaves the pending line, its length and the
    committed input exactly as they were. *)
Theorem erase_undoes_typed_byte t b :
  canonical_ok t → is_byte b → plain (termios_ t) b = true → b ≠ chr_lf →
  lflag t termios_lflag.ixten = true → passes (termios_ t) (cc t termios_cc.verase) = true →
  canonical_size_ t < queue_capacity →
  echo_byte_size t b + echo_erase_size t ≤ ring_free_space (output_ring_ t) →
  let '(finished, consumed, t') := receive_loop t [b; cc t termios_cc.verase] 0 in
  finished = true ∧ consumed = 2 ∧ input_side t' = input_side t ∧
  pending_line t' = pending_line t ∧ canonical_size_ t' = canonical_size_ t.
Proof.
  intros Hok Hb Hp Hlf Hix Hpe Hc He. pose proof Hok as (Hwf & Hm & _).
  assert (0 ≤ echo_erase_size t) by (unfold echo_erase_size; by case_match).
  destruct (receive_plain_byte t b) as (Hr & Hok1 & Hs & Hpl & Hn & _ & Hf); [done..|lia|].
  cbn [receive_loop]. destruct (receive_byte t b) as [go t1]. cbn [fst snd] in *. subst go.
  assert (termios_ t1 = termios_ t) as Ht by (unfold input_side in Hs; congruence).
  destruct (passes_receive t1 (cc t termios_cc.verase)) as (t2 & Hq & Hwf2 & Hr2); [by rewrite Ht|].
  rewrite Hr2, (is_canonical_termios t), Hm by done.
  injection Hq as H1 H2 H3 H4 H5 H6 H7 H8 H9 H10 H11.
  assert (termios_ t2 = termios_ t) as Ht2 by congruence.
  unfold canonical_input, lflag, cc, echo_erase_size in *. unfold lflag in *.
  rewrite Ht2, Hix, Z.eqb_refl, H8, H6. cbn [andb].
  rewrite (proj2 (Z.eqb_neq _ _)), (proj2 (Z.ltb_ge _ _)) by (destruct Hwf; lia). simpl.
  pose proof (echo_erase_side (with_line (canonical_line_ t2) (canonical_size_ t2 - 1) t2)) as Hes.
  assert (∀ t, canonical_line_ (echo_erase t).2 = canonical_line_ t ∧
               canonical_size_ (echo_erase t).2 = canonical_size_ t) as Hel.
  { intros. unfold echo_erase, try_enqueue_output_byte. repeat case_match; simplify_eq/=; done. }
  rewrite H8 in Hes. split_and!; try done.
  - rewrite Hes, <- Hs. unfold input_side. simpl. congruence.
  - unfold pending_line in *. rewrite !(proj1 (Hel _)), !(proj2 (Hel _)). simpl. rewrite H7, Hn.
    apply (f_equal (take (Z.to_nat (canonical_size_ t)))) in Hpl.
    pose proof (wf_line_length t Hwf). destruct Hwf.
    rewrite take_take, take_app_le, take_take, Hn in Hpl by (rewrite length_take; lia).
    replace (_ `min` _)%nat with (Z.to_nat (canonical_size_ t)) in Hpl by lia.
    rewrite Nat.min_id in Hpl. by replace (canonical_size_ t + 1 - 1) with (canonical_size_ t) by lia.
  - rewrite (proj2 (Hel _)). simpl. lia.
Qed.

Lemma erase_undoes_typed_byte_witness :
  let '(finished, consumed, t') := receive_loop two_lines [120; 127] 0 in
  finished = true ∧ consumed = 2 ∧ input_side t' = input_side two_lines ∧
  pending_line t' = pending_line two_lines ∧ canonical_size_ t' = canonical_size_ two_lines.
Proof.
  destruct two_lines_ok as [Hok _].
  apply (erase_undoes_typed_byte two_lines 120 Hok); by vm_compute.
Defined.
