(* ===== verification/TerminalReadiness.v ===== *)
(** The non-canonical mode, the retry contract and the readiness reporting of
    the terminal core of TerminalCore.v: raw input is a transparent FIFO, a
    blocked receive has processed exactly the bytes it reports, the readable
    bits of the poll masks agree with what the read methods return, and the
    generation counter, which the waiters in ttyd compare, moves with every
    change outside the receive path. *)
From stdpp Require Import base list numbers.
From S2P Require Import Prelude TerminalCore TerminalFacts TerminalStreams.

Local Open Scope Z_scope.

(** ** Raw input *)

Definition raw_silent (t : terminal_core) : Prop :=
  is_canonical t = false ∧ lflag t termios_lflag.echo = false ∧
  lflag t termios_lflag.echonl = false.

Lemma echo_off t v :
  lflag t termios_lflag.echo = false → lflag t termios_lflag.echonl = false →
  echo_byte_size t v = 0.
Proof. intros H1 H2. unfold echo_byte_size. rewrite H1, H2. by rewrite orb_true_r. Qed.

Lemma receive_raw_byte t b :
  tty_wf t → raw_silent t → is_byte b → passes (termios_ t) b = true →
  0 < ring_free_space (input_ring_ t) →
  let t' := (receive_byte t b).2 in
  (receive_byte t b).1 = true ∧ tty_wf t' ∧ termios_ t' = termios_ t ∧
  ring_bytes (input_ring_ t') = ring_bytes (input_ring_ t) ++ [b] ∧
  ring_size_ (input_ring_ t') = ring_size_ (input_ring_ t) + 1.
Proof.
  intros Hwf (Hm & He & Hn) Hb Hp Hf. pose proof (receive_byte_wf t b Hwf Hb) as Hwf'.
  destruct (passes_receive t b Hp) as (t1 & [= Hi _ _ _ Ht Ho _ _ _ _ _] & Hwf1 & Hr).
  rewrite Hr, Hm in *. revert Hwf'. unfold raw_input.
  assert (∀ t2 v, termios_ t2 = termios_ t → echo_byte_size t2 v = 0) as Hz.
  { intros t2 v H2. apply echo_off; unfold lflag in *; by rewrite H2. }
  assert (∀ t2 v, termios_ t2 = termios_ t → (ring_free_space (output_ring_ t2) <? 0) = false →
            (echo_byte t2 v).2 = t2) as Hecho.
  { intros t2 v H2 H3. unfold echo_byte. rewrite (Hz t2), H3 by done. cbn [Z.eqb negb].
    rewrite andb_false_r, (Hz t2) by done. done. }
  destruct (ring_push_room (input_ring_ t) b (wf_input t Hwf) Hf) as (_ & Hbytes & Hsize).
  assert ((ring_free_space (output_ring_ t1) <? 0) = false) as Hnn.
  { apply Z.ltb_ge. pose proof (rwf_size _ (wf_output t1 (Hwf1 Hwf))). unfold ring_free_space. lia. }
  rewrite Hz, Hnn, Hi by done. unfold ring_full, ring_free_space in *.
  rewrite (proj2 (Z.eqb_neq _ _)) by lia. cbn [orb fst snd]. rewrite Hecho by done.
  intros Hwf'. split_and!; try done.
Qed.

Lemma receive_raw_loop t l n :
  tty_wf t → raw_silent t → Forall is_byte l → forallb (passes (termios_ t)) l = true →
  Z.of_nat (length l) ≤ ring_free_space (input_ring_ t) →
  ∃ t', receive_loop t l n = (true, n + Z.of_nat (length l), t') ∧ tty_wf t' ∧
    termios_ t' = termios_ t ∧ ring_bytes (input_ring_ t') = ring_bytes (input_ring_ t) ++ l.
Proof.
  revert t n. induction l as [|b l IH]; intros t n Hwf Hs Hl Hp Hf.
  { exists t. rewrite app_nil_r. csimpl. by rewrite Z.add_0_r. }
  apply Forall_cons_1 in Hl as [Hb Hl]. csimpl in *. apply andb_true_iff in Hp as [Hpb Hp].
  destruct (receive_raw_byte t b) as (Hr & Hwf' & Ht & Hi & Hz); [done..|lia|].
  destruct (receive_byte t b) as [go t1]. cbn [fst snd] in *. subst go.
  destruct (IH t1 (n + 1)) as (t' & Hr' & Hwf'' & Ht' & Hi'); try done.
  { unfold raw_silent, is_canonical, lflag in *. by rewrite Ht. }
  { by rewrite Ht. }
  { unfold ring_free_space in *. lia. }
  exists t'. rewrite Hr', Hi', Hi, <- app_assoc. split_and!; try done; [|congruence].
  do 2 f_equal. lia.
Qed.

Lemma read_input_raw t d nb te :
  tty_wf t → is_canonical t = false → dest_null d = false → 0 < dest_size d →
  ring_bytes (input_ring_ t) ≠ [] →
  Z.min (cc t termios_cc.vmin) (dest_size d) ≤ Z.of_nat (length (ring_bytes (input_ring_ t))) →
  ∃ t', read_input t d nb false te =
      (Done (Z.min (dest_size d) (Z.of_nat (length (ring_bytes (input_ring_ t))))),
       Some <$> take (Z.to_nat (dest_size d)) (ring_bytes (input_ring_ t)), t') ∧
    ring_bytes (input_ring_ t') = drop (Z.to_nat (dest_size d)) (ring_bytes (input_ring_ t)).
Proof.
  intros Hwf Hm Hn Hd Hne Hmin. pose proof (wf_input t Hwf) as Hi.
  pose proof (ring_bytes_length _ Hi) as Hlen. pose proof (rwf_size _ Hi).
  unfold read_input. rewrite Hn, Hm. cbn [andb orb].
  rewrite (proj2 (Z.eqb_neq _ _)) by lia.
  destruct (ring_empty (input_ring_ t)) eqn:He; [by apply ring_empty_bytes in He|].
  unfold ring_available. rewrite (proj2 (Z.ltb_ge _ _)) by lia. rewrite andb_false_r. cbn [andb negb].
  destruct (pop_while_spec (Z.to_nat (dest_size d)) (input_ring_ t) Hi) as (_ & Hb & Hr).
  destruct (pop_while _ _) as [bs r]. cbn [fst snd] in *. subst bs.
  exists (bump_generation (with_input_ring r t)). split; [|exact Hr].
  do 3 f_equal. rewrite length_take.
  rewrite i32_small by (unfold queue_capacity in *; lia). lia.
Qed.

(** Raw round trip.  With ICANON and the echo off, bytes that are not
    flow control or signals and fit the queue are all accepted, and a read
    returns the oldest queued bytes unchanged and in order, as many as its
    buffer holds, once VMIN of them are there. *)
Theorem raw_input_round_trip t l d nb te :
  tty_wf t → raw_silent t → slave_hung_up_ t = false → input_shutdown_ t = false →
  Forall is_byte l → forallb (passes (termios_ t)) l = true →
  Z.of_nat (length l) ≤ ring_free_space (input_ring_ t) →
  dest_null d = false → 0 < dest_size d →
  let queued := ring_bytes (input_ring_ t) ++ l in
  queued ≠ [] → Z.min (cc t termios_cc.vmin) (dest_size d) ≤ Z.of_nat (length queued) →
  let '(sent, consumed, t1) := receive_input t (Bytes l) nb false in
  let '(got, bytes, t2) := read_input t1 d nb false te in
  sent = Done (Z.of_nat (length l)) ∧ consumed = Z.of_nat (length l) ∧
  got = Done (Z.min (dest_size d) (Z.of_nat (length queued))) ∧
  bytes = Some <$> take (Z.to_nat (dest_size d)) queued ∧
  ring_bytes (input_ring_ t2) = drop (Z.to_nat (dest_size d)) queued.
Proof.
  intros Hwf Hs Hh Hsh Hl Hp Hf Hn Hd queued Hne Hmin. unfold receive_input. rewrite Hh, Hsh.
  destruct (receive_raw_loop t l 0) as (t1 & -> & Hwf1 & Ht & Hi); [done..|].
  destruct (read_input_raw t1 d nb te) as (t2 & -> & Hr); try done.
  { destruct Hs as [Hm _]. unfold is_canonical, lflag in *. by rewrite Ht. }
  { by rewrite Hi. }
  { unfold cc in *. rewrite Hi, Ht. done. }
  rewrite Hr, Hi. pose proof (rwf_size _ (wf_input t Hwf)).
  rewrite Z.add_0_l, i32_small; [done|]. unfold ring_free_space, queue_capacity in *. lia.
Qed.

Definition raw_termios : termios :=
  {| input_flags := 0; output_flags := 0; control_flags := 0; local_flags := 0;
     line_ := 0; control_chars := control_chars default_termios;
     input_baud := 0; output_baud := 0 |}.

Lemma raw_input_round_trip_witness :
  let t := (set_termios make_terminal_core raw_termios).2 in
  let '(sent, consumed, t1) := receive_input t (Bytes [3; 13; 127]) true false in
  let '(got, bytes, t2) := read_input t1 (Build_dest false 2) true false false in
  sent = Done 3 ∧ consumed = 3 ∧ got = Done 2 ∧
  bytes = Some <$> take 2 (ring_bytes (input_ring_ t) ++ [3; 13; 127]) ∧
  ring_bytes (input_ring_ t2) = drop 2 (ring_bytes (input_ring_ t) ++ [3; 13; 127]).
Proof.
  refine (raw_input_round_trip (set_termios make_terminal_core raw_termios).2 [3; 13; 127]
            (Build_dest false 2) true false _ _ _ _ _ _ _ _ _ _ _); try by vm_compute.
  - apply set_termios_wf; [apply make_terminal_core_wf|]. split; [done|]. apply default_termios_wf.
  - solve_Forall.
Defined.

(** ** Blocked receives *)

Lemma canonical_input_blocked t v :
  tty_wf t → is_byte v → (canonical_input t v).1 = false → (canonical_input t v).2 = t.
Proof.
  intros Hwf Hv. destruct (stores t v) eqn:Hs.
  - pose proof (canonical_input_newline t Hwf) as Hn. rewrite (canonical_input_stores t v Hs).
    destruct (has_room t v) eqn:Hr; [|done]. destruct (Z.eqb_spec v chr_lf) as [->|]; [|done].
    rewrite (canonical_input_stores t _ Hs), Hr in Hn. cbn [fst snd] in *.
    destruct (Hn Hs eq_refl) as [H _]. simpl in H. by rewrite H.
  - unfold stores in Hs. unfold canonical_input, enqueue_input_record.
    destruct (lflag t _ && (v =? cc t termios_cc.verase)); [repeat case_match; done|].
    destruct (lflag t _ && (v =? cc t termios_cc.vkill)); [repeat case_match; done|].
    simpl in Hs. apply negb_false_iff in Hs. rewrite Hs. repeat case_match; simplify_eq/=; done.
Qed.

Lemma receive_byte_blocked t b :
  tty_wf t → is_byte b → (receive_byte t b).1 = false →
  queues (receive_byte t b).2 = queues t ∧ raised_ (receive_byte t b).2 = raised_ t.
Proof.
  intros Hwf Hb. unfold receive_byte. destruct (translate_input t b) as [v|] eqn:Ht; [|done].
  apply translate_input_byte in Ht; [|done].
  pose proof (flow_control_wf t v Hwf) as Hwf1.
  assert (queues (flow_control t v).2 = queues t ∧ raised_ (flow_control t v).2 = raised_ t) as Hq.
  { unfold flow_control. repeat case_match; done. }
  destruct (flow_control t v) as [[] t1]; [done|]. cbn [fst snd] in *.
  destruct (is_signal_char t1 v); [done|]. destruct (is_canonical t1).
  - intros Hc. by rewrite canonical_input_blocked.
  - unfold raw_input. case_match; done.
Qed.

(** Retry contract.  When a receive stops for lack of room, the bytes it
    reports as consumed are exactly the ones it has processed: every queue,
    the pending line and the raised control events are those of receiving that
    prefix alone, so the caller may resubmit the rest. *)
Theorem blocked_receive_processed_its_prefix t data consumed t' :
  tty_wf t → Forall is_byte data → receive_loop t data 0 = (false, consumed, t') →
  0 ≤ consumed < Z.of_nat (length data) ∧
  ∃ t'', receive_loop t (take (Z.to_nat consumed) data) 0 = (true, consumed, t'') ∧
    queues t' = queues t'' ∧ raised_ t' = raised_ t''.
Proof.
  assert (∀ data t n, tty_wf t → Forall is_byte data →
    receive_loop t data n = (false, consumed, t') →
    n ≤ consumed < n + Z.of_nat (length data) ∧
    ∃ t'', receive_loop t (take (Z.to_nat (consumed - n)) data) n = (true, consumed, t'') ∧
      queues t' = queues t'' ∧ raised_ t' = raised_ t'') as Hgen.
  { clear t data. intros data. induction data as [|b data IH]; intros t n Hwf Hd Hr; [done|].
    apply Forall_cons_1 in Hd as [Hb Hd]. csimpl in Hr. pose proof (receive_byte_wf t b Hwf Hb).
    pose proof (receive_byte_blocked t b Hwf Hb) as Hbl.
    destruct (receive_byte t b) as [[] t1] eqn:Hrb; cbn [fst snd] in *.
    - destruct (IH t1 (n + 1)) as (Hn & t'' & Ht & Hq); [done..|]. csimpl.
      split; [lia|]. exists t''. replace (Z.to_nat (consumed - n)) with
        (S (Z.to_nat (consumed - (n + 1)))) by lia. csimpl. by rewrite Hrb.
    - simplify_eq. rewrite Z.sub_diag. csimpl. split; [lia|]. exists t. split; [done|]. auto. }
  intros Hwf Hd Hr. destruct (Hgen data t 0) as (Hn & H); [done..|]. rewrite Z.sub_0_r in H.
  split; [lia|done].
Qed.

(** A terminal whose output queue has no room left for an echo. *)
Definition echo_full : terminal_core :=
  tty_run make_terminal_core [WriteOutput (Bytes (replicate 4095 120)) true false].

Lemma echo_full_wf : tty_wf echo_full.
Proof.
  apply (tty_step_wf make_terminal_core (WriteOutput _ true false)); [apply make_terminal_core_wf|].
  by apply Forall_replicate.
Qed.

Lemma echo_full_blocks : ∃ t', receive_loop echo_full [97; 98; 99] 0 = (false, 1, t').
Proof. eexists. vm_compute. reflexivity. Qed.

Lemma blocked_receive_processed_its_prefix_witness :
  ∃ t', receive_loop echo_full [97; 98; 99] 0 = (false, 1, t') ∧
    ∃ t'', receive_loop echo_full (take (Z.to_nat 1) [97; 98; 99]) 0 = (true, 1, t'') ∧
      queues t' = queues t'' ∧ raised_ t' = raised_ t''.
Proof.
  assert (Forall is_byte [97; 98; 99]) as Hb by solve_Forall.
  destruct echo_full_blocks as [t' H]. exists t'. split; [exact H|].
  exact (proj2 (blocked_receive_processed_its_prefix echo_full [97; 98; 99] 1 t' echo_full_wf Hb H)).
Defined.

(** ** Readiness *)

Lemma master_readable t :
  has_flag (master_poll_events t) tty_poll.readable =
    negb (ring_empty (output_ring_ t)) || slave_hung_up_ t.
Proof. unfold master_poll_events, events_if. cbv zeta. repeat case_match; done. Qed.

Lemma slave_readable t :
  has_flag (slave_poll_events t) tty_poll.readable =
    negb (ring_empty (input_ring_ t)) || negb (input_record_count_ t =? 0)
    || negb (eof_count_ t =? 0) || input_shutdown_ t || master_hung_up_ t.
Proof. unfold slave_poll_events, events_if. cbv zeta. repeat case_match; done. Qed.

Lemma slave_writable t :
  has_flag (slave_poll_events t) tty_poll.writable =
    negb (ring_full (output_ring_ t)) && negb (master_hung_up_ t) && negb (output_paused_ t).
Proof. unfold slave_poll_events, events_if. cbv zeta. repeat case_match; done. Qed.

(** Readiness agrees with the read methods.  In canonical mode a read of
    the slave side would block exactly when its readable bit is clear; a read
    of the master side would block exactly when that one is clear; and with
    the slave's writable bit set a write of one byte other than a translated
    newline is accepted. *)
Theorem poll_agrees_with_read t d nb te :
  canonical_ok t → dest_null d = false → 0 < dest_size d →
  ((read_input t d nb false te).1.1 = Fail EAGAIN ↔
     has_flag (slave_poll_events t) tty_poll.readable = false) ∧
  ((read_output t d nb false).1.1 = Fail EAGAIN ↔
     has_flag (master_poll_events t) tty_poll.readable = false) ∧
  (has_flag (slave_poll_events t) tty_poll.writable = true →
     ∀ b, translates_newline t b = false → (write_output t (Bytes [b]) nb false).1 = (Done 1, 1)).
Proof.
  intros Hok Hn Hd. rewrite slave_readable, slave_writable, master_readable. split_and!.
  - destruct (committed t) as [|rec recs] eqn:Hc.
    + rewrite read_input_canonical_none, (canonical_no_record t Hok Hc) by done.
      destruct Hok as (Hwf & _). apply committed_nil in Hc; [|done]. rewrite Hc. cbn [negb orb Z.eqb].
      destruct (eof_count_ t =? 0), (input_shutdown_ t), (master_hung_up_ t); done.
    + destruct (read_canonical_record_some t (dest_size d) rec recs) as (t' & Hr & _); [done..|].
      destruct Hok as (Hwf & Hm & _). unfold read_input. rewrite Hn, Hm, Hr. cbn [andb orb].
      rewrite (proj2 (Z.eqb_neq _ _)) by lia. split; [done|].
      assert (input_record_count_ t ≠ 0) as Hz.
      { intros H0. by rewrite (proj2 (committed_nil t Hwf) H0) in Hc. }
      rewrite (proj2 (Z.eqb_neq _ _) Hz), orb_true_r. done.
  - unfold read_output. rewrite Hn. cbn [andb orb]. rewrite (proj2 (Z.eqb_neq _ _)) by lia.
    destruct (ring_empty _), (slave_hung_up_ t); try done; destruct (pop_while _ _); done.
  - intros [[Hf Hh]%andb_prop Hp]%andb_prop b Hb. apply negb_true_iff in Hf, Hh, Hp.
    unfold write_output. rewrite Hh, Hp. csimpl. rewrite Hb.
    apply Z.eqb_neq in Hf. pose proof (rwf_size _ (wf_output t (proj1 Hok))). unfold ring_free_space.
    rewrite (proj2 (Z.ltb_ge _ _)) by lia. done.
Qed.

Lemma poll_agrees_with_read_witness :
  (read_input two_lines (Build_dest false 4) true false false).1.1 ≠ Fail EAGAIN ∧
  (write_output two_lines (Bytes [97]) true false).1 = (Done 1, 1).
Proof.
  destruct two_lines_ok as [Hok _].
  destruct (poll_agrees_with_read two_lines (Build_dest false 4) true false Hok eq_refl eq_refl)
    as (Hs & _ & Hw).
  split; [|apply Hw; by vm_compute]. intros H. apply Hs in H. by vm_compute in H.
Defined.

(** ** The generation counter *)

(** The counter cycles through 1 .. 2^64 - 1. *)
Definition generations : Z := 2 ^ 64 - 1.

Definition bumped (n : Z) (t t' : terminal_core) : Prop :=
  generation_ t' = (generation_ t - 1 + n) mod generations + 1.

Lemma bump_generation_cycle t : tty_wf t → bumped 1 t (bump_generation t).
Proof.
  intros Hwf. pose proof (wf_generation t Hwf) as Hg. unfold bumped, bump_generation, generations. simpl.
  destruct (decide (generation_ t = 2 ^ 64 - 1)) as [->|]; [done|].
  rewrite u64_small by lia. rewrite (proj2 (Z.eqb_neq _ _)) by lia. rewrite Z.mod_small; lia.
Qed.

Lemma bumped_refl t : tty_wf t → bumped 0 t t.
Proof.
  intros Hwf. pose proof (wf_generation t Hwf). unfold bumped.
  rewrite Z.add_0_r, Z.mod_small; unfold generations; lia.
Qed.

Lemma bumped_trans t1 t2 t3 n m :
  bumped n t1 t2 → bumped m t2 t3 → bumped (n + m) t1 t3.
Proof.
  unfold bumped. intros -> ->. f_equal. rewrite Z.add_simpl_r, Zplus_mod_idemp_l. f_equal. lia.
Qed.

Lemma bumped_same t t' n :
  tty_wf t → 0 ≤ n < generations → bumped n t t' → generation_ t' = generation_ t → n = 0.
Proof.
  intros Hwf Hn Hb Heq. pose proof (wf_generation t Hwf) as Hg. unfold bumped in Hb.
  rewrite Heq in Hb. destruct (decide (generation_ t - 1 + n < generations)).
  - rewrite Z.mod_small in Hb; lia.
  - rewrite <- (Z_mod_plus_full _ (-1)), Z.mod_small in Hb by (unfold generations in *; lia).
    unfold generations in *. lia.
Qed.

(** An operation that either does nothing or makes its change and bumps. *)
Definition bumps_on_change (t t' : terminal_core) : Prop :=
  t' = t ∨ ∃ u, t' = bump_generation u ∧ generation_ u = generation_ t.

Lemma bumps_on_change_same t t' :
  tty_wf t → bumps_on_change t t' → generation_ t' = generation_ t → t' = t.
Proof.
  intros Hwf [->|(u & -> & Hu)] Hg; [done|]. exfalso.
  assert (generation_ (bump_generation u) = generation_ (bump_generation t)) as Hut
    by (cbn [bump_generation generation_ with_generation]; by rewrite Hu).
  rewrite Hut in Hg. cut (1 = 0); [discriminate|].
  refine (bumped_same t (bump_generation t) 1 Hwf _ (bump_generation_cycle t Hwf) Hg).
  unfold generations. lia.
Qed.

Ltac one_bump := first [left; reflexivity | right; eexists; split; [reflexivity|done]].

(** Every byte [write_loop] queues moves the counter once. *)
Lemma write_loop_bumps t data n :
  tty_wf t → Forall is_byte data →
  let t' := (write_loop t data n).2 in
  bumped (ring_size_ (output_ring_ t') - ring_size_ (output_ring_ t)) t t' ∧
  ring_size_ (output_ring_ t) ≤ ring_size_ (output_ring_ t') ∧
  (ring_size_ (output_ring_ t') = ring_size_ (output_ring_ t) → t' = t).
Proof.
  assert (∀ t v, tty_wf t → 0 < ring_free_space (output_ring_ t) →
    bumped 1 t (try_enqueue_output_byte t v).2 ∧
    ring_size_ (output_ring_ (try_enqueue_output_byte t v).2) = ring_size_ (output_ring_ t) + 1) as Hput.
  { clear. intros t v Hwf Hf. pose proof (ring_push_room _ v (wf_output t Hwf) Hf) as (H1 & _ & H2).
    unfold try_enqueue_output_byte. destruct (ring_push _ v) as [ok r]. simpl in *. subst ok.
    split; [|done]. apply (bump_generation_cycle t Hwf). }
  revert t n. induction data as [|b data IH]; intros t n Hwf Hd t'.
  { subst t'. csimpl. rewrite Z.sub_diag. auto using bumped_refl, Z.le_refl. }
  apply Forall_cons_1 in Hd as [Hb Hd]. subst t'. csimpl.
  destruct (Z.ltb_spec (ring_free_space (output_ring_ t)) (if translates_newline t b then 2 else 1)) as [_|Hf].
  { rewrite Z.sub_diag. auto using bumped_refl, Z.le_refl. }
  set (t1 := if translates_newline t b then _ else t).
  assert (tty_wf t1 ∧ bumped (ring_size_ (output_ring_ t1) - ring_size_ (output_ring_ t)) t t1 ∧
    ring_size_ (output_ring_ t) ≤ ring_size_ (output_ring_ t1) ∧ 0 < ring_free_space (output_ring_ t1))
    as (Hwf1 & Hb1 & Hs1 & Hf1).
  { subst t1. destruct (translates_newline t b).
    - destruct (Hput t chr_cr Hwf) as [H1 H2]; [lia|]. unfold ring_free_space in *. rewrite H2.
      replace (_ + 1 - _) with 1 by lia. split_and!; [auto with tty|done|lia..].
    - rewrite Z.sub_diag. split_and!; auto using bumped_refl; lia. }
  destruct (Hput t1 b Hwf1 Hf1) as [Hb2 Hs2]. set (t2 := (try_enqueue_output_byte t1 b).2) in *.
  destruct (IH t2 (n + 1)) as (Hb3 & Hs3 & _); [subst t2; auto with tty|done|].
  split_and!; [|lia..].
  replace (ring_size_ _ - _) with (ring_size_ (output_ring_ t1) - ring_size_ (output_ring_ t) + 1 +
    (ring_size_ (output_ring_ (write_loop t2 data (n + 1)).2) - ring_size_ (output_ring_ t2))) by lia.
  eauto using bumped_trans.
Qed.

Lemma read_input_bumps t d nb rn te : bumps_on_change t (read_input t d nb rn te).2.
Proof.
  unfold read_input. cbv zeta. case_match; [one_bump|]. case_match; [one_bump|].
  destruct (if is_canonical t then _ else _) as [[bs|] t'] eqn:E; cbn [fst snd].
  - revert E. destruct (is_canonical t); [|done]. unfold read_canonical_record.
    case_match; [done|]. destruct (pop_into _ _) as [bs' r]. intros [= _ <-].
    right. eexists. split; [reflexivity|]. by case_match.
  - repeat (case_match; try one_bump).
Qed.

(** Change notification.  An operation other than a receive that leaves
    the generation counter alone leaves the whole object alone, so a waiter
    that compares generations misses no change made by it; the counter's
    wrap-around does not matter. *)
Theorem unchanged_generation_means_unchanged t op :
  tty_wf t → op_ok op → (∀ d nb cn, op ≠ ReceiveInput d nb cn) →
  generation_ (tty_step t op) = generation_ t → tty_step t op = t.
Proof.
  intros Hwf Hop Hrecv. destruct op as [d nb cn|d nb rn te|d nb wn|d nb rn|q| | | | | | |a|v|v|h hd|];
    [by destruct (Hrecv d nb cn)|..]; cbn [tty_step op_ok] in *;
    try (apply bumps_on_change_same; [done|]; one_bump).
  - apply bumps_on_change_same, read_input_bumps. done.
  - unfold write_output. destruct d as [n|bs]; [by repeat case_match|]. cbv zeta.
    destruct (write_loop_bumps t bs 0 Hwf Hop) as (Hb & Hs & Ht).
    pose proof (rwf_size _ (wf_output t Hwf)).
    pose proof (rwf_size _ (wf_output _ (write_loop_wf t bs 0 Hwf Hop))).
    destruct (write_loop t bs 0) as [[fin n] t']. cbn [fst snd] in *.
    assert (generation_ t' = generation_ t → t' = t).
    { intros Hg. apply Ht. apply (bumped_same t) in Hb; [lia|exact Hwf| |exact Hg].
      unfold generations, queue_capacity in *. lia. }
    repeat case_match; done || auto.
  - apply bumps_on_change_same; [done|]. unfold read_output. cbv zeta.
    repeat (case_match; try one_bump).
  - apply bumps_on_change_same; [done|]. unfold flush. case_match; [one_bump|].
    right. eexists. split; [reflexivity|]. repeat case_match; done.
  - apply bumps_on_change_same; [done|]. unfold send_eof, enqueue_input_record.
    repeat case_match; simplify_eq; one_bump.
  - apply bumps_on_change_same; [done|]. unfold open_master. case_match; one_bump.
  - apply bumps_on_change_same; [done|]. unfold open_slave. case_match; one_bump.
  - apply bumps_on_change_same; [done|]. unfold set_flow. cbv zeta. repeat case_match; one_bump.
  - apply bumps_on_change_same; [done|]. unfold set_termios. cbv zeta.
    repeat case_match; one_bump.
Qed.

Lemma unchanged_generation_means_unchanged_witness :
  tty_step make_terminal_core (SetFlow 1) = make_terminal_core.
Proof.
  apply unchanged_generation_means_unchanged; [apply make_terminal_core_wf|done|done|reflexivity].
Defined.

(** ** Two behaviours the comments and the contract do not expect *)

(** A lost wake-up.  With ECHO and ECHOE off, an accepted VERASE frees a
    place in a full canonical line, which turns the master's writable bit on,
    without moving the generation: the comment that every mutating operation
    bumps it does not hold on the receive path. *)
Theorem silent_erase_makes_master_writable :
  let quiet := {| input_flags := 0; output_flags := 0; control_flags := 0;
                  local_flags := Z.lor termios_lflag.icanon termios_lflag.ixten; line_ := 0;
                  control_chars := control_chars default_termios; input_baud := 0; output_baud := 0 |} in
  let full := tty_run make_terminal_core
                [SetTermios quiet; ReceiveInput (Bytes (replicate 4096 120)) true false] in
  let '(result, consumed, t) := receive_input full (Bytes [cc full termios_cc.verase]) true false in
  result = Done 1 ∧ consumed = 1 ∧
  has_flag (master_poll_events full) tty_poll.writable = false ∧
  has_flag (master_poll_events t) tty_poll.writable = true ∧
  generation_ t = generation_ full.
Proof. vm_compute. auto. Qed.

(** Records outlive their bytes.  A line is committed in canonical mode,
    a read in raw mode takes its bytes without shrinking the record, and after
    the return to canonical mode a read reports three bytes and writes none of
    them to the caller's buffer. *)
Theorem raw_read_leaves_a_stale_record :
  let t := tty_run make_terminal_core
             [ReceiveInput (Bytes [97; 98; 10]) true false; SetTermios raw_termios;
              ReadInput (Build_dest false 10) true false false; SetTermios default_termios] in
  ring_empty (input_ring_ t) = true ∧
  (read_input t (Build_dest false 10) true false false).1 = (Done 3, [None; None; None]).
Proof. vm_compute. auto. Qed.
