(* ===== verification/Canonical.v ===== *)
(** The canonical value wire of include/naos/canonical.hpp: the bounded
    [writer] and [reader] cursors every IPC payload goes through.  A buffer is
    a list of bytes, a null pointer is [None], and the integer methods are the
    byte loops of the source. *)
From stdpp Require Import base list numbers.
From S2P Require Import Prelude.

Local Open Scope Z_scope.

(** ** The cursors *)

Record writer : Type := Build_writer {
  w_buffer : option (list Z);
  w_capacity : Z;
  w_offset : Z;
  w_good : bool;
}.

Record reader : Type := Build_reader {
  r_buffer : option (list Z);
  r_size : Z;
  r_offset : Z;
  r_good : bool;
}.

Definition is_null {A} (p : option A) : bool := match p with None => true | Some _ => false end.
Definition bytes_at (p : option (list Z)) : list Z := match p with Some l => l | None => [] end.

Definition make_writer (buffer : option (list Z)) (capacity : Z) : writer :=
  Build_writer buffer capacity 0 (negb (is_null buffer) || (capacity =? 0)).

Definition make_reader (buffer : option (list Z)) (size : Z) : reader :=
  Build_reader buffer size 0 (negb (is_null buffer) || (size =? 0)).

(** The loop [for (i = 0; i < size; i++) dst[d + i] = src[s + i]] with
    [n = size - i] iterations left. *)
Fixpoint copy_bytes (n : nat) (dst : list Z) (d : Z) (src : list Z) (s i : Z) : list Z :=
  match n with
  | O => dst
  | S n' => copy_bytes n' (zset dst (d + i) (zget src (s + i))) d src s (i + 1)
  end.

Definition put_bytes (w : writer) (source : option (list Z)) (size : Z) : writer :=
  if negb (w_good w) || (u64 (w_capacity w - w_offset w) <? size)
     || (negb (size =? 0) && is_null source)
  then Build_writer (w_buffer w) (w_capacity w) (w_offset w) false
  else Build_writer
         ((λ b, copy_bytes (Z.to_nat size) b (w_offset w) (bytes_at source) 0 0) <$> w_buffer w)
         (w_capacity w) (u64 (w_offset w + size)) (w_good w).

(** The loop [bytes[i] = value >> (i * 8)] over [n] bytes. *)
Fixpoint le_bytes (n : nat) (value i : Z) : list Z :=
  match n with
  | O => []
  | S n' => u8 (Z.shiftr value (i * 8)) :: le_bytes n' value (i + 1)
  end.

Definition put_u8 (w : writer) (value : Z) : writer := put_bytes w (Some [value]) 1.
Definition put_u16 (w : writer) (value : Z) : writer :=
  put_bytes w (Some [u8 value; u8 (Z.shiftr value 8)]) 2.
Definition put_u32 (w : writer) (value : Z) : writer := put_bytes w (Some (le_bytes 4 value 0)) 4.
Definition put_u64 (w : writer) (value : Z) : writer := put_bytes w (Some (le_bytes 8 value 0)) 8.
Definition put_i64 (w : writer) (value : Z) : writer := put_u64 w (u64 value).

Definition remaining (r : reader) : Z :=
  if r_offset r <=? r_size r then r_size r - r_offset r else 0.

(** The success flag, the destination after the call and the cursor. *)
Definition get_bytes (r : reader) (destination : option (list Z)) (size : Z)
    : bool * option (list Z) * reader :=
  if negb (r_good r) || (remaining r <? size) || (negb (size =? 0) && is_null destination)
  then (false, destination, Build_reader (r_buffer r) (r_size r) (r_offset r) false)
  else (true,
        (λ d, copy_bytes (Z.to_nat size) d 0 (bytes_at (r_buffer r)) (r_offset r) 0) <$> destination,
        Build_reader (r_buffer r) (r_size r) (u64 (r_offset r + size)) (r_good r)).

(** The loop [value |= bytes[i] << (i * 8)]. *)
Fixpoint le_value (bytes : list Z) (value i : Z) : Z :=
  match bytes with
  | [] => value
  | b :: bytes' => le_value bytes' (Z.lor value (Z.shiftl b (i * 8))) (i + 1)
  end.

Definition get_u8 (r : reader) : Z * reader :=
  let '(_, d, r') := get_bytes r (Some [0]) 1 in (zget (bytes_at d) 0, r').
Definition get_u16 (r : reader) : Z * reader :=
  let '(_, d, r') := get_bytes r (Some [0; 0]) 2 in
  (u16 (Z.lor (zget (bytes_at d) 0) (Z.shiftl (zget (bytes_at d) 1) 8)), r').
Definition get_u32 (r : reader) : Z * reader :=
  let '(_, d, r') := get_bytes r (Some (replicate 4 0)) 4 in (le_value (bytes_at d) 0 0, r').
Definition get_u64 (r : reader) : Z * reader :=
  let '(_, d, r') := get_bytes r (Some (replicate 8 0)) 8 in (le_value (bytes_at d) 0 0, r').
Definition get_i64 (r : reader) : Z * reader := let '(v, r') := get_u64 r in (i64 v, r').

(** ** Typed values *)

(** One field of a message, and the field a reader asks for. *)
Inductive wire_value : Type :=
| U8 (n : Z) | U16 (n : Z) | U32 (n : Z) | U64 (n : Z) | I64 (n : Z) | Raw (bytes : list Z).

Definition put_value (w : writer) (v : wire_value) : writer :=
  match v with
  | U8 n => put_u8 w n | U16 n => put_u16 w n | U32 n => put_u32 w n
  | U64 n => put_u64 w n | I64 n => put_i64 w n
  | Raw bytes => put_bytes w (Some bytes) (Z.of_nat (length bytes))
  end.

(** Reading a field of the type and length of [shape]. *)
Definition get_value (r : reader) (shape : wire_value) : wire_value * reader :=
  match shape with
  | U8 _ => let '(n, r') := get_u8 r in (U8 n, r')
  | U16 _ => let '(n, r') := get_u16 r in (U16 n, r')
  | U32 _ => let '(n, r') := get_u32 r in (U32 n, r')
  | U64 _ => let '(n, r') := get_u64 r in (U64 n, r')
  | I64 _ => let '(n, r') := get_i64 r in (I64 n, r')
  | Raw bytes =>
    let size := length bytes in
    let '(_, d, r') := get_bytes r (Some (replicate size 0)) (Z.of_nat size) in
    (Raw (bytes_at d), r')
  end.

Fixpoint get_values (r : reader) (shapes : list wire_value) : list wire_value * reader :=
  match shapes with
  | [] => ([], r)
  | s :: shapes' =>
    let '(v, r1) := get_value r s in
    let '(vs, r2) := get_values r1 shapes' in (v :: vs, r2)
  end.

Definition put_values (w : writer) (vs : list wire_value) : writer := foldl put_value w vs.

(** The values a field of each type can hold. *)
Definition value_ok (v : wire_value) : Prop :=
  match v with
  | U8 n => 0 ≤ n < 2 ^ 8 | U16 n => 0 ≤ n < 2 ^ 16 | U32 n => 0 ≤ n < 2 ^ 32
  | U64 n => 0 ≤ n < 2 ^ 64 | I64 n => - 2 ^ 63 ≤ n < 2 ^ 63
  | Raw bytes => Forall (λ b, 0 ≤ b < 2 ^ 8) bytes ∧ Z.of_nat (length bytes) < 2 ^ 64
  end.

(** The bytes of a field on the wire. *)
Definition encode (v : wire_value) : list Z :=
  match v with
  | U8 n => [n] | U16 n => [u8 n; u8 (Z.shiftr n 8)] | U32 n => le_bytes 4 n 0
  | U64 n => le_bytes 8 n 0 | I64 n => le_bytes 8 (u64 n) 0 | Raw bytes => bytes
  end.

Definition encode_all (vs : list wire_value) : list Z := concat (encode <$> vs).

(** ** The byte loops *)

Lemma copy_bytes_spec n dst d src s i :
  0 ≤ d → 0 ≤ s → 0 ≤ i →
  d + i + Z.of_nat n ≤ Z.of_nat (length dst) → s + i + Z.of_nat n ≤ Z.of_nat (length src) →
  copy_bytes n dst d src s i =
    take (Z.to_nat (d + i)) dst ++ take n (drop (Z.to_nat (s + i)) src)
    ++ drop (Z.to_nat (d + i) + n) dst.
Proof.
  revert dst i. induction n as [|n IH]; intros dst i Hd Hs Hi Hdst Hsrc; simpl.
  { by rewrite Nat.add_0_r, take_drop. }
  rewrite IH by (rewrite ?length_zset; lia).
  destruct (lookup_lt_is_Some_2 src (Z.to_nat (s + i))) as [x Hx]; [lia|].
  unfold zset, zget. rewrite (list_lookup_total_correct _ _ _ Hx).
  replace (Z.to_nat (d + (i + 1))) with (S (Z.to_nat (d + i))) by lia.
  replace (Z.to_nat (s + (i + 1))) with (S (Z.to_nat (s + i))) by lia.
  rewrite (drop_S src x (Z.to_nat (s + i)) Hx), drop_insert_lt by lia.
  rewrite (take_S_r _ _ x) by (apply list_lookup_insert_eq; lia).
  rewrite take_insert_ge, <- app_assoc by lia. simpl.
  by replace (Z.to_nat (d + i) + S n)%nat with (S (Z.to_nat (d + i) + n)) by lia.
Qed.

Lemma length_le_bytes n v i : length (le_bytes n v i) = n.
Proof. revert i. induction n as [|n IH]; intros i; simpl; auto. Qed.

(** Adding byte [i] to the low [i] bytes of a value. *)
Lemma le_step v i :
  0 ≤ i →
  Z.lor (v mod 2 ^ (i * 8)) (Z.shiftl (u8 (Z.shiftr v (i * 8))) (i * 8)) = v mod 2 ^ ((i + 1) * 8).
Proof.
  intros Hi. apply Z.bits_inj'. intros k Hk. unfold u8.
  rewrite Z.lor_spec, Z.shiftl_spec, !Z.testbit_mod_pow2 by lia.
  destruct (Z.ltb_spec k (i * 8)).
  - rewrite (Z.testbit_neg_r _ (k - i * 8)), andb_false_r, orb_false_r by lia.
    by rewrite (proj2 (Z.ltb_lt k _)) by lia.
  - rewrite Z.shiftr_spec by lia. replace (k - i * 8 + i * 8) with k by lia. simpl. f_equal.
    apply eq_true_iff_eq. rewrite !Z.ltb_lt. lia.
Qed.

Lemma le_value_bytes n v i :
  0 ≤ i → le_value (le_bytes n v i) (v mod 2 ^ (i * 8)) i = v mod 2 ^ ((i + Z.of_nat n) * 8).
Proof.
  revert i. induction n as [|n IH]; intros i Hi; cbn [le_bytes le_value].
  { by rewrite Z.add_0_r. }
  rewrite le_step, IH by lia. do 2 f_equal. lia.
Qed.

Lemma le_round_trip n v :
  0 ≤ v < 2 ^ (Z.of_nat n * 8) → le_value (le_bytes n v 0) 0 0 = v.
Proof.
  intros Hv. pose proof (le_value_bytes n v 0 ltac:(lia)) as H.
  change (2 ^ (0 * 8)) with 1 in H. rewrite Z.mod_1_r in H. rewrite H. by apply Z.mod_small.
Qed.

(** ** The writer *)

(** [w] is good and has written exactly the bytes [p]. *)
Definition wrote (w : writer) (p : list Z) : Prop :=
  ∃ b, w_buffer w = Some b ∧ w_capacity w = Z.of_nat (length b) ∧ w_capacity w < 2 ^ 64 ∧
    w_good w = true ∧ w_offset w = Z.of_nat (length p) ∧ take (length p) b = p.

Lemma put_value_bytes w v :
  put_value w v = put_bytes w (Some (encode v)) (Z.of_nat (length (encode v))).
Proof. by destruct v. Qed.

Lemma wrote_fits w p : wrote w p → Z.of_nat (length p) ≤ w_capacity w.
Proof.
  intros (b & _ & -> & _ & _ & _ & Ht). apply (f_equal length) in Ht. rewrite length_take in Ht. lia.
Qed.

Lemma put_bytes_fits w p bs :
  wrote w p → Z.of_nat (length (p ++ bs)) ≤ w_capacity w →
  wrote (put_bytes w (Some bs) (Z.of_nat (length bs))) (p ++ bs) ∧
  w_capacity (put_bytes w (Some bs) (Z.of_nat (length bs))) = w_capacity w.
Proof.
  intros (b & Hb & Hc & Hlt & Hg & Ho & Ht) Hf. rewrite length_app in Hf.
  unfold put_bytes. rewrite Hg, Ho, u64_small, (proj2 (Z.ltb_ge _ _)), andb_false_r by lia. simpl.
  split; [|done]. rewrite Hb, Nat2Z.id. csimpl.
  exists (p ++ bs ++ drop (length p + length bs) b). cbn [w_buffer w_capacity w_offset w_good].
  rewrite copy_bytes_spec by (simpl; lia). rewrite Z.add_0_r, Nat2Z.id, Ht.
  change (Z.to_nat (0 + 0)) with 0%nat. rewrite drop_0, take_ge by done.
  rewrite !length_app, length_drop. rewrite u64_small by lia.
  split_and!; try done; [lia..|]. rewrite app_assoc. by rewrite take_app_length' by (by rewrite length_app).
Qed.

Lemma put_bytes_overflow w p bs :
  wrote w p → w_capacity w < Z.of_nat (length (p ++ bs)) →
  put_bytes w (Some bs) (Z.of_nat (length bs)) =
    Build_writer (w_buffer w) (w_capacity w) (w_offset w) false.
Proof.
  intros Hw Hf. pose proof (wrote_fits w p Hw). destruct Hw as (b & Hb & Hc & Hlt & Hg & Ho & Ht).
  rewrite length_app in Hf. unfold put_bytes. rewrite Hg, Ho, u64_small by lia.
  by rewrite (proj2 (Z.ltb_lt _ _)) by lia.
Qed.

Lemma put_values_bad w vs : w_good w = false → put_values w vs = w.
Proof.
  intros Hg. unfold put_values. revert w Hg. induction vs as [|v vs IH]; intros w Hg; simpl; [done|].
  rewrite put_value_bytes. unfold put_bytes. rewrite Hg. simpl. rewrite IH by done.
  destruct w; simpl in *. by rewrite Hg.
Qed.

Lemma put_values_fits w p vs :
  wrote w p → Z.of_nat (length (p ++ encode_all vs)) ≤ w_capacity w →
  wrote (put_values w vs) (p ++ encode_all vs).
Proof.
  unfold put_values, encode_all. revert w p. induction vs as [|v vs IH]; intros w p Hw Hf; csimpl in *.
  { by rewrite app_nil_r. }
  rewrite app_assoc in *. rewrite put_value_bytes.
  destruct (put_bytes_fits w p (encode v) Hw) as [Hw' Hc]; [rewrite !length_app in *; lia|].
  apply IH; [done|]. by rewrite Hc.
Qed.

Lemma put_values_overflow w p vs :
  wrote w p → w_capacity w < Z.of_nat (length (p ++ encode_all vs)) →
  w_good (put_values w vs) = false ∧
  ∃ q, q `prefix_of` encode_all vs ∧ w_offset (put_values w vs) = Z.of_nat (length (p ++ q)) ∧
    w_offset (put_values w vs) ≤ w_capacity w ∧
    take (length (p ++ q)) (bytes_at (w_buffer (put_values w vs))) = p ++ q.
Proof.
  unfold put_values, encode_all. revert w p. induction vs as [|v vs IH]; intros w p Hw Hf; csimpl in *.
  { rewrite app_nil_r in Hf. pose proof (wrote_fits w p Hw). lia. }
  rewrite put_value_bytes. destruct (decide (Z.of_nat (length (p ++ encode v)) ≤ w_capacity w)) as [Hv|Hv].
  - destruct (put_bytes_fits w p (encode v) Hw Hv) as [Hw' Hc]. rewrite app_assoc in Hf.
    destruct (IH _ (p ++ encode v) Hw') as (Hg & q & Hq & Ho & Hle & Ht); [by rewrite Hc|].
    split; [done|]. exists (encode v ++ q). rewrite app_assoc. rewrite Hc in Hle. split_and!; try done.
    by apply prefix_app.
  - rewrite (put_bytes_overflow w p) by (done || lia). pose proof (wrote_fits w p Hw).
    change (foldl put_value ?w vs) with (put_values w vs). rewrite put_values_bad by done. split; [done|].
    destruct Hw as (b & Hb & Hc & Hlt & Hg & Ho & Ht).
    exists []. rewrite app_nil_r. simpl. rewrite Hb, Ho. split_and!; try done. apply prefix_nil.
Qed.

(** ** The reader *)

(** [r] is good and still has to read the bytes [q] of its buffer. *)
Definition to_read (r : reader) (q : list Z) : Prop :=
  ∃ b p, r_buffer r = Some b ∧ p ++ q `prefix_of` b ∧ r_offset r = Z.of_nat (length p) ∧
    r_size r = Z.of_nat (length (p ++ q)) ∧ r_size r < 2 ^ 64 ∧ r_good r = true.

Lemma to_read_remaining r q : to_read r q → remaining r = Z.of_nat (length q).
Proof.
  intros (b & p & _ & _ & Ho & Hs & _). unfold remaining. rewrite Ho, Hs, length_app.
  rewrite (proj2 (Z.leb_le _ _)); lia.
Qed.

Lemma get_bytes_fits r bs q d :
  to_read r (bs ++ q) → length d = length bs →
  ∃ r', get_bytes r (Some d) (Z.of_nat (length bs)) = (true, Some bs, r') ∧ to_read r' q.
Proof.
  intros Hr Hd. pose proof (to_read_remaining r _ Hr) as Hm.
  destruct Hr as (b & p & Hb & [b' ->] & Ho & Hs & Hlt & Hg). rewrite !length_app in *.
  unfold get_bytes. rewrite Hm, Hg, (proj2 (Z.ltb_ge _ _)), andb_false_r by lia. simpl.
  rewrite Hb, Ho, Nat2Z.id. simpl. eexists. split.
  - do 2 f_equal. rewrite copy_bytes_spec; rewrite ?length_app; try (simpl; lia).
    rewrite (Z.add_0_r (Z.of_nat _)), Nat2Z.id, (drop_ge d), app_nil_r by (simpl; lia). simpl.
    rewrite <- !app_assoc, drop_app_length, take_app_length. done.
  - exists ((p ++ bs ++ q) ++ b'), (p ++ bs). simpl. rewrite u64_small by lia.
    rewrite !length_app, <- !app_assoc. split_and!; try done; [|lia..].
    apply prefix_app, prefix_app, prefix_app_r. done.
Qed.

Lemma get_value_encoded r v q :
  value_ok v → to_read r (encode v ++ q) → ∃ r', get_value r v = (v, r') ∧ to_read r' q.
Proof.
  intros Hv Hr.
  assert (∀ d, length d = length (encode v) →
    ∃ r', get_bytes r (Some d) (Z.of_nat (length (encode v))) = (true, Some (encode v), r') ∧
      to_read r' q) as Hget by (intros d; by apply get_bytes_fits).
  destruct v as [n|n|n|n|n|bs]; cbn [value_ok encode get_value] in *.
  - destruct (Hget [0]) as (r' & He & Hr'); [done|]. exists r'. unfold get_u8.
    cbv [length Z.of_nat Pos.of_succ_nat Pos.succ] in He. by rewrite He.
  - destruct (Hget [0; 0]) as (r' & He & Hr'); [done|]. exists r'. unfold get_u16.
    cbv [length Z.of_nat Pos.of_succ_nat Pos.succ] in He.
    rewrite He. cbn [bytes_at]. unfold zget. simpl. split; [|done]. do 2 f_equal.
    pose proof (le_round_trip 2 n Hv) as Hn. cbn [le_bytes le_value] in Hn.
    rewrite Z.lor_0_l, Z.shiftl_0_r, Z.shiftr_0_r in Hn.
    change ((0 + 1) * 8) with 8 in Hn. rewrite Hn. by apply u16_small.
  - destruct (Hget (replicate 4 0)) as (r' & He & Hr'); [done|]. exists r'. unfold get_u32.
    rewrite length_le_bytes in He. cbv [Z.of_nat Pos.of_succ_nat Pos.succ] in He. rewrite He.
    cbn [bytes_at]. rewrite (le_round_trip 4 n Hv). done.
  - destruct (Hget (replicate 8 0)) as (r' & He & Hr'); [done|]. exists r'. unfold get_u64.
    rewrite length_le_bytes in He. cbv [Z.of_nat Pos.of_succ_nat Pos.succ] in He. rewrite He.
    cbn [bytes_at]. rewrite (le_round_trip 8 n Hv). done.
  - destruct (Hget (replicate 8 0)) as (r' & He & Hr'); [done|]. exists r'. unfold get_i64, get_u64.
    rewrite length_le_bytes in He. cbv [Z.of_nat Pos.of_succ_nat Pos.succ] in He. rewrite He.
    cbn [bytes_at]. rewrite (le_round_trip 8 (u64 n) (u64_range n)). split; [|done].
    do 2 f_equal. unfold i64, u64. rewrite Zplus_mod_idemp_l. by apply i64_small.
  - destruct (Hget (replicate (length bs) 0)) as (r' & He & Hr'); [by rewrite length_replicate|].
    exists r'. by rewrite He.
Qed.

Lemma get_values_encoded r vs q :
  Forall value_ok vs → to_read r (encode_all vs ++ q) →
  ∃ r', get_values r vs = (vs, r') ∧ to_read r' q.
Proof.
  intros Hvs. revert r. induction Hvs as [|v vs Hv Hvs IH]; intros r Hr; csimpl.
  { by exists r. }
  unfold encode_all in Hr. csimpl in Hr. rewrite <- app_assoc in Hr.
  destruct (get_value_encoded r v _ Hv Hr) as (r1 & -> & Hr1).
  destruct (IH r1 Hr1) as (r2 & -> & Hr2). by exists r2.
Qed.

(** The cursor after a read of any kind: it fails exactly when there are fewer
    bytes left than the field has. *)
Lemma get_value_cursor r v :
  (get_value r v).2 = (get_bytes r (Some (replicate (length (encode v)) 0))
                         (Z.of_nat (length (encode v)))).2.
Proof.
  destruct v as [n|n|n|n|n|bs]; cbn [get_value encode];
    unfold get_u8, get_u16, get_i64, get_u32, get_u64; rewrite ?length_le_bytes; simpl;
    by destruct (get_bytes r _ _) as [[? ?] ?].
Qed.

Definition reader_ok (r : reader) : Prop := 0 ≤ r_offset r ≤ r_size r ∧ r_size r < 2 ^ 64.

Lemma get_bytes_cursor r d n :
  reader_ok r →
  let r' := (get_bytes r (Some d) (Z.of_nat n)).2 in
  reader_ok r' ∧ r_size r' = r_size r ∧
  (r_good r' = true ↔ r_good r = true ∧ r_offset r + Z.of_nat n ≤ r_size r) ∧
  (r_good r' = true → r_offset r' = r_offset r + Z.of_nat n).
Proof.
  intros [Ho Hs]. unfold get_bytes, remaining, reader_ok.
  rewrite (proj2 (Z.leb_le _ _)), andb_false_r, orb_false_r by lia.
  destruct (r_good r) eqn:Hg; simpl; [|split_and!; [lia..|done|split; [done|by intros [? _]]|done]].
  destruct (Z.ltb_spec (r_size r - r_offset r) (Z.of_nat n)); simpl.
  - split_and!; [lia..|done|split; [done|lia]|done].
  - rewrite u64_small by lia. split_and!; try done; try lia.
Qed.

Lemma get_values_cursor r vs :
  reader_ok r →
  let r' := (get_values r vs).2 in
  reader_ok r' ∧ r_size r' = r_size r ∧
  (r_good r' = true ↔ r_good r = true ∧ r_offset r + Z.of_nat (length (encode_all vs)) ≤ r_size r) ∧
  (r_good r' = true → r_offset r' = r_offset r + Z.of_nat (length (encode_all vs))).
Proof.
  unfold encode_all. revert r. induction vs as [|v vs IH]; intros r Hr; csimpl.
  { rewrite Z.add_0_r. destruct Hr. split_and!; [done|done| |done]. split; [intros ?; split; [done|lia]|by intros []]. }
  destruct (get_bytes_cursor r (replicate (length (encode v)) 0) (length (encode v)) Hr)
    as (Hr1 & Hs & Hg & Ho).
  rewrite <- get_value_cursor in *. destruct (get_value r v) as [v' r1]. cbn [fst snd] in *.
  specialize (IH r1 Hr1). destruct (get_values r1 vs) as [vs' r2]. cbn [fst snd] in *.
  destruct IH as (Hr2 & Hs2 & Hg2 & Ho2). rewrite length_app, Hs2, Hs in *. split_and!; [done|done| |].
  - rewrite Hg2. split.
    + intros [H1 H2]. rewrite (Ho H1) in H2. apply Hg in H1 as [? ?]. split; [done|lia].
    + intros [H1 H2]. assert (r_good r1 = true) as H3 by (apply Hg; split; [done|lia]).
      split; [done|]. rewrite (Ho H3). lia.
  - intros H. rewrite Ho2 by done. apply Hg2 in H as [H _]. rewrite Ho by done. lia.
Qed.

(** ** Properties *)

Lemma make_writer_wrote buf :
  Z.of_nat (length buf) < 2 ^ 64 → wrote (make_writer (Some buf) (Z.of_nat (length buf))) [].
Proof. intros H. by exists buf. Qed.

(** Round trip.  Fields written to a buffer with room for them read back
    as the same fields, in order, by a reader over the written bytes, which
    ends good with nothing left; the bytes are the little-endian encodings and
    the rest of the buffer is not part of the message. *)
Theorem canonical_round_trip vs buf :
  Forall value_ok vs → Z.of_nat (length (encode_all vs)) ≤ Z.of_nat (length buf) < 2 ^ 64 →
  let w := put_values (make_writer (Some buf) (Z.of_nat (length buf))) vs in
  w_good w = true ∧ w_offset w = Z.of_nat (length (encode_all vs)) ∧
  ∃ r, get_values (make_reader (w_buffer w) (w_offset w)) vs = (vs, r) ∧
    r_good r = true ∧ remaining r = 0.
Proof.
  intros Hvs [Hf Hlt] w.
  destruct (put_values_fits _ [] vs (make_writer_wrote buf Hlt)) as (b & Hb & Hc & Hlt' & Hg & Ho & Ht);
    [done|]. fold w in Hb, Hc, Hg, Ho, Hlt'. simpl in Ho, Ht. split_and!; [done|done|].
  destruct (get_values_encoded (make_reader (w_buffer w) (w_offset w)) vs []) as (r & Hr & Hq); [done| |].
  { exists b, []. rewrite app_nil_r. simpl. rewrite Hb. split_and!; try done; [|lia].
    exists (drop (length (encode_all vs)) b). rewrite <- Ht at 1. by rewrite take_drop. }
  exists r. split; [done|]. split; [|by apply (to_read_remaining r [])]. by destruct Hq as (? & ? & ? & ? & ? & ? & ? & ?).
Qed.

Lemma canonical_round_trip_witness :
  let vs := [U16 513; I64 (-2); Raw [7; 8]; U64 (2 ^ 64 - 1)] in
  let w := put_values (make_writer (Some (replicate 32 0)) 32) vs in
  w_good w = true ∧ w_offset w = 20 ∧
  ∃ r, get_values (make_reader (w_buffer w) (w_offset w)) vs = (vs, r) ∧
    r_good r = true ∧ remaining r = 0.
Proof.
  apply (canonical_round_trip [U16 513; I64 (-2); Raw [7; 8]; U64 (2 ^ 64 - 1)] (replicate 32 0)).
  - repeat apply Forall_cons_2; simpl; try (split; [solve_Forall|done]); try lia. apply Forall_nil_2.
  - by vm_compute.
Defined.

(** Bounds.  Whatever fields a writer is asked for, it is good exactly
    when they fit, its offset never passes the capacity and it holds a prefix
    of their encoding; whatever a reader is asked to read from an untrusted
    buffer, it is good exactly when the buffer has that many bytes and its
    offset never passes the size. *)
Theorem canonical_cursors_stay_in_bounds vs buf :
  Z.of_nat (length buf) < 2 ^ 64 →
  let total := Z.of_nat (length (encode_all vs)) in
  let capacity := Z.of_nat (length buf) in
  let w := put_values (make_writer (Some buf) capacity) vs in
  let r := (get_values (make_reader (Some buf) capacity) vs).2 in
  (w_good w = true ↔ total ≤ capacity) ∧ 0 ≤ w_offset w ≤ capacity ∧
  take (Z.to_nat (w_offset w)) (bytes_at (w_buffer w)) `prefix_of` encode_all vs ∧
  (r_good r = true ↔ total ≤ capacity) ∧ 0 ≤ r_offset r ≤ capacity.
Proof.
  intros Hlt total capacity w r.
  destruct (get_values_cursor (make_reader (Some buf) capacity) vs) as ([Hr1 _] & Hr2 & Hr3 & _).
  { split; simpl; lia. }
  fold r in Hr1, Hr2, Hr3. rewrite Hr2 in Hr1. simpl in *.
  assert (r_good r = true ↔ total ≤ capacity) by (rewrite Hr3; split; [intros []; lia|by split; [done|lia]]).
  pose proof (make_writer_wrote buf Hlt) as Hw.
  destruct (decide (total ≤ capacity)) as [Hf|Hf].
  - destruct (put_values_fits _ [] vs Hw Hf) as (b & Hb & _ & _ & Hg & Ho & Ht).
    fold w in Hb, Hg, Ho. fold capacity w in Ho, Hb, Hg. rewrite Hb, Ho, Nat2Z.id. simpl in *. rewrite Ht.
    split_and!; try done; lia.
  - destruct (put_values_overflow _ [] vs Hw) as (Hg & q & Hq & Ho & Hle & Ht); [simpl; lia|].
    fold capacity w in Hg, Ho, Hle, Ht. simpl in *. rewrite Ho, Nat2Z.id, Ht.
    split_and!; try done; [|lia..]. rewrite Hg. split; [done|lia].
Qed.

Lemma canonical_cursors_stay_in_bounds_witness :
  let w := put_values (make_writer (Some [0; 0; 0]) 3) [U16 513; U16 7] in
  w_good w ≠ true ∧ w_offset w ≤ 3.
Proof.
  destruct (canonical_cursors_stay_in_bounds [U16 513; U16 7] [0; 0; 0]) as (Hg & Ho & _); [by vm_compute|].
  split; [|apply Ho]. intros H. apply Hg in H. by apply H.
Defined.
