(* ===== verification/Abi.v ===== *)
(** The constants and plain structures of the native ABI, include/naos/abi.h,
    that the kernel components share: status codes, rights, signals, channel
    and table limits, dispositions and restrictions. *)
From stdpp Require Import base numbers.
From S2P Require Import Prelude.

Local Open Scope Z_scope.

Inductive na_status : Type :=
| STATUS_OK | INVALID_HANDLE | WRONG_BINDING | WRONG_SCOPE | ACCESS_DENIED | INVALID_ARGUMENT
| INVALID_MESSAGE | BUFFER_TOO_SMALL | WOULD_BLOCK | WAIT_TIMED_OUT | RESOURCE_EXHAUSTED | FAULT
| OBJECT_REVOKED | PEER_CLOSED | ALREADY_CONSUMED | NOT_SUPPORTED | IO_ERROR.

#[global] Instance na_status_eq_dec : EqDecision na_status.
Proof. solve_decision. Defined.

Definition status_ok (s : na_status) : bool := bool_decide (s = STATUS_OK).

Definition HANDLE_INVALID : Z := 0.

Definition CHANNEL_MAX_MESSAGE_BYTES : Z := 65536.
Definition CHANNEL_MAX_RESOURCES : Z := 64.
Definition CHANNEL_MAX_MESSAGES : Z := 1024.
Definition CHANNEL_DEFAULT_MAX_MESSAGES : Z := 64.
Definition CHANNEL_DEFAULT_MAX_BYTES : Z := 2 ^ 20.
Definition CHANNEL_DEFAULT_MAX_RESOURCES : Z := 256.
Definition CHANNEL_GLOBAL_MAX_MESSAGES : Z := 4096.
Definition CHANNEL_GLOBAL_MAX_BYTES : Z := 16 * 2 ^ 20.
Definition CHANNEL_GLOBAL_MAX_RESOURCES : Z := 16384.
Definition CAPABILITY_MAX_PER_PROCESS : Z := 4096.

Definition RIGHT_DUPLICATE : Z := 1.
Definition RIGHT_TRANSFER : Z := 2.
Definition RIGHT_WAIT : Z := 4.
Definition RIGHT_INSPECT : Z := 8.

Definition SIGNAL_READABLE : Z := 1.
Definition SIGNAL_WRITABLE : Z := 2.
Definition SIGNAL_PEER_CLOSED : Z := 4.
Definition SIGNAL_COMPLETED : Z := 16.
Definition SIGNAL_CANCEL_REQUESTED : Z := 32.

Definition PROTOCOL_RIGHT_INVOKE : Z := 1.

Definition MEMORY_RIGHT_READ : Z := 1.
Definition MEMORY_RIGHT_WRITE : Z := 2.
Definition MEMORY_RIGHT_MAP : Z := 4.
Definition MEMORY_RIGHT_INFO : Z := 8.

Definition RESOURCE_MOVE : Z := 1.
Definition RESOURCE_DUPLICATE : Z := 2.

Definition BINDING_NONE : Z := 0.
Definition BINDING_RAW_CHANNEL_END : Z := 1.
Definition BINDING_CLIENT_END : Z := 2.
Definition BINDING_SERVER_END : Z := 3.
Definition BINDING_KERNEL_VIEW : Z := 4.
Definition BINDING_INVOCATION : Z := 5.
Definition BINDING_RESPONDER : Z := 6.
Definition BINDING_MEMORY_OBJECT : Z := 7.

Definition RESTRICTION_SCOPE : Z := 1.
Definition RESTRICTION_REVISION : Z := 2.
Definition RESTRICTION_FEATURES : Z := 4.
Definition RESTRICTION_META_RIGHTS : Z := 8.
Definition RESTRICTION_PROTOCOL_RIGHTS : Z := 16.

(** [na_handle_restriction_t]; [sizeof] it is 48. *)
Record restriction : Type := Build_restriction {
  r_struct_size : Z;
  r_flags : Z;
  r_scope : Z;
  r_revision : Z;
  r_features : Z;
  r_meta_rights : Z;
  r_protocol_rights : Z;
}.
Definition restriction_sizeof : Z := 48.

(** [na_resource_disposition_t]. *)
Record disposition : Type := Build_disposition {
  d_handle : Z;
  d_operation : Z;
  d_flags : Z;
  d_rights : Z;
  d_scope : Z;
}.

(** The error numbers of includes/kernel/errno.hpp. *)
Module Errno.
Definition ENOENT : Z := -2.
Definition EIO : Z := -5.
Definition ECHILD : Z := -10.
Definition EAGAIN : Z := -11.
Definition ENOMEM : Z := -12.
Definition EACCES : Z := -13.
Definition EBUSY : Z := -16.
Definition EEXIST : Z := -17.
Definition EINVAL : Z := -22.
Definition ENOTSUP : Z := -95.
End Errno.
