(* ===== verification/DataPlane.v ===== *)
(** The data-plane objects, includes/kernel/mm/data_plane.hpp and
    src/kernel/mm/data_plane.cc: memory objects, a byte array read and written
    by extents, and shared rings, a bounded FIFO of byte slots whose pop is a
    claim that is later committed or cancelled.

    Every method runs under the object's lock and is one function.  The vectors
    allocate: [allocated] says whether [data()] is non-null after a [resize],
    and [leftover] is what a vector holds when it is null.  The last section
    shows that a ring implements the abstract FIFO of BoundedQueue.v. *)
From stdpp Require Import base list numbers.
From S2P Require Import Prelude Abi BoundedQueue.

Local Open Scope Z_scope.

Definition MEMORY_OBJECT_MAX_BYTES : Z := 16 * 2 ^ 20.
Definition MEMORY_FLAG_READ_ONLY : Z := 1.
Definition SHARED_RING_MAX_SLOTS : Z := 256.
Definition SHARED_RING_MAX_SLOT_BYTES : Z := 65536.
Definition SHARED_RING_MAX_BYTES : Z := 4 * 2 ^ 20.

(** ** Byte arrays *)

(** [vector::size]. *)
Definition zlength {A} (l : list A) : Z := Z.of_nat (length l).

Definition valid_extent (offset size limit : Z) : bool := (offset <=? limit) && (size <=? u64 (limit - offset)).

(** [resize_bytes] of an empty vector. *)
Definition resize_bytes (size : Z) : list Z := replicate (Z.to_nat size) 0.

(** [copy_bytes], with the pointers as an array and a position in it. *)
Fixpoint copy_loop (n : nat) (destination : list Z) (at_d : Z) (source : list Z) (at_s i : Z) : list Z :=
  match n with
  | O => destination
  | S n' => copy_loop n' (zset destination (at_d + i) (zget source (at_s + i))) at_d source at_s (i + 1)
  end.
Definition copy_bytes (destination : list Z) (at_d : Z) (source : list Z) (at_s size : Z) : list Z :=
  copy_loop (Z.to_nat size) destination at_d source at_s 0.

(** ** Memory objects *)

Module MemoryObject.

Record memory_object : Type := Build_memory_object {
  bytes_ : list Z;
  flags_ : Z;
}.

Implicit Types (m : memory_object).

Definition make_memory_object (size flags : Z) (allocated : bool) : memory_object :=
  if (size <=? MEMORY_OBJECT_MAX_BYTES) && ((size =? 0) || allocated)
  then Build_memory_object (resize_bytes size) flags
  else Build_memory_object [] flags.

Definition size m : Z := zlength (bytes_ m).

Definition readable m (offset len : Z) : bool := valid_extent offset len (size m).

Definition writable m (offset len : Z) : bool :=
  negb (has_flag (flags_ m) MEMORY_FLAG_READ_ONLY) && valid_extent offset len (size m).

(** The status, [actual] and the destination buffer, [None] being a null
    pointer. *)
Definition read m (offset : Z) (destination : option (list Z)) (len : Z) : na_status * Z * option (list Z) :=
  if negb (len =? 0) && bool_decide (destination = None) then (INVALID_ARGUMENT, 0, destination)
  else if negb (valid_extent offset len (size m)) then (INVALID_ARGUMENT, 0, destination)
  else (STATUS_OK, len, (λ d, copy_bytes d 0 (bytes_ m) offset len) <$> destination).

Definition write m (offset : Z) (source : option (list Z)) (len : Z) : na_status * Z * memory_object :=
  if negb (len =? 0) && bool_decide (source = None) then (INVALID_ARGUMENT, 0, m)
  else if negb (writable m offset len) then
    (if has_flag (flags_ m) MEMORY_FLAG_READ_ONLY then ACCESS_DENIED else INVALID_ARGUMENT, 0, m)
  else (STATUS_OK, len, Build_memory_object (copy_bytes (bytes_ m) offset (default [] source) 0 len) (flags_ m)).

End MemoryObject.

(** ** Shared rings *)

Module SharedRing.

Record shared_ring : Type := Build_shared_ring {
  slots_ : list (list Z);
  slot_bytes_ : Z;
  head_ : Z;
  tail_ : Z;
  count_ : Z;
  pop_claimed_ : bool;
  valid_ : bool;
  flags_ : Z;
}.
Implicit Types (r : shared_ring).

(** [ensured] says whether [slots_.ensure] got its capacity, [allocated i]
    whether the bytes of slot [i] were allocated.  The loop stops at the first
    slot without storage. *)
Definition make_shared_ring (slots slot_bytes flags : Z) (ensured : bool) (allocated : nat → bool) : shared_ring :=
  let refused := Build_shared_ring [] slot_bytes 0 0 0 false false flags in
  if (slots =? 0) || (SHARED_RING_MAX_SLOTS <? slots) || (slot_bytes =? 0) || (SHARED_RING_MAX_SLOT_BYTES <? slot_bytes)
     || (SHARED_RING_MAX_BYTES / slot_bytes <? slots) then refused
  else if negb ensured then refused
  else if negb (forallb allocated (seq 0 (Z.to_nat slots))) then refused
  else Build_shared_ring (replicate (Z.to_nat slots) (resize_bytes slot_bytes)) slot_bytes 0 0 0 false true flags.

Definition slots r : Z := zlength (slots_ r).
Definition queued r : Z := count_ r.

Definition capability_signals r : Z :=
  if negb (valid_ r) then 0
  else Z.lor (if negb (count_ r =? 0) then SIGNAL_READABLE else 0)
             (if (count_ r <? slots r) && negb (pop_claimed_ r) then SIGNAL_WRITABLE else 0).

Definition push r (bytes : list Z) (allocated : bool) (leftover : list Z) : na_status * shared_ring :=
  if negb (valid_ r) || (slot_bytes_ r <? zlength bytes) then (INVALID_ARGUMENT, r)
  else if count_ r =? slots r then (WOULD_BLOCK, r)
  else if negb (zlength bytes =? 0) && negb allocated then
    (RESOURCE_EXHAUSTED,
     Build_shared_ring (zset (slots_ r) (tail_ r) leftover) (slot_bytes_ r) (head_ r) (tail_ r) (count_ r)
       (pop_claimed_ r) (valid_ r) (flags_ r))
  else
    let destination := copy_bytes (resize_bytes (zlength bytes)) 0 bytes 0 (zlength bytes) in
    (STATUS_OK,
     Build_shared_ring (zset (slots_ r) (tail_ r) destination) (slot_bytes_ r) (head_ r)
       (u64 (tail_ r + 1) mod slots r) (u64 (count_ r + 1)) (pop_claimed_ r) (valid_ r) (flags_ r)).

Definition set_claimed (b : bool) r : shared_ring :=
  Build_shared_ring (slots_ r) (slot_bytes_ r) (head_ r) (tail_ r) (count_ r) b (valid_ r) (flags_ r).

(** The status, the snapshot and the ring. *)
Definition claim_pop r (allocated : bool) (leftover : list Z) : na_status * list Z * shared_ring :=
  if negb (valid_ r) || (count_ r =? 0) then (WOULD_BLOCK, [], r)
  else if pop_claimed_ r then (WOULD_BLOCK, [], r)
  else
    let source := zget (slots_ r) (head_ r) in
    if negb (zlength source =? 0) && negb allocated then (RESOURCE_EXHAUSTED, leftover, r)
    else (STATUS_OK, copy_bytes (resize_bytes (zlength source)) 0 source 0 (zlength source), set_claimed true r).

Definition cancel_pop r : shared_ring := set_claimed false r.

Definition commit_pop r : na_status * shared_ring :=
  if negb (pop_claimed_ r) || (count_ r =? 0) then (INVALID_ARGUMENT, r)
  else (STATUS_OK,
        Build_shared_ring (zset (slots_ r) (head_ r) []) (slot_bytes_ r) (u64 (head_ r + 1) mod slots r) (tail_ r)
          (u64 (count_ r - 1)) false (valid_ r) (flags_ r)).

End SharedRing.

(** ** Extents and copies *)

Lemma valid_extent_spec offset len limit :
  0 ≤ offset → 0 ≤ len → 0 ≤ limit < 2 ^ 64 →
  valid_extent offset len limit = true ↔ offset + len ≤ limit.
Proof.
  intros. unfold valid_extent. rewrite andb_true_iff, !Z.leb_le. split.
  - intros [? Hl]. rewrite u64_small in Hl; lia.
  - intros. rewrite u64_small; lia.
Qed.

Lemma zlength_resize n : 0 ≤ n → zlength (resize_bytes n) = n.
Proof. intros. unfold zlength, resize_bytes. rewrite length_replicate. lia. Qed.

Lemma copy_loop_spec n destination at_d source at_s i :
  0 ≤ i → 0 ≤ at_d → 0 ≤ at_s →
  at_d + i + Z.of_nat n ≤ zlength destination → at_s + i + Z.of_nat n ≤ zlength source →
  copy_loop n destination at_d source at_s i
  = take (Z.to_nat (at_d + i)) destination ++ take n (drop (Z.to_nat (at_s + i)) source)
    ++ drop (Z.to_nat (at_d + i) + n) destination.
Proof.
  unfold zlength. revert destination i. induction n as [|n IH]; intros destination i ? ? ? Hd Hs; simpl.
  - by rewrite Nat.add_0_r, take_drop.
  - rewrite IH; rewrite ?length_zset; [|lia..].
    replace (at_d + (i + 1)) with (at_d + i + 1) by lia. rewrite take_zset by lia.
    replace (Z.to_nat (at_s + (i + 1))) with (S (Z.to_nat (at_s + i))) by lia.
    replace (Z.to_nat (at_d + i + 1) + n)%nat with (Z.to_nat (at_d + i) + S n)%nat by lia.
    unfold zset. rewrite drop_insert_lt by lia. rewrite <- app_assoc. f_equal. simpl.
    destruct (lookup_lt_is_Some_2 source (Z.to_nat (at_s + i)) ltac:(lia)) as [x Hx].
    unfold zget. rewrite (list_lookup_total_correct _ _ _ Hx).
    by rewrite (drop_S source x (Z.to_nat (at_s + i)) Hx).
Qed.

Lemma object_copy_bytes destination at_d source at_s len :
  0 ≤ at_d → 0 ≤ at_s → 0 ≤ len → at_d + len ≤ zlength destination → at_s + len ≤ zlength source →
  copy_bytes destination at_d source at_s len
  = take (Z.to_nat at_d) destination ++ take (Z.to_nat len) (drop (Z.to_nat at_s) source)
    ++ drop (Z.to_nat (at_d + len)) destination.
Proof.
  intros. unfold copy_bytes. rewrite copy_loop_spec by lia. rewrite !Z.add_0_r.
  by replace (Z.to_nat at_d + Z.to_nat len)%nat with (Z.to_nat (at_d + len)) by lia.
Qed.

(** A copy of a whole array into one of its size is the array. *)
Lemma copy_whole (l : list Z) : copy_bytes (resize_bytes (zlength l)) 0 l 0 (zlength l) = l.
Proof.
  assert (0 ≤ zlength l) by (unfold zlength; lia).
  rewrite object_copy_bytes by (rewrite ?zlength_resize; lia). unfold zlength, resize_bytes. simpl.
  rewrite drop_0, take_ge by lia. rewrite drop_ge by (rewrite length_replicate; lia). by rewrite app_nil_r.
Qed.

Lemma zlength_copy destination at_d source at_s len :
  zlength (copy_bytes destination at_d source at_s len) = zlength destination.
Proof.
  unfold zlength, copy_bytes. f_equal. generalize 0. generalize (Z.to_nat len). clear len.
  intros n. revert destination. induction n as [|n IH]; intros destination i; simpl; [done|].
  by rewrite IH, length_zset.
Qed.

(** One byte of the result. *)
Lemma zget_copy destination at_d source at_s len i :
  0 ≤ at_d → 0 ≤ at_s → 0 ≤ len → at_d + len ≤ zlength destination → at_s + len ≤ zlength source → 0 ≤ i →
  zget (copy_bytes destination at_d source at_s len) i
  = if (at_d <=? i) && (i <? at_d + len) then zget source (at_s + (i - at_d)) else zget destination i.
Proof.
  intros. rewrite object_copy_bytes by done. unfold zget, zlength in *.
  rewrite !list_lookup_total_alt.
  destruct (Z.leb_spec at_d i); simpl; [destruct (Z.ltb_spec i (at_d + len)); simpl|].
  - rewrite lookup_app_r by (rewrite length_take; lia). rewrite length_take.
    rewrite lookup_app_l by (rewrite length_take, length_drop; lia).
    rewrite lookup_take_lt by lia. rewrite lookup_drop. do 2 f_equal. lia.
  - rewrite lookup_app_r by (rewrite length_take; lia). rewrite length_take.
    rewrite lookup_app_r by (rewrite length_take, length_drop; lia). rewrite length_take, length_drop, lookup_drop.
    do 2 f_equal. lia.
  - rewrite lookup_app_l by (rewrite length_take; lia). by rewrite lookup_take_lt by lia.
Qed.

(** ** What a memory object stores *)

Section memory_object_facts.
Import MemoryObject.
Implicit Types (m : memory_object).

(** The largest object the constructor makes. *)
Definition object_wf m : Prop := MemoryObject.size m ≤ MEMORY_OBJECT_MAX_BYTES.

Lemma make_memory_object_wf n flags allocated : 0 ≤ n → object_wf (make_memory_object n flags allocated).
Proof.
  intros. unfold object_wf, make_memory_object, MemoryObject.size.
  destruct (Z.leb_spec n MEMORY_OBJECT_MAX_BYTES); simpl; [|done].
  destruct (_ || allocated); simpl; [by rewrite zlength_resize|done].
Qed.

Lemma object_size m : object_wf m → 0 ≤ MemoryObject.size m < 2 ^ 64.
Proof. unfold object_wf, MEMORY_OBJECT_MAX_BYTES, MemoryObject.size, zlength. lia. Qed.

Lemma read_spec m offset destination len :
  object_wf m → 0 ≤ offset → 0 ≤ len →
  read m offset (Some destination) len
  = if offset + len <=? MemoryObject.size m
    then (STATUS_OK, len, Some (copy_bytes destination 0 (bytes_ m) offset len))
    else (INVALID_ARGUMENT, 0, Some destination).
Proof.
  intros Hwf ? ?. pose proof (object_size m Hwf). unfold read. rewrite andb_false_r.
  pose proof (valid_extent_spec offset len (MemoryObject.size m)) as Hv.
  destruct (valid_extent _ _ _) eqn:Hve, (Z.leb_spec (offset + len) (MemoryObject.size m)); try done; exfalso; lia.
Qed.

Lemma write_spec m offset source len :
  object_wf m → 0 ≤ offset → 0 ≤ len →
  MemoryObject.write m offset (Some source) len
  = if has_flag (flags_ m) MEMORY_FLAG_READ_ONLY then (ACCESS_DENIED, 0, m)
    else if offset + len <=? MemoryObject.size m
    then (STATUS_OK, len, Build_memory_object (copy_bytes (bytes_ m) offset source 0 len) (flags_ m))
    else (INVALID_ARGUMENT, 0, m).
Proof.
  intros Hwf ? ?. pose proof (object_size m Hwf). unfold MemoryObject.write, writable. rewrite andb_false_r.
  destruct (has_flag _ _); simpl; [done|]. pose proof (valid_extent_spec offset len (MemoryObject.size m)) as Hv.
  destruct (valid_extent _ _ _) eqn:Hve, (Z.leb_spec (offset + len) (MemoryObject.size m)); try done; exfalso; lia.
Qed.

(** C34: A memory object is an array of bytes with checked extents.  A write
    succeeds exactly when the object is writable and the extent lies inside it,
    without wrapping around; a failed one changes nothing.  After a successful
    one every later read that fits returns, byte for byte, what was written
    where the two extents meet and what the object held before elsewhere, and
    leaves the rest of the caller's buffer alone. *)
Theorem write_then_read m offset source len status actual m' :
  object_wf m → 0 ≤ offset < 2 ^ 64 → 0 ≤ len ≤ zlength source →
  MemoryObject.write m offset (Some source) len = (status, actual, m') →
  object_wf m' ∧ MemoryObject.size m' = MemoryObject.size m ∧ actual = (if status_ok status then len else 0) ∧
  (status = STATUS_OK ↔ has_flag (flags_ m) MEMORY_FLAG_READ_ONLY = false ∧ offset + len ≤ MemoryObject.size m) ∧
  (status ≠ STATUS_OK → m' = m) ∧
  ∀ from n buffer, 0 ≤ from < 2 ^ 64 → 0 ≤ n ≤ zlength buffer →
    if from + n <=? MemoryObject.size m
    then ∃ buffer', read m' from (Some buffer) n = (STATUS_OK, n, Some buffer') ∧ zlength buffer' = zlength buffer ∧
           ∀ i, 0 ≤ i < zlength buffer →
             zget buffer' i = if n <=? i then zget buffer i
                              else if status_ok status && (offset <=? from + i) && (from + i <? offset + len)
                              then zget source (from + i - offset) else zget (bytes_ m) (from + i)
    else read m' from (Some buffer) n = (INVALID_ARGUMENT, 0, Some buffer).
Proof.
  intros Hwf Ho Hl. rewrite write_spec by first [done|lia]. intros Hw.
  assert (object_wf m' ∧ MemoryObject.size m' = MemoryObject.size m ∧
          ∀ i, 0 ≤ i → zget (bytes_ m') i = if status_ok status && (offset <=? i) && (i <? offset + len)
                                            then zget source (i - offset) else zget (bytes_ m) i)
    as (Hwf' & Hs & Hb).
  { destruct (has_flag _ _); [injection Hw as <- <- <-; done|].
    destruct (Z.leb_spec (offset + len) (MemoryObject.size m)); injection Hw as <- <- <-; [|done].
    unfold object_wf, MemoryObject.size in *. simpl. rewrite zlength_copy. split_and!; [done..|].
    intros i Hi. rewrite zget_copy by lia. by rewrite Z.add_0_l. }
  split_and!; [done|done|..].
  - destruct (has_flag _ _), (offset + len <=? MemoryObject.size m); injection Hw as <- <- <-; done.
  - destruct (has_flag _ _), (Z.leb_spec (offset + len) (MemoryObject.size m)); injection Hw as <- <- <-;
      (split; [intros ?|intros [? ?]]); try done; try lia.
  - destruct (has_flag _ _), (offset + len <=? MemoryObject.size m); injection Hw as <- <- <-; done.
  - intros from n buffer Hf Hn. rewrite read_spec, Hs by first [done|lia]. destruct (Z.leb_spec (from + n) (MemoryObject.size m)); [|done].
    eexists. split_and!; [done|apply zlength_copy|]. intros i Hi. unfold MemoryObject.size in *.
    rewrite zget_copy by lia. destruct (Z.leb_spec n i), (Z.ltb_spec i (0 + n)), (Z.leb_spec 0 i); try lia; [done|]. simpl.
    rewrite Hb by lia. by replace (from + (i - 0)) with (from + i) by lia.
Qed.
End memory_object_facts.

Lemma write_then_read_witness :
  let m := MemoryObject.make_memory_object 8 0 true in
  (MemoryObject.write m 2 (Some [10; 11; 12]) 3).1.1 = STATUS_OK ∧
  ∃ b, MemoryObject.read (MemoryObject.write m 2 (Some [10; 11; 12]) 3).2 3 (Some [0; 0]) 2 = (STATUS_OK, 2, Some b)
       ∧ zget b 0 = 11.
Proof.
  intros m. split; [reflexivity|].
  destruct (write_then_read m 2 [10; 11; 12] 3 STATUS_OK 3 (MemoryObject.write m 2 (Some [10; 11; 12]) 3).2)
    as (_ & _ & _ & _ & _ & H).
  - apply make_memory_object_wf. lia.
  - lia.
  - vm_compute. split; discriminate.
  - reflexivity.
  - specialize (H 3 2 [0; 0] ltac:(lia) ltac:(vm_compute; split; discriminate)).
    change (3 + 2 <=? MemoryObject.size m) with true in H. destruct H as (b & Hb & _ & Hg).
    exists b. split; [exact Hb|]. rewrite (Hg 0); [reflexivity|vm_compute; split; [discriminate|reflexivity]].
Defined.

(** ** A ring is a bounded FIFO *)

Section ring_facts.
Import SharedRing.
Implicit Types (r : shared_ring) (f : fifo (list Z)).

Record ring_wf r : Prop := Build_ring_wf {
  rwf_valid : valid_ r = true;
  rwf_slots : 0 < slots r ≤ SHARED_RING_MAX_SLOTS;
  rwf_head : 0 ≤ head_ r < slots r;
  rwf_tail : tail_ r = (head_ r + count_ r) mod slots r;
  rwf_count : 0 ≤ count_ r ≤ slots r;
  rwf_claimed : pop_claimed_ r = true → 0 < count_ r;
}.

(** The queued messages, oldest first, and the abstract queue. *)
Definition ring_items r : list (list Z) := ring_list (slots_ r) (head_ r) (count_ r).
Definition ring_fifo r : fifo (list Z) := Build_fifo (slots r) (ring_items r) (pop_claimed_ r).

(** A call on a ring with the results of its allocations. *)
Inductive ring_op : Type :=
| RingPush (bytes : list Z) (allocated : bool) (leftover : list Z)
| RingClaim (allocated : bool) (leftover : list Z)
| RingCancel
| RingCommit.

(** The status and, for a claim, the snapshot. *)
Definition ring_step r (op : ring_op) : (na_status * list Z) * shared_ring :=
  match op with
  | RingPush bytes allocated leftover => let '(s, r') := push r bytes allocated leftover in ((s, []), r')
  | RingClaim allocated leftover => claim_pop r allocated leftover
  | RingCancel => ((STATUS_OK, []), cancel_pop r)
  | RingCommit => let '(s, r') := commit_pop r in ((s, []), r')
  end.

(** What the ring promises, on the abstract queue. *)
Definition ring_spec (slot_bytes : Z) f (op : ring_op) : (na_status * list Z) * fifo (list Z) :=
  match op with
  | RingPush bytes allocated _ =>
    if slot_bytes <? zlength bytes then ((INVALID_ARGUMENT, []), f)
    else if Z.of_nat (length (fifo_items f)) =? fifo_limit f then ((WOULD_BLOCK, []), f)
    else if negb allocated && negb (bool_decide (bytes = [])) then ((RESOURCE_EXHAUSTED, []), f)
    else ((STATUS_OK, []), (fifo_push f bytes).2)
  | RingClaim allocated leftover =>
    match fifo_items f, fifo_claimed f with
    | message :: _, false =>
      if negb allocated && negb (bool_decide (message = [])) then ((RESOURCE_EXHAUSTED, leftover), f)
      else ((STATUS_OK, message), (fifo_claim f).2)
    | _, _ => ((WOULD_BLOCK, []), f)
    end
  | RingCancel => ((STATUS_OK, []), fifo_cancel f)
  | RingCommit => if fifo_claimed f then ((STATUS_OK, []), fifo_commit f) else ((INVALID_ARGUMENT, []), f)
  end.

Lemma ring_items_length r : ring_wf r → Z.of_nat (length (ring_items r)) = count_ r.
Proof. intros [????[??]?]. unfold ring_items. rewrite length_ring_list. lia. Qed.

Lemma zlength_empty (l : list Z) : (zlength l =? 0) = bool_decide (l = []).
Proof. unfold zlength. by destruct l. Qed.

(** The slot at the tail is not one of the queued ones unless the ring is
    full. *)
Lemma ring_tail_free (a : list (list Z)) h n x :
  0 ≤ n < zlength a → ring_list (zset a ((h + n) mod zlength a) x) h n = ring_list a h n.
Proof.
  unfold zlength. intros Hn. symmetry. apply ring_list_ext; [by rewrite length_zset|]. intros k Hk.
  set (c := Z.of_nat (length a)) in *.
  pose proof (ring_index_range c (h + n) ltac:(lia)). pose proof (ring_index_range c (h + k) ltac:(lia)).
  symmetry. apply zget_zset_ne; [lia..|]. intros E. apply (ring_index_inj h c) in E; lia.
Qed.

Lemma ring_head r : ring_wf r → 0 < count_ r →
  ring_items r = zget (slots_ r) (head_ r) :: ring_list (slots_ r) ((head_ r + 1) mod slots r) (count_ r - 1).
Proof. intros [?????] ?. by apply ring_list_pop. Qed.

Lemma push_refines r bytes allocated leftover :
  ring_wf r →
  let '(s, r') := push r bytes allocated leftover in
  ring_wf r' ∧ slot_bytes_ r' = slot_bytes_ r ∧
  ring_spec (slot_bytes_ r) (ring_fifo r) (RingPush bytes allocated leftover) = ((s, []), ring_fifo r').
Proof.
  intros Hwf. pose proof (ring_items_length r Hwf) as Hlen. pose proof Hwf as [Hv Hs Hh Ht Hc Hcl]. unfold push, ring_spec.
  rewrite Hv. cbn [negb orb fifo_items ring_fifo fifo_limit]. rewrite Hlen, zlength_empty.
  destruct (_ <? _); [done|]. destruct (Z.eqb_spec (count_ r) (slots r)); [done|].
  unfold SHARED_RING_MAX_SLOTS in *.
  pose proof (ring_index_range (slots r) (head_ r + count_ r) ltac:(lia)).
  destruct (negb (bool_decide (bytes = [])) && negb allocated) eqn:Hal.
  - rewrite andb_comm in Hal. rewrite Hal. split; [|split; [done|]].
    + split; unfold slots, zlength in *; simpl; rewrite ?length_zset; done.
    + rewrite Ht. unfold ring_fifo, ring_items, slots in *. simpl. rewrite ring_tail_free by lia.
      unfold zlength. by rewrite length_zset.
  - rewrite andb_comm in Hal. rewrite Hal, copy_whole. unfold fifo_push. cbn [ring_fifo fifo_items fifo_limit fifo_claimed].
    rewrite Hlen. destruct (Z.ltb_spec (count_ r) (slots r)); [|lia]. rewrite !u64_small by lia.
    split; [|split; [done|]].
    + split; unfold slots, zlength in *; simpl; rewrite ?length_zset; [done..| |lia|lia].
      rewrite Ht, Zplus_mod_idemp_l. f_equal. lia.
    + unfold ring_fifo, ring_items, slots, zlength in *. simpl. rewrite length_zset, Ht. rewrite ring_list_push by lia. done.
Qed.

Lemma claim_pop_refines r allocated leftover :
  ring_wf r →
  let '(result, r') := claim_pop r allocated leftover in
  ring_wf r' ∧ slot_bytes_ r' = slot_bytes_ r ∧
  ring_spec (slot_bytes_ r) (ring_fifo r) (RingClaim allocated leftover) = (result, ring_fifo r').
Proof.
  intros Hwf. pose proof Hwf as [Hv Hs Hh Ht Hc Hcl]. unfold claim_pop, ring_spec. rewrite Hv.
  cbn [negb orb fifo_items ring_fifo fifo_claimed]. destruct (Z.eqb_spec (count_ r) 0) as [E|E].
  - unfold ring_items. rewrite E, ring_list_nil by lia. done.
  - rewrite (ring_head r Hwf) by lia. destruct (pop_claimed_ r) eqn:Hp; [done|]. rewrite zlength_empty.
    rewrite andb_comm. destruct (_ && _) eqn:Hal; [done|]. rewrite copy_whole.
    unfold fifo_claim, ring_fifo. cbn [fifo_items fifo_claimed fifo_limit]. rewrite (ring_head r Hwf), Hp by lia.
    split; [split; try done; simpl; lia|split; [done|]]. simpl.
    change (ring_items (set_claimed true r)) with (ring_items r). by rewrite (ring_head r Hwf) by lia.
Qed.

Lemma commit_pop_refines r :
  ring_wf r →
  let '(s, r') := commit_pop r in
  ring_wf r' ∧ slot_bytes_ r' = slot_bytes_ r ∧
  ring_spec (slot_bytes_ r) (ring_fifo r) RingCommit = ((s, []), ring_fifo r').
Proof.
  intros Hwf. pose proof Hwf as [Hv Hs Hh Ht Hc Hcl]. unfold commit_pop, ring_spec. cbn [fifo_claimed ring_fifo].
  destruct (pop_claimed_ r) eqn:Hp; [|done]. specialize (Hcl eq_refl).
  destruct (Z.eqb_spec (count_ r) 0); [lia|]. unfold SHARED_RING_MAX_SLOTS in *. simpl. rewrite !u64_small by lia.
  split; [|split; [done|]].
  - split; unfold slots, zlength in *; simpl; rewrite ?length_zset; [done|done| | |lia|done].
    + apply ring_index_range. lia.
    + rewrite Ht, Zplus_mod_idemp_l. f_equal. lia.
  - unfold fifo_commit, ring_fifo. cbn [fifo_items fifo_claimed fifo_limit]. rewrite (ring_head r Hwf), Hp by lia.
    unfold ring_items, slots, zlength in *. simpl. rewrite length_zset. do 2 f_equal.
    rewrite (ring_list_set_rest _ _ (count_ r)) by lia. by rewrite (ring_list_pop _ (head_ r)) by lia.
Qed.

Lemma ring_step_refines r op :
  ring_wf r →
  ring_wf (ring_step r op).2 ∧ slot_bytes_ (ring_step r op).2 = slot_bytes_ r ∧
  ring_spec (slot_bytes_ r) (ring_fifo r) op = ((ring_step r op).1, ring_fifo (ring_step r op).2).
Proof.
  intros Hwf. destruct op as [bytes allocated leftover|allocated leftover| |]; unfold ring_step.
  - pose proof (push_refines r bytes allocated leftover Hwf) as H. by destruct (push _ _ _ _).
  - pose proof (claim_pop_refines r allocated leftover Hwf) as H. by destruct (claim_pop _ _ _).
  - by destruct Hwf.
  - pose proof (commit_pop_refines r Hwf) as H. by destruct (commit_pop _).
Qed.

(** The messages a sequence of calls got accepted, and the messages its
    commits took off, each being the snapshot of the claim that the commit
    ends. *)
Fixpoint accepted (ops : list ring_op) (results : list (na_status * list Z)) : list (list Z) :=
  match ops, results with
  | op :: ops', (s, _) :: results' =>
    match op with
    | RingPush bytes _ _ => if status_ok s then bytes :: accepted ops' results' else accepted ops' results'
    | _ => accepted ops' results'
    end
  | _, _ => []
  end.

Fixpoint delivered (snapshot : list Z) (ops : list ring_op) (results : list (na_status * list Z)) : list (list Z) :=
  match ops, results with
  | op :: ops', (s, out) :: results' =>
    match op with
    | RingClaim _ _ => delivered (if status_ok s then out else snapshot) ops' results'
    | RingCommit => if status_ok s then snapshot :: delivered snapshot ops' results' else delivered snapshot ops' results'
    | _ => delivered snapshot ops' results'
    end
  | _, _ => []
  end.

(** A shared ring is the bounded FIFO it promises.  Every sequence of
    pushes, claims, cancels and commits on it, whatever the allocations
    return, gives the statuses and snapshots of the abstract queue and ends in
    a ring that stands for the abstract result. *)
Theorem shared_ring_refines_fifo r ops :
  ring_wf r →
  ring_wf (run_ops ring_step r ops).2 ∧
  run_ops (ring_spec (slot_bytes_ r)) (ring_fifo r) ops
    = ((run_ops ring_step r ops).1, ring_fifo (run_ops ring_step r ops).2).
Proof.
  intros Hwf.
  destruct (run_ops_simulation ring_step (ring_spec (slot_bytes_ r)) (λ r', ring_wf r' ∧ slot_bytes_ r' = slot_bytes_ r)
              ring_fifo) with (s := r) (ops := ops) as [[? _] ?]; [|done..].
  intros r1 op [Hwf1 <-]. destruct (ring_step_refines r1 op Hwf1) as (? & ? & ?). done.
Qed.

(** One call and the messages in flight. *)
Lemma ring_step_delivers r op snapshot :
  ring_wf r → (pop_claimed_ r = true → head (ring_items r) = Some snapshot) →
  let '(result, r') := ring_step r op in
  let snapshot' := match op with RingClaim _ _ => if status_ok result.1 then result.2 else snapshot | _ => snapshot end in
  (pop_claimed_ r' = true → head (ring_items r') = Some snapshot') ∧
  ring_items r ++ accepted [op] [result] = delivered snapshot [op] [result] ++ ring_items r'.
Proof.
  intros Hwf Hp. destruct (ring_step_refines r op Hwf) as (_ & _ & Hst). destruct (ring_step r op) as [[s out] r'].
  assert (ring_items r' = fifo_items (ring_fifo r') ∧ pop_claimed_ r' = fifo_claimed (ring_fifo r')) as [-> ->] by done.
  cbn [fst snd] in *. generalize dependent (ring_fifo r'). intros f' Hst. unfold ring_spec in Hst.
  destruct op as [bytes al lo|al lo| |]; cbn [accepted delivered].
  - destruct (_ <? _); [injection Hst as <- _ <-; simpl; by rewrite app_nil_r|].
    destruct (Z.eqb_spec (Z.of_nat (length (fifo_items (ring_fifo r)))) (fifo_limit (ring_fifo r))) as [E|E];
      [injection Hst as <- _ <-; simpl; by rewrite app_nil_r|].
    destruct (_ && _); [injection Hst as <- _ <-; simpl; by rewrite app_nil_r|].
    injection Hst as <- _ <-. unfold fifo_push. simpl.
    pose proof (ring_items_length r Hwf). pose proof (rwf_count r Hwf). simpl in E.
    destruct (Z.ltb_spec (Z.of_nat (length (ring_items r))) (slots r)); [|lia]. simpl. split; [|done].
    intros Hc. specialize (Hp Hc). by destruct (ring_items r).
  - simpl in Hst. destruct (ring_items r) as [|message items] eqn:Hi; [|destruct (pop_claimed_ r) eqn:Hc];
      [injection Hst as <- <- <-; simpl; rewrite Hi, ?Hc, ?app_nil_r; done..|].
    destruct (_ && _); injection Hst as <- <- <-; simpl; [by rewrite Hi, Hc, app_nil_r|].
    unfold fifo_claim. simpl. rewrite Hi, Hc. by rewrite app_nil_r.
  - injection Hst as <- _ <-. simpl. by rewrite app_nil_r.
  - simpl in Hst. destruct (pop_claimed_ r) eqn:Hc; injection Hst as <- _ <-; simpl; [|by rewrite Hc, app_nil_r].
    specialize (Hp eq_refl). unfold fifo_commit. simpl. destruct (ring_items r) as [|message items] eqn:Hi; [done|].
    rewrite Hc. simpl in *. injection Hp as ->. by rewrite app_nil_r.
Qed.

Lemma accepted_cons op ops result results :
  accepted (op :: ops) (result :: results) = accepted [op] [result] ++ accepted ops results.
Proof. destruct op, result; simpl; repeat case_match; done. Qed.

Lemma delivered_cons snapshot op ops result results :
  delivered snapshot (op :: ops) (result :: results)
  = delivered snapshot [op] [result]
    ++ delivered (match op with RingClaim _ _ => if status_ok result.1 then result.2 else snapshot | _ => snapshot end)
         ops results.
Proof. destruct op, result; simpl; repeat case_match; done. Qed.

Lemma ring_run_delivers r snapshot ops :
  ring_wf r → (pop_claimed_ r = true → head (ring_items r) = Some snapshot) →
  let '(results, r') := run_ops ring_step r ops in
  ring_items r ++ accepted ops results = delivered snapshot ops results ++ ring_items r'.
Proof.
  revert r snapshot. induction ops as [|op ops IH]; intros r snapshot Hwf Hp; [simpl; by rewrite app_nil_r|].
  rewrite run_ops_cons. pose proof (ring_step_delivers r op snapshot Hwf Hp) as Hd.
  destruct (ring_step_refines r op Hwf) as (Hwf' & _ & _). destruct (ring_step r op) as [result r']. cbn [fst snd] in *.
  destruct Hd as [Hp' Hd]. specialize (IH r' _ Hwf' Hp'). destruct (run_ops ring_step r' ops) as [results r'']. cbn [fst snd].
  rewrite accepted_cons, delivered_cons, app_assoc, Hd, <- !app_assoc. by f_equal.
Qed.

Lemma make_shared_ring_fresh n slot_bytes flags :
  0 < n ≤ SHARED_RING_MAX_SLOTS → 0 < slot_bytes ≤ SHARED_RING_MAX_SLOT_BYTES → n * slot_bytes ≤ SHARED_RING_MAX_BYTES →
  make_shared_ring n slot_bytes flags true (λ _, true)
  = Build_shared_ring (replicate (Z.to_nat n) (resize_bytes slot_bytes)) slot_bytes 0 0 0 false true flags.
Proof.
  intros Hn Hb Hm. unfold make_shared_ring.
  assert (n ≤ SHARED_RING_MAX_BYTES / slot_bytes) by (apply Z.div_le_lower_bound; lia).
  rewrite !(proj2 (Z.eqb_neq _ _)), !(proj2 (Z.ltb_ge _ _)) by lia. simpl.
  by rewrite (proj2 (forallb_forall _ _)).
Qed.

Lemma make_shared_ring_wf n slot_bytes flags :
  0 < n ≤ SHARED_RING_MAX_SLOTS → 0 < slot_bytes ≤ SHARED_RING_MAX_SLOT_BYTES → n * slot_bytes ≤ SHARED_RING_MAX_BYTES →
  ring_wf (make_shared_ring n slot_bytes flags true (λ _, true)).
Proof.
  intros Hn Hb Hm. rewrite make_shared_ring_fresh by done.
  split; unfold slots, zlength; simpl; rewrite ?length_replicate; try done; lia.
Qed.

Lemma ring_step_slots r op : slots (ring_step r op).2 = slots r.
Proof.
  unfold ring_step, push, claim_pop, commit_pop, slots, zlength.
  destruct op; repeat case_match; simplify_eq; simpl; by rewrite ?length_zset.
Qed.

Lemma ring_run_wf r ops :
  ring_wf r → ring_wf (run_ops ring_step r ops).2 ∧ slots (run_ops ring_step r ops).2 = slots r.
Proof.
  revert r. induction ops as [|op ops IH]; intros r Hwf; [done|]. rewrite run_ops_cons. cbn [fst snd].
  rewrite <- (ring_step_slots r op). apply IH. by apply ring_step_refines.
Qed.

(** No queued message exceeds a slot. *)
Definition ring_bounded r : Prop :=
  slot_bytes_ r ≤ SHARED_RING_MAX_SLOT_BYTES ∧ Forall (λ x, zlength x ≤ slot_bytes_ r) (ring_items r).

Lemma ring_step_bounded r op : ring_wf r → ring_bounded r → ring_bounded (ring_step r op).2.
Proof.
  intros Hwf [Hb Hi]. destruct (ring_step_refines r op Hwf) as (_ & Hsb & Hst).
  destruct (ring_step r op) as [result r']. cbn [fst snd] in *. split; [by rewrite Hsb|]. rewrite Hsb.
  change (ring_items r') with (fifo_items (ring_fifo r')). apply (f_equal snd) in Hst. cbn [snd] in Hst.
  generalize dependent (ring_fifo r'). intros f' <-. clear r' result Hsb.
  destruct op as [bytes al lo|al lo| |]; unfold ring_spec, fifo_push, fifo_claim, fifo_commit, ring_fifo;
    cbn [fifo_items fifo_claimed fifo_limit].
  - destruct (Z.ltb_spec (slot_bytes_ r) (zlength bytes)); [done|]. destruct (_ =? _); [done|].
    destruct (_ && _); [done|]. cbn [snd]. destruct (_ <? _); [|done]. simpl. apply Forall_app. split; [done|].
    by apply Forall_singleton.
  - destruct (ring_items r), (pop_claimed_ r); simpl; try done. by destruct (_ && _).
  - done.
  - destruct (pop_claimed_ r); [|done]. destruct (ring_items r); [done|]. simpl. by inversion Hi.
Qed.

(** The calls that other threads make while one holds the claim. *)
Definition other_worker (op : ring_op) : bool :=
  match op with RingPush _ _ _ | RingClaim _ _ => true | _ => false end.

Lemma other_workers_keep_claim r x rest ops :
  ring_wf r → ring_bounded r → pop_claimed_ r = true → ring_items r = x :: rest →
  Forall (λ op, other_worker op = true) ops →
  let '(results, r') := run_ops ring_step r ops in
  ring_wf r' ∧ ring_bounded r' ∧ pop_claimed_ r' = true ∧ ring_items r' = x :: rest ++ accepted ops results.
Proof.
  intros Hwf Hb Hc Hi Hops. revert r rest Hwf Hb Hc Hi.
  induction Hops as [|op ops Hop _ IH]; intros r rest Hwf Hb Hc Hi; [simpl; by rewrite app_nil_r|].
  rewrite run_ops_cons. pose proof (ring_step_delivers r op x Hwf) as Hd. rewrite Hi in Hd. specialize (Hd (λ _, eq_refl)).
  destruct (ring_step_refines r op Hwf) as (Hwf' & _ & _). pose proof (ring_step_bounded r op Hwf Hb) as Hb'.
  assert (pop_claimed_ (ring_step r op).2 = true) as Hc'.
  { destruct op; try done; unfold ring_step, push, claim_pop; repeat (case_match; simplify_eq/=; try done). }
  destruct (ring_step r op) as [[s out] r']. cbn [fst snd] in *. destruct Hd as [_ Hd].
  assert (delivered x [op] [(s, out)] = []) as E by (destruct op; done). rewrite E in Hd. simpl in Hd.
  specialize (IH r' (rest ++ accepted [op] [(s, out)]) Hwf' Hb' Hc' (eq_sym Hd)).
  destruct (run_ops ring_step r' ops) as [results r'']. cbn [fst snd]. rewrite accepted_cons. by rewrite app_assoc.
Qed.

(** C24: A ring delivers every accepted message exactly once and in order.  For
    any sequence of calls on a new ring, the snapshots that its commits took
    off, followed by the messages still queued, are the pushes it accepted: a
    cancelled claim loses nothing and a commit removes nothing but the message
    its claim returned.  No more than [slots] messages are ever queued. *)
Theorem ring_delivers_exactly_once n slot_bytes flags ops :
  0 < n ≤ SHARED_RING_MAX_SLOTS → 0 < slot_bytes ≤ SHARED_RING_MAX_SLOT_BYTES → n * slot_bytes ≤ SHARED_RING_MAX_BYTES →
  let r := make_shared_ring n slot_bytes flags true (λ _, true) in
  let '(results, r') := run_ops ring_step r ops in
  valid_ r = true ∧ accepted ops results = delivered [] ops results ++ ring_items r' ∧
  Z.of_nat (length (ring_items r')) ≤ n.
Proof.
  intros Hn Hb Hm r. pose proof (make_shared_ring_wf n slot_bytes flags Hn Hb Hm) as Hwf.
  pose proof (ring_run_delivers r [] ops Hwf) as Hd.
  destruct (ring_run_wf r ops Hwf) as [Hwf' Hs]. pose proof (ring_items_length _ Hwf') as Hl.
  assert (ring_items r = [] ∧ slots r = n ∧ pop_claimed_ r = false) as (Hi & Hsl & Hc).
  { unfold r. rewrite make_shared_ring_fresh by done. split_and!; [done| |done].
    unfold slots, zlength. simpl. rewrite length_replicate. lia. }
  destruct (run_ops ring_step r ops) as [results r']. cbn [fst snd] in *. rewrite Hi in Hd.
  split_and!; [apply Hwf|apply Hd; by rewrite Hc|]. pose proof (rwf_count _ Hwf'). lia.
Qed.

(** A ring that says it is not writable may still accept a push.  While a
    pop is claimed the signals leave out [WRITABLE], and yet a push of a
    message that fits a free slot succeeds: a sender that waits for the signal
    waits for the receiver to finish, one that tries does not. *)
Theorem claimed_ring_accepts_unsignalled_push r bytes leftover :
  ring_wf r → pop_claimed_ r = true → count_ r < slots r → zlength bytes ≤ slot_bytes_ r →
  has_flag (capability_signals r) SIGNAL_WRITABLE = false ∧
  ring_items (push r bytes true leftover).2 = ring_items r ++ [bytes] ∧
  (push r bytes true leftover).1 = STATUS_OK ∧
  has_flag (capability_signals (cancel_pop r)) SIGNAL_WRITABLE = true.
Proof.
  intros Hwf Hp Hc Hb. pose proof Hwf as [Hv Hs Hh Ht Hcc _].
  pose proof (push_refines r bytes true leftover Hwf) as Hpush. destruct (push r bytes true leftover) as [s r'].
  destruct Hpush as (_ & _ & Hst). unfold ring_spec in Hst. pose proof (ring_items_length r Hwf) as Hl. simpl in Hst.
  rewrite (proj2 (Z.ltb_ge _ _)), Hl, (proj2 (Z.eqb_neq _ _)) in Hst by lia. unfold fifo_push in Hst. simpl in Hst.
  rewrite Hl, (proj2 (Z.ltb_lt _ _)) in Hst by lia. cbn [snd] in Hst. split_and!; [| | |].
  - unfold capability_signals. rewrite Hv, Hp, andb_false_r. simpl. by destruct (count_ r =? 0).
  - by apply (f_equal (λ p, fifo_items p.2)) in Hst.
  - by injection Hst.
  - unfold capability_signals, cancel_pop, set_claimed. simpl. rewrite Hv. change (slots _) with (slots r).
    rewrite (proj2 (Z.ltb_lt _ _)) by done. simpl. by destruct (count_ r =? 0).
Qed.
End ring_facts.
