(* ===== verification/Capability.v ===== *)
(** The capability records of includes/kernel/capability.hpp: entries and
    their metadata, the resources a queued message owns and the restore tokens
    of a batch transfer.  An object is named by an integer and a null
    [khandle] is [None]; the location hooks an object receives
    ([on_capability_acquire], [on_capability_release],
    [on_capability_handoff]) are the events of a log. *)
From stdpp Require Import base list numbers gmap.
From S2P Require Import Prelude Abi.

Local Open Scope Z_scope.

Inductive entry_state : Type := reserved | active | restricting.
Inductive location : Type := table_root | in_transit.

#[global] Instance entry_state_eq_dec : EqDecision entry_state.
Proof. solve_decision. Defined.
#[global] Instance location_eq_dec : EqDecision location.
Proof. solve_decision. Defined.

Definition object : Type := Z.
Definition khandle : Type := option object.

Record metadata : Type := Build_metadata {
  m_binding : Z;
  m_protocol_uuid : list Z;
  m_scope : Z;
  m_revision : Z;
  m_features : Z;
  m_meta_rights : Z;
  m_protocol_rights : Z;
}.

Definition default_metadata : metadata :=
  Build_metadata BINDING_NONE (replicate 16 0) 0 0 0 (Z.lor RIGHT_TRANSFER RIGHT_WAIT) 0.

Definition derive_tty_control_rights (source : Z) : Z :=
  Z.land source (Z.lor RIGHT_TRANSFER (Z.lor RIGHT_WAIT RIGHT_INSPECT)).

Record entry : Type := Build_entry {
  e_object : khandle;
  e_generation : Z;
  e_state : entry_state;
  e_meta : metadata;
}.

Definition default_entry : entry := Build_entry None 0 reserved default_metadata.

Definition with_object (o : khandle) (e : entry) : entry :=
  Build_entry o (e_generation e) (e_state e) (e_meta e).
Definition with_state (s : entry_state) (e : entry) : entry :=
  Build_entry (e_object e) (e_generation e) s (e_meta e).
Definition with_meta (m : metadata) (e : entry) : entry :=
  Build_entry (e_object e) (e_generation e) (e_state e) m.

(** [dst = std::move(src)] on handles: assigning a handle of the object the
    destination already has leaves both alone (handle.hpp). *)
Definition move_assign (dst src : khandle) : khandle * khandle :=
  if decide (dst = src) then (dst, src) else (src, None).

(** ** Location hooks *)

Inductive cap_event : Type :=
| Acquire (o : object) (where_ : location)
| Release (o : object) (where_ : location)
| Handoff (o : object) (from to : location).

(** How one hook changes the number of capabilities of [o] at [l].  The
    overrides in the kernel (raw_channel_endpoint, protocol_endpoint,
    terminal_driver_control) treat a hand-off as the release of its origin,
    the destination having been acquired before. *)
Definition event_delta (o : object) (l : location) (e : cap_event) : Z :=
  match e with
  | Acquire o' l' => if decide (o' = o ∧ l' = l) then 1 else 0
  | Release o' l' => if decide (o' = o ∧ l' = l) then -1 else 0
  | Handoff o' from _ => if decide (o' = o ∧ from = l) then -1 else 0
  end.

Definition net (o : object) (l : location) (log : list cap_event) : Z :=
  sum_Z (event_delta o l <$> log).

(** ** [transferred_resource] *)

Record transferred_resource : Type := Build_transferred {
  t_object : khandle;
  t_meta : metadata;
  t_in_transit : bool;
}.

Definition empty_resource : transferred_resource := Build_transferred None default_metadata false.

Definition acquire_transit (r : transferred_resource) : list cap_event :=
  match t_object r with
  | Some o => if t_in_transit r then [Acquire o in_transit] else []
  | None => []
  end.

Definition make_transferred (o : khandle) (m : metadata) : transferred_resource * list cap_event :=
  let r := Build_transferred o m true in (r, acquire_transit r).

Definition copy_transferred (other : transferred_resource) : transferred_resource * list cap_event :=
  (other, acquire_transit other).

(** Move construction: the new resource and the moved-from one. *)
Definition move_transferred (other : transferred_resource)
    : transferred_resource * transferred_resource :=
  (other, Build_transferred None (t_meta other) false).

Definition release_transit (r : transferred_resource) : transferred_resource * list cap_event :=
  if negb (t_in_transit r) then (r, [])
  else (Build_transferred (t_object r) (t_meta r) false,
        match t_object r with Some o => [Release o in_transit] | None => [] end).

(** Copy and move assignment to a distinct resource: the assigned resource,
    the source afterwards and the hooks. *)
Definition copy_assign_transferred (r other : transferred_resource)
    : transferred_resource * list cap_event :=
  let '(_, released) := release_transit r in
  (other, released ++ acquire_transit other).

Definition move_assign_transferred (r other : transferred_resource)
    : transferred_resource * transferred_resource * list cap_event :=
  let '(r1, released) := release_transit r in
  let '(o, o') := move_assign (t_object r1) (t_object other) in
  (Build_transferred o (t_meta other) (t_in_transit other),
   Build_transferred o' (t_meta other) false, released).

Definition resource_valid (r : transferred_resource) : bool :=
  match t_object r with Some _ => true | None => false end.

Definition take_object (r : transferred_resource)
    : khandle * transferred_resource * list cap_event :=
  (t_object r, Build_transferred None (t_meta r) false,
   match t_object r with Some o => [Release o in_transit] | None => [] end).

Definition take_object_to_table (r : transferred_resource)
    : khandle * transferred_resource * list cap_event :=
  match t_object r with
  | None => (None, r, [])
  | Some o => (Some o, Build_transferred None (t_meta r) false,
               [Acquire o table_root; Release o in_transit])
  end.

Definition take_object_without_callback (r : transferred_resource)
    : khandle * transferred_resource :=
  (t_object r, Build_transferred None (t_meta r) false).

(** ** [transfer_restore_token] and [transfer_record] *)

(** The table a detached node belongs to, the node (its key and entry, [None]
    for a null slot) and the object whose hooks are still to run. *)
Record restore_token : Type := Build_token {
  k_context : option Z;
  k_slot : option (Z * entry);
  k_callback : khandle;
}.

Definition empty_token : restore_token := Build_token None None None.
Definition token_valid (k : restore_token) : bool :=
  match k_slot k with Some _ => true | None => false end.
Definition belongs_to (k : restore_token) (context : Z) : bool :=
  token_valid k && bool_decide (k_context k = Some context).
Definition disarm (k : restore_token) : restore_token :=
  Build_token (k_context k) None (k_callback k).
Definition set_callback_object (o : khandle) (k : restore_token) : restore_token :=
  Build_token (k_context k) (k_slot k) o.

Record transfer_record : Type := Build_record {
  c_source : Z;
  c_moved : bool;
  c_resource : transferred_resource;
  c_token : restore_token;
}.

(** ** Lemmas on the hook log *)

(** Case analysis on the tests of [event_delta]. *)
Ltac held :=
  simpl; repeat case_decide; destruct_and?; simplify_eq;
  first [lia | done | match goal with H : ¬ (_ ∧ _) |- _ => by destruct H end].

Lemma net_nil o l : net o l [] = 0.
Proof. done. Qed.

Lemma net_app o l log1 log2 : net o l (log1 ++ log2) = net o l log1 + net o l log2.
Proof. unfold net. by rewrite fmap_app, sum_Z_app. Qed.

Lemma net_cons o l e log : net o l (e :: log) = event_delta o l e + net o l log.
Proof. done. Qed.
