(* ===== verification/ResourceTable.v ===== *)
(** The per-process capability table, includes/kernel/resource.hpp and
    src/kernel/resource.cc.  Every method runs under the table's lock, so it
    is one function from the table to its result, the location hooks it runs
    afterwards and the new table.

    freelibcxx::hash_map is not part of the repository: the class [HandleMap]
    lists the operations the table uses and [HandleMapLaws] what the table
    relies on, by an abstraction to a finite map.  A failed allocation of a
    temporary vector is a boolean argument; [capability_is_unique],
    [get_ktype] and [capability_signals] are virtual methods of the objects
    and the terminal scopes come from the generated IDL headers, so these are
    section variables. *)
From stdpp Require Import base list numbers gmap.
From S2P Require Import Prelude Abi Capability.

Local Open Scope Z_scope.

(** ** The hash map the table uses *)

(** [hm_set] writes through the pointer [get_ptr] returns; [hm_detach] takes
    the node of a key out of the map and [hm_attach] puts a node back. *)
Class HandleMap (M : Type) : Type := {
  hm_empty : M;
  hm_get : M → Z → option entry;
  hm_insert : M → Z → entry → M;
  hm_remove : M → Z → M;
  hm_set : M → Z → entry → M;
  hm_entries : M → list (Z * entry);
  hm_detach : M → Z → option entry * M;
  hm_attach : M → Z → entry → bool * M;
}.

Class HandleMapLaws (M : Type) `{HandleMap M} : Type := {
  hm_model : M → gmap Z entry;
  hm_model_empty : hm_model hm_empty = ∅;
  hm_model_get m k : hm_get m k = hm_model m !! k;
  hm_model_insert m k e : hm_model m !! k = None → hm_model (hm_insert m k e) = <[k := e]> (hm_model m);
  hm_model_remove m k : hm_model (hm_remove m k) = delete k (hm_model m);
  hm_model_set m k e :
    is_Some (hm_model m !! k) → hm_model (hm_set m k e) = <[k := e]> (hm_model m);
  hm_model_entries m : hm_entries m ≡ₚ map_to_list (hm_model m);
  hm_detach_some m k e :
    hm_model m !! k = Some e →
    (hm_detach m k).1 = Some e ∧ hm_model (hm_detach m k).2 = delete k (hm_model m);
  hm_attach_none m k e :
    hm_model m !! k = None →
    (hm_attach m k e).1 = true ∧ hm_model (hm_attach m k e).2 = <[k := e]> (hm_model m);
}.

(** The interface is implementable: stdpp's finite maps. *)
#[export] Instance gmap_handle_map : HandleMap (gmap Z entry) := {|
  hm_empty := ∅;
  hm_get m k := m !! k;
  hm_insert m k e := <[k := e]> m;
  hm_remove m k := delete k m;
  hm_set m k e := <[k := e]> m;
  hm_entries m := map_to_list m;
  hm_detach m k := (m !! k, delete k m);
  hm_attach m k e := match m !! k with None => (true, <[k := e]> m) | Some _ => (false, m) end;
|}.

#[export] Program Instance gmap_handle_map_laws : HandleMapLaws (gmap Z entry) := {|
  hm_model m := m;
|}.
Solve Obligations with (intros; simpl; try done).
Next Obligation. intros m k e H. simpl. by rewrite H. Qed.

(** ** The table *)

Record resource_table (M : Type) : Type := Build_table {
  rt_id : Z;
  native_handle_map : M;
  next_native_handle : Z;
  native_entry_count : Z;
}.
Arguments Build_table {M}.
Arguments rt_id {M}.
Arguments native_handle_map {M}.
Arguments next_native_handle {M}.
Arguments native_entry_count {M}.

Inductive disposition_array : Type :=
| NullDispositions (count : Z)
| Dispositions (ds : list disposition).

Section table.
Context {M : Type} `{HandleMap M}.
Variable capability_is_unique : object → bool.
Variable get_ktype : object → Z.
Variable capability_signals : object → Z.
Variables scope_terminal_master scope_terminal_slave : Z.

Abbreviation table := (resource_table M).

Definition make_resource_table (id : Z) : table := Build_table id hm_empty 1 0.

Definition with_map (m : M) (t : table) : table :=
  Build_table (rt_id t) m (next_native_handle t) (native_entry_count t).
Definition with_count (n : Z) (t : table) : table :=
  Build_table (rt_id t) (native_handle_map t) (next_native_handle t) n.
Definition with_next (n : Z) (t : table) : table :=
  Build_table (rt_id t) (native_handle_map t) n (native_entry_count t).

Definition get_entry (t : table) (h : Z) : option entry := hm_get (native_handle_map t) h.
Definition insert_entry (h : Z) (e : entry) (t : table) : table :=
  with_map (hm_insert (native_handle_map t) h e) t.
Definition set_entry (h : Z) (e : entry) (t : table) : table :=
  with_map (hm_set (native_handle_map t) h e) t.
Definition remove_entry (h : Z) (t : table) : table :=
  with_map (hm_remove (native_handle_map t) h) t.
Definition count_up (t : table) : table := with_count (u64 (native_entry_count t + 1)) t.
Definition count_down (t : table) : table := with_count (u64 (native_entry_count t - 1)) t.

(** The new handle, or [HANDLE_INVALID]. *)
Definition allocate_native_handle_locked (t : table) : Z * table :=
  if (CAPABILITY_MAX_PER_PROCESS <=? native_entry_count t)
     || (next_native_handle t =? HANDLE_INVALID)
  then (HANDLE_INVALID, t)
  else (next_native_handle t, with_next (u64 (next_native_handle t + 1)) t).

Definition clear_native_locked (t : table) : list object * table :=
  (omap (λ '(_, e), e_object e) (hm_entries (native_handle_map t)),
   Build_table (rt_id t) hm_empty (next_native_handle t) 0).

Definition install_native (t : table) (o : khandle) (meta : metadata) : Z * list cap_event * table :=
  match o with
  | None => (HANDLE_INVALID, [], t)
  | Some obj =>
    let '(handle, t1) := allocate_native_handle_locked t in
    if handle =? HANDLE_INVALID then (HANDLE_INVALID, [], t1)
    else (handle, [Acquire obj table_root],
          count_up (insert_entry handle (Build_entry o handle active meta) t1))
  end.

(** The reservation loop with [n] handles left to reserve. *)
Fixpoint reserve_loop (n : nat) (handles : list Z) (t : table) : na_status * list Z * table :=
  match n with
  | O => (STATUS_OK, handles, t)
  | S n' =>
    let '(handle, t1) := allocate_native_handle_locked t in
    if handle =? HANDLE_INVALID then
      let t2 := foldl (λ t h, remove_entry h t) t1 handles in
      (RESOURCE_EXHAUSTED, [], with_count (u64 (native_entry_count t2 - Z.of_nat (length handles))) t2)
    else
      reserve_loop n' (handles ++ [handle])
        (count_up (insert_entry handle (Build_entry None handle reserved default_metadata) t1))
  end.

Definition reserve_native (t : table) (count : Z) (alloc_ok : bool) : na_status * list Z * table :=
  if CAPABILITY_MAX_PER_PROCESS <? count then (RESOURCE_EXHAUSTED, [], t)
  else if negb (count =? 0) && negb alloc_ok then (RESOURCE_EXHAUSTED, [], t)
  else reserve_loop (Z.to_nat count) [] t.

(** The status, the resource left behind, the hooks and the table. *)
Definition activate_native (t : table) (handle : Z) (r : transferred_resource)
    : na_status * transferred_resource * list cap_event * table :=
  if (handle =? HANDLE_INVALID) || negb (resource_valid r) then (INVALID_ARGUMENT, r, [], t)
  else
    match get_entry t handle with
    | Some e =>
      if negb (bool_decide (e_state e = reserved)) then (INVALID_HANDLE, r, [], t)
      else
        let '(o, r') := take_object_without_callback r in
        match o with
        | None => (INVALID_ARGUMENT, r', [], t)
        | Some obj =>
          (STATUS_OK, r', [Acquire obj table_root; Release obj in_transit],
           set_entry handle (Build_entry (move_assign (e_object e) o).1 (e_generation e) active (t_meta r')) t)
        end
    | None => (INVALID_HANDLE, r, [], t)
    end.

Definition rollback_one (t : table) (handle : Z) : table :=
  match get_entry t handle with
  | Some e => if bool_decide (e_state e = reserved) then count_down (remove_entry handle t) else t
  | None => t
  end.

Definition rollback_native (t : table) (handles : list Z) : table := foldl rollback_one t handles.

Definition lookup_native (t : table) (handle : Z) : option entry :=
  match get_entry t handle with
  | Some e => if bool_decide (e_state e = active) then Some e else None
  | None => None
  end.

Definition has_native_object_type (t : table) (type : Z) : bool :=
  existsb (λ '(_, e), bool_decide (e_state e = active) &&
                      match e_object e with Some o => get_ktype o =? type | None => false end)
    (hm_entries (native_handle_map t)).

Definition has_native_protocol_right (t : table) (right : Z) : bool :=
  existsb (λ '(_, e), bool_decide (e_state e = active) &&
                      match e_object e with Some _ => true | None => false end &&
                      (Z.land (m_protocol_rights (e_meta e)) right =? right))
    (hm_entries (native_handle_map t)).

Definition native_signals (t : table) (handle : Z) : Z :=
  match lookup_native t handle with
  | Some e => match e_object e with Some o => capability_signals o | None => 0 end
  | None => 0
  end.

Definition close_native (t : table) (handle : Z) : na_status * list cap_event * table :=
  if handle =? HANDLE_INVALID then (INVALID_HANDLE, [], t)
  else
    match lookup_native t handle with
    | None => (INVALID_HANDLE, [], t)
    | Some e =>
      (STATUS_OK, match e_object e with Some o => [Release o table_root] | None => [] end,
       count_down (remove_entry handle t))
    end.

Definition with_meta_rights (rights : Z) (m : metadata) : metadata :=
  Build_metadata (m_binding m) (m_protocol_uuid m) (m_scope m) (m_revision m) (m_features m) rights
    (m_protocol_rights m).
Definition with_scope (s : Z) (m : metadata) : metadata :=
  Build_metadata (m_binding m) (m_protocol_uuid m) s (m_revision m) (m_features m) (m_meta_rights m)
    (m_protocol_rights m).

(** The status, the new handle, the hooks and the table. *)
Definition duplicate_native (t : table) (source requested_rights : Z)
    : na_status * Z * list cap_event * table :=
  match lookup_native t source with
  | None => (INVALID_HANDLE, HANDLE_INVALID, [], t)
  | Some found =>
    match e_object found with
    | None => (INVALID_HANDLE, HANDLE_INVALID, [], t)
    | Some obj =>
      if negb (has_flag (m_meta_rights (e_meta found)) RIGHT_DUPLICATE) || capability_is_unique obj
      then (ACCESS_DENIED, HANDLE_INVALID, [], t)
      else
        let rights := if requested_rights =? 0 then m_meta_rights (e_meta found) else requested_rights in
        if negb (no_flag_outside rights (m_meta_rights (e_meta found)))
        then (ACCESS_DENIED, HANDLE_INVALID, [], t)
        else
          let '(handle, t1) := allocate_native_handle_locked t in
          if handle =? HANDLE_INVALID then (RESOURCE_EXHAUSTED, HANDLE_INVALID, [], t1)
          else
            let duplicated :=
              Build_entry (Some obj) handle (e_state found) (with_meta_rights rights (e_meta found)) in
            (STATUS_OK, handle, [Acquire obj table_root], count_up (insert_entry handle duplicated t1))
    end
  end.

(** The rights and the metadata a restriction asks for. *)
Definition restricted_rights (r : restriction) (m : metadata) : Z :=
  if negb (has_flag (r_flags r) RESTRICTION_META_RIGHTS) then m_meta_rights m else r_meta_rights r.
Definition restricted_protocol_rights (r : restriction) (m : metadata) : Z :=
  if negb (has_flag (r_flags r) RESTRICTION_PROTOCOL_RIGHTS) then m_protocol_rights m
  else r_protocol_rights r.

Definition restricted_meta (r : restriction) (m : metadata) : metadata :=
  Build_metadata (m_binding m) (m_protocol_uuid m)
    (if has_flag (r_flags r) RESTRICTION_SCOPE then r_scope r else m_scope m)
    (if has_flag (r_flags r) RESTRICTION_REVISION then r_revision r else m_revision m)
    (if has_flag (r_flags r) RESTRICTION_FEATURES then r_features r else m_features m)
    (restricted_rights r m) (restricted_protocol_rights r m).

Definition restriction_known_flags : Z :=
  Z.lor RESTRICTION_SCOPE (Z.lor RESTRICTION_REVISION (Z.lor RESTRICTION_FEATURES
    (Z.lor RESTRICTION_META_RIGHTS RESTRICTION_PROTOCOL_RIGHTS))).

(** The access checks of a restriction of an active entry. *)
Definition restriction_denied (r : restriction) (m : metadata) : bool :=
  negb (no_flag_outside (restricted_rights r m) (m_meta_rights m)) ||
  negb (no_flag_outside (restricted_protocol_rights r m) (m_protocol_rights m)) ||
  (has_flag (r_flags r) RESTRICTION_SCOPE &&
     ((r_scope r =? 0) || negb (r_scope r =? m_scope m))) ||
  (has_flag (r_flags r) RESTRICTION_REVISION &&
     ((r_revision r =? 0) || (m_revision m <? r_revision r))) ||
  (has_flag (r_flags r) RESTRICTION_FEATURES && negb (no_flag_outside (r_features r) (m_features m))).

(** The status, the new handle, the backup of the source and the table. *)
Definition restrict_native (t : table) (source : Z) (r : restriction)
    : na_status * Z * entry * table :=
  if (r_struct_size r <? restriction_sizeof)
     || negb (no_flag_outside (r_flags r) restriction_known_flags)
  then (INVALID_ARGUMENT, HANDLE_INVALID, default_entry, t)
  else
    match lookup_native t source with
    | None => (INVALID_HANDLE, HANDLE_INVALID, default_entry, t)
    | Some found =>
      if restriction_denied r (e_meta found) then (ACCESS_DENIED, HANDLE_INVALID, default_entry, t)
      else
        let '(handle, t1) := allocate_native_handle_locked t in
        if handle =? HANDLE_INVALID then (RESOURCE_EXHAUSTED, HANDLE_INVALID, default_entry, t1)
        else
          let restricted := Build_entry None handle reserved (restricted_meta r (e_meta found)) in
          (STATUS_OK, handle, found,
           count_up (insert_entry handle restricted (set_entry source (with_state restricting found) t1)))
    end.

Definition commit_restrict (t : table) (source restricted : Z) : na_status * list cap_event * table :=
  if (source =? HANDLE_INVALID) || (restricted =? HANDLE_INVALID) then (INVALID_ARGUMENT, [], t)
  else
    match get_entry t source, get_entry t restricted with
    | Some s, Some pending =>
      match e_object s with
      | Some obj =>
        if bool_decide (e_state s = restricting) && bool_decide (e_state pending = reserved) then
          let o := (move_assign (e_object pending) (e_object s)).1 in
          (STATUS_OK, [Acquire obj table_root; Release obj table_root],
           count_down (remove_entry source (set_entry restricted (with_state active (with_object o pending)) t)))
        else (INVALID_HANDLE, [], t)
      | None => (INVALID_HANDLE, [], t)
      end
    | _, _ => (INVALID_HANDLE, [], t)
    end.

Definition rollback_restrict (t : table) (source restricted : Z) (source_backup : entry)
    : na_status * table :=
  if (source =? HANDLE_INVALID) || (restricted =? HANDLE_INVALID)
     || bool_decide (e_object source_backup = None)
  then (INVALID_ARGUMENT, t)
  else
    match get_entry t source, get_entry t restricted with
    | Some s, Some r =>
      if bool_decide (e_state s = restricting) && negb (bool_decide (e_object s = None))
         && bool_decide (e_state r = reserved) then
        (STATUS_OK, set_entry source (with_state active s) (count_down (remove_entry restricted t)))
      else (INVALID_HANDLE, t)
    | _, _ => (INVALID_HANDLE, t)
    end.

(** The entries a forked process keeps. *)
Definition fork_inheritable (e : entry) : bool :=
  if negb (m_binding (e_meta e) =? BINDING_KERNEL_VIEW) && negb (m_binding (e_meta e) =? BINDING_CLIENT_END)
  then false
  else if has_flag (m_meta_rights (e_meta e)) RIGHT_DUPLICATE then true
  else (m_binding (e_meta e) =? BINDING_CLIENT_END) &&
       ((m_scope (e_meta e) =? scope_terminal_master) || (m_scope (e_meta e) =? scope_terminal_slave)).

Definition clonable (e : entry) : bool :=
  bool_decide (e_state e = active) && negb (bool_decide (e_object e = None)) && fork_inheritable e.

(** The loop over the source's entries: the objects to acquire, in order. *)
Fixpoint clone_loop (entries : list (Z * entry)) (acquired : list cap_event) (t : table)
    : list cap_event * table :=
  match entries with
  | [] => (acquired, t)
  | (key, e) :: entries' =>
    if negb (clonable e) then clone_loop entries' acquired t
    else
      let cloned := Build_entry (e_object e) key (e_state e) (e_meta e) in
      clone_loop entries'
        (acquired ++ match e_object e with Some o => [Acquire o table_root] | None => [] end)
        (count_up (insert_entry key cloned t))
  end.

Definition clone_fork_bindings (t source : table) (alloc_ok : bool)
    : na_status * list cap_event * table :=
  if rt_id t =? rt_id source then (INVALID_ARGUMENT, [], t)
  else if negb (native_entry_count t =? 0) then (INVALID_ARGUMENT, [], t)
  else
    let entries := hm_entries (native_handle_map source) in
    let count := Z.of_nat (length (filter (λ '(_, e), clonable e = true) entries)) in
    if CAPABILITY_MAX_PER_PROCESS <? count then (RESOURCE_EXHAUSTED, [], t)
    else if negb (count =? 0) && negb alloc_ok then (RESOURCE_EXHAUSTED, [], t)
    else
      let '(events, t') := clone_loop entries [] (with_next (next_native_handle source) t) in
      (STATUS_OK, events, t').

(** ** Batch transfers *)

(** The checks of one disposition, [earlier] being the handles of the
    dispositions before it; the snapshot that travels, or the status. *)
Definition check_disposition (t : table) (earlier : list Z) (target : Z) (d : disposition)
    : na_status + entry :=
  if (d_handle d =? HANDLE_INVALID) || negb (d_flags d =? 0) || (d_handle d =? target)
  then inl INVALID_ARGUMENT
  else if existsb (Z.eqb (d_handle d)) earlier then inl INVALID_ARGUMENT
  else
    match lookup_native t (d_handle d) with
    | None => inl INVALID_HANDLE
    | Some found =>
      match e_object found with
      | None => inl INVALID_HANDLE
      | Some obj =>
        if negb (d_operation d =? RESOURCE_MOVE) && negb (d_operation d =? RESOURCE_DUPLICATE)
        then inl INVALID_ARGUMENT
        else if negb (has_flag (m_meta_rights (e_meta found)) RIGHT_TRANSFER) then inl ACCESS_DENIED
        else if (d_operation d =? RESOURCE_DUPLICATE) &&
                (negb (has_flag (m_meta_rights (e_meta found)) RIGHT_DUPLICATE) || capability_is_unique obj)
        then inl ACCESS_DENIED
        else
          let rights := if d_rights d =? 0 then m_meta_rights (e_meta found) else d_rights d in
          if negb (no_flag_outside rights (m_meta_rights (e_meta found))) then inl ACCESS_DENIED
          else if negb (d_scope d =? 0) && negb (d_scope d =? m_scope (e_meta found)) then inl ACCESS_DENIED
          else
            let m := with_meta_rights rights (e_meta found) in
            inr (with_meta (if negb (d_scope d =? 0) then with_scope (d_scope d) m else m) found)
      end
    end.

(** The first loop: a snapshot for every disposition, or the first failure. *)
Fixpoint snapshot_loop (t : table) (earlier : list Z) (target : Z) (ds : list disposition)
    : na_status + list (disposition * entry) :=
  match ds with
  | [] => inr []
  | d :: ds' =>
    match check_disposition t earlier target d with
    | inl status => inl status
    | inr snapshot =>
      match snapshot_loop t (earlier ++ [d_handle d]) target ds' with
      | inl status => inl status
      | inr rest => inr ((d, snapshot) :: rest)
      end
    end
  end.

(** A snapshot with the node detached for it, if it is moved. *)
Definition taken : Type := disposition * entry * option (Z * entry).

(** Re-attaching the nodes detached so far after a failure. *)
Definition reattach (t : table) (item : taken) : table :=
  let '(d, snapshot, node) := item in
  match node with
  | None => t
  | Some (key, e) =>
    with_map (hm_attach (native_handle_map t) key
                (with_object (move_assign (e_object e) (e_object snapshot)).1 e)).2 t
  end.

(** The second loop: detach the node of every moved disposition. *)
Fixpoint detach_loop (t : table) (items : list (disposition * entry)) (taken_items : list taken)
    : option (list taken) * table :=
  match items with
  | [] => (Some taken_items, t)
  | (d, snapshot) :: items' =>
    if d_operation d =? RESOURCE_MOVE then
      let '(node, m) := hm_detach (native_handle_map t) (d_handle d) in
      match node with
      | None => (None, foldl reattach t taken_items)
      | Some e =>
        let '(o, o') := move_assign (e_object snapshot) (e_object e) in
        detach_loop (with_map m t) items'
          (taken_items ++ [(d, with_object o snapshot, Some (d_handle d, with_object o' e))])
      end
    else detach_loop t items' (taken_items ++ [(d, snapshot, None)])
  end.

(** The third loop: the record of one item and its hooks. *)
Definition record_of (id : Z) (item : taken) : transfer_record * list cap_event :=
  let '(d, snapshot, node) := item in
  let '(r, acquired) := make_transferred (e_object snapshot) (e_meta snapshot) in
  if d_operation d =? RESOURCE_MOVE then
    (Build_record (d_handle d) true r (Build_token (Some id) node None),
     acquired ++ match t_object r with Some o => [Handoff o table_root in_transit] | None => [] end)
  else (Build_record (d_handle d) false r empty_token, acquired).

Definition take_native_batch (t : table) (dispositions : disposition_array) (target : Z) (alloc_ok : bool)
    : na_status * list transfer_record * list cap_event * table :=
  match dispositions with
  | NullDispositions count =>
    if (CHANNEL_MAX_RESOURCES <? count) || negb (count =? 0) then (INVALID_ARGUMENT, [], [], t)
    else (STATUS_OK, [], [], t)
  | Dispositions ds =>
    let count := Z.of_nat (length ds) in
    if CHANNEL_MAX_RESOURCES <? count then (INVALID_ARGUMENT, [], [], t)
    else if negb (count =? 0) && negb alloc_ok then (RESOURCE_EXHAUSTED, [], [], t)
    else
      match snapshot_loop t [] target ds with
      | inl status => (status, [], [], t)
      | inr items =>
        match detach_loop t items [] with
        | (None, t') => (RESOURCE_EXHAUSTED, [], [], t')
        | (Some taken_items, t') =>
          let rs := record_of (rt_id t) <$> taken_items in
          (STATUS_OK, rs.*1, concat rs.*2, t')
        end
      end
  end.

(** The check of one record before a restore. *)
Definition restorable (t : table) (r : transfer_record) : bool :=
  negb (c_moved r && token_valid (c_token r)) ||
  (belongs_to (c_token r) (rt_id t) && negb (c_source r =? HANDLE_INVALID)
   && resource_valid (c_resource r) && bool_decide (get_entry t (c_source r) = None)).

(** Attaching the nodes; [false] when an attach fails. *)
Fixpoint attach_loop (t : table) (rs : list transfer_record)
    : bool * list transfer_record * table :=
  match rs with
  | [] => (true, [], t)
  | r :: rs' =>
    match (if c_moved r then k_slot (c_token r) else None) with
    | None => let '(ok, done_rs, t') := attach_loop t rs' in (ok, r :: done_rs, t')
    | Some (key, e) =>
      let '(attached, m) := hm_attach (native_handle_map t) key e in
      if negb attached then (false, r :: rs', t)
      else
        let '(o, resource) := take_object_without_callback (c_resource r) in
        let restored := with_state active (with_object (move_assign (e_object e) o).1 e) in
        let t1 := set_entry key restored (with_map m t) in
        let r' := Build_record (c_source r) (c_moved r) resource
                    (disarm (set_callback_object (e_object restored) (c_token r))) in
        let '(ok, done_rs, t') := attach_loop t1 rs' in (ok, r' :: done_rs, t')
    end
  end.

(** The hooks of one record after the nodes are back. *)
Definition restore_hooks (r : transfer_record) : transfer_record * list cap_event :=
  match k_callback (c_token r) with
  | None =>
    let '(resource, released) := release_transit (c_resource r) in
    (Build_record (c_source r) (c_moved r) resource (c_token r), released)
  | Some o =>
    if c_moved r then
      (Build_record (c_source r) (c_moved r) (c_resource r) (set_callback_object None (c_token r)),
       [Acquire o table_root; Release o in_transit])
    else (r, [])
  end.

Definition restore_native_batch (t : table) (rs : list transfer_record)
    : na_status * list transfer_record * list cap_event * table :=
  if negb (forallb (restorable t) rs) then (RESOURCE_EXHAUSTED, rs, [], t)
  else
    let '(ok, rs1, t') := attach_loop t rs in
    if negb ok then (RESOURCE_EXHAUSTED, rs1, [], t')
    else
      let rs2 := restore_hooks <$> rs1 in
      (STATUS_OK, rs2.*1, concat rs2.*2, t').

Definition commit_one (t : table) (r : transfer_record) : transfer_record * table :=
  if negb (c_moved r) || negb (belongs_to (c_token r) (rt_id t)) then (r, t)
  else (Build_record (c_source r) (c_moved r) (c_resource r) (disarm (c_token r)), count_down t).

Fixpoint commit_native_batch (t : table) (rs : list transfer_record)
    : list transfer_record * table :=
  match rs with
  | [] => ([], t)
  | r :: rs' =>
    let '(r', t1) := commit_one t r in
    let '(rs'', t2) := commit_native_batch t1 rs' in (r' :: rs'', t2)
  end.

Definition clear_table (t : table) : list cap_event * table :=
  let '(released, t') := clear_native_locked t in
  ((λ o, Release o table_root) <$> released, t').

(** ** The handle system calls of syscall/channel.cc *)

(** [write_status] is what copying the new handle to user memory returns. *)
Definition handle_duplicate (t : table) (output_ok : bool) (source rights : Z) (write_status : na_status)
    : na_status * Z * list cap_event * table :=
  if negb output_ok then (FAULT, HANDLE_INVALID, [], t)
  else
    let '(status, handle, events, t1) := duplicate_native t source rights in
    if negb (status_ok status) then (status, handle, events, t1)
    else if status_ok write_status then (write_status, handle, events, t1)
    else
      let '(_, closed, t2) := close_native t1 handle in
      (write_status, handle, events ++ closed, t2).

(** [arguments] is the status of validating and copying the arguments in. *)
Definition handle_restrict (t : table) (arguments : na_status) (source : Z) (r : restriction)
    (write_status : na_status) : na_status * Z * list cap_event * table :=
  if negb (status_ok arguments) then (arguments, HANDLE_INVALID, [], t)
  else
    let '(status, handle, backup, t1) := restrict_native t source r in
    if negb (status_ok status) then (status, handle, [], t1)
    else if negb (status_ok write_status) then
      (write_status, handle, [], (rollback_restrict t1 source handle backup).2)
    else
      let '(status2, events, t2) := commit_restrict t1 source handle in
      if status_ok status2 then (status2, handle, events, t2)
      else (status2, handle, events, (rollback_restrict t2 source handle backup).2).

(** [move_bootstrap_capability] of task/builtin/idle_task.cc: the result, the
    two handle variables, the hooks and both tables. *)
Definition move_bootstrap_capability (source destination : table) (source_handle destination_handle : Z)
    (take_alloc reserve_alloc : bool) : bool * Z * Z * list cap_event * table * table :=
  if (source_handle =? HANDLE_INVALID) || negb (destination_handle =? HANDLE_INVALID)
  then (false, source_handle, destination_handle, [], source, destination)
  else
    let ds := [Build_disposition source_handle RESOURCE_MOVE 0 0 0] in
    let '(status, rs, taken_events, source1) :=
      take_native_batch source (Dispositions ds) HANDLE_INVALID take_alloc in
    if negb (status_ok status) then (false, source_handle, destination_handle, taken_events, source1, destination)
    else
      let '(status1, handles, destination1) := reserve_native destination 1 reserve_alloc in
      let r := match rs with rec :: _ => c_resource rec | [] => empty_resource end in
      let handle := match handles with h :: _ => h | [] => HANDLE_INVALID end in
      let '(status2, r', activated, destination2) :=
        if status_ok status1 then activate_native destination1 handle r
        else (status1, r, [], destination1) in
      let rs' := match rs with
                 | rec :: rest => Build_record (c_source rec) (c_moved rec) r' (c_token rec) :: rest
                 | [] => []
                 end in
      if negb (status_ok status2) then
        let destination3 := rollback_native destination2 handles in
        let '(_, _, restored, source2) := restore_native_batch source1 rs' in
        (false, source_handle, destination_handle, taken_events ++ activated ++ restored, source2, destination3)
      else
        let '(_, source2) := commit_native_batch source1 rs' in
        (true, HANDLE_INVALID, handle, taken_events ++ activated, source2, destination2).
End table.
