(* ===== verification/ResourceFacts.v ===== *)
(** The correctness of the capability table of ResourceTable.v, for every hash
    map that satisfies [HandleMapLaws]: the table invariant with the entry
    count and the hook accounting over all reachable states, handles that are
    never issued twice, atomic failures, the restrict transaction, batches
    that restore the table exactly, and authority that only shrinks. *)
From stdpp Require Import base list numbers gmap.
From S2P Require Import Prelude Abi Capability ResourceTable.

Local Open Scope Z_scope.
Set Default Proof Using "Type".

Section facts.
Context {M : Type} `{HandleMapLaws M}.
Variable unique : object → bool.

Abbreviation table := (resource_table M).

Definition model (t : table) : gmap Z entry := hm_model (native_handle_map t).

(** ** The invariant *)

(** Handles below the limit have been issued; after 2^64 - 1 handles the
    counter is 0 and none is issued any more. *)
Definition handle_limit (next : Z) : Z := if next =? 0 then 2 ^ 64 else next.

Definition issued (next h : Z) : Prop := 0 < h < handle_limit next.

Definition entry_wf (next k : Z) (e : entry) : Prop :=
  issued next k ∧ e_generation e = k ∧ (e_state e = reserved ↔ e_object e = None).

(** [nodes] are the nodes detached by the transfers in flight. *)
Record table_wf (t : table) (nodes : list (Z * entry)) : Prop := Build_table_wf {
  tw_next : 0 ≤ next_native_handle t < 2 ^ 64;
  tw_entries : ∀ k e, model t !! k = Some e → entry_wf (next_native_handle t) k e;
  tw_nodes : ∀ k e, (k, e) ∈ nodes →
    entry_wf (next_native_handle t) k e ∧ e_state e = active ∧ model t !! k = None;
  tw_nodup : NoDup nodes.*1;
  tw_count : native_entry_count t = Z.of_nat (size (model t)) + Z.of_nat (length nodes);
  tw_max : native_entry_count t ≤ CAPABILITY_MAX_PER_PROCESS;
}.

(** The number of table entries that hold object [o]. *)
Definition holds (o : object) (e : entry) : Z := if decide (e_object e = Some o) then 1 else 0.
Definition roots (m : gmap Z entry) (o : object) : Z :=
  Z.of_nat (size (filter (λ ke, e_object ke.2 = Some o) m)).

Lemma roots_empty o : roots ∅ o = 0.
Proof. unfold roots. by rewrite map_filter_empty, map_size_empty. Qed.

Lemma roots_delete m k e o : m !! k = Some e → roots (delete k m) o = roots m o - holds o e.
Proof.
  intros Hk. unfold roots, holds. rewrite map_filter_delete. case_decide as Ho.
  - assert (filter (λ ke : Z * entry, e_object ke.2 = Some o) m !! k = Some e) as Hf
      by by apply map_lookup_filter_Some.
    rewrite map_size_delete_Some by done.
    assert (size (filter (λ ke : Z * entry, e_object ke.2 = Some o) m) ≠ 0%nat); [|lia].
    apply map_size_ne_0_lookup_2 with k. done.
  - rewrite map_size_delete_None; [lia|]. apply map_lookup_filter_None. right.
    intros e' Hk'. simplify_eq. done.
Qed.

Lemma roots_insert m k e o : m !! k = None → roots (<[k := e]> m) o = roots m o + holds o e.
Proof.
  intros Hk. rewrite <- (delete_id m k Hk) at 2. pose proof (roots_delete (<[k := e]> m) k e o) as Hd.
  rewrite lookup_insert_eq, delete_insert_eq in Hd. rewrite Hd by done. lia.
Qed.

Lemma roots_update m k e e' o :
  m !! k = Some e → roots (<[k := e']> m) o = roots m o - holds o e + holds o e'.
Proof.
  intros Hk. rewrite <- insert_delete_eq, roots_insert by apply lookup_delete_eq.
  by rewrite (roots_delete m k e).
Qed.

Lemma issued_next n h : 0 < n < 2 ^ 64 → issued n h → issued (u64 (n + 1)) h.
Proof.
  unfold issued, handle_limit. intros Hn Hh. rewrite (proj2 (Z.eqb_neq n 0)) in Hh by lia.
  destruct (decide (n = 2 ^ 64 - 1)) as [->|]; [simpl; lia|].
  rewrite u64_small by lia. rewrite (proj2 (Z.eqb_neq (n + 1) 0)) by lia. lia.
Qed.

Lemma issued_self n : 0 < n < 2 ^ 64 → issued (u64 (n + 1)) n.
Proof.
  unfold issued, handle_limit. intros Hn.
  destruct (decide (n = 2 ^ 64 - 1)) as [->|]; [simpl; lia|].
  rewrite u64_small by lia. rewrite (proj2 (Z.eqb_neq (n + 1) 0)) by lia. lia.
Qed.

Lemma not_issued_self n : 0 < n → ¬ issued n n.
Proof. unfold issued, handle_limit. intros Hn. rewrite (proj2 (Z.eqb_neq n 0)); lia. Qed.

Lemma entry_wf_next n k e : 0 < n < 2 ^ 64 → entry_wf n k e → entry_wf (u64 (n + 1)) k e.
Proof. intros Hn (Hk & Hg & Hs). split; [by apply issued_next|done]. Qed.

(** ** The three primitive changes *)

Lemma allocate_spec t nodes :
  table_wf t nodes →
  (allocate_native_handle_locked t = (HANDLE_INVALID, t)) ∨
  (0 < next_native_handle t ∧ native_entry_count t < CAPABILITY_MAX_PER_PROCESS ∧
   model t !! next_native_handle t = None ∧
   allocate_native_handle_locked t =
     (next_native_handle t, with_next (u64 (next_native_handle t + 1)) t)).
Proof.
  intros Hwf. unfold allocate_native_handle_locked. pose proof (tw_next t nodes Hwf).
  destruct (Z.leb_spec CAPABILITY_MAX_PER_PROCESS (native_entry_count t)); [by left|].
  destruct (Z.eqb_spec (next_native_handle t) HANDLE_INVALID) as [|Hn]; [by left|].
  unfold HANDLE_INVALID in *. right. split_and!; try done; [lia|].
  destruct (model t !! next_native_handle t) as [e|] eqn:He; [|done].
  apply (tw_entries t nodes Hwf) in He as [Hi _]. by apply not_issued_self in Hi; [|lia].
Qed.

(** The table with entry [e] added under a newly allocated handle. *)
Definition added (t : table) (e : entry) : table :=
  count_up (insert_entry (next_native_handle t) e (with_next (u64 (next_native_handle t + 1)) t)).

Lemma added_wf t nodes e :
  table_wf t nodes → 0 < next_native_handle t → native_entry_count t < CAPABILITY_MAX_PER_PROCESS →
  model t !! next_native_handle t = None →
  e_generation e = next_native_handle t → (e_state e = reserved ↔ e_object e = None) →
  table_wf (added t e) nodes ∧ model (added t e) = <[next_native_handle t := e]> (model t).
Proof.
  intros Hwf Hn Hc Hk Hg Hs. pose proof (tw_next t nodes Hwf) as Hnext.
  assert (model (added t e) = <[next_native_handle t := e]> (model t)) as Hm by by apply hm_model_insert.
  split; [|done]. destruct Hwf as [? Hent Hnodes Hnd Hcount Hmax].
  split; rewrite ?Hm; cbn [added count_up with_count insert_entry with_map with_next
    next_native_handle native_entry_count].
  - apply u64_range.
  - intros k e' [[<- <-]|[Hne He]]%lookup_insert_Some.
    + split; [apply issued_self; lia|done].
    + apply entry_wf_next; [lia|]. by apply Hent.
  - intros k e' (Hw & Ha & Hno)%Hnodes. split_and!; [apply entry_wf_next; [lia|done]|done|].
    rewrite lookup_insert_ne; [done|]. intros <-. destruct Hw as [Hi _].
    by apply not_issued_self in Hi.
  - done.
  - rewrite map_size_insert_None by done. unfold CAPABILITY_MAX_PER_PROCESS in *. rewrite u64_small; lia.
  - unfold CAPABILITY_MAX_PER_PROCESS in *. rewrite u64_small; lia.
Qed.

(** The table without the entry of [k]. *)
Lemma removed_wf t nodes k e :
  table_wf t nodes → model t !! k = Some e →
  table_wf (count_down (remove_entry k t)) nodes ∧
  model (count_down (remove_entry k t)) = delete k (model t).
Proof.
  intros [Hnext Hent Hnodes Hnd Hcount Hmax] Hk.
  assert (model (count_down (remove_entry k t)) = delete k (model t)) as Hm by apply hm_model_remove.
  split; [|done]. assert (size (model t) ≠ 0%nat) by (by apply map_size_ne_0_lookup_2 with k).
  assert (native_entry_count (count_down (remove_entry k t)) = native_entry_count t - 1) as Hc.
  { simpl. unfold CAPABILITY_MAX_PER_PROCESS in *. rewrite u64_small; lia. }
  split; rewrite ?Hm, ?Hc; try done.
  - intros k' e' [Hne He]%lookup_delete_Some. by apply Hent.
  - intros k' e' (Hw & Ha & Hno)%Hnodes. split_and!; try done. by rewrite lookup_delete_None; right.
  - rewrite map_size_delete_Some by done. lia.
  - lia.
Qed.

(** The table with the entry of [k] overwritten. *)
Lemma set_wf t nodes k e e' :
  table_wf t nodes → model t !! k = Some e →
  e_generation e' = e_generation e → (e_state e' = reserved ↔ e_object e' = None) →
  table_wf (set_entry k e' t) nodes ∧ model (set_entry k e' t) = <[k := e']> (model t).
Proof.
  intros [Hnext Hent Hnodes Hnd Hcount Hmax] Hk Hg Hs.
  assert (model (set_entry k e' t) = <[k := e']> (model t)) as Hm by (by apply hm_model_set; eexists).
  split; [|done]. split; rewrite ?Hm; try done.
  - intros k' e'' [[<- <-]|[Hne He]]%lookup_insert_Some; [|by apply Hent].
    destruct (Hent k e Hk) as (Hi & Hgen & _). split_and!; [done|congruence|done..].
  - intros k' e'' (Hw & Ha & Hno)%Hnodes. split_and!; try done.
    rewrite lookup_insert_ne; [done|]. intros <-. congruence.
  - by rewrite map_size_insert_Some.
Qed.

Lemma lookup_native_spec t h e :
  lookup_native t h = Some e ↔ model t !! h = Some e ∧ e_state e = active.
Proof.
  unfold lookup_native, get_entry. rewrite hm_model_get. fold (model t).
  destruct (model t !! h) as [e'|]; [|by split; [|intros []]].
  case_bool_decide; split; [intros; simplify_eq; done|intros []; by simplify_eq|done|intros []; by simplify_eq].
Qed.

Lemma get_entry_model t h : get_entry t h = model t !! h.
Proof. apply hm_model_get. Qed.

Lemma table_wf_perm t nodes nodes' : nodes ≡ₚ nodes' → table_wf t nodes → table_wf t nodes'.
Proof.
  intros Hp [Hnext Hent Hnodes Hnd Hcount Hmax]. split; try done.
  - intros k e He. apply Hnodes. by rewrite Hp.
  - by rewrite <- Hp.
  - by rewrite <- Hp.
Qed.

(** ** Detaching and attaching nodes *)

Lemma detached_wf t nodes k e :
  table_wf t nodes → model t !! k = Some e → e_state e = active →
  let t' := with_map (hm_detach (native_handle_map t) k).2 t in
  table_wf t' ((k, e) :: nodes) ∧ model t' = delete k (model t).
Proof.
  intros Hwf Hk Ha t'. destruct (hm_detach_some _ _ _ Hk) as [_ Hm'].
  assert (model t' = delete k (model t)) as Hm by done. split; [|done].
  destruct Hwf as [Hnext Hent Hnodes Hnd Hcount Hmax].
  assert (size (model t) ≠ 0%nat) by (by apply map_size_ne_0_lookup_2 with k).
  split; rewrite ?Hm; try done.
  - intros k' e' [Hne He]%lookup_delete_Some. by apply Hent.
  - intros k' e' [[= -> ->]|Hin]%elem_of_cons.
    + split_and!; [by apply Hent|done|apply lookup_delete_eq].
    + apply Hnodes in Hin as (Hw & Ha' & Hno). split_and!; try done. by rewrite lookup_delete_None; right.
  - csimpl. apply NoDup_cons. split; [|done]. intros ([k' e'] & Heq & Hin)%list_elem_of_fmap.
    simpl in Heq. subst k'. apply Hnodes in Hin as (_ & _ & Hno). congruence.
  - rewrite map_size_delete_Some by done. simpl. rewrite Hcount. lia.
Qed.

Lemma attached_wf t nodes k e :
  table_wf t ((k, e) :: nodes) →
  let t' := with_map (hm_attach (native_handle_map t) k e).2 t in
  (hm_attach (native_handle_map t) k e).1 = true ∧
  table_wf t' nodes ∧ model t' = <[k := e]> (model t) ∧ model t !! k = None.
Proof.
  intros [Hnext Hent Hnodes Hnd Hcount Hmax] t'.
  destruct (Hnodes k e ltac:(left)) as (Hw & Ha & Hk).
  destruct (hm_attach_none _ _ e Hk) as [Hok Hm'].
  assert (model t' = <[k := e]> (model t)) as Hm by done. split_and!; [done| |done|done].
  csimpl in Hnd. apply NoDup_cons in Hnd as [Hnin Hnd].
  split; rewrite ?Hm; try done.
  - intros k' e' [[<- <-]|[Hne He]]%lookup_insert_Some; [done|by apply Hent].
  - intros k' e' Hin. destruct (Hnodes k' e') as (Hw' & Ha' & Hno); [by right|]. split_and!; try done.
    rewrite lookup_insert_ne; [done|]. intros <-. apply Hnin. apply list_elem_of_fmap. by exists (k, e').
  - rewrite map_size_insert_None by done. simpl in *. rewrite Hcount. lia.
Qed.

(** ** Taking a batch *)

(** What the first loop has checked of a disposition and its snapshot. *)
Definition snapshot_of (m : gmap Z entry) (d : disposition) (snapshot : entry) : Prop :=
  ∃ found obj,
    m !! d_handle d = Some found ∧ e_state found = active ∧ e_object found = Some obj ∧
    e_object snapshot = Some obj ∧ e_state snapshot = active ∧
    no_flag_outside (m_meta_rights (e_meta snapshot)) (m_meta_rights (e_meta found)) = true ∧
    m_protocol_rights (e_meta snapshot) = m_protocol_rights (e_meta found) ∧
    has_flag (m_meta_rights (e_meta found)) RIGHT_TRANSFER = true ∧
    (d_operation d = RESOURCE_MOVE ∨
     (d_operation d = RESOURCE_DUPLICATE ∧ has_flag (m_meta_rights (e_meta found)) RIGHT_DUPLICATE = true ∧
       unique obj = false)) ∧
    d_handle d ≠ HANDLE_INVALID.

Lemma check_disposition_spec t earlier target d snapshot :
  check_disposition unique t earlier target d = inr snapshot →
  snapshot_of (model t) d snapshot ∧ (d_handle d ∉ earlier) ∧ d_handle d ≠ target.
Proof.
  unfold check_disposition.
  destruct (Z.eqb_spec (d_handle d) HANDLE_INVALID); [done|].
  destruct (negb (d_flags d =? 0)); [done|]. simpl.
  destruct (Z.eqb_spec (d_handle d) target); [done|].
  destruct (existsb _ earlier) eqn:Hex; [done|].
  destruct (lookup_native t (d_handle d)) as [found|] eqn:Hl; [|done].
  apply lookup_native_spec in Hl as [Hk Ha].
  destruct (e_object found) as [obj|] eqn:Ho; [|done].
  destruct (negb (d_operation d =? RESOURCE_MOVE) && negb (d_operation d =? RESOURCE_DUPLICATE)) eqn:Hop; [done|].
  destruct (has_flag (m_meta_rights (e_meta found)) RIGHT_TRANSFER) eqn:Htr; [|done]. cbn [negb].
  destruct ((d_operation d =? RESOURCE_DUPLICATE) && _) eqn:Hdup; [done|].
  destruct (no_flag_outside _ _) eqn:Hr; [|done]. cbn [negb].
  destruct (negb (d_scope d =? 0) && negb (d_scope d =? m_scope (e_meta found))) eqn:Hsc; [done|].
  intros [= <-]. split_and!; [|intros Hin|done].
  - exists found, obj. rewrite Hk. split_and!; try done.
    + by destruct (negb (d_scope d =? 0)).
    + by destruct (negb (d_scope d =? 0)).
    + destruct (Z.eqb_spec (d_operation d) RESOURCE_MOVE) as [->|]; [by left|]. right.
      destruct (Z.eqb_spec (d_operation d) RESOURCE_DUPLICATE) as [->|]; [|done].
      simpl in Hdup. apply orb_false_iff in Hdup as [H1 H2]. by apply negb_false_iff in H1.
  - apply Bool.not_true_iff_false in Hex. apply Hex. apply existsb_exists.
    exists (d_handle d). split; [by apply list_elem_of_In|apply Z.eqb_refl].
Qed.

Lemma snapshot_loop_spec t earlier target ds items :
  snapshot_loop unique t earlier target ds = inr items →
  items.*1 = ds ∧ Forall (λ ds, snapshot_of (model t) ds.1 ds.2) items ∧
  NoDup (d_handle <$> ds) ∧ Forall (λ d, d_handle d ∉ earlier) ds.
Proof.
  revert earlier items. induction ds as [|d ds IH]; intros earlier items; simpl.
  { intros [= <-]. split_and!; try done; constructor. }
  destruct (check_disposition unique t earlier target d) as [|snapshot] eqn:Hc; [done|].
  destruct (snapshot_loop unique t (earlier ++ [d_handle d]) target ds) as [|rest] eqn:Hl; [done|].
  intros [= <-]. apply check_disposition_spec in Hc as (Hs & Hne & _).
  destruct (IH _ _ Hl) as (<- & Hf & Hnd & Hfr). csimpl. split_and!; [done|by constructor| |].
  - apply NoDup_cons. split; [|done]. intros (d' & Heq & Hin)%list_elem_of_fmap.
    rewrite Forall_forall in Hfr. apply (Hfr d' Hin). rewrite <- Heq, elem_of_app. right. by left.
  - constructor; [done|]. eapply Forall_impl; [exact Hfr|]. simpl. intros d' Hd Hin.
    apply Hd. rewrite elem_of_app. by left.
Qed.

(** The outcome of the second loop on one item: a moved entry's node is the
    table's own entry. *)
Definition take_item (m : gmap Z entry) (item : disposition * entry) : taken :=
  (item.1, item.2,
   if d_operation item.1 =? RESOURCE_MOVE then (λ e, (d_handle item.1, e)) <$> m !! d_handle item.1
   else None).

#[local] Arguments take_item : simpl never.
#[local] Arguments record_of : simpl never.

Definition item_nodes (items : list taken) : list (Z * entry) := omap snd items.

(** The nodes of the moved items, and the map without them. *)
Definition moved_nodes (m : gmap Z entry) (items : list (disposition * entry)) : list (Z * entry) :=
  item_nodes (take_item m <$> items).
Definition without_moved (m : gmap Z entry) (nodes : list (Z * entry)) : gmap Z entry :=
  foldl (λ m k, delete k m) m nodes.*1.

Lemma move_assign_same (o : khandle) : move_assign o o = (o, o).
Proof. unfold move_assign. by rewrite decide_True. Qed.

Lemma with_object_same e o : e_object e = o → with_object o e = e.
Proof. destruct e. simpl. by intros ->. Qed.

Lemma take_item_move m d s e :
  m !! d_handle d = Some e → d_operation d = RESOURCE_MOVE →
  take_item m (d, s) = (d, s, Some (d_handle d, e)).
Proof. unfold take_item. simpl. by intros -> ->. Qed.

Lemma take_item_keep m d s : d_operation d ≠ RESOURCE_MOVE → take_item m (d, s) = (d, s, None).
Proof. unfold take_item. simpl. by intros ->%Z.eqb_neq. Qed.

Lemma moved_nodes_move m d s e items :
  m !! d_handle d = Some e → d_operation d = RESOURCE_MOVE →
  moved_nodes m ((d, s) :: items) = (d_handle d, e) :: moved_nodes m items.
Proof.
  intros He Hop. unfold moved_nodes, item_nodes. rewrite fmap_cons. by rewrite (take_item_move m d s e).
Qed.

Lemma moved_nodes_keep m d s items :
  d_operation d ≠ RESOURCE_MOVE → moved_nodes m ((d, s) :: items) = moved_nodes m items.
Proof.
  intros Hop. unfold moved_nodes, item_nodes. rewrite fmap_cons. by rewrite (take_item_keep m d s).
Qed.

Lemma snapshot_of_delete m k d s :
  d_handle d ≠ k → snapshot_of m d s → snapshot_of (delete k m) d s.
Proof.
  intros Hne (found & obj & Hk & Hrest). exists found, obj. by rewrite lookup_delete_ne.
Qed.

Lemma take_item_delete m k items :
  k ∉ (d_handle <$> items.*1) → take_item (delete k m) <$> items = take_item m <$> items.
Proof.
  intros Hk. apply list_fmap_ext. intros i [d s] Hi. unfold take_item. simpl.
  case_match; [|done]. rewrite lookup_delete_ne; [done|].
  intros ->. apply Hk. apply list_elem_of_fmap. exists d. split; [done|].
  apply list_elem_of_fmap. exists (d, s). split; [done|]. by apply list_elem_of_lookup_2 with i.
Qed.

Lemma detach_loop_spec items t nodes done_items :
  table_wf t nodes → Forall (λ ds, snapshot_of (model t) ds.1 ds.2) items →
  NoDup (d_handle <$> items.*1) →
  ∃ t', detach_loop t items done_items = (Some (done_items ++ (take_item (model t) <$> items)), t') ∧
    table_wf t' (moved_nodes (model t) items ++ nodes) ∧
    model t' = without_moved (model t) (moved_nodes (model t) items) ∧
    next_native_handle t' = next_native_handle t ∧ native_entry_count t' = native_entry_count t ∧
    rt_id t' = rt_id t.
Proof.
  revert t nodes done_items. induction items as [|[d s] items IH]; intros t nodes done_items Hwf Hall Hnd.
  { exists t. csimpl. by rewrite app_nil_r. }
  apply Forall_cons in Hall as [Hs Hall]. csimpl in Hnd. apply NoDup_cons in Hnd as [Hnin Hnd].
  pose proof Hs as (found & obj & Hk & Ha & Ho & Hso & _). simpl in Hk, Hso.
  cbn [detach_loop]. rewrite fmap_cons.
  destruct (Z.eqb_spec (d_operation d) RESOURCE_MOVE) as [Hop|Hop].
  - rewrite (take_item_move _ d s found), (moved_nodes_move _ d s found) by done.
    destruct (detached_wf t nodes (d_handle d) found Hwf Hk Ha) as [Hwf1 Hm1].
    destruct (hm_detach_some _ _ _ Hk) as [Hd _].
    destruct (hm_detach (native_handle_map t) (d_handle d)) as [node m'] eqn:Hdet. simpl in Hd, Hwf1, Hm1.
    subst node. rewrite Hso, Ho, move_assign_same, !with_object_same by done.
    destruct (IH (with_map m' t) ((d_handle d, found) :: nodes)
                (done_items ++ [(d, s, Some (d_handle d, found))])) as (t' & Hl & Hwf' & Hm' & Hrest).
    { done. }
    { rewrite Hm1. apply Forall_forall. intros [d' s'] Hin. apply snapshot_of_delete.
      - simpl. intros Heq. apply Hnin. rewrite <- Heq. apply list_elem_of_fmap. exists d'. split; [done|].
        apply list_elem_of_fmap. by exists (d', s').
      - rewrite Forall_forall in Hall. by apply (Hall (d', s')). }
    { done. }
    exists t'. unfold moved_nodes in *. rewrite Hm1, take_item_delete in Hl, Hwf', Hm' by done.
    rewrite Hl, <- app_assoc. split_and!; try apply Hrest; try done.
    + eapply table_wf_perm; [|exact Hwf']. symmetry. apply Permutation_middle.
  - rewrite (take_item_keep _ d s), moved_nodes_keep by done.
    destruct (IH t nodes (done_items ++ [(d, s, None)])) as (t' & Hl & Hrest); [done..|].
    exists t'. rewrite Hl, <- app_assoc. done.
Qed.

Lemma check_disposition_fails t earlier target d status :
  check_disposition unique t earlier target d = inl status → status ≠ STATUS_OK.
Proof. unfold check_disposition. repeat case_match; intros; simplify_eq; done. Qed.

Lemma snapshot_loop_fails t earlier target ds status :
  snapshot_loop unique t earlier target ds = inl status → status ≠ STATUS_OK.
Proof.
  revert earlier. induction ds as [|d ds IH]; intros earlier; simpl; [done|].
  destruct (check_disposition unique t earlier target d) eqn:Hc.
  { intros [= <-]. by eapply check_disposition_fails. }
  destruct (snapshot_loop unique t _ target ds) eqn:Hl; [|done]. intros [= <-]. by eapply IH.
Qed.

(** What a successful take of [ds] has done: its [items] are the dispositions
    with their checked snapshots. *)
Record take_outcome (t : table) (nodes : list (Z * entry)) (items : list (disposition * entry))
    (rs : list transfer_record) (ev : list cap_event) (t' : table) : Prop := Build_take_outcome {
  to_items : Forall (λ ds, snapshot_of (model t) ds.1 ds.2) items;
  to_nodup : NoDup (d_handle <$> items.*1);
  to_records : rs = (record_of (rt_id t) <$> (take_item (model t) <$> items)).*1;
  to_events : ev = concat (record_of (rt_id t) <$> (take_item (model t) <$> items)).*2;
  to_wf : table_wf t' (moved_nodes (model t) items ++ nodes);
  to_model : model t' = without_moved (model t) (moved_nodes (model t) items);
  to_next : next_native_handle t' = next_native_handle t;
  to_count : native_entry_count t' = native_entry_count t;
  to_id : rt_id t' = rt_id t;
}.

Lemma take_native_batch_spec t nodes da target alloc :
  table_wf t nodes →
  let '(status, rs, ev, t') := take_native_batch unique t da target alloc in
  (status ≠ STATUS_OK ∧ rs = [] ∧ ev = [] ∧ t' = t) ∨
  (status = STATUS_OK ∧ ∃ items, take_outcome t nodes items rs ev t').
Proof.
  intros Hwf. unfold take_native_batch. destruct da as [count|ds].
  { destruct (_ || _); [by left|]. right. split; [done|]. exists [].
    split; try done; constructor. }
  destruct (_ <? _); [by left|]. destruct (_ && _); [by left|].
  destruct (snapshot_loop unique t [] target ds) as [status|items] eqn:Hl.
  { left. split; [|done]. by eapply snapshot_loop_fails. }
  apply snapshot_loop_spec in Hl as (<- & Hs & Hnd & _).
  destruct (detach_loop_spec items t nodes [] Hwf Hs Hnd) as (t' & -> & Hwf' & Hm & Hn & Hc & Hid).
  right. split; [done|]. by exists items.
Qed.

(** ** Records in flight *)

Definition batch_nodes (rs : list transfer_record) : list (Z * entry) :=
  omap (λ r, if c_moved r then k_slot (c_token r) else None) rs.

Lemma batch_nodes_moved r rs n :
  c_moved r = true → k_slot (c_token r) = Some n → batch_nodes (r :: rs) = n :: batch_nodes rs.
Proof. intros Hm Hs. unfold batch_nodes. simpl. by rewrite Hm, Hs. Qed.

Lemma batch_nodes_kept r rs : c_moved r = false → batch_nodes (r :: rs) = batch_nodes rs.
Proof. intros Hm. unfold batch_nodes. simpl. by rewrite Hm. Qed.

(** A record as [take_native_batch] made it. *)
Definition record_wf (id : Z) (r : transfer_record) : Prop :=
  ∃ o m, c_resource r = Build_transferred (Some o) m true ∧
    if c_moved r
    then ∃ e, c_token r = Build_token (Some id) (Some (c_source r, e)) None ∧ e_object e = Some o
    else c_token r = empty_token.

Lemma record_of_move id m d s found obj :
  m !! d_handle d = Some found → d_operation d = RESOURCE_MOVE → e_object s = Some obj →
  record_of id (take_item m (d, s)) =
    (Build_record (d_handle d) true (Build_transferred (Some obj) (e_meta s) true)
       (Build_token (Some id) (Some (d_handle d, found)) None),
     [Acquire obj in_transit; Handoff obj table_root in_transit]).
Proof.
  intros Hk Hop Ho. rewrite (take_item_move m d s found) by done. unfold record_of. by rewrite Hop, Ho.
Qed.

Lemma record_of_keep id m d s obj :
  d_operation d ≠ RESOURCE_MOVE → e_object s = Some obj →
  record_of id (take_item m (d, s)) =
    (Build_record (d_handle d) false (Build_transferred (Some obj) (e_meta s) true) empty_token,
     [Acquire obj in_transit]).
Proof.
  intros Hop Ho. rewrite (take_item_keep m d s) by done. unfold record_of.
  by rewrite (proj2 (Z.eqb_neq _ _) Hop), Ho.
Qed.

Lemma record_of_wf id m d s :
  snapshot_of m d s → record_wf id (record_of id (take_item m (d, s))).1.
Proof.
  intros (found & obj & Hk & Ha & Ho & Hso & _). exists obj, (e_meta s).
  destruct (decide (d_operation d = RESOURCE_MOVE)) as [Hop|Hop].
  - rewrite (record_of_move id m d s found obj) by done. split; [done|]. by exists found.
  - by rewrite (record_of_keep id m d s obj) by done.
Qed.

Lemma records_wf id m items :
  Forall (λ ds, snapshot_of m ds.1 ds.2) items →
  Forall (record_wf id) (record_of id <$> (take_item m <$> items)).*1.
Proof.
  induction 1 as [|[d s] items Hs _ IH]; csimpl; constructor; [by apply record_of_wf|done].
Qed.

Lemma batch_nodes_records id m items :
  Forall (λ ds, snapshot_of m ds.1 ds.2) items →
  batch_nodes (record_of id <$> (take_item m <$> items)).*1 = moved_nodes m items.
Proof.
  induction 1 as [|[d s] items (found & obj & Hk & _ & _ & Hso & _) _ IH]; [done|].
  rewrite !fmap_cons. unfold batch_nodes in *. simpl in Hk, Hso.
  destruct (decide (d_operation d = RESOURCE_MOVE)) as [Hop|Hop].
  - rewrite (moved_nodes_move m d s found), (record_of_move id m d s found obj) by done. csimpl.
    by rewrite IH.
  - rewrite moved_nodes_keep, (record_of_keep id m d s obj) by done. done.
Qed.

(** ** Accounting of a take *)

Lemma without_moved_lookup m nodes k :
  without_moved m nodes !! k = if decide (k ∈ nodes.*1) then None else m !! k.
Proof.
  unfold without_moved. revert m. induction nodes as [|[k' e'] nodes IH]; intros m; csimpl; [done|].
  rewrite IH. destruct (decide (k ∈ nodes.*1)) as [Hin|Hnin].
  - rewrite decide_True by (by right). done.
  - destruct (decide (k = k')) as [->|Hne].
    + rewrite lookup_delete_eq. rewrite decide_True by left. done.
    + rewrite lookup_delete_ne by done. rewrite decide_False; [done|].
      by rewrite not_elem_of_cons.
Qed.

Lemma roots_without_moved m nodes o :
  (∀ k e, (k, e) ∈ nodes → m !! k = Some e) → NoDup nodes.*1 →
  roots (without_moved m nodes) o = roots m o - sum_Z (holds o <$> nodes.*2).
Proof.
  unfold without_moved. revert m. induction nodes as [|[k e] nodes IH]; intros m Hin Hnd; csimpl.
  { lia. }
  csimpl in Hnd. apply NoDup_cons in Hnd as [Hnin Hnd]. rewrite IH; [|intros k' e' Hin'|done].
  - rewrite (roots_delete m k e); [lia|]. apply Hin. left.
  - rewrite lookup_delete_ne; [apply Hin; by right|]. intros ->. apply Hnin.
    apply list_elem_of_fmap. by exists (k', e').
Qed.

Lemma moved_nodes_in m items k e : (k, e) ∈ moved_nodes m items → m !! k = Some e.
Proof.
  unfold moved_nodes, item_nodes. rewrite list_elem_of_omap. intros (it & Hit & Hsnd).
  apply list_elem_of_fmap in Hit as ([d s] & -> & _). unfold take_item in Hsnd. simpl in Hsnd.
  case_match; [|done]. destruct (m !! d_handle d) eqn:Hm; simplify_eq/=. done.
Qed.

Lemma moved_nodes_nodup t nodes m items : table_wf t (moved_nodes m items ++ nodes) → NoDup (moved_nodes m items).*1.
Proof. intros Hwf. pose proof (tw_nodup _ _ Hwf) as Hnd. rewrite fmap_app in Hnd. by apply NoDup_app in Hnd as [? _]. Qed.

Lemma take_events_roots t nodes items rs ev t' o :
  take_outcome t nodes items rs ev t' →
  net o table_root ev = roots (model t') o - roots (model t) o.
Proof.
  intros [Hs Hnd -> -> Hwf Hm _ _ _]. rewrite Hm, roots_without_moved;
    [|apply moved_nodes_in|by eapply moved_nodes_nodup].
  enough (net o table_root (concat (record_of (rt_id t) <$> (take_item (model t) <$> items)).*2) =
          - sum_Z (holds o <$> (moved_nodes (model t) items).*2)) by lia.
  clear -Hs. induction Hs as [|[d s] items (found & obj & Hk & _ & Ho & Hso & _) _ IH]; [done|].
  rewrite !fmap_cons. simpl in Hk, Hso. csimpl. rewrite net_app, IH.
  destruct (decide (d_operation d = RESOURCE_MOVE)) as [Hop|Hop].
  - rewrite (moved_nodes_move _ d s found), (record_of_move _ _ d s found obj) by done. csimpl.
    rewrite !net_cons, net_nil. unfold holds at 2. rewrite Ho. held.
  - rewrite moved_nodes_keep, (record_of_keep _ _ d s obj) by done. csimpl.
    rewrite net_cons, net_nil. held.
Qed.

(** ** Restoring a batch *)

Definition restored_record (r : transfer_record) : transfer_record :=
  if c_moved r then
    Build_record (c_source r) true (Build_transferred None (t_meta (c_resource r)) false)
      (Build_token (k_context (c_token r)) None (t_object (c_resource r)))
  else r.

Lemma restorable_wf t nodes rs :
  Forall (record_wf (rt_id t)) rs → table_wf t (batch_nodes rs ++ nodes) →
  forallb (restorable t) rs = true.
Proof.
  intros Hrs Hwf. apply forallb_forall. intros r Hin%list_elem_of_In. rewrite Forall_forall in Hrs.
  destruct (Hrs r Hin) as (o & m & Hres & Hr). unfold restorable.
  destruct (c_moved r) eqn:Hmv; [|done]. destruct Hr as (e & Htok & Ho).
  destruct (tw_nodes _ _ Hwf (c_source r) e) as (Hw & Ha & Hno).
  { apply elem_of_app. left. unfold batch_nodes. apply list_elem_of_omap. exists r. rewrite Hmv, Htok. done. }
  rewrite Htok, Hres. unfold belongs_to, resource_valid. simpl.
  rewrite get_entry_model, Hno, !bool_decide_eq_true_2 by done.
  rewrite (proj2 (Z.eqb_neq _ _)); [done|]. destruct Hw as [[? _] _]. unfold HANDLE_INVALID. lia.
Qed.

Lemma attach_loop_spec rs t nodes :
  Forall (record_wf (rt_id t)) rs → table_wf t (batch_nodes rs ++ nodes) →
  ∃ t', attach_loop t rs = (true, restored_record <$> rs, t') ∧ table_wf t' nodes ∧
    model t' = list_to_map (batch_nodes rs) ∪ model t ∧
    next_native_handle t' = next_native_handle t ∧ native_entry_count t' = native_entry_count t ∧
    rt_id t' = rt_id t.
Proof.
  revert t. induction rs as [|r rs IH]; intros t Hrs Hwf.
  { exists t. csimpl. by rewrite (left_id_L ∅ (∪)). }
  apply Forall_cons in Hrs as [(o & m & Hres & Hr) Hrs]. rewrite fmap_cons.
  unfold restored_record at 1. cbn [attach_loop]. destruct (c_moved r) eqn:Hmv.
  - destruct Hr as (e & Htok & Ho).
    rewrite (batch_nodes_moved r rs (c_source r, e)) in * by (done || by rewrite Htok).
    pose proof (tw_nodes _ _ Hwf (c_source r) e ltac:(left)) as (_ & Ha & _).
    destruct (attached_wf t (batch_nodes rs ++ nodes) (c_source r) e) as (Hat & Hwf1 & Hm1 & Hno); [done|].
    rewrite Htok. cbn [k_slot]. destruct (hm_attach _ _ _) as [att m'] eqn:Hatt. simpl in Hat, Hwf1, Hm1.
    subst att. cbn [negb]. rewrite Hres. cbn [take_object_without_callback t_object t_meta].
    rewrite Ho, move_assign_same. cbn [fst]. rewrite with_object_same by done.
    assert (with_state active e = e) as -> by (destruct e; simpl in *; by subst).
    destruct (set_wf (with_map m' t) (batch_nodes rs ++ nodes) (c_source r) e e) as [Hwf2 Hm2]; try done.
    { rewrite Hm1. apply lookup_insert_eq. }
    { rewrite Ha, Ho. done. }
    destruct (IH (set_entry (c_source r) e (with_map m' t)) Hrs Hwf2) as (t' & -> & Hwf' & Hm' & Hn & Hc & Hid).
    exists t'. rewrite Ho. split_and!; try done.
    rewrite Hm', Hm2, Hm1, insert_insert_eq. csimpl.
    rewrite <- insert_union_l. symmetry. apply insert_union_r. apply not_elem_of_list_to_map_1.
    pose proof (tw_nodup _ _ Hwf) as Hnd. csimpl in Hnd. apply NoDup_cons in Hnd as [Hnin _].
    rewrite fmap_app, not_elem_of_app in Hnin. by destruct Hnin.
  - rewrite batch_nodes_kept in * by done. destruct (IH t Hrs Hwf) as (t' & -> & Hrest). by exists t'.
Qed.

Lemma roots_union m nodes o :
  (∀ k e, (k, e) ∈ nodes → m !! k = None) → NoDup nodes.*1 →
  roots (list_to_map nodes ∪ m) o = roots m o + sum_Z (holds o <$> nodes.*2).
Proof.
  induction nodes as [|[k e] nodes IH]; intros Hno Hnd; csimpl.
  { rewrite (left_id_L ∅ (∪)). lia. }
  csimpl in Hnd. apply NoDup_cons in Hnd as [Hnin Hnd]. rewrite <- insert_union_l, roots_insert, IH; try done.
  - lia.
  - intros k' e' Hin. eapply Hno. by right.
  - apply lookup_union_None. split; [by apply not_elem_of_list_to_map_1|]. eapply Hno. left.
Qed.

(** The number of resources of [rs] that carry object [o]. *)
Definition carried (o : object) (rs : list transfer_record) : Z :=
  sum_Z ((λ r, if decide (t_object (c_resource r) = Some o) then 1 else 0) <$> rs).

Lemma restore_hooks_net id o rs :
  Forall (record_wf id) rs →
  let ev := concat (restore_hooks <$> (restored_record <$> rs)).*2 in
  net o table_root ev = sum_Z (holds o <$> (batch_nodes rs).*2) ∧
  net o in_transit ev = - carried o rs.
Proof.
  induction 1 as [|r rs (o' & m & Hres & Hr) _ [IH1 IH2]]; [done|].
  rewrite !fmap_cons. cbn [concat]. rewrite !net_app, IH1, IH2. unfold carried. rewrite fmap_cons, Hres.
  cbn [t_object]. unfold restored_record. destruct (c_moved r) eqn:Hmv.
  - destruct Hr as (e & Htok & Ho). rewrite (batch_nodes_moved r rs (c_source r, e)) by (done || by rewrite Htok).
    rewrite Hres. unfold restore_hooks. csimpl. rewrite !net_cons, !net_nil. unfold holds at 2.
    rewrite Ho. simpl. unfold sum_Z. split; held.
  - rewrite batch_nodes_kept by done. unfold restore_hooks. rewrite Hr, Hres. csimpl.
    rewrite !net_cons, !net_nil. unfold sum_Z. split; held.
Qed.

Lemma restore_native_batch_spec t nodes rs :
  Forall (record_wf (rt_id t)) rs → table_wf t (batch_nodes rs ++ nodes) →
  ∃ rs' ev t', restore_native_batch t rs = (STATUS_OK, rs', ev, t') ∧ table_wf t' nodes ∧
    model t' = list_to_map (batch_nodes rs) ∪ model t ∧
    next_native_handle t' = next_native_handle t ∧ native_entry_count t' = native_entry_count t ∧
    rt_id t' = rt_id t ∧
    (∀ o, net o table_root ev = roots (model t') o - roots (model t) o ∧
          net o in_transit ev = - carried o rs).
Proof.
  intros Hrs Hwf. unfold restore_native_batch. rewrite (restorable_wf t nodes rs) by done. cbn [negb].
  destruct (attach_loop_spec rs t nodes Hrs Hwf) as (t' & -> & Hwf' & Hm & Hn & Hc & Hid). cbn [negb].
  eexists _, _, t'. split; [reflexivity|]. split_and!; try done. intros o.
  destruct (restore_hooks_net (rt_id t) o rs Hrs) as [-> ->]. split; [|done].
  rewrite Hm, roots_union.
  - lia.
  - intros k e Hin. apply (tw_nodes _ _ Hwf k e). rewrite elem_of_app. by left.
  - pose proof (tw_nodup _ _ Hwf) as Hnd. rewrite fmap_app in Hnd. by apply NoDup_app in Hnd as [? _].
Qed.

Lemma commit_native_batch_spec t nodes rs :
  Forall (record_wf (rt_id t)) rs → table_wf t (batch_nodes rs ++ nodes) →
  let t' := (commit_native_batch t rs).2 in
  table_wf t' nodes ∧ model t' = model t ∧ next_native_handle t' = next_native_handle t ∧
  rt_id t' = rt_id t.
Proof.
  revert t. induction rs as [|r rs IH]; intros t Hrs Hwf; [done|].
  apply Forall_cons in Hrs as [(o & m & Hres & Hr) Hrs]. cbn [commit_native_batch]. unfold commit_one.
  destruct (c_moved r) eqn:Hmv.
  - destruct Hr as (e & Htok & Ho). rewrite (batch_nodes_moved r rs (c_source r, e)) in Hwf by (done || by rewrite Htok).
    rewrite Htok. unfold belongs_to. cbn [token_valid k_slot k_context].
    rewrite bool_decide_eq_true_2 by done. cbn [negb orb andb].
    destruct (IH (count_down t)) as (Hwf' & Hm & Hn & Hid); [done| |].
    + destruct Hwf as [Hnext Hent Hnodes Hnd Hcount Hmax]. simpl in Hcount.
      assert (u64 (native_entry_count t - 1) = native_entry_count t - 1) as Hu
        by (unfold CAPABILITY_MAX_PER_PROCESS in *; rewrite u64_small; lia).
      split; simpl; rewrite ?Hu; try done.
      * intros k' e' Hin. apply Hnodes. by right.
      * csimpl in Hnd. by apply NoDup_cons in Hnd as [_ ?].
      * unfold model. simpl. fold (model t). lia.
      * lia.
    + destruct (commit_native_batch (count_down t) rs) as [rs' t']. simpl in *. done.
  - rewrite batch_nodes_kept in Hwf by done. cbn [negb orb]. specialize (IH t Hrs Hwf).
    destruct (commit_native_batch t rs) as [rs' t']. done.
Qed.
End facts.
