(* ===== verification/ResourceMachine.v ===== *)
(** The capability table as a state machine: every public method of
    [resource_table_t] and the handle system calls as steps, the reachable
    states, and the properties of all of them.  The lemmas on single methods
    are in ResourceFacts.v. *)
From stdpp Require Import base list numbers gmap.
From S2P Require Import Prelude Abi Capability ResourceTable ResourceFacts.

Local Open Scope Z_scope.
Set Default Proof Using "Type".

Section machine.
Context {M : Type} `{HandleMapLaws M}.
Variable unique : object → bool.

Abbreviation table := (resource_table M).

(** What a method that leaves the transfers in flight alone does: it keeps the
    invariant, its hooks account for the entries it adds and removes, and the
    handles [hs] it returns were not issued before. *)
Record step_ok (nodes : list (Z * entry)) (t : table) (ev : list cap_event) (hs : list Z) (t' : table)
    : Prop := Build_step_ok {
  so_wf : table_wf t' nodes;
  so_net : ∀ o, net o table_root ev = roots (model t') o - roots (model t) o;
  so_nodup : NoDup hs;
  so_fresh : ∀ h, h ∈ hs → ¬ issued (next_native_handle t) h ∧ issued (next_native_handle t') h;
  so_mono : ∀ h, issued (next_native_handle t) h → issued (next_native_handle t') h;
  so_dead : ∀ h, issued (next_native_handle t) h → model t !! h = None → model t' !! h = None;
  so_id : rt_id t' = rt_id t;
}.

Lemma step_ok_refl nodes t : table_wf t nodes → step_ok nodes t [] [] t.
Proof.
  intros Hwf. split; try done; [intros o; rewrite net_nil; lia|constructor|].
  intros h Hh. by apply elem_of_nil in Hh.
Qed.

Lemma step_ok_trans nodes t1 t2 t3 ev1 ev2 hs1 hs2 :
  step_ok nodes t1 ev1 hs1 t2 → step_ok nodes t2 ev2 hs2 t3 →
  step_ok nodes t1 (ev1 ++ ev2) (hs1 ++ hs2) t3.
Proof.
  intros [_ Hn1 Hd1 Hf1 Hm1 He1 Hi1] [Hwf Hn2 Hd2 Hf2 Hm2 He2 Hi2]. split; [done| | | | | |congruence].
  - intros o. rewrite net_app, Hn1, Hn2. lia.
  - apply NoDup_app. split_and!; [done| |done]. intros h Hh1 Hh2.
    destruct (Hf2 h Hh2) as [Hno _]. apply Hno. by apply Hf1.
  - intros h [Hh|Hh]%elem_of_app.
    + destruct (Hf1 h Hh). auto.
    + destruct (Hf2 h Hh) as [Hno Hyes]. split; [|done]. intros Hi. by apply Hno, Hm1.
  - auto.
  - auto.
Qed.

Lemma step_ok_sub nodes t ev hs hs' t' :
  hs' `sublist_of` hs → step_ok nodes t ev hs t' → step_ok nodes t ev hs' t'.
Proof.
  intros Hsub [Hwf Hn Hd Hf Hm He Hi]. split; try done.
  - by eapply sublist_NoDup.
  - intros h Hh. apply Hf. by eapply sublist_subseteq.
Qed.

Lemma added_ok nodes t e :
  table_wf t nodes → 0 < next_native_handle t → native_entry_count t < CAPABILITY_MAX_PER_PROCESS →
  model t !! next_native_handle t = None →
  e_generation e = next_native_handle t → (e_state e = reserved ↔ e_object e = None) →
  step_ok nodes t (match e_object e with Some o => [Acquire o table_root] | None => [] end)
    [next_native_handle t] (added t e).
Proof.
  intros Hwf Hn Hc Hk Hg Hs. destruct (added_wf t nodes e) as [Hwf' Hm]; [done..|].
  pose proof (tw_next t nodes Hwf). split; try done.
  - intros o. rewrite Hm, roots_insert by done. unfold holds. destruct (e_object e) as [obj|].
    + rewrite net_cons, net_nil. held.
    + rewrite net_nil, decide_False by done. lia.
  - apply NoDup_singleton.
  - intros h ->%list_elem_of_singleton. split; [by apply not_issued_self|]. simpl. apply issued_self. lia.
  - intros h Hh. simpl. apply issued_next; [lia|done].
  - intros h Hh Hno. rewrite Hm, lookup_insert_ne; [done|]. intros <-. by apply not_issued_self in Hh.
Qed.

Lemma removed_ok nodes t k e :
  table_wf t nodes → model t !! k = Some e →
  step_ok nodes t (match e_object e with Some o => [Release o table_root] | None => [] end) []
    (count_down (remove_entry k t)).
Proof.
  intros Hwf Hk. destruct (removed_wf t nodes k e Hwf Hk) as [Hwf' Hm]. split; try done.
  - intros o. rewrite Hm, (roots_delete _ k e) by done. unfold holds. destruct (e_object e) as [obj|].
    + rewrite net_cons, net_nil. held.
    + rewrite net_nil, decide_False by done. lia.
  - constructor.
  - intros h Hh. by apply elem_of_nil in Hh.
  - intros h _ Hno. by rewrite Hm, lookup_delete_None; right.
Qed.

(** Overwriting an entry with hooks [ev] that account for its objects. *)
Lemma set_ok nodes t k e e' ev :
  table_wf t nodes → model t !! k = Some e →
  e_generation e' = e_generation e → (e_state e' = reserved ↔ e_object e' = None) →
  (∀ o, net o table_root ev = holds o e' - holds o e) →
  step_ok nodes t ev [] (set_entry k e' t).
Proof.
  intros Hwf Hk Hg Hs Hev. destruct (set_wf t nodes k e e' Hwf Hk Hg Hs) as [Hwf' Hm]. split; try done.
  - intros o. rewrite Hm, (roots_update _ k e), Hev by done. lia.
  - constructor.
  - intros h Hh. by apply elem_of_nil in Hh.
  - intros h _ Hno. rewrite Hm, lookup_insert_ne; [done|]. intros <-. congruence.
Qed.

(** ** The methods *)

Lemma install_native_ok nodes t o meta :
  table_wf t nodes →
  let '(h, ev, t') := install_native t o meta in
  step_ok nodes t ev (if h =? HANDLE_INVALID then [] else [h]) t'.
Proof.
  intros Hwf. unfold install_native. destruct o as [obj|]; [|by apply step_ok_refl].
  destruct (allocate_spec t nodes Hwf) as [->|(Hn & Hc & Hk & ->)]; [by apply step_ok_refl|].
  assert ((next_native_handle t =? HANDLE_INVALID) = false) as Hz by (apply Z.eqb_neq; unfold HANDLE_INVALID; lia).
  rewrite Hz. cbv beta iota. rewrite Hz.
  apply (added_ok nodes t (Build_entry (Some obj) (next_native_handle t) active meta)); done.
Qed.

Definition remove_all (t : table) (handles : list Z) : table :=
  foldl (λ t h, remove_entry h t) t handles.

Lemma remove_all_with_count hs c (t : table) :
  remove_all (with_count c t) hs = with_count c (remove_all t hs).
Proof. revert t. induction hs as [|h hs IH]; intros t; [done|]. apply (IH (remove_entry h t)). Qed.

Lemma remove_all_count hs (t : table) : native_entry_count (remove_all t hs) = native_entry_count t.
Proof. revert t. induction hs as [|h hs IH]; intros t; [done|]. apply (IH (remove_entry h t)). Qed.

(** Subtracting the number of removed entries at once or one by one. *)
Lemma remove_all_count_down hs (t : table) :
  0 ≤ native_entry_count t < 2 ^ 64 →
  with_count (u64 (native_entry_count (remove_all t hs) - Z.of_nat (length hs))) (remove_all t hs) =
  foldl (λ t h, count_down (remove_entry h t)) t hs.
Proof.
  revert t. induction hs as [|h hs IH]; intros t Hc.
  { simpl. rewrite Z.sub_0_r, u64_small by done. by destruct t. }
  cbn [foldl]. rewrite <- IH by apply u64_range.
  change (remove_all t (h :: hs)) with (remove_all (remove_entry h t) hs).
  unfold count_down. rewrite !remove_all_with_count. unfold with_count at 1 2. simpl.
  rewrite remove_all_count. f_equal. simpl. unfold u64. rewrite Zminus_mod_idemp_l. f_equal. lia.
Qed.

Lemma remove_reserved_ok nodes hs t :
  table_wf t nodes → NoDup hs →
  (∀ h, h ∈ hs → ∃ e, model t !! h = Some e ∧ e_object e = None) →
  step_ok nodes t [] [] (foldl (λ t h, count_down (remove_entry h t)) t hs).
Proof.
  revert t. induction hs as [|h hs IH]; intros t Hwf Hnd Hin; [by apply step_ok_refl|].
  apply NoDup_cons in Hnd as [Hnin Hnd]. destruct (Hin h ltac:(left)) as (e & He & Ho).
  pose proof (removed_ok nodes t h e Hwf He) as Hs. rewrite Ho in Hs.
  apply (step_ok_trans nodes t _ _ [] [] [] []  Hs). apply IH; [apply (so_wf _ _ _ _ _ Hs)|done|].
  intros h' Hh'. destruct (Hin h' ltac:(by right)) as (e' & He' & Ho').
  exists e'. split; [|done]. destruct (removed_wf t nodes h e Hwf He) as [_ ->].
  rewrite lookup_delete_ne; [done|]. by intros ->.
Qed.

(** The reservation loop: [handles] are the ones reserved so far, from [t0]. *)
Lemma reserve_loop_ok nodes n t0 t handles :
  step_ok nodes t0 [] handles t →
  (∀ h, h ∈ handles → ∃ e, model t !! h = Some e ∧ e_object e = None ∧ e_state e = reserved) →
  let '(status, hs, t') := reserve_loop n handles t in
  step_ok nodes t0 [] hs t' ∧
  (status = STATUS_OK → length hs = (length handles + n)%nat ∧
     ∀ h, h ∈ hs → ∃ e, model t' !! h = Some e ∧ e_object e = None ∧ e_state e = reserved) ∧
  (status ≠ STATUS_OK → hs = []).
Proof.
  revert t handles. induction n as [|n IH]; intros t handles Hs Hres; cbn [reserve_loop].
  { split_and!; try done. }
  pose proof (so_wf _ _ _ _ _ Hs) as Hwf.
  destruct (allocate_spec t nodes Hwf) as [->|(Hn & Hc & Hk & ->)].
  - cbn [Z.eqb HANDLE_INVALID]. fold (remove_all t handles).
    pose proof (tw_count _ _ Hwf). pose proof (tw_max _ _ Hwf). unfold CAPABILITY_MAX_PER_PROCESS in *.
    rewrite remove_all_count_down by lia. split_and!; try done.
    apply (step_ok_sub nodes t0 [] (handles ++ [])); [apply sublist_nil_l|].
    apply (step_ok_trans nodes t0 t _ [] []); [done|]. apply remove_reserved_ok; [done|apply Hs|].
    intros h Hh. destruct (Hres h Hh) as (e & He & Ho & _). by exists e.
  - unfold HANDLE_INVALID. rewrite (proj2 (Z.eqb_neq _ _)) by lia.
    set (e := Build_entry None (next_native_handle t) reserved default_metadata).
    pose proof (added_ok nodes t e Hwf Hn Hc Hk eq_refl ltac:(done)) as Ha.
    destruct (added_wf t nodes e) as [_ Hm]; [done..|].
    specialize (IH (added t e) (handles ++ [next_native_handle t])).
    unfold added in IH at 3. fold (added t e) in IH.
    destruct (reserve_loop n _ _) as [[status hs] t'] eqn:Hl.
    destruct IH as (IH1 & IH2 & IH3).
    + apply (step_ok_trans nodes t0 t _ [] [] handles [next_native_handle t] Hs Ha).
    + intros h [Hh| ->%list_elem_of_singleton]%elem_of_app; rewrite Hm.
      * destruct (Hres h Hh) as (e' & He' & Ho'). exists e'. split; [|done].
        rewrite lookup_insert_ne; [done|]. intros <-. congruence.
      * exists e. by rewrite lookup_insert_eq.
    + split_and!; [done| |done]. intros Hst. destruct (IH2 Hst) as [Hlen Hin]. split; [|done].
      rewrite length_app in Hlen. simpl in Hlen. lia.
Qed.

Lemma reserve_native_ok nodes t count alloc :
  table_wf t nodes →
  let '(status, hs, t') := reserve_native t count alloc in
  step_ok nodes t [] hs t' ∧
  (status = STATUS_OK → length hs = Z.to_nat count ∧
     ∀ h, h ∈ hs → ∃ e, model t' !! h = Some e ∧ e_object e = None ∧ e_state e = reserved) ∧
  (status ≠ STATUS_OK → hs = []).
Proof.
  intros Hwf. unfold reserve_native. pose proof (step_ok_refl nodes t Hwf) as Hr.
  destruct (_ <? _); [done|]. destruct (_ && _); [done|].
  apply (reserve_loop_ok nodes (Z.to_nat count) t t []); [done|]. intros h Hh. by apply elem_of_nil in Hh.
Qed.

Lemma activate_native_ok nodes t h r :
  table_wf t nodes →
  let '(status, r', ev, t') := activate_native t h r in
  step_ok nodes t ev [] t' ∧ (status ≠ STATUS_OK → t' = t ∧ ev = [] ∧ r' = r).
Proof.
  intros Hwf. unfold activate_native. pose proof (step_ok_refl nodes t Hwf) as Hr.
  destruct (_ || _) eqn:Hg; [done|]. rewrite get_entry_model.
  destruct (model t !! h) as [e|] eqn:Hk; [|done]. case_bool_decide as Hst; [|done]. cbn [negb].
  destruct (t_object r) as [obj|] eqn:Ho; unfold take_object_without_callback; rewrite Ho.
  2: { apply orb_false_iff in Hg as [_ Hg]. unfold resource_valid in Hg. by rewrite Ho in Hg. }
  split; [|done]. destruct (tw_entries t nodes Hwf h e Hk) as (_ & _ & Hso).
  apply (set_ok nodes t h e); [done..| |].
  - simpl. rewrite (proj1 Hso Hst). done.
  - intros o. rewrite !net_cons, net_nil. unfold holds. simpl. rewrite (proj1 Hso Hst). simpl. held.
Qed.

Lemma rollback_one_ok nodes t h : table_wf t nodes → step_ok nodes t [] [] (rollback_one t h).
Proof.
  intros Hwf. unfold rollback_one. rewrite get_entry_model.
  destruct (model t !! h) as [e|] eqn:Hk; [|by apply step_ok_refl].
  case_bool_decide as Hst; [|by apply step_ok_refl].
  destruct (tw_entries t nodes Hwf h e Hk) as (_ & _ & Hso).
  pose proof (removed_ok nodes t h e Hwf Hk) as Hr. by rewrite (proj1 Hso Hst) in Hr.
Qed.

Lemma rollback_native_ok nodes hs t : table_wf t nodes → step_ok nodes t [] [] (rollback_native t hs).
Proof.
  unfold rollback_native. revert t. induction hs as [|h hs IH]; intros t Hwf; [by apply step_ok_refl|].
  pose proof (rollback_one_ok nodes t h Hwf) as Hr. simpl.
  apply (step_ok_trans nodes t _ _ [] [] [] [] Hr). apply IH. apply Hr.
Qed.

Lemma close_native_ok nodes t h :
  table_wf t nodes →
  let '(status, ev, t') := close_native t h in
  step_ok nodes t ev [] t' ∧ (status ≠ STATUS_OK → t' = t ∧ ev = []).
Proof.
  intros Hwf. unfold close_native. pose proof (step_ok_refl nodes t Hwf) as Hr.
  destruct (_ =? _); [done|]. destruct (lookup_native t h) as [e|] eqn:Hl; [|done].
  apply lookup_native_spec in Hl as [Hk _]. split; [|done]. by apply removed_ok.
Qed.

Lemma duplicate_native_ok nodes t source rights :
  table_wf t nodes →
  let '(status, h, ev, t') := duplicate_native unique t source rights in
  step_ok nodes t ev (if h =? HANDLE_INVALID then [] else [h]) t' ∧
  (status ≠ STATUS_OK → t' = t ∧ ev = [] ∧ h = HANDLE_INVALID) ∧
  (status = STATUS_OK → ∃ e obj, model t !! source = Some e ∧ e_state e = active ∧ e_object e = Some obj ∧
     h = next_native_handle t ∧ h ≠ HANDLE_INVALID ∧ ev = [Acquire obj table_root] ∧
     no_flag_outside (if rights =? 0 then m_meta_rights (e_meta e) else rights) (m_meta_rights (e_meta e)) = true ∧
     model t !! h = None ∧
     model t' = <[h := Build_entry (Some obj) h active (with_meta_rights
        (if rights =? 0 then m_meta_rights (e_meta e) else rights) (e_meta e))]> (model t)).
Proof.
  intros Hwf. unfold duplicate_native. pose proof (step_ok_refl nodes t Hwf) as Hr.
  destruct (lookup_native t source) as [e|] eqn:Hl; [|done].
  apply lookup_native_spec in Hl as [Hk Ha]. destruct (e_object e) as [obj|] eqn:Ho; [|done].
  destruct (_ || _); [done|]. cbv zeta. destruct (no_flag_outside _ _) eqn:Hf; [|done]. cbn [negb].
  destruct (allocate_spec t nodes Hwf) as [->|(Hn & Hc & Hkn & ->)]; [done|].
  assert ((next_native_handle t =? HANDLE_INVALID) = false) as Hz
    by (apply Z.eqb_neq; unfold HANDLE_INVALID; lia).
  rewrite Hz. cbv beta iota. rewrite Hz, Ha. split_and!; [|done|].
  - set (e' := Build_entry _ _ _ _). apply (added_ok nodes t e'); done.
  - intros _. exists e, obj. split_and!; try done; [by apply Z.eqb_neq|]. by apply hm_model_insert.
Qed.

Lemma restriction_denied_false r m :
  restriction_denied r m = false →
  no_flag_outside (m_meta_rights (restricted_meta r m)) (m_meta_rights m) = true ∧
  no_flag_outside (m_protocol_rights (restricted_meta r m)) (m_protocol_rights m) = true ∧
  m_scope (restricted_meta r m) = m_scope m ∧ m_revision (restricted_meta r m) ≤ m_revision m ∧
  no_flag_outside (m_features (restricted_meta r m)) (m_features m) = true.
Proof.
  unfold restriction_denied. rewrite !orb_false_iff, !negb_false_iff.
  intros ((((H1 & H2) & H3) & H4) & H5). simpl.
  assert (∀ v, no_flag_outside v v = true) as Hsame by (intros v; by apply no_flag_outside_spec).
  split_and!; try done.
  - destruct (has_flag _ RESTRICTION_SCOPE); simpl in H3; [|done].
    apply orb_false_iff in H3 as [_ H3]. by apply negb_false_iff, Z.eqb_eq in H3.
  - destruct (has_flag _ RESTRICTION_REVISION); simpl in H4; [|lia].
    apply orb_false_iff in H4 as [_ H4]. by apply Z.ltb_ge in H4.
  - destruct (has_flag _ RESTRICTION_FEATURES); simpl in H5; [|done]. by apply negb_false_iff in H5.
Qed.

(** The state between [restrict_native] and its commit or rollback: the source
    is hidden and the new handle is reserved. *)
Lemma restrict_native_ok nodes t source r :
  table_wf t nodes →
  let '(status, h, backup, t') := restrict_native t source r in
  step_ok nodes t [] (if h =? HANDLE_INVALID then [] else [h]) t' ∧
  (status ≠ STATUS_OK → t' = t ∧ h = HANDLE_INVALID) ∧
  (status = STATUS_OK → ∃ e, model t !! source = Some e ∧ e_state e = active ∧ backup = e ∧
     restriction_denied r (e_meta e) = false ∧
     h = next_native_handle t ∧ h ≠ HANDLE_INVALID ∧ model t !! h = None ∧ source ≠ h ∧
     model t' = <[h := Build_entry None h reserved (restricted_meta r (e_meta e))]>
                  (<[source := with_state restricting e]> (model t))).
Proof.
  intros Hwf. unfold restrict_native. pose proof (step_ok_refl nodes t Hwf) as Hr.
  destruct (_ || _); [done|]. destruct (lookup_native t source) as [e|] eqn:Hl; [|done].
  apply lookup_native_spec in Hl as [Hk Ha].
  destruct (restriction_denied r (e_meta e)) eqn:Hd; [done|].
  destruct (allocate_spec t nodes Hwf) as [->|(Hn & Hc & Hkn & ->)]; [done|].
  assert ((next_native_handle t =? HANDLE_INVALID) = false) as Hz
    by (apply Z.eqb_neq; unfold HANDLE_INVALID; lia).
  rewrite Hz. cbv beta iota. rewrite Hz.
  set (new := Build_entry None (next_native_handle t) reserved (restricted_meta r (e_meta e))).
  assert (source ≠ next_native_handle t) as Hne by (intros ->; congruence).
  destruct (tw_entries t nodes Hwf source e Hk) as (_ & _ & Hso).
  assert (e_object e ≠ None) as Hobj by (intros Ho; apply Hso in Ho; congruence).
  pose proof (set_ok nodes t source e (with_state restricting e) [] Hwf Hk eq_refl
    ltac:(done) ltac:(intros o; rewrite net_nil; unfold holds; simpl; lia)) as Hs1.
  destruct (set_wf t nodes source e (with_state restricting e) Hwf Hk) as [_ Hm1]; [done..|].
  set (t1 := set_entry source (with_state restricting e) t) in *.
  pose proof (so_wf _ _ _ _ _ Hs1) as Hwf1.
  assert (model t1 !! next_native_handle t1 = None) as Hk1 by (by rewrite Hm1, lookup_insert_ne).
  pose proof (added_ok nodes t1 new Hwf1 Hn Hc Hk1 eq_refl ltac:(done)) as Hs2.
  destruct (added_wf t1 nodes new) as [_ Hm2]; [done..|]. split_and!; [|done|].
  - apply (step_ok_trans nodes t t1 _ [] [] [] [next_native_handle t] Hs1 Hs2).
  - intros _. exists e. split_and!; try done; [by apply Z.eqb_neq|].
    change (count_up _) with (added t1 new). by rewrite Hm2, Hm1.
Qed.

Lemma commit_restrict_ok nodes t source h :
  table_wf t nodes →
  let '(status, ev, t') := commit_restrict t source h in
  step_ok nodes t ev [] t' ∧ (status ≠ STATUS_OK → t' = t ∧ ev = []).
Proof.
  intros Hwf. unfold commit_restrict. pose proof (step_ok_refl nodes t Hwf) as Hr.
  destruct (_ || _) eqn:Hg; [done|]. rewrite !get_entry_model.
  destruct (model t !! source) as [s|] eqn:Hs; [|done].
  destruct (model t !! h) as [p|] eqn:Hp; [|done].
  destruct (e_object s) as [obj|] eqn:Ho; [|done].
  destruct (bool_decide (e_state s = restricting)) eqn:Hss; [|done].
  destruct (bool_decide (e_state p = reserved)) eqn:Hps; [|done]. cbn [andb].
  apply bool_decide_eq_true in Hss, Hps. split; [|done].
  destruct (tw_entries t nodes Hwf h p Hp) as (_ & _ & Hpo).
  assert (source ≠ h) as Hne by (intros ->; congruence).
  rewrite (proj1 Hpo Hps). change (move_assign None (Some obj)).1 with (Some obj).
  set (new := with_state active (with_object (Some obj) p)).
  pose proof (set_ok nodes t h p new [Acquire obj table_root] Hwf Hp eq_refl ltac:(done)) as Hs1.
  destruct (set_wf t nodes h p new Hwf Hp) as [_ Hm1]; [done..|].
  apply (step_ok_trans nodes t (set_entry h new t) _ [Acquire obj table_root] [Release obj table_root] [] []).
  - apply Hs1. intros o. rewrite net_cons, net_nil. unfold holds. simpl. rewrite (proj1 Hpo Hps).
    held.
  - pose proof (removed_ok nodes (set_entry h new t) source s) as Hs2. rewrite Ho in Hs2. apply Hs2.
    + by destruct (set_wf t nodes h p new Hwf Hp) as [? _].
    + by rewrite Hm1, lookup_insert_ne.
Qed.

Lemma rollback_restrict_ok nodes t source h backup :
  table_wf t nodes →
  let '(status, t') := rollback_restrict t source h backup in
  step_ok nodes t [] [] t' ∧ (status ≠ STATUS_OK → t' = t).
Proof.
  intros Hwf. unfold rollback_restrict. pose proof (step_ok_refl nodes t Hwf) as Hr.
  destruct (_ || _) eqn:Hg; [done|]. rewrite !get_entry_model.
  destruct (model t !! source) as [s|] eqn:Hs; [|done].
  destruct (model t !! h) as [p|] eqn:Hp; [|done].
  destruct (bool_decide (e_state s = restricting)) eqn:Hss; [|done].
  destruct (bool_decide (e_object s = None)) eqn:Hso; [done|].
  destruct (bool_decide (e_state p = reserved)) eqn:Hps; [|done]. cbn [andb negb].
  apply bool_decide_eq_true in Hss, Hps. apply bool_decide_eq_false in Hso. split; [|done].
  destruct (tw_entries t nodes Hwf h p Hp) as (_ & _ & Hpo).
  assert (source ≠ h) as Hne by (intros ->; congruence).
  pose proof (removed_ok nodes t h p Hwf Hp) as Hs1. rewrite (proj1 Hpo Hps) in Hs1.
  destruct (removed_wf t nodes h p Hwf Hp) as [Hwf1 Hm1].
  apply (step_ok_trans nodes t _ _ [] [] [] [] Hs1). apply (set_ok nodes _ source s); try done.
  - by rewrite Hm1, lookup_delete_ne.
  - intros o. rewrite net_nil. unfold holds. simpl. lia.
Qed.

Lemma rollback_restrict_undoes nodes t1 source h e new m :
  table_wf t1 nodes → source ≠ HANDLE_INVALID → h ≠ HANDLE_INVALID → source ≠ h →
  m !! source = Some e → m !! h = None → e_state e = active → e_object e ≠ None →
  e_state new = reserved → model t1 = <[h := new]> (<[source := with_state restricting e]> m) →
  (rollback_restrict t1 source h e).1 = STATUS_OK ∧ model (rollback_restrict t1 source h e).2 = m.
Proof.
  intros Hwf Hsrc Hh Hne Hk Hkh Ha Ho Hnew Hm. unfold rollback_restrict.
  rewrite (proj2 (Z.eqb_neq _ _) Hsrc), (proj2 (Z.eqb_neq _ _) Hh), bool_decide_eq_false_2 by done. cbn [orb].
  assert (model t1 !! source = Some (with_state restricting e)) as Hs1
    by (by rewrite Hm, lookup_insert_ne, lookup_insert_eq).
  assert (model t1 !! h = Some new) as Hh1 by (by rewrite Hm, lookup_insert_eq).
  rewrite !get_entry_model, Hs1, Hh1. rewrite (bool_decide_eq_true_2 (e_state new = reserved)) by done.
  rewrite bool_decide_eq_true_2, bool_decide_eq_false_2 by done. cbn [andb negb fst snd]. split; [done|].
  destruct (removed_wf t1 nodes h new Hwf Hh1) as [Hwf2 Hm2].
  destruct (set_wf _ nodes source (with_state restricting e) (with_state active (with_state restricting e)) Hwf2)
    as [_ ->]; try done.
  { by rewrite Hm2, lookup_delete_ne. }
  rewrite Hm2, Hm, delete_insert_id by (by rewrite lookup_insert_ne).
  rewrite insert_insert_eq. replace (with_state active (with_state restricting e)) with e.
  - by apply insert_id.
  - destruct e. simpl in *. by subst.
Qed.

Lemma commit_restrict_publishes nodes t1 source h e obj new m :
  table_wf t1 nodes → source ≠ HANDLE_INVALID → h ≠ HANDLE_INVALID → source ≠ h →
  m !! source = Some e → m !! h = None → e_object e = Some obj →
  e_state new = reserved → e_object new = None →
  model t1 = <[h := new]> (<[source := with_state restricting e]> m) →
  let '(status, ev, t') := commit_restrict t1 source h in
  status = STATUS_OK ∧ ev = [Acquire obj table_root; Release obj table_root] ∧
  model t' = <[h := with_state active (with_object (Some obj) new)]> (delete source m).
Proof.
  intros Hwf Hsrc Hh Hne Hk Hkh Ho Hnew Hno Hm. unfold commit_restrict.
  rewrite (proj2 (Z.eqb_neq _ _) Hsrc), (proj2 (Z.eqb_neq _ _) Hh). cbn [orb].
  assert (model t1 !! source = Some (with_state restricting e)) as Hs1
    by (by rewrite Hm, lookup_insert_ne, lookup_insert_eq).
  assert (model t1 !! h = Some new) as Hh1 by (by rewrite Hm, lookup_insert_eq).
  rewrite !get_entry_model, Hs1, Hh1. cbn [with_state e_object]. rewrite Ho, Hno.
  rewrite (bool_decide_eq_true_2 (e_state new = reserved)), bool_decide_eq_true_2 by done.
  cbn [andb]. split_and!; [done..|].
  change (move_assign None (Some obj)).1 with (Some obj).
  set (pub := with_state active (with_object (Some obj) new)).
  destruct (set_wf t1 nodes h new pub Hwf Hh1) as [Hwf2 Hm2]; [done..|].
  destruct (removed_wf (set_entry h pub t1) nodes source (with_state restricting e) Hwf2) as [_ Hm3].
  { by rewrite Hm2, lookup_insert_ne. }
  change (model (count_down (remove_entry source (set_entry h pub t1))) = <[h := pub]> (delete source m)).
  rewrite Hm3, Hm2, Hm, insert_insert_eq, delete_insert_ne by done. f_equal.
  by rewrite delete_insert_eq.
Qed.

Lemma handle_restrict_spec nodes t arguments source r write_status :
  table_wf t nodes →
  let '(status, h, ev, t') := handle_restrict t arguments source r write_status in
  step_ok nodes t ev (if status_ok status then [h] else []) t' ∧
  ((status ≠ STATUS_OK ∧ model t' = model t ∧ ev = []) ∨
   (status = STATUS_OK ∧ ∃ e obj,
      model t !! source = Some e ∧ e_state e = active ∧ e_object e = Some obj ∧
      model t !! h = None ∧ restriction_denied r (e_meta e) = false ∧
      model t' = <[h := Build_entry (Some obj) h active (restricted_meta r (e_meta e))]>
                   (delete source (model t)))).
Proof.
  intros Hwf. unfold handle_restrict. pose proof (step_ok_refl nodes t Hwf) as Hrefl.
  destruct (status_ok arguments) eqn:Hargs; cbn [negb].
  2: { rewrite Hargs. apply bool_decide_eq_false in Hargs. split; [done|]. by left. }
  pose proof (restrict_native_ok nodes t source r Hwf) as Hres.
  destruct (restrict_native t source r) as [[[status h] backup] t1]. destruct Hres as (Hs & Hfail & Hok).
  destruct (status_ok status) eqn:Hst; cbn [negb].
  2: { rewrite Hst. apply bool_decide_eq_false in Hst. destruct (Hfail Hst) as [-> _]. split; [done|]. by left. }
  apply bool_decide_eq_true in Hst. destruct (Hok Hst) as (e & Hk & Ha & -> & Hd & Hh & Hhn & Hkh & Hne & Hm).
  rewrite (proj2 (Z.eqb_neq _ _) Hhn) in Hs.
  destruct (tw_entries t nodes Hwf source e Hk) as ((Hi & _) & _ & Hso).
  destruct (e_object e) as [obj|] eqn:Ho; [|rewrite (proj2 Hso eq_refl) in Ha; done].
  pose proof (so_wf _ _ _ _ _ Hs) as Hwf1. assert (source ≠ HANDLE_INVALID) by (unfold HANDLE_INVALID; lia).
  set (new := Build_entry None h reserved (restricted_meta r (e_meta e))) in *.
  destruct (status_ok write_status) eqn:Hws; cbn [negb].
  - pose proof (commit_restrict_ok nodes t1 source h Hwf1) as Hc.
    pose proof (commit_restrict_publishes nodes t1 source h e obj new (model t) Hwf1) as Hp.
    destruct (commit_restrict t1 source h) as [[status2 ev] t2]. destruct Hc as [Hc _].
    destruct Hp as (-> & -> & Hm2); try done. cbn [status_ok bool_decide].
    split; [exact (step_ok_trans nodes t t1 t2 [] _ [h] [] Hs Hc)|].
    right. split; [done|]. exists e, obj. split_and!; done.
  - destruct (rollback_restrict_undoes nodes t1 source h e new (model t) Hwf1) as [_ Hm2]; try done.
    { congruence. }
    pose proof (rollback_restrict_ok nodes t1 source h e Hwf1) as Hr.
    destruct (rollback_restrict t1 source h e) as [status2 t2]. simpl in Hm2. destruct Hr as [Hr _].
    rewrite Hws. apply bool_decide_eq_false in Hws. cbn [snd]. split; [|by left].
    apply (step_ok_sub nodes t [] ([h] ++ [])); [apply sublist_nil_l|].
    exact (step_ok_trans nodes t t1 t2 [] [] [h] [] Hs Hr).
Qed.

(** The restrict transaction.  [handle_restrict] either fails and leaves
    every entry of the table as it was, or replaces the source handle by a new
    one that holds the same object with the requested metadata; the new meta
    rights, protocol rights and features are subsets of the old ones, the scope
    is the same and the revision is not later. *)
Theorem handle_restrict_replaces_or_keeps nodes t arguments source r write_status :
  table_wf t nodes →
  let '(status, h, ev, t') := handle_restrict t arguments source r write_status in
  table_wf t' nodes ∧ (∀ o, net o table_root ev = roots (model t') o - roots (model t) o) ∧
  ((status ≠ STATUS_OK ∧ model t' = model t ∧ ev = []) ∨
   (status = STATUS_OK ∧ ∃ e obj,
      model t !! source = Some e ∧ e_state e = active ∧ e_object e = Some obj ∧
      model t !! h = None ∧
      model t' = <[h := Build_entry (Some obj) h active (restricted_meta r (e_meta e))]>
                   (delete source (model t)) ∧
      no_flag_outside (m_meta_rights (restricted_meta r (e_meta e))) (m_meta_rights (e_meta e)) = true ∧
      no_flag_outside (m_protocol_rights (restricted_meta r (e_meta e))) (m_protocol_rights (e_meta e)) = true ∧
      no_flag_outside (m_features (restricted_meta r (e_meta e))) (m_features (e_meta e)) = true ∧
      m_scope (restricted_meta r (e_meta e)) = m_scope (e_meta e) ∧
      m_revision (restricted_meta r (e_meta e)) ≤ m_revision (e_meta e))).
Proof.
  intros Hwf. pose proof (handle_restrict_spec nodes t arguments source r write_status Hwf) as Hs.
  destruct (handle_restrict t arguments source r write_status) as [[[status h] ev] t'].
  destruct Hs as [[Hwf' Hnet _ _ _ _ _] Hcases]. split_and!; [done|done|].
  destruct Hcases as [?|(Hst & e & obj & Hk & Ha & Ho & Hkh & Hd & Hm)]; [by left|]. right. split; [done|].
  apply restriction_denied_false in Hd as (D1 & D2 & D3 & D4 & D5). exists e, obj. split_and!; done.
Qed.

Lemma handle_duplicate_ok nodes t output_ok source rights write_status :
  table_wf t nodes →
  let '(status, h, ev, t') := handle_duplicate unique t output_ok source rights write_status in
  step_ok nodes t ev (if status_ok status then [h] else []) t' ∧
  ((status ≠ STATUS_OK ∧ model t' = model t) ∨
   (status = STATUS_OK ∧ ∃ e obj rights', model t !! source = Some e ∧ e_state e = active ∧
      e_object e = Some obj ∧ model t !! h = None ∧
      no_flag_outside rights' (m_meta_rights (e_meta e)) = true ∧
      model t' = <[h := Build_entry (Some obj) h active (with_meta_rights rights' (e_meta e))]> (model t))).
Proof.
  intros Hwf. unfold handle_duplicate. pose proof (step_ok_refl nodes t Hwf) as Hrefl.
  destruct output_ok; cbn [negb]; [|split; [done|by left]].
  pose proof (duplicate_native_ok nodes t source rights Hwf) as Hd.
  destruct (duplicate_native unique t source rights) as [[[status h] ev] t1]. destruct Hd as (Hs & Hfail & Hok).
  destruct (status_ok status) eqn:Hst; cbn [negb].
  2: { rewrite Hst. apply bool_decide_eq_false in Hst. destruct (Hfail Hst) as (-> & -> & _).
       split; [done|by left]. }
  apply bool_decide_eq_true in Hst.
  destruct (Hok Hst) as (e & obj & Hk & Ha & Ho & -> & Hhn & -> & Hf & Hkh & Hm).
  rewrite (proj2 (Z.eqb_neq _ _) Hhn) in Hs. destruct (status_ok write_status) eqn:Hws.
  - rewrite Hws. apply bool_decide_eq_true in Hws. split; [done|]. right. split; [done|].
    eexists e, obj, _. split_and!; done.
  - pose proof (so_wf _ _ _ _ _ Hs) as Hwf1.
    pose proof (close_native_ok nodes t1 (next_native_handle t) Hwf1) as Hc.
    assert (model (close_native t1 (next_native_handle t)).2 = model t) as Hm2.
    { unfold close_native. rewrite (proj2 (Z.eqb_neq _ _) Hhn).
      set (new := Build_entry _ _ _ _) in Hm.
      rewrite (proj2 (lookup_native_spec t1 (next_native_handle t) new)) by (by rewrite Hm, lookup_insert_eq).
      destruct (removed_wf t1 nodes (next_native_handle t) new Hwf1) as [_ Hm2]; [by rewrite Hm, lookup_insert_eq|].
      change (model (count_down (remove_entry (next_native_handle t) t1)) = model t).
      by rewrite Hm2, Hm, delete_insert_id. }
    destruct (close_native t1 (next_native_handle t)) as [[status2 ev2] t2]. simpl in Hm2. destruct Hc as [Hc _].
    rewrite Hws. apply bool_decide_eq_false in Hws. split; [|by left].
    apply (step_ok_sub nodes t _ ([next_native_handle t] ++ [])); [apply sublist_nil_l|].
    exact (step_ok_trans nodes t t1 t2 _ _ _ [] Hs Hc).
Qed.

Lemma roots_sum m o : roots m o = sum_Z (holds o <$> (map_to_list m).*2).
Proof.
  induction m as [|k e m Hk IH] using map_ind.
  - by rewrite roots_empty, map_to_list_empty.
  - rewrite roots_insert, IH, map_to_list_insert by done. csimpl. lia.
Qed.

Lemma net_release_all o (l : list (Z * entry)) :
  net o table_root ((λ o, Release o table_root) <$> omap (λ '(_, e), e_object e) l) =
    - sum_Z (holds o <$> l.*2).
Proof.
  induction l as [|[k e] l IH]; [done|]. csimpl. unfold holds at 1.
  destruct (e_object e) as [obj|]; csimpl; rewrite ?net_cons, IH; simpl;
    held.
Qed.

Lemma clear_table_ok t :
  table_wf t [] → step_ok [] t (clear_table t).1 [] (clear_table t).2.
Proof.
  intros Hwf. unfold clear_table, clear_native_locked. cbn [fst snd].
  assert (model (Build_table (rt_id t) hm_empty (next_native_handle t) 0) = ∅) as Hm by apply hm_model_empty.
  split; cbn [next_native_handle rt_id]; try done.
  - split; cbn [next_native_handle native_entry_count]; try done.
    + apply Hwf.
    + intros k e Hk. by rewrite Hm, lookup_empty in Hk.
    + intros k e Hin. by apply elem_of_nil in Hin.
    + constructor.
    + by rewrite Hm.
  - intros o. rewrite Hm, roots_empty, net_release_all, roots_sum.
    unfold model. rewrite hm_model_entries. lia.
  - constructor.
  - intros h Hh. by apply elem_of_nil in Hh.
  - intros h _ _. by rewrite Hm.
Qed.

(** ** The state machine *)

(** The table, the batches taken from it and not yet restored or committed,
    the hooks run so far and the handles returned so far. *)
Record rstate : Type := Build_rstate {
  rs_table : table;
  rs_flight : list (list transfer_record);
  rs_log : list cap_event;
  rs_issued : list Z;
}.

Inductive table_op : Type :=
| OpInstall (o : khandle) (meta : metadata)
| OpReserve (count : Z) (alloc_ok : bool)
| OpActivate (h : Z) (r : transferred_resource)
| OpRollback (handles : list Z)
| OpClose (h : Z)
| OpDuplicate (output_ok : bool) (source rights : Z) (write_status : na_status)
| OpRestrict (source : Z) (r : restriction)
| OpCommitRestrict (source restricted : Z)
| OpRollbackRestrict (source restricted : Z) (backup : entry)
| OpHandleRestrict (arguments : na_status) (source : Z) (r : restriction) (write_status : na_status)
| OpTake (ds : disposition_array) (target : Z) (alloc_ok : bool)
| OpRestore (i : nat)
| OpCommit (i : nat)
| OpClear.

Definition plain_step (s : rstate) (ev : list cap_event) (hs : list Z) (t : table) : rstate :=
  Build_rstate t (rs_flight s) (rs_log s ++ ev) (rs_issued s ++ hs).

Definition valid_handle (h : Z) : list Z := if h =? HANDLE_INVALID then [] else [h].

Definition table_step (s : rstate) (op : table_op) : rstate :=
  let t := rs_table s in
  match op with
  | OpInstall o meta => let '(h, ev, t') := install_native t o meta in plain_step s ev (valid_handle h) t'
  | OpReserve count alloc => let '(_, hs, t') := reserve_native t count alloc in plain_step s [] hs t'
  | OpActivate h r => let '(_, _, ev, t') := activate_native t h r in plain_step s ev [] t'
  | OpRollback hs => plain_step s [] [] (rollback_native t hs)
  | OpClose h => let '(_, ev, t') := close_native t h in plain_step s ev [] t'
  | OpDuplicate out source rights ws =>
    let '(status, h, ev, t') := handle_duplicate unique t out source rights ws in
    plain_step s ev (if status_ok status then [h] else []) t'
  | OpRestrict source r =>
    let '(_, h, _, t') := restrict_native t source r in plain_step s [] (valid_handle h) t'
  | OpCommitRestrict source h => let '(_, ev, t') := commit_restrict t source h in plain_step s ev [] t'
  | OpRollbackRestrict source h backup => plain_step s [] [] (rollback_restrict t source h backup).2
  | OpHandleRestrict args source r ws =>
    let '(status, h, ev, t') := handle_restrict t args source r ws in
    plain_step s ev (if status_ok status then [h] else []) t'
  | OpTake ds target alloc =>
    let '(status, rs, ev, t') := take_native_batch unique t ds target alloc in
    Build_rstate t' (if status_ok status then rs_flight s ++ [rs] else rs_flight s)
      (rs_log s ++ ev) (rs_issued s)
  | OpRestore i =>
    match rs_flight s !! i with
    | None => s
    | Some rs =>
      let '(status, rs', ev, t') := restore_native_batch t rs in
      Build_rstate t' (if status_ok status then delete i (rs_flight s) else <[i := rs']> (rs_flight s))
        (rs_log s ++ ev) (rs_issued s)
    end
  | OpCommit i =>
    match rs_flight s !! i with
    | None => s
    | Some rs =>
      Build_rstate (commit_native_batch t rs).2 (delete i (rs_flight s)) (rs_log s) (rs_issued s)
    end
  | OpClear => let '(ev, t') := clear_table t in plain_step s ev [] t'
  end.

(** A table is cleared when its process exits, with no transfer in flight. *)
Definition op_allowed (s : rstate) (op : table_op) : Prop :=
  match op with OpClear => rs_flight s = [] | _ => True end.

Inductive steps (s : rstate) : rstate → Prop :=
| steps_refl : steps s s
| steps_step s' op : steps s s' → op_allowed s' op → steps s (table_step s' op).

Definition initial (id : Z) : rstate := Build_rstate (make_resource_table id) [] [] [].

Definition reachable (id : Z) (s : rstate) : Prop := steps (initial id) s.

Definition flight_nodes (flight : list (list transfer_record)) : list (Z * entry) :=
  concat (batch_nodes <$> flight).

Record rstate_wf (s : rstate) : Prop := Build_rstate_wf {
  rw_table : table_wf (rs_table s) (flight_nodes (rs_flight s));
  rw_records : Forall (Forall (record_wf (rt_id (rs_table s)))) (rs_flight s);
  rw_net : ∀ o, net o table_root (rs_log s) = roots (model (rs_table s)) o;
  rw_issued : NoDup (rs_issued s) ∧
    ∀ h, h ∈ rs_issued s → issued (next_native_handle (rs_table s)) h;
}.

(** A handle that was issued and whose capability is gone for good. *)
Definition dead (s : rstate) (h : Z) : Prop :=
  issued (next_native_handle (rs_table s)) h ∧ model (rs_table s) !! h = None ∧
  h ∉ (flight_nodes (rs_flight s)).*1.

Definition step_good (s s' : rstate) : Prop :=
  rstate_wf s' ∧ (∀ h, dead s h → dead s' h) ∧ rt_id (rs_table s') = rt_id (rs_table s).

Lemma plain_step_good s ev hs t' :
  rstate_wf s → step_ok (flight_nodes (rs_flight s)) (rs_table s) ev hs t' →
  step_good s (plain_step s ev hs t').
Proof.
  intros [Hwf Hrs Hnet [Hnd Hiss]] [Hwf' Hn Hnd' Hf Hm Hdead Hid]. split_and!; [split|..]; simpl; try done.
  - by rewrite Hid.
  - intros o. rewrite net_app, Hnet, Hn. lia.
  - split.
    + apply NoDup_app. split_and!; [done| |done]. intros h Hh Hh'. destruct (Hf h Hh') as [Hno _].
      by apply Hno, Hiss.
    + intros h [Hh|Hh]%elem_of_app; [by apply Hm, Hiss|by apply Hf].
  - intros h (Hi & Hno & Hnin). split_and!; simpl; auto.
Qed.

Lemma flight_nodes_app f1 f2 : flight_nodes (f1 ++ f2) = flight_nodes f1 ++ flight_nodes f2.
Proof. unfold flight_nodes. by rewrite fmap_app, concat_app. Qed.

Lemma flight_nodes_delete flight i rs :
  flight !! i = Some rs → flight_nodes flight ≡ₚ batch_nodes rs ++ flight_nodes (delete i flight).
Proof.
  intros Hi. unfold flight_nodes. rewrite (delete_Permutation flight i rs Hi) at 1. done.
Qed.

Lemma take_step_good s ds target alloc :
  rstate_wf s → step_good s (table_step s (OpTake ds target alloc)).
Proof.
  intros [Hwf Hrs Hnet Hiss]. cbn [table_step].
  pose proof (take_native_batch_spec unique (rs_table s) _ ds target alloc Hwf) as Ht.
  destruct (take_native_batch unique (rs_table s) ds target alloc) as [[[status rs] ev] t'].
  destruct Ht as [(Hst & -> & -> & ->)|(-> & items & Hout)].
  { unfold status_ok. rewrite bool_decide_eq_false_2, app_nil_r by done. split_and!; done. }
  pose proof (λ o, take_events_roots unique _ _ _ _ _ _ o Hout) as Hev.
  pose proof Hout as [Hs Hnd -> _ Hwf' Hm Hn Hc Hid].
  assert (flight_nodes (rs_flight s ++ [(record_of (rt_id (rs_table s)) <$>
            (take_item (model (rs_table s)) <$> items)).*1]) ≡ₚ
          moved_nodes (model (rs_table s)) items ++ flight_nodes (rs_flight s)) as Hp.
  { rewrite flight_nodes_app. unfold flight_nodes at 2. csimpl.
    rewrite app_nil_r, (batch_nodes_records unique) by done. apply Permutation_app_comm. }
  unfold status_ok. rewrite bool_decide_eq_true_2 by done. split_and!; [split|..]; cbn [rs_table rs_flight rs_log rs_issued].
  - by eapply table_wf_perm; [symmetry; exact Hp|].
  - rewrite Hid. apply Forall_app. split; [done|]. constructor; [|constructor]. by apply (records_wf unique).
  - intros o. rewrite net_app, Hnet, Hev. lia.
  - rewrite Hn. done.
  - intros h (Hi & Hno & Hnin). split_and!; simpl; [by rewrite Hn| |].
    + rewrite Hm, without_moved_lookup, Hno. by case_decide.
    + rewrite Hp, fmap_app, not_elem_of_app. split; [|done].
      intros ([k e] & -> & Hin)%list_elem_of_fmap. apply moved_nodes_in in Hin. simpl in Hno. congruence.
  - done.
Qed.

Lemma restore_step_good s i : rstate_wf s → step_good s (table_step s (OpRestore i)).
Proof.
  intros Hs. pose proof Hs as [Hwf Hrs Hnet Hiss]. cbn [table_step].
  destruct (rs_flight s !! i) as [rs|] eqn:Hi; [|by split_and!].
  pose proof (flight_nodes_delete _ _ _ Hi) as Hp.
  apply (table_wf_perm _ _ _ Hp) in Hwf. rewrite Forall_forall in Hrs.
  destruct (restore_native_batch_spec (rs_table s) _ rs (Hrs rs (list_elem_of_lookup_2 _ _ _ Hi)) Hwf)
    as (rs' & ev & t' & -> & Hwf' & Hm & Hn & Hc & Hid & Hev).
  unfold status_ok. rewrite bool_decide_eq_true_2 by done. split_and!; [split|..]; cbn [rs_table rs_flight rs_log rs_issued].
  - done.
  - rewrite Hid. apply Forall_forall. intros rs0 Hin. apply Hrs.
    apply (elem_of_sublist _ _ _ Hin). apply sublist_delete.
  - intros o. rewrite net_app, Hnet. destruct (Hev o) as [-> _]. lia.
  - by rewrite Hn.
  - intros h (Hih & Hno & Hnin). rewrite Hp, fmap_app, not_elem_of_app in Hnin. destruct Hnin as [Hnin1 Hnin2].
    split_and!; simpl; [by rewrite Hn| |done]. rewrite Hm, lookup_union_None. split; [|done].
    by apply not_elem_of_list_to_map_1.
  - done.
Qed.

Lemma commit_step_good s i : rstate_wf s → step_good s (table_step s (OpCommit i)).
Proof.
  intros Hs. pose proof Hs as [Hwf Hrs Hnet Hiss]. cbn [table_step].
  destruct (rs_flight s !! i) as [rs|] eqn:Hi; [|by split_and!].
  pose proof (flight_nodes_delete _ _ _ Hi) as Hp.
  apply (table_wf_perm _ _ _ Hp) in Hwf. rewrite Forall_forall in Hrs.
  destruct (commit_native_batch_spec (rs_table s) _ rs (Hrs rs (list_elem_of_lookup_2 _ _ _ Hi)) Hwf)
    as (Hwf' & Hm & Hn & Hid).
  split_and!; [split|..]; cbn [rs_table rs_flight rs_log rs_issued].
  - done.
  - rewrite Hid. apply Forall_forall. intros rs0 Hin. apply Hrs.
    apply (elem_of_sublist _ _ _ Hin). apply sublist_delete.
  - intros o. by rewrite Hm.
  - by rewrite Hn.
  - intros h (Hih & Hno & Hnin). rewrite Hp, fmap_app, not_elem_of_app in Hnin. destruct Hnin as [Hnin1 Hnin2].
    split_and!; simpl; [by rewrite Hn|by rewrite Hm|done].
  - done.
Qed.

Lemma table_step_good s op : rstate_wf s → op_allowed s op → step_good s (table_step s op).
Proof.
  intros Hs Hop. pose proof (rw_table s Hs) as Hwf.
  destruct op; first [by apply take_step_good|by apply restore_step_good|by apply commit_step_good|
    unfold table_step].
  - pose proof (install_native_ok _ _ o meta Hwf) as Ho. destruct (install_native _ _ _) as [[h ev] t'].
    by apply plain_step_good.
  - pose proof (reserve_native_ok _ _ count alloc_ok Hwf) as Ho.
    destruct (reserve_native _ _ _) as [[st hs] t']. apply plain_step_good; [done|apply Ho].
  - pose proof (activate_native_ok _ _ h r Hwf) as Ho.
    destruct (activate_native _ _ _) as [[[st r'] ev] t']. apply plain_step_good; [done|apply Ho].
  - apply plain_step_good; [done|by apply rollback_native_ok].
  - pose proof (close_native_ok _ _ h Hwf) as Ho. destruct (close_native _ _) as [[st ev] t'].
    apply plain_step_good; [done|apply Ho].
  - pose proof (handle_duplicate_ok _ _ output_ok source rights write_status Hwf) as Ho.
    destruct (handle_duplicate _ _ _ _ _ _) as [[[st h] ev] t']. apply plain_step_good; [done|apply Ho].
  - pose proof (restrict_native_ok _ _ source r Hwf) as Ho.
    destruct (restrict_native _ _ _) as [[[st h] b] t']. apply plain_step_good; [done|apply Ho].
  - pose proof (commit_restrict_ok _ _ source restricted Hwf) as Ho.
    destruct (commit_restrict _ _ _) as [[st ev] t']. apply plain_step_good; [done|apply Ho].
  - pose proof (rollback_restrict_ok _ _ source restricted backup Hwf) as Ho.
    destruct (rollback_restrict _ _ _ _) as [st t']. apply plain_step_good; [done|apply Ho].
  - pose proof (handle_restrict_spec _ _ arguments source r write_status Hwf) as Ho.
    destruct (handle_restrict _ _ _ _ _) as [[[st h] ev] t']. apply plain_step_good; [done|apply Ho].
  - simpl in Hop. rewrite Hop in Hwf. pose proof (clear_table_ok _ Hwf) as Ho.
    destruct (clear_table _) as [ev t']. apply plain_step_good; [done|]. by rewrite Hop.
Qed.

Lemma initial_wf id : rstate_wf (initial id).
Proof.
  assert (model (make_resource_table id) = ∅) as Hm by apply hm_model_empty.
  split; simpl; try done; try constructor; simpl; try done.
  - intros k e Hk. by rewrite Hm, lookup_empty in Hk.
  - intros k e Hin. by apply elem_of_nil in Hin.
  - constructor.
  - by rewrite Hm.
  - intros o. by rewrite Hm, roots_empty.
  - constructor.
  - intros h Hh. by apply elem_of_nil in Hh.
Qed.

Lemma steps_good s s' : rstate_wf s → steps s s' → step_good s s'.
Proof.
  intros Hs. induction 1 as [|s' op _ [Hs' [Hdead Hid]] Hop]; [by split_and!|].
  destruct (table_step_good s' op Hs' Hop) as (Hwf & Hdead' & Hid'). split_and!; [done|auto|congruence].
Qed.


(** No handle is used twice.  The handles returned to the process are
    pairwise distinct, and a handle that was closed resolves to nothing in
    every later state, whatever operations follow. *)
Theorem closed_handle_stays_closed id s h s' :
  reachable id s → (close_native (rs_table s) h).1.1 = STATUS_OK →
  steps (table_step s (OpClose h)) s' →
  lookup_native (rs_table s') h = None ∧ NoDup (rs_issued s').
Proof using All.
  intros Hr Hc Hs'. destruct (steps_good _ _ (initial_wf id) Hr) as (Hs & _ & _).
  pose proof (rw_table s Hs) as Hwf.
  assert (dead (table_step s (OpClose h)) h) as Hdead.
  { revert Hc. cbn [table_step]. unfold close_native. destruct (_ =? _); [done|].
    destruct (lookup_native (rs_table s) h) as [e|] eqn:Hl; [|done]. intros _.
    apply lookup_native_spec in Hl as [Hk _].
    destruct (removed_wf _ _ h e Hwf Hk) as [_ Hm]. destruct (tw_entries _ _ Hwf h e Hk) as (Hi & _).
    split_and!; [exact Hi|simpl; rewrite Hm; apply lookup_delete_eq|].
    intros ([k e'] & -> & Hin)%list_elem_of_fmap. apply (tw_nodes _ _ Hwf) in Hin as (_ & _ & Hno).
    simpl in Hk. congruence. }
  destruct (table_step_good s (OpClose h) Hs I) as (Hs1 & _ & _).
  destruct (steps_good _ _ Hs1 Hs') as (Hwf' & Hd' & _). destruct (Hd' h Hdead) as (_ & Hno & _).
  split; [|apply Hwf']. destruct (lookup_native (rs_table s') h) as [e|] eqn:Hl; [|done].
  apply lookup_native_spec in Hl as [Hk _]. congruence.
Qed.

Lemma take_events_transit t nodes items rs ev t' o :
  take_outcome unique t nodes items rs ev t' → net o in_transit ev = carried o rs.
Proof.
  intros [Hs _ -> -> _ _ _ _ _].
  induction Hs as [|[d e] items (found & obj & Hk & _ & Ho & Hso & _) _ IH]; [done|].
  rewrite !fmap_cons. cbn [concat]. rewrite net_app, IH. unfold carried. rewrite fmap_cons. simpl in Hk, Hso.
  destruct (decide (d_operation d = RESOURCE_MOVE)) as [Hop|Hop].
  - rewrite (record_of_move _ _ d e found obj) by done. csimpl. rewrite !net_cons, net_nil. held.
  - rewrite (record_of_keep _ _ d e obj) by done. csimpl. rewrite !net_cons, net_nil. held.
Qed.

(** An aborted transfer leaves no trace.  After a successful
    [take_native_batch] of any dispositions, [restore_native_batch] succeeds
    and the table has the same entries, count and next handle as before; the
    hooks of the two cancel out for every object and location. *)
Theorem take_then_restore_is_identity nodes t ds target alloc rs ev t1 :
  table_wf t nodes → take_native_batch unique t ds target alloc = (STATUS_OK, rs, ev, t1) →
  ∃ rs' ev' t2, restore_native_batch t1 rs = (STATUS_OK, rs', ev', t2) ∧
    table_wf t2 nodes ∧ model t2 = model t ∧
    native_entry_count t2 = native_entry_count t ∧ next_native_handle t2 = next_native_handle t ∧
    ∀ o l, net o l (ev ++ ev') = 0.
Proof.
  intros Hwf Ht. pose proof (take_native_batch_spec unique t nodes ds target alloc Hwf) as Hspec.
  rewrite Ht in Hspec. destruct Hspec as [[? _]|(_ & items & Hout)]; [done|].
  pose proof (λ o, take_events_roots unique _ _ _ _ _ _ o Hout) as Hroot.
  pose proof (λ o, take_events_transit _ _ _ _ _ _ o Hout) as Htransit.
  destruct Hout as [Hs Hnd Hrs _ Hwf1 Hm Hn Hc Hid].
  pose proof (batch_nodes_records unique (rt_id t) (model t) items Hs) as Hbn. rewrite <- Hrs in Hbn.
  pose proof (records_wf unique (rt_id t) (model t) items Hs) as Hrw. rewrite <- Hrs, <- Hid in Hrw.
  destruct (restore_native_batch_spec t1 nodes rs Hrw) as (rs' & ev' & t2 & Hr & Hwf2 & Hm2 & Hn2 & Hc2 & _ & Hev).
  { by rewrite Hbn. }
  assert (model t2 = model t) as Hmm.
  { rewrite Hm2, Hbn, Hm. apply map_eq. intros k.
    destruct (decide (k ∈ (moved_nodes (model t) items).*1)) as [Hin|Hin].
    - apply list_elem_of_fmap in Hin as ([k' e] & -> & Hin). simpl. rewrite (moved_nodes_in _ _ _ _ Hin).
      apply lookup_union_Some_l, elem_of_list_to_map_1; [by eapply moved_nodes_nodup|done].
    - rewrite lookup_union_r by by apply not_elem_of_list_to_map_1.
      by rewrite without_moved_lookup, decide_False. }
  exists rs', ev', t2. split_and!; try done; [congruence..|]. intros o l. rewrite net_app. destruct (Hev o) as [Hr1 Hr2].
  destruct l.
  - rewrite Hroot, Hr1, Hmm. lia.
  - rewrite Htransit, Hr2. lia.
Qed.

(** ** Authority *)

(** [meta'] carries no more authority than [meta]. *)
Definition attenuates (meta' meta : metadata) : Prop :=
  no_flag_outside (m_meta_rights meta') (m_meta_rights meta) = true ∧
  no_flag_outside (m_protocol_rights meta') (m_protocol_rights meta) = true.

Lemma attenuates_refl m : attenuates m m.
Proof. split; by apply no_flag_outside_spec. Qed.

Lemma attenuates_trans m1 m2 m3 : attenuates m1 m2 → attenuates m2 m3 → attenuates m1 m3.
Proof.
  unfold attenuates. rewrite !no_flag_outside_spec. intros [H1 H2] [H3 H4]. split; auto.
Qed.

(** The ways a state gives access to object [o] with metadata [m]: an entry, a
    detached node, a resource in flight. *)
Definition authority (s : rstate) (o : object) (m : metadata) : Prop :=
  (∃ k e, model (rs_table s) !! k = Some e ∧ e_object e = Some o ∧ e_meta e = m) ∨
  (∃ k e, (k, e) ∈ flight_nodes (rs_flight s) ∧ e_object e = Some o ∧ e_meta e = m) ∨
  (∃ rs r, rs ∈ rs_flight s ∧ r ∈ rs ∧ t_object (c_resource r) = Some o ∧ t_meta (c_resource r) = m).

(** The operations that derive capabilities from the ones the table has. *)
Definition derives (op : table_op) : Prop :=
  match op with
  | OpReserve _ _ | OpRollback _ | OpClose _ | OpDuplicate _ _ _ _ | OpHandleRestrict _ _ _ _
  | OpTake _ _ _ | OpRestore _ | OpCommit _ | OpClear => True
  | _ => False
  end.

Definition confined (s s' : rstate) : Prop :=
  ∀ o m', authority s' o m' → ∃ m, authority s o m ∧ attenuates m' m.

(** A step that keeps the flight and whose new entries come from old ones. *)
Lemma confined_plain s ev hs t' :
  (∀ k e o, model t' !! k = Some e → e_object e = Some o →
     ∃ k' e', model (rs_table s) !! k' = Some e' ∧ e_object e' = Some o ∧ attenuates (e_meta e) (e_meta e')) →
  confined s (plain_step s ev hs t').
Proof.
  intros Hsub o m' [(k & e & Hk & Ho & <-)|Hflight].
  - destruct (Hsub k e o Hk Ho) as (k' & e' & Hk' & Ho' & Hat). exists (e_meta e'). split; [|done].
    left. by exists k', e'.
  - exists m'. split; [by right|apply attenuates_refl].
Qed.

Lemma confined_subset s ev hs t' :
  (∀ k e, model t' !! k = Some e → e_object e ≠ None → model (rs_table s) !! k = Some e) →
  confined s (plain_step s ev hs t').
Proof.
  intros Hsub. apply confined_plain. intros k e o Hk Ho. exists k, e. split_and!; auto using attenuates_refl.
  apply Hsub; [done|congruence].
Qed.

Lemma foldl_remove_subset hs (t : table) k e :
  model (foldl (λ t h, remove_entry h t) t hs) !! k = Some e → model t !! k = Some e.
Proof.
  revert t. induction hs as [|h hs IH]; intros t; [done|]. simpl. intros Hk%IH.
  unfold model in Hk. simpl in Hk. rewrite hm_model_remove in Hk. by apply lookup_delete_Some in Hk as [_ ?].
Qed.

Lemma reserve_loop_subset nodes n t0 t handles k e :
  step_ok nodes t0 [] handles t →
  model (reserve_loop n handles t).2 !! k = Some e → e_object e ≠ None → model t !! k = Some e.
Proof.
  revert t handles. induction n as [|n IH]; intros t handles Hs; cbn [reserve_loop]; [done|].
  pose proof (so_wf _ _ _ _ _ Hs) as Hwf.
  destruct (allocate_spec t nodes Hwf) as [->|(Hn & Hc & Hkn & ->)].
  - cbn [Z.eqb HANDLE_INVALID snd]. intros Hk _. by apply foldl_remove_subset in Hk.
  - unfold HANDLE_INVALID. rewrite (proj2 (Z.eqb_neq _ _)) by lia.
    set (new := Build_entry None (next_native_handle t) reserved default_metadata).
    change (count_up _) with (added t new).
    pose proof (added_ok nodes t new Hwf Hn Hc Hkn eq_refl ltac:(done)) as Ha.
    destruct (added_wf t nodes new) as [_ Hm]; [done..|]. intros Hk Ho.
    apply (IH (added t new) (handles ++ [next_native_handle t])) in Hk;
      [|exact (step_ok_trans nodes t0 t _ [] [] handles [next_native_handle t] Hs Ha)|done].
    rewrite Hm in Hk. apply lookup_insert_Some in Hk as [[_ <-]|[_ Hk]]; [done|done].
Qed.

Lemma rollback_subset hs (t : table) k e :
  model (rollback_native t hs) !! k = Some e → model t !! k = Some e.
Proof.
  unfold rollback_native. revert t. induction hs as [|h hs IH]; intros t; [done|]. simpl. intros Hk%IH.
  unfold rollback_one in Hk. repeat case_match; try done.
  unfold model in Hk. simpl in Hk. rewrite hm_model_remove in Hk. by apply lookup_delete_Some in Hk as [_ ?].
Qed.

Lemma take_step_confined s ds target alloc :
  rstate_wf s → confined s (table_step s (OpTake ds target alloc)).
Proof.
  intros Hs o m'. pose proof (rw_table s Hs) as Hwf. cbn [table_step].
  pose proof (take_native_batch_spec unique (rs_table s) _ ds target alloc Hwf) as Ht.
  destruct (take_native_batch unique (rs_table s) ds target alloc) as [[[status rs] ev] t'].
  destruct Ht as [(Hst & -> & -> & ->)|(-> & items & [Hsn Hnd Hrs _ Hwf' Hm Hn Hc Hid])].
  { unfold status_ok. rewrite bool_decide_eq_false_2 by done. intros Ha. exists m'.
    split; [done|apply attenuates_refl]. }
  change (status_ok STATUS_OK) with true. unfold authority. cbn [rs_table rs_flight].
  intros [(k & e & Hk & Ho & <-)|[(k & e & Hin & Ho & <-)|(rs0 & r & Hin & Hr & Ho & <-)]].
  - exists (e_meta e). split; [|apply attenuates_refl]. left. exists k, e. split_and!; try done.
    rewrite Hm, without_moved_lookup in Hk. by case_decide.
  - exists (e_meta e). split; [|apply attenuates_refl]. rewrite flight_nodes_app in Hin.
    apply elem_of_app in Hin as [Hin|Hin]; [by right; left; exists k, e|]. left. exists k, e.
    split_and!; try done. unfold flight_nodes in Hin. csimpl in Hin.
    rewrite app_nil_r, Hrs, (batch_nodes_records unique) in Hin by done. by apply moved_nodes_in in Hin.
  - apply elem_of_app in Hin as [Hin|Hin%list_elem_of_singleton].
    { exists (t_meta (c_resource r)). split; [|apply attenuates_refl]. right. right. by exists rs0, r. }
    subst rs0 rs. apply list_elem_of_fmap in Hr as (rec & -> & Hr). apply list_elem_of_fmap in Hr as (it & -> & Hr).
    apply list_elem_of_fmap in Hr as ([d sn] & -> & Hr). rewrite Forall_forall in Hsn.
    destruct (Hsn _ Hr) as (found & obj & Hk & Ha & Hfo & Hso & _ & Hrights & Hprot & _). simpl in Hk, Hso, Hrights, Hprot.
    exists (e_meta found). split.
    + left. exists (d_handle d), found. split_and!; try done.
      destruct (decide (d_operation d = RESOURCE_MOVE)).
      * rewrite (record_of_move _ _ d sn found obj) in Ho by done. simpl in Ho. congruence.
      * rewrite (record_of_keep _ _ d sn obj) in Ho by done. simpl in Ho. congruence.
    + assert (attenuates (e_meta sn) (e_meta found)) as Hat.
      { split; [done|]. rewrite Hprot. apply attenuates_refl. }
      destruct (decide (d_operation d = RESOURCE_MOVE)).
      * by rewrite (record_of_move _ _ d sn found obj).
      * by rewrite (record_of_keep _ _ d sn obj).
Qed.

Lemma batch_step_confined s i : rstate_wf s →
  confined s (table_step s (OpRestore i)) ∧ confined s (table_step s (OpCommit i)).
Proof.
  intros Hs. pose proof Hs as [Hwf Hrs _ _]. cbn [table_step].
  assert (confined s s) as Hsame.
  { intros o m Ha. exists m. split; [done|apply attenuates_refl]. }
  destruct (rs_flight s !! i) as [rs|] eqn:Hi; [|done].
  pose proof (flight_nodes_delete _ _ _ Hi) as Hp. pose proof Hwf as Hwf'.
  apply (table_wf_perm _ _ _ Hp) in Hwf'. rewrite Forall_forall in Hrs.
  pose proof (Hrs rs (list_elem_of_lookup_2 _ _ _ Hi)) as Hrw.
  assert (∀ t' log iss,
    (∀ k e, model t' !! k = Some e → model (rs_table s) !! k = Some e ∨ (k, e) ∈ batch_nodes rs) →
    confined s (Build_rstate t' (delete i (rs_flight s)) log iss)) as Hgen.
  { intros t' log iss Hsub o m'. unfold authority. cbn [rs_table rs_flight].
    intros [(k & e & Hk & Ho & <-)|[(k & e & Hin & Ho & <-)|(rs0 & r & Hin & Hr & Ho & <-)]].
    - exists (e_meta e). split; [|apply attenuates_refl].
      destruct (Hsub k e Hk) as [Hk'|Hin]; [by left; exists k, e|]. right. left. exists k, e.
      rewrite Hp, elem_of_app. split_and!; auto.
    - exists (e_meta e). split; [|apply attenuates_refl]. right. left. exists k, e.
      rewrite Hp, elem_of_app. split_and!; auto.
    - exists (t_meta (c_resource r)). split; [|apply attenuates_refl]. right. right. exists rs0, r.
      split_and!; try done. apply (elem_of_sublist _ _ _ Hin). apply sublist_delete. }
  split.
  - destruct (restore_native_batch_spec (rs_table s) _ rs Hrw Hwf') as (rs' & ev & t' & -> & _ & Hm & _).
    change (status_ok STATUS_OK) with true. apply Hgen. intros k e. rewrite Hm.
    intros [Hk|[_ Hk]]%lookup_union_Some_raw; [right|by left]. by apply elem_of_list_to_map_2.
  - destruct (commit_native_batch_spec (rs_table s) _ rs Hrw Hwf') as (_ & Hm & _).
    apply Hgen. intros k e. rewrite Hm. by left.
Qed.

Lemma derive_step_confined s op :
  rstate_wf s → derives op → confined s (table_step s op).
Proof.
  intros Hs Hd. pose proof (rw_table s Hs) as Hwf. destruct op; try done;
    first [by apply take_step_confined|by apply batch_step_confined|unfold table_step].
  - destruct (reserve_native (rs_table s) count alloc_ok) as [[st hs] t'] eqn:Hr.
    apply confined_subset. intros k e Hk Ho. revert Hr. unfold reserve_native.
    destruct (_ <? _); [intros; by simplify_eq|]. destruct (_ && _); [intros; by simplify_eq|]. intros Hr.
    apply (reserve_loop_subset _ (Z.to_nat count) (rs_table s) _ [] k e (step_ok_refl _ _ Hwf)); [|done].
    by rewrite Hr.
  - apply confined_subset. intros k e Hk _. by apply rollback_subset in Hk.
  - unfold close_native. destruct (_ =? _); [by apply confined_subset|].
    destruct (lookup_native (rs_table s) h) as [e|] eqn:Hl; [|by apply confined_subset].
    apply confined_subset. intros k e' Hk _. unfold model in Hk. simpl in Hk. rewrite hm_model_remove in Hk.
    by apply lookup_delete_Some in Hk as [_ ?].
  - pose proof (handle_duplicate_ok _ _ output_ok source rights write_status Hwf) as Ho.
    destruct (handle_duplicate _ _ _ _ _ _) as [[[st h] ev] t'].
    destruct Ho as [_ [[_ Hm]|(_ & e & obj & rights' & Hk & _ & Hobj & _ & Hf & Hm)]].
    + apply confined_subset. intros k e'. by rewrite Hm.
    + apply confined_plain. intros k e' o. rewrite Hm.
      intros [[<- <-]|[_ Hk']]%lookup_insert_Some Ho'; simpl in Ho'.
      * exists source, e. split_and!; [done|congruence|]. split; [done|]. simpl. apply (attenuates_refl (e_meta e)).
      * exists k, e'. split_and!; auto using attenuates_refl.
  - pose proof (handle_restrict_spec _ _ arguments source r write_status Hwf) as Ho.
    destruct (handle_restrict _ _ _ _ _) as [[[st h] ev] t'].
    destruct Ho as [_ [(_ & Hm & _)|(_ & e & obj & Hk & _ & Hobj & _ & Hd' & Hm)]].
    + apply confined_subset. intros k e'. by rewrite Hm.
    + apply confined_plain. intros k e' o. rewrite Hm.
      intros [[<- <-]|[_ Hk']]%lookup_insert_Some Ho'; simpl in Ho'.
      * exists source, e. apply restriction_denied_false in Hd' as (D1 & D2 & _).
        split_and!; [done|congruence|]. by split.
      * apply lookup_delete_Some in Hk' as [_ Hk']. exists k, e'. split_and!; auto using attenuates_refl.
  - unfold clear_table, clear_native_locked. apply confined_subset. intros k e Hk _.
    unfold model in Hk. simpl in Hk. by rewrite hm_model_empty, lookup_empty in Hk.
Qed.

(** Executions that only derive. *)
Inductive derivation (s : rstate) : rstate → Prop :=
| derivation_refl : derivation s s
| derivation_step s' op :
    derivation s s' → op_allowed s' op → derives op → derivation s (table_step s' op).


Lemma nodup_handle_inj (items : list (disposition * entry)) d d' sn sn' :
  NoDup (d_handle <$> items.*1) → (d, sn) ∈ items → (d', sn') ∈ items → d_handle d = d_handle d' → d = d'.
Proof.
  intros Hnd (i & Hi)%list_elem_of_lookup (j & Hj)%list_elem_of_lookup Heq.
  assert (i = j); [|by simplify_eq].
  apply (NoDup_lookup _ i j (d_handle d) Hnd); rewrite !list_lookup_fmap; [by rewrite Hi|by rewrite Hj, Heq].
Qed.

(** A committed transfer removes exactly the moved handles.  After a
    successful take and its commit, the table has every entry it had except
    the moved ones and its count matches again; and each resource that
    travelled is the object of an active entry that had the transfer right,
    with meta rights within that entry's and the same protocol rights. *)
Theorem take_then_commit_moves nodes t ds target alloc rs ev t1 :
  table_wf t nodes → take_native_batch unique t ds target alloc = (STATUS_OK, rs, ev, t1) →
  let t2 := (commit_native_batch t1 rs).2 in
  table_wf t2 nodes ∧
  (∀ k, model t2 !! k =
     if decide (k ∈ (batch_nodes rs).*1) then None else model t !! k) ∧
  (∀ r, r ∈ rs → ∃ e, model t !! c_source r = Some e ∧ e_state e = active ∧
     t_object (c_resource r) = e_object e ∧ t_in_transit (c_resource r) = true ∧
     has_flag (m_meta_rights (e_meta e)) RIGHT_TRANSFER = true ∧
     attenuates (t_meta (c_resource r)) (e_meta e) ∧
     (c_moved r = true ↔ c_source r ∈ (batch_nodes rs).*1)).
Proof.
  intros Hwf Ht t2. pose proof (take_native_batch_spec unique t nodes ds target alloc Hwf) as Hspec.
  rewrite Ht in Hspec. destruct Hspec as [[? _]|(_ & items & [Hs Hnd Hrs _ Hwf1 Hm Hn Hc Hid])]; [done|].
  pose proof (batch_nodes_records unique (rt_id t) (model t) items Hs) as Hbn. rewrite <- Hrs in Hbn.
  pose proof (records_wf unique (rt_id t) (model t) items Hs) as Hrw. rewrite <- Hrs, <- Hid in Hrw.
  destruct (commit_native_batch_spec t1 nodes rs Hrw) as (Hwf2 & Hm2 & _); [by rewrite Hbn|].
  split_and!; [done|intros k; unfold t2; by rewrite Hbn, Hm2, Hm, without_moved_lookup|].
  intros r Hr. rewrite Hbn. rewrite Hrs in Hr.
  apply list_elem_of_fmap in Hr as (rec & -> & Hr). apply list_elem_of_fmap in Hr as (it & -> & Hr).
  apply list_elem_of_fmap in Hr as ([d sn] & -> & Hr). pose proof Hs as Hall. rewrite Forall_forall in Hall.
  destruct (Hall _ Hr) as (found & obj & Hk & Ha & Hfo & Hso & _ & Hrights & Hprot & Htr & _).
  simpl in Hk, Hso, Hrights, Hprot. exists found.
  assert (attenuates (e_meta sn) (e_meta found)).
  { split; [done|]. rewrite Hprot. apply (attenuates_refl (e_meta found)). }
  destruct (decide (d_operation d = RESOURCE_MOVE)) as [Hop|Hop].
  - rewrite (record_of_move _ _ d sn found obj) by done. simpl. split_and!; try done. split; [|done]. intros _.
    apply list_elem_of_fmap. exists (d_handle d, found). split; [done|]. unfold moved_nodes, item_nodes.
    apply list_elem_of_omap. exists (take_item (model t) (d, sn)).
    rewrite (take_item_move _ d sn found) by done. split; [|done].
    rewrite <- (take_item_move (model t) d sn found) by done. by apply list_elem_of_fmap_2.
  - rewrite (record_of_keep _ _ d sn obj) by done. simpl. split_and!; try done. split; [done|].
    intros Hin. exfalso. apply list_elem_of_fmap in Hin as ([k e] & Heq & Hin). simpl in Heq. subst k.
    unfold moved_nodes, item_nodes in Hin. apply list_elem_of_omap in Hin as (it & Hit & Hsnd).
    apply list_elem_of_fmap in Hit as ([d' sn'] & -> & Hr'). unfold take_item in Hsnd. simpl in Hsnd.
    destruct (Z.eqb_spec (d_operation d') RESOURCE_MOVE); [|done].
    destruct (model t !! d_handle d') eqn:Hd'; simplify_eq/=. enough (d' = d) by congruence.
    by apply (nodup_handle_inj items d' d sn' sn).
Qed.
End machine.

(** ** A concrete table *)

(** Object 5 is installed with all meta rights, duplicated without the right to
    duplicate, and handle 1 is taken out by a transfer. *)
Definition demo_unique (o : object) : bool := false.
Definition demo_meta : metadata := Build_metadata BINDING_KERNEL_VIEW [] 3 2 1 15 7.
Definition demo_ops : list table_op :=
  [OpInstall (Some 5) demo_meta; OpDuplicate true 1 (Z.lor RIGHT_TRANSFER RIGHT_WAIT) STATUS_OK;
   OpTake (Dispositions [Build_disposition 1 RESOURCE_MOVE 0 RIGHT_TRANSFER 0]) 0 true].
Definition demo_run (ops : list table_op) : rstate (M := gmap Z entry) :=
  foldl (table_step demo_unique) (initial 9) ops.

Lemma demo_reachable n : reachable demo_unique 9 (demo_run (take n demo_ops)).
Proof.
  assert (∀ ops s, forallb (λ op, match op with OpClear => false | _ => true end) ops = true →
    reachable demo_unique 9 s → reachable demo_unique 9 (foldl (table_step demo_unique) s ops)) as Hgen.
  { induction ops as [|op ops IH]; intros s Hops Hr; [done|]. simpl in *.
    apply andb_prop in Hops as [Hop Hops]. apply IH; [done|]. apply steps_step; [done|]. by destruct op. }
  apply Hgen; [|constructor]. do 4 (destruct n as [|n]; [done|]). done.
Qed.


Lemma closed_handle_stays_closed_witness :
  lookup_native (rs_table (table_step demo_unique (demo_run (take 2 demo_ops)) (OpClose 2))) 2 = None.
Proof.
  refine (proj1 (closed_handle_stays_closed demo_unique 9 (demo_run (take 2 demo_ops)) 2 _
                   (demo_reachable 2) _ (steps_refl _ _))).
  by vm_compute.
Defined.

Definition demo_table : resource_table (gmap Z entry) := rs_table (demo_run (take 2 demo_ops)).

Lemma demo_table_wf : table_wf demo_table [].
Proof. apply (steps_good demo_unique _ _ (initial_wf 9) (demo_reachable 2)). Qed.

Definition demo_restriction : restriction :=
  Build_restriction 48 RESTRICTION_META_RIGHTS 0 0 0 RIGHT_WAIT 0.

Lemma demo_restricted :
  (handle_restrict demo_table STATUS_OK 1 demo_restriction STATUS_OK).1.1 = (STATUS_OK, 3).
Proof. by vm_compute. Qed.

Lemma handle_restrict_replaces_or_keeps_witness :
  let '(status, h, ev, t') := handle_restrict demo_table STATUS_OK 1 demo_restriction STATUS_OK in
  status = STATUS_OK ∧ h = 3 ∧ table_wf t' [].
Proof.
  pose proof (handle_restrict_replaces_or_keeps [] demo_table STATUS_OK 1 demo_restriction STATUS_OK
                demo_table_wf) as Hp.
  pose proof demo_restricted as He.
  destruct (handle_restrict demo_table STATUS_OK 1 demo_restriction STATUS_OK) as [[[status h] ev] t'].
  cbn [fst] in He. injection He as -> ->.
  destruct Hp as [Hwf _]. split; [reflexivity|split; [reflexivity|exact Hwf]].
Defined.

Definition demo_taken := take_native_batch demo_unique demo_table
  (Dispositions [Build_disposition 1 RESOURCE_MOVE 0 RIGHT_TRANSFER 0]) 0 true.

Lemma demo_taken_ok :
  demo_taken = (STATUS_OK, demo_taken.1.1.2, demo_taken.1.2, demo_taken.2).
Proof. by vm_compute. Qed.

Lemma take_then_restore_is_identity_witness :
  ∃ rs' ev' t2, restore_native_batch demo_taken.2 demo_taken.1.1.2 = (STATUS_OK, rs', ev', t2) ∧
    model t2 = model demo_table.
Proof.
  destruct (take_then_restore_is_identity demo_unique [] demo_table _ _ _ _ _ _ demo_table_wf demo_taken_ok)
    as (rs' & ev' & t2 & Hr & _ & Hm & _).
  exists rs', ev', t2. split; [exact Hr|exact Hm].
Defined.

Lemma take_then_commit_moves_witness :
  model (commit_native_batch demo_taken.2 demo_taken.1.1.2).2 !! 1 = None ∧
  model (commit_native_batch demo_taken.2 demo_taken.1.1.2).2 !! 2 = model demo_table !! 2.
Proof.
  destruct (take_then_commit_moves demo_unique [] demo_table _ _ _ _ _ _ demo_table_wf demo_taken_ok)
    as (_ & Hk & _).
  split; rewrite (Hk _); by vm_compute.
Defined.

