(* ===== verification/ResourceTransfer.v ===== *)
(** Capabilities crossing process boundaries: what a forked process inherits
    ([clone_fork_bindings]) and the move of one capability between two tables
    ([move_bootstrap_capability]), on top of ResourceMachine.v. *)
From stdpp Require Import base list numbers gmap.
From S2P Require Import Prelude Abi Capability ResourceTable ResourceFacts ResourceMachine.

Local Open Scope Z_scope.
Set Default Proof Using "Type".

Section transfer.
Context {M : Type} `{HandleMapLaws M}.
Variable unique : object → bool.
Variables master slave : Z.

Abbreviation table := (resource_table M).

(** ** Fork *)

Definition inherited (ke : Z * entry) : Prop := clonable master slave ke.2 = true.

#[local] Instance inherited_dec ke : Decision (inherited ke).
Proof. unfold inherited. apply _. Defined.

Lemma clonable_object e : clonable master slave e = true → e_state e = active ∧ ∃ o, e_object e = Some o.
Proof.
  unfold clonable. rewrite !andb_true_iff, negb_true_iff, bool_decide_eq_true, bool_decide_eq_false.
  intros [[Ha Ho] _]. split; [done|]. destruct (e_object e) as [o|]; [by exists o|done].
Qed.

Lemma clone_loop_spec entries acq (t : table) :
  NoDup entries.*1 → (∀ k e, (k, e) ∈ entries → model t !! k = None ∧ e_generation e = k) →
  0 ≤ native_entry_count t → native_entry_count t + Z.of_nat (length entries) < 2 ^ 64 →
  let '(ev, t') := clone_loop master slave entries acq t in
  model t' = list_to_map (filter inherited entries) ∪ model t ∧
  native_entry_count t' = native_entry_count t + Z.of_nat (length (filter inherited entries)) ∧
  next_native_handle t' = next_native_handle t ∧ rt_id t' = rt_id t ∧
  (∀ o, net o table_root ev = net o table_root acq + sum_Z (holds o <$> (filter inherited entries).*2)).
Proof.
  revert acq t. induction entries as [|[k e] entries IH]; intros acq t Hnd Hin Hc Hlt.
  { csimpl. rewrite (left_id_L ∅ (∪)). split_and!; try done; [lia|]. intros o. unfold sum_Z. simpl. lia. }
  csimpl in Hnd. apply NoDup_cons in Hnd as [Hnin Hnd]. cbn [clone_loop].
  destruct (Hin k e ltac:(left)) as [Hk Hg]. cbn [length] in Hlt.
  destruct (decide (inherited (k, e))) as [Hi|Hi].
  - rewrite filter_cons_True by done. unfold inherited in Hi. simpl in Hi. rewrite Hi. cbn [negb].
    destruct (clonable_object e Hi) as [_ [obj Ho]].
    replace (Build_entry (e_object e) k (e_state e) (e_meta e)) with e by (by rewrite <- Hg; destruct e).
    set (t1 := count_up (insert_entry k e t)).
    assert (model t1 = <[k := e]> (model t)) as Hm by by apply hm_model_insert.
    assert (native_entry_count t1 = native_entry_count t + 1) as Hc1.
    { simpl. apply u64_small. lia. }
    specialize (IH (acq ++ match e_object e with Some o => [Acquire o table_root] | None => [] end) t1 Hnd).
    destruct (clone_loop master slave entries _ t1) as [ev t'].
    destruct IH as (Hm' & Hc' & Hn' & Hid' & Hev); [|lia|lia|].
    { intros k' e' Hin'. rewrite Hm. destruct (Hin k' e') as [Hk' Hg']; [by right|].
      rewrite lookup_insert_ne; [done|]. intros <-. apply Hnin.
      apply list_elem_of_fmap. by exists (k, e'). }
    split_and!; [|rewrite Hc', Hc1; cbn [length]; lia|done|done|].
    + rewrite Hm', Hm. csimpl. rewrite <- insert_union_r, insert_union_l; [done|].
      apply not_elem_of_list_to_map_1. intros Hf. apply Hnin.
      apply list_elem_of_fmap in Hf as ([k' e'] & -> & Hf). apply list_elem_of_filter in Hf as [_ Hf].
      apply list_elem_of_fmap. by exists (k', e').
    + intros o. rewrite Hev, net_app, Ho. csimpl. unfold holds at 2. rewrite Ho, net_cons, net_nil. held.
  - rewrite filter_cons_False by done. unfold inherited in Hi. simpl in Hi.
    apply not_true_is_false in Hi. rewrite Hi. cbn [negb].
    apply IH; try done; [|lia]. intros k' e' Hin'. apply Hin. by right.
Qed.

Lemma roots_list (l : list (Z * entry)) o :
  NoDup l.*1 → roots (list_to_map l) o = sum_Z (holds o <$> l.*2).
Proof.
  induction l as [|[k e] l IH]; csimpl; intros Hnd; [apply roots_empty|].
  apply NoDup_cons in Hnd as [Hk Hnd]. rewrite roots_insert by by apply not_elem_of_list_to_map_1.
  rewrite IH by done. unfold sum_Z. simpl. lia.
Qed.

Lemma nodup_filter_keys (l : list (Z * entry)) : NoDup l.*1 → NoDup (filter inherited l).*1.
Proof. intros Hnd. eapply sublist_NoDup; [exact Hnd|]. apply fmap_sublist, sublist_filter. Qed.

(** What the table of a forked process holds: exactly the inheritable active
    entries of its parent, under the parent's handles. *)
Definition forked (source : table) : gmap Z entry := filter inherited (model source).

Lemma source_entries (source : table) :
  NoDup (hm_entries (native_handle_map source)).*1 ∧
  list_to_map (filter inherited (hm_entries (native_handle_map source))) = forked source.
Proof.
  pose proof (hm_model_entries (native_handle_map source)) as Hp.
  assert (NoDup (hm_entries (native_handle_map source)).*1) as Hnd.
  { rewrite Hp. apply NoDup_fst_map_to_list. }
  split; [done|]. unfold forked. rewrite map_filter_alt. apply list_to_map_proper.
  - by apply nodup_filter_keys.
  - by rewrite Hp.
Qed.

Lemma fork_wf (t' source : table) nodes :
  table_wf source nodes →
  model t' = forked source → native_entry_count t' = Z.of_nat (size (forked source)) →
  next_native_handle t' = next_native_handle source →
  native_entry_count t' ≤ CAPABILITY_MAX_PER_PROCESS → table_wf t' [].
Proof.
  intros Hs Hm Hc Hn Hmax. split.
  - rewrite Hn. apply (tw_next _ _ Hs).
  - intros k e. rewrite Hm, Hn. intros [Hk _]%map_lookup_filter_Some. by apply (tw_entries _ _ Hs).
  - intros k e. by rewrite elem_of_nil.
  - constructor.
  - rewrite Hm, Hc. simpl. lia.
  - done.
Qed.

(** Forking gives the child exactly the parent's inheritable active
    entries, each under the parent's handle with the same object and metadata,
    and continues the parent's handle numbering, so that no handle the child
    allocates later names a parent's capability; the child's table is well
    formed and every inherited entry is acquired once.  When the call fails
    the child's table is untouched and no hook runs. *)
Theorem fork_inherits_bindings (t source : table) nodes alloc_ok :
  table_wf t [] → table_wf source nodes →
  let '(status, ev, t') := clone_fork_bindings master slave t source alloc_ok in
  (status ≠ STATUS_OK ∧ ev = [] ∧ t' = t) ∨
  (status = STATUS_OK ∧ model t' = forked source ∧
   next_native_handle t' = next_native_handle source ∧ table_wf t' [] ∧
   (∀ o, net o table_root ev = roots (model t') o)).
Proof.
  intros Ht Hs. unfold clone_fork_bindings.
  destruct (rt_id t =? rt_id source); [by left|].
  destruct (Z.eqb_spec (native_entry_count t) 0) as [Hz|]; simpl negb; cbv iota; [|by left].
  set (entries := hm_entries (native_handle_map source)).
  destruct (source_entries source) as [Hnd Hlm]. fold entries in Hnd, Hlm.
  assert (filter (λ '(_, e), clonable master slave e = true) entries = filter inherited entries) as ->.
  { apply list_filter_iff.
    intros x. destruct x as [k e]. done. }
  destruct (Z.ltb_spec CAPABILITY_MAX_PER_PROCESS (Z.of_nat (length (filter inherited entries)))) as [|Hmax];
    [by left|].
  destruct (_ && _); [by left|].
  pose proof (tw_count _ _ Ht) as Hct. rewrite Hz in Hct. simpl in Hct.
  assert (model t = ∅) as Hmt by (apply map_size_empty_inv; lia).
  pose proof (tw_count _ _ Hs) as Hcs. pose proof (tw_max _ _ Hs) as Hms.
  unfold CAPABILITY_MAX_PER_PROCESS in *.
  assert (length entries = size (model source)) as Hlen.
  { unfold entries. rewrite hm_model_entries. by rewrite length_map_to_list. }
  pose proof (clone_loop_spec entries [] (with_next (next_native_handle source) t) Hnd) as Hspec.
  destruct (clone_loop master slave entries [] _) as [ev t'].
  destruct Hspec as (Hm' & Hc' & Hn' & _ & Hev); [|simpl; lia|simpl; lia|].
  { intros k e Hin. split; [change (model t !! k = None); by rewrite Hmt|].
    unfold entries in Hin. rewrite hm_model_entries in Hin. apply elem_of_map_to_list in Hin.
    by destruct (tw_entries _ _ Hs k e Hin) as (_ & ? & _). }
  change (model (with_next (next_native_handle source) t)) with (model t) in Hm'.
  rewrite Hmt, (right_id_L ∅ (∪)), Hlm in Hm'. simpl in Hc', Hn'.
  assert (length (filter inherited entries) = size (forked source)) as Hsz.
  { rewrite <- Hlm. rewrite <- length_map_to_list, map_to_list_to_map; [done|by apply nodup_filter_keys]. }
  right. split_and!; [done|done|done| |].
  - eapply fork_wf; try done; [|rewrite Hc', Hz; unfold CAPABILITY_MAX_PER_PROCESS; lia]. rewrite Hc', Hz, Hsz. lia.
  - intros o. rewrite Hev, Hm', <- Hlm, roots_list by by apply nodup_filter_keys. unfold net. simpl. lia.
Qed.

(** ** Moving one capability between two tables *)

Definition move_one (h : Z) : disposition_array := Dispositions [Build_disposition h RESOURCE_MOVE 0 0 0].

Lemma move_one_snapshot (t : table) h snapshot :
  check_disposition unique t [] HANDLE_INVALID (Build_disposition h RESOURCE_MOVE 0 0 0) = inr snapshot →
  model t !! h = Some snapshot ∧ e_state snapshot = active ∧ ∃ obj, e_object snapshot = Some obj.
Proof.
  unfold check_disposition. cbn [d_handle d_operation d_flags d_rights d_scope].
  destruct (_ || _); [done|]. simpl existsb. cbv iota.
  destruct (lookup_native t h) as [e|] eqn:Hl; [|done]. apply lookup_native_spec in Hl as [Hk Ha].
  destruct (e_object e) as [obj|] eqn:Ho; [|done]. simpl.
  destruct (negb _); [done|]. destruct (negb _); [done|]. intros [= <-].
  assert (with_meta (with_meta_rights (m_meta_rights (e_meta e)) (e_meta e)) e = e) as -> by by destruct e as [? ? ? []].
  split_and!; [done|done|by exists obj].
Qed.

Record moved_one (t : table) (nodes : list (Z * entry)) (h : Z) (rs : list transfer_record)
    (ev : list cap_event) (t' : table) (e : entry) (obj : object) : Prop := Build_moved_one {
  mo_entry : model t !! h = Some e;
  mo_active : e_state e = active;
  mo_object : e_object e = Some obj;
  mo_records : rs = [Build_record h true (Build_transferred (Some obj) (e_meta e) true)
                       (Build_token (Some (rt_id t)) (Some (h, e)) None)];
  mo_events : ev = [Acquire obj in_transit; Handoff obj table_root in_transit];
  mo_wf : table_wf t' ((h, e) :: nodes);
  mo_model : model t' = delete h (model t);
  mo_id : rt_id t' = rt_id t;
}.

Lemma take_one (t : table) nodes h alloc :
  table_wf t nodes →
  let '(status, rs, ev, t') := take_native_batch unique t (move_one h) HANDLE_INVALID alloc in
  (status ≠ STATUS_OK ∧ rs = [] ∧ ev = [] ∧ t' = t) ∨
  (status = STATUS_OK ∧ ∃ e obj, moved_one t nodes h rs ev t' e obj).
Proof.
  intros Hwf. unfold take_native_batch, move_one. cbn [length]. change (CHANNEL_MAX_RESOURCES <? Z.of_nat 1) with false.
  cbv iota. destruct (_ && _); [by left|]. cbn [snapshot_loop].
  destruct (check_disposition unique t [] HANDLE_INVALID _) as [status|snapshot] eqn:Hc.
  { left. split; [|done]. by eapply check_disposition_fails. }
  destruct (move_one_snapshot t h snapshot Hc) as (Hk & Ha & obj & Ho).
  destruct (hm_detach_some _ _ _ Hk) as [Hd _]. destruct (detached_wf t nodes h snapshot Hwf Hk Ha) as [Hwf' Hm].
  cbn [detach_loop d_operation d_handle]. change (RESOURCE_MOVE =? RESOURCE_MOVE) with true. cbv iota.
  destruct (hm_detach (native_handle_map t) h) as [node m]. simpl in Hd, Hwf', Hm. subst node.
  rewrite move_assign_same, with_object_same by done. cbn [detach_loop].
  right. split; [done|]. exists snapshot, obj. split; try done.
  - simpl. unfold record_of. simpl. by rewrite Ho.
  - simpl. unfold record_of. simpl. by rewrite Ho.
Qed.

Lemma reserve_one (t : table) nodes alloc :
  table_wf t nodes →
  let '(status, hs, t') := reserve_native t 1 alloc in
  table_wf t' nodes ∧
  ((status ≠ STATUS_OK ∧ hs = [] ∧ model t' = model t) ∨
   (status = STATUS_OK ∧ ∃ h, hs = [h] ∧ h ≠ HANDLE_INVALID ∧ model t !! h = None ∧
      model t' = <[h := Build_entry None h reserved default_metadata]> (model t))).
Proof.
  intros Hwf. pose proof (reserve_native_ok nodes t 1 alloc Hwf) as Hok.
  destruct (reserve_native t 1 alloc) as [[status hs] t'] eqn:Hr. destruct Hok as [Hs _].
  split; [apply Hs|]. unfold reserve_native in Hr. change (CAPABILITY_MAX_PER_PROCESS <? 1) with false in Hr.
  cbv iota in Hr. destruct (_ && _); [left; by simplify_eq|]. simpl in Hr.
  destruct (allocate_spec t nodes Hwf) as [Ha|(Hn & Hc & Hk & Ha)]; rewrite Ha in Hr.
  - simpl in Hr. left. by simplify_eq.
  - rewrite (proj2 (Z.eqb_neq _ _)) in Hr by (unfold HANDLE_INVALID; lia). right. simplify_eq.
    split; [done|]. exists (next_native_handle t). split_and!; [done|unfold HANDLE_INVALID; lia|done|].
    by apply hm_model_insert.
Qed.

Lemma activate_one (t : table) nodes h obj meta m :
  table_wf t nodes → h ≠ HANDLE_INVALID →
  model t = <[h := Build_entry None h reserved default_metadata]> m →
  let '(status, r', ev, t') := activate_native t h (Build_transferred (Some obj) meta true) in
  status = STATUS_OK ∧ ev = [Acquire obj table_root; Release obj in_transit] ∧ table_wf t' nodes ∧
  model t' = <[h := Build_entry (Some obj) h active meta]> m.
Proof.
  intros Hwf Hh Hm. pose proof (activate_native_ok nodes t h (Build_transferred (Some obj) meta true) Hwf) as Hok.
  assert (model t !! h = Some (Build_entry None h reserved default_metadata)) as Hk
    by (rewrite Hm; apply lookup_insert_eq).
  unfold activate_native in *. rewrite (proj2 (Z.eqb_neq _ _) Hh), get_entry_model, Hk in *. simpl in *.
  destruct Hok as [Hok _]. split_and!; [done|done|apply Hok|].
  destruct (set_wf t nodes h _ (Build_entry (Some obj) h active meta) Hwf Hk) as [_ ->]; [done..|].
  by rewrite Hm, insert_insert_eq.
Qed.

(** The source side: the move is undone, or becomes final. *)
Lemma restore_one (t t' : table) nodes h rs ev e obj :
  moved_one t nodes h rs ev t' e obj →
  ∃ rs' ev' t2, restore_native_batch t' rs = (STATUS_OK, rs', ev', t2) ∧ table_wf t2 nodes ∧
    model t2 = model t ∧ ∀ o, net o table_root (ev ++ ev') = 0 ∧ net o in_transit (ev ++ ev') = 0.
Proof.
  intros [Hk Ha Ho -> -> Hwf Hm Hid]. set (r := Build_record _ _ _ _).
  assert (record_wf (rt_id t') r) as Hrec.
  { exists obj, (e_meta e). split; [done|]. exists e. by rewrite Hid. }
  destruct (restore_native_batch_spec t' nodes [r]) as (rs' & ev & t2 & -> & Hwf2 & Hm2 & _ & _ & _ & Hnet);
    [by constructor|done|].
  assert (model t2 = model t) as Hmt.
  { rewrite Hm2, Hm. change (batch_nodes [r]) with [(h, e)]. csimpl.
    by rewrite <- insert_union_l, (left_id_L ∅ (∪)), insert_delete_id. }
  eexists _, _, _. split_and!; [done..|]. intros o. rewrite !net_app, !net_cons, !net_nil.
  destruct (Hnet o) as [-> ->]. rewrite Hmt, Hm, (roots_delete _ h e) by done.
  unfold carried, holds. simpl. rewrite Ho. split; held.
Qed.

Lemma commit_moved (t t' : table) nodes h res rs ev e obj :
  moved_one t nodes h rs ev t' e obj →
  ∃ t2, commit_native_batch t' [Build_record h true res (Build_token (Some (rt_id t)) (Some (h, e)) None)] =
          ([Build_record h true res (Build_token (Some (rt_id t)) None None)], t2) ∧
    table_wf t2 nodes ∧ model t2 = delete h (model t).
Proof.
  intros [Hk Ha Ho -> -> Hwf Hm Hid]. exists (count_down t').
  set (r := Build_record h true (Build_transferred (Some obj) (e_meta e) true)
              (Build_token (Some (rt_id t')) (Some (h, e)) None)).
  destruct (commit_native_batch_spec t' nodes [r]) as (Hwf2 & Hm2 & _).
  { constructor; [|done]. exists obj, (e_meta e). split; [done|]. by exists e. }
  { done. }
  rewrite <- Hid. unfold r in *. simpl in *. unfold commit_one, belongs_to in *. simpl in *.
  rewrite bool_decide_eq_true_2 in * by done. simpl in *. split_and!; [done|done|congruence].
Qed.

Lemma keep_record (rs : list transfer_record) :
  match rs with
  | r :: rest =>
    Build_record (c_source r) (c_moved r) (match rs with r :: _ => c_resource r | [] => empty_resource end)
      (c_token r) :: rest
  | [] => []
  end = rs.
Proof. by destruct rs as [|[]]. Qed.

(** Moving a bootstrap capability either moves it or changes nothing: on
    success the source has lost the handle and the destination holds, under a
    fresh handle, an active entry with the same object and the same metadata;
    on failure both tables hold exactly what they held.  In both cases the
    tables are well formed, no reference is left in transit and the hooks add
    up to the change of both tables. *)
Theorem bootstrap_moves_or_keeps (source destination : table) snodes dnodes h dh take_alloc reserve_alloc :
  table_wf source snodes → table_wf destination dnodes →
  let '(ok, h', dh', ev, source', destination') :=
    move_bootstrap_capability unique source destination h dh take_alloc reserve_alloc in
  table_wf source' snodes ∧ table_wf destination' dnodes ∧
  (∀ o, net o table_root ev = roots (model source') o - roots (model source) o +
          (roots (model destination') o - roots (model destination) o) ∧
        net o in_transit ev = 0) ∧
  ((ok = false ∧ h' = h ∧ dh' = dh ∧ model source' = model source ∧ model destination' = model destination) ∨
   (ok = true ∧ h' = HANDLE_INVALID ∧ ∃ e, model source !! h = Some e ∧ e_state e = active ∧
      model source' = delete h (model source) ∧ model destination !! dh' = None ∧
      model destination' = <[dh' := Build_entry (e_object e) dh' active (e_meta e)]> (model destination))).
Proof.
  intros Hs Hd. unfold move_bootstrap_capability.
  destruct (_ || _); [split_and!; try done; [intros o; rewrite !net_nil; lia|by left]|].
  pose proof (take_one source snodes h take_alloc Hs) as Ht. unfold move_one in Ht.
  destruct (take_native_batch unique source _ HANDLE_INVALID take_alloc) as [[[st rs] tev] s1].
  destruct Ht as [(Hst & -> & -> & ->)|(-> & e & obj & Hmo)].
  { destruct st; try done; simpl; (split_and!; [done|done|intros o; rewrite !net_nil; lia|by left]). }
  change (negb (status_ok STATUS_OK)) with false. cbv iota.
  pose proof (reserve_one destination dnodes reserve_alloc Hd) as Hr.
  destruct (reserve_native destination 1 reserve_alloc) as [[st1 hs] d1].
  destruct Hr as [Hwfd [(Hst & -> & Hmd)|(-> & dh2 & -> & Hdh & Hkd & Hmd)]].
  - assert (status_ok st1 = false) as Hf by by apply bool_decide_eq_false_2.
    rewrite Hf, Hf. cbn [negb]. rewrite keep_record.
    destruct (restore_one source s1 snodes h rs tev e obj Hmo) as (rs' & ev & s2 & -> & Hwf2 & Hm2 & Hnet).
    split_and!; [done|done| |by left]. intros o. change (tev ++ [] ++ ev) with (tev ++ ev). destruct (Hnet o) as [-> ->].
    rewrite Hm2. simpl. rewrite Hmd. lia.
  - change (status_ok STATUS_OK) with true. cbv iota.
    pose proof (mo_records _ _ _ _ _ _ _ _ Hmo) as ->. cbn [c_resource c_source c_moved c_token].
    pose proof (activate_one d1 dnodes dh2 obj (e_meta e) _ Hwfd Hdh Hmd) as Hact.
    destruct (activate_native d1 dh2 _) as [[[st2 r'] aev] d2]. destruct Hact as (-> & -> & Hwf2 & Hm2).
    change (negb (status_ok STATUS_OK)) with false. cbv iota.
    destruct (commit_moved source s1 snodes h r' _ tev e obj Hmo) as (s2 & -> & Hwfs & Hms).
    destruct Hmo as [Hk Ha Ho _ -> _ _ _]. split_and!; [done|done| |right; rewrite <- Ho in Hm2; eauto 10].
    + intros o. rewrite Hms, Hm2, roots_insert, (roots_delete _ h e), !net_app, !net_cons, !net_nil by done.
      unfold holds. simpl. rewrite Ho. split; held.
Qed.
End transfer.

(** ** Witnesses *)

Definition demo_child : resource_table (gmap Z entry) := make_resource_table 8.

Lemma demo_child_wf : table_wf demo_child [].
Proof. apply (initial_wf 8). Qed.

Lemma fork_inherits_bindings_witness :
  let '(status, ev, t') := clone_fork_bindings 20 21 demo_child demo_table true in
  model t' !! 1 = model demo_table !! 1 ∧ next_native_handle t' = 3 ∧ table_wf t' [] ∧
  net 5 table_root ev = roots (model t') 5.
Proof.
  pose proof (fork_inherits_bindings 20 21 demo_child demo_table [] true demo_child_wf demo_table_wf) as Hp.
  assert ((clone_fork_bindings 20 21 demo_child demo_table true).1.1 = STATUS_OK) as Hok by by vm_compute.
  assert (model (clone_fork_bindings 20 21 demo_child demo_table true).2 !! 1 = model demo_table !! 1) as H1
    by by vm_compute.
  destruct (clone_fork_bindings 20 21 demo_child demo_table true) as [[status ev] t']. simpl in Hok, H1. subst status.
  destruct Hp as [(Hno & _)|(_ & _ & Hn & Hwf & Hnet)]; [by destruct Hno|].
  split_and!; [exact H1|rewrite Hn; by vm_compute|exact Hwf|apply Hnet].
Defined.

Lemma bootstrap_moves_or_keeps_witness :
  let '(ok, h', dh', ev, source', destination') :=
    move_bootstrap_capability demo_unique demo_table demo_child 1 0 true true in
  ok = true ∧ dh' = 1 ∧ model source' !! 1 = None ∧ net 5 in_transit ev = 0.
Proof.
  pose proof (bootstrap_moves_or_keeps demo_unique demo_table demo_child [] [] 1 0 true true
                demo_table_wf demo_child_wf) as Hp.
  assert ((move_bootstrap_capability demo_unique demo_table demo_child 1 0 true true).1.1.1 = (true, 0, 1)) as Hok
    by by vm_compute.
  destruct (move_bootstrap_capability demo_unique demo_table demo_child 1 0 true true)
    as [[[[[ok h'] dh'] ev] s'] d'].
  simpl in Hok. injection Hok as -> -> ->.
  destruct Hp as (_ & _ & Hnet & [(Hno & _)|(_ & _ & e & _ & _ & Hs & _)]); [discriminate Hno|].
  split_and!; [reflexivity|reflexivity|rewrite Hs; apply lookup_delete_eq|apply Hnet].
Defined.
