(* ===== verification/Usercopy.v ===== *)
(** The address checks of the user copies: [is_user_space_range] of
    includes/kernel/arch/klib.hpp and [valid_range], [valid_output_range],
    [valid_struct_size] and [ranges_overlap] of includes/kernel/usercopy.hpp.
    Addresses and sizes are unsigned 64-bit integers and every subtraction
    wraps as in the source; the theorem says when the checks accept.  The
    copies themselves run a faulting instruction and are represented by the
    status they return where the system calls are modelled. *)
From stdpp Require Import base list numbers.
From S2P Require Import Prelude Abi.

Local Open Scope Z_scope.

Definition maximum_user_addr : Z := 0x00007FFFFFFFFFFF.
Definition minimum_user_addr : Z := 0.

Definition is_user_space_pointer (address : Z) : bool :=
  negb (address =? 0) && (minimum_user_addr <=? address) && (address <=? maximum_user_addr).

Definition is_user_space_range (address size : Z) : bool :=
  if size =? 0 then (address =? 0) || is_user_space_pointer address
  else is_user_space_pointer address && (u64 (size - 1) <=? u64 (maximum_user_addr - address)).

Definition valid_range (address size : Z) : bool :=
  if size =? 0 then address =? 0 else is_user_space_range address size.

Definition valid_output_range (address capacity : Z) : bool :=
  if capacity =? 0 then address =? 0 else is_user_space_range address capacity.

Definition valid_struct_size (actual expected : Z) : bool := expected <=? actual.

(** [copy_versioned]: the declared size is read first, then the whole frame;
    the two copies' statuses come from the memory of the caller. *)
Definition copy_versioned (address declared_size expected : Z) (first second : na_status) : na_status :=
  if (address =? 0) || negb (is_user_space_range address 4) then FAULT
  else if negb (status_ok first) then first
  else if negb (valid_struct_size declared_size expected) then INVALID_ARGUMENT
  else second.

Definition ranges_overlap (first first_size second second_size : Z) : bool :=
  if (first_size =? 0) || (second_size =? 0) then false
  else if negb (valid_range first first_size) || negb (valid_range second second_size) then true
  else if first <? second then u64 (second - first) <? first_size
       else u64 (first - second) <? second_size.

(** ** What the checks accept *)

(** The addresses of a buffer. *)
Definition covers (address size a : Z) : Prop := address ≤ a < address + size.

Lemma valid_range_spec address size :
  0 ≤ address < 2 ^ 64 → 0 < size < 2 ^ 64 →
  valid_range address size = true ↔ 0 < address ∧ address + size - 1 ≤ maximum_user_addr.
Proof.
  intros Ha Hs. unfold valid_range, is_user_space_range, is_user_space_pointer, minimum_user_addr, maximum_user_addr.
  rewrite (proj2 (Z.eqb_neq size 0)) by lia. rewrite (u64_small (size - 1)) by lia.
  rewrite !andb_true_iff, negb_true_iff, Z.eqb_neq, !Z.leb_le. split.
  - intros [[[H0 _] Hm] Hr]. rewrite u64_small in Hr; lia.
  - intros [H0 Hm]. rewrite u64_small; lia.
Qed.

(** Two non-empty buffers pass the overlap check exactly when both lie
    entirely inside user space, without wrapping around, and share no
    address; an empty buffer overlaps nothing. *)
Theorem ranges_overlap_exact first first_size second second_size :
  0 ≤ first < 2 ^ 64 → 0 ≤ first_size < 2 ^ 64 → 0 ≤ second < 2 ^ 64 → 0 ≤ second_size < 2 ^ 64 →
  ranges_overlap first first_size second second_size = false ↔
  first_size = 0 ∨ second_size = 0 ∨
  ((∀ a, covers first first_size a → 0 < a ≤ maximum_user_addr) ∧
   (∀ a, covers second second_size a → 0 < a ≤ maximum_user_addr) ∧
   (∀ a, covers first first_size a → covers second second_size a → False)).
Proof.
  intros Hf Hfs Hs Hss. unfold ranges_overlap, covers.
  destruct (Z.eqb_spec first_size 0); [tauto|]. destruct (Z.eqb_spec second_size 0); [tauto|]. cbn [orb].
  destruct (valid_range first first_size) eqn:Hv1; cbn [negb orb].
  2: { split; [done|]. intros [?|[?|(H1 & _)]]; [done..|]. exfalso.
       apply not_true_iff_false in Hv1. apply Hv1, valid_range_spec; [lia..|].
       pose proof (H1 first ltac:(lia)). pose proof (H1 (first + first_size - 1) ltac:(lia)). lia. }
  destruct (valid_range second second_size) eqn:Hv2; cbn [negb].
  2: { split; [done|]. intros [?|[?|(_ & H1 & _)]]; [done..|]. exfalso.
       apply not_true_iff_false in Hv2. apply Hv2, valid_range_spec; [lia..|].
       pose proof (H1 second ltac:(lia)). pose proof (H1 (second + second_size - 1) ltac:(lia)). lia. }
  apply valid_range_spec in Hv1, Hv2; [|lia..].
  destruct (Z.ltb_spec first second); rewrite u64_small, Z.ltb_ge by lia.
  - split; [intros; right; right; split_and!; intros; lia|].
    intros [?|[?|(_ & _ & H1)]]; [done..|]. destruct (decide (second - first < first_size)); [|lia].
    exfalso. apply (H1 second); lia.
  - split; [intros; right; right; split_and!; intros; lia|].
    intros [?|[?|(_ & _ & H1)]]; [done..|]. destruct (decide (first - second < second_size)); [|lia].
    exfalso. apply (H1 first); lia.
Qed.

Lemma ranges_overlap_exact_witness :
  ranges_overlap 4096 16 4112 8 = false ∧ ∀ a, covers 4096 16 a → covers 4112 8 a → False.
Proof.
  split; [reflexivity|].
  destruct (proj1 (ranges_overlap_exact 4096 16 4112 8 ltac:(lia) ltac:(lia) ltac:(lia) ltac:(lia)) eq_refl)
    as [H|[H|(_ & _ & H)]]; [discriminate H|discriminate H|exact H].
Defined.
