(* ===== verification/Channel.v ===== *)
(** Raw channels, includes/kernel/ipc/channel.hpp and src/kernel/ipc/channel.cc:
    the global budget, messages, the two queues of a channel with their byte
    and resource accounting, and the owner and root counters the capability
    hooks drive.  A message is named by its address (0 is null) and its
    contents live in a heap; every method runs under the channel's lock and is
    one function of the channel, the global counters and the messages it
    touches.  Failed allocations are boolean arguments. *)
From stdpp Require Import base list numbers gmap.
From S2P Require Import Prelude Abi BoundedQueue Capability ResourceTable.

Local Open Scope Z_scope.

(** ** The global budget *)

Record globals : Type := Build_globals {
  global_messages : Z;
  global_bytes : Z;
  global_resources : Z;
}.

(** The compare-exchange loop takes effect at its last iteration. *)
Definition reserve_counter (counter amount limit : Z) : bool * Z :=
  if limit <? amount then (false, counter)
  else if limit - amount <? counter then (false, counter)
  else (true, u64 (counter + amount)).

Definition release_counter (counter amount : Z) : Z := u64 (counter - amount).

Definition reserve_global (g : globals) (bytes resources : Z) : bool * globals :=
  let '(ok1, ms) := reserve_counter (global_messages g) 1 CHANNEL_GLOBAL_MAX_MESSAGES in
  if negb ok1 then (false, g)
  else
    let '(ok2, bs) := reserve_counter (global_bytes g) bytes CHANNEL_GLOBAL_MAX_BYTES in
    if negb ok2 then (false, Build_globals (release_counter ms 1) (global_bytes g) (global_resources g))
    else
      let '(ok3, rs) := reserve_counter (global_resources g) resources CHANNEL_GLOBAL_MAX_RESOURCES in
      if negb ok3 then
        (false, Build_globals (release_counter ms 1) (release_counter bs bytes) (global_resources g))
      else (true, Build_globals ms bs rs).

Definition release_global (g : globals) (bytes resources : Z) : globals :=
  Build_globals (release_counter (global_messages g) 1) (release_counter (global_bytes g) bytes)
    (release_counter (global_resources g) resources).

(** ** Messages *)

(** [cm_data] says whether the resource vector has storage. *)
Record channel_message : Type := Build_message {
  cm_bytes : option (list Z);
  cm_byte_count : Z;
  cm_resource_capacity : Z;
  cm_data : bool;
  cm_resources : list transferred_resource;
}.

Definition resource_count (m : channel_message) : Z := Z.of_nat (length (cm_resources m)).

Definition make_message (byte_count resources : Z) (bytes_ok data_ok : bool) : channel_message :=
  Build_message
    (if negb (byte_count =? 0) && bytes_ok then Some (replicate (Z.to_nat byte_count) 0) else None)
    byte_count resources data_ok [].

Definition message_valid (m : channel_message) : bool :=
  ((cm_byte_count m =? 0) || match cm_bytes m with Some _ => true | None => false end) &&
  ((cm_resource_capacity m =? 0) || cm_data m).

Definition with_bytes (bs : list Z) (m : channel_message) : channel_message :=
  Build_message (Some bs) (cm_byte_count m) (cm_resource_capacity m) (cm_data m) (cm_resources m).
Definition with_resources (rs : list transferred_resource) (m : channel_message) : channel_message :=
  Build_message (cm_bytes m) (cm_byte_count m) (cm_resource_capacity m) (cm_data m) rs.

(** Whether the resource was appended, the message and what is left of the
    argument. *)
Definition message_append (m : channel_message) (r : transferred_resource)
    : bool * channel_message * transferred_resource :=
  if cm_resource_capacity m <=? resource_count m then (false, m, r)
  else let '(mine, rest) := move_transferred r in
       (true, with_resources (cm_resources m ++ [mine]) m, rest).

(** ** Channels *)

Record msg_queue : Type := Build_queue {
  q_fifo : bounded_queue Z;
  q_bytes : Z;
  q_resources : Z;
}.

(** [queues_], [owners_] and [roots_] have one element per side. *)
Record channel_state : Type := Build_channel {
  cs_queues : list msg_queue;
  max_messages : Z;
  max_bytes : Z;
  max_resources : Z;
  cs_owners : list Z;
  cs_roots : list Z;
  active_operations : Z;
  active_claims : Z;
  endpoint_objects : Z;
  cs_valid : bool;
}.

#[global] Instance msg_queue_inhabited : Inhabited msg_queue :=
  populate (Build_queue (make_bounded_queue None 0) 0 0).

(** The pointer 0 of a queue's storage is null. *)
Abbreviation null := 0.

Definition allocate_queue_storage (capacity : Z) (ok : bool) : option (list Z) :=
  if ok then Some (replicate (Z.to_nat capacity) null) else None.

(** [ok0] and [ok1] say whether the two storages were allocated and
    [registered] whether the state entered the registry. *)
Definition make_channel (messages bytes resources : Z) (ok0 ok1 registered : bool) : channel_state :=
  Build_channel
    [Build_queue (make_bounded_queue (allocate_queue_storage messages ok0) messages) 0 0;
     Build_queue (make_bounded_queue (allocate_queue_storage messages ok1) messages) 0 0]
    messages bytes resources [0; 0] [0; 0] 0 0 0 (ok0 && ok1 && registered).

Definition queue_of (st : channel_state) (side : Z) : msg_queue := zget (cs_queues st) side.
Definition owners (st : channel_state) (side : Z) : Z := zget (cs_owners st) side.
Definition roots_of (st : channel_state) (side : Z) : Z := zget (cs_roots st) side.

Definition set_queue (side : Z) (q : msg_queue) (st : channel_state) : channel_state :=
  Build_channel (zset (cs_queues st) side q) (max_messages st) (max_bytes st) (max_resources st)
    (cs_owners st) (cs_roots st) (active_operations st) (active_claims st) (endpoint_objects st) (cs_valid st).
Definition set_owners (side n : Z) (st : channel_state) : channel_state :=
  Build_channel (cs_queues st) (max_messages st) (max_bytes st) (max_resources st)
    (zset (cs_owners st) side n) (cs_roots st) (active_operations st) (active_claims st) (endpoint_objects st)
    (cs_valid st).
Definition set_roots (side n : Z) (st : channel_state) : channel_state :=
  Build_channel (cs_queues st) (max_messages st) (max_bytes st) (max_resources st)
    (cs_owners st) (zset (cs_roots st) side n) (active_operations st) (active_claims st) (endpoint_objects st)
    (cs_valid st).
Definition set_operations (n : Z) (st : channel_state) : channel_state :=
  Build_channel (cs_queues st) (max_messages st) (max_bytes st) (max_resources st)
    (cs_owners st) (cs_roots st) n (active_claims st) (endpoint_objects st) (cs_valid st).
Definition set_claims (n : Z) (st : channel_state) : channel_state :=
  Build_channel (cs_queues st) (max_messages st) (max_bytes st) (max_resources st)
    (cs_owners st) (cs_roots st) (active_operations st) n (endpoint_objects st) (cs_valid st).
Definition set_objects (n : Z) (st : channel_state) : channel_state :=
  Build_channel (cs_queues st) (max_messages st) (max_bytes st) (max_resources st)
    (cs_owners st) (cs_roots st) (active_operations st) (active_claims st) n (cs_valid st).

Definition signals (st : channel_state) (side : Z) : Z :=
  if negb (cs_valid st) || (1 <? side) then 0
  else
    let q := queue_of st side in
    let send_queue := queue_of st (1 - side) in
    let peer := 1 - side in
    let readable := if negb (queue_empty (q_fifo q)) then SIGNAL_READABLE else 0 in
    let writable :=
      if negb (owners st peer =? 0) && negb (queue_full (q_fifo send_queue))
         && (q_bytes send_queue <? max_bytes st) && (q_resources send_queue <? max_resources st)
      then SIGNAL_WRITABLE else 0 in
    let closed := if owners st peer =? 0 then SIGNAL_PEER_CLOSED else 0 in
    Z.lor readable (Z.lor writable closed).

Definition queued_messages (st : channel_state) (side : Z) : Z :=
  if negb (cs_valid st) || (1 <? side) then 0 else queue_size (q_fifo (queue_of st side)).

(** ** Sending *)

(** The checks before the lock is taken; [None] when they pass. *)
Definition enqueue_rejects (st : channel_state) (sender : Z) (message : option channel_message) (count : Z)
    : option na_status :=
  match message with
  | None => Some INVALID_ARGUMENT
  | Some m =>
    if negb (cs_valid st) || (1 <? sender) || negb (message_valid m) || (max_resources st <? count)
       || negb (resource_count m =? 0) || (cm_resource_capacity m <? count)
    then Some INVALID_ARGUMENT
    else if (max_bytes st <? cm_byte_count m) || (max_resources st <? u64 (resource_count m + count))
    then Some INVALID_MESSAGE
    else None
  end.

(** The append loop: whether every resource was appended, the message, the
    records and the number of resources moved. *)
Fixpoint append_loop (m : channel_message) (rs : list transfer_record)
    : bool * channel_message * list transfer_record * nat :=
  match rs with
  | [] => (true, m, [], 0%nat)
  | r :: rs' =>
    let '(ok, m1, rest) := message_append m (c_resource r) in
    if negb ok then (false, m1, r :: rs', 0%nat)
    else
      let '(all, m2, rs'', n) := append_loop m1 rs' in
      (all, m2, Build_record (c_source r) (c_moved r) rest (c_token r) :: rs'', S n)
  end.

(** Moving the resources [i], [i + 1], ... back from the message to the
    records; with [guarded] only to records that have none. *)
Fixpoint take_back (guarded : bool) (n i : nat) (m : channel_message) (rs : list transfer_record)
    : channel_message * list transfer_record * list cap_event :=
  match n with
  | O => (m, rs, [])
  | S n' =>
    match rs !! i, cm_resources m !! i with
    | Some r, Some mine =>
      if guarded && resource_valid (c_resource r) then take_back guarded n' (S i) m rs
      else
        let '(back, rest, released) := move_assign_transferred (c_resource r) mine in
        let '(m', rs', ev) :=
          take_back guarded n' (S i) (with_resources (<[i := rest]> (cm_resources m)) m)
            (<[i := Build_record (c_source r) (c_moved r) back (c_token r)]> rs) in
        (m', rs', released ++ ev)
    | _, _ => take_back guarded n' (S i) m rs
    end
  end.

(** What the locked part of a send leaves behind. *)
Record enqueue_result : Type := Build_enqueued {
  er_status : na_status;
  er_state : channel_state;
  er_globals : globals;
  er_message : channel_message;
  er_records : list transfer_record;
  er_events : list cap_event;
}.

Definition push_queue (q : msg_queue) (fifo : bounded_queue Z) (m : channel_message) : msg_queue :=
  Build_queue fifo (u64 (q_bytes q + cm_byte_count m)) (u64 (q_resources q + resource_count m)).

(** The locked part of [enqueue]; [p] is the address of the message. *)
Definition enqueue_locked (st : channel_state) (g : globals) (sender p : Z) (m : channel_message)
    (rs : list transfer_record) : enqueue_result :=
  let receiver := 1 - sender in
  let q := queue_of st receiver in
  let count := Z.of_nat (length rs) in
  if owners st receiver =? 0 then Build_enqueued PEER_CLOSED st g m rs []
  else if queue_full (q_fifo q) || (u64 (max_bytes st - cm_byte_count m) <? q_bytes q)
          || (u64 (max_resources st - count) <? q_resources q)
  then Build_enqueued WOULD_BLOCK st g m rs []
  else
    let '(granted, g1) := reserve_global g (cm_byte_count m) count in
    if negb granted then Build_enqueued RESOURCE_EXHAUSTED st g1 m rs []
    else
      let '(all, m1, rs1, _) := append_loop m rs in
      if negb all then
        let '(m2, rs2, ev) := take_back true (length (cm_resources m1)) 0 m1 rs1 in
        Build_enqueued RESOURCE_EXHAUSTED st (release_global g1 (cm_byte_count m) count) m2 rs2 ev
      else
        let '(pushed, fifo) := try_push (q_fifo q) p in
        if negb pushed then
          let '(m2, rs2, ev) := take_back false (length rs1) 0 m1 rs1 in
          Build_enqueued WOULD_BLOCK st (release_global g1 (cm_byte_count m) count) m2 rs2 ev
        else Build_enqueued STATUS_OK (set_queue receiver (push_queue q fifo m1) st) g1 m1 rs1 [].

(** The locked part of [enqueue_kernel]. *)
Definition enqueue_kernel_locked (st : channel_state) (g : globals) (sender p : Z) (m : channel_message)
    (rs : list transfer_record) (max_queue_messages : Z) : enqueue_result :=
  let receiver := 1 - sender in
  let q := queue_of st receiver in
  let count := Z.of_nat (length rs) in
  if owners st receiver =? 0 then Build_enqueued PEER_CLOSED st g m rs []
  else if (negb (max_queue_messages =? 0) && (max_queue_messages <=? queue_size (q_fifo q)))
          || queue_full (q_fifo q) || (u64 (max_bytes st - cm_byte_count m) <? q_bytes q)
          || (u64 (max_resources st - count) <? q_resources q)
  then Build_enqueued WOULD_BLOCK st g m rs []
  else
    let '(granted, g1) := reserve_global g (cm_byte_count m) count in
    if negb granted then Build_enqueued RESOURCE_EXHAUSTED st g1 m rs []
    else
      let '(all, m1, rs1, moved) := append_loop m rs in
      let '(pushed, fifo) := if all then try_push (q_fifo q) p else (false, q_fifo q) in
      if negb (all && pushed) then
        let '(m2, rs2, ev) := take_back false moved 0 m1 rs1 in
        Build_enqueued (if all then WOULD_BLOCK else RESOURCE_EXHAUSTED) st
          (release_global g1 (cm_byte_count m) count) m2 rs2 ev
      else Build_enqueued STATUS_OK (set_queue receiver (push_queue q fifo m1) st) g1 m1 rs1 [].

(** [enqueue]: the result of the locked part, then the batch is restored to
    the sender's table or committed.  [message] is the address and contents. *)
Definition enqueue {M} `{HandleMap M} (st : channel_state) (g : globals) (sender : Z)
    (message : option (Z * channel_message)) (rs : list transfer_record) (t : resource_table M)
    : enqueue_result * resource_table M :=
  let m := match message with Some (_, m) => m | None => make_message 0 0 false false end in
  let p := match message with Some (p, _) => p | None => null end in
  match enqueue_rejects st sender (snd <$> message) (Z.of_nat (length rs)) with
  | Some status => (Build_enqueued status st g m rs [], t)
  | None =>
    let r := enqueue_locked st g sender p m rs in
    if status_ok (er_status r) then
      let '(rs', t') := commit_native_batch t (er_records r) in
      (Build_enqueued STATUS_OK (er_state r) (er_globals r) (er_message r) rs' (er_events r), t')
    else
      let '(restored, rs', ev, t') := restore_native_batch t (er_records r) in
      (Build_enqueued (if status_ok restored then er_status r else restored) (er_state r) (er_globals r)
         (er_message r) rs' (er_events r ++ ev), t')
  end.

Definition enqueue_kernel (st : channel_state) (g : globals) (sender : Z)
    (message : option (Z * channel_message)) (rs : list transfer_record) (max_queue_messages : Z)
    : enqueue_result :=
  let m := match message with Some (_, m) => m | None => make_message 0 0 false false end in
  let p := match message with Some (p, _) => p | None => null end in
  match enqueue_rejects st sender (snd <$> message) (Z.of_nat (length rs)) with
  | Some status => Build_enqueued status st g m rs []
  | None => enqueue_kernel_locked st g sender p m rs max_queue_messages
  end.

(** ** Receiving *)

(** The status, the claimed message and the channel. *)
Definition claim_receive (st : channel_state) (side : Z) : na_status * Z * channel_state :=
  if negb (cs_valid st) || (1 <? side) then (INVALID_ARGUMENT, null, st)
  else
    let q := queue_of st side in
    if queue_empty (q_fifo q) then
      ((if owners st (1 - side) =? 0 then PEER_CLOSED else WOULD_BLOCK), null, st)
    else
      let '(claimed, fifo) := claim_front (q_fifo q) in
      if negb claimed then (WOULD_BLOCK, null, st)
      else (STATUS_OK, queue_front null fifo,
            set_claims (u64 (active_claims st + 1))
              (set_queue side (Build_queue fifo (q_bytes q) (q_resources q)) st)).

Definition cancel_receive (st : channel_state) (side p : Z) : bool * channel_state :=
  if negb (cs_valid st) || (1 <? side) || (p =? null) then (false, st)
  else
    let q := queue_of st side in
    if negb (is_claimed (q_fifo q)) || negb (queue_front null (q_fifo q) =? p) then (false, st)
    else (true, set_claims (u64 (active_claims st - 1))
                  (set_queue side (Build_queue (cancel_claim (q_fifo q)) (q_bytes q) (q_resources q)) st)).

(** A queue after its claimed head [m] is committed. *)
Definition pop_queue (q : msg_queue) (m : channel_message) : msg_queue :=
  Build_queue (commit_claim (q_fifo q)) (u64 (q_bytes q - cm_byte_count m))
    (u64 (q_resources q - resource_count m)).

Definition commit_receive (st : channel_state) (g : globals) (side p : Z) (m : channel_message)
    : bool * channel_state * globals :=
  if negb (cs_valid st) || (1 <? side) || (p =? null) then (false, st, g)
  else
    let q := queue_of st side in
    if negb (is_claimed (q_fifo q)) || negb (queue_front null (q_fifo q) =? p) then (false, st, g)
    else (true, set_claims (u64 (active_claims st - 1)) (set_queue side (pop_queue q m) st),
          release_global g (cm_byte_count m) (resource_count m)).

Abbreviation heap := (gmap Z channel_message).
Definition message_at (h : heap) (p : Z) : channel_message := default (make_message 0 0 false false) (h !! p).

(** The discarded message, the channel and the global counters. *)
Definition discard (st : channel_state) (g : globals) (h : heap) (side : Z) : bool * Z * channel_state * globals :=
  if negb (cs_valid st) || (1 <? side) then (false, null, st, g)
  else
    let q := queue_of st side in
    if queue_empty (q_fifo q) then (false, null, st, g)
    else
      let '(claimed, fifo) := claim_front (q_fifo q) in
      if negb claimed then (false, null, st, g)
      else
        let p := queue_front null fifo in
        let m := message_at h p in
        (true, p, set_queue side (pop_queue (Build_queue fifo (q_bytes q) (q_resources q)) m) st,
         release_global g (cm_byte_count m) (resource_count m)).

(** One queue emptied by [discard_orphan_messages]: it stops at a claimed
    head.  The loop runs once per queued message, which is the fuel. *)
Fixpoint drain (fuel : nat) (q : msg_queue) (g : globals) (h : heap) (discarded : list Z)
    : msg_queue * globals * list Z :=
  match fuel with
  | O => (q, g, discarded)
  | S fuel' =>
    if queue_empty (q_fifo q) then (q, g, discarded)
    else
      let '(claimed, fifo) := claim_front (q_fifo q) in
      if negb claimed then (q, g, discarded)
      else
        let p := queue_front null fifo in
        let m := message_at h p in
        drain fuel' (pop_queue (Build_queue fifo (q_bytes q) (q_resources q)) m)
          (release_global g (cm_byte_count m) (resource_count m)) h (discarded ++ [p])
  end.

(** The channel, the counters and the discarded messages, still to be
    deleted; [None] when the list of messages cannot be allocated. *)
Definition discard_orphan_messages (st : channel_state) (g : globals) (h : heap) (alloc_ok : bool)
    : option (channel_state * globals * list Z) :=
  if negb (max_messages st =? 0) && negb alloc_ok then None
  else
    let q0 := queue_of st 0 in
    let '(q0', g1, d0) := drain (Z.to_nat (queue_size (q_fifo q0))) q0 g h [] in
    let q1 := queue_of st 1 in
    let '(q1', g2, d1) := drain (Z.to_nat (queue_size (q_fifo q1))) q1 g1 h d0 in
    Some (set_queue 1 q1' (set_queue 0 q0' st), g2, d1).

(** ** Owners, roots and operations *)

Definition endpoint_object_created (st : channel_state) : channel_state :=
  set_objects (u64 (endpoint_objects st + 1)) st.
Definition endpoint_object_destroyed (st : channel_state) : channel_state :=
  set_objects (u64 (endpoint_objects st - 1)) st.

Definition kernel_owner_acquired (st : channel_state) (side : Z) : channel_state :=
  if side <=? 1 then set_owners side (u64 (owners st side + 1)) st else st.
Definition kernel_owner_released (st : channel_state) (side : Z) : channel_state :=
  if side <=? 1 then set_owners side (u64 (owners st side - 1)) st else st.

Definition capability_acquired (st : channel_state) (side : Z) (where_ : location) : channel_state :=
  if 1 <? side then st
  else
    let st1 := set_owners side (u64 (owners st side + 1)) st in
    if decide (where_ = table_root) then set_roots side (u64 (roots_of st1 side + 1)) st1 else st1.

Definition capability_released (st : channel_state) (side : Z) (where_ : location) : channel_state :=
  if 1 <? side then st
  else
    let st1 := set_owners side (u64 (owners st side - 1)) st in
    if decide (where_ = table_root) then set_roots side (u64 (roots_of st1 side - 1)) st1 else st1.

Definition begin_operation (st : channel_state) : channel_state := set_operations (u64 (active_operations st + 1)) st.
Definition end_operation (st : channel_state) : channel_state := set_operations (u64 (active_operations st - 1)) st.

Definition has_root (st : channel_state) : bool := negb (roots_of st 0 =? 0) || negb (roots_of st 1 =? 0).
Definition can_reap (st : channel_state) : bool :=
  negb (has_root st) && (active_operations st =? 0) && (active_claims st =? 0).

(** The capability hooks of an endpoint of side [side]. *)
Definition endpoint_hook (side : Z) (st : channel_state) (e : cap_event) : channel_state :=
  match e with
  | Acquire _ where_ => capability_acquired st side where_
  | Release _ where_ => capability_released st side where_
  | Handoff _ from _ => capability_released st side from
  end.

(** ** Destruction *)

(** [~channel_state] on one queue: the claim is taken whether or not it
    succeeds. *)
Fixpoint destroy_loop (fuel : nat) (fifo : bounded_queue Z) (g : globals) (h : heap) (deleted : list Z)
    : globals * list Z :=
  match fuel with
  | O => (g, deleted)
  | S fuel' =>
    if queue_empty fifo then (g, deleted)
    else
      let fifo1 := (claim_front fifo).2 in
      let p := queue_front null fifo1 in
      let m := message_at h p in
      destroy_loop fuel' (commit_claim fifo1)
        (if p =? null then g else release_global g (cm_byte_count m) (resource_count m)) h
        (if p =? null then deleted else deleted ++ [p])
  end.

Definition destroy_channel (st : channel_state) (g : globals) (h : heap) : globals * list Z :=
  let q0 := q_fifo (queue_of st 0) in
  let '(g1, d0) := destroy_loop (Z.to_nat (queue_size q0)) q0 g h [] in
  let q1 := q_fifo (queue_of st 1) in
  destroy_loop (Z.to_nat (queue_size q1)) q1 g1 h d0.
