(* ===== verification/ChannelFacts.v ===== *)
(** The accounting of the raw channels of Channel.v: every queue's byte and
    resource counters are the sums over its messages and stay within the
    channel's limits, and the three global counters are the sums over all
    channels and stay within the global limits, for every sequence of sends,
    claims, cancels, commits and discards on any set of channels. *)
From stdpp Require Import base list numbers gmap.
From S2P Require Import Prelude Abi BoundedQueue Capability ResourceTable Channel.

Local Open Scope Z_scope.
Set Default Proof Using "Type".

Create HintDb channel.

(** ** One queue *)

Definition ptrs (q : msg_queue) : list Z := queue_items null (q_fifo q).
Definition load_bytes (h : heap) (ps : list Z) : Z := sum_Z ((λ p, cm_byte_count (message_at h p)) <$> ps).
Definition load_resources (h : heap) (ps : list Z) : Z := sum_Z ((λ p, resource_count (message_at h p)) <$> ps).

Definition stored (h : heap) (p : Z) : Prop := p ≠ null ∧ ∃ m, h !! p = Some m ∧ 0 ≤ cm_byte_count m.

(** A queue of a channel with the given limits. *)
Record queue_ok (mm mb mr : Z) (h : heap) (q : msg_queue) : Prop := Build_queue_ok {
  qo_fifo : queue_wf (q_fifo q);
  qo_capacity : capacity_ (q_fifo q) = mm;
  qo_bytes : q_bytes q = load_bytes h (ptrs q);
  qo_bytes_max : q_bytes q ≤ mb;
  qo_resources : q_resources q = load_resources h (ptrs q);
  qo_resources_max : q_resources q ≤ mr;
  qo_stored : Forall (stored h) (ptrs q);
}.

Lemma resource_count_nonneg m : 0 ≤ resource_count m.
Proof. unfold resource_count. lia. Qed.

Lemma loads_nonneg h ps : Forall (stored h) ps → 0 ≤ load_bytes h ps ∧ 0 ≤ load_resources h ps.
Proof.
  intros Hs. split; apply sum_Z_nonneg, Forall_fmap; eapply Forall_impl; try exact Hs; simpl.
  - intros p (_ & m & Hm & Hb). unfold message_at. by rewrite Hm.
  - intros p _. apply resource_count_nonneg.
Qed.

Lemma queue_ok_nonneg mm mb mr h q : queue_ok mm mb mr h q → 0 ≤ q_bytes q ∧ 0 ≤ q_resources q.
Proof.
  intros [_ _ Hb _ Hr _ Hs]. rewrite Hb, Hr. by apply loads_nonneg.
Qed.

(** The accounting only depends on the sizes of the messages. *)
Definition sizes (h : heap) (p : Z) : option (Z * Z) := (λ m, (cm_byte_count m, resource_count m)) <$> h !! p.

Lemma sizes_message_at h h' p :
  sizes h' p = sizes h p →
  cm_byte_count (message_at h' p) = cm_byte_count (message_at h p) ∧
  resource_count (message_at h' p) = resource_count (message_at h p) ∧ (stored h p → stored h' p).
Proof.
  unfold sizes, message_at, stored. destruct (h' !! p) as [m'|], (h !! p) as [m|]; simpl; intros; simplify_eq.
  - split_and!; try done. intros (Hp & m0 & [= <-] & Hb). split; [done|]. exists m'. split; [done|lia].
  - done.
Qed.

Lemma loads_frame h h' ps :
  (∀ p, p ∈ ps → sizes h' p = sizes h p) →
  load_bytes h' ps = load_bytes h ps ∧ load_resources h' ps = load_resources h ps.
Proof.
  intros Hf. unfold load_bytes, load_resources.
  split; f_equal; apply list_fmap_ext; intros i p Hp;
    by destruct (sizes_message_at h h' p (Hf p ltac:(by eapply list_elem_of_lookup_2))) as (? & ? & _).
Qed.

(** Messages a queue does not hold do not matter to it. *)
Lemma queue_ok_frame mm mb mr h h' q :
  (∀ p, p ∈ ptrs q → sizes h' p = sizes h p) → queue_ok mm mb mr h q → queue_ok mm mb mr h' q.
Proof.
  intros Hf [Hw Hc Hb Hbm Hr Hrm Hs]. destruct (loads_frame h h' (ptrs q) Hf) as [Hlb Hlr].
  split; try done; [by rewrite Hlb|by rewrite Hlr|].
  rewrite Forall_forall in *. intros p Hp. by apply (sizes_message_at h h' p (Hf p Hp)), Hs.
Qed.

Lemma sizes_insert_ne h p m p' : p' ≠ p → sizes (<[p := m]> h) p' = sizes h p'.
Proof. intros Hne. unfold sizes. by rewrite lookup_insert_ne. Qed.

Lemma sizes_delete_ne h p p' : p' ≠ p → sizes (delete p h) p' = sizes h p'.
Proof. intros Hne. unfold sizes. by rewrite lookup_delete_ne. Qed.

Lemma make_queue_ok mm mb mr h :
  0 < mm ≤ 2 ^ 61 → 0 ≤ mb → 0 ≤ mr →
  queue_ok mm mb mr h (Build_queue (make_bounded_queue (allocate_queue_storage mm true) mm) 0 0).
Proof.
  intros Hm Hb Hr. assert (Z.of_nat (length (replicate (Z.to_nat mm) null)) = mm) as Hl
    by (rewrite length_replicate; lia).
  split; simpl; try done.
  - rewrite <- Hl at 2. apply make_bounded_queue_wf. lia.
Qed.

(** A pushed message. *)
Lemma push_ok mm mb mr h q p m fifo :
  queue_ok mm mb mr h q → try_push (q_fifo q) p = (true, fifo) → p ≠ null → h !! p = None →
  0 ≤ cm_byte_count m → q_bytes q + cm_byte_count m ≤ mb → q_resources q + resource_count m ≤ mr →
  mb < 2 ^ 64 → mr < 2 ^ 64 →
  let q' := push_queue q fifo m in
  queue_ok mm mb mr (<[p := m]> h) q' ∧ ptrs q' = ptrs q ++ [p] ∧
  count_ (q_fifo q') = count_ (q_fifo q) + 1 ∧ q_bytes q' = q_bytes q + cm_byte_count m ∧
  q_resources q' = q_resources q + resource_count m ∧ claimed_ (q_fifo q') = claimed_ (q_fifo q).
Proof.
  intros Hq Hpush Hp Hfresh Hbc Hb Hr Hmb Hmr q'. pose proof (queue_ok_nonneg _ _ _ _ _ Hq) as [Hb0 Hr0].
  pose proof (resource_count_nonneg m) as Hrc.
  destruct Hq as [Hw Hc Hqb Hbm Hqr Hrm Hs].
  destruct (try_push_refines null (q_fifo q) p Hw) as [Hw' Hf]. rewrite Hpush in Hw', Hf. simpl in Hw', Hf.
  unfold fifo_push, queue_fifo in Hf. simpl in Hf. destruct (_ <? _) eqn:Hlt; [|done].
  injection Hf as Hcap Hit Hcl.
  assert (ptrs q' = ptrs q ++ [p]) as Hptrs by (unfold ptrs; simpl; by rewrite <- Hit).
  assert (∀ p', p' ∈ ptrs q → sizes (<[p := m]> h) p' = sizes h p') as Hne.
  { intros p' Hp'. rewrite Forall_forall in Hs. destruct (Hs p' Hp') as (_ & m' & Hm' & _).
    apply sizes_insert_ne. congruence. }
  destruct (loads_frame h (<[p := m]> h) (ptrs q) Hne) as [Hlb Hlr].
  assert (q_bytes q' = q_bytes q + cm_byte_count m) as Hb' by (simpl; rewrite u64_small; lia).
  assert (q_resources q' = q_resources q + resource_count m) as Hr' by (simpl; rewrite u64_small; lia).
  assert (message_at (<[p := m]> h) p = m) as Hat by (unfold message_at; by rewrite lookup_insert_eq).
  assert (count_ (q_fifo q') = count_ (q_fifo q) + 1) as Hcount.
  { pose proof (queue_items_length null fifo Hw') as Hl. pose proof (queue_items_length null (q_fifo q) Hw) as Hl0.
    rewrite <- Hit, length_app in Hl. simpl in *. lia. }
  split_and!; try done. split; try done; try lia.
  - simpl. congruence.
  - rewrite Hb', Hptrs. unfold load_bytes in *. rewrite fmap_app, sum_Z_app, Hlb. simpl. rewrite Hat. lia.
  - rewrite Hr', Hptrs. unfold load_resources in *. rewrite fmap_app, sum_Z_app, Hlr. simpl. rewrite Hat. lia.
  - rewrite Hptrs, Forall_app. split.
    + rewrite Forall_forall in *. intros p' Hp'. by apply (sizes_message_at h _ p' (Hne p' Hp')), Hs.
    + constructor; [|done]. split; [done|]. exists m. by rewrite lookup_insert_eq.
Qed.

(** Claiming and cancelling leave the queue as it is. *)
Lemma claim_ok mm mb mr h q fifo :
  queue_ok mm mb mr h q → claim_front (q_fifo q) = (true, fifo) →
  let q' := Build_queue fifo (q_bytes q) (q_resources q) in
  queue_ok mm mb mr h q' ∧ ptrs q' = ptrs q ∧ count_ fifo = count_ (q_fifo q) ∧
  claimed_ (q_fifo q) = false ∧ claimed_ fifo = true ∧ ∃ rest, ptrs q = queue_front null fifo :: rest.
Proof.
  intros [Hw Hc Hb Hbm Hr Hrm Hs] Hcl q'. destruct (claim_front_refines null (q_fifo q) Hw) as [Hw' _].
  rewrite Hcl in Hw'. simpl in Hw'. unfold claim_front in Hcl.
  destruct (Z.eqb_spec (count_ (q_fifo q)) 0) as [|Hne]; [done|].
  destruct (claimed_ (q_fifo q)) eqn:Hclaimed; [done|]. simpl in Hcl. injection Hcl as <-.
  split_and!; [by split|done..|]. destruct Hw' as [? ? ? Hcount ?]. apply (queue_front_items null (q_fifo q) Hw).
  simpl in Hcount. lia.
Qed.

Lemma cancel_ok mm mb mr h q :
  queue_ok mm mb mr h q →
  let q' := Build_queue (cancel_claim (q_fifo q)) (q_bytes q) (q_resources q) in
  queue_ok mm mb mr h q' ∧ ptrs q' = ptrs q.
Proof.
  intros [Hw Hc Hb Hbm Hr Hrm Hs] q'. destruct (cancel_claim_refines null (q_fifo q) Hw) as [Hw' _].
  split; [by split|done].
Qed.

(** The claimed head leaves. *)
Lemma pop_ok mm mb mr h q :
  queue_ok mm mb mr h q → claimed_ (q_fifo q) = true → mb < 2 ^ 64 → mr < 2 ^ 64 →
  let p := queue_front null (q_fifo q) in
  let q' := pop_queue q (message_at h p) in
  queue_ok mm mb mr h q' ∧ ptrs q = p :: ptrs q' ∧ count_ (q_fifo q') = count_ (q_fifo q) - 1 ∧
  q_bytes q' = q_bytes q - cm_byte_count (message_at h p) ∧
  q_resources q' = q_resources q - resource_count (message_at h p) ∧ claimed_ (q_fifo q') = false.
Proof.
  intros [Hw Hc Hb Hbm Hr Hrm Hs] Hcl Hmb Hmr p q'.
  destruct (commit_claim_refines null (q_fifo q) Hw) as [Hw' Hf].
  pose proof (qwf_claim _ Hw Hcl) as Hpos. destruct (queue_front_items null (q_fifo q) Hw Hpos) as [rest Hrest].
  unfold fifo_commit, queue_fifo in Hf. simpl in Hf. rewrite Hrest, Hcl in Hf. injection Hf as Hcap Hit Hclaim.
  assert (ptrs q = p :: ptrs q') as Hptrs by (unfold ptrs; simpl; by rewrite Hrest, <- Hit).
  rewrite Hptrs in Hb, Hr, Hs. apply Forall_cons in Hs as [Hsp Hs]. destruct (loads_nonneg h _ Hs) as [Hb0 Hr0].
  unfold load_bytes, load_resources in Hb, Hr. csimpl in *.
  fold (load_bytes h (ptrs q')) in Hb. fold (load_resources h (ptrs q')) in Hr.
  assert (0 ≤ cm_byte_count (message_at h p)) as Hp0.
  { destruct Hsp as (_ & m & Hm & Hbc). unfold message_at. by rewrite Hm. }
  pose proof (resource_count_nonneg (message_at h p)) as Hrc.
  assert (q_bytes q' = q_bytes q - cm_byte_count (message_at h p)) as Hb' by (simpl; rewrite u64_small; lia).
  assert (q_resources q' = q_resources q - resource_count (message_at h p)) as Hr' by (simpl; rewrite u64_small; lia).
  split_and!; try done.
  - split; try done; try lia. simpl. congruence.
  - pose proof (queue_items_length null _ Hw') as Hl. pose proof (queue_items_length null _ Hw) as Hl0.
    rewrite Hrest in Hl0. rewrite <- Hit in Hl. simpl in *. lia.
Qed.

(** ** The global counters *)

Definition within (g : globals) : Prop :=
  0 ≤ global_messages g ≤ CHANNEL_GLOBAL_MAX_MESSAGES ∧ 0 ≤ global_bytes g ≤ CHANNEL_GLOBAL_MAX_BYTES ∧
  0 ≤ global_resources g ≤ CHANNEL_GLOBAL_MAX_RESOURCES.

Ltac limits := unfold within, CHANNEL_GLOBAL_MAX_MESSAGES, CHANNEL_GLOBAL_MAX_BYTES, CHANNEL_GLOBAL_MAX_RESOURCES in *.

Lemma reserve_counter_spec c a l :
  0 ≤ c ≤ l → 0 ≤ a → l < 2 ^ 64 →
  reserve_counter c a l = (false, c) ∨ (reserve_counter c a l = (true, c + a) ∧ c + a ≤ l).
Proof.
  intros Hc Ha Hl. unfold reserve_counter. destruct (Z.ltb_spec l a); [by left|].
  destruct (Z.ltb_spec (l - a) c); [by left|]. right. rewrite u64_small by lia. split; [done|lia].
Qed.

(** Either nothing is reserved, the partial reservations being undone, or all
    three amounts are. *)
Lemma reserve_global_spec g bytes resources :
  within g → 0 ≤ bytes → 0 ≤ resources →
  reserve_global g bytes resources = (false, g) ∨
  (reserve_global g bytes resources =
     (true, Build_globals (global_messages g + 1) (global_bytes g + bytes) (global_resources g + resources)) ∧
   within (Build_globals (global_messages g + 1) (global_bytes g + bytes) (global_resources g + resources))).
Proof.
  intros (Hm & Hb & Hr) Hb0 Hr0. unfold reserve_global.
  destruct (reserve_counter_spec (global_messages g) 1 CHANNEL_GLOBAL_MAX_MESSAGES) as [->|[-> Hm1]];
    [done|lia|done|by left|]. simpl.
  destruct (reserve_counter_spec (global_bytes g) bytes CHANNEL_GLOBAL_MAX_BYTES) as [->|[-> Hb1]]; try done; simpl.
  { left. unfold release_counter. limits. rewrite u64_small by lia. destruct g; simpl in *. do 2 f_equal; lia. }
  destruct (reserve_counter_spec (global_resources g) resources CHANNEL_GLOBAL_MAX_RESOURCES) as [->|[-> Hr1]];
    try done; simpl.
  { left. unfold release_counter. limits. rewrite !u64_small by lia. destruct g; simpl in *. do 2 f_equal; lia. }
  right. split; [done|]. limits. simpl. lia.
Qed.

Lemma release_global_spec g bytes resources :
  within g → 1 ≤ global_messages g → 0 ≤ bytes ≤ global_bytes g → 0 ≤ resources ≤ global_resources g →
  release_global g bytes resources =
    Build_globals (global_messages g - 1) (global_bytes g - bytes) (global_resources g - resources).
Proof. intros Hw Hm Hb Hr. unfold release_global, release_counter. limits. by rewrite !u64_small by lia. Qed.

(** ** One channel *)

Definition all_ptrs (st : channel_state) : list Z := ptrs (queue_of st 0) ++ ptrs (queue_of st 1).
Definition queued_count (st : channel_state) : Z :=
  count_ (q_fifo (queue_of st 0)) + count_ (q_fifo (queue_of st 1)).
Definition queued_bytes (st : channel_state) : Z := q_bytes (queue_of st 0) + q_bytes (queue_of st 1).
Definition queued_resources (st : channel_state) : Z :=
  q_resources (queue_of st 0) + q_resources (queue_of st 1).
Definition claims (st : channel_state) : Z :=
  Z.b2z (claimed_ (q_fifo (queue_of st 0))) + Z.b2z (claimed_ (q_fifo (queue_of st 1))).

Definition queue_at_ok (st : channel_state) (h : heap) (side : Z) : Prop :=
  queue_ok (max_messages st) (max_bytes st) (max_resources st) h (queue_of st side).

Record channel_wf (st : channel_state) (h : heap) : Prop := Build_channel_wf {
  cw_sides : length (cs_queues st) = 2%nat ∧ length (cs_owners st) = 2%nat ∧ length (cs_roots st) = 2%nat;
  cw_limits : max_messages st ≤ CHANNEL_MAX_MESSAGES ∧ max_bytes st ≤ CHANNEL_MAX_MESSAGE_BYTES * 16 ∧
    max_resources st ≤ CHANNEL_DEFAULT_MAX_RESOURCES;
  cw_queues : ∀ side, 0 ≤ side ≤ 1 → queue_at_ok st h side;
  cw_nodup : NoDup (all_ptrs st);
  cw_claims : active_claims st = claims st;
}.

(** The counters with this channel's share on top of the others'. *)
Definition accounts (rest g : globals) (st : channel_state) : Prop :=
  global_messages g = global_messages rest + queued_count st ∧
  global_bytes g = global_bytes rest + queued_bytes st ∧
  global_resources g = global_resources rest + queued_resources st.

Lemma side_cases side : 0 ≤ side ≤ 1 → side = 0 ∨ side = 1.
Proof. lia. Qed.

Lemma queue_set_eq st side q :
  length (cs_queues st) = 2%nat → 0 ≤ side ≤ 1 → queue_of (set_queue side q st) side = q.
Proof. intros Hl Hs. unfold queue_of. simpl. apply zget_zset_eq. lia. Qed.

Lemma queue_set_ne st side q :
  0 ≤ side ≤ 1 → queue_of (set_queue side q st) (1 - side) = queue_of st (1 - side).
Proof. intros Hs. unfold queue_of. simpl. apply zget_zset_ne; lia. Qed.

(** What changes when one queue is replaced. *)
Lemma set_queue_totals st side q :
  length (cs_queues st) = 2%nat → 0 ≤ side ≤ 1 →
  let st' := set_queue side q st in
  queued_count st' = queued_count st - count_ (q_fifo (queue_of st side)) + count_ (q_fifo q) ∧
  queued_bytes st' = queued_bytes st - q_bytes (queue_of st side) + q_bytes q ∧
  queued_resources st' = queued_resources st - q_resources (queue_of st side) + q_resources q ∧
  claims st' = claims st - Z.b2z (claimed_ (q_fifo (queue_of st side))) + Z.b2z (claimed_ (q_fifo q)) ∧
  all_ptrs st' ≡ₚ ptrs q ++ ptrs (queue_of st (1 - side)) ∧
  all_ptrs st ≡ₚ ptrs (queue_of st side) ++ ptrs (queue_of st (1 - side)).
Proof.
  intros Hl Hs st'. pose proof (queue_set_eq st side q Hl Hs) as He. pose proof (queue_set_ne st side q Hs) as Hn.
  fold st' in He, Hn. unfold queued_count, queued_bytes, queued_resources, claims, all_ptrs.
  destruct (side_cases side Hs) as [-> | ->];
    [change (1 - 0) with 1 in *|change (1 - 1) with 0 in *]; rewrite He, Hn.
  - split_and!; try lia; done.
  - split_and!; try lia; apply Permutation_app_comm.
Qed.

Lemma set_claims_id st : set_claims (active_claims st) st = st.
Proof. by destruct st. Qed.

Lemma limits_small st h :
  channel_wf st h → max_bytes st < 2 ^ 64 ∧ max_resources st < 2 ^ 64 ∧ max_messages st < 2 ^ 61.
Proof.
  intros [_ (Hm & Hb & Hr) _ _ _].
  unfold CHANNEL_MAX_MESSAGES, CHANNEL_MAX_MESSAGE_BYTES, CHANNEL_DEFAULT_MAX_RESOURCES in *. lia.
Qed.

(** A channel with one queue replaced. *)
Lemma replace_queue_wf st h h' side q n :
  channel_wf st h → 0 ≤ side ≤ 1 →
  queue_ok (max_messages st) (max_bytes st) (max_resources st) h' q →
  (∀ p, p ∈ ptrs (queue_of st (1 - side)) → sizes h' p = sizes h p) →
  NoDup (ptrs q ++ ptrs (queue_of st (1 - side))) →
  n = active_claims st - Z.b2z (claimed_ (q_fifo (queue_of st side))) + Z.b2z (claimed_ (q_fifo q)) →
  channel_wf (set_claims n (set_queue side q st)) h'.
Proof.
  intros [(Hl & Ho & Hr) Hlim Hq Hnd Hc] Hs Hok Hf Hnd' ->.
  destruct (set_queue_totals st side q Hl Hs) as (_ & _ & _ & Hcl & Hp & _). split; simpl; try done.
  - by rewrite length_zset.
  - intros side' Hs'. change (queue_ok (max_messages st) (max_bytes st) (max_resources st) h'
                               (queue_of (set_queue side q st) side')).
    destruct (decide (side' = side)) as [->|Hne]; [by rewrite queue_set_eq|].
    replace side' with (1 - side) by lia. rewrite queue_set_ne by done.
    eapply queue_ok_frame; [exact Hf|]. apply Hq. lia.
  - change (NoDup (all_ptrs (set_queue side q st))). by rewrite Hp.
  - change (claims (set_claims _ (set_queue side q st))) with (claims (set_queue side q st)). rewrite Hcl, Hc. lia.
Qed.

(** ** Steps on one channel *)

(** What every method guarantees: the invariant, the share of the global
    counters, the messages of other channels untouched and only fresh
    messages added. *)
Record chan_ok (rest : globals) (st : channel_state) (h : heap) (st' : channel_state) (g' : globals) (h' : heap)
    : Prop := Build_chan_ok {
  co_wf : channel_wf st' h';
  co_accounts : accounts rest g' st';
  co_within : within g';
  co_others : ∀ p, is_Some (h !! p) → (p ∉ all_ptrs st) → sizes h' p = sizes h p;
  co_ptrs : ∀ p, p ∈ all_ptrs st' → p ∈ all_ptrs st ∨ h !! p = None;
}.

Lemma chan_ok_refl rest st g h :
  channel_wf st h → accounts rest g st → within g → chan_ok rest st h st g h.
Proof. intros. split; try done. by left. Qed.

Section steps.
Context (rest g : globals) (st : channel_state) (h : heap).
Context (Hwf : channel_wf st h) (Hacc : accounts rest g st) (Hg : within g) (Hrest : within rest).

Lemma nodup_sides side : 0 ≤ side ≤ 1 → NoDup (ptrs (queue_of st side) ++ ptrs (queue_of st (1 - side))).
Proof using Hwf.
  intros Hs. destruct (set_queue_totals st side (queue_of st side) (proj1 (cw_sides st h Hwf)) Hs) as (_ & _ & _ & _ & _ & Hp).
  rewrite <- Hp. apply (cw_nodup st h Hwf).
Qed.

Lemma elem_sides side p :
  0 ≤ side ≤ 1 → p ∈ all_ptrs st ↔ p ∈ ptrs (queue_of st side) ∨ p ∈ ptrs (queue_of st (1 - side)).
Proof using Hwf.
  intros Hs. destruct (set_queue_totals st side (queue_of st side) (proj1 (cw_sides st h Hwf)) Hs) as (_ & _ & _ & _ & _ & Hp).
  by rewrite Hp, elem_of_app.
Qed.

(** A pushed message, with the global reservation made. *)
Lemma pushed_ok receiver p m fifo g1 :
  0 ≤ receiver ≤ 1 → p ≠ null → h !! p = None → 0 ≤ cm_byte_count m →
  let q := queue_of st receiver in
  q_bytes q + cm_byte_count m ≤ max_bytes st → q_resources q + resource_count m ≤ max_resources st →
  try_push (q_fifo q) p = (true, fifo) →
  g1 = Build_globals (global_messages g + 1) (global_bytes g + cm_byte_count m)
         (global_resources g + resource_count m) → within g1 →
  chan_ok rest st h (set_queue receiver (push_queue q fifo m) st) g1 (<[p := m]> h).
Proof using Hwf Hacc.
  intros Hs Hp Hfresh Hbc q Hb Hr Hpush Hg1 Hw1. destruct (limits_small st h Hwf) as (Hmb & Hmr & _).
  pose proof (cw_queues st h Hwf receiver Hs) as Hq. fold q in Hq.
  destruct (push_ok _ _ _ h q p m fifo Hq Hpush) as (Hq' & Hpt & Hc' & Hb' & Hr' & Hcl'); try done.
  destruct (set_queue_totals st receiver (push_queue q fifo m) (proj1 (cw_sides st h Hwf)) Hs)
    as (Hqc & Hqb & Hqr & _ & Hperm & _). fold q in Hqc, Hqb, Hqr.
  assert (∀ s p', 0 ≤ s ≤ 1 → p' ∈ ptrs (queue_of st s) → p' ≠ p) as Hne.
  { intros s p' Hs' Hin ->. pose proof (qo_stored _ _ _ _ _ (cw_queues st h Hwf s Hs')) as Hst.
    rewrite Forall_forall in Hst. destruct (Hst p Hin) as (_ & m' & Hm' & _). congruence. }
  split.
  - rewrite <- (set_claims_id (set_queue receiver _ st)). apply (replace_queue_wf st h); try done.
    + intros p' Hin. apply sizes_insert_ne. apply (Hne (1 - receiver)); [lia|done].
    + rewrite Hpt, <- app_assoc. rewrite (Permutation_app_comm [p]), app_assoc. apply NoDup_app.
      split_and!; [by apply nodup_sides| |apply NoDup_singleton].
      intros p' Hin%(elem_of_app _ _ _) Heq%list_elem_of_singleton.
      destruct Hin as [Hin|Hin]; [by apply (Hne receiver p')|by apply (Hne (1 - receiver) p'); [lia|..]].
    + rewrite Hcl'. fold q. simpl. lia.
  - destruct Hacc as (Ha1 & Ha2 & Ha3). rewrite Hg1. unfold accounts. simpl.
    rewrite Hqc, Hqb, Hqr, Hc', Hb', Hr'. lia.
  - done.
  - intros p' [m' Hm'] _. apply sizes_insert_ne. congruence.
  - intros p'. rewrite Hperm, Hpt, (elem_sides receiver p' Hs), !elem_of_app, list_elem_of_singleton.
    intros [[?| ->]|?]; auto.
Qed.

(** A queue replaced by one with the same messages and another claim flag. *)
Lemma reclaimed_ok side q' n :
  0 ≤ side ≤ 1 → let q := queue_of st side in
  queue_ok (max_messages st) (max_bytes st) (max_resources st) h q' → ptrs q' = ptrs q →
  count_ (q_fifo q') = count_ (q_fifo q) → q_bytes q' = q_bytes q → q_resources q' = q_resources q →
  n = active_claims st - Z.b2z (claimed_ (q_fifo q)) + Z.b2z (claimed_ (q_fifo q')) →
  chan_ok rest st h (set_claims n (set_queue side q' st)) g h.
Proof using Hwf Hacc Hg.
  intros Hs q Hq' Hp Hc Hb Hr Hn.
  destruct (set_queue_totals st side q' (proj1 (cw_sides st h Hwf)) Hs) as (Hqc & Hqb & Hqr & _ & Hperm & _).
  fold q in Hqc, Hqb, Hqr. split; try done.
  - apply (replace_queue_wf st h); try done. rewrite Hp. by apply nodup_sides.
  - destruct Hacc as (Ha1 & Ha2 & Ha3). unfold accounts.
    change (queued_count (set_claims n (set_queue side q' st))) with (queued_count (set_queue side q' st)).
    change (queued_bytes (set_claims n (set_queue side q' st))) with (queued_bytes (set_queue side q' st)).
    change (queued_resources (set_claims n (set_queue side q' st))) with (queued_resources (set_queue side q' st)).
    rewrite Hqc, Hqb, Hqr, Hc, Hb, Hr. lia.
  - intros p. change (all_ptrs (set_claims n (set_queue side q' st))) with (all_ptrs (set_queue side q' st)).
    rewrite Hperm, Hp, (elem_sides side p Hs), elem_of_app. by left.
Qed.

(** The head of a claimed queue leaves the channel and its message is
    deleted; [qc] is the queue, claimed now or before. *)
Lemma popped_ok side qc n :
  0 ≤ side ≤ 1 → let q := queue_of st side in
  queue_ok (max_messages st) (max_bytes st) (max_resources st) h qc → ptrs qc = ptrs q →
  count_ (q_fifo qc) = count_ (q_fifo q) → q_bytes qc = q_bytes q → q_resources qc = q_resources q →
  claimed_ (q_fifo qc) = true → n = active_claims st - Z.b2z (claimed_ (q_fifo q)) →
  let p := queue_front null (q_fifo qc) in
  let m := message_at h p in
  chan_ok rest st h (set_claims n (set_queue side (pop_queue qc m) st))
    (release_global g (cm_byte_count m) (resource_count m)) (delete p h).
Proof using Hwf Hacc Hg Hrest.
  intros Hs q Hqc Hp Hc Hb Hr Hcl Hn p m. destruct (limits_small st h Hwf) as (Hmb & Hmr & _).
  destruct (pop_ok _ _ _ h qc Hqc Hcl Hmb Hmr) as (Hq' & Hpt & Hc' & Hb' & Hr' & Hcl').
  fold p in Hq', Hpt, Hc', Hb', Hr', Hcl'. fold m in Hq', Hpt, Hc', Hb', Hr', Hcl'.
  destruct (set_queue_totals st side (pop_queue qc m) (proj1 (cw_sides st h Hwf)) Hs)
    as (Hqc' & Hqb & Hqr & _ & Hperm & _). fold q in Hqc', Hqb, Hqr.
  pose proof (nodup_sides side Hs) as Hnd. fold q in Hnd. rewrite <- Hp, Hpt in Hnd. simpl in Hnd.
  apply NoDup_cons in Hnd as [Hnin Hnd]. rewrite elem_of_app in Hnin.
  pose proof (queue_ok_nonneg _ _ _ _ _ Hq') as [Hb0 Hr0].
  assert (∀ s, 0 ≤ s ≤ 1 → 0 ≤ q_bytes (queue_of st s) ∧ 0 ≤ q_resources (queue_of st s) ∧
    0 ≤ count_ (q_fifo (queue_of st s))) as Hpos.
  { intros s Hs'. pose proof (cw_queues st h Hwf s Hs') as Hqs.
    pose proof (queue_ok_nonneg _ _ _ _ _ Hqs). destruct (qo_fifo _ _ _ _ _ Hqs). lia. }
  assert (0 ≤ cm_byte_count m) as Hm0.
  { pose proof (qo_stored _ _ _ _ _ Hqc) as Hst. rewrite Hpt in Hst. apply Forall_cons in Hst as [(_ & m' & Hm' & Hbc) _].
    unfold m, message_at. by rewrite Hm'. }
  pose proof (resource_count_nonneg m) as Hm1. pose proof (Hpos 0 ltac:(lia)). pose proof (Hpos 1 ltac:(lia)).
  pose proof (qo_fifo _ _ _ _ _ Hq') as Hwq'. destruct Hwq' as [_ _ _ Hcnt _].
  destruct Hacc as (Ha1 & Ha2 & Ha3). unfold queued_count, queued_bytes, queued_resources in *.
  assert (q = queue_of st 0 ∨ q = queue_of st 1) as Hside by (unfold q; destruct (side_cases side Hs) as [->| ->]; auto).
  rewrite release_global_spec; [|done| | |]; try (limits; destruct Hside as [Hq|Hq]; rewrite Hq in *; lia).
  split.
  - apply (replace_queue_wf st h); try done.
    + eapply queue_ok_frame; [|exact Hq']. intros p' Hin. apply sizes_delete_ne. intros ->. tauto.
    + intros p' Hin. apply sizes_delete_ne. intros ->. tauto.
    + rewrite Hcl'. fold q. simpl. lia.
  - unfold accounts, queued_count, queued_bytes, queued_resources in *. simpl.
    change (queue_of (set_claims n (set_queue side (pop_queue qc m) st)))
      with (queue_of (set_queue side (pop_queue qc m) st)).
    rewrite Hqc', Hqb, Hqr, Hc', Hb', Hr'. lia.
  - limits. simpl. destruct Hside as [Hq|Hq]; rewrite Hq in *; lia.
  - intros p' _ Hout. apply sizes_delete_ne. intros ->. apply Hout. rewrite (elem_sides side p Hs). left.
    fold q. rewrite <- Hp, Hpt. by left.
  - intros p'. change (all_ptrs (set_claims n (set_queue side (pop_queue qc m) st)))
      with (all_ptrs (set_queue side (pop_queue qc m) st)).
    rewrite Hperm, (elem_sides side p' Hs), elem_of_app. fold q. rewrite <- Hp, Hpt. intros [?|?]; left;
      [left; by right|by right].
Qed.
End steps.

(** ** Sending *)

Definition emptied (r : transfer_record) : transfer_record :=
  Build_record (c_source r) (c_moved r) (Build_transferred None (t_meta (c_resource r)) false) (c_token r).

(** With enough capacity every resource is appended. *)
Lemma append_loop_all rs m :
  resource_count m + Z.of_nat (length rs) ≤ cm_resource_capacity m →
  append_loop m rs = (true, with_resources (cm_resources m ++ (c_resource <$> rs)) m, emptied <$> rs, length rs).
Proof.
  revert m. induction rs as [|r rs IH]; intros m Hc; cbn [append_loop].
  { rewrite app_nil_r. by destruct m. }
  cbn [length] in Hc. unfold message_append. destruct (Z.leb_spec (cm_resource_capacity m) (resource_count m)); [lia|].
  cbn [move_transferred negb]. rewrite IH.
  - rewrite fmap_cons. simpl. by rewrite <- app_assoc.
  - unfold resource_count in *. simpl. rewrite length_app. simpl. lia.
Qed.

Definition sent_message (m : channel_message) (rs : list transfer_record) : channel_message :=
  with_resources (c_resource <$> rs) m.

Definition charged (g : globals) (m : channel_message) : globals :=
  Build_globals (global_messages g + 1) (global_bytes g + cm_byte_count m) (global_resources g + resource_count m).

(** The message was queued on [st]. *)
Definition sent (st : channel_state) (g : globals) (sender p : Z) (m : channel_message)
    (rs : list transfer_record) (r : enqueue_result) : Prop :=
  ∃ fifo, let q := queue_of st (1 - sender) in let m' := sent_message m rs in
    try_push (q_fifo q) p = (true, fifo) ∧ owners st (1 - sender) ≠ 0 ∧
    q_bytes q + cm_byte_count m ≤ max_bytes st ∧ q_resources q + resource_count m' ≤ max_resources st ∧
    within (charged g m') ∧
    r = Build_enqueued STATUS_OK (set_queue (1 - sender) (push_queue q fifo m') st) (charged g m') m'
          (emptied <$> rs) [].

(** The send was refused and nothing changed. *)
Definition refused (st : channel_state) (g : globals) (m : channel_message) (rs : list transfer_record)
    (r : enqueue_result) : Prop :=
  ∃ status, status ∈ [PEER_CLOSED; WOULD_BLOCK; RESOURCE_EXHAUSTED] ∧ r = Build_enqueued status st g m rs [].

Record sendable (st : channel_state) (sender : Z) (m : channel_message) (rs : list transfer_record) : Prop :=
  Build_sendable {
  se_sender : sender ≤ 1;
  se_bytes : cm_byte_count m ≤ max_bytes st;
  se_count : Z.of_nat (length rs) ≤ max_resources st;
  se_empty : cm_resources m = [];
  se_capacity : Z.of_nat (length rs) ≤ cm_resource_capacity m;
}.

Lemma enqueue_rejects_none st sender m rs :
  enqueue_rejects st sender (Some m) (Z.of_nat (length rs)) = None → sendable st sender m rs.
Proof.
  unfold enqueue_rejects. destruct (_ || (cm_resource_capacity m <? _)) eqn:H1; [done|].
  destruct (_ || (max_resources st <? u64 _)) eqn:H2; [done|]. intros _.
  rewrite !orb_false_iff, !negb_false_iff in H1. rewrite orb_false_iff in H2.
  destruct H1 as (((((_ & Hs) & _) & Hc) & He) & Hcap). destruct H2 as [Hb _].
  apply Z.ltb_ge in Hs, Hc, Hcap, Hb. apply Z.eqb_eq in He. split; try done.
  unfold resource_count in He. destruct (cm_resources m); [done|]. simpl in He. lia.
Qed.

Lemma not_full_push (q : bounded_queue Z) (p : Z) :
  queue_wf q → queue_full q = false → ∃ fifo, try_push q p = (true, fifo).
Proof.
  intros Hw Hf. pose proof (queue_wf_storage q Hw) as [Hs _]. unfold try_push. rewrite Hs.
  destruct Hw as [_ Hc _ _ _]. unfold queue_full in Hf.
  destruct (Z.eqb_spec (capacity_ q) 0); [lia|]. simpl in Hf. rewrite Hf. by eexists.
Qed.

Lemma enqueue_locked_spec st g h sender p m rs :
  channel_wf st h → within g → 0 ≤ sender → 0 ≤ cm_byte_count m → sendable st sender m rs →
  refused st g m rs (enqueue_locked st g sender p m rs) ∨
  sent st g sender p m rs (enqueue_locked st g sender p m rs).
Proof.
  intros Hwf Hg Hs Hb0 [Hs1 Hb Hc He Hcap]. unfold enqueue_locked.
  destruct (limits_small st h Hwf) as (Hmb & Hmr & _).
  destruct (Z.eqb_spec (owners st (1 - sender)) 0) as [|Ho]; [left; by exists PEER_CLOSED; split; [set_solver|]|].
  destruct (_ || _ || _) eqn:Hfull; [left; by exists WOULD_BLOCK; split; [set_solver|]|].
  rewrite !orb_false_iff in Hfull. destruct Hfull as [[Hf Hfb] Hfr]. rewrite u64_small in Hfb, Hfr by lia.
  apply Z.ltb_ge in Hfb, Hfr.
  destruct (reserve_global_spec g (cm_byte_count m) (Z.of_nat (length rs)) Hg Hb0 ltac:(lia)) as [->|[-> Hg1]].
  { left. by exists RESOURCE_EXHAUSTED; split; [set_solver|]. }
  cbn [negb]. rewrite append_loop_all by (unfold resource_count; rewrite He; simpl; lia). cbn [negb].
  pose proof (cw_queues st h Hwf (1 - sender) ltac:(lia)) as Hq.
  destruct (not_full_push _ p (qo_fifo _ _ _ _ _ Hq) Hf) as [fifo Hpush]. rewrite Hpush. cbn [negb].
  assert (resource_count (sent_message m rs) = Z.of_nat (length rs)) as Hrc
    by (unfold resource_count; simpl; by rewrite length_fmap).
  right. exists fifo. rewrite He. unfold charged. rewrite Hrc. split_and!; try done; lia.
Qed.

(** Kernel sends differ only in their queue limit. *)
Lemma enqueue_kernel_locked_eq st g h sender p m rs lim :
  channel_wf st h → within g → 0 ≤ sender → 0 ≤ cm_byte_count m → sendable st sender m rs →
  refused st g m rs (enqueue_kernel_locked st g sender p m rs lim) ∨
  enqueue_kernel_locked st g sender p m rs lim = enqueue_locked st g sender p m rs.
Proof.
  intros Hwf Hg Hs Hb0 [Hs1 Hb Hc He Hcap]. unfold enqueue_kernel_locked, enqueue_locked.
  destruct (Z.eqb_spec (owners st (1 - sender)) 0) as [|Ho]; [by right|].
  destruct (_ && _); [left; by exists WOULD_BLOCK; split; [set_solver|]|]. simpl orb.
  destruct (_ || _ || _) eqn:Hfull; [by right|].
  rewrite !orb_false_iff in Hfull. destruct Hfull as [[Hf _] _].
  destruct (reserve_global g _ _) as [[] g1]; [|by right]. cbn [negb].
  rewrite append_loop_all by (unfold resource_count; rewrite He; simpl; lia). cbn [negb].
  pose proof (cw_queues st h Hwf (1 - sender) ltac:(lia)) as Hq.
  destruct (not_full_push _ p (qo_fifo _ _ _ _ _ Hq) Hf) as [fifo Hpush]. rewrite Hpush. by right.
Qed.

Lemma sent_ok rest g st h sender p m rs r :
  channel_wf st h → accounts rest g st → 0 ≤ sender ≤ 1 → p ≠ null → h !! p = None → 0 ≤ cm_byte_count m →
  sent st g sender p m rs r → chan_ok rest st h (er_state r) (er_globals r) (<[p := er_message r]> h).
Proof.
  intros Hwf Hacc Hs Hp Hh Hb (fifo & Hpush & _ & Hqb & Hqr & Hw & ->). simpl.
  by apply (pushed_ok rest g st h Hwf Hacc (1 - sender) p (sent_message m rs) fifo); try done; lia.
Qed.

(** ** Emptying a channel *)

Lemma chan_ok_trans rest st h st1 g1 h1 st2 g2 h2 :
  chan_ok rest st h st1 g1 h1 → chan_ok rest st1 h1 st2 g2 h2 → chan_ok rest st h st2 g2 h2.
Proof.
  intros [_ _ _ Ho1 Hp1] [Hwf Ha Hw Ho2 Hp2].
  assert (∀ p, is_Some (h !! p) → p ∉ all_ptrs st → is_Some (h1 !! p) ∧ p ∉ all_ptrs st1) as Hkeep.
  { intros p Hs Hn. split; [|by intros [?|Hno]%Hp1; [|rewrite Hno in Hs; destruct Hs]].
    apply (fmap_is_Some (λ m, (cm_byte_count m, resource_count m))). fold (sizes h1 p). rewrite Ho1 by done.
    by apply fmap_is_Some. }
  split; try done.
  - intros p Hs Hn. destruct (Hkeep p Hs Hn). by rewrite Ho2, Ho1.
  - intros p [?|Hno]%Hp2; [by apply Hp1|]. destruct (decide (p ∈ all_ptrs st)); [by left|]. right.
    destruct (h !! p) as [m|] eqn:Hm; [|done]. destruct (Hkeep p) as [[? ?] _]; [by eexists|done|]. congruence.
Qed.

Definition delete_all (ps : list Z) (h : heap) : heap := foldl (λ h p, delete p h) h ps.

Lemma message_at_delete h p p' : p' ≠ p → message_at (delete p h) p' = message_at h p'.
Proof. intros Hne. unfold message_at. by rewrite lookup_delete_ne. Qed.

Lemma set_queue_twice side q q' st : set_queue side q' (set_queue side q st) = set_queue side q' st.
Proof. unfold set_queue, zset. simpl. by rewrite list_insert_insert_eq. Qed.

Lemma set_queue_id side st : 0 ≤ side ≤ 1 → length (cs_queues st) = 2%nat → set_queue side (queue_of st side) st = st.
Proof.
  intros Hs Hl. destruct st as [qs ? ? ? ? ? ? ? ? ?]. unfold set_queue, queue_of, zset, zget. simpl in *. f_equal.
  apply list_insert_id. rewrite list_lookup_lookup_total_lt by lia. done.
Qed.

(** One round of [drain] on an unclaimed, non-empty queue. *)
Lemma drain_step fuel mm mb mr q g h d :
  queue_ok mm mb mr h q → claimed_ (q_fifo q) = false → 0 < count_ (q_fifo q) →
  ∃ fifo, claim_front (q_fifo q) = (true, fifo) ∧
    let qc := Build_queue fifo (q_bytes q) (q_resources q) in
    let p := queue_front null fifo in
    let m := message_at h p in
    drain (S fuel) q g h d =
      drain fuel (pop_queue qc m) (release_global g (cm_byte_count m) (resource_count m)) h (d ++ [p]).
Proof.
  intros Hq Hcl Hpos. unfold claim_front. cbn [drain]. unfold queue_empty.
  rewrite (proj2 (Z.eqb_neq (count_ (q_fifo q)) 0)), Hcl by lia. unfold claim_front.
  rewrite (proj2 (Z.eqb_neq (count_ (q_fifo q)) 0)), Hcl by lia. cbn [orb negb]. by eexists.
Qed.

Lemma drain_heap fuel mm mb mr q g h h' d :
  queue_ok mm mb mr h q → (∀ p, p ∈ ptrs q → h' !! p = h !! p) → mb < 2 ^ 64 → mr < 2 ^ 64 →
  drain fuel q g h' d = drain fuel q g h d.
Proof.
  intros Hq Hf Hmb Hmr. revert q g d Hq Hf. induction fuel as [|fuel IH]; intros q g d Hq Hf; [done|].
  destruct (decide (count_ (q_fifo q) = 0)) as [Hz|Hz].
  { cbn [drain]. unfold queue_empty. by rewrite Hz. }
  destruct (claimed_ (q_fifo q)) eqn:Hcl.
  { cbn [drain]. unfold queue_empty, claim_front. by rewrite (proj2 (Z.eqb_neq _ _) Hz), Hcl. }
  pose proof (qwf_count _ (qo_fifo _ _ _ _ _ Hq)) as Hc.
  assert (queue_ok mm mb mr h' q) as Hq2.
  { apply (queue_ok_frame mm mb mr h); [|done]. intros p Hp. unfold sizes. by rewrite Hf. }
  destruct (drain_step fuel mm mb mr q g h d Hq Hcl ltac:(lia)) as (fifo & Hclaim & ->).
  destruct (drain_step fuel mm mb mr q g h' d Hq2 Hcl ltac:(lia)) as (fifo' & Hclaim' & ->).
  rewrite Hclaim in Hclaim'. injection Hclaim' as <-.
  destruct (claim_ok mm mb mr h q fifo Hq Hclaim) as (Hqc & Hp & _ & _ & Hcl' & r & Hr).
  destruct (pop_ok mm mb mr h _ Hqc Hcl' Hmb Hmr) as (Hq' & Hp' & _). cbv zeta in Hq', Hp'. simpl in Hp'.
  rewrite Hp in Hp'.
  replace (message_at h' (queue_front null fifo)) with (message_at h (queue_front null fifo)).
  2: { unfold message_at. rewrite Hf; [done|]. rewrite Hp'. by left. }
  apply IH; [done|]. intros p' Hin. apply Hf. rewrite Hp'. by right.
Qed.

Lemma drain_nil fuel q g h d : count_ (q_fifo q) = 0 → drain fuel q g h d = (q, g, d).
Proof. intros Hz. destruct fuel; [done|]. cbn [drain]. unfold queue_empty. by rewrite Hz. Qed.

Lemma ptrs_nil mm mb mr h q : queue_ok mm mb mr h q → count_ (q_fifo q) = 0 → ptrs q = [].
Proof.
  intros Hq Hz. pose proof (queue_items_length null _ (qo_fifo _ _ _ _ _ Hq)) as Hl.
  apply nil_length_inv. fold (ptrs q) in Hl. lia.
Qed.

(** The unclaimed queue of one side is emptied: every message of it leaves
    the counters and the heap. *)
Lemma drain_ok fuel rest st g h side d :
  channel_wf st h → accounts rest g st → within g → within rest → 0 ≤ side ≤ 1 →
  claimed_ (q_fifo (queue_of st side)) = false → count_ (q_fifo (queue_of st side)) ≤ Z.of_nat fuel →
  ∃ q' g', drain fuel (queue_of st side) g h d = (q', g', d ++ ptrs (queue_of st side)) ∧
    chan_ok rest st h (set_queue side q' st) g' (delete_all (ptrs (queue_of st side)) h) ∧
    ptrs q' = [] ∧ claimed_ (q_fifo q') = false.
Proof.
  intros Hwf Hacc Hg Hrest Hs. revert st g h d Hwf Hacc Hg.
  induction fuel as [|fuel IH]; intros st g h d Hwf Hacc Hg Hcl Hc;
    pose proof (cw_queues st h Hwf side Hs) as Hq; unfold queue_at_ok in Hq;
    pose proof (qwf_count _ (qo_fifo _ _ _ _ _ Hq)) as Hcount;
    (destruct (decide (count_ (q_fifo (queue_of st side)) = 0)) as [Hz|Hz]; [|try lia]).
  1,2: exists (queue_of st side), g; rewrite drain_nil, (ptrs_nil _ _ _ h _ Hq Hz), app_nil_r by done;
    split_and!; try done; rewrite set_queue_id by (try apply Hwf; done); by apply chan_ok_refl.
  destruct (drain_step fuel _ _ _ _ g h d Hq Hcl ltac:(lia)) as (fifo & Hclaim & ->).
  destruct (claim_ok _ _ _ h _ fifo Hq Hclaim) as (Hqc & Hp & Hcf & _ & Hcl' & _).
  set (qc := Build_queue fifo _ _) in *. set (p := queue_front null fifo). set (m := message_at h p).
  destruct (limits_small st h Hwf) as (Hmb & Hmr & _).
  destruct (pop_ok _ _ _ h qc Hqc Hcl' Hmb Hmr) as (Hq' & Hp' & Hc' & _ & _ & Hcl2). cbv zeta in Hq', Hp', Hc', Hcl2.
  simpl q_fifo in Hp', Hcl2, Hq', Hc'. fold p m in Hq', Hp', Hc', Hcl2. rewrite Hp in Hp'.
  pose proof (popped_ok rest g st h Hwf Hacc Hg Hrest side qc (active_claims st) Hs Hqc Hp Hcf eq_refl eq_refl Hcl'
                ltac:(rewrite Hcl; simpl; lia)) as Hpop. cbv zeta in Hpop. simpl q_fifo in Hpop. fold p m in Hpop.
  change (set_claims (active_claims st) (set_queue side (pop_queue qc m) st))
    with (set_claims (active_claims (set_queue side (pop_queue qc m) st)) (set_queue side (pop_queue qc m) st)) in Hpop.
  rewrite set_claims_id in Hpop. set (st1 := set_queue side (pop_queue qc m) st) in *.
  assert (queue_of st1 side = pop_queue qc m) as Hst1 by (apply queue_set_eq; [apply Hwf|done]).
  destruct (IH st1 (release_global g (cm_byte_count m) (resource_count m)) (delete p h) (d ++ [p]))
    as (q' & g' & Hd & Hok & Hpn & Hcn); [apply Hpop..| | |].
  { rewrite Hst1. exact Hcl2. }
  { rewrite Hst1. cbn [pop_queue q_fifo]. simpl q_fifo. rewrite Hc', Hcf. lia. }
  rewrite Hst1 in Hd, Hok. exists q', g'. rewrite Hp'.
  assert (p ∉ ptrs (pop_queue qc m)) as Hnin.
  { pose proof (nodup_sides st h Hwf side Hs) as Hnd. rewrite Hp' in Hnd. simpl in Hnd.
    apply NoDup_cons in Hnd as [Hnd _]. rewrite elem_of_app in Hnd. tauto. }
  split_and!; [| |done|done].
  - rewrite <- (drain_heap _ _ _ _ _ _ h (delete p h) _ Hq'), Hd, <- app_assoc; [done| |done|done].
    intros p2 Hin. rewrite lookup_delete_ne; [done|]. by intros <-.
  - apply (chan_ok_trans _ _ _ _ _ _ _ _ _ Hpop). unfold st1 in Hok. by rewrite set_queue_twice in Hok.
Qed.

Lemma delete_all_lookup ps (h : heap) p : p ∉ ps → delete_all ps h !! p = h !! p.
Proof.
  revert h. induction ps as [|p' ps IH]; intros h Hn; [done|]. apply not_elem_of_cons in Hn as [Hne Hn].
  unfold delete_all. simpl. fold (delete_all ps (delete p' h)). rewrite IH by done. by rewrite lookup_delete_ne.
Qed.

Lemma delete_all_app ps ps' (h : heap) : delete_all (ps ++ ps') h = delete_all ps' (delete_all ps h).
Proof. apply foldl_app. Qed.

Lemma unclaimed st h side :
  channel_wf st h → active_claims st = 0 → 0 ≤ side ≤ 1 → claimed_ (q_fifo (queue_of st side)) = false.
Proof.
  intros Hwf Hz Hs. rewrite (cw_claims st h Hwf) in Hz. unfold claims in Hz.
  destruct (side_cases side Hs) as [->| ->];
    destruct (claimed_ (q_fifo (queue_of st 0))), (claimed_ (q_fifo (queue_of st 1))); simpl in Hz; done.
Qed.

(** Without a receive in progress, discarding empties both queues. *)
Lemma discard_orphan_messages_ok rest st g h :
  channel_wf st h → accounts rest g st → within g → within rest → active_claims st = 0 →
  ∃ st' g', discard_orphan_messages st g h true = Some (st', g', all_ptrs st) ∧
    chan_ok rest st h st' g' (delete_all (all_ptrs st) h) ∧ all_ptrs st' = [] ∧
    st' = set_queue 1 (queue_of st' 1) (set_queue 0 (queue_of st' 0) st).
Proof.
  intros Hwf Hacc Hg Hrest Hz. unfold discard_orphan_messages. rewrite andb_false_r. cbv iota.
  pose proof (cw_queues st h Hwf 0 ltac:(lia)) as Hq0. pose proof (cw_queues st h Hwf 1 ltac:(lia)) as Hq1.
  destruct (drain_ok (Z.to_nat (queue_size (q_fifo (queue_of st 0)))) rest st g h 0 [])
    as (q0 & g1 & -> & Hok0 & Hp0 & Hcl0); try done; [by apply (unclaimed st h)|unfold queue_size; lia|].
  set (st1 := set_queue 0 q0 st) in *. set (h1 := delete_all (ptrs (queue_of st 0)) h) in *.
  assert (queue_of st1 1 = queue_of st 1) as Hst1 by (apply (queue_set_ne st 0 q0); lia).
  destruct (limits_small st h Hwf) as (Hmb & Hmr & _).
  assert (∀ p, p ∈ ptrs (queue_of st 1) → h1 !! p = h !! p) as Hh1.
  { intros p Hin. apply delete_all_lookup. pose proof (cw_nodup st h Hwf) as Hnd. apply NoDup_app in Hnd as (_ & Hd & _).
    intros Hin'. by apply (Hd p). }
  destruct (drain_ok (Z.to_nat (queue_size (q_fifo (queue_of st 1)))) rest st1 g1 h1 1 ([] ++ ptrs (queue_of st 0)))
    as (q1 & g2 & Hd & Hok1 & Hp1 & Hcl1); try done; [apply Hok0..|rewrite Hst1; by apply (unclaimed st h)| |].
  { rewrite Hst1. unfold queue_size. lia. }
  rewrite Hst1 in Hd, Hok1. rewrite <- (drain_heap _ _ _ _ _ _ h h1 _ Hq1 Hh1 Hmb Hmr), Hd.
  exists (set_queue 1 q1 st1), g2. split; [done|]. split; [|split].
  - unfold all_ptrs. rewrite delete_all_app. apply (chan_ok_trans _ _ _ _ _ _ _ _ _ Hok0 Hok1).
  - unfold all_ptrs. rewrite queue_set_eq by (try lia; apply Hok0). rewrite (queue_set_ne st1 1) by lia.
    change (1 - 1) with 0. unfold st1. rewrite queue_set_eq by (try lia; apply Hwf). by rewrite Hp0, Hp1.
  - rewrite queue_set_eq by (try lia; apply Hok0). rewrite (queue_set_ne st1 1) by lia.
    change (1 - 1) with 0. unfold st1. by rewrite queue_set_eq by (try lia; apply Hwf).
Qed.

(** The destructor gives back what draining the queue gives back. *)
Lemma destroy_loop_drain fuel mm mb mr q g h d :
  queue_ok mm mb mr h q → claimed_ (q_fifo q) = false → mb < 2 ^ 64 → mr < 2 ^ 64 →
  destroy_loop fuel (q_fifo q) g h d = ((drain fuel q g h d).1.2, (drain fuel q g h d).2).
Proof.
  intros Hq Hcl Hmb Hmr. revert q g d Hq Hcl. induction fuel as [|fuel IH]; intros q g d Hq Hcl; [done|].
  destruct (decide (count_ (q_fifo q) = 0)) as [Hz|Hz].
  { cbn [destroy_loop drain]. unfold queue_empty. by rewrite Hz. }
  pose proof (qwf_count _ (qo_fifo _ _ _ _ _ Hq)) as Hc.
  destruct (drain_step fuel mm mb mr q g h d Hq Hcl ltac:(lia)) as (fifo & Hclaim & ->).
  cbn [destroy_loop]. unfold queue_empty. rewrite (proj2 (Z.eqb_neq _ _) Hz), Hclaim. cbn [snd].
  destruct (claim_ok mm mb mr h q fifo Hq Hclaim) as (Hqc & Hp & _ & _ & Hcl' & r & Hr).
  destruct (pop_ok mm mb mr h _ Hqc Hcl' Hmb Hmr) as (Hq' & _ & _ & _ & _ & Hcl2).
  pose proof (qo_stored _ _ _ _ _ Hq) as Hst. rewrite Hr in Hst. apply Forall_cons in Hst as [[Hnn _] _].
  rewrite (proj2 (Z.eqb_neq _ _) Hnn).
  apply (IH (pop_queue (Build_queue fifo (q_bytes q) (q_resources q)) (message_at h (queue_front null fifo)))); done.
Qed.

Lemma empty_accounts rest g st h : channel_wf st h → accounts rest g st → all_ptrs st = [] → g = rest.
Proof.
  intros Hwf (H1 & H2 & H3) Hnil. unfold all_ptrs in Hnil. apply app_eq_nil in Hnil as [Hn0 Hn1].
  unfold queued_count, queued_bytes, queued_resources in *.
  pose proof (cw_queues st h Hwf 0 ltac:(lia)) as [Hw0 _ Hb0 _ Hr0 _ _].
  pose proof (cw_queues st h Hwf 1 ltac:(lia)) as [Hw1 _ Hb1 _ Hr1 _ _].
  rewrite Hn0 in Hb0, Hr0. rewrite Hn1 in Hb1, Hr1.
  pose proof (queue_items_length null _ Hw0) as Hl0. pose proof (queue_items_length null _ Hw1) as Hl1.
  unfold ptrs in Hn0, Hn1. rewrite Hn0 in Hl0. rewrite Hn1 in Hl1. cbn in *.
  destruct g, rest. simpl in *. f_equal; lia.
Qed.

(** Destroying a channel returns exactly its share of the counters. *)
Lemma destroy_channel_ok rest st g h :
  channel_wf st h → accounts rest g st → within g → within rest → active_claims st = 0 →
  destroy_channel st g h = (rest, all_ptrs st).
Proof.
  intros Hwf Hacc Hg Hrest Hz. pose proof (cw_queues st h Hwf 0 ltac:(lia)) as Hq0.
  pose proof (cw_queues st h Hwf 1 ltac:(lia)) as Hq1. destruct (limits_small st h Hwf) as (Hmb & Hmr & _).
  unfold destroy_channel. erewrite destroy_loop_drain by (try done; by apply (unclaimed st h); [..|lia]).
  destruct (discard_orphan_messages_ok rest st g h) as (st' & g' & Hd & Hok & Hnil & _); try done.
  unfold discard_orphan_messages in Hd. rewrite andb_false_r in Hd. cbv iota in Hd.
  destruct (drain _ (queue_of st 0) g h []) as [[q0' g1] d0]. cbn [fst snd].
  erewrite destroy_loop_drain by (try done; by apply (unclaimed st h); [..|lia]).
  destruct (drain _ (queue_of st 1) g1 h d0) as [[q1' g2] d1]. cbn [fst snd].
  injection Hd as <- <- ->. f_equal. eapply empty_accounts; [apply Hok|apply Hok|done].
Qed.
