(* ===== verification/ChannelSystem.v ===== *)
(** The raw-channel subsystem of src/kernel/ipc/channel.cc as a whole: all
    channel states with their registry, the message heap, the endpoint objects
    and the global counters; creation, the send, receive and discard calls on
    top of the capability table, and the collection of orphaned channels.

    Copies from and to user memory, allocations and new addresses come from
    the environment and are arguments; the capability hooks of the endpoint
    objects run on the channel states. *)
From stdpp Require Import base list numbers gmap.
From S2P Require Import Prelude Abi Usercopy BoundedQueue Capability ResourceTable Channel.

Local Open Scope Z_scope.

Record ipc : Type := Build_ipc {
  k_globals : globals;
  k_heap : heap;
  k_states : gmap Z channel_state;
  k_registry : list Z;
  k_endpoints : gmap Z (Z * Z);
  k_generation : Z;
}.

Definition initial_ipc : ipc := Build_ipc (Build_globals 0 0 0) ∅ ∅ [] ∅ 0.

Definition state_at (k : ipc) (s : Z) : channel_state :=
  default (make_channel 0 0 0 false false false) (k_states k !! s).

Definition with_globals (g : globals) (k : ipc) : ipc :=
  Build_ipc g (k_heap k) (k_states k) (k_registry k) (k_endpoints k) (k_generation k).
Definition with_heap (h : heap) (k : ipc) : ipc :=
  Build_ipc (k_globals k) h (k_states k) (k_registry k) (k_endpoints k) (k_generation k).
Definition with_states (m : gmap Z channel_state) (k : ipc) : ipc :=
  Build_ipc (k_globals k) (k_heap k) m (k_registry k) (k_endpoints k) (k_generation k).
Definition with_registry (l : list Z) (k : ipc) : ipc :=
  Build_ipc (k_globals k) (k_heap k) (k_states k) l (k_endpoints k) (k_generation k).
Definition with_endpoints (m : gmap Z (Z * Z)) (k : ipc) : ipc :=
  Build_ipc (k_globals k) (k_heap k) (k_states k) (k_registry k) m (k_generation k).

Definition update_state (s : Z) (f : channel_state → channel_state) (k : ipc) : ipc :=
  with_states (alter f s (k_states k)) k.
Definition put_state (s : Z) (st : channel_state) (k : ipc) : ipc := update_state s (λ _, st) k.

Definition notify_channel_waiters (k : ipc) : ipc :=
  Build_ipc (k_globals k) (k_heap k) (k_states k) (k_registry k) (k_endpoints k) (u64 (k_generation k + 1)).

(** ** Endpoint objects *)

Definition event_object (e : cap_event) : object :=
  match e with Acquire o _ | Release o _ | Handoff o _ _ => o end.

(** The hook of a kernel object: endpoints forward it to their channel. *)
Definition run_hook (k : ipc) (e : cap_event) : ipc :=
  match k_endpoints k !! event_object e with
  | Some (s, side) => update_state s (λ st, endpoint_hook side st e) k
  | None => k
  end.
Definition run_hooks (k : ipc) (log : list cap_event) : ipc := foldl run_hook k log.

(** The constructor and the destructor of an endpoint of state [s]. *)
Definition make_endpoint (k : ipc) (o s side : Z) : ipc :=
  update_state s endpoint_object_created (with_endpoints (<[o := (s, side)]> (k_endpoints k)) k).
Definition destroy_endpoint (k : ipc) (o : Z) : ipc :=
  match k_endpoints k !! o with
  | Some (s, _) => update_state s endpoint_object_destroyed (with_endpoints (delete o (k_endpoints k)) k)
  | None => k
  end.

(** ** Creation *)

(** [na_channel_options_t]; [sizeof] it is 40. *)
Record channel_options : Type := Build_options {
  o_struct_size : Z;
  o_flags : Z;
  o_max_messages : Z;
  o_max_bytes : Z;
  o_max_resources : Z;
  o_reserved0 : Z;
}.
Definition channel_options_sizeof : Z := 40.

(** Addresses and allocation results of one creation. *)
Record create_env : Type := Build_create_env {
  ce_state : Z;
  ce_left : Z;
  ce_right : Z;
  ce_state_ok : bool;
  ce_queue0_ok : bool;
  ce_queue1_ok : bool;
  ce_registered : bool;
  ce_left_ok : bool;
  ce_right_ok : bool;
}.

(** The registry without its first occurrence of [s]. *)
Fixpoint remove_first (s : Z) (l : list Z) : list Z :=
  match l with
  | [] => []
  | x :: l' => if x =? s then l' else x :: remove_first s l'
  end.
Definition unregister_state (s : Z) (k : ipc) : ipc := with_registry (remove_first s (k_registry k)) k.

Definition create_raw_channel_with_options (k : ipc) (v : channel_options) (e : create_env)
    : na_status * option (Z * Z) * ipc :=
  if (CHANNEL_MAX_MESSAGES <? o_max_messages v) || (CHANNEL_MAX_MESSAGE_BYTES * 16 <? o_max_bytes v)
     || (CHANNEL_DEFAULT_MAX_RESOURCES <? o_max_resources v)
  then (INVALID_ARGUMENT, None, k)
  else if negb (ce_state_ok e) then (RESOURCE_EXHAUSTED, None, k)
  else
    let st := make_channel (o_max_messages v) (o_max_bytes v) (o_max_resources v)
                (ce_queue0_ok e) (ce_queue1_ok e) (ce_registered e) in
    if negb (cs_valid st) then (RESOURCE_EXHAUSTED, None, k)
    else
      let k1 := with_registry (k_registry k ++ [ce_state e])
                  (with_states (<[ce_state e := st]> (k_states k)) k) in
      let k2 := if ce_left_ok e then make_endpoint k1 (ce_left e) (ce_state e) 0 else k1 in
      let k3 := if ce_right_ok e then make_endpoint k2 (ce_right e) (ce_state e) 1 else k2 in
      if negb (ce_left_ok e) || negb (ce_right_ok e) then
        let k4 := if ce_left_ok e then destroy_endpoint k3 (ce_left e) else k3 in
        let k5 := if ce_right_ok e then destroy_endpoint k4 (ce_right e) else k4 in
        let k6 := unregister_state (ce_state e) k5 in
        (RESOURCE_EXHAUSTED, None, with_states (delete (ce_state e) (k_states k6)) k6)
      else (STATUS_OK, Some (ce_left e, ce_right e), k3).

Definition default_options : channel_options :=
  Build_options channel_options_sizeof 0 CHANNEL_DEFAULT_MAX_MESSAGES CHANNEL_DEFAULT_MAX_BYTES
    CHANNEL_DEFAULT_MAX_RESOURCES 0.

Definition options_valid (v : channel_options) : bool :=
  valid_struct_size (o_struct_size v) channel_options_sizeof && (o_flags v =? 0) && (o_reserved0 v =? 0).

Definition fill_defaults (v : channel_options) : channel_options :=
  Build_options (o_struct_size v) (o_flags v)
    (if o_max_messages v =? 0 then CHANNEL_DEFAULT_MAX_MESSAGES else o_max_messages v)
    (if o_max_bytes v =? 0 then CHANNEL_DEFAULT_MAX_BYTES else o_max_bytes v)
    (if o_max_resources v =? 0 then CHANNEL_DEFAULT_MAX_RESOURCES else o_max_resources v)
    (o_reserved0 v).

(** The options come with the status of copying them in. *)
Definition create_raw_channel (k : ipc) (options : option (na_status * channel_options)) (e : create_env)
    : na_status * option (Z * Z) * ipc :=
  match options with
  | None => create_raw_channel_with_options k (fill_defaults default_options) e
  | Some (status, v) =>
    if negb (status_ok status) then (status, None, k)
    else if negb (options_valid v) then (INVALID_ARGUMENT, None, k)
    else create_raw_channel_with_options k (fill_defaults v) e
  end.

Definition create_raw_channel_kernel (k : ipc) (options : option channel_options) (e : create_env)
    : na_status * option (Z * Z) * ipc :=
  match options with
  | None => create_raw_channel_with_options k (fill_defaults default_options) e
  | Some v =>
    if negb (options_valid v) then (INVALID_ARGUMENT, None, k)
    else create_raw_channel_with_options k (fill_defaults v) e
  end.

(** ** The collection of orphaned channels *)

(** The channels whose endpoints travel in the messages queued on [st]. *)
Definition message_targets (k : ipc) (p : Z) : list Z :=
  omap (λ r, match t_object r with Some o => fst <$> k_endpoints k !! o | None => None end)
    (cm_resources (message_at (k_heap k) p)).

Definition collect_reachable_states (k : ipc) (st : channel_state) : list Z :=
  concat ((λ q, concat ((λ i, let p := queue_at null (q_fifo q) i in
                              if p =? null then [] else message_targets k p)
                          <$> seqZ 0 (queue_size (q_fifo q)))) <$> cs_queues st).

(** [contains_state]: the first index of [needle]. *)
Definition contains_state (states : list Z) (needle : Z) : option nat :=
  fst <$> list_find (λ s, s = needle) states.

(** The loop over the targets of one state. *)
Definition mark_target (states : list Z) (acc : list bool * list Z) (target : Z) : list bool * list Z :=
  match contains_state states target with
  | Some i => if decide (acc.1 !! i = Some false) then (<[i := true]> acc.1, acc.2 ++ [target]) else acc
  | None => acc
  end.

(** The work loop; every state enters [work] at most once, so a fuel of
    [length states] iterations is enough. *)
Fixpoint mark_loop (fuel : nat) (k : ipc) (states : list Z) (index : nat) (marked : list bool) (work : list Z)
    : list bool * list Z :=
  match fuel with
  | O => (marked, work)
  | S fuel' =>
    match work !! index with
    | None => (marked, work)
    | Some s =>
      let '(marked', work') :=
        foldl (mark_target states) (marked, work) (collect_reachable_states k (state_at k s)) in
      mark_loop fuel' k states (S index) marked' work'
    end
  end.

Definition is_gc_root (st : channel_state) : bool := has_root st || negb (can_reap st).

Definition mark_phase (k : ipc) (states : list Z) : list bool :=
  let roots := (λ s, is_gc_root (state_at k s)) <$> states in
  let work := filter (λ s, is_gc_root (state_at k s) = true) states in
  (mark_loop (length states) k states 0 roots work).1.

(** What the allocator and the other owners of objects decide: whether the
    mark vector and a discard list could be allocated, and which objects lose
    their last reference when a resource that carries them is destroyed. *)
Record gc_env : Type := Build_gc_env {
  gc_marks_ok : bool;
  gc_discard_ok : Z → bool;
  gc_last : Z → bool;
}.

(** [~transferred_resource]: the transit root, then the handle. *)
Definition drop_resource (env : gc_env) (k : ipc) (r : transferred_resource) : ipc :=
  let k1 := run_hooks k (release_transit r).2 in
  match t_object r with
  | Some o => if gc_last env o then destroy_endpoint k1 o else k1
  | None => k1
  end.

(** [~channel_message] of a message of the heap. *)
Definition drop_message (env : gc_env) (k : ipc) (p : Z) : ipc :=
  let k1 := foldl (drop_resource env) k (cm_resources (message_at (k_heap k) p)) in
  with_heap (delete p (k_heap k1)) k1.

(** The first sweep for one state: its messages are deleted. *)
Definition discard_state (env : gc_env) (k : ipc) (s : Z) : ipc :=
  match discard_orphan_messages (state_at k s) (k_globals k) (k_heap k) (gc_discard_ok env s) with
  | None => k
  | Some (st', g', ps) =>
    foldl (drop_message env) (notify_channel_waiters (with_globals g' (put_state s st' k))) ps
  end.

Definition sweep_messages (env : gc_env) (k : ipc) (sm : Z * bool) : ipc :=
  if negb sm.2 && can_reap (state_at k sm.1) then discard_state env k sm.1 else k.

(** The second sweep for one state: it is unregistered and deleted. *)
Definition sweep_state (env : gc_env) (k : ipc) (sm : Z * bool) : ipc :=
  let st := state_at k sm.1 in
  if sm.2 || negb (can_reap st) || negb (endpoint_objects st =? 0) then k
  else
    let k1 := unregister_state sm.1 k in
    let '(g', ps) := destroy_channel st (k_globals k1) (k_heap k1) in
    let k2 := foldl (drop_message env) (with_globals g' k1) ps in
    with_states (delete sm.1 (k_states k2)) k2.

Definition collect_orphaned_channels (env : gc_env) (k : ipc) : ipc :=
  let states := k_registry k in
  if negb (gc_marks_ok env) then k
  else
    let marked := zip states (mark_phase k states) in
    foldl (sweep_state env) (foldl (sweep_messages env) k marked) marked.

(** ** Sending and receiving *)

(** [na_channel_send_frame_t] and [na_channel_receive_frame_t]. *)
Record send_frame : Type := Build_send_frame {
  sf_struct_size : Z;
  sf_flags : Z;
  sf_bytes : Z;
  sf_byte_count : Z;
  sf_resources : Z;
  sf_resource_count : Z;
  sf_reserved0 : Z;
  sf_reserved1 : Z;
}.
Definition send_frame_sizeof : Z := 56.
Definition disposition_sizeof : Z := 32.

Record receive_frame : Type := Build_receive_frame {
  rf_struct_size : Z;
  rf_flags : Z;
  rf_method_id : Z;
  rf_bytes : Z;
  rf_byte_capacity : Z;
  rf_resources : Z;
  rf_resource_capacity : Z;
  rf_responder : Z;
  rf_actual_bytes : Z;
  rf_actual_resources : Z;
  rf_required_bytes : Z;
  rf_required_resources : Z;
  rf_caller_pid : Z;
}.
Definition receive_frame_sizeof : Z := 96.
Definition handle_sizeof : Z := 8.

(** What a send reads from the sender: the frame with the status of its copy,
    the payload and the dispositions with theirs, the allocation results and
    the address of the new message. *)
Record send_env : Type := Build_send_env {
  se_frame_status : na_status;
  se_frame : send_frame;
  se_message : Z;
  se_message_ok : bool;
  se_bytes_ok : bool;
  se_data_ok : bool;
  se_payload_status : na_status;
  se_payload : list Z;
  se_dispositions_ok : bool;
  se_dispositions : list (na_status * disposition);
  se_take_ok : bool;
}.

(** The checks of a send frame at address [address]. *)
Definition send_frame_check (address : Z) (f : send_frame) : option na_status :=
  let dispositions := u64 (sf_resource_count f * disposition_sizeof) in
  if negb (valid_struct_size (sf_struct_size f) send_frame_sizeof) || negb (sf_flags f =? 0)
     || negb (sf_reserved0 f =? 0) || negb (sf_reserved1 f =? 0)
  then Some INVALID_ARGUMENT
  else if (CHANNEL_MAX_MESSAGE_BYTES <? sf_byte_count f) || (CHANNEL_MAX_RESOURCES <? sf_resource_count f)
  then Some INVALID_MESSAGE
  else if negb (sf_byte_count f =? 0) && (sf_bytes f =? 0) then Some FAULT
  else if negb (sf_resource_count f =? 0) && (sf_resources f =? 0) then Some FAULT
  else if negb (valid_range (sf_bytes f) (sf_byte_count f)) || negb (valid_range (sf_resources f) dispositions)
  then Some FAULT
  else if ranges_overlap address send_frame_sizeof (sf_bytes f) (sf_byte_count f)
          || ranges_overlap address send_frame_sizeof (sf_resources f) dispositions
          || ranges_overlap (sf_bytes f) (sf_byte_count f) (sf_resources f) dispositions
  then Some INVALID_ARGUMENT
  else None.

(** The loop that copies the dispositions in: all of them, or the status of
    the first copy that fails. *)
Fixpoint copy_dispositions (l : list (na_status * disposition)) : na_status + list disposition :=
  match l with
  | [] => inr []
  | (status, d) :: l' =>
    if negb (status_ok status) then inl status
    else match copy_dispositions l' with
         | inl status' => inl status'
         | inr ds => inr (d :: ds)
         end
  end.

Section calls.
Context {M : Type} `{HandleMap M}.
Variable capability_is_unique : object → bool.

Abbreviation table := (resource_table M).

(** The channel and side of an endpoint handle. *)
Definition raw_endpoint (k : ipc) (t : table) (endpoint : Z) : na_status + (Z * Z) :=
  match lookup_native t endpoint with
  | None => inl INVALID_HANDLE
  | Some target =>
    match e_object target with
    | None => inl INVALID_HANDLE
    | Some o =>
      if negb (m_binding (e_meta target) =? BINDING_RAW_CHANNEL_END) then inl WRONG_BINDING
      else match k_endpoints k !! o with Some end_ => inr end_ | None => inl WRONG_BINDING end
    end
  end.

(** The enqueue of message [p] on channel [s] and what follows it: the
    message is kept or deleted and the orphaned channels are collected. *)
Definition enqueue_message (env : gc_env) (k : ipc) (t : table) (s side p : Z) (m : channel_message)
    (rs : list transfer_record) : na_status * list transfer_record * ipc * table :=
  let '(r, t') := enqueue (state_at k s) (k_globals k) side (Some (p, m)) rs t in
  let k1 := run_hooks (with_globals (er_globals r) (put_state s (er_state r) k)) (er_events r) in
  let k2 := if status_ok (er_status r)
            then notify_channel_waiters (with_heap (<[p := er_message r]> (k_heap k1)) k1)
            else foldl (drop_resource env) k1 (cm_resources (er_message r)) in
  (er_status r, er_records r, collect_orphaned_channels env k2, t').

Definition send_raw_channel (k : ipc) (t : table) (endpoint address : Z) (e : send_env) (env : gc_env)
    : na_status * ipc * table :=
  match raw_endpoint k t endpoint with
  | inl status => (status, k, t)
  | inr (s, side) =>
    let k1 := update_state s begin_operation k in
    let f := se_frame e in
    let m0 := make_message (sf_byte_count f) (sf_resource_count f) (se_bytes_ok e) (se_data_ok e) in
    let m := if sf_byte_count f =? 0 then m0 else with_bytes (se_payload e) m0 in
    if negb (status_ok (se_frame_status e)) then (se_frame_status e, update_state s end_operation k1, t)
    else match send_frame_check address f with
    | Some status => (status, update_state s end_operation k1, t)
    | None =>
      if negb (se_message_ok e) || negb (message_valid m0)
      then (RESOURCE_EXHAUSTED, update_state s end_operation k1, t)
      else if negb (status_ok (se_payload_status e))
      then (se_payload_status e, update_state s end_operation k1, t)
      else if negb (sf_resource_count f =? 0) && negb (se_dispositions_ok e)
      then (RESOURCE_EXHAUSTED, update_state s end_operation k1, t)
      else match copy_dispositions (se_dispositions e) with
      | inl status => (status, update_state s end_operation k1, t)
      | inr ds =>
        let da := match ds with [] => NullDispositions 0 | _ => Dispositions ds end in
        let '(taken, rs, ev, t1) := take_native_batch capability_is_unique t da endpoint (se_take_ok e) in
        let k2 := run_hooks k1 ev in
        if negb (status_ok taken) then (taken, update_state s end_operation k2, t1)
        else
          let '(status, rs', k3, t2) := enqueue_message env k2 t1 s side (se_message e) m rs in
          (status, foldl (drop_resource env) (update_state s end_operation k3) (c_resource <$> rs'), t2)
      end
    end
  end.

(** The payload of a kernel send is [None] for a null pointer. *)
Definition kernel_message (bytes : option (list Z)) (byte_count : Z) (bytes_ok data_ok : bool) : channel_message :=
  let m0 := make_message byte_count 0 bytes_ok data_ok in
  match bytes with
  | Some bs => if byte_count =? 0 then m0 else with_bytes bs m0
  | None => m0
  end.

Definition send_raw_channel_kernel (k : ipc) (t : table) (endpoint : Z) (bytes : option (list Z)) (byte_count : Z)
    (p : Z) (message_ok bytes_ok data_ok : bool) (env : gc_env) : na_status * ipc * table :=
  match raw_endpoint k t endpoint with
  | inl status => (status, k, t)
  | inr (s, side) =>
    let k1 := update_state s begin_operation k in
    if (CHANNEL_MAX_MESSAGE_BYTES <? byte_count)
       || (negb (byte_count =? 0) && match bytes with None => true | Some _ => false end)
    then (INVALID_MESSAGE, update_state s end_operation k1, t)
    else if negb message_ok || negb (message_valid (make_message byte_count 0 bytes_ok data_ok))
    then (RESOURCE_EXHAUSTED, update_state s end_operation k1, t)
    else
      let '(status, _, k2, t1) :=
        enqueue_message env k1 t s side p (kernel_message bytes byte_count bytes_ok data_ok) [] in
      (status, update_state s end_operation k2, t1)
  end.

(** The overload on an endpoint the kernel holds itself. *)
Definition send_raw_channel_object (k : ipc) (endpoint : khandle) (bytes : option (list Z)) (byte_count : Z)
    (p : Z) (message_ok bytes_ok data_ok : bool) (env : gc_env) : na_status * ipc :=
  match endpoint with
  | None => (INVALID_HANDLE, k)
  | Some o =>
    match k_endpoints k !! o with
    | None => (WRONG_BINDING, k)
    | Some (s, side) =>
      let k1 := update_state s begin_operation k in
      if (CHANNEL_MAX_MESSAGE_BYTES <? byte_count)
         || (negb (byte_count =? 0) && match bytes with None => true | Some _ => false end)
      then (INVALID_MESSAGE, update_state s end_operation k1)
      else if negb message_ok || negb (message_valid (make_message byte_count 0 bytes_ok data_ok))
      then (RESOURCE_EXHAUSTED, update_state s end_operation k1)
      else
        let r := enqueue_kernel (state_at k1 s) (k_globals k1) side
                   (Some (p, kernel_message bytes byte_count bytes_ok data_ok)) [] 0 in
        let k2 := run_hooks (with_globals (er_globals r) (put_state s (er_state r) k1)) (er_events r) in
        let k3 := if status_ok (er_status r)
                  then notify_channel_waiters (with_heap (<[p := er_message r]> (k_heap k2)) k2)
                  else foldl (drop_resource env) k2 (cm_resources (er_message r)) in
        (er_status r, update_state s end_operation (collect_orphaned_channels env k3))
    end
  end.

(** What a receive reads from and writes to the receiver: the frame with the
    status of its copy and the statuses of the four copies out. *)
Record receive_env : Type := Build_receive_env {
  re_frame_status : na_status;
  re_frame : receive_frame;
  re_reserve_ok : bool;
  re_sizes_status : na_status;
  re_bytes_status : na_status;
  re_handles_status : na_status;
  re_result_status : na_status;
}.

Definition receive_frame_check (f : receive_frame) : option na_status :=
  if negb (valid_struct_size (rf_struct_size f) receive_frame_sizeof) || negb (rf_flags f =? 0)
     || negb (rf_method_id f =? 0) || negb (rf_responder f =? HANDLE_INVALID) || negb (rf_caller_pid f =? 0)
  then Some INVALID_ARGUMENT
  else if (CHANNEL_MAX_MESSAGE_BYTES <? rf_byte_capacity f) || (CHANNEL_MAX_RESOURCES <? rf_resource_capacity f)
  then Some INVALID_ARGUMENT
  else None.

(** The frame written back for a message: the sizes it needs, or what was
    delivered. *)
Definition required_frame (f : receive_frame) (m : channel_message) : receive_frame :=
  Build_receive_frame (rf_struct_size f) (rf_flags f) 0 (rf_bytes f) (rf_byte_capacity f) (rf_resources f)
    (rf_resource_capacity f) HANDLE_INVALID 0 0 (cm_byte_count m) (resource_count m) (rf_caller_pid f).
Definition delivered_frame (f : receive_frame) (m : channel_message) : receive_frame :=
  Build_receive_frame (rf_struct_size f) (rf_flags f) 0 (rf_bytes f) (rf_byte_capacity f) (rf_resources f)
    (rf_resource_capacity f) HANDLE_INVALID (cm_byte_count m) (resource_count m) 0 0 (rf_caller_pid f).

(** The checks of the claimed message against the frame at [address]. *)
Definition output_check (address : Z) (f : receive_frame) (m : channel_message) : option na_status :=
  let handles := u64 (resource_count m * handle_sizeof) in
  if negb (valid_output_range (rf_bytes f) (rf_byte_capacity f)) then Some FAULT
  else if negb (valid_output_range (rf_resources f) (u64 (rf_resource_capacity f * handle_sizeof))) then Some FAULT
  else if ranges_overlap address receive_frame_sizeof (rf_bytes f) (cm_byte_count m)
          || ranges_overlap address receive_frame_sizeof (rf_resources f) handles
          || ranges_overlap (rf_bytes f) (cm_byte_count m) (rf_resources f) handles
  then Some INVALID_ARGUMENT
  else None.

(** The activation loop: its status, what is left of the resources, the hooks
    and the number of activated handles. *)
Fixpoint activate_loop (t : table) (handles : list Z) (rs : list transferred_resource)
    : na_status * list transferred_resource * list cap_event * nat * table :=
  match rs with
  | [] => (STATUS_OK, [], [], 0%nat, t)
  | r :: rs' =>
    let '(status, r1, ev, t1) := activate_native t (hd HANDLE_INVALID handles) r in
    if negb (status_ok status) then (status, r1 :: rs', ev, 0%nat, t1)
    else
      let '(status', rs'', ev', n, t2) := activate_loop t1 (tl handles) rs' in
      (status', r1 :: rs'', ev ++ ev', S n, t2)
  end.

Fixpoint close_all (t : table) (handles : list Z) : list cap_event * table :=
  match handles with
  | [] => ([], t)
  | h :: hs =>
    let '(_, ev, t1) := close_native t h in
    let '(ev', t2) := close_all t1 hs in (ev ++ ev', t2)
  end.

Definition cancel_message (k : ipc) (s side p : Z) : ipc :=
  let '(cancelled, st) := cancel_receive (state_at k s) side p in
  if cancelled then notify_channel_waiters (put_state s st k) else k.

(** What a call delivers: the frame, the bytes and the handles written. *)
Record delivery : Type := Build_delivery {
  dl_frame : option receive_frame;
  dl_bytes : option (list Z);
  dl_handles : list Z;
}.
Definition nothing : delivery := Build_delivery None None [].

(** The end of both receive calls, after the reservation and the copies: the
    resources enter the table and the message leaves the queue. *)
Definition deliver_message (env : gc_env) (k : ipc) (t : table) (s side p : Z) (handles : list Z)
    (rollback_on_commit : bool) : na_status * ipc * table :=
  let m := message_at (k_heap k) p in
  let '(status, rs, ev, n, t1) := activate_loop t handles (cm_resources m) in
  let k1 := with_heap (<[p := with_resources rs m]> (k_heap k)) (run_hooks k ev) in
  if negb (status_ok status) then
    let '(closed, t2) := close_all t1 (take n handles) in
    (status, cancel_message (run_hooks k1 closed) s side p, rollback_native t2 handles)
  else
    let '(committed, st, g) := commit_receive (state_at k1 s) (k_globals k1) side p (with_resources rs m) in
    if negb committed then
      let '(closed, t2) := close_all t1 handles in
      (RESOURCE_EXHAUSTED, cancel_message (run_hooks k1 closed) s side p,
       if rollback_on_commit then rollback_native t2 handles else t2)
    else
      (STATUS_OK, collect_orphaned_channels env
                    (drop_message env (notify_channel_waiters (with_globals g (put_state s st k1))) p), t1).

Definition receive_raw_channel (k : ipc) (t : table) (endpoint address : Z) (e : receive_env) (env : gc_env)
    : na_status * delivery * ipc * table :=
  match raw_endpoint k t endpoint with
  | inl status => (status, nothing, k, t)
  | inr (s, side) =>
    let k1 := update_state s begin_operation k in
    let finish status out k' t' := (status, out, update_state s end_operation k', t') in
    let f := re_frame e in
    if negb (status_ok (re_frame_status e)) then finish (re_frame_status e) nothing k1 t
    else match receive_frame_check f with
    | Some status => finish status nothing k1 t
    | None =>
      let '(claimed, p, st) := claim_receive (state_at k1 s) side in
      let k2 := put_state s st k1 in
      if negb (status_ok claimed) then finish claimed nothing k2 t
      else
        let m := message_at (k_heap k2) p in
        if (rf_byte_capacity f <? cm_byte_count m) || (rf_resource_capacity f <? resource_count m) then
          finish (if status_ok (re_sizes_status e) then BUFFER_TOO_SMALL else re_sizes_status e)
            (Build_delivery (if status_ok (re_sizes_status e) then Some (required_frame f m) else None) None [])
            (cancel_message k2 s side p) t
        else match output_check address f m with
        | Some status => finish status nothing (cancel_message k2 s side p) t
        | None =>
          let '(granted, handles, t1) := reserve_native t (resource_count m) (re_reserve_ok e) in
          if negb (status_ok granted) then finish granted nothing (cancel_message k2 s side p) t1
          else
            let copied := if status_ok (re_bytes_status e) && negb (resource_count m =? 0)
                          then re_handles_status e else re_bytes_status e in
            let bytes := if status_ok (re_bytes_status e) then cm_bytes m else None in
            if negb (status_ok copied) then
              finish copied (Build_delivery None bytes []) (cancel_message k2 s side p) (rollback_native t1 handles)
            else if negb (status_ok (re_result_status e)) then
              finish (re_result_status e) (Build_delivery None bytes handles) (cancel_message k2 s side p)
                (rollback_native t1 handles)
            else
              let '(status, k3, t2) := deliver_message env k2 t1 s side p handles false in
              finish status (Build_delivery (Some (delivered_frame f m)) bytes handles) k3 t2
        end
    end
  end.

(** The receive of the kernel: [capacity] bytes at a non-null buffer. *)
Definition receive_raw_channel_kernel (k : ipc) (t : table) (endpoint : Z) (buffer : bool) (capacity : Z)
    (reserve_ok : bool) (env : gc_env) : na_status * Z * delivery * ipc * table :=
  match raw_endpoint k t endpoint with
  | inl status => (status, 0, nothing, k, t)
  | inr (s, side) =>
    let k1 := update_state s begin_operation k in
    let finish status n out k' t' := (status, n, out, update_state s end_operation k', t') in
    let '(claimed, p, st) := claim_receive (state_at k1 s) side in
    let k2 := put_state s st k1 in
    if negb (status_ok claimed) then finish claimed 0 nothing k2 t
    else
      let m := message_at (k_heap k2) p in
      if (negb (cm_byte_count m =? 0) && negb buffer) || (capacity <? cm_byte_count m)
         || (CAPABILITY_MAX_PER_PROCESS <? resource_count m)
      then finish BUFFER_TOO_SMALL 0 nothing (cancel_message k2 s side p) t
      else
        let '(granted, handles, t1) := reserve_native t (resource_count m) reserve_ok in
        if negb (status_ok granted) then finish granted 0 nothing (cancel_message k2 s side p) t1
        else
          let '(status, k3, t2) := deliver_message env k2 t1 s side p handles true in
          finish status (if status_ok status then cm_byte_count m else 0)
            (Build_delivery None (cm_bytes m) handles) k3 t2
  end.

Definition discard_raw_channel (k : ipc) (t : table) (endpoint : Z) (env : gc_env) : na_status * ipc :=
  match raw_endpoint k t endpoint with
  | inl status => (status, k)
  | inr (s, side) =>
    let k1 := update_state s begin_operation k in
    let '(discarded, p, st, g) := discard (state_at k1 s) (k_globals k1) (k_heap k1) side in
    let k2 := update_state s end_operation (with_globals g (put_state s st k1)) in
    if negb discarded then (WOULD_BLOCK, collect_orphaned_channels env k2)
    else (STATUS_OK, collect_orphaned_channels env (drop_message env (notify_channel_waiters k2) p))
  end.
End calls.
