(* ===== verification/ChannelMachine.v ===== *)
(** The raw-channel subsystem of ChannelSystem.v over all its calls: the
    budget invariant by rule induction on sequences of calls. *)
From stdpp Require Import base list numbers gmap.
From S2P Require Import Prelude Abi Usercopy BoundedQueue Capability ResourceTable Channel ChannelFacts ChannelSystem.

Local Open Scope Z_scope.
Set Default Proof Using "Type".

(** ** The invariant *)

Definition totals (m : gmap Z channel_state) : globals :=
  Build_globals (total queued_count m) (total queued_bytes m) (total queued_resources m).

(** Every channel is well formed, no message is queued twice, the global
    counters are the sums over the channels and stay within their limits. *)
Record ipc_wf (k : ipc) : Prop := Build_ipc_wf {
  iw_channels : ∀ s st, k_states k !! s = Some st → channel_wf st (k_heap k);
  iw_disjoint : ∀ s s' st st' p, k_states k !! s = Some st → k_states k !! s' = Some st' →
    p ∈ all_ptrs st → p ∈ all_ptrs st' → s = s';
  iw_globals : k_globals k = totals (k_states k);
  iw_within : within (k_globals k);
  iw_sides : ∀ o s side, k_endpoints k !! o = Some (s, side) → 0 ≤ side ≤ 1;
  iw_registry : NoDup (k_registry k);
  iw_registered : ∀ s, s ∈ k_registry k → is_Some (k_states k !! s);
}.

Lemma queued_nonneg st h : channel_wf st h → 0 ≤ queued_count st ∧ 0 ≤ queued_bytes st ∧ 0 ≤ queued_resources st.
Proof.
  intros Hwf. unfold queued_count, queued_bytes, queued_resources.
  pose proof (cw_queues st h Hwf 0 ltac:(lia)) as H0. pose proof (cw_queues st h Hwf 1 ltac:(lia)) as H1.
  pose proof (queue_ok_nonneg _ _ _ _ _ H0). pose proof (queue_ok_nonneg _ _ _ _ _ H1).
  pose proof (qwf_count _ (qo_fifo _ _ _ _ _ H0)). pose proof (qwf_count _ (qo_fifo _ _ _ _ _ H1)). lia.
Qed.

(** The share of the other channels. *)
Definition others (k : ipc) (s : Z) : globals := totals (delete s (k_states k)).

Lemma others_accounts k s st : ipc_wf k → k_states k !! s = Some st → accounts (others k s) (k_globals k) st.
Proof.
  intros Hwf Hs. rewrite (iw_globals k Hwf). unfold accounts, others, totals. simpl.
  rewrite !(total_delete _ (k_states k) s st) by done. lia.
Qed.

Lemma others_within k s st : ipc_wf k → k_states k !! s = Some st → within (others k s).
Proof.
  intros Hwf Hs. destruct (others_accounts k s st Hwf Hs) as (H1 & H2 & H3).
  pose proof (iw_within k Hwf) as Hw. pose proof (queued_nonneg st _ (iw_channels k Hwf s st Hs)) as Hst.
  assert (∀ s' st', delete s (k_states k) !! s' = Some st' →
    0 ≤ queued_count st' ∧ 0 ≤ queued_bytes st' ∧ 0 ≤ queued_resources st') as Hpos.
  { intros s' st' Hs'. apply lookup_delete_Some in Hs' as [_ Hs'].
    apply (queued_nonneg st' _ (iw_channels k Hwf s' st' Hs')). }
  assert (0 ≤ global_messages (others k s)) by (apply total_nonneg; intros s2 st2 Hs2; by apply (Hpos s2)).
  assert (0 ≤ global_bytes (others k s)) by (apply total_nonneg; intros s2 st2 Hs2; by apply (Hpos s2)).
  assert (0 ≤ global_resources (others k s)) by (apply total_nonneg; intros s2 st2 Hs2; by apply (Hpos s2)).
  limits. lia.
Qed.

Lemma channel_wf_frame st h h' :
  (∀ p, p ∈ all_ptrs st → sizes h' p = sizes h p) → channel_wf st h → channel_wf st h'.
Proof.
  intros Hf [Hs Hl Hq Hnd Hc]. split; try done. intros side Hside. eapply queue_ok_frame; [|by apply Hq].
  intros p Hp. apply Hf. unfold all_ptrs. rewrite elem_of_app. destruct (side_cases side Hside) as [->| ->]; auto.
Qed.

Lemma all_ptrs_stored st h p : channel_wf st h → p ∈ all_ptrs st → p ≠ null ∧ is_Some (h !! p).
Proof.
  intros Hwf. unfold all_ptrs. rewrite elem_of_app.
  assert (∀ side, 0 ≤ side ≤ 1 → p ∈ ptrs (queue_of st side) → p ≠ null ∧ is_Some (h !! p)) as Hside.
  { intros side Hs Hp. pose proof (qo_stored _ _ _ _ _ (cw_queues st h Hwf side Hs)) as Hst.
    rewrite Forall_forall in Hst. destruct (Hst p Hp) as (? & m & Hm & _). split; [done|by exists m]. }
  intros [Hp|Hp]; [apply (Hside 0)|apply (Hside 1)]; by try lia.
Qed.

(** One channel changed by a method. *)
Lemma ipc_update k s st st' g' h' :
  ipc_wf k → k_states k !! s = Some st → chan_ok (others k s) st (k_heap k) st' g' h' →
  ipc_wf (with_globals g' (with_heap h' (with_states (<[s := st']> (k_states k)) k))).
Proof.
  intros Hwf Hs [Hst' Hacc Hw Hoth Hp].
  assert (∀ s2 st2, s2 ≠ s → k_states k !! s2 = Some st2 → ∀ p, p ∈ all_ptrs st2 →
    (p ∉ all_ptrs st) ∧ is_Some (k_heap k !! p)) as Hother.
  { intros s2 st2 Hne Hs2 p Hin. split; [|by eapply all_ptrs_stored; [apply (iw_channels k Hwf s2 st2 Hs2)|]].
    intros Hin'. apply Hne. by apply (iw_disjoint k Hwf s2 s st2 st p). }
  assert (∀ s2 st2 p, s2 ≠ s → k_states k !! s2 = Some st2 → p ∈ all_ptrs st' → p ∈ all_ptrs st2 → False) as Hdis.
  { intros s2 st2 p Hne Hs2 Hin Hin2. destruct (Hother s2 st2 Hne Hs2 p Hin2) as [Hn [m Hm]].
    destruct (Hp p Hin); congruence. }
  split; simpl; try apply Hwf.
  - intros s2 st2 [(<- & <-)|[Hne Hs2]]%lookup_insert_Some; [done|].
    apply (channel_wf_frame st2 (k_heap k)); [|by apply (iw_channels k Hwf s2)].
    intros p Hin. destruct (Hother s2 st2 (not_eq_sym Hne) Hs2 p Hin). by apply Hoth.
  - intros s1 s2 st1 st2 p [(<- & <-)|[Hn1 H1]]%lookup_insert_Some [(<- & <-)|[Hn2 H2]]%lookup_insert_Some Hin1 Hin2;
      [done| | |by apply (iw_disjoint k Hwf s1 s2 st1 st2 p)].
    + exfalso. by apply (Hdis s2 st2 p).
    + exfalso. by apply (Hdis s1 st1 p).
  - destruct g', Hacc as (H1 & H2 & H3). unfold totals. simpl in *. rewrite !total_insert. f_equal; lia.
  - done.
  - intros s2 Hin. destruct (decide (s2 = s)) as [->|Hne]; [rewrite lookup_insert_eq; by eexists|].
    rewrite lookup_insert_ne by done. by apply (iw_registered k Hwf).
Qed.

(** ** Changes that leave the queues alone *)

Definition inert (f : channel_state → channel_state) : Prop :=
  ∀ st, cs_queues (f st) = cs_queues st ∧ max_messages (f st) = max_messages st ∧
    max_bytes (f st) = max_bytes st ∧ max_resources (f st) = max_resources st ∧
    length (cs_owners (f st)) = length (cs_owners st) ∧ length (cs_roots (f st)) = length (cs_roots st) ∧
    active_claims (f st) = active_claims st ∧ cs_valid (f st) = cs_valid st.

Lemma inert_hook side e : inert (λ st, endpoint_hook side st e).
Proof.
  intros st. destruct e as [o l|o l|o l l']; simpl; unfold capability_acquired, capability_released;
    (destruct (1 <? side); [done|]); case_decide; simpl; by rewrite ?length_zset.
Qed.

Lemma inert_begin : inert begin_operation.
Proof. done. Qed.
Lemma inert_end : inert end_operation.
Proof. done. Qed.
Lemma inert_created : inert endpoint_object_created.
Proof. done. Qed.
Lemma inert_destroyed : inert endpoint_object_destroyed.
Proof. done. Qed.

#[local] Hint Resolve inert_hook inert_begin inert_end inert_created inert_destroyed : channel.

Lemma inert_queue f st side : inert f → queue_of (f st) side = queue_of st side.
Proof. intros Hf. unfold queue_of. by destruct (Hf st) as (-> & _). Qed.

Lemma inert_channel f st h : inert f → channel_wf st h → channel_wf (f st) h ∧ all_ptrs (f st) = all_ptrs st ∧
  queued_count (f st) = queued_count st ∧ queued_bytes (f st) = queued_bytes st ∧
  queued_resources (f st) = queued_resources st.
Proof.
  intros Hf [Hs Hl Hq Hnd Hc]. destruct (Hf st) as (Hfq & Hmm & Hmb & Hmr & Ho & Hr & Hac & _).
  unfold all_ptrs, queued_count, queued_bytes, queued_resources. rewrite !inert_queue by done.
  split_and!; try done. split.
  - by rewrite Hfq, Ho, Hr.
  - by rewrite Hmm, Hmb, Hmr.
  - intros side Hside. unfold queue_at_ok. rewrite inert_queue, Hmm, Hmb, Hmr by done. by apply Hq.
  - unfold all_ptrs. by rewrite !inert_queue.
  - rewrite Hac, Hc. unfold claims. by rewrite !inert_queue.
Qed.

Lemma update_state_wf k s f : ipc_wf k → inert f → ipc_wf (update_state s f k).
Proof.
  intros Hwf Hf. unfold update_state. destruct (k_states k !! s) as [st|] eqn:Hs.
  2: { rewrite alter_absent by done. by destruct k. }
  rewrite (alter_present _ _ _ _ Hs).
  destruct (inert_channel f st (k_heap k) Hf (iw_channels k Hwf s st Hs)) as (Hwf' & Hp & Hc & Hb & Hr).
  pose proof (others_accounts k s st Hwf Hs) as (H1 & H2 & H3).
  change (with_states (<[s := f st]> (k_states k)) k)
    with (with_globals (k_globals k) (with_heap (k_heap k) (with_states (<[s := f st]> (k_states k)) k))).
  apply (ipc_update k s st); [done..|]. split; [done| |apply Hwf|done|].
  - unfold accounts. by rewrite Hc, Hb, Hr.
  - intros p. rewrite Hp. by left.
Qed.

Lemma run_hooks_wf k log : ipc_wf k → ipc_wf (run_hooks k log).
Proof.
  unfold run_hooks. revert k. induction log as [|e log IH]; intros k Hwf; simpl; [done|]. apply IH.
  unfold run_hook. destruct (k_endpoints k !! event_object e) as [[s side]|]; [|done].
  apply update_state_wf; auto with channel.
Qed.

(** Fields outside the invariant. *)
Lemma generation_wf k : ipc_wf k → ipc_wf (notify_channel_waiters k).
Proof. by intros []. Qed.

Lemma endpoints_wf k m :
  ipc_wf k → (∀ o s side, m !! o = Some (s, side) → 0 ≤ side ≤ 1) → ipc_wf (with_endpoints m k).
Proof. by intros [] Hm. Qed.

Lemma make_endpoint_wf k o s side : ipc_wf k → 0 ≤ side ≤ 1 → ipc_wf (make_endpoint k o s side).
Proof.
  intros Hwf Hs. apply update_state_wf; [|auto with channel]. apply endpoints_wf; [done|].
  intros o' s' side' [(<- & [= <- <-])|[_ Ho]]%lookup_insert_Some; [done|]. by apply (iw_sides k Hwf o' s').
Qed.

Lemma destroy_endpoint_wf k o : ipc_wf k → ipc_wf (destroy_endpoint k o).
Proof.
  intros Hwf. unfold destroy_endpoint. destruct (k_endpoints k !! o) as [[s side]|]; [|done].
  apply update_state_wf; [|auto with channel]. apply endpoints_wf; [done|].
  intros o' s' side' [_ Ho]%lookup_delete_Some. by apply (iw_sides k Hwf o' s').
Qed.

Lemma drop_resource_wf env k r : ipc_wf k → ipc_wf (drop_resource env k r).
Proof.
  intros Hwf. unfold drop_resource. pose proof (run_hooks_wf k (release_transit r).2 Hwf) as Hk.
  destruct (t_object r) as [o|]; [|done]. destruct (gc_last env o); [|done]. by apply destroy_endpoint_wf.
Qed.

Lemma drop_resources_wf env k rs : ipc_wf k → ipc_wf (foldl (drop_resource env) k rs).
Proof. revert k. induction rs as [|r rs IH]; intros k Hwf; [done|]. by apply IH, drop_resource_wf. Qed.

(** A message no channel queues can be deleted. *)
Definition unqueued (k : ipc) (p : Z) : Prop := ∀ s st, k_states k !! s = Some st → p ∉ all_ptrs st.

Lemma delete_heap_wf k p : ipc_wf k → unqueued k p → ipc_wf (with_heap (delete p (k_heap k)) k).
Proof.
  intros Hwf Hp. destruct Hwf as [Hc Hd Hg Hw Hs Hr Hi]. split; try done. simpl. intros s st Hst.
  apply (channel_wf_frame st (k_heap k)); [|by apply Hc with s]. intros p' Hin. apply sizes_delete_ne.
  intros ->. by apply (Hp s st).
Qed.

(** The pieces that do not touch queues or the heap. *)
Definition same_queues (k k' : ipc) : Prop :=
  k_heap k' = k_heap k ∧ k_globals k' = k_globals k ∧ k_registry k' = k_registry k ∧
  (∀ s, all_ptrs <$> k_states k' !! s = all_ptrs <$> k_states k !! s).

#[global] Instance same_queues_po : PreOrder same_queues.
Proof.
  split; [by intros k; split_and!|]. intros k1 k2 k3 (Ha & Hb & Hc & Hd) (Ha2 & Hb2 & Hc2 & Hd2).
  split_and!; congruence.
Qed.

Lemma update_state_same k s f : inert f → same_queues k (update_state s f k).
Proof.
  intros Hf. split_and!; try done. intros s'. unfold update_state. simpl.
  destruct (decide (s' = s)) as [->|Hne]; [|by rewrite lookup_alter_ne by done].
  rewrite lookup_alter_eq, <- option_fmap_compose. destruct (k_states k !! s) as [st|]; simpl; [|done].
  unfold all_ptrs. by rewrite !inert_queue.
Qed.

Lemma run_hooks_same k log : same_queues k (run_hooks k log).
Proof.
  unfold run_hooks. revert k. induction log as [|e log IH]; intros k; simpl; [done|].
  transitivity (run_hook k e); [|apply IH]. unfold run_hook.
  destruct (k_endpoints k !! event_object e) as [[s side]|]; [|done]. apply update_state_same. auto with channel.
Qed.

Lemma destroy_endpoint_same k (o : Z) : same_queues k (destroy_endpoint k o).
Proof.
  unfold destroy_endpoint. destruct (k_endpoints k !! o) as [[s side]|]; [|reflexivity].
  transitivity (with_endpoints (delete o (k_endpoints k)) k); [by split_and!|].
  apply update_state_same. auto with channel.
Qed.

Lemma drop_resource_same env k r : same_queues k (drop_resource env k r).
Proof.
  unfold drop_resource. transitivity (run_hooks k (release_transit r).2); [apply run_hooks_same|].
  destruct (t_object r) as [o|]; [|done]. destruct (gc_last env o); [|done]. apply destroy_endpoint_same.
Qed.

Lemma drop_resources_same env k rs : same_queues k (foldl (drop_resource env) k rs).
Proof.
  revert k. induction rs as [|r rs IH]; intros k; [done|]. simpl.
  transitivity (drop_resource env k r); [apply drop_resource_same|apply IH].
Qed.

Lemma same_unqueued k k' p : same_queues k k' → unqueued k p → unqueued k' p.
Proof.
  intros (_ & _ & _ & Hs) Hu s st Hst Hin. specialize (Hs s). rewrite Hst in Hs. simpl in Hs.
  destruct (k_states k !! s) as [st0|] eqn:Hst0; [|done]. simpl in Hs. injection Hs as Hs.
  apply (Hu s st0 Hst0). by rewrite <- Hs.
Qed.

Lemma drop_message_wf env k p : ipc_wf k → unqueued k p → ipc_wf (drop_message env k p).
Proof.
  intros Hwf Hu. unfold drop_message. apply delete_heap_wf; [by apply drop_resources_wf|].
  eapply same_unqueued; [apply drop_resources_same|done].
Qed.

(** ** Methods on one channel of the system *)

Lemma state_at_present k s st : k_states k !! s = Some st → state_at k s = st.
Proof. intros Hs. unfold state_at. by rewrite Hs. Qed.

(** A null or deleted state is invalid and every method refuses it. *)
Lemma state_at_absent k s : k_states k !! s = None → cs_valid (state_at k s) = false.
Proof. intros Hs. unfold state_at. by rewrite Hs. Qed.

Lemma put_state_absent k s st : k_states k !! s = None → put_state s st k = k.
Proof. intros Hs. unfold put_state, update_state. rewrite alter_absent by done. by destruct k. Qed.

Lemma put_state_present k s st st' :
  k_states k !! s = Some st → put_state s st' k = with_states (<[s := st']> (k_states k)) k.
Proof. intros Hs. unfold put_state, update_state. by rewrite (alter_present _ _ _ _ Hs). Qed.

Lemma method_wf k s st st' g' :
  ipc_wf k → k_states k !! s = Some st → chan_ok (others k s) st (k_heap k) st' g' (k_heap k) →
  ipc_wf (with_globals g' (put_state s st' k)).
Proof.
  intros Hwf Hs Hok. rewrite (put_state_present k s st) by done. by apply (ipc_update k s st st' g' (k_heap k)).
Qed.

(** A method may leave deleted messages in the heap for a while. *)
Lemma chan_ok_keep rest st h st' g' h' :
  (∀ p, is_Some (h' !! p) → h' !! p = h !! p) → chan_ok rest st h st' g' h' → chan_ok rest st h st' g' h.
Proof.
  intros Hh [Hwf Ha Hw _ Hp]. split; try done.
  apply (channel_wf_frame st' h'); [|done]. intros p Hin. unfold sizes.
  rewrite Hh; [done|]. by apply (all_ptrs_stored st' h' p Hwf).
Qed.

Lemma delete_all_keep ps (h : heap) p : is_Some (delete_all ps h !! p) → delete_all ps h !! p = h !! p.
Proof.
  revert h. induction ps as [|p' ps IH]; intros h; [done|].
  change (delete_all (p' :: ps) h) with (delete_all ps (delete p' h)). intros Hs. rewrite IH by done.
  specialize (IH _ Hs). rewrite IH in Hs. destruct (decide (p = p')) as [->|Hne].
  - rewrite lookup_delete_eq in Hs. by destruct Hs.
  - by rewrite lookup_delete_ne.
Qed.

(** Messages may change as long as their sizes stay. *)
Lemma resize_wf k h' : ipc_wf k → (∀ p, sizes h' p = sizes (k_heap k) p) → ipc_wf (with_heap h' k).
Proof.
  intros [Hc Hd Hg Hw Hs Hr Hi] Hsz. split; try done. simpl. intros s st Hst.
  apply (channel_wf_frame st (k_heap k)); [done|]. by apply Hc with s.
Qed.

Section methods.
Context (k : ipc) (s : Z) (Hwf : ipc_wf k).

Lemma claims_range st : k_states k !! s = Some st → 0 ≤ active_claims st ≤ 2.
Proof using Hwf.
  intros Hs. rewrite (cw_claims st _ (iw_channels k Hwf s st Hs)). unfold claims.
  destruct (claimed_ _), (claimed_ _); simpl; lia.
Qed.

Lemma claim_receive_wf side :
  0 ≤ side ≤ 1 →
  let '(status, p, st') := claim_receive (state_at k s) side in
  ipc_wf (put_state s st' k) ∧ (status = STATUS_OK →
    ∃ st, k_states k !! s = Some st ∧ k_states (put_state s st' k) !! s = Some st' ∧
      is_claimed (q_fifo (queue_of st' side)) = true ∧ queue_front null (q_fifo (queue_of st' side)) = p ∧
      (∃ rest, ptrs (queue_of st side) = p :: rest) ∧ ptrs (queue_of st' side) = ptrs (queue_of st side)).
Proof using Hwf.
  intros Hside. unfold claim_receive. destruct (k_states k !! s) as [st|] eqn:Hs.
  2: { rewrite state_at_absent by done. simpl. by rewrite put_state_absent. }
  rewrite (state_at_present k s st Hs).
  assert (ipc_wf (put_state s st k)) as Hsame.
  { rewrite (put_state_present k s st) by done. rewrite insert_id by done. by destruct k. }
  destruct (_ || _); [done|]. destruct (queue_empty _); [by case_match|].
  destruct (claim_front (q_fifo (queue_of st side))) as [[] fifo] eqn:Hcl; [|done]. cbn [negb].
  pose proof (iw_channels k Hwf s st Hs) as Hst. pose proof (cw_queues st _ Hst side Hside) as Hq.
  destruct (claim_ok _ _ _ _ _ fifo Hq Hcl) as (Hq' & Hp & Hc & Hc0 & Hc1 & rest & Hr).
  set (st' := set_claims _ _).
  assert (queue_of st' side = Build_queue fifo (q_bytes (queue_of st side)) (q_resources (queue_of st side))) as Hqst
    by (apply (queue_set_eq st side); [apply Hst|done]).
  assert (k_states (put_state s st' k) !! s = Some st') as Hput
    by (rewrite (put_state_present k s st) by done; apply lookup_insert_eq).
  split.
  - apply (method_wf k s st st' (k_globals k) Hwf Hs).
    apply reclaimed_ok; try done; [by apply others_accounts|apply Hwf|].
    cbn [q_fifo]. rewrite Hc0, Hc1. simpl. pose proof (claims_range st Hs). rewrite u64_small; lia.
  - intros _. exists st. rewrite Hqst. split_and!; try done. by exists rest.
Qed.

Lemma claimed_positive st side :
  k_states k !! s = Some st → 0 ≤ side ≤ 1 → claimed_ (q_fifo (queue_of st side)) = true → 1 ≤ active_claims st.
Proof using Hwf.
  intros Hs Hside Hcl. rewrite (cw_claims st _ (iw_channels k Hwf s st Hs)). unfold claims.
  destruct (side_cases side Hside) as [->| ->]; rewrite Hcl; unfold Z.b2z; repeat case_match; lia.
Qed.

Lemma cancel_message_wf side p : 0 ≤ side ≤ 1 → ipc_wf (cancel_message k s side p).
Proof using Hwf.
  intros Hside. unfold cancel_message, cancel_receive. destruct (k_states k !! s) as [st|] eqn:Hs.
  2: { by rewrite state_at_absent. }
  rewrite (state_at_present k s st Hs). destruct (_ || _ || _); [done|].
  destruct (is_claimed _) eqn:Hcl; [|done]. cbn [negb orb]. destruct (negb _); [done|].
  pose proof (iw_channels k Hwf s st Hs) as Hst.
  destruct (cancel_ok _ _ _ _ _ (cw_queues st _ Hst side Hside)) as [Hq' Hp]. unfold is_claimed in Hcl.
  pose proof (claims_range st Hs). pose proof (claimed_positive st side Hs Hside Hcl).
  apply generation_wf, (method_wf k s st _ (k_globals k) Hwf Hs).
  apply reclaimed_ok; try done; [by apply others_accounts|apply Hwf|].
  rewrite Hcl. simpl. rewrite u64_small; lia.
Qed.

(** A message that left its channel is queued nowhere. *)
Lemma popped_wf st st' g' p :
  k_states k !! s = Some st → chan_ok (others k s) st (k_heap k) st' g' (delete p (k_heap k)) → p ∈ all_ptrs st →
  let k' := with_globals g' (put_state s st' k) in ipc_wf k' ∧ unqueued k' p.
Proof using Hwf.
  intros Hs Hok Hp k'. split.
  - apply (method_wf k s st st' _ Hwf Hs). eapply chan_ok_keep; [|exact Hok]. intros p' [m' Hm'].
    apply lookup_delete_Some in Hm' as [Hne Hm']. by rewrite lookup_delete_ne.
  - intros s2 st2. unfold k'. rewrite (put_state_present k s st) by done. cbn [k_states with_globals with_states].
    intros [(<- & <-)|[Hne Hs2]]%lookup_insert_Some Hin.
    + destruct (all_ptrs_stored st' _ p (co_wf _ _ _ _ _ _ Hok) Hin) as [_ Hd].
      rewrite lookup_delete_eq in Hd. by destruct Hd.
    + apply Hne. by apply (iw_disjoint k Hwf s s2 st st2 p Hs Hs2).
Qed.

(** The message [p] leaves the channel when a receive commits. *)
Lemma commit_receive_wf side p m :
  0 ≤ side ≤ 1 → cm_byte_count m = cm_byte_count (message_at (k_heap k) p) →
  resource_count m = resource_count (message_at (k_heap k) p) →
  let '(committed, st', g') := commit_receive (state_at k s) (k_globals k) side p m in
  let k' := with_globals g' (put_state s st' k) in
  if committed then ipc_wf k' ∧ unqueued k' p else st' = state_at k s ∧ g' = k_globals k.
Proof using Hwf.
  intros Hside Hmb Hmr. unfold commit_receive. destruct (k_states k !! s) as [st|] eqn:Hs.
  2: { by rewrite state_at_absent. }
  rewrite (state_at_present k s st Hs). destruct (_ || _ || _); [done|].
  destruct (is_claimed _) eqn:Hcl; [|done]. cbn [negb orb].
  destruct (Z.eqb_spec (queue_front null (q_fifo (queue_of st side))) p) as [Hf|]; [|done]. cbn [negb].
  pose proof (iw_channels k Hwf s st Hs) as Hst. pose proof (claims_range st Hs) as Hrange.
  pose proof (claimed_positive st side Hs Hside Hcl) as Hpos.
  pose proof (popped_ok (others k s) (k_globals k) st (k_heap k) Hst (others_accounts k s st Hwf Hs)
                (iw_within k Hwf) (others_within k s st Hwf Hs) side (queue_of st side) (u64 (active_claims st - 1))
                Hside (cw_queues st _ Hst side Hside) eq_refl eq_refl eq_refl eq_refl Hcl) as Hok.
  cbv zeta in Hok. unfold is_claimed in Hcl. rewrite Hf, Hcl in Hok. simpl in Hok.
  specialize (Hok ltac:(rewrite u64_small; lia)).
  assert (pop_queue (queue_of st side) m = pop_queue (queue_of st side) (message_at (k_heap k) p)) as ->
    by (unfold pop_queue; by rewrite Hmb, Hmr).
  rewrite Hmb, Hmr. apply (popped_wf st); [done..|].
  apply (elem_sides st (k_heap k) Hst side p Hside). left.
  destruct (queue_front_items null _ (qo_fifo _ _ _ _ _ (cw_queues st _ Hst side Hside))) as [rest Hr].
  { by apply (qwf_claim _ (qo_fifo _ _ _ _ _ (cw_queues st _ Hst side Hside))). }
  unfold ptrs. rewrite Hr, Hf. by left.
Qed.

Lemma discard_wf side :
  0 ≤ side ≤ 1 →
  let '(discarded, p, st', g') := discard (state_at k s) (k_globals k) (k_heap k) side in
  let k' := with_globals g' (put_state s st' k) in
  ipc_wf k' ∧ (discarded = true → unqueued k' p).
Proof using Hwf.
  intros Hside. unfold discard. destruct (k_states k !! s) as [st|] eqn:Hs.
  2: { rewrite state_at_absent by done. cbn [negb orb]. rewrite put_state_absent by done.
       split; [|done]. by destruct k. }
  assert (ipc_wf (with_globals (k_globals k) (put_state s st k))) as Hsame.
  { rewrite (put_state_present k s st) by done. rewrite insert_id by done. by destruct k. }
  rewrite (state_at_present k s st Hs). destruct (_ || _); [done|]. destruct (queue_empty _); [done|].
  destruct (claim_front (q_fifo (queue_of st side))) as [[] fifo] eqn:Hcl; [|done]. cbn [negb].
  pose proof (iw_channels k Hwf s st Hs) as Hst.
  destruct (claim_ok _ _ _ _ _ fifo (cw_queues st _ Hst side Hside) Hcl) as (Hq' & Hp & Hc & Hc0 & Hc1 & rest & Hr).
  pose proof (popped_ok (others k s) (k_globals k) st (k_heap k) Hst (others_accounts k s st Hwf Hs)
                (iw_within k Hwf) (others_within k s st Hwf Hs) side _ (active_claims st)
                Hside Hq' Hp Hc eq_refl eq_refl Hc1 ltac:(rewrite Hc0; simpl; lia)) as Hok.
  cbv zeta in Hok. cbn [q_fifo] in Hok. set (q' := pop_queue _ _) in *.
  change (active_claims st) with (active_claims (set_queue side q' st)) in Hok. rewrite set_claims_id in Hok.
  destruct (popped_wf st (set_queue side q' st) _ _ Hs Hok) as [Hk Hu]; [|done].
  apply (elem_sides st (k_heap k) Hst side _ Hside). left. rewrite Hr. by left.
Qed.
End methods.

(** ** Collection *)

Lemma drop_message_unqueued env k p p' : unqueued k p' → unqueued (drop_message env k p) p'.
Proof. intros Hu. exact (same_unqueued _ _ p' (drop_resources_same env k _) Hu). Qed.

Lemma drop_messages_wf env ps k : ipc_wf k → Forall (unqueued k) ps → ipc_wf (foldl (drop_message env) k ps).
Proof.
  revert k. induction ps as [|p ps IH]; intros k Hwf Hu; [done|]. apply Forall_cons in Hu as [Hp Hu]. simpl.
  apply IH; [by apply drop_message_wf|]. eapply Forall_impl; [exact Hu|]. intros p'. apply drop_message_unqueued.
Qed.

Lemma discard_alloc st g h ok :
  discard_orphan_messages st g h ok = None ∨ discard_orphan_messages st g h ok = discard_orphan_messages st g h true.
Proof. unfold discard_orphan_messages. rewrite andb_false_r. destruct (_ && _); [by left|by right]. Qed.

Lemma can_reap_claims st : can_reap st = true → active_claims st = 0.
Proof. unfold can_reap. rewrite !andb_true_iff. intros [_ H]. by apply Z.eqb_eq. Qed.

Lemma discard_state_wf env k s : ipc_wf k → can_reap (state_at k s) = true → ipc_wf (discard_state env k s).
Proof.
  intros Hwf Hreap. unfold discard_state. destruct (k_states k !! s) as [st|] eqn:Hs.
  2: { unfold state_at. rewrite Hs. simpl. rewrite put_state_absent by done. destruct k. by apply generation_wf. }
  rewrite (state_at_present k s st Hs) in *. apply can_reap_claims in Hreap.
  pose proof (iw_channels k Hwf s st Hs) as Hst.
  destruct (discard_orphan_messages_ok (others k s) st (k_globals k) (k_heap k) Hst) as (st' & g' & Hd & Hok & Hnil & _);
    [by apply others_accounts|apply Hwf|by apply others_within with st|done|].
  destruct (discard_alloc st (k_globals k) (k_heap k) (gc_discard_ok env s)) as [-> | ->]; [done|]. rewrite Hd.
  assert (ipc_wf (with_globals g' (put_state s st' k))) as Hk'.
  { apply (method_wf k s st st' _ Hwf Hs). eapply chan_ok_keep; [|exact Hok]. apply delete_all_keep. }
  apply drop_messages_wf; [by apply generation_wf|]. apply Forall_forall. intros p Hp s2 st2 Hs2 Hin.
  rewrite (put_state_present k s st) in Hs2 by done. simpl in Hs2.
  apply lookup_insert_Some in Hs2 as [(<- & <-)|[Hne Hs2]]; [rewrite Hnil in Hin; by apply elem_of_nil in Hin|].
  apply Hne. by apply (iw_disjoint k Hwf s s2 st st2 p Hs Hs2).
Qed.

Lemma sweep_messages_wf env k sm : ipc_wf k → ipc_wf (sweep_messages env k sm).
Proof.
  intros Hwf. unfold sweep_messages. destruct (negb sm.2); [|done].
  destruct (can_reap _) eqn:Hr; [|done]. by apply discard_state_wf.
Qed.

(** The system without the state [s]. *)
Definition forget (s : Z) (k : ipc) : ipc := with_states (delete s (k_states k)) k.

Lemma forget_update s s' f k : forget s (update_state s' f k) = update_state s' f (forget s k).
Proof.
  unfold forget, update_state. simpl. unfold with_states. simpl. f_equal. apply map_eq. intros s2.
  destruct (decide (s2 = s)) as [->|Hn].
  - rewrite lookup_delete_eq. destruct (decide (s = s')) as [->|Hn'].
    + by rewrite lookup_alter_eq, lookup_delete_eq.
    + by rewrite lookup_alter_ne, lookup_delete_eq.
  - rewrite lookup_delete_ne by done. destruct (decide (s2 = s')) as [->|Hn'].
    + by rewrite !lookup_alter_eq, lookup_delete_ne.
    + by rewrite !lookup_alter_ne, lookup_delete_ne.
Qed.

Lemma forget_hooks s k log : forget s (run_hooks k log) = run_hooks (forget s k) log.
Proof.
  unfold run_hooks. revert k. induction log as [|e log IH]; intros k; [done|]. simpl. rewrite IH. f_equal.
  unfold run_hook. simpl. destruct (k_endpoints k !! event_object e) as [[s' side]|]; [|done]. by rewrite forget_update.
Qed.

Lemma forget_destroy s k (o : Z) : forget s (destroy_endpoint k o) = destroy_endpoint (forget s k) o.
Proof.
  unfold destroy_endpoint. simpl. destruct (k_endpoints k !! o) as [[s' side]|]; [|done]. by rewrite forget_update.
Qed.

Lemma forget_drop_resource s env k r : forget s (drop_resource env k r) = drop_resource env (forget s k) r.
Proof.
  unfold drop_resource. rewrite <- forget_hooks. destruct (t_object r) as [o|]; [|done].
  destruct (gc_last env o); [|done]. apply forget_destroy.
Qed.

Lemma forget_drop_messages s env ps k :
  forget s (foldl (drop_message env) k ps) = foldl (drop_message env) (forget s k) ps.
Proof.
  revert k. induction ps as [|p ps IH]; intros k; [done|]. simpl. rewrite IH. f_equal. unfold drop_message. simpl.
  assert (∀ rs k, forget s (foldl (drop_resource env) k rs) = foldl (drop_resource env) (forget s k) rs) as Hd.
  { intros rs. induction rs as [|r rs IHr]; intros k'; [done|]. simpl. by rewrite IHr, forget_drop_resource. }
  by rewrite <- Hd.
Qed.

Lemma remove_first_sublist s l : remove_first s l `sublist_of` l.
Proof.
  induction l as [|x l IH]; simpl; [done|]. destruct (x =? s); [by apply sublist_cons|by apply sublist_skip].
Qed.

Lemma remove_first_nodup s l : NoDup l → s ∉ remove_first s l.
Proof.
  induction l as [|x l IH]; simpl; intros Hnd; [apply not_elem_of_nil|]. apply NoDup_cons in Hnd as [Hx Hnd].
  destruct (Z.eqb_spec x s) as [->|Hne]; [done|]. apply not_elem_of_cons. split; [done|by apply IH].
Qed.

(** A destroyed channel takes its share of the counters with it. *)
Lemma remove_state_wf k s st :
  ipc_wf k → k_states k !! s = Some st →
  ipc_wf (forget s (with_globals (others k s) (unregister_state s k))).
Proof.
  intros Hwf Hs. pose proof (others_within k s st Hwf Hs) as Hw.
  destruct Hwf as [Hc Hd Hg _ Hsd Hr Hi]. split; simpl; try done.
  - intros s2 st2 [_ Hs2]%lookup_delete_Some. by apply Hc with s2.
  - intros s1 s2 st1 st2 p [_ H1]%lookup_delete_Some [_ H2]%lookup_delete_Some. by apply Hd.
  - eapply sublist_NoDup; [exact Hr|]. apply remove_first_sublist.
  - intros s2 Hin. destruct (decide (s2 = s)) as [->|Hne]; [by apply remove_first_nodup in Hin|].
    rewrite lookup_delete_ne by done. apply Hi. eapply sublist_subseteq; [apply remove_first_sublist|done].
Qed.

Lemma sweep_state_wf env k sm : ipc_wf k → ipc_wf (sweep_state env k sm).
Proof.
  intros Hwf. unfold sweep_state. destruct (sm.2 || _) eqn:Hg; [done|]. cbn [orb].
  destruct (negb (endpoint_objects _ =? 0)); [done|]. apply orb_false_iff in Hg as [_ Hreap].
  apply negb_false_iff in Hreap. destruct (k_states k !! sm.1) as [st|] eqn:Hs.
  2: { unfold state_at. rewrite Hs. simpl. destruct Hwf as [Hc Hd Hg Hw Hsd Hr Hi]. split; simpl; try done.
       - intros s2 st2 [_ Hs2]%lookup_delete_Some. by apply Hc with s2.
       - intros s1 s2 st1 st2 p [_ H1]%lookup_delete_Some [_ H2]%lookup_delete_Some. by apply Hd.
       - by rewrite delete_id.
       - eapply sublist_NoDup; [exact Hr|]. apply remove_first_sublist.
       - intros s2 Hin. rewrite delete_id by done. apply Hi. eapply sublist_subseteq; [apply remove_first_sublist|done]. }
  rewrite (state_at_present k sm.1 st Hs) in *. apply can_reap_claims in Hreap.
  pose proof (iw_channels k Hwf sm.1 st Hs) as Hst.
  change (k_globals (unregister_state sm.1 k)) with (k_globals k).
  change (k_heap (unregister_state sm.1 k)) with (k_heap k).
  rewrite (destroy_channel_ok (others k sm.1) st _ _ Hst); try done;
    [|by apply others_accounts|apply Hwf|by apply others_within with st].
  set (k2 := foldl _ _ _). change (ipc_wf (forget sm.1 k2)). unfold k2. rewrite forget_drop_messages.
  apply drop_messages_wf; [by apply (remove_state_wf k sm.1 st)|].
  apply Forall_forall. intros p Hp s2 st2 Hs2 Hin. simpl in Hs2. apply lookup_delete_Some in Hs2 as [Hne Hs2].
  apply Hne. by apply (iw_disjoint k Hwf sm.1 s2 st st2 p Hs Hs2).
Qed.

Lemma collect_wf env k : ipc_wf k → ipc_wf (collect_orphaned_channels env k).
Proof.
  intros Hwf. unfold collect_orphaned_channels. destruct (negb _); [done|].
  set (marked := zip _ _). clearbody marked.
  assert (∀ l k, ipc_wf k → ipc_wf (foldl (sweep_messages env) k l)) as H1.
  { induction l as [|x l IH]; intros k' Hk'; [done|]. by apply IH, sweep_messages_wf. }
  assert (∀ l k, ipc_wf k → ipc_wf (foldl (sweep_state env) k l)) as H2.
  { induction l as [|x l IH]; intros k' Hk'; [done|]. by apply IH, sweep_state_wf. }
  by apply H2, H1.
Qed.

(** ** Creation *)

Lemma make_channel_wf mm mb mr h :
  0 < mm ≤ CHANNEL_MAX_MESSAGES → 0 ≤ mb ≤ CHANNEL_MAX_MESSAGE_BYTES * 16 → 0 ≤ mr ≤ CHANNEL_DEFAULT_MAX_RESOURCES →
  channel_wf (make_channel mm mb mr true true true) h ∧ all_ptrs (make_channel mm mb mr true true true) = [].
Proof.
  intros Hm Hb Hr. unfold CHANNEL_MAX_MESSAGES in Hm. split; [|done]. split; try done.
  - split_and!; [unfold CHANNEL_MAX_MESSAGES; simpl; lia|simpl; lia|simpl; lia].
  - intros side Hs. destruct (side_cases side Hs) as [->| ->]; apply (make_queue_ok mm mb mr h); lia.
  - constructor.
Qed.

Lemma add_state_wf k s st :
  ipc_wf k → k_states k !! s = None → channel_wf st (k_heap k) → all_ptrs st = [] →
  ipc_wf (with_registry (k_registry k ++ [s]) (with_states (<[s := st]> (k_states k)) k)).
Proof.
  intros Hwf Hs Hst Hnil. pose proof (empty_accounts (Build_globals 0 0 0)
    (Build_globals (queued_count st) (queued_bytes st) (queued_resources st)) st (k_heap k) Hst) as Hz.
  specialize (Hz ltac:(by split_and!) Hnil). injection Hz as Hz1 Hz2 Hz3.
  pose proof Hwf as [Hc Hd Hg Hw Hsd Hr Hi]. split; simpl; try done.
  - intros s2 st2 [(<- & <-)|[_ Hs2]]%lookup_insert_Some; [done|]. by apply Hc with s2.
  - intros s1 s2 st1 st2 p [(<- & <-)|[Hn1 H1]]%lookup_insert_Some [(<- & <-)|[Hn2 H2]]%lookup_insert_Some Hin1 Hin2;
      [done| | |by apply (Hd s1 s2 st1 st2 p)]; exfalso; rewrite Hnil in *;
      first [by apply elem_of_nil in Hin1|by apply elem_of_nil in Hin2].
  - rewrite Hg. unfold totals. rewrite !total_insert, delete_id, Hz1, Hz2, Hz3 by done. done.
  - apply NoDup_app. split_and!; [done| |apply NoDup_singleton]. intros s2 Hin ->%list_elem_of_singleton.
    destruct (Hi s Hin). congruence.
  - intros s2 [Hin| ->%list_elem_of_singleton]%elem_of_app; [|rewrite lookup_insert_eq; by eexists].
    destruct (Hi s2 Hin) as [st2 Hs2]. destruct (decide (s2 = s)) as [->|]; [congruence|].
    rewrite lookup_insert_ne by done. by exists st2.
Qed.

Lemma same_state k k' s : same_queues k k' → is_Some (k_states k !! s) → is_Some (k_states k' !! s).
Proof.
  intros (_ & _ & _ & Hs) [st Hst]. specialize (Hs s). rewrite Hst in Hs. apply fmap_Some in Hs as (st' & Hst' & _).
  by exists st'.
Qed.

(** A channel without messages can be deleted at once. *)
Lemma forget_empty_wf k s st :
  ipc_wf k → k_states k !! s = Some st → all_ptrs st = [] → ipc_wf (forget s (unregister_state s k)).
Proof.
  intros Hwf Hs Hnil. pose proof (remove_state_wf k s st Hwf Hs) as Hr.
  rewrite <- (empty_accounts (others k s) (k_globals k) st (k_heap k)) in Hr;
    [by destruct k|by apply (iw_channels k Hwf s)|by apply others_accounts|done].
Qed.

Record fresh_channel (k : ipc) (e : create_env) : Prop := Build_fresh_channel {
  fc_state : k_states k !! ce_state e = None;
  fc_left : k_endpoints k !! ce_left e = None;
  fc_right : k_endpoints k !! ce_right e = None;
  fc_ends : ce_left e ≠ ce_right e;
}.

Lemma make_endpoint_same k o s side : same_queues k (make_endpoint k o s side).
Proof.
  unfold make_endpoint. transitivity (with_endpoints (<[o := (s, side)]> (k_endpoints k)) k); [by split_and!|].
  apply update_state_same. auto with channel.
Qed.

Lemma create_wf k v e :
  ipc_wf k → fresh_channel k e → 0 < o_max_messages v → 0 ≤ o_max_bytes v → 0 ≤ o_max_resources v →
  ipc_wf (create_raw_channel_with_options k v e).2.
Proof.
  intros Hwf [Hs _ _ _] Hm Hb Hr. unfold create_raw_channel_with_options.
  destruct (_ || _) eqn:Hlim; [done|]. rewrite !orb_false_iff, !Z.ltb_ge in Hlim. destruct Hlim as [[Hm' Hb'] Hr'].
  destruct (ce_state_ok e); [|done]. cbn [negb].
  destruct (ce_queue0_ok e), (ce_queue1_ok e), (ce_registered e); try done. cbn [negb cs_valid make_channel andb].
  destruct (make_channel_wf (o_max_messages v) (o_max_bytes v) (o_max_resources v) (k_heap k)) as [Hst Hnil]; [done..|].
  pose proof (add_state_wf k (ce_state e) _ Hwf Hs Hst Hnil) as Hk1. set (k1 := with_registry _ _) in *.
  set (k2 := if ce_left_ok e then _ else k1).
  assert (ipc_wf k2 ∧ same_queues k1 k2) as [Hk2 Hs2].
  { unfold k2. destruct (ce_left_ok e); [|done]. split; [by apply make_endpoint_wf|apply make_endpoint_same]. }
  set (k3 := if ce_right_ok e then _ else k2).
  assert (ipc_wf k3 ∧ same_queues k2 k3) as [Hk3 Hs3].
  { unfold k3. destruct (ce_right_ok e); [|done]. split; [by apply make_endpoint_wf|apply make_endpoint_same]. }
  destruct (negb (ce_left_ok e) || _); [|done].
  set (k4 := if ce_left_ok e then _ else k3).
  assert (ipc_wf k4 ∧ same_queues k3 k4) as [Hk4 Hs4].
  { unfold k4. destruct (ce_left_ok e); [|done]. split; [by apply destroy_endpoint_wf|apply destroy_endpoint_same]. }
  set (k5 := if ce_right_ok e then _ else k4).
  assert (ipc_wf k5 ∧ same_queues k4 k5) as [Hk5 Hs5].
  { unfold k5. destruct (ce_right_ok e); [|done]. split; [by apply destroy_endpoint_wf|apply destroy_endpoint_same]. }
  assert (same_queues k1 k5) as (_ & _ & _ & Hsame) by (by rewrite Hs2, Hs3, Hs4).
  specialize (Hsame (ce_state e)). unfold k1 in Hsame. simpl in Hsame. rewrite lookup_insert_eq in Hsame.
  apply fmap_Some in Hsame as (st5 & Hst5 & Hp5). simpl. by apply (forget_empty_wf k5 (ce_state e) st5).
Qed.

(** ** The calls *)

Section calls.
Context {M : Type} `{HandleMap M}.
Variable unique : object → bool.

Abbreviation table := (resource_table M).

Lemma refused_unchanged st g m rs r :
  refused st g m rs r → er_status r ≠ STATUS_OK ∧ er_state r = st ∧ er_globals r = g.
Proof.
  intros (status & Hin & ->). simpl. split; [|done]. intros ->.
  rewrite !elem_of_cons, elem_of_nil in Hin. by destruct Hin as [|[|[|[]]]].
Qed.

Lemma refused_status st g m rs r : refused st g m rs r → status_ok (er_status r) = false.
Proof. intros Hr. apply bool_decide_eq_false_2. by eapply refused_unchanged. Qed.

Lemma enqueue_rejects_status st sender m n status :
  enqueue_rejects st sender m n = Some status → status = INVALID_ARGUMENT ∨ status = INVALID_MESSAGE.
Proof. unfold enqueue_rejects. repeat case_match; intros; simplify_eq; auto. Qed.

(** What a send does to its channel. *)
Lemma enqueue_channel (st : channel_state) g h side p m rs (t : table) :
  channel_wf st h → within g → 0 ≤ side → 0 ≤ cm_byte_count m →
  let r := (enqueue st g side (Some (p, m)) rs t).1 in
  (er_status r ≠ STATUS_OK ∧ er_state r = st ∧ er_globals r = g) ∨
  (side ≤ 1 ∧ ∃ r0, sent st g side p m rs r0 ∧ er_status r = STATUS_OK ∧ er_state r = er_state r0 ∧
     er_globals r = er_globals r0 ∧ er_message r = er_message r0 ∧ er_events r = []).
Proof.
  intros Hwf Hg Hs Hb. unfold enqueue. cbn [fmap option_fmap option_map snd].
  destruct (enqueue_rejects st side (Some m) _) as [status|] eqn:Hrej.
  { left. simpl. split; [|done]. apply enqueue_rejects_status in Hrej as [->| ->]; done. }
  apply enqueue_rejects_none in Hrej.
  destruct (enqueue_locked_spec st g h side p m rs Hwf Hg Hs Hb Hrej) as [Href|Hsent].
  - pose proof (refused_status _ _ _ _ _ Href) as Hno. rewrite Hno. destruct Href as (status & Hin & Hr).
    rewrite Hr in *. simpl. destruct (restore_native_batch t rs) as [[[restored rs'] ev] t']. simpl. left.
    split; [|done]. simpl in Hno. destruct (status_ok restored) eqn:Hres.
    + intros ->. done.
    + intros ->. done.
  - pose proof Hsent as (fifo & _ & _ & _ & _ & _ & Hr). rewrite Hr at 1. cbn [er_status].
    change (status_ok STATUS_OK) with true. cbv iota. rewrite Hr. cbn [er_records].
    destruct (commit_native_batch t _) as [rs' t']. right. split; [apply Hrej|].
    exists (enqueue_locked st g side p m rs). rewrite Hr in *. done.
Qed.

Lemma enqueue_message_wf env k (t : table) s side p m rs :
  ipc_wf k → 0 ≤ side ≤ 1 → p ≠ null → k_heap k !! p = None → 0 ≤ cm_byte_count m →
  let '(status, rs', k', t') := enqueue_message env k t s side p m rs in ipc_wf k'.
Proof.
  intros Hwf Hs Hp Hh Hb. unfold enqueue_message.
  pose proof (enqueue_channel (state_at k s) (k_globals k) (k_heap k) side p m rs t) as Hspec.
  destruct (k_states k !! s) as [st|] eqn:Hst.
  - rewrite (state_at_present k s st Hst) in *. pose proof (iw_channels k Hwf s st Hst) as Hcw.
    specialize (Hspec Hcw (iw_within k Hwf) ltac:(lia) Hb).
    destruct (enqueue st (k_globals k) side (Some (p, m)) rs t) as [r t']. simpl in Hspec. apply collect_wf.
    destruct Hspec as [(Hno & -> & ->)|(_ & r0 & Hsent & -> & -> & -> & -> & ->)].
    + unfold status_ok. rewrite bool_decide_eq_false_2 by done. apply drop_resources_wf, run_hooks_wf.
      rewrite (put_state_present k s st) by done. rewrite insert_id by done. by destruct k.
    + change (status_ok STATUS_OK) with true. cbv iota. apply generation_wf. cbn [run_hooks foldl].
      pose proof (sent_ok (others k s) (k_globals k) st (k_heap k) side p m rs r0 Hcw
                    (others_accounts k s st Hwf Hst) Hs Hp Hh Hb Hsent) as Hok.
      rewrite (put_state_present k s st) by done. exact (ipc_update k s st _ _ _ Hwf Hst Hok).
  - assert (enqueue (state_at k s) (k_globals k) side (Some (p, m)) rs t
            = (Build_enqueued INVALID_ARGUMENT (state_at k s) (k_globals k) m rs [], t)) as ->.
    { unfold enqueue, enqueue_rejects. simpl. by rewrite state_at_absent. }
    apply collect_wf. cbn [er_status]. change (status_ok INVALID_ARGUMENT) with false. cbv iota.
    apply drop_resources_wf, run_hooks_wf. rewrite put_state_absent by done. by destruct k.
Qed.

Lemma activate_loop_length (t : table) handles rs :
  let '(status, rs', ev, n, t') := activate_loop t handles rs in length rs' = length rs.
Proof.
  revert t handles. induction rs as [|r rs IH]; intros t handles; simpl; [done|].
  destruct (activate_native t _ r) as [[[status r1] ev] t1]. destruct (negb _); [done|].
  specialize (IH t1 (tl handles)). destruct (activate_loop t1 _ rs) as [[[[status' rs'] ev'] n] t2]. simpl. by f_equal.
Qed.

(** The end of a receive, for a message of the channel. *)
Lemma deliver_message_wf env k (t : table) s side p handles flag :
  ipc_wf k → 0 ≤ side ≤ 1 → is_Some (k_heap k !! p) →
  let '(status, k', t') := deliver_message env k t s side p handles flag in ipc_wf k'.
Proof.
  intros Hwf Hs [m Hm]. unfold deliver_message.
  assert (message_at (k_heap k) p = m) as -> by (unfold message_at; by rewrite Hm).
  pose proof (activate_loop_length t handles (cm_resources m)) as Hlen.
  destruct (activate_loop t handles (cm_resources m)) as [[[[status rs] ev] n] t1].
  set (k1 := with_heap (<[p := with_resources rs m]> (k_heap k)) (run_hooks k ev)). assert (ipc_wf k1) as Hk1.
  { apply resize_wf; [by apply run_hooks_wf|]. destruct (run_hooks_same k ev) as (-> & _). intros p'.
    destruct (decide (p' = p)) as [->|Hne]; [|by rewrite sizes_insert_ne by done].
    unfold sizes. rewrite lookup_insert_eq, Hm. simpl. unfold resource_count. simpl. by rewrite Hlen. }
  assert (message_at (k_heap k1) p = with_resources rs m) as Hat.
  { unfold message_at, k1. simpl. by rewrite lookup_insert_eq. }
  destruct (negb (status_ok status)).
  { destruct (close_all t1 _) as [closed t2]. by apply cancel_message_wf; [apply run_hooks_wf|]. }
  pose proof (commit_receive_wf k1 s Hk1 side p (with_resources rs m) Hs) as Hc. rewrite Hat in Hc.
  specialize (Hc eq_refl eq_refl).
  destruct (commit_receive (state_at k1 s) (k_globals k1) side p _) as [[[] st] g] eqn:Hcommit; cbn [negb].
  - destruct Hc as [Hk2 Hu]. apply collect_wf, drop_message_wf; [by apply generation_wf|done].
  - destruct (close_all t1 handles) as [closed t2]. by apply cancel_message_wf; [apply run_hooks_wf|].
Qed.

Lemma raw_endpoint_side k (t : table) endpoint s side :
  ipc_wf k → raw_endpoint k t endpoint = inr (s, side) → 0 ≤ side ≤ 1.
Proof.
  intros Hwf. unfold raw_endpoint. destruct (lookup_native t endpoint) as [e|]; [|done].
  destruct (e_object e) as [o|]; [|done]. destruct (negb _); [done|].
  destruct (k_endpoints k !! _) as [[s' side']|] eqn:Ho; [|done]. intros [= <- <-]. by apply (iw_sides k Hwf o s').
Qed.

(** An address the allocator may return for a new message. *)
Definition fresh (k : ipc) (p : Z) : Prop := p ≠ null ∧ k_heap k !! p = None.

Lemma fresh_same k k' p : same_queues k k' → fresh k p → fresh k' p.
Proof. intros (Hh & _) [Hp Hf]. split; [done|by rewrite Hh]. Qed.

#[local] Hint Resolve update_state_wf inert_begin inert_end run_hooks_wf drop_resources_wf : channel.
#[local] Hint Resolve update_state_same run_hooks_same : channel.

Lemma send_raw_channel_wf k (t : table) endpoint address e env :
  ipc_wf k → fresh k (se_message e) → 0 ≤ sf_byte_count (se_frame e) →
  ipc_wf (send_raw_channel unique k t endpoint address e env).1.2.
Proof.
  intros Hwf Hp Hb. unfold send_raw_channel. destruct (raw_endpoint k t endpoint) as [|[s side]] eqn:He; [done|].
  pose proof (raw_endpoint_side k t endpoint s side Hwf He) as Hside.
  set (k1 := update_state s begin_operation k). assert (ipc_wf k1) as Hk1 by (unfold k1; auto with channel).
  assert (same_queues k k1) as Hs1 by (unfold k1; auto with channel).
  assert (ipc_wf (update_state s end_operation k1)) as Hend by auto with channel.
  destruct (negb (status_ok _)); [done|]. destruct (send_frame_check address _); [done|].
  destruct (negb (se_message_ok e) || _); [done|]. destruct (negb (status_ok _)); [done|].
  destruct (_ && _); [done|]. destruct (copy_dispositions _) as [|ds]; [done|].
  destruct (take_native_batch unique t _ endpoint _) as [[[taken rs] ev] t1].
  set (k2 := run_hooks k1 ev). assert (ipc_wf k2) as Hk2 by (unfold k2; auto with channel).
  destruct (negb (status_ok taken)); [simpl; auto with channel|].
  set (m := if sf_byte_count (se_frame e) =? 0 then _ else _).
  pose proof (enqueue_message_wf env k2 t1 s side (se_message e) m rs Hk2 Hside) as Hq.
  destruct (enqueue_message env k2 t1 s side (se_message e) m rs) as [[[status rs'] k3] t2].
  simpl. apply drop_resources_wf, update_state_wf; [|auto with channel].
  assert (fresh k2 (se_message e)) as [Hp1 Hp2].
  { eapply fresh_same; [|exact Hp]. transitivity k1; [done|]. unfold k2. auto with channel. }
  apply Hq; try done. unfold m. by destruct (_ =? 0).
Qed.

Lemma kernel_message_size bytes n ok ok' : cm_byte_count (kernel_message bytes n ok ok') = n.
Proof. unfold kernel_message. destruct bytes; [|done]. by destruct (n =? 0). Qed.

Lemma send_raw_channel_kernel_wf k (t : table) endpoint bytes n p ok1 ok2 ok3 env :
  ipc_wf k → fresh k p → 0 ≤ n →
  ipc_wf (send_raw_channel_kernel k t endpoint bytes n p ok1 ok2 ok3 env).1.2.
Proof.
  intros Hwf Hp Hn. unfold send_raw_channel_kernel.
  destruct (raw_endpoint k t endpoint) as [|[s side]] eqn:He; [done|].
  pose proof (raw_endpoint_side k t endpoint s side Hwf He) as Hside.
  set (k1 := update_state s begin_operation k). assert (ipc_wf k1) as Hk1 by (unfold k1; auto with channel).
  destruct (_ || _); [simpl; auto with channel|]. destruct (_ || _); [simpl; auto with channel|].
  pose proof (enqueue_message_wf env k1 t s side p (kernel_message bytes n ok2 ok3) [] Hk1 Hside) as Hq.
  destruct (enqueue_message env k1 t s side p _ []) as [[[status rs'] k3] t2]. simpl.
  apply update_state_wf; [|auto with channel].
  assert (fresh k1 p) as [Hp1 Hp2] by (eapply fresh_same; [|exact Hp]; unfold k1; auto with channel).
  apply Hq; try done. by rewrite kernel_message_size.
Qed.

Lemma send_raw_channel_object_wf k endpoint bytes n p ok1 ok2 ok3 env :
  ipc_wf k → fresh k p → 0 ≤ n →
  ipc_wf (send_raw_channel_object k endpoint bytes n p ok1 ok2 ok3 env).2.
Proof.
  intros Hwf Hp Hn. unfold send_raw_channel_object. destruct endpoint as [o|]; [|done].
  destruct (k_endpoints k !! _) as [[s side]|] eqn:Ho; [|done].
  pose proof (iw_sides k Hwf o s side Ho) as Hside.
  set (k1 := update_state s begin_operation k). assert (ipc_wf k1) as Hk1 by (unfold k1; auto with channel).
  destruct (_ || _); [simpl; auto with channel|]. destruct (_ || _); [simpl; auto with channel|].
  assert (fresh k1 p) as [Hp1 Hp2] by (eapply fresh_same; [|exact Hp]; unfold k1; auto with channel).
  set (m := kernel_message bytes n ok2 ok3). assert (0 ≤ cm_byte_count m) as Hm by (by unfold m; rewrite kernel_message_size).
  set (r := enqueue_kernel _ _ _ _ _ _). simpl. apply update_state_wf; [|auto with channel]. apply collect_wf.
  assert ((er_status r ≠ STATUS_OK ∧ er_state r = state_at k1 s ∧ er_globals r = k_globals k1) ∨
          (∃ st, k_states k1 !! s = Some st ∧ sent st (k_globals k1) side p m [] r)) as Hr.
  { unfold r, enqueue_kernel. cbn [fmap option_fmap option_map snd].
    destruct (enqueue_rejects _ side (Some m) _) as [status|] eqn:Hrej.
    { left. simpl. split; [|done]. apply enqueue_rejects_status in Hrej as [->| ->]; done. }
    destruct (k_states k1 !! s) as [st|] eqn:Hs.
    2: { unfold enqueue_rejects in Hrej. by rewrite state_at_absent in Hrej. }
    rewrite (state_at_present k1 s st Hs) in *. apply (enqueue_rejects_none st side m []) in Hrej.
    pose proof (iw_channels k1 Hk1 s st Hs) as Hst. pose proof (iw_within k1 Hk1) as Hg.
    destruct (enqueue_kernel_locked_eq st _ _ side p m [] 0 Hst Hg ltac:(lia) Hm Hrej) as [Href| ->].
    2: destruct (enqueue_locked_spec st _ _ side p m [] Hst Hg ltac:(lia) Hm Hrej) as [Href|Hsent].
    - left. by eapply refused_unchanged.
    - left. by eapply refused_unchanged.
    - right. by exists st. }
  destruct Hr as [(Hno & -> & ->)|(st & Hs & Hsent)].
  - unfold status_ok. rewrite bool_decide_eq_false_2 by done. apply drop_resources_wf, run_hooks_wf.
    destruct (k_states k1 !! s) as [st|] eqn:Hs.
    + rewrite (state_at_present k1 s st), (put_state_present k1 s st), insert_id by done. by destruct k1.
    + rewrite put_state_absent by done. by destruct k1.
  - pose proof (sent_ok (others k1 s) (k_globals k1) st (k_heap k1) side p m [] r (iw_channels k1 Hk1 s st Hs)
                  (others_accounts k1 s st Hk1 Hs) Hside Hp1 Hp2 Hm Hsent) as Hok.
    destruct Hsent as (fifo & _ & _ & _ & _ & _ & Hr). rewrite Hr in *. cbn [er_status er_events er_message] in *.
    change (status_ok STATUS_OK) with true. cbv iota. apply generation_wf. cbn [run_hooks foldl].
    rewrite (put_state_present k1 s st) by done. exact (ipc_update k1 s st _ _ _ Hk1 Hs Hok).
Qed.

(** What both receive calls have in hand once the claim succeeded. *)
Lemma claimed_wf k s side :
  ipc_wf k → 0 ≤ side ≤ 1 →
  let '(status, p, st') := claim_receive (state_at k s) side in
  ipc_wf (put_state s st' k) ∧ (status_ok status = true → is_Some (k_heap (put_state s st' k) !! p)).
Proof.
  intros Hwf Hside. pose proof (claim_receive_wf k s Hwf side Hside) as Hc.
  destruct (claim_receive (state_at k s) side) as [[status p] st'] . destruct Hc as [Hk Hok]. split; [done|].
  intros Hs%bool_decide_eq_true. destruct (Hok Hs) as (st & Hst & _ & _ & _ & (rest & Hr) & _).
  apply (all_ptrs_stored st (k_heap k)); [by apply (iw_channels k Hwf s)|].
  apply (elem_sides st (k_heap k) (iw_channels k Hwf s st Hst) side p Hside). left. rewrite Hr. by left.
Qed.

Lemma receive_raw_channel_wf k (t : table) endpoint address e env :
  ipc_wf k → ipc_wf (receive_raw_channel k t endpoint address e env).1.2.
Proof.
  intros Hwf. unfold receive_raw_channel. destruct (raw_endpoint k t endpoint) as [|[s side]] eqn:He; [done|].
  pose proof (raw_endpoint_side k t endpoint s side Hwf He) as Hside.
  set (k1 := update_state s begin_operation k). assert (ipc_wf k1) as Hk1 by (unfold k1; auto with channel).
  destruct (negb (status_ok _)); [simpl; auto with channel|].
  destruct (receive_frame_check _); [simpl; auto with channel|].
  pose proof (claimed_wf k1 s side Hk1 Hside) as Hc.
  destruct (claim_receive (state_at k1 s) side) as [[claimed p] st]. destruct Hc as [Hk2 Hp].
  set (k2 := put_state s st k1) in *.
  destruct (status_ok claimed); cbn [negb]; [|simpl; auto with channel]. specialize (Hp eq_refl).
  assert (ipc_wf (update_state s end_operation (cancel_message k2 s side p))) as Hcan
    by (apply update_state_wf; [by apply cancel_message_wf|auto with channel]).
  destruct (_ || _); [done|]. destruct (output_check address _ _); [done|].
  destruct (reserve_native t _ _) as [[granted handles] t1]. destruct (negb (status_ok granted)); [done|].
  destruct (negb (status_ok (if status_ok (re_bytes_status e) && _ then _ else _))); [done|].
  destruct (negb (status_ok _)); [done|].
  pose proof (deliver_message_wf env k2 t1 s side p handles false Hk2 Hside Hp) as Hd.
  destruct (deliver_message env k2 t1 s side p handles false) as [[status k3] t2]. simpl. auto with channel.
Qed.

Lemma receive_raw_channel_kernel_wf k (t : table) endpoint buffer capacity ok env :
  ipc_wf k → ipc_wf (receive_raw_channel_kernel k t endpoint buffer capacity ok env).1.2.
Proof.
  intros Hwf. unfold receive_raw_channel_kernel. destruct (raw_endpoint k t endpoint) as [|[s side]] eqn:He; [done|].
  pose proof (raw_endpoint_side k t endpoint s side Hwf He) as Hside.
  set (k1 := update_state s begin_operation k). assert (ipc_wf k1) as Hk1 by (unfold k1; auto with channel).
  pose proof (claimed_wf k1 s side Hk1 Hside) as Hc.
  destruct (claim_receive (state_at k1 s) side) as [[claimed p] st]. destruct Hc as [Hk2 Hp].
  set (k2 := put_state s st k1) in *.
  destruct (status_ok claimed); cbn [negb]; [|simpl; auto with channel]. specialize (Hp eq_refl).
  assert (ipc_wf (update_state s end_operation (cancel_message k2 s side p))) as Hcan
    by (apply update_state_wf; [by apply cancel_message_wf|auto with channel]).
  destruct (_ || _ || _); [done|]. destruct (reserve_native t _ _) as [[granted handles] t1].
  destruct (negb (status_ok granted)); [done|].
  pose proof (deliver_message_wf env k2 t1 s side p handles true Hk2 Hside Hp) as Hd.
  destruct (deliver_message env k2 t1 s side p handles true) as [[status k3] t2]. simpl. auto with channel.
Qed.

Lemma discard_raw_channel_wf k (t : table) endpoint env :
  ipc_wf k → ipc_wf (discard_raw_channel k t endpoint env).2.
Proof.
  intros Hwf. unfold discard_raw_channel. destruct (raw_endpoint k t endpoint) as [|[s side]] eqn:He; [done|].
  pose proof (raw_endpoint_side k t endpoint s side Hwf He) as Hside.
  set (k1 := update_state s begin_operation k). assert (ipc_wf k1) as Hk1 by (unfold k1; auto with channel).
  pose proof (discard_wf k1 s Hk1 side Hside) as Hd.
  destruct (discard (state_at k1 s) (k_globals k1) (k_heap k1) side) as [[[discarded p] st] g].
  destruct Hd as [Hk2 Hu]. set (k2 := update_state s end_operation _).
  assert (ipc_wf k2) as Hk3 by (unfold k2; auto with channel).
  destruct discarded; cbn [negb]; simpl; [|by apply collect_wf]. apply collect_wf, drop_message_wf; [by apply generation_wf|].
  eapply (same_unqueued _ k2); [apply update_state_same; auto with channel|by apply Hu].
Qed.
End calls.

(** ** Every sequence of calls *)

(** One call of the subsystem, with whatever the environment contributes.
    New addresses are fresh, sizes are unsigned. *)
Inductive ipc_call {M} `{HandleMap M} (unique : object → bool) (k : ipc) : ipc → Prop :=
| call_create options e :
    fresh_channel k e →
    (∀ status v, options = Some (status, v) → 0 ≤ o_max_messages v ∧ 0 ≤ o_max_bytes v ∧ 0 ≤ o_max_resources v) →
    ipc_call unique k (create_raw_channel k options e).2
| call_create_kernel options e :
    fresh_channel k e →
    (∀ v, options = Some v → 0 ≤ o_max_messages v ∧ 0 ≤ o_max_bytes v ∧ 0 ≤ o_max_resources v) →
    ipc_call unique k (create_raw_channel_kernel k options e).2
| call_send (t : resource_table M) endpoint address e env :
    fresh k (se_message e) → 0 ≤ sf_byte_count (se_frame e) →
    ipc_call unique k (send_raw_channel unique k t endpoint address e env).1.2
| call_send_kernel (t : resource_table M) endpoint bytes n p ok1 ok2 ok3 env :
    fresh k p → 0 ≤ n →
    ipc_call unique k (send_raw_channel_kernel k t endpoint bytes n p ok1 ok2 ok3 env).1.2
| call_send_object endpoint bytes n p ok1 ok2 ok3 env :
    fresh k p → 0 ≤ n →
    ipc_call unique k (send_raw_channel_object k endpoint bytes n p ok1 ok2 ok3 env).2
| call_receive (t : resource_table M) endpoint address e env :
    ipc_call unique k (receive_raw_channel k t endpoint address e env).1.2
| call_receive_kernel (t : resource_table M) endpoint buffer capacity ok env :
    ipc_call unique k (receive_raw_channel_kernel k t endpoint buffer capacity ok env).1.2
| call_discard (t : resource_table M) endpoint env :
    ipc_call unique k (discard_raw_channel k t endpoint env).2
| call_collect env : ipc_call unique k (collect_orphaned_channels env k)
| call_hooks log : ipc_call unique k (run_hooks k log)
| call_drop_endpoint o : ipc_call unique k (destroy_endpoint k o)
| call_owner_acquired s side : ipc_call unique k (update_state s (λ st, kernel_owner_acquired st side) k)
| call_owner_released s side : ipc_call unique k (update_state s (λ st, kernel_owner_released st side) k).

Inductive ipc_calls {M} `{HandleMap M} (unique : object → bool) : ipc → ipc → Prop :=
| calls_nil k : ipc_calls unique k k
| calls_cons k k' k'' : ipc_calls unique k k' → ipc_call unique k' k'' → ipc_calls unique k k''.

Lemma fill_defaults_positive v :
  0 ≤ o_max_messages v → 0 ≤ o_max_bytes v → 0 ≤ o_max_resources v →
  0 < o_max_messages (fill_defaults v) ∧ 0 ≤ o_max_bytes (fill_defaults v) ∧ 0 ≤ o_max_resources (fill_defaults v).
Proof.
  intros Hm Hb Hr. unfold fill_defaults. simpl.
  destruct (Z.eqb_spec (o_max_messages v) 0), (o_max_bytes v =? 0), (o_max_resources v =? 0);
    unfold CHANNEL_DEFAULT_MAX_MESSAGES, CHANNEL_DEFAULT_MAX_BYTES, CHANNEL_DEFAULT_MAX_RESOURCES; lia.
Qed.

Lemma ipc_call_wf {M} `{HandleMap M} unique k k' : ipc_wf k → ipc_call unique k k' → ipc_wf k'.
Proof.
  intros Hwf Hcall. destruct Hcall as [options e Hf Ho|options e Hf Ho|t endpoint address e env Hf Hb|
    t endpoint bytes n p ok1 ok2 ok3 env Hf Hn|endpoint bytes n p ok1 ok2 ok3 env Hf Hn|
    t endpoint address e env|t endpoint buffer capacity ok env|t endpoint env|env|log|o|s side|s side].
  - unfold create_raw_channel. destruct options as [[status v]|]; [|by apply create_wf].
    destruct (negb _); [done|]. destruct (negb _); [done|]. destruct (Ho status v eq_refl) as (H1 & H2 & H3).
    destruct (fill_defaults_positive v H1 H2 H3) as (? & ? & ?). by apply create_wf.
  - unfold create_raw_channel_kernel. destruct options as [v|]; [|by apply create_wf].
    destruct (negb _); [done|]. destruct (Ho v eq_refl) as (H1 & H2 & H3).
    destruct (fill_defaults_positive v H1 H2 H3) as (? & ? & ?). by apply create_wf.
  - by apply send_raw_channel_wf.
  - by apply send_raw_channel_kernel_wf.
  - by apply send_raw_channel_object_wf.
  - by apply receive_raw_channel_wf.
  - by apply receive_raw_channel_kernel_wf.
  - by apply discard_raw_channel_wf.
  - by apply collect_wf.
  - by apply run_hooks_wf.
  - by apply destroy_endpoint_wf.
  - apply update_state_wf; [done|]. intros st. unfold kernel_owner_acquired.
    destruct (_ <=? _); [|done]. simpl. by rewrite length_zset.
  - apply update_state_wf; [done|]. intros st. unfold kernel_owner_released.
    destruct (_ <=? _); [|done]. simpl. by rewrite length_zset.
Qed.

Lemma initial_ipc_wf : ipc_wf initial_ipc.
Proof.
  split; simpl; try done.
  - by apply NoDup_nil_2.
  - intros s Hin. by apply elem_of_nil in Hin.
Qed.

Lemma ipc_calls_wf {M} `{HandleMap M} unique k : ipc_calls unique initial_ipc k → ipc_wf k.
Proof.
  generalize initial_ipc_wf. generalize initial_ipc. intros k0 Hk0 Hc.
  induction Hc as [|k0 k1 k2 _ IH Hcall]; [done|]. eapply ipc_call_wf; [by apply IH|done].
Qed.

(** C1: After any sequence of calls on any channels, whatever fails or is
    refused on the way, the three global counters are exactly the sums over
    the channels and within their limits; every queue's byte and resource
    counters are the sums over the messages it holds and within the channel's
    limits; every queued message exists and is queued in one place only; and
    the number of active claims is the number of claimed queues. *)
Theorem channel_budgets_hold {M} `{HandleMap M} unique k :
  ipc_calls unique initial_ipc k →
  global_messages (k_globals k) = total queued_count (k_states k) ∧
  global_messages (k_globals k) ≤ CHANNEL_GLOBAL_MAX_MESSAGES ∧
  global_bytes (k_globals k) = total queued_bytes (k_states k) ∧
  global_bytes (k_globals k) ≤ CHANNEL_GLOBAL_MAX_BYTES ∧
  global_resources (k_globals k) = total queued_resources (k_states k) ∧
  global_resources (k_globals k) ≤ CHANNEL_GLOBAL_MAX_RESOURCES ∧
  (∀ s st, k_states k !! s = Some st →
     active_claims st = claims st ∧ NoDup (all_ptrs st) ∧
     ∀ side, 0 ≤ side ≤ 1 → let q := queue_of st side in
       Z.of_nat (length (ptrs q)) ≤ max_messages st ∧
       q_bytes q = load_bytes (k_heap k) (ptrs q) ∧ q_bytes q ≤ max_bytes st ∧
       q_resources q = load_resources (k_heap k) (ptrs q) ∧ q_resources q ≤ max_resources st ∧
       Forall (λ p, is_Some (k_heap k !! p)) (ptrs q)).
Proof.
  intros Hwf%ipc_calls_wf.
  pose proof (iw_globals k Hwf) as Hg. pose proof (iw_within k Hwf) as (Hw1 & Hw2 & Hw3).
  split_and!; try (by rewrite Hg); try lia. intros s st Hs.
  pose proof (iw_channels k Hwf s st Hs) as Hst. split_and!; [apply Hst|apply Hst|].
  intros side Hside q. pose proof (cw_queues st _ Hst side Hside) as [Hfifo Hcap Hb Hbm Hr Hrm Hstd].
  fold q in Hfifo, Hcap, Hb, Hbm, Hr, Hrm, Hstd.
  pose proof (queue_items_length null _ Hfifo) as Hl. pose proof (qwf_count _ Hfifo) as Hc.
  split_and!; try done; [unfold ptrs; lia|]. eapply Forall_impl; [exact Hstd|]. intros p (_ & m & Hm & _). by exists m.
Qed.

(** ** A concrete run *)

Definition channel_unique (o : object) : bool := (o =? 100) || (o =? 101).
Definition channel_create_env : create_env := Build_create_env 10 100 101 true true true true true true.
Definition channel_gc : gc_env := Build_gc_env true (λ _, true) (λ _, true).
Definition raw_meta : metadata :=
  Build_metadata BINDING_RAW_CHANNEL_END [] 0 0 0 (Z.lor RIGHT_TRANSFER RIGHT_WAIT) 0.

(** Handles 1 and 2 are the two ends of the channel, handle 3 another object. *)
Definition channel_table : resource_table (gmap Z entry) :=
  (install_native (install_native (install_native (make_resource_table 1) (Some 100) raw_meta).2
     (Some 101) raw_meta).2 (Some 7) default_metadata).2.
Definition channel_k1 : ipc := (create_raw_channel initial_ipc None channel_create_env).2.
Definition channel_k2 : ipc := run_hooks channel_k1 [Acquire 100 table_root; Acquire 101 table_root].
Definition channel_send_env : send_env :=
  Build_send_env STATUS_OK (Build_send_frame 56 0 4096 3 8192 1 0 0) 500 true true true STATUS_OK [1; 2; 3] true
    [(STATUS_OK, Build_disposition 3 RESOURCE_MOVE 0 0 0)] true.
Definition channel_k3 : ipc := (send_raw_channel channel_unique channel_k2 channel_table 1 16384 channel_send_env channel_gc).1.2.

Lemma channel_k2_reachable : ipc_calls (M := gmap Z entry) channel_unique initial_ipc channel_k2.
Proof.
  apply (calls_cons _ _ channel_k1); [apply (calls_cons _ _ initial_ipc); [apply calls_nil|]|apply call_hooks].
  apply call_create; [split; [reflexivity|reflexivity|reflexivity|discriminate]|intros ? ? Hn; discriminate Hn].
Qed.

Lemma channel_k3_reachable : ipc_calls (M := gmap Z entry) channel_unique initial_ipc channel_k3.
Proof.
  apply (calls_cons _ _ channel_k2); [exact channel_k2_reachable|].
  apply call_send; [split; [discriminate|vm_compute; reflexivity]|vm_compute; discriminate].
Qed.

Lemma channel_budgets_hold_witness :
  global_messages (k_globals channel_k3) = 1 ∧ total queued_bytes (k_states channel_k3) = 3 ∧
  global_bytes (k_globals channel_k3) = total queued_bytes (k_states channel_k3) ∧
  global_resources (k_globals channel_k3) ≤ CHANNEL_GLOBAL_MAX_RESOURCES.
Proof.
  pose proof (channel_budgets_hold channel_unique channel_k3 channel_k3_reachable) as (_ & _ & Hb & _ & _ & Hr & _).
  split_and!; [vm_compute; reflexivity|vm_compute; reflexivity|exact Hb|exact Hr].
Defined.
