(* ===== verification/ChannelTransfer.v ===== *)
(** Capabilities through a raw channel: a send either queues the message with
    its resources and commits the batch or restores the sender's table; a
    receive either installs every resource under the reserved handles and
    removes the message or leaves table and queue as they were.  The last
    part records what happens when a channel's own limits reject a message
    after the batch was taken. *)
From stdpp Require Import base list numbers gmap.
From S2P Require Import Prelude Abi Usercopy BoundedQueue Capability ResourceTable ResourceFacts ResourceMachine.
From S2P Require Import Channel ChannelFacts ChannelSystem ChannelMachine.

Local Open Scope Z_scope.
Set Default Proof Using "Type".

(** ** Reserved handles *)

Section reserve.
Context {M : Type} `{HandleMapLaws M}.
Abbreviation table := (resource_table M).

Definition reserved_entry (h : Z) : entry := Build_entry None h reserved default_metadata.

(** [m] is [m0] with the handles [hs] reserved. *)
Definition reserving (m0 : gmap Z entry) (hs : list Z) (m : gmap Z entry) : Prop :=
  (∀ h, h ∈ hs → m0 !! h = None) ∧
  ∀ h, m !! h = if decide (h ∈ hs) then Some (reserved_entry h) else m0 !! h.

Lemma reserving_nil m : reserving m [] m.
Proof. split; [intros h Hh; by apply elem_of_nil in Hh|]. intros h. by rewrite decide_False by apply not_elem_of_nil. Qed.

Lemma reserving_snoc m0 hs m h :
  reserving m0 hs m → m !! h = None → reserving m0 (hs ++ [h]) (<[h := reserved_entry h]> m).
Proof.
  intros [Hf Hm] Hh. assert (m0 !! h = None) as Hh0.
  { specialize (Hm h). rewrite Hh in Hm. by destruct (decide (h ∈ hs)). }
  split.
  - intros h' [?| ->%list_elem_of_singleton]%elem_of_app; auto.
  - intros h'. destruct (decide (h' = h)) as [->|Hne].
    + rewrite lookup_insert_eq, decide_True; [done|]. rewrite elem_of_app. right. by left.
    + rewrite lookup_insert_ne, Hm by done. apply decide_ext. rewrite elem_of_app, list_elem_of_singleton. tauto.
Qed.

Lemma remove_all_model hs (t : table) h :
  model (remove_all t hs) !! h = if decide (h ∈ hs) then None else model t !! h.
Proof.
  revert t. induction hs as [|h0 hs IH]; intros t; [by rewrite decide_False by apply not_elem_of_nil|].
  change (remove_all t (h0 :: hs)) with (remove_all (remove_entry h0 t) hs). rewrite IH.
  assert (model (remove_entry h0 t) = delete h0 (model t)) as -> by apply hm_model_remove.
  destruct (decide (h ∈ hs)) as [Hin|Hnin]; [by rewrite decide_True by (by right)|].
  destruct (decide (h = h0)) as [->|Hne].
  - by rewrite lookup_delete_eq, decide_True by left.
  - rewrite lookup_delete_ne, decide_False by (try done; by intros [?|?]%elem_of_cons). done.
Qed.

Lemma reserving_removed m0 hs m m' :
  reserving m0 hs m → (∀ h, m' !! h = if decide (h ∈ hs) then None else m !! h) → m' = m0.
Proof.
  intros [Hf Hm] Hm'. apply map_eq. intros h. rewrite Hm'. specialize (Hf h). specialize (Hm h).
  destruct (decide (h ∈ hs)); [symmetry; by apply Hf|done].
Qed.

Lemma reserve_loop_model nodes n m0 (t : table) handles :
  table_wf t nodes → reserving m0 handles (model t) →
  let '(status, hs, t') := reserve_loop n handles t in
  if decide (status = STATUS_OK) then reserving m0 hs (model t') else model t' = m0.
Proof.
  revert t handles. induction n as [|n IH]; intros t handles Hwf Hr; cbn [reserve_loop]; [done|].
  destruct (allocate_spec t nodes Hwf) as [->|(Hn & Hc & Hk & ->)].
  - cbn [Z.eqb HANDLE_INVALID]. rewrite decide_False by done. fold (remove_all t handles).
    apply (reserving_removed m0 handles (model t)); [done|]. apply remove_all_model.
  - unfold HANDLE_INVALID. rewrite (proj2 (Z.eqb_neq _ _)) by lia.
    change (count_up _) with (added t (reserved_entry (next_native_handle t))).
    destruct (added_wf t nodes (reserved_entry (next_native_handle t))) as [Hwf' Hm]; [done..|].
    apply IH; [done|]. rewrite Hm. by apply reserving_snoc.
Qed.

Lemma reserve_native_model nodes (t : table) count alloc :
  table_wf t nodes →
  let '(status, hs, t') := reserve_native t count alloc in
  if decide (status = STATUS_OK) then reserving (model t) hs (model t') else model t' = model t.
Proof.
  intros Hwf. unfold reserve_native. destruct (_ <? _); [done|]. destruct (_ && _); [done|].
  apply (reserve_loop_model nodes); [done|apply reserving_nil].
Qed.

(** Rolling back gives the table before the reservation. *)
Lemma rollback_native_model nodes hs m0 (t : table) :
  table_wf t nodes → NoDup hs → reserving m0 hs (model t) → model (rollback_native t hs) = m0.
Proof.
  unfold rollback_native. revert t. induction hs as [|h hs IH]; intros t Hwf Hnd [Hf Hm].
  { apply map_eq. intros h. simpl. by rewrite Hm, decide_False by apply not_elem_of_nil. }
  apply NoDup_cons in Hnd as [Hnin Hnd]. simpl.
  assert (model t !! h = Some (reserved_entry h)) as Hh by (rewrite Hm, decide_True by left; done).
  assert (rollback_one t h = count_down (remove_entry h t)) as Hrb.
  { unfold rollback_one. rewrite get_entry_model, Hh. by rewrite bool_decide_eq_true_2. }
  destruct (removed_wf t nodes h _ Hwf Hh) as [Hwf' Hm']. rewrite Hrb. apply IH; [done..|]. rewrite Hm'. split.
  - intros h' Hin. apply Hf. by right.
  - intros h'. destruct (decide (h' = h)) as [->|Hne].
    + rewrite lookup_delete_eq, decide_False by done. symmetry. apply Hf. left.
    + rewrite lookup_delete_ne, Hm by done. apply decide_ext. rewrite elem_of_cons. split; [by intros [?|?]|by right].
Qed.

(** ** Activation *)

(** What a message installs. *)
Definition installed (hs : list Z) (rs : list transferred_resource) : list (Z * entry) :=
  zip_with (λ h r, (h, Build_entry (t_object r) h active (t_meta r))) hs rs.

Lemma installed_keys hs rs : length hs = length rs → (installed hs rs).*1 = hs.
Proof.
  unfold installed. revert rs. induction hs as [|h hs IH]; intros [|r rs] Hl; try done. simpl in *. f_equal. apply IH. lia.
Qed.

Lemma activate_reserved nodes (t : table) h r obj :
  table_wf t nodes → model t !! h = Some (reserved_entry h) → t_object r = Some obj →
  let '(status, r', ev, t') := activate_native t h r in
  status = STATUS_OK ∧ table_wf t' nodes ∧
  model t' = <[h := Build_entry (t_object r) h active (t_meta r)]> (model t).
Proof.
  intros Hwf Hh Ho. pose proof (activate_native_ok nodes t h r Hwf) as Hok.
  destruct (tw_entries t nodes Hwf h _ Hh) as ([Hpos _] & _ & _).
  unfold activate_native, resource_valid in *. rewrite (proj2 (Z.eqb_neq h HANDLE_INVALID)) in * by (unfold HANDLE_INVALID; lia).
  rewrite Ho, get_entry_model, Hh in *. cbn [orb negb] in *.
  unfold take_object_without_callback in *. rewrite Ho in *. simpl in *.
  destruct Hok as [Hok _]. split_and!; [done|apply Hok|].
  by destruct (set_wf t nodes h _ (Build_entry (Some obj) h active (t_meta r)) Hwf Hh) as [_ ->].
Qed.

Lemma activate_loop_spec nodes hs rs (t : table) :
  table_wf t nodes → NoDup hs → length hs = length rs →
  (∀ h, h ∈ hs → model t !! h = Some (reserved_entry h)) → Forall (λ r, is_Some (t_object r)) rs →
  let '(status, rs', ev, n, t') := activate_loop t hs rs in
  status = STATUS_OK ∧ table_wf t' nodes ∧ model t' = list_to_map (installed hs rs) ∪ model t.
Proof.
  revert hs t. induction rs as [|r rs IH]; intros [|h hs] t Hwf Hnd Hl Hh Hrs; try done.
  { simpl. unfold installed. simpl. by rewrite (left_id_L ∅ (∪)). }
  apply NoDup_cons in Hnd as [Hnin Hnd]. apply Forall_cons in Hrs as [[obj Ho] Hrs]. simpl.
  pose proof (activate_reserved nodes t h r obj Hwf (Hh h ltac:(left)) Ho) as Ha.
  destruct (activate_native t h r) as [[[status r'] ev] t1]. destruct Ha as (-> & Hwf1 & Hm1).
  change (negb (status_ok STATUS_OK)) with false. cbv iota.
  specialize (IH hs t1 Hwf1 Hnd ltac:(simpl in Hl; lia)).
  destruct (activate_loop t1 hs rs) as [[[[status' rs'] ev'] n] t2].
  destruct IH as (-> & Hwf2 & Hm2); [|done|].
  - intros h' Hin. rewrite Hm1, lookup_insert_ne; [apply Hh; by right|]. by intros <-.
  - split_and!; [done|done|]. rewrite Hm2, Hm1. unfold installed. simpl.
    fold (installed hs rs). rewrite <- insert_union_r, insert_union_l; [done|].
    apply not_elem_of_list_to_map_1. by rewrite installed_keys by (simpl in Hl; lia).
Qed.

(** The reserved entries are all replaced. *)
Lemma installed_model hs rs m0 m :
  length hs = length rs → reserving m0 hs m → list_to_map (installed hs rs) ∪ m = list_to_map (installed hs rs) ∪ m0.
Proof.
  intros Hl [_ Hm]. apply map_eq. intros h.
  destruct ((list_to_map (installed hs rs) : gmap Z entry) !! h) as [e|] eqn:He.
  { by rewrite !(lookup_union_Some_l _ _ _ e). }
  rewrite !lookup_union_r by done. rewrite Hm, decide_False; [done|].
  apply not_elem_of_list_to_map in He. by rewrite installed_keys in He.
Qed.
End reserve.

(** ** Failed receives *)

(** The same system up to the generation of the waiters. *)
Record same_ipc (k k' : ipc) : Prop := Build_same_ipc {
  si_states : k_states k' = k_states k;
  si_heap : k_heap k' = k_heap k;
  si_globals : k_globals k' = k_globals k;
  si_registry : k_registry k' = k_registry k;
  si_endpoints : k_endpoints k' = k_endpoints k;
}.

#[global] Instance same_ipc_equiv : Equivalence same_ipc.
Proof.
  split; [by intros k|by intros k k' []|]. intros k1 k2 k3 [] []. split; congruence.
Qed.

#[global] Instance update_state_proper s f : Proper (same_ipc ==> same_ipc) (update_state s f).
Proof. intros k k' [Hs ? ? ? ?]. split; try done. unfold update_state. simpl. by rewrite Hs. Qed.

Definition operations_ok (k : ipc) : Prop :=
  ∀ s st, k_states k !! s = Some st → 0 ≤ active_operations st < 2 ^ 64.

Lemma u64_up_down n : 0 ≤ n < 2 ^ 64 → u64 (u64 (n + 1) - 1) = n.
Proof. intros Hn. unfold u64. rewrite Zminus_mod_idemp_l. rewrite Z.add_simpl_r. by apply Z.mod_small. Qed.

Lemma end_begin k s : operations_ok k → same_ipc k (update_state s end_operation (update_state s begin_operation k)).
Proof.
  intros Hk. split; try done. unfold update_state. simpl. rewrite alter_alter_eq. apply alter_id.
  intros st Hst. unfold compose, end_operation, begin_operation, set_operations. simpl.
  rewrite u64_up_down by by apply (Hk s). by destruct st.
Qed.

Lemma put_state_same k s st : state_at k s = st → same_ipc k (put_state s st k).
Proof.
  intros Hst. split; try done. unfold put_state, update_state. simpl. apply alter_id. intros st' Hs.
  by rewrite (state_at_present k s st' Hs) in Hst.
Qed.

Lemma put_state_put_state k s st st' : put_state s st' (put_state s st k) = put_state s st' k.
Proof. unfold put_state, update_state, with_states. simpl. by rewrite alter_alter_eq. Qed.

Lemma queue_of_claims n st side : queue_of (set_claims n st) side = queue_of st side.
Proof. done. Qed.

Lemma cancel_of_claim (q fifo : bounded_queue Z) : claim_front q = (true, fifo) → cancel_claim fifo = q.
Proof.
  destruct q as [storage capacity head count claimed]. unfold claim_front. simpl.
  destruct claimed; [by rewrite orb_true_r|]. by destruct (count =? 0); intros [= <-].
Qed.

(** A cancelled claim leaves no trace. *)
Lemma claim_then_cancel k s side :
  ipc_wf k → 0 ≤ side ≤ 1 →
  let '(status, p, st') := claim_receive (state_at k s) side in
  if decide (status = STATUS_OK) then same_ipc k (cancel_message (put_state s st' k) s side p)
  else same_ipc k (put_state s st' k).
Proof.
  intros Hwf Hside. pose proof (claim_receive_wf k s Hwf side Hside) as Hc. unfold claim_receive in *.
  destruct (negb (cs_valid (state_at k s)) || (1 <? side)) eqn:Hv; [by apply put_state_same|].
  destruct (queue_empty _) eqn:He; [by case_match; apply put_state_same|].
  destruct (claim_front _) as [[] fifo] eqn:Hcl; [|by apply put_state_same]. cbn [negb] in *.
  rewrite decide_True by done.
  destruct Hc as [_ (st & Hst & Hput & Hic & Hfr & (rest & Hr) & _)]; [done|].
  rewrite (state_at_present k s st Hst) in *. pose proof (iw_channels k Hwf s st Hst) as Hwst.
  assert (queue_front null fifo ≠ null) as Hnn.
  { pose proof (qo_stored _ _ _ _ _ (cw_queues st _ Hwst side Hside)) as Hs. rewrite Hr in Hs.
    by apply Forall_cons in Hs as [(? & _) _]. }
  unfold cancel_message. rewrite (state_at_present _ _ _ Hput). unfold cancel_receive.
  rewrite Hic, Hfr, Z.eqb_refl, (proj2 (Z.eqb_neq _ _) Hnn). cbn [cs_valid set_claims set_queue].
  rewrite Hv. cbn [negb orb]. rewrite put_state_put_state.
  transitivity (put_state s st k); [by apply put_state_same, state_at_present|].
  match goal with |- same_ipc _ (notify_channel_waiters (put_state s ?x k)) => assert (x = st) as -> end; [|done].
  rewrite queue_of_claims, (queue_set_eq st side) by (done || apply Hwst). cbn [q_fifo q_bytes q_resources].
  rewrite (cancel_of_claim _ _ Hcl).
  pose proof (claims_range k s Hwf st Hst). cbn [active_claims set_claims]. rewrite u64_up_down by lia.
  change (set_claims (active_claims st) (set_queue side
    (Build_queue (q_fifo (queue_of st side)) (q_bytes (queue_of st side)) (q_resources (queue_of st side)))
    (set_queue side (Build_queue fifo (q_bytes (queue_of st side)) (q_resources (queue_of st side))) st)) = st).
  rewrite set_queue_twice. destruct (queue_of st side) eqn:Hq. simpl. rewrite <- Hq, set_queue_id by (done || apply Hwst).
  apply set_claims_id.
Qed.

(** ** Deliveries *)

(** The message [p] is the claimed head of a queue. *)
Definition claimed_at (k : ipc) (s side p : Z) : Prop :=
  ∃ st, k_states k !! s = Some st ∧ cs_valid st = true ∧ is_claimed (q_fifo (queue_of st side)) = true ∧
    queue_front null (q_fifo (queue_of st side)) = p.

Lemma run_hook_claimed k e s side p : claimed_at k s side p → claimed_at (run_hook k e) s side p.
Proof.
  intros (st & Hst & Hv & Hc & Hf). unfold run_hook.
  destruct (k_endpoints k !! event_object e) as [[s' side']|]; [|by exists st].
  destruct (decide (s' = s)) as [->|Hne].
  - exists (endpoint_hook side' st e). unfold update_state. cbn [k_states with_states].
    rewrite lookup_alter_eq, Hst. rewrite (inert_queue (λ st, endpoint_hook side' st e)) by apply inert_hook.
    split_and!; try done. rewrite <- Hv. destruct e; simpl; unfold capability_acquired, capability_released;
      repeat case_match; done.
  - exists st. unfold update_state. cbn [k_states with_states]. by rewrite lookup_alter_ne.
Qed.

Lemma run_hooks_claimed k log s side p : claimed_at k s side p → claimed_at (run_hooks k log) s side p.
Proof. unfold run_hooks. revert k. induction log as [|e log IH]; intros k Hk; [done|]. by apply IH, run_hook_claimed. Qed.

Lemma commit_claimed k s side p m :
  claimed_at k s side p → 0 ≤ side ≤ 1 → p ≠ null →
  (commit_receive (state_at k s) (k_globals k) side p m).1.1 = true.
Proof.
  intros (st & Hst & Hv & Hc & Hf) Hs Hp. rewrite (state_at_present k s st Hst). unfold commit_receive.
  rewrite Hv, Hc, Hf, Z.eqb_refl, (proj2 (Z.eqb_neq _ _) Hp), (proj2 (Z.ltb_ge 1 side)) by lia. done.
Qed.

Lemma claim_claimed k s side :
  ipc_wf k → 0 ≤ side ≤ 1 →
  let '(status, p, st') := claim_receive (state_at k s) side in
  status = STATUS_OK → claimed_at (put_state s st' k) s side p ∧ p ≠ null ∧
    ∃ st rest m, k_states k !! s = Some st ∧ ptrs (queue_of st side) = p :: rest ∧ k_heap k !! p = Some m.
Proof.
  intros Hwf Hside. pose proof (claim_receive_wf k s Hwf side Hside) as Hc.
  assert (∀ status p st', claim_receive (state_at k s) side = (status, p, st') → status = STATUS_OK → cs_valid st' = true) as Hv.
  { intros status p st'. unfold claim_receive. destruct (cs_valid (state_at k s)) eqn:Hv; cbn [negb orb]; [|by intros [= <- _ _]].
    destruct (1 <? side); [by intros [= <- _ _]|]. repeat case_match; intros; by simplify_eq. }
  destruct (claim_receive (state_at k s) side) as [[status p] st'] eqn:Hcl. intros Hok.
  destruct Hc as [_ Hc]. destruct (Hc Hok) as (st & Hst & Hput & Hic & Hf & (rest & Hr) & _).
  pose proof (qo_stored _ _ _ _ _ (cw_queues st _ (iw_channels k Hwf s st Hst) side Hside)) as Hs. rewrite Hr in Hs.
  apply Forall_cons in Hs as [(Hnn & m & Hm & _) _].
  split_and!; [|done|by exists st, rest, m]. exists st'. split_and!; try done. by apply (Hv status p st').
Qed.

(** The collection only deletes messages. *)
Lemma drop_message_heap env k p p' : k_heap k !! p' = None → k_heap (drop_message env k p) !! p' = None.
Proof.
  intros Hk. unfold drop_message. cbn [k_heap with_heap]. apply lookup_delete_None. right.
  by destruct (drop_resources_same env k (cm_resources (message_at (k_heap k) p))) as (-> & _).
Qed.

Lemma drop_messages_heap env ps k p : k_heap k !! p = None → k_heap (foldl (drop_message env) k ps) !! p = None.
Proof. revert k. induction ps as [|p' ps IH]; intros k Hk; [done|]. by apply IH, drop_message_heap. Qed.

Lemma collect_heap env k p : k_heap k !! p = None → k_heap (collect_orphaned_channels env k) !! p = None.
Proof.
  intros Hk. unfold collect_orphaned_channels. destruct (negb _); [done|].
  assert (∀ l k, k_heap k !! p = None → k_heap (foldl (sweep_messages env) k l) !! p = None) as H1.
  { induction l as [|sm l IH]; intros k' Hk'; [done|]. apply IH. unfold sweep_messages. destruct (_ && _); [|done].
    unfold discard_state. destruct (discard_orphan_messages _ _ _ _) as [[[st' g'] ps]|]; [|done].
    by apply drop_messages_heap. }
  assert (∀ l k, k_heap k !! p = None → k_heap (foldl (sweep_state env) k l) !! p = None) as H2.
  { induction l as [|sm l IH]; intros k' Hk'; [done|]. apply IH. unfold sweep_state. destruct (_ || _); [done|].
    destruct (destroy_channel _ _ _) as [g' ps]. by apply (drop_messages_heap env). }
  by apply H2, H1.
Qed.

Section deliver.
Context {M : Type} `{HandleMapLaws M}.
Abbreviation table := (resource_table M).

Lemma deliver_message_spec env k (t : table) nodes s side p hs m flag :
  claimed_at k s side p → 0 ≤ side ≤ 1 → p ≠ null → k_heap k !! p = Some m →
  table_wf t nodes → NoDup hs → length hs = length (cm_resources m) →
  (∀ h, h ∈ hs → model t !! h = Some (reserved_entry h)) → Forall (λ r, is_Some (t_object r)) (cm_resources m) →
  let '(status, k', t') := deliver_message env k t s side p hs flag in
  status = STATUS_OK ∧ table_wf t' nodes ∧ model t' = list_to_map (installed hs (cm_resources m)) ∪ model t ∧
  k_heap k' !! p = None.
Proof.
  intros Hcl Hs Hp Hm Hwf Hnd Hl Hh Hrs. unfold deliver_message.
  assert (message_at (k_heap k) p = m) as -> by (unfold message_at; by rewrite Hm).
  pose proof (activate_loop_spec nodes hs (cm_resources m) t Hwf Hnd Hl Hh Hrs) as Ha.
  destruct (activate_loop t hs (cm_resources m)) as [[[[status rs] ev] n] t1]. destruct Ha as (-> & Hwf1 & Hm1).
  change (status_ok STATUS_OK) with true. cbn [negb].
  set (k1 := with_heap _ (run_hooks k ev)).
  assert (claimed_at k1 s side p) as Hcl1 by exact (run_hooks_claimed k ev s side p Hcl).
  pose proof (commit_claimed k1 s side p (with_resources rs m) Hcl1 Hs Hp) as Hc.
  destruct (commit_receive _ _ _ _ _) as [[committed st] g]. simpl in Hc. subst committed. cbn [negb].
  split_and!; try done. apply collect_heap. unfold drop_message. cbn [k_heap with_heap]. apply lookup_delete_eq.
Qed.
End deliver.

(** ** Receive calls *)

(** Every queued resource carries an object. *)
Definition resources_ok (k : ipc) : Prop :=
  ∀ p m, k_heap k !! p = Some m → Forall (λ r, is_Some (t_object r)) (cm_resources m).

Lemma inert_lookup k s f st1 :
  inert f → k_states (update_state s f k) !! s = Some st1 →
  ∃ st0, k_states k !! s = Some st0 ∧ ∀ side, queue_of st1 side = queue_of st0 side.
Proof.
  intros Hf. unfold update_state. cbn [k_states with_states]. rewrite lookup_alter_eq.
  destruct (k_states k !! s) as [st0|]; [|done]. intros [= <-]. exists st0. split; [done|]. intros side. by apply inert_queue.
Qed.

Section receive.
Context {M : Type} `{HandleMapLaws M}.
Abbreviation table := (resource_table M).

(** The oldest message of the endpoint's queue was handed over: its resources
    are in the table under handles that were free, and it is gone. *)
Definition handed_over (k : ipc) (t : table) (endpoint : Z) (bytes : option (list Z)) (hs : list Z) (k' : ipc)
    (t' : table) (m : channel_message) : Prop :=
  ∃ s side st p rest, raw_endpoint k t endpoint = inr (s, side) ∧ k_states k !! s = Some st ∧
    ptrs (queue_of st side) = p :: rest ∧ k_heap k !! p = Some m ∧ k_heap k' !! p = None ∧
    bytes = cm_bytes m ∧ length hs = length (cm_resources m) ∧ NoDup hs ∧ (∀ h, h ∈ hs → model t !! h = None) ∧
    model t' = list_to_map (installed hs (cm_resources m)) ∪ model t.

(** Reservation followed by delivery of the claimed message [p], or by a
    rollback. *)
Lemma reserve_deliver env k (t : table) nodes s side p m alloc flag :
  claimed_at k s side p → 0 ≤ side ≤ 1 → p ≠ null → k_heap k !! p = Some m → table_wf t nodes →
  Forall (λ r, is_Some (t_object r)) (cm_resources m) →
  let '(granted, hs, t1) := reserve_native t (resource_count m) alloc in
  if decide (granted = STATUS_OK) then
    model (rollback_native t1 hs) = model t ∧
    let '(status, k', t') := deliver_message env k t1 s side p hs flag in
    status = STATUS_OK ∧ k_heap k' !! p = None ∧ length hs = length (cm_resources m) ∧ NoDup hs ∧
    (∀ h, h ∈ hs → model t !! h = None) ∧ model t' = list_to_map (installed hs (cm_resources m)) ∪ model t
  else model t1 = model t.
Proof.
  intros Hcl Hs Hp Hm Hwf Hrs. pose proof (reserve_native_ok nodes t (resource_count m) alloc Hwf) as Hok.
  pose proof (reserve_native_model nodes t (resource_count m) alloc Hwf) as Hmod.
  destruct (reserve_native t _ alloc) as [[granted hs] t1]. destruct (decide (granted = STATUS_OK)) as [Hg|]; [|done].
  destruct Hok as (Hso & Hlen & _). destruct (Hlen Hg) as [Hl _].
  assert (length hs = length (cm_resources m)) as Hl' by (unfold resource_count in Hl; lia).
  pose proof (so_wf _ _ _ _ _ Hso) as Hwf1. pose proof (so_nodup _ _ _ _ _ Hso) as Hnd.
  split; [by apply (rollback_native_model nodes)|].
  pose proof (deliver_message_spec env k t1 nodes s side p hs m flag Hcl Hs Hp Hm Hwf1 Hnd Hl') as Hd.
  destruct (deliver_message env k t1 s side p hs flag) as [[status k'] t']. destruct Hd as (-> & _ & Hm' & Hheap); [|done|].
  - intros h Hin. destruct Hmod as [_ Hmod]. by rewrite Hmod, decide_True.
  - split_and!; try done; [apply Hmod|]. rewrite Hm'. by apply installed_model.
Qed.

Lemma status_ok_false status : status_ok status = false → status ≠ STATUS_OK.
Proof. by intros ?%bool_decide_eq_false. Qed.

Lemma raw_endpoint_error k (t : table) endpoint : raw_endpoint k t endpoint ≠ inl STATUS_OK.
Proof. unfold raw_endpoint. by repeat case_match. Qed.

Lemma receive_frame_check_error f : receive_frame_check f ≠ Some STATUS_OK.
Proof. unfold receive_frame_check. by repeat case_match. Qed.

Lemma output_check_error address f m : output_check address f m ≠ Some STATUS_OK.
Proof. unfold output_check. by repeat case_match. Qed.

(** C6: A receive delivers or does nothing.  On success the oldest message of
    the endpoint's queue fits the buffers, its bytes and its frame are written
    out, all its resources are installed under fresh handles, every other
    entry of the table is as before and the message is deleted; on any error
    (bad frame, small buffer, faulting copy, exhausted table) the table holds
    what it held and the channels, claims and counters are as before. *)
Theorem receive_delivers_or_keeps k (t : table) nodes endpoint address e env :
  ipc_wf k → operations_ok k → resources_ok k → table_wf t nodes →
  let '(status, out, k', t') := receive_raw_channel k t endpoint address e env in
  if decide (status = STATUS_OK) then
    ∃ m, handed_over k t endpoint (dl_bytes out) (dl_handles out) k' t' m ∧
      cm_byte_count m ≤ rf_byte_capacity (re_frame e) ∧ resource_count m ≤ rf_resource_capacity (re_frame e) ∧
      dl_frame out = Some (delivered_frame (re_frame e) m)
  else model t' = model t ∧ same_ipc k k'.
Proof.
  intros Hwf Hops Hres Ht. unfold receive_raw_channel.
  destruct (raw_endpoint k t endpoint) as [status|[s side]] eqn:He.
  { rewrite decide_False; [done|]. intros ->. by apply raw_endpoint_error in He. }
  pose proof (raw_endpoint_side k t endpoint s side Hwf He) as Hside.
  set (k1 := update_state s begin_operation k). assert (ipc_wf k1) as Hk1 by (apply update_state_wf; [done|apply inert_begin]).
  assert (∀ k2, same_ipc k1 k2 → same_ipc k (update_state s end_operation k2)) as Hkeep
    by (intros k2 <-; by apply end_begin).
  destruct (status_ok (re_frame_status e)) eqn:Hfs; cbn [negb].
  2: { rewrite decide_False by by apply status_ok_false. split; [done|by apply Hkeep]. }
  destruct (receive_frame_check (re_frame e)) as [status|] eqn:Hfc.
  { rewrite decide_False; [split; [done|by apply Hkeep]|]. intros ->. by apply receive_frame_check_error in Hfc. }
  pose proof (claim_then_cancel k1 s side Hk1 Hside) as Hcancel. pose proof (claim_claimed k1 s side Hk1 Hside) as Hclaim.
  destruct (claim_receive (state_at k1 s) side) as [[claimed p] st].
  destruct (status_ok claimed) eqn:Hc; cbn [negb].
  2: { apply status_ok_false in Hc. rewrite decide_False in * by done. split; [done|by apply Hkeep]. }
  apply bool_decide_eq_true in Hc. rewrite decide_True in Hcancel by done. apply Hkeep in Hcancel.
  destruct (Hclaim Hc) as (Hcl & Hp & st1 & rest & m & Hst1 & Hr & Hm). set (k2 := put_state s st k1) in *.
  assert (k_heap k2 !! p = Some m) as Hm2 by done. assert (message_at (k_heap k2) p = m) as ->
    by (unfold message_at; by rewrite Hm2).
  destruct (_ || (rf_resource_capacity _ <? _)) eqn:Hcap.
  { rewrite decide_False; [done|]. by destruct (status_ok (re_sizes_status e)) eqn:Hss; [|apply status_ok_false]. }
  destruct (output_check address (re_frame e) m) as [status|] eqn:Hout.
  { rewrite decide_False; [done|]. intros ->. by apply output_check_error in Hout. }
  pose proof (reserve_deliver env k2 t nodes s side p m (re_reserve_ok e) false Hcl Hside Hp Hm2 Ht (Hres p m Hm)) as Hrd.
  destruct (reserve_native t (resource_count m) (re_reserve_ok e)) as [[granted hs] t1].
  destruct (status_ok granted) eqn:Hg; cbn [negb].
  2: { apply status_ok_false in Hg. rewrite decide_False in * by done. done. }
  apply bool_decide_eq_true in Hg. rewrite decide_True in Hrd by done. destruct Hrd as [Hrb Hrd].
  destruct (status_ok (if status_ok (re_bytes_status e) && _ then _ else _)) eqn:Hcopied; cbn [negb].
  2: { rewrite decide_False by by apply status_ok_false. done. }
  destruct (status_ok (re_result_status e)) eqn:Hrs; cbn [negb].
  2: { rewrite decide_False by by apply status_ok_false. done. }
  destruct (deliver_message env k2 t1 s side p hs false) as [[status k3] t2].
  destruct Hrd as (-> & Hheap & Hlen & Hnd & Hfresh & Hm3). rewrite decide_True by done.
  apply orb_false_iff in Hcap as [Hcb%Z.ltb_ge Hcr%Z.ltb_ge].
  destruct (status_ok (re_bytes_status e)) eqn:Hb; [|simpl in Hcopied; congruence].
  destruct (inert_lookup k s begin_operation st1 inert_begin Hst1) as (st0 & Hst0 & Hq).
  exists m. split_and!; try done. exists s, side, st0, p, rest. by rewrite <- Hq.
Qed.
End receive.

(** ** Sends *)

Section send.
Context {M : Type} `{HandleMapLaws M}.
Variable unique : object → bool.
Abbreviation table := (resource_table M).

(** What a successful take leaves: well-formed records whose nodes complete
    the table. *)
Lemma taken_batch nodes (t : table) ds target alloc rs ev t1 :
  table_wf t nodes → take_native_batch unique t ds target alloc = (STATUS_OK, rs, ev, t1) →
  Forall (record_wf (rt_id t1)) rs ∧ table_wf t1 (batch_nodes rs ++ nodes) ∧
  (∀ h, model t1 !! h = if decide (h ∈ (batch_nodes rs).*1) then None else model t !! h) ∧
  list_to_map (batch_nodes rs) ∪ model t1 = model t.
Proof.
  intros Hwf Ht. pose proof (take_native_batch_spec unique t nodes ds target alloc Hwf) as Hspec.
  rewrite Ht in Hspec. destruct Hspec as [[? _]|(_ & items & [Hs Hnd Hrs _ Hwf1 Hm Hn Hc Hid])]; [done|].
  pose proof (batch_nodes_records unique (rt_id t) (model t) items Hs) as Hbn. rewrite <- Hrs in Hbn.
  pose proof (records_wf unique (rt_id t) (model t) items Hs) as Hrw. rewrite <- Hrs, <- Hid in Hrw.
  rewrite Hbn. split_and!; try done; [intros h; by rewrite Hm, without_moved_lookup|].
  rewrite Hm. apply map_eq. intros h. destruct (decide (h ∈ (moved_nodes (model t) items).*1)) as [Hin|Hin].
  - apply list_elem_of_fmap in Hin as ([h' e] & -> & Hin). simpl. rewrite (moved_nodes_in _ _ _ _ Hin).
    apply lookup_union_Some_l, elem_of_list_to_map_1; [by eapply moved_nodes_nodup|done].
  - rewrite lookup_union_r by by apply not_elem_of_list_to_map_1. by rewrite without_moved_lookup, decide_False.
Qed.

(** Committing does not look at the resources, which are in the message. *)
Lemma commit_emptied (t : table) rs : (commit_native_batch t (emptied <$> rs)).2 = (commit_native_batch t rs).2.
Proof.
  revert t. induction rs as [|r rs IH]; intros t; [done|]. rewrite fmap_cons. cbn [commit_native_batch].
  unfold commit_one. cbn [c_moved c_token emptied].
  destruct (negb (c_moved r) || _).
  - specialize (IH t). by destruct (commit_native_batch t (emptied <$> rs)), (commit_native_batch t rs).
  - specialize (IH (count_down t)).
    by destruct (commit_native_batch (count_down t) (emptied <$> rs)), (commit_native_batch (count_down t) rs).
Qed.

(** C18: A send that passes the channel's checks is a transaction on the sender's
    table.  After a batch was taken, [enqueue] either appends the message with
    exactly the batch's resources to the peer's queue and the moved handles
    are gone from the table, or it reports an error with the channel, the
    counters, the message and the sender's table as they were. *)
Theorem enqueue_commits_or_restores st g h sender p m (t : table) nodes ds target alloc rs ev t1 :
  channel_wf st h → within g → 0 ≤ sender → 0 ≤ cm_byte_count m → p ≠ null → h !! p = None → table_wf t nodes →
  take_native_batch unique t ds target alloc = (STATUS_OK, rs, ev, t1) →
  enqueue_rejects st sender (Some m) (Z.of_nat (length rs)) = None →
  let '(r, t2) := enqueue st g sender (Some (p, m)) rs t1 in
  table_wf t2 nodes ∧
  if decide (er_status r = STATUS_OK) then
    er_message r = with_resources (c_resource <$> rs) m ∧
    ptrs (queue_of (er_state r) (1 - sender)) = ptrs (queue_of st (1 - sender)) ++ [p] ∧
    queue_of (er_state r) sender = queue_of st sender ∧
    ∀ k, model t2 !! k = if decide (k ∈ (batch_nodes rs).*1) then None else model t !! k
  else er_state r = st ∧ er_globals r = g ∧ er_message r = m ∧ model t2 = model t.
Proof.
  intros Hwf Hg Hs Hb Hp Hh Ht Htake Hrej. destruct (taken_batch nodes t ds target alloc rs ev t1 Ht Htake) as (Hrw & Ht1 & Hm1 & Hback).
  unfold enqueue. cbn [fmap option_fmap option_map snd]. rewrite Hrej. apply enqueue_rejects_none in Hrej.
  destruct (enqueue_locked_spec st g h sender p m rs Hwf Hg Hs Hb Hrej) as [Href|Hsent].
  - pose proof (refused_status _ _ _ _ _ Href) as Hno. rewrite Hno. destruct Href as (status & _ & Hr).
    rewrite Hr in *. cbn [er_records er_status] in *.
    destruct (restore_native_batch_spec t1 nodes rs Hrw Ht1) as (rs' & ev' & t2 & -> & Ht2 & Hm2 & _).
    split; [done|]. cbn [er_status]. change (status_ok STATUS_OK) with true. cbv iota.
    rewrite decide_False by by apply status_ok_false.
    split_and!; try done. congruence.
  - pose proof (se_sender _ _ _ _ Hrej) as Hs1. destruct Hsent as (fifo & Hpush & _ & Hqb & Hqr & _ & Hr).
    rewrite Hr. cbn [er_status er_records]. change (status_ok STATUS_OK) with true. cbv iota.
    destruct (commit_native_batch_spec t1 nodes rs Hrw Ht1) as (Ht2 & Hm2 & _).
    pose proof (commit_emptied t1 rs) as He. destruct (commit_native_batch t1 (emptied <$> rs)) as [rs' t2]. simpl in He. subst t2.
    split; [done|]. cbn [er_status er_state er_message]. rewrite decide_True by done.
    destruct (limits_small st h Hwf) as (Hmb & Hmr & _).
    destruct (push_ok _ _ _ h (queue_of st (1 - sender)) p (sent_message m rs) fifo
                (cw_queues st h Hwf (1 - sender) ltac:(lia))) as (_ & Hptrs & _); try done; try lia.
    rewrite queue_set_eq by (try lia; apply Hwf). split_and!; try done.
    + pose proof (queue_set_ne st (1 - sender) (push_queue (queue_of st (1 - sender)) fifo (sent_message m rs))) as Hn.
      replace (1 - (1 - sender)) with sender in Hn by lia. apply Hn. lia.
    + intros k. by rewrite Hm2, Hm1.
Qed.
End send.

(** ** The concrete channel *)

Lemma channel_table_wf : table_wf channel_table [].
Proof.
  assert (∀ t o m, table_wf t [] → table_wf (install_native t (Some o) m).2 []) as Hi.
  { intros t o m Ht. pose proof (install_native_ok [] t (Some o) m Ht) as Hi.
    destruct (install_native t (Some o) m) as [[h ev] t']. by apply (so_wf _ _ _ _ _ Hi). }
  apply Hi, Hi, Hi, (rw_table _ (initial_wf 1)).
Qed.

Lemma channel_k3_states : k_states channel_k3 = {[10 := state_at channel_k3 10]}.
Proof. vm_compute. reflexivity. Qed.
Lemma channel_k3_heap : k_heap channel_k3 = {[500 := message_at (k_heap channel_k3) 500]}.
Proof. vm_compute. reflexivity. Qed.

Lemma channel_k3_operations : operations_ok channel_k3.
Proof. intros s st. rewrite channel_k3_states. intros [_ <-]%lookup_singleton_Some. by vm_compute. Qed.
Lemma channel_k3_resources : resources_ok channel_k3.
Proof.
  intros p m. rewrite channel_k3_heap. intros [_ <-]%lookup_singleton_Some. vm_compute. repeat constructor. by eexists.
Qed.

Definition channel_receive_env : receive_env :=
  Build_receive_env STATUS_OK (Build_receive_frame 96 0 0 4096 16 8192 4 0 0 0 0 0 0) true STATUS_OK STATUS_OK STATUS_OK
    STATUS_OK.

Lemma receive_delivers_or_keeps_witness :
  let '(status, out, k', t') := receive_raw_channel channel_k3 channel_table 2 16384 channel_receive_env channel_gc in
  status = STATUS_OK ∧ ∃ m, handed_over channel_k3 channel_table 2 (dl_bytes out) (dl_handles out) k' t' m.
Proof.
  pose proof (receive_delivers_or_keeps channel_k3 channel_table [] 2 16384 channel_receive_env channel_gc
    (ipc_calls_wf _ _ channel_k3_reachable) channel_k3_operations channel_k3_resources channel_table_wf) as Hr.
  assert ((receive_raw_channel channel_k3 channel_table 2 16384 channel_receive_env channel_gc).1.1.1 = STATUS_OK) as Hs
    by (vm_compute; reflexivity).
  destruct (receive_raw_channel channel_k3 channel_table 2 16384 channel_receive_env channel_gc) as [[[status out] k'] t'].
  cbn [fst] in Hs. rewrite decide_True in Hr by exact Hs. destruct Hr as (m & Hm & _). split; [exact Hs|by exists m].
Defined.

(** Handle 3 is moved out of the table. *)
Definition channel_taken :=
  take_native_batch channel_unique channel_table (Dispositions [Build_disposition 3 RESOURCE_MOVE 0 0 0]) 1 true.
Lemma channel_taken_ok : channel_taken = (STATUS_OK, channel_taken.1.1.2, channel_taken.1.2, channel_taken.2).
Proof. by vm_compute. Qed.

Definition channel_message3 : channel_message := with_bytes [1; 2; 3] (make_message 3 1 true true).

Lemma enqueue_commits_or_restores_witness :
  let '(r, t2) := enqueue (state_at channel_k2 10) (k_globals channel_k2) 0 (Some (500, channel_message3))
                    channel_taken.1.1.2 channel_taken.2 in
  table_wf t2 [] ∧ er_status r = STATUS_OK ∧ model t2 !! 3 = None.
Proof.
  pose proof (ipc_calls_wf _ _ channel_k2_reachable) as Hk.
  pose proof (enqueue_commits_or_restores channel_unique (state_at channel_k2 10) (k_globals channel_k2) (k_heap channel_k2)
    0 500 channel_message3 channel_table [] _ _ _ _ _ _
    (iw_channels _ Hk 10 (state_at channel_k2 10) ltac:(vm_compute; reflexivity)) (iw_within _ Hk) ltac:(lia)
    ltac:(vm_compute; discriminate) ltac:(discriminate) ltac:(vm_compute; reflexivity) channel_table_wf channel_taken_ok
    ltac:(vm_compute; reflexivity)) as Hr.
  assert (er_status (enqueue (state_at channel_k2 10) (k_globals channel_k2) 0 (Some (500, channel_message3))
                    channel_taken.1.1.2 channel_taken.2).1 = STATUS_OK) as Hs by (vm_compute; reflexivity).
  destruct (enqueue _ _ _ _ _ _) as [r t2]. cbn [fst] in Hs. rewrite decide_True in Hr by exact Hs.
  destruct Hr as (Hw & _ & _ & _ & Hm). split_and!; [exact Hw|exact Hs|]. rewrite (Hm 3). vm_compute. reflexivity.
Defined.

(** ** A rejected send *)

(** The channel 10 with a limit of two bytes per message, its ends in the table. *)
Definition small_channel : ipc :=
  run_hooks (create_raw_channel initial_ipc
    (Some (STATUS_OK, Build_options channel_options_sizeof 0 0 2 0 0)) channel_create_env).2
    [Acquire 100 table_root; Acquire 101 table_root].

(** A send larger than the channel's own limit loses what it moves.
    The frame passes the global limits, the batch is taken, and the rejection
    of [enqueue] returns without restoring it: the call fails with
    INVALID_MESSAGE, handle 3 is gone, its object is held neither by the table
    nor by a message, and the entry count still counts it. *)
Theorem oversized_send_loses_capability :
  let '(status, k', t') :=
    send_raw_channel channel_unique small_channel channel_table 1 16384 channel_send_env channel_gc in
  status = INVALID_MESSAGE ∧
  lookup_native channel_table 3 = Some (Build_entry (Some 7) 3 active default_metadata) ∧
  lookup_native t' 3 = None ∧ model t' !! 3 = None ∧ size (model t') = 2%nat ∧
  native_entry_count channel_table = 3 ∧ native_entry_count t' = 3 ∧ k_heap k' = ∅ ∧
  queued_messages (state_at k' 10) 1 = 0.
Proof. vm_compute. split_and!; reflexivity. Qed.
