(* ===== verification/ChannelGC.v ===== *)
(** The collection of orphaned channels of ChannelSystem.v: its mark phase
    finds exactly the channels reachable from a root through endpoints that
    travel in queued messages, the sweeps leave those alone and reclaim the
    others. *)
From stdpp Require Import base list numbers gmap relations.
From S2P Require Import Prelude Abi BoundedQueue Capability ResourceTable.
From S2P Require Import Channel ChannelFacts ChannelSystem ChannelMachine.

Local Open Scope Z_scope.
Set Default Proof Using "Type".

(** ** Reachability *)

(** A message queued on [s] carries an endpoint of the registered [s']. *)
Definition carries (k : ipc) (s s' : Z) : Prop :=
  s' ∈ collect_reachable_states k (state_at k s) ∧ s' ∈ k_registry k.

Definition gc_root (k : ipc) (s : Z) : Prop := s ∈ k_registry k ∧ is_gc_root (state_at k s) = true.
Definition live (k : ipc) (s : Z) : Prop := ∃ r, gc_root k r ∧ rtc (carries k) r s.

Lemma live_step k s s' : live k s → carries k s s' → live k s'.
Proof. intros (r & Hr & Hrs) Hc. exists r. split; [done|]. by eapply rtc_r. Qed.

(** ** The mark phase *)

Lemma contains_state_Some states s i : contains_state states s = Some i → states !! i = Some s.
Proof.
  unfold contains_state. destruct (list_find _ states) as [[j s']|] eqn:Hf; [|done].
  apply list_find_Some in Hf as (Hj & -> & _). simpl. by intros [= ->].
Qed.

Lemma contains_state_None states s : contains_state states s = None → s ∉ states.
Proof.
  unfold contains_state. destruct (list_find _ states) as [[j s']|] eqn:Hf; [done|].
  apply list_find_None in Hf. rewrite Forall_forall in Hf. intros _ Hin. by apply (Hf s Hin).
Qed.

(** The work list holds each marked state once. *)
Record marks (states : list Z) (marked : list bool) (work : list Z) : Prop := Build_marks {
  mk_length : length marked = length states;
  mk_nodup : NoDup work;
  mk_work : ∀ s, s ∈ work ↔ ∃ i, states !! i = Some s ∧ marked !! i = Some true;
}.

Lemma marks_states states marked work : marks states marked work → work ⊆ states.
Proof. intros [_ _ Hw] s Hs. apply Hw in Hs as (i & Hi & _). by eapply list_elem_of_lookup_2. Qed.

Section mark.
Context (states : list Z) (Hnd : NoDup states).

Lemma mark_target_spec marked work t :
  marks states marked work →
  let '(marked', work') := mark_target states (marked, work) t in
  marks states marked' work' ∧ (t ∈ states → t ∈ work') ∧
  ∃ ext, work' = work ++ ext ∧ ∀ s, s ∈ ext → s = t ∧ t ∈ states.
Proof using Hnd.
  intros [Hl Hw Hm]. unfold mark_target. simpl.
  destruct (contains_state states t) as [i|] eqn:Hc.
  2: { apply contains_state_None in Hc. split_and!; [done|done|]. exists []. rewrite app_nil_r. split; [done|].
       intros s Hs. by apply elem_of_nil in Hs. }
  apply contains_state_Some in Hc. pose proof (list_elem_of_lookup_2 _ _ _ Hc) as Hin.
  assert (i < length marked)%nat as Hi by (rewrite Hl; by eapply lookup_lt_Some).
  case_decide as Hf.
  - split_and!.
    + split; [by rewrite length_insert| |].
      * apply NoDup_app. split_and!; [done| |apply NoDup_singleton]. intros s Hs ->%list_elem_of_singleton.
        apply Hm in Hs as (j & Hj & Hmj). rewrite (NoDup_lookup states i j t) in Hf by done. congruence.
      * intros s. rewrite elem_of_app, list_elem_of_singleton, Hm. split.
        -- intros [(j & Hj & Hmj)| ->]; [|exists i; by rewrite list_lookup_insert_eq].
           exists j. split; [done|]. rewrite list_lookup_insert_ne; [done|]. congruence.
        -- intros (j & Hj & Hmj). destruct (decide (j = i)) as [->|Hne]; [right; congruence|].
           rewrite list_lookup_insert_ne in Hmj by done. left. by exists j.
    + intros _. rewrite elem_of_app. right. by left.
    + exists [t]. split; [done|]. by intros s ->%list_elem_of_singleton.
  - split_and!; [done| |exists []; rewrite app_nil_r; split; [done|intros s Hs; by apply elem_of_nil in Hs]].
    intros _. apply Hm. exists i. split; [done|]. destruct (lookup_lt_is_Some_2 marked i Hi) as [[] Hb]; [done|congruence].
Qed.

Lemma mark_targets_spec targets marked work :
  marks states marked work →
  let '(marked', work') := foldl (mark_target states) (marked, work) targets in
  marks states marked' work' ∧ (∀ t, t ∈ targets → t ∈ states → t ∈ work') ∧
  ∃ ext, work' = work ++ ext ∧ ∀ s, s ∈ ext → s ∈ targets ∧ s ∈ states.
Proof using Hnd.
  revert marked work. induction targets as [|t targets IH]; intros marked work Hm; cbn [foldl].
  { split_and!; [done|intros t Ht; by apply elem_of_nil in Ht|]. exists []. rewrite app_nil_r. split; [done|].
    intros s Hs. by apply elem_of_nil in Hs. }
  pose proof (mark_target_spec marked work t Hm) as Ht. destruct (mark_target states (marked, work) t) as [m1 w1].
  destruct Ht as (Hm1 & Ht1 & ext1 & -> & He1). specialize (IH m1 _ Hm1).
  destruct (foldl (mark_target states) (m1, _) targets) as [m2 w2]. destruct IH as (Hm2 & Ht2 & ext2 & -> & He2).
  split_and!; [done| |].
  - intros t' [->|Hin]%elem_of_cons Hs; [|by apply Ht2]. rewrite elem_of_app. left. by apply Ht1.
  - exists (ext1 ++ ext2). rewrite <- app_assoc. split; [done|]. intros s [Hs|Hs]%elem_of_app.
    + destruct (He1 s Hs) as [-> ?]. split; [by left|done].
    + destruct (He2 s Hs). split; [by right|done].
Qed.
End mark.

(** What the mark loop maintains: marked states are live, roots are marked,
    and the states before [index] have their targets marked. *)
Record marking (k : ipc) (index : nat) (marked : list bool) (work : list Z) : Prop := Build_marking {
  mg_marks : marks (k_registry k) marked work;
  mg_live : ∀ s, s ∈ work → live k s;
  mg_roots : ∀ s, gc_root k s → s ∈ work;
  mg_done : ∀ i s s', (i < index)%nat → work !! i = Some s → carries k s s' → s' ∈ work;
}.

Lemma marking_complete k index marked work :
  marking k index marked work → (length work ≤ index)%nat → ∀ s, s ∈ work ↔ live k s.
Proof.
  intros [_ Hl Hr Hd] Hi s. split; [apply Hl|]. intros (r & Hroot%Hr & Hrs).
  induction Hrs as [|r s1 s Hc _ IH]; [done|]. apply IH.
  apply list_elem_of_lookup in Hroot as [i Hw]. apply (Hd i r); [|done..].
  apply lookup_lt_Some in Hw. lia.
Qed.

(** Every iteration handles one more state of the work list, which never gets
    longer than the registry. *)
Lemma mark_loop_spec fuel k index marked work :
  NoDup (k_registry k) → marking k index marked work → (length (k_registry k) ≤ index + fuel)%nat →
  let '(marked', work') := mark_loop fuel k (k_registry k) index marked work in
  marks (k_registry k) marked' work' ∧ ∀ s, s ∈ work' ↔ live k s.
Proof.
  intros Hnd. revert index marked work. induction fuel as [|fuel IH]; intros index marked work Hm Hf; cbn [mark_loop].
  all: pose proof (mg_marks _ _ _ _ Hm) as Hmk.
  { split; [done|]. eapply marking_complete; [exact Hm|].
    pose proof (submseteq_length _ _ (NoDup_submseteq _ _ (mk_nodup _ _ _ Hmk) (marks_states _ _ _ Hmk))). lia. }
  destruct (work !! index) as [s|] eqn:Hs.
  2: { split; [done|]. eapply marking_complete; [exact Hm|]. by apply lookup_ge_None_1. }
  pose proof (mark_targets_spec _ Hnd (collect_reachable_states k (state_at k s)) marked work Hmk) as Ht.
  destruct (foldl _ (marked, work) _) as [m1 w1]. destruct Ht as (Hm1 & Ht1 & ext & -> & He).
  apply IH; [|lia]. destruct Hm as [_ Hl Hr Hd]. split; [done| | |].
  - intros s' [?|Hs']%elem_of_app; [by apply Hl|]. apply (live_step k s); [|by apply He].
    apply Hl. by eapply list_elem_of_lookup_2.
  - intros s' Hs'. rewrite elem_of_app. left. by apply Hr.
  - intros i s1 s2 Hi Hs1 Hc. destruct (decide (i = index)) as [->|Hne].
    + rewrite lookup_app_l in Hs1 by by eapply lookup_lt_Some. simplify_eq. by apply Ht1; apply Hc.
    + assert (i < length work)%nat by (apply lookup_lt_Some in Hs; lia).
      rewrite lookup_app_l in Hs1 by done. rewrite elem_of_app. left. by apply (Hd i s1); [lia|..].
Qed.

Lemma initial_marking k :
  NoDup (k_registry k) →
  marking k 0 ((λ s, is_gc_root (state_at k s)) <$> k_registry k)
    (filter (λ s, is_gc_root (state_at k s) = true) (k_registry k)).
Proof.
  intros Hnd. split.
  - split; [by rewrite length_fmap|by apply NoDup_filter|]. intros s. rewrite list_elem_of_filter. split.
    + intros [Hg (i & Hi)%list_elem_of_lookup]. exists i. by rewrite list_lookup_fmap, Hi, <- Hg.
    + intros (i & Hi & Hb). rewrite list_lookup_fmap, Hi in Hb. injection Hb as Hb. split; [done|].
      by eapply list_elem_of_lookup_2.
  - intros s [Hg Hin]%list_elem_of_filter. by exists s.
  - intros s [Hin Hg]. by apply list_elem_of_filter.
  - intros i s s' Hi. lia.
Qed.

Lemma mark_phase_marks k :
  NoDup (k_registry k) → ∃ work, marks (k_registry k) (mark_phase k (k_registry k)) work ∧ ∀ s, s ∈ work ↔ live k s.
Proof.
  intros Hnd. unfold mark_phase.
  pose proof (mark_loop_spec (length (k_registry k)) k 0 _ _ Hnd (initial_marking k Hnd) ltac:(lia)) as Hm.
  destruct (mark_loop _ _ _ _ _ _) as [marked work]. by exists work.
Qed.

(** The mark phase of the collection terminates with the exact live set:
    with one round per registered channel, a channel is marked if and only if
    it is a root (held by a table, in an operation or claimed) or an endpoint
    of it can be reached from a root through endpoints carried by queued
    messages. *)
Theorem mark_phase_exact k i s :
  NoDup (k_registry k) → k_registry k !! i = Some s → mark_phase k (k_registry k) !! i = Some true ↔ live k s.
Proof.
  intros Hnd Hi. destruct (mark_phase_marks k Hnd) as (work & [Hl _ Hw] & Hlive). rewrite <- Hlive, Hw. split.
  - intros Hm. by exists i.
  - intros (j & Hj & Hm). by rewrite (NoDup_lookup _ i j s Hnd Hi Hj).
Qed.

(** ** What the sweeps leave alone *)

(** The queues, the settings and the running operations of a channel. *)
Definition contents (st : channel_state) : list msg_queue * (bool * Z * Z * Z * Z) :=
  (cs_queues st, (cs_valid st, max_messages st, max_bytes st, max_resources st, active_operations st)).

(** The channel [s] is registered with the contents [c] and the messages on its
    queues are those of the heap [h]. *)
Definition intact (s : Z) (c : list msg_queue * (bool * Z * Z * Z * Z)) (h : heap) (k : ipc) : Prop :=
  s ∈ k_registry k ∧ ∃ st, k_states k !! s = Some st ∧ contents st = c ∧ ∀ p, p ∈ all_ptrs st → k_heap k !! p = h !! p.

Definition free_in (s : Z) (k : ipc) (p : Z) : Prop := ∀ st, k_states k !! s = Some st → p ∉ all_ptrs st.

Lemma hook_operations side e st : active_operations (endpoint_hook side st e) = active_operations st.
Proof.
  destruct e as [o l|o l|o l l']; simpl; unfold capability_acquired, capability_released; repeat case_match; done.
Qed.

Section intact.
Context (s : Z) (c : list msg_queue * (bool * Z * Z * Z * Z)) (h : heap).

Lemma intact_update k s' f :
  inert f → (∀ st, active_operations (f st) = active_operations st) → intact s c h k → intact s c h (update_state s' f k).
Proof.
  intros Hf Ho (Hr & st & Hs & Hq & Hp). split; [done|]. unfold update_state. cbn [k_states with_states].
  destruct (decide (s' = s)) as [->|Hne].
  - exists (f st). rewrite lookup_alter_eq, Hs. destruct (Hf st) as (Hfq & Hmm & Hmb & Hmr & _ & _ & _ & Hv).
    split_and!; [done|unfold contents in *; rewrite Ho; congruence|]. unfold all_ptrs. by rewrite !inert_queue.
  - exists st. by rewrite lookup_alter_ne.
Qed.

Lemma intact_hooks k log : intact s c h k → intact s c h (run_hooks k log).
Proof.
  unfold run_hooks. revert k. induction log as [|e log IH]; intros k Hk; [done|]. apply IH. unfold run_hook.
  destruct (k_endpoints k !! event_object e) as [[s' side]|]; [|done]. apply intact_update; [apply inert_hook|apply hook_operations|done].
Qed.

Lemma intact_destroy k (o : Z) : intact s c h k → intact s c h (destroy_endpoint k o).
Proof.
  intros Hk. unfold destroy_endpoint. destruct (k_endpoints k !! o) as [[s' side]|]; [|done].
  by apply intact_update; [apply inert_destroyed|..].
Qed.

Lemma intact_drop_resources env k rs : intact s c h k → intact s c h (foldl (drop_resource env) k rs).
Proof.
  revert k. induction rs as [|r rs IH]; intros k Hk; [done|]. apply IH. unfold drop_resource.
  apply (intact_hooks k (release_transit r).2) in Hk. destruct (t_object r) as [o|]; [|done].
  destruct (gc_last env o); [|done]. by apply intact_destroy.
Qed.

Lemma intact_drop_messages env k ps :
  Forall (free_in s k) ps → intact s c h k → intact s c h (foldl (drop_message env) k ps).
Proof.
  revert k. induction ps as [|p ps IH]; intros k Hps Hk; [done|]. apply Forall_cons in Hps as [Hp Hps]. simpl.
  set (k1 := foldl (drop_resource env) k (cm_resources (message_at (k_heap k) p))).
  assert (same_queues k k1) as (_ & _ & _ & Hsame) by apply drop_resources_same.
  assert (∀ p', free_in s k p' → free_in s k1 p') as Hfree.
  { intros p' Hp' st1 Hs1 Hin. specialize (Hsame s). rewrite Hs1 in Hsame.
    destruct (k_states k !! s) as [st|] eqn:Hs; [|done]. injection Hsame as Hsame. apply (Hp' st Hs). by rewrite <- Hsame. }
  apply IH; [eapply Forall_impl; [exact Hps|exact Hfree]|].
  destruct (intact_drop_resources env k (cm_resources (message_at (k_heap k) p)) Hk) as (Hr & st & Hs & Hq & Hin).
  split; [done|]. exists st. split_and!; [done|done|]. intros p' Hp'. cbn [drop_message k_heap with_heap]. fold k1.
  rewrite lookup_delete_ne; [by apply Hin|]. intros ->. by apply (Hfree p' Hp st).
Qed.

Lemma other_free k s' st' :
  ipc_wf k → s' ≠ s → k_states k !! s' = Some st' → Forall (free_in s k) (all_ptrs st').
Proof.
  intros Hwf Hne Hs'. apply Forall_forall. intros p Hp st Hs Hin. apply Hne.
  by apply (iw_disjoint k Hwf s' s st' st p).
Qed.

Lemma intact_discard env k s' :
  ipc_wf k → can_reap (state_at k s') = true → s' ≠ s → intact s c h k → intact s c h (discard_state env k s').
Proof.
  intros Hwf Hreap Hne Hk. unfold discard_state. destruct (k_states k !! s') as [st'|] eqn:Hs'.
  2: { unfold state_at. rewrite Hs'. simpl. by rewrite put_state_absent. }
  rewrite (state_at_present k s' st' Hs') in *. apply can_reap_claims in Hreap.
  destruct (discard_orphan_messages_ok (others k s') st' (k_globals k) (k_heap k)) as (st1 & g' & Hd & _);
    [by apply (iw_channels k Hwf s')|by apply others_accounts|apply Hwf|by apply others_within with st'|done|].
  destruct (discard_alloc st' (k_globals k) (k_heap k) (gc_discard_ok env s')) as [-> | ->]; [done|]. rewrite Hd.
  assert (∀ st, k_states (put_state s' st1 k) !! s = Some st → k_states k !! s = Some st) as Hback.
  { intros st. rewrite (put_state_present k s' st') by done. cbn [k_states with_states]. by rewrite lookup_insert_ne. }
  apply intact_drop_messages.
  - eapply Forall_impl; [exact (other_free k s' st' Hwf Hne Hs')|]. intros p Hp st Hs. by apply Hp, Hback.
  - destruct Hk as (Hr & st & Hs & Hq & Hin). split; [done|]. exists st. split_and!; [|done|done].
    rewrite (put_state_present k s' st') by done. cbn [k_states with_states with_globals notify_channel_waiters].
    by rewrite lookup_insert_ne.
Qed.

Lemma remove_first_other s' l : s' ≠ s → s ∈ l → s ∈ remove_first s' l.
Proof.
  intros Hne. induction l as [|x l IH]; simpl; [done|]. intros [->|Hin]%elem_of_cons.
  - rewrite (proj2 (Z.eqb_neq _ _)) by done. by left.
  - destruct (x =? s'); [done|]. right. by apply IH.
Qed.

Lemma intact_sweep env k sm : ipc_wf k → sm.1 ≠ s → intact s c h k → intact s c h (sweep_state env k sm).
Proof.
  intros Hwf Hne Hk. unfold sweep_state. destruct (sm.2 || _) eqn:Hg; [done|]. cbn [orb].
  destruct (negb (endpoint_objects _ =? 0)); [done|]. apply orb_false_iff in Hg as [_ Hreap].
  apply negb_false_iff in Hreap. change (k_globals (unregister_state sm.1 k)) with (k_globals k).
  change (k_heap (unregister_state sm.1 k)) with (k_heap k).
  assert (∀ k', intact s c h k' → intact s c h (forget sm.1 k')) as Hforget.
  { intros k' (Hr & st & Hs & Hrest). split; [done|]. exists st. cbn [forget k_states with_states].
    by rewrite lookup_delete_ne. }
  assert (intact s c h (unregister_state sm.1 k)) as Hun.
  { destruct Hk as (Hr & Hk). split; [by apply remove_first_other|done]. }
  destruct (k_states k !! sm.1) as [st|] eqn:Hs.
  2: { unfold state_at. rewrite Hs. exact (Hforget _ Hun). }
  rewrite (state_at_present k sm.1 st Hs) in *. apply can_reap_claims in Hreap.
  rewrite (destroy_channel_ok (others k sm.1) st); try done;
    [|by apply (iw_channels k Hwf sm.1)|by apply others_accounts|apply Hwf|by apply others_within with st].
  apply Hforget, intact_drop_messages; [|exact Hun]. exact (other_free k sm.1 st Hwf Hne Hs).
Qed.

Lemma intact_collect env k :
  ipc_wf k → live k s → intact s c h k → intact s c h (collect_orphaned_channels env k).
Proof.
  intros Hwf Hlive Hk. unfold collect_orphaned_channels. destruct (negb _); [done|].
  set (l := zip _ _). assert (∀ sm, sm ∈ l → sm.1 = s → sm.2 = true) as Hl.
  { intros [s' b] (i & Hi)%list_elem_of_lookup Heq. simpl in *. subst s'. unfold l in Hi.
    apply lookup_zip_with_Some in Hi as (s' & b' & [= <- <-] & Hi1 & Hi2).
    destruct (mark_phase_marks k (iw_registry k Hwf)) as (work & [_ _ Hw] & Hlw).
    apply Hlw, Hw in Hlive as (j & Hj & Hm). rewrite (NoDup_lookup _ i j s (iw_registry k Hwf) Hi1 Hj) in Hi2. congruence. }
  clearbody l. assert (∀ l' k, l' ⊆ l → ipc_wf k → intact s c h k →
    ipc_wf (foldl (sweep_messages env) k l') ∧ intact s c h (foldl (sweep_messages env) k l')) as H1.
  { induction l' as [|sm l' IH]; intros k' Hsub Hwf' Hk'; [done|]. simpl.
    apply IH; [intros x Hx; apply Hsub; by right|by apply sweep_messages_wf|]. unfold sweep_messages. destruct (negb sm.2) eqn:Hsm; [|done].
    destruct (can_reap _) eqn:Hreap; [|done]. apply intact_discard; try done.
    intros Heq. apply negb_true_iff in Hsm. rewrite (Hl sm) in Hsm by (done || apply Hsub; left). done. }
  destruct (H1 l k) as [Hwf1 Hk1]; [done..|]. clear H1.
  assert (∀ l' k, l' ⊆ l → ipc_wf k → intact s c h k → intact s c h (foldl (sweep_state env) k l')) as H2.
  { induction l' as [|sm l' IH]; intros k' Hsub Hwf' Hk'; [done|]. simpl.
    apply IH; [intros x Hx; apply Hsub; by right|by apply sweep_state_wf|]. destruct (decide (sm.1 = s)) as [Heq|Hne]; [|by apply intact_sweep].
    unfold sweep_state. rewrite (Hl sm) by (done || apply Hsub; left). done. }
  by apply H2.
Qed.
End intact.

(** An endpoint that is not given up stays with its channel. *)
Section endpoint.
Context (env : gc_env) (o : Z) (Ho : gc_last env o = false).

Definition endpoint_at (k : ipc) : option (Z * Z) := k_endpoints k !! o.

Lemma endpoint_hooks k log : endpoint_at (run_hooks k log) = endpoint_at k.
Proof.
  unfold run_hooks. revert k. induction log as [|e log IH]; intros k; [done|]. simpl. rewrite IH. unfold run_hook.
  by destruct (k_endpoints k !! event_object e) as [[s side]|].
Qed.

Lemma endpoint_drop_messages k ps : endpoint_at (foldl (drop_message env) k ps) = endpoint_at k.
Proof using Ho.
  revert k. induction ps as [|p ps IH]; intros k; [done|]. simpl. rewrite IH. unfold drop_message.
  change (endpoint_at (with_heap ?h ?k)) with (endpoint_at k).
  generalize (cm_resources (message_at (k_heap k) p)) as rs. intros rs. revert k.
  induction rs as [|r rs IHr]; intros k; [done|]. simpl. rewrite IHr. unfold drop_resource.
  destruct (t_object r) as [x|]; [|apply endpoint_hooks]. destruct (gc_last env x) eqn:Hx; [|apply endpoint_hooks].
  set (k1 := run_hooks k (release_transit r).2). transitivity (endpoint_at k1); [|apply endpoint_hooks].
  unfold destroy_endpoint. case_match; [|done]. case_match. apply lookup_delete_ne. congruence.
Qed.

Lemma endpoint_collect k : endpoint_at (collect_orphaned_channels env k) = endpoint_at k.
Proof using Ho.
  unfold collect_orphaned_channels. destruct (negb _); [done|]. set (l := zip _ _). clearbody l.
  assert (∀ l' k, endpoint_at (foldl (sweep_messages env) k l') = endpoint_at k) as H1.
  { induction l' as [|sm l' IH]; intros k'; [done|]. simpl. rewrite IH. unfold sweep_messages. destruct (_ && _); [|done].
    unfold discard_state. destruct (discard_orphan_messages _ _ _ _) as [[[st' g'] ps]|]; [|done].
    by rewrite endpoint_drop_messages. }
  assert (∀ l' k, endpoint_at (foldl (sweep_state env) k l') = endpoint_at k) as H2.
  { induction l' as [|sm l' IH]; intros k'; [done|]. simpl. rewrite IH. unfold sweep_state. destruct (_ || _); [done|].
    destruct (destroy_channel _ _ _) as [g' ps]. change (endpoint_at (with_states ?m ?k)) with (endpoint_at k).
    by rewrite endpoint_drop_messages. }
  by rewrite H2, H1.
Qed.
End endpoint.

Lemma live_registered k s : live k s → s ∈ k_registry k.
Proof. intros (r & [Hr _] & Hrs). apply rtc_inv_r in Hrs as [->|(s1 & _ & [_ Hs])]; done. Qed.

(** C28: The collection never touches a live channel: it stays registered with
    its two queues as they were, and every message on them is still there
    unchanged, however many other channels are discarded and deleted. *)
Theorem collect_spares_live env k s st :
  ipc_wf k → live k s → k_states k !! s = Some st →
  let k' := collect_orphaned_channels env k in
  s ∈ k_registry k' ∧ ∃ st', k_states k' !! s = Some st' ∧ cs_queues st' = cs_queues st ∧
    ∀ p, p ∈ all_ptrs st → k_heap k' !! p = k_heap k !! p ∧ is_Some (k_heap k' !! p).
Proof.
  intros Hwf Hlive Hs k'.
  destruct (intact_collect s (contents st) (k_heap k) env k Hwf Hlive) as (Hr & st' & Hs' & [= Hq _ _ _ _ _] & Hp).
  { split; [by apply live_registered|]. by exists st. }
  split; [done|]. exists st'. split_and!; [done|done|]. intros p Hin.
  assert (all_ptrs st' = all_ptrs st) as Heq by (unfold all_ptrs, queue_of; by rewrite Hq).
  rewrite Heq in Hp. fold k' in Hp. rewrite Hp by done. split; [done|].
  by apply (all_ptrs_stored st (k_heap k) p (iw_channels k Hwf s st Hs)).
Qed.

(** ** What the sweeps reclaim *)

Section at_state.
Variables (s : Z) (P : list msg_queue → bool → Prop).

(** A property of the queues of [s] and of whether it can be reaped. *)
Definition at_state (k : ipc) : Prop :=
  ∃ st, k_states k !! s = Some st ∧ P (cs_queues st) (can_reap st).

Definition quiet (f : channel_state → channel_state) : Prop :=
  ∀ st, cs_queues (f st) = cs_queues st ∧ can_reap (f st) = can_reap st.

Lemma at_update k s' f : quiet f → at_state k → at_state (update_state s' f k).
Proof.
  intros Hf (st & Hs & HP). unfold at_state, update_state. cbn [k_states with_states].
  destruct (decide (s' = s)) as [->|Hne]; [|exists st; by rewrite lookup_alter_ne].
  exists (f st). rewrite lookup_alter_eq, Hs. destruct (Hf st) as [-> ->]. done.
Qed.

Lemma quiet_release side o : quiet (λ st, endpoint_hook side st (Release o in_transit)).
Proof. intros st. simpl. unfold capability_released. by destruct (1 <? side). Qed.

Lemma at_destroy k (o : Z) : at_state k → at_state (destroy_endpoint k o).
Proof.
  intros Hk. unfold destroy_endpoint. destruct (k_endpoints k !! o) as [[s' side]|]; [|done].
  apply at_update; [by intros st|done].
Qed.

Lemma at_release k (o : Z) : at_state k → at_state (run_hook k (Release o in_transit)).
Proof.
  intros Hk. unfold run_hook.
  destruct (k_endpoints k !! event_object (Release o in_transit)) as [[s' side]|]; [|done].
  apply at_update; [apply quiet_release|done].
Qed.

Lemma at_drop_resource env k r : at_state k → at_state (drop_resource env k r).
Proof.
  intros Hk. unfold drop_resource, release_transit. destruct (t_in_transit r); cbn [negb snd].
  - destruct (t_object r) as [o|]; [|done]. apply (at_release k o) in Hk.
    destruct (gc_last env o); [by apply at_destroy|done].
  - destruct (t_object r) as [o|]; [|done]. destruct (gc_last env o); [by apply at_destroy|done].
Qed.

Lemma at_drop_messages env k ps : at_state k → at_state (foldl (drop_message env) k ps).
Proof.
  revert k. induction ps as [|p ps IH]; intros k Hk; [done|]. apply IH. unfold drop_message.
  assert (∀ rs k, at_state k → at_state (foldl (drop_resource env) k rs)) as Hd.
  { induction rs as [|r rs IHr]; intros k' Hk'; [done|]. by apply IHr, at_drop_resource. }
  by apply (Hd _ k).
Qed.

Lemma at_put k s' st' : s' ≠ s → at_state k → at_state (put_state s' st' k).
Proof.
  intros Hne (st & Hs & HP). exists st. unfold put_state, update_state. cbn [k_states with_states].
  by rewrite lookup_alter_ne.
Qed.

Lemma at_sweep_messages env k sm : sm.1 ≠ s → at_state k → at_state (sweep_messages env k sm).
Proof.
  intros Hne Hk. unfold sweep_messages, discard_state. destruct (_ && _); [|done].
  destruct (discard_orphan_messages _ _ _ _) as [[[st' g'] ps]|]; [|done]. apply at_drop_messages.
  by apply (at_put k sm.1 st') in Hk.
Qed.

Lemma at_sweeps_messages env k l : s ∉ l.*1 → at_state k → at_state (foldl (sweep_messages env) k l).
Proof.
  revert k. induction l as [|sm l IH]; intros k Hl Hk; [done|]. csimpl in Hl. apply not_elem_of_cons in Hl as [Hne Hl].
  apply IH; [done|]. by apply at_sweep_messages.
Qed.
End at_state.

Definition reapable (qs : list msg_queue) (b : bool) : Prop := b = true.
Definition drained (qs : list msg_queue) (b : bool) : Prop := b = true ∧ concat (ptrs <$> qs) = [].

Lemma all_ptrs_concat st h : channel_wf st h → all_ptrs st = concat (ptrs <$> cs_queues st).
Proof.
  intros Hwf. destruct (cw_sides st h Hwf) as (Hl & _). unfold all_ptrs, queue_of.
  destruct (cs_queues st) as [|q0 [|q1 [|q2 qs]]]; try done. cbn. by rewrite app_nil_r.
Qed.

(** The first sweep drains a state it does not keep. *)
Lemma sweep_messages_drains env k s :
  ipc_wf k → gc_discard_ok env s = true → at_state s reapable k →
  at_state s drained (sweep_messages env k (s, false)).
Proof.
  intros Hwf Hok (st & Hs & Hreap). unfold reapable in Hreap. unfold sweep_messages. cbn [fst snd negb andb].
  unfold discard_state. rewrite (state_at_present k s st Hs), Hreap. pose proof (can_reap_claims st Hreap) as Hcl.
  destruct (discard_orphan_messages_ok (others k s) st (k_globals k) (k_heap k)) as (st1 & g' & Hd & Hco & Hnil & Heq);
    [by apply (iw_channels k Hwf s)|by apply others_accounts|apply Hwf|by apply others_within with st|done|].
  rewrite Hok, Hd. apply at_drop_messages. exists st1. rewrite (put_state_present k s st) by done.
  cbn [k_states with_states with_globals notify_channel_waiters]. rewrite lookup_insert_eq. split; [done|]. split.
  - rewrite Heq. exact Hreap.
  - rewrite <- (all_ptrs_concat st1 _ (co_wf _ _ _ _ _ _ Hco)). exact Hnil.
Qed.

Lemma sweeps_drain env k l :
  ipc_wf k → (∀ s, gc_discard_ok env s = true) → NoDup l.*1 → (∀ s, (s, false) ∈ l → at_state s reapable k) →
  ∀ s, (s, false) ∈ l → at_state s drained (foldl (sweep_messages env) k l).
Proof.
  intros Hwf Hok. revert k Hwf. induction l as [|sm l IH]; intros k Hwf Hnd Hr s Hs; [by apply elem_of_nil in Hs|].
  csimpl in Hnd. apply NoDup_cons in Hnd as [Hnin Hnd]. cbn [foldl]. apply elem_of_cons in Hs as [<-|Hs].
  - apply at_sweeps_messages; [done|]. apply sweep_messages_drains; [done..|]. apply Hr. by left.
  - apply IH; [by apply sweep_messages_wf|done| |done]. intros s' Hs'.
    apply at_sweep_messages; [|apply Hr; by right]. intros Heq. apply Hnin.
    apply list_elem_of_fmap. by exists (s', false).
Qed.

(** The second sweep deletes a drained state unless an endpoint of it exists. *)
Lemma sweep_state_drained env k s st :
  ipc_wf k → k_states k !! s = Some st → can_reap st = true → all_ptrs st = [] →
  sweep_state env k (s, false) =
  if endpoint_objects st =? 0 then forget s (with_globals (others k s) (unregister_state s k)) else k.
Proof.
  intros Hwf Hs Hreap Hnil. unfold sweep_state. cbn [fst snd orb].
  rewrite (state_at_present k s st Hs), Hreap. cbn [negb orb]. destruct (endpoint_objects st =? 0); [|done]. cbn [negb].
  change (k_globals (unregister_state s k)) with (k_globals k). change (k_heap (unregister_state s k)) with (k_heap k).
  apply can_reap_claims in Hreap.
  rewrite (destroy_channel_ok (others k s) st); try done;
    [|by apply (iw_channels k Hwf s)|by apply others_accounts|apply Hwf|by apply others_within with st].
  by rewrite Hnil.
Qed.

Definition reclaimed (s : Z) (k : ipc) : Prop :=
  (k_states k !! s = None ∧ s ∉ k_registry k) ∨
  ∃ st, k_states k !! s = Some st ∧ endpoint_objects st ≠ 0 ∧ all_ptrs st = [].

Lemma sweeps_reclaim env k l :
  ipc_wf k → NoDup l.*1 → (∀ s, (s, false) ∈ l → at_state s drained k) →
  let k' := foldl (sweep_state env) k l in
  (∀ s, s ∉ l.*1 → k_states k' !! s = k_states k !! s) ∧ k_registry k' ⊆ k_registry k ∧
  ∀ s, (s, false) ∈ l → reclaimed s k'.
Proof.
  revert k. induction l as [|[s b] l IH]; intros k Hwf Hnd Hd.
  { split_and!; [done|done|]. intros s Hs. by apply elem_of_nil in Hs. }
  csimpl in Hnd. apply NoDup_cons in Hnd as [Hnin Hnd]. cbn [foldl]. set (k1 := sweep_state env k (s, b)).
  assert ((∀ s', s' ≠ s → k_states k1 !! s' = k_states k !! s') ∧ k_registry k1 ⊆ k_registry k ∧
    (b = false → reclaimed s k1)) as (Hst & Hreg & Hrec).
  { destruct b; [done|]. destruct (Hd s ltac:(left)) as (st & Hs & Hreap & Hnil).
    rewrite <- (all_ptrs_concat st _ (iw_channels k Hwf s st Hs)) in Hnil.
    unfold k1. rewrite (sweep_state_drained env k s st) by done. destruct (Z.eqb_spec (endpoint_objects st) 0) as [|Ho].
    - cbn [forget k_states k_registry with_states with_globals unregister_state with_registry]. split_and!.
      + intros s' Hne. by rewrite lookup_delete_ne.
      + apply sublist_subseteq, remove_first_sublist.
      + intros _. left. cbn. split; [apply lookup_delete_eq|apply remove_first_nodup, Hwf].
    - split_and!; [done|done|]. intros _. right. by exists st. }
  destruct (IH k1) as (Hst2 & Hreg2 & Hrec2); [by apply sweep_state_wf|done| |].
  { intros s' Hs'. destruct (Hd s' ltac:(by right)) as (st & Hs & HP). exists st. rewrite Hst; [done|].
    intros ->. apply Hnin. apply list_elem_of_fmap. by exists (s, false). }
  split_and!.
  - csimpl. intros s' [Hne Hn]%not_elem_of_cons. rewrite Hst2 by done. by apply Hst.
  - by transitivity (k_registry k1).
  - intros s' [[= -> <-]|Hs']%elem_of_cons; [|by apply Hrec2].
    destruct (Hrec eq_refl) as [[Hn Hr]|(st & Hs & Hrest)].
    + left. rewrite Hst2 by done. split; [done|]. intros Hin. by apply Hr, Hreg2.
    + right. exists st. by rewrite Hst2.
Qed.

(** C29: Orphaned channels are reclaimed.  One collection (whose allocations
    succeed) drains the queues of every registered channel that is not live
    and deletes and unregisters it, unless an endpoint object of it still
    exists outside the drained messages; cycles of channels that only hold
    each other's endpoints are no exception. *)
Theorem collect_reclaims_orphans env k s :
  ipc_wf k → gc_marks_ok env = true → (∀ s, gc_discard_ok env s = true) →
  s ∈ k_registry k → ¬ live k s → reclaimed s (collect_orphaned_channels env k).
Proof.
  intros Hwf Hm Hd Hin Hlive. unfold collect_orphaned_channels. rewrite Hm. cbn [negb].
  destruct (mark_phase_marks k (iw_registry k Hwf)) as (work & Hmk & Hw).
  set (l := zip (k_registry k) (mark_phase k (k_registry k))).
  assert (l.*1 = k_registry k) as Hl by (apply fst_zip; rewrite (mk_length _ _ _ Hmk); lia).
  assert (∀ s' b, (s', b) ∈ l ↔ ∃ i, k_registry k !! i = Some s' ∧ mark_phase k (k_registry k) !! i = Some b) as Hlb.
  { intros s' b. unfold l. rewrite list_elem_of_lookup. split.
    - intros (i & (s2 & b2 & [= <- <-] & H1 & H2)%lookup_zip_with_Some). by exists i.
    - intros (i & H1 & H2). exists i. apply lookup_zip_with_Some. by exists s', b. }
  assert (NoDup l.*1) as Hnd by (rewrite Hl; apply Hwf).
  assert ((s, false) ∈ l) as Hs.
  { apply list_elem_of_lookup in Hin as [i Hi]. apply Hlb. exists i. split; [done|].
    assert (i < length (mark_phase k (k_registry k)))%nat as Hi'
      by (rewrite (mk_length _ _ _ Hmk); by eapply lookup_lt_Some).
    destruct (lookup_lt_is_Some_2 _ _ Hi') as [[] Hb]; [|done]. exfalso. apply Hlive, Hw, (mk_work _ _ _ Hmk). by exists i. }
  apply sweeps_reclaim; [|done| |done].
  - clearbody l. clear -Hwf. revert k Hwf. induction l as [|sm l IH]; intros k Hwf; [done|]. by apply IH, sweep_messages_wf.
  - intros s' Hs'. apply sweeps_drain; [done..| |done]. clear Hs'. intros s1 (i & H1 & H2)%Hlb.
    destruct (iw_registered k Hwf s1) as [st Hst]; [by eapply list_elem_of_lookup_2|]. exists st. split; [done|].
    unfold reapable. destruct (can_reap st) eqn:Hreap; [done|]. exfalso.
    assert (live k s1) as Hl1.
    { exists s1. split; [|done]. split; [by eapply list_elem_of_lookup_2|]. unfold is_gc_root.
      rewrite (state_at_present k s1 st Hst), Hreap. by rewrite orb_true_r. }
    apply Hw, (mk_work _ _ _ Hmk) in Hl1 as (j & Hj & Hmj).
    rewrite (NoDup_lookup _ i j s1 (iw_registry k Hwf) H1 Hj) in H2. congruence.
Qed.

(** ** Concrete collections *)

Lemma mark_phase_exact_witness : live channel_k3 10.
Proof.
  refine (proj1 (mark_phase_exact channel_k3 0 10 _ _) _); [|vm_compute; reflexivity..].
  exact (iw_registry _ (ipc_calls_wf _ _ channel_k3_reachable)).
Defined.

Lemma collect_spares_live_witness :
  k_heap (collect_orphaned_channels channel_gc channel_k3) !! 500 = k_heap channel_k3 !! 500.
Proof.
  destruct (collect_spares_live channel_gc channel_k3 10 (state_at channel_k3 10)
    (ipc_calls_wf _ _ channel_k3_reachable)) as (_ & st' & _ & _ & Hp).
  - exists 10. split; [split; [apply list_elem_of_singleton; vm_compute; reflexivity|vm_compute; reflexivity]|apply rtc_refl].
  - vm_compute. reflexivity.
  - apply (Hp 500). vm_compute. left.
Defined.

(** End 101 travels in the queue of its own channel and end 100 is closed. *)
Definition cycle_send_env : send_env :=
  Build_send_env STATUS_OK (Build_send_frame 56 0 0 0 8192 1 0 0) 500 true true true STATUS_OK [] true
    [(STATUS_OK, Build_disposition 2 RESOURCE_MOVE 0 0 0)] true.
Definition cycle_k1 : ipc := (send_raw_channel channel_unique channel_k2 channel_table 1 16384 cycle_send_env channel_gc).1.2.
Definition cycle_k2 : ipc := destroy_endpoint (run_hooks cycle_k1 [Release 100 table_root]) 100.

Lemma cycle_k2_orphaned : k_registry cycle_k2 = [10] ∧ is_gc_root (state_at cycle_k2 10) = false ∧
  ptrs (queue_of (state_at cycle_k2 10) 1) = [500] ∧ endpoint_objects (state_at cycle_k2 10) = 1.
Proof. vm_compute. split_and!; reflexivity. Qed.

Lemma collect_reclaims_orphans_witness : k_states (collect_orphaned_channels channel_gc cycle_k2) !! 10 = None.
Proof.
  destruct cycle_k2_orphaned as (Hreg & Hroot & _).
  assert (ipc_calls (M := gmap Z entry) channel_unique initial_ipc cycle_k2) as Hcalls.
  { apply (calls_cons _ _ (run_hooks cycle_k1 [Release 100 table_root])); [|apply call_drop_endpoint].
    apply (calls_cons _ _ cycle_k1); [|apply call_hooks]. apply (calls_cons _ _ channel_k2); [exact channel_k2_reachable|].
    apply call_send; [split; [discriminate|vm_compute; reflexivity]|vm_compute; discriminate]. }
  destruct (collect_reclaims_orphans channel_gc cycle_k2 10 (ipc_calls_wf _ _ Hcalls)) as [[Hn _]|(st & Hst & Ho & _)].
  - reflexivity.
  - intros s. reflexivity.
  - rewrite Hreg. left.
  - intros (r & [Hr Hg] & _). rewrite Hreg in Hr. apply list_elem_of_singleton in Hr as ->. by rewrite Hroot in Hg.
  - exact Hn.
  - vm_compute in Hst. discriminate Hst.
Defined.
