(* ===== verification/ChannelWait.v ===== *)
(** Waiting for signals, src/kernel/ipc/channel.cc: [wait_condition],
    [wait_many] and [wait_for_signal], and the handle close of
    src/kernel/syscall/channel.cc that changes signals.

    A waiting thread sees the kernel at a sequence of moments (a [look]: its
    table, the channels, the clock).  [do_wait] returns only once the wait
    generation differs from the one loaded before the last evaluation, so in a
    history of looks the loop re-evaluates its condition exactly at those with
    a new generation; [None] is a thread that is still asleep at the end of
    the history. *)
From stdpp Require Import base list numbers gmap.
From S2P Require Import Prelude Abi Usercopy BoundedQueue Capability ResourceTable.
From S2P Require Import Channel ChannelFacts ChannelSystem ChannelMachine.

Local Open Scope Z_scope.
Set Default Proof Using "Type".

(** [na_wait_item_t]; [sizeof] it is 24. *)
Record wait_item : Type := Build_wait_item {
  wi_handle : Z;
  wi_signals : Z;
  wi_observed : Z;
}.
Definition wait_item_sizeof : Z := 24.

(** The condition looks at the items in order and stops at the first hit. *)
Fixpoint wait_condition (native_signals : Z → Z) (items : list wait_item) : bool * list wait_item :=
  match items with
  | [] => (false, [])
  | item :: items' =>
    let observed := native_signals (wi_handle item) in
    let item' := Build_wait_item (wi_handle item) (wi_signals item) observed in
    if negb (Z.land observed (wi_signals item) =? 0) then (true, item' :: items')
    else let '(hit, rest) := wait_condition native_signals items' in (hit, item' :: rest)
  end.

Section wait.
Context {M : Type} `{HandleMap M}.
(** The signals of the objects that are not channel ends. *)
Variable other_signals : Z → Z.

Record look : Type := Build_look {
  lk_table : resource_table M;
  lk_ipc : ipc;
  lk_now : Z;
}.

Definition capability_signals (k : ipc) (o : Z) : Z :=
  match k_endpoints k !! o with
  | Some (s, side) => signals (state_at k s) side
  | None => other_signals o
  end.

Definition signals_at (l : look) (handle : Z) : Z :=
  native_signals (capability_signals (lk_ipc l)) (lk_table l) handle.

(** The loop of [wait_many] with a deadline, and of both calls without one. *)
Fixpoint wait_loop (deadline : option Z) (seen : option Z) (items : list wait_item) (history : list look)
    : option (list wait_item) :=
  match history with
  | [] => None
  | l :: history' =>
    let generation := k_generation (lk_ipc l) in
    if decide (seen = Some generation) then wait_loop deadline seen items history'
    else
      let '(hit, items') := wait_condition (signals_at l) items in
      if hit then Some items'
      else if match deadline with Some d => d <=? lk_now l | None => false end then Some items'
      else wait_loop deadline (Some generation) items' history'
  end.

Definition no_deadline : Z := 2 ^ 64 - 1.

(** The checks on one item of the copied array. *)
Fixpoint check_items (t : resource_table M) (items : list wait_item) : option na_status :=
  match items with
  | [] => None
  | item :: items' =>
    match lookup_native t (wi_handle item) with
    | None => Some INVALID_HANDLE
    | Some e =>
      if wi_signals item =? 0 then Some INVALID_HANDLE
      else if Z.land (m_meta_rights (e_meta e)) RIGHT_WAIT =? 0 then Some ACCESS_DENIED
      else check_items t items'
    end
  end.

(** [wait_many] on [count] items at [address]: [copied] is the array with the
    status of its copy, [first] the state at the call, [history] what the
    thread sees while it waits and [last] the state after the loop. *)
Definition wait_many (address count : Z) (alloc_ok : bool) (copied : na_status * list wait_item) (deadline : Z)
    (waiters_ok : bool) (first : look) (history : list look) (last : look) (written : na_status)
    : option (na_status * list wait_item) :=
  let finish items := Some (if status_ok written then STATUS_OK else FAULT, items) in
  if (count =? 0) || (CAPABILITY_MAX_PER_PROCESS <? count) || (address =? 0)
     || negb (is_user_space_range address (u64 (count * wait_item_sizeof)))
  then Some (INVALID_ARGUMENT, [])
  else if negb alloc_ok then Some (RESOURCE_EXHAUSTED, [])
  else if negb (status_ok copied.1) then Some (copied.1, [])
  else match check_items (lk_table first) copied.2 with
  | Some status => Some (status, [])
  | None =>
    let '(hit, items) := wait_condition (signals_at first) copied.2 in
    if hit then finish items
    else if deadline =? 0 then Some (WOULD_BLOCK, items)
    else if negb (deadline =? no_deadline) then
      if deadline <=? lk_now first then Some (WAIT_TIMED_OUT, items)
      else if negb waiters_ok then Some (RESOURCE_EXHAUSTED, items)
      else match wait_loop (Some deadline) None items history with
      | None => None
      | Some items1 =>
        let '(hit', items2) := wait_condition (signals_at last) items1 in
        if negb hit' && (deadline <=? lk_now last) then Some (WAIT_TIMED_OUT, items2) else finish items2
      end
    else if negb waiters_ok then Some (RESOURCE_EXHAUSTED, items)
    else match wait_loop None None items history with
    | None => None
    | Some items1 => finish items1
    end
  end.

(** [wait_for_signal]: its loop does not look at the deadline. *)
Definition wait_for_signal (handle wanted : Z) (alloc_ok : bool) (deadline : Z) (waiters_ok : bool)
    (first : look) (history : list look) (last : look) : option na_status :=
  if (handle =? HANDLE_INVALID) || (wanted =? 0) then Some INVALID_ARGUMENT
  else match lookup_native (lk_table first) handle with
  | None => Some INVALID_HANDLE
  | Some e =>
    match e_object e with
    | None => Some INVALID_HANDLE
    | Some _ =>
      if Z.land (m_meta_rights (e_meta e)) RIGHT_WAIT =? 0 then Some ACCESS_DENIED
      else if negb alloc_ok then Some RESOURCE_EXHAUSTED
      else
        let '(hit, items) := wait_condition (signals_at first) [Build_wait_item handle wanted 0] in
        if hit then Some STATUS_OK
        else if deadline =? 0 then Some WOULD_BLOCK
        else if negb (deadline =? no_deadline) && (deadline <=? lk_now first) then Some WAIT_TIMED_OUT
        else if negb waiters_ok then Some RESOURCE_EXHAUSTED
        else match wait_loop None None items history with
        | None => None
        | Some items1 =>
          let '(hit', _) := wait_condition (signals_at last) items1 in
          if negb hit' && negb (deadline =? no_deadline) && (deadline <=? lk_now last)
          then Some WAIT_TIMED_OUT else Some STATUS_OK
        end
    end
  end.
End wait.

(** ** What the loops guarantee *)

(** Some item has one of its signals. *)
Definition ready (native_signals : Z → Z) (items : list wait_item) : bool :=
  existsb (λ item, negb (Z.land (native_signals (wi_handle item)) (wi_signals item) =? 0)) items.

Definition wanted (item : wait_item) : Z * Z := (wi_handle item, wi_signals item).

Lemma ready_wanted f items items' : wanted <$> items' = wanted <$> items → ready f items' = ready f items.
Proof.
  revert items'. induction items as [|i items IH]; intros [|i' items'] Hw; try done.
  cbn in Hw. injection Hw as Hh Hs Hw. cbn. rewrite Hh, Hs. f_equal. by apply IH.
Qed.

Lemma wait_condition_spec f items :
  (wait_condition f items).1 = ready f items ∧ wanted <$> (wait_condition f items).2 = wanted <$> items.
Proof.
  induction items as [|i items [IH1 IH2]]; [done|]. cbn [wait_condition]. cbn [ready existsb].
  destruct (negb _); [done|]. destruct (wait_condition f items) as [hit rest]. cbn [fst snd] in *.
  split; [done|]. rewrite !fmap_cons. f_equal. done.
Qed.

Section facts.
Context {M : Type} `{HandleMap M}.
Variable other_signals : Z → Z.
Abbreviation look := (look (M := M)).
Abbreviation sig := (signals_at other_signals).

Definition generation (l : look) : Z := k_generation (lk_ipc l).

(** Whatever makes an item ready moves the generation. *)
Definition notified (items : list wait_item) (history : list look) : Prop :=
  ∀ i l l', history !! i = Some l → history !! S i = Some l' →
    ready (sig l) items = false → ready (sig l') items = true → generation l' ≠ generation l.

Lemma notified_tail items l history : notified items (l :: history) → notified items history.
Proof. intros Hn i l1 l2 H1 H2. by apply (Hn (S i)). Qed.

(** The loop after a look that was not ready, with its generation loaded. *)
Lemma wait_loop_wakes deadline items items0 prev history l :
  wanted <$> items = wanted <$> items0 → notified items0 (prev :: history) →
  ready (sig prev) items0 = false → l ∈ history → ready (sig l) items0 = true →
  is_Some (wait_loop other_signals deadline (Some (generation prev)) items history).
Proof.
  revert items prev. induction history as [|l1 history IH]; intros items prev Hw Hn Hp Hin Hl;
    [by apply elem_of_nil in Hin|]. cbn [wait_loop]. pose proof (Hn 0%nat prev l1 eq_refl eq_refl Hp) as Hn1.
  apply notified_tail in Hn. destruct (ready (sig l1) items0) eqn:Hr.
  - rewrite decide_False by (intros [= Heq]; by apply Hn1). destruct (wait_condition_spec (sig l1) items) as [Hh _].
    rewrite (ready_wanted _ _ _ Hw), Hr in Hh. destruct (wait_condition (sig l1) items) as [hit items']. simpl in Hh. by subst hit.
  - apply elem_of_cons in Hin as [->|Hin]; [congruence|]. case_decide as Hg.
    + injection Hg as Hg. fold (generation l1) in Hg. rewrite Hg. by apply IH.
    + destruct (wait_condition_spec (sig l1) items) as [Hh Hk]. rewrite (ready_wanted _ _ _ Hw), Hr in Hh.
      destruct (wait_condition (sig l1) items) as [hit items']. simpl in Hh, Hk. subst hit.
      destruct deadline as [d|]; [destruct (d <=? lk_now l1); [by eexists|]|]; apply (IH items' l1); congruence || done.
Qed.

Lemma wait_loop_returns deadline items items0 history l :
  wanted <$> items = wanted <$> items0 → notified items0 history → l ∈ history → ready (sig l) items0 = true →
  is_Some (wait_loop other_signals deadline None items history).
Proof.
  intros Hw Hn Hin Hl. destruct history as [|l1 history]; [by apply elem_of_nil in Hin|]. cbn [wait_loop].
  rewrite decide_False by done. destruct (wait_condition_spec (sig l1) items) as [Hh Hk]. rewrite (ready_wanted _ _ _ Hw) in Hh.
  destruct (wait_condition (sig l1) items) as [hit items']. simpl in Hh, Hk. destruct hit; [by eexists|].
  apply elem_of_cons in Hin as [->|Hin]; [congruence|].
  destruct deadline as [d|]; [destruct (d <=? lk_now l1); [by eexists|]|];
    apply (wait_loop_wakes _ _ items0 l1 history l); congruence || done.
Qed.

(** A look past the deadline at a new generation ends the loop. *)
Lemma wait_loop_deadline d seen items pre l post :
  d ≤ lk_now l → (∀ l', l' ∈ pre → generation l' ≠ generation l) → seen ≠ Some (generation l) →
  is_Some (wait_loop other_signals (Some d) seen items (pre ++ l :: post)).
Proof.
  intros Hd. revert seen items. induction pre as [|l1 pre IH]; intros seen items Hg Hseen; cbn [app wait_loop].
  - rewrite decide_False by done. destruct (wait_condition _ items) as [[] items']; [by eexists|].
    rewrite (proj2 (Z.leb_le _ _) Hd). by eexists.
  - assert (∀ l', l' ∈ pre → generation l' ≠ generation l) as Hg' by (intros l' Hl'; apply Hg; by right).
    case_decide; [by apply IH|]. destruct (wait_condition _ items) as [[] items']; [by eexists|].
    destruct (d <=? lk_now l1); [by eexists|]. apply IH; [done|]. intros [= Heq]. by apply (Hg l1 ltac:(left)).
Qed.


(** A loop that returns saw a ready item or a moment past the deadline. *)
Lemma wait_loop_sound deadline seen items items0 history items1 :
  wanted <$> items = wanted <$> items0 → wait_loop other_signals deadline seen items history = Some items1 →
  wanted <$> items1 = wanted <$> items0 ∧
  ∃ l, l ∈ history ∧ (ready (sig l) items0 = true ∨ ∃ d, deadline = Some d ∧ d ≤ lk_now l).
Proof.
  revert seen items. induction history as [|l history IH]; intros seen items Hw Hl; cbn [wait_loop] in Hl; [done|].
  destruct (decide _) as [Hs|Hs].
  { destruct (IH seen items Hw Hl) as (Hw1 & l' & Hin & Hr). split; [done|]. exists l'. split; [by right|done]. }
  destruct (wait_condition_spec (sig l) items) as [Hh Hk]. rewrite (ready_wanted _ _ _ Hw) in Hh.
  destruct (wait_condition (sig l) items) as [hit items']. simpl in Hh, Hk.
  rewrite Hw in Hk. destruct hit.
  { simplify_eq. split; [done|]. exists l. split; [by left|by left]. }
  destruct deadline as [d|].
  - destruct (Z.leb_spec d (lk_now l)) as [Hd|Hd].
    { simplify_eq. split; [done|]. exists l. split; [by left|]. right. by exists d. }
    destruct (IH _ items' Hk Hl) as (Hw1 & l' & Hin & Hr). split; [done|]. exists l'. split; [by right|done].
  - destruct (IH _ items' Hk Hl) as (Hw1 & l' & Hin & Hr). split; [done|]. exists l'. split; [by right|done].
Qed.

(** A successful wait was signalled.  When [wait_many] returns OK on a
    clock that does not go back before its last reading, at some moment of the
    call one of the items had one of the signals it asked for. *)
Theorem wait_ok_means_signalled address count alloc_ok copied deadline waiters_ok first history last written items :
  (∀ l, l ∈ history → lk_now l ≤ lk_now last) →
  wait_many other_signals address count alloc_ok copied deadline waiters_ok first history last written =
    Some (STATUS_OK, items) →
  ∃ l, l ∈ first :: last :: history ∧ ready (sig l) copied.2 = true.
Proof.
  intros Hclock. unfold wait_many. destruct (_ || _); [done|]. destruct (negb alloc_ok); [done|].
  destruct (status_ok copied.1) eqn:Hst; cbn [negb]; [|intros [= Hc _]; by rewrite Hc in Hst].
  destruct (check_items _ _) as [status|] eqn:Hc.
  { intros [= -> _]. exfalso. revert Hc. generalize copied.2. intros l. induction l as [|i l IH]; [done|]. cbn.
    repeat case_match; intros; simplify_eq; by apply IH. }
  destruct (wait_condition_spec (sig first) copied.2) as [Hh Hw].
  destruct (wait_condition (sig first) copied.2) as [[] items0]; simpl in Hh, Hw; [exists first; split; [left|done]|].
  destruct (deadline =? 0); [done|]. destruct (Z.eqb_spec deadline no_deadline) as [Hd|Hd]; cbn [negb].
  - destruct (negb waiters_ok); [done|]. destruct (wait_loop _ None None items0 history) as [items1|] eqn:Hl; [|done].
    intros _. destruct (wait_loop_sound _ _ _ _ _ _ Hw Hl) as (_ & l & Hin & [Hr|(d & ? & _)]); [|done].
    exists l. split; [by right; right|done].
  - destruct (deadline <=? lk_now first); [done|]. destruct (negb waiters_ok); [done|].
    destruct (wait_loop _ (Some deadline) None items0 history) as [items1|] eqn:Hl; [|done].
    destruct (wait_loop_sound _ _ _ _ _ _ Hw Hl) as (Hw1 & l & Hin & Hr).
    destruct (wait_condition_spec (sig last) items1) as [Hh1 _]. rewrite (ready_wanted _ _ _ Hw1) in Hh1.
    destruct (wait_condition (sig last) items1) as [[] items2]; simpl in Hh1; [exists last; split; [right; left|done]|].
    destruct (Z.leb_spec deadline (lk_now last)) as [|Hlt]; [done|]. intros _.
    destruct Hr as [Hr|(d & [= <-] & Hd')]; [exists l; split; [by right; right|done]|].
    specialize (Hclock l Hin). lia.
Qed.

(** The deadline of [wait_for_signal] has no effect once the call sleeps:
    as long as the wanted signal is not seen it does not return, whatever the
    clock says and however often the thread is woken, while a call that is
    past its deadline at entry times out. *)
Theorem wait_for_signal_ignores_deadline handle signals alloc_ok deadline waiters_ok first history last e o :
  handle ≠ HANDLE_INVALID → signals ≠ 0 → lookup_native (lk_table first) handle = Some e → e_object e = Some o →
  Z.land (m_meta_rights (e_meta e)) RIGHT_WAIT ≠ 0 → alloc_ok = true → waiters_ok = true →
  0 < deadline → lk_now first < deadline →
  (∀ l, l ∈ first :: history → Z.land (sig l handle) signals = 0) →
  wait_for_signal other_signals handle signals alloc_ok deadline waiters_ok first history last = None.
Proof.
  intros Hh Hs Hl Ho Hr -> -> Hd Hnow Hsig. unfold wait_for_signal.
  rewrite (proj2 (Z.eqb_neq _ _) Hh), (proj2 (Z.eqb_neq _ _) Hs), Hl, Ho, (proj2 (Z.eqb_neq _ _) Hr). cbn [orb negb].
  pose proof (Hsig first ltac:(left)) as H1. cbn [wait_condition wi_handle wi_signals]. rewrite H1. cbn [Z.eqb negb].
  rewrite (proj2 (Z.eqb_neq deadline 0)), (proj2 (Z.leb_gt _ _) Hnow), andb_false_r by lia.
  assert (∀ history seen obs, (∀ l, l ∈ history → Z.land (sig l handle) signals = 0) →
    wait_loop other_signals None seen [Build_wait_item handle signals obs] history = None) as ->; [|done|].
  2: { intros l Hin. apply Hsig. by right. }
  clear. induction history as [|l history IH]; intros seen obs Hsig; [done|]. cbn [wait_loop].
  assert (∀ l, l ∈ history → Z.land (sig l handle) signals = 0) as Ht by (intros l' Hl'; apply Hsig; by right).
  case_decide; [by apply IH|]. cbn [wait_condition wi_handle wi_signals]. rewrite (Hsig l) by left. cbn. by apply IH.
Qed.

(** A sleeping thread looks again only at a new generation. *)
Lemma wait_loop_sleeps deadline g items history :
  (∀ l, l ∈ history → generation l = g) → wait_loop other_signals deadline (Some g) items history = None.
Proof.
  induction history as [|l history IH]; intros Hg; [done|]. cbn [wait_loop].
  rewrite decide_True; [apply IH; intros l' Hl'; apply Hg; by right|]. f_equal. symmetry. apply Hg. left.
Qed.

Lemma wait_many_sleeps address count copied first l0 history last written :
  (count =? 0) || (CAPABILITY_MAX_PER_PROCESS <? count) || (address =? 0)
    || negb (is_user_space_range address (u64 (count * wait_item_sizeof))) = false →
  copied.1 = STATUS_OK → check_items (lk_table first) copied.2 = None →
  ready (sig first) copied.2 = false → ready (sig l0) copied.2 = false →
  (∀ l, l ∈ history → generation l = generation l0) →
  wait_many other_signals address count true copied no_deadline true first (l0 :: history) last written = None.
Proof.
  intros Hg Hc Hi Hf Hl Hh. unfold wait_many. rewrite Hg, Hc, Hi. change (status_ok STATUS_OK) with true. cbn [negb].
  destruct (wait_condition_spec (sig first) copied.2) as [Hh1 Hw1]. rewrite Hf in Hh1.
  destruct (wait_condition (sig first) copied.2) as [hit items]. simpl in Hh1, Hw1. subst hit. cbn [Z.eqb no_deadline negb].
  change (no_deadline =? 0) with false. rewrite Z.eqb_refl. cbn [negb wait_loop]. rewrite decide_False by done.
  destruct (wait_condition_spec (sig l0) items) as [Hh2 _]. rewrite (ready_wanted _ _ _ Hw1), Hl in Hh2.
  destruct (wait_condition (sig l0) items) as [hit items']. simpl in Hh2. subst hit.
  by rewrite (wait_loop_sleeps None (generation l0)).
Qed.
End facts.

(** ** Signals and the calls they announce *)

Lemma signals_bits st side :
  cs_valid st = true → 0 ≤ side ≤ 1 →
  has_flag (signals st side) SIGNAL_READABLE = negb (queue_empty (q_fifo (queue_of st side))) ∧
  has_flag (signals st side) SIGNAL_WRITABLE =
    (negb (owners st (1 - side) =? 0) && negb (queue_full (q_fifo (queue_of st (1 - side))))
     && (q_bytes (queue_of st (1 - side)) <? max_bytes st) && (q_resources (queue_of st (1 - side)) <? max_resources st)) ∧
  has_flag (signals st side) SIGNAL_PEER_CLOSED = (owners st (1 - side) =? 0).
Proof.
  intros Hv Hs. unfold signals. rewrite Hv, (proj2 (Z.ltb_ge 1 side)) by lia. cbn [negb orb].
  destruct (queue_empty _), (_ && (q_resources _ <? _)), (owners st (1 - side) =? 0); done.
Qed.

(** The signals of an end announce what its calls do.  READABLE is set
    exactly when a message is queued, and then an unclaimed queue hands out
    its oldest message; when it is clear a receive reports PEER_CLOSED if that
    signal is set and WOULD_BLOCK otherwise.  PEER_CLOSED is set exactly when
    sends report PEER_CLOSED; WRITABLE means that, global budget permitting, a
    one-byte message without resources is queued. *)
Theorem signals_announce_calls st g h side p m :
  channel_wf st h → within g → cs_valid st = true → 0 ≤ side ≤ 1 →
  let sg := signals st side in
  (has_flag sg SIGNAL_READABLE = true → is_claimed (q_fifo (queue_of st side)) = false →
     ∃ rest st', ptrs (queue_of st side) = (claim_receive st side).1.2 :: rest ∧
       claim_receive st side = (STATUS_OK, (claim_receive st side).1.2, st')) ∧
  (has_flag sg SIGNAL_READABLE = false → ptrs (queue_of st side) = [] ∧
     claim_receive st side = (if has_flag sg SIGNAL_PEER_CLOSED then PEER_CLOSED else WOULD_BLOCK, null, st)) ∧
  (has_flag sg SIGNAL_PEER_CLOSED = true → ∀ rs, er_status (enqueue_locked st g side p m rs) = PEER_CLOSED) ∧
  (has_flag sg SIGNAL_WRITABLE = true → cm_byte_count m = 1 → cm_resources m = [] → 0 ≤ cm_resource_capacity m →
     reserve_global g 1 0 = (true, (reserve_global g 1 0).2) →
     sent st g side p m [] (enqueue_locked st g side p m [])).
Proof.
  intros Hwf Hg Hv Hs sg. destruct (signals_bits st side Hv Hs) as (Hr & Hw & Hp). fold sg in Hr, Hw, Hp.
  pose proof (cw_queues st h Hwf side Hs) as Hq. rewrite Hr, Hw, Hp. clear Hr Hw Hp.
  assert (negb (cs_valid st) || (1 <? side) = false) as Hguard by (rewrite Hv, (proj2 (Z.ltb_ge 1 side)) by lia; done).
  split_and!.
  - intros He%negb_true_iff Hc. unfold claim_receive. rewrite Hguard, He.
    destruct (claim_front (q_fifo (queue_of st side))) as [claimed fifo] eqn:Hcf.
    assert (claimed = true) as ->.
    { unfold claim_front in Hcf. unfold queue_empty in He. unfold is_claimed in Hc. rewrite He, Hc in Hcf.
      by injection Hcf. }
    destruct (claim_ok _ _ _ _ _ fifo Hq Hcf) as (_ & _ & _ & _ & _ & rest & Hrest). cbn [negb fst snd].
    by eexists rest, _.
  - intros He%negb_false_iff. unfold claim_receive. rewrite Hguard, He. split; [|done].
    apply (ptrs_nil _ _ _ _ _ Hq). by apply Z.eqb_eq in He.
  - intros Ho rs. unfold enqueue_locked. by rewrite Ho.
  - intros Hw Hb He Hcap Hres. rewrite !andb_true_iff, !negb_true_iff in Hw. destruct Hw as (((Ho & Hf) & Hqb) & Hqr).
    apply Z.ltb_lt in Hqb, Hqr. destruct (limits_small st h Hwf) as (Hmb & Hmr & _).
    pose proof (queue_ok_nonneg _ _ _ _ _ (cw_queues st h Hwf (1 - side) ltac:(lia))) as [Hb0 Hr0].
    assert (sendable st side m []) as Hsend by (split; [lia|lia|simpl; lia|done|done]).
    destruct (enqueue_locked_spec st g h side p m [] Hwf Hg ltac:(lia) ltac:(lia) Hsend) as [Href|Hsent]; [exfalso|done].
    apply refused_status in Href. revert Href. unfold enqueue_locked. rewrite Ho, Hf, Hb. cbn [orb length].
    change (Z.of_nat 0) with 0. rewrite Hres, !u64_small, !(proj2 (Z.ltb_ge _ _)) by lia. cbn [orb negb append_loop].
    destruct (not_full_push _ p (qo_fifo _ _ _ _ _ (cw_queues st h Hwf (1 - side) ltac:(lia))) Hf) as [fifo ->]. done.
Qed.

(** ** The concrete channel *)

Lemma signals_announce_calls_witness :
  ∃ st', claim_receive (state_at channel_k3 10) 1 = (STATUS_OK, 500, st').
Proof.
  pose proof (ipc_calls_wf _ _ channel_k3_reachable) as Hk.
  destruct (signals_announce_calls (state_at channel_k3 10) (k_globals channel_k3) (k_heap channel_k3) 1 600
    (make_message 1 0 true true) (iw_channels _ Hk 10 _ ltac:(vm_compute; reflexivity)) (iw_within _ Hk)
    ltac:(vm_compute; reflexivity) ltac:(lia)) as [Hr _].
  destruct Hr as (rest & st' & _ & Hc); [vm_compute; reflexivity..|]. exists st'.
  change 500 with (claim_receive (state_at channel_k3 10) 1).1.2. exact Hc.
Defined.

(** The other end becomes readable when the message arrives. *)
Definition wait_items : list wait_item := [Build_wait_item 2 (Z.lor SIGNAL_READABLE SIGNAL_PEER_CLOSED) 0].
Definition look_at (k : ipc) (now : Z) : look (M := gmap Z entry) := Build_look channel_table k now.
Definition wait_history : list (look (M := gmap Z entry)) := [look_at channel_k2 1; look_at channel_k3 2].


Lemma wait_ok_means_signalled_witness :
  ∃ l, l ∈ look_at channel_k2 0 :: look_at channel_k3 3 :: wait_history ∧
    ready (signals_at (λ _, 0) l) wait_items = true.
Proof.
  apply (wait_ok_means_signalled (λ _, 0) 4096 1 true (STATUS_OK, wait_items) 100 true (look_at channel_k2 0)
           wait_history (look_at channel_k3 3) STATUS_OK
           [Build_wait_item 2 (Z.lor SIGNAL_READABLE SIGNAL_PEER_CLOSED) (Z.lor SIGNAL_READABLE SIGNAL_WRITABLE)]).
  - intros l [->|[->|Hl%elem_of_nil]%elem_of_cons]%elem_of_cons; [simpl; lia..|done].
  - vm_compute. reflexivity.
Defined.

Lemma wait_for_signal_ignores_deadline_witness :
  wait_for_signal (λ _, 0) 2 SIGNAL_READABLE true 5 true (look_at channel_k2 0) [look_at channel_k2 4; look_at channel_k1 50]
    (look_at channel_k2 60) = None.
Proof.
  eapply (wait_for_signal_ignores_deadline (λ _, 0) 2 SIGNAL_READABLE true 5 true (look_at channel_k2 0) _ _
           (Build_entry (Some 101) 2 active raw_meta) 101); try reflexivity; try (vm_compute; discriminate || reflexivity).
  intros l [->|[->|[->|Hl%elem_of_nil]%elem_of_cons]%elem_of_cons]%elem_of_cons; [vm_compute; reflexivity..|done].
Defined.
