(* ===== verification/HandleCalls.v ===== *)
(** The handle and channel system calls of src/kernel/syscall/channel.cc on
    top of the capability table and the raw channels: close, channel creation,
    the receive dispatch, waiting with a timespec deadline (includes/kernel/
    time.hpp) and handle inspection. *)
From stdpp Require Import base list numbers gmap.
From S2P Require Import Prelude Abi Usercopy BoundedQueue Capability ResourceTable ResourceFacts ResourceMachine.
From S2P Require Import Channel ChannelFacts ChannelSystem ChannelMachine ChannelTransfer ChannelWait.

Local Open Scope Z_scope.
Set Default Proof Using "Type".

(** ** Deadlines *)

Definition microseconds_per_second : Z := 1000000.

Record timespec : Type := Build_timespec {
  tv_sec : Z;
  tv_nsec : Z;
}.

(** The division of a non-negative 64-bit integer truncates. *)
Definition try_to_microseconds (value : timespec) : option Z :=
  if (tv_sec value <? 0) || (tv_nsec value <? 0) || (1000000000 <=? tv_nsec value) then None
  else
    let seconds := u64 (tv_sec value) in
    if (2 ^ 64 - 1) / microseconds_per_second <? seconds then None
    else
      let whole_seconds := u64 (seconds * microseconds_per_second) in
      let microseconds := u64 (tv_nsec value / 1000) in
      if u64 (2 ^ 64 - 1 - microseconds) <? whole_seconds then None
      else Some (u64 (whole_seconds + microseconds)).

(** The conversion of a timespec is exact or refused: for 64-bit seconds
    and nanoseconds it succeeds precisely on normalized non-negative times
    whose microseconds fit 64 bits, and returns them without wrapping. *)
Theorem try_to_microseconds_exact value us :
  -2 ^ 63 ≤ tv_sec value < 2 ^ 63 → -2 ^ 63 ≤ tv_nsec value < 2 ^ 63 →
  try_to_microseconds value = Some us ↔
  0 ≤ tv_sec value ∧ 0 ≤ tv_nsec value < 1000000000 ∧
  us = tv_sec value * 1000000 + tv_nsec value / 1000 ∧ us < 2 ^ 64.
Proof.
  intros Hs Hn. unfold try_to_microseconds, microseconds_per_second.
  destruct (Z.ltb_spec (tv_sec value) 0); [split; [done|lia]|].
  destruct (Z.ltb_spec (tv_nsec value) 0); [split; [done|lia]|].
  destruct (Z.leb_spec 1000000000 (tv_nsec value)); [split; [done|lia]|]. cbn [orb].
  assert (0 ≤ tv_nsec value / 1000 < 1000000) as Hq by (split; [apply Z.div_pos; lia|apply Z.div_lt_upper_bound; lia]).
  rewrite (u64_small (tv_sec value)), (u64_small (tv_nsec value / 1000)) by lia.
  change ((2 ^ 64 - 1) / 1000000) with 18446744073709. destruct (Z.ltb_spec 18446744073709 (tv_sec value)).
  { split; [done|]. lia. }
  rewrite (u64_small (tv_sec value * 1000000)), (u64_small (2 ^ 64 - 1 - tv_nsec value / 1000)) by lia.
  destruct (Z.ltb_spec (2 ^ 64 - 1 - tv_nsec value / 1000) (tv_sec value * 1000000)).
  { split; [done|]. lia. }
  rewrite u64_small by lia. split; [intros [= <-]; lia|]. intros (_ & _ & -> & _). done.
Qed.

Lemma try_to_microseconds_exact_witness : try_to_microseconds (Build_timespec 3 1999) = Some 3000001.
Proof. apply (try_to_microseconds_exact (Build_timespec 3 1999)); cbn; [lia|lia|]. split_and!; vm_compute; done. Defined.

(** ** The calls *)

Definition valid_output_handle (address : Z) : bool :=
  negb (address =? 0) && is_user_space_range address handle_sizeof.

(** [na_handle_info_t]. *)
Record handle_info : Type := Build_handle_info {
  hi_struct_size : Z;
  hi_binding : Z;
  hi_scope : Z;
  hi_revision : Z;
  hi_features : Z;
  hi_meta_rights : Z;
  hi_protocol_rights : Z;
  hi_signals : Z;
  hi_generation : Z;
  hi_object_state : Z;
  hi_protocol_uuid : list Z;
}.
Definition handle_info_sizeof : Z := 96.

Section calls.
Context {M : Type} `{HandleMap M}.
Abbreviation table := (resource_table M).

(** [close_native] with the hooks it runs and the reference it drops. *)
Definition close_entry (env : gc_env) (k : ipc) (t : table) (handle : Z) : na_status * ipc * table :=
  let '(status, ev, t') := close_native t handle in
  let k1 := run_hooks k ev in
  let k2 := match ev with
            | [Release o table_root] => if gc_last env o then destroy_endpoint k1 o else k1
            | _ => k1
            end in
  (status, k2, t').

Definition handle_close (env : gc_env) (k : ipc) (t : table) (handle : Z) : na_status * ipc * table :=
  let '(status, k', t') := close_entry env k t handle in
  if status_ok status then (status, collect_orphaned_channels env k', t') else (status, k', t').

(** The two endpoint objects go away with their only references. *)
Definition reset_pair (k : ipc) (left right : Z) : ipc := destroy_endpoint (destroy_endpoint k left) right.

(** The addresses of a creation (0 is null), the options with the status of
    their copy, the allocations and the statuses of the two copies out. *)
Record create_call : Type := Build_create_call {
  cc_options_address : Z;
  cc_options : na_status * channel_options;
  cc_left : Z;
  cc_right : Z;
  cc_create : create_env;
  cc_reserve_ok : bool;
  cc_write_left : na_status;
  cc_write_right : na_status;
}.

Definition channel_end_meta : metadata :=
  Build_metadata BINDING_RAW_CHANNEL_END (replicate 16 0) 0 0 0 (Z.lor RIGHT_TRANSFER RIGHT_WAIT) 0.

Definition channel_create (env : gc_env) (k : ipc) (t : table) (c : create_call)
    : na_status * (Z * Z) * ipc * table :=
  let none := (HANDLE_INVALID, HANDLE_INVALID) in
  let has_options := negb (cc_options_address c =? 0) in
  if negb (valid_output_handle (cc_left c)) || negb (valid_output_handle (cc_right c)) then (FAULT, none, k, t)
  else
    let '(status, ends, k1) :=
      create_raw_channel k (if has_options then Some (cc_options c) else None) (cc_create c) in
    match ends with
    | None => (status, none, k1, t)
    | Some (lo, ro) =>
      if (has_options && ranges_overlap (cc_options_address c) channel_options_sizeof (cc_left c) handle_sizeof)
         || (has_options && ranges_overlap (cc_options_address c) channel_options_sizeof (cc_right c) handle_sizeof)
         || ranges_overlap (cc_left c) handle_sizeof (cc_right c) handle_sizeof
      then (INVALID_ARGUMENT, none, collect_orphaned_channels env (reset_pair k1 lo ro), t)
      else
        let '(granted, handles, t1) := reserve_native t 2 (cc_reserve_ok c) in
        let h0 := zget handles 0 in
        let h1 := zget handles 1 in
        if negb (status_ok granted)
        then (granted, none, collect_orphaned_channels env (reset_pair k1 lo ro), t1)
        else
          let '(left_resource, ev0) := make_transferred (Some lo) channel_end_meta in
          let '(right_resource, ev1) := make_transferred (Some ro) channel_end_meta in
          let '(s0, left', ev2, t2) := activate_native t1 h0 left_resource in
          let '(s1, right', ev3, t3) :=
            if status_ok s0 then activate_native t2 h1 right_resource else (s0, right_resource, [], t2) in
          let k2 := run_hooks k1 (ev0 ++ ev1 ++ ev2 ++ ev3) in
          if negb (status_ok s1) then
            let '(_, k3, t4) := close_entry env k2 t3 h0 in
            (s1, none, drop_resource env (drop_resource env k3 right') left', rollback_native t4 handles)
          else
            let written := if status_ok (cc_write_left c) then cc_write_right c else cc_write_left c in
            if negb (status_ok written) then
              let '(_, k3, t4) := close_entry env k2 t3 h0 in
              let '(_, k4, t5) := close_entry env k3 t4 h1 in
              (written, none, k4, t5)
            else (written, (h0, h1), k2, t3)
    end.

(** [receive_protocol] is the receive of the server ends of ipc/invocation.cc. *)
Definition channel_receive (receive_protocol : ipc → table → Z → na_status * delivery * ipc * table)
    (k : ipc) (t : table) (endpoint address : Z) (e : receive_env) (env : gc_env)
    : na_status * delivery * ipc * table :=
  match lookup_native t endpoint with
  | Some (Build_entry (Some _) _ _ meta) =>
    if m_binding meta =? BINDING_SERVER_END then receive_protocol k t endpoint
    else if m_binding meta =? BINDING_RAW_CHANNEL_END then receive_raw_channel k t endpoint address e env
    else (WRONG_BINDING, nothing, k, t)
  | _ => (INVALID_HANDLE, nothing, k, t)
  end.

(** The deadline of the call: none for a null pointer. *)
Definition wait_deadline (address : Z) (copied : na_status * timespec) : na_status + Z :=
  if address =? 0 then inr no_deadline
  else if negb (is_user_space_range address 16) then inl FAULT
  else if negb (status_ok copied.1) then inl FAULT
  else match try_to_microseconds copied.2 with
       | None => inl INVALID_ARGUMENT
       | Some us => inr us
       end.

Definition handle_wait_many (other_signals : Z → Z) (address count deadline_address : Z)
    (deadline : na_status * timespec) (alloc_ok : bool) (copied : na_status * list wait_item) (waiters_ok : bool)
    (first : look (M := M)) (history : list (look (M := M))) (last : look (M := M)) (written : na_status)
    : option (na_status * list wait_item) :=
  match wait_deadline deadline_address deadline with
  | inl status => Some (status, [])
  | inr us => wait_many other_signals address count alloc_ok copied us waiters_ok first history last written
  end.

(** [object_signals] and [capability_state] are the virtual methods of the object. *)
Definition handle_get_info (object_signals capability_state : Z → Z) (t : table) (handle address : Z)
    (written : na_status) : na_status * option handle_info :=
  if (address =? 0) || negb (is_user_space_range address handle_info_sizeof) then (FAULT, None)
  else match lookup_native t handle with
  | Some (Build_entry (Some o) generation _ meta) =>
    if Z.land (m_meta_rights meta) RIGHT_INSPECT =? 0 then (ACCESS_DENIED, None)
    else (written, Some (Build_handle_info handle_info_sizeof (m_binding meta) (m_scope meta) (m_revision meta)
                           (m_features meta) (m_meta_rights meta) (m_protocol_rights meta) (object_signals o)
                           generation (capability_state o) (m_protocol_uuid meta)))
  | _ => (INVALID_HANDLE, None)
  end.
End calls.

Section facts.
Context {M : Type} `{HandleMapLaws M}.
Abbreviation table := (resource_table M).

Lemma close_entry_model env k (t : table) nodes h e :
  table_wf t nodes → model t !! h = Some e → e_state e = active →
  let '(status, k', t') := close_entry env k t h in
  status = STATUS_OK ∧ table_wf t' nodes ∧ model t' = delete h (model t).
Proof.
  intros Hwf Hm Ha. destruct (tw_entries t nodes Hwf h e Hm) as ([Hpos _] & _ & _).
  assert (h ≠ HANDLE_INVALID) as Hh by (unfold HANDLE_INVALID; lia). unfold close_entry, close_native.
  rewrite (proj2 (Z.eqb_neq _ _) Hh), (proj2 (lookup_native_spec t h e) (conj Hm Ha)).
  destruct (removed_wf t nodes h e Hwf Hm) as [Hwf' Hm']. done.
Qed.

Lemma create_raw_channel_ends k options e :
  match create_raw_channel k options e with
  | (status, Some (l, r), k') => status = STATUS_OK ∧ l = ce_left e ∧ r = ce_right e
  | (status, None, k') => status ≠ STATUS_OK
  end.
Proof.
  assert (∀ v, match create_raw_channel_with_options k v e with
    | (status, Some (l, r), k') => status = STATUS_OK ∧ l = ce_left e ∧ r = ce_right e
    | (status, None, k') => status ≠ STATUS_OK end) as Hv.
  { intros v. unfold create_raw_channel_with_options. by repeat case_match; simplify_eq. }
  unfold create_raw_channel. destruct options as [[status v]|]; [|apply Hv].
  destruct (status_ok status) eqn:Hs; cbn [negb]; [|by apply status_ok_false].
  destruct (negb (options_valid v)); [done|apply Hv].
Qed.

(** Two reserved handles are activated one after the other. *)
Lemma activate_pair nodes m0 (t : table) h0 h1 r0 r1 :
  table_wf t nodes → h0 ≠ h1 → reserving m0 [h0; h1] (model t) → is_Some (t_object r0) → is_Some (t_object r1) →
  ∃ r0' r1' ev0 ev1 t1 t2, activate_native t h0 r0 = (STATUS_OK, r0', ev0, t1) ∧
    activate_native t1 h1 r1 = (STATUS_OK, r1', ev1, t2) ∧ table_wf t2 nodes ∧
    model t2 = <[h1 := Build_entry (t_object r1) h1 active (t_meta r1)]>
                 (<[h0 := Build_entry (t_object r0) h0 active (t_meta r0)]> m0).
Proof.
  intros Hwf Hne [Hf Hm] [o0 Ho0] [o1 Ho1].
  pose proof (activate_reserved nodes t h0 r0 o0 Hwf) as H1. rewrite Hm, decide_True in H1 by left.
  specialize (H1 eq_refl Ho0). destruct (activate_native t h0 r0) as [[[s0 r0'] ev0] t1]. destruct H1 as (-> & Hwf1 & Hm1).
  pose proof (activate_reserved nodes t1 h1 r1 o1 Hwf1) as H2.
  rewrite Hm1, lookup_insert_ne, Hm, decide_True in H2 by (done || by right; left).
  specialize (H2 eq_refl Ho1). destruct (activate_native t1 h1 r1) as [[[s1 r1'] ev1] t2] eqn:He1. destruct H2 as (-> & Hwf2 & Hm2).
  exists r0', r1', ev0, ev1, t1, t2. split_and!; [done..|]. rewrite Hm2. apply map_eq. intros h.
  destruct (decide (h = h1)) as [->|Hn1]; [by rewrite !lookup_insert_eq|]. rewrite !(lookup_insert_ne _ h1) by done.
  destruct (decide (h = h0)) as [->|Hn0]; [by rewrite !lookup_insert_eq|]. rewrite !lookup_insert_ne by done.
  rewrite Hm, decide_False; [done|]. rewrite !not_elem_of_cons. split_and!; [done|done|apply not_elem_of_nil].
Qed.

(** Closing the two restores the table. *)
Lemma close_pair env k (t : table) nodes h0 h1 e0 e1 m0 :
  table_wf t nodes → h0 ≠ h1 → m0 !! h0 = None → m0 !! h1 = None →
  model t = <[h1 := e1]> (<[h0 := e0]> m0) → e_state e0 = active → e_state e1 = active →
  let '(_, k1, t1) := close_entry env k t h0 in let '(_, k2, t2) := close_entry env k1 t1 h1 in model t2 = m0.
Proof.
  intros Hwf Hne Hf0 Hf1 Hm Ha0 Ha1. pose proof (close_entry_model env k t nodes h0 e0 Hwf) as Hc0.
  rewrite Hm, lookup_insert_ne, lookup_insert_eq in Hc0 by done. specialize (Hc0 eq_refl Ha0).
  destruct (close_entry env k t h0) as [[s1 k1] t1]. destruct Hc0 as (_ & Hwf1 & Hm1).
  pose proof (close_entry_model env k1 t1 nodes h1 e1 Hwf1) as Hc1.
  rewrite Hm1, lookup_delete_ne, lookup_insert_eq in Hc1 by done. specialize (Hc1 eq_refl Ha1).
  destruct (close_entry env k1 t1 h1) as [[s2 k2] t2]. destruct Hc1 as (_ & _ & ->).
  rewrite delete_insert_ne, delete_insert_eq, delete_insert_eq by done.
  by rewrite (delete_id m0 h0), (delete_id m0 h1).
Qed.

(** A channel creation is all or nothing for the caller's table.  On
    success the two returned handles were free, differ, and hold the two ends
    of the new channel with transfer and wait rights; on any failure (bad
    pointers, bad options, exhausted memory or table, faulting copies of the
    results) the table holds what it held. *)
Theorem channel_create_installs_or_keeps env k (t : table) nodes c :
  table_wf t nodes →
  let '(status, (h0, h1), k', t') := channel_create env k t c in
  if decide (status = STATUS_OK) then
    model t !! h0 = None ∧ model t !! h1 = None ∧ h0 ≠ h1 ∧
    model t' = <[h1 := Build_entry (Some (ce_right (cc_create c))) h1 active channel_end_meta]>
                 (<[h0 := Build_entry (Some (ce_left (cc_create c))) h0 active channel_end_meta]> (model t))
  else model t' = model t.
Proof.
  intros Hwf. unfold channel_create. destruct (_ || _); [by rewrite decide_False|].
  pose proof (create_raw_channel_ends k (if negb (cc_options_address c =? 0) then Some (cc_options c) else None) (cc_create c)) as He.
  destruct (create_raw_channel _ _ _) as [[status ends] k1]. destruct ends as [[lo ro]|].
  2: { by rewrite decide_False. }
  destruct He as (-> & -> & ->). destruct (_ || _ || _); [by rewrite decide_False|].
  pose proof (reserve_native_ok nodes t 2 (cc_reserve_ok c) Hwf) as Hok.
  pose proof (reserve_native_model nodes t 2 (cc_reserve_ok c) Hwf) as Hmod.
  destruct (reserve_native t 2 (cc_reserve_ok c)) as [[granted hs] t1]. destruct (status_ok granted) eqn:Hg; cbn [negb].
  2: { apply status_ok_false in Hg. by rewrite decide_False in * by done. }
  apply bool_decide_eq_true in Hg. rewrite decide_True in Hmod by done. destruct Hok as (Hso & Hl & _).
  destruct (Hl Hg) as [Hlen _]. destruct hs as [|h0 [|h1 [|]]]; try done. cbn [zget].
  pose proof (so_nodup _ _ _ _ _ Hso) as Hnd. apply NoDup_cons in Hnd as [Hne _]. rewrite list_elem_of_singleton in Hne.
  change (zget [h0; h1] 0) with h0. change (zget [h0; h1] 1) with h1. cbn [make_transferred].
  destruct (activate_pair nodes (model t) t1 h0 h1 (Build_transferred (Some (ce_left (cc_create c))) channel_end_meta true)
    (Build_transferred (Some (ce_right (cc_create c))) channel_end_meta true) (so_wf _ _ _ _ _ Hso) Hne Hmod)
    as (r0' & r1' & ev0 & ev1 & t2 & t3 & -> & Hact & Hwf3 & Hm3); [by eexists..|].
  change (status_ok STATUS_OK) with true. cbv iota. rewrite Hact. change (status_ok STATUS_OK) with true. cbn [negb].
  destruct Hmod as [Hfree _]. pose proof (Hfree h0 ltac:(left)) as Hf0. pose proof (Hfree h1 ltac:(right; left)) as Hf1.
  destruct (status_ok (if status_ok (cc_write_left c) then _ else _)) eqn:Hw; cbn [negb].
  { apply bool_decide_eq_true in Hw. rewrite decide_True by done. split_and!; [done..|exact Hm3]. }
  set (k2 := run_hooks _ _).
  pose proof (close_pair env k2 t3 nodes h0 h1 _ _ _ Hwf3 Hne Hf0 Hf1 Hm3 eq_refl eq_refl) as Hcl.
  destruct (close_entry env k2 t3 h0) as [[s4 k4] t4]. destruct (close_entry env k4 t4 h1) as [[s5 k5] t5].
  by rewrite decide_False by by apply status_ok_false.
Qed.
End facts.

(** ** Concrete calls *)

Definition demo_create_call : create_call :=
  Build_create_call 0 (STATUS_OK, default_options) 4096 8192 (Build_create_env 10 100 101 true true true true true true)
    true STATUS_OK STATUS_OK.

Lemma channel_create_installs_or_keeps_witness :
  let '(status, (h0, h1), k', t') := channel_create channel_gc initial_ipc demo_table demo_create_call in
  status = STATUS_OK ∧ model demo_table !! h0 = None ∧ h0 ≠ h1.
Proof.
  pose proof (channel_create_installs_or_keeps channel_gc initial_ipc demo_table [] demo_create_call demo_table_wf) as Hc.
  assert ((channel_create channel_gc initial_ipc demo_table demo_create_call).1.1.1 = STATUS_OK) as Hs
    by (vm_compute; reflexivity).
  destruct (channel_create channel_gc initial_ipc demo_table demo_create_call) as [[[status [h0 h1]] k'] t'].
  cbn [fst] in Hs. rewrite decide_True in Hc by exact Hs. destruct Hc as (H0 & _ & Hne & _). split_and!; done.
Defined.

(** Handle 1, one end of the channel, is closed. *)
Definition peer_closed : na_status * ipc * resource_table (gmap Z entry) :=
  handle_close channel_gc channel_k2 channel_table 1.

(** Closing the last handle of a channel end does not wake the waiters of
    the other end.  The close succeeds and raises PEER_CLOSED on the peer, but
    nothing advances the wait generation: a thread that waits for READABLE or
    PEER_CLOSED on the other end without a deadline stays asleep however long
    the closed state lasts. *)
Theorem peer_close_does_not_wake n now last written :
  peer_closed.1.1 = STATUS_OK ∧
  Z.land (signals (state_at channel_k2 10) 1) SIGNAL_PEER_CLOSED = 0 ∧
  Z.land (signals (state_at peer_closed.1.2 10) 1) SIGNAL_PEER_CLOSED = SIGNAL_PEER_CLOSED ∧
  ready (signals_at (λ _, 0) (Build_look peer_closed.2 peer_closed.1.2 now)) wait_items = true ∧
  wait_many (λ _, 0) 4096 1 true (STATUS_OK, wait_items) no_deadline true (look_at channel_k2 0)
    (look_at channel_k2 1 :: replicate n (Build_look peer_closed.2 peer_closed.1.2 now)) last written = None.
Proof.
  split_and!; [vm_compute; reflexivity..|]. apply wait_many_sleeps; [vm_compute; reflexivity..|].
  intros l [-> _]%elem_of_replicate. vm_compute. reflexivity.
Qed.
