(* ===== verification/Invocation.v ===== *)
(** Invocations, includes/kernel/ipc/invocation.hpp and
    src/kernel/ipc/invocation.cc: the state of one call from its submission to
    the consumption of its result.  Every method runs under the invocation's
    lock and is one function; where it wakes the invocation waiters it returns
    so.  [cancel] and [expire_deadline] also visit the queue of the protocol
    endpoint: their parts under the invocation's lock are here and Protocol.v
    composes them.  The wake-ups of the per-invocation and execution wait
    queues carry no state and are left out. *)
From stdpp Require Import base list numbers gmap relations.
From S2P Require Import Prelude Abi Usercopy BoundedQueue Capability ResourceTable Channel.

Local Open Scope Z_scope.

(** ** Outcomes *)

Definition EXECUTION_NONE : Z := 0.
Definition EXECUTION_NOT_DELIVERED : Z := 1.
Definition EXECUTION_OUTCOME_UNKNOWN : Z := 2.

Definition REASON_NONE : Z := 0.
Definition REASON_PEER_CLOSED : Z := 1.
Definition REASON_OBJECT_REVOKED : Z := 2.
Definition REASON_OPERATION_DEADLINE : Z := 3.
Definition REASON_CANCEL_REQUESTED : Z := 4.
Definition REASON_REQUEST_DISCARDED : Z := 5.
Definition REASON_RESPONDER_ABANDONED : Z := 6.
Definition REASON_BROKER_FAILURE : Z := 7.
Definition REASON_PROTOCOL_VIOLATION : Z := 8.
Definition REASON_UNSUPPORTED : Z := 9.

Definition valid_failure (outcome reason : Z) : bool :=
  if (negb (outcome =? EXECUTION_NOT_DELIVERED) && negb (outcome =? EXECUTION_OUTCOME_UNKNOWN))
     || (reason <=? REASON_NONE) || (REASON_UNSUPPORTED <? reason)
  then false
  else if outcome =? EXECUTION_NOT_DELIVERED then
    (reason =? REASON_PEER_CLOSED) || (reason =? REASON_OBJECT_REVOKED) || (reason =? REASON_OPERATION_DEADLINE)
    || (reason =? REASON_CANCEL_REQUESTED) || (reason =? REASON_REQUEST_DISCARDED)
    || (reason =? REASON_RESPONDER_ABANDONED) || (reason =? REASON_PROTOCOL_VIOLATION) || (reason =? REASON_UNSUPPORTED)
  else
    (reason =? REASON_PEER_CLOSED) || (reason =? REASON_OBJECT_REVOKED) || (reason =? REASON_OPERATION_DEADLINE)
    || (reason =? REASON_CANCEL_REQUESTED) || (reason =? REASON_RESPONDER_ABANDONED) || (reason =? REASON_BROKER_FAILURE)
    || (reason =? REASON_PROTOCOL_VIOLATION) || (reason =? REASON_UNSUPPORTED).

(** ** The global budget of the protocol calls *)

Definition reserve_protocol_global (g : globals) (bytes resources : Z) : bool * globals :=
  let '(ok1, ms) := reserve_counter (global_messages g) 1 CHANNEL_GLOBAL_MAX_MESSAGES in
  if negb ok1 then (false, g)
  else
    let '(ok2, bs) := reserve_counter (global_bytes g) bytes CHANNEL_GLOBAL_MAX_BYTES in
    if negb ok2 then (false, Build_globals (u64 (ms - 1)) (global_bytes g) (global_resources g))
    else
      let '(ok3, rs) := reserve_counter (global_resources g) resources CHANNEL_GLOBAL_MAX_RESOURCES in
      if negb ok3 then (false, Build_globals (u64 (ms - 1)) (u64 (bs - bytes)) (global_resources g))
      else (true, Build_globals ms bs rs).

Definition release_protocol_global (g : globals) (bytes resources : Z) : globals :=
  Build_globals (u64 (global_messages g - 1)) (u64 (global_bytes g - bytes)) (u64 (global_resources g - resources)).

(** ** Deadlines *)

Definition max_kernel_payload : Z := CHANNEL_MAX_MESSAGE_BYTES.
Definition no_operation_deadline : Z := 0.

Definition calculate_deadline (now budget : Z) : Z :=
  if budget =? 0 then no_operation_deadline
  else if u64 (2 ^ 64 - 1 - now) <? budget then 2 ^ 64 - 1
  else u64 (now + budget).

Inductive invocation_phase : Type := queued | receiving | dispatched | ready | consumed.

#[global] Instance invocation_phase_eq_dec : EqDecision invocation_phase.
Proof. solve_decision. Defined.

Inductive deadline_action : Type := action_none | remove_queued_action | outcome_unknown_action.

Definition deadline_action_for (phase : invocation_phase) (expired : bool) : deadline_action :=
  if negb expired then action_none
  else match phase with
       | ready | consumed => action_none
       | queued => remove_queued_action
       | receiving | dispatched => outcome_unknown_action
       end.

(** ** The state *)

Record invocation_state : Type := Build_invocation {
  i_phase : invocation_phase;
  i_method_id : Z;
  i_operation_deadline : Z;
  i_max_response_bytes : Z;
  i_max_response_resources : Z;
  i_result_claimed : bool;
  i_responder_alive : bool;
  i_client_closed : bool;
  i_cancellation_requested : bool;
  i_result_budget_reserved : bool;
  i_execution_outcome : Z;
  i_outcome_reason : Z;
  i_protocol_error : Z;
  i_queue_owner : option Z;
  i_response_bytes : list Z;
  i_response_resources : list transfer_record;
}.

Definition make_invocation (now method_id operation_budget max_bytes max_resources : Z) : invocation_state :=
  Build_invocation queued method_id (calculate_deadline now operation_budget)
    (if max_bytes =? 0 then max_kernel_payload else max_bytes)
    (if max_resources =? 0 then CHANNEL_MAX_RESOURCES else max_resources)
    false true false false false EXECUTION_NONE REASON_NONE 0 None [] [].

Definition set_phase (p : invocation_phase) (i : invocation_state) : invocation_state :=
  Build_invocation p (i_method_id i) (i_operation_deadline i) (i_max_response_bytes i) (i_max_response_resources i)
    (i_result_claimed i) (i_responder_alive i) (i_client_closed i) (i_cancellation_requested i)
    (i_result_budget_reserved i) (i_execution_outcome i) (i_outcome_reason i) (i_protocol_error i) (i_queue_owner i)
    (i_response_bytes i) (i_response_resources i).
Definition set_outcome (outcome reason error : Z) (i : invocation_state) : invocation_state :=
  Build_invocation (i_phase i) (i_method_id i) (i_operation_deadline i) (i_max_response_bytes i)
    (i_max_response_resources i) (i_result_claimed i) (i_responder_alive i) (i_client_closed i)
    (i_cancellation_requested i) (i_result_budget_reserved i) outcome reason error (i_queue_owner i)
    (i_response_bytes i) (i_response_resources i).
Definition set_response (bytes : list Z) (resources : list transfer_record) (i : invocation_state) : invocation_state :=
  Build_invocation (i_phase i) (i_method_id i) (i_operation_deadline i) (i_max_response_bytes i)
    (i_max_response_resources i) (i_result_claimed i) (i_responder_alive i) (i_client_closed i)
    (i_cancellation_requested i) (i_result_budget_reserved i) (i_execution_outcome i) (i_outcome_reason i)
    (i_protocol_error i) (i_queue_owner i) bytes resources.
Definition set_flags (claimed responder closed cancel budget : bool) (i : invocation_state) : invocation_state :=
  Build_invocation (i_phase i) (i_method_id i) (i_operation_deadline i) (i_max_response_bytes i)
    (i_max_response_resources i) claimed responder closed cancel budget (i_execution_outcome i) (i_outcome_reason i)
    (i_protocol_error i) (i_queue_owner i) (i_response_bytes i) (i_response_resources i).
Definition set_result_claimed (b : bool) (i : invocation_state) : invocation_state :=
  set_flags b (i_responder_alive i) (i_client_closed i) (i_cancellation_requested i) (i_result_budget_reserved i) i.
Definition set_responder_alive (b : bool) (i : invocation_state) : invocation_state :=
  set_flags (i_result_claimed i) b (i_client_closed i) (i_cancellation_requested i) (i_result_budget_reserved i) i.
Definition set_client_closed (b : bool) (i : invocation_state) : invocation_state :=
  set_flags (i_result_claimed i) (i_responder_alive i) b (i_cancellation_requested i) (i_result_budget_reserved i) i.
Definition set_cancellation (b : bool) (i : invocation_state) : invocation_state :=
  set_flags (i_result_claimed i) (i_responder_alive i) (i_client_closed i) b (i_result_budget_reserved i) i.
Definition set_budget (b : bool) (i : invocation_state) : invocation_state :=
  set_flags (i_result_claimed i) (i_responder_alive i) (i_client_closed i) (i_cancellation_requested i) b i.
Definition set_owner (o : option Z) (i : invocation_state) : invocation_state :=
  Build_invocation (i_phase i) (i_method_id i) (i_operation_deadline i) (i_max_response_bytes i)
    (i_max_response_resources i) (i_result_claimed i) (i_responder_alive i) (i_client_closed i)
    (i_cancellation_requested i) (i_result_budget_reserved i) (i_execution_outcome i) (i_outcome_reason i)
    (i_protocol_error i) o (i_response_bytes i) (i_response_resources i).

Definition completed (i : invocation_state) : bool :=
  match i_phase i with ready | consumed => true | _ => false end.

(** ** Publication *)

Definition canonical_error (error : Z) : Z := if 0 <? error then - error else error.

Definition publish_locked_no_wake (i : invocation_state) (outcome reason : Z) (bytes : list Z)
    (resources : list transfer_record) (error : Z) : bool * invocation_state :=
  if completed i || i_client_closed i then (false, i)
  else (true, set_response bytes resources (set_outcome outcome reason (canonical_error error) (set_phase ready i))).

Definition publish_empty (i : invocation_state) (outcome reason : Z) : bool * invocation_state :=
  publish_locked_no_wake i outcome reason [] [] 0.

Definition invocation_signals (i : invocation_state) : Z :=
  let done := if completed i then SIGNAL_COMPLETED else 0 in
  let not_consumed := negb (bool_decide (i_phase i = consumed)) in
  Z.lor done (Z.lor (if i_client_closed i && not_consumed then SIGNAL_PEER_CLOSED else 0)
                    (if i_cancellation_requested i && not_consumed then SIGNAL_CANCEL_REQUESTED else 0)).

(** ** The result budget *)

Definition release_result_budget_locked (i : invocation_state) (g : globals) : invocation_state * globals :=
  if negb (i_result_budget_reserved i) then (i, g)
  else (set_budget false i, release_protocol_global g (i_max_response_bytes i) (i_max_response_resources i)).

Definition reserve_result_budget (i : invocation_state) (g : globals) : bool * invocation_state * globals :=
  if i_result_budget_reserved i then (true, i, g)
  else
    let '(ok, g') := reserve_protocol_global g (i_max_response_bytes i) (i_max_response_resources i) in
    if negb ok then (false, i, g') else (true, set_budget true i, g').

(** The destructor gives the budget back. *)
Definition destroy_invocation (i : invocation_state) (g : globals) : globals := (release_result_budget_locked i g).2.

(** ** Delivery *)

(** Whether the receive may go on, whether waiters are woken, the state. *)
Definition begin_receive (i : invocation_state) : bool * bool * invocation_state :=
  if negb (bool_decide (i_phase i = queued)) then (false, false, i)
  else if i_cancellation_requested i || i_client_closed i || negb (i_responder_alive i) then
    let '(published, i') :=
      publish_empty i EXECUTION_NOT_DELIVERED
        (if i_cancellation_requested i then REASON_CANCEL_REQUESTED else REASON_RESPONDER_ABANDONED) in
    (false, published, i')
  else (true, false, set_phase receiving i).

Definition complete_failure (i : invocation_state) (outcome reason error : Z) : bool * invocation_state :=
  if negb (valid_failure outcome reason) then (false, i)
  else publish_locked_no_wake i outcome reason [] [] error.

Definition complete_not_delivered (i : invocation_state) (reason : Z) : bool * invocation_state :=
  complete_failure i EXECUTION_NOT_DELIVERED reason 0.

(** The part under the lock; the publication of a cancellation takes the lock
    again. *)
Definition rollback_receive_locked (i : invocation_state) : bool * invocation_state :=
  if negb (bool_decide (i_phase i = receiving)) then (false, i)
  else (i_cancellation_requested i, set_phase queued i).

Definition rollback_receive (i : invocation_state) : bool * invocation_state :=
  let '(cancelled, i1) := rollback_receive_locked i in
  if cancelled then complete_not_delivered i1 REASON_CANCEL_REQUESTED else (false, i1).

Definition finish_dispatch (i : invocation_state) : bool * invocation_state :=
  if negb (bool_decide (i_phase i = receiving)) then (false, i) else (true, set_phase dispatched i).

Definition mark_dispatched (i : invocation_state) : invocation_state :=
  match i_phase i with queued | receiving => set_phase dispatched i | _ => i end.

Definition set_queue_owner (owner : Z) (i : invocation_state) : invocation_state :=
  if bool_decide (i_phase i = queued) then set_owner (Some owner) i else i.
Definition clear_queue_owner (i : invocation_state) : invocation_state := set_owner None i.

Definition execution_interrupted (i : invocation_state) : bool :=
  i_cancellation_requested i || i_client_closed i || negb (i_responder_alive i) || completed i.

(** ** Cancellation and deadlines *)

(** The part of [cancel] under the lock, [removed] being the result of taking
    the request off the queue of an owner ([None] without an owner): whether
    the call was cancelled, whether waiters are woken, the state. *)
Definition cancel_locked (i : invocation_state) (removed : option bool) : bool * bool * invocation_state :=
  match i_phase i with
  | queued =>
    let i1 := set_cancellation true i in
    match removed with
    | Some true =>
      let '(cancelled, i2) := publish_empty i1 EXECUTION_NOT_DELIVERED REASON_CANCEL_REQUESTED in (cancelled, false, i2)
    | Some false => (false, true, i1)
    | None =>
      let '(cancelled, i2) := publish_empty i1 EXECUTION_NOT_DELIVERED REASON_CANCEL_REQUESTED in
      (cancelled, cancelled, i2)
    end
  | receiving | dispatched => (true, true, set_cancellation true i)
  | ready | consumed => (false, false, i)
  end.

Definition deadline_passed (i : invocation_state) (now : Z) : bool :=
  negb (i_operation_deadline i =? no_operation_deadline) && (i_operation_deadline i <=? now).

(** [expire_deadline] after the request was taken off the queue and its owner
    cleared. *)
Definition expire_removed (i : invocation_state) : bool * invocation_state :=
  if bool_decide (i_phase i = queued) then publish_empty i EXECUTION_NOT_DELIVERED REASON_OPERATION_DEADLINE
  else (false, i).

(** [expire_deadline] when it was not on a queue. *)
Definition expire_locked (i : invocation_state) : bool * invocation_state :=
  match i_phase i with
  | queued => publish_empty i EXECUTION_NOT_DELIVERED REASON_OPERATION_DEADLINE
  | receiving | dispatched =>
    publish_empty (set_responder_alive false i) EXECUTION_OUTCOME_UNKNOWN REASON_OPERATION_DEADLINE
  | ready | consumed => (false, i)
  end.

(** ** The two ends *)

Definition close_client (i : invocation_state) (g : globals) : invocation_state * globals :=
  release_result_budget_locked (set_response [] [] (set_client_closed true i)) g.

Definition abandon_responder (i : invocation_state) : bool * invocation_state :=
  if negb (i_responder_alive i) then (false, i)
  else
    let i1 := set_responder_alive false i in
    match i_phase i with
    | queued => publish_empty i1 EXECUTION_NOT_DELIVERED REASON_RESPONDER_ABANDONED
    | dispatched => publish_empty i1 EXECUTION_OUTCOME_UNKNOWN REASON_RESPONDER_ABANDONED
    | _ => (false, i1)
    end.

Definition consume_responder (i : invocation_state) : bool * invocation_state :=
  if negb (i_responder_alive i) then (false, i) else (true, set_responder_alive false i).

Definition response_within_limits (i : invocation_state) (bytes resources : Z) : bool :=
  (bytes <=? i_max_response_bytes i) && (resources <=? i_max_response_resources i).

(** ** Replies and results *)

(** The reply is published and the batch it carries committed to the table it
    was taken from. *)
Definition complete_reply {M} `{HandleMap M} (i : invocation_state) (bytes : list Z) (resources : list transfer_record)
    (error : Z) (source : option (resource_table M)) : bool * invocation_state * option (resource_table M) :=
  let '(result, i1) := publish_locked_no_wake i EXECUTION_NONE REASON_NONE bytes resources error in
  match source with
  | Some t =>
    if result then let '(rs, t') := commit_native_batch t (i_response_resources i1) in
                   (true, set_response (i_response_bytes i1) rs i1, Some t')
    else (false, i1, source)
  | None => (result, i1, None)
  end.

(** The overload on lvalues asks for the phase first. *)
Definition complete_reply_lvalue {M} `{HandleMap M} (i : invocation_state) (bytes : list Z)
    (resources : list transfer_record) (error : Z) (source : option (resource_table M))
    : bool * invocation_state * option (resource_table M) :=
  if completed i then (false, i, source) else complete_reply i bytes resources error source.

(** [na_result_frame_t]. *)
Record result_frame : Type := Build_result_frame {
  rf2_struct_size : Z;
  rf2_flags : Z;
  rf2_method_id : Z;
  rf2_bytes : Z;
  rf2_byte_capacity : Z;
  rf2_resources : Z;
  rf2_resource_capacity : Z;
  rf2_actual_bytes : Z;
  rf2_actual_resources : Z;
  rf2_required_bytes : Z;
  rf2_required_resources : Z;
  rf2_execution_outcome : Z;
  rf2_outcome_reason : Z;
  rf2_protocol_error : Z;
}.

(** The frame of a completed invocation with the given counts. *)
Definition fill_result (f : result_frame) (i : invocation_state) (actual_bytes actual_resources required_bytes
    required_resources : Z) : result_frame :=
  Build_result_frame (rf2_struct_size f) (rf2_flags f) (i_method_id i) (rf2_bytes f) (rf2_byte_capacity f)
    (rf2_resources f) (rf2_resource_capacity f) actual_bytes actual_resources required_bytes required_resources
    (i_execution_outcome i) (i_outcome_reason i) (i_protocol_error i).

Definition claim_result (i : invocation_state) (now : Z) (f : result_frame)
    : na_status * result_frame * list Z * list transfer_record * invocation_state :=
  if bool_decide (i_phase i = consumed) then (ALREADY_CONSUMED, f, [], [], i)
  else
    let i1 :=
      if negb (bool_decide (i_phase i = ready)) && deadline_passed i now then
        (publish_empty i (if bool_decide (i_phase i = dispatched) then EXECUTION_OUTCOME_UNKNOWN
                          else EXECUTION_NOT_DELIVERED) REASON_OPERATION_DEADLINE).2
      else i in
    if negb (bool_decide (i_phase i1 = ready)) then (WOULD_BLOCK, f, [], [], i1)
    else if i_result_claimed i1 then (WOULD_BLOCK, f, [], [], i1)
    else
      let nb := Z.of_nat (length (i_response_bytes i1)) in
      let nr := Z.of_nat (length (i_response_resources i1)) in
      if (rf2_byte_capacity f <? nb) || (rf2_resource_capacity f <? nr)
      then (BUFFER_TOO_SMALL, fill_result f i1 nb nr nb nr, [], [], i1)
      else (STATUS_OK, fill_result f i1 nb nr 0 0, i_response_bytes i1, i_response_resources i1,
            set_response [] [] (set_result_claimed true i1)).

Definition restore_result (i : invocation_state) (bytes : list Z) (resources : list transfer_record)
    : invocation_state :=
  if negb (i_result_claimed i) || negb (bool_decide (i_phase i = ready)) then i
  else set_result_claimed false (set_response bytes resources i).

Definition commit_result (i : invocation_state) (g : globals) : na_status * invocation_state * globals :=
  if negb (i_result_claimed i) || negb (bool_decide (i_phase i = ready)) then
    (if bool_decide (i_phase i = consumed) then ALREADY_CONSUMED else WOULD_BLOCK, i, g)
  else
    let '(i', g') :=
      release_result_budget_locked (set_response [] [] (set_result_claimed false (set_phase consumed i))) g in
    (STATUS_OK, i', g').
