(* ===== verification/InvocationFacts.v ===== *)
(** The life of one invocation under any sequence of the calls of
    Invocation.v, in any order and with any arguments: an outcome is published
    at most once and is final, a result is consumed at most once, every
    published outcome is one the ABI allows, and a call that reached its
    handler is never reported as not delivered unless the handler says so. *)
From stdpp Require Import base list numbers gmap relations.
From S2P Require Import Prelude Abi Usercopy BoundedQueue Capability ResourceTable Channel ChannelFacts Invocation.

Local Open Scope Z_scope.
Set Default Proof Using "Type".

Create HintDb invocation.

Section life.
Context {M : Type} `{HandleMap M}.
Abbreviation table := (resource_table M).

(** One method call.  [CCancel] carries what taking the request off its queue
    gave and [CRollback] is the locked part of a rollback, whose second part
    is a [CFail]. *)
Inductive invocation_call : Type :=
| CBeginReceive
| CRollback
| CFinishDispatch
| CMarkDispatched
| CSetOwner (owner : Z)
| CClearOwner
| CCancel (removed : option bool)
| CExpireRemoved
| CExpire
| CCloseClient
| CAbandon
| CConsumeResponder
| CReply (bytes : list Z) (resources : list transfer_record) (error : Z) (source : option table)
| CReplyLvalue (bytes : list Z) (resources : list transfer_record) (error : Z) (source : option table)
| CFail (outcome reason error : Z)
| CReserve
| CClaim (now : Z) (frame : result_frame)
| CRestore (bytes : list Z) (resources : list transfer_record)
| CCommit.

(** Whether the call reported a publication, whether it reported the
    consumption of the result, and the new state and counters. *)
Definition call_step (c : invocation_call) (i : invocation_state) (g : globals)
    : bool * bool * invocation_state * globals :=
  match c with
  | CBeginReceive => let '(_, woke, i') := begin_receive i in (woke, false, i', g)
  | CRollback => (false, false, (rollback_receive_locked i).2, g)
  | CFinishDispatch => (false, false, (finish_dispatch i).2, g)
  | CMarkDispatched => (false, false, mark_dispatched i, g)
  | CSetOwner o => (false, false, set_queue_owner o i, g)
  | CClearOwner => (false, false, clear_queue_owner i, g)
  | CCancel removed =>
    let '(cancelled, _, i') := cancel_locked i removed in
    (cancelled && bool_decide (i_phase i = queued), false, i', g)
  | CExpireRemoved => let '(published, i') := expire_removed i in (published, false, i', g)
  | CExpire => let '(published, i') := expire_locked i in (published, false, i', g)
  | CCloseClient => let '(i', g') := close_client i g in (false, false, i', g')
  | CAbandon => let '(published, i') := abandon_responder i in (published, false, i', g)
  | CConsumeResponder => (false, false, (consume_responder i).2, g)
  | CReply bytes rs error source => let '(replied, i', _) := complete_reply i bytes rs error source in (replied, false, i', g)
  | CReplyLvalue bytes rs error source =>
    let '(replied, i', _) := complete_reply_lvalue i bytes rs error source in (replied, false, i', g)
  | CFail outcome reason error => let '(failed, i') := complete_failure i outcome reason error in (failed, false, i', g)
  | CReserve => let '(_, i', g') := reserve_result_budget i g in (false, false, i', g')
  | CClaim now f => let '(_, _, _, _, i') := claim_result i now f in (false, false, i', g)
  | CRestore bytes rs => (false, false, restore_result i bytes rs, g)
  | CCommit => let '(status, i', g') := commit_result i g in (false, status_ok status, i', g')
  end.

(** The reports of a run and its last state. *)
Fixpoint call_run (cs : list invocation_call) (i : invocation_state) (g : globals)
    : list (bool * bool) * invocation_state * globals :=
  match cs with
  | [] => ([], i, g)
  | c :: cs' =>
    let '(pub, con, i1, g1) := call_step c i g in
    let '(reports, i2, g2) := call_run cs' i1 g1 in
    ((pub, con) :: reports, i2, g2)
  end.

Definition count_true (l : list bool) : nat := length (filter (λ b, b = true) l).
Definition publications (reports : list (bool * bool)) : nat := count_true reports.*1.
Definition consumptions (reports : list (bool * bool)) : nat := count_true reports.*2.

Definition outcome_of (i : invocation_state) : Z * Z * Z := (i_execution_outcome i, i_outcome_reason i, i_protocol_error i).

(** ** Publication *)

Definition is_consumed (i : invocation_state) : bool := bool_decide (i_phase i = consumed).

(** What one call may do to the phase and the outcome. *)
Record lawful (pub con : bool) (i i' : invocation_state) : Prop := Build_lawful {
  lw_published : pub = true → completed i = false ∧ completed i' = true;
  lw_consumed : con = true → is_consumed i = false ∧ is_consumed i' = true ∧ completed i = true;
  lw_final : completed i = true → completed i' = true ∧ outcome_of i' = outcome_of i;
  lw_stays : is_consumed i = true → is_consumed i' = true;
}.

(** Three ways to be lawful: the phase and outcome stay, the phase moves among
    those before completion, an outcome is published. *)
Lemma lawful_same i i' : i_phase i' = i_phase i → outcome_of i' = outcome_of i → lawful false false i i'.
Proof. intros Hp Ho. unfold completed, is_consumed in *. split; unfold completed, is_consumed; by rewrite ?Hp. Qed.

Lemma lawful_move i i' : completed i = false → completed i' = false → lawful false false i i'.
Proof.
  intros Hc Hc'. split; [done..|by rewrite Hc|]. unfold completed, is_consumed in *. by destruct (i_phase i).
Qed.

Lemma lawful_publish pub i i0 i' outcome reason bytes rs error :
  publish_locked_no_wake i0 outcome reason bytes rs error = (pub, i') → i_phase i0 = i_phase i →
  outcome_of i0 = outcome_of i → lawful pub false i i'.
Proof.
  intros Hpub Hp Ho. unfold publish_locked_no_wake in Hpub. destruct (completed i0) eqn:Hc; simpl in Hpub.
  { injection Hpub as <- <-. by apply lawful_same. }
  destruct (i_client_closed i0); injection Hpub as <- <-; [by apply lawful_same|].
  unfold completed in Hc. rewrite Hp in Hc. split; unfold completed, is_consumed; simpl; by destruct (i_phase i).
Qed.

Lemma released_same i g : let i' := (release_result_budget_locked i g).1 in
  i_phase i' = i_phase i ∧ outcome_of i' = outcome_of i.
Proof. unfold release_result_budget_locked. by destruct (i_result_budget_reserved i). Qed.

(** A publication after the phase test that guards it. *)
Ltac lawful_auto :=
  cbv beta iota zeta;
  first [ by apply lawful_same
        | by (apply lawful_move; unfold completed; simpl; simplify_eq/=;
              match goal with Hp : i_phase _ = _ |- _ => by rewrite ?Hp end)
        | by (eapply lawful_publish; [eassumption|done..]) ].

Lemma complete_reply_lawful i bytes rs error (source : option table) :
  let '(replied, i', _) := complete_reply i bytes rs error source in lawful replied false i i'.
Proof.
  unfold complete_reply. destruct (publish_locked_no_wake _ _ _ _ _ _) as [pub i1] eqn:Hpub.
  destruct source as [t|]; [|lawful_auto]. destruct pub; [|lawful_auto].
  destruct (commit_native_batch t _) as [rs' t']. destruct (lawful_publish _ i i i1 _ _ _ _ _ Hpub eq_refl eq_refl).
  split; auto.
Qed.

Lemma claim_result_lawful i now f :
  let '(_, _, _, _, i') := claim_result i now f in lawful false false i i'.
Proof.
  unfold claim_result. case_bool_decide as Hcon; [lawful_auto|].
  set (i1 := if negb (bool_decide (i_phase i = ready)) && deadline_passed i now then _ else i).
  assert (lawful false false i i1) as Hlaw.
  { subst i1. destruct (negb _ && _); [|lawful_auto].
    destruct (publish_empty _ _ _) as [pub i1] eqn:Hpub. simpl. unfold publish_empty in Hpub.
    destruct (lawful_publish _ i i i1 _ _ _ _ _ Hpub eq_refl eq_refl). by split. }
  clearbody i1. case_bool_decide; simpl; [|done]. destruct (i_result_claimed i1); [done|].
  destruct (_ || _); [done|]. by destruct Hlaw as [_ _ Hf Hs]; split.
Qed.

Lemma begin_receive_lawful i :
  let '(_, woke, i') := begin_receive i in lawful woke false i i'.
Proof.
  unfold begin_receive, publish_empty. case_bool_decide as Hq; simpl; [|lawful_auto]. destruct (_ || _); [|lawful_auto].
  destruct (publish_locked_no_wake _ _ _ _ _ _) as [pub i1] eqn:Hpub. lawful_auto.
Qed.

Lemma cancel_locked_lawful i removed :
  let '(cancelled, _, i') := cancel_locked i removed in lawful (cancelled && bool_decide (i_phase i = queued)) false i i'.
Proof.
  unfold cancel_locked, publish_empty. destruct (i_phase i) eqn:Hp; simpl; [|lawful_auto..].
  destruct removed as [[]|]; [|by apply lawful_same|];
    destruct (publish_locked_no_wake _ _ _ _ _ _) as [pub i1] eqn:Hpub; rewrite andb_true_r; lawful_auto.
Qed.

Lemma commit_result_lawful i g :
  let '(status, i', _) := commit_result i g in lawful false (status_ok status) i i'.
Proof.
  unfold commit_result. destruct (i_result_claimed i); simpl; [|case_bool_decide; lawful_auto].
  case_bool_decide as Hr; simpl; [|case_bool_decide; lawful_auto].
  pose proof (released_same (set_response [] [] (set_result_claimed false (set_phase consumed i))) g) as [Hp Ho].
  destruct (release_result_budget_locked _ g) as [i' g']. simpl in *.
  split; unfold completed, is_consumed; rewrite Hp, ?Ho, ?Hr; done.
Qed.

Lemma call_step_lawful c i g :
  let '(pub, con, i', _) := call_step c i g in lawful pub con i i'.
Proof.
  destruct c; cbn [call_step].
  - pose proof (begin_receive_lawful i). by destruct (begin_receive i) as [[]].
  - unfold rollback_receive_locked. case_bool_decide; simpl; lawful_auto.
  - unfold finish_dispatch. case_bool_decide; simpl; lawful_auto.
  - unfold mark_dispatched. destruct (i_phase i) eqn:Hp; lawful_auto.
  - unfold set_queue_owner. case_bool_decide; lawful_auto.
  - lawful_auto.
  - pose proof (cancel_locked_lawful i removed). by destruct (cancel_locked i removed) as [[]].
  - unfold expire_removed, publish_empty. case_bool_decide; [|lawful_auto].
    destruct (publish_locked_no_wake _ _ _ _ _ _) eqn:?; lawful_auto.
  - unfold expire_locked, publish_empty. destruct (i_phase i) eqn:Hp; try lawful_auto;
      destruct (publish_locked_no_wake _ _ _ _ _ _) eqn:?; lawful_auto.
  - unfold close_client. pose proof (released_same (set_response [] [] (set_client_closed true i)) g) as [Hp Ho].
    destruct (release_result_budget_locked _ g). by apply lawful_same.
  - unfold abandon_responder, publish_empty. destruct (i_responder_alive i); [|lawful_auto]. simpl.
    destruct (i_phase i) eqn:Hp; try lawful_auto; destruct (publish_locked_no_wake _ _ _ _ _ _) eqn:?; lawful_auto.
  - unfold consume_responder. destruct (i_responder_alive i); lawful_auto.
  - pose proof (complete_reply_lawful i bytes resources error source). by destruct (complete_reply _ _ _ _ _) as [[]].
  - unfold complete_reply_lvalue. destruct (completed i); [lawful_auto|].
    pose proof (complete_reply_lawful i bytes resources error source). by destruct (complete_reply _ _ _ _ _) as [[]].
  - unfold complete_failure. destruct (valid_failure _ _); [|lawful_auto]. simpl.
    destruct (publish_locked_no_wake _ _ _ _ _ _) eqn:?; lawful_auto.
  - unfold reserve_result_budget. destruct (i_result_budget_reserved i); [lawful_auto|].
    destruct (reserve_protocol_global _ _ _) as [[] ?]; lawful_auto.
  - pose proof (claim_result_lawful i now frame). by destruct (claim_result i now frame) as [[[[]]]].
  - unfold restore_result. destruct (_ || _); lawful_auto.
  - pose proof (commit_result_lawful i g). by destruct (commit_result i g) as [[]].
Qed.
Lemma call_run_cons c cs i g :
  call_run (c :: cs) i g =
  let '(pub, con, i1, g1) := call_step c i g in
  let '(reports, i2, g2) := call_run cs i1 g1 in ((pub, con) :: reports, i2, g2).
Proof. done. Qed.

Lemma count_true_cons b l : count_true (b :: l) = (if b then S (count_true l) else count_true l).
Proof. unfold count_true. rewrite filter_cons. by destruct b; case_decide. Qed.

(** Each counter of reports is the change of the flag it announces. *)
Lemma reports_account cs i g :
  let '(reports, i', _) := call_run cs i g in
  (publications reports + Nat.b2n (completed i) ≤ Nat.b2n (completed i'))%nat ∧
  (consumptions reports + Nat.b2n (is_consumed i) ≤ Nat.b2n (is_consumed i'))%nat ∧
  (completed i = true → outcome_of i' = outcome_of i).
Proof.
  revert i g. induction cs as [|c cs IH]; intros i g; [done|]. rewrite call_run_cons.
  pose proof (call_step_lawful c i g) as Hlaw. destruct (call_step c i g) as [[[pub con] i1] g1].
  specialize (IH i1 g1). destruct (call_run cs i1 g1) as [[reports i2] g2].
  destruct IH as (IHp & IHc & IHo). destruct Hlaw as [Hp Hc Hf Hs].
  unfold publications, consumptions in *. csimpl. rewrite !count_true_cons. split_and!.
  - destruct pub; [destruct Hp as [-> Hp]; [done|]; rewrite Hp in IHp; simpl in *; lia|].
    destruct (completed i); simpl; [|lia]. destruct Hf as [Hf _]; [done|]. rewrite Hf in IHp. simpl in IHp. lia.
  - destruct con; [destruct Hc as (-> & Hc & _); [done|]; rewrite Hc in IHc; simpl in *; lia|].
    destruct (is_consumed i); simpl; [|lia]. rewrite Hs in IHc by done. simpl in IHc. lia.
  - intros Hi. destruct Hf as [Hf Ho]; [done|]. rewrite IHo by done. done.
Qed.

(** However the calls on an invocation interleave, replies, failures,
    cancellations, deadline expirations, abandoned responders, closings,
    claims and commits alike, at most one of them reports that it published
    the outcome and at most one that it consumed the result; from the moment
    the invocation is complete no call publishes again and the outcome, its
    reason and its protocol error never change. *)
Theorem outcome_published_once cs i g :
  let '(reports, i', _) := call_run cs i g in
  (publications reports ≤ 1)%nat ∧ (consumptions reports ≤ 1)%nat ∧
  (completed i = true → publications reports = 0%nat ∧ completed i' = true ∧ outcome_of i' = outcome_of i).
Proof.
  pose proof (reports_account cs i g) as Hacc. destruct (call_run cs i g) as [[reports i'] g'].
  destruct Hacc as (Hp & Hc & Ho). split_and!.
  - destruct (completed i'); simpl in Hp; lia.
  - destruct (is_consumed i'); simpl in Hc; lia.
  - intros Hi. rewrite Hi in Hp. destruct (completed i'); simpl in Hp; [|lia]. split_and!; [lia|done|auto].
Qed.

(** ** Legal outcomes *)

(** Before completion there is no outcome; afterwards it is a reply or a
    failure the ABI allows, and the error is a canonical one. *)
Definition legal (i : invocation_state) : Prop :=
  i_protocol_error i ≤ 0 ∧
  if completed i
  then i_execution_outcome i = EXECUTION_NONE ∧ i_outcome_reason i = REASON_NONE ∨
       valid_failure (i_execution_outcome i) (i_outcome_reason i) = true
  else i_execution_outcome i = EXECUTION_NONE ∧ i_outcome_reason i = REASON_NONE.

(** What may be published. *)
Definition publishable (outcome reason : Z) : Prop :=
  outcome = EXECUTION_NONE ∧ reason = REASON_NONE ∨ valid_failure outcome reason = true.

Lemma legal_same i i' : completed i' = completed i → outcome_of i' = outcome_of i → legal i → legal i'.
Proof. unfold legal, outcome_of. intros -> [= -> -> ->]. done. Qed.

Lemma legal_publish pub i0 i' outcome reason bytes rs error :
  publish_locked_no_wake i0 outcome reason bytes rs error = (pub, i') → publishable outcome reason → legal i0 → legal i'.
Proof.
  unfold publish_locked_no_wake. intros Hpub Hok Hl.
  destruct (completed i0 || i_client_closed i0); injection Hpub as <- <-; [done|]. split; simpl; [|done].
  unfold canonical_error. destruct (Z.ltb_spec 0 error); lia.
Qed.

Ltac legal_auto :=
  cbv beta iota zeta; intros;
  first [ done
        | by (eapply legal_same; [..|eassumption]; unfold completed; simpl;
              repeat match goal with Hp : i_phase _ = _ |- _ => rewrite Hp end)
        | by (eapply legal_publish; [eassumption|by (right + left)|try done; by eapply legal_same]) ].

Lemma complete_reply_legal i bytes rs error (source : option table) :
  legal i → legal (complete_reply i bytes rs error source).1.2.
Proof.
  unfold complete_reply. intros Hl. destruct (publish_locked_no_wake _ _ _ _ _ _) as [pub i1] eqn:Hpub.
  assert (legal i1) as Hl1 by (eapply legal_publish; [eassumption|by left|done]).
  destruct source as [t|]; [|done]. destruct pub; [|done].
  destruct (commit_native_batch t _) as [rs' t']. simpl. by eapply legal_same, Hl1.
Qed.

Lemma claim_result_legal i now f : legal i → legal (claim_result i now f).2.
Proof.
  unfold claim_result. intros Hl. case_bool_decide as Hcon; [done|].
  set (i1 := if negb (bool_decide (i_phase i = ready)) && deadline_passed i now then _ else i).
  assert (legal i1) as Hl1.
  { subst i1. destruct (negb _ && _); [|done]. destruct (publish_empty _ _ _) as [pub i1] eqn:Hpub. simpl.
    eapply legal_publish; [exact Hpub|right; by case_bool_decide|done]. }
  clearbody i1. case_bool_decide; simpl; [|done]. destruct (i_result_claimed i1); [done|].
  destruct (_ || _); [done|]. by eapply legal_same, Hl1.
Qed.

Lemma call_step_legal c i g : legal i → legal (call_step c i g).1.2.
Proof.
  intros Hl. destruct c; cbn [call_step].
  - unfold begin_receive, publish_empty. case_bool_decide as Hq; simpl; [|done].
    destruct (i_cancellation_requested i); simpl; [|destruct (_ || _); [|legal_auto]];
    destruct (publish_locked_no_wake _ _ _ _ _ _) as [pub i1] eqn:Hpub; legal_auto.
  - unfold rollback_receive_locked. case_bool_decide; simpl; legal_auto.
  - unfold finish_dispatch. case_bool_decide; simpl; legal_auto.
  - unfold mark_dispatched. destruct (i_phase i) eqn:Hp; legal_auto.
  - unfold set_queue_owner. case_bool_decide; legal_auto.
  - legal_auto.
  - unfold cancel_locked, publish_empty. destruct (i_phase i) eqn:Hp; try legal_auto.
    destruct removed as [[]|]; [|legal_auto|];
      destruct (publish_locked_no_wake _ _ _ _ _ _) as [pub i1] eqn:Hpub; legal_auto.
  - unfold expire_removed, publish_empty. case_bool_decide; [|done].
    destruct (publish_locked_no_wake _ _ _ _ _ _) eqn:?; legal_auto.
  - unfold expire_locked, publish_empty. destruct (i_phase i) eqn:Hp; try done;
      destruct (publish_locked_no_wake _ _ _ _ _ _) eqn:?; legal_auto.
  - unfold close_client. pose proof (released_same (set_response [] [] (set_client_closed true i)) g) as [Hp Ho].
    destruct (release_result_budget_locked _ g) as [i' g']. simpl in *. eapply (legal_same i); [|done..].
    unfold completed. by rewrite Hp.
  - unfold abandon_responder, publish_empty. destruct (i_responder_alive i); [|done]. simpl.
    destruct (i_phase i) eqn:Hp; try legal_auto; destruct (publish_locked_no_wake _ _ _ _ _ _) eqn:?; legal_auto.
  - unfold consume_responder. destruct (i_responder_alive i); legal_auto.
  - pose proof (complete_reply_legal i bytes resources error source Hl). by destruct (complete_reply _ _ _ _ _) as [[]].
  - unfold complete_reply_lvalue. destruct (completed i); [done|].
    pose proof (complete_reply_legal i bytes resources error source Hl). by destruct (complete_reply _ _ _ _ _) as [[]].
  - unfold complete_failure. destruct (valid_failure _ _) eqn:Hv; [|done]. simpl.
    destruct (publish_locked_no_wake _ _ _ _ _ _) eqn:?; legal_auto.
  - unfold reserve_result_budget. destruct (i_result_budget_reserved i); [done|].
    destruct (reserve_protocol_global _ _ _) as [[] ?]; legal_auto.
  - pose proof (claim_result_legal i now frame Hl). by destruct (claim_result i now frame) as [[[[]]]].
  - unfold restore_result. destruct (_ || _); legal_auto.
  - unfold commit_result. destruct (i_result_claimed i); simpl; [|done].
    case_bool_decide as Hr; simpl; [|done].
    pose proof (released_same (set_response [] [] (set_result_claimed false (set_phase consumed i))) g) as [Hp Ho].
    destruct (release_result_budget_locked _ g) as [i' g']. simpl in *. eapply (legal_same i); [|done..].
    unfold completed in *. by rewrite Hp, Hr.
Qed.
(** A property every step keeps holds after every run. *)
Lemma call_run_invariant (P : invocation_state → Prop) cs i g :
  Forall (λ c, ∀ j g', P j → P (call_step c j g').1.2) cs → P i → P (call_run cs i g).1.2.
Proof.
  intros Hs. revert i g. induction Hs as [|c cs Hc Hs IH]; intros i g Hi; [done|]. rewrite call_run_cons.
  specialize (Hc i g Hi). destruct (call_step c i g) as [[[pub con] i1] g1]. simpl in Hc.
  specialize (IH i1 g1 Hc). by destruct (call_run cs i1 g1) as [[]].
Qed.

(** Whatever the handlers pass to the kernel, a submitted invocation has
    no outcome until it completes, and the outcome the client then reads is a
    reply without a reason or one of the pairs of a failed outcome and a reason
    the ABI allows, with an error that is never positive. *)
Theorem published_outcomes_legal now method budget max_bytes max_resources cs g :
  let i := (call_run cs (make_invocation now method budget max_bytes max_resources) g).1.2 in legal i.
Proof.
  apply call_run_invariant; [|done]. apply Forall_true. intros c j g' Hj. by apply call_step_legal.
Qed.

(** ** Delivery *)

(** The handler of a call reports a delivered call as not delivered. *)
Definition denies_delivery (c : invocation_call) : bool :=
  match c with CFail outcome _ _ => outcome =? EXECUTION_NOT_DELIVERED | _ => false end.

(** The call is with its handler, or it completed with another outcome than
    "not delivered". *)
Definition delivered (i : invocation_state) : Prop :=
  i_phase i = dispatched ∨ (completed i = true ∧ i_execution_outcome i ≠ EXECUTION_NOT_DELIVERED).

Lemma delivered_same i i' : i_phase i' = i_phase i → outcome_of i' = outcome_of i → delivered i → delivered i'.
Proof. unfold delivered, completed, outcome_of. intros -> [= -> _ _]. done. Qed.

Lemma delivered_publish pub i0 i' outcome reason bytes rs error :
  publish_locked_no_wake i0 outcome reason bytes rs error = (pub, i') → outcome ≠ EXECUTION_NOT_DELIVERED →
  delivered i0 → delivered i'.
Proof.
  unfold publish_locked_no_wake. intros Hpub Hok Hd.
  destruct (completed i0 || i_client_closed i0); injection Hpub as <- <-; [done|]. by right.
Qed.

(** Completed calls stay as they are. *)
Lemma delivered_final c i g : delivered i → completed i = true → delivered (call_step c i g).1.2.
Proof.
  intros [Hd|[_ Hd]] Hc; [unfold completed in Hc; by rewrite Hd in Hc|].
  pose proof (call_step_lawful c i g) as Hlaw. destruct (call_step c i g) as [[[pub con] i1] g1].
  destruct (lw_final _ _ _ _ Hlaw Hc) as [Hc' Ho]. right. split; [done|]. simpl. unfold outcome_of in Ho. congruence.
Qed.

Ltac delivered_auto :=
  cbv beta iota zeta; intros;
  first [ done | by left
        | by (eapply delivered_same; [..|eassumption])
        | by (eapply delivered_publish; [eassumption|done|try done; by eapply delivered_same]) ].

Lemma call_step_delivered c i g : denies_delivery c = false → delivered i → delivered (call_step c i g).1.2.
Proof.
  intros Hdeny Hd. destruct (completed i) eqn:Hcomp; [by apply delivered_final|].
  assert (i_phase i = dispatched) as Hp by (destruct Hd as [?|[??]]; [done|congruence]).
  destruct c; cbn [call_step];
    unfold begin_receive, rollback_receive_locked, finish_dispatch, mark_dispatched, set_queue_owner, clear_queue_owner,
      cancel_locked, expire_removed, expire_locked, abandon_responder, publish_empty, restore_result, commit_result,
      consume_responder; rewrite ?Hp; simpl; try delivered_auto.
  - destruct (publish_locked_no_wake _ _ _ _ _ _) eqn:?; delivered_auto.
  - unfold close_client. pose proof (released_same (set_response [] [] (set_client_closed true i)) g) as [Hp' Ho].
    destruct (release_result_budget_locked _ g) as [i' g']. by eapply delivered_same, Hd.
  - destruct (i_responder_alive i); [|done]. simpl.
    destruct (publish_locked_no_wake _ _ _ _ _ _) eqn:?; delivered_auto.
  - destruct (i_responder_alive i); delivered_auto.
  - unfold complete_reply. destruct (publish_locked_no_wake _ _ _ _ _ _) as [pub i1] eqn:?.
    assert (delivered i1) as Hd1 by delivered_auto. destruct source; [|done]. destruct pub; [|done].
    destruct (commit_native_batch _ _). by eapply delivered_same, Hd1.
  - unfold complete_reply_lvalue, complete_reply. rewrite Hcomp.
    destruct (publish_locked_no_wake _ _ _ _ _ _) as [pub i1] eqn:?.
    assert (delivered i1) as Hd1 by delivered_auto. destruct source; [|done]. destruct pub; [|done].
    destruct (commit_native_batch _ _). by eapply delivered_same, Hd1.
  - unfold complete_failure. destruct (valid_failure _ _); [|done]. simpl in *. apply Z.eqb_neq in Hdeny.
    destruct (publish_locked_no_wake _ _ _ _ _ _) eqn:?; delivered_auto.
  - unfold reserve_result_budget. destruct (i_result_budget_reserved i); [done|].
    destruct (reserve_protocol_global _ _ _) as [[] ?]; delivered_auto.
  - unfold claim_result. rewrite Hp. simpl.
    set (i1 := if deadline_passed i now then _ else i). assert (delivered i1) as Hd1.
    { subst i1. destruct (deadline_passed i now); [|done].
      unfold publish_empty. destruct (publish_locked_no_wake _ _ _ _ _ _) eqn:?; delivered_auto. }
    clearbody i1. case_bool_decide; simpl; [|done]. destruct (i_result_claimed i1); [done|].
    destruct (_ || _); [done|]. by eapply delivered_same, Hd1.
  - destruct (negb (i_result_claimed i)); simpl; done.
  - destruct (negb (i_result_claimed i)); simpl; done.
Qed.

(** Once a request is with its handler, no cancellation, deadline, closed
    or abandoned end and no other call of the kernel makes the client read
    "not delivered": unless the handler itself fails the call with that
    outcome, the call is still running or completes as a reply or as an
    unknown outcome. *)
Theorem dispatched_is_never_undelivered cs i g :
  i_phase i = dispatched → Forall (λ c, denies_delivery c = false) cs → delivered (call_run cs i g).1.2.
Proof.
  intros Hp Hcs. apply call_run_invariant; [|by left].
  eapply Forall_impl; [exact Hcs|]. intros c Hc j g' Hj. by apply call_step_delivered.
Qed.

(** While a request is being handed to its handler, reading the result
    after the deadline publishes "not delivered", although the timer publishes
    "outcome unknown" for the same state and the worker of a kernel call goes
    on to run the method: its dispatch neither fails nor changes the state. *)
Theorem late_claim_denies_a_running_call i now f :
  i_phase i = receiving → i_client_closed i = false → deadline_passed i now = true →
  let i1 := (claim_result i now f).2 in
  completed i1 = true ∧ i_execution_outcome i1 = EXECUTION_NOT_DELIVERED ∧
  mark_dispatched i1 = i1 ∧
  i_execution_outcome (expire_locked i).2 = EXECUTION_OUTCOME_UNKNOWN ∧
  deadline_action_for (i_phase i) true = outcome_unknown_action.
Proof.
  intros Hp Hc Hd. unfold claim_result, expire_locked, publish_empty, publish_locked_no_wake, completed.
  rewrite Hp, Hc, Hd. simpl. rewrite Hp, Hc. simpl.
  destruct (i_result_claimed i); [done|]. simpl. by destruct (_ || _).
Qed.
End life.

(** ** Instances *)

Definition sample_invocation : invocation_state := make_invocation 0 7 100 0 0.
Definition sample_frame : result_frame := Build_result_frame 112 0 0 0 0 0 0 0 0 0 0 0 0 0.

Lemma dispatched_is_never_undelivered_witness :
  delivered (call_run (M := gmap Z entry) [CCancel None; CExpire; CCommit] (set_phase dispatched sample_invocation)
               (Build_globals 0 0 0)).1.2.
Proof. apply dispatched_is_never_undelivered; [reflexivity|]. repeat constructor. Defined.

Lemma late_claim_denies_a_running_call_witness :
  i_execution_outcome (claim_result (begin_receive sample_invocation).2 200 sample_frame).2 = EXECUTION_NOT_DELIVERED.
Proof.
  refine (proj1 (proj2 (late_claim_denies_a_running_call (begin_receive sample_invocation).2 200 sample_frame _ _ _)));
    vm_compute; reflexivity.
Defined.
