(* ===== verification/Protocol.v ===== *)
(** Protocol endpoints, includes/kernel/ipc/invocation.hpp and
    src/kernel/ipc/invocation.cc: the request queue of a protocol, the
    requests it holds and the parts of an invocation's life that visit the
    queue ([cancel], [expire_deadline], [deadline_expired]).

    The world is the set of invocations, requests, protocols and the objects
    that refer to them, each named by its address.  A request that is deleted
    gives up its responder, whose only reference it holds, and its resources:
    a released server end may close another queue, whose requests are deleted
    in turn, so deletion is a recursion on the number of requests left, which
    is its fuel.  [last] says which objects lose their last reference. *)
From stdpp Require Import base list numbers gmap.
From S2P Require Import Prelude Abi BoundedQueue Capability ResourceTable Channel Invocation.

Local Open Scope Z_scope.

Inductive endpoint_role : Type := client | server.

#[global] Instance endpoint_role_eq_dec : EqDecision endpoint_role.
Proof. solve_decision. Defined.

(** [na_protocol_descriptor_t]. *)
Record protocol_descriptor : Type := Build_descriptor {
  pd_struct_size : Z;
  pd_flags : Z;
  pd_uuid : list Z;
  pd_scope : Z;
  pd_revision : Z;
  pd_features : Z;
  pd_protocol_rights : Z;
  pd_method_count : Z;
  pd_max_request_bytes : Z;
  pd_max_response_bytes : Z;
  pd_max_resources : Z;
  pd_reserved0 : Z;
  pd_reserved1 : Z;
  pd_method_bitmap : list Z;
  pd_oneway_bitmap : list Z;
  pd_method_rights : list Z;
}.

(** [iq_source] says whether [source_resources] is set: the table itself is an
    argument of the calls that use it. *)
Record invocation_request : Type := Build_request {
  iq_state : Z;
  iq_method_id : Z;
  iq_operation_deadline : Z;
  iq_caller_pid : Z;
  iq_source : bool;
  iq_queued_resource_count : Z;
  iq_bytes : list Z;
  iq_resources : list transfer_record;
  iq_responder : transferred_resource;
}.

Definition request_bytes (r : invocation_request) : Z := Z.of_nat (length (iq_bytes r)).
Definition request_resources (r : invocation_request) : Z := Z.of_nat (length (iq_resources r)).

(** [owners_] and [roots_] have one element per role. *)
Record protocol_state : Type := Build_protocol {
  ps_descriptor : protocol_descriptor;
  ps_queue : msg_queue;
  ps_max_messages : Z;
  ps_max_bytes : Z;
  ps_max_resources : Z;
  ps_owners : list Z;
  ps_roots : list Z;
  ps_active_operations : Z;
  ps_active_claims : Z;
  ps_valid : bool;
  ps_server_closed : bool;
}.

(** [storage_ok] says whether the queue and its storage were allocated. *)
Definition make_protocol (d : protocol_descriptor) (messages bytes resources : Z) (storage_ok : bool) : protocol_state :=
  Build_protocol d (Build_queue (make_bounded_queue (allocate_queue_storage messages storage_ok) messages) 0 0)
    messages bytes resources [0; 0] [0; 0] 0 0 storage_ok false.

Definition set_pqueue (q : msg_queue) (st : protocol_state) : protocol_state :=
  Build_protocol (ps_descriptor st) q (ps_max_messages st) (ps_max_bytes st) (ps_max_resources st) (ps_owners st)
    (ps_roots st) (ps_active_operations st) (ps_active_claims st) (ps_valid st) (ps_server_closed st).
Definition set_powners (side n : Z) (st : protocol_state) : protocol_state :=
  Build_protocol (ps_descriptor st) (ps_queue st) (ps_max_messages st) (ps_max_bytes st) (ps_max_resources st)
    (zset (ps_owners st) side n) (ps_roots st) (ps_active_operations st) (ps_active_claims st) (ps_valid st)
    (ps_server_closed st).
Definition set_proots (side n : Z) (st : protocol_state) : protocol_state :=
  Build_protocol (ps_descriptor st) (ps_queue st) (ps_max_messages st) (ps_max_bytes st) (ps_max_resources st)
    (ps_owners st) (zset (ps_roots st) side n) (ps_active_operations st) (ps_active_claims st) (ps_valid st)
    (ps_server_closed st).
Definition set_poperations (n : Z) (st : protocol_state) : protocol_state :=
  Build_protocol (ps_descriptor st) (ps_queue st) (ps_max_messages st) (ps_max_bytes st) (ps_max_resources st)
    (ps_owners st) (ps_roots st) n (ps_active_claims st) (ps_valid st) (ps_server_closed st).
Definition set_pclaims (n : Z) (st : protocol_state) : protocol_state :=
  Build_protocol (ps_descriptor st) (ps_queue st) (ps_max_messages st) (ps_max_bytes st) (ps_max_resources st)
    (ps_owners st) (ps_roots st) (ps_active_operations st) n (ps_valid st) (ps_server_closed st).
Definition set_server_closed (st : protocol_state) : protocol_state :=
  Build_protocol (ps_descriptor st) (ps_queue st) (ps_max_messages st) (ps_max_bytes st) (ps_max_resources st)
    (ps_owners st) (ps_roots st) (ps_active_operations st) (ps_active_claims st) (ps_valid st) true.

Definition role_index (role : endpoint_role) : Z := match role with client => 0 | server => 1 end.
Definition owners_of (st : protocol_state) (role : endpoint_role) : Z := zget (ps_owners st) (role_index role).
Definition proots_of (st : protocol_state) (role : endpoint_role) : Z := zget (ps_roots st) (role_index role).

Definition protocol_signals (st : protocol_state) (role : endpoint_role) : Z :=
  if negb (ps_valid st) then 0
  else
    let q := ps_queue st in
    let peer := match role with client => server | server => client end in
    let is_client := bool_decide (role = client) in
    let readable := if negb is_client && negb (queue_empty (q_fifo q)) then SIGNAL_READABLE else 0 in
    let writable :=
      if is_client && negb (owners_of st peer =? 0) && negb (queue_full (q_fifo q))
         && (q_bytes q <? ps_max_bytes st) && (q_resources q <? ps_max_resources st)
      then SIGNAL_WRITABLE else 0 in
    let closed :=
      if (owners_of st peer =? 0) || (is_client && ps_server_closed st) then SIGNAL_PEER_CLOSED else 0 in
    Z.lor readable (Z.lor writable closed).

(** ** The world *)

(** A call of a kernel object, waiting for a dispatch worker. *)
Record kernel_dispatch_request : Type := Build_dispatch {
  kd_state : Z;
  kd_target : entry;
  kd_caller : option Z;
  kd_method_id : Z;
  kd_bytes : list Z;
  kd_resources : list transfer_record;
}.

Record pworld : Type := Build_world {
  w_globals : globals;
  w_invocations : gmap Z invocation_state;
  w_requests : gmap Z invocation_request;
  w_protocols : gmap Z protocol_state;
  w_endpoints : gmap Z (Z * endpoint_role);
  w_invocation_objects : gmap Z Z;
  w_responders : gmap Z (Z * bool);
  w_descriptors : gmap Z protocol_descriptor;
  w_dispatch : list kernel_dispatch_request;
  w_generation : Z;
}.

Definition initial_world : pworld := Build_world (Build_globals 0 0 0) ∅ ∅ ∅ ∅ ∅ ∅ ∅ [] 0.

Definition with_pglobals (x : globals) (w : pworld) : pworld :=
  Build_world x (w_invocations w) (w_requests w) (w_protocols w) (w_endpoints w) (w_invocation_objects w)
    (w_responders w) (w_descriptors w) (w_dispatch w) (w_generation w).
Definition with_invocations (x : gmap Z invocation_state) (w : pworld) : pworld :=
  Build_world (w_globals w) x (w_requests w) (w_protocols w) (w_endpoints w) (w_invocation_objects w)
    (w_responders w) (w_descriptors w) (w_dispatch w) (w_generation w).
Definition with_requests (x : gmap Z invocation_request) (w : pworld) : pworld :=
  Build_world (w_globals w) (w_invocations w) x (w_protocols w) (w_endpoints w) (w_invocation_objects w)
    (w_responders w) (w_descriptors w) (w_dispatch w) (w_generation w).
Definition with_protocols (x : gmap Z protocol_state) (w : pworld) : pworld :=
  Build_world (w_globals w) (w_invocations w) (w_requests w) x (w_endpoints w) (w_invocation_objects w)
    (w_responders w) (w_descriptors w) (w_dispatch w) (w_generation w).
Definition with_pendpoints (x : gmap Z (Z * endpoint_role)) (w : pworld) : pworld :=
  Build_world (w_globals w) (w_invocations w) (w_requests w) (w_protocols w) x (w_invocation_objects w)
    (w_responders w) (w_descriptors w) (w_dispatch w) (w_generation w).
Definition with_invocation_objects (x : gmap Z Z) (w : pworld) : pworld :=
  Build_world (w_globals w) (w_invocations w) (w_requests w) (w_protocols w) (w_endpoints w) x (w_responders w)
    (w_descriptors w) (w_dispatch w) (w_generation w).
Definition with_responders (x : gmap Z (Z * bool)) (w : pworld) : pworld :=
  Build_world (w_globals w) (w_invocations w) (w_requests w) (w_protocols w) (w_endpoints w)
    (w_invocation_objects w) x (w_descriptors w) (w_dispatch w) (w_generation w).
Definition with_descriptors (x : gmap Z protocol_descriptor) (w : pworld) : pworld :=
  Build_world (w_globals w) (w_invocations w) (w_requests w) (w_protocols w) (w_endpoints w)
    (w_invocation_objects w) (w_responders w) x (w_dispatch w) (w_generation w).
Definition with_dispatch (x : list kernel_dispatch_request) (w : pworld) : pworld :=
  Build_world (w_globals w) (w_invocations w) (w_requests w) (w_protocols w) (w_endpoints w)
    (w_invocation_objects w) (w_responders w) (w_descriptors w) x (w_generation w).

(** [wake_invocation_waiters] is [notify_channel_waiters] of channel.cc. *)
Definition wake (w : pworld) : pworld :=
  Build_world (w_globals w) (w_invocations w) (w_requests w) (w_protocols w) (w_endpoints w)
    (w_invocation_objects w) (w_responders w) (w_descriptors w) (w_dispatch w) (u64 (w_generation w + 1)).
Definition wake_if (b : bool) (w : pworld) : pworld := if b then wake w else w.

Definition no_request : invocation_request := Build_request 0 0 0 0 false 0 [] [] empty_resource.
Definition no_protocol : protocol_state :=
  make_protocol (Build_descriptor 0 0 [] 0 0 0 0 0 0 0 0 0 0 [] [] []) 0 0 0 false.

Definition inv_at (w : pworld) (n : Z) : invocation_state :=
  default (make_invocation 0 0 0 0 0) (w_invocations w !! n).
Definition request_at (w : pworld) (p : Z) : invocation_request := default no_request (w_requests w !! p).
Definition protocol_at (w : pworld) (s : Z) : protocol_state := default no_protocol (w_protocols w !! s).

Definition update_inv (n : Z) (f : invocation_state → invocation_state) (w : pworld) : pworld :=
  with_invocations (alter f n (w_invocations w)) w.
Definition update_protocol (s : Z) (f : protocol_state → protocol_state) (w : pworld) : pworld :=
  with_protocols (alter f s (w_protocols w)) w.

(** A method of invocation [n] that returns whether waiters are woken. *)
Definition publish_on (n : Z) (f : invocation_state → bool * invocation_state) (w : pworld) : pworld :=
  let '(woke, i) := f (inv_at w n) in wake_if woke (update_inv n (λ _, i) w).

(** A method that gives the result budget back. *)
Definition release_on (n : Z) (f : invocation_state → globals → invocation_state * globals) (w : pworld) : pworld :=
  match w_invocations w !! n with
  | Some i => let '(i', g) := f i (w_globals w) in with_pglobals g (update_inv n (λ _, i') w)
  | None => w
  end.

(** ** Leaving the queue *)

(** A queue after [fifo] replaced its storage and request [r] left it. *)
Definition shrink_queue (q : msg_queue) (fifo : bounded_queue Z) (r : invocation_request) : msg_queue :=
  Build_queue fifo (u64 (q_bytes q - request_bytes r)) (u64 (q_resources q - iq_queued_resource_count r)).

Definition release_request (g : globals) (r : invocation_request) : globals :=
  release_protocol_global g (request_bytes r) (iq_queued_resource_count r).

(** The search of [remove_queued]: the first request of invocation [n] at the
    offset [i] or behind.  It looks at every queued request once, which is the
    fuel. *)
Fixpoint find_request (fuel : nat) (w : pworld) (q : bounded_queue Z) (n i : Z) : option Z :=
  match fuel with
  | O => None
  | S fuel' =>
    if i <? queue_size q then
      let p := queue_at null q i in
      if (p =? null) || negb (iq_state (request_at w p) =? n) then find_request fuel' w q n (i + 1) else Some p
    else None
  end.

(** The removed request, if there is one. *)
Definition remove_queued (w : pworld) (s n : Z) : option Z * pworld :=
  let st := protocol_at w s in
  if negb (ps_valid st) || (n =? null) then (None, w)
  else
    let q := ps_queue st in
    match find_request (Z.to_nat (queue_size (q_fifo q))) w (q_fifo q) n 0 with
    | None => (None, w)
    | Some p =>
      let '(removed, fifo) := queue_remove null (q_fifo q) p in
      if negb removed then (None, w)
      else
        let r := request_at w p in
        (Some p, wake (with_pglobals (release_request (w_globals w) r)
                        (update_protocol s (set_pqueue (shrink_queue q fifo r)) w)))
    end.

(** The loop of [close_server_queue] over a queue: it stops at a claimed head.
    It runs once per queued request, which is the fuel. *)
Fixpoint drain_requests (fuel : nat) (requests : gmap Z invocation_request) (q : msg_queue) (g : globals)
    (discarded : list Z) : msg_queue * globals * list Z :=
  match fuel with
  | O => (q, g, discarded)
  | S fuel' =>
    if queue_empty (q_fifo q) then (q, g, discarded)
    else
      let '(claimed, fifo) := claim_front (q_fifo q) in
      if negb claimed then (q, g, discarded)
      else
        let p := queue_front null fifo in
        if p =? null then drain_requests fuel' requests (Build_queue (commit_claim fifo) (q_bytes q) (q_resources q)) g discarded
        else
          let r := default no_request (requests !! p) in
          drain_requests fuel' requests (shrink_queue q (commit_claim fifo) r) (release_request g r) (discarded ++ [p])
  end.

(** The locked part of [close_server_queue]. *)
Definition close_queue_locked (w : pworld) (s : Z) : list Z * pworld :=
  let st := protocol_at w s in
  let q := ps_queue st in
  let '(q', g, discarded) := drain_requests (Z.to_nat (queue_size (q_fifo q))) (w_requests w) q (w_globals w) [] in
  (discarded, with_pglobals g (update_protocol s (λ st, set_server_closed (set_pqueue q' st)) w)).

(** [delete_] deletes a request. *)
Definition close_server_queue_with (delete_ : pworld → Z → pworld) (w : pworld) (s : Z) : pworld :=
  let '(discarded, w1) := close_queue_locked w s in
  let discard_one w p :=
    let n := iq_state (request_at w p) in
    delete_ (publish_on n (λ i, complete_not_delivered i REASON_PEER_CLOSED) (update_inv n clear_queue_owner w)) p in
  wake (foldl discard_one w1 discarded).

(** ** The objects *)

Definition endpoint_acquired (st : protocol_state) (role : endpoint_role) (where_ : location) : protocol_state :=
  let index := role_index role in
  let st1 := set_powners index (u64 (owners_of st role + 1)) st in
  if decide (where_ = table_root) then set_proots index (u64 (proots_of st1 role + 1)) st1 else st1.

Definition endpoint_released (st : protocol_state) (role : endpoint_role) (where_ : location) : protocol_state :=
  let index := role_index role in
  let st1 := set_powners index (u64 (owners_of st role - 1)) st in
  if decide (where_ = table_root) then set_proots index (u64 (proots_of st1 role - 1)) st1 else st1.

Definition release_endpoint_with (delete_ : pworld → Z → pworld) (w : pworld) (s : Z) (role : endpoint_role)
    (where_ : location) : pworld :=
  let w1 := update_protocol s (λ st, endpoint_released st role where_) w in
  if bool_decide (role = server) && (owners_of (protocol_at w1 s) server =? 0)
  then close_server_queue_with delete_ w1 s else w1.

(** [on_capability_acquire], [on_capability_release] and
    [on_capability_handoff] of the three kinds of objects. *)
Definition phook_with (delete_ : pworld → Z → pworld) (w : pworld) (e : cap_event) : pworld :=
  match e with
  | Acquire o where_ =>
    match w_endpoints w !! o with
    | Some (s, role) => update_protocol s (λ st, endpoint_acquired st role where_) w
    | None => w
    end
  | Release o where_ =>
    match w_endpoints w !! o, w_invocation_objects w !! o, w_responders w !! o with
    | Some (s, role), _, _ => release_endpoint_with delete_ w s role where_
    | None, Some n, _ => if decide (where_ = table_root) then release_on n close_client w else w
    | None, None, Some (n, consumed_) =>
      if bool_decide (where_ = table_root) && negb consumed_ then publish_on n abandon_responder w else w
    | None, None, None => w
    end
  | Handoff o from _ =>
    match w_endpoints w !! o with
    | Some (s, role) => release_endpoint_with delete_ w s role from
    | None => w
    end
  end.

(** The destructors. *)
Definition destroy_object_with (delete_ : pworld → Z → pworld) (w : pworld) (o : Z) : pworld :=
  match w_endpoints w !! o, w_invocation_objects w !! o, w_responders w !! o with
  | Some (s, role), _, _ =>
    let w1 := with_pendpoints (delete o (w_endpoints w)) w in
    if bool_decide (role = server) then close_server_queue_with delete_ w1 s else w1
  | None, Some n, _ =>
    release_on n close_client (with_invocation_objects (delete o (w_invocation_objects w)) w)
  | None, None, Some (n, consumed_) =>
    let w1 := with_responders (delete o (w_responders w)) w in
    if negb consumed_ then publish_on n abandon_responder w1 else w1
  | None, None, None => w
  end.

(** [~transferred_resource]. *)
Definition drop_transferred_with (delete_ : pworld → Z → pworld) (last : Z → bool) (w : pworld)
    (r : transferred_resource) : pworld :=
  let w1 := foldl (phook_with delete_) w (release_transit r).2 in
  match t_object r with
  | Some o => if last o then destroy_object_with delete_ w1 o else w1
  | None => w1
  end.

(** [~invocation_request]: the members in reverse order; the responder in a
    request is its only reference. *)
Fixpoint delete_request (fuel : nat) (last : Z → bool) (w : pworld) (p : Z) : pworld :=
  match fuel with
  | O => w
  | S fuel' =>
    let r := request_at w p in
    let w1 := drop_transferred_with (delete_request fuel' last) (λ _, true)
                (with_requests (delete p (w_requests w)) w) (iq_responder r) in
    foldl (drop_transferred_with (delete_request fuel' last) last) w1 (c_resource <$> iq_resources r)
  end.

Definition dispose (last : Z → bool) (w : pworld) (p : Z) : pworld :=
  delete_request (S (size (w_requests w))) last w p.

Definition close_server_queue (last : Z → bool) (w : pworld) (s : Z) : pworld :=
  close_server_queue_with (dispose last) w s.
Definition phook (last : Z → bool) (w : pworld) (e : cap_event) : pworld := phook_with (dispose last) w e.
Definition phooks (last : Z → bool) (w : pworld) (log : list cap_event) : pworld := foldl (phook last) w log.
Definition destroy_object (last : Z → bool) (w : pworld) (o : Z) : pworld := destroy_object_with (dispose last) w o.
Definition drop_transferred (last : Z → bool) (w : pworld) (r : transferred_resource) : pworld :=
  drop_transferred_with (dispose last) last w r.

(** ** The request queue *)

(** Whether the request counts its responder. *)
Definition request_load (r : invocation_request) : Z :=
  u64 (request_resources r + (if resource_valid (iq_responder r) then 1 else 0)).

(** The checks before the lock. *)
Definition enqueue_invalid (st : protocol_state) (r : invocation_request) : bool :=
  negb (ps_valid st) || (ps_max_bytes st <? request_bytes r) || (ps_max_resources st <? request_resources r).

Section methods.
Context {M : Type} `{HandleMap M}.
Abbreviation table := (resource_table M).

(** The locked part of [enqueue] for request [r] at address [p]: it becomes
    part of the world when it is queued, and the batch it carries is
    committed to the sender's table. *)
Definition enqueue_request_locked (w : pworld) (t : table) (s p : Z) (r : invocation_request)
    : na_status * pworld * table :=
  let st := protocol_at w s in
  let q := ps_queue st in
  if (owners_of st server =? 0) || ps_server_closed st then (PEER_CLOSED, w, t)
  else
    let count := request_load r in
    if ps_max_resources st <? count then (INVALID_MESSAGE, w, t)
    else if queue_full (q_fifo q) || (u64 (ps_max_bytes st - request_bytes r) <? q_bytes q)
            || (u64 (ps_max_resources st - count) <? q_resources q)
    then (WOULD_BLOCK, w, t)
    else
      let '(granted, g1) := reserve_protocol_global (w_globals w) (request_bytes r) count in
      if negb granted then (RESOURCE_EXHAUSTED, with_pglobals g1 w, t)
      else
        let '(pushed, fifo) := try_push (q_fifo q) p in
        if negb pushed then
          (WOULD_BLOCK, with_pglobals (release_protocol_global g1 (request_bytes r) count) w, t)
        else
          let q' := Build_queue fifo (u64 (q_bytes q + request_bytes r)) (u64 (q_resources q + count)) in
          let '(rs, t') := if iq_source r then commit_native_batch t (iq_resources r) else (iq_resources r, t) in
          let r' := Build_request (iq_state r) (iq_method_id r) (iq_operation_deadline r) (iq_caller_pid r) false
                      count (iq_bytes r) rs (iq_responder r) in
          (STATUS_OK, with_requests (<[p := r']> (w_requests w))
                        (with_pglobals g1 (update_protocol s (set_pqueue q') w)), t').

(** [cancel]; [queue_owner] is the argument, [None] for a null pointer. *)
Definition cancel (last : Z → bool) (w : pworld) (n : Z) (queue_owner : option Z) : bool * pworld :=
  let i := inv_at w n in
  let owner := match queue_owner with Some s => Some s | None => i_queue_owner i end in
  let '(removed, w1) :=
    match owner with
    | Some s => if bool_decide (i_phase i = queued) then remove_queued w s n else (None, w)
    | None => (None, w)
    end in
  let found := match owner with
               | Some _ => Some match removed with Some _ => true | None => false end
               | None => None
               end in
  let '(cancelled, wake_after, i') := cancel_locked i found in
  let w2 := wake_if wake_after (update_inv n (λ _, i') w1) in
  match removed with
  | Some p => (cancelled, dispose last (update_inv (iq_state (request_at w2 p)) clear_queue_owner w2) p)
  | None => (cancelled, w2)
  end.

(** [expire_deadline] at time [now]. *)
Definition expire_deadline (last : Z → bool) (now : Z) (w : pworld) (n : Z) : pworld :=
  let i := inv_at w n in
  if negb (deadline_passed i now) then w
  else
    let owner := match deadline_action_for (i_phase i) true with
                 | remove_queued_action => i_queue_owner i
                 | _ => None
                 end in
    let '(removed, w1) := match owner with Some s => remove_queued w s n | None => (None, w) end in
    match removed with
    | Some p =>
      let w2 := publish_on n expire_removed (update_inv n clear_queue_owner w1) in dispose last w2 p
    | None => publish_on n expire_locked w1
    end.

(** [arm_deadline]: [watch_ok] says whether the watch was allocated and
    [scheduled] whether the timer took it; a deadline the timer refuses is
    expired at once. *)
Definition arm_deadline (last : Z → bool) (now : Z) (w : pworld) (n : Z) (watch_ok scheduled : bool)
    : na_status * pworld :=
  if i_operation_deadline (inv_at w n) =? no_operation_deadline then (STATUS_OK, w)
  else if negb watch_ok then (RESOURCE_EXHAUSTED, w)
  else if negb scheduled then (STATUS_OK, expire_deadline last now w n)
  else (STATUS_OK, w).

Definition deadline_expired (last : Z → bool) (now : Z) (w : pworld) (n : Z) : bool * pworld :=
  if negb (deadline_passed (inv_at w n) now) then (false, w)
  else let w1 := expire_deadline last now w n in (completed (inv_at w1 n), w1).

(** [enqueue]: the status, whether the request is still queued, the world and
    the sender's table. *)
Definition enqueue_request (last : Z → bool) (w : pworld) (t : table) (s p : Z) (r : invocation_request)
    : na_status * bool * pworld * table :=
  if enqueue_invalid (protocol_at w s) r then (INVALID_MESSAGE, false, w, t)
  else
    let '(status, w1, t1) := enqueue_request_locked w t s p r in
    if negb (status_ok status) then (status, false, w1, t1)
    else
      let n := iq_state r in
      let w2 := if i_cancellation_requested (inv_at w1 n) then (cancel last w1 n (Some s)).2 else w1 in
      let '(still, w3) :=
        if has_flag (invocation_signals (inv_at w2 n)) SIGNAL_COMPLETED then
          match remove_queued w2 s n with
          | (Some p', w') =>
            (false, dispose last (update_inv (iq_state (request_at w' p')) clear_queue_owner w') p')
          | (None, w') => (true, w')
          end
        else (true, w2) in
      (status, still, wake w3, t1).
End methods.

Definition claim (w : pworld) (s : Z) : na_status * Z * pworld :=
  let st := protocol_at w s in
  if negb (ps_valid st) then (RESOURCE_EXHAUSTED, null, w)
  else
    let q := ps_queue st in
    if queue_empty (q_fifo q) then ((if owners_of st client =? 0 then PEER_CLOSED else WOULD_BLOCK), null, w)
    else
      let '(claimed, fifo) := claim_front (q_fifo q) in
      if negb claimed then (WOULD_BLOCK, null, w)
      else (STATUS_OK, queue_front null fifo,
            update_protocol s (λ st, set_pclaims (u64 (ps_active_claims st + 1))
                                       (set_pqueue (Build_queue fifo (q_bytes q) (q_resources q)) st)) w).

(** Whether [p] is the claimed head. *)
Definition claimed_head (st : protocol_state) (p : Z) : bool :=
  ps_valid st && is_claimed (q_fifo (ps_queue st)) && (queue_front null (q_fifo (ps_queue st)) =? p).

Definition cancel_request_claim (w : pworld) (s p : Z) : bool * pworld :=
  let st := protocol_at w s in
  if negb (claimed_head st p) then (false, w)
  else
    let q := ps_queue st in
    (true, wake (update_protocol s (λ st, set_pclaims (u64 (ps_active_claims st - 1))
                   (set_pqueue (Build_queue (cancel_claim (q_fifo q)) (q_bytes q) (q_resources q)) st)) w)).

Definition commit_request_claim (w : pworld) (s p : Z) : bool * pworld :=
  let st := protocol_at w s in
  if negb (claimed_head st p) then (false, w)
  else
    let q := ps_queue st in
    let r := request_at w p in
    (true, wake (with_pglobals (release_request (w_globals w) r)
                   (update_protocol s (λ st, set_pclaims (u64 (ps_active_claims st - 1))
                      (set_pqueue (shrink_queue q (commit_claim (q_fifo q)) r) st)) w))).

(** [abort_claim] has the same effect as [commit_claim]. *)
Definition abort_claim (w : pworld) (s p : Z) : bool * pworld :=
  let st := protocol_at w s in
  if negb (claimed_head st p) then (false, w)
  else
    let q := ps_queue st in
    let r := request_at w p in
    (true, wake (with_pglobals (release_request (w_globals w) r)
                   (update_protocol s (λ st, set_pclaims (u64 (ps_active_claims st - 1))
                      (set_pqueue (shrink_queue q (commit_claim (q_fifo q)) r) st)) w))).

Definition begin_poperation (s : Z) (w : pworld) : pworld :=
  update_protocol s (λ st, set_poperations (u64 (ps_active_operations st + 1)) st) w.
Definition end_poperation (s : Z) (w : pworld) : pworld :=
  update_protocol s (λ st, set_poperations (u64 (ps_active_operations st - 1)) st) w.

(** [~protocol_state]: a claimed head would stop the loop.  It runs once per
    queued request, which is the fuel; the counters of the dying queue follow
    its requests. *)
Fixpoint destroy_requests (fuel : nat) (last : Z → bool) (w : pworld) (s : Z) : pworld :=
  match fuel with
  | O => w
  | S fuel' =>
    let q := ps_queue (protocol_at w s) in
    if queue_empty (q_fifo q) then w
    else
      let '(claimed, fifo) := claim_front (q_fifo q) in
      if negb claimed then w
      else
        let p := queue_front null fifo in
        if p =? null then
          destroy_requests fuel' last
            (update_protocol s (set_pqueue (Build_queue (commit_claim fifo) (q_bytes q) (q_resources q))) w) s
        else
          let r := request_at w p in
          let w1 := with_pglobals (release_request (w_globals w) r)
                      (update_protocol s (set_pqueue (shrink_queue q (commit_claim fifo) r)) w) in
          destroy_requests fuel' last (dispose last (update_inv (iq_state r) clear_queue_owner w1) p) s
  end.

Definition destroy_protocol (last : Z → bool) (w : pworld) (s : Z) : pworld :=
  let w1 := destroy_requests (Z.to_nat (queue_size (q_fifo (ps_queue (protocol_at w s))))) last w s in
  with_protocols (delete s (w_protocols w1)) w1.
