(* ===== verification/ProtocolCalls.v ===== *)
(** The calls of src/kernel/ipc/invocation.cc on protocols: descriptors,
    endpoint creation, submission, receiving, results, replies and failures.
    The statuses of the user copies, the allocations, the clock and the fresh
    addresses are arguments; a kernel object that serves a call appears here by what
    it does to the invocation, and KernelCalls.v and ServiceCalls.v have the dispatch
    and the methods. *)
From stdpp Require Import base list numbers gmap.
From S2P Require Import Prelude Abi Usercopy BoundedQueue Capability ResourceTable Channel ChannelSystem.
From S2P Require Import Invocation Protocol.

Local Open Scope Z_scope.

(** ** Descriptors *)

Definition PROTOCOL_METHOD_BITMAP_WORDS : Z := 4.
Definition PROTOCOL_MAX_METHOD_ID : Z := PROTOCOL_METHOD_BITMAP_WORDS * 64.
Definition PROTOCOL_FLAG_ALLOW_ONEWAY : Z := 1.
Definition CALL_FLAG_ONEWAY : Z := 1.
Definition CALL_FLAG_FLEXIBLE : Z := 2.
Definition descriptor_sizeof : Z := 2216.

(** The bit of method [method_id] in a bitmap. *)
Definition method_bit (bitmap : list Z) (method_id : Z) : bool :=
  has_flag (zget bitmap (u64 (method_id - 1) / 64)) (Z.shiftl 1 (u64 (method_id - 1) mod 64)).
Definition method_right (d : protocol_descriptor) (method_id : Z) : Z := zget (pd_method_rights d) (u64 (method_id - 1)).

Definition descriptor_allows_method (d : protocol_descriptor) (method_id : Z) : bool :=
  if (method_id =? 0) || (pd_method_count d <? method_id) || (PROTOCOL_MAX_METHOD_ID <? method_id) then false
  else method_bit (pd_method_bitmap d) method_id.

Definition descriptor_allows_oneway (d : protocol_descriptor) (method_id : Z) : bool :=
  if negb (descriptor_allows_method d method_id) then false else method_bit (pd_oneway_bitmap d) method_id.

Definition descriptor_allows_method_rights (d : protocol_descriptor) (method_id rights : Z) : bool :=
  descriptor_allows_method d method_id &&
  (Z.land rights (method_right d method_id) =? method_right d method_id).

(** A method number above the declared ones is unused. *)
Definition unused_method (d : protocol_descriptor) (method_id : Z) : bool :=
  negb (method_bit (pd_method_bitmap d) method_id) && negb (method_bit (pd_oneway_bitmap d) method_id)
  && (method_right d method_id =? 0).

Definition declared_method (d : protocol_descriptor) (method_id : Z) : bool :=
  let oneway := method_bit (pd_oneway_bitmap d) method_id in
  let method := method_bit (pd_method_bitmap d) method_id in
  negb (oneway && negb method) &&
  negb (oneway && negb (has_flag (pd_flags d) PROTOCOL_FLAG_ALLOW_ONEWAY)) &&
  negb (method && ((method_right d method_id =? 0)
                   || negb (no_flag_outside (method_right d method_id) (pd_protocol_rights d)))).

(** [na_protocol_endpoint_options_t]. *)
Record endpoint_options : Type := Build_endpoint_options {
  eo_struct_size : Z;
  eo_flags : Z;
  eo_client_meta_rights : Z;
  eo_server_meta_rights : Z;
  eo_max_messages : Z;
  eo_max_bytes : Z;
  eo_max_resources : Z;
  eo_reserved0 : Z;
  eo_client_protocol_rights : Z;
  eo_server_protocol_rights : Z;
}.
Definition endpoint_options_sizeof : Z := 72.

(** [na_submit_frame_t], [na_reply_frame_t] and [na_fail_frame_t]. *)
Record submit_frame : Type := Build_submit_frame {
  su_struct_size : Z;
  su_flags : Z;
  su_method_id : Z;
  su_request : Z;
  su_request_bytes : Z;
  su_resources : Z;
  su_resource_count : Z;
  su_operation_budget : Z;
  su_reserved0 : Z;
  su_reserved1 : Z;
}.
Definition submit_frame_sizeof : Z := 72.

Record reply_frame : Type := Build_reply_frame {
  ry_struct_size : Z;
  ry_flags : Z;
  ry_bytes : Z;
  ry_byte_count : Z;
  ry_resources : Z;
  ry_resource_count : Z;
  ry_reserved0 : Z;
  ry_reserved1 : Z;
}.
Definition reply_frame_sizeof : Z := 56.

Record fail_frame : Type := Build_fail_frame {
  fl_struct_size : Z;
  fl_flags : Z;
  fl_execution_outcome : Z;
  fl_outcome_reason : Z;
  fl_protocol_error : Z;
}.
Definition fail_frame_sizeof : Z := 24.

Definition result_frame_sizeof : Z := 96.

Definition checked_multiply (left_ right_ : Z) : option Z :=
  if negb (left_ =? 0) && ((2 ^ 64 - 1) / left_ <? right_) then None else Some (u64 (left_ * right_)).

Definition valid_user_output (address size : Z) : bool := negb (address =? 0) && is_user_space_range address size.

Definition kernel_view_metadata (scope : Z) (uuid : list Z) (rights protocol_rights revision features : Z) : metadata :=
  Build_metadata BINDING_KERNEL_VIEW uuid scope revision features rights (Z.lor protocol_rights PROTOCOL_RIGHT_INVOKE).

Definition with_binding (b : Z) (m : metadata) : metadata :=
  Build_metadata b (m_protocol_uuid m) (m_scope m) (m_revision m) (m_features m) (m_meta_rights m) (m_protocol_rights m).
Definition with_protocol_rights (rights : Z) (m : metadata) : metadata :=
  Build_metadata (m_binding m) (m_protocol_uuid m) (m_scope m) (m_revision m) (m_features m) (m_meta_rights m) rights.

Definition validate_submit_frame (f : submit_frame) (oneway : bool) : na_status :=
  if negb (valid_struct_size (su_struct_size f) submit_frame_sizeof)
     || negb (no_flag_outside (su_flags f) (Z.lor CALL_FLAG_ONEWAY CALL_FLAG_FLEXIBLE))
     || (negb oneway && has_flag (su_flags f) CALL_FLAG_ONEWAY)
     || negb (su_reserved0 f =? 0) || negb (su_reserved1 f =? 0)
  then INVALID_ARGUMENT
  else if (max_kernel_payload <? su_request_bytes f) || (CHANNEL_MAX_RESOURCES <? su_resource_count f)
  then INVALID_MESSAGE
  else match checked_multiply (su_resource_count f) disposition_sizeof with
  | None => INVALID_ARGUMENT
  | Some disposition_bytes =>
    if negb (valid_range (su_request f) (su_request_bytes f)) || negb (valid_range (su_resources f) disposition_bytes)
    then FAULT
    else if negb (su_request_bytes f =? 0) && (su_request f =? 0) then FAULT
    else if negb (su_resource_count f =? 0) && (su_resources f =? 0) then FAULT
    else STATUS_OK
  end.

(** The bytes and the dispositions the frame names, each with the status of
    its copy; an empty part is not copied. *)
Definition snapshot_request (f : submit_frame) (payload : na_status * list Z) (ds : na_status * list disposition)
    : na_status + (list Z * list disposition) :=
  if negb (su_request_bytes f =? 0) && negb (status_ok payload.1) then inl payload.1
  else
    let bytes := if su_request_bytes f =? 0 then [] else payload.2 in
    if su_resource_count f =? 0 then inr (bytes, [])
    else if negb (status_ok ds.1) then inl ds.1
    else inr (bytes, ds.2).

(** Whether three user buffers overlap pairwise. *)
Definition buffers_overlap (a an b bn c cn : Z) : bool :=
  ranges_overlap a an b bn || ranges_overlap a an c cn || ranges_overlap b bn c cn.

Section calls.
Context {M : Type} `{HandleMap M}.
Variable capability_is_unique : object → bool.
(** The scopes come from the generated IDL headers. *)
Variables scope_none scope_terminal_master scope_terminal_slave : Z.
Variable last : Z → bool.

Abbreviation table := (resource_table M).

Definition validate_descriptor (d : protocol_descriptor) : na_status :=
  let count := pd_method_count d in
  if negb (valid_struct_size (pd_struct_size d) descriptor_sizeof)
     || negb (no_flag_outside (pd_flags d) PROTOCOL_FLAG_ALLOW_ONEWAY)
     || negb (pd_reserved0 d =? 0) || negb (pd_reserved1 d =? 0) || forallb (Z.eqb 0) (pd_uuid d)
     || (pd_scope d =? scope_none) || (count =? 0) || (PROTOCOL_MAX_METHOD_ID <? count)
     || (max_kernel_payload <? pd_max_request_bytes d) || (max_kernel_payload <? pd_max_response_bytes d)
     || (CHANNEL_MAX_RESOURCES <? pd_max_resources d)
     || negb (has_flag (pd_protocol_rights d) PROTOCOL_RIGHT_INVOKE)
     || negb (method_bit (pd_method_bitmap d) count)
  then INVALID_ARGUMENT
  else if negb (forallb (unused_method d) (seqZ (count + 1) (PROTOCOL_MAX_METHOD_ID - count))) then INVALID_ARGUMENT
  else if negb (forallb (declared_method d) (seqZ 1 count)) then INVALID_ARGUMENT
  else STATUS_OK.

(** [close_native] with its hooks; the object goes away with its last
    reference. *)
Definition close_handle (w : pworld) (t : table) (handle : Z) : pworld * table :=
  let '(_, ev, t') := close_native t handle in
  let w1 := phooks last w ev in
  (match ev with
   | [Release o table_root] => if last o then destroy_object last w1 o else w1
   | _ => w1
   end, t').

Fixpoint close_handles (w : pworld) (t : table) (handles : list Z) : pworld * table :=
  match handles with
  | [] => (w, t)
  | h :: hs => let '(w1, t1) := close_handle w t h in close_handles w1 t1 hs
  end.

(** [install_native] with its hook. *)
Definition install_handle (w : pworld) (t : table) (o : Z) (meta : metadata) : Z * pworld * table :=
  let '(handle, ev, t') := install_native t (Some o) meta in (handle, phooks last w ev, t').

Definition descriptor_metadata (d : protocol_descriptor) : metadata :=
  Build_metadata BINDING_NONE (pd_uuid d) (pd_scope d) (pd_revision d) (pd_features d)
    (Z.lor RIGHT_DUPLICATE (Z.lor RIGHT_TRANSFER RIGHT_INSPECT)) (pd_protocol_rights d).

(** [o] is the address of the new descriptor object. *)
Definition create_protocol_descriptor (w : pworld) (t : table) (input output : Z) (alloc_ok : bool)
    (copied : na_status * protocol_descriptor) (o : Z) (written : na_status) : na_status * Z * pworld * table :=
  if negb (valid_user_output output handle_sizeof) then (FAULT, HANDLE_INVALID, w, t)
  else if negb alloc_ok then (RESOURCE_EXHAUSTED, HANDLE_INVALID, w, t)
  else if negb (status_ok copied.1) then (copied.1, HANDLE_INVALID, w, t)
  else if ranges_overlap input descriptor_sizeof output handle_sizeof then (INVALID_ARGUMENT, HANDLE_INVALID, w, t)
  else
    let d := copied.2 in
    let status := validate_descriptor d in
    if negb (status_ok status) then (status, HANDLE_INVALID, w, t)
    else
      let w1 := with_descriptors (<[o := d]> (w_descriptors w)) w in
      let '(handle, w2, t1) := install_handle w1 t o (descriptor_metadata d) in
      if handle =? HANDLE_INVALID
      then (RESOURCE_EXHAUSTED, HANDLE_INVALID, with_descriptors (delete o (w_descriptors w2)) w2, t1)
      else if negb (status_ok written) then
        let '(w3, t2) := close_handle w2 t1 handle in
        (written, HANDLE_INVALID, with_descriptors (delete o (w_descriptors w3)) w3, t2)
      else (written, handle, w2, t1).

(** ** Endpoints *)

Definition default_endpoint_options (d : protocol_descriptor) : endpoint_options :=
  Build_endpoint_options endpoint_options_sizeof 0
    (Z.lor RIGHT_DUPLICATE (Z.lor RIGHT_TRANSFER (Z.lor RIGHT_WAIT RIGHT_INSPECT)))
    (Z.lor RIGHT_TRANSFER (Z.lor RIGHT_WAIT RIGHT_INSPECT)) 64
    (if pd_max_request_bytes d =? 0 then CHANNEL_DEFAULT_MAX_BYTES else u64 (pd_max_request_bytes d * 4))
    CHANNEL_MAX_RESOURCES 0 (pd_protocol_rights d) (pd_protocol_rights d).

(** The options of the caller with its zeros replaced; [None] when they are
    malformed. *)
Definition fill_endpoint_options (v : endpoint_options) : option endpoint_options :=
  if negb (valid_struct_size (eo_struct_size v) endpoint_options_sizeof) || negb (eo_flags v =? 0)
     || negb (eo_reserved0 v =? 0)
  then None
  else Some (Build_endpoint_options (eo_struct_size v) (eo_flags v) (eo_client_meta_rights v) (eo_server_meta_rights v)
               (if eo_max_messages v =? 0 then 64 else eo_max_messages v)
               (if eo_max_bytes v =? 0 then CHANNEL_DEFAULT_MAX_BYTES else eo_max_bytes v)
               (if eo_max_resources v =? 0 then CHANNEL_MAX_RESOURCES else eo_max_resources v)
               (eo_reserved0 v) (eo_client_protocol_rights v) (eo_server_protocol_rights v)).

(** The rights the two ends get. *)
Definition settle_rights (d : protocol_descriptor) (v : endpoint_options) : endpoint_options :=
  Build_endpoint_options (eo_struct_size v) (eo_flags v)
    (if (pd_scope d =? scope_terminal_master) || (pd_scope d =? scope_terminal_slave)
     then Z.ldiff (eo_client_meta_rights v) RIGHT_DUPLICATE else eo_client_meta_rights v)
    (eo_server_meta_rights v) (eo_max_messages v) (eo_max_bytes v) (eo_max_resources v) (eo_reserved0 v)
    (if eo_client_protocol_rights v =? 0 then pd_protocol_rights d else eo_client_protocol_rights v)
    (if eo_server_protocol_rights v =? 0 then pd_protocol_rights d else eo_server_protocol_rights v).

(** The addresses and allocations of an endpoint pair. *)
Record endpoint_env : Type := Build_endpoint_env {
  ee_state : Z;
  ee_client : Z;
  ee_server : Z;
  ee_state_ok : bool;
  ee_storage_ok : bool;
  ee_client_ok : bool;
  ee_server_ok : bool;
}.

(** The status, the two objects with their metadata and the world. *)
Definition create_protocol_endpoint_objects (w : pworld) (d : protocol_descriptor)
    (options : option (na_status * endpoint_options)) (e : endpoint_env)
    : na_status * option (Z * Z * metadata * metadata) * pworld :=
  let chosen :=
    match options with
    | None => inr (default_endpoint_options d)
    | Some (copied, v) =>
      if negb (status_ok copied) then inl copied
      else match fill_endpoint_options v with None => inl INVALID_ARGUMENT | Some v' => inr v' end
    end in
  match chosen with
  | inl status => (status, None, w)
  | inr v0 =>
    let v := settle_rights d v0 in
    if negb (no_flag_outside (eo_client_protocol_rights v) (pd_protocol_rights d))
       || negb (no_flag_outside (eo_server_protocol_rights v) (pd_protocol_rights d))
    then (ACCESS_DENIED, None, w)
    else if (CHANNEL_MAX_MESSAGES <? eo_max_messages v) || (max_kernel_payload * 16 <? eo_max_bytes v)
            || (CHANNEL_MAX_RESOURCES <? eo_max_resources v)
            || negb (no_flag_outside (eo_client_meta_rights v)
                       (Z.lor RIGHT_DUPLICATE (Z.lor RIGHT_TRANSFER (Z.lor RIGHT_WAIT RIGHT_INSPECT))))
            || negb (no_flag_outside (eo_server_meta_rights v) (Z.lor RIGHT_TRANSFER (Z.lor RIGHT_WAIT RIGHT_INSPECT)))
    then (INVALID_ARGUMENT, None, w)
    else if negb (ee_state_ok e) || negb (ee_storage_ok e) || (pd_scope d =? scope_none)
    then (RESOURCE_EXHAUSTED, None, w)
    else if negb (ee_client_ok e) || negb (ee_server_ok e) then (RESOURCE_EXHAUSTED, None, w)
    else
      let st := make_protocol d (eo_max_messages v) (eo_max_bytes v) (eo_max_resources v) true in
      let client_meta :=
        with_binding BINDING_CLIENT_END
          (kernel_view_metadata (pd_scope d) (pd_uuid d) (eo_client_meta_rights v) (eo_client_protocol_rights v)
             (pd_revision d) (pd_features d)) in
      let server_meta :=
        with_protocol_rights (Z.lor (eo_server_protocol_rights v) PROTOCOL_RIGHT_INVOKE)
          (with_binding BINDING_SERVER_END client_meta) in
      let w1 := with_protocols (<[ee_state e := st]> (w_protocols w)) w in
      let w2 := with_pendpoints (<[ee_server e := (ee_state e, server)]>
                                   (<[ee_client e := (ee_state e, client)]> (w_endpoints w1))) w1 in
      (STATUS_OK,
       Some (ee_client e, ee_server e,
             with_protocol_rights (Z.lor (m_protocol_rights client_meta) PROTOCOL_RIGHT_INVOKE) client_meta,
             server_meta), w2)
  end.
(** [descriptor_object] is the descriptor an entry refers to, if any. *)
Definition create_protocol_endpoint (w : pworld) (t : table) (descriptor_handle : Z)
    (options : option (na_status * endpoint_options)) (client_address server_address : Z) (e : endpoint_env)
    (write_client write_server : na_status) : na_status * (Z * Z) * pworld * table :=
  let none := (HANDLE_INVALID, HANDLE_INVALID) in
  if negb (valid_user_output client_address handle_sizeof) || negb (valid_user_output server_address handle_sizeof)
  then (FAULT, none, w, t)
  else if ranges_overlap client_address handle_sizeof server_address handle_sizeof then (INVALID_ARGUMENT, none, w, t)
  else match lookup_native t descriptor_handle with
  | Some (Build_entry (Some o) _ _ meta) =>
    if negb (has_flag (m_meta_rights meta) RIGHT_INSPECT) then (ACCESS_DENIED, none, w, t)
    else match w_descriptors w !! o with
    | None => (WRONG_BINDING, none, w, t)
    | Some d =>
      let '(status, ends, w1) := create_protocol_endpoint_objects w d options e in
      match ends with
      | None => (status, none, w1, t)
      | Some (co, so, client_meta, server_meta) =>
        let '(client_handle, w2, t1) := install_handle w1 t co client_meta in
        if client_handle =? HANDLE_INVALID
        then (RESOURCE_EXHAUSTED, none, destroy_object last (destroy_object last w2 co) so, t1)
        else
          let '(server_handle, w3, t2) := install_handle w2 t1 so server_meta in
          if server_handle =? HANDLE_INVALID then
            let '(w4, t3) := close_handle (destroy_object last w3 so) t2 client_handle in
            (RESOURCE_EXHAUSTED, none, w4, t3)
          else if negb (status_ok write_client) || negb (status_ok write_server) then
            let '(w4, t3) := close_handle w3 t2 client_handle in
            let '(w5, t4) := close_handle w4 t3 server_handle in
            (FAULT, none, w5, t4)
          else (STATUS_OK, (client_handle, server_handle), w3, t2)
      end
    end
  | _ => (INVALID_HANDLE, none, w, t)
  end.

(** ** Submission *)

Definition endpoint_is_client (w : pworld) (e : entry) : option Z :=
  match e_object e with
  | Some o =>
    if negb (m_binding (e_meta e) =? BINDING_CLIENT_END) then None
    else match w_endpoints w !! o with Some (s, client) => Some s | _ => None end
  | None => None
  end.

Definition endpoint_is_server (w : pworld) (e : entry) : option Z :=
  match e_object e with
  | Some o =>
    if negb (m_binding (e_meta e) =? BINDING_SERVER_END) then None
    else match w_endpoints w !! o with Some (s, server) => Some s | _ => None end
  | None => None
  end.

(** What a submission reads from its caller, the allocator, the timer and the
    clock, and the addresses of what it creates. *)
Record submit_env : Type := Build_submit_env {
  sb_frame_address : Z;
  sb_frame : na_status * submit_frame;
  sb_output : Z;
  sb_payload : na_status * list Z;
  sb_dispositions : na_status * list disposition;
  sb_now : Z;
  sb_pid : Z;
  sb_invocation : Z;
  sb_invocation_object : Z;
  sb_request : Z;
  sb_responder : Z;
  sb_state_ok : bool;
  sb_watch_ok : bool;
  sb_scheduled : bool;
  sb_object_ok : bool;
  sb_request_ok : bool;
  sb_responder_ok : bool;
  sb_take_ok : bool;
  sb_dispatcher : bool;
  sb_caller_ok : bool;
  sb_written : na_status;
}.

(** The checks that do not depend on the caller's capabilities. *)
Definition submit_frame_check (e : submit_env) (oneway output_is_user : bool) : option na_status :=
  let f := (sb_frame e).2 in
  let dispositions := u64 (su_resource_count f * disposition_sizeof) in
  let valid := validate_submit_frame f oneway in
  if negb (status_ok (sb_frame e).1) then Some (sb_frame e).1
  else if negb (status_ok valid) then Some valid
  else if negb oneway && output_is_user && negb (valid_user_output (sb_output e) handle_sizeof) then Some FAULT
  else if negb oneway && negb output_is_user && (sb_output e =? 0) then Some INVALID_ARGUMENT
  else if oneway && negb (sb_output e =? 0) then Some INVALID_ARGUMENT
  else if buffers_overlap (sb_frame_address e) submit_frame_sizeof (su_request f) (su_request_bytes f)
            (su_resources f) dispositions
  then Some INVALID_ARGUMENT
  else None.

(** The checks against the target: the protocol of a client end, or [None]
    for a kernel object. *)
Definition submit_target (w : pworld) (target : entry) (f : submit_frame) (oneway : bool) : na_status + option Z :=
  let is_kernel := m_binding (e_meta target) =? BINDING_KERNEL_VIEW in
  match endpoint_is_client w target with
  | None =>
    if negb is_kernel then inl WRONG_BINDING
    else if negb (has_flag (m_protocol_rights (e_meta target)) PROTOCOL_RIGHT_INVOKE) then inl ACCESS_DENIED
    else if su_method_id f =? 0 then inl INVALID_ARGUMENT
    else if oneway then inl ACCESS_DENIED
    else inr None
  | Some s =>
    let st := protocol_at w s in
    let d := ps_descriptor st in
    if negb (has_flag (m_protocol_rights (e_meta target)) PROTOCOL_RIGHT_INVOKE) then inl ACCESS_DENIED
    else if negb (ps_valid st) then inl OBJECT_REVOKED
    else if negb (descriptor_allows_method d (su_method_id f)) then inl INVALID_MESSAGE
    else if negb (descriptor_allows_method_rights d (su_method_id f) (m_protocol_rights (e_meta target)))
    then inl ACCESS_DENIED
    else if (negb (pd_max_request_bytes d =? 0) && (pd_max_request_bytes d <? su_request_bytes f))
            || (negb (pd_max_resources d =? 0) && (pd_max_resources d <? su_resource_count f))
    then inl INVALID_MESSAGE
    else if oneway then
      (if negb (has_flag (pd_flags d) PROTOCOL_FLAG_ALLOW_ONEWAY) || negb (descriptor_allows_oneway d (su_method_id f))
       then inl ACCESS_DENIED else inr (Some s))
    else if descriptor_allows_oneway d (su_method_id f) then inl INVALID_ARGUMENT
    else inr (Some s)
  end.

(** [~handle_t<invocation_state>] of the local reference: the state goes away
    unless a deadline watch keeps it. *)
Definition drop_state (w : pworld) (n : Z) (watched : bool) : pworld :=
  if watched then w else release_on n release_result_budget_locked w.

Definition invocation_metadata (target : metadata) : metadata :=
  Build_metadata BINDING_INVOCATION (m_protocol_uuid target) (m_scope target) (m_revision target) (m_features target)
    (Z.lor RIGHT_TRANSFER (Z.lor RIGHT_WAIT RIGHT_INSPECT)) 0.

(** The creation of the invocation: its state with the result budget and the
    deadline, and for a two-way call its handle. *)
Definition submit_invocation (w : pworld) (t : table) (target : entry) (f : submit_frame) (e : submit_env)
    (protocol : option Z) (oneway : bool) : na_status * Z * pworld * table :=
  let n := sb_invocation e in
  let '(max_bytes, max_resources) :=
    match protocol with
    | Some s => (pd_max_response_bytes (ps_descriptor (protocol_at w s)), pd_max_resources (ps_descriptor (protocol_at w s)))
    | None => (max_kernel_payload, CHANNEL_MAX_RESOURCES)
    end in
  if negb (sb_state_ok e) then (RESOURCE_EXHAUSTED, HANDLE_INVALID, w, t)
  else
    let i0 := make_invocation (sb_now e) (su_method_id f) (su_operation_budget f) max_bytes max_resources in
    let '(granted, i, g) := if oneway then (true, i0, w_globals w) else reserve_result_budget i0 (w_globals w) in
    let w1 := with_pglobals g (with_invocations (<[n := i]> (w_invocations w)) w) in
    if negb granted then (RESOURCE_EXHAUSTED, HANDLE_INVALID, w1, t)
    else
      let '(armed, w2) := arm_deadline last (sb_now e) w1 n (sb_watch_ok e) (sb_scheduled e) in
      let watched := negb (i_operation_deadline i =? no_operation_deadline) && sb_scheduled e in
      if negb (status_ok armed) then (armed, HANDLE_INVALID, drop_state w2 n false, t)
      else
        let w3 := match protocol with Some s => update_inv n (set_queue_owner s) w2 | None => w2 end in
        if oneway then (STATUS_OK, HANDLE_INVALID, w3, t)
        else if negb (sb_object_ok e) then (RESOURCE_EXHAUSTED, HANDLE_INVALID, drop_state w3 n watched, t)
        else
          let o := sb_invocation_object e in
          let w4 := with_invocation_objects (<[o := n]> (w_invocation_objects w3)) w3 in
          let '(handle, w5, t1) := install_handle w4 t o (invocation_metadata (e_meta target)) in
          if handle =? HANDLE_INVALID then
            (RESOURCE_EXHAUSTED, HANDLE_INVALID, drop_state (destroy_object last w5 o) n watched, t1)
          else (STATUS_OK, handle, w5, t1).

(** Giving up the invocation handle of a two-way call. *)
Definition close_invocation (w : pworld) (t : table) (handle : Z) (oneway : bool) : pworld * table :=
  if oneway then (w, t) else close_handle w t handle.

(** Handing the new handle to the caller; [owner] is the argument of the
    cancellation after a failed copy. *)
Definition publish_handle (w : pworld) (t : table) (e : submit_env) (handle : Z) (owner : option Z)
    (oneway output_is_user : bool) : na_status * option Z * pworld * table :=
  if oneway then (STATUS_OK, None, w, t)
  else if output_is_user && negb (status_ok (sb_written e)) then
    let '(_, w1) := cancel last w (sb_invocation e) owner in
    let '(w2, t1) := close_handle w1 t handle in
    (sb_written e, None, w2, t1)
  else (STATUS_OK, Some handle, w, t).

(** The client-end half of a submission. *)
Definition submit_request (w : pworld) (t : table) (target_handle : Z) (target : entry) (f : submit_frame)
    (bytes : list Z) (ds : list disposition) (s handle : Z) (e : submit_env) (oneway output_is_user : bool)
    : na_status * option Z * pworld * table :=
  let n := sb_invocation e in
  let abandon status w t := let '(w', t') := close_invocation w t handle oneway in (status, None, w', t') in
  if negb (sb_request_ok e) then abandon RESOURCE_EXHAUSTED w t
  else if negb oneway && negb (sb_responder_ok e) then abandon RESOURCE_EXHAUSTED w t
  else
    let o := sb_responder e in
    let '(responder, acquired) :=
      if oneway then (empty_resource, [])
      else make_transferred (Some o) (with_binding BINDING_RESPONDER (invocation_metadata (e_meta target))) in
    let w1 := if oneway then w else with_responders (<[o := (n, false)]> (w_responders w)) w in
    let w2 := phooks last w1 acquired in
    let '(taken, rs, ev, t1) := take_native_batch capability_is_unique t
                                  (match ds with [] => NullDispositions 0 | _ => Dispositions ds end)
                                  target_handle (sb_take_ok e) in
    let w3 := phooks last w2 ev in
    let deadline := i_operation_deadline (inv_at w3 n) in
    let drop_request w rs' :=
      foldl (drop_transferred last) (drop_transferred_with (dispose last) (λ _, true) w responder) (c_resource <$> rs') in
    if negb (status_ok taken) then abandon taken (drop_request w3 []) t1
    else
      let r := Build_request n (su_method_id f) deadline (sb_pid e) true 0 bytes rs responder in
      let '(status, _, w4, t2) := enqueue_request last w3 t1 s (sb_request e) r in
      if negb (status_ok status) then
        let '(restored, rs', ev', t3) := restore_native_batch t2 rs in
        let w5 := drop_request (phooks last w4 ev') rs' in
        let '(w6, t4) := close_invocation w5 t3 handle oneway in
        (if status_ok restored then status else restored, None, w6, t4)
      else publish_handle w4 t2 e handle (Some s) oneway output_is_user.

(** The kernel-object half. *)
Definition submit_dispatch (w : pworld) (t : table) (target_handle : Z) (target : entry) (f : submit_frame)
    (bytes : list Z) (ds : list disposition) (handle : Z) (e : submit_env) (oneway output_is_user : bool)
    : na_status * option Z * pworld * table :=
  let abandon status w t := let '(w', t') := close_invocation w t handle oneway in (status, None, w', t') in
  if negb (sb_dispatcher e) then abandon RESOURCE_EXHAUSTED w t
  else if negb (sb_caller_ok e) then abandon RESOURCE_EXHAUSTED w t
  else
    let '(taken, rs, ev, t1) := take_native_batch capability_is_unique t
                                  (match ds with [] => NullDispositions 0 | _ => Dispositions ds end)
                                  target_handle (sb_take_ok e) in
    let w1 := phooks last w ev in
    if negb (status_ok taken) then abandon taken w1 t1
    else if negb (sb_request_ok e) then
      let '(restored, rs', ev', t2) := restore_native_batch t1 rs in
      let w2 := foldl (drop_transferred last) (phooks last w1 ev') (c_resource <$> rs') in
      abandon (if status_ok restored then RESOURCE_EXHAUSTED else restored) w2 t2
    else
      let request := Build_dispatch (sb_invocation e) target (Some (rt_id t1)) (su_method_id f) bytes rs in
      publish_handle (with_dispatch (w_dispatch w1 ++ [request]) w1) t1 e handle None oneway output_is_user.

Definition invoke_submit (w : pworld) (t : table) (target_handle : Z) (e : submit_env) (oneway output_is_user : bool)
    : na_status * option Z * pworld * table :=
  let f := (sb_frame e).2 in
  match submit_frame_check e oneway output_is_user with
  | Some status => (status, None, w, t)
  | None =>
    match lookup_native t target_handle with
    | Some target =>
      if bool_decide (e_object target = None) then (INVALID_HANDLE, None, w, t)
      else if negb (has_flag (m_meta_rights (e_meta target)) RIGHT_TRANSFER) && negb (su_resource_count f =? 0)
      then (ACCESS_DENIED, None, w, t)
      else match snapshot_request f (sb_payload e) (sb_dispositions e) with
      | inl status => (status, None, w, t)
      | inr (bytes, ds) =>
        match submit_target w target f oneway with
        | inl status => (status, None, w, t)
        | inr protocol =>
          let '(status, handle, w1, t1) := submit_invocation w t target f e protocol oneway in
          if negb (status_ok status) then (status, None, w1, t1)
          else match protocol with
          | Some s => submit_request w1 t1 target_handle target f bytes ds s handle e oneway output_is_user
          | None => submit_dispatch w1 t1 target_handle target f bytes ds handle e oneway output_is_user
          end
        end
      end
    | None => (INVALID_HANDLE, None, w, t)
    end
  end.
(** ** Receiving *)

(** What a receive reads from and writes to the receiver: the frame with the
    status of its copy, the clock, and the statuses of the copies out. *)
Record preceive_env : Type := Build_preceive_env {
  pe_frame_address : Z;
  pe_frame : na_status * receive_frame;
  pe_now : Z;
  pe_reserve_ok : bool;
  pe_sizes_status : na_status;
  pe_bytes_status : na_status;
  pe_handles_status : na_status;
  pe_result_status : na_status;
}.

Definition preceive_frame_check (f : receive_frame) : option na_status :=
  if negb (valid_struct_size (rf_struct_size f) receive_frame_sizeof) || negb (rf_flags f =? 0)
     || negb (rf_caller_pid f =? 0)
  then Some INVALID_ARGUMENT
  else if (max_kernel_payload <? rf_byte_capacity f) || (CHANNEL_MAX_RESOURCES <? rf_resource_capacity f)
  then Some INVALID_ARGUMENT
  else None.

(** The claimed request respects the descriptor. *)
Definition request_lawful (d : protocol_descriptor) (r : invocation_request) : bool :=
  descriptor_allows_method d (iq_method_id r) &&
  ((pd_max_request_bytes d =? 0) || (request_bytes r <=? pd_max_request_bytes d)) &&
  ((pd_max_resources d =? 0) || (request_resources r <=? pd_max_resources d)) &&
  negb (bool_decide (descriptor_allows_oneway d (iq_method_id r) = resource_valid (iq_responder r))).

(** The frame with the sizes of the request, and after its delivery. *)
Definition required_request (f : receive_frame) (r : invocation_request) : receive_frame :=
  Build_receive_frame (rf_struct_size f) (rf_flags f) (iq_method_id r) (rf_bytes f) (rf_byte_capacity f)
    (rf_resources f) (rf_resource_capacity f) HANDLE_INVALID 0 0 (request_bytes r) (request_resources r)
    (iq_caller_pid r).
Definition delivered_request (f : receive_frame) (r : invocation_request) (responder : Z) : receive_frame :=
  Build_receive_frame (rf_struct_size f) (rf_flags f) (iq_method_id r) (rf_bytes f) (rf_byte_capacity f)
    (rf_resources f) (rf_resource_capacity f) responder (request_bytes r) (request_resources r) 0 0
    (iq_caller_pid r).

Definition request_output_check (address : Z) (f : receive_frame) (r : invocation_request) : option na_status :=
  if negb (valid_output_range (rf_bytes f) (rf_byte_capacity f))
     || negb (valid_output_range (rf_resources f) (u64 (rf_resource_capacity f * handle_sizeof)))
  then Some FAULT
  else if buffers_overlap address receive_frame_sizeof (rf_bytes f) (request_bytes r) (rf_resources f)
            (u64 (request_resources r * handle_sizeof))
  then Some INVALID_ARGUMENT
  else None.

Definition with_contents (rs : list transfer_record) (responder : transferred_resource) (r : invocation_request)
    : invocation_request :=
  Build_request (iq_state r) (iq_method_id r) (iq_operation_deadline r) (iq_caller_pid r) (iq_source r)
    (iq_queued_resource_count r) (iq_bytes r) rs responder.

Definition put_resource (r : transfer_record) (x : transferred_resource) : transfer_record :=
  Build_record (c_source r) (c_moved r) x (c_token r).

(** The receiver gives the claimed request back to the queue. *)
Definition give_back (w : pworld) (s p : Z) : pworld :=
  (cancel_request_claim (publish_on (iq_state (request_at w p)) rollback_receive w) s p).2.

(** The end of a receive: the resources and the responder enter the table and
    the request leaves the queue. *)
Definition deliver_request (w : pworld) (t : table) (s p : Z) (handles : list Z) : na_status * pworld * table :=
  let r := request_at w p in
  let n := iq_state r in
  let '(activated, rs, ev, _, t1) := activate_loop t handles (c_resource <$> iq_resources r) in
  let '(status, responder, ev', t2) :=
    if status_ok activated && resource_valid (iq_responder r)
    then activate_native t1 (zget handles (Z.of_nat (length handles) - 1)) (iq_responder r)
    else (activated, iq_responder r, [], t1) in
  let r' := with_contents (zip_with put_resource (iq_resources r) rs) responder r in
  let w1 := phooks last (with_requests (<[p := r']> (w_requests w)) w) (ev ++ ev') in
  if negb (status_ok status) then
    let '(w2, t3) := close_handles w1 t2 handles in
    (status, give_back w2 s p, rollback_native t3 handles)
  else
    let '(finished, i') := finish_dispatch (inv_at w1 n) in
    let w2 := update_inv n (λ _, i') w1 in
    if negb finished then
      let '(w3, t3) := close_handles w2 t2 handles in
      (PEER_CLOSED, dispose last (abort_claim w3 s p).2 p, t3)
    else
      let '(committed, w3) := commit_request_claim w2 s p in
      if negb committed then
        let '(w4, t3) := close_handles w3 t2 handles in
        let w5 := publish_on n (λ i, complete_failure i EXECUTION_OUTCOME_UNKNOWN REASON_BROKER_FAILURE 0) w4 in
        (WOULD_BLOCK, dispose last (abort_claim w5 s p).2 p, t3)
      else (STATUS_OK, dispose last w3 p, t2).

(** One round of the receive loop; [None] when the loop goes on with the next
    request. *)
Definition receive_round (w : pworld) (t : table) (s : Z) (e : preceive_env)
    : option (na_status * delivery * table) * pworld :=
  let f := (pe_frame e).2 in
  let '(claimed, p, w1) := claim w s in
  if negb (status_ok claimed) then (Some (claimed, nothing, t), w1)
  else
    let n := iq_state (request_at w1 p) in
    let '(expired, w2) := deadline_expired last (pe_now e) w1 n in
    let r := request_at w2 p in
    if expired || has_flag (invocation_signals (inv_at w2 n)) SIGNAL_COMPLETED then
      (None, dispose last (commit_request_claim w2 s p).2 p)
    else if negb (request_lawful (ps_descriptor (protocol_at w2 s)) r) then
      let w3 := publish_on n (λ i, complete_failure i EXECUTION_NOT_DELIVERED REASON_PROTOCOL_VIOLATION 0) w2 in
      let w4 := dispose last (commit_request_claim w3 s p).2 p in
      (Some (INVALID_MESSAGE, nothing, t), close_server_queue last w4 s)
    else if (rf_byte_capacity f <? request_bytes r) || (rf_resource_capacity f <? request_resources r) then
      (Some (if status_ok (pe_sizes_status e) then BUFFER_TOO_SMALL else pe_sizes_status e,
             Build_delivery (if status_ok (pe_sizes_status e) then Some (required_request f r) else None) None [], t),
       (cancel_request_claim w2 s p).2)
    else match request_output_check (pe_frame_address e) f r with
    | Some status => (Some (status, nothing, t), (cancel_request_claim w2 s p).2)
    | None =>
      let '(began, woke, i') := begin_receive (inv_at w2 n) in
      let w3 := wake_if woke (update_inv n (λ _, i') w2) in
      if negb began then (None, dispose last (commit_request_claim w3 s p).2 p)
      else
        let count := u64 (request_resources r + (if resource_valid (iq_responder r) then 1 else 0)) in
        let '(granted, handles, t1) := reserve_native t count (pe_reserve_ok e) in
        if negb (status_ok granted) then (Some (granted, nothing, t1), give_back w3 s p)
        else
          let copied := if status_ok (pe_bytes_status e) && negb (request_resources r =? 0)
                        then pe_handles_status e else pe_bytes_status e in
          let bytes := if status_ok (pe_bytes_status e) then Some (iq_bytes r) else None in
          if negb (status_ok copied) then
            (Some (copied, Build_delivery None bytes [], rollback_native t1 handles), give_back w3 s p)
          else
            let responder := if resource_valid (iq_responder r)
                             then zget handles (Z.of_nat (length handles) - 1) else HANDLE_INVALID in
            let written := take (length (iq_resources r)) handles in
            if negb (status_ok (pe_result_status e)) then
              (Some (pe_result_status e, Build_delivery None bytes written, rollback_native t1 handles), give_back w3 s p)
            else
              let '(status, w4, t2) := deliver_request w3 t1 s p handles in
              (Some (status, Build_delivery (Some (delivered_request f r responder)) bytes written, t2), w4)
    end.

(** The loop skips one request per round; [None] when the fuel runs out. *)
Fixpoint receive_loop (fuel : nat) (w : pworld) (t : table) (s : Z) (e : preceive_env)
    : option (na_status * delivery * pworld * table) :=
  match fuel with
  | O => None
  | S fuel' =>
    match receive_round w t s e with
    | (Some (status, out, t'), w') => Some (status, out, w', t')
    | (None, w') => receive_loop fuel' w' t s e
    end
  end.

Definition receive_protocol (fuel : nat) (w : pworld) (t : table) (endpoint : Z) (e : preceive_env)
    : option (na_status * delivery * pworld * table) :=
  let f := (pe_frame e).2 in
  if negb (status_ok (pe_frame e).1) then Some ((pe_frame e).1, nothing, w, t)
  else match preceive_frame_check f with
  | Some status => Some (status, nothing, w, t)
  | None =>
    match lookup_native t endpoint with
    | None => Some (INVALID_HANDLE, nothing, w, t)
    | Some found =>
      if bool_decide (e_object found = None) then Some (INVALID_HANDLE, nothing, w, t)
      else match endpoint_is_server w found with
      | None => Some (WRONG_BINDING, nothing, w, t)
      | Some s =>
        match receive_loop fuel (begin_poperation s w) t s e with
        | Some (status, out, w', t') => Some (status, out, end_poperation s w', t')
        | None => None
        end
      end
    end
  end.

(** ** Results *)

(** The invocation an entry refers to. *)
Definition invocation_of (w : pworld) (t : table) (handle : Z) : na_status + Z :=
  match lookup_native t handle with
  | Some (Build_entry (Some o) _ _ meta) =>
    if negb (m_binding meta =? BINDING_INVOCATION) then inl WRONG_BINDING
    else match w_invocation_objects w !! o with Some n => inr n | None => inl WRONG_BINDING end
  | _ => inl INVALID_HANDLE
  end.

Definition invocation_cancel (w : pworld) (t : table) (handle : Z) : na_status * pworld :=
  match invocation_of w t handle with
  | inl status => (status, w)
  | inr n => let '(cancelled, w') := cancel last w n None in (if cancelled then STATUS_OK else ALREADY_CONSUMED, w')
  end.

(** What the call reads and writes: the frame with the status of its copy,
    the clock and the statuses of the copies out. *)
Record result_env : Type := Build_result_env {
  ru_frame_address : Z;
  ru_frame : na_status * result_frame;
  ru_now : Z;
  ru_reserve_ok : bool;
  ru_bytes_status : na_status;
  ru_handles_status : na_status;
  ru_result_status : na_status;
}.

Definition result_frame_check (f : result_frame) : option na_status :=
  if negb (valid_struct_size (rf2_struct_size f) result_frame_sizeof) || negb (rf2_flags f =? 0) then Some INVALID_ARGUMENT
  else if (max_kernel_payload <? rf2_byte_capacity f) || (CHANNEL_MAX_RESOURCES <? rf2_resource_capacity f)
  then Some INVALID_ARGUMENT
  else None.

(** What a result delivers: the frame, the bytes and the handles written. *)
Record result_delivery : Type := Build_result_delivery {
  rd_frame : option result_frame;
  rd_bytes : option (list Z);
  rd_handles : list Z;
}.
Definition no_result : result_delivery := Build_result_delivery None None [].

Definition invocation_take_result (w : pworld) (t : table) (handle : Z) (e : result_env)
    : na_status * result_delivery * pworld * table :=
  let f := (ru_frame e).2 in
  if negb (status_ok (ru_frame e).1) then ((ru_frame e).1, no_result, w, t)
  else match result_frame_check f with
  | Some status => (status, no_result, w, t)
  | None =>
    match invocation_of w t handle with
    | inl status => (status, no_result, w, t)
    | inr n =>
      let '(claimed, f1, bytes, rs, i1) := claim_result (inv_at w n) (ru_now e) f in
      let w1 := update_inv n (λ _, i1) w in
      let restore rs' w := update_inv n (λ i, restore_result i bytes rs') w in
      let handles_size := u64 (Z.of_nat (length rs) * handle_sizeof) in
      if negb (status_ok claimed) then
        (claimed, Build_result_delivery (if status_ok (ru_result_status e) then Some f1 else None) None [], w1, t)
      else if negb (valid_output_range (rf2_bytes f1) (rf2_byte_capacity f1))
              || negb (valid_output_range (rf2_resources f1) (u64 (rf2_resource_capacity f1 * handle_sizeof)))
      then (FAULT, no_result, restore rs w1, t)
      else if buffers_overlap (ru_frame_address e) result_frame_sizeof (rf2_bytes f1) (Z.of_nat (length bytes))
                (rf2_resources f1) handles_size
      then (INVALID_ARGUMENT, no_result, restore rs w1, t)
      else
        let '(granted, handles, t1) := reserve_native t (Z.of_nat (length rs)) (ru_reserve_ok e) in
        let s1 := if status_ok granted then ru_bytes_status e else granted in
        let s2 := if status_ok s1 && negb (bool_decide (rs = [])) then ru_handles_status e else s1 in
        let s3 := if status_ok s2 then ru_result_status e else s2 in
        let out := Build_result_delivery (if status_ok s3 then Some f1 else None)
                     (if status_ok s1 then Some bytes else None) (if status_ok s2 then handles else []) in
        if negb (status_ok s3) then (s3, out, restore rs w1, rollback_native t1 handles)
        else
          let '(activated, left_, ev, _, t2) := activate_loop t1 handles (c_resource <$> rs) in
          let w2 := phooks last w1 ev in
          if negb (status_ok activated) then
            let '(w3, t3) := close_handles w2 t2 handles in
            (activated, out, restore (zip_with put_resource rs left_) w3, rollback_native t3 handles)
          else
            let '(committed, i2, g) := commit_result (inv_at w2 n) (w_globals w2) in
            let w3 := with_pglobals g (update_inv n (λ _, i2) w2) in
            if negb (status_ok committed) then
              let '(w4, t3) := close_handles w3 t2 handles in (committed, out, w4, t3)
            else (STATUS_OK, out, wake w3, t2)
    end
  end.

(** ** Replies and failures *)

(** The object and the invocation a responder handle refers to. *)
Definition responder_of (w : pworld) (t : table) (handle : Z) : na_status + (Z * Z) :=
  match lookup_native t handle with
  | Some (Build_entry (Some o) _ _ meta) =>
    if negb (m_binding meta =? BINDING_RESPONDER) then inl WRONG_BINDING
    else match w_responders w !! o with Some (n, _) => inr (o, n) | None => inl WRONG_BINDING end
  | _ => inl INVALID_HANDLE
  end.

(** [responder_object::consume]. *)
Definition consume (w : pworld) (o n : Z) : pworld :=
  let '(ok, i') := consume_responder (inv_at w n) in
  let w1 := update_inv n (λ _, i') w in
  if ok then with_responders (<[o := (n, true)]> (w_responders w1)) w1 else w1.

(** The frame, the payload and the dispositions with the statuses of their
    copies. *)
Record reply_env : Type := Build_reply_env {
  rp_frame_address : Z;
  rp_frame : na_status * reply_frame;
  rp_payload : na_status * list Z;
  rp_dispositions : na_status * list disposition;
  rp_take_ok : bool;
}.

Definition reply_frame_check (e : reply_env) : option na_status :=
  let f := (rp_frame e).2 in
  if negb (status_ok (rp_frame e).1) then Some (rp_frame e).1
  else if negb (valid_struct_size (ry_struct_size f) reply_frame_sizeof) || negb (ry_flags f =? 0)
          || negb (ry_reserved0 f =? 0) || negb (ry_reserved1 f =? 0) || (max_kernel_payload <? ry_byte_count f)
          || (CHANNEL_MAX_RESOURCES <? ry_resource_count f)
  then Some INVALID_ARGUMENT
  else match checked_multiply (ry_resource_count f) disposition_sizeof with
  | None => Some FAULT
  | Some resources_bytes =>
    if negb (valid_range (ry_bytes f) (ry_byte_count f)) || negb (valid_range (ry_resources f) resources_bytes)
    then Some FAULT
    else if buffers_overlap (rp_frame_address e) reply_frame_sizeof (ry_bytes f) (ry_byte_count f) (ry_resources f)
              resources_bytes
    then Some INVALID_ARGUMENT
    else if negb (ry_byte_count f =? 0) && negb (status_ok (rp_payload e).1) then Some (rp_payload e).1
    else if negb (ry_resource_count f =? 0) && negb (status_ok (rp_dispositions e).1) then Some (rp_dispositions e).1
    else None
  end.

Definition responder_reply (w : pworld) (t : table) (handle : Z) (e : reply_env) : na_status * pworld * table :=
  let f := (rp_frame e).2 in
  match reply_frame_check e with
  | Some status => (status, w, t)
  | None =>
    let bytes := if ry_byte_count f =? 0 then [] else (rp_payload e).2 in
    let ds := if ry_resource_count f =? 0 then [] else (rp_dispositions e).2 in
    match responder_of w t handle with
    | inl status => (status, w, t)
    | inr (o, n) =>
      if negb (response_within_limits (inv_at w n) (Z.of_nat (length bytes)) (Z.of_nat (length ds)))
      then (INVALID_MESSAGE, w, t)
      else
        let '(taken, rs, ev, t1) := take_native_batch capability_is_unique t
                                      (match ds with [] => NullDispositions 0 | _ => Dispositions ds end)
                                      handle (rp_take_ok e) in
        let w1 := phooks last w ev in
        if negb (status_ok taken) then (taken, w1, t1)
        else
          let '(replied, i', t2) := complete_reply_lvalue (inv_at w1 n) bytes rs 0 (Some t1) in
          let w2 := wake_if replied (update_inv n (λ _, i') w1) in
          if negb replied then
            let '(restored, rs', ev', t3) := restore_native_batch (default t1 t2) rs in
            let '(w3, t4) := close_handle (phooks last w2 ev') t3 handle in
            (if status_ok restored then PEER_CLOSED else restored,
             foldl (drop_transferred last) w3 (c_resource <$> rs'), t4)
          else
            let '(w3, t3) := close_handle (consume w2 o n) (default t1 t2) handle in
            (STATUS_OK, w3, t3)
    end
  end.

Definition responder_fail (w : pworld) (t : table) (handle : Z) (frame : na_status * fail_frame)
    : na_status * pworld * table :=
  let f := frame.2 in
  if negb (status_ok frame.1) then (frame.1, w, t)
  else if negb (valid_struct_size (fl_struct_size f) fail_frame_sizeof) || negb (fl_flags f =? 0)
          || negb (valid_failure (fl_execution_outcome f) (fl_outcome_reason f))
  then (INVALID_ARGUMENT, w, t)
  else match responder_of w t handle with
  | inl status => (status, w, t)
  | inr (o, n) =>
    if (0 <? fl_protocol_error f) || (fl_protocol_error f <? - (2 ^ 31 - 1)) then (INVALID_ARGUMENT, w, t)
    else
      let '(failed, i') :=
        complete_failure (inv_at w n) (fl_execution_outcome f) (fl_outcome_reason f) (fl_protocol_error f) in
      let w1 := wake_if failed (update_inv n (λ _, i') w) in
      if negb failed then let '(w2, t1) := close_handle w1 t handle in (PEER_CLOSED, w2, t1)
      else let '(w2, t1) := close_handle (consume w1 o n) t handle in (STATUS_OK, w2, t1)
  end.
End calls.
