(* ===== verification/ProtocolFacts.v ===== *)
(** The accounting of the protocol world of Protocol.v: the byte and resource
    counters of every request queue are the sums over its requests, and the
    three global counters are the sums over all queues and over the results
    that invocations have reserved room for.  A request counts with the number
    of resources it had when it was queued, whatever has been delivered since,
    so its queue is the queue of Channel.v over messages of that size. *)
From stdpp Require Import base list numbers gmap.
From S2P Require Import Prelude Abi BoundedQueue Capability ResourceTable Channel ChannelFacts.
From S2P Require Import Invocation InvocationFacts Protocol ProtocolCalls.

Local Open Scope Z_scope.
Set Default Proof Using "Type".

(** ** Requests as messages *)

Definition view (r : invocation_request) : channel_message :=
  Build_message None (request_bytes r) 0 false (replicate (Z.to_nat (iq_queued_resource_count r)) empty_resource).
Definition heap_of (m : gmap Z invocation_request) : gmap Z channel_message := view <$> m.

Lemma view_bytes r : cm_byte_count (view r) = request_bytes r.
Proof. done. Qed.

Lemma view_resources r : 0 ≤ iq_queued_resource_count r → resource_count (view r) = iq_queued_resource_count r.
Proof. intros Hr. unfold resource_count, view. simpl. rewrite length_replicate. lia. Qed.

Lemma message_at_view m p r : m !! p = Some r → message_at (heap_of m) p = view r.
Proof. intros Hp. unfold message_at, heap_of. by rewrite lookup_fmap, Hp. Qed.

(** ** A queue that loses an element *)

(** [fifo] holds what [q] held but [p]; a claimed head stays. *)
Record leaves (q fifo : bounded_queue Z) (p : Z) : Prop := Build_leaves {
  lv_wf : queue_wf fifo;
  lv_capacity : capacity_ fifo = capacity_ q;
  lv_items : queue_items null q ≡ₚ p :: queue_items null fifo;
}.

Lemma leaves_count q fifo p : queue_wf q → leaves q fifo p → count_ fifo = count_ q - 1.
Proof.
  intros Hq [Hw _ Hi]. rewrite <- (queue_items_length null q Hq), <- (queue_items_length null fifo Hw).
  rewrite (Permutation_length Hi). simpl. lia.
Qed.

Lemma commit_leaves q :
  queue_wf q → claimed_ q = true →
  leaves q (commit_claim q) (queue_front null q) ∧ claimed_ (commit_claim q) = false.
Proof.
  intros Hw Hcl. destruct (commit_claim_refines null q Hw) as [Hw' Hf].
  destruct (queue_front_items null q Hw (qwf_claim _ Hw Hcl)) as [rest Hrest].
  unfold fifo_commit, queue_fifo in Hf. simpl in Hf. rewrite Hrest, Hcl in Hf. injection Hf as Hcap Hit Hclaim.
  split; [|done]. split; [done|by rewrite Hcap|]. by rewrite Hrest, Hit.
Qed.

Lemma claim_commit_leaves q fifo :
  queue_wf q → claim_front q = (true, fifo) →
  leaves q (commit_claim fifo) (queue_front null fifo) ∧ claimed_ (commit_claim fifo) = false ∧ claimed_ q = false.
Proof.
  intros Hw Hcl. destruct (claim_front_refines null q Hw) as [Hw' Hf]. rewrite Hcl in Hw', Hf. simpl in Hw', Hf.
  unfold claim_front in Hcl. destruct (Z.eqb_spec (count_ q) 0); [done|].
  destruct (claimed_ q) eqn:Hc; [done|]. injection Hcl as <-.
  destruct (commit_leaves _ Hw' eq_refl) as [[Hwf Hcap Hi] Hc']. split_and!; [by split|done..].
Qed.

Lemma remove_leaves q p fifo :
  queue_wf q → queue_remove null q p = (true, fifo) →
  leaves q fifo p ∧ claimed_ fifo = claimed_ q ∧
  (claimed_ q = true → queue_front null q ≠ p ∧ queue_front null fifo = queue_front null q).
Proof.
  intros Hw Hr. destruct (queue_remove_refines null q p Hw) as [Hw' Hf]. rewrite Hr in Hw', Hf. simpl in Hw', Hf.
  unfold fifo_remove, queue_fifo in Hf. simpl in Hf.
  destruct (list_find (λ x, x = p) (queue_items null q)) as [[k x]|] eqn:Hk; [|done].
  apply list_find_Some in Hk as (Hk & -> & Hbefore).
  destruct (claimed_ q && bool_decide (k = 0%nat)) eqn:Hc; [done|]. injection Hf as Hcap Hit Hclaim.
  split_and!; [|done|].
  - split; [done|by rewrite Hcap|]. rewrite <- Hit. rewrite <- (take_drop_middle _ _ _ Hk) at 1.
    by rewrite Permutation_middle.
  - intros Hcl. rewrite Hcl in Hc. simpl in Hc. apply bool_decide_eq_false in Hc. destruct k as [|k]; [done|].
    destruct (queue_front_items null q Hw (qwf_claim _ Hw Hcl)) as [rest Hrest].
    assert (claimed_ fifo = true) as Hcl' by (by rewrite <- Hclaim).
    destruct (queue_front_items null fifo Hw' (qwf_claim _ Hw' Hcl')) as [rest' Hrest'].
    rewrite Hrest, Hrest' in Hit. simpl in Hit. injection Hit as Hit _. split; [|done].
    apply (Hbefore 0%nat); [by rewrite Hrest|lia].
Qed.

(** The counters of the smaller queue. *)
Lemma leave_ok mm mb mr m q fifo p r :
  queue_ok mm mb mr (heap_of m) q → leaves (q_fifo q) fifo p → m !! p = Some r → 0 ≤ iq_queued_resource_count r →
  mb < 2 ^ 64 → mr < 2 ^ 64 →
  let q' := shrink_queue q fifo r in
  queue_ok mm mb mr (heap_of m) q' ∧ ptrs q ≡ₚ p :: ptrs q' ∧ q_bytes q' = q_bytes q - request_bytes r ∧
  q_resources q' = q_resources q - iq_queued_resource_count r.
Proof.
  intros [Hw Hc Hb Hbm Hr Hrm Hs] [Hw' Hcap Hi] Hp Hrc Hmb Hmr q'.
  assert (ptrs q ≡ₚ p :: ptrs q') as Hptrs by done.
  assert (Forall (stored (heap_of m)) (p :: ptrs q')) as Hs' by (by rewrite <- Hptrs).
  apply Forall_cons in Hs' as [_ Hs']. destruct (loads_nonneg _ _ Hs') as [Hb0 Hr0].
  assert (load_bytes (heap_of m) (ptrs q) = request_bytes r + load_bytes (heap_of m) (ptrs q')) as Hlb.
  { unfold load_bytes. rewrite Hptrs. csimpl. by rewrite (message_at_view m p r Hp). }
  assert (load_resources (heap_of m) (ptrs q) =
    iq_queued_resource_count r + load_resources (heap_of m) (ptrs q')) as Hlr.
  { unfold load_resources. rewrite Hptrs. csimpl. by rewrite (message_at_view m p r Hp), view_resources. }
  assert (0 ≤ request_bytes r) by (unfold request_bytes; lia).
  assert (q_bytes q' = q_bytes q - request_bytes r) as Hb' by (simpl; rewrite u64_small; lia).
  assert (q_resources q' = q_resources q - iq_queued_resource_count r) as Hr' by (simpl; rewrite u64_small; lia).
  split_and!; try done. split; try done; try lia. simpl. by rewrite Hcap.
Qed.

(** ** The invariant *)

(** The limits of the descriptor are unsigned. *)
Record proto_wf (st : protocol_state) (m : gmap Z invocation_request) : Prop := Build_proto_wf {
  pf_limits : ps_max_messages st ≤ CHANNEL_MAX_MESSAGES ∧ ps_max_bytes st ≤ max_kernel_payload * 16 ∧
    ps_max_resources st ≤ CHANNEL_MAX_RESOURCES;
  pf_queue : queue_ok (ps_max_messages st) (ps_max_bytes st) (ps_max_resources st) (heap_of m) (ps_queue st);
  pf_nodup : NoDup (ptrs (ps_queue st));
  pf_claims : ps_active_claims st = Z.b2z (claimed_ (q_fifo (ps_queue st)));
  pf_descriptor : 0 ≤ pd_max_response_bytes (ps_descriptor st) ∧ 0 ≤ pd_max_resources (ps_descriptor st);
}.

(** The shares of the global counters. *)
Definition queue_share (st : protocol_state) : globals :=
  Build_globals (count_ (q_fifo (ps_queue st))) (q_bytes (ps_queue st)) (q_resources (ps_queue st)).
Definition result_share (i : invocation_state) : globals :=
  if i_result_budget_reserved i then Build_globals 1 (i_max_response_bytes i) (i_max_response_resources i)
  else Build_globals 0 0 0.

Definition add_globals (a b : globals) : globals :=
  Build_globals (global_messages a + global_messages b) (global_bytes a + global_bytes b)
    (global_resources a + global_resources b).

(** The sum of the shares of a map. *)
Definition sum_shares {A} (f : A → globals) (m : gmap Z A) : globals :=
  Build_globals (total (global_messages ∘ f) m) (total (global_bytes ∘ f) m) (total (global_resources ∘ f) m).

Definition charges (w : pworld) : globals :=
  add_globals (sum_shares queue_share (w_protocols w)) (sum_shares result_share (w_invocations w)).

Definition inv_ok (i : invocation_state) : Prop := 0 ≤ i_max_response_bytes i ∧ 0 ≤ i_max_response_resources i.

Record pworld_wf (w : pworld) : Prop := Build_pworld_wf {
  pw_protocols : ∀ s st, w_protocols w !! s = Some st → proto_wf st (w_requests w);
  pw_disjoint : ∀ s s' st st' p, w_protocols w !! s = Some st → w_protocols w !! s' = Some st' →
    p ∈ ptrs (ps_queue st) → p ∈ ptrs (ps_queue st') → s = s';
  pw_requests : ∀ p r, w_requests w !! p = Some r → 0 ≤ iq_queued_resource_count r;
  pw_invocations : ∀ n i, w_invocations w !! n = Some i → inv_ok i;
  pw_globals : w_globals w = charges w;
  pw_within : within (w_globals w);
}.

Definition nonneg (g : globals) : Prop := 0 ≤ global_messages g ∧ 0 ≤ global_bytes g ∧ 0 ≤ global_resources g.

Lemma queue_share_nonneg st m : proto_wf st m → nonneg (queue_share st).
Proof.
  intros Hst. pose proof (pf_queue st m Hst) as Hq. pose proof (queue_ok_nonneg _ _ _ _ _ Hq).
  pose proof (qwf_count _ (qo_fifo _ _ _ _ _ Hq)). unfold nonneg. simpl. lia.
Qed.

Lemma result_share_nonneg i : inv_ok i → nonneg (result_share i).
Proof. intros []. unfold result_share, nonneg. destruct (i_result_budget_reserved i); simpl; lia. Qed.

Lemma sum_shares_nonneg {A} (f : A → globals) m :
  (∀ k x, m !! k = Some x → nonneg (f x)) → nonneg (sum_shares f m).
Proof. intros Hf. unfold nonneg. simpl. split_and!; apply total_nonneg; intros k x Hx; by destruct (Hf k x Hx) as (? & ? & ?). Qed.

Lemma sum_shares_delete {A} (f : A → globals) m k x :
  m !! k = Some x → sum_shares f m = add_globals (f x) (sum_shares f (delete k m)).
Proof. intros Hk. unfold sum_shares, add_globals. simpl. by rewrite !(total_delete _ m k x). Qed.

Lemma sum_shares_insert {A} (f : A → globals) m k x :
  sum_shares f (<[k := x]> m) = add_globals (f x) (sum_shares f (delete k m)).
Proof. unfold sum_shares, add_globals. simpl. by rewrite !total_insert. Qed.

(** The counters split into one share and a non-negative rest. *)
Definition splits (g share rest : globals) : Prop := g = add_globals share rest ∧ nonneg rest.

Lemma protocols_nonneg w : pworld_wf w → nonneg (sum_shares queue_share (w_protocols w)).
Proof. intros Hwf. apply sum_shares_nonneg. intros s st Hs. by eapply queue_share_nonneg, (pw_protocols w Hwf). Qed.

Lemma invocations_nonneg w : pworld_wf w → nonneg (sum_shares result_share (w_invocations w)).
Proof. intros Hwf. apply sum_shares_nonneg. intros n i Hi. by eapply result_share_nonneg, (pw_invocations w Hwf). Qed.

Lemma add_globals_comm a b : add_globals a b = add_globals b a.
Proof. unfold add_globals. f_equal; lia. Qed.
Lemma add_globals_assoc a b c : add_globals a (add_globals b c) = add_globals (add_globals a b) c.
Proof. unfold add_globals. simpl. f_equal; lia. Qed.
Lemma add_globals_nonneg a b : nonneg a → nonneg b → nonneg (add_globals a b).
Proof. unfold nonneg. simpl. lia. Qed.

Lemma protocol_splits w s st :
  pworld_wf w → w_protocols w !! s = Some st →
  ∃ rest, splits (w_globals w) (queue_share st) rest ∧
    ∀ st' w', w_protocols w' = <[s := st']> (w_protocols w) → w_invocations w' = w_invocations w →
      charges w' = add_globals (queue_share st') rest.
Proof.
  intros Hwf Hs. exists (add_globals (sum_shares queue_share (delete s (w_protocols w)))
                          (sum_shares result_share (w_invocations w))). split; [split|].
  - rewrite (pw_globals w Hwf). unfold charges. by rewrite (sum_shares_delete _ _ _ _ Hs), add_globals_assoc.
  - apply add_globals_nonneg; [|by apply invocations_nonneg]. apply sum_shares_nonneg.
    intros s' st' [_ Hs']%lookup_delete_Some. by eapply queue_share_nonneg, (pw_protocols w Hwf).
  - intros st' w' Hp Hi. unfold charges. by rewrite Hp, Hi, sum_shares_insert, add_globals_assoc.
Qed.

Lemma invocation_splits w n i :
  pworld_wf w → w_invocations w !! n = Some i →
  ∃ rest, splits (w_globals w) (result_share i) rest ∧
    ∀ i' w', w_protocols w' = w_protocols w → w_invocations w' = <[n := i']> (w_invocations w) →
      charges w' = add_globals (result_share i') rest.
Proof.
  intros Hwf Hn. exists (add_globals (sum_shares queue_share (w_protocols w))
                          (sum_shares result_share (delete n (w_invocations w)))). split; [split|].
  - rewrite (pw_globals w Hwf). unfold charges. rewrite (sum_shares_delete _ _ _ _ Hn).
    by rewrite !add_globals_assoc, (add_globals_comm (result_share i)).
  - apply add_globals_nonneg; [by apply protocols_nonneg|]. apply sum_shares_nonneg.
    intros n' i' [_ Hi']%lookup_delete_Some. by eapply result_share_nonneg, (pw_invocations w Hwf).
  - intros i' w' Hp Hi. unfold charges. rewrite Hp, Hi, sum_shares_insert.
    by rewrite !add_globals_assoc, (add_globals_comm (result_share i')).
Qed.

(** ** Frames *)

Lemma proto_wf_frame st m m' :
  (∀ p, p ∈ ptrs (ps_queue st) → view <$> m' !! p = view <$> m !! p) → proto_wf st m → proto_wf st m'.
Proof.
  intros Hf [Hl Hq Hn Hc]. split; try done. eapply queue_ok_frame; [|exact Hq].
  intros p Hp. unfold sizes, heap_of. rewrite !lookup_fmap. by rewrite Hf.
Qed.

Lemma queued_stored st m p : proto_wf st m → p ∈ ptrs (ps_queue st) → p ≠ null ∧ is_Some (m !! p).
Proof.
  intros Hst Hp. pose proof (qo_stored _ _ _ _ _ (pf_queue st m Hst)) as Hs. rewrite Forall_forall in Hs.
  destruct (Hs p Hp) as (Hn & v & Hv & _). unfold heap_of in Hv. rewrite lookup_fmap in Hv.
  split; [done|]. destruct (m !! p); [by eexists|done].
Qed.

Definition unqueued (w : pworld) (p : Z) : Prop :=
  ∀ s st, w_protocols w !! s = Some st → p ∉ ptrs (ps_queue st).

(** One protocol changed, with its share of the counters and perhaps a fresh
    request. *)
Lemma protocol_update w s st st' rest g' m' w' :
  pworld_wf w → w_protocols w !! s = Some st → splits (w_globals w) (queue_share st) rest →
  (∀ w', w_protocols w' = <[s := st']> (w_protocols w) → w_invocations w' = w_invocations w →
     charges w' = add_globals (queue_share st') rest) →
  proto_wf st' m' → g' = add_globals (queue_share st') rest → within g' →
  (∀ p r, m' !! p = Some r → 0 ≤ iq_queued_resource_count r) →
  (∀ p, is_Some (w_requests w !! p) → m' !! p = w_requests w !! p) →
  (∀ p, p ∈ ptrs (ps_queue st') → p ∈ ptrs (ps_queue st) ∨ w_requests w !! p = None) →
  w_globals w' = g' → w_protocols w' = <[s := st']> (w_protocols w) → w_invocations w' = w_invocations w →
  w_requests w' = m' → pworld_wf w'.
Proof.
  intros Hwf Hs Hsp Hch Hst' Hg Hw Hm Hold Hnew Eg Ep Ei Er.
  assert (∀ s2 st2 p, s2 ≠ s → w_protocols w !! s2 = Some st2 → p ∈ ptrs (ps_queue st2) → p ∉ ptrs (ps_queue st')) as Hdis.
  { intros s2 st2 p Hne Hs2 Hin Hin'. destruct (Hnew p Hin') as [Hin2|Hno].
    - apply Hne. by apply (pw_disjoint w Hwf s2 s st2 st p).
    - destruct (queued_stored st2 _ p (pw_protocols w Hwf s2 st2 Hs2) Hin) as [_ [r Hr]]. congruence. }
  split; rewrite ?Eg, ?Ep, ?Ei, ?Er; try apply Hwf; try done.
  - intros s2 st2 [(<- & <-)|[Hne Hs2]]%lookup_insert_Some; [done|].
    pose proof (pw_protocols w Hwf s2 st2 Hs2) as Hst2. eapply proto_wf_frame; [|exact Hst2].
    intros p Hp. destruct (queued_stored st2 _ p Hst2 Hp) as [_ Hr]. by rewrite Hold.
  - intros s1 s2 st1 st2 p [(<- & <-)|[Hn1 H1]]%lookup_insert_Some [(<- & <-)|[Hn2 H2]]%lookup_insert_Some Hp1 Hp2;
      [done| | |by apply (pw_disjoint w Hwf s1 s2 st1 st2 p)].
    + by destruct (Hdis s2 st2 p (not_eq_sym Hn2) H2 Hp2).
    + by destruct (Hdis s1 st1 p (not_eq_sym Hn1) H1 Hp1).
  - by rewrite Hg, (Hch w' Ep Ei).
Qed.

(** The parts of the world the invariant is about. *)
Definition core (w : pworld) : globals * gmap Z invocation_state * gmap Z invocation_request * gmap Z protocol_state :=
  (w_globals w, w_invocations w, w_requests w, w_protocols w).

Lemma core_wf w w' : core w' = core w → pworld_wf w → pworld_wf w'.
Proof.
  destruct w, w'. unfold core. simpl. intros [= -> -> -> ->] [H1 H2 H3 H4 H5 H6]. split; done.
Qed.

Lemma core_unqueued w w' p : w_protocols w' = w_protocols w → unqueued w p → unqueued w' p.
Proof. unfold unqueued. by intros ->. Qed.

Lemma plimits_small st m : proto_wf st m → ps_max_bytes st < 2 ^ 64 ∧ ps_max_resources st < 2 ^ 64.
Proof.
  intros [(Hm & Hb & Hr) _ _ _ _].
  unfold max_kernel_payload, CHANNEL_MAX_MESSAGES, CHANNEL_MAX_MESSAGE_BYTES, CHANNEL_MAX_RESOURCES in *. lia.
Qed.

Lemma reserve_protocol_global_eq : reserve_protocol_global = reserve_global.
Proof. reflexivity. Qed.
Lemma release_protocol_global_eq : release_protocol_global = release_global.
Proof. reflexivity. Qed.

(** A share given back. *)
Lemma release_share g rest bytes resources share' :
  within g → nonneg rest → nonneg share' → 0 ≤ bytes → 0 ≤ resources →
  g = add_globals (Build_globals (global_messages share' + 1) (global_bytes share' + bytes)
                     (global_resources share' + resources)) rest →
  release_protocol_global g bytes resources = add_globals share' rest ∧
  within (release_protocol_global g bytes resources).
Proof.
  intros Hw Hr Hs Hb Hre ->. rewrite release_protocol_global_eq. unfold add_globals, nonneg in *. simpl in *.
  rewrite release_global_spec; [|done|simpl; limits; lia..]. simpl. split; [f_equal; lia|].
  limits. simpl in *. lia.
Qed.

(** Two states of a protocol with the same limits. *)
Definition same_limits (st st' : protocol_state) : Prop :=
  ps_max_messages st' = ps_max_messages st ∧ ps_max_bytes st' = ps_max_bytes st ∧
  ps_max_resources st' = ps_max_resources st ∧ ps_descriptor st' = ps_descriptor st.

(** The queued request [p] leaves the protocol. *)
Lemma leave_wf w s st st' fifo p r w' :
  pworld_wf w → w_protocols w !! s = Some st → leaves (q_fifo (ps_queue st)) fifo p → w_requests w !! p = Some r →
  same_limits st st' → ps_queue st' = shrink_queue (ps_queue st) fifo r → ps_active_claims st' = Z.b2z (claimed_ fifo) →
  core w' = (release_request (w_globals w) r, w_invocations w, w_requests w, <[s := st']> (w_protocols w)) →
  pworld_wf w' ∧ unqueued w' p.
Proof.
  intros Hwf Hs Hlv Hp (Lm & Lb & Lr & Ld) Hq' Hcl' [= Eg Ei Er Ep]. pose proof (pw_protocols w Hwf s st Hs) as Hst.
  pose proof (pw_requests w Hwf p r Hp) as Hrc. destruct (plimits_small st _ Hst) as [Hmb Hmr].
  destruct (leave_ok _ _ _ (w_requests w) (ps_queue st) fifo p r (pf_queue _ _ Hst) Hlv Hp Hrc Hmb Hmr)
    as (Hqo & Hperm & Hb' & Hr'). rewrite <- Hq' in Hqo, Hperm, Hb', Hr'.
  pose proof (leaves_count _ _ _ (qo_fifo _ _ _ _ _ (pf_queue _ _ Hst)) Hlv) as Hcnt.
  assert (proto_wf st' (w_requests w)) as Hst'.
  { split.
    - rewrite Lm, Lb, Lr. apply Hst.
    - by rewrite Lm, Lb, Lr.
    - pose proof (pf_nodup st _ Hst) as Hnd. rewrite Hperm in Hnd. by apply NoDup_cons in Hnd as [_ ?].
    - by rewrite Hcl', Hq'.
    - rewrite Ld. apply Hst. }
  destruct (protocol_splits w s st Hwf Hs) as (rest & [Hg Hrest] & Hch).
  assert (0 ≤ request_bytes r) by (unfold request_bytes; lia).
  destruct (release_share (w_globals w) rest (request_bytes r) (iq_queued_resource_count r) (queue_share st'))
    as [Hrel Hw']; [apply Hwf|done|by eapply queue_share_nonneg|done..| |].
  { rewrite Hg at 1. f_equal. unfold queue_share. simpl. rewrite Hb', Hr', Hq'. simpl. rewrite Hcnt. f_equal; lia. }
  assert (p ∉ ptrs (ps_queue st')) as Hnin.
  { pose proof (pf_nodup st _ Hst) as Hnd. rewrite Hperm in Hnd. by apply NoDup_cons in Hnd as [? _]. }
  assert (p ∈ ptrs (ps_queue st)) as Hin by (rewrite Hperm; by left).
  split.
  - eapply (protocol_update w s st st' rest _ (w_requests w)); try done.
    + intros w2. apply Hch.
    + apply (pw_requests w Hwf).
    + intros p' Hp'. left. rewrite Hperm. by right.
  - intros s2 st2. rewrite Ep. intros [(<- & <-)|[Hne Hs2]]%lookup_insert_Some; [done|].
    intros Hin2. apply Hne. by apply (pw_disjoint w Hwf s s2 st st2 p).
Qed.

(** The queue keeps its requests and counters. *)
Lemma keep_wf w s st st' w' :
  pworld_wf w → w_protocols w !! s = Some st → same_limits st st' →
  queue_ok (ps_max_messages st) (ps_max_bytes st) (ps_max_resources st) (heap_of (w_requests w)) (ps_queue st') →
  ptrs (ps_queue st') = ptrs (ps_queue st) → queue_share st' = queue_share st →
  ps_active_claims st' = Z.b2z (claimed_ (q_fifo (ps_queue st'))) →
  core w' = (w_globals w, w_invocations w, w_requests w, <[s := st']> (w_protocols w)) → pworld_wf w'.
Proof.
  intros Hwf Hs (Lm & Lb & Lr & Ld) Hqo Hptrs Hsh Hcl [= Eg Ei Er Ep]. pose proof (pw_protocols w Hwf s st Hs) as Hst.
  destruct (protocol_splits w s st Hwf Hs) as (rest & [Hg Hrest] & Hch).
  eapply (protocol_update w s st st' rest _ (w_requests w)); try done.
  - intros w2. apply Hch.
  - split; rewrite ?Lm, ?Lb, ?Lr, ?Ld, ?Hptrs; try done; apply Hst.
  - rewrite Hsh, <- Hg. apply Hwf.
  - apply (pw_requests w Hwf).
  - intros p. rewrite Hptrs. by left.
  - by rewrite Eg, Hsh.
Qed.

(** A change of a protocol that leaves queue, limits and claims alone. *)
Definition pinert (f : protocol_state → protocol_state) : Prop :=
  ∀ st, ps_queue (f st) = ps_queue st ∧ same_limits st (f st) ∧ ps_active_claims (f st) = ps_active_claims st ∧
    ps_valid (f st) = ps_valid st.

Lemma update_protocol_present w s st f :
  w_protocols w !! s = Some st →
  core (update_protocol s f w) = (w_globals w, w_invocations w, w_requests w, <[s := f st]> (w_protocols w)).
Proof. intros Hs. unfold core, update_protocol. simpl. by rewrite (alter_present _ _ _ _ Hs). Qed.

Lemma update_protocol_absent w s f : w_protocols w !! s = None → core (update_protocol s f w) = core w.
Proof. intros Hs. unfold core, update_protocol. simpl. by rewrite alter_absent. Qed.

Lemma protocol_at_present w s st : w_protocols w !! s = Some st → protocol_at w s = st.
Proof. intros Hs. unfold protocol_at. by rewrite Hs. Qed.

Lemma inert_wf w s f : pworld_wf w → pinert f → pworld_wf (update_protocol s f w).
Proof.
  intros Hwf Hf. destruct (w_protocols w !! s) as [st|] eqn:Hs.
  2: { eapply core_wf, Hwf. by apply update_protocol_absent. }
  destruct (Hf st) as (Hq & Hl & Hc & _). pose proof (pw_protocols w Hwf s st Hs) as Hst.
  eapply (keep_wf w s st (f st)); try done; try (by rewrite Hq); [rewrite Hq; apply Hst|by unfold queue_share; rewrite Hq| |].
  - rewrite Hc, Hq. apply Hst.
  - by apply update_protocol_present.
Qed.

(** Requests that no queue holds come and go, and contents move out. *)
Lemma requests_wf w m' :
  pworld_wf w → (∀ p r, m' !! p = Some r → 0 ≤ iq_queued_resource_count r) →
  (∀ p, ¬ unqueued w p → view <$> m' !! p = view <$> w_requests w !! p) → pworld_wf (with_requests m' w).
Proof.
  intros [H1 H2 H3 H4 H5 H6] Hm Hf. split; try done. simpl. intros s st Hs.
  eapply proto_wf_frame; [|by apply (H1 s)]. intros p Hp. apply Hf. intros Hu. by apply (Hu s st Hs).
Qed.

(** ** Invocations *)

(** What the accounting sees of an invocation. *)
Definition budget (i : invocation_state) : bool * Z * Z :=
  (i_result_budget_reserved i, i_max_response_bytes i, i_max_response_resources i).

Lemma budget_share i i' : budget i' = budget i → result_share i' = result_share i ∧ (inv_ok i → inv_ok i').
Proof. unfold budget, result_share, inv_ok. intros [= -> -> ->]. done. Qed.

(** What a method does to the counters, besides the share of the invocation. *)
Record charged_ok (i : invocation_state) (g : globals) (i' : invocation_state) (g' : globals) : Prop := Build_charged {
  ch_limits : i_max_response_bytes i' = i_max_response_bytes i ∧ i_max_response_resources i' = i_max_response_resources i;
  ch_share : ∀ rest, nonneg rest → within g → g = add_globals (result_share i) rest →
    g' = add_globals (result_share i') rest ∧ within g';
}.

Lemma same_charged i g i' : budget i' = budget i → charged_ok i g i' g.
Proof.
  intros Hb. destruct (budget_share i i' Hb) as [Hs _]. unfold budget in Hb. split; [by simplify_eq|].
  intros rest Hr Hw ->. by rewrite Hs.
Qed.

Lemma charged_trans i g i1 g1 i2 g2 : charged_ok i g i1 g1 → charged_ok i1 g1 i2 g2 → charged_ok i g i2 g2.
Proof.
  intros [[L1 L2] Hs] [[L3 L4] Hs']. split; [split; congruence|]. intros rest Hr Hw Hg.
  destruct (Hs rest Hr Hw Hg) as [Hg1 Hw1]. by apply Hs'.
Qed.

Lemma publish_budget i outcome reason bytes rs error :
  budget (publish_locked_no_wake i outcome reason bytes rs error).2 = budget i.
Proof. unfold publish_locked_no_wake. by destruct (_ || _). Qed.

Lemma release_charged i g : inv_ok i →
  charged_ok i g (release_result_budget_locked i g).1 (release_result_budget_locked i g).2.
Proof.
  intros [Hb Hr]. unfold release_result_budget_locked. destruct (i_result_budget_reserved i) eqn:Hres; simpl.
  2: { by apply same_charged. }
  split; [done|]. intros rest Hrest Hw Hg. unfold result_share in *. rewrite Hres in Hg. simpl.
  by apply (release_share g rest _ _ (Build_globals 0 0 0)).
Qed.

Lemma reserve_charged i g : inv_ok i →
  let '(_, i', g') := reserve_result_budget i g in charged_ok i g i' g'.
Proof.
  intros [Hb Hr]. unfold reserve_result_budget. destruct (i_result_budget_reserved i) eqn:Hres; [by apply same_charged|].
  rewrite reserve_protocol_global_eq.
  destruct (reserve_global g (i_max_response_bytes i) (i_max_response_resources i)) as [ok g1] eqn:Hg1.
  assert (∀ rest, nonneg rest → within g → g = add_globals (result_share i) rest →
    g1 = add_globals (result_share (if ok then set_budget true i else i)) rest ∧ within g1) as Hspec.
  { intros rest Hrest Hw Hg. unfold result_share in *. rewrite Hres in Hg.
    destruct (reserve_global_spec g (i_max_response_bytes i) (i_max_response_resources i) Hw Hb Hr) as [He|[He Hw1]];
      rewrite Hg1 in He; simplify_eq/=.
    - by rewrite Hres.
    - split; [|done]. unfold add_globals. simpl. f_equal; lia. }
  destruct ok; simpl; by split.
Qed.

Section world.
Context {M : Type} `{HandleMap M}.
Abbreviation table := (resource_table M).

Lemma complete_reply_budget i bytes rs error (source : option table) :
  budget (complete_reply i bytes rs error source).1.2 = budget i.
Proof.
  unfold complete_reply. pose proof (publish_budget i EXECUTION_NONE REASON_NONE bytes rs error) as Hb.
  destruct (publish_locked_no_wake _ _ _ _ _ _) as [[] i1]; destruct source; simpl in *; try done.
  by destruct (commit_native_batch _ _).
Qed.

Ltac charged_auto :=
  lazymatch goal with
  | |- context [publish_locked_no_wake ?j ?o ?r ?b ?rs ?e] =>
    pose proof (publish_budget j o r b rs e); destruct (publish_locked_no_wake j o r b rs e); by apply same_charged
  | |- _ => by apply same_charged
  end.

Lemma call_step_charged c i g : inv_ok i →
  let '(_, _, i', g') := call_step (M := M) c i g in charged_ok i g i' g'.
Proof.
  intros Hi. destruct c; cbn [call_step].
  - unfold begin_receive, publish_empty. case_bool_decide; simpl; [|charged_auto]. destruct (_ || _); charged_auto.
  - unfold rollback_receive_locked. case_bool_decide; by apply same_charged.
  - unfold finish_dispatch. case_bool_decide; by apply same_charged.
  - unfold mark_dispatched. destruct (i_phase i); by apply same_charged.
  - unfold set_queue_owner. case_bool_decide; by apply same_charged.
  - by apply same_charged.
  - unfold cancel_locked, publish_empty. destruct (i_phase i); try charged_auto. destruct removed as [[]|]; charged_auto.
  - unfold expire_removed, publish_empty. case_bool_decide; charged_auto.
  - unfold expire_locked, publish_empty. destruct (i_phase i); charged_auto.
  - unfold close_client. pose proof (release_charged (set_response [] [] (set_client_closed true i)) g Hi) as Hc.
    destruct (release_result_budget_locked _ g) as [i' g']. eapply charged_trans; [|exact Hc]. by apply same_charged.
  - unfold abandon_responder, publish_empty. destruct (i_responder_alive i); [|charged_auto].
    destruct (i_phase i); charged_auto.
  - unfold consume_responder. destruct (i_responder_alive i); by apply same_charged.
  - pose proof (complete_reply_budget i bytes resources error source) as Hb.
    destruct (complete_reply _ _ _ _ _) as [[]]. by apply same_charged.
  - unfold complete_reply_lvalue. destruct (completed i); [by apply same_charged|].
    pose proof (complete_reply_budget i bytes resources error source) as Hb.
    destruct (complete_reply _ _ _ _ _) as [[]]. by apply same_charged.
  - unfold complete_failure. destruct (valid_failure _ _); charged_auto.
  - pose proof (reserve_charged i g Hi). by destruct (reserve_result_budget i g) as [[]].
  - unfold claim_result. case_bool_decide; [by apply same_charged|].
    set (i1 := if _ && _ then _ else i). assert (budget i1 = budget i) as Hb.
    { subst i1. destruct (_ && _); [|done]. apply publish_budget. }
    clearbody i1. destruct (negb _); [by apply same_charged|]. destruct (i_result_claimed i1); [by apply same_charged|].
    destruct (_ || _); by apply same_charged.
  - unfold restore_result. destruct (_ || _); by apply same_charged.
  - unfold commit_result. destruct (_ || _); [by apply same_charged|].
    pose proof (release_charged (set_response [] [] (set_result_claimed false (set_phase consumed i))) g Hi) as Hc.
    destruct (release_result_budget_locked _ g) as [i' g']. eapply charged_trans; [|exact Hc]. by apply same_charged.
Qed.
End world.

(** An invocation changed by a method. *)
Lemma invocation_update w n i i' g' w' :
  pworld_wf w → w_invocations w !! n = Some i → charged_ok i (w_globals w) i' g' →
  core w' = (g', <[n := i']> (w_invocations w), w_requests w, w_protocols w) → pworld_wf w'.
Proof.
  intros Hwf Hn [[L1 L2] Hch] [= Eg Ei Er Ep]. destruct (invocation_splits w n i Hwf Hn) as (rest & [Hg Hrest] & Hc).
  destruct (Hch rest Hrest (pw_within w Hwf) Hg) as [Hg' Hw'].
  split; rewrite ?Eg, ?Ei, ?Er, ?Ep; try apply Hwf; try done.
  - intros n2 i2 [(<- & <-)|[Hne Hi2]]%lookup_insert_Some; [|by apply (pw_invocations w Hwf n2)].
    destruct (pw_invocations w Hwf n i Hn). split; congruence.
  - by rewrite (Hc i' w' Ep Ei).
Qed.

(** A new invocation holds no budget. *)
Lemma new_invocation_wf w n i w' :
  pworld_wf w → w_invocations w !! n = None → inv_ok i → i_result_budget_reserved i = false →
  core w' = (w_globals w, <[n := i]> (w_invocations w), w_requests w, w_protocols w) → pworld_wf w'.
Proof.
  intros Hwf Hn Hi Hr [= Eg Ei Er Ep]. split; rewrite ?Eg, ?Ei, ?Er, ?Ep; try apply Hwf.
  - intros n2 i2 [(<- & <-)|[Hne Hi2]]%lookup_insert_Some; [done|by apply (pw_invocations w Hwf n2)].
  - rewrite (pw_globals w Hwf). unfold charges. rewrite Ei, Ep, sum_shares_insert, delete_id by done.
    unfold result_share at 2. rewrite Hr. unfold add_globals. simpl. f_equal; lia.
Qed.
