(* ===== verification/ProtocolMachine.v ===== *)
(** The methods of the protocol world as atomic steps.  Every method of
    Protocol.v and Invocation.v that runs under one lock is one step and the
    calls are runs of such steps, so what holds along all runs holds however
    the calls of different threads interleave.  [bstep] are the steps that any
    thread takes on behalf of others, such as cancelling, expiring, closing
    and deleting; [pstep] adds those of the senders and receivers. *)
From stdpp Require Import base list numbers gmap relations.
From S2P Require Import Prelude Abi BoundedQueue Capability ResourceTable Channel ChannelFacts.
From S2P Require Import Invocation InvocationFacts Protocol ProtocolCalls ProtocolFacts.

Local Open Scope Z_scope.
Set Default Proof Using "Type".

Create HintDb protocol.

(** ** Leaving a queue *)

Lemma remove_queued_cases w s n :
  pworld_wf w →
  remove_queued w s n = (None, w) ∨
  ∃ st p r fifo, w_protocols w !! s = Some st ∧ w_requests w !! p = Some r ∧ iq_state r = n ∧
    leaves (q_fifo (ps_queue st)) fifo p ∧ claimed_ fifo = claimed_ (q_fifo (ps_queue st)) ∧
    (claimed_ fifo = true → queue_front null fifo = queue_front null (q_fifo (ps_queue st))) ∧
    remove_queued w s n =
      (Some p, wake (with_pglobals (release_request (w_globals w) r)
                       (update_protocol s (set_pqueue (shrink_queue (ps_queue st) fifo r)) w))).
Proof.
  intros Hwf. unfold remove_queued. destruct (w_protocols w !! s) as [st|] eqn:Hs.
  2: { left. unfold protocol_at. rewrite Hs. done. }
  rewrite (protocol_at_present w s st Hs). destruct (_ || _); [by left|].
  set (q := q_fifo (ps_queue st)). pose proof (pw_protocols w Hwf s st Hs) as Hst.
  pose proof (qo_fifo _ _ _ _ _ (pf_queue st _ Hst)) as Hq. fold q in Hq.
  assert (∀ fuel i, 0 ≤ i → match find_request fuel w q n i with
    | Some p => p ≠ null ∧ iq_state (request_at w p) = n ∧ p ∈ queue_items null q | None => True end) as Hfind.
  { intros fuel. induction fuel as [|fuel IH]; intros i Hi; [done|]. simpl.
    destruct (Z.ltb_spec i (queue_size q)) as [Hlt|]; [|done]. destruct (_ || _) eqn:Hc; [apply IH; lia|].
    apply orb_false_iff in Hc as [Hp Hn]. apply Z.eqb_neq in Hp. apply negb_false_iff, Z.eqb_eq in Hn.
    split_and!; [done..|]. eapply list_elem_of_lookup_2, queue_items_lookup; [done|]. unfold queue_size in Hlt. lia. }
  specialize (Hfind (Z.to_nat (queue_size q)) 0 ltac:(lia)). destruct (find_request _ w q n 0) as [p|]; [|by left].
  destruct Hfind as (Hp & Hn & Hin). destruct (queue_remove null q p) as [[] fifo] eqn:Hr; [|by left]. right.
  destruct (remove_leaves q p fifo Hq Hr) as (Hlv & Hcl & Hfront).
  destruct (queued_stored st _ p Hst Hin) as [_ [r Hreq]].
  assert (request_at w p = r) as Hat by (unfold request_at; by rewrite Hreq). rewrite Hat in *.
  exists st, p, r, fifo. split_and!; try done. intros Hcf. apply Hfront. by rewrite <- Hcl.
Qed.

(** The queue [q'] and the requests [d'] left after a closed queue gave up its
    requests: a claimed head stays and what left is queued nowhere. *)
Definition drained (w : pworld) (s : Z) (st : protocol_state) (d : list Z) (q' : msg_queue) (g : globals) (d' : list Z) : Prop :=
  let w' := with_pglobals g (update_protocol s (set_pqueue q') w) in
  pworld_wf w' ∧ claimed_ (q_fifo q') = claimed_ (q_fifo (ps_queue st)) ∧
  (claimed_ (q_fifo q') = true → queue_front null (q_fifo q') = queue_front null (q_fifo (ps_queue st))) ∧
  count_ (q_fifo q') ≤ count_ (q_fifo (ps_queue st)) ∧ (∀ p, p ∈ ptrs q' → p ∈ ptrs (ps_queue st)) ∧
  (∀ p, unqueued w p → unqueued w' p) ∧ ∃ ps, d' = d ++ ps ∧ Forall (unqueued w') ps.

Lemma drained_refl w s st d :
  pworld_wf w → w_protocols w !! s = Some st → drained w s st d (ps_queue st) (w_globals w) d.
Proof.
  intros Hwf Hs. assert (core (with_pglobals (w_globals w) (update_protocol s (set_pqueue (ps_queue st)) w)) = core w) as Hc.
  { unfold core, update_protocol. simpl. rewrite (alter_present _ _ _ _ Hs).
    replace (set_pqueue (ps_queue st) st) with st by (by destruct st). by rewrite insert_id. }
  split_and!; [by apply (core_wf w)|done..| |exists []; by rewrite app_nil_r].
  intros p. apply core_unqueued. unfold core in Hc. by injection Hc.
Qed.

Lemma drain_spec fuel w s st d :
  pworld_wf w → w_protocols w !! s = Some st →
  let '(q', g, d') := drain_requests fuel (w_requests w) (ps_queue st) (w_globals w) d in drained w s st d q' g d'.
Proof.
  revert w st d. induction fuel as [|fuel IH]; intros w st d Hwf Hs; simpl; [by apply drained_refl|].
  destruct (queue_empty (q_fifo (ps_queue st))); [by apply drained_refl|].
  pose proof (pw_protocols w Hwf s st Hs) as Hst. pose proof (qo_fifo _ _ _ _ _ (pf_queue st _ Hst)) as Hq.
  destruct (claim_front (q_fifo (ps_queue st))) as [[] fifo] eqn:Hcl; [|by apply drained_refl]. cbn [negb].
  destruct (claim_commit_leaves _ fifo Hq Hcl) as (Hlv & Hc' & Hc0). set (p := queue_front null fifo) in *.
  assert (p ∈ ptrs (ps_queue st)) as Hin by (unfold ptrs; rewrite (lv_items _ _ _ Hlv); by left).
  destruct (queued_stored st _ p Hst Hin) as [Hp [r Hr]].
  rewrite (proj2 (Z.eqb_neq p null) Hp), Hr. simpl.
  set (st1 := set_pqueue (shrink_queue (ps_queue st) (commit_claim fifo) r) st).
  set (w1 := with_pglobals (release_request (w_globals w) r) (with_protocols (<[s := st1]> (w_protocols w)) w)).
  destruct (leave_wf w s st st1 (commit_claim fifo) p r w1) as [Hwf1 Hu1]; try done.
  { simpl. rewrite Hc', (pf_claims st _ Hst), Hc0. done. }
  specialize (IH w1 st1 (d ++ [p]) Hwf1 (lookup_insert_eq _ _ _)). cbn [w_requests w_globals ps_queue w1 st1 set_pqueue] in IH.
  change (w_requests w1) with (w_requests w) in IH. change (w_globals w1) with (release_request (w_globals w) r) in IH.
  change (ps_queue st1) with (shrink_queue (ps_queue st) (commit_claim fifo) r) in IH.
  destruct (drain_requests fuel _ _ _ _) as [[q' g] d'].
  destruct IH as (Hwf' & Hcl' & Hfr & Hcnt & Hsub & Hu & ps & -> & Hps).
  assert (core (with_pglobals g (update_protocol s (set_pqueue q') w)) =
          core (with_pglobals g (update_protocol s (set_pqueue q') w1))) as Hcore.
  { unfold core, update_protocol, w1. simpl. rewrite (alter_present _ _ _ _ Hs).
    rewrite (alter_present _ (<[s := st1]> _) s st1) by apply lookup_insert_eq. by rewrite insert_insert_eq. }
  assert (∀ p', unqueued w p' → unqueued w1 p') as Hmono.
  { intros p' Hp' s2 st2. unfold w1. simpl. intros [(<- & <-)|[Hne Hs2]]%lookup_insert_Some; [|by apply (Hp' s2)].
    intros Hin'. apply (Hp' s st Hs). unfold ptrs. rewrite (lv_items _ _ _ Hlv). by right. }
  pose proof (leaves_count _ _ _ Hq Hlv) as Hcount. simpl in Hcl', Hcnt.
  assert (∀ p', unqueued (with_pglobals g (update_protocol s (set_pqueue q') w1)) p' →
                unqueued (with_pglobals g (update_protocol s (set_pqueue q') w)) p') as Htr.
  { intros p'. apply core_unqueued. unfold core in Hcore. by injection Hcore. }
  split_and!.
  - by apply (core_wf _ _ Hcore).
  - by rewrite Hcl', Hc', Hc0.
  - intros Hq'. rewrite Hcl', Hc' in Hq'. done.
  - lia.
  - intros p' Hp'. unfold ptrs. rewrite (lv_items _ _ _ Hlv). right. by apply Hsub.
  - intros p' Hp'. by apply Htr, Hu, Hmono.
  - exists (p :: ps). split; [by rewrite <- app_assoc|]. constructor; [by apply Htr, Hu|].
    eapply Forall_impl; [exact Hps|]. apply Htr.
Qed.

(** ** Background steps *)

Section machine.
Context {M : Type} `{HandleMap M}.
Abbreviation table := (resource_table M).

Definition call_world (c : invocation_call (M := M)) (n : Z) (i : invocation_state) (w : pworld) : pworld :=
  let '(_, _, i', g') := call_step c i (w_globals w) in
  with_pglobals g' (with_invocations (<[n := i']> (w_invocations w)) w).

Inductive bstep (w : pworld) : pworld → Prop :=
| b_core w' : core w' = core w → bstep w w'
| b_call n c i : w_invocations w !! n = Some i → bstep w (call_world c n i w)
| b_destroy n i : w_invocations w !! n = Some i →
    bstep w (with_pglobals (release_result_budget_locked i (w_globals w)).2
               (with_invocations (<[n := (release_result_budget_locked i (w_globals w)).1]> (w_invocations w)) w))
| b_remove s n : bstep w (remove_queued w s n).2
| b_close s : bstep w (close_queue_locked w s).2
| b_inert s f : pinert f → bstep w (update_protocol s f w)
| b_delete p : unqueued w p → bstep w (with_requests (delete p (w_requests w)) w).

Lemma close_queue_cases w s :
  pworld_wf w →
  (w_protocols w !! s = None ∧ core (close_queue_locked w s).2 = core w ∧ (close_queue_locked w s).1 = []) ∨
  ∃ st q' g d, w_protocols w !! s = Some st ∧ drained w s st [] q' g d ∧ (close_queue_locked w s).1 = d ∧
    core (close_queue_locked w s).2 =
      core (update_protocol s set_server_closed (with_pglobals g (update_protocol s (set_pqueue q') w))).
Proof.
  intros Hwf. unfold close_queue_locked. destruct (w_protocols w !! s) as [st|] eqn:Hs.
  2: { left. unfold protocol_at. rewrite Hs. simpl. unfold core, update_protocol. simpl. by rewrite alter_absent. }
  right. rewrite (protocol_at_present w s st Hs).
  pose proof (drain_spec (Z.to_nat (queue_size (q_fifo (ps_queue st)))) w s st [] Hwf Hs) as Hd.
  destruct (drain_requests _ _ _ _ _) as [[q' g] d]. exists st, q', g, d. split_and!; try done.
  unfold core, update_protocol. simpl. rewrite !(alter_present _ _ _ _ Hs).
  rewrite (alter_present _ (<[s := _]> _) s (set_pqueue q' st)) by apply lookup_insert_eq. by rewrite insert_insert_eq.
Qed.

Lemma inert_server_closed : pinert set_server_closed.
Proof. by intros st. Qed.
Lemma inert_operations n : pinert (set_poperations n).
Proof. by intros st. Qed.
Lemma inert_acquired role where_ : pinert (λ st, endpoint_acquired st role where_).
Proof. intros st. unfold endpoint_acquired. by case_decide. Qed.
Lemma inert_released role where_ : pinert (λ st, endpoint_released st role where_).
Proof. intros st. unfold endpoint_released. by case_decide. Qed.

Lemma bstep_wf w w' : pworld_wf w → bstep w w' → pworld_wf w'.
Proof.
  intros Hwf [w2 Hc|n c i Hn|n i Hn|s n|s|s f Hf|p Hu].
  - by apply (core_wf w).
  - unfold call_world. pose proof (call_step_charged c i (w_globals w) (pw_invocations w Hwf n i Hn)) as Hch.
    destruct (call_step c i (w_globals w)) as [[[pub con] i'] g']. by apply (invocation_update w n i i' g').
  - eapply (invocation_update w n i); [done..|by apply release_charged, (pw_invocations w Hwf n)|done].
  - destruct (remove_queued_cases w s n Hwf) as [->|(st & p & r & fifo & Hs & Hr & _ & Hlv & Hcl & _ & ->)]; [done|].
    refine (proj1 (leave_wf w s st (set_pqueue (shrink_queue (ps_queue st) fifo r) st) fifo p r _ Hwf Hs Hlv Hr _ _ _ _));
      try done.
    + simpl. rewrite Hcl. apply (pw_protocols w Hwf s st Hs).
    + unfold core. simpl. by rewrite (alter_present _ _ _ _ Hs).
  - destruct (close_queue_cases w s Hwf) as [(_ & Hc & _)|(st & q' & g & d & Hs & Hd & _ & Hc)]; apply (core_wf _ _ Hc); [done|].
    apply inert_wf; [apply Hd|apply inert_server_closed].
  - by apply inert_wf.
  - apply requests_wf; [done| |].
    + intros p' r [_ Hr]%lookup_delete_Some. by apply (pw_requests w Hwf p').
    + intros p' Hp'. rewrite lookup_delete_ne; [done|]. by intros ->.
Qed.

Lemma bsteps_wf w w' : rtc bstep w w' → pworld_wf w → pworld_wf w'.
Proof. induction 1; intros Hwf; [done|]. eauto using bstep_wf. Qed.

(** ** What background steps leave alone *)

(** What a thread that claimed a request relies on while others run. *)
Record keeps (w w' : pworld) : Prop := Build_keeps {
  kp_unqueued : ∀ p, unqueued w p → unqueued w' p;
  kp_protocol : ∀ s st, w_protocols w !! s = Some st → ∃ st', w_protocols w' !! s = Some st' ∧
    ps_valid st' = ps_valid st ∧ ps_descriptor st' = ps_descriptor st ∧
    count_ (q_fifo (ps_queue st')) ≤ count_ (q_fifo (ps_queue st)) ∧
    claimed_ (q_fifo (ps_queue st')) = claimed_ (q_fifo (ps_queue st)) ∧
    (claimed_ (q_fifo (ps_queue st)) = true →
       queue_front null (q_fifo (ps_queue st')) = queue_front null (q_fifo (ps_queue st)));
  kp_requests : ∀ p, ¬ unqueued w' p → w_requests w' !! p = w_requests w !! p;
  kp_subset : ∀ p r, w_requests w' !! p = Some r → w_requests w !! p = Some r;
  kp_invocations : ∀ n i, w_invocations w !! n = Some i → ∃ i', w_invocations w' !! n = Some i' ∧
    (completed i = true → completed i' = true ∧ outcome_of i' = outcome_of i);
}.

#[global] Instance keeps_po : PreOrder keeps.
Proof.
  split.
  - intros w. split; try done.
    + intros s st Hs. exists st. split_and!; done.
    + intros n i Hi. by exists i.
  - intros w1 w2 w3 [U1 P1 R1 S1 I1] [U2 P2 R2 S2 I2]. split.
    + auto.
    + intros s st Hs. destruct (P1 s st Hs) as (st2 & Hs2 & V2 & D2 & C2 & E2 & F2).
      destruct (P2 s st2 Hs2) as (st3 & Hs3 & V3 & D3 & C3 & E3 & F3). exists st3.
      split_and!; [done|congruence..|lia|congruence|]. intros Hc. rewrite F3 by congruence. by apply F2.
    + intros p Hp. rewrite R2 by done. apply R1. intros Hu. apply Hp. by apply U2.
    + auto.
    + intros n i Hi. destruct (I1 n i Hi) as (i2 & Hi2 & F2). destruct (I2 n i2 Hi2) as (i3 & Hi3 & F3).
      exists i3. split; [done|]. intros Hc. destruct (F2 Hc) as [Hc2 Ho2]. destruct (F3 Hc2) as [Hc3 Ho3]. split; congruence.
Qed.

(** A world that only differs in one invocation, one protocol or requests. *)
Lemma keeps_core w w' : core w' = core w → keeps w w'.
Proof.
  destruct w, w'. unfold core. simpl. intros [= -> -> -> ->]. split; simpl; try done.
  - intros s st Hs. exists st. split_and!; done.
  - intros n i Hi. by exists i.
Qed.

Lemma keeps_invocation w n i i' w' :
  w_invocations w !! n = Some i → (completed i = true → completed i' = true ∧ outcome_of i' = outcome_of i) →
  w_invocations w' = <[n := i']> (w_invocations w) → w_requests w' = w_requests w → w_protocols w' = w_protocols w →
  keeps w w'.
Proof.
  intros Hn Hlaw Ei Er Ep. split; unfold unqueued; rewrite ?Er, ?Ep; try done.
  - intros s st Hs. exists st. split_and!; done.
  - intros n2 i2 Hn2. rewrite Ei. destruct (decide (n2 = n)) as [->|Hne].
    + exists i'. rewrite lookup_insert_eq. split; [done|]. by simplify_eq.
    + exists i2. by rewrite lookup_insert_ne.
Qed.

Lemma keeps_protocol w s st st' w' :
  w_protocols w !! s = Some st → ps_valid st' = ps_valid st → ps_descriptor st' = ps_descriptor st →
  (∀ p, p ∈ ptrs (ps_queue st') → p ∈ ptrs (ps_queue st)) →
  count_ (q_fifo (ps_queue st')) ≤ count_ (q_fifo (ps_queue st)) →
  claimed_ (q_fifo (ps_queue st')) = claimed_ (q_fifo (ps_queue st)) →
  (claimed_ (q_fifo (ps_queue st)) = true →
     queue_front null (q_fifo (ps_queue st')) = queue_front null (q_fifo (ps_queue st))) →
  w_protocols w' = <[s := st']> (w_protocols w) → w_requests w' = w_requests w →
  w_invocations w' = w_invocations w → keeps w w'.
Proof.
  intros Hs Hv Hd Hp Hcnt Hcl Hfr Ep Er Ei. split; unfold unqueued; rewrite ?Er, ?Ei, ?Ep; try done.
  - intros p Hu s2 st2 [(<- & <-)|[Hne Hs2]]%lookup_insert_Some; [|by apply (Hu s2)].
    intros Hin. apply (Hu s st Hs). by apply Hp.
  - intros s2 st2 Hs2. destruct (decide (s2 = s)) as [->|Hne].
    + rewrite lookup_insert_eq. exists st'. simplify_eq. split_and!; done.
    + rewrite lookup_insert_ne by done. exists st2. split_and!; done.
  - intros n i Hi. by exists i.
Qed.

Lemma keeps_inert w s f : pinert f → keeps w (update_protocol s f w).
Proof.
  intros Hf. destruct (w_protocols w !! s) as [st|] eqn:Hs.
  2: { apply keeps_core. by apply update_protocol_absent. }
  destruct (Hf st) as (Hq & (_ & _ & _ & Hd) & _ & Hv). eapply (keeps_protocol w s st (f st)); rewrite ?Hq; try done.
  simpl. by rewrite (alter_present _ _ _ _ Hs).
Qed.

Lemma bstep_keeps w w' : pworld_wf w → bstep w w' → keeps w w'.
Proof.
  intros Hwf [w2 Hc|n c i Hn|n i Hn|s n|s|s f Hf|p Hu].
  - by apply keeps_core.
  - unfold call_world. pose proof (call_step_lawful c i (w_globals w)) as Hlaw.
    destruct (call_step c i (w_globals w)) as [[[pub con] i'] g']. apply (keeps_invocation w n i i'); try done. apply Hlaw.
  - apply (keeps_invocation w n i (release_result_budget_locked i (w_globals w)).1); try done.
    unfold release_result_budget_locked. by destruct (i_result_budget_reserved i).
  - destruct (remove_queued_cases w s n Hwf) as [->|(st & p & r & fifo & Hs & Hr & _ & Hlv & Hcl & Hfr & ->)]; [done|].
    pose proof (qo_fifo _ _ _ _ _ (pf_queue _ _ (pw_protocols w Hwf s st Hs))) as Hq.
    eapply (keeps_protocol w s st (set_pqueue (shrink_queue (ps_queue st) fifo r) st)); try done.
    + intros p' Hp'. unfold ptrs. rewrite (lv_items _ _ _ Hlv). by right.
    + simpl. rewrite (leaves_count _ _ _ Hq Hlv). lia.
    + simpl. intros Hc. apply Hfr. by rewrite Hcl.
    + simpl. by rewrite (alter_present _ _ _ _ Hs).
  - destruct (close_queue_cases w s Hwf) as [(_ & Hc & _)|(st & q' & g & d & Hs & Hd & _ & Hc)]; [by apply keeps_core|].
    etrans; [|by apply keeps_core, Hc]. destruct Hd as (_ & Hcl & Hfr & Hcnt & Hsub & _).
    etrans; [|apply keeps_inert, inert_server_closed].
    eapply (keeps_protocol w s st (set_pqueue q' st)); try done.
    + simpl. intros Hc'. apply Hfr. by rewrite Hcl.
    + simpl. by rewrite (alter_present _ _ _ _ Hs).
  - by apply keeps_inert.
  - split; simpl; try done.
    + intros s st Hs. exists st. split_and!; done.
    + intros p' Hp'. rewrite lookup_delete_ne; [done|]. intros ->. by apply Hp'.
    + by intros p' r [_ Hr]%lookup_delete_Some.
    + intros n i Hi. by exists i.
Qed.

Lemma bsteps_keeps w w' : pworld_wf w → rtc bstep w w' → keeps w w'.
Proof. intros Hwf Hs. induction Hs; [done|]. etrans; [by apply bstep_keeps|]. eauto using bstep_wf. Qed.

(** ** Runs *)

(** From a well-formed world [w] background steps lead to [w']. *)
Definition reach (w w' : pworld) : Prop := pworld_wf w → rtc bstep w w'.

#[global] Instance reach_refl : Reflexive reach.
Proof. intros w _. apply rtc_refl. Qed.

Lemma reach_trans w1 w2 w3 : reach w1 w2 → reach w2 w3 → reach w1 w3.
Proof. intros H1 H2 Hwf. etrans; [by apply H1|]. apply H2. by eapply bsteps_wf; [apply H1|]. Qed.

Lemma reach_step w w' : bstep w w' → reach w w'.
Proof. intros Hs _. by apply rtc_once. Qed.

Lemma reach_core w w' : core w' = core w → reach w w'.
Proof. intros Hc. by apply reach_step, b_core. Qed.

Lemma reach_wf w w' : pworld_wf w → reach w w' → pworld_wf w'.
Proof. intros Hwf Hr. by eapply bsteps_wf; [apply Hr|]. Qed.

Lemma reach_keeps w w' : pworld_wf w → reach w w' → keeps w w'.
Proof. intros Hwf Hr. apply bsteps_keeps; [done|]. by apply Hr. Qed.

Lemma reach_foldl {B} (f : pworld → B → pworld) l w :
  (∀ w x, x ∈ l → reach w (f w x)) → reach w (foldl f w l).
Proof.
  revert w. induction l as [|x l IH]; intros w Hf; [done|]. simpl.
  eapply reach_trans; [apply Hf; by left|]. apply IH. intros w' x' Hx'. apply Hf. by right.
Qed.

(** A fold whose elements stay unqueued. *)
Lemma reach_foldl_unqueued (f : pworld → Z → pworld) l w :
  (∀ w p, unqueued w p → reach w (f w p)) → Forall (unqueued w) l → reach w (foldl f w l).
Proof.
  intros Hf. revert w. induction l as [|p l IH]; intros w Hu; [done|]. apply Forall_cons in Hu as [Hp Hu]. simpl.
  intros Hwf. eapply reach_trans; [by apply Hf|apply IH|done].
  eapply Forall_impl; [exact Hu|]. apply (reach_keeps w (f w p) Hwf). by apply Hf.
Qed.

(** The methods of an invocation that leave the counters alone. *)
Definition is_call (f : invocation_state → invocation_state) : Prop :=
  ∀ i g, ∃ c, (call_step (M := M) c i g).1.2 = f i ∧ (call_step c i g).2 = g.

Lemma call_reach w n f : is_call f → reach w (update_inv n f w).
Proof.
  intros Hf. destruct (w_invocations w !! n) as [i|] eqn:Hn.
  2: { apply reach_core. unfold core, update_inv. simpl. by rewrite alter_absent. }
  destruct (Hf i (w_globals w)) as (c & Hc & Hg). eapply reach_trans; [by apply reach_step, (b_call w n c i)|].
  apply reach_core. unfold call_world. destruct (call_step c i (w_globals w)) as [[[pub con] i'] g']. simpl in *. subst.
  unfold core, update_inv. simpl. by rewrite (alter_present _ _ _ _ Hn).
Qed.

Lemma update_inv_const w n f : update_inv n (λ _, f (inv_at w n)) w = update_inv n f w.
Proof.
  unfold update_inv, inv_at. f_equal. apply map_eq. intros n'. destruct (decide (n' = n)) as [->|Hne].
  - rewrite !lookup_alter_eq. by destruct (w_invocations w !! n).
  - by rewrite !lookup_alter_ne.
Qed.

Lemma wake_reach w b : reach w (wake_if b w).
Proof. apply reach_core. by destruct b. Qed.

(** A method applied to what was read. *)
Lemma set_inv_reach w n f i : is_call f → i = f (inv_at w n) → reach w (update_inv n (λ _, i) w).
Proof. intros Hf ->. rewrite update_inv_const. by apply call_reach. Qed.

Lemma publish_reach w n f : is_call (λ i, (f i).2) → reach w (publish_on n f w).
Proof.
  intros Hf. unfold publish_on. destruct (f (inv_at w n)) as [woke i'] eqn:Hi.
  eapply reach_trans; [|apply wake_reach]. eapply set_inv_reach; [exact Hf|]. simpl. by rewrite Hi.
Qed.

Lemma is_call_clear : is_call clear_queue_owner.
Proof. intros i g. by exists CClearOwner. Qed.
Lemma is_call_set s : is_call (set_queue_owner s).
Proof. intros i g. by exists (CSetOwner s). Qed.
Lemma is_call_abandon : is_call (λ i, (abandon_responder i).2).
Proof. intros i g. exists CAbandon. simpl. by destruct (abandon_responder i). Qed.
Lemma is_call_failure outcome reason error : is_call (λ i, (complete_failure i outcome reason error).2).
Proof. intros i g. exists (CFail outcome reason error). simpl. by destruct (complete_failure _ _ _ _). Qed.
Lemma is_call_not_delivered reason : is_call (λ i, (complete_not_delivered i reason).2).
Proof. apply is_call_failure. Qed.
Lemma is_call_expire : is_call (λ i, (expire_locked i).2).
Proof. intros i g. exists CExpire. simpl. by destruct (expire_locked i). Qed.
Lemma is_call_expire_removed : is_call (λ i, (expire_removed i).2).
Proof. intros i g. exists CExpireRemoved. simpl. by destruct (expire_removed i). Qed.
Lemma is_call_cancel removed : is_call (λ i, (cancel_locked i removed).2).
Proof. intros i g. exists (CCancel removed). simpl. by destruct (cancel_locked i removed) as [[]]. Qed.
Lemma is_call_begin : is_call (λ i, (begin_receive i).2).
Proof. intros i g. exists CBeginReceive. simpl. by destruct (begin_receive i) as [[]]. Qed.
Lemma is_call_finish : is_call (λ i, (finish_dispatch i).2).
Proof. intros i g. by exists CFinishDispatch. Qed.
Lemma is_call_consume : is_call (λ i, (consume_responder i).2).
Proof. intros i g. by exists CConsumeResponder. Qed.
Lemma is_call_restore bytes rs : is_call (λ i, restore_result i bytes rs).
Proof. intros i g. by exists (CRestore bytes rs). Qed.
Lemma is_call_claim now f : is_call (λ i, (claim_result i now f).2).
Proof. intros i g. exists (CClaim now f). simpl. by destruct (claim_result i now f) as [[[[]]]]. Qed.
Lemma is_call_reply bytes rs error (source : option table) :
  is_call (λ i, (complete_reply_lvalue i bytes rs error source).1.2).
Proof. intros i g. exists (CReplyLvalue bytes rs error source). simpl. by destruct (complete_reply_lvalue _ _ _ _ _) as [[]]. Qed.

Hint Resolve is_call_clear is_call_set is_call_abandon is_call_failure is_call_not_delivered is_call_expire
  is_call_expire_removed is_call_cancel is_call_begin is_call_finish is_call_consume is_call_restore is_call_claim
  is_call_reply : protocol.
Hint Resolve inert_acquired inert_released inert_operations : protocol.

(** A rollback is two methods. *)
Lemma rollback_reach w n : reach w (publish_on n rollback_receive w).
Proof.
  assert (is_call (λ i, (rollback_receive_locked i).2)) as Hl by (intros i g; by exists CRollback).
  unfold publish_on, rollback_receive. destruct (rollback_receive_locked (inv_at w n)) as [c i1] eqn:Hr.
  destruct c.
  2: { apply (set_inv_reach w n (λ i, (rollback_receive_locked i).2)); [done|simpl; by rewrite Hr]. }
  destruct (complete_not_delivered i1 REASON_CANCEL_REQUESTED) as [woke i2] eqn:Hc.
  eapply reach_trans; [|apply wake_reach].
  eapply reach_trans; [apply (set_inv_reach w n (λ i, (rollback_receive_locked i).2) i1 Hl); simpl; by rewrite Hr|].
  set (w1 := update_inv n (λ _, i1) w). destruct (w_invocations w !! n) as [i|] eqn:Hn.
  2: { apply reach_core. unfold core, w1, update_inv. simpl. by rewrite !alter_absent. }
  assert (inv_at w1 n = i1) as Hi1 by (unfold inv_at, w1; simpl; by rewrite lookup_alter_eq, Hn).
  eapply reach_trans; [apply (set_inv_reach w1 n _ i2 (is_call_not_delivered REASON_CANCEL_REQUESTED)); simpl; by rewrite Hi1, Hc|].
  apply reach_core. unfold core, w1, update_inv. simpl. by rewrite alter_alter_eq.
Qed.

(** The methods that give the budget back. *)
Lemma close_client_reach w n : reach w (release_on n close_client w).
Proof.
  unfold release_on. destruct (w_invocations w !! n) as [i|] eqn:Hn; [|done].
  eapply reach_trans; [by apply reach_step, (b_call w n CCloseClient i)|]. apply reach_core. unfold call_world. simpl.
  destruct (close_client i (w_globals w)) as [i' g']. unfold core, update_inv. simpl. by rewrite (alter_present _ _ _ _ Hn).
Qed.

Lemma destroy_state_reach w n : reach w (release_on n release_result_budget_locked w).
Proof.
  unfold release_on. destruct (w_invocations w !! n) as [i|] eqn:Hn; [|done].
  eapply reach_trans; [by apply reach_step, (b_destroy w n i)|]. apply reach_core.
  destruct (release_result_budget_locked i (w_globals w)) as [i' g']. unfold core, update_inv. simpl.
  by rewrite (alter_present _ _ _ _ Hn).
Qed.

(** ** Deletion *)

Section cascade.
Context (delete_ : pworld → Z → pworld) (last : Z → bool).
Context (Hdel : ∀ w p, unqueued w p → reach w (delete_ w p)).

Lemma close_reach w s : reach w (close_server_queue_with delete_ w s).
Proof using Hdel.
  unfold close_server_queue_with. destruct (close_queue_locked w s) as [d w1] eqn:Hd. intros Hwf.
  assert (reach w w1) as Hr1 by (pose proof (reach_step _ _ (b_close w s)) as Hb; by rewrite Hd in Hb).
  eapply reach_trans; [exact Hr1| |done]. eapply reach_trans; [|apply (wake_reach _ true)].
  apply reach_foldl_unqueued.
  - intros w2 p Hp. set (n := iq_state (request_at w2 p)).
    eapply reach_trans; [apply (call_reach w2 n), is_call_clear|].
    eapply reach_trans; [apply (publish_reach _ n (λ i, complete_not_delivered i REASON_PEER_CLOSED)), is_call_not_delivered|].
    apply Hdel.
    unfold publish_on. destruct (complete_not_delivered _ _) as [b i]. by destruct b.
  - destruct (close_queue_cases w s Hwf) as [(_ & _ & He)|(st & q' & g & d' & Hs & Hdr & He & Hc)]; rewrite Hd in He; simpl in He; subst.
    { done. }
    destruct Hdr as (_ & _ & _ & _ & _ & _ & ps & -> & Hps). eapply Forall_impl; [exact Hps|]. intros p Hp.
    rewrite Hd in Hc. unfold core in Hc. simpl in Hc. injection Hc as _ _ _ Hpr.
    eapply (core_unqueued (update_protocol s set_server_closed (with_pglobals g (update_protocol s (set_pqueue q') w)))); [done|].
    apply (keeps_inert _ s set_server_closed inert_server_closed). done.
Qed.

Lemma inert_reach w s f : pinert f → reach w (update_protocol s f w).
Proof. intros Hf. by apply reach_step, b_inert. Qed.

Lemma release_endpoint_reach w s role where_ : reach w (release_endpoint_with delete_ w s role where_).
Proof using Hdel.
  unfold release_endpoint_with. eapply reach_trans; [apply inert_reach, inert_released|].
  destruct (_ && _); [apply close_reach|done].
Qed.

Lemma phook_reach w e : reach w (phook_with delete_ w e).
Proof using Hdel.
  destruct e as [o l|o l|o l l']; simpl.
  - destruct (w_endpoints w !! o) as [[s role]|]; [|done]. apply inert_reach, inert_acquired.
  - destruct (w_endpoints w !! o) as [[s role]|]; [apply release_endpoint_reach|].
    destruct (w_invocation_objects w !! o) as [n|]; [case_decide; [apply close_client_reach|done]|].
    destruct (w_responders w !! o) as [[n c]|]; [|done]. destruct (_ && _); [|done].
    apply publish_reach. auto with protocol.
  - destruct (w_endpoints w !! o) as [[s role]|]; [apply release_endpoint_reach|done].
Qed.

Lemma destroy_object_reach w o : reach w (destroy_object_with delete_ w o).
Proof using Hdel.
  unfold destroy_object_with. destruct (w_endpoints w !! o) as [[s role]|].
  { eapply reach_trans; [by apply (reach_core w (with_pendpoints (delete o (w_endpoints w)) w))|].
    case_bool_decide; [apply close_reach|done]. }
  destruct (w_invocation_objects w !! o) as [n|].
  { eapply reach_trans; [|apply close_client_reach]. by apply reach_core. }
  destruct (w_responders w !! o) as [[n c]|]; [|done].
  eapply reach_trans; [by apply (reach_core w (with_responders (delete o (w_responders w)) w))|].
  destruct c; [done|]. apply publish_reach. auto with protocol.
Qed.

Lemma drop_reach w r : reach w (drop_transferred_with delete_ last w r).
Proof using Hdel.
  unfold drop_transferred_with.
  apply (reach_trans _ (foldl (phook_with delete_) w (release_transit r).2)); [apply reach_foldl; intros; apply phook_reach|].
  destruct (t_object r) as [o|]; [|done]. destruct (last o); [apply destroy_object_reach|done].
Qed.
End cascade.

Lemma delete_request_reach fuel last w p : unqueued w p → reach w (delete_request fuel last w p).
Proof.
  revert w p. induction fuel as [|fuel IH]; intros w p Hu; [done|]. simpl.
  eapply reach_trans; [by apply reach_step, (b_delete w p)|].
  eapply reach_trans; [|apply reach_foldl; intros w' r _; by apply drop_reach]. by apply drop_reach.
Qed.

Lemma dispose_reach last w p : unqueued w p → reach w (dispose last w p).
Proof. apply delete_request_reach. Qed.

Lemma hooks_reach last w log : reach w (phooks last w log).
Proof. apply reach_foldl. intros. apply phook_reach, dispose_reach. Qed.

Lemma object_reach last w o : reach w (destroy_object last w o).
Proof. apply destroy_object_reach, dispose_reach. Qed.

Lemma server_close_reach last w s : reach w (close_server_queue last w s).
Proof. apply close_reach, dispose_reach. Qed.

Lemma drop_transferred_reach last w r : reach w (drop_transferred last w r).
Proof. apply drop_reach, dispose_reach. Qed.

(** A removed request is queued nowhere. *)
Lemma remove_unqueued w s n p w' : pworld_wf w → remove_queued w s n = (Some p, w') → unqueued w' p.
Proof.
  intros Hwf Hr. destruct (remove_queued_cases w s n Hwf) as [He|(st & p' & r & fifo & Hs & Hq & _ & Hlv & Hcl & _ & He)];
    rewrite He in Hr; [done|]. injection Hr as -> <-.
  refine (proj2 (leave_wf w s st (set_pqueue (shrink_queue (ps_queue st) fifo r) st) fifo p r _ Hwf Hs Hlv Hq _ _ _ _));
    try done.
  - simpl. rewrite Hcl. apply (pw_protocols w Hwf s st Hs).
  - unfold core. simpl. by rewrite (alter_present _ _ _ _ Hs).
Qed.

Lemma remove_reach w s n : reach w (remove_queued w s n).2.
Proof. apply reach_step, b_remove. Qed.

Lemma cancel_reach last w n owner : reach w (cancel last w n owner).2.
Proof.
  intros Hwf. unfold cancel. set (own := match owner with Some s => Some s | None => i_queue_owner (inv_at w n) end).
  set (res := match own with Some s => if bool_decide (i_phase (inv_at w n) = queued) then remove_queued w s n else (None, w)
              | None => (None, w) end).
  assert (reach w res.2 ∧ (∀ p, res.1 = Some p → unqueued res.2 p) ∧ w_invocations res.2 = w_invocations w) as (Hr & Hu & Hi).
  { subst res. destruct own as [s|]; [|done]. case_bool_decide; [|done]. split_and!; [apply remove_reach| |].
    - intros p Hp. destruct (remove_queued w s n) as [rm w1] eqn:Hrm. simpl in *. subst. by eapply remove_unqueued.
    - destruct (remove_queued_cases w s n Hwf) as [->|(st & p & r & fifo & _ & _ & _ & _ & _ & _ & ->)]; done. }
  destruct res as [removed w1]. simpl in *.
  destruct (cancel_locked (inv_at w n) _) as [[cancelled wk] i'] eqn:Hc.
  set (w2 := wake_if wk (update_inv n (λ _, i') w1)).
  assert (reach w1 w2) as Hr2.
  { eapply reach_trans; [|apply wake_reach]. eapply set_inv_reach; [apply is_call_cancel|].
    simpl. unfold inv_at in *. rewrite Hi. symmetry. exact (f_equal snd Hc). }
  destruct removed as [p|]; simpl; [|by apply (reach_trans w w1 w2)].
  eapply reach_trans; [exact Hr| |done]. eapply reach_trans; [exact Hr2|].
  eapply reach_trans; [apply call_reach, is_call_clear|]. apply dispose_reach.
  eapply core_unqueued; [|apply (Hu p eq_refl)]. by destruct wk.
Qed.

Lemma expire_reach last now w n : reach w (expire_deadline last now w n).
Proof.
  unfold expire_deadline. destruct (negb _); [done|].
  set (own := match deadline_action_for _ _ with remove_queued_action => _ | _ => None end). destruct own as [s|].
  2: { apply publish_reach. auto with protocol. }
  destruct (remove_queued w s n) as [[p|] w1] eqn:Hr; intros Hwf.
  - assert (reach w w1) as Hr1 by (pose proof (remove_reach w s n) as Hb; by rewrite Hr in Hb).
    eapply reach_trans; [exact Hr1| |done].
    eapply reach_trans; [apply (call_reach w1 n), is_call_clear|].
    eapply reach_trans; [apply (publish_reach _ n), is_call_expire_removed|]. apply dispose_reach.
    pose proof (remove_unqueued w s n p w1 Hwf Hr) as Hu. unfold publish_on. by destruct (expire_removed _) as [[] i].
  - pose proof (remove_reach w s n) as Hb. rewrite Hr in Hb. eapply reach_trans; [exact Hb| |done].
    apply publish_reach. auto with protocol.
Qed.

Lemma deadline_expired_reach last now w n : reach w (deadline_expired last now w n).2.
Proof. unfold deadline_expired. destruct (negb _); [done|]. apply expire_reach. Qed.

Lemma arm_reach last now w n watch scheduled : reach w (arm_deadline last now w n watch scheduled).2.
Proof.
  unfold arm_deadline. destruct (_ =? _); [done|]. destruct watch; [|done]. destruct scheduled; [done|]. apply expire_reach.
Qed.

(** ** The steps of senders and receivers *)

Inductive pstep (w : pworld) : pworld → Prop :=
| p_background w' : bstep w w' → pstep w w'
| p_enqueue (t : table) s p r : enqueue_invalid (protocol_at w s) r = false → p ≠ null → w_requests w !! p = None →
    pstep w (enqueue_request_locked w t s p r).1.2
| p_claim s : pstep w (claim w s).2
| p_cancel_claim s p : pstep w (cancel_request_claim w s p).2
| p_commit_claim s p : pstep w (commit_request_claim w s p).2
| p_abort_claim s p : pstep w (abort_claim w s p).2
| p_contents p r rs x : w_requests w !! p = Some r →
    pstep w (with_requests (<[p := with_contents rs x r]> (w_requests w)) w)
| p_new_invocation n now method operation_budget mb mr : w_invocations w !! n = None → 0 ≤ mb → 0 ≤ mr →
    pstep w (with_invocations (<[n := make_invocation now method operation_budget mb mr]> (w_invocations w)) w)
| p_new_protocol s d mm mb mr : w_protocols w !! s = None → 0 < mm ≤ CHANNEL_MAX_MESSAGES →
    0 ≤ mb ≤ max_kernel_payload * 16 → 0 ≤ mr ≤ CHANNEL_MAX_RESOURCES →
    0 ≤ pd_max_response_bytes d → 0 ≤ pd_max_resources d →
    pstep w (with_protocols (<[s := make_protocol d mm mb mr true]> (w_protocols w)) w)
| p_delete_protocol s st : w_protocols w !! s = Some st → count_ (q_fifo (ps_queue st)) = 0 →
    pstep w (with_protocols (delete s (w_protocols w)) w).

Lemma commit_batch_resources (t : table) rs : length (commit_native_batch t rs).1 = length rs.
Proof.
  revert t. induction rs as [|r rs IH]; intros t; [done|]. simpl. destruct (commit_one t r) as [r' t1].
  specialize (IH t1). destruct (commit_native_batch t1 rs) as [rs' t2]. simpl in *. lia.
Qed.

Lemma enqueue_wf w (t : table) s p r :
  pworld_wf w → enqueue_invalid (protocol_at w s) r = false → p ≠ null → w_requests w !! p = None →
  pworld_wf (enqueue_request_locked w t s p r).1.2.
Proof.
  intros Hwf Hinv Hp Hfresh. unfold enqueue_invalid in Hinv. apply orb_false_iff in Hinv as [Hinv _].
  apply orb_false_iff in Hinv as [Hv Hbytes]. unfold enqueue_request_locked.
  destruct (w_protocols w !! s) as [st|] eqn:Hs.
  2: { unfold protocol_at in Hv. by rewrite Hs in Hv. }
  rewrite (protocol_at_present w s st Hs) in *. destruct (_ || _); [done|].
  destruct (Z.ltb_spec (ps_max_resources st) (request_load r)) as [|Hload]; [done|].
  apply Z.ltb_ge in Hbytes. pose proof (pw_protocols w Hwf s st Hs) as Hst. destruct (plimits_small st _ Hst) as [Hmb Hmr].
  assert (0 ≤ request_load r) as Hl0 by (apply u64_range). assert (0 ≤ request_bytes r) as Hb0 by (unfold request_bytes; lia).
  destruct (_ || _) eqn:Hroom; [done|]. apply orb_false_iff in Hroom as [Hroom Hr]. apply orb_false_iff in Hroom as [_ Hb].
  rewrite u64_small in Hb, Hr by lia. apply Z.ltb_ge in Hb, Hr. rewrite reserve_protocol_global_eq.
  destruct (reserve_global_spec (w_globals w) (request_bytes r) (request_load r)) as [->|[-> Hw1]]; [apply Hwf|done..| |].
  { by apply (core_wf w). }
  simpl. set (g1 := Build_globals _ _ _) in *.
  destruct (try_push (q_fifo (ps_queue st)) p) as [[] fifo] eqn:Hpush; simpl.
  2: { apply (core_wf w); [|done]. unfold core. simpl. do 3 f_equal. rewrite release_protocol_global_eq, release_global_spec;
         [|done|simpl; pose proof (pw_within w Hwf); limits; lia..]. destruct (w_globals w). simpl. f_equal; lia. }
  destruct (if iq_source r then commit_native_batch t (iq_resources r) else (iq_resources r, t)) as [rs t'].
  set (r' := Build_request _ _ _ _ _ _ _ _ _). set (q' := Build_queue _ _ _). simpl.
  destruct (push_ok _ _ _ _ (ps_queue st) p (view r') fifo (pf_queue _ _ Hst) Hpush) as (Hqo & Hpt & Hc & Hqb & Hqr & Hcl);
    try done; try (rewrite view_resources by done; simpl; lia).
  { unfold heap_of. by rewrite lookup_fmap, Hfresh. }
  { simpl. unfold request_bytes in *. simpl. lia. }
  assert (push_queue (ps_queue st) fifo (view r') = q') as Hq'.
  { unfold push_queue, q'. rewrite view_resources by done. done. }
  rewrite Hq' in *. destruct (protocol_splits w s st Hwf Hs) as (rest & [Hg Hrest] & Hch).
  eapply (protocol_update w s st (set_pqueue q' st) rest g1 (<[p := r']> (w_requests w))); try done.
  - intros w2. apply Hch.
  - split; simpl; try apply Hst.
    + unfold heap_of in *. by rewrite fmap_insert.
    + rewrite Hpt. apply NoDup_app. split_and!; [apply Hst| |apply NoDup_singleton].
      intros p' Hin ->%list_elem_of_singleton. destruct (queued_stored st _ p Hst Hin) as [_ [r0 Hr0]]. congruence.
    + simpl in Hcl. rewrite Hcl. apply Hst.
  - unfold g1. rewrite Hg. unfold add_globals, queue_share. simpl in *. rewrite Hc, Hqb, Hqr, view_resources by done.
    unfold request_bytes in *. simpl. f_equal; lia.
  - intros p' r0 [(<- & <-)|[_ Hr0]]%lookup_insert_Some; [done|]. by apply (pw_requests w Hwf p').
  - intros p' [r0 Hr0]. rewrite lookup_insert_ne; [done|]. congruence.
  - intros p'. change (ps_queue (set_pqueue q' st)) with q'. rewrite Hpt, elem_of_app, list_elem_of_singleton.
    intros [?| ->]; auto.
  - simpl. by rewrite (alter_present _ _ _ _ Hs).
Qed.

(** The claimed head and what it stands for. *)
Lemma claimed_head_spec w s p :
  pworld_wf w → claimed_head (protocol_at w s) p = true →
  ∃ st r, w_protocols w !! s = Some st ∧ w_requests w !! p = Some r ∧ claimed_ (q_fifo (ps_queue st)) = true ∧
    queue_front null (q_fifo (ps_queue st)) = p ∧ ps_valid st = true ∧ ps_active_claims st = 1 ∧
    leaves (q_fifo (ps_queue st)) (commit_claim (q_fifo (ps_queue st))) p ∧
    claimed_ (commit_claim (q_fifo (ps_queue st))) = false.
Proof.
  intros Hwf Hc. destruct (w_protocols w !! s) as [st|] eqn:Hs.
  2: { unfold protocol_at in Hc. by rewrite Hs in Hc. }
  rewrite (protocol_at_present w s st Hs) in Hc. unfold claimed_head, is_claimed in Hc.
  apply andb_true_iff in Hc as [[Hv Hcl]%andb_true_iff Hf%Z.eqb_eq]. pose proof (pw_protocols w Hwf s st Hs) as Hst.
  pose proof (qo_fifo _ _ _ _ _ (pf_queue st _ Hst)) as Hq. destruct (commit_leaves _ Hq Hcl) as [Hlv Hc'].
  rewrite Hf in Hlv. assert (p ∈ ptrs (ps_queue st)) as Hin by (unfold ptrs; rewrite (lv_items _ _ _ Hlv); by left).
  destruct (queued_stored st _ p Hst Hin) as [_ [r Hr]]. exists st, r. split_and!; try done.
  rewrite (pf_claims st _ Hst), Hcl. done.
Qed.

Lemma commit_claim_wf w s p :
  pworld_wf w → let '(ok, w') := commit_request_claim w s p in pworld_wf w' ∧ (ok = true → unqueued w' p) ∧
  (ok = false → w' = w ∧ claimed_head (protocol_at w s) p = false).
Proof.
  intros Hwf. unfold commit_request_claim. destruct (claimed_head (protocol_at w s) p) eqn:Hc; [|done]. simpl.
  destruct (claimed_head_spec w s p Hwf Hc) as (st & r & Hs & Hr & Hcl & Hf & Hv & Ha & Hlv & Hc').
  rewrite (protocol_at_present w s st Hs). assert (request_at w p = r) as -> by (unfold request_at; by rewrite Hr).
  set (q := ps_queue st) in *.
  destruct (leave_wf w s st (set_pclaims 0 (set_pqueue (shrink_queue q (commit_claim (q_fifo q)) r) st))
              (commit_claim (q_fifo q)) p r
              (wake (with_pglobals (release_request (w_globals w) r)
                (update_protocol s (λ st0, set_pclaims (u64 (ps_active_claims st0 - 1))
                  (set_pqueue (shrink_queue q (commit_claim (q_fifo q)) r) st0)) w)))) as [Hwf' Hu]; try done.
  { simpl. by rewrite Hc'. }
  unfold core. simpl. rewrite (alter_present _ _ _ _ Hs), Ha. done.
Qed.

Lemma cancel_claim_wf w s p : pworld_wf w → pworld_wf (cancel_request_claim w s p).2.
Proof.
  intros Hwf. unfold cancel_request_claim. destruct (claimed_head (protocol_at w s) p) eqn:Hc; [|done]. simpl.
  destruct (claimed_head_spec w s p Hwf Hc) as (st & r & Hs & Hr & Hcl & Hf & Hv & Ha & _).
  rewrite (protocol_at_present w s st Hs). pose proof (pw_protocols w Hwf s st Hs) as Hst.
  destruct (cancel_ok _ _ _ _ _ (pf_queue st _ Hst)) as [Hq Hpt].
  eapply (keep_wf w s st (set_pclaims 0 (set_pqueue (Build_queue (cancel_claim (q_fifo (ps_queue st)))
            (q_bytes (ps_queue st)) (q_resources (ps_queue st))) st))); try done.
  unfold core. simpl. rewrite (alter_present _ _ _ _ Hs), Ha. done.
Qed.

Lemma claim_wf w s :
  pworld_wf w → let '(status, p, w') := claim w s in pworld_wf w' ∧
  (status ≠ STATUS_OK → w' = w) ∧
  (status = STATUS_OK → claimed_head (protocol_at w' s) p = true ∧ w_requests w' = w_requests w ∧
     w_invocations w' = w_invocations w ∧ is_Some (w_requests w !! p) ∧
     ∀ st, w_protocols w !! s = Some st → ∃ st', w_protocols w' !! s = Some st' ∧
       count_ (q_fifo (ps_queue st')) = count_ (q_fifo (ps_queue st))).
Proof.
  intros Hwf. unfold claim. destruct (w_protocols w !! s) as [st|] eqn:Hs.
  2: { unfold protocol_at. by rewrite Hs. }
  rewrite (protocol_at_present w s st Hs). destruct (ps_valid st) eqn:Hv; [|done]. simpl.
  destruct (queue_empty _); [by case_match|]. pose proof (pw_protocols w Hwf s st Hs) as Hst.
  destruct (claim_front (q_fifo (ps_queue st))) as [[] fifo] eqn:Hcl; [|done]. simpl.
  destruct (claim_ok _ _ _ _ _ fifo (pf_queue st _ Hst) Hcl) as (Hq & Hpt & Hcnt & Hc0 & Hc1 & rest & Hrest).
  set (q' := Build_queue fifo _ _) in *. set (st' := set_pclaims 1 (set_pqueue q' st)).
  assert (ps_active_claims st = 0) as Ha by (rewrite (pf_claims st _ Hst), Hc0; done).
  assert (core (update_protocol s (λ st0, set_pclaims (u64 (ps_active_claims st0 + 1)) (set_pqueue q' st0)) w) =
          (w_globals w, w_invocations w, w_requests w, <[s := st']> (w_protocols w))) as Hcore.
  { unfold core. simpl. rewrite (alter_present _ _ _ _ Hs), Ha. done. }
  split_and!; [|done|].
  - eapply (keep_wf w s st st'); try done; [by unfold queue_share; simpl; rewrite Hcnt|simpl; by rewrite Hc1].
  - intros _. assert (queue_front null fifo ∈ ptrs (ps_queue st)) as Hin by (rewrite Hrest; by left).
    split_and!; try done; [|by eapply queued_stored|].
    + unfold protocol_at. simpl. rewrite lookup_alter_eq, Hs. simpl. unfold claimed_head, is_claimed. simpl.
      by rewrite Hv, Hc1, Z.eqb_refl.
    + intros st0 [= <-]. simpl. rewrite lookup_alter_eq, Hs. simpl. eexists. split; [done|]. done.
Qed.
End machine.
