(* ===== verification/ProtocolRuns.v ===== *)
(** The calls of ProtocolCalls.v as runs of the atomic steps of
    ProtocolMachine.v, and what holds along every run: the budgets of the
    queues and of the results, and the finality of published outcomes. *)
From stdpp Require Import base list numbers gmap relations.
From S2P Require Import Prelude Abi Usercopy BoundedQueue Capability ResourceTable Channel ChannelFacts ChannelSystem.
From S2P Require Import Invocation InvocationFacts Protocol ProtocolCalls ProtocolFacts ProtocolMachine.

Local Open Scope Z_scope.
Set Default Proof Using "Type".

Section runs.
Context {M : Type} `{HandleMap M}.
Abbreviation table := (resource_table M).
Abbreviation step := (pstep (M := M)).

Lemma new_protocol_wf w s d mm mb mr :
  pworld_wf w → w_protocols w !! s = None → 0 < mm ≤ CHANNEL_MAX_MESSAGES → 0 ≤ mb ≤ max_kernel_payload * 16 →
  0 ≤ mr ≤ CHANNEL_MAX_RESOURCES → 0 ≤ pd_max_response_bytes d → 0 ≤ pd_max_resources d →
  pworld_wf (with_protocols (<[s := make_protocol d mm mb mr true]> (w_protocols w)) w).
Proof.
  intros Hwf Hs Hmm Hmb Hmr Hd1 Hd2. set (st := make_protocol d mm mb mr true).
  assert (ptrs (ps_queue st) = []) as Hp by done.
  split; simpl; try apply Hwf.
  - intros s2 st2 [(<- & <-)|[Hne Hs2]]%lookup_insert_Some; [|by apply (pw_protocols w Hwf s2)].
    split; simpl; [lia| |constructor|done|done]. apply make_queue_ok; unfold CHANNEL_MAX_MESSAGES in *; lia.
  - intros s1 s2 st1 st2 p [(<- & <-)|[Hn1 H1]]%lookup_insert_Some [(<- & <-)|[Hn2 H2]]%lookup_insert_Some;
      rewrite ?Hp; try (by intros ?%elem_of_nil); try (by intros _ ?%elem_of_nil). by apply (pw_disjoint w Hwf).
  - rewrite (pw_globals w Hwf). unfold charges. simpl. rewrite sum_shares_insert, delete_id by done.
    unfold add_globals. simpl. f_equal; lia.
Qed.

Lemma delete_protocol_wf w s st :
  pworld_wf w → w_protocols w !! s = Some st → count_ (q_fifo (ps_queue st)) = 0 →
  pworld_wf (with_protocols (delete s (w_protocols w)) w).
Proof.
  intros Hwf Hs Hc. pose proof (pw_protocols w Hwf s st Hs) as Hst. pose proof (pf_queue st _ Hst) as Hq.
  assert (ptrs (ps_queue st) = []) as Hp.
  { apply nil_length_inv. pose proof (queue_items_length null _ (qo_fifo _ _ _ _ _ Hq)) as Hl. unfold ptrs. lia. }
  assert (queue_share st = Build_globals 0 0 0) as Hsh.
  { unfold queue_share. rewrite Hc, (qo_bytes _ _ _ _ _ Hq), (qo_resources _ _ _ _ _ Hq), Hp. done. }
  split; simpl; try apply Hwf.
  - intros s2 st2 [_ Hs2]%lookup_delete_Some. by apply (pw_protocols w Hwf s2).
  - intros s1 s2 st1 st2 p [_ H1]%lookup_delete_Some [_ H2]%lookup_delete_Some. by apply (pw_disjoint w Hwf).
  - rewrite (pw_globals w Hwf). unfold charges. simpl. rewrite (sum_shares_delete _ _ _ _ Hs), Hsh.
    unfold add_globals. simpl. f_equal; lia.
Qed.

Lemma pstep_wf w w' : pworld_wf w → step w w' → pworld_wf w'.
Proof.
  intros Hwf Hs. destruct Hs as [w2 Hb|t s p r Hv Hp Hf|s|s p|s p|s p|p r rs x Hr|n now m b mb mr Hn Hmb Hmr|s d mm mb mr|s st].
  - by eapply bstep_wf.
  - by apply enqueue_wf.
  - pose proof (claim_wf w s Hwf) as Hc. destruct (claim w s) as [[]]. apply Hc.
  - by apply cancel_claim_wf.
  - pose proof (commit_claim_wf w s p Hwf) as Hc. destruct (commit_request_claim w s p). apply Hc.
  - change (abort_claim w s p) with (commit_request_claim w s p).
    pose proof (commit_claim_wf w s p Hwf) as Hc. destruct (commit_request_claim w s p). apply Hc.
  - apply requests_wf; [done| |].
    + intros p' r' [(<- & <-)|[_ Hr']]%lookup_insert_Some; [by apply (pw_requests w Hwf p r)|by apply (pw_requests w Hwf p')].
    + intros p' _. destruct (decide (p' = p)) as [->|Hne]; [|by rewrite lookup_insert_ne].
      by rewrite lookup_insert_eq, Hr.
  - apply (new_invocation_wf w n (make_invocation now m b mb mr)); try done. unfold inv_ok, make_invocation. simpl.
    unfold max_kernel_payload, CHANNEL_MAX_MESSAGE_BYTES, CHANNEL_MAX_RESOURCES. destruct (mb =? 0), (mr =? 0); lia.
  - by apply new_protocol_wf.
  - by eapply delete_protocol_wf.
Qed.

Lemma psteps_wf w w' : rtc step w w' → pworld_wf w → pworld_wf w'.
Proof. induction 1; intros Hwf; [done|]. eauto using pstep_wf. Qed.

Lemma initial_world_wf : pworld_wf initial_world.
Proof. split; done. Qed.

(** The requests of a queue in order. *)
Definition queued_requests (w : pworld) (st : protocol_state) : list invocation_request :=
  request_at w <$> ptrs (ps_queue st).

Lemma queue_loads w st :
  pworld_wf w → proto_wf st (w_requests w) →
  q_bytes (ps_queue st) = sum_Z (request_bytes <$> queued_requests w st) ∧
  q_resources (ps_queue st) = sum_Z (iq_queued_resource_count <$> queued_requests w st).
Proof.
  intros Hwf Hst. rewrite (qo_bytes _ _ _ _ _ (pf_queue st _ Hst)), (qo_resources _ _ _ _ _ (pf_queue st _ Hst)).
  unfold load_bytes, load_resources, queued_requests. rewrite <- !list_fmap_compose.
  split; f_equal; apply list_fmap_ext; intros k p Hp;
    (destruct (queued_stored st _ p Hst (list_elem_of_lookup_2 _ _ _ Hp)) as [_ [r Hr]]);
    rewrite (message_at_view _ _ _ Hr); unfold compose, request_at; rewrite Hr; simpl; [done|].
  by rewrite view_resources by (by apply (pw_requests w Hwf p)).
Qed.

(** C2: However submissions, receives, replies, cancellations, deadline
    expirations, closings and deletions of any number of threads interleave,
    lock section by lock section, the three global counters are exactly the
    sums over the queued requests of all protocols and the results that open
    invocations have reserved room for, they never exceed the global limits,
    and every queue's counters are the sums over its requests and stay within
    the limits of its endpoint. *)
Theorem protocol_budgets_hold w :
  rtc step initial_world w →
  w_globals w = charges w ∧ within (w_globals w) ∧
  ∀ s st, w_protocols w !! s = Some st →
    q_bytes (ps_queue st) = sum_Z (request_bytes <$> queued_requests w st) ∧
    q_resources (ps_queue st) = sum_Z (iq_queued_resource_count <$> queued_requests w st) ∧
    q_bytes (ps_queue st) ≤ ps_max_bytes st ∧ q_resources (ps_queue st) ≤ ps_max_resources st ∧
    Z.of_nat (length (queued_requests w st)) ≤ ps_max_messages st.
Proof.
  intros Hs. pose proof (psteps_wf _ _ Hs initial_world_wf) as Hwf.
  split_and!; [apply Hwf..|]. intros s st Hst. apply (pw_protocols w Hwf) in Hst.
  destruct (queue_loads w st Hwf Hst) as [Hb Hr]. pose proof (pf_queue st _ Hst) as Hq.
  pose proof (qo_fifo _ _ _ _ _ Hq) as Hf. pose proof (queue_items_length null _ Hf) as Hl.
  split_and!; [done..|apply Hq|apply Hq|]. unfold queued_requests. rewrite length_fmap. unfold ptrs. rewrite Hl.
  rewrite <- (qo_capacity _ _ _ _ _ Hq). apply Hf.
Qed.

(** ** Outcomes *)

Definition outcomes_kept (w w' : pworld) : Prop :=
  ∀ n i, w_invocations w !! n = Some i → ∃ i', w_invocations w' !! n = Some i' ∧
    (completed i = true → completed i' = true ∧ outcome_of i' = outcome_of i).

Lemma pstep_outcomes w w' : pworld_wf w → step w w' → outcomes_kept w w'.
Proof.
  intros Hwf Hs.
  assert (w_invocations w' = w_invocations w → outcomes_kept w w') as Hsame by (intros E n i Hi; exists i; by rewrite E).
  destruct Hs as [w2 Hb|t s p r Hv Hp Hf|s|s p|s p|s p|p r rs x Hr|n now m b mb mr Hn Hmb Hmr|s d mm mb mr|s st];
    try by apply Hsame.
  - exact (kp_invocations _ _ (bstep_keeps w w2 Hwf Hb)).
  - apply Hsame. unfold enqueue_request_locked. repeat (case_match; try done); by simplify_eq/=.
  - apply Hsame. unfold claim. repeat (case_match; try done); by simplify_eq/=.
  - apply Hsame. unfold cancel_request_claim. by case_match.
  - apply Hsame. unfold commit_request_claim. by case_match.
  - apply Hsame. unfold abort_claim. by case_match.
  - intros n2 i2 Hi2. exists i2. simpl. rewrite lookup_insert_ne by congruence. done.
Qed.

(** C7: Along any interleaving of the calls, an invocation that completed stays
    complete with the outcome, the reason and the error it was published
    with, whatever happens to its request, its endpoints and its handles. *)
Theorem completed_calls_stay_final w w' n i :
  rtc step initial_world w → rtc step w w' → w_invocations w !! n = Some i → completed i = true →
  ∃ i', w_invocations w' !! n = Some i' ∧ completed i' = true ∧ outcome_of i' = outcome_of i.
Proof.
  intros H0 Hs Hi Hc. pose proof (psteps_wf _ _ H0 initial_world_wf) as Hwf. clear H0.
  revert i Hi Hc. induction Hs as [w|w w1 w' Hs1 Hs IH]; intros i Hi Hc; [by exists i|].
  destruct (pstep_outcomes w w1 Hwf Hs1 n i Hi) as (i1 & Hi1 & Hf). destruct (Hf Hc) as [Hc1 Ho1].
  destruct (IH (pstep_wf _ _ Hwf Hs1) i1 Hi1 Hc1) as (i' & Hi' & Hc' & Ho'). exists i'. split_and!; congruence.
Qed.
End runs.
