(* ===== verification/ProtocolCallRuns.v ===== *)
(** Every call of ProtocolCalls.v is a run of the steps of ProtocolMachine.v,
    the addresses the allocator hands out being fresh. *)
From stdpp Require Import base list numbers gmap relations.
From S2P Require Import Prelude Abi Usercopy BoundedQueue Capability ResourceTable Channel ChannelFacts ChannelSystem.
From S2P Require Import Invocation InvocationFacts Protocol ProtocolCalls ProtocolFacts ProtocolMachine ProtocolRuns.

Local Open Scope Z_scope.
Set Default Proof Using "Type".

(** Case analysis on the outermost test. *)
Ltac outer_if H := match goal with |- context [if ?b then _ else _] => destruct b eqn:H end.

Section calls.
Context {M : Type} `{HM : HandleMap M}.
Variable capability_is_unique : object → bool.
Variables scope_none scope_terminal_master scope_terminal_slave : Z.
Variable last : Z → bool.
Abbreviation table := (resource_table M).
Abbreviation step := (pstep (M := M)).
Abbreviation breach := (reach (M := M)).

(** From a well-formed world [w] steps lead to [w']. *)
Definition leads (w w' : pworld) : Prop := pworld_wf w → rtc step w w'.

#[local] Instance leads_refl : Reflexive leads.
Proof. intros w _. apply rtc_refl. Qed.

Lemma leads_trans w1 w2 w3 : leads w1 w2 → leads w2 w3 → leads w1 w3.
Proof. intros H1 H2 Hwf. etrans; [by apply H1|]. apply H2. by eapply psteps_wf; [apply H1|]. Qed.

Lemma leads_step w w' : step w w' → leads w w'.
Proof. intros Hs _. by apply rtc_once. Qed.

Lemma leads_reach w w' : breach w w' → leads w w'.
Proof.
  intros Hr Hwf. apply (rtc_subrel (bstep (M := M)) step); [|by apply Hr].
  intros x y. apply p_background.
Qed.

Lemma leads_core w w' : core w' = core w → leads w w'.
Proof. intros Hc. apply leads_reach. by apply reach_core. Qed.

Lemma leads_wf w w' : pworld_wf w → leads w w' → pworld_wf w'.
Proof. intros Hwf Hl. by eapply psteps_wf; [apply Hl|]. Qed.

(** ** Handles *)

Lemma close_handle_reach w (t : table) h : breach w (close_handle last w t h).1.
Proof.
  unfold close_handle. destruct (close_native t h) as [[status ev] t']. simpl.
  apply (reach_trans _ (phooks last w ev)); [apply hooks_reach|].
  destruct ev as [|[o l|o l|o l l'] ev]; try done. destruct l, ev; try done.
  destruct (last o); [apply object_reach|done].
Qed.

Lemma close_handles_reach w (t : table) hs : breach w (close_handles last w t hs).1.
Proof.
  revert w t. induction hs as [|h hs IH]; intros w t; [done|]. simpl.
  pose proof (close_handle_reach w t h) as Hc. destruct (close_handle last w t h) as [w1 t1].
  by eapply reach_trans; [exact Hc|apply IH].
Qed.

Lemma install_handle_reach w (t : table) o meta : breach w (install_handle last w t o meta).1.2.
Proof.
  unfold install_handle. destruct (install_native t (Some o) meta) as [[h ev] t']. apply hooks_reach.
Qed.

(** ** Creation *)

Lemma create_descriptor_reach w (t : table) input output alloc_ok copied o written :
  breach w (create_protocol_descriptor scope_none last w t input output alloc_ok copied o written).1.2.
Proof.
  unfold create_protocol_descriptor. destruct (negb (valid_user_output _ _)); [done|]. destruct (negb alloc_ok); [done|].
  destruct (negb (status_ok copied.1)); [done|]. destruct (ranges_overlap _ _ _ _); [done|].
  destruct (negb (status_ok _)); [done|].
  set (w1 := with_descriptors _ w). pose proof (install_handle_reach w1 t o (descriptor_metadata copied.2)) as Hi.
  destruct (install_handle last w1 t o _) as [[h w2] t1]. simpl in Hi.
  apply (reach_trans _ w1); [by apply reach_core|]. apply (reach_trans _ w2); [done|].
  destruct (h =? HANDLE_INVALID); [by apply reach_core|]. destruct (negb (status_ok written)); [|done].
  pose proof (close_handle_reach w2 t1 h) as Hc. destruct (close_handle last w2 t1 h) as [w3 t2].
  eapply reach_trans; [exact Hc|]. by apply reach_core.
Qed.

(** The integers of descriptors and options are unsigned. *)
Definition descriptor_ok (d : protocol_descriptor) : Prop :=
  0 ≤ pd_max_request_bytes d ∧ 0 ≤ pd_max_response_bytes d ∧ 0 ≤ pd_max_resources d.
Definition options_ok (v : endpoint_options) : Prop :=
  0 ≤ eo_max_messages v ∧ 0 ≤ eo_max_bytes v ∧ 0 ≤ eo_max_resources v.

Lemma create_objects_leads w d options e :
  descriptor_ok d → (∀ copied v, options = Some (copied, v) → options_ok v) → w_protocols w !! ee_state e = None →
  leads w (create_protocol_endpoint_objects scope_none scope_terminal_master scope_terminal_slave w d options e).2.
Proof.
  intros (Hd0 & Hd1 & Hd2) Ho Hs. unfold create_protocol_endpoint_objects.
  set (chosen := match options with None => _ | Some _ => _ end).
  assert (match chosen with
          | inl _ => True
          | inr v => 0 < eo_max_messages v ∧ 0 ≤ eo_max_bytes v ∧ 0 ≤ eo_max_resources v
          end) as Hch.
  { subst chosen. destruct options as [[copied v]|].
    - destruct (Ho copied v eq_refl) as (? & ? & ?). destruct (negb _); [done|].
      unfold fill_endpoint_options. destruct (_ || _); [done|]. simpl. unfold CHANNEL_DEFAULT_MAX_BYTES, CHANNEL_MAX_RESOURCES.
      destruct (Z.eqb_spec (eo_max_messages v) 0), (eo_max_bytes v =? 0), (eo_max_resources v =? 0); lia.
    - simpl. unfold CHANNEL_DEFAULT_MAX_BYTES, CHANNEL_MAX_RESOURCES. destruct (_ =? 0); [lia|].
      pose proof (u64_range (pd_max_request_bytes d * 4)). lia. }
  clearbody chosen. destruct chosen as [|v0]; [done|]. set (v := settle_rights _ _ d v0).
  change (0 < eo_max_messages v ∧ 0 ≤ eo_max_bytes v ∧ 0 ≤ eo_max_resources v) in Hch. clearbody v.
  outer_if Hr; [done|]. outer_if Hlim; [done|]. outer_if Hal; [done|]. outer_if Hob; [done|].
  repeat (apply orb_false_iff in Hlim as [Hlim ?]). simpl.
  repeat match goal with Hlt : (_ <? _) = false |- _ => apply Z.ltb_ge in Hlt end.
  eapply leads_trans; [apply leads_step, (p_new_protocol w (ee_state e) d (eo_max_messages v) (eo_max_bytes v)
    (eo_max_resources v)); try done; lia|].
  by apply leads_core.
Qed.

Lemma create_endpoint_leads w (t : table) descriptor_handle options ca sa e wc ws :
  (∀ o d, w_descriptors w !! o = Some d → descriptor_ok d) →
  (∀ copied v, options = Some (copied, v) → options_ok v) → w_protocols w !! ee_state e = None →
  leads w (create_protocol_endpoint scope_none scope_terminal_master scope_terminal_slave last w t descriptor_handle
             options ca sa e wc ws).1.2.
Proof.
  intros Hd Ho Hs. unfold create_protocol_endpoint. outer_if H1; [done|]. outer_if H2; [done|].
  destruct (lookup_native t descriptor_handle) as [[[o|] gen st meta]|]; [|done..]. outer_if H3; [done|].
  destruct (w_descriptors w !! o) as [d|] eqn:Hod; [|done].
  pose proof (create_objects_leads w d options e (Hd o d Hod) Ho Hs) as Hc.
  destruct (create_protocol_endpoint_objects _ _ _ w d options e) as [[status ends] w1]. simpl in Hc.
  eapply leads_trans; [exact Hc|]. destruct ends as [[[[co so] cm] sm]|]; [|done].
  pose proof (install_handle_reach w1 t co cm) as Hi1. destruct (install_handle last w1 t co cm) as [[h1 w2] t1].
  apply leads_reach. eapply reach_trans; [exact Hi1|]. outer_if H4.
  { apply (reach_trans _ (destroy_object last w2 co)); apply object_reach. }
  pose proof (install_handle_reach w2 t1 so sm) as Hi2. destruct (install_handle last w2 t1 so sm) as [[h2 w3] t2].
  eapply reach_trans; [exact Hi2|]. simpl. outer_if H5.
  { pose proof (close_handle_reach (destroy_object last w3 so) t2 h1) as Hcl.
    destruct (close_handle last (destroy_object last w3 so) t2 h1) as [w4 t3].
    eapply reach_trans; [apply object_reach|exact Hcl]. }
  outer_if H6; [|done].
  pose proof (close_handle_reach w3 t2 h1) as Hc1. destruct (close_handle last w3 t2 h1) as [w4 t3].
  pose proof (close_handle_reach w4 t3 h2) as Hc2. destruct (close_handle last w4 t3 h2) as [w5 t4].
  by eapply reach_trans; [exact Hc1|].
Qed.

(** ** Submission *)

(** The request and the invocation get fresh addresses. *)
Definition submit_fresh (w : pworld) (e : submit_env) : Prop :=
  w_invocations w !! sb_invocation e = None ∧ sb_request e ≠ null ∧ w_requests w !! sb_request e = None.

Lemma drop_state_reach w n watched : breach w (drop_state w n watched).
Proof. destruct watched; [done|]. apply destroy_state_reach. Qed.

(** Background runs do not bring a request back. *)
Lemma reach_fresh w w' p : pworld_wf w → breach w w' → w_requests w !! p = None → w_requests w' !! p = None.
Proof.
  intros Hwf Hr Hp. destruct (w_requests w' !! p) as [r|] eqn:Hr'; [|done].
  apply (kp_subset _ _ (reach_keeps w w' Hwf Hr)) in Hr'. congruence.
Qed.

(** The new invocation, with or without its budget. *)
Lemma new_invocation_leads w n now method operation_budget mb mr oneway :
  w_invocations w !! n = None → 0 ≤ mb → 0 ≤ mr →
  let i0 := make_invocation now method operation_budget mb mr in
  let '(_, i, g) := if oneway : bool then (true, i0, w_globals w) else reserve_result_budget i0 (w_globals w) in
  leads w (with_pglobals g (with_invocations (<[n := i]> (w_invocations w)) w)).
Proof.
  intros Hn Hb Hr i0. set (w1 := with_invocations (<[n := i0]> (w_invocations w)) w).
  assert (leads w w1) as Hl by (by apply leads_step, p_new_invocation). destruct oneway.
  { eapply leads_trans; [exact Hl|]. by apply leads_core. }
  destruct (reserve_result_budget i0 (w_globals w)) as [[granted i] g] eqn:Hres.
  eapply leads_trans; [exact Hl|]. eapply leads_trans.
  { apply leads_reach, reach_step, (b_call w1 n CReserve i0). apply lookup_insert_eq. }
  apply leads_core. unfold call_world. cbn [call_step]. change (w_globals w1) with (w_globals w). rewrite Hres.
  unfold core, w1. simpl. by rewrite insert_insert_eq.
Qed.

Definition protocol_limits_ok (w : pworld) (protocol : option Z) : Prop :=
  match protocol with
  | Some s => 0 ≤ pd_max_response_bytes (ps_descriptor (protocol_at w s)) ∧ 0 ≤ pd_max_resources (ps_descriptor (protocol_at w s))
  | None => True
  end.

Lemma submit_invocation_leads w (t : table) target f e protocol oneway :
  pworld_wf w → submit_fresh w e → protocol_limits_ok w protocol →
  let w' := (submit_invocation last w t target f e protocol oneway).1.2 in
  leads w w' ∧ w_requests w' !! sb_request e = None.
Proof.
  intros Hwf (Hn & Hp & Hf) Hlim. unfold submit_invocation.
  set (lim := match protocol with Some _ => _ | None => _ end).
  assert (0 ≤ lim.1 ∧ 0 ≤ lim.2) as [Hb Hr].
  { subst lim. destruct protocol as [s|]; simpl in *; [done|].
    unfold max_kernel_payload, CHANNEL_MAX_MESSAGE_BYTES, CHANNEL_MAX_RESOURCES. lia. }
  destruct lim as [mb mr]. simpl in Hb, Hr. outer_if Hst; [done|].
  pose proof (new_invocation_leads w (sb_invocation e) (sb_now e) (su_method_id f) (su_operation_budget f) mb mr oneway
                Hn Hb Hr) as Hnew. cbv zeta in Hnew.
  destruct (if oneway then _ else _) as [[granted i] g]. set (w1 := with_pglobals g _) in *.
  pose proof (leads_wf w w1 Hwf Hnew) as Hwf1.
  assert (∀ w', breach w1 w' → leads w w' ∧ w_requests w' !! sb_request e = None) as Hfin.
  { intros w' Hr'. split; [eapply leads_trans; [exact Hnew|by apply leads_reach]|]. by eapply (reach_fresh w1). }
  outer_if Hgr; [by apply Hfin|].
  pose proof (arm_reach (M := M) last (sb_now e) w1 (sb_invocation e) (sb_watch_ok e) (sb_scheduled e)) as Harm.
  destruct (arm_deadline _ _ _ _ _ _) as [armed w2]. simpl in Harm. outer_if Har.
  { apply Hfin. eapply reach_trans; [exact Harm|apply drop_state_reach]. }
  set (w3 := match protocol with Some s => _ | None => w2 end).
  assert (breach w1 w3) as H3.
  { eapply reach_trans; [exact Harm|]. subst w3. destruct protocol; [|done]. apply call_reach, is_call_set. }
  clearbody w3. destruct oneway; [by apply Hfin|]. outer_if Hob.
  { apply Hfin. eapply reach_trans; [exact H3|apply drop_state_reach]. }
  set (w4 := with_invocation_objects _ w3). assert (breach w1 w4) as H4 by (eapply reach_trans; [exact H3|by apply reach_core]).
  pose proof (install_handle_reach w4 t (sb_invocation_object e) (invocation_metadata (e_meta target))) as H5.
  destruct (install_handle last w4 t _ _) as [[handle w5] t1]. simpl in H5.
  outer_if Hh; simpl; apply Hfin; [|by eapply reach_trans].
  eapply reach_trans; [exact H4|]. eapply reach_trans; [exact H5|].
  eapply reach_trans; [apply object_reach|apply drop_state_reach].
Qed.

Lemma close_invocation_reach w (t : table) h oneway : breach w (close_invocation last w t h oneway).1.
Proof. destruct oneway; [done|]. apply close_handle_reach. Qed.

Lemma publish_handle_reach w (t : table) e h owner oneway user : breach w (publish_handle last w t e h owner oneway user).1.2.
Proof.
  unfold publish_handle. destruct oneway; [done|]. destruct (_ && _); [|done].
  pose proof (cancel_reach (M := M) last w (sb_invocation e) owner) as Hc. destruct (cancel last w _ owner) as [c w1].
  pose proof (close_handle_reach w1 t h) as Hcl. destruct (close_handle last w1 t h) as [w2 t1].
  by eapply reach_trans.
Qed.

(** The part of [enqueue] after the lock. *)
Lemma enqueue_leads w (t : table) s p r :
  p ≠ null → w_requests w !! p = None → leads w (enqueue_request last w t s p r).1.2.
Proof.
  intros Hp Hf Hwf. unfold enqueue_request. destruct (enqueue_invalid _ _) eqn:Hv; [done|].
  pose proof (leads_step w _ (p_enqueue w t s p r Hv Hp Hf)) as Hq.
  destruct (enqueue_request_locked w t s p r) as [[status w1] t1]. simpl in Hq. outer_if Hst; [by apply Hq|].
  set (w2 := if i_cancellation_requested _ then _ else w1).
  assert (breach w1 w2) as H2 by (subst w2; destruct (i_cancellation_requested _); [apply cancel_reach|done]).
  eapply leads_trans; [exact Hq| |done]. clearbody w2. destruct (has_flag _ _).
  2: { simpl. apply leads_reach. eapply reach_trans; [exact H2|]. apply (wake_reach _ true). }
  intros Hwf1. apply leads_reach; [|done]. eapply reach_trans; [exact H2|]. pose proof (reach_wf _ _ Hwf1 H2) as Hwf2.
  pose proof (remove_reach (M := M) w2 s (iq_state r)) as Hr. destruct (remove_queued w2 s (iq_state r)) as [[p'|] w3] eqn:Hrm;
    simpl in *.
  - eapply reach_trans; [exact Hr|]. eapply reach_trans; [apply call_reach, is_call_clear|].
    eapply reach_trans; [|apply (wake_reach _ true)]. apply dispose_reach.
    by apply (remove_unqueued w2 s (iq_state r) p' w3 Hwf2 Hrm).
  - eapply reach_trans; [exact Hr|apply (wake_reach _ true)].
Qed.

Lemma give_up_reach w (t : table) h oneway (status : na_status) :
  breach w (let '(w', t') := close_invocation last w t h oneway in (status, @None Z, w', t')).1.2.
Proof.
  pose proof (close_invocation_reach w t h oneway) as Hc. by destruct (close_invocation last w t h oneway).
Qed.

Lemma submit_request_leads w (t : table) target_handle target f bytes ds s handle e oneway user :
  sb_request e ≠ null → w_requests w !! sb_request e = None →
  leads w (submit_request capability_is_unique last w t target_handle target f bytes ds s handle e oneway user).1.2.
Proof.
  intros Hp Hf Hwf. unfold submit_request. outer_if H1; [apply leads_reach; [apply give_up_reach|done]|].
  outer_if H2; [apply leads_reach; [apply give_up_reach|done]|].
  set (res := if oneway then _ else make_transferred _ _). destruct res as [responder acquired].
  set (w1 := if oneway then w else _). set (w2 := phooks last w1 acquired).
  assert (breach w w2) as Hr2.
  { apply (reach_trans _ w1); [subst w1; destruct oneway; [done|by apply reach_core]|apply hooks_reach]. }
  clearbody w2. clear w1.
  destruct (take_native_batch _ _ _ _ _) as [[[taken rs] ev] t1]. set (w3 := phooks last w2 ev).
  assert (breach w w3) as Hr3 by (eapply reach_trans; [exact Hr2|apply hooks_reach]). clearbody w3.
  pose proof (reach_fresh w w3 _ Hwf Hr3 Hf) as Hf3.
  assert (∀ w' rs', breach w' (foldl (drop_transferred last) (drop_transferred_with (dispose last) (λ _, true) w' responder)
    (c_resource <$> rs'))) as Hdrop.
  { intros w' rs'. eapply reach_trans; [|apply reach_foldl; intros; apply drop_transferred_reach].
    apply drop_reach, dispose_reach. }
  outer_if H3.
  { apply leads_reach; [|done]. eapply reach_trans; [exact Hr3|]. eapply reach_trans; [apply (Hdrop w3 [])|apply give_up_reach]. }
  set (r := Build_request _ _ _ _ _ _ _ _ _).
  pose proof (enqueue_leads w3 t1 s (sb_request e) r Hp Hf3) as He.
  destruct (enqueue_request last w3 t1 s (sb_request e) r) as [[[status q] w4] t2]. simpl in He.
  eapply leads_trans; [by apply leads_reach, Hr3| |done]. eapply leads_trans; [exact He|]. apply leads_reach. outer_if H4.
  2: { apply publish_handle_reach. }
  destruct (restore_native_batch t2 rs) as [[[restored rs'] ev'] t3].
  pose proof (close_invocation_reach (foldl (drop_transferred last) (drop_transferred_with (dispose last) (λ _, true)
    (phooks last w4 ev') responder) (c_resource <$> rs')) t3 handle oneway) as Hc.
  destruct (close_invocation last _ t3 handle oneway) as [w6 t4]. simpl in *.
  eapply reach_trans; [apply (hooks_reach last w4 ev')|]. eapply reach_trans; [apply Hdrop|exact Hc].
Qed.

Lemma submit_dispatch_reach w (t : table) target_handle target f bytes ds handle e oneway user :
  breach w (submit_dispatch capability_is_unique last w t target_handle target f bytes ds handle e oneway user).1.2.
Proof.
  unfold submit_dispatch. outer_if H1; [apply give_up_reach|]. outer_if H2; [apply give_up_reach|].
  destruct (take_native_batch _ _ _ _ _) as [[[taken rs] ev] t1].
  apply (reach_trans _ (phooks last w ev)); [apply hooks_reach|]. outer_if H3; [apply give_up_reach|]. outer_if H4.
  - destruct (restore_native_batch t1 rs) as [[[restored rs'] ev'] t2].
    eapply reach_trans; [|apply give_up_reach].
    eapply reach_trans; [|apply reach_foldl; intros; apply drop_transferred_reach]. apply hooks_reach.
  - eapply reach_trans; [|apply publish_handle_reach]. by apply reach_core.
Qed.

Lemma submit_leads w (t : table) h e oneway user :
  submit_fresh w e → leads w (invoke_submit capability_is_unique last w t h e oneway user).1.2.
Proof.
  intros Hfresh Hwf. unfold invoke_submit. destruct (submit_frame_check _ _ _); [done|].
  destruct (lookup_native t h) as [target|]; [|done]. outer_if H1; [done|]. outer_if H2; [done|].
  destruct (snapshot_request _ _ _) as [|[bytes ds]]; [done|].
  destruct (submit_target w target (sb_frame e).2 oneway) as [|protocol] eqn:Ht; [done|].
  assert (protocol_limits_ok w protocol) as Hlim.
  { destruct protocol as [s|]; [|done]. simpl. destruct (w_protocols w !! s) as [st|] eqn:Hs.
    - rewrite (protocol_at_present w s st Hs). apply (pw_protocols w Hwf s st Hs).
    - unfold protocol_at. by rewrite Hs. }
  pose proof (submit_invocation_leads w t target (sb_frame e).2 e protocol oneway Hwf Hfresh Hlim) as [Hl Hf].
  destruct (submit_invocation last w t target _ e protocol oneway) as [[[status handle] w1] t1]. simpl in *.
  outer_if H3; [by apply Hl|]. eapply leads_trans; [exact Hl| |done].
  destruct protocol as [s|]; [apply submit_request_leads; [apply Hfresh|done]|apply leads_reach, submit_dispatch_reach].
Qed.

(** ** Receiving *)

(** The claim of [p] survives what others do. *)
Lemma claim_survives w w' s p :
  pworld_wf w → breach w w' → claimed_head (protocol_at w s) p = true →
  claimed_head (protocol_at w' s) p = true ∧ w_requests w' !! p = w_requests w !! p.
Proof.
  intros Hwf Hr Hc. pose proof (reach_keeps w w' Hwf Hr) as Hk. pose proof (reach_wf w w' Hwf Hr) as Hwf'.
  destruct (claimed_head_spec w s p Hwf Hc) as (st & r & Hs & Hreq & Hcl & Hf & Hv & _).
  destruct (kp_protocol _ _ Hk s st Hs) as (st' & Hs' & Hv' & _ & _ & Hc' & Hf').
  rewrite Hcl in Hc'. specialize (Hf' Hcl).
  assert (claimed_head (protocol_at w' s) p = true) as Hch.
  { rewrite (protocol_at_present w' s st' Hs'). unfold claimed_head, is_claimed. by rewrite Hv', Hv, Hc', Hf', Hf, Z.eqb_refl. }
  split; [done|]. apply (kp_requests _ _ Hk). intros Hu.
  destruct (claimed_head_spec w' s p Hwf' Hch) as (st2 & r2 & Hs2 & _ & _ & _ & _ & _ & Hlv & _).
  apply (Hu s st2 Hs2). unfold ptrs. rewrite (lv_items _ _ _ Hlv). by left.
Qed.

(** Committing the claim and deleting the request. *)
Lemma commit_dispose_leads w s p :
  claimed_head (protocol_at w s) p = true →
  (commit_request_claim w s p).1 = true ∧ leads w (commit_request_claim w s p).2 ∧
  leads w (dispose last (commit_request_claim w s p).2 p).
Proof.
  intros Hc. pose proof (leads_step w _ (p_commit_claim w s p)) as Hl.
  assert ((commit_request_claim w s p).1 = true) as Hok by (unfold commit_request_claim; by rewrite Hc).
  split_and!; [done..|]. intros Hwf. eapply leads_trans; [exact Hl| |done]. apply leads_reach, dispose_reach.
  pose proof (commit_claim_wf w s p Hwf) as Hcc. destruct (commit_request_claim w s p) as [ok w']. by apply Hcc.
Qed.

Lemma cancel_claim_leads w s p : leads w (cancel_request_claim w s p).2.
Proof. apply leads_step, p_cancel_claim. Qed.

Lemma give_back_leads w s p : leads w (give_back w s p).
Proof.
  unfold give_back. eapply leads_trans; [apply leads_reach, rollback_reach|apply cancel_claim_leads].
Qed.

Lemma deliver_leads w (t : table) s p handles :
  claimed_head (protocol_at w s) p = true → leads w (deliver_request last w t s p handles).1.2.
Proof.
  intros Hc Hwf. unfold deliver_request.
  destruct (claimed_head_spec w s p Hwf Hc) as (st & r & Hs & Hr & _).
  assert (request_at w p = r) as -> by (unfold request_at; by rewrite Hr).
  destruct (activate_loop t handles _) as [[[[activated rs] ev] n] t1].
  destruct (if status_ok activated && _ then _ else _) as [[[status responder] ev'] t2].
  set (w0 := with_requests _ w). set (w1 := phooks last w0 (ev ++ ev')).
  assert (leads w w0) as H0 by (by apply leads_step, p_contents).
  pose proof (leads_wf _ _ Hwf H0) as Hwf0. assert (breach w0 w1) as H1 by apply hooks_reach.
  assert (leads w w1) as H01 by (eapply leads_trans; [exact H0|by apply leads_reach]).
  assert (claimed_head (protocol_at w0 s) p = true) as Hc0 by done.
  destruct (claim_survives w0 w1 s p Hwf0 H1 Hc0) as [Hc1 _]. pose proof (leads_wf _ _ Hwf H01) as Hwf1.
  clearbody w1. outer_if Hst.
  { pose proof (close_handles_reach w1 t2 handles) as Hcl. destruct (close_handles last w1 t2 handles) as [w2 t3].
    eapply leads_trans; [exact H01| |done]. eapply leads_trans; [by apply leads_reach|apply give_back_leads]. }
  destruct (finish_dispatch (inv_at w1 (iq_state r))) as [finished i'] eqn:Hfin.
  set (w2 := update_inv (iq_state r) (λ _, i') w1).
  assert (breach w1 w2) as H2.
  { eapply set_inv_reach; [apply is_call_finish|]. simpl. by rewrite Hfin. }
  destruct (claim_survives w1 w2 s p Hwf1 H2 Hc1) as [Hc2 _]. pose proof (reach_wf _ _ Hwf1 H2) as Hwf2. clearbody w2.
  assert (leads w w2) as H02 by (eapply leads_trans; [exact H01|by apply leads_reach]). outer_if Hfd.
  { pose proof (close_handles_reach w2 t2 handles) as Hcl. destruct (close_handles last w2 t2 handles) as [w3 t3].
    simpl in Hcl. destruct (claim_survives w2 w3 s p Hwf2 Hcl Hc2) as [Hc3 _].
    eapply leads_trans; [exact H02| |done]. eapply leads_trans; [by apply leads_reach|].
    change (abort_claim w3 s p) with (commit_request_claim w3 s p). by apply commit_dispose_leads. }
  destruct (commit_dispose_leads w2 s p Hc2) as (Hok & _ & Hd).
  destruct (commit_request_claim w2 s p) as [committed w3]. simpl in *. subst. simpl.
  by eapply leads_trans; [exact H02|exact Hd|].
Qed.

Lemma receive_round_leads w (t : table) s e : leads w (receive_round last w t s e).2.
Proof.
  intros Hwf. unfold receive_round. pose proof (claim_wf w s Hwf) as Hcl.
  pose proof (leads_step w _ (p_claim w s)) as Hl1.
  destruct (claim w s) as [[claimed p] w1] eqn:Hclaim. destruct Hcl as (Hwf1 & _ & Hok). simpl in Hl1.
  destruct (status_ok claimed) eqn:Hst; [|by apply Hl1]. apply bool_decide_eq_true in Hst.
  destruct (Hok Hst) as (Hc1 & _). clear Hok. simpl.
  pose proof (deadline_expired_reach (M := M) last (pe_now e) w1 (iq_state (request_at w1 p))) as H2.
  destruct (deadline_expired last (pe_now e) w1 _) as [expired w2]. simpl in H2.
  destruct (claim_survives w1 w2 s p Hwf1 H2 Hc1) as [Hc2 _]. pose proof (reach_wf _ _ Hwf1 H2) as Hwf2.
  eapply leads_trans; [exact Hl1| |done]. eapply leads_trans; [by apply leads_reach, H2|].
  set (n := iq_state (request_at w1 p)). outer_if H3; [by apply commit_dispose_leads|]. outer_if H4.
  { set (w3 := publish_on n _ w2). assert (breach w2 w3) as Hr3 by apply publish_reach, is_call_failure.
    destruct (claim_survives w2 w3 s p Hwf2 Hr3 Hc2) as [Hc3 _]. simpl.
    eapply leads_trans; [by apply leads_reach, Hr3|].
    eapply leads_trans; [by apply commit_dispose_leads|]. apply leads_reach, server_close_reach. }
  outer_if H5; [apply cancel_claim_leads|]. destruct (request_output_check _ _ _); [apply cancel_claim_leads|].
  destruct (begin_receive (inv_at w2 n)) as [[began woke] i'] eqn:Hb. set (w3 := wake_if woke _).
  assert (breach w2 w3) as Hr3.
  { eapply reach_trans; [|apply wake_reach]. eapply set_inv_reach; [apply is_call_begin|]. simpl. by rewrite Hb. }
  destruct (claim_survives w2 w3 s p Hwf2 Hr3 Hc2) as [Hc3 _]. clearbody w3.
  eapply leads_trans; [by apply leads_reach, Hr3|]. outer_if H6; [by apply commit_dispose_leads|].
  destruct (reserve_native t _ _) as [[granted handles] t1]. outer_if H7; [apply give_back_leads|].
  outer_if H8; [apply give_back_leads|]. outer_if H9; [apply give_back_leads|].
  pose proof (deliver_leads w3 t1 s p handles Hc3) as Hd. by destruct (deliver_request last w3 t1 s p handles) as [[]].
Qed.

Lemma receive_loop_leads fuel w (t : table) s e status out w' t' :
  receive_loop last fuel w t s e = Some (status, out, w', t') → leads w w'.
Proof.
  revert w. induction fuel as [|fuel IH]; intros w; [done|]. simpl.
  pose proof (receive_round_leads w t s e) as Hr. destruct (receive_round last w t s e) as [[[[st o] t1]|] w1]; simpl in Hr.
  - by intros [= <- <- <- <-].
  - intros Hl. eapply leads_trans; [exact Hr|by apply IH].
Qed.

Lemma receive_leads fuel w (t : table) h e status out w' t' :
  receive_protocol last fuel w t h e = Some (status, out, w', t') → leads w w'.
Proof.
  unfold receive_protocol. outer_if H1; [by intros [= <- <- <- <-]|].
  destruct (preceive_frame_check _); [by intros [= <- <- <- <-]|].
  destruct (lookup_native t h) as [found|]; [|by intros [= <- <- <- <-]]. outer_if H2; [by intros [= <- <- <- <-]|].
  destruct (endpoint_is_server w found) as [s|]; [|by intros [= <- <- <- <-]].
  destruct (receive_loop last fuel (begin_poperation s w) t s e) as [[[[st o] w1] t1]|] eqn:Hl; [|done].
  intros [= <- <- <- <-]. apply receive_loop_leads in Hl.
  eapply leads_trans; [by apply leads_reach, (inert_reach w s (λ st, set_poperations (u64 (ps_active_operations st + 1)) st))|].
  eapply leads_trans; [exact Hl|]. by apply leads_reach, inert_reach.
Qed.

(** ** Termination *)

(** The number of requests protocol [s] has queued. *)
Definition backlog (w : pworld) (s : Z) : Z := count_ (q_fifo (ps_queue (protocol_at w s))).

Lemma reach_backlog w w' s : pworld_wf w → breach w w' → is_Some (w_protocols w !! s) → backlog w' s ≤ backlog w s.
Proof.
  intros Hwf Hr [st Hs]. destruct (kp_protocol _ _ (reach_keeps w w' Hwf Hr) s st Hs) as (st' & Hs' & _ & _ & Hc & _).
  unfold backlog. by rewrite (protocol_at_present w s st Hs), (protocol_at_present w' s st' Hs').
Qed.

Lemma reach_present w w' s : pworld_wf w → breach w w' → is_Some (w_protocols w !! s) → is_Some (w_protocols w' !! s).
Proof.
  intros Hwf Hr [st Hs]. destruct (kp_protocol _ _ (reach_keeps w w' Hwf Hr) s st Hs) as (st' & Hs' & _). by exists st'.
Qed.

Lemma commit_backlog w s p :
  pworld_wf w → claimed_head (protocol_at w s) p = true →
  backlog (dispose last (commit_request_claim w s p).2 p) s ≤ backlog w s - 1.
Proof using M HM.
  intros Hwf Hc. destruct (claimed_head_spec w s p Hwf Hc) as (st & r & Hs & Hr & _ & _ & _ & _ & Hlv & _).
  pose proof (commit_claim_wf w s p Hwf) as Hcc. unfold commit_request_claim in *. rewrite Hc in *. simpl in *.
  destruct Hcc as (Hwf' & Hu & _). rewrite (protocol_at_present w s st Hs) in *. set (w1 := wake _) in *.
  assert (w_protocols w1 !! s = Some (set_pclaims (u64 (ps_active_claims st - 1))
    (set_pqueue (shrink_queue (ps_queue st) (commit_claim (q_fifo (ps_queue st))) (request_at w p)) st))) as Hs1.
  { simpl. by rewrite lookup_alter_eq, Hs. }
  pose proof (reach_backlog w1 _ s Hwf' (dispose_reach last w1 p (Hu eq_refl)) ltac:(by eexists)) as Hb.
  unfold backlog in *. rewrite (protocol_at_present w1 s _ Hs1), (protocol_at_present w s st Hs) in *. simpl in Hb.
  rewrite (leaves_count _ _ _ (qo_fifo _ _ _ _ _ (pf_queue _ _ (pw_protocols w Hwf s st Hs))) Hlv) in Hb. lia.
Qed.

(** A round that does not return takes one request off the queue. *)
Lemma receive_round_progress w (t : table) s e w' :
  pworld_wf w → is_Some (w_protocols w !! s) → receive_round last w t s e = (None, w') →
  backlog w' s < backlog w s ∧ is_Some (w_protocols w' !! s).
Proof.
  intros Hwf [st Hs]. unfold receive_round. pose proof (claim_wf w s Hwf) as Hcl.
  destruct (claim w s) as [[claimed p] w1] eqn:Hclaim. destruct Hcl as (Hwf1 & _ & Hok).
  destruct (status_ok claimed) eqn:Hst; [|done]. apply bool_decide_eq_true in Hst. simpl.
  destruct (Hok Hst) as (Hc1 & _ & _ & _ & Hcnt). clear Hok. destruct (Hcnt st Hs) as (st1 & Hs1 & Hn1).
  pose proof (deadline_expired_reach (M := M) last (pe_now e) w1 (iq_state (request_at w1 p))) as H2.
  destruct (deadline_expired last (pe_now e) w1 _) as [expired w2]. simpl in H2.
  assert (backlog w1 s = backlog w s) as Hb1.
  { unfold backlog. by rewrite (protocol_at_present w s st Hs), (protocol_at_present w1 s st1 Hs1). }
  assert (∀ w3, breach w1 w3 → let w4 := dispose last (commit_request_claim w3 s p).2 p in
    backlog w4 s < backlog w s ∧ is_Some (w_protocols w4 !! s)) as Hdone.
  { intros w3 H3. destruct (claim_survives w1 w3 s p Hwf1 H3 Hc1) as [Hc3 _]. pose proof (reach_wf _ _ Hwf1 H3) as Hwf3.
    pose proof (commit_backlog w3 s p Hwf3 Hc3). pose proof (reach_backlog w1 w3 s Hwf1 H3 ltac:(by eexists)).
    split; [lia|]. destruct (claimed_head_spec w3 s p Hwf3 Hc3) as (st3 & r3 & Hs3 & _).
    pose proof (commit_claim_wf w3 s p Hwf3) as Hcc. unfold commit_request_claim in *. rewrite Hc3 in *. simpl in *.
    destruct Hcc as (Hwf4 & Hu4 & _). eapply reach_present; [exact Hwf4|apply dispose_reach; auto|].
    simpl. rewrite lookup_alter_eq, Hs3. by eexists. }
  set (n := iq_state (request_at w1 p)). outer_if H3; [intros [= <-]; by apply Hdone|]. outer_if H4; [done|].
  outer_if H5; [done|]. destruct (request_output_check _ _ _); [done|].
  destruct (begin_receive (inv_at w2 n)) as [[began woke] i'] eqn:Hb. outer_if H6.
  - intros [= <-]. apply Hdone. eapply reach_trans; [exact H2|]. eapply reach_trans; [|apply wake_reach].
    eapply set_inv_reach; [apply is_call_begin|]. simpl. by rewrite Hb.
  - destruct (reserve_native t _ _) as [[granted handles] t1]. outer_if H7; [done|]. outer_if H8; [done|].
    outer_if H9; [done|]. by destruct (deliver_request _ _ _ _ _ _) as [[]].
Qed.

Lemma receive_loop_returns fuel w (t : table) s e :
  pworld_wf w → is_Some (w_protocols w !! s) → backlog w s < Z.of_nat fuel → is_Some (receive_loop last fuel w t s e).
Proof.
  revert w. induction fuel as [|fuel IH]; intros w Hwf Hs Hb.
  { destruct Hs as [st Hs]. pose proof (pw_protocols w Hwf s st Hs) as Hst. unfold backlog in Hb.
    rewrite (protocol_at_present w s st Hs) in Hb. pose proof (qwf_count _ (qo_fifo _ _ _ _ _ (pf_queue st _ Hst))). lia. }
  simpl. pose proof (leads_wf _ _ Hwf (receive_round_leads w t s e)) as Hwf'.
  destruct (receive_round last w t s e) as [[[[st o] t1]|] w1] eqn:Hr; [by eexists|].
  destruct (receive_round_progress w t s e w1 Hwf Hs Hr) as [Hlt Hs1]. apply IH; [done..|lia].
Qed.

(** A receive that finds no protocol behind its endpoint finds no request. *)
Lemma receive_absent fuel w (t : table) s e :
  w_protocols w !! s = None → (0 < fuel)%nat → is_Some (receive_loop last fuel w t s e).
Proof.
  intros Hs Hf. destruct fuel; [lia|]. simpl. unfold receive_round, claim, protocol_at. rewrite Hs. by eexists.
Qed.

(** C27: A receive on a protocol endpoint always returns: requests that
    expired, were cancelled or lost their client are skipped one by one, and
    no more than 1024 can be queued, so 1025 rounds are enough whatever the
    state of the queue and however many requests are dead. *)
Theorem receive_terminates fuel w (t : table) endpoint e :
  rtc step initial_world w → (1024 < fuel)%nat → is_Some (receive_protocol last fuel w t endpoint e).
Proof.
  intros Hr Hfuel. pose proof (psteps_wf _ _ Hr initial_world_wf) as Hwf. unfold receive_protocol.
  outer_if H1; [by eexists|]. destruct (preceive_frame_check _); [by eexists|].
  destruct (lookup_native t endpoint) as [found|]; [|by eexists]. outer_if H2; [by eexists|].
  destruct (endpoint_is_server w found) as [s|]; [|by eexists].
  set (w1 := begin_poperation s w).
  assert (pworld_wf w1) as Hwf1 by (by apply inert_wf). assert (is_Some (receive_loop last fuel w1 t s e)) as [[[[st o] w2] t2] ->].
  2: { by eexists. }
  destruct (w_protocols w1 !! s) as [st|] eqn:Hs; [|apply receive_absent; [done|lia]].
  apply receive_loop_returns; [done|by eexists|]. pose proof (pw_protocols w1 Hwf1 s st Hs) as Hst.
  unfold backlog. rewrite (protocol_at_present w1 s st Hs). pose proof (pf_queue st _ Hst) as Hq.
  pose proof (qwf_count _ (qo_fifo _ _ _ _ _ Hq)). pose proof (qo_capacity _ _ _ _ _ Hq). destruct (pf_limits st _ Hst).
  unfold CHANNEL_MAX_MESSAGES in *. lia.
Qed.

(** ** Destruction *)

(** Taking the head of an unclaimed queue off is a claim followed by its
    commit. *)
Lemma pop_leads w s st fifo :
  pworld_wf w → w_protocols w !! s = Some st → ps_valid st = true → queue_empty (q_fifo (ps_queue st)) = false →
  claim_front (q_fifo (ps_queue st)) = (true, fifo) →
  let p := queue_front null fifo in
  let r := request_at w p in
  let w1 := with_pglobals (release_request (w_globals w) r)
              (update_protocol s (set_pqueue (shrink_queue (ps_queue st) (commit_claim fifo) r)) w) in
  p ≠ null ∧ leads w w1 ∧ unqueued w1 p ∧ backlog w1 s = backlog w s - 1 ∧
  ∃ st1, w_protocols w1 !! s = Some st1 ∧ ps_valid st1 = true ∧ claimed_ (q_fifo (ps_queue st1)) = false.
Proof.
  intros Hwf Hs Hv He Hcl p r w1. pose proof (pw_protocols w Hwf s st Hs) as Hst.
  pose proof (qo_fifo _ _ _ _ _ (pf_queue st _ Hst)) as Hq. destruct (claim_commit_leaves _ fifo Hq Hcl) as (Hlv & Hc' & Hc0).
  pose proof (claim_wf w s Hwf) as Hclaim. pose proof (leads_step w _ (p_claim w s)) as Hl.
  unfold claim in Hclaim, Hl. rewrite (protocol_at_present w s st Hs), Hv, He, Hcl in Hclaim, Hl. simpl in Hclaim, Hl.
  destruct Hclaim as (Hwfc & _ & Hhead). destruct (Hhead eq_refl) as (Hch & _ & _ & [r0 Hr0] & _). 
  set (wc := update_protocol s _ w) in Hwfc, Hch, Hl. change (claimed_head (protocol_at wc s) p = true) in Hch.
  pose proof (commit_claim_wf wc s p Hwfc) as Hcc. pose proof (leads_step wc _ (p_commit_claim wc s p)) as Hlc.
  unfold commit_request_claim in Hcc, Hlc. rewrite Hch in Hcc, Hlc. simpl in Hcc, Hlc. destruct Hcc as (_ & Hu & _).
  set (w2 := wake _) in Hu, Hlc. assert (core w1 = core w2) as Hcore.
  { unfold w1, w2, wc, core, protocol_at. simpl. rewrite lookup_alter_eq, Hs. simpl. rewrite !(alter_present _ _ _ _ Hs).
    rewrite (alter_present _ (<[s := _]> _) s _) by apply lookup_insert_eq. rewrite insert_insert_eq. simpl.
    assert (ps_active_claims st = 0) as Ha by (rewrite (pf_claims st _ Hst), Hc0; done). rewrite Ha. do 3 f_equal.
    clear -Ha. destruct st. simpl in *. by subst. }
  split_and!.
  - apply (queued_stored st _ p Hst). unfold ptrs. rewrite (lv_items _ _ _ Hlv). by left.
  - eapply leads_trans; [exact Hl|]. eapply leads_trans; [exact Hlc|]. by apply leads_core.
  - apply (core_unqueued w2 w1 p); [|by apply Hu]. unfold core in Hcore. by injection Hcore.
  - unfold backlog, w1, protocol_at. simpl. rewrite lookup_alter_eq, Hs. simpl. rewrite (leaves_count _ _ _ Hq Hlv). lia.
  - eexists. unfold w1. simpl. rewrite lookup_alter_eq, Hs. split_and!; [done|done|]. simpl. done.
Qed.

Lemma destroy_requests_leads fuel w s st :
  pworld_wf w → w_protocols w !! s = Some st → ps_valid st = true → claimed_ (q_fifo (ps_queue st)) = false →
  backlog w s ≤ Z.of_nat fuel →
  let w' := destroy_requests fuel last w s in
  leads w w' ∧ ∃ st', w_protocols w' !! s = Some st' ∧ count_ (q_fifo (ps_queue st')) = 0.
Proof.
  revert w st. induction fuel as [|fuel IH]; intros w st Hwf Hs Hv Hcl Hb; simpl;
    pose proof (qwf_count _ (qo_fifo _ _ _ _ _ (pf_queue st _ (pw_protocols w Hwf s st Hs)))) as Hcount;
    unfold backlog in Hb; rewrite (protocol_at_present w s st Hs) in *.
  { split; [done|]. exists st. split; [done|lia]. }
  destruct (queue_empty _) eqn:He.
  { split; [done|]. exists st. split; [done|]. by apply Z.eqb_eq in He. }
  destruct (claim_front _) as [ok fifo] eqn:Hf. assert (ok = true) as ->.
  { unfold claim_front in Hf. unfold queue_empty in He. rewrite Hcl, He in Hf. by injection Hf. }
  destruct (pop_leads w s st fifo Hwf Hs Hv He Hf) as (Hp & Hl & Hu & Hb1 & st1 & Hs1 & Hv1 & Hcl1). cbn [negb].
  rewrite (proj2 (Z.eqb_neq _ _) Hp). set (r := request_at w _) in *. set (w1 := with_pglobals _ _) in *.
  set (w2 := dispose last _ _). assert (breach w1 w2) as Hr2.
  { intros Hwf1. pose proof (call_reach w1 (iq_state r) _ is_call_clear) as Hr1. eapply reach_trans; [exact Hr1| |done].
    apply dispose_reach. by apply (kp_unqueued _ _ (reach_keeps _ _ Hwf1 Hr1)). }
  pose proof (leads_wf w w1 Hwf Hl) as Hwf1.
  destruct (kp_protocol _ _ (reach_keeps _ _ Hwf1 Hr2) s st1 Hs1) as (st2 & Hs2 & Hv2 & _ & _ & Hcl2 & _).
  pose proof (reach_backlog w1 w2 s Hwf1 Hr2 ltac:(by eexists)) as Hb2.
  assert (backlog w s = count_ (q_fifo (ps_queue st))) as Hbw by (unfold backlog; by rewrite (protocol_at_present w s st Hs)).
  destruct (IH w2 st2) as [Hl2 Hend]; [by apply (reach_wf w1)|congruence..|lia|]. split; [|done].
  eapply leads_trans; [exact Hl|]. eapply leads_trans; [by apply leads_reach|done].
Qed.

(** Destroying a protocol whose head is not claimed gives every request up. *)
Lemma destroy_protocol_leads w s st :
  w_protocols w !! s = Some st → ps_valid st = true → claimed_ (q_fifo (ps_queue st)) = false →
  leads w (destroy_protocol last w s).
Proof.
  intros Hs Hv Hcl Hwf. unfold destroy_protocol. set (fuel := Z.to_nat _).
  destruct (destroy_requests_leads fuel w s st Hwf Hs Hv Hcl) as (Hl & st' & Hs' & Hc').
  { unfold backlog, fuel, queue_size. lia. }
  eapply leads_trans; [exact Hl| |done]. apply leads_step. by eapply p_delete_protocol.
Qed.

(** ** Results, replies and failures *)

Lemma cancel_call_reach w (t : table) h : breach w (invocation_cancel last w t h).2.
Proof.
  unfold invocation_cancel. destruct (invocation_of w t h) as [|n]; [done|].
  pose proof (cancel_reach (M := M) last w n None) as Hc. by destruct (cancel last w n None) as [[]].
Qed.

(** The commit of a result is one method with its budget. *)
Lemma commit_result_reach w n status i g :
  commit_result (inv_at w n) (w_globals w) = (status, i, g) →
  breach w (with_pglobals g (update_inv n (λ _, i) w)).
Proof.
  intros Hc. destruct (w_invocations w !! n) as [i0|] eqn:Hn.
  - assert (inv_at w n = i0) as Hat by (unfold inv_at; by rewrite Hn). rewrite Hat in Hc.
    eapply reach_trans; [by apply reach_step, (b_call w n CCommit i0)|]. apply reach_core.
    unfold call_world. cbn [call_step]. rewrite Hc. unfold core, update_inv. simpl. by rewrite (alter_present _ _ _ _ Hn).
  - apply reach_core. unfold inv_at in Hc. rewrite Hn in Hc. vm_compute in Hc. injection Hc as _ _ <-.
    unfold core, update_inv. simpl. by rewrite alter_absent.
Qed.

Lemma take_result_reach w (t : table) h e : breach w (invocation_take_result last w t h e).1.2.
Proof.
  unfold invocation_take_result. outer_if H1; [done|]. destruct (result_frame_check _); [done|].
  destruct (invocation_of w t h) as [|n]; [done|].
  destruct (claim_result (inv_at w n) (ru_now e) _) as [[[[claimed f1] bytes] rs] i1] eqn:Hcl.
  set (w1 := update_inv n (λ _, i1) w).
  assert (breach w w1) as Hr1 by (eapply set_inv_reach; [apply is_call_claim|simpl; by rewrite Hcl]). clearbody w1.
  assert (∀ w' rs', breach w' (update_inv n (λ i, restore_result i bytes rs') w')) as Hres.
  { intros. apply call_reach, is_call_restore. }
  eapply reach_trans; [exact Hr1|]. outer_if H2; [done|]. outer_if H3; [apply Hres|]. outer_if H4; [apply Hres|].
  destruct (reserve_native t _ _) as [[granted handles] t1]. outer_if H5; [apply Hres|].
  destruct (activate_loop t1 handles _) as [[[[activated left_] ev] k] t2].
  apply (reach_trans _ (phooks last w1 ev)); [apply hooks_reach|]. outer_if H6.
  { pose proof (close_handles_reach (phooks last w1 ev) t2 handles) as Hc.
    destruct (close_handles last _ t2 handles) as [w3 t3]. eapply reach_trans; [exact Hc|apply Hres]. }
  destruct (commit_result _ _) as [[committed i2] g] eqn:Hco.
  eapply reach_trans; [by eapply commit_result_reach|]. outer_if H7; [|apply (wake_reach _ true)].
  pose proof (close_handles_reach (with_pglobals g (update_inv n (λ _, i2) (phooks last w1 ev))) t2 handles) as Hc.
  by destruct (close_handles last _ t2 handles) as [w4 t3].
Qed.

Lemma consume_reach w o n : breach w (consume w o n).
Proof.
  unfold consume. destruct (consume_responder (inv_at w n)) as [ok i'] eqn:Hc.
  apply (reach_trans _ (update_inv n (λ _, i') w)).
  - eapply set_inv_reach; [apply is_call_consume|]. simpl. by rewrite Hc.
  - destruct ok; [by apply reach_core|done].
Qed.

Lemma reply_reach w (t : table) h e : breach w (responder_reply capability_is_unique last w t h e).1.2.
Proof.
  unfold responder_reply. destruct (reply_frame_check e); [done|]. destruct (responder_of w t h) as [|[o n]]; [done|].
  outer_if H1; [done|]. destruct (take_native_batch _ _ _ _ _) as [[[taken rs] ev] t1].
  apply (reach_trans _ (phooks last w ev)); [apply hooks_reach|]. outer_if H2; [done|].
  destruct (complete_reply_lvalue _ _ _ _ _) as [[replied i'] t2] eqn:Hre. set (w2 := wake_if replied _).
  assert (breach (phooks last w ev) w2) as Hr2.
  { eapply reach_trans; [|apply wake_reach]. eapply set_inv_reach; [apply is_call_reply|]. simpl. by rewrite Hre. }
  eapply reach_trans; [exact Hr2|]. clearbody w2. outer_if H3.
  - destruct (restore_native_batch _ rs) as [[[restored rs'] ev'] t3].
    pose proof (close_handle_reach (phooks last w2 ev') t3 h) as Hc. destruct (close_handle last _ t3 h) as [w3 t4].
    eapply reach_trans; [apply (hooks_reach last w2 ev')|]. eapply reach_trans; [exact Hc|].
    apply reach_foldl. intros. apply drop_transferred_reach.
  - pose proof (close_handle_reach (consume w2 o n) (default t1 t2) h) as Hc. destruct (close_handle last _ _ h) as [w3 t3].
    by eapply reach_trans; [apply consume_reach|].
Qed.

Lemma fail_reach w (t : table) h frame : breach w (responder_fail last w t h frame).1.2.
Proof.
  unfold responder_fail. outer_if H1; [done|]. outer_if H2; [done|]. destruct (responder_of w t h) as [|[o n]]; [done|].
  outer_if H3; [done|]. destruct (complete_failure _ _ _ _) as [failed i'] eqn:Hf. set (w1 := wake_if failed _).
  assert (breach w w1) as Hr1.
  { eapply reach_trans; [|apply wake_reach]. eapply set_inv_reach; [apply is_call_failure|]. simpl. by rewrite Hf. }
  eapply reach_trans; [exact Hr1|]. clearbody w1. outer_if H4.
  - pose proof (close_handle_reach w1 t h) as Hc. by destruct (close_handle last w1 t h) as [w2 t1].
  - pose proof (close_handle_reach (consume w1 o n) t h) as Hc. destruct (close_handle last _ t h) as [w2 t1].
    by eapply reach_trans; [apply consume_reach|].
Qed.

(** ** All calls *)

(** One call, by any process on its own table. *)
Inductive protocol_call (w : pworld) : pworld → Prop :=
| call_create_descriptor (t : table) input output alloc_ok copied o written :
    protocol_call w (create_protocol_descriptor scope_none last w t input output alloc_ok copied o written).1.2
| call_create_endpoint (t : table) descriptor options ca sa e wc ws :
    (∀ o d, w_descriptors w !! o = Some d → descriptor_ok d) →
    (∀ copied v, options = Some (copied, v) → options_ok v) → w_protocols w !! ee_state e = None →
    protocol_call w (create_protocol_endpoint scope_none scope_terminal_master scope_terminal_slave last w t descriptor
                       options ca sa e wc ws).1.2
| call_submit (t : table) target e oneway user : submit_fresh w e →
    protocol_call w (invoke_submit capability_is_unique last w t target e oneway user).1.2
| call_receive fuel (t : table) endpoint e status out w' t' :
    receive_protocol last fuel w t endpoint e = Some (status, out, w', t') → protocol_call w w'
| call_cancel (t : table) h : protocol_call w (invocation_cancel last w t h).2
| call_take_result (t : table) h e : protocol_call w (invocation_take_result last w t h e).1.2
| call_reply (t : table) h e : protocol_call w (responder_reply capability_is_unique last w t h e).1.2
| call_fail (t : table) h frame : protocol_call w (responder_fail last w t h frame).1.2
| call_timer now n : protocol_call w (expire_deadline last now w n)
| call_close (t : table) h : protocol_call w (close_handle last w t h).1
| call_hooks log : protocol_call w (phooks last w log)
| call_destroy s st : w_protocols w !! s = Some st → ps_valid st = true → claimed_ (q_fifo (ps_queue st)) = false →
    protocol_call w (destroy_protocol last w s).

Lemma protocol_call_leads w w' : protocol_call w w' → leads w w'.
Proof.
  intros [].
  - apply leads_reach, create_descriptor_reach.
  - by apply create_endpoint_leads.
  - by apply submit_leads.
  - by eapply receive_leads.
  - apply leads_reach, cancel_call_reach.
  - apply leads_reach, take_result_reach.
  - apply leads_reach, reply_reach.
  - apply leads_reach, fail_reach.
  - apply leads_reach, expire_reach.
  - apply leads_reach, close_handle_reach.
  - apply leads_reach, hooks_reach.
  - by eapply destroy_protocol_leads.
Qed.

Lemma protocol_calls_lead w w' : rtc protocol_call w w' → leads w w'.
Proof. induction 1; [done|]. by eapply leads_trans; [by apply protocol_call_leads|]. Qed.

(** Every call on protocols is a run of the lock-protected methods, so
    everything proved of arbitrary interleavings of the methods holds of any
    sequence of calls, with the addresses of new invocations, requests and
    protocols fresh. *)
Theorem protocol_calls_run_methods w : rtc protocol_call initial_world w → rtc step initial_world w.
Proof.
  intros Hr. apply (protocol_calls_lead _ _ Hr), initial_world_wf.
Qed.
End calls.
