(* ===== verification/ProtocolTables.v ===== *)
(** What the calls on protocols do to the capability table of the caller:
    every call either has its full effect on the table or leaves what the
    table holds as it was, on every error path. *)
From stdpp Require Import base list numbers gmap relations.
From S2P Require Import Prelude Abi Usercopy BoundedQueue Capability ResourceTable ResourceFacts ResourceMachine.
From S2P Require Import Channel ChannelFacts ChannelSystem ChannelTransfer.
From S2P Require Import Invocation InvocationFacts Protocol ProtocolCalls ProtocolFacts ProtocolMachine.
From S2P Require Import ProtocolRuns ProtocolCallRuns.

Local Open Scope Z_scope.
Set Default Proof Using "Type".

(** ** A claimed result survives deletions *)

(** The result of invocation [n] is being read. *)
Definition held (n : Z) (w : pworld) : Prop :=
  ∃ i, w_invocations w !! n = Some i ∧ i_phase i = ready ∧ i_result_claimed i = true.

(** Methods that leave such an invocation alone. *)
Definition tame (f : invocation_state → invocation_state) : Prop :=
  ∀ i, i_phase i = ready → i_result_claimed i = true → i_phase (f i) = ready ∧ i_result_claimed (f i) = true.

Lemma tame_clear : tame clear_queue_owner.
Proof. by intros i. Qed.
Lemma tame_not_delivered reason : tame (λ i, (complete_not_delivered i reason).2).
Proof.
  intros i Hp Hc. unfold complete_not_delivered, complete_failure. destruct (valid_failure _ _); [|done].
  unfold publish_locked_no_wake, completed. rewrite Hp. done.
Qed.
Lemma tame_abandon : tame (λ i, (abandon_responder i).2).
Proof. intros i Hp Hc. unfold abandon_responder. destruct (i_responder_alive i); [|done]. by rewrite Hp. Qed.

Lemma held_update n w m f : tame f → held n w → held n (update_inv m f w).
Proof.
  intros Hf (i & Hi & Hp & Hc). unfold held, update_inv. simpl. destruct (decide (n = m)) as [->|Hne].
  - rewrite lookup_alter_eq, Hi. exists (f i). split; [done|]. by apply Hf.
  - rewrite lookup_alter_ne by done. by exists i.
Qed.

Lemma held_publish n w m f : tame (λ i, (f i).2) → held n w → held n (publish_on m f w).
Proof.
  intros Hf Hh. unfold publish_on. destruct (f (inv_at w m)) as [b i] eqn:Hi.
  assert (held n (update_inv m (λ _, i) w)) as Hu; [|by destruct b].
  pose proof (held_update n w m _ Hf Hh) as Hu. rewrite <- update_inv_const in Hu. simpl in Hu. by rewrite Hi in Hu.
Qed.

Lemma held_close_client n w m : held n w → held n (release_on m close_client w).
Proof.
  intros (i & Hi & Hp & Hc). unfold release_on. destruct (w_invocations w !! m) as [j|] eqn:Hj; [|by exists i].
  destruct (close_client j (w_globals w)) as [j' g] eqn:Hcl. unfold held. simpl. destruct (decide (n = m)) as [->|Hne].
  - rewrite lookup_alter_eq, Hj. simpl. exists j'. simplify_eq. unfold close_client, release_result_budget_locked in Hcl.
    case_match; by simplify_eq.
  - rewrite lookup_alter_ne by done. by exists i.
Qed.

Lemma held_foldl {B} n (f : pworld → B → pworld) l w :
  (∀ w x, held n w → held n (f w x)) → held n w → held n (foldl f w l).
Proof. intros Hf. revert w. induction l as [|x l IH]; intros w Hw; [done|]. by apply IH, Hf. Qed.

#[local] Hint Resolve tame_clear tame_not_delivered tame_abandon held_update held_publish held_close_client : protocol.

Section cascade.
Context (n : Z) (delete_ : pworld → Z → pworld) (last : Z → bool).
Context (Hdel : ∀ w p, held n w → held n (delete_ w p)).

Lemma held_close w s : held n w → held n (close_server_queue_with delete_ w s).
Proof using Hdel.
  intros Hw. unfold close_server_queue_with, close_queue_locked. destruct (drain_requests _ _ _ _ _) as [[q' g] d].
  apply (held_foldl n _ d); [|done]. intros w' p Hw'. auto with protocol.
Qed.

Lemma held_release w s role l : held n w → held n (release_endpoint_with delete_ w s role l).
Proof using Hdel. intros Hw. unfold release_endpoint_with. destruct (_ && _); [by apply held_close|done]. Qed.

Lemma held_hook w e : held n w → held n (phook_with delete_ w e).
Proof using Hdel.
  intros Hw. destruct e as [o l|o l|o l l']; simpl.
  - by destruct (w_endpoints w !! o) as [[s role]|].
  - destruct (w_endpoints w !! o) as [[s role]|]; [by apply held_release|].
    destruct (w_invocation_objects w !! o) as [m|]; [case_decide; auto with protocol|].
    destruct (w_responders w !! o) as [[m c]|]; [|done]. destruct (_ && _); auto with protocol.
  - destruct (w_endpoints w !! o) as [[s role]|]; [by apply held_release|done].
Qed.

Lemma held_destroy w o : held n w → held n (destroy_object_with delete_ w o).
Proof using Hdel.
  intros Hw. unfold destroy_object_with. destruct (w_endpoints w !! o) as [[s role]|].
  { case_bool_decide; [by apply held_close|done]. }
  destruct (w_invocation_objects w !! o) as [m|]; [by apply held_close_client|].
  destruct (w_responders w !! o) as [[m c]|]; [|done]. destruct c; [done|]. by apply held_publish; [apply tame_abandon|].
Qed.

Lemma held_drop w r : held n w → held n (drop_transferred_with delete_ last w r).
Proof using Hdel.
  intros Hw. unfold drop_transferred_with.
  assert (held n (foldl (phook_with delete_) w (release_transit r).2)) as H1 by (by apply held_foldl; [apply held_hook|]).
  destruct (t_object r) as [o|]; [|done]. destruct (last o); [by apply held_destroy|done].
Qed.
End cascade.

Lemma held_delete n fuel last w p : held n w → held n (delete_request fuel last w p).
Proof.
  revert w p. induction fuel as [|fuel IH]; intros w p Hw; [done|]. simpl.
  apply held_foldl; [intros; by apply held_drop|]. by apply held_drop.
Qed.

Lemma held_hooks n last w log : held n w → held n (phooks last w log).
Proof. apply held_foldl. intros w' e. apply held_hook. intros; by apply held_delete. Qed.

(** The branch of a failed call. *)
Ltac failed :=
  repeat match goal with H : negb (status_ok _) = true |- _ => apply negb_true_iff, status_ok_false in H end;
  rewrite decide_False by congruence.

(** ** Closing and installing *)

Section tables.
Context {M : Type} `{HandleMapLaws M}.
Variable last : Z → bool.
Abbreviation table := (resource_table M).

Lemma close_handle_table w (t : table) nodes h e :
  table_wf t nodes → model t !! h = Some e → e_state e = active →
  table_wf (close_handle last w t h).2 nodes ∧ model (close_handle last w t h).2 = delete h (model t).
Proof.
  intros Hwf Hh Ha. unfold close_handle, close_native.
  destruct (tw_entries t nodes Hwf h _ Hh) as ([Hpos _] & _ & _).
  rewrite (proj2 (Z.eqb_neq h HANDLE_INVALID)) by (unfold HANDLE_INVALID; lia).
  rewrite (proj2 (lookup_native_spec t h e) (conj Hh Ha)). simpl. by apply (removed_wf t nodes h e).
Qed.

Lemma close_handles_table w (t : table) nodes hs :
  table_wf t nodes → NoDup hs → (∀ h, h ∈ hs → ∃ e, model t !! h = Some e ∧ e_state e = active) →
  table_wf (close_handles last w t hs).2 nodes ∧
  ∀ h, model (close_handles last w t hs).2 !! h = if decide (h ∈ hs) then None else model t !! h.
Proof.
  revert w t. induction hs as [|h hs IH]; intros w t Hwf Hnd Hact.
  { split; [done|]. intros h. by rewrite decide_False by apply not_elem_of_nil. }
  cbn [close_handles]. apply NoDup_cons in Hnd as [Hnin Hnd]. destruct (Hact h ltac:(left)) as (e & He & Ha).
  pose proof (close_handle_table w t nodes h e Hwf He Ha) as [Hwf1 Hm1].
  destruct (close_handle last w t h) as [w1 t1]. simpl in *.
  destruct (IH w1 t1 Hwf1 Hnd) as [Hwf2 Hm2].
  { intros h' Hh'. rewrite Hm1, lookup_delete_ne by (by intros ->). apply Hact. by right. }
  split; [done|]. intros h'. rewrite Hm2, Hm1. destruct (decide (h' = h)) as [->|Hne].
  - rewrite decide_False, decide_True by (done || left). apply lookup_delete_eq.
  - rewrite lookup_delete_ne by done. apply decide_ext. rewrite elem_of_cons. tauto.
Qed.

(** Closing everything that was installed gives the table before. *)
Lemma close_installed w (t : table) nodes hs rs m :
  table_wf t nodes → NoDup hs → length hs = length rs → (∀ h, h ∈ hs → m !! h = None) →
  model t = list_to_map (installed hs rs) ∪ m →
  model (close_handles last w t hs).2 = m.
Proof.
  intros Hwf Hnd Hl Hf Hm.
  assert (∀ h, h ∈ hs → ∃ e, (list_to_map (installed hs rs) : gmap Z entry) !! h = Some e ∧ e_state e = active) as Hin.
  { intros h Hh. destruct ((list_to_map (installed hs rs) : gmap Z entry) !! h) as [e|] eqn:He.
    - exists e. split; [done|]. apply elem_of_list_to_map_2 in He. unfold installed in He.
      apply elem_of_zip_with in He as (h' & r & ? & _). by simplify_eq.
    - apply not_elem_of_list_to_map in He. by rewrite installed_keys in He. }
  destruct (close_handles_table w t nodes hs Hwf Hnd) as [_ Hc].
  { intros h Hh. destruct (Hin h Hh) as (e & He & Ha). exists e. split; [|done]. rewrite Hm. by apply lookup_union_Some_l. }
  apply map_eq. intros h. rewrite Hc, Hm. destruct (decide (h ∈ hs)) as [Hh|Hh]; [symmetry; by apply Hf|].
  apply lookup_union_r, not_elem_of_list_to_map_1. by rewrite installed_keys.
Qed.

(** ** Results *)

(** The result a taker finds: a call that was not answered has none. *)
Definition result_of (i : invocation_state) : list Z * list transfer_record :=
  if bool_decide (i_phase i = ready) then (i_response_bytes i, i_response_resources i) else ([], []).

Definition result_resources_ok (i : invocation_state) : Prop :=
  Forall (λ r, is_Some (t_object (c_resource r))) (i_response_resources i).

Lemma result_of_resources i :
  result_resources_ok i → Forall (λ r, is_Some (t_object r)) (c_resource <$> (result_of i).2).
Proof. intros Hi. apply Forall_fmap. unfold result_of. case_bool_decide; [exact Hi|constructor]. Qed.

(** What a claim does. *)
Lemma claim_result_spec i now f :
  let '(status, f1, bytes, rs, i1) := claim_result i now f in
  (i_phase i = ready → status ≠ STATUS_OK → i1 = i) ∧
  (status = STATUS_OK → (bytes, rs) = result_of i ∧ i_phase i1 = ready ∧ i_result_claimed i1 = true ∧
     restore_result i1 bytes rs = (if bool_decide (i_phase i = ready) then i else restore_result i1 bytes rs) ∧
     (i_phase i = ready →
        f1 = fill_result f i (Z.of_nat (length bytes)) (Z.of_nat (length rs)) 0 0 ∧
        Z.of_nat (length bytes) ≤ rf2_byte_capacity f ∧ Z.of_nat (length rs) ≤ rf2_resource_capacity f)).
Proof.
  unfold claim_result, result_of. case_bool_decide as Hc; [by rewrite Hc|].
  destruct (decide (i_phase i = ready)) as [Hr|Hr].
  - rewrite (bool_decide_eq_true_2 _ Hr). simpl. rewrite (bool_decide_eq_true_2 _ Hr). simpl.
    destruct (i_result_claimed i) eqn:Hcl; [done|]. destruct (_ || _) eqn:Hcap; [done|]. split; [done|]. intros _.
    apply orb_false_iff in Hcap as [?%Z.ltb_ge ?%Z.ltb_ge]. split_and!; try done.
    unfold restore_result. simpl. rewrite (bool_decide_eq_true_2 _ Hr). simpl.
    clear -Hcl. destruct i. simpl in *. by subst.
  - rewrite (bool_decide_eq_false_2 _ Hr). simpl.
    set (i1 := if deadline_passed i now then _ else i).
    assert (i_phase i1 = ready → i_response_bytes i1 = [] ∧ i_response_resources i1 = []) as Hemp.
    { subst i1. destruct (deadline_passed i now); [|done]. unfold publish_empty, publish_locked_no_wake.
      destruct (completed i); [done|]. by destruct (i_client_closed i). }
    clearbody i1. destruct (decide (i_phase i1 = ready)) as [H1|H1].
    2: { by rewrite (bool_decide_eq_false_2 _ H1). }
    rewrite (bool_decide_eq_true_2 _ H1). simpl. destruct (i_result_claimed i1); [done|].
    destruct (Hemp H1) as [Hb Hrs]. destruct (_ || _); [done|]. split; [done|]. intros _. rewrite Hb, Hrs. split_and!; done.
Qed.

(** Room for [count] resources: rolled back it leaves no trace, and a
    reservation that succeeds takes as many fresh handles. *)
Lemma reserve_rollback nodes (t : table) count alloc :
  table_wf t nodes →
  let '(granted, hs, t1) := reserve_native t count alloc in
  model (rollback_native t1 hs) = model t ∧ (granted ≠ STATUS_OK → model t1 = model t) ∧
  (granted = STATUS_OK → table_wf t1 nodes ∧ NoDup hs ∧ length hs = Z.to_nat count ∧ reserving (model t) hs (model t1)).
Proof.
  intros Hwf. pose proof (reserve_native_ok nodes t count alloc Hwf) as Hok.
  pose proof (reserve_native_model nodes t count alloc Hwf) as Hmod.
  destruct (reserve_native t count alloc) as [[granted hs] t1]. destruct Hok as (Hso & Hlen & Hnil).
  pose proof (so_wf _ _ _ _ _ Hso) as Hwf1. pose proof (so_nodup _ _ _ _ _ Hso) as Hnd.
  destruct (decide (granted = STATUS_OK)) as [Hg|Hg].
  - split_and!; [by apply (rollback_native_model nodes)|done|]. intros _. split_and!; try done. by apply Hlen.
  - rewrite (Hnil Hg). done.
Qed.

(** Filling the reserved handles. *)
Lemma activate_reserving nodes (t t1 : table) hs rs :
  table_wf t1 nodes → NoDup hs → length hs = length rs → reserving (model t) hs (model t1) →
  Forall (λ r, is_Some (t_object r)) rs →
  let '(status, rs', ev, n, t2) := activate_loop t1 hs rs in
  status = STATUS_OK ∧ table_wf t2 nodes ∧ model t2 = list_to_map (installed hs rs) ∪ model t.
Proof.
  intros Hwf Hnd Hl Hres Hrs. pose proof (activate_loop_spec nodes hs rs t1 Hwf Hnd Hl) as Ha.
  destruct (activate_loop t1 hs rs) as [[[[status rs'] ev] n] t2]. destruct Ha as (-> & Hwf2 & Hm); [|done|].
  - intros h Hh. destruct Hres as [_ Hm]. by rewrite Hm, decide_True.
  - split_and!; [done..|]. rewrite Hm. by apply installed_model.
Qed.

Lemma inv_at_present w n i : w_invocations w !! n = Some i → inv_at w n = i.
Proof. intros Hn. unfold inv_at. by rewrite Hn. Qed.

Lemma restored_invocation w n i i1 bytes rs :
  w_invocations w !! n = Some i → restore_result i1 bytes rs = i →
  w_invocations (update_inv n (λ j, restore_result j bytes rs) (update_inv n (λ _, i1) w)) !! n = Some i.
Proof. intros Hn Hr. unfold update_inv. simpl. by rewrite !lookup_alter_eq, Hn, <- Hr. Qed.

(** The result of invocation [n] was handed over: the bytes were written out,
    the resources are in the table under handles that were free and the
    invocation has no result any more. *)
Definition result_handed_over (w : pworld) (t : table) (n : Z) (i : invocation_state) (out : result_delivery) (w' : pworld)
    (t' : table) : Prop :=
  let hs := rd_handles out in
  let rs := c_resource <$> (result_of i).2 in
  rd_bytes out = Some (result_of i).1 ∧ length hs = length rs ∧ NoDup hs ∧ (∀ h, h ∈ hs → model t !! h = None) ∧
  model t' = list_to_map (installed hs rs) ∪ model t ∧
  ∃ i', w_invocations w' !! n = Some i' ∧ i_phase i' = consumed ∧ i_result_budget_reserved i' = false.

Lemma chain_ok a b : (if status_ok a then b else a) = STATUS_OK → a = STATUS_OK ∧ b = STATUS_OK.
Proof. destruct a; done. Qed.

Lemma result_frame_check_error f : result_frame_check f ≠ Some STATUS_OK.
Proof. unfold result_frame_check. by repeat case_match. Qed.
Lemma invocation_of_error w (t : table) h : invocation_of w t h ≠ inl STATUS_OK.
Proof. unfold invocation_of. by repeat case_match. Qed.

(** C20: Taking the result of an invocation is all or nothing.  On success the
    response bytes and the outcome are written out within the capacities of
    the frame, every response resource is installed under a fresh handle, all
    other handles are as before, and the invocation is consumed and has given
    its budget back.  On every error (small buffers, bad or overlapping
    buffers, a full table, a faulting copy) the table holds what it held and
    a result that was ready is still there, untouched. *)
Theorem take_result_delivers_or_keeps w (t : table) nodes h e :
  table_wf t nodes → (∀ n i, w_invocations w !! n = Some i → result_resources_ok i) →
  (∀ n, invocation_of w t h = inr n → is_Some (w_invocations w !! n)) →
  let '(status, out, w', t') := invocation_take_result last w t h e in
  if decide (status = STATUS_OK) then
    ∃ n i, invocation_of w t h = inr n ∧ w_invocations w !! n = Some i ∧ result_handed_over w t n i out w' t' ∧
      (i_phase i = ready → let '(nb, nr) := (Z.of_nat (length (i_response_bytes i)), Z.of_nat (length (i_response_resources i))) in
         rd_frame out = Some (fill_result (ru_frame e).2 i nb nr 0 0) ∧
         nb ≤ rf2_byte_capacity (ru_frame e).2 ∧ nr ≤ rf2_resource_capacity (ru_frame e).2)
  else model t' = model t ∧
    ∀ n i, invocation_of w t h = inr n → w_invocations w !! n = Some i → i_phase i = ready →
      w_invocations w' !! n = Some i.
Proof.
  intros Hwf Hres Hpres. unfold invocation_take_result. set (f := (ru_frame e).2). outer_if Hf; [by failed|].
  destruct (result_frame_check f) as [st|] eqn:Hc; [pose proof (result_frame_check_error f); by failed|].
  destruct (invocation_of w t h) as [st|n] eqn:Hn; [pose proof (invocation_of_error w t h); by failed|].
  destruct (Hpres n eq_refl) as [i Hi]. rewrite (inv_at_present w n i Hi).
  pose proof (claim_result_spec i (ru_now e) f) as Hcl.
  destruct (claim_result i (ru_now e) f) as [[[[claimed f1] bytes] rs] i1]. destruct Hcl as [Hkeep Hgot].
  set (w1 := update_inv n (λ _, i1) w). outer_if Hst.
  { failed. split; [done|]. intros m j [= <-] Hj Hr. rewrite Hi in Hj. injection Hj as <-.
    unfold w1, update_inv. simpl. rewrite lookup_alter_eq, Hi. simpl. by rewrite Hkeep by (done || by apply status_ok_false, negb_true_iff). }
  apply negb_false_iff, bool_decide_eq_true in Hst. destruct (Hgot Hst) as (Hro & Hp1 & Hc1 & Hrest & Hframe).
  assert (∀ m j, inr n = inr m :> na_status + Z → w_invocations w !! m = Some j → i_phase j = ready →
            w_invocations (update_inv n (λ j, restore_result j bytes rs) w1) !! m = Some j) as Hback.
  { intros m j [= <-] Hj Hr. rewrite Hi in Hj. injection Hj as <-. apply restored_invocation; [done|].
    by rewrite Hrest, bool_decide_eq_true_2. }
  outer_if Hrange; [by failed|]. outer_if Hover; [by failed|].
  pose proof (reserve_rollback nodes t (Z.of_nat (length rs)) (ru_reserve_ok e) Hwf) as Hrv.
  destruct (reserve_native t _ _) as [[granted hs] t1]. destruct Hrv as (Hroll & _ & Hgr).
  set (s1 := if status_ok granted then _ else _). set (s2 := if status_ok s1 && _ then _ else _). outer_if Hs3; [by failed|].
  apply negb_false_iff, bool_decide_eq_true, chain_ok in Hs3 as [Hs2 Hs3].
  assert (s1 = STATUS_OK) as Hs1.
  { unfold s2 in Hs2. destruct (status_ok s1) eqn:Hx; [by apply bool_decide_eq_true in Hx|done]. }
  destruct (chain_ok _ _ Hs1) as [Hg _]. clearbody s1 s2. subst s1 s2. rewrite Hs3. cbn [status_ok].
  destruct (Hgr Hg) as (Hwf1 & Hnd & Hlen & Hrsv).
  assert (length hs = length (c_resource <$> rs)) as Hl by (rewrite length_fmap; lia).
  assert (Forall (λ r, is_Some (t_object r)) (c_resource <$> rs)) as Hrs.
  { pose proof (result_of_resources i (Hres n i Hi)) as Hall. by rewrite <- Hro in Hall. }
  pose proof (activate_reserving nodes t t1 hs (c_resource <$> rs) Hwf1 Hnd Hl Hrsv Hrs) as Ha.
  destruct (activate_loop t1 hs _) as [[[[activated left_] ev] k] t2]. destruct Ha as (-> & Hwf2 & Hm2). simpl.
  assert (held n w1) as Hheld by (exists i1; unfold w1, update_inv; simpl; by rewrite lookup_alter_eq, Hi).
  destruct (held_hooks n last w1 ev Hheld) as (i2 & Hi2 & Hp2 & Hc2). rewrite (inv_at_present _ n i2 Hi2).
  unfold commit_result. rewrite Hc2, (bool_decide_eq_true_2 _ Hp2). simpl.
  destruct (release_result_budget_locked _ _) as [i3 g3] eqn:Hrel. simpl.
  exists n, i. split_and!; [done..| |].
  - unfold result_handed_over. rewrite <- Hro. split_and!; [done..|apply Hrsv|done|]. exists i3. simpl.
    rewrite lookup_alter_eq, Hi2. split; [done|]. unfold release_result_budget_locked in Hrel.
    destruct (i_result_budget_reserved _) eqn:Hbud in Hrel; injection Hrel as <- _; done.
  - intros Hr. unfold result_of in Hro. rewrite (bool_decide_eq_true_2 _ Hr) in Hro. injection Hro as <- <-.
    destruct (Hframe Hr) as (-> & ? & ?). done.
Qed.
End tables.

(** ** Sending *)

(** One more handle gone. *)
Lemma delete_without (m m1 : gmap Z entry) h ks :
  (∀ k, m1 !! k = if decide (k ∈ ks) then None else m !! k) →
  ∀ k, delete h m1 !! k = if decide (k ∈ h :: ks) then None else m !! k.
Proof.
  intros Hm k. destruct (decide (k = h)) as [->|Hne].
  - by rewrite lookup_delete_eq, decide_True by left.
  - rewrite lookup_delete_ne, Hm by done. apply decide_ext. rewrite elem_of_cons. tauto.
Qed.

(** The handles a list of dispositions moves. *)
Definition moved (ds : list disposition) : list Z := d_handle <$> filter (λ d, d_operation d = RESOURCE_MOVE) ds.

Section sending.
Context {M : Type} `{HandleMapLaws M}.
Variable unique : object → bool.
Variable last : Z → bool.
Abbreviation table := (resource_table M).

Definition batch_of (ds : list disposition) : disposition_array :=
  match ds with [] => NullDispositions 0 | _ => Dispositions ds end.

Lemma moved_nodes_handles m items :
  Forall (λ x, snapshot_of unique m x.1 x.2) items → (moved_nodes m items).*1 = moved items.*1.
Proof.
  induction 1 as [|[d s] items Hs _ IH]; [done|]. unfold moved in *. csimpl.
  destruct (decide (d_operation d = RESOURCE_MOVE)) as [Hm|Hm].
  - destruct Hs as (e & _ & He & _). rewrite (moved_nodes_move m d s e items), filter_cons_True by done. csimpl. by rewrite IH.
  - by rewrite moved_nodes_keep, filter_cons_False by done.
Qed.

(** What a batch takes from the table: the moved handles. *)
Lemma taken_moved (t : table) nodes ds target alloc rs ev t1 :
  table_wf t nodes → take_native_batch unique t (batch_of ds) target alloc = (STATUS_OK, rs, ev, t1) →
  table_wf t1 (batch_nodes rs ++ nodes) ∧ Forall (record_wf (rt_id t1)) rs ∧
  list_to_map (batch_nodes rs) ∪ model t1 = model t ∧
  ∀ k, model t1 !! k = if decide (k ∈ moved ds) then None else model t !! k.
Proof.
  intros Hwf Ht. destruct (taken_batch unique nodes t _ target alloc rs ev t1 Hwf Ht) as (Hrs & Hwf1 & Hm & Hu).
  split_and!; [done..|]. assert ((batch_nodes rs).*1 = moved ds) as <-; [|done].
  clear Hrs Hwf1 Hm Hu. destruct ds as [|d ds]; [by simplify_eq/=|]. unfold batch_of in Ht.
  set (l := d :: ds) in *. unfold take_native_batch in Ht. destruct (_ <? _); [done|]. destruct (_ && _); [done|].
  destruct (snapshot_loop unique t [] target l) as [status|items] eqn:Hl.
  { pose proof (snapshot_loop_fails unique t [] target l status Hl). congruence. }
  apply snapshot_loop_spec in Hl as (Hi & Hs & Hnd & _). rewrite <- Hi in Hnd.
  destruct (detach_loop_spec unique items t nodes [] Hwf Hs Hnd) as (t' & Hd & _). rewrite Hd in Ht. simplify_eq/=.
  rewrite (batch_nodes_records unique), <- Hi by done. by apply moved_nodes_handles.
Qed.

Lemma close_handle_delete w (t : table) nodes h :
  table_wf t nodes → (∀ e, model t !! h = Some e → e_state e = active) →
  table_wf (close_handle last w t h).2 nodes ∧ model (close_handle last w t h).2 = delete h (model t).
Proof.
  intros Hwf Ha. destruct (model t !! h) as [e|] eqn:Hh; [by apply (close_handle_table last w t nodes h e); auto|].
  rewrite delete_id by done. unfold close_handle, close_native. destruct (_ =? _); [done|].
  destruct (lookup_native t h) as [e|] eqn:Hl; [|done]. apply lookup_native_spec in Hl as [Hl _]. congruence.
Qed.

(** The batch of a failed call goes back. *)
Lemma restore_taken (t t1 : table) nodes rs :
  table_wf t1 (batch_nodes rs ++ nodes) → Forall (record_wf (rt_id t1)) rs →
  list_to_map (batch_nodes rs) ∪ model t1 = model t →
  let '(status, rs', ev, t2) := restore_native_batch t1 rs in
  status = STATUS_OK ∧ table_wf t2 nodes ∧ model t2 = model t.
Proof.
  intros Hwf Hrs Hu. destruct (restore_native_batch_spec t1 nodes rs Hrs Hwf) as (rs' & ev & t2 & -> & Hwf2 & Hm & _).
  split_and!; [done..|congruence].
Qed.

(** ** Replies *)

Lemma reply_frame_check_error e : reply_frame_check e ≠ Some STATUS_OK.
Proof.
  unfold reply_frame_check. repeat case_match; try done; intros [= Hs];
    repeat match goal with H : context [status_ok (_ _).1] |- _ => rewrite Hs in H end; simpl in *;
    try done; by rewrite ?andb_false_r in *.
Qed.
Lemma responder_of_error w (t : table) h : responder_of w t h ≠ inl STATUS_OK.
Proof. unfold responder_of. by repeat case_match. Qed.

(** A reply that was accepted: the call is complete and the batch committed. *)
Lemma accepted_reply i bytes rs (t1 : table) nodes :
  table_wf t1 (batch_nodes rs ++ nodes) → Forall (record_wf (rt_id t1)) rs →
  let '(replied, i', t2) := complete_reply_lvalue i bytes rs 0 (Some t1) in
  if replied then completed i' = true ∧ outcome_of i' = (EXECUTION_NONE, REASON_NONE, 0) ∧ i_response_bytes i' = bytes ∧
    ∃ t', t2 = Some t' ∧ table_wf t' nodes ∧ model t' = model t1
  else i' = i ∧ t2 = Some t1.
Proof.
  intros Hwf Hrs. unfold complete_reply_lvalue. destruct (completed i) eqn:Hc; [done|].
  unfold complete_reply, publish_locked_no_wake. rewrite Hc. destruct (i_client_closed i); [done|]. simpl.
  pose proof (commit_native_batch_spec t1 nodes rs Hrs Hwf) as Hcm. destruct (commit_native_batch t1 rs) as [rs' t']. simpl in Hcm.
  split_and!; try done. exists t'. split_and!; try done; apply Hcm.
Qed.

(** A completed call stays so while its responder handle is closed. *)
Lemma replied_stays w w1 w2 (t : table) h o n i' :
  pworld_wf w → reach (M := M) w w1 → reach (M := M) w1 w2 → is_Some (w_invocations w !! n) →
  (is_Some (w_invocations w1 !! n) → w_invocations w2 !! n = Some i') → completed i' = true →
  ∃ i2, w_invocations (close_handle last (consume w2 o n) t h).1 !! n = Some i2 ∧ completed i2 = true ∧
    outcome_of i2 = outcome_of i'.
Proof.
  intros Hw H1 H2 [i Hi] Hi' Hc. destruct (kp_invocations _ _ (reach_keeps _ _ Hw H1) n i Hi) as (i1 & Hi1 & _).
  pose proof (reach_wf _ _ (reach_wf _ _ Hw H1) H2) as Hw2.
  assert (reach (M := M) w2 (close_handle last (consume w2 o n) t h).1) as H3.
  { eapply reach_trans; [apply consume_reach|apply close_handle_reach]. }
  destruct (kp_invocations _ _ (reach_keeps _ _ Hw2 H3) n i') as (i2 & Hi2 & Hf); [apply Hi'; by eexists|].
  exists i2. split; [done|]. by apply Hf.
Qed.

(** A reply is all or nothing for the server's table.  When it is accepted
    the responder handle and the handles it moves are gone, everything else is
    as before, and the call is complete with the reply as its outcome.  When
    the call is already over only the responder handle is gone and what the
    reply was to carry is back under the handles it had.  On any other error
    the table holds what it held. *)
Theorem reply_moves_or_restores w (t : table) nodes h e :
  table_wf t nodes → pworld_wf w →
  (∀ o n, responder_of w t h = inr (o, n) → is_Some (w_invocations w !! n)) →
  let '(status, w', t') := responder_reply unique last w t h e in
  let ds := if ry_resource_count (rp_frame e).2 =? 0 then [] else (rp_dispositions e).2 in
  if decide (status = STATUS_OK) then
    (∀ k, model t' !! k = if decide (k ∈ h :: moved ds) then None else model t !! k) ∧
    ∃ o n i', responder_of w t h = inr (o, n) ∧ w_invocations w' !! n = Some i' ∧ completed i' = true ∧
      outcome_of i' = (EXECUTION_NONE, REASON_NONE, 0)
  else model t' = model t ∨ (status = PEER_CLOSED ∧ model t' = delete h (model t)).
Proof.
  intros Hwf Hw Hpres. unfold responder_reply.
  destruct (reply_frame_check e) as [st|] eqn:Hf; [pose proof (reply_frame_check_error e); failed; by left|].
  set (bytes := if ry_byte_count _ =? 0 then _ else _). set (ds := if ry_resource_count _ =? 0 then _ else _).
  destruct (responder_of w t h) as [st|[o n]] eqn:Hr; [pose proof (responder_of_error w t h); failed; by left|].
  outer_if Hlim; [failed; by left|]. change (match ds with [] => NullDispositions 0 | _ => Dispositions ds end) with (batch_of ds).
  destruct (take_native_batch unique t (batch_of ds) h (rp_take_ok e)) as [[[taken rs] ev] t1] eqn:Ht.
  assert (∃ e0, model t !! h = Some e0 ∧ e_state e0 = active) as (e0 & Hh & Hact).
  { unfold responder_of in Hr. destruct (lookup_native t h) as [e0|] eqn:Hl; [|done]. exists e0. by apply lookup_native_spec. }
  outer_if Htk.
  { pose proof (take_native_batch_spec unique t nodes (batch_of ds) h (rp_take_ok e) Hwf) as Hsp. rewrite Ht in Hsp.
    failed. destruct Hsp as [(_ & _ & _ & ->)|[? _]]; [by left|done]. }
  apply negb_false_iff, bool_decide_eq_true in Htk. subst taken.
  destruct (taken_moved t nodes ds h _ rs ev t1 Hwf Ht) as (Hwf1 & Hrs & Hu & Hm).
  assert (∀ w (t2 : table), table_wf t2 nodes → model t2 = model t1 ∨ model t2 = model t →
    model (close_handle last w t2 h).2 = delete h (model t2)) as Hclose.
  { intros w0 t2 Hwf2 Hm2. apply (close_handle_delete w0 t2 nodes h Hwf2). intros e1 He1.
    destruct Hm2 as [Hm2|Hm2]; rewrite Hm2, ?Hm in He1; [case_decide|]; by simplify_eq. }
  set (w1 := phooks last w ev). pose proof (accepted_reply (inv_at w1 n) bytes rs t1 nodes Hwf1 Hrs) as Hrep.
  destruct (complete_reply_lvalue _ _ _ _ _) as [[[] i'] t2] eqn:Hre; cbn [negb].
  - destruct Hrep as (Hc & Ho & _ & t' & -> & Hwf2 & Hm2). simpl. set (w2 := wake _).
    specialize (Hclose (consume w2 o n) t' Hwf2 (or_introl Hm2)). rewrite Hm2 in Hclose.
    assert (reach (M := M) w1 w2) as Hr2.
    { eapply reach_trans; [|apply (wake_reach _ true)]. eapply set_inv_reach; [apply (is_call_reply bytes rs 0 (Some t1))|].
      simpl. by rewrite Hre. }
    destruct (replied_stays w w1 w2 t' h o n i' Hw (hooks_reach last w ev) Hr2 (Hpres o n eq_refl)) as (i2 & Hi2 & Hc2 & Ho2); [|done|].
    { intros [j Hj]. simpl. by rewrite lookup_alter_eq, Hj. }
    destruct (close_handle last (consume w2 o n) t' h) as [w3 t3]. simpl in *. split.
    + rewrite Hclose. by apply delete_without.
    + exists o, n, i2. split_and!; [done..|congruence].
  - destruct Hrep as [-> ->]. simpl. pose proof (restore_taken t t1 nodes rs Hwf1 Hrs Hu) as Hb.
    destruct (restore_native_batch t1 rs) as [[[restored rs'] ev'] t3]. destruct Hb as (-> & Hwf3 & Hm3).
    specialize (Hclose (phooks last (update_inv n (λ _, inv_at w1 n) w1) ev') t3 Hwf3 (or_intror Hm3)). rewrite Hm3 in Hclose.
    destruct (close_handle last _ t3 h) as [w3 t4]. simpl in *. by right.
Qed.

(** ** Submissions *)

Lemma install_handle_table w (t : table) nodes o meta :
  table_wf t nodes →
  let '(h, w', t') := install_handle last w t o meta in
  table_wf t' nodes ∧
  if h =? HANDLE_INVALID then model t' = model t
  else model t !! h = None ∧ model t' = <[h := Build_entry (Some o) h active meta]> (model t).
Proof.
  intros Hwf. unfold install_handle, install_native.
  destruct (allocate_spec t nodes Hwf) as [->|(Hn & Hc & Hk & ->)]; [done|].
  rewrite (proj2 (Z.eqb_neq _ _)) by (unfold HANDLE_INVALID; lia). cbv beta iota.
  rewrite (proj2 (Z.eqb_neq _ _)) by (unfold HANDLE_INVALID; lia).
  destruct (added_wf t nodes (Build_entry (Some o) (next_native_handle t) active meta) Hwf) as [Hwf' Hm]; done.
Qed.

(** The entry of a new invocation. *)
Definition invocation_entry (e : submit_env) (meta : metadata) (h : Z) : entry :=
  Build_entry (Some (sb_invocation_object e)) h active (invocation_metadata meta).

Lemma submit_invocation_table w (t : table) nodes target f e protocol oneway :
  table_wf t nodes →
  let '(status, h, w', t') := submit_invocation last w t target f e protocol oneway in
  if decide (status = STATUS_OK) then
    table_wf t' nodes ∧
    if oneway then t' = t ∧ h = HANDLE_INVALID
    else model t !! h = None ∧ model t' = <[h := invocation_entry e (e_meta target) h]> (model t)
  else model t' = model t.
Proof.
  intros Hwf. unfold submit_invocation. destruct (match protocol with Some s => _ | None => _ end) as [mb mr].
  outer_if H1; [done|]. destruct (if oneway then _ else _) as [[granted i] g]. outer_if H2; [done|].
  destruct (arm_deadline _ _ _ _ _ _) as [armed w2]. outer_if H3; [by failed|]. outer_if H4; [done|].
  outer_if H5; [done|]. set (w4 := with_invocation_objects _ _).
  pose proof (install_handle_table w4 t nodes (sb_invocation_object e) (invocation_metadata (e_meta target)) Hwf) as Hi.
  destruct (install_handle last w4 t _ _) as [[h w5] t1]. destruct Hi as [Hwf1 Hi]. destruct (h =? HANDLE_INVALID); [done|].
  rewrite decide_True by done. done.
Qed.

Lemma close_invocation_table w (t : table) nodes h oneway :
  table_wf t nodes → (∀ e, model t !! h = Some e → e_state e = active) →
  model (close_invocation last w t h oneway).2 = (if oneway then model t else delete h (model t)).
Proof. intros Hwf Ha. destruct oneway; [done|]. by apply (close_handle_delete w t nodes h). Qed.

Lemma publish_handle_table w (t : table) nodes e h owner oneway user :
  table_wf t nodes → (∀ e, model t !! h = Some e → e_state e = active) →
  let '(status, out, w', t') := publish_handle last w t e h owner oneway user in
  if decide (status = STATUS_OK) then t' = t ∧ out = (if oneway then None else Some h)
  else oneway = false ∧ status = sb_written e ∧ model t' = delete h (model t).
Proof.
  intros Hwf Ha. unfold publish_handle. destruct oneway; [done|]. outer_if Hw; [|done].
  apply andb_true_iff in Hw as [_ Hw]. destruct (cancel last w _ _) as [c w1].
  pose proof (close_handle_delete w1 t nodes h Hwf Ha) as [_ Hm]. destruct (close_handle last w1 t h) as [w2 t1]. by failed.
Qed.

Lemma enqueue_request_table w (t : table) s p r :
  let '(status, still, w', t') := enqueue_request last w t s p r in
  if decide (status = STATUS_OK) then
    t' = (if iq_source r then (commit_native_batch t (iq_resources r)).2 else t)
  else t' = t.
Proof.
  unfold enqueue_request. outer_if Hi; [done|].
  assert (let '(status, w', t') := enqueue_request_locked w t s p r in
    if decide (status = STATUS_OK) then t' = (if iq_source r then (commit_native_batch t (iq_resources r)).2 else t)
    else t' = t) as Hl.
  { unfold enqueue_request_locked. outer_if H1; [done|]. outer_if H2; [done|]. outer_if H3; [done|]. destruct (reserve_protocol_global _ _ _) as [granted g].
    destruct granted; [|done]. destruct (try_push _ _) as [[] fifo]; [|done]. simpl. destruct (iq_source r); [|done].
    by destruct (commit_native_batch t (iq_resources r)). }
  destruct (enqueue_request_locked w t s p r) as [[status w1] t1]. outer_if Hst; [by failed; case_decide|].
  by destruct (if has_flag _ _ then _ else _) as [still w3].
Qed.

(** What a submission with invocation handle [h] does to the table [t] that
    already has the handle: on success the moved handles are gone; an error
    takes the invocation handle back and leaves everything else as it was,
    unless the copy of the handle to the caller failed, by which time the
    request was on its way. *)
Definition submit_effect (ds : list disposition) (h : Z) (e : submit_env) (oneway : bool) (t : table)
    (status : na_status) (out : option Z) (t' : table) : Prop :=
  if decide (status = STATUS_OK) then
    out = (if oneway then None else Some h) ∧
    ∀ k, model t' !! k = if decide (k ∈ moved ds) then None else model t !! k
  else
    model t' = (if oneway then model t else delete h (model t)) ∨
    (oneway = false ∧ status = sb_written e ∧
     ∀ k, model t' !! k = if decide (k ∈ h :: moved ds) then None else model t !! k).

Section effect.
Context (t : table) (nodes : list (Z * entry)) (ds : list disposition) (h : Z) (e : submit_env) (oneway user : bool).
Context (Hwf : table_wf t nodes) (Ha : ∀ e0, model t !! h = Some e0 → e_state e0 = active).

Lemma give_up_effect w (t1 : table) status w' t' :
  table_wf t1 nodes → model t1 = model t → status ≠ STATUS_OK → close_invocation last w t1 h oneway = (w', t') →
  submit_effect ds h e oneway t status None t'.
Proof using Ha.
  intros Hwf1 Hm Hs Hc. unfold submit_effect. rewrite decide_False by done. left.
  pose proof (close_invocation_table w t1 nodes h oneway Hwf1) as Hcl. rewrite Hm, Hc in Hcl. simpl in Hcl. auto.
Qed.

Lemma publish_effect w (t1 : table) nodes1 owner :
  table_wf t1 nodes1 → (∀ k, model t1 !! k = if decide (k ∈ moved ds) then None else model t !! k) →
  let '(status, out, w', t') := publish_handle last w t1 e h owner oneway user in
  submit_effect ds h e oneway t status out t'.
Proof using Ha.
  intros Hwf1 Hm. pose proof (publish_handle_table w t1 nodes1 e h owner oneway user Hwf1) as Hp.
  destruct (publish_handle last w t1 e h owner oneway user) as [[[status out] w'] t']. unfold submit_effect.
  ospecialize (Hp _); [intros e0; rewrite Hm; destruct (decide (h ∈ moved ds)); [discriminate|apply Ha]|].
  destruct (decide (status = STATUS_OK)); [by destruct Hp as [-> ->]|]. right. destruct Hp as (Ho & Hs & Hd).
  split_and!; [done..|]. rewrite Hd. by apply delete_without.
Qed.

Lemma submit_request_effect w target_handle target f bytes s :
  let '(status, out, w', t') :=
    submit_request unique last w t target_handle target f bytes ds s h e oneway user in
  submit_effect ds h e oneway t status out t'.
Proof using Hwf Ha.
  unfold submit_request. set (n := sb_invocation e). outer_if H1.
  { destruct (close_invocation last w t h oneway) as [w' t'] eqn:Hc. by eapply give_up_effect. }
  outer_if H2.
  { destruct (close_invocation last w t h oneway) as [w' t'] eqn:Hc. by eapply give_up_effect. }
  destruct (if oneway then _ else _) as [responder acquired]. set (w2 := phooks last _ acquired).
  change (match ds with [] => NullDispositions 0 | _ => Dispositions ds end) with (batch_of ds).
  pose proof (take_native_batch_spec unique t nodes (batch_of ds) target_handle (sb_take_ok e) Hwf) as Hsp.
  destruct (take_native_batch unique t (batch_of ds) target_handle (sb_take_ok e)) as [[[taken rs] ev] t1] eqn:Ht.
  set (w3 := phooks last w2 ev). outer_if H3.
  { apply negb_true_iff, status_ok_false in H3. destruct Hsp as [(_ & _ & _ & ->)|[? _]]; [|done].
    destruct (close_invocation last _ t h oneway) as [w' t'] eqn:Hc. by eapply give_up_effect. }
  apply negb_false_iff, bool_decide_eq_true in H3. subst taken. clear Hsp.
  destruct (taken_moved t nodes ds target_handle _ rs ev t1 Hwf Ht) as (Hwf1 & Hrs & Hu & Hm).
  set (r := Build_request _ _ _ _ _ _ _ _ _). pose proof (enqueue_request_table w3 t1 s (sb_request e) r) as Hq.
  destruct (enqueue_request last w3 t1 s (sb_request e) r) as [[[status still] w4] t2]. outer_if H4.
  - apply negb_true_iff, status_ok_false in H4. rewrite decide_False in Hq by done. subst t2.
    pose proof (restore_taken t t1 nodes rs Hwf1 Hrs Hu) as Hb.
    destruct (restore_native_batch t1 rs) as [[[restored rs'] ev'] t3]. destruct Hb as (-> & Hwf3 & Hm3). simpl.
    destruct (close_invocation last _ t3 h oneway) as [w' t'] eqn:Hc. by eapply give_up_effect.
  - apply negb_false_iff, bool_decide_eq_true in H4. rewrite decide_True in Hq by done. simpl in Hq.
    destruct (commit_native_batch_spec t1 nodes rs Hrs Hwf1) as (Hwf2 & Hm2 & _). rewrite <- Hq in Hwf2, Hm2.
    apply (publish_effect w4 t2 nodes); [done|]. intros k. rewrite Hm2. apply Hm.
Qed.

Lemma submit_dispatch_effect w target_handle target f bytes :
  let '(status, out, w', t') :=
    submit_dispatch unique last w t target_handle target f bytes ds h e oneway user in
  submit_effect ds h e oneway t status out t'.
Proof using Hwf Ha.
  unfold submit_dispatch. outer_if H1.
  { destruct (close_invocation last w t h oneway) as [w' t'] eqn:Hc. by eapply give_up_effect. }
  outer_if H2.
  { destruct (close_invocation last w t h oneway) as [w' t'] eqn:Hc. by eapply give_up_effect. }
  change (match ds with [] => NullDispositions 0 | _ => Dispositions ds end) with (batch_of ds).
  pose proof (take_native_batch_spec unique t nodes (batch_of ds) target_handle (sb_take_ok e) Hwf) as Hsp.
  destruct (take_native_batch unique t (batch_of ds) target_handle (sb_take_ok e)) as [[[taken rs] ev] t1] eqn:Ht.
  set (w1 := phooks last w ev). outer_if H3.
  { apply negb_true_iff, status_ok_false in H3. destruct Hsp as [(_ & _ & _ & ->)|[? _]]; [|done].
    destruct (close_invocation last _ t h oneway) as [w' t'] eqn:Hc. by eapply give_up_effect. }
  apply negb_false_iff, bool_decide_eq_true in H3. subst taken. clear Hsp.
  destruct (taken_moved t nodes ds target_handle _ rs ev t1 Hwf Ht) as (Hwf1 & Hrs & Hu & Hm). outer_if H4.
  - pose proof (restore_taken t t1 nodes rs Hwf1 Hrs Hu) as Hb.
    destruct (restore_native_batch t1 rs) as [[[restored rs'] ev'] t3]. destruct Hb as (-> & Hwf3 & Hm3). simpl.
    destruct (close_invocation last _ t3 h oneway) as [w' t'] eqn:Hc. by eapply give_up_effect.
  - by apply (publish_effect _ t1 (batch_nodes rs ++ nodes)).
Qed.
End effect.

Lemma submit_frame_check_error e oneway user : submit_frame_check e oneway user ≠ Some STATUS_OK.
Proof.
  unfold submit_frame_check. outer_if H1; [intros [= Hs]; by rewrite Hs in H1|]. outer_if H2.
  { intros [= Hs]. by rewrite Hs in H2. }
  by repeat case_match.
Qed.
Lemma snapshot_request_error f payload ds : snapshot_request f payload ds ≠ inl STATUS_OK.
Proof.
  unfold snapshot_request. outer_if H1.
  { intros [= Hs]. by rewrite Hs, andb_false_r in H1. }
  outer_if H2; [done|]. outer_if H3; [|done]. intros [= Hs]. by rewrite Hs in H3.
Qed.
Lemma submit_target_error w target f oneway : submit_target w target f oneway ≠ inl STATUS_OK.
Proof. unfold submit_target. by repeat case_match. Qed.

(** C19: A submission is all or nothing for the caller's table.  When it
    succeeds the handles it moves are gone, a two-way call has one new handle
    for its invocation, and everything else is as before.  When it fails,
    whatever the reason, the table holds what it held before the call; the
    one exception is a fault on handing the new handle to the caller, after
    which the moved handles are gone with the request they travel in. *)
Theorem submit_moves_or_restores w (t : table) nodes target e oneway user :
  table_wf t nodes →
  let '(status, out, w', t') := invoke_submit unique last w t target e oneway user in
  let ds := if su_resource_count (sb_frame e).2 =? 0 then [] else (sb_dispositions e).2 in
  let gone m k := if decide (k ∈ moved ds) then None else (m : gmap Z entry) !! k in
  if decide (status = STATUS_OK) then
    if oneway then out = None ∧ ∀ k, model t' !! k = gone (model t) k
    else ∃ h meta, out = Some h ∧ model t !! h = None ∧
      ∀ k, model t' !! k = gone (<[h := invocation_entry e meta h]> (model t)) k
  else model t' = model t ∨ (oneway = false ∧ status = sb_written e ∧ ∀ k, model t' !! k = gone (model t) k).
Proof.
  intros Hwf. unfold invoke_submit.
  destruct (submit_frame_check e oneway user) as [st|] eqn:Hf; [pose proof (submit_frame_check_error e oneway user); failed; by left|].
  destruct (lookup_native t target) as [found|]; [|failed; by left]. outer_if H1; [failed; by left|]. outer_if H2; [failed; by left|].
  destruct (snapshot_request _ _ _) as [st|[bytes ds]] eqn:Hsn.
  { pose proof (snapshot_request_error (sb_frame e).2 (sb_payload e) (sb_dispositions e)). failed. by left. }
  assert (ds = if su_resource_count (sb_frame e).2 =? 0 then [] else (sb_dispositions e).2) as <-.
  { unfold snapshot_request in Hsn. by repeat case_match; simplify_eq. }
  destruct (submit_target w found (sb_frame e).2 oneway) as [st|protocol] eqn:Hta.
  { pose proof (submit_target_error w found (sb_frame e).2 oneway). failed. by left. }
  pose proof (submit_invocation_table w t nodes found (sb_frame e).2 e protocol oneway Hwf) as Hi.
  destruct (submit_invocation last w t found (sb_frame e).2 e protocol oneway) as [[[status h] w1] t1].
  outer_if H3; [failed; rewrite decide_False in Hi by done; by left|].
  apply negb_false_iff, bool_decide_eq_true in H3. rewrite decide_True in Hi by done. destruct Hi as [Hwf1 Hi].
  assert (∀ e0, model t1 !! h = Some e0 → e_state e0 = active) as Ha.
  { intros e0 He. destruct (tw_entries t1 nodes Hwf1 h e0 He) as ([Hpos _] & _). destruct oneway.
    - destruct Hi as [_ ->]. unfold HANDLE_INVALID in Hpos. lia.
    - destruct Hi as [_ Hm]. rewrite Hm, lookup_insert_eq in He. by injection He as <-. }
  set (res := match protocol with Some s => _ | None => _ end).
  assert (let '(status, out, w', t') := res in submit_effect ds h e oneway t1 status out t') as Heff.
  { subst res. destruct protocol as [s|]; [by eapply submit_request_effect|by eapply submit_dispatch_effect]. }
  destruct res as [[[st out] w'] t']. unfold submit_effect in Heff.
  destruct (decide (st = STATUS_OK)), oneway; destruct Hi as [H4 H5].
  - rewrite H4 in Heff. done.
  - exists h, (e_meta found). rewrite H5 in Heff. by destruct Heff.
  - subst t1. left. by destruct Heff as [?|[? _]].
  - rewrite H5 in Heff. destruct Heff as [Heff|(? & ? & Heff)].
    + left. by rewrite Heff, delete_insert_eq, delete_id.
    + right. split_and!; [done..|]. intros k. rewrite Heff. destruct (decide (k = h)) as [->|Hne].
      * rewrite decide_True by left. by case_decide.
      * rewrite lookup_insert_ne by done. apply decide_ext. rewrite elem_of_cons. tauto.
Qed.
End sending.

(** ** Endpoint rights *)

(** The server end of a new endpoint pair gets the meta rights of the
    client end: the [server_meta_rights] of the options are checked and then
    not used, so that with the default options, whose server rights leave
    [RIGHT_DUPLICATE] out, the server end can be duplicated. *)
Theorem server_meta_rights_ignored none master slave w d options e co so client_meta server_meta w' :
  create_protocol_endpoint_objects none master slave w d options e =
    (STATUS_OK, Some (co, so, client_meta, server_meta), w') →
  m_meta_rights server_meta = m_meta_rights client_meta ∧
  (options = None → pd_scope d ≠ master → pd_scope d ≠ slave →
     has_flag (m_meta_rights server_meta) RIGHT_DUPLICATE = true ∧
     has_flag (eo_server_meta_rights (default_endpoint_options d)) RIGHT_DUPLICATE = false).
Proof.
  unfold create_protocol_endpoint_objects.
  destruct (match options with None => _ | Some _ => _ end) as [|v] eqn:Ho; [done|].
  outer_if H1; [done|]. outer_if H2; [done|]. outer_if H3; [done|]. outer_if H4; [done|].
  intros [= _ _ <- <- _]. split; [done|]. intros -> Hm Hs. injection Ho as <-. simpl.
  rewrite (proj2 (Z.eqb_neq _ _) Hm), (proj2 (Z.eqb_neq _ _) Hs). done.
Qed.
