(* ===== verification/ProtocolSamples.v ===== *)
(** A protocol at work: a descriptor and an endpoint pair are created, a client
    submits a request with a payload of three bytes and a moved handle, the
    server receives and answers it and the client takes the result.  The
    theorems on all runs are instantiated along this run. *)
From stdpp Require Import base list numbers gmap relations.
From S2P Require Import Prelude Abi Usercopy BoundedQueue Capability ResourceTable Channel ChannelFacts ChannelSystem.
From S2P Require Import Invocation InvocationFacts Protocol ProtocolCalls ProtocolFacts ProtocolMachine ProtocolRuns.
From S2P Require Import ResourceFacts ChannelTransfer ProtocolCallRuns ProtocolTables.

Local Open Scope Z_scope.

Module Sample.

Definition unique (o : object) : bool := (o =? 201) || (o =? 202) || (o =? 301).
Definition last (o : Z) : bool := bool_decide (o ∈ [301; 302]).
Definition table := resource_table (gmap Z entry).

Definition descriptor : protocol_descriptor :=
  Build_descriptor descriptor_sizeof 0 (replicate 16 7) 5 1 0 PROTOCOL_RIGHT_INVOKE 1 64 64 2 0 0
    [1; 0; 0; 0] [0; 0; 0; 0] (PROTOCOL_RIGHT_INVOKE :: replicate 255 0).
Definition endpoint_env : endpoint_env := Build_endpoint_env 20 201 202 true true true true.
Definition submit : submit_frame := Build_submit_frame submit_frame_sizeof 0 1 4096 3 8192 1 1000 0 0.
Definition submit_env : submit_env :=
  Build_submit_env 16384 (STATUS_OK, submit) 20480 (STATUS_OK, [1; 2; 3])
    (STATUS_OK, [Build_disposition 4 RESOURCE_MOVE 0 0 0]) 100 42 30 301 40 302 true true true true true true true true
    true STATUS_OK.
Definition receive : receive_frame := Build_receive_frame receive_frame_sizeof 0 0 24576 64 28672 4 0 0 0 0 0 0.
Definition receive_env : preceive_env :=
  Build_preceive_env 32768 (STATUS_OK, receive) 200 true STATUS_OK STATUS_OK STATUS_OK STATUS_OK.
Definition reply_env : reply_env :=
  Build_reply_env 36864 (STATUS_OK, Build_reply_frame reply_frame_sizeof 0 40960 2 0 0 0 0) (STATUS_OK, [9; 9])
    (STATUS_OK, []) true.
Definition result : result_frame := Build_result_frame result_frame_sizeof 0 0 45056 64 0 0 0 0 0 0 0 0 0.
Definition result_env : result_env :=
  Build_result_env 49152 (STATUS_OK, result) 300 true STATUS_OK STATUS_OK STATUS_OK.

Definition t0 : table := make_resource_table 1.
Definition s1 := create_protocol_descriptor (M := gmap Z entry) 0 last initial_world t0 65536 69632 true
                   (STATUS_OK, descriptor) 200 STATUS_OK.
Definition s2 := create_protocol_endpoint 0 8 9 last s1.1.2 s1.2 1 None 65536 69632 endpoint_env STATUS_OK STATUS_OK.
Definition t2 : table := (install_native s2.2 (Some 7) (Build_metadata BINDING_NONE [] 0 0 0 RIGHT_TRANSFER 0)).2.
Definition s3 := invoke_submit unique last s2.1.2 t2 2 submit_env false true.
Definition s4 := default (FAULT, nothing, initial_world, t0) (receive_protocol last 1025 s3.1.2 s3.2 3 receive_env).
Definition s5 := responder_reply unique last s4.1.2 s4.2 7 reply_env.
Definition s6 := invocation_take_result last s5.1.2 s5.2 5 result_env.

Abbreviation call := (protocol_call (M := gmap Z entry) unique 0 8 9 last).

Lemma endpoints_created : rtc call initial_world s2.1.2.
Proof.
  eapply rtc_l; [exact (call_create_descriptor unique 0 8 9 last _ t0 65536 69632 true (STATUS_OK, descriptor) 200 STATUS_OK)|].
  apply rtc_once. refine (call_create_endpoint unique 0 8 9 last _ s1.2 1 None 65536 69632 endpoint_env STATUS_OK STATUS_OK _ _ _).
  - intros o d Ho. change (w_descriptors _) with (<[200 := descriptor]> (∅ : gmap Z protocol_descriptor)) in Ho.
    apply lookup_insert_Some in Ho as [(_ & <-)|[_ Ho]]; [by split_and!|done].
  - done.
  - vm_compute. reflexivity.
Qed.

Lemma request_submitted : rtc call initial_world s3.1.2.
Proof.
  eapply rtc_r; [exact endpoints_created|]. apply (call_submit unique 0 8 9 last s2.1.2 t2 2 submit_env false true).
  split_and!; [vm_compute; reflexivity|discriminate|vm_compute; reflexivity].
Qed.

Lemma request_received : rtc call initial_world s4.1.2.
Proof.
  eapply rtc_r; [exact request_submitted|].
  apply (call_receive unique 0 8 9 last s3.1.2 1025 s3.2 3 receive_env s4.1.1.1 s4.1.1.2 s4.1.2 s4.2).
  vm_compute. reflexivity.
Qed.

Lemma request_answered : rtc call initial_world s5.1.2.
Proof. eapply rtc_r; [exact request_received|]. apply call_reply. Qed.

Lemma result_taken : rtc call s5.1.2 s6.1.2.
Proof. apply rtc_once, call_take_result. Qed.

Lemma runs w : rtc call initial_world w → rtc (pstep (M := gmap Z entry)) initial_world w.
Proof. intros Hr. apply (protocol_calls_lead _ _ _ _ _ _ _ Hr), initial_world_wf. Qed.
End Sample.

Import Sample.

Lemma protocol_budgets_hold_witness :
  w_globals s3.1.2 = Build_globals 2 67 4 ∧ w_globals s3.1.2 = charges s3.1.2 ∧ within (w_globals s3.1.2).
Proof.
  pose proof (protocol_budgets_hold s3.1.2 (runs _ request_submitted)) as (Hg & Hw & _).
  split_and!; [vm_compute; reflexivity|exact Hg|exact Hw].
Defined.

Lemma completed_calls_stay_final_witness :
  ∃ i, w_invocations s6.1.2 !! 30 = Some i ∧ completed i = true ∧ outcome_of i = (EXECUTION_NONE, REASON_NONE, 0).
Proof.
  assert (w_invocations s5.1.2 !! 30 = Some (inv_at s5.1.2 30)) as Hi by (vm_compute; reflexivity).
  assert (rtc (pstep (M := gmap Z entry)) s5.1.2 s6.1.2) as Hr.
  { apply (protocol_calls_lead _ _ _ _ _ _ _ result_taken).
    apply (psteps_wf (M := gmap Z entry) _ _ (runs _ request_answered) initial_world_wf). }
  destruct (completed_calls_stay_final s5.1.2 s6.1.2 30 _ (runs _ request_answered) Hr Hi) as (i & H1 & H2 & H3);
    [vm_compute; reflexivity|].
  exists i. split_and!; [exact H1|exact H2|]. rewrite H3. vm_compute. reflexivity.
Defined.

Lemma receive_terminates_witness :
  is_Some (receive_protocol last 1025 s3.1.2 s3.2 3 receive_env).
Proof. apply receive_terminates; [exact (runs _ request_submitted)|lia]. Defined.

Lemma protocol_calls_run_methods_witness : rtc (pstep (M := gmap Z entry)) initial_world s3.1.2.
Proof. exact (protocol_calls_run_methods unique 0 8 9 last s3.1.2 request_submitted). Defined.

(** ** The tables of the run *)

(** A table without transfers in flight that passes these tests is well
    formed. *)
Definition table_check (t : Sample.table) : bool :=
  bool_decide (0 ≤ next_native_handle t < 2 ^ 64) &&
  forallb (λ ke, bool_decide (0 < ke.1 < handle_limit (next_native_handle t)) && (e_generation ke.2 =? ke.1) &&
                 Bool.eqb (bool_decide (e_state ke.2 = reserved)) (bool_decide (e_object ke.2 = None)))
    (map_to_list (native_handle_map t)) &&
  (native_entry_count t =? Z.of_nat (size (native_handle_map t))) &&
  (native_entry_count t <=? CAPABILITY_MAX_PER_PROCESS).

Lemma table_check_wf t : table_check t = true → table_wf t [].
Proof.
  unfold table_check. rewrite !andb_true_iff, bool_decide_eq_true, Z.eqb_eq, Z.leb_le, forallb_forall.
  intros [[[Hn He] Hc] Hm]. split; [done| | |constructor|simpl; unfold model; simpl; lia|done].
  - intros k e Hk. specialize (He (k, e)). rewrite !andb_true_iff, bool_decide_eq_true, Z.eqb_eq in He.
    destruct He as [[Hi Hg] Hs]; [by apply list_elem_of_In, elem_of_map_to_list|]. split_and!; [done..|].
    apply Bool.eqb_prop in Hs. simpl in Hs. by rewrite <- (bool_decide_eq_true (e_state e = reserved)), Hs, bool_decide_eq_true.
  - intros k e Hin. by apply elem_of_nil in Hin.
Qed.

Lemma t2_wf : table_wf t2 [].
Proof. apply table_check_wf. vm_compute. reflexivity. Qed.
Lemma s4_wf : table_wf s4.2 [].
Proof. apply table_check_wf. vm_compute. reflexivity. Qed.
Lemma s5_wf : table_wf s5.2 [].
Proof. apply table_check_wf. vm_compute. reflexivity. Qed.

Lemma take_result_delivers_or_keeps_witness :
  ∃ i, w_invocations s5.1.2 !! 30 = Some i ∧ result_handed_over s5.1.2 s5.2 30 i s6.1.1.2 s6.1.2 s6.2.
Proof.
  assert (w_invocations s5.1.2 = {[30 := inv_at s5.1.2 30]}) as Hinv by (vm_compute; reflexivity).
  assert (invocation_of s5.1.2 s5.2 5 = inr 30) as Hof by (vm_compute; reflexivity).
  pose proof (take_result_delivers_or_keeps last s5.1.2 s5.2 [] 5 result_env s5_wf) as Hr.
  assert (invocation_take_result last s5.1.2 s5.2 5 result_env = (STATUS_OK, s6.1.1.2, s6.1.2, s6.2)) as Hs
    by (vm_compute; reflexivity).
  rewrite Hs, Hof in Hr. destruct Hr as (n & i & Hn & Hi & Hh & _).
  - intros n i Hi. rewrite Hinv in Hi. apply lookup_singleton_Some in Hi as [_ <-]. vm_compute. constructor.
  - intros n Hn. injection Hn as <-. rewrite Hinv, lookup_singleton_eq. by eexists.
  - injection Hn as <-. exact (ex_intro _ i (conj Hi Hh)).
Defined.

Lemma reply_moves_or_restores_witness :
  model s5.2 !! 7 = None ∧ ∃ i, w_invocations s5.1.2 !! 30 = Some i ∧ completed i = true.
Proof.
  assert (responder_of s4.1.2 s4.2 7 = inr (302, 30)) as Hof by (vm_compute; reflexivity).
  pose proof (psteps_wf (M := gmap Z entry) _ _ (runs _ request_received) initial_world_wf) as Hwf.
  pose proof (reply_moves_or_restores unique last s4.1.2 s4.2 [] 7 reply_env s4_wf Hwf) as Hr.
  assert (responder_reply unique last s4.1.2 s4.2 7 reply_env = (STATUS_OK, s5.1.2, s5.2)) as Hs by (vm_compute; reflexivity).
  rewrite Hs, Hof in Hr. destruct Hr as (Hm & o & n & i & Hn & Hi & Hc & _).
  - intros o n Hn. injection Hn as <- <-. exists (inv_at s4.1.2 30). vm_compute. reflexivity.
  - injection Hn as <- <-. exact (conj (Hm 7) (ex_intro _ i (conj Hi Hc))).
Defined.

Lemma submit_moves_or_restores_witness : model s3.2 !! 4 = None ∧ model t2 !! 4 ≠ None ∧ model t2 !! 5 = None.
Proof.
  pose proof (submit_moves_or_restores unique last s2.1.2 t2 [] 2 submit_env false true t2_wf) as Hr.
  assert (invoke_submit unique last s2.1.2 t2 2 submit_env false true = (STATUS_OK, Some 5, s3.1.2, s3.2)) as Hs
    by (vm_compute; reflexivity).
  rewrite Hs in Hr. destruct Hr as (h & meta & Hh & Hf & Hm). injection Hh as <-.
  split_and!; [rewrite Hm; reflexivity|vm_compute; discriminate|exact Hf].
Defined.

Lemma server_meta_rights_ignored_witness :
  ∃ client_meta server_meta w',
    create_protocol_endpoint_objects 0 8 9 initial_world descriptor None endpoint_env =
      (STATUS_OK, Some (201, 202, client_meta, server_meta), w') ∧
    m_meta_rights server_meta = m_meta_rights client_meta.
Proof.
  destruct (create_protocol_endpoint_objects 0 8 9 initial_world descriptor None endpoint_env)
    as [[status [[[[co so] cm] sm]|]] w'] eqn:He; vm_compute in He; [|discriminate He].
  injection He as <- <- <- <- <- <-. do 3 eexists. split; [vm_compute; reflexivity|].
  refine (proj1 (server_meta_rights_ignored 0 8 9 initial_world descriptor None endpoint_env 201 202 _ _ _ _)).
  vm_compute. reflexivity.
Defined.
