(* ===== verification/KernelCalls.v ===== *)
(** The calls of kernel objects that the dispatch workers carry out: the
    methods of memory objects and shared rings ([publish_memory_object_call],
    [publish_shared_ring_call] and their rights checks in
    [dispatch_kernel_view]) and the worker's life of one request
    ([execute_kernel_dispatch]) of src/kernel/ipc/invocation.cc, and
    [result_errno] of include/naos/outcome.hpp, by which a client reads the
    error of a result.

    A method works on its object first and touches the invocation only to
    publish its reply, so it is modelled by the reply it asks for; [answer]
    publishes it.  The message codecs, the method numbers and the scopes are
    generated from interface descriptions and are parameters.  ServiceCalls.v has
    the service directory; the other kernel views (files, directories, processes,
    input, terminals) are not modelled. *)
From stdpp Require Import base list numbers gmap.
From S2P Require Import Prelude Abi DataPlane BoundedQueue Capability ResourceTable Channel Invocation InvocationFacts.

Local Open Scope Z_scope.
Set Default Proof Using "Type".
Import Errno.

(** The numbers of the statuses. *)
Definition status_code (s : na_status) : Z :=
  match s with
  | STATUS_OK => 0 | INVALID_HANDLE => 1 | WRONG_BINDING => 2 | WRONG_SCOPE => 3 | ACCESS_DENIED => 4
  | INVALID_ARGUMENT => 5 | INVALID_MESSAGE => 6 | BUFFER_TOO_SMALL => 7 | WOULD_BLOCK => 8 | WAIT_TIMED_OUT => 9
  | RESOURCE_EXHAUSTED => 10 | FAULT => 11 | OBJECT_REVOKED => 12 | PEER_CLOSED => 13 | ALREADY_CONSUMED => 14
  | NOT_SUPPORTED => 15 | IO_ERROR => 16
  end.

(** [result_errno] uses the positive numbers of the C library. *)
Definition result_errno (f : result_frame) : Z :=
  if negb (rf2_protocol_error f =? 0) then (if rf2_protocol_error f <? 0 then i32 (- rf2_protocol_error f) else 5)
  else if rf2_execution_outcome f =? EXECUTION_NONE then 0
  else if rf2_outcome_reason f =? REASON_CANCEL_REQUESTED then 125
  else if rf2_outcome_reason f =? REASON_OPERATION_DEADLINE then 110
  else if (rf2_outcome_reason f =? REASON_PEER_CLOSED) || (rf2_outcome_reason f =? REASON_RESPONDER_ABANDONED) then 32
  else if rf2_outcome_reason f =? REASON_REQUEST_DISCARDED then 11
  else if rf2_outcome_reason f =? REASON_PROTOCOL_VIOLATION then 71
  else if rf2_outcome_reason f =? REASON_UNSUPPORTED then 95
  else 5.

Definition RING_RIGHT_PUSH : Z := 1.
Definition RING_RIGHT_POP : Z := 2.
Definition RING_RIGHT_INFO : Z := 4.

(** ** Replies *)

(** A method returns a status without a reply, or asks for a reply with bytes
    and an error and reports [OK] or [PEER_CLOSED] for it. *)
Inductive view_result : Type :=
| Returned (status : na_status)
| Replied (bytes : list Z) (resources : list transfer_record) (error : Z).

Definition answer (i : invocation_state) (result : view_result) : na_status * invocation_state :=
  match result with
  | Returned status => (status, i)
  | Replied bytes rs error =>
    let '(published, i') := publish_locked_no_wake i EXECUTION_NONE REASON_NONE bytes rs error in
    (if published then STATUS_OK else PEER_CLOSED, i')
  end.

(** [encode_message] then a reply without an error. *)
Definition encoded_reply (encoded : option (list Z)) : view_result :=
  match encoded with Some bytes => Replied bytes [] 0 | None => Returned RESOURCE_EXHAUSTED end.

(** ** The generated messages and codecs *)

Record memory_codec : Type := Build_memory_codec {
  METHOD_MEMORY_GET_INFO : Z;
  METHOD_MEMORY_READ : Z;
  METHOD_MEMORY_WRITE : Z;
  SCOPE_MEMORY_OBJECT : Z;
  decode_memory_get_info : list Z → bool;
  encode_memory_info : Z → Z → Z → option (list Z);  (* flags, size, max_size *)
  decode_memory_read : list Z → option (Z * Z);  (* offset, size *)
  encode_memory_read : list Z → option (list Z);  (* data *)
  decode_memory_write : list Z → option (Z * Z * list Z);  (* offset, size, data *)
  encode_memory_write : Z → option (list Z);  (* count *)
}.

Record ring_codec : Type := Build_ring_codec {
  METHOD_RING_GET_INFO : Z;
  METHOD_RING_PUSH : Z;
  METHOD_RING_POP : Z;
  SCOPE_SHARED_RING : Z;
  decode_ring_get_info : list Z → bool;
  encode_ring_info : Z → Z → Z → option (list Z);  (* slots, slot_bytes, queued *)
  decode_ring_push : list Z → option (Z * list Z);  (* size, data *)
  encode_ring_push : option (list Z);
  decode_ring_pop : list Z → option Z;  (* capacity *)
  encode_ring_pop : Z → list Z → option (list Z);  (* required_bytes, data *)
}.

(** ** Memory objects *)

Import MemoryObject (memory_object).

(** [allocated] is the allocation of the buffer a read copies into. *)
Definition publish_memory_object_call (c : memory_codec) (m : memory_object) (method_id : Z) (request : list Z)
    (allocated : bool) : view_result * memory_object :=
  if method_id =? METHOD_MEMORY_GET_INFO c then
    if negb (decode_memory_get_info c request) then (Returned INVALID_MESSAGE, m)
    else (encoded_reply (encode_memory_info c (MemoryObject.flags_ m) (MemoryObject.size m) MEMORY_OBJECT_MAX_BYTES), m)
  else if method_id =? METHOD_MEMORY_READ c then
    match decode_memory_read c request with
    | None => (Returned INVALID_MESSAGE, m)
    | Some (offset, len) =>
      if max_kernel_payload <? len then (Returned INVALID_MESSAGE, m)
      else if negb (len =? 0) && negb allocated then (Returned RESOURCE_EXHAUSTED, m)
      else
        let '(status, actual, data) := MemoryObject.read m offset (Some (resize_bytes len)) len in
        if negb (status_ok status) then (Replied [] [] (status_code status), m)
        else (encoded_reply (encode_memory_read c (take (Z.to_nat (u32 actual)) (default [] data))), m)
    end
  else if method_id =? METHOD_MEMORY_WRITE c then
    match decode_memory_write c request with
    | None => (Returned INVALID_MESSAGE, m)
    | Some (offset, len, data) =>
      if negb (len =? zlength data) then (Returned INVALID_MESSAGE, m)
      else
        let '(status, actual, m') := MemoryObject.write m offset (Some data) (zlength data) in
        if negb (status_ok status) then (Replied [] [] (status_code status), m')
        else (encoded_reply (encode_memory_write c actual), m')
    end
  else (Returned NOT_SUPPORTED, m).

Definition dispatch_memory_object (c : memory_codec) (target : metadata) (m : memory_object) (method_id : Z)
    (request : list Z) (allocated : bool) : view_result * memory_object :=
  if negb (m_scope target =? SCOPE_MEMORY_OBJECT c) then (Returned WRONG_SCOPE, m)
  else if (method_id =? METHOD_MEMORY_GET_INFO c)
          && (negb (has_flag (m_meta_rights target) RIGHT_INSPECT)
              || negb (has_flag (m_protocol_rights target) MEMORY_RIGHT_INFO)) then (Returned ACCESS_DENIED, m)
  else if (method_id =? METHOD_MEMORY_READ c) && negb (has_flag (m_protocol_rights target) MEMORY_RIGHT_READ)
  then (Returned ACCESS_DENIED, m)
  else if (method_id =? METHOD_MEMORY_WRITE c) && negb (has_flag (m_protocol_rights target) MEMORY_RIGHT_WRITE)
  then (Returned ACCESS_DENIED, m)
  else publish_memory_object_call c m method_id request allocated.

(** ** Shared rings *)

Import SharedRing (shared_ring).

(** What the allocator gives a ring call: the buffer of the pushed bytes, the
    slot or snapshot, and what a vector without storage holds. *)
Record ring_memory : Type := Build_ring_memory {
  rm_buffer : bool;
  rm_vector : bool;
  rm_leftover : list Z;
}.

(** [others] are the calls that the other workers make on the ring between
    the claim of a pop and its commit or cancel. *)
Definition publish_shared_ring_call (c : ring_codec) (r : shared_ring) (method_id : Z) (request : list Z)
    (mem : ring_memory) (others : list ring_op) : view_result * shared_ring :=
  if method_id =? METHOD_RING_GET_INFO c then
    if negb (decode_ring_get_info c request) then (Returned INVALID_MESSAGE, r)
    else (encoded_reply (encode_ring_info c (SharedRing.slots r) (SharedRing.slot_bytes_ r) (SharedRing.queued r)), r)
  else if method_id =? METHOD_RING_PUSH c then
    match decode_ring_push c request with
    | None => (Returned INVALID_MESSAGE, r)
    | Some (len, data) =>
      if negb (len =? zlength data) then (Returned INVALID_MESSAGE, r)
      else if negb (zlength data =? 0) && negb (rm_buffer mem) then (Returned RESOURCE_EXHAUSTED, r)
      else
        let '(status, r') := SharedRing.push r data (rm_vector mem) (rm_leftover mem) in
        if negb (status_ok status) then (Replied [] [] (status_code status), r')
        else (encoded_reply (encode_ring_push c), r')
    end
  else if method_id =? METHOD_RING_POP c then
    match decode_ring_pop c request with
    | None => (Returned INVALID_MESSAGE, r)
    | Some capacity =>
      let '(status, snapshot, r1) := SharedRing.claim_pop r (rm_vector mem) (rm_leftover mem) in
      if negb (status_ok status) then (Replied [] [] (status_code status), r1)
      else
        let r2 := (run_ops ring_step r1 others).2 in
        if capacity <? zlength snapshot then
          let r3 := SharedRing.cancel_pop r2 in
          match encode_ring_pop c (zlength snapshot) [] with
          | None => (Returned RESOURCE_EXHAUSTED, SharedRing.cancel_pop r3)
          | Some bytes => (Replied bytes [] 0, r3)
          end
        else
          match encode_ring_pop c (zlength snapshot) (take (Z.to_nat (u32 (zlength snapshot))) snapshot) with
          | None => (Returned RESOURCE_EXHAUSTED, SharedRing.cancel_pop r2)
          | Some bytes =>
            let '(status', r3) := SharedRing.commit_pop r2 in
            if negb (status_ok status') then (Replied [] [] (status_code status'), r3) else (Replied bytes [] 0, r3)
          end
    end
  else (Returned NOT_SUPPORTED, r).

Definition dispatch_shared_ring (c : ring_codec) (target : metadata) (r : shared_ring) (method_id : Z)
    (request : list Z) (mem : ring_memory) (others : list ring_op) : view_result * shared_ring :=
  if negb (m_scope target =? SCOPE_SHARED_RING c) then (Returned WRONG_SCOPE, r)
  else if (method_id =? METHOD_RING_GET_INFO c)
          && (negb (has_flag (m_meta_rights target) RIGHT_INSPECT)
              || negb (has_flag (m_protocol_rights target) RING_RIGHT_INFO)) then (Returned ACCESS_DENIED, r)
  else if (method_id =? METHOD_RING_PUSH c) && negb (has_flag (m_protocol_rights target) RING_RIGHT_PUSH)
  then (Returned ACCESS_DENIED, r)
  else if (method_id =? METHOD_RING_POP c) && negb (has_flag (m_protocol_rights target) RING_RIGHT_POP)
  then (Returned ACCESS_DENIED, r)
  else publish_shared_ring_call c r method_id request mem others.

(** ** The worker *)

Section worker.
Context {M : Type} `{HandleMap M}.
Abbreviation table := (resource_table M).

(** [execute_kernel_dispatch]: [result] is what the method of the target asks
    for; [before] and [after] are the calls that other threads make on the
    invocation while the method runs and before the worker looks at it
    again. *)
Definition execute_kernel_dispatch (i : invocation_state) (g : globals) (caller : option table)
    (rs : list transfer_record) (result : view_result) (before after : list (invocation_call (M := M)))
    : invocation_state * globals * option table * list transfer_record :=
  let '(received, _, i1) := begin_receive i in
  if negb received then
    match caller with
    | Some t => let '(_, rs', _, t') := restore_native_batch t rs in (i1, g, Some t', rs')
    | None => (i1, g, None, rs)
    end
  else
    match caller with
    | None => ((answer i1 (Replied [] [] ECHILD)).2, g, None, rs)
    | Some t =>
      let '(_, i2, g2) := call_run before (mark_dispatched i1) g in
      let '(status, i3) := answer i2 result in
      let '(restored, rs', _, t') := restore_native_batch t rs in
      if negb (status_ok restored) then ((answer i3 (Replied [] [] EIO)).2, g2, Some t', rs')
      else
        let '(_, i4, g4) := call_run after i3 g2 in
        if i_cancellation_requested i4
        then ((complete_failure i4 EXECUTION_OUTCOME_UNKNOWN REASON_CANCEL_REQUESTED 0).2, g4, Some t', rs')
        else if execution_interrupted i4 then (i4, g4, Some t', rs')
        else if bool_decide (status = NOT_SUPPORTED) then ((answer i4 (Replied [] [] ENOTSUP)).2, g4, Some t', rs')
        else if negb (status_ok status) then ((answer i4 (Replied [] [] EINVAL)).2, g4, Some t', rs')
        else (i4, g4, Some t', rs')
    end.

(** The calls of the client and of the timer on a call that a worker holds. *)
Definition client_call (c : invocation_call (M := M)) : bool :=
  match c with
  | CCancel None | CExpire | CCloseClient | CClaim _ _ | CRestore _ _ | CCommit => true
  | _ => false
  end.

Definition settled (i : invocation_state) : Prop := completed i = true ∨ i_client_closed i = true.
Definition answerable (i : invocation_state) : Prop := settled i ∨ i_responder_alive i = true.

Lemma publish_settles i outcome reason bytes rs error :
  settled (publish_locked_no_wake i outcome reason bytes rs error).2.
Proof.
  unfold publish_locked_no_wake, settled. destruct (completed i) eqn:Hc; [by left|].
  destruct (i_client_closed i) eqn:Hcl; [by right|]. by left.
Qed.

Lemma answer_settles i bytes rs error : settled (answer i (Replied bytes rs error)).2.
Proof.
  unfold answer. pose proof (publish_settles i EXECUTION_NONE REASON_NONE bytes rs error).
  by destruct (publish_locked_no_wake _ _ _ _ _ _).
Qed.

(** The two ends of the call. *)
Definition ends (i : invocation_state) : bool * bool := (i_client_closed i, i_responder_alive i).

Lemma publish_ends i outcome reason bytes rs error :
  ends (publish_locked_no_wake i outcome reason bytes rs error).2 = ends i.
Proof. unfold publish_locked_no_wake. by destruct (_ || _). Qed.

Lemma release_ends i g : ends (release_result_budget_locked i g).1 = ends i.
Proof. unfold release_result_budget_locked. by destruct (i_result_budget_reserved i). Qed.

Lemma claim_ends i now f : ends (claim_result i now f).2 = ends i.
Proof.
  unfold claim_result. case_bool_decide; [done|].
  set (i1 := if negb (bool_decide (i_phase i = ready)) && deadline_passed i now then _ else i).
  assert (ends i1 = ends i) as <- by (subst i1; destruct (negb _ && _); [apply publish_ends|done]).
  clearbody i1. repeat case_match; done.
Qed.

Lemma client_call_ends c i g :
  client_call c = true →
  let i' := (call_step c i g).1.2 in ends i' = ends i ∨ settled i'.
Proof.
  intros Hc. destruct c as [| | | | | |[]| | | | | | | | | | | |]; try done; cbn [call_step].
  - left. unfold cancel_locked, publish_empty. destruct (i_phase i); try done.
    pose proof (publish_ends (set_cancellation true i) EXECUTION_NOT_DELIVERED REASON_CANCEL_REQUESTED [] [] 0).
    by destruct (publish_locked_no_wake _ _ _ _ _ _).
  - unfold expire_locked, publish_empty. destruct (i_phase i); try (left; done); right;
      destruct (publish_locked_no_wake _ _ _ _ _ _) as [pub i'] eqn:E; simpl; change i' with (pub, i').2; rewrite <- E;
      apply publish_settles.
  - right. unfold close_client. pose proof (release_ends (set_response [] [] (set_client_closed true i)) g) as He.
    destruct (release_result_budget_locked _ g) as [i' g']. right. by injection He.
  - left. pose proof (claim_ends i now frame). by destruct (claim_result i now frame) as [[[[]]]].
  - left. unfold restore_result. by destruct (_ || _).
  - left. unfold commit_result. destruct (_ || _); [by case_bool_decide|].
    pose proof (release_ends (set_response [] [] (set_result_claimed false (set_phase consumed i))) g).
    by destruct (release_result_budget_locked _ g).
Qed.

Lemma client_call_answerable c i g : client_call c = true → answerable i → answerable (call_step c i g).1.2.
Proof.
  intros Hc Ha. destruct (client_call_ends c i g Hc) as [He|Hs]; [|by left]. injection He as Hcl Hr.
  pose proof (call_step_lawful c i g) as Hlaw. destruct (call_step c i g) as [[[pub con] i1] g1]. simpl in *.
  destruct Ha as [[Hs|Hs]|Ha]; [left; left; by destruct (lw_final _ _ _ _ Hlaw Hs)|left; right; congruence|].
  right. congruence.
Qed.

Lemma client_run_answerable cs i g :
  Forall (λ c, client_call c = true) cs → answerable i → answerable (call_run cs i g).1.2.
Proof.
  intros Hcs. apply call_run_invariant. eapply Forall_impl; [exact Hcs|]. intros c Hc j g'. by apply client_call_answerable.
Qed.

Lemma run_final cs i g :
  completed i = true → completed (call_run cs i g).1.2 = true ∧ outcome_of (call_run cs i g).1.2 = outcome_of i.
Proof.
  intros Hc. apply (call_run_invariant (λ j, completed j = true ∧ outcome_of j = outcome_of i)); [|done].
  apply Forall_true. intros c j g' [Hj Ho]. pose proof (call_step_lawful c j g') as Hlaw.
  destruct (call_step c j g') as [[[pub con] i1] g1]. simpl. destruct (lw_final _ _ _ _ Hlaw Hj) as [? ->]. done.
Qed.

Lemma answer_final i result :
  completed i = true → completed (answer i result).2 = true ∧ outcome_of (answer i result).2 = outcome_of i.
Proof. intros Hc. destruct result; [done|]. unfold answer, publish_locked_no_wake. by rewrite Hc. Qed.

Lemma client_run_settled cs i g :
  Forall (λ c, client_call c = true) cs → settled i → settled (call_run cs i g).1.2.
Proof.
  intros Hcs. apply call_run_invariant. eapply Forall_impl; [exact Hcs|]. intros c Hc j g' Hs.
  destruct (client_call_ends c j g' Hc) as [He|?]; [|done]. injection He as Hcl _.
  destruct Hs as [Hs|Hs]; [left|right; congruence]. pose proof (call_step_lawful c j g') as Hlaw.
  destruct (call_step c j g') as [[[pub con] i1] g1]. by destruct (lw_final _ _ _ _ Hlaw Hs).
Qed.

Lemma begin_receive_answerable i woke i1 : begin_receive i = (true, woke, i1) → answerable (mark_dispatched i1).
Proof.
  intros Hb. right. unfold begin_receive in Hb. destruct (negb _); [done|].
  destruct (_ || _) eqn:E; [by destruct (publish_empty _ _ _)|]. injection Hb as _ <-.
  apply orb_false_iff in E as [_ E]. apply negb_false_iff in E. done.
Qed.

(** What the worker finds after the method. *)
Lemma answer_cases i result status i' :
  answer i result = (status, i') → answerable i → result ≠ Returned STATUS_OK →
  answerable i' ∧ (status = STATUS_OK → settled i') ∧
  ∀ bytes rs error, result = Replied bytes rs error → completed i = false → i_client_closed i = false →
    completed i' = true ∧ outcome_of i' = (EXECUTION_NONE, REASON_NONE, canonical_error error).
Proof.
  intros Han Ha Hr. destruct result as [s|bytes rs error].
  { injection Han as -> <-. split_and!; [done|intros ->; done|done]. }
  pose proof (answer_settles i bytes rs error) as Hs. rewrite Han in Hs. split_and!; [by left|done|].
  intros b r e [= <- <- <-] Hc Hcl. unfold answer, publish_locked_no_wake in Han. rewrite Hc, Hcl in Han.
  by injection Han as _ <-.
Qed.

End worker.

(** ** Rights *)

Lemma encoded_reply_not_silent e : encoded_reply e ≠ Returned STATUS_OK.
Proof. by destruct e. Qed.

(** The methods reply or return an error. *)
Lemma dispatch_memory_object_not_silent c target m method_id request allocated :
  (dispatch_memory_object c target m method_id request allocated).1 ≠ Returned STATUS_OK.
Proof.
  unfold dispatch_memory_object, publish_memory_object_call.
  repeat (case_match; simpl; try done; try apply encoded_reply_not_silent).
Qed.

Lemma dispatch_shared_ring_not_silent c target r method_id request mem others :
  (dispatch_shared_ring c target r method_id request mem others).1 ≠ Returned STATUS_OK.
Proof.
  unfold dispatch_shared_ring, publish_shared_ring_call.
  repeat (case_match; simpl; try done; try apply encoded_reply_not_silent).
Qed.

Lemma guard_passed a b : a && negb b = false → a = true → b = true.
Proof. by destruct a, b. Qed.

(** A method other than a write leaves the object alone. *)
Lemma publish_memory_changes c m method_id request allocated :
  (publish_memory_object_call c m method_id request allocated).2 ≠ m →
  method_id = METHOD_MEMORY_WRITE c ∧ method_id ≠ METHOD_MEMORY_READ c ∧ method_id ≠ METHOD_MEMORY_GET_INFO c ∧
  has_flag (MemoryObject.flags_ m) MEMORY_FLAG_READ_ONLY = false.
Proof.
  unfold publish_memory_object_call. destruct (Z.eqb_spec method_id (METHOD_MEMORY_GET_INFO c)); [by case_match|].
  destruct (Z.eqb_spec method_id (METHOD_MEMORY_READ c)); [repeat (case_match; simpl; try done)|].
  destruct (Z.eqb_spec method_id (METHOD_MEMORY_WRITE c)) as [->|]; [|done].
  destruct (decode_memory_write c request) as [[[offset len] data]|]; [|done]. destruct (negb _); [done|].
  unfold MemoryObject.write, MemoryObject.writable. rewrite andb_false_r.
  destruct (has_flag _ _); [done|]. intros _. done.
Qed.

Lemma publish_memory_size c m method_id request allocated :
  MemoryObject.size (publish_memory_object_call c m method_id request allocated).2 = MemoryObject.size m.
Proof.
  unfold publish_memory_object_call, MemoryObject.write, MemoryObject.size.
  repeat (case_match; simplify_eq/=; try done; try apply zlength_copy).
Qed.

(** Only the three methods reply. *)
Lemma publish_memory_discloses c m method_id request allocated bytes rs error :
  (publish_memory_object_call c m method_id request allocated).1 = Replied bytes rs error →
  (method_id = METHOD_MEMORY_GET_INFO c ∨ method_id = METHOD_MEMORY_READ c ∨ method_id = METHOD_MEMORY_WRITE c).
Proof.
  unfold publish_memory_object_call. destruct (Z.eqb_spec method_id (METHOD_MEMORY_GET_INFO c)); [by left|].
  destruct (Z.eqb_spec method_id (METHOD_MEMORY_READ c)); [by right; left|].
  destruct (Z.eqb_spec method_id (METHOD_MEMORY_WRITE c)); [by right; right|done].
Qed.

(** A capability of a memory object permits what its rights name and no
    more.  Through a capability the object changes only by a write, with the
    write right and on an object that is not read-only; a reply is only given
    for a read with the read right, for a write with the write right, or for
    the size and flags with both the inspect right and the info right; and
    every other request is refused with an error and no reply. *)
Theorem memory_calls_respect_rights c target m method_id request allocated :
  let '(result, m') := dispatch_memory_object c target m method_id request allocated in
  (m' ≠ m → method_id = METHOD_MEMORY_WRITE c ∧ has_flag (m_protocol_rights target) MEMORY_RIGHT_WRITE = true
            ∧ has_flag (MemoryObject.flags_ m) MEMORY_FLAG_READ_ONLY = false ∧ MemoryObject.size m' = MemoryObject.size m) ∧
  match result with
  | Returned status => status ≠ STATUS_OK
  | Replied _ _ _ =>
    m_scope target = SCOPE_MEMORY_OBJECT c ∧
    ((method_id = METHOD_MEMORY_READ c ∧ has_flag (m_protocol_rights target) MEMORY_RIGHT_READ = true)
     ∨ (method_id = METHOD_MEMORY_WRITE c ∧ has_flag (m_protocol_rights target) MEMORY_RIGHT_WRITE = true)
     ∨ (method_id = METHOD_MEMORY_GET_INFO c ∧ has_flag (m_meta_rights target) RIGHT_INSPECT = true
        ∧ has_flag (m_protocol_rights target) MEMORY_RIGHT_INFO = true))
  end.
Proof.
  pose proof (dispatch_memory_object_not_silent c target m method_id request allocated) as Hns.
  unfold dispatch_memory_object in *. destruct (Z.eqb_spec (m_scope target) (SCOPE_MEMORY_OBJECT c)) as [Hs|]; [|done].
  cbn [negb] in *. rewrite <- negb_andb in *.
  destruct (_ && negb _) eqn:H1 in Hns |- *; [done|]. destruct (_ && negb _) eqn:H2 in Hns |- *; [done|].
  destruct (_ && negb _) eqn:H3 in Hns |- *; [done|]. pose proof (guard_passed _ _ H1) as G1.
  pose proof (guard_passed _ _ H2) as G2. pose proof (guard_passed _ _ H3) as G3.
  pose proof (publish_memory_changes c m method_id request allocated) as Hch.
  pose proof (publish_memory_discloses c m method_id request allocated) as Hdis.
  pose proof (publish_memory_size c m method_id request allocated) as Hsz.
  destruct (publish_memory_object_call c m method_id request allocated) as [result m']. cbn [fst snd] in *.
  split.
  - intros Hne. destruct (Hch Hne) as (-> & _ & _ & ?). split; [done|]. split; [|done]. apply G3, Z.eqb_refl.
  - destruct result as [status|bytes rs error]; [congruence|]. split; [done|].
    destruct (Hdis _ _ _ eq_refl) as [Hm|[Hm|Hm]]; apply Z.eqb_eq in Hm as Hm'.
    + right. right. specialize (G1 Hm'). by apply andb_true_iff in G1.
    + left. auto.
    + right. left. auto.
Qed.

(** ** Popping from a ring *)

(** The snapshot of a claimed message is sent whole. *)
Lemma take_snapshot (x : list Z) :
  zlength x ≤ SHARED_RING_MAX_SLOT_BYTES → take (Z.to_nat (u32 (zlength x))) x = x.
Proof.
  unfold SHARED_RING_MAX_SLOT_BYTES. intros Hx. rewrite u32_small by (unfold zlength in *; lia).
  unfold zlength. by rewrite take_ge by lia.
Qed.

Lemma claim_pop_cases r allocated leftover :
  ring_wf r →
  let '(status, snapshot, r') := SharedRing.claim_pop r allocated leftover in
  if status_ok status
  then SharedRing.pop_claimed_ r = false ∧ r' = SharedRing.set_claimed true r ∧ ∃ rest, ring_items r = snapshot :: rest
  else r' = r.
Proof.
  intros Hwf. unfold SharedRing.claim_pop. destruct (_ || _) eqn:E; [done|]. destruct (SharedRing.pop_claimed_ r); [done|].
  destruct (_ && _); [done|]. rewrite copy_whole. apply orb_false_iff in E as [_ E]. apply Z.eqb_neq in E.
  pose proof (rwf_count r Hwf). rewrite (ring_head r Hwf) by lia. simpl. eauto.
Qed.

(** A pop call takes off exactly the message it returns.  It claims the
    oldest message; when the caller's capacity holds it, the reply carries it
    whole and it leaves the ring; when it does not, or the reply cannot be
    encoded, the message stays the oldest one and the reply, if any, carries
    its size.  What the other workers push meanwhile is queued behind, and the
    claim is given up in every case. *)
Theorem pop_call_takes_head c r request mem others capacity :
  ring_wf r → ring_bounded r → Forall (λ op, other_worker op = true) others →
  METHOD_RING_POP c ≠ METHOD_RING_GET_INFO c → METHOD_RING_POP c ≠ METHOD_RING_PUSH c →
  decode_ring_pop c request = Some capacity →
  let '(status, snapshot, r1) := SharedRing.claim_pop r (rm_vector mem) (rm_leftover mem) in
  let '(result, r') := publish_shared_ring_call c r (METHOD_RING_POP c) request mem others in
  ring_wf r' ∧ ring_bounded r' ∧
  if status_ok status then
    ∃ rest, ring_items r = snapshot :: rest ∧ SharedRing.pop_claimed_ r' = false ∧
    let queued := rest ++ accepted others (run_ops ring_step r1 others).1 in
    if zlength snapshot <=? capacity
    then result = encoded_reply (encode_ring_pop c (zlength snapshot) snapshot) ∧
         ring_items r' = if bool_decide (encode_ring_pop c (zlength snapshot) snapshot = None)
                         then snapshot :: queued else queued
    else result = encoded_reply (encode_ring_pop c (zlength snapshot) []) ∧ ring_items r' = snapshot :: queued
  else result = Replied [] [] (status_code status) ∧ r' = r.
Proof.
  intros Hwf Hb Hothers Hm1 Hm2 Hd. unfold publish_shared_ring_call.
  rewrite (proj2 (Z.eqb_neq _ _) Hm1), (proj2 (Z.eqb_neq _ _) Hm2), Z.eqb_refl, Hd.
  pose proof (claim_pop_cases r (rm_vector mem) (rm_leftover mem) Hwf) as Hcl.
  destruct (SharedRing.claim_pop _ _ _) as [[status snapshot] r1]. destruct (status_ok status); cbn [negb];
    [|by subst]. destruct Hcl as (_ & -> & rest & Hi).
  assert (zlength snapshot ≤ SHARED_RING_MAX_SLOT_BYTES) as Hx.
  { destruct Hb as [? Hf]. rewrite Hi in Hf. inversion Hf; subst. lia. }
  rewrite (take_snapshot snapshot) by done.
  assert (ring_wf (SharedRing.set_claimed true r)) as Hwf1.
  { destruct Hwf. pose proof (ring_items_length r ltac:(done)) as Hl. rewrite Hi in Hl. simpl in Hl.
    split; try done. simpl. lia. }
  pose proof (other_workers_keep_claim (SharedRing.set_claimed true r) snapshot rest others Hwf1 Hb eq_refl Hi Hothers) as Ho.
  destruct (run_ops ring_step (SharedRing.set_claimed true r) others) as [results r2]. cbn [fst snd].
  destruct Ho as (Hwf2 & Hb2 & Hc2 & Hi2).
  destruct (ring_step_refines r2 RingCancel Hwf2) as (Hwf3 & _ & _). pose proof (ring_step_bounded r2 RingCancel Hwf2 Hb2) as Hb3.
  destruct (Z.ltb_spec capacity (zlength snapshot)), (Z.leb_spec (zlength snapshot) capacity); try lia.
  - destruct (encode_ring_pop c (zlength snapshot) []); simpl; eauto 10.
  - destruct (encode_ring_pop c (zlength snapshot) snapshot) as [bytes|] eqn:He; [|simpl; eauto 10].
    pose proof (commit_pop_refines r2 Hwf2) as Hcm. pose proof (ring_step_bounded r2 RingCommit Hwf2 Hb2) as Hb4.
    unfold ring_step in Hb4. destruct (SharedRing.commit_pop r2) as [status' r3]. destruct Hcm as (Hwf4 & _ & Hst).
    unfold ring_spec, fifo_commit, ring_fifo in Hst. cbn [fifo_claimed fifo_items fifo_limit] in Hst.
    rewrite Hc2, Hi2 in Hst. injection Hst as <- _ Hq Hc4. simpl. eauto 10.
Qed.

(** ** The errors a client reads *)

(** The statuses of memory objects and rings reach the client as unrelated
    error numbers.  The methods reply with the number of a status where the
    other kernel views reply with an error number, and the client reads it as
    one: a pop from an empty ring, which would block, reads as 8 ([ENOEXEC])
    and not as 11 ([EAGAIN]); an extent outside the object reads as 5
    ([EIO]) and a write to a read-only one as 4 ([EINTR]). *)
Theorem status_replies_read_as_errnos i status f a b rb rr :
  completed i = false → i_client_closed i = false → status ≠ STATUS_OK →
  result_errno (fill_result f (answer i (Replied [] [] (status_code status))).2 a b rb rr) = status_code status ∧
  ∀ c r request mem others capacity,
    METHOD_RING_POP c ≠ METHOD_RING_GET_INFO c → METHOD_RING_POP c ≠ METHOD_RING_PUSH c →
    decode_ring_pop c request = Some capacity → ring_wf r → ring_items r = [] →
    result_errno (fill_result f (answer i (publish_shared_ring_call c r (METHOD_RING_POP c) request mem others).1).2
                    a b rb rr) = 8.
Proof.
  intros Hc Hcl Hst.
  assert (∀ s, s ≠ STATUS_OK →
    result_errno (fill_result f (answer i (Replied [] [] (status_code s))).2 a b rb rr) = status_code s) as Hall.
  { intros s Hs. unfold answer, publish_locked_no_wake. rewrite Hc, Hcl. by destruct s. }
  split; [by apply Hall|]. intros c r request mem others capacity Hm1 Hm2 Hd Hwf Hi. unfold publish_shared_ring_call.
  rewrite (proj2 (Z.eqb_neq _ _) Hm1), (proj2 (Z.eqb_neq _ _) Hm2), Z.eqb_refl, Hd.
  unfold SharedRing.claim_pop. pose proof (ring_items_length r Hwf) as Hl. rewrite Hi in Hl. simpl in Hl.
  rewrite <- Hl, Z.eqb_refl, orb_true_r. by apply (Hall WOULD_BLOCK).
Qed.

(** ** Samples *)

Module Sample.
(** Codecs that put each field in one element. *)
Definition memory : memory_codec :=
  Build_memory_codec 1 2 3 7 (λ l, bool_decide (l = [])) (λ f s n, Some [f; s; n])
    (λ l, match l with [o; s] => Some (o, s) | _ => None end) Some
    (λ l, match l with o :: s :: d => Some (o, s, d) | _ => None end) (λ n, Some [n]).
Definition ring : ring_codec :=
  Build_ring_codec 1 2 3 8 (λ l, bool_decide (l = [])) (λ a b q, Some [a; b; q])
    (λ l, match l with s :: d => Some (s, d) | _ => None end) (Some [])
    (λ l, match l with [n] => Some n | _ => None end) (λ n d, Some (n :: d)).
Definition mem : ring_memory := Build_ring_memory true true [].
Definition two : shared_ring :=
  (run_ops ring_step (SharedRing.make_shared_ring 4 16 0 true (λ _, true)) [RingPush [5; 6] true []; RingPush [7] true []]).2.
Definition call : invocation_state := make_invocation 0 3 0 64 4.
Definition frame : result_frame := Build_result_frame 0 0 0 0 0 0 0 0 0 0 0 0 0 0.
Definition target : metadata := Build_metadata BINDING_KERNEL_VIEW [] 7 1 0 15 2.
Definition table0 : resource_table (gmap Z entry) := make_resource_table 1.

Definition ops : list ring_op := [RingPush [1] true []; RingClaim true []; RingPush [2; 3] true []; RingCommit].
Definition run : list (na_status * list Z) * shared_ring :=
  run_ops ring_step (SharedRing.make_shared_ring 2 8 0 true (λ _, true)) ops.

Lemma run_delivered : DataPlane.delivered [] ops run.1 = [[1]].
Proof. vm_compute. reflexivity. Qed.

Lemma two_wf : ring_wf two ∧ ring_bounded two.
Proof.
  split; [split; try (vm_compute; done); vm_compute; split; congruence|].
  split; [vm_compute; discriminate|]. vm_compute. repeat constructor; discriminate.
Qed.

Lemma empty_wf : ring_wf (SharedRing.make_shared_ring 4 16 0 true (λ _, true)).
Proof. apply make_shared_ring_wf; vm_compute; repeat split; congruence. Qed.
End Sample.

Lemma shared_ring_refines_fifo_witness :
  let ops := [RingClaim true []; RingPush [9] true []; RingCommit; RingCancel] in
  run_ops (ring_spec 16) (ring_fifo Sample.two) ops
    = ((run_ops ring_step Sample.two ops).1, ring_fifo (run_ops ring_step Sample.two ops).2).
Proof. intros ops. apply (shared_ring_refines_fifo Sample.two ops). apply Sample.two_wf. Defined.

Lemma ring_delivers_exactly_once_witness : accepted Sample.ops Sample.run.1 = [[1]] ++ ring_items Sample.run.2.
Proof.
  pose proof (ring_delivers_exactly_once 2 8 0 Sample.ops ltac:(vm_compute; split; congruence)
                ltac:(vm_compute; split; congruence) ltac:(vm_compute; discriminate)) as H.
  cbv zeta in H. change (run_ops ring_step _ Sample.ops) with Sample.run in H. rewrite <- Sample.run_delivered.
  destruct Sample.run as [results r']. exact (proj1 (proj2 H)).
Defined.

Lemma pop_call_takes_head_witness :
  let '(result, r') := publish_shared_ring_call Sample.ring Sample.two 3 [8] Sample.mem [RingPush [4] true []] in
  result = Replied [2; 5; 6] [] 0 ∧ ring_items r' = [[7]; [4]].
Proof.
  pose proof (pop_call_takes_head Sample.ring Sample.two [8] Sample.mem [RingPush [4] true []] 8
    (proj1 Sample.two_wf) (proj2 Sample.two_wf) ltac:(repeat constructor) ltac:(discriminate) ltac:(discriminate) eq_refl) as H.
  change (METHOD_RING_POP Sample.ring) with 3 in H.
  destruct (publish_shared_ring_call Sample.ring Sample.two 3 [8] Sample.mem [RingPush [4] true []]) as [result r'].
  assert (SharedRing.claim_pop Sample.two (rm_vector Sample.mem) (rm_leftover Sample.mem)
          = (STATUS_OK, [5; 6], SharedRing.set_claimed true Sample.two)) as E by (vm_compute; reflexivity).
  rewrite E in H. destruct H as (_ & _ & rest & Hi & _ & H). cbn in H.
  assert (rest = [[7]]) as -> by (injection Hi as <-; vm_compute; reflexivity).
  destruct H as [-> ->]. split; reflexivity.
Defined.


Lemma status_replies_read_as_errnos_witness :
  result_errno (fill_result Sample.frame (answer Sample.call
    (publish_shared_ring_call Sample.ring (SharedRing.make_shared_ring 4 16 0 true (λ _, true)) 3 [8] Sample.mem []).1).2
    0 0 0 0) = 8.
Proof.
  destruct (status_replies_read_as_errnos Sample.call WOULD_BLOCK Sample.frame 0 0 0 0 eq_refl eq_refl ltac:(discriminate)) as [_ H].
  apply (H Sample.ring _ _ _ _ 8); [discriminate|discriminate|reflexivity|apply Sample.empty_wf|reflexivity].
Defined.
