(* ===== verification/ServiceDirectory.v ===== *)
(** The service directory, includes/kernel/service_directory.hpp and
    src/kernel/service_directory.cc: the registry of named services and of
    listeners that the kernel keeps behind the [ServiceDirectory] capability.

    Names are byte strings.  Every mutation runs under [allocation_lock_], so
    an operation is one function; it returns the error number, the directory
    and the capability hooks it ran, in order.  The results of the
    allocations, the channel and descriptor that an object stands for and
    whether it is unique are arguments.  [vector::remove_at] belongs to the
    container library: it is a parameter that takes one element out and may
    reorder the rest. *)
From stdpp Require Import base list numbers gmap.
From S2P Require Import Prelude Abi Capability ResourceTable Channel ChannelSystem Invocation Protocol ProtocolCalls.

Local Open Scope Z_scope.
Set Default Proof Using "Type".

Import Errno.

(** ** Names *)

Definition slash : Z := 47.
Definition dot : Z := 46.

(** "naos://" and "naos://system/". *)
Definition uri_prefix : list Z := [110; 97; 111; 115; 58; 47; 47].
Definition system_prefix : list Z := uri_prefix ++ [115; 121; 115; 116; 101; 109; 47].

Definition uri_char (v : Z) : bool :=
  ((97 <=? v) && (v <=? 122)) || ((65 <=? v) && (v <=? 90)) || ((48 <=? v) && (v <=? 57))
  || (v =? 45) || (v =? 95) || (v =? dot) || (v =? 126).

(** The loop of [valid_uri] over the characters after the prefix. *)
Fixpoint uri_loop (chars : list Z) (segment_has_value segment_is_dot : bool) (segment_size : Z) : bool :=
  match chars with
  | [] => segment_has_value && negb segment_is_dot && negb (segment_size =? 2)
  | value :: rest =>
    if value =? slash then
      if negb segment_has_value || segment_is_dot || (segment_size =? 2) then false else uri_loop rest false true 0
    else if negb (uri_char value) then false
    else
      let size := segment_size + 1 in
      uri_loop rest true (if (2 <? size) || negb (value =? dot) then false else segment_is_dot) size
  end.

Definition valid_uri (uri : list Z) : bool :=
  if (Z.of_nat (length uri) <=? 7) || (255 <? Z.of_nat (length uri)) || negb (bool_decide (take 7 uri = uri_prefix))
  then false
  else uri_loop (drop 7 uri) false true 0.

(** ** The directory *)

Record service : Type := Build_service {
  s_uri : list Z;
  s_object : khandle;
  s_meta : metadata;
  s_one_shot : bool;
  s_owner : Z;
}.

Record listener : Type := Build_listener {
  l_uri : list Z;
  l_send : khandle;
  l_descriptor : khandle;
  l_max_pending : Z;
  l_owner : Z;
}.

Record directory : Type := Build_directory {
  entries_ : list service;
  listeners_ : list listener;
}.

Definition make_directory : directory := Build_directory [] [].

(** The index of the entry with a name; [None] is -1. *)
Definition find_locked (d : directory) (uri : list Z) : option nat :=
  fst <$> list_find (λ s, s_uri s = uri) (entries_ d).
Definition find_listener_locked (d : directory) (uri : list Z) : option nat :=
  fst <$> list_find (λ l, l_uri l = uri) (listeners_ d).

Definition release_table_root (o : khandle) : list cap_event :=
  match o with Some x => [Release x table_root] | None => [] end.
Definition release_entry (s : service) : list cap_event := release_table_root (s_object s).
Definition release_listener (l : listener) : list cap_event :=
  release_table_root (l_send l) ++ release_table_root (l_descriptor l).

(** What the objects of the listeners are when a call looks at them: the
    channel and side of a raw channel endpoint with a state, the descriptor
    of a protocol descriptor, whether a capability of the object is unique. *)
Record objects : Type := Build_objects {
  ob_channel : object → option (channel_state * Z);
  ob_descriptor : object → option protocol_descriptor;
  ob_unique : object → bool;
}.

Definition channel_of (ob : objects) (o : khandle) : option (channel_state * Z) :=
  match o with Some x => ob_channel ob x | None => None end.
Definition descriptor_of (ob : objects) (o : khandle) : option protocol_descriptor :=
  match o with Some x => ob_descriptor ob x | None => None end.

(** The allocations of a call: the stored name and the vector's capacity. *)
Record directory_memory : Type := Build_directory_memory {
  dm_string : bool;
  dm_capacity : bool;
}.

(** ** Operations *)

Section operations.
Variable remove_at : ∀ {A}, list A → nat → list A.

Definition remove_entry (d : directory) (i : nat) : directory :=
  Build_directory (remove_at (entries_ d) i) (listeners_ d).
Definition remove_listener (d : directory) (i : nat) : directory :=
  Build_directory (entries_ d) (remove_at (listeners_ d) i).

(** The record keeps its resource unless it was taken. *)
Definition with_resource (r : transferred_resource) (c : transfer_record) : transfer_record :=
  Build_record (c_source c) (c_moved c) r (c_token c).

Definition register_service (d : directory) (uri : list Z) (record : transfer_record) (one_shot : bool) (owner : Z)
    (mem : directory_memory) : Z * directory * transfer_record * list cap_event :=
  if negb (valid_uri uri) || negb (c_moved record) || negb (resource_valid (c_resource record))
  then (EINVAL, d, record, [])
  else if negb (dm_string mem) then (ENOMEM, d, record, [])
  else if negb (dm_capacity mem) then (ENOMEM, d, record, [])
  else if bool_decide (find_locked d uri ≠ None) then (EEXIST, d, record, [])
  else
    let '(object, taken, ev) := take_object_to_table (c_resource record) in
    let record' := with_resource taken record in
    match object with
    | None => (EINVAL, d, record', ev)
    | Some _ =>
      if bool_decide (find_locked d uri ≠ None) then (EEXIST, d, record', ev ++ release_table_root object)
      else (0, Build_directory (entries_ d ++ [Build_service uri object (t_meta (c_resource record)) one_shot owner])
                 (listeners_ d), record', ev)
    end.

(** The error, the resource handed out and the directory. *)
Definition resolve_service (d : directory) (uri : list Z) (ob : objects)
    : Z * transferred_resource * directory * list cap_event :=
  if negb (valid_uri uri) then (EINVAL, empty_resource, d, [])
  else
    match find_locked d uri ≫= λ i, (λ s, (i, s)) <$> entries_ d !! i with
    | None => (ENOENT, empty_resource, d, [])
    | Some (i, s) =>
      match s_object s with
      | None => (EIO, empty_resource, d, [])
      | Some o =>
        let one_shot := s_one_shot s || ob_unique ob o in
        let '(resource, ev) := make_transferred (Some o) (s_meta s) in
        if one_shot then (0, resource, remove_entry d i, ev ++ [Handoff o table_root in_transit])
        else (0, resource, d, ev)
      end
    end.

(** Whether a listener's endpoint still reaches a receiver. *)
Definition listener_live (ob : objects) (send : khandle) : bool :=
  match channel_of ob send with
  | Some (st, side) => negb (has_flag (signals st side) SIGNAL_PEER_CLOSED)
  | None => false
  end.

(** The endpoint and the descriptor belong to the caller's table roots when
    the call starts. *)
Definition listen_service (d : directory) (uri : list Z) (send_endpoint descriptor : khandle) (max_pending owner : Z)
    (ob : objects) (mem : directory_memory) : Z * directory * list cap_event :=
  let release_transferred := release_table_root send_endpoint ++ release_table_root descriptor in
  if negb (valid_uri uri) || (max_pending =? 0) || bool_decide (send_endpoint = None) || bool_decide (descriptor = None)
  then (EINVAL, d, release_transferred)
  else
    match channel_of ob send_endpoint, descriptor_of ob descriptor with
    | Some (st, _), Some _ =>
      if max_messages st <? max_pending then (EINVAL, d, release_transferred)
      else if negb (dm_string mem) then (ENOMEM, d, release_transferred)
      else if negb (dm_capacity mem) then (ENOMEM, d, release_transferred)
      else
        let added d' :=
          Build_directory (entries_ d') (listeners_ d' ++ [Build_listener uri send_endpoint descriptor max_pending owner]) in
        if bool_decide (find_locked d uri ≠ None) then (EEXIST, d, release_transferred)
        else
          match find_listener_locked d uri ≫= λ i, (λ l, (i, l)) <$> listeners_ d !! i with
          | None => (0, added d, [])
          | Some (i, old) =>
            if listener_live ob (l_send old) then (EEXIST, d, release_transferred)
            else (0, added (remove_listener d i), release_listener old)
          end
    | _, _ => (EINVAL, d, release_transferred)
    end.

Definition unregister_service (d : directory) (uri : list Z) (owner : Z) : Z * directory * list cap_event :=
  if negb (valid_uri uri) then (EINVAL, d, [])
  else
    match find_locked d uri ≫= λ i, (λ s, (i, s)) <$> entries_ d !! i with
    | None => (ENOENT, d, [])
    | Some (i, s) =>
      if negb (owner =? 0) && negb (s_owner s =? owner) then (EACCES, d, [])
      else (0, remove_entry d i, release_entry s)
    end.

(** The answer of a connect: the error, the client's capability with the
    selected revision and features, the directory, the hooks, the protocol
    world, what the enqueue did to the listener's channel, and the objects
    that lose their last reference. *)
Record connected : Type := Build_connected {
  cn_error : Z;
  cn_client : transferred_resource;
  cn_revision : Z;
  cn_features : Z;
  cn_directory : directory;
  cn_events : list cap_event;
  cn_world : pworld;
  cn_enqueued : option enqueue_result;
  cn_dropped : list object;
}.

(** What a connect asks for, and its allocations: the endpoint pair, the
    address of the message and whether it and its storage were allocated. *)
Record connect_request : Type := Build_connect_request {
  cq_uuid : list Z;
  cq_rights : Z;
  cq_revision : Z;
  cq_features : Z;
  cq_endpoints : endpoint_env;
  cq_message : Z;
  cq_message_ok : bool;
  cq_data_ok : bool;
}.

Definition create_errno (s : na_status) : Z :=
  match s with RESOURCE_EXHAUSTED => ENOMEM | ACCESS_DENIED => EACCES | INVALID_ARGUMENT => EINVAL | _ => EIO end.
Definition enqueue_errno (s : na_status) : Z :=
  match s with WOULD_BLOCK => EAGAIN | RESOURCE_EXHAUSTED => ENOMEM | _ => EIO end.

(** The second half, on the endpoint and descriptor of a live listener. *)
Definition connect_listener (scope_none scope_terminal_master scope_terminal_slave : Z) (d : directory)
    (st : channel_state) (side : Z) (descriptor : protocol_descriptor) (max_pending : Z) (q : connect_request)
    (w : pworld) (g : globals) : connected :=
  let refused error := Build_connected error empty_resource 0 0 d [] w None [] in
  if negb (bool_decide (pd_uuid descriptor = cq_uuid q)) then refused EINVAL
  else if negb (cq_revision q =? 0) && (pd_revision descriptor <? cq_revision q) then refused ENOTSUP
  else if negb (no_flag_outside (cq_features q) (pd_features descriptor)) then refused ENOTSUP
  else
    let rights := if cq_rights q =? 0 then pd_protocol_rights descriptor else cq_rights q in
    if negb (no_flag_outside rights (pd_protocol_rights descriptor)) then refused EACCES
    else
      match create_protocol_endpoint_objects scope_none scope_terminal_master scope_terminal_slave w descriptor None
              (cq_endpoints q) with
      | (STATUS_OK, Some (c, sv, client_meta, server_meta), w1) =>
        let client_meta' := with_protocol_rights (Z.lor rights PROTOCOL_RIGHT_INVOKE) client_meta in
        let '(sent, ev1) := make_transferred (Some sv) server_meta in
        let records := [Build_record HANDLE_INVALID true sent empty_token] in
        let message := make_message 0 1 true (cq_data_ok q) in
        if negb (cq_message_ok q) || negb (message_valid message)
        then Build_connected ENOMEM empty_resource 0 0 d (ev1 ++ [Release sv in_transit]) w1 None [c; sv]
        else
          let r := enqueue_kernel st g side (Some (cq_message q, message)) records max_pending in
          if negb (status_ok (er_status r))
          then Build_connected (enqueue_errno (er_status r)) empty_resource 0 0 d
                 (ev1 ++ er_events r ++ [Release sv in_transit]) w1 (Some r) [c; sv]
          else
            let '(resource, ev2) := make_transferred (Some c) client_meta' in
            Build_connected 0 resource (pd_revision descriptor) (pd_features descriptor) d (ev1 ++ er_events r ++ ev2) w1
              (Some r) []
      | (status, _, w1) => Build_connected (create_errno status) empty_resource 0 0 d [] w1 None []
      end.

Definition connect_service (scope_none scope_terminal_master scope_terminal_slave : Z) (d : directory) (uri : list Z)
    (q : connect_request) (ob : objects) (w : pworld) (g : globals) : connected :=
  let refused error d' ev := Build_connected error empty_resource 0 0 d' ev w None [] in
  if negb (valid_uri uri) then refused EINVAL d []
  else
    match find_listener_locked d uri ≫= λ i, (λ l, (i, l)) <$> listeners_ d !! i with
    | None => refused ENOENT d []
    | Some (i, l) =>
      match channel_of ob (l_send l), descriptor_of ob (l_descriptor l) with
      | Some (st, side), Some descriptor =>
        if has_flag (signals st side) SIGNAL_PEER_CLOSED then refused ENOENT (remove_listener d i) (release_listener l)
        else connect_listener scope_none scope_terminal_master scope_terminal_slave d st side descriptor (l_max_pending l)
               q w g
      | _, _ => refused ENOENT (remove_listener d i) (release_listener l)
      end
    end.

(** The listing loop: records so far, [next] and [count]. *)
Fixpoint list_loop (entries : list service) (requested_bytes : Z) (records : list Z) (i count : Z) : list Z * Z * Z :=
  match entries with
  | [] => (records, i, count)
  | s :: rest =>
    if u64 (requested_bytes - Z.of_nat (length records)) <? Z.of_nat (length (s_uri s)) + 1 then (records, i, count)
    else list_loop rest requested_bytes (records ++ s_uri s ++ [0]) (i + 1) (count + 1)
  end.

(** The error, the records, [next] and [count]; [ensured] says whether the
    records got their capacity. *)
Definition list_services (d : directory) (offset requested_bytes : Z) (ensured : bool) : Z * list Z * Z * Z :=
  if CHANNEL_MAX_MESSAGE_BYTES <? requested_bytes then (EINVAL, [], 0, 0)
  else if negb ensured then (ENOMEM, [], 0, 0)
  else if Z.of_nat (length (entries_ d)) <? offset then (EINVAL, [], 0, 0)
  else
    let '(records, next, count) := list_loop (drop (Z.to_nat offset) (entries_ d)) requested_bytes [] offset 0 in
    (0, records, next, count).

(** The loops of [cleanup_owner]: they end because every turn advances or
    removes, so the length is enough fuel. *)
Fixpoint cleanup_loop {A} (owned : A → bool) (fuel : nat) (l : list A) (i : nat) : list A * list A :=
  match fuel, l !! i with
  | S fuel', Some x =>
    if owned x then let '(kept, out) := cleanup_loop owned fuel' (remove_at l i) i in (kept, x :: out)
    else cleanup_loop owned fuel' l (S i)
  | _, _ => (l, [])
  end.

Definition cleanup_owner (d : directory) (owner : Z) : directory * list cap_event :=
  if owner =? 0 then (d, [])
  else
    let '(entries, objects) := cleanup_loop (λ s, s_owner s =? owner) (length (entries_ d)) (entries_ d) 0 in
    let '(listeners, endpoints) := cleanup_loop (λ l, l_owner l =? owner) (length (listeners_ d)) (listeners_ d) 0 in
    (Build_directory entries listeners, concat (release_entry <$> objects) ++ concat (release_listener <$> endpoints)).

(** The destructor. *)
Definition destroy_directory (d : directory) : list cap_event :=
  concat (release_entry <$> entries_ d) ++ concat (release_listener <$> listeners_ d).
End operations.
