(* ===== verification/ServiceFacts.v ===== *)
(** What the service directory of ServiceDirectory.v guarantees: which names it
    accepts, the finite map of services it implements, the accounting of the
    table roots it holds and the completeness of its listing. *)
From stdpp Require Import base list numbers gmap.
From S2P Require Import Prelude Abi BoundedQueue Capability ResourceTable Channel Protocol ProtocolCalls ServiceDirectory.

Local Open Scope Z_scope.
Set Default Proof Using "Type".
Import Errno.

(** ** Names *)

(** The parts of a name between slashes. *)
Fixpoint segments (chars current : list Z) : list (list Z) :=
  match chars with
  | [] => [current]
  | v :: rest => if v =? slash then current :: segments rest [] else segments rest (current ++ [v])
  end.

(** What the loop accepts as a segment. *)
Definition good_segment (s : list Z) : Prop :=
  s ≠ [] ∧ Forall (λ v, uri_char v = true) s ∧ s ≠ [dot] ∧ length s ≠ 2%nat.

(** What the loop remembers of the characters of the current segment. *)
Definition only_dots (s : list Z) : bool := (Z.of_nat (length s) <=? 2) && forallb (λ v, v =? dot) s.

Lemma only_dots_snoc s v :
  only_dots (s ++ [v]) = if (2 <? Z.of_nat (length s) + 1) || negb (v =? dot) then false else only_dots s.
Proof.
  unfold only_dots. rewrite length_app, forallb_app. simpl. rewrite andb_true_r.
  replace (Z.of_nat (length s + 1)) with (Z.of_nat (length s) + 1) by lia.
  destruct (Z.leb_spec (Z.of_nat (length s) + 1) 2), (Z.ltb_spec 2 (Z.of_nat (length s) + 1)); try lia; simpl; [|done].
  destruct (Z.leb_spec (Z.of_nat (length s)) 2); [|lia]. by destruct (v =? dot), (forallb _ s).
Qed.

Lemma good_segment_test s :
  Forall (λ v, uri_char v = true) s →
  good_segment s ↔
  negb (bool_decide (s = [])) && negb (only_dots s) && negb (Z.of_nat (length s) =? 2) = true.
Proof.
  intros Hs. unfold good_segment, only_dots. rewrite !andb_true_iff, !negb_true_iff, bool_decide_eq_false, Z.eqb_neq.
  split.
  - intros (Hne & _ & Hd & Hl). split_and!; [done| |lia]. apply not_true_iff_false. rewrite andb_true_iff, Z.leb_le.
    intros [Hle Hall]. destruct s as [|x [|y [|z s]]]; try done; [|simpl in Hle; lia].
    simpl in Hall. rewrite andb_true_r in Hall. apply Z.eqb_eq in Hall as ->. done.
  - intros ((Hne & Hd) & Hl). split_and!; [done|done| |lia]. intros ->. done.
Qed.

(** A character outside the alphabet spoils its segment. *)
Lemma segments_reject v chars current :
  uri_char v = false → v ∈ current → Forall good_segment (segments chars current) → False.
Proof.
  intros Hu. revert current. induction chars as [|x chars IH]; intros current Hin Hall; simpl in Hall.
  - apply Forall_singleton in Hall as (_ & Hall & _). rewrite Forall_forall in Hall.
    specialize (Hall v Hin). simpl in Hall. congruence.
  - destruct (x =? slash).
    + apply Forall_cons_1 in Hall as [(_ & Hall & _) _]. rewrite Forall_forall in Hall.
      specialize (Hall v Hin). simpl in Hall. congruence.
    + eapply IH; [|exact Hall]. apply elem_of_app. by left.
Qed.

Lemma uri_loop_spec chars current :
  Forall (λ v, uri_char v = true) current →
  uri_loop chars (negb (bool_decide (current = []))) (only_dots current) (Z.of_nat (length current)) = true
  ↔ Forall good_segment (segments chars current).
Proof.
  revert current. induction chars as [|v chars IH]; intros current Hc; simpl.
  { rewrite Forall_singleton. by rewrite good_segment_test. }
  destruct (Z.eqb_spec v slash) as [->|Hv].
  - rewrite Forall_cons, (good_segment_test current Hc), <- (IH [] (Forall_nil_2 _)). simpl.
    destruct (bool_decide (current = [])), (only_dots current), (Z.of_nat (length current) =? 2); simpl; intuition discriminate.
  - destruct (uri_char v) eqn:Hu; simpl.
    + rewrite <- IH by (apply Forall_app; split; [done|by apply Forall_singleton]).
      rewrite only_dots_snoc, length_app, bool_decide_eq_false_2 by (by destruct current). simpl.
      by replace (Z.of_nat (length current + 1)) with (Z.of_nat (length current) + 1) by lia.
    + split; [done|]. intros Hall.
      exfalso. eapply (segments_reject v); [done| |exact Hall]. apply elem_of_app. right. by apply list_elem_of_singleton.
Qed.

(** The directory accepts exactly the names of up to 255 bytes that start
    with naos:// and whose parts between slashes are all non-empty, made of
    letters, digits, -, _, . and ~, not a single dot, and not of two
    characters.  The last condition keeps out the part of two dots, and with
    it every other part of two characters: naos://system/fs is refused. *)
Theorem valid_uri_exact uri :
  (valid_uri uri = true ↔
   ∃ rest, uri = uri_prefix ++ rest ∧ rest ≠ [] ∧ (length uri ≤ 255)%nat ∧ Forall good_segment (segments rest [])) ∧
  valid_uri (system_prefix ++ [102; 115]) = false.
Proof.
  split; [|reflexivity]. unfold valid_uri. split.
  - destruct (Z.leb_spec (Z.of_nat (length uri)) 7); [done|]. destruct (Z.ltb_spec 255 (Z.of_nat (length uri))); [done|].
    case_bool_decide as Hp; [|done]. cbn [orb negb]. intros Hl.
    exists (drop 7 uri). rewrite <- Hp, take_drop. split_and!; [done| |lia|].
    + intros E. apply (f_equal length) in E. rewrite length_drop in E. simpl in E. lia.
    + apply (uri_loop_spec _ [] (Forall_nil_2 _)), Hl.
  - intros (rest & -> & Hne & Hl & Hs). rewrite length_app in *. change (length uri_prefix) with 7%nat in *.
    destruct (Z.leb_spec (Z.of_nat (7 + length rest)) 7).
    { destruct rest; [done|]. simpl in *. lia. }
    destruct (Z.ltb_spec 255 (Z.of_nat (7 + length rest))); [lia|].
    change (take 7 (uri_prefix ++ rest)) with uri_prefix. rewrite bool_decide_eq_true_2 by done. cbn [orb negb].
    change (drop 7 (uri_prefix ++ rest)) with rest. by apply (uri_loop_spec _ [] (Forall_nil_2 _)).
Qed.

(** ** Lists with a key *)

(** The finite map of a list whose elements carry their key. *)
Definition keyed {A} (key : A → list Z) (l : list A) : gmap (list Z) A := list_to_map ((λ x, (key x, x)) <$> l).

Section keyed.
Context {A : Type} (key : A → list Z).
Implicit Types (l : list A) (x : A) (k : list Z).

Lemma keyed_fst l : ((λ x, (key x, x)) <$> l).*1 = key <$> l.
Proof. rewrite <- list_fmap_compose. by apply list_fmap_ext. Qed.

Lemma keyed_lookup l k x : NoDup (key <$> l) → keyed key l !! k = Some x ↔ x ∈ l ∧ key x = k.
Proof.
  intros Hnd. unfold keyed. rewrite <- elem_of_list_to_map by (by rewrite keyed_fst).
  rewrite list_elem_of_fmap. split.
  - intros (y & [= -> ->] & Hy). done.
  - intros [Hx <-]. by exists x.
Qed.

Lemma keyed_absent l k : keyed key l !! k = None ↔ k ∉ key <$> l.
Proof. unfold keyed. rewrite <- keyed_fst. symmetry. apply not_elem_of_list_to_map. Qed.

Lemma keyed_perm l l' : NoDup (key <$> l) → l ≡ₚ l' → keyed key l = keyed key l'.
Proof. intros Hnd Hp. unfold keyed. apply list_to_map_proper; [by rewrite keyed_fst|by rewrite Hp]. Qed.

Lemma keyed_snoc l x : key x ∉ key <$> l → keyed key (l ++ [x]) = <[key x := x]> (keyed key l).
Proof.
  intros Hx. unfold keyed. rewrite fmap_app. simpl. apply list_to_map_snoc. by rewrite keyed_fst.
Qed.

Lemma keyed_cons l x : keyed key (x :: l) = <[key x := x]> (keyed key l).
Proof. done. Qed.

(** Looking an element up by its key and taking it out. *)
Lemma find_keyed l k :
  NoDup (key <$> l) →
  match (fst <$> list_find (λ x, key x = k) l) ≫= λ i, (λ x, (i, x)) <$> l !! i with
  | Some (i, x) => l !! i = Some x ∧ key x = k ∧ keyed key l !! k = Some x
  | None => keyed key l !! k = None
  end.
Proof.
  intros Hnd. destruct (list_find (λ x, key x = k) l) as [[i x]|] eqn:Hf; simpl.
  - apply list_find_Some in Hf as (Hi & Hk & _). rewrite Hi. simpl. split_and!; [done|done|].
    apply keyed_lookup; [done|]. split; [by eapply list_elem_of_lookup_2|done].
  - apply keyed_absent. rewrite list_elem_of_fmap. intros (x & -> & Hx).
    apply list_find_None in Hf. rewrite Forall_forall in Hf. by apply (Hf x).
Qed.

Lemma find_keyed_ne l k :
  NoDup (key <$> l) → fst <$> list_find (λ x, key x = k) l ≠ None ↔ keyed key l !! k ≠ None.
Proof.
  intros Hnd. pose proof (find_keyed l k Hnd) as Hf.
  destruct (list_find (λ x, key x = k) l) as [[i x]|] eqn:Hl; simpl in *; [|by rewrite Hf].
  apply list_find_Some in Hl as (Hi & _). rewrite Hi in Hf. simpl in Hf. destruct Hf as (_ & _ & ->). done.
Qed.

Lemma lookup_perm l i x : l !! i = Some x → l ≡ₚ x :: take i l ++ drop (S i) l.
Proof. intros Hi. rewrite <- (take_drop_middle l i x Hi) at 1. symmetry. apply Permutation_middle. Qed.

Lemma keyed_remove l l' x :
  NoDup (key <$> l) → l ≡ₚ x :: l' → NoDup (key <$> l') ∧ keyed key l' = delete (key x) (keyed key l).
Proof.
  intros Hnd Hp. assert (Hnd' : NoDup (key <$> x :: l')) by (by rewrite <- Hp). apply NoDup_cons in Hnd' as [Hx Hnd'].
  split; [done|]. rewrite (keyed_perm l (x :: l')) by done. rewrite keyed_cons, delete_insert_id; [done|].
  by apply keyed_absent.
Qed.

Lemma keyed_filter l l' out (P : A → bool) :
  NoDup (key <$> l) → l ≡ₚ out ++ l' → Forall (λ x, P x = true) out → Forall (λ x, P x = false) l' →
  NoDup (key <$> l') ∧ keyed key l' = filter (λ p, P p.2 = false) (keyed key l).
Proof.
  intros Hnd Hp Hout Hl'. assert (Hnd' : NoDup (key <$> out ++ l')) by (by rewrite <- Hp).
  rewrite fmap_app in Hnd'. apply NoDup_app in Hnd' as (_ & Hdis & Hnd'). split; [done|].
  apply map_eq. intros k. apply option_eq. intros x. rewrite map_lookup_filter_Some, !keyed_lookup, Hp, elem_of_app by done.
  simpl. rewrite Forall_forall in Hout, Hl'. split.
  - intros [Hx <-]. split_and!; auto.
  - intros [[[Hx|Hx] <-] HP]; [|done]. specialize (Hout x Hx). simpl in Hout. congruence.
Qed.
End keyed.

(** ** The directory as two finite maps *)

(** Taking an element out of a vector leaves the ones before it in place. *)
Definition removes (remove_at : ∀ A, list A → nat → list A) : Prop :=
  ∀ A (l : list A) i x, l !! i = Some x → ∃ rest, remove_at A l i = take i l ++ rest ∧ rest ≡ₚ drop (S i) l.

Section refinement.
Variable remove_at : ∀ A, list A → nat → list A.
Hypothesis remove_at_spec : removes remove_at.
Variables scope_none scope_terminal_master scope_terminal_slave : Z.

Abbreviation resolve_service := (resolve_service remove_at).
Abbreviation unregister_service := (unregister_service remove_at).
Abbreviation listen_service := (listen_service remove_at).
Abbreviation cleanup_owner := (cleanup_owner remove_at).
Abbreviation connect_service := (connect_service remove_at scope_none scope_terminal_master scope_terminal_slave).
Abbreviation connect_listener := (connect_listener scope_none scope_terminal_master scope_terminal_slave).

Record directory_wf (d : directory) : Prop := Build_directory_wf {
  dwf_services : NoDup (s_uri <$> entries_ d);
  dwf_listeners : NoDup (l_uri <$> listeners_ d);
  dwf_objects : Forall (λ s, s_object s ≠ None ∧ valid_uri (s_uri s) = true) (entries_ d);
  dwf_endpoints : Forall (λ l, l_send l ≠ None ∧ l_descriptor l ≠ None ∧ valid_uri (l_uri l) = true) (listeners_ d);
}.

Definition services (d : directory) : gmap (list Z) service := keyed s_uri (entries_ d).
Definition listeners (d : directory) : gmap (list Z) listener := keyed l_uri (listeners_ d).

(** One call, the error it returns and the capability it hands out. *)
Inductive directory_op : Type :=
| DRegister (uri : list Z) (record : transfer_record) (one_shot : bool) (owner : Z) (mem : directory_memory)
| DResolve (uri : list Z) (ob : objects)
| DUnregister (uri : list Z) (owner : Z)
| DListen (uri : list Z) (send descriptor : khandle) (max_pending owner : Z) (ob : objects) (mem : directory_memory)
| DConnect (uri : list Z) (request : connect_request) (ob : objects) (w : pworld) (g : globals)
| DCleanup (owner : Z).

Definition directory_step (d : directory) (op : directory_op) : (Z * transferred_resource) * directory :=
  match op with
  | DRegister uri record one_shot owner mem =>
    let '(error, d', _, _) := register_service d uri record one_shot owner mem in ((error, empty_resource), d')
  | DResolve uri ob => let '(error, resource, d', _) := resolve_service d uri ob in ((error, resource), d')
  | DUnregister uri owner => let '(error, d', _) := unregister_service d uri owner in ((error, empty_resource), d')
  | DListen uri send descriptor max_pending owner ob mem =>
    let '(error, d', _) := listen_service d uri send descriptor max_pending owner ob mem in ((error, empty_resource), d')
  | DConnect uri request ob w g =>
    let c := connect_service d uri request ob w g in ((cn_error c, cn_client c), cn_directory c)
  | DCleanup owner => ((0, empty_resource), (cleanup_owner d owner).1)
  end.

(** The registry the directory promises: names to services and names to
    listeners. *)
Definition registry : Type := gmap (list Z) service * gmap (list Z) listener.
Definition registry_of (d : directory) : registry := (services d, listeners d).

Definition registry_step (m : registry) (op : directory_op) : (Z * transferred_resource) * registry :=
  let refuse error := ((error, empty_resource), m) in
  match op with
  | DRegister uri record one_shot owner mem =>
    if negb (valid_uri uri) || negb (c_moved record) || negb (resource_valid (c_resource record)) then refuse EINVAL
    else if negb (dm_string mem) || negb (dm_capacity mem) then refuse ENOMEM
    else match m.1 !! uri with
         | Some _ => refuse EEXIST
         | None =>
           ((0, empty_resource),
            (<[uri := Build_service uri (t_object (c_resource record)) (t_meta (c_resource record)) one_shot owner]> m.1, m.2))
         end
  | DResolve uri ob =>
    if negb (valid_uri uri) then refuse EINVAL
    else match m.1 !! uri with
         | None => refuse ENOENT
         | Some s =>
           let resource := Build_transferred (s_object s) (s_meta s) true in
           if s_one_shot s || from_option (ob_unique ob) false (s_object s)
           then ((0, resource), (delete uri m.1, m.2)) else ((0, resource), m)
         end
  | DUnregister uri owner =>
    if negb (valid_uri uri) then refuse EINVAL
    else match m.1 !! uri with
         | None => refuse ENOENT
         | Some s => if negb (owner =? 0) && negb (s_owner s =? owner) then refuse EACCES
                     else ((0, empty_resource), (delete uri m.1, m.2))
         end
  | DListen uri send descriptor max_pending owner ob mem =>
    match channel_of ob send, descriptor_of ob descriptor with
    | Some (st, _), Some _ =>
      if negb (valid_uri uri) || (max_pending =? 0) || (max_messages st <? max_pending) then refuse EINVAL
      else if negb (dm_string mem) || negb (dm_capacity mem) then refuse ENOMEM
      else if bool_decide (m.1 !! uri ≠ None) || from_option (λ l, listener_live ob (l_send l)) false (m.2 !! uri)
      then refuse EEXIST
      else ((0, empty_resource), (m.1, <[uri := Build_listener uri send descriptor max_pending owner]> m.2))
    | _, _ => refuse EINVAL
    end
  | DConnect uri request ob w g =>
    if negb (valid_uri uri) then refuse EINVAL
    else match m.2 !! uri with
         | None => refuse ENOENT
         | Some l =>
           match channel_of ob (l_send l), descriptor_of ob (l_descriptor l) with
           | Some (st, side), Some descriptor =>
             if has_flag (signals st side) SIGNAL_PEER_CLOSED then ((ENOENT, empty_resource), (m.1, delete uri m.2))
             else
               let c := connect_listener make_directory st side descriptor (l_max_pending l) request w g in
               ((cn_error c, cn_client c), m)
           | _, _ => ((ENOENT, empty_resource), (m.1, delete uri m.2))
           end
         end
  | DCleanup owner =>
    if owner =? 0 then ((0, empty_resource), m)
    else ((0, empty_resource),
          (filter (λ p, (s_owner p.2 =? owner) = false) m.1, filter (λ p, (l_owner p.2 =? owner) = false) m.2))
  end.

(** Taking out the element that a lookup found. *)
Lemma removed_perm {A} (l : list A) i x : l !! i = Some x → l ≡ₚ x :: remove_at A l i.
Proof using remove_at_spec.
  intros Hi. destruct (remove_at_spec A l i x Hi) as (rest & -> & Hr). rewrite Hr. by apply lookup_perm.
Qed.

Lemma Forall_removed {A} (P : A → Prop) (l : list A) i x : l !! i = Some x → Forall P l → Forall P (remove_at A l i).
Proof using remove_at_spec. intros Hi Hall. rewrite (removed_perm l i x Hi) in Hall. by inversion Hall. Qed.

Lemma remove_entry_wf d i s :
  directory_wf d → entries_ d !! i = Some s →
  directory_wf (remove_entry remove_at d i) ∧
  registry_of (remove_entry remove_at d i) = (delete (s_uri s) (services d), listeners d).
Proof using remove_at_spec.
  intros [] Hi. pose proof (keyed_remove s_uri _ _ _ dwf_services0 (removed_perm _ _ _ Hi)) as [Hnd Hk].
  split; [split; simpl; try done; by eapply Forall_removed|]. unfold registry_of, services. simpl. by rewrite Hk.
Qed.

Lemma remove_listener_wf d i l :
  directory_wf d → listeners_ d !! i = Some l →
  directory_wf (remove_listener remove_at d i) ∧
  registry_of (remove_listener remove_at d i) = (services d, delete (l_uri l) (listeners d)).
Proof using remove_at_spec.
  intros [] Hi. pose proof (keyed_remove l_uri _ _ _ dwf_listeners0 (removed_perm _ _ _ Hi)) as [Hnd Hk].
  split; [split; simpl; try done; by eapply Forall_removed|]. unfold registry_of, listeners. simpl. by rewrite Hk.
Qed.

(** The search loop of [cleanup_owner]. *)
Lemma cleanup_loop_spec {A} (owned : A → bool) fuel (l : list A) i :
  (length l - i ≤ fuel)%nat → Forall (λ x, owned x = false) (take i l) →
  let '(kept, out) := cleanup_loop remove_at owned fuel l i in
  l ≡ₚ out ++ kept ∧ Forall (λ x, owned x = true) out ∧ Forall (λ x, owned x = false) kept.
Proof using remove_at_spec.
  revert l i. induction fuel as [|fuel IH]; intros l i Hf Hl; cbn [cleanup_loop].
  { rewrite take_ge in Hl by lia. split_and!; done. }
  destruct (l !! i) as [x|] eqn:Hi.
  2: { apply lookup_ge_None in Hi. rewrite take_ge in Hl by lia. done. }
  pose proof (lookup_lt_Some _ _ _ Hi) as Hlt. destruct (owned x) eqn:Hx.
  - destruct (remove_at_spec A l i x Hi) as (rest & Hr & Hp).
    specialize (IH (remove_at A l i) i). pose proof (removed_perm l i x Hi) as Hrem.
    pose proof (Permutation_length Hrem) as Hlen. simpl in Hlen.
    destruct (cleanup_loop remove_at owned fuel (remove_at A l i) i) as [kept out].
    destruct IH as (Hpk & Ho & Hk); [lia| |].
    { rewrite Hr, take_app_le, take_take, Nat.min_id by (rewrite length_take; lia). done. }
    split_and!; [by rewrite Hrem, Hpk|by constructor|done].
  - apply IH; [lia|]. rewrite (take_S_r _ _ _ Hi). apply Forall_app. split; [done|]. by constructor.
Qed.

Lemma find_locked_services d uri : directory_wf d → find_locked d uri ≠ None ↔ services d !! uri ≠ None.
Proof. intros []. by apply find_keyed_ne. Qed.

Lemma register_refines d uri record one_shot owner mem :
  directory_wf d →
  let '(r, d') := directory_step d (DRegister uri record one_shot owner mem) in
  directory_wf d' ∧ registry_step (registry_of d) (DRegister uri record one_shot owner mem) = (r, registry_of d').
Proof.
  intros Hwf. unfold directory_step, registry_step, register_service, take_object_to_table, resource_valid.
  destruct (valid_uri uri) eqn:Hv; simpl; [|done]. destruct (c_moved record); simpl; [|done].
  destruct (t_object (c_resource record)) as [o|]; simpl; [|done].
  destruct (dm_string mem); simpl; [|done]. destruct (dm_capacity mem); simpl; [|done].
  destruct (services d !! uri) eqn:Hs.
  { rewrite bool_decide_eq_true_2 by (apply find_locked_services; [done|congruence]). done. }
  rewrite !bool_decide_eq_false_2 by (rewrite find_locked_services by done; congruence). simpl.
  apply keyed_absent in Hs. destruct Hwf. split; [split; simpl; try done|].
  - rewrite fmap_app. apply NoDup_app. split_and!; [done| |apply NoDup_singleton]. simpl.
    intros u Hu Hu'. apply list_elem_of_singleton in Hu'. congruence.
  - apply Forall_app. split; [done|]. by apply Forall_singleton.
  - unfold registry_of, services. simpl. by rewrite keyed_snoc.
Qed.

Lemma resolve_refines d uri ob :
  directory_wf d →
  let '(r, d') := directory_step d (DResolve uri ob) in
  directory_wf d' ∧ registry_step (registry_of d) (DResolve uri ob) = (r, registry_of d').
Proof using remove_at_spec.
  intros Hwf. unfold directory_step, registry_step, ServiceDirectory.resolve_service.
  destruct (valid_uri uri); simpl; [|done]. pose proof (find_keyed s_uri (entries_ d) uri (dwf_services d Hwf)) as Hf.
  unfold find_locked. destruct (_ ≫= _) as [[i s]|]; [|unfold services; by rewrite Hf].
  destruct Hf as (Hi & <- & Hk). unfold services. rewrite Hk.
  destruct (Forall_lookup_1 _ _ _ _ (dwf_objects d Hwf) Hi) as [Ho _]. destruct (s_object s) as [o|]; [|done]. simpl.
  destruct (_ || _); [|done]. destruct (remove_entry_wf d i s Hwf Hi) as [? ->]. done.
Qed.

Lemma unregister_refines d uri owner :
  directory_wf d →
  let '(r, d') := directory_step d (DUnregister uri owner) in
  directory_wf d' ∧ registry_step (registry_of d) (DUnregister uri owner) = (r, registry_of d').
Proof using remove_at_spec.
  intros Hwf. unfold directory_step, registry_step, ServiceDirectory.unregister_service.
  destruct (valid_uri uri); simpl; [|done]. pose proof (find_keyed s_uri (entries_ d) uri (dwf_services d Hwf)) as Hf.
  unfold find_locked. destruct (_ ≫= _) as [[i s]|]; [|unfold services; by rewrite Hf].
  destruct Hf as (Hi & <- & Hk). unfold services. rewrite Hk. destruct (_ && _); [done|].
  destruct (remove_entry_wf d i s Hwf Hi) as [? ->]. done.
Qed.

Lemma add_listener_wf d uri send descriptor max_pending owner :
  directory_wf d → valid_uri uri = true → send ≠ None → descriptor ≠ None → listeners d !! uri = None →
  let l := Build_listener uri send descriptor max_pending owner in
  let d' := Build_directory (entries_ d) (listeners_ d ++ [l]) in
  directory_wf d' ∧ registry_of d' = (services d, <[uri := l]> (listeners d)).
Proof.
  intros [] Hv Hs Hd Hl l d'. apply keyed_absent in Hl. split; [split; simpl; try done|].
  - rewrite fmap_app. apply NoDup_app. split_and!; [done| |apply NoDup_singleton]. simpl.
    intros u Hu Hu'. apply list_elem_of_singleton in Hu'. congruence.
  - apply Forall_app. split; [done|]. by apply Forall_singleton.
  - unfold registry_of, listeners. simpl. by rewrite keyed_snoc.
Qed.

Lemma channel_of_some ob o x : channel_of ob o = Some x → o ≠ None.
Proof. by destruct o. Qed.
Lemma descriptor_of_some ob o x : descriptor_of ob o = Some x → o ≠ None.
Proof. by destruct o. Qed.

Lemma listen_refines d uri send descriptor max_pending owner ob mem :
  directory_wf d →
  let op := DListen uri send descriptor max_pending owner ob mem in
  let '(r, d') := directory_step d op in
  directory_wf d' ∧ registry_step (registry_of d) op = (r, registry_of d').
Proof using remove_at_spec.
  intros Hwf. unfold directory_step, registry_step, ServiceDirectory.listen_service. cbv zeta.
  destruct (channel_of ob send) as [[st side]|] eqn:Hch.
  2: { destruct (_ || _); done. }
  destruct (descriptor_of ob descriptor) as [pd|] eqn:Hde.
  2: { destruct (_ || _); done. }
  pose proof (channel_of_some _ _ _ Hch) as Hs. pose proof (descriptor_of_some _ _ _ Hde) as Hd.
  rewrite !bool_decide_eq_false_2, !orb_false_r by done.
  destruct (valid_uri uri) eqn:Hv; simpl; [|done]. destruct (max_pending =? 0); simpl; [done|].
  destruct (max_messages st <? max_pending); [done|]. destruct (dm_string mem); simpl; [|done].
  destruct (dm_capacity mem); simpl; [|done].
  rewrite (bool_decide_ext _ _ (find_locked_services d uri Hwf)).
  destruct (bool_decide _) eqn:Hser; simpl; [done|].
  pose proof (find_keyed l_uri (listeners_ d) uri (dwf_listeners d Hwf)) as Hf. unfold find_listener_locked.
  destruct (_ ≫= _) as [[i old]|]; fold (listeners d) in Hf.
  - destruct Hf as (Hi & Hu & Hk). rewrite Hk. simpl. destruct (listener_live ob (l_send old)); [done|].
    destruct (remove_listener_wf d i old Hwf Hi) as [Hwf' Hr].
    pose proof (f_equal fst Hr) as Hr1. pose proof (f_equal snd Hr) as Hr2. cbn [fst snd registry_of] in Hr1, Hr2.
    destruct (add_listener_wf (remove_listener remove_at d i) uri send descriptor max_pending owner Hwf' Hv Hs Hd)
      as [Hwf'' Hr'']; [rewrite Hr2, Hu; apply lookup_delete_eq|]. split; [done|].
    simpl in Hr''. rewrite Hr'', Hr1, Hr2, Hu. by rewrite insert_delete_eq.
  - rewrite Hf. simpl. destruct (add_listener_wf d uri send descriptor max_pending owner Hwf Hv Hs Hd Hf) as [? Hr].
    simpl in Hr. by rewrite Hr.
Qed.

Lemma connect_listener_directory d d' st side descriptor max_pending q w g :
  let c := connect_listener d st side descriptor max_pending q w g in
  let c' := connect_listener d' st side descriptor max_pending q w g in
  cn_error c = cn_error c' ∧ cn_client c = cn_client c' ∧ cn_directory c = d.
Proof.
  unfold ServiceDirectory.connect_listener. repeat (case_match; simpl; try done).
Qed.

Lemma connect_refines d uri q ob w g :
  directory_wf d →
  let '(r, d') := directory_step d (DConnect uri q ob w g) in
  directory_wf d' ∧ registry_step (registry_of d) (DConnect uri q ob w g) = (r, registry_of d').
Proof using remove_at_spec.
  intros Hwf. unfold directory_step, registry_step, ServiceDirectory.connect_service.
  destruct (valid_uri uri); simpl; [|done]. pose proof (find_keyed l_uri (listeners_ d) uri (dwf_listeners d Hwf)) as Hf.
  unfold find_listener_locked. destruct (_ ≫= _) as [[i l]|]; fold (listeners d) in Hf; [|by rewrite Hf].
  destruct Hf as (Hi & <- & Hk). rewrite Hk. pose proof (remove_listener_wf d i l Hwf Hi) as [Hwf' Hr].
  destruct (channel_of ob (l_send l)) as [[st side]|]; [|simpl; by rewrite Hr].
  destruct (descriptor_of ob (l_descriptor l)) as [pd|]; [|simpl; by rewrite Hr].
  destruct (has_flag _ _); [simpl; by rewrite Hr|].
  destruct (connect_listener_directory d make_directory st side pd (l_max_pending l) q w g) as (-> & -> & ->). done.
Qed.

Lemma cleanup_refines d owner :
  directory_wf d →
  let '(r, d') := directory_step d (DCleanup owner) in
  directory_wf d' ∧ registry_step (registry_of d) (DCleanup owner) = (r, registry_of d').
Proof using remove_at_spec.
  intros Hwf. unfold directory_step, registry_step, ServiceDirectory.cleanup_owner. destruct (owner =? 0); [done|].
  pose proof (cleanup_loop_spec (λ s, s_owner s =? owner) (length (entries_ d)) (entries_ d) 0 ltac:(lia) (Forall_nil_2 _)) as He.
  pose proof (cleanup_loop_spec (λ l, l_owner l =? owner) (length (listeners_ d)) (listeners_ d) 0 ltac:(lia) (Forall_nil_2 _)) as Hl.
  destruct (cleanup_loop _ _ _ (entries_ d) 0) as [es os]. destruct (cleanup_loop _ _ _ (listeners_ d) 0) as [ls ps].
  destruct He as (Hep & Heo & Hek), Hl as (Hlp & Hlo & Hlk). destruct Hwf as [H1 H2 H3 H4]. simpl.
  destruct (keyed_filter s_uri _ _ _ _ H1 Hep Heo Hek) as [Hn1 Hf1].
  destruct (keyed_filter l_uri _ _ _ _ H2 Hlp Hlo Hlk) as [Hn2 Hf2].
  rewrite Hep in H3. rewrite Hlp in H4. apply Forall_app in H3 as [_ H3], H4 as [_ H4].
  split; [by split|]. unfold registry_of, services, listeners. simpl. by rewrite Hf1, Hf2.
Qed.

Lemma directory_step_refines d op :
  directory_wf d →
  directory_wf (directory_step d op).2 ∧
  registry_step (registry_of d) op = ((directory_step d op).1, registry_of (directory_step d op).2).
Proof using remove_at_spec.
  intros Hwf.
  assert (let '(r, d') := directory_step d op in directory_wf d' ∧ registry_step (registry_of d) op = (r, registry_of d')).
  { destruct op; [by apply register_refines|by apply resolve_refines|by apply unregister_refines|by apply listen_refines|
      by apply connect_refines|by apply cleanup_refines]. }
  by destruct (directory_step d op).
Qed.

(** C16: The service directory is the registry it promises: a finite map from
    names to services and one from names to listeners.  Over every sequence of
    registrations, look-ups, removals, listens, connects and owner clean-ups,
    whatever the allocations and the state of the objects are and in whatever
    order the vectors keep their elements, the errors and the capabilities
    returned are those of the maps.  Registration and listening never replace
    a live name, only the owner removes one, a look-up of a one-shot or unique
    service removes it, a dead listener is replaced, and a clean-up removes
    all that its owner left and nothing else. *)
Theorem directory_refines_registry ops :
  let '(results, d) := run_ops directory_step make_directory ops in
  directory_wf d ∧ run_ops registry_step (∅, ∅) ops = (results, registry_of d).
Proof using remove_at_spec.
  pose proof (run_ops_simulation directory_step registry_step directory_wf registry_of) as Hsim.
  destruct (Hsim (λ d op, directory_step_refines d op) make_directory ops) as [Hwf Hrun].
  { split; simpl; constructor. }
  change (registry_of make_directory) with ((∅, ∅) : registry) in Hrun.
  destruct (run_ops directory_step make_directory ops) as [results d]. done.
Qed.

(** ** The roots a directory holds *)

Definition directory_events (d : directory) (op : directory_op) : list cap_event :=
  match op with
  | DRegister uri record one_shot owner mem => (register_service d uri record one_shot owner mem).2
  | DResolve uri ob => (resolve_service d uri ob).2
  | DUnregister uri owner => (unregister_service d uri owner).2
  | DListen uri send descriptor max_pending owner ob mem =>
    (listen_service d uri send descriptor max_pending owner ob mem).2
  | DConnect uri request ob w g => cn_events (connect_service d uri request ob w g)
  | DCleanup owner => (cleanup_owner d owner).2
  end.

Definition points (o : object) (h : khandle) : Z := if decide (h = Some o) then 1 else 0.
Definition entry_roots (o : object) (s : service) : Z := points o (s_object s).
Definition listener_roots (o : object) (l : listener) : Z := points o (l_send l) + points o (l_descriptor l).

(** How often the directory refers to an object. *)
Definition roots (d : directory) (o : object) : Z :=
  sum_Z (entry_roots o <$> entries_ d) + sum_Z (listener_roots o <$> listeners_ d).

(** The roots that a caller hands over with a call. *)
Definition handed_over (op : directory_op) (o : object) : Z :=
  match op with DListen _ send descriptor _ _ _ _ => points o send + points o descriptor | _ => 0 end.

Lemma net_release_root o h : net o table_root (release_table_root h) = - points o h.
Proof. unfold points. destruct h as [x|]; [|done]. unfold net. held. Qed.

Lemma net_release_entry o s : net o table_root (release_entry s) = - entry_roots o s.
Proof. apply net_release_root. Qed.
Lemma net_release_listener o l : net o table_root (release_listener l) = - listener_roots o l.
Proof. unfold release_listener, listener_roots. rewrite net_app, !net_release_root. lia. Qed.

Lemma net_concat {A} (f : A → list cap_event) (g : A → Z) o l :
  (∀ x, net o table_root (f x) = - g x) → net o table_root (concat (f <$> l)) = - sum_Z (g <$> l).
Proof. intros Hf. induction l as [|x l IH]; csimpl; [done|]. rewrite net_app, IH, Hf. lia. Qed.

(** Hooks that leave the table roots alone. *)
Definition elsewhere (e : cap_event) : Prop :=
  match e with Acquire _ l | Release _ l | Handoff _ l _ => l ≠ table_root end.

Lemma net_elsewhere o ev : Forall elsewhere ev → net o table_root ev = 0.
Proof. induction 1 as [|e ev He _ IH]; [done|]. rewrite net_cons, IH. destruct e; held. Qed.

Lemma release_transit_elsewhere r : Forall elsewhere (release_transit r).2.
Proof. unfold release_transit. destruct (t_in_transit r), (t_object r); simpl; repeat constructor. done. Qed.

Lemma take_back_elsewhere guarded n i m rs : Forall elsewhere (take_back guarded n i m rs).2.
Proof.
  revert i m rs. induction n as [|n IH]; intros i m rs; simpl; [constructor|].
  destruct (rs !! i) as [r|]; [|apply IH]. destruct (cm_resources m !! i) as [mine|]; [|apply IH].
  destruct (guarded && _); [apply IH|]. pose proof (release_transit_elsewhere (c_resource r)) as Hr.
  unfold move_assign_transferred. destruct (release_transit (c_resource r)) as [r1 released].
  destruct (move_assign _ _) as [x y].
  match goal with |- context [take_back guarded n ?a ?b ?c] => specialize (IH a b c); destruct (take_back guarded n a b c) as [[]] end.
  by apply Forall_app.
Qed.

Lemma enqueue_kernel_elsewhere st g side message rs n :
  Forall elsewhere (er_events (enqueue_kernel st g side message rs n)).
Proof.
  unfold enqueue_kernel. destruct (enqueue_rejects _ _ _ _); [constructor|]. unfold enqueue_kernel_locked.
  destruct (_ =? 0); [constructor|]. destruct (_ || _); [constructor|]. destruct (reserve_global _ _ _) as [[] ?]; [|constructor].
  simpl. destruct (append_loop _ _) as [[[all m1] rs1] moved].
  destruct (if all then _ else _) as [pushed fifo]. destruct (negb (all && pushed)); [|constructor].
  pose proof (take_back_elsewhere false moved 0 m1 rs1). by destruct (take_back false moved 0 m1 rs1) as [[]].
Qed.

Lemma connect_listener_elsewhere d st side descriptor max_pending q w g :
  Forall elsewhere (cn_events (connect_listener d st side descriptor max_pending q w g)).
Proof.
  unfold ServiceDirectory.connect_listener. destruct (negb _); [constructor|]. destruct (_ && _); [constructor|].
  destruct (negb _); [constructor|]. destruct (negb _); [constructor|].
  destruct (create_protocol_endpoint_objects _ _ _ _ _ _ _) as [[status [[[[c sv] cm] sm]|]] w1]; destruct status; try constructor.
  cbn [make_transferred acquire_transit t_object t_in_transit]. destruct (_ || _); [repeat constructor; done|].
  set (r := enqueue_kernel _ _ _ _ _ _). pose proof (enqueue_kernel_elsewhere st g side
    (Some (cq_message q, make_message 0 1 true (cq_data_ok q)))
    [Build_record HANDLE_INVALID true (Build_transferred (Some sv) sm true) empty_token] max_pending) as Hr. fold r in Hr.
  destruct (negb _); simpl; (constructor; [done|]); apply Forall_app; (split; [done|]); by repeat constructor.
Qed.

Lemma sum_removed {A} (f : A → Z) (l : list A) i x :
  l !! i = Some x → sum_Z (f <$> l) = f x + sum_Z (f <$> remove_at A l i).
Proof using remove_at_spec. intros Hi. by rewrite (removed_perm l i x Hi) at 1. Qed.

Lemma found_lookup {A} (found : option nat) (l : list A) i x :
  (found ≫= λ j, (λ y, (j, y)) <$> l !! j) = Some (i, x) → l !! i = Some x.
Proof. destruct found as [j|]; simpl; [|done]. destruct (l !! j) eqn:E; simpl; [|done]. by intros [= <- <-]. Qed.

Lemma roots_remove_entry d i s o :
  entries_ d !! i = Some s → roots (remove_entry remove_at d i) o = roots d o - entry_roots o s.
Proof using remove_at_spec. intros Hi. unfold roots. simpl. rewrite (sum_removed _ _ _ _ Hi). lia. Qed.

Lemma roots_remove_listener d i l o :
  listeners_ d !! i = Some l → roots (remove_listener remove_at d i) o = roots d o - listener_roots o l.
Proof using remove_at_spec. intros Hi. unfold roots. simpl. rewrite (sum_removed (listener_roots o) _ _ _ Hi). lia. Qed.

Lemma roots_add_entry d s o :
  roots (Build_directory (entries_ d ++ [s]) (listeners_ d)) o = roots d o + entry_roots o s.
Proof. unfold roots. simpl. rewrite fmap_app, sum_Z_app. simpl. lia. Qed.

Lemma roots_add_listener d l o :
  roots (Build_directory (entries_ d) (listeners_ d ++ [l])) o = roots d o + listener_roots o l.
Proof. unfold roots. simpl. rewrite fmap_app, sum_Z_app. simpl. lia. Qed.

Lemma register_roots d uri record one_shot owner mem o :
  let '(_, d', _, ev) := register_service d uri record one_shot owner mem in roots d' o = roots d o + net o table_root ev.
Proof.
  unfold register_service, take_object_to_table, resource_valid.
  destruct (_ || _); [rewrite net_nil; lia|]. destruct (negb _); [rewrite net_nil; lia|].
  destruct (negb _); [rewrite net_nil; lia|]. destruct (bool_decide _); [rewrite net_nil; lia|].
  destruct (t_object (c_resource record)) as [x|]; [|rewrite net_nil; lia].
  rewrite roots_add_entry. unfold entry_roots, points, net. held.
Qed.

Lemma resolve_roots d uri ob o :
  let '(_, _, d', ev) := resolve_service d uri ob in roots d' o = roots d o + net o table_root ev.
Proof using remove_at_spec.
  unfold ServiceDirectory.resolve_service. destruct (negb _); [rewrite net_nil; lia|].
  destruct (find_locked d uri ≫= _) as [[i s]|] eqn:Hf; [|rewrite net_nil; lia]. apply found_lookup in Hf.
  destruct (s_object s) as [x|] eqn:Ho; [|rewrite net_nil; lia]. simpl. destruct (_ || _).
  - rewrite (roots_remove_entry _ _ _ _ Hf). unfold entry_roots, points, net. rewrite Ho. held.
  - unfold net. held.
Qed.

Lemma unregister_roots d uri owner o :
  let '(_, d', ev) := unregister_service d uri owner in roots d' o = roots d o + net o table_root ev.
Proof using remove_at_spec.
  unfold ServiceDirectory.unregister_service. destruct (negb _); [rewrite net_nil; lia|].
  destruct (find_locked d uri ≫= _) as [[i s]|] eqn:Hf; [|rewrite net_nil; lia]. apply found_lookup in Hf.
  destruct (_ && _); [rewrite net_nil; lia|]. rewrite (roots_remove_entry _ _ _ _ Hf), net_release_entry. lia.
Qed.

Lemma listen_roots d uri send descriptor max_pending owner ob mem o :
  let '(_, d', ev) := listen_service d uri send descriptor max_pending owner ob mem in
  roots d' o = roots d o + (points o send + points o descriptor) + net o table_root ev.
Proof using remove_at_spec.
  unfold ServiceDirectory.listen_service. cbv zeta.
  assert (roots d o = roots d o + (points o send + points o descriptor) +
                      net o table_root (release_table_root send ++ release_table_root descriptor)) as Hback.
  { rewrite net_app, !net_release_root. lia. }
  destruct (_ || _); [done|]. destruct (channel_of ob send) as [[st side]|]; [|done].
  destruct (descriptor_of ob descriptor); [|done]. destruct (_ <? _); [done|]. destruct (negb _); [done|].
  destruct (negb _); [done|]. destruct (bool_decide _); [done|].
  destruct (find_listener_locked d uri ≫= _) as [[i old]|] eqn:Hf.
  - apply found_lookup in Hf. destruct (listener_live _ _); [done|].
    rewrite roots_add_listener, (roots_remove_listener _ _ _ _ Hf), net_release_listener. unfold listener_roots. simpl. lia.
  - rewrite roots_add_listener, net_nil. unfold listener_roots. simpl. lia.
Qed.

Lemma connect_roots d uri q ob w g o :
  let c := connect_service d uri q ob w g in roots (cn_directory c) o = roots d o + net o table_root (cn_events c).
Proof using remove_at_spec.
  unfold ServiceDirectory.connect_service. destruct (negb _); [simpl; rewrite net_nil; lia|].
  destruct (find_listener_locked d uri ≫= _) as [[i l]|] eqn:Hf; [|simpl; rewrite net_nil; lia]. apply found_lookup in Hf.
  assert (roots (remove_listener remove_at d i) o = roots d o + net o table_root (release_listener l)) as Hdead.
  { rewrite (roots_remove_listener _ _ _ _ Hf), net_release_listener. lia. }
  destruct (channel_of ob (l_send l)) as [[st side]|]; [|done]. destruct (descriptor_of ob (l_descriptor l)) as [pd|]; [|done].
  destruct (has_flag _ _); [done|]. cbv zeta. rewrite net_elsewhere by apply connect_listener_elsewhere.
  destruct (connect_listener_directory d d st side pd (l_max_pending l) q w g) as (_ & _ & ->). lia.
Qed.

Lemma cleanup_roots d owner o :
  let '(d', ev) := cleanup_owner d owner in roots d' o = roots d o + net o table_root ev.
Proof using remove_at_spec.
  unfold ServiceDirectory.cleanup_owner. destruct (owner =? 0); [rewrite net_nil; lia|].
  pose proof (cleanup_loop_spec (λ s, s_owner s =? owner) (length (entries_ d)) (entries_ d) 0 ltac:(lia) (Forall_nil_2 _)) as He.
  pose proof (cleanup_loop_spec (λ l, l_owner l =? owner) (length (listeners_ d)) (listeners_ d) 0 ltac:(lia) (Forall_nil_2 _)) as Hl.
  destruct (cleanup_loop _ _ _ (entries_ d) 0) as [es os]. destruct (cleanup_loop _ _ _ (listeners_ d) 0) as [ls ps].
  destruct He as (Hep & _ & _), Hl as (Hlp & _ & _). unfold roots. simpl.
  rewrite (Permutation_map (entry_roots o) Hep : entry_roots o <$> entries_ d ≡ₚ _).
  rewrite (Permutation_map (listener_roots o) Hlp : listener_roots o <$> listeners_ d ≡ₚ _).
  rewrite net_app, (net_concat _ (entry_roots o)), (net_concat _ (listener_roots o)) by
    (intros; first [apply net_release_entry|apply net_release_listener]).
  change (map (entry_roots o) (os ++ es)) with (entry_roots o <$> (os ++ es)).
  change (map (listener_roots o) (ps ++ ls)) with (listener_roots o <$> (ps ++ ls)).
  rewrite !fmap_app, !sum_Z_app. lia.
Qed.

Lemma step_roots d op o :
  roots (directory_step d op).2 o = roots d o + handed_over op o + net o table_root (directory_events d op).
Proof using remove_at_spec.
  destruct op as [uri record one_shot owner mem|uri ob|uri owner|uri send descriptor max_pending owner ob mem|uri q ob w g|owner];
    unfold directory_step, directory_events, handed_over.
  - pose proof (register_roots d uri record one_shot owner mem o). destruct (register_service _ _ _ _ _ _) as [[[]]]. simpl in *. lia.
  - pose proof (resolve_roots d uri ob o). destruct (resolve_service d uri ob) as [[[]]]. simpl in *. lia.
  - pose proof (unregister_roots d uri owner o). destruct (unregister_service d uri owner) as [[]]. simpl in *. lia.
  - pose proof (listen_roots d uri send descriptor max_pending owner ob mem o). destruct (listen_service _ _ _ _ _ _ _ _) as [[]].
    simpl in *. lia.
  - pose proof (connect_roots d uri q ob w g o). simpl in *. lia.
  - pose proof (cleanup_roots d owner o). destruct (cleanup_owner d owner). simpl in *. lia.
Qed.

(** The hooks of a sequence of calls. *)
Fixpoint directory_log (d : directory) (ops : list directory_op) : list cap_event :=
  match ops with
  | [] => []
  | op :: ops' => directory_events d op ++ directory_log (directory_step d op).2 ops'
  end.

Lemma run_roots d ops o :
  roots (run_ops directory_step d ops).2 o
  = roots d o + sum_Z ((λ op, handed_over op o) <$> ops) + net o table_root (directory_log d ops).
Proof using remove_at_spec.
  revert d. induction ops as [|op ops IH]; intros d; [simpl; rewrite net_nil; lia|]. rewrite run_ops_cons. cbn [fst snd].
  rewrite IH, step_roots. csimpl. rewrite net_app. lia.
Qed.

(** C30: The directory neither leaks a table root nor gives one up twice.  After
    any sequence of calls it refers to an object exactly as often as the hooks
    it ran and the roots handed to its listens account for, whether the calls
    succeeded or failed, and destroying it releases all of them. *)
Theorem directory_roots_balance ops o :
  let d := (run_ops directory_step make_directory ops).2 in
  let log := directory_log make_directory ops in
  let handed := sum_Z ((λ op, handed_over op o) <$> ops) in
  roots d o = handed + net o table_root log ∧
  handed + net o table_root (log ++ destroy_directory d) = 0.
Proof using remove_at_spec.
  intros d log handed. pose proof (run_roots make_directory ops o) as Hr. fold d log handed in Hr.
  change (roots make_directory o) with 0 in Hr. split; [lia|]. rewrite net_app. unfold destroy_directory.
  rewrite net_app, (net_concat _ (entry_roots o)), (net_concat _ (listener_roots o)) by
    (intros; first [apply net_release_entry|apply net_release_listener]).
  unfold roots in Hr. lia.
Qed.
End refinement.

(** ** Listing *)

(** The bytes a listing has for some entries: each name and a zero. *)
Definition listed (entries : list service) : list Z := concat ((λ s, s_uri s ++ [0]) <$> entries).

Lemma list_loop_spec entries requested records i count :
  Z.of_nat (length records) ≤ requested < 2 ^ 64 →
  ∃ n, (n ≤ length entries)%nat ∧
    list_loop entries requested records i count
    = (records ++ listed (take n entries), i + Z.of_nat n, count + Z.of_nat n) ∧
    Z.of_nat (length (records ++ listed (take n entries))) ≤ requested ∧
    (∀ s, entries !! n = Some s →
       requested < Z.of_nat (length (records ++ listed (take (S n) entries)))).
Proof.
  revert records i count. induction entries as [|s entries IH]; intros records i count Hr.
  { exists 0%nat. cbn. rewrite app_nil_r, !Z.add_0_r. split_and!; [lia|done|lia|done]. }
  cbn [list_loop]. rewrite u64_small by lia.
  destruct (Z.ltb_spec (requested - Z.of_nat (length records)) (Z.of_nat (length (s_uri s)) + 1)).
  - exists 0%nat. cbn. rewrite app_nil_r, !Z.add_0_r. split_and!; [lia|done|lia|]. intros s' [= <-].
    rewrite !app_nil_r, !length_app. simpl. lia.
  - destruct (IH (records ++ s_uri s ++ [0]) (i + 1) (count + 1)) as (n & Hn & -> & Hl & Hmax).
    { rewrite !length_app. simpl. lia. }
    exists (S n). unfold listed in *. csimpl. rewrite <- !app_assoc in *. split_and!; [lia| |done|].
    + replace (i + 1 + Z.of_nat n) with (i + Z.of_nat (S n)) by lia.
      by replace (count + 1 + Z.of_nat n) with (count + Z.of_nat (S n)) by lia.
    + intros s' Hs'. specialize (Hmax s' Hs'). csimpl in Hmax. done.
Qed.

(** A client that lists page by page until a page is empty. *)
Fixpoint list_all (fuel : nat) (d : directory) (offset requested : Z) : list Z :=
  match fuel with
  | O => []
  | S fuel' =>
    let '(_, records, next, count) := list_services d offset requested true in
    if count =? 0 then [] else records ++ list_all fuel' d next requested
  end.

Lemma drop_take_app {A} (l : list A) i n : drop i l = take n (drop i l) ++ drop (i + n) l.
Proof. by rewrite <- drop_drop, take_drop. Qed.

(** Listing page by page finds every service once.  With pages of at least
    256 and at most 65536 bytes, a client that starts at any position and
    follows [next] until a page is empty has read, in order, the name of every
    entry from there on, each followed by a zero byte; every page but the last
    one makes progress, so as many pages as there are entries are enough. *)
Theorem list_pages_enumerate d offset requested fuel :
  Forall (λ s, (length (s_uri s) ≤ 255)%nat) (entries_ d) →
  0 ≤ offset ≤ Z.of_nat (length (entries_ d)) → 256 ≤ requested ≤ CHANNEL_MAX_MESSAGE_BYTES →
  (length (entries_ d) < fuel + Z.to_nat offset)%nat →
  list_all fuel d offset requested = listed (drop (Z.to_nat offset) (entries_ d)).
Proof.
  intros Hu. revert offset. induction fuel as [|fuel IH]; intros offset Ho Hr Hf; [lia|].
  cbn [list_all]. unfold list_services, CHANNEL_MAX_MESSAGE_BYTES in *.
  rewrite (proj2 (Z.ltb_ge _ _)), (proj2 (Z.ltb_ge _ _)) by lia. cbn [negb].
  destruct (list_loop_spec (drop (Z.to_nat offset) (entries_ d)) requested [] offset 0) as (n & Hn & -> & _ & Hmax);
    [simpl; lia|]. rewrite Z.add_0_l, length_drop in *. cbn [app].
  destruct (Z.eqb_spec (Z.of_nat n) 0) as [E|E].
  - replace n with 0%nat in * by lia. destruct (drop (Z.to_nat offset) (entries_ d)) as [|s rest] eqn:Hd; [done|].
    specialize (Hmax s eq_refl). cbn in Hmax. rewrite app_nil_r, length_app in Hmax. simpl in Hmax.
    assert (s ∈ entries_ d) as Hin.
    { apply (list_elem_of_lookup_2 _ (Z.to_nat offset)). rewrite <- (Nat.add_0_r (Z.to_nat offset)), <- lookup_drop, Hd. done. }
    rewrite Forall_forall in Hu. specialize (Hu s Hin). simpl in Hu. lia.
  - rewrite IH by lia. unfold listed. rewrite (drop_take_app (entries_ d) (Z.to_nat offset) n) at 2.
    rewrite fmap_app, concat_app. do 4 f_equal. lia.
Qed.

(** ** Connecting *)

(** A successful enqueue of one resource leaves it in the message and one more
    message on the queue. *)
Lemma enqueue_one st g side p resource max_pending :
  let r := enqueue_kernel st g side (Some (p, make_message 0 1 true true))
             [Build_record HANDLE_INVALID true resource empty_token] max_pending in
  er_status r = STATUS_OK →
  cm_resources (er_message r) = [resource] ∧ er_events r = [] ∧
  (max_pending ≠ 0 → queue_size (q_fifo (queue_of st (1 - side))) < max_pending) ∧
  owners st (1 - side) ≠ 0.
Proof.
  intros r. unfold r, enqueue_kernel. cbn [fmap option_fmap option_map snd].
  destruct (enqueue_rejects _ _ _ _) as [s|] eqn:Hrej.
  { intros Hs. exfalso. unfold enqueue_rejects in Hrej. simpl in Hs. subst s.
    destruct (_ || _); [done|]. by destruct (_ || _). }
  unfold enqueue_kernel_locked. destruct (Z.eqb_spec (owners st (1 - side)) 0); [done|].
  destruct (negb (max_pending =? 0) && (max_pending <=? queue_size (q_fifo (queue_of st (1 - side))))) eqn:Hm; [done|].
  cbn [orb]. destruct (_ || _); [done|]. destruct (reserve_global _ _ _) as [[] g1]; [|done]. cbn [negb].
  destruct (append_loop _ _) as [[[all m1] rs1] moved] eqn:Ha. cbn in Ha. injection Ha as <- <- <- <-.
  destruct (try_push _ _) as [[] fifo]; [|by destruct (take_back _ _ _ _ _) as [[]]]. cbn. intros _. split_and!; try done.
  intros Hp. apply andb_false_iff in Hm as [Hm|Hm].
  - by apply negb_false_iff, Z.eqb_eq in Hm.
  - by apply Z.leb_gt in Hm.
Qed.

Lemma created_ends sn sm ss w pd e c sv cm svm w' :
  create_protocol_endpoint_objects sn sm ss w pd None e = (STATUS_OK, Some (c, sv, cm, svm), w') →
  c = ee_client e ∧ sv = ee_server e.
Proof.
  unfold create_protocol_endpoint_objects. destruct (_ || _); [done|]. destruct (_ || _); [done|].
  destruct (_ || _); [done|]. destruct (_ || _); [done|]. intros E. by injection E as <- <- _ _ _.
Qed.

(** A successful connect gives the two ends of a new connection to the
    right parties and no more authority than was asked for.  The name belongs
    to a live listener whose descriptor has the expected identity, a revision
    and the features that were asked for; the client's capability carries the
    requested protocol rights, which the descriptor grants, and the right to
    invoke; and the listener's channel has got one message whose only resource
    is the server end, without exceeding the listener's limit of pending
    connections. *)
Theorem connect_gives_both_ends remove_at scope_none scope_terminal_master scope_terminal_slave d uri q ob w g :
  let cn := connect_service remove_at scope_none scope_terminal_master scope_terminal_slave d uri q ob w g in
  directory_wf d → cn_error cn = 0 →
  ∃ l st side pd r,
    listeners d !! uri = Some l ∧ channel_of ob (l_send l) = Some (st, side) ∧
    descriptor_of ob (l_descriptor l) = Some pd ∧ has_flag (signals st side) SIGNAL_PEER_CLOSED = false ∧
    pd_uuid pd = cq_uuid q ∧ (cq_revision q = 0 ∨ cq_revision q ≤ pd_revision pd) ∧
    no_flag_outside (cq_features q) (pd_features pd) = true ∧
    cn_revision cn = pd_revision pd ∧ cn_features cn = pd_features pd ∧ cn_directory cn = d ∧
    (let rights := if cq_rights q =? 0 then pd_protocol_rights pd else cq_rights q in
     no_flag_outside rights (pd_protocol_rights pd) = true ∧
     t_object (cn_client cn) = Some (ee_client (cq_endpoints q)) ∧
     m_protocol_rights (t_meta (cn_client cn)) = Z.lor rights PROTOCOL_RIGHT_INVOKE) ∧
    cn_enqueued cn = Some r ∧ er_status r = STATUS_OK ∧
    t_object <$> cm_resources (er_message r) = [Some (ee_server (cq_endpoints q))] ∧
    (l_max_pending l ≠ 0 → queue_size (q_fifo (queue_of st (1 - side))) < l_max_pending l).
Proof.
  intros cn Hwf. unfold cn, connect_service. destruct (negb _); [done|].
  pose proof (find_keyed l_uri (listeners_ d) uri (dwf_listeners d Hwf)) as Hf. unfold find_listener_locked.
  destruct (_ ≫= _) as [[i l]|]; [|done]. destruct Hf as (_ & _ & Hl).
  destruct (channel_of ob (l_send l)) as [[st side]|] eqn:Hch; [|done].
  destruct (descriptor_of ob (l_descriptor l)) as [pd|] eqn:Hde; [|done].
  destruct (has_flag (signals st side) SIGNAL_PEER_CLOSED) eqn:Hpc; [done|]. unfold connect_listener.
  case_bool_decide as Huuid; [|done]. cbn [negb]. destruct (_ && _) eqn:Hrev; [done|].
  destruct (no_flag_outside (cq_features q) _) eqn:Hfe; [|done]. cbn [negb].
  destruct (no_flag_outside (if _ =? _ then _ else _) _) eqn:Hri; [|done]. cbn [negb].
  destruct (create_protocol_endpoint_objects _ _ _ _ _ _ _) as [[status [[[[c sv] cm] sm]|]] w1] eqn:Hcr;
    destruct status; try done.
  assert (c = ee_client (cq_endpoints q) ∧ sv = ee_server (cq_endpoints q)) as [-> ->].
  { by eapply created_ends. }
  cbn [make_transferred]. destruct (cq_message_ok q); [|done]. destruct (cq_data_ok q); [|done]. cbn [negb orb message_valid].
  match goal with |- context [enqueue_kernel ?a ?b ?c ?d ?e ?f] => set (r := enqueue_kernel a b c d e f) end.
  destruct (status_ok (er_status r)) eqn:Hok; [|simpl; intros E; by destruct (er_status r)].
  apply bool_decide_eq_true in Hok. destruct (enqueue_one _ _ _ _ _ _ Hok) as (Hres & _ & Hpend & _).
  fold r in Hres. clearbody r. intros _. exists l, st, side, pd, r. cbn. rewrite Hres. split_and!; try done.
  apply andb_false_iff in Hrev as [Hrev|Hrev]; [left|right].
  - by apply negb_false_iff, Z.eqb_eq in Hrev.
  - by apply Z.ltb_ge in Hrev.
Qed.
