(* ===== verification/ServiceCalls.v ===== *)
(** The calls of the [ServiceDirectory] kernel view, [publish_service_directory_call]
    and its six methods in src/kernel/ipc/invocation.cc, over the directory of
    ServiceDirectory.v: the rights a call needs, what it does to the records
    that travelled with it and the reply it asks for.  Codecs, validators and
    method numbers are generated and are parameters. *)
From stdpp Require Import base list numbers gmap.
From S2P Require Import Prelude Abi DataPlane BoundedQueue Capability ResourceTable Channel Invocation Protocol.
From S2P Require Import ProtocolCalls KernelCalls ServiceDirectory ServiceFacts.

Local Open Scope Z_scope.
Set Default Proof Using "Type".
Import Errno.

Definition SERVICE_DIRECTORY_RIGHT_ADMIN : Z := 2.
Definition SERVICE_DIRECTORY_RIGHT_SYSTEM_MANAGER : Z := 8.

Record service_codec : Type := Build_service_codec {
  METHOD_REGISTER : Z;
  METHOD_RESOLVE : Z;
  METHOD_LISTEN : Z;
  METHOD_CONNECT : Z;
  METHOD_UNREGISTER : Z;
  METHOD_LIST : Z;
  decode_register : list Z → option (list Z * Z);  (* uri, index of the service *)
  validate_register : list Z * Z → Z → bool;
  decode_resolve : list Z → option (list Z);
  encode_resolve : option (list Z);
  decode_listen : list Z → option (list Z * Z * Z * Z);  (* uri, indices of listener and descriptor, max_pending *)
  validate_listen : list Z * Z * Z * Z → Z → bool;
  decode_connect : list Z → option (list Z * list Z * Z * Z * Z);  (* uri, uuid, rights, revision, features *)
  encode_connect : Z → Z → option (list Z);  (* revision, features *)
  decode_unregister : list Z → option (list Z);
  decode_list : list Z → option (Z * Z);  (* offset, requested_bytes *)
  encode_list : Z → Z → list Z → option (list Z);  (* next, count, records *)
}.

Definition service_directory_mutation_allowed (uri : list Z) (protocol_rights : Z) : bool :=
  if (Z.of_nat (length system_prefix) <=? Z.of_nat (length uri))
     && bool_decide (take (length system_prefix) uri = system_prefix)
  then has_flag protocol_rights SERVICE_DIRECTORY_RIGHT_SYSTEM_MANAGER
  else has_flag protocol_rights SERVICE_DIRECTORY_RIGHT_ADMIN.

(** What a call finds around it: the objects, the allocations, the protocol
    world with the channel counters, and the parts of a connect that do not
    come from the request. *)
Record service_env : Type := Build_service_env {
  se_objects : objects;
  se_memory : directory_memory;
  se_records_ok : bool;
  se_world : pworld;
  se_globals : globals;
  se_endpoints : endpoint_env;
  se_message : Z;
  se_message_ok : bool;
  se_data_ok : bool;
}.

(** What a call does: the reply, the directory, the records it leaves to the
    worker, its hooks, and the connection it made. *)
Record service_done : Type := Build_service_done {
  sv_result : view_result;
  sv_directory : directory;
  sv_resources : list transfer_record;
  sv_events : list cap_event;
  sv_connected : option connected;
}.

Section calls.
Variable remove_at : ∀ A, list A → nat → list A.
Variables scope_none scope_terminal_master scope_terminal_slave : Z.
Variable c : service_codec.

(** A reply with an error and nothing else done. *)
Definition service_error (d : directory) (resources : list transfer_record) (error : Z) : service_done :=
  Build_service_done (Replied [] [] error) d resources [] None.

Definition register_call (d : directory) (request : list Z) (resources : list transfer_record)
    (protocol_rights pid : Z) (e : service_env) : service_done :=
  match decode_register c request with
  | None => service_error d resources EINVAL
  | Some (uri, index) =>
    if negb (validate_register c (uri, index) (Z.of_nat (length resources))) || (Z.of_nat (length resources) <=? index)
    then service_error d resources EINVAL
    else if negb (service_directory_mutation_allowed uri protocol_rights) then service_error d resources EACCES
    else
      match resources !! Z.to_nat index with
      | None => service_error d resources EINVAL
      | Some record =>
        let '(result, d', record', ev) := register_service d uri record false pid (se_memory e) in
        Build_service_done (Replied [] [] result) d' (<[Z.to_nat index := record']> resources) ev None
      end
  end.

(** The reply carries the resource; without an encoding it is dropped. *)
Definition resolve_call (d : directory) (request : list Z) (resources : list transfer_record) (e : service_env)
    : service_done :=
  match decode_resolve c request with
  | None => service_error d resources EINVAL
  | Some uri =>
    let '(result, resource, d', ev) := resolve_service remove_at d uri (se_objects e) in
    if negb (result =? 0) then Build_service_done (Replied [] [] result) d' resources ev None
    else match encode_resolve c with
         | None => Build_service_done (Replied [] [] ENOMEM) d' resources (ev ++ (release_transit resource).2) None
         | Some bytes =>
           Build_service_done (Replied bytes [Build_record HANDLE_INVALID true resource empty_token] 0) d' resources ev None
         end
  end.

Definition listen_call (d : directory) (request : list Z) (resources : list transfer_record)
    (protocol_rights pid : Z) (e : service_env) : service_done :=
  match decode_listen c request with
  | None => service_error d resources EINVAL
  | Some (uri, listener, descriptor, max_pending) =>
    let n := Z.of_nat (length resources) in
    if negb (validate_listen c (uri, listener, descriptor, max_pending) n) || (n <=? listener) || (n <=? descriptor)
       || (listener =? descriptor)
    then service_error d resources EINVAL
    else if negb (service_directory_mutation_allowed uri protocol_rights) then service_error d resources EACCES
    else
      match resources !! Z.to_nat listener, resources !! Z.to_nat descriptor with
      | Some r1, Some r2 =>
        let '(send, t1, ev1) := take_object_to_table (c_resource r1) in
        let '(desc, t2, ev2) := take_object_to_table (c_resource r2) in
        let resources' :=
          <[Z.to_nat descriptor := with_resource t2 r2]> (<[Z.to_nat listener := with_resource t1 r1]> resources) in
        let '(result, d', ev3) :=
          listen_service remove_at d uri send desc max_pending pid (se_objects e) (se_memory e) in
        Build_service_done (Replied [] [] result) d' resources' (ev1 ++ ev2 ++ ev3) None
      | _, _ => service_error d resources EINVAL
      end
  end.

Definition connect_call (d : directory) (request : list Z) (resources : list transfer_record) (e : service_env)
    : service_done :=
  match decode_connect c request with
  | None => service_error d resources EINVAL
  | Some (uri, uuid, rights, revision, features) =>
    let q := Build_connect_request uuid rights revision features (se_endpoints e) (se_message e) (se_message_ok e)
               (se_data_ok e) in
    let cn := connect_service remove_at scope_none scope_terminal_master scope_terminal_slave d uri q (se_objects e)
                (se_world e) (se_globals e) in
    if negb (cn_error cn =? 0)
    then Build_service_done (Replied [] [] (cn_error cn)) (cn_directory cn) resources (cn_events cn) (Some cn)
    else match encode_connect c (cn_revision cn) (cn_features cn) with
         | None => Build_service_done (Replied [] [] ENOMEM) (cn_directory cn) resources
                     (cn_events cn ++ (release_transit (cn_client cn)).2) (Some cn)
         | Some bytes =>
           Build_service_done (Replied bytes [Build_record HANDLE_INVALID true (cn_client cn) empty_token] 0)
             (cn_directory cn) resources (cn_events cn) (Some cn)
         end
  end.

Definition unregister_call (d : directory) (request : list Z) (resources : list transfer_record)
    (protocol_rights pid : Z) : service_done :=
  match decode_unregister c request with
  | None => service_error d resources EINVAL
  | Some uri =>
    if negb (service_directory_mutation_allowed uri protocol_rights) then service_error d resources EACCES
    else
      let '(result, d', ev) := unregister_service remove_at d uri pid in
      Build_service_done (Replied [] [] result) d' resources ev None
  end.

Definition list_call (d : directory) (request : list Z) (resources : list transfer_record) (e : service_env)
    : service_done :=
  match decode_list c request with
  | None => service_error d resources EINVAL
  | Some (offset, requested) =>
    if max_kernel_payload <? requested then service_error d resources EINVAL
    else
      let '(result, records, next, count) := list_services d offset requested (se_records_ok e) in
      if negb (result =? 0) then service_error d resources result
      else match encode_list c next count (take (Z.to_nat (u32 (zlength records))) records) with
           | None => service_error d resources ENOMEM
           | Some bytes => Build_service_done (Replied bytes [] 0) d resources [] None
           end
  end.

Definition publish_service_directory_call (d : directory) (method_id : Z) (request : list Z)
    (resources : list transfer_record) (protocol_rights pid : Z) (e : service_env) : service_done :=
  if method_id =? METHOD_REGISTER c then register_call d request resources protocol_rights pid e
  else if method_id =? METHOD_RESOLVE c then resolve_call d request resources e
  else if method_id =? METHOD_LISTEN c then listen_call d request resources protocol_rights pid e
  else if method_id =? METHOD_CONNECT c then connect_call d request resources e
  else if method_id =? METHOD_UNREGISTER c then unregister_call d request resources protocol_rights pid
  else if method_id =? METHOD_LIST c then list_call d request resources e
  else Build_service_done (Returned NOT_SUPPORTED) d resources [] None.

Definition dispatch_service_directory (scope_service_directory : Z) (target : metadata) (d : directory) (method_id : Z)
    (request : list Z) (resources : list transfer_record) (pid : Z) (e : service_env) : service_done :=
  if negb (m_scope target =? scope_service_directory) then Build_service_done (Returned WRONG_SCOPE) d resources [] None
  else publish_service_directory_call d method_id request resources (m_protocol_rights target) pid e.
End calls.

(** ** The system namespace *)

Section namespace.
Variable remove_at : ∀ A, list A → nat → list A.
Hypothesis remove_at_spec : removes remove_at.
Variables scope_none scope_terminal_master scope_terminal_slave : Z.
Variable c : service_codec.
Abbreviation step := (directory_step remove_at scope_none scope_terminal_master scope_terminal_slave).
Abbreviation spec := (registry_step scope_none scope_terminal_master scope_terminal_slave).
Abbreviation call := (publish_service_directory_call remove_at scope_none scope_terminal_master scope_terminal_slave c).

(** The name an operation of the directory is about. *)
Definition op_name (op : directory_op) : option (list Z) :=
  match op with
  | DRegister uri _ _ _ _ | DResolve uri _ | DUnregister uri _ | DListen uri _ _ _ _ _ _ | DConnect uri _ _ _ _ => Some uri
  | DCleanup _ => None
  end.

(** A call is at most one operation of the directory, and one that adds or
    removes a name for its caller needs the right for that name. *)
Definition permitted (rights : Z) (ob : objects) (op : directory_op) : Prop :=
  match op with
  | DRegister uri _ _ _ _ | DUnregister uri _ | DListen uri _ _ _ _ _ _ =>
    service_directory_mutation_allowed uri rights = true
  | DResolve _ ob' | DConnect _ _ ob' _ _ => ob' = ob
  | DCleanup _ => False
  end.

Lemma call_is_step d method_id request resources rights pid e :
  let d' := sv_directory (call d method_id request resources rights pid e) in
  d' = d ∨ ∃ op, permitted rights (se_objects e) op ∧ d' = (step d op).2.
Proof.
  unfold publish_service_directory_call, register_call, resolve_call, listen_call, connect_call, unregister_call, list_call.
  destruct (_ =? _); [|destruct (_ =? _); [|destruct (_ =? _); [|destruct (_ =? _); [|destruct (_ =? _); [|destruct (_ =? _)]]]]].
  - destruct (decode_register c request) as [[uri index]|]; [|by left]. destruct (_ || _); [by left|].
    destruct (service_directory_mutation_allowed uri rights) eqn:Ha; [|by left]. cbn [negb].
    destruct (resources !! _) as [record|]; [|by left]. right. exists (DRegister uri record false pid (se_memory e)).
    split; [done|]. unfold directory_step. by destruct (register_service _ _ _ _ _ _) as [[[]]].
  - destruct (decode_resolve c request) as [uri|]; [|by left]. right. exists (DResolve uri (se_objects e)).
    split; [done|]. unfold directory_step. destruct (resolve_service _ _ _ _) as [[[]]].
    destruct (negb _); [done|]. by destruct (encode_resolve c).
  - destruct (decode_listen c request) as [[[[uri li] de] mp]|]; [|by left]. destruct (_ || _); [by left|].
    destruct (service_directory_mutation_allowed uri rights) eqn:Ha; [|by left]. cbn [negb].
    destruct (resources !! _) as [r1|]; [|by left]. destruct (resources !! _) as [r2|]; [|by left].
    destruct (take_object_to_table (c_resource r1)) as [[send t1] ev1].
    destruct (take_object_to_table (c_resource r2)) as [[desc t2] ev2]. right.
    exists (DListen uri send desc mp pid (se_objects e) (se_memory e)). split; [done|]. unfold directory_step.
    by destruct (listen_service _ _ _ _ _ _ _ _ _) as [[]].
  - destruct (decode_connect c request) as [[[[[uri uuid] ri] re] fe]|]; [|by left]. right.
    eexists (DConnect uri _ (se_objects e) (se_world e) (se_globals e)). split; [done|]. unfold directory_step. cbv zeta.
    destruct (negb _); [done|]. by destruct (encode_connect c _ _).
  - destruct (decode_unregister c request) as [uri|]; [|by left].
    destruct (service_directory_mutation_allowed uri rights) eqn:Ha; [|by left]. cbn [negb]. right.
    exists (DUnregister uri pid). split; [done|]. unfold directory_step. by destruct (unregister_service _ _ _ _) as [[]].
  - left. destruct (decode_list c request) as [[]|]; [|done]. destruct (_ <? _); [done|].
    destruct (list_services _ _ _ _) as [[[]]]. destruct (negb _); [done|]. by destruct (encode_list c _ _ _).
  - by left.
Qed.

(** An operation leaves the other names alone. *)
Lemma registry_step_other m op uri :
  op_name op ≠ None → op_name op ≠ Some uri →
  (spec m op).2.1 !! uri = m.1 !! uri ∧ (spec m op).2.2 !! uri = m.2 !! uri.
Proof.
  intros Hn Hu. destruct op; simpl in Hn, Hu; try done; unfold registry_step;
    repeat (case_match; simpl; try done); rewrite ?lookup_insert_ne, ?lookup_delete_ne by congruence; done.
Qed.

Lemma allowed_system uri rights :
  system_prefix `prefix_of` uri → service_directory_mutation_allowed uri rights = true →
  has_flag rights SERVICE_DIRECTORY_RIGHT_SYSTEM_MANAGER = true.
Proof.
  intros [rest ->]. unfold service_directory_mutation_allowed. rewrite length_app, take_app_length.
  rewrite bool_decide_eq_true_2 by done. destruct (Z.leb_spec (Z.of_nat (length system_prefix))
    (Z.of_nat (length system_prefix + length rest))); [done|lia].
Qed.

(** C25: A directory capability without the system-manager right cannot touch
    the names below naos://system/.  Whatever method it calls, a service there
    stays as it is, unless it is a one-shot or unique one, which a look-up
    hands out and removes; a listener there stays, unless its channel or
    descriptor is dead, in which case a connect removes it.  No call adds or
    replaces a name there. *)
Theorem system_namespace_protected d method_id request resources rights pid e uri :
  directory_wf d → has_flag rights SERVICE_DIRECTORY_RIGHT_SYSTEM_MANAGER = false → system_prefix `prefix_of` uri →
  let d' := sv_directory (call d method_id request resources rights pid e) in
  (services d' !! uri = services d !! uri ∨
   services d' !! uri = None ∧ ∃ s, services d !! uri = Some s ∧
     (s_one_shot s || from_option (ob_unique (se_objects e)) false (s_object s)) = true) ∧
  (listeners d' !! uri = listeners d !! uri ∨
   listeners d' !! uri = None ∧ ∃ l, listeners d !! uri = Some l ∧
     (listener_live (se_objects e) (l_send l) = false ∨ descriptor_of (se_objects e) (l_descriptor l) = None)).
Proof using remove_at_spec.
  intros Hwf Hr Hsys d'. destruct (call_is_step d method_id request resources rights pid e) as [Hd|(op & Hop & Hd)];
    fold d' in Hd; rewrite Hd; [by split; left|]. clear d' Hd.
  destruct (directory_step_refines remove_at remove_at_spec scope_none scope_terminal_master scope_terminal_slave d op Hwf)
    as [_ Hst]. pose proof (f_equal (λ p, p.2.1 !! uri) Hst) as H1. pose proof (f_equal (λ p, p.2.2 !! uri) Hst) as H2.
  cbn [fst snd registry_of] in H1, H2. rewrite <- H1, <- H2. clear Hst H1 H2.
  destruct (decide (op_name op = Some uri)) as [Hn|Hn].
  2: { destruct (registry_step_other (registry_of d) op uri) as [E1 E2]; [by destruct op|done|].
       split; left; [exact E1|exact E2]. }
  destruct op; simpl in Hn, Hop; simplify_eq;
    try (apply allowed_system in Hop; [congruence|done]); unfold registry_step; cbn [registry_of fst snd].
  - destruct (negb _); [by split; left|]. destruct (services d !! uri) as [s|] eqn:Hs; [|by split; left].
    destruct (_ || _) eqn:Hone; [|by split; left]. cbn [fst snd]. rewrite lookup_delete_eq. split; [right|by left]. eauto.
  - destruct (negb _); [by split; left|]. destruct (listeners d !! uri) as [l|] eqn:Hl; [|by split; left].
    destruct (channel_of (se_objects e) (l_send l)) as [[st side]|] eqn:Hch.
    2: { cbn [fst snd]. rewrite lookup_delete_eq. split; [by left|right]. split; [done|]. exists l. split; [done|]. left.
         unfold listener_live. by rewrite Hch. }
    destruct (descriptor_of _ _) eqn:Hde.
    2: { cbn [fst snd]. rewrite lookup_delete_eq. split; [by left|right]. eauto. }
    destruct (has_flag (signals st side) _) eqn:Hp; cbn [fst snd]; [|by split; left]. rewrite lookup_delete_eq.
    split; [by left|right]. split; [done|]. exists l. split; [done|]. left. unfold listener_live. by rewrite Hch, Hp.
Qed.
End namespace.

(** A registration that fails leaves the handle with its caller, as
    include/naos/service_directory.hpp promises. *)
Lemma failed_register_keeps_record d uri record one_shot owner mem :
  let '(error, d', record', ev) := register_service d uri record one_shot owner mem in
  if error =? 0 then t_object (c_resource record') = None ∧ entries_ d' = entries_ d ++
         [Build_service uri (t_object (c_resource record)) (t_meta (c_resource record)) one_shot owner]
  else record' = record ∧ d' = d ∧ ev = [].
Proof.
  unfold register_service, take_object_to_table, resource_valid. destruct (_ || _) eqn:Hv; [done|].
  destruct (dm_string mem), (dm_capacity mem); try done. cbn [negb]. destruct (bool_decide _); [done|].
  destruct (t_object (c_resource record)) as [o|]; [done|]. by rewrite orb_true_r in Hv.
Qed.

(** A register call either publishes the service under the caller's
    process or leaves everything with the caller.  When the reply carries an
    error the directory is unchanged and so are all records of the request,
    which the worker puts back into the caller's table; when it does not, the
    named record has given its object to the directory and the others are
    untouched. *)
Theorem register_call_moves_or_keeps c d request resources rights pid e :
  let s := register_call c d request resources rights pid e in
  (∃ error, sv_result s = Replied [] [] error ∧ error ≠ 0 ∧ sv_directory s = d ∧ sv_resources s = resources
            ∧ sv_events s = []) ∨
  (∃ uri index record, sv_result s = Replied [] [] 0 ∧ decode_register c request = Some (uri, index) ∧
     resources !! Z.to_nat index = Some record ∧ service_directory_mutation_allowed uri rights = true ∧
     entries_ (sv_directory s) = entries_ d ++
       [Build_service uri (t_object (c_resource record)) (t_meta (c_resource record)) false pid] ∧
     listeners_ (sv_directory s) = listeners_ d ∧
     ∃ record', sv_resources s = <[Z.to_nat index := record']> resources ∧ t_object (c_resource record') = None).
Proof.
  unfold register_call. destruct (decode_register c request) as [[uri index]|]; [|left; by eexists].
  destruct (_ || _); [left; by eexists|].
  destruct (service_directory_mutation_allowed uri rights) eqn:Ha; [|left; by eexists]. cbn [negb].
  destruct (resources !! Z.to_nat index) as [record|] eqn:Hr; [|left; by eexists].
  pose proof (failed_register_keeps_record d uri record false pid (se_memory e)) as H.
  assert (listeners_ (register_service d uri record false pid (se_memory e)).1.1.2 = listeners_ d) as Hl.
  { unfold register_service. repeat (case_match; simplify_eq/=; try done). }
  destruct (register_service _ _ _ _ _ _) as [[[error d'] record'] ev]. destruct (Z.eqb_spec error 0) as [->|Hne].
  - right. exists uri, index, record. cbn in *. destruct H as [H1 H2]. eauto 12.
  - left. destruct H as (-> & -> & ->). exists error. simpl. rewrite list_insert_id by done. done.
Qed.

(** ** Samples *)

Module ServiceSample.
(** The two usual ways to take an element out of a vector. *)
Definition shifting (A : Type) (l : list A) (i : nat) : list A := delete i l.
Definition swapping (A : Type) (l : list A) (i : nat) : list A :=
  match last (drop (S i) l) with
  | Some x => take i l ++ x :: removelast (drop (S i) l)
  | None => take i l
  end.

Lemma shifting_removes : removes shifting.
Proof.
  intros A l i x Hi. exists (drop (S i) l). split; [|done]. unfold shifting. apply delete_take_drop.
Qed.

Lemma swapping_removes : removes swapping.
Proof.
  intros A l i x Hi. unfold swapping. destruct (last (drop (S i) l)) as [y|] eqn:Hl.
  - eexists. split; [done|]. apply last_Some in Hl as [k ->]. rewrite removelast_app by done. simpl. rewrite app_nil_r.
    apply Permutation_cons_append.
  - exists []. rewrite app_nil_r. split; [done|]. apply last_None in Hl. by rewrite Hl.
Qed.

Definition console : list Z := system_prefix ++ [99; 111; 110; 115; 111; 108; 101].
Definition echo : list Z := uri_prefix ++ [101; 99; 104; 111].
Definition record (o : Z) : transfer_record :=
  Build_record 5 true (Build_transferred (Some o) default_metadata true) empty_token.
Definition mem : directory_memory := Build_directory_memory true true.
Definition pd : protocol_descriptor := Build_descriptor 0 0 (replicate 16 7) 5 3 6 14 1 64 64 2 0 0 [1] [] [2].
Definition st : channel_state := set_owners 1 1 (set_owners 0 1 (make_channel 8 4096 8 true true true)).
Definition ob : objects :=
  Build_objects (λ o, if o =? 20 then Some (st, 0) else None) (λ o, if o =? 21 then Some pd else None) (λ o, o =? 30).
Definition ops : list directory_op :=
  [DRegister console (record 10) false 3 mem; DRegister echo (record 30) false 4 mem;
   DListen (echo ++ [50]) (Some 20) (Some 21) 4 4 ob mem; DRegister console (record 11) false 5 mem;
   DResolve echo ob; DUnregister console 4; DCleanup 4].
Definition state : directory := (run_ops (directory_step swapping 0 8 9) make_directory (take 3 ops)).2.
Definition request : connect_request :=
  Build_connect_request (replicate 16 7) 4 2 2 (Build_endpoint_env 40 41 42 true true true true) 50 true true.
Definition codec : service_codec :=
  Build_service_codec 1 2 5 6 3 4 (λ l, Some (l, 0)) (λ _ _, true) Some (Some []) (λ _, None) (λ _ _, true) (λ _, None)
    (λ r f, Some [r; f]) Some (λ _, Some (0, 512)) (λ n k l, Some (n :: k :: l)).
Definition env : service_env :=
  Build_service_env ob mem true initial_world (Build_globals 0 0 0) (Build_endpoint_env 40 41 42 true true true true) 50 true
    true.

Lemma state_wf : directory_wf state.
Proof.
  split; [apply (bool_decide_unpack _); vm_compute; exact I..| |].
  - vm_compute. repeat constructor; discriminate.
  - vm_compute. repeat constructor; discriminate.
Qed.

Lemma connects : cn_error (connect_service swapping 0 8 9 state (echo ++ [50]) request ob initial_world (Build_globals 0 0 0)) = 0.
Proof. vm_compute. reflexivity. Qed.
Lemma console_there : services state !! console = Some (Build_service console (Some 10) default_metadata false 3).
Proof. vm_compute. reflexivity. Qed.
Lemma console_system : system_prefix `prefix_of` console.
Proof. exists [99; 111; 110; 115; 111; 108; 101]. reflexivity. Qed.
Lemma names_short : Forall (λ s, (length (s_uri s) ≤ 255)%nat) (entries_ state).
Proof. vm_compute. repeat constructor. Qed.
End ServiceSample.

Lemma directory_refines_registry_witness :
  let '(results, d) := run_ops (directory_step ServiceSample.swapping 0 8 9) make_directory ServiceSample.ops in
  run_ops (registry_step 0 8 9) (∅, ∅) ServiceSample.ops = (results, registry_of d).
Proof.
  pose proof (directory_refines_registry ServiceSample.swapping ServiceSample.swapping_removes 0 8 9 ServiceSample.ops) as H.
  destruct (run_ops (directory_step ServiceSample.swapping 0 8 9) make_directory ServiceSample.ops) as [results d].
  exact (proj2 H).
Defined.

Lemma directory_roots_balance_witness :
  let d := (run_ops (directory_step ServiceSample.shifting 0 8 9) make_directory ServiceSample.ops).2 in
  sum_Z ((λ op, handed_over op 20) <$> ServiceSample.ops)
  + net 20 table_root (directory_log ServiceSample.shifting 0 8 9 make_directory ServiceSample.ops ++ destroy_directory d) = 0.
Proof.
  exact (proj2 (directory_roots_balance ServiceSample.shifting ServiceSample.shifting_removes 0 8 9 ServiceSample.ops 20)).
Defined.

Lemma list_pages_enumerate_witness :
  list_all 4 ServiceSample.state 0 256 = listed (entries_ ServiceSample.state).
Proof.
  exact (list_pages_enumerate ServiceSample.state 0 256 4 ServiceSample.names_short ltac:(vm_compute; split; discriminate)
    ltac:(vm_compute; split; discriminate) ltac:(vm_compute; repeat constructor)).
Defined.

Lemma connect_gives_both_ends_witness :
  ∃ l, listeners ServiceSample.state !! (ServiceSample.echo ++ [50]) = Some l.
Proof.
  destruct (connect_gives_both_ends ServiceSample.swapping 0 8 9 ServiceSample.state (ServiceSample.echo ++ [50])
    ServiceSample.request ServiceSample.ob initial_world (Build_globals 0 0 0) ServiceSample.state_wf ServiceSample.connects)
    as (l & _ & _ & _ & _ & Hl & _). exists l. exact Hl.
Defined.

Lemma system_namespace_protected_witness :
  services (sv_directory (publish_service_directory_call ServiceSample.shifting 0 8 9 ServiceSample.codec
    ServiceSample.state 3 ServiceSample.console [] 3 3 ServiceSample.env)) !! ServiceSample.console
  = services ServiceSample.state !! ServiceSample.console.
Proof.
  destruct (system_namespace_protected ServiceSample.shifting ServiceSample.shifting_removes 0 8 9 ServiceSample.codec
    ServiceSample.state 3 ServiceSample.console [] 3 3 ServiceSample.env ServiceSample.console ServiceSample.state_wf
    eq_refl ServiceSample.console_system) as [[H|[_ (s & Hs & Hone)]] _]; [exact H|].
  rewrite ServiceSample.console_there in Hs. injection Hs as <-. discriminate Hone.
Defined.
