(* ===== verification/VmAllocator.v ===== *)
(** The virtual-memory areas of an address space: [vm_t] and [vm_allocator] of
    includes/kernel/mm/vm.hpp and src/kernel/mm/vm.cc.

    The areas are kept in [freelibcxx::skip_list], ordered by their end.  That
    container is not part of the repository: the class [AreaList] has the three
    operations the allocator uses and [AreaListLaws] what an ordered list
    promises of them; [SortedList] is a list that keeps the laws.  A
    [vm_allocator] method runs under the list lock and is one function; a null
    [vm_t] pointer is [None].  The theorems show that first-fit allocation takes
    the lowest free range and never overlaps an area, that a lookup finds
    exactly the area of an address, and what fixed-address mapping does not
    check. *)
From stdpp Require Import base list numbers sorting.
From S2P Require Import Prelude.

Local Open Scope Z_scope.
Set Default Proof Using "Type".

(** ** Pages *)

Definition page_size : Z := 0x1000.

(** [v & ~(m - 1)] and [(v + (m - 1)) & ~(m - 1)] on 64 bits. *)
Definition align_down (v m : Z) : Z := Z.ldiff v (m - 1).
Definition align_up (v m : Z) : Z := Z.ldiff (u64 (v + (m - 1))) (m - 1).

Definition page_aligned (v : Z) : bool := v =? align_down v page_size.

(** ** Areas *)

Module VmFlags.

Definition readable : Z := 2 ^ 0.
Definition writeable : Z := 2 ^ 1.
Definition executeable : Z := 2 ^ 2.
Definition disable_cache : Z := 2 ^ 4.
Definition expand : Z := 2 ^ 11.
Definition user_mode : Z := 2 ^ 12.
Definition lock : Z := 2 ^ 13.
Definition cow : Z := 2 ^ 14.
Definition populate : Z := 2 ^ 15.
Definition file : Z := 2 ^ 16.
Definition shared : Z := 2 ^ 19.

End VmFlags.

Inductive page_fault_method : Type :=
| pf_none
| pf_heap_break
| pf_common
| pf_common_with_bss
| pf_file
| pf_memory_object
| pf_physical.

#[global] Instance page_fault_method_eq_dec : EqDecision page_fault_method.
Proof. solve_decision. Defined.

Record vm_t : Type := Build_vm_t {
  start : Z;
  end_ : Z;
  flags : Z;
  method : page_fault_method;
  user_data : Z;
}.

#[global] Instance vm_t_eq_dec : EqDecision vm_t.
Proof. solve_decision. Defined.

(** The three-argument constructor. *)
Definition search_key (p : Z) : vm_t := Build_vm_t p p 0 pf_none 0.

Definition search_vma (vm : vm_t) (p : Z) : Z :=
  if end_ vm <=? p then 1 else if p <? start vm then -1 else 0.

(** [vm_t::operator<=]. *)
Definition end_le (a b : vm_t) : Prop := end_ a ≤ end_ b.

(** ** The ordered list *)

(** [freelibcxx::skip_list<vm_t>]: its elements in iteration order, insertion,
    removal of an element and the first element greater than a key. *)
Class AreaList : Type := {
  insert_area : list vm_t → vm_t → list vm_t;
  remove_area : list vm_t → vm_t → list vm_t;
  upper_find : list vm_t → vm_t → option vm_t;
}.

Class AreaListLaws `{AreaList} : Prop := {
  insert_area_perm l x : insert_area l x ≡ₚ x :: l;
  insert_area_sorted l x : StronglySorted end_le l → StronglySorted end_le (insert_area l x);
  remove_area_perm l x : StronglySorted end_le l → NoDup (end_ <$> l) → x ∈ l → x :: remove_area l x ≡ₚ l;
  remove_area_sorted l x : StronglySorted end_le l → StronglySorted end_le (remove_area l x);
  upper_find_first l x :
    StronglySorted end_le l → upper_find l x = head (filter (λ y, end_ x < end_ y) l);
}.

(** ** The allocator *)

Record vm_allocator : Type := Build_vm_allocator {
  areas : list vm_t;
  range_top : Z;
  range_bottom : Z;
}.

Implicit Types (v : vm_allocator) (vm : vm_t) (l : list vm_t).

Definition make_vm_allocator (top bottom : Z) : vm_allocator := Build_vm_allocator [] top bottom.
Definition set_range v (top bottom : Z) : vm_allocator := Build_vm_allocator (areas v) top bottom.
Definition with_areas v l : vm_allocator := Build_vm_allocator l (range_top v) (range_bottom v).

(** The scan of [allocate_map]: the low bound of the first gap of [size]
    bytes, or the end of the last area when no gap between areas is enough. *)
Fixpoint first_gap l (low_bound size : Z) : Z + Z :=
  match l with
  | [] => inr low_bound
  | vm :: rest =>
      if size <=? u64 (start vm - low_bound) then inl low_bound else first_gap rest (end_ vm) size
  end.

Section allocator.
Context `{AreaList}.

Definition allocate_map v (size flags : Z) (method : page_fault_method) (user_data : Z) :
    option vm_t * vm_allocator :=
  let size := align_up size page_size in
  let place low_bound :=
    let vm := Build_vm_t low_bound (u64 (low_bound + size)) flags method user_data in
    (Some vm, with_areas v (insert_area (areas v) vm)) in
  match first_gap (areas v) (range_bottom v) size with
  | inl low_bound => place low_bound
  | inr low_bound => if range_top v <? u64 (low_bound + size) then (None, v) else place low_bound
  end.

Definition deallocate_map v vm : vm_allocator := with_areas v (remove_area (areas v) vm).

Definition deallocate_map_at v (p : Z) : bool * vm_allocator :=
  match upper_find (areas v) (search_key p) with
  | Some it => if start it =? p then (true, deallocate_map v it) else (false, v)
  | None => (false, v)
  end.

(** [None] where an assertion of [add_map] stops the kernel. *)
Definition add_map v (start_ end' flags : Z) (method : page_fault_method) (user_data : Z) :
    option (option vm_t * vm_allocator) :=
  if negb ((start_ <? end') && page_aligned start_ && page_aligned end') then None
  else if start_ <? range_bottom v then Some (None, v)
  else if range_top v <? end' then Some (None, v)
  else
    let vm := Build_vm_t start_ end' flags method user_data in
    let inserted := (Some vm, with_areas v (insert_area (areas v) vm)) in
    Some match areas v with
         | [] => inserted
         | _ =>
             match upper_find (areas v) vm with
             | Some it => if (start it =? start_) || (end_ it =? end') then (None, v) else inserted
             | None => inserted
             end
         end.

Definition get_vm_area v (p : Z) : option vm_t :=
  match upper_find (areas v) (search_key p) with
  | Some it => if (start it <=? p) && (p <? end_ it) then Some it else None
  | None => None
  end.

End allocator.

(** ** A list that keeps the laws *)

Module SortedList.

Fixpoint insert l (x : vm_t) : list vm_t :=
  match l with
  | [] => [x]
  | y :: l' => if end_ x <=? end_ y then x :: l else y :: insert l' x
  end.

Fixpoint remove l (x : vm_t) : list vm_t :=
  match l with
  | [] => []
  | y :: l' => if end_ x =? end_ y then l' else y :: remove l' x
  end.

#[export] Instance sorted_list : AreaList := {|
  insert_area := insert;
  remove_area := remove;
  upper_find l x := head (filter (λ y, end_ x < end_ y) l);
|}.

Lemma insert_perm l x : insert l x ≡ₚ x :: l.
Proof.
  induction l as [|y l IH]; simpl; [done|]. destruct (end_ x <=? end_ y); [done|].
  rewrite IH. apply Permutation_swap.
Qed.

Lemma insert_sorted l x : StronglySorted end_le l → StronglySorted end_le (insert l x).
Proof.
  induction 1 as [|y l Hs IH Hy]; simpl; [by repeat constructor|].
  destruct (end_ x <=? end_ y) eqn:E.
  - apply Z.leb_le in E. repeat constructor; try done.
    eapply Forall_impl; [exact Hy|]. unfold end_le. intros; lia.
  - apply Z.leb_gt in E. constructor; [done|]. rewrite insert_perm. constructor; [|done].
    unfold end_le. lia.
Qed.

Lemma remove_sorted l x : StronglySorted end_le l → StronglySorted end_le (remove l x).
Proof.
  induction 1 as [|y l Hs IH Hy]; simpl; [constructor|].
  destruct (end_ x =? end_ y); [done|]. constructor; [done|].
  clear -Hy. induction Hy as [|z l Hz Hy IH]; simpl; [constructor|].
  destruct (end_ x =? end_ z); [done|]. by constructor.
Qed.

Lemma remove_perm l x : NoDup (end_ <$> l) → x ∈ l → x :: remove l x ≡ₚ l.
Proof.
  induction l as [|y l IH]; csimpl; intros Hd Hx; [by apply not_elem_of_nil in Hx|].
  apply NoDup_cons in Hd as [Hy Hd]. apply elem_of_cons in Hx as [->|Hx].
  - by rewrite Z.eqb_refl.
  - destruct (end_ x =? end_ y) eqn:E.
    + apply Z.eqb_eq in E. destruct Hy. rewrite <-E. by apply list_elem_of_fmap_2.
    + rewrite Permutation_swap. f_equiv. by apply IH.
Qed.

#[export] Instance sorted_list_laws : AreaListLaws.
Proof.
  split; intros; [by apply insert_perm|by apply insert_sorted|by apply remove_perm
    |by apply remove_sorted|done].
Qed.

End SortedList.

(** ** Rounding *)

Lemma align_down_page a : 0 ≤ a → align_down a page_size = page_size * (a / page_size).
Proof.
  intros. unfold align_down, page_size. change (0x1000 - 1) with (Z.ones 12).
  rewrite Z.ldiff_ones_r, Z.shiftl_mul_pow2, Z.shiftr_div_pow2 by lia. change (2 ^ 12) with 0x1000. lia.
Qed.

Lemma align_up_page a :
  0 ≤ a → a + (page_size - 1) < 2 ^ 64 → align_up a page_size = page_size * ((a + (page_size - 1)) / page_size).
Proof.
  intros. unfold align_up. rewrite u64_small by (unfold page_size in *; lia).
  apply (align_down_page (a + (page_size - 1))). unfold page_size. lia.
Qed.

(** Rounding up gives a whole number of pages, less than a page more. *)
Lemma align_up_rounds a :
  0 ≤ a → a + (page_size - 1) < 2 ^ 64 →
  a ≤ align_up a page_size ∧ align_up a page_size < a + page_size ∧ (page_size | align_up a page_size).
Proof.
  intros Ha Hb. rewrite align_up_page by done. split; [|split; [|apply Z.divide_factor_l]].
  all: pose proof (Z.div_mod (a + (page_size - 1)) page_size ltac:(done)).
  all: pose proof (Z.mod_pos_bound (a + (page_size - 1)) page_size ltac:(done)); unfold page_size in *; lia.
Qed.

Lemma page_aligned_spec a : 0 ≤ a → page_aligned a = true ↔ (page_size | a).
Proof.
  intros Ha. unfold page_aligned. rewrite align_down_page by done. rewrite Z.eqb_eq. split.
  - intros ->. apply Z.divide_factor_l.
  - intros [k ->]. rewrite Z.div_mul by done. lia.
Qed.

Lemma page_aligned_true a : 0 ≤ a → (page_size | a) → page_aligned a = true.
Proof. intros. by apply page_aligned_spec. Qed.

(** ** Well-formed address spaces *)

Definition before (a b : vm_t) : Prop := end_ a ≤ start b.

Record area_ok v vm : Prop := Build_area_ok {
  area_bottom : range_bottom v ≤ start vm;
  area_nonempty : start vm < end_ vm;
  area_top : end_ vm ≤ range_top v;
  area_start_aligned : (page_size | start vm);
  area_end_aligned : (page_size | end_ vm);
}.

(** The areas are pages of the range and, in iteration order, one after the
    other. *)
Record areas_wf v : Prop := Build_areas_wf {
  wf_range : 0 ≤ range_bottom v ∧ range_bottom v ≤ range_top v ∧ range_top v < 2 ^ 64;
  wf_bottom_aligned : (page_size | range_bottom v);
  wf_each : Forall (area_ok v) (areas v);
  wf_ordered : StronglySorted before (areas v);
}.

Lemma area_ok_with_areas v l vm : area_ok v vm → area_ok (with_areas v l) vm.
Proof. intros []. by constructor. Qed.

(** [size] bytes from [a] on are in the range and touch no area. *)
Definition free_at v (a size : Z) : Prop :=
  range_bottom v ≤ a ∧ a + size ≤ range_top v ∧
  Forall (λ vm, a + size ≤ start vm ∨ end_ vm ≤ a) (areas v).

Definition contains vm (p : Z) : Prop := start vm ≤ p < end_ vm.

Lemma sorted_before_ends l :
  Forall (λ vm, start vm < end_ vm) l → StronglySorted before l → StronglySorted end_le l ∧ NoDup (end_ <$> l).
Proof.
  intros Hf Hs. induction Hs as [|x l Hs IH Hx]; csimpl; [by split; constructor|].
  apply Forall_cons in Hf as [Hx0 Hf]. destruct (IH Hf) as [Hl Hd].
  assert (Forall (λ y, end_ x < end_ y) l) as Hlt.
  { apply Forall_forall. intros y Hy. rewrite Forall_forall in Hf, Hx.
    specialize (Hf y Hy). specialize (Hx y Hy). unfold before in Hx. lia. }
  split.
  - constructor; [done|]. eapply Forall_impl; [exact Hlt|]. unfold end_le. simpl. lia.
  - apply NoDup_cons. split; [|done]. intros He. apply list_elem_of_fmap in He as (y & Hy & Hin).
    rewrite Forall_forall in Hlt. specialize (Hlt y Hin). lia.
Qed.

Lemma areas_wf_nonempty v : areas_wf v → Forall (λ vm, start vm < end_ vm) (areas v).
Proof. intros Hw. eapply Forall_impl; [exact (wf_each v Hw)|]. intros vm Ho. apply Ho. Qed.

Lemma areas_wf_sorted v : areas_wf v → StronglySorted end_le (areas v).
Proof. intros Hw. apply sorted_before_ends; [by apply areas_wf_nonempty|apply Hw]. Qed.

Lemma areas_wf_nodup v : areas_wf v → NoDup (end_ <$> areas v).
Proof. intros Hw. apply sorted_before_ends; [by apply areas_wf_nonempty|apply Hw]. Qed.

(** Any two areas of the list are one before the other. *)
Definition apart (a b : vm_t) : Prop := before a b ∨ before b a.
Definition pairwise_apart l : Prop :=
  ∀ i j a b, l !! i = Some a → l !! j = Some b → i ≠ j → apart a b.

Lemma pairwise_apart_perm l1 l2 : l1 ≡ₚ l2 → pairwise_apart l2 → pairwise_apart l1.
Proof.
  intros [_ (f & Hinj & Hf)]%Permutation_inj Hp i j a b Ha Hb Hij.
  rewrite Hf in Ha, Hb. apply (Hp (f i) (f j)); [done|done|]. intros Hfe. by apply Hij, Hinj.
Qed.

Lemma pairwise_apart_cons x l : pairwise_apart (x :: l) ↔ Forall (apart x) l ∧ pairwise_apart l.
Proof.
  split.
  - intros Hp. split.
    + apply Forall_lookup. intros i y Hy. by apply (Hp 0%nat (S i)).
    + intros i j a b Ha Hb Hij. apply (Hp (S i) (S j)); [done|done|lia].
  - intros [Hx Hp] [|i] [|j] a b Ha Hb Hij; simplify_eq/=.
    + rewrite Forall_lookup in Hx. by apply (Hx j).
    + rewrite Forall_lookup in Hx. specialize (Hx i a Ha). unfold apart in *. tauto.
    + apply (Hp i j); [done|done|lia].
Qed.

Lemma sorted_before_iff l :
  Forall (λ vm, start vm < end_ vm) l →
  StronglySorted before l ↔ StronglySorted end_le l ∧ pairwise_apart l.
Proof.
  intros Hf. split.
  - intros Hs. split; [by apply sorted_before_ends|]. clear Hf.
    induction Hs as [|x l Hs IH Hx]; [by intros [|i] j a b Ha|].
    apply pairwise_apart_cons. split; [|done]. eapply Forall_impl; [exact Hx|]. by left.
  - intros [Hs Hp]. induction Hs as [|x l Hs IH Hx]; [constructor|].
    apply Forall_cons in Hf as [Hx0 Hf]. apply pairwise_apart_cons in Hp as [Hxa Hp].
    constructor; [by apply IH|]. rewrite Forall_forall in Hx, Hf, Hxa |- *. intros y Hy.
    specialize (Hx y Hy). specialize (Hf y Hy). destruct (Hxa y Hy) as [?|Hyx]; [done|].
    unfold end_le, before in *. simpl in Hf. lia.
Qed.

Section facts.
Context `{HL : AreaListLaws}.

Lemma areas_wf_insert v vm :
  areas_wf v → area_ok v vm → Forall (apart vm) (areas v) →
  areas_wf (with_areas v (insert_area (areas v) vm)).
Proof using HL.
  intros Hw Ho Ha. pose proof (areas_wf_sorted v Hw) as Hs.
  assert (Forall (area_ok v) (insert_area (areas v) vm)) as Hok.
  { rewrite insert_area_perm. constructor; [done|apply Hw]. }
  constructor; [apply Hw|apply Hw| |].
  - eapply Forall_impl; [exact Hok|]. apply area_ok_with_areas.
  - apply sorted_before_iff.
    + eapply Forall_impl; [exact Hok|]. intros a Hao. apply Hao.
    + split; [by apply insert_area_sorted|]. eapply pairwise_apart_perm; [apply insert_area_perm|].
      apply pairwise_apart_cons. split; [done|].
      apply (sorted_before_iff (areas v)); [by apply areas_wf_nonempty|apply Hw].
Qed.

Lemma areas_wf_remove v vm :
  areas_wf v → vm ∈ areas v → areas_wf (deallocate_map v vm) ∧ vm :: areas (deallocate_map v vm) ≡ₚ areas v.
Proof using HL.
  intros Hw Hin. pose proof (areas_wf_sorted v Hw) as Hs.
  pose proof (remove_area_perm _ _ Hs (areas_wf_nodup v Hw) Hin) as Hp.
  assert (Forall (area_ok v) (vm :: remove_area (areas v) vm)) as Hok by (rewrite Hp; apply Hw).
  apply Forall_cons in Hok as [_ Hok]. split; [|done].
  constructor; [apply Hw|apply Hw| |].
  - eapply Forall_impl; [exact Hok|]. apply area_ok_with_areas.
  - apply sorted_before_iff.
    + eapply Forall_impl; [exact Hok|]. intros a Hao. apply Hao.
    + split; [by apply remove_area_sorted|].
      assert (pairwise_apart (vm :: remove_area (areas v) vm)) as Hpa.
      { eapply pairwise_apart_perm; [exact Hp|].
        apply (sorted_before_iff (areas v)); [by apply areas_wf_nonempty|apply Hw]. }
      by apply pairwise_apart_cons in Hpa as [_ Hpa].
Qed.

(** An address belongs to one area at most. *)
Lemma contains_unique v a b p :
  areas_wf v → a ∈ areas v → b ∈ areas v → contains a p → contains b p → a = b.
Proof using Type.
  intros Hw [i Hi]%list_elem_of_lookup [j Hj]%list_elem_of_lookup Ha Hb.
  destruct (decide (i = j)) as [->|Hij]; [congruence|].
  assert (pairwise_apart (areas v)) as Hp
    by (apply (sorted_before_iff (areas v)); [by apply areas_wf_nonempty|apply Hw]).
  destruct (Hp i j a b Hi Hj Hij); unfold before, contains in *; lia.
Qed.

(** *** Lookups *)

Lemma head_filter_least (P : vm_t → Prop) `{∀ y, Decision (P y)} l x :
  StronglySorted end_le l → x ∈ l → P x → (∀ y, y ∈ l → P y → y = x ∨ end_ x < end_ y) →
  head (filter P l) = Some x.
Proof using Type.
  induction 1 as [|y l Hs IH Hy]; intros Hin Hx Hl; [by apply not_elem_of_nil in Hin|].
  destruct (decide (P y)) as [Hpy|Hpy].
  - rewrite filter_cons_True by done. destruct (Hl y) as [->|Hlt]; [left|done|done|].
    apply elem_of_cons in Hin as [->|Hin]; [lia|]. rewrite Forall_forall in Hy.
    specialize (Hy x Hin). unfold end_le in Hy. lia.
  - rewrite filter_cons_False by done. apply elem_of_cons in Hin as [->|Hin]; [done|].
    apply IH; [done..|]. intros z Hz. apply Hl. by right.
Qed.

(** An area that contains [p] is the first that ends after it. *)
Lemma ends_after_area v vm y p :
  areas_wf v → vm ∈ areas v → contains vm p → y ∈ areas v → p < end_ y → y = vm ∨ end_ vm < end_ y.
Proof using Type.
  intros Hw [i Hi]%list_elem_of_lookup Hc [j Hj]%list_elem_of_lookup Hp.
  destruct (decide (i = j)) as [->|Hij]; [left; congruence|right].
  assert (pairwise_apart (areas v)) as Hpa
    by (apply (sorted_before_iff (areas v)); [by apply areas_wf_nonempty|apply Hw]).
  pose proof (areas_wf_nonempty v Hw) as Hne. rewrite Forall_lookup in Hne. specialize (Hne j y Hj). simpl in Hne.
  destruct (Hpa i j vm y Hi Hj Hij); unfold before, contains in *; lia.
Qed.

Lemma upper_find_contains v p vm key :
  areas_wf v → vm ∈ areas v → contains vm p → end_ key = p → upper_find (areas v) key = Some vm.
Proof using HL.
  intros Hw Hin Hc <-. rewrite upper_find_first by (by apply areas_wf_sorted).
  apply head_filter_least; [by apply areas_wf_sorted|done|unfold contains in Hc; lia|].
  intros y Hy Hlt. by apply (ends_after_area v vm y (end_ key)).
Qed.

Lemma upper_find_elem l x vm :
  StronglySorted end_le l → upper_find l x = Some vm → vm ∈ l ∧ end_ x < end_ vm.
Proof using HL.
  intros Hs. rewrite upper_find_first by done. intros Hh.
  assert (vm ∈ filter (λ y, end_ x < end_ y) l) as Hin.
  { destruct (filter _ l) as [|y l']; simplify_eq/=. left. }
  apply list_elem_of_filter in Hin. tauto.
Qed.

(** a lookup returns exactly the area that contains the address. *)
Theorem get_vm_area_exact v p vm :
  areas_wf v → get_vm_area v p = Some vm ↔ vm ∈ areas v ∧ contains vm p.
Proof using HL.
  intros Hw. unfold get_vm_area. split.
  - destruct (upper_find _ _) as [it|] eqn:E; [|done].
    destruct ((start it <=? p) && (p <? end_ it)) eqn:E2; [|done]. intros [= ->].
    apply upper_find_elem in E as [Hin _]; [|by apply areas_wf_sorted].
    split; [done|]. unfold contains. lia.
  - intros [Hin Hc]. rewrite (upper_find_contains v p vm) by done. unfold contains in Hc.
    replace (start vm <=? p) with true by lia. by replace (p <? end_ vm) with true by lia.
Qed.

(** *** First fit *)

Definition avoids (a size : Z) vm : Prop := a + size ≤ start vm ∨ end_ vm ≤ a.

(** The position [first_gap] returns is the lowest one that avoids all areas;
    on the left it lies below an area, on the right above all of them. *)
Lemma first_gap_spec l (low size : Z) :
  0 < size → 0 ≤ low → (page_size | low) →
  Forall (λ vm, low ≤ start vm ∧ start vm < end_ vm ∧ end_ vm < 2 ^ 64 ∧ (page_size | end_ vm)) l →
  StronglySorted before l →
  ∃ a, (first_gap l low size = inl a ∧ Exists (λ vm, a + size ≤ start vm) l ∨
        first_gap l low size = inr a ∧ Forall (λ vm, end_ vm ≤ a) l) ∧
       low ≤ a ∧ (page_size | a) ∧ Forall (avoids a size) l ∧
       ∀ b, low ≤ b → Forall (avoids b size) l → a ≤ b.
Proof using Type.
  intros Hsize. revert low. induction l as [|vm l IH]; intros low Hlow Hal Hf Hs; simpl.
  { exists low. split; [by right|]. repeat split; [lia|done|constructor|done]. }
  apply Forall_cons in Hf as [(Hst & Hne & Htop & Hend) Hf].
  apply StronglySorted_inv in Hs as [Hs Hx].
  rewrite u64_small by lia. destruct (size <=? start vm - low) eqn:E.
  - exists low. split; [left; split; [done|]; left; lia|]. split; [lia|]. split; [done|]. split; [|done].
    constructor; [left; lia|]. rewrite Forall_forall in Hx, Hf |- *. intros y Hy.
    specialize (Hx y Hy). specialize (Hf y Hy). unfold before in Hx. left. lia.
  - destruct (IH (end_ vm)) as (a & Hr & Ha & Haa & Hav & Hmin); [lia|done| |done|].
    { rewrite Forall_forall in Hx, Hf |- *. intros y Hy. specialize (Hx y Hy).
      specialize (Hf y Hy). unfold before in Hx. tauto. }
    exists a. split; [|split; [lia|split; [done|split]]].
    + destruct Hr as [[-> Hr]|[-> Hr]]; [left; split; [done|by right]|right; split; [done|]].
      by constructor.
    + constructor; [by right|done].
    + intros b Hb Hba. apply Forall_cons in Hba as [Hvm Hba]. apply Hmin; [|done].
      unfold avoids in Hvm. lia.
Qed.

Lemma wf_gap_premise v :
  areas_wf v →
  Forall (λ vm, range_bottom v ≤ start vm ∧ start vm < end_ vm ∧ end_ vm < 2 ^ 64 ∧ (page_size | end_ vm)) (areas v).
Proof using Type.
  intros Hw. eapply Forall_impl; [exact (wf_each v Hw)|]. intros vm [????].
  pose proof (wf_range v Hw). repeat split; [done|done|lia|done].
Qed.

Lemma area_ok_placed v a size flags method user_data :
  areas_wf v → 0 < size → (page_size | a) → (page_size | size) → free_at v a size →
  let vm := Build_vm_t a (u64 (a + size)) flags method user_data in
  end_ vm = a + size ∧ area_ok v vm ∧ Forall (apart vm) (areas v).
Proof using Type.
  intros Hw Hsize Ha Hs (Hb & Ht & Hfree). pose proof (wf_range v Hw). simpl.
  rewrite u64_small by lia. split; [done|]. split.
  - constructor; simpl; [done|lia|done|done|by apply Z.divide_add_r].
  - eapply Forall_impl; [exact Hfree|]. intros x. unfold apart, before. simpl. tauto.
Qed.

Lemma allocate_map_spec v size flags method user_data :
  areas_wf v → 0 < size → size + (page_size - 1) < 2 ^ 64 → range_top v + align_up size page_size < 2 ^ 64 →
  let bytes := align_up size page_size in
  match allocate_map v size flags method user_data with
  | (Some vm, v') =>
      free_at v (start vm) bytes ∧ end_ vm = start vm + bytes ∧
      (∀ a, free_at v a bytes → start vm ≤ a) ∧
      areas v' ≡ₚ vm :: areas v ∧ areas_wf v' ∧ vm = Build_vm_t (start vm) (end_ vm) flags method user_data
  | (None, v') => v' = v ∧ ∀ a, ¬ free_at v a bytes
  end.
Proof using HL.
  intros Hw Hpos Hsize Htop. cbv zeta. unfold allocate_map.
  destruct (align_up_rounds size) as (Hb & _ & Hbd); [lia|done|].
  assert (0 < align_up size page_size) as Hb' by lia. clear Hb.
  set (bytes := align_up size page_size) in *.
  pose proof (wf_range v Hw) as Hr.
  destruct (first_gap_spec (areas v) (range_bottom v) bytes) as (a & Hg & Hla & Haa & Hav & Hmin);
    [done|lia|apply Hw|by apply wf_gap_premise|apply Hw|].
  assert (∀ b, free_at v b bytes → a ≤ b) as Hlow by (intros b (? & ? & ?); by apply Hmin).
  assert (a + bytes ≤ range_top v →
    let vm := Build_vm_t a (u64 (a + bytes)) flags method user_data in
    free_at v (start vm) bytes ∧ end_ vm = start vm + bytes ∧
    (∀ b, free_at v b bytes → start vm ≤ b) ∧
    areas (with_areas v (insert_area (areas v) vm)) ≡ₚ vm :: areas v ∧
    areas_wf (with_areas v (insert_area (areas v) vm)) ∧
    vm = Build_vm_t (start vm) (end_ vm) flags method user_data) as Hplace.
  { intros Hat. assert (free_at v a bytes) as Hfree by done.
    destruct (area_ok_placed v a bytes flags method user_data) as (He & Ho & Hap); [done..|].
    split; [done|]. split; [done|]. split; [done|].
    split; [apply insert_area_perm|]. split; [by apply areas_wf_insert|done]. }
  destruct Hg as [[-> Hex]|[-> Hall]].
  - apply Hplace. apply Exists_exists in Hex as (x & Hx & Hle).
    pose proof (wf_each v Hw) as Hea. rewrite Forall_forall in Hea. destruct (Hea x Hx). lia.
  - assert (a ≤ range_top v) as Ha.
    { apply Hmin; [lia|]. eapply Forall_impl; [exact (wf_each v Hw)|]. intros x []. by right. }
    destruct (range_top v <? u64 (a + bytes)) eqn:E; rewrite u64_small in E by lia.
    + split; [done|]. intros b Hfb. pose proof (Hlow b Hfb). destruct Hfb as (? & ? & ?). lia.
    + apply Hplace. lia.
Qed.

(** *** What the operations do to lookups *)

Definition in_range vm (p : Z) : bool := (start vm <=? p) && (p <? end_ vm).

Lemma in_range_spec vm p : in_range vm p = true ↔ contains vm p.
Proof using Type. unfold in_range, contains. lia. Qed.

Lemma get_vm_area_none v p :
  areas_wf v → get_vm_area v p = None ↔ Forall (λ vm, ¬ contains vm p) (areas v).
Proof using HL.
  intros Hw. rewrite Forall_forall. split.
  - intros Hn vm Hin Hc. assert (get_vm_area v p = Some vm) by (by apply get_vm_area_exact). congruence.
  - intros Hf. destruct (get_vm_area v p) as [vm|] eqn:E; [|done].
    apply get_vm_area_exact in E as [Hin Hc]; [|done]. by destruct (Hf vm Hin).
Qed.

(** A well-formed space with one more area finds it in its range and the old
    areas elsewhere. *)
Lemma get_vm_area_more v v' vm p :
  areas_wf v → areas_wf v' → areas v' ≡ₚ vm :: areas v →
  get_vm_area v' p = if in_range vm p then Some vm else get_vm_area v p.
Proof using HL.
  intros Hw Hw' Hp. destruct (in_range vm p) eqn:E.
  - apply in_range_spec in E. apply get_vm_area_exact; [done|]. rewrite Hp. split; [left|done].
  - assert (¬ contains vm p) as Hn by (by rewrite <-in_range_spec, E).
    destruct (get_vm_area v p) as [x|] eqn:Ex.
    + apply get_vm_area_exact in Ex as [Hin Hc]; [|done].
      apply get_vm_area_exact; [done|]. rewrite Hp. split; [by right|done].
    + apply get_vm_area_none in Ex; [|done]. apply get_vm_area_none; [done|]. rewrite Hp. by constructor.
Qed.

Lemma get_vm_area_less v v' vm p :
  areas_wf v → areas_wf v' → vm :: areas v' ≡ₚ areas v →
  get_vm_area v' p = if in_range vm p then None else get_vm_area v p.
Proof using HL.
  intros Hw Hw' Hp. symmetry in Hp. rewrite (get_vm_area_more v' v vm p) by done.
  destruct (in_range vm p) eqn:E; [|done]. apply in_range_spec in E.
  apply get_vm_area_none; [done|]. apply Forall_forall. intros x Hx Hc.
  assert (vm = x) as <-
    by (apply (contains_unique v vm x p); [done|rewrite Hp; left|rewrite Hp; by right|done|done]).
  pose proof (areas_wf_nodup v Hw) as Hd. rewrite Hp in Hd. csimpl in Hd.
  apply NoDup_cons in Hd as [Hd _]. apply Hd. by apply list_elem_of_fmap_2.
Qed.

(** C32: first-fit allocation.  If a range of the rounded size is free, the new
    area is the lowest such range, the address space stays well formed, and
    lookups in the range find the new area while all others find what they
    found before; otherwise nothing changes. *)
Theorem allocate_map_first_fit v size flags method user_data :
  areas_wf v → 0 < size → size + (page_size - 1) < 2 ^ 64 → range_top v + align_up size page_size < 2 ^ 64 →
  let bytes := align_up size page_size in
  match allocate_map v size flags method user_data with
  | (Some vm, v') =>
      free_at v (start vm) bytes ∧ end_ vm = start vm + bytes ∧
      (∀ a, free_at v a bytes → start vm ≤ a) ∧ areas_wf v' ∧
      ∀ p, get_vm_area v' p = if in_range vm p then Some vm else get_vm_area v p
  | (None, v') => v' = v ∧ ∀ a, ¬ free_at v a bytes
  end.
Proof using HL.
  intros Hw Hpos Hsize Htop bytes. pose proof (allocate_map_spec v size flags method user_data Hw Hpos Hsize Htop) as Hs.
  cbv zeta in Hs. fold bytes in Hs. destruct (allocate_map _ _ _ _ _) as [[vm|] v']; [|done].
  destruct Hs as (Hf & He & Hlow & Hp & Hw' & _). split_and!; try done. intros p. by apply get_vm_area_more.
Qed.

(** *** Fixed addresses *)

(** [add_map] refuses an area of the range only when the next area has its
    start or its end. *)
Lemma add_map_accepts v vm :
  0 ≤ range_bottom v → area_ok v vm →
  (∀ it, upper_find (areas v) vm = Some it → start it ≠ start vm ∧ end_ it ≠ end_ vm) →
  add_map v (start vm) (end_ vm) (flags vm) (method vm) (user_data vm) =
  Some (Some vm, with_areas v (insert_area (areas v) vm)).
Proof using Type.
  intros Hr [Hb Hne Ht Hs He] Hit. unfold add_map. rewrite (proj2 (Z.ltb_lt _ _)) by done.
  rewrite !page_aligned_true by (done || lia). simpl.
  rewrite (proj2 (Z.ltb_ge _ _)) by done. rewrite (proj2 (Z.ltb_ge _ _)) by done.
  destruct vm as [s e f m d]. simpl in *. f_equal. destruct (areas v) as [|x l] eqn:El; [done|].
  destruct (upper_find _ _) as [it|]; [|done]. destruct (Hit it) as [Hn1 Hn2]; [done|].
  by rewrite (proj2 (Z.eqb_neq _ _) Hn1), (proj2 (Z.eqb_neq _ _) Hn2).
Qed.

(** At a free range of pages it inserts the area. *)
Lemma add_map_free v s e flags method user_data :
  areas_wf v → s < e → (page_size | s) → (page_size | e) → free_at v s (e - s) →
  let vm := Build_vm_t s e flags method user_data in
  ∃ v', add_map v s e flags method user_data = Some (Some vm, v') ∧
        areas v' ≡ₚ vm :: areas v ∧ areas_wf v'.
Proof using HL.
  intros Hw Hse Hs He Hfree vm. pose proof (wf_range v Hw) as Hr.
  destruct (area_ok_placed v s (e - s) flags method user_data) as (_ & Ho & Hap);
    [done|lia|done|by apply Z.divide_sub_r|done|].
  destruct Hfree as (Hb & Ht & Hfree).
  rewrite u64_small in Ho, Hap by lia. replace (s + (e - s)) with e in * by lia. fold vm in Ho, Hap.
  exists (with_areas v (insert_area (areas v) vm)).
  split; [|split; [apply insert_area_perm|by apply areas_wf_insert]].
  apply (add_map_accepts v vm); [lia|done|]. intros it Hit.
  apply upper_find_elem in Hit as [Hin Hlt]; [|by apply areas_wf_sorted].
  rewrite Forall_forall in Hap. destruct (Hap it Hin) as [Hbe|Hbe]; unfold before in Hbe; simpl in *; lia.
Qed.

(** a fixed mapping strictly inside an existing area is not refused, and
    the addresses of that area below it are then found in no area. *)
Theorem fixed_map_hides_area v outer s e flags method user_data p :
  areas_wf v → outer ∈ areas v → start outer < s → s < e → e < end_ outer →
  (page_size | s) → (page_size | e) → start outer ≤ p < s →
  get_vm_area v p = Some outer ∧
  ∃ vm v', add_map v s e flags method user_data = Some (Some vm, v') ∧
           outer ∈ areas v' ∧ get_vm_area v' p = None.
Proof using HL.
  intros Hw Hin Hos Hse Heo Hs He Hp.
  assert (area_ok v outer) as [Hb _ Ht _ _] by (by apply (proj1 (Forall_forall _ _) (wf_each v Hw))).
  pose proof (wf_range v Hw) as Hr.
  assert (contains outer p ∧ contains outer e) as [Hcp Hce] by (unfold contains; lia).
  split; [by apply get_vm_area_exact|]. set (vm := Build_vm_t s e flags method user_data).
  exists vm, (with_areas v (insert_area (areas v) vm)). split; [|split].
  - apply (add_map_accepts v vm); [lia|constructor; simpl; done || lia|].
    intros it. rewrite (upper_find_contains v e outer vm) by done. intros [= <-]. simpl. lia.
  - simpl. rewrite insert_area_perm. by right.
  - unfold get_vm_area. simpl. rewrite upper_find_first by (apply insert_area_sorted; by apply areas_wf_sorted).
    rewrite (head_filter_least _ _ vm); [|apply insert_area_sorted; by apply areas_wf_sorted| |simpl; lia|].
    + simpl. by rewrite (proj2 (Z.leb_gt _ _)) by lia.
    + rewrite insert_area_perm. left.
    + intros y Hy Hlt. rewrite insert_area_perm in Hy. apply elem_of_cons in Hy as [->|Hy]; [by left|right].
      simpl in *. destruct (ends_after_area v outer y p) as [->|?]; [done..|lia|lia].
Qed.

End facts.

(** ** Samples *)

Module VmSample.
Import SortedList.

Definition sample_area : vm_t := Build_vm_t 0x400000 0x404000 0 pf_common 0.
Definition sample_space : vm_allocator := Build_vm_allocator [sample_area] 0x800000000000 0x200000.

Lemma sample_space_wf : areas_wf sample_space.
Proof.
  constructor; simpl; [done|by exists 0x200| |by repeat constructor].
  repeat constructor; simpl; done || (by exists 0x400) || (by exists 0x404).
Qed.

Lemma allocate_map_first_fit_witness :
  ∃ vm v', allocate_map sample_space 0x1001 0 pf_common 0 = (Some vm, v') ∧ start vm = 0x200000 ∧
           end_ vm = 0x202000 ∧ areas_wf v'.
Proof.
  pose proof (allocate_map_first_fit sample_space 0x1001 0 pf_common 0 sample_space_wf) as Ha.
  eexists _, _. split; [vm_compute; reflexivity|]. split; [done|]. split; [done|].
  apply Ha; done.
Defined.

Lemma get_vm_area_exact_witness : sample_area ∈ areas sample_space ∧ contains sample_area 0x402345.
Proof. by apply (get_vm_area_exact sample_space 0x402345 sample_area sample_space_wf). Defined.

Lemma fixed_map_hides_area_witness :
  ∃ vm v', add_map sample_space 0x402000 0x403000 0 pf_common 0 = Some (Some vm, v') ∧
           sample_area ∈ areas v' ∧ get_vm_area v' 0x401000 = None.
Proof.
  apply (fixed_map_hides_area sample_space sample_area 0x402000 0x403000 0 pf_common 0 0x401000);
    [apply sample_space_wf|left|done|done|done|by exists 0x402|by exists 0x403|done].
Defined.

End VmSample.
