(* ===== verification/Zones.v ===== *)
(** Physical memory: includes/kernel/mm/page.hpp, includes/kernel/mm/zone.hpp,
    src/kernel/mm/zone.cc and the size classes and zone detection of
    src/kernel/mm/memory.cc.

    A zone is a range of physical memory with an array of page descriptors at
    its end; [zones] is the array of all zones.  Addresses are physical: the
    fixed offset between [pa2va] and [va2pa] cancels in every operation.  The
    buddy system is [freelibcxx::buddy] and not part of the repository: [Buddy]
    has the operations the zones use and [BuddyLaws] what they promise, with the
    set of blocks handed out.  [None] is a kernel stop, a panic or a failed
    assertion.

    The theorems show that page reference counts never let a page in use be
    handed out again, that the search for the zone of an address is exact, and
    that the page array does not overlap the pages it describes; the last
    section provides the interface [FrameStore] that the page tables are built
    on. *)
From stdpp Require Import base list numbers gmap sorting.
From S2P Require Import Prelude VmAllocator.

Local Open Scope Z_scope.
Set Default Proof Using "Type".

(** ** The buddy system *)

Class Buddy (B : Type) : Type := {
  buddy_make : Z → B;
  buddy_alloc : B → Z → option (Z * B);
  buddy_free : B → Z → bool * B;
  buddy_alloc_at : B → Z → Z → B;
  buddy_free_pages : B → Z;
  (** The blocks in use, by first page. *)
  buddy_blocks : B → gmap Z Z;
  buddy_total : B → Z;
}.

Definition block_disjoint (i m j n : Z) : Prop := i + m ≤ j ∨ j + n ≤ i.

Class BuddyLaws (B : Type) `{Buddy B} : Prop := {
  buddy_make_blocks n : buddy_blocks (buddy_make n) = ∅ ∧ buddy_total (buddy_make n) = n;
  buddy_alloc_spec b n i b' :
    buddy_alloc b n = Some (i, b') →
    ∃ m, n ≤ m ∧ 0 ≤ i ∧ i + m ≤ buddy_total b ∧ buddy_blocks b !! i = None ∧
         (∀ j k, buddy_blocks b !! j = Some k → block_disjoint i m j k) ∧
         buddy_blocks b' = <[i := m]> (buddy_blocks b) ∧ buddy_total b' = buddy_total b;
  buddy_free_spec b i :
    is_Some (buddy_blocks b !! i) →
    ∃ b', buddy_free b i = (true, b') ∧ buddy_blocks b' = delete i (buddy_blocks b) ∧ buddy_total b' = buddy_total b;
  buddy_alloc_at_spec b i n :
    (∀ j, is_Some (buddy_blocks b !! j) → is_Some (buddy_blocks (buddy_alloc_at b i n) !! j)) ∧
    buddy_total (buddy_alloc_at b i n) = buddy_total b;
}.

(** ** Page descriptors *)

(** [sizeof(page)]: two 32-bit words, an 8-byte union, the order padded to 8
    bytes and a pointer. *)
Definition sizeof_page : Z := 32.

(** ** Zones *)

Section zones.
Context {B : Type} `{HB : Buddy B}.

Record zone : Type := Build_zone {
  zone_start : Z;
  zone_end : Z;
  page_count : Z;
  (** [ref_count_] of the page descriptors that are not zero. *)
  page_refs : gmap Z Z;
  impl : B;
}.

Implicit Types (z : zone) (index ptr : Z).

Definition ref_count z index : Z := default 0 (page_refs z !! index).
Definition set_ref_count z index (n : Z) : zone :=
  Build_zone (zone_start z) (zone_end z) (page_count z) (<[index := n]> (page_refs z)) (impl z).
Definition set_impl z (b : B) : zone :=
  Build_zone (zone_start z) (zone_end z) (page_count z) (page_refs z) b.

(** [page::add_ref_count] and [page::remove_ref_count]. *)
Definition add_ref_count z index : zone := set_ref_count z index (u32 (ref_count z index + 1)).
Definition remove_ref_count z index : zone := set_ref_count z index (u32 (ref_count z index - 1)).

(** The physical address of [page_array]. *)
Definition page_array z : Z := zone_end z - sizeof_page * page_count z.

Definition make_zone (start end' danger_beg danger_end : Z) : option zone :=
  let count := u64 (u64 (end' - start) / (page_size + sizeof_page) - 1) in
  let page_addr := align_down (u64 (end' - u64 (sizeof_page * count))) page_size in
  if (danger_beg <=? page_addr) && (page_addr <? danger_end) then None
  else Some (Build_zone start end' count ∅ (buddy_make count)).

Definition address_to_page z ptr : option Z :=
  let off := ptr - zone_start z in
  if (0 <=? off) && (off mod page_size =? 0) then Some (off / page_size) else None.

Definition page_to_address z index : option Z :=
  if index <? 0 then Some 0
  else
    let ptr := zone_start z + page_size * index in
    if (index <? page_count z) && (ptr <? page_array z) then Some ptr else None.

(** [zone::malloc]; the null pointer is 0. *)
Definition zone_malloc z (pages : Z) : option (Z * zone) :=
  match buddy_alloc (impl z) pages with
  | Some (index, b) =>
      if negb (ref_count z index =? 0) then None
      else
        ptr ← page_to_address z index;
        Some (ptr, add_ref_count (set_impl z b) index)
  | None => Some (0, z)
  end.

Definition zone_page_add_reference z ptr : option zone :=
  index ← address_to_page z ptr;
  if 0 <? ref_count z index then Some (add_ref_count z index) else None.

Definition zone_free z ptr : option zone :=
  index ← address_to_page z ptr;
  if 0 <? ref_count z index then
    let z := remove_ref_count z index in
    if ref_count z index =? 0 then
      let '(ok, b) := buddy_free (impl z) index in
      if ok then Some (set_impl z b) else None
    else Some z
  else None.

Definition zone_tag_alloc z (start end' : Z) : option zone :=
  if end' <? start then None
  else
    s ← address_to_page z start;
    e ← address_to_page z end';
    Some (set_impl z (buddy_alloc_at (impl z) s (e - s))).

(** *** All zones *)

Record zones : Type := Build_zones {
  zone_array : list zone;
  high_memory_index : Z;
  high_memory_init : bool;
}.

Implicit Types (zs : zones).

Definition count_ zs : Z := Z.of_nat (length (zone_array zs)).
Definition active_zones zs : Z := if high_memory_init zs then count_ zs else high_memory_index zs.
Definition set_zone zs (i : nat) z : zones :=
  Build_zones (<[i := z]> (zone_array zs)) (high_memory_index zs) (high_memory_init zs).

(** The binary search of [which], with the index of the zone as the result. *)
Fixpoint which_loop (fuel : nat) zs ptr (i j : Z) : option nat :=
  match fuel with
  | O => None
  | S fuel =>
      if i <? j then
        let mid := i + (j - i) / 2 in
        match zone_array zs !! Z.to_nat mid with
        | Some z =>
            if (zone_start z <=? ptr) && (ptr <? zone_end z) then Some (Z.to_nat mid)
            else if ptr <? zone_start z then which_loop fuel zs ptr i mid
            else which_loop fuel zs ptr (mid + 1) j
        | None => None
        end
      else None
  end.
Definition which zs ptr : option nat := which_loop (S (length (zone_array zs))) zs ptr 0 (active_zones zs).

Definition get_page zs ptr : option (nat * Z) :=
  i ← which zs ptr;
  z ← zone_array zs !! i;
  index ← address_to_page z ptr;
  Some (i, index).

(** [zones::get_page_reference]. *)
Definition get_page_reference zs ptr : Z :=
  match get_page zs ptr with
  | Some (i, index) => match zone_array zs !! i with Some z => ref_count z index | None => 0 end
  | None => 0
  end.

(** The loop of [allocate] over the zones from [i] on. *)
Fixpoint allocate_loop zs (todo : list zone) (i : nat) (pages : Z) : option (Z * zones) :=
  match todo with
  | [] => None
  | z :: rest =>
      '(p, z') ← zone_malloc z pages;
      if negb (p =? 0) then Some (p, set_zone zs i z') else allocate_loop zs rest (S i) pages
  end.
Definition allocate zs (size : Z) : option (Z * zones) :=
  allocate_loop zs (take (Z.to_nat (active_zones zs)) (zone_array zs)) 0 (align_up size page_size / page_size).

(** An operation of the zone of an address. *)
Definition on_zone zs ptr (f : zone → option zone) : option zones :=
  i ← which zs ptr;
  z ← zone_array zs !! i;
  z' ← f z;
  Some (set_zone zs i z').
Definition deallocate zs ptr : option zones := on_zone zs ptr (λ z, zone_free z ptr).
Definition page_add_reference zs ptr : option zones := on_zone zs ptr (λ z, zone_page_add_reference z ptr).

(** The part of a reserved range that lies in each zone. *)
Fixpoint tag_alloc_loop zs (todo : list zone) (i : nat) (start end' : Z) : option zones :=
  match todo with
  | [] => Some zs
  | z :: rest =>
      let s0 := if zone_start z <? start then start else zone_start z in
      let e0 := if end' <? zone_end z then end' else zone_end z in
      if s0 <? e0 then
        z' ← zone_tag_alloc z s0 e0;
        tag_alloc_loop (set_zone zs i z') rest (S i) start end'
      else tag_alloc_loop zs rest (S i) start end'
  end.
Definition tag_alloc zs (start end' : Z) : option zones :=
  if end' <? start then None
  else tag_alloc_loop zs (take (Z.to_nat (active_zones zs)) (zone_array zs)) 0 start end'.

Definition total_pages zs : Z :=
  u64 (sum_Z (page_count <$> take (Z.to_nat (active_zones zs)) (zone_array zs))).
Definition free_pages zs : Z :=
  u64 (sum_Z ((λ z, buddy_free_pages (impl z)) <$> take (Z.to_nat (active_zones zs)) (zone_array zs))).

(** [get_page(ptr)->add_ref_count()]; a null page is a kernel stop. *)
Definition page_bump zs ptr : option zones :=
  on_zone zs ptr (λ z, add_ref_count z <$> address_to_page z ptr).

End zones.

Arguments zone : clear implicits.
Arguments zones : clear implicits.

(** ** Zone facts *)

Section facts.
Context {B : Type} `{HBL : BuddyLaws B}.
Implicit Types (z : zone B) (zs : zones B).

(** The pages of a zone lie below its page array, the buddy system manages
    those pages, and a page that is referenced is the first of a block in use. *)
Record zone_ok z : Prop := Build_zone_ok {
  zone_start_pos : 0 < zone_start z;
  zone_start_aligned : (page_size | zone_start z);
  zone_end_small : zone_end z < 2 ^ 52;
  zone_count_pos : 0 ≤ page_count z;
  zone_layout : zone_start z + page_size * page_count z ≤ page_array z;
  zone_buddy_total : buddy_total (impl z) = page_count z;
  zone_refs_range : ∀ i, 0 ≤ ref_count z i < 2 ^ 32;
  zone_refs_used : ∀ i, 0 < ref_count z i → is_Some (buddy_blocks (impl z) !! i);
}.

Lemma ref_count_set z i n j : ref_count (set_ref_count z i n) j = if decide (j = i) then n else ref_count z j.
Proof using Type.
  unfold ref_count, set_ref_count. simpl. destruct (decide (j = i)) as [->|Hn].
  - by rewrite lookup_insert_eq.
  - by rewrite lookup_insert_ne by done.
Qed.

Lemma make_zone_ok start end' danger_beg danger_end z :
  0 < start → (page_size | start) → end' < 2 ^ 52 → 2 * page_size < end' - start →
  make_zone start end' danger_beg danger_end = Some z →
  zone_ok z ∧ zone_start z = start ∧ zone_end z = end' ∧
  page_count z = (end' - start) / (page_size + sizeof_page) - 1 ∧ page_refs z = ∅.
Proof using HBL.
  intros Hs Ha He Hl. unfold make_zone. destruct (_ && _); [done|]. intros [= <-].
  pose proof (Z.div_mod (end' - start) (page_size + sizeof_page) ltac:(done)) as Hdm.
  pose proof (Z.mod_pos_bound (end' - start) (page_size + sizeof_page) ltac:(done)) as Hmb.
  rewrite (u64_small (end' - start)) by (unfold page_size in *; lia).
  set (q := (end' - start) / (page_size + sizeof_page)) in *.
  rewrite (u64_small (q - 1)) by (unfold page_size, sizeof_page in *; lia).
  destruct (buddy_make_blocks (B := B) (q - 1)) as [Hb Ht].
  split; [constructor|done]; simpl; unfold page_array, ref_count; simpl; try done.
  all: try (unfold page_size, sizeof_page in *; lia).
  all: intros i; rewrite lookup_empty; simpl; lia.
Qed.

(** a zone over more than two pages of memory is laid out without overlap:
    its pages end at the page array or below, the array ends with the zone, and
    less than three pages with their descriptors are left over. *)
Theorem make_zone_layout start end' danger_beg danger_end z :
  0 < start → (page_size | start) → end' < 2 ^ 52 → 2 * page_size < end' - start →
  make_zone start end' danger_beg danger_end = Some z →
  zone_start z + page_size * page_count z ≤ page_array z ∧
  page_array z + sizeof_page * page_count z = end' ∧
  end' - start - 3 * (page_size + sizeof_page) < (page_size + sizeof_page) * page_count z.
Proof using HBL.
  intros Hs Ha He Hl Hm. destruct (make_zone_ok _ _ _ _ _ Hs Ha He Hl Hm) as (Ho & Es & Ee & Ec & _).
  split; [apply Ho|]. unfold page_array. rewrite Ec, Ee.
  pose proof (Z.div_mod (end' - start) (page_size + sizeof_page) ltac:(done)).
  pose proof (Z.mod_pos_bound (end' - start) (page_size + sizeof_page) ltac:(done)).
  unfold page_size, sizeof_page in *. lia.
Qed.

Lemma address_to_page_spec z p i :
  address_to_page z p = Some i ↔ 0 ≤ i ∧ p = zone_start z + page_size * i.
Proof using Type.
  unfold address_to_page. pose proof (Z.div_mod (p - zone_start z) page_size ltac:(done)) as Hd.
  destruct ((0 <=? _) && _) eqn:E; split; intros H'.
  - injection H' as <-. split; [apply Z.div_pos; unfold page_size; lia|lia].
  - destruct H' as [H1 ->]. f_equal.
    replace (zone_start z + page_size * i - zone_start z) with (i * page_size) by lia.
    by rewrite Z.div_mul.
  - done.
  - destruct H' as [H1 ->]. exfalso.
    replace (zone_start z + page_size * i - zone_start z) with (i * page_size) in E by lia.
    rewrite Z.mod_mul in E by done. unfold page_size in E. lia.
Qed.

Lemma page_to_address_spec z i :
  zone_ok z → 0 ≤ i < page_count z → page_to_address z i = Some (zone_start z + page_size * i).
Proof using Type.
  intros [Hs _ _ _ Hl _ _ _] Hi. unfold page_to_address. rewrite (proj2 (Z.ltb_ge _ _)) by lia.
  rewrite (proj2 (Z.ltb_lt i _)) by lia. rewrite (proj2 (Z.ltb_lt _ _)); [done|]. unfold page_size in *. lia.
Qed.

(** page addresses and page indices of a zone correspond, and the pages lie
    in the zone below its page array. *)
Theorem page_address_round_trip z i :
  zone_ok z → 0 ≤ i < page_count z →
  ∃ p, page_to_address z i = Some p ∧ address_to_page z p = Some i ∧ zone_start z ≤ p ∧ p + page_size ≤ page_array z.
Proof using Type.
  intros Ho Hi. exists (zone_start z + page_size * i). split; [by apply page_to_address_spec|].
  split; [apply address_to_page_spec; lia|]. destruct Ho. unfold page_size in *. lia.
Qed.

(** *** Reference counts of one zone *)

(** Two zones that differ in reference counts only at [i]. *)
Definition counts_at z z' (i n : Z) : Prop :=
  zone_ok z' ∧ zone_start z' = zone_start z ∧ zone_end z' = zone_end z ∧ page_count z' = page_count z ∧
  ∀ j, ref_count z' j = if decide (j = i) then n else ref_count z j.

Lemma counts_at_intro z z' i n :
  zone_ok z → zone_start z' = zone_start z → zone_end z' = zone_end z → page_count z' = page_count z →
  (∀ j, ref_count z' j = if decide (j = i) then n else ref_count z j) →
  0 ≤ n < 2 ^ 32 → buddy_total (impl z') = buddy_total (impl z) →
  (∀ j, j ≠ i → is_Some (buddy_blocks (impl z) !! j) → is_Some (buddy_blocks (impl z') !! j)) →
  (0 < n → is_Some (buddy_blocks (impl z') !! i)) →
  counts_at z z' i n.
Proof using Type.
  intros [] Es Ee Ec Hr Hn Ht Hb Hi. split; [|done]. unfold page_array in *.
  constructor; unfold page_array; rewrite ?Es, ?Ee, ?Ec, ?Ht; try done.
  - intros j. rewrite Hr. by destruct (decide (j = i)).
  - intros j. rewrite Hr. destruct (decide (j = i)) as [->|Hj]; [done|]. intros Hp. by apply Hb; [|eauto].
Qed.

Lemma zone_malloc_spec z pages :
  zone_ok z → 1 ≤ pages →
  zone_malloc z pages = Some (0, z) ∨
  ∃ i z', zone_malloc z pages = Some (zone_start z + page_size * i, z') ∧
          0 ≤ i ∧ i + pages ≤ page_count z ∧ ref_count z i = 0 ∧ counts_at z z' i 1 ∧
          (∀ j m, buddy_blocks (impl z) !! j = Some m → block_disjoint i pages j m).
Proof using HBL.
  intros Ho Hp. unfold zone_malloc. destruct (buddy_alloc (impl z) pages) as [[i b]|] eqn:E; [right|by left].
  apply buddy_alloc_spec in E as (m & Hm & Hi & Him & Hnone & Hdis & Hb & Ht).
  rewrite (zone_buddy_total z Ho) in Him.
  assert (ref_count z i = 0) as Hz.
  { destruct (decide (0 < ref_count z i)) as [Hr|Hr].
    - apply (zone_refs_used z Ho) in Hr. rewrite Hnone in Hr. by destruct Hr.
    - pose proof (zone_refs_range z Ho i). lia. }
  exists i, (add_ref_count (set_impl z b) i). rewrite Hz. simpl.
  rewrite page_to_address_spec by (done || lia). simpl.
  assert (∀ j, ref_count (set_impl z b) j = ref_count z j) as Hsi by done.
  split_and!; [done|done|lia|done| |].
  - apply counts_at_intro; [done..| |lia|done| |].
    + intros j. unfold add_ref_count. rewrite ref_count_set, !Hsi, Hz. done.
    + intros j Hj Hs. simpl. rewrite Hb, lookup_insert_ne by done. done.
    + intros _. simpl. rewrite Hb, lookup_insert_eq. eauto.
  - intros j k Hk. specialize (Hdis j k Hk). unfold block_disjoint in *. lia.
Qed.

Lemma zone_add_reference_spec z i :
  zone_ok z → 0 ≤ i → 0 < ref_count z i < 2 ^ 32 - 1 →
  ∃ z', zone_page_add_reference z (zone_start z + page_size * i) = Some z' ∧ counts_at z z' i (ref_count z i + 1).
Proof using Type.
  intros Ho Hi Hr. unfold zone_page_add_reference.
  rewrite (proj2 (address_to_page_spec z _ i)) by done. simpl. rewrite (proj2 (Z.ltb_lt _ _)) by lia.
  eexists. split; [done|]. apply counts_at_intro; [done..| |lia|done|done|].
  - intros j. unfold add_ref_count. rewrite ref_count_set. unfold u32. by rewrite Z.mod_small by lia.
  - intros _. apply (zone_refs_used z Ho). lia.
Qed.

Lemma zone_free_spec z i :
  zone_ok z → 0 ≤ i → 0 < ref_count z i →
  ∃ z', zone_free z (zone_start z + page_size * i) = Some z' ∧ counts_at z z' i (ref_count z i - 1).
Proof using HBL.
  intros Ho Hi Hr. unfold zone_free. rewrite (proj2 (address_to_page_spec z _ i)) by done. simpl.
  rewrite (proj2 (Z.ltb_lt _ _)) by lia. pose proof (zone_refs_range z Ho i) as Hrr.
  assert (∀ j, ref_count (remove_ref_count z i) j = if decide (j = i) then ref_count z i - 1 else ref_count z j) as Hrc.
  { intros j. unfold remove_ref_count. rewrite ref_count_set. unfold u32. by rewrite Z.mod_small by lia. }
  rewrite (Hrc i), decide_True by done. destruct (ref_count z i - 1 =? 0) eqn:E.
  - destruct (buddy_free_spec (impl z) i) as (b & Hf & Hb & Ht); [by apply (zone_refs_used z Ho)|].
    simpl. rewrite Hf. eexists. split; [done|].
    apply counts_at_intro; [done..|lia|done| |lia].
    intros j Hj Hs. simpl. by rewrite Hb, lookup_delete_ne by done.
  - eexists. split; [done|]. apply counts_at_intro; [done..|lia|done|done|].
    intros _. by apply (zone_refs_used z Ho).
Qed.

(** *** The zone of an address *)

Record zones_ok zs : Prop := Build_zones_ok {
  zones_each : Forall zone_ok (zone_array zs);
  zones_ordered : StronglySorted (λ a b, zone_end a ≤ zone_start b) (zone_array zs);
  zones_active : 0 ≤ active_zones zs ≤ count_ zs;
}.

Definition zone_holds z p : Prop := zone_start z ≤ p < zone_end z.

Lemma zone_ok_nonempty z : zone_ok z → zone_start z ≤ zone_end z.
Proof using Type. intros []. unfold page_array, page_size, sizeof_page in *. lia. Qed.

Lemma zones_sorted zs i j a b :
  zones_ok zs → zone_array zs !! i = Some a → zone_array zs !! j = Some b → (i < j)%nat → zone_end a ≤ zone_start b.
Proof using Type.
  intros Ho Ha Hb Hij. pose proof (zones_ordered zs Ho) as Hs. revert i j Ha Hb Hij.
  induction Hs as [|x l Hs IH Hx]; intros i j Ha Hb Hij; [done|].
  destruct i as [|i], j as [|j]; simplify_eq/=; [lia| |lia|].
  - rewrite Forall_lookup in Hx. by apply (Hx j).
  - apply (IH i j); [done|done|lia].
Qed.

Lemma which_loop_exact zs p fuel i j :
  zones_ok zs → 0 ≤ i → j ≤ count_ zs → j - i < Z.of_nat fuel →
  (∀ k z, zone_array zs !! k = Some z → zone_holds z p → Z.of_nat k < active_zones zs → i ≤ Z.of_nat k < j) →
  j ≤ active_zones zs →
  ∀ k, which_loop fuel zs p i j = Some k ↔
       Z.of_nat k < active_zones zs ∧ ∃ z, zone_array zs !! k = Some z ∧ zone_holds z p.
Proof using Type.
  intros Ho. revert i j. induction fuel as [|fuel IH]; intros i j Hi Hj Hf Hin Hja k.
  { split; [done|]. intros (Hk & z & Hz & Hh). specialize (Hin k z Hz Hh Hk). lia. }
  simpl. destruct (i <? j) eqn:Hij; [apply Z.ltb_lt in Hij|apply Z.ltb_ge in Hij].
  2:{ split; [done|]. intros (Hk & z & Hz & Hh). specialize (Hin k z Hz Hh Hk). lia. }
  pose proof (Z.div_mod (j - i) 2 ltac:(done)). pose proof (Z.mod_pos_bound (j - i) 2 ltac:(done)).
  set (mid := i + (j - i) / 2). assert (i ≤ mid < j) as Hmid by (unfold mid; lia).
  destruct (lookup_lt_is_Some_2 (zone_array zs) (Z.to_nat mid)) as [zm Hzm];
    [unfold count_ in Hj; lia|]. rewrite Hzm.
  pose proof (proj1 (Forall_forall _ _) (zones_each zs Ho)) as Heach.
  assert (∀ k z, zone_array zs !! k = Some z → zone_start z ≤ zone_end z) as Hne.
  { intros k' z' Hz'. apply zone_ok_nonempty, Heach. by apply list_elem_of_lookup_2 in Hz'. }
  pose proof (Hne _ _ Hzm).
  destruct ((zone_start zm <=? p) && (p <? zone_end zm)) eqn:Eh.
  - split.
    + intros [= <-]. split; [lia|]. exists zm. split; [done|]. unfold zone_holds. lia.
    + intros (Hk & z & Hz & Hh). f_equal. destruct (Nat.lt_trichotomy (Z.to_nat mid) k) as [Hl|[?|Hl]]; [|done|].
      * pose proof (zones_sorted zs _ _ _ _ Ho Hzm Hz Hl). unfold zone_holds in Hh. lia.
      * pose proof (zones_sorted zs _ _ _ _ Ho Hz Hzm Hl). unfold zone_holds in Hh. lia.
  - assert (∀ k z, zone_array zs !! k = Some z → zone_holds z p → Z.of_nat k < active_zones zs →
      i ≤ Z.of_nat k < j ∧ (Z.of_nat k < mid ∧ p < zone_start zm ∨ mid < Z.of_nat k ∧ zone_start zm ≤ p)) as Hcase.
    { intros k' z Hz Hh Hk. specialize (Hin k' z Hz Hh Hk). split; [done|]. unfold zone_holds in Hh.
      destruct (Nat.lt_trichotomy (Z.to_nat mid) k') as [Hl|[He|Hl]].
      - pose proof (zones_sorted zs _ _ _ _ Ho Hzm Hz Hl). right. lia.
      - subst k'. rewrite Hzm in Hz. injection Hz as <-. lia.
      - pose proof (zones_sorted zs _ _ _ _ Ho Hz Hzm Hl). left. lia. }
    destruct (p <? zone_start zm) eqn:El.
    + apply IH; [done|lia|lia| |lia]. intros k' z Hz Hh Hk. specialize (Hcase k' z Hz Hh Hk). lia.
    + apply IH; [lia|done|lia| |done]. intros k' z Hz Hh Hk. specialize (Hcase k' z Hz Hh Hk). lia.
Qed.

(** The binary search finds the active zone of an address exactly when
    there is one. *)
Theorem which_exact zs p k :
  zones_ok zs →
  which zs p = Some k ↔ Z.of_nat k < active_zones zs ∧ ∃ z, zone_array zs !! k = Some z ∧ zone_holds z p.
Proof using Type.
  intros Ho. pose proof (zones_active zs Ho) as Ha. apply which_loop_exact; [done|lia|lia| | |lia].
  - unfold count_ in Ha. lia.
  - intros. lia.
Qed.

(** *** Reference counts of all zones *)

Lemma lookup_set_zone zs k z z' j :
  zone_array zs !! k = Some z →
  zone_array (set_zone zs k z') !! j = if decide (j = k) then Some z' else zone_array zs !! j.
Proof using Type.
  intros Hk. simpl. destruct (decide (j = k)) as [->|Hj].
  - apply list_lookup_insert_eq. by apply lookup_lt_Some in Hk.
  - by apply list_lookup_insert_ne.
Qed.

Lemma active_set_zone zs k z' : active_zones (set_zone zs k z') = active_zones zs.
Proof using Type. unfold active_zones, count_. simpl. by rewrite length_insert. Qed.

Lemma zones_ok_set zs k z z' i n :
  zones_ok zs → zone_array zs !! k = Some z → counts_at z z' i n → zones_ok (set_zone zs k z').
Proof using Type.
  intros [He Hs Ha] Hk (Hz & Es & Ee & _). constructor.
  - simpl. by apply Forall_insert.
  - simpl. clear He Ha. revert k Hk. induction Hs as [|x l Hs IH Hx]; intros k Hk; [done|].
    destruct k as [|k]; simplify_eq/=.
    + constructor; [done|]. by rewrite Ee.
    + constructor; [by apply IH|]. apply Forall_insert; [done|]. rewrite Es.
      rewrite Forall_lookup in Hx. by apply (Hx k).
  - rewrite active_set_zone. unfold count_ in *. simpl. by rewrite length_insert.
Qed.

Lemma which_set zs k z z' i n p :
  zones_ok zs → zone_array zs !! k = Some z → counts_at z z' i n → which (set_zone zs k z') p = which zs p.
Proof using Type.
  intros Ho Hk Hc. pose proof (zones_ok_set zs k z z' i n Ho Hk Hc) as Ho'.
  apply option_eq. intros j. rewrite !which_exact by done. rewrite active_set_zone.
  destruct Hc as (_ & Es & Ee & _). rewrite (lookup_set_zone zs k z) by done.
  destruct (decide (j = k)) as [->|Hj]; [|done]. rewrite Hk. unfold zone_holds.
  split; intros (Ha & x & [= <-] & Hh); (split; [done|]); eexists; (split; [done|]).
  - by rewrite Es, Ee in Hh.
  - by rewrite Es, Ee.
Qed.

Lemma get_page_set zs k z z' i n p :
  zones_ok zs → zone_array zs !! k = Some z → counts_at z z' i n → get_page (set_zone zs k z') p = get_page zs p.
Proof using Type.
  intros Ho Hk Hc. unfold get_page. rewrite (which_set zs k z z' i n) by done.
  destruct (which zs p) as [j|]; [|done]. cbn [mbind option_bind]. rewrite (lookup_set_zone zs k z) by done.
  destruct (decide (j = k)) as [->|Hj]; [|done]. rewrite Hk. simpl. destruct Hc as (_ & Es & _).
  unfold address_to_page. by rewrite Es.
Qed.

Lemma get_page_inv zs p k i :
  get_page zs p = Some (k, i) →
  which zs p = Some k ∧ ∃ z, zone_array zs !! k = Some z ∧ 0 ≤ i ∧ p = zone_start z + page_size * i.
Proof using Type.
  unfold get_page. destruct (which zs p) as [j|]; [|done]. simpl.
  destruct (zone_array zs !! j) as [z|] eqn:Ez; [|done]. simpl.
  destruct (address_to_page z p) as [i'|] eqn:Ea; [|done]. simpl. intros [= -> ->].
  apply address_to_page_spec in Ea as [H1 H2]. split; [done|]. by exists z.
Qed.

Lemma get_page_at zs k z i :
  zones_ok zs → zone_array zs !! k = Some z → Z.of_nat k < active_zones zs → 0 ≤ i < page_count z →
  get_page zs (zone_start z + page_size * i) = Some (k, i).
Proof using Type.
  intros Ho Hk Ha Hi. assert (zone_ok z) as Hz
    by (apply (proj1 (Forall_forall _ _) (zones_each zs Ho)); by apply list_elem_of_lookup_2 in Hk).
  unfold get_page. rewrite (proj2 (which_exact zs _ k Ho)); simpl.
  - rewrite Hk. simpl. by rewrite (proj2 (address_to_page_spec z _ i)) by lia.
  - split; [done|]. exists z. split; [done|]. destruct Hz.
    unfold zone_holds, page_array, page_size, sizeof_page in *. lia.
Qed.

Lemma get_page_reference_known zs p k i z :
  get_page zs p = Some (k, i) → zone_array zs !! k = Some z → get_page_reference zs p = ref_count z i.
Proof using Type. intros Hp Hk. unfold get_page_reference. by rewrite Hp, Hk. Qed.

(** The reference counts of the pages after one count changed. *)
Lemma get_page_reference_set zs k z z' i n p q :
  zones_ok zs → zone_array zs !! k = Some z → counts_at z z' i n → get_page zs p = Some (k, i) →
  get_page_reference (set_zone zs k z') q = if decide (q = p) then n else get_page_reference zs q.
Proof using Type.
  intros Ho Hk Hc Hp. unfold get_page_reference at 1. rewrite (get_page_set zs k z z' i n) by done.
  destruct (get_page zs q) as [[j m]|] eqn:Eq.
  - rewrite (lookup_set_zone zs k z) by done. destruct (decide (j = k)) as [->|Hj].
    + destruct Hc as (_ & _ & _ & _ & Hr). rewrite Hr.
      apply get_page_inv in Hp as (_ & z1 & Hz1 & Hi & Hpp). rewrite Hk in Hz1. injection Hz1 as <-.
      pose proof Eq as Eq'. apply get_page_inv in Eq' as (_ & z1 & Hz1 & Hm & Hqq).
      rewrite Hk in Hz1. injection Hz1 as <-.
      destruct (decide (m = i)) as [->|Hmi].
      * rewrite decide_True by congruence. done.
      * rewrite decide_False by (unfold page_size in *; lia).
        by rewrite (get_page_reference_known zs q k m z).
    + rewrite decide_False by (intros ->; rewrite Hp in Eq; congruence).
      unfold get_page_reference. by rewrite Eq.
  - rewrite decide_False by (intros ->; congruence). unfold get_page_reference. by rewrite Eq.
Qed.

(** *** The operations on all zones *)

Lemma zone_of_page zs p k i :
  zones_ok zs → get_page zs p = Some (k, i) →
  ∃ z, which zs p = Some k ∧ zone_array zs !! k = Some z ∧ zone_ok z ∧ 0 ≤ i ∧
       p = zone_start z + page_size * i ∧ get_page_reference zs p = ref_count z i.
Proof using Type.
  intros Ho Hp. pose proof Hp as Hp'. apply get_page_inv in Hp' as (Hw & z & Hz & Hi & Hpp). exists z.
  split_and!; [done|done| |done|done|by apply (get_page_reference_known zs p k i z)].
  apply (proj1 (Forall_forall _ _) (zones_each zs Ho)). by apply list_elem_of_lookup_2 in Hz.
Qed.

Lemma get_page_positive zs p : 0 < get_page_reference zs p → ∃ k i, get_page zs p = Some (k, i).
Proof using Type. unfold get_page_reference. destruct (get_page zs p) as [[k i]|]; [eauto|lia]. Qed.

(** An operation of a zone that changes one count changes that count of the
    zones. *)
Lemma on_zone_spec zs p k i z z' n (f : zone B → option (zone B)) :
  zones_ok zs → get_page zs p = Some (k, i) → zone_array zs !! k = Some z → f z = Some z' → counts_at z z' i n →
  on_zone zs p f = Some (set_zone zs k z') ∧ zones_ok (set_zone zs k z') ∧
  (∀ q, get_page_reference (set_zone zs k z') q = if decide (q = p) then n else get_page_reference zs q) ∧
  (∀ q, which (set_zone zs k z') q = which zs q).
Proof using Type.
  intros Ho Hp Hk Hf Hc. pose proof Hp as Hp'. apply get_page_inv in Hp' as (Hw & _).
  unfold on_zone. rewrite Hw. simpl. rewrite Hk. simpl. rewrite Hf. simpl.
  split_and!; [done|by eapply zones_ok_set| |].
  - intros q. by apply (get_page_reference_set zs k z z' i n p q).
  - intros q. by apply (which_set zs k z z' i n q).
Qed.

Lemma deallocate_spec zs p :
  zones_ok zs → 0 < get_page_reference zs p →
  ∃ zs', deallocate zs p = Some zs' ∧ zones_ok zs' ∧
    (∀ q, get_page_reference zs' q = if decide (q = p) then get_page_reference zs p - 1 else get_page_reference zs q) ∧
    (∀ q, which zs' q = which zs q).
Proof using HBL.
  intros Ho Hp. destruct (get_page_positive zs p Hp) as (k & i & Hg).
  destruct (zone_of_page zs p k i Ho Hg) as (z & _ & Hk & Hz & Hi & -> & Hr). rewrite Hr in *.
  destruct (zone_free_spec z i Hz Hi Hp) as (z' & Hf & Hc). eexists. by eapply on_zone_spec.
Qed.

Lemma page_add_reference_spec zs p :
  zones_ok zs → 0 < get_page_reference zs p < 2 ^ 32 - 1 →
  ∃ zs', page_add_reference zs p = Some zs' ∧ zones_ok zs' ∧
    (∀ q, get_page_reference zs' q = if decide (q = p) then get_page_reference zs p + 1 else get_page_reference zs q) ∧
    (∀ q, which zs' q = which zs q).
Proof using Type.
  intros Ho Hp. destruct (get_page_positive zs p) as (k & i & Hg); [lia|].
  destruct (zone_of_page zs p k i Ho Hg) as (z & _ & Hk & Hz & Hi & -> & Hr). rewrite Hr in *.
  destruct (zone_add_reference_spec z i Hz Hi Hp) as (z' & Hf & Hc). eexists. by eapply on_zone_spec.
Qed.

(** [page_bump] of a referenced page is [page_add_reference]. *)
Lemma page_bump_add zs p : 0 < get_page_reference zs p → page_bump zs p = page_add_reference zs p.
Proof using Type.
  intros Hp. destruct (get_page_positive zs p Hp) as (k & i & Hg). pose proof Hg as Hg'.
  apply get_page_inv in Hg' as (Hw & z & Hk & Hi & Hpp).
  unfold page_bump, page_add_reference, on_zone. rewrite Hw. simpl. rewrite Hk. simpl.
  unfold zone_page_add_reference. rewrite (proj2 (address_to_page_spec z p i)) by done. simpl.
  rewrite (get_page_reference_known zs p k i z) in Hp by done. by rewrite (proj2 (Z.ltb_lt _ _)) by done.
Qed.

Lemma allocate_loop_spec zs pages done_ todo :
  zones_ok zs → 1 ≤ pages → take (Z.to_nat (active_zones zs)) (zone_array zs) = done_ ++ todo →
  allocate_loop zs todo (length done_) pages = None ∨
  ∃ k i z z', allocate_loop zs todo (length done_) pages = Some (zone_start z + page_size * i, set_zone zs k z') ∧
    zone_array zs !! k = Some z ∧ Z.of_nat k < active_zones zs ∧ 0 ≤ i < page_count z ∧
    ref_count z i = 0 ∧ counts_at z z' i 1.
Proof using HBL.
  intros Ho Hp. revert done_. induction todo as [|z todo IH]; intros done_ Ht; [by left|]. simpl.
  assert (take (Z.to_nat (active_zones zs)) (zone_array zs) !! length done_ = Some z) as Hl
    by (rewrite Ht, lookup_app_r, Nat.sub_diag by lia; done).
  apply lookup_take_Some in Hl as [Hk Hlt].
  assert (zone_ok z) as Hz
    by (apply (proj1 (Forall_forall _ _) (zones_each zs Ho)); by apply list_elem_of_lookup_2 in Hk).
  destruct (zone_malloc_spec z pages Hz Hp) as [->|(i & z' & -> & Hi & Hip & Hr & Hc & _)]; simpl.
  - specialize (IH (done_ ++ [z])). rewrite length_app in IH. simpl in IH. rewrite Nat.add_1_r in IH.
    apply IH. by rewrite <-app_assoc.
  - right. exists (length done_), i, z, z'. rewrite (proj2 (Z.eqb_neq _ _));
      [split_and!; try done; lia|]. destruct Hz. unfold page_size. lia.
Qed.

Lemma zones_allocate_spec zs p zs' :
  zones_ok zs → allocate zs page_size = Some (p, zs') →
  zones_ok zs' ∧ 0 < p < 2 ^ 52 ∧ (page_size | p) ∧ is_Some (which zs p) ∧ get_page_reference zs p = 0 ∧
  (∀ q, get_page_reference zs' q = if decide (q = p) then 1 else get_page_reference zs q) ∧
  (∀ q, which zs' q = which zs q).
Proof using HBL.
  intros Ho. unfold allocate. change (align_up page_size page_size / page_size) with 1.
  change 0%nat with (length (@nil (zone B))).
  destruct (allocate_loop_spec zs 1 [] (take (Z.to_nat (active_zones zs)) (zone_array zs)))
    as [->|(k & i & z & z' & -> & Hk & Ha & Hi & Hr & Hc)]; [done|lia|done|done|].
  intros [= <- <-]. pose proof (get_page_at zs k z i Ho Hk Ha Hi) as Hg.
  destruct (zone_of_page zs _ k i Ho Hg) as (z1 & Hw & Hk1 & Hz & _ & _ & Hr1).
  rewrite Hk in Hk1. injection Hk1 as <-.
  destruct Hz as [Hs Hal He Hcp Hlay _ _ _]. unfold page_array, sizeof_page in Hlay.
  split_and!; [by eapply zones_ok_set|unfold page_size in *; lia|unfold page_size in *; lia| |by rewrite Hw|lia| |].
  - apply Z.divide_add_r; [done|]. apply Z.divide_factor_l.
  - intros q. by apply (get_page_reference_set zs k z z' i 1).
  - intros q. by apply (which_set zs k z z' i 1).
Qed.

End facts.

(** ** The interface of the zones *)

(** What the page tables use of [global_zones] and [KernelBuddyAllocatorV], one
    page at a time. *)
Class FrameStore (S : Type) : Type := {
  fs_allocate : S → option (Z * S);
  fs_deallocate : S → Z → option S;
  fs_add_reference : S → Z → option S;
  fs_bump : S → Z → option S;
  fs_reference : S → Z → Z;
  fs_known : S → Z → bool;
}.

Definition frame_address (f : Z) : Prop := 0 < f < 2 ^ 52 ∧ (page_size | f).

Definition recounted {S} `{FrameStore S} (s s' : S) (f n : Z) : Prop :=
  (∀ g, fs_reference s' g = if decide (g = f) then n else fs_reference s g) ∧
  (∀ g, fs_known s' g = fs_known s g).

Class FrameStoreLaws (S : Type) `{FrameStore S} : Type := {
  fs_ok : S → Prop;
  fs_allocate_spec s f s' :
    fs_ok s → fs_allocate s = Some (f, s') →
    fs_ok s' ∧ frame_address f ∧ fs_known s f = true ∧ fs_reference s f = 0 ∧ recounted s s' f 1;
  fs_deallocate_spec s f :
    fs_ok s → 0 < fs_reference s f →
    ∃ s', fs_deallocate s f = Some s' ∧ fs_ok s' ∧ recounted s s' f (fs_reference s f - 1);
  fs_add_reference_spec s f :
    fs_ok s → 0 < fs_reference s f < 2 ^ 32 - 1 →
    ∃ s', fs_add_reference s f = Some s' ∧ fs_ok s' ∧ recounted s s' f (fs_reference s f + 1);
  fs_bump_spec s f :
    fs_ok s → 0 < fs_reference s f < 2 ^ 32 - 1 →
    ∃ s', fs_bump s f = Some s' ∧ fs_ok s' ∧ recounted s s' f (fs_reference s f + 1);
  fs_bump_unknown s f : fs_known s f = false → fs_bump s f = None;
}.

#[global] Instance zones_frame_store {B} `{Buddy B} : FrameStore (zones B) := {|
  fs_allocate zs := allocate zs page_size;
  fs_deallocate := deallocate;
  fs_add_reference := page_add_reference;
  fs_bump := page_bump;
  fs_reference := get_page_reference;
  fs_known zs f := bool_decide (is_Some (which zs f));
|}.

Lemma zones_recounted {B} `{Buddy B} (zs zs' : zones B) f n :
  (∀ q, get_page_reference zs' q = if decide (q = f) then n else get_page_reference zs q) →
  (∀ q, which zs' q = which zs q) → recounted zs zs' f n.
Proof. intros Hr Hw. split; [done|]. intros g. simpl. by rewrite Hw. Qed.

#[global] Instance zones_frame_store_laws {B} `{BuddyLaws B} : FrameStoreLaws (zones B).
Proof.
  exists zones_ok.
  - intros s f s' Ho Ha. destruct (zones_allocate_spec s f s' Ho Ha) as (Ho' & Hf & Hd & Hw & Hr & Hrs & Hws).
    split_and!; [done|done|by apply bool_decide_eq_true|done|by apply zones_recounted].
  - intros s f Ho Hr. destruct (deallocate_spec s f Ho Hr) as (s' & Hd & Ho' & Hrs & Hws).
    exists s'. split_and!; [done|done|by apply zones_recounted].
  - intros s f Ho Hr. destruct (page_add_reference_spec s f Ho Hr) as (s' & Hd & Ho' & Hrs & Hws).
    exists s'. split_and!; [done|done|by apply zones_recounted].
  - intros s f Ho Hr. destruct (page_add_reference_spec s f Ho Hr) as (s' & Hd & Ho' & Hrs & Hws).
    exists s'. split_and!; [|done|by apply zones_recounted].
    change (page_bump s f = Some s'). rewrite page_bump_add; [done|]. change (0 < fs_reference s f). lia.
  - intros s f Hk. apply bool_decide_eq_false in Hk. simpl. unfold page_bump, on_zone.
    destruct (which s f); [by destruct Hk|done].
Defined.

(** ** Clients of the zones *)

(** The states a client reaches from zones without references, with the
    references it then holds: it takes a page, one more reference to a page it
    holds, or gives one back. *)
Inductive frame_run {B} `{Buddy B} (zs0 : zones B) : zones B → gmap Z Z → Prop :=
| frame_start : frame_run zs0 zs0 ∅
| frame_taken zs held f zs' :
    frame_run zs0 zs held → allocate zs page_size = Some (f, zs') → frame_run zs0 zs' (<[f := 1]> held)
| frame_shared zs held f n zs' :
    frame_run zs0 zs held → held !! f = Some n → n < 2 ^ 32 - 1 → page_add_reference zs f = Some zs' →
    frame_run zs0 zs' (<[f := n + 1]> held)
| frame_given_back zs held f n zs' :
    frame_run zs0 zs held → held !! f = Some n → deallocate zs f = Some zs' →
    frame_run zs0 zs' (if n =? 1 then delete f held else <[f := n - 1]> held).

Section clients.
Context {B : Type} `{HBL : BuddyLaws B}.
Implicit Types (zs : zones B) (held : gmap Z Z).

Definition accounted zs held : Prop :=
  zones_ok zs ∧ (∀ f n, held !! f = Some n → 0 < n) ∧
  ∀ f, get_page_reference zs f = default 0 (held !! f).

Lemma accounted_update zs held zs' f n :
  accounted zs held → 0 < n → zones_ok zs' →
  (∀ q, get_page_reference zs' q = if decide (q = f) then n else get_page_reference zs q) →
  accounted zs' (<[f := n]> held).
Proof using Type.
  intros (_ & Hp & Hr) Hn Ho' Hr'. split_and!; [done| |].
  - intros g m. destruct (decide (g = f)) as [->|Hg].
    + rewrite lookup_insert_eq. congruence.
    + rewrite lookup_insert_ne by done. apply Hp.
  - intros g. rewrite Hr'. destruct (decide (g = f)) as [->|Hg].
    + by rewrite lookup_insert_eq.
    + rewrite lookup_insert_ne by done. apply Hr.
Qed.

Lemma accounted_release zs held zs' f :
  accounted zs held → zones_ok zs' →
  (∀ q, get_page_reference zs' q = if decide (q = f) then 0 else get_page_reference zs q) →
  accounted zs' (delete f held).
Proof using Type.
  intros (_ & Hp & Hr) Ho' Hr'. split_and!; [done| |].
  - intros g m [_ Hg]%lookup_delete_Some. by apply (Hp g).
  - intros g. rewrite Hr'. destruct (decide (g = f)) as [->|Hg].
    + by rewrite lookup_delete_eq.
    + by rewrite lookup_delete_ne by done.
Qed.

Lemma frame_run_accounted zs0 zs held :
  zones_ok zs0 → (∀ f, get_page_reference zs0 f = 0) → frame_run zs0 zs held → accounted zs held.
Proof using HBL.
  intros Ho H0. induction 1 as [|zs held f zs' _ IH Ha|zs held f n zs' _ IH Hf Hn Ha|zs held f n zs' _ IH Hf Hd].
  - split_and!; [done|by intros f n|]. intros f. by rewrite lookup_empty.
  - destruct (zones_allocate_spec zs f zs') as (Ho' & _ & _ & _ & _ & Hr & _); [apply IH|done|].
    by eapply accounted_update.
  - pose proof IH as (Hz & Hp & Hr). pose proof (Hp f n Hf) as Hn0.
    assert (get_page_reference zs f = n) as Hrf by (by rewrite Hr, Hf).
    destruct (page_add_reference_spec zs f) as (zs1 & Ha1 & Ho' & Hr1 & _); [done|lia|].
    rewrite Ha in Ha1. injection Ha1 as <-. rewrite Hrf in Hr1.
    eapply accounted_update; [exact IH|lia|done|done].
  - pose proof IH as (Hz & Hp & Hr). pose proof (Hp f n Hf) as Hn0.
    assert (get_page_reference zs f = n) as Hrf by (by rewrite Hr, Hf).
    destruct (deallocate_spec zs f) as (zs1 & Hd1 & Ho' & Hr1 & _); [done|lia|].
    rewrite Hd in Hd1. injection Hd1 as <-. rewrite Hrf in Hr1. destruct (n =? 1) eqn:E.
    + apply Z.eqb_eq in E as ->. by eapply accounted_release.
    + eapply accounted_update; [exact IH|lia|done|done].
Qed.

(** C14: pages are reference counted.  In every state a client reaches, the
    count of each page is the number of references the client holds, a page
    handed out is one that nobody holds, and giving a held reference back never
    stops the kernel. *)
Theorem zones_count_references zs0 zs held :
  zones_ok zs0 → (∀ f, get_page_reference zs0 f = 0) → frame_run zs0 zs held →
  (∀ f, get_page_reference zs f = default 0 (held !! f)) ∧
  (∀ f zs', allocate zs page_size = Some (f, zs') → held !! f = None ∧ frame_address f) ∧
  (∀ f, is_Some (held !! f) → is_Some (deallocate zs f)).
Proof using HBL.
  intros Ho H0 Hrun. destruct (frame_run_accounted zs0 zs held Ho H0 Hrun) as (Hz & Hp & Hr).
  split_and!; [done| |].
  - intros f zs' Ha. destruct (zones_allocate_spec zs f zs' Hz Ha) as (_ & Hf & Hd & _ & H1 & _).
    split; [|done]. destruct (held !! f) as [n|] eqn:E; [|done].
    pose proof (Hp f n E). rewrite Hr, E in H1. simpl in H1. lia.
  - intros f [n Hn]. destruct (deallocate_spec zs f) as (zs' & -> & _); [done| |eauto].
    rewrite Hr, Hn. simpl. by apply (Hp f).
Qed.

End clients.

(** ** Finding the zones *)

(** One entry of the boot loader's memory map. *)
Record memory_map_item : Type := Build_memory_map_item {
  map_addr : Z;
  map_len : Z;
  map_available : bool;
}.

Definition large_page_size : Z := 0x200000.
Definition max_memory_range_support : Z := 32.

Record detection : Type := Build_detection {
  zones_range : list (Z * Z);
  high_index : Z;
  max_memory_available : Z;
  max_memory_maped : Z;
}.

Definition note_maped (d : detection) (item : memory_map_item) : detection :=
  let last := u64 (map_addr item + map_len item) in
  if max_memory_maped d <? last
  then Build_detection (zones_range d) (high_index d) (max_memory_available d) last else d.

(** The loop of [detect_zones]. *)
Fixpoint detect_loop (items : list memory_map_item) (d : detection) : detection :=
  match items with
  | [] => d
  | item :: rest =>
      if map_available item then
        let start := align_up (map_addr item) page_size in
        let end' := align_down (u64 (map_addr item + map_len item)) page_size in
        if end' <=? start then detect_loop rest d
        else if start <=? 100000 then detect_loop rest d
        else
          let start := align_up start large_page_size in
          let zone_count := Z.of_nat (length (zones_range d)) in
          if max_memory_range_support <? zone_count + 1 then d
          else
            let len := i64 (end' - start) in
            if len <=? page_size * 2 then detect_loop rest d
            else
              let high := if 0xFFFFFFFF <? start then zone_count else high_index d in
              detect_loop rest
                (note_maped (Build_detection (zones_range d ++ [(start, end')]) high
                               (u64 (max_memory_available d + len)) (max_memory_maped d)) item)
      else detect_loop rest (note_maped d item)
  end.

(** [None] is the panic on less than 16 MiB. *)
Definition detect_zones (items : list memory_map_item) : option detection :=
  let d := detect_loop items (Build_detection [] (-1) 0 0) in
  if max_memory_available d <? 0x1000000 then None
  else if high_index d =? -1
  then Some (Build_detection (zones_range d) (Z.of_nat (length (zones_range d)))
               (max_memory_available d) (max_memory_maped d))
  else Some d.

Definition item_ok (item : memory_map_item) : Prop :=
  0 ≤ map_addr item ∧ 0 ≤ map_len item ∧ map_addr item + map_len item < 2 ^ 52.

(** A range that [make_zone] can lay out, inside available memory. *)
Definition range_ok (items : list memory_map_item) (r : Z * Z) : Prop :=
  0 < r.1 ∧ (large_page_size | r.1) ∧ (page_size | r.2) ∧ 2 * page_size < r.2 - r.1 ∧
  ∃ item, item ∈ items ∧ map_available item = true ∧ map_addr item ≤ r.1 ∧ r.2 ≤ map_addr item + map_len item.

Lemma align_down_page_bounds a :
  0 ≤ a → align_down a page_size ≤ a ∧ 0 ≤ align_down a page_size ∧ (page_size | align_down a page_size).
Proof.
  intros Ha. rewrite align_down_page by done. pose proof (Z.div_mod a page_size ltac:(done)).
  pose proof (Z.mod_pos_bound a page_size ltac:(done)).
  pose proof (Z.div_pos a page_size Ha ltac:(done)). split_and!; [lia|unfold page_size in *; lia|apply Z.divide_factor_l].
Qed.

Lemma align_up_large a :
  0 ≤ a < 2 ^ 63 → a ≤ align_up a large_page_size < a + large_page_size ∧ (large_page_size | align_up a large_page_size).
Proof.
  intros Ha. unfold align_up. rewrite u64_small by (unfold large_page_size; lia).
  unfold large_page_size. change (0x200000 - 1) with (Z.ones 21).
  rewrite Z.ldiff_ones_r, Z.shiftl_mul_pow2, Z.shiftr_div_pow2 by lia. change (2 ^ 21) with 0x200000.
  pose proof (Z.div_mod (a + Z.ones 21) 0x200000 ltac:(done)).
  pose proof (Z.mod_pos_bound (a + Z.ones 21) 0x200000 ltac:(done)).
  change (Z.ones 21) with 2097151 in *. split; [lia|]. apply Z.divide_factor_r.
Qed.

Lemma zones_range_note d item : zones_range (note_maped d item) = zones_range d.
Proof. unfold note_maped. by destruct (_ <? _). Qed.

Lemma detect_loop_ranges all items d :
  Forall item_ok items → (∀ item, item ∈ items → item ∈ all) → Forall (range_ok all) (zones_range d) →
  Forall (range_ok all) (zones_range (detect_loop items d)).
Proof.
  revert d. induction items as [|item items IH]; intros d Hok Hin Hd; simpl; [done|].
  apply Forall_cons in Hok as [(Ha & Hl & Hs) Hok].
  assert (∀ x, x ∈ items → x ∈ all) as Hin' by (intros x Hx; apply Hin; by right).
  destruct (map_available item) eqn:Eav; [|apply IH; [done|done|by rewrite zones_range_note]].
  rewrite (u64_small (map_addr item + map_len item)) by lia.
  destruct (align_up_rounds (map_addr item)) as (Hu1 & Hu2 & _); [done|unfold page_size; lia|].
  destruct (align_down_page_bounds (map_addr item + map_len item)) as (Hd1 & Hd2 & Hd3); [lia|].
  destruct (_ <=? _) eqn:E1; [by apply IH|]. destruct (_ <=? 100000) eqn:E2; [by apply IH|].
  destruct (align_up_large (align_up (map_addr item) page_size)) as (Hg1 & Hg2);
    [unfold page_size in *; lia|].
  destruct (_ <? _ + 1); [done|]. rewrite i64_small by (unfold large_page_size, page_size in *; lia).
  destruct (_ <=? page_size * 2) eqn:E3; [by apply IH|].
  apply IH; [done|done|]. rewrite zones_range_note. simpl. apply Forall_app. split; [done|].
  apply Forall_singleton. unfold range_ok. simpl. split_and!; [lia|done|done|lia|].
  exists item. split_and!; [apply Hin; left|done|lia|lia].
Qed.

(** C39: every range detected is available memory that a zone can be laid out
    in: it starts at a large page, ends at a page and is longer than two
    pages. *)
Theorem detected_zones_usable items d :
  Forall item_ok items → detect_zones items = Some d → Forall (range_ok items) (zones_range d).
Proof.
  intros Hok. unfold detect_zones.
  pose proof (detect_loop_ranges items items (Build_detection [] (-1) 0 0) Hok ltac:(done)
                (Forall_nil_2 _)) as Hr.
  destruct (_ <? _); [done|]. destruct (_ =? -1); by intros [= <-].
Qed.

(** the zones below [high_memory_index] are set up before memory above 4 GiB
    is mapped, but with two ranges above 4 GiB the index is that of the
    second. *)
Theorem second_high_range_hides_first :
  ∃ items d r, Forall item_ok items ∧ detect_zones items = Some d ∧
    zones_range d !! 1%nat = Some r ∧ 0xFFFFFFFF < r.1 ∧ high_index d = 2.
Proof.
  exists [Build_memory_map_item 0x100000 0x3ff00000 true;
          Build_memory_map_item 0x100000000 0x40000000 true;
          Build_memory_map_item 0x200000000 0x40000000 true].
  eexists _, _. split; [repeat constructor; simpl; lia|].
  split; [vm_compute; reflexivity|]. split; [reflexivity|]. simpl. split; [lia|reflexivity].
Qed.

(** ** Samples *)

(** A page allocator that keeps the blocks in use and takes the lowest free
    range. *)
Module PageList.

Definition page_list : Type := Z * gmap Z Z.

Definition fits (b : page_list) (n i : Z) : bool :=
  (i + n <=? b.1) && bool_decide (b.2 !! i = None) &&
  forallb (λ '(j, k), (i + n <=? j) || (j + k <=? i)) (map_to_list b.2).

Definition alloc (b : page_list) (n : Z) : option (Z * page_list) :=
  if n <=? 0 then None
  else
    i ← head (filter (λ i, fits b n i = true) (Z.of_nat <$> seq 0 (Z.to_nat b.1)));
    Some (i, (b.1, <[i := n]> b.2)).

Definition free (b : page_list) (i : Z) : bool * page_list :=
  (bool_decide (is_Some (b.2 !! i)), (b.1, delete i b.2)).

#[export] Instance page_list_buddy : Buddy page_list := {|
  buddy_make n := (n, ∅);
  buddy_alloc := alloc;
  buddy_free := free;
  buddy_alloc_at b i n := (b.1, <[i := n]> b.2);
  buddy_free_pages b := b.1 - total id b.2;
  buddy_blocks := snd;
  buddy_total := fst;
|}.

Lemma fits_spec b n i :
  fits b n i = true → i + n ≤ b.1 ∧ b.2 !! i = None ∧ ∀ j k, b.2 !! j = Some k → block_disjoint i n j k.
Proof.
  unfold fits. intros [[H1 H2]%andb_prop H3]%andb_prop. apply bool_decide_eq_true in H2.
  rewrite forallb_forall in H3. split_and!; [lia|done|]. intros j k Hj. unfold block_disjoint.
  specialize (H3 (j, k)). rewrite <-list_elem_of_In, elem_of_map_to_list in H3. specialize (H3 Hj). simpl in H3. lia.
Qed.

#[export] Instance page_list_laws : BuddyLaws page_list.
Proof.
  split.
  - done.
  - intros [t m] n i b'. simpl. unfold alloc. destruct (n <=? 0) eqn:En; [done|].
    destruct (head _) as [i'|] eqn:Eh; [|done]. simpl. intros [= -> <-]. exists n.
    assert (i ∈ filter (λ i, fits (t, m) n i = true) (Z.of_nat <$> seq 0 (Z.to_nat t))) as Hin
      by (simpl in Eh; destruct (filter _ _); simplify_eq/=; left).
    apply list_elem_of_filter in Hin as [Hf Hin]. apply list_elem_of_fmap in Hin as (k & -> & _).
    apply fits_spec in Hf as (Hf1 & Hf2 & Hf3). simpl in *. split_and!; [lia|lia|done|done|done|done|done].
  - intros [t m] i Hi. simpl in *. exists (t, delete i m). unfold free. simpl.
    by rewrite bool_decide_eq_true_2.
  - intros [t m] i n. simpl. split; [|done]. intros j Hj. destruct (decide (j = i)) as [->|Hn].
    + rewrite lookup_insert_eq. eauto.
    + by rewrite lookup_insert_ne by done.
Qed.

End PageList.

Module ZoneSample.
Import PageList.

Definition sample_zone : zone page_list := default (Build_zone 0 0 0 ∅ (0, ∅)) (make_zone 0x200000 0x206000 0 0).
Definition sample_zones : zones page_list := Build_zones [sample_zone] 1 false.

Lemma sample_zone_ok : zone_ok sample_zone.
Proof. by apply (make_zone_ok 0x200000 0x206000 0 0 sample_zone); [|exists 0x200|..]. Qed.

Lemma sample_zones_ok : zones_ok sample_zones.
Proof.
  constructor; simpl; [by constructor; [apply sample_zone_ok|]|by repeat constructor|].
  unfold active_zones, count_. simpl. lia.
Qed.

Lemma sample_no_references f : get_page_reference sample_zones f = 0.
Proof.
  unfold get_page_reference. destruct (get_page sample_zones f) as [[i index]|]; [|done].
  destruct i as [|i]; [|done]. by unfold ref_count.
Qed.

Lemma make_zone_layout_witness :
  zone_start sample_zone + page_size * 4 ≤ page_array sample_zone.
Proof. apply (make_zone_layout (B := page_list) 0x200000 0x206000 0 0 sample_zone); [done|by exists 0x200|done..]. Defined.

Lemma page_address_round_trip_witness :
  ∃ p, page_to_address sample_zone 3 = Some p ∧ address_to_page sample_zone p = Some 3.
Proof.
  destruct (page_address_round_trip sample_zone 3 sample_zone_ok) as (p & Hp & Ha & _); [done|].
  by exists p.
Defined.

Lemma zones_count_references_witness :
  ∃ zs held, frame_run sample_zones zs held ∧ held !! 0x200000 = Some 2 ∧
    get_page_reference zs 0x200000 = 2 ∧ is_Some (deallocate zs 0x200000).
Proof.
  assert (∃ zs held, frame_run sample_zones zs held ∧ held !! 0x200000 = Some 2) as (zs & held & Hrun & Hh).
  { eexists _, _. split.
    - eapply frame_shared with (n := 1); [eapply frame_taken; [apply frame_start|]| | |].
      + vm_compute. reflexivity.
      + by rewrite lookup_insert_eq.
      + done.
      + vm_compute. reflexivity.
    - by rewrite lookup_insert_eq. }
  exists zs, held. destruct (zones_count_references sample_zones zs held sample_zones_ok sample_no_references Hrun)
    as (Hr & _ & Hd). split_and!; [done|done|by rewrite Hr, Hh|apply Hd; eauto].
Defined.

Lemma detected_zones_usable_witness :
  ∃ d, detect_zones [Build_memory_map_item 0x100000 0x3ff00000 true] = Some d ∧
       Forall (range_ok [Build_memory_map_item 0x100000 0x3ff00000 true]) (zones_range d).
Proof.
  eexists. split; [vm_compute; reflexivity|].
  apply (detected_zones_usable [Build_memory_map_item 0x100000 0x3ff00000 true]);
    [by repeat constructor|vm_compute; reflexivity].
Defined.

End ZoneSample.
