(* ===== verification/Slab.v ===== *)
(** The slab allocator: includes/kernel/mm/slab.hpp and src/kernel/mm/slab.cc.

    A group hands out objects of one size from slabs: runs of pages that start
    with a header and hold an array of objects.  The headers of a group are the
    map [slabs] from addresses to [slab] records, with the links of the free and
    the used list as addresses; 0 is the null pointer.  The bitmap is
    [freelibcxx::bit_set_inplace<512>]: its value is the set of the bits that
    are set, and [scan_zero] is a parameter that returns the lowest clear bit.
    The pages of a new slab are an argument of the operations that may take
    one.  [None] is a kernel stop, a panic or a failed assertion.

    The theorems show the layout of slabs, that an object handed out is not in
    use and that any object in use can be given back, and that a slab that has
    once been full is never allocated from again. *)
From stdpp Require Import base list numbers gmap.
From S2P Require Import Prelude VmAllocator.

Local Open Scope Z_scope.
Set Default Proof Using "Type".

(** [bit_set_inplace<512>::count]. *)
Definition bitmap_count : Z := 512.

Record slab : Type := Build_slab {
  bitmap : gset Z;
  rest : Z;
  prev : Z;
  next : Z;
  data_ptr : Z;
}.

Record slab_group : Type := Build_slab_group {
  obj_align_size : Z;
  size : Z;
  align : Z;
  node_pre_slab : Z;
  page_pre_slab : Z;
  all_obj_count : Z;
  all_obj_used : Z;
  free_head : Z;
  used_head : Z;
  slabs : gmap Z slab;
}.

Implicit Types (g : slab_group) (s : slab) (a ptr : Z).

Definition set_prev s a : slab := Build_slab (bitmap s) (rest s) a (next s) (data_ptr s).
Definition set_next s a : slab := Build_slab (bitmap s) (rest s) (prev s) a (data_ptr s).
Definition set_bits s (b : gset Z) (r : Z) : slab := Build_slab b r (prev s) (next s) (data_ptr s).

Definition set_heads g (fh uh : Z) (h : gmap Z slab) : slab_group :=
  Build_slab_group (obj_align_size g) (size g) (align g) (node_pre_slab g) (page_pre_slab g)
    (all_obj_count g) (all_obj_used g) fh uh h.
Definition set_counts g (count used : Z) : slab_group :=
  Build_slab_group (obj_align_size g) (size g) (align g) (node_pre_slab g) (page_pre_slab g)
    count used (free_head g) (used_head g) (slabs g).

(** The bytes of the pages of one slab. *)
Definition slab_span g : Z := page_size * page_pre_slab g.

(** [free]: taking a slab out of the used list. *)
Definition unlink (h : gmap Z slab) s : gmap Z slab :=
  let h := if next s =? 0 then h else alter (λ x, set_prev x (prev s)) (next s) h in
  if prev s =? 0 then h else alter (λ x, set_next x (next s)) (prev s) h.

(** [alloc]: putting a slab that is full on the used list. *)
Definition push_used (h : gmap Z slab) a s (uh : Z) : gmap Z slab :=
  if uh =? 0 then <[a := set_prev (set_next s 0) 0]> h
  else alter (λ u, set_prev u a) uh (<[a := set_next (set_prev s 0) uh]> h).

Section slab.
Variables (sizeof_slab : Z) (scan_zero : gset Z → Z).

(** [(sizeof(slab) + align - 1) & ~(align - 1)]. *)
Definition header_size (al : Z) : Z := align_up sizeof_slab al.

(** The constructor of [slab_group]: pages and objects per slab. *)
Definition slab_shape (obj al : Z) : Z * Z :=
  let restsize := u64 (page_size - header_size al) in
  if restsize <? u64 (obj * 64) then
    if restsize <? u64 (obj * 16) then
      if restsize <? u64 (obj * 4) then
        if restsize <? obj then (16, u32 (u64 (restsize + page_size * 15) / obj))
        else (8, u32 (u64 (restsize + page_size * 7) / obj))
      else (4, u32 (u64 (restsize + page_size * 3) / obj))
    else (2, u32 (u64 (restsize + page_size) / obj))
  else (1, u32 (restsize / obj)).

Definition make_slab_group (sz al : Z) : slab_group :=
  let obj := align_up sz al in
  let '(pages, nodes) := slab_shape obj al in
  Build_slab_group obj sz al nodes pages 0 0 0 0 ∅.

(** [new_memory_node] on the pages at [fresh]; the page descriptors'
    [ref_slab] is in Kmalloc.v. *)
Definition new_memory_node g (fresh : Z) : slab_group :=
  let s := Build_slab ∅ (node_pre_slab g) 0 0 (align_up (fresh + sizeof_slab) (align g)) in
  set_counts (set_heads g (free_head g) (used_head g) (<[fresh := s]> (slabs g)))
    (u64 (all_obj_count g + node_pre_slab g)) (all_obj_used g).

(** [alloc] once the free list has a slab: its lowest free object, and the move
    of a slab that is then full to the used list. *)
Definition alloc_head g : option (Z * slab_group) :=
  let a := free_head g in
  s ← slabs g !! a;
  let i := scan_zero (bitmap s) in
  if negb ((i <? bitmap_count) && (i <? node_pre_slab g)) then None
  else
    let s := set_bits s ({[i]} ∪ bitmap s) (u32 (rest s - 1)) in
    let g := set_counts g (all_obj_count g) (u64 (all_obj_used g + 1)) in
    let h := <[a := s]> (slabs g) in
    let g :=
      if rest s =? 0 then
        let fh := next s in
        let h := push_used h a s (used_head g) in
        let h := if fh =? 0 then h else alter (λ f, set_prev f 0) fh h in
        set_heads g fh a h
      else set_heads g a (used_head g) h in
    Some (data_ptr s + i * obj_align_size g, g).

(** [alloc], with the pages at [fresh] taken when the free list is empty. *)
Definition alloc g (fresh : Z) : option (Z * slab_group) :=
  alloc_head
    (if free_head g =? 0 then
       let g := new_memory_node g fresh in set_heads g fresh (used_head g) (slabs g)
     else g).

(** The slab an object lies in. *)
Definition slab_of g ptr : Z := Z.ldiff ptr (slab_span g - 1).

Definition free g ptr : option slab_group :=
  let a := slab_of g ptr in
  s ← slabs g !! a;
  let index := u64 (ptr - data_ptr s) / obj_align_size g in
  if negb ((index <? bitmap_count) && bool_decide (index ∈ bitmap s)) then None
  else
    let s := set_bits s (bitmap s ∖ {[index]}) (u32 (rest s + 1)) in
    let g := set_counts g (all_obj_count g) (u64 (all_obj_used g - 1)) in
    let h := <[a := s]> (slabs g) in
    Some
      (if rest s =? 1 then
         let uh := if prev s =? 0 then next s else used_head g in
         let h := unlink h s in
         let h := alter (λ x, set_next (set_prev x 0) (free_head g)) a h in
         let h := if free_head g =? 0 then h else alter (λ x, set_prev x a) (free_head g) h in
         set_heads g (free_head g) uh h
       else set_heads g (free_head g) (used_head g) h).

(** [delete_memory_node], which nothing calls. *)
Definition delete_memory_node g a : option slab_group :=
  s ← slabs g !! a;
  if rest s =? node_pre_slab g
  then Some (set_counts (set_heads g (free_head g) (used_head g) (delete a (slabs g)))
               (u64 (all_obj_count g - node_pre_slab g)) (all_obj_used g))
  else None.

End slab.

(** ** The layout of slabs *)

Definition power_of_two (x : Z) : Prop := ∃ k, 0 ≤ k ≤ 12 ∧ x = 2 ^ k.

Lemma ldiff_pow2 x k : 0 ≤ k → Z.ldiff x (2 ^ k - 1) = 2 ^ k * (x / 2 ^ k).
Proof.
  intros Hk. replace (2 ^ k - 1) with (Z.ones k) by (rewrite Z.ones_equiv; lia).
  rewrite Z.ldiff_ones_r, Z.shiftl_mul_pow2, Z.shiftr_div_pow2 by lia. lia.
Qed.

Lemma align_up_pow2 x m :
  power_of_two m → 0 ≤ x → x + (m - 1) < 2 ^ 64 →
  0 < m ∧ x ≤ align_up x m < x + m ∧ (m | align_up x m).
Proof.
  intros (k & Hk & ->) Hx Hm. assert (0 < 2 ^ k) by lia. unfold align_up.
  rewrite u64_small, ldiff_pow2 by lia. pose proof (Z.div_mod (x + (2 ^ k - 1)) (2 ^ k) ltac:(lia)).
  pose proof (Z.mod_pos_bound (x + (2 ^ k - 1)) (2 ^ k) ltac:(lia)).
  split_and!; [done|lia|lia|apply Z.divide_factor_l].
Qed.

(** Rounding up an offset from an aligned address. *)
Lemma align_up_offset x y m :
  power_of_two m → (m | x) → 0 ≤ x → 0 ≤ y → x + y + (m - 1) < 2 ^ 64 →
  align_up (x + y) m = x + align_up y m.
Proof.
  intros Hm [q ->] Hx Hy Hb. destruct Hm as (k & Hk & ->). unfold align_up.
  rewrite !u64_small, !ldiff_pow2 by nia.
  replace (q * 2 ^ k + y + (2 ^ k - 1)) with (q * 2 ^ k + (y + (2 ^ k - 1))) by lia.
  rewrite Z.div_add_l by lia. lia.
Qed.

Lemma power_of_two_span x : power_of_two x → (x | page_size).
Proof.
  intros (k & Hk & ->). exists (2 ^ (12 - k)). change page_size with (2 ^ 12).
  rewrite <-Z.pow_add_r by lia. f_equal. lia.
Qed.

(** The shape of the slabs of a group: objects per slab within the bitmap, and
    header and objects within its pages. *)
Record shape_ok (sizeof_slab : Z) g : Prop := Build_shape_ok {
  shape_header : 0 < sizeof_slab ≤ page_size;
  shape_align : power_of_two (align g);
  shape_obj : 8 ≤ obj_align_size g;
  shape_obj_aligned : (align g | obj_align_size g);
  shape_pages : ∃ k, 0 ≤ k ≤ 4 ∧ page_pre_slab g = 2 ^ k;
  shape_nodes : 1 ≤ node_pre_slab g ≤ bitmap_count;
  shape_fit : header_size sizeof_slab (align g) + node_pre_slab g * obj_align_size g ≤ slab_span g;
}.

Lemma objects_fit (r q obj : Z) : 0 < obj → obj ≤ r → r ≤ obj * 512 → q = r / obj → 1 ≤ q ≤ 512 ∧ q * obj ≤ r.
Proof.
  intros Ho H1 H2 ->. split; [split|].
  - apply Z.div_le_lower_bound; lia.
  - apply Z.div_le_upper_bound; lia.
  - rewrite Z.mul_comm. apply Z.mul_div_le. lia.
Qed.

Lemma make_slab_group_shape sizeof_slab sz al :
  0 < sizeof_slab ≤ page_size → power_of_two al → header_size sizeof_slab al ≤ 2048 →
  8 ≤ align_up sz al ≤ 15 * page_size → 0 < sz ≤ 15 * page_size →
  shape_ok sizeof_slab (make_slab_group sizeof_slab sz al).
Proof.
  intros Hs Hal Hh Ho Hz. destruct (align_up_pow2 sz al Hal) as (Hm & Hup & Hdiv); [lia| |].
  { destruct Hal as (k & Hk & ->). assert (2 ^ k ≤ 2 ^ 12) by (apply Z.pow_le_mono_r; lia). unfold page_size in *. lia. }
  assert (0 ≤ header_size sizeof_slab al) as Hh0.
  { unfold header_size, align_up. apply Z.ldiff_nonneg. left. apply u64_range. }
  set (obj := align_up sz al) in *. set (hd := header_size sizeof_slab al) in *.
  unfold make_slab_group. fold obj. unfold slab_shape. fold hd.
  unfold page_size in Ho, Hz. rewrite (u64_small (page_size - hd)) by (unfold page_size; lia).
  rewrite !(u64_small (obj * _)) by lia. rewrite !(u64_small (page_size - hd + _)) by (unfold page_size; lia).
  assert (∀ pages r q, q = r / obj → obj ≤ r ≤ obj * 512 → (∃ k, 0 ≤ k ≤ 4 ∧ pages = 2 ^ k) →
    r + hd = page_size * pages →
    shape_ok sizeof_slab (Build_slab_group obj sz al (u32 q) pages 0 0 0 0 ∅)) as Hshape.
  { intros pages r q Hq Hr Hp Hspan. destruct (objects_fit r q obj) as [Hq1 Hq2]; [lia|lia|lia|done|].
    constructor; simpl; try done; [lia|rewrite u32_small by lia; unfold bitmap_count; lia|].
    rewrite u32_small by lia. fold hd. unfold slab_span. simpl. lia. }
  repeat match goal with |- context [if ?x <? ?y then _ else _] => destruct (x <? y) eqn:? end;
    (eapply Hshape; [done|unfold page_size in *; lia| |unfold page_size; lia]).
  all: first [by exists 4|by exists 3|by exists 2|by exists 1|by exists 0].
Qed.

(** ** The lists of slabs *)

(** [linked h p l n]: the slabs [l], the first with previous link [p] and the
    last with next link [n]. *)
Fixpoint linked (h : gmap Z slab) (p : Z) (l : list Z) (n : Z) : Prop :=
  match l with
  | [] => True
  | a :: l' => ∃ s, h !! a = Some s ∧ prev s = p ∧ next s = hd n l' ∧ linked h a l' n
  end.

(** The same for next links only. *)
Fixpoint chained (h : gmap Z slab) (l : list Z) : Prop :=
  match l with
  | [] => True
  | a :: l' => ∃ s, h !! a = Some s ∧ next s = hd 0 l' ∧ chained h l'
  end.

Lemma linked_ext h h' p l n : (∀ a, a ∈ l → h' !! a = h !! a) → linked h p l n → linked h' p l n.
Proof.
  revert p. induction l as [|a l IH]; intros p He; simpl; [done|]. intros (s & Hs & Hp & Hn & Hl).
  exists s. split_and!; [by rewrite He by left|done|done|]. apply IH; [|done]. intros b Hb. apply He. by right.
Qed.

Lemma chained_ext h h' l :
  (∀ a s, a ∈ l → h !! a = Some s → ∃ s', h' !! a = Some s' ∧ next s' = next s) → chained h l → chained h' l.
Proof.
  induction l as [|a l IH]; intros He; simpl; [done|]. intros (s & Hs & Hn & Hl).
  destruct (He a s) as (s' & Hs' & Hn'); [left|done|].
  exists s'. split_and!; [done|congruence|]. apply IH; [|done]. intros b t Hb. apply He. by right.
Qed.

Lemma last_cons_default a (l : list Z) p : List.last (a :: l) p = List.last l a.
Proof. revert a p. induction l as [|b l IH]; intros a p; [done|].
  change (List.last (b :: l) p = List.last (b :: l) a). by rewrite !IH. Qed.

Lemma linked_app h p l1 l2 n :
  linked h p (l1 ++ l2) n ↔ linked h p l1 (hd n l2) ∧ linked h (List.last l1 p) l2 n.
Proof.
  revert p. induction l1 as [|a l1 IH]; intros p; [simpl; tauto|].
  change ((a :: l1) ++ l2) with (a :: (l1 ++ l2)).
  rewrite last_cons_default. simpl. split.
  - intros (s & Hs & Hp & Hn & Hl). apply IH in Hl as [Hl1 Hl2]. split; [|done].
    exists s. split_and!; [done|done| |done]. by destruct l1.
  - intros [(s & Hs & Hp & Hn & Hl1) Hl2]. exists s. split_and!; [done|done|by destruct l1|]. by apply IH.
Qed.

Lemma linked_set_next h p l a s n n' :
  a ∉ l → h !! a = Some s → linked h p (l ++ [a]) n → linked (<[a := set_next s n']> h) p (l ++ [a]) n'.
Proof.
  intros Ha Hs Hl. apply linked_app in Hl as [Hl1 Hl2]. apply linked_app. split.
  - eapply linked_ext; [|exact Hl1]. intros b Hb. rewrite lookup_insert_ne; [done|]. by intros ->.
  - simpl in *. destruct Hl2 as (t & Ht & Hp & _ & _). rewrite Hs in Ht. injection Ht as <-.
    exists (set_next s n'). by rewrite lookup_insert_eq.
Qed.

Lemma linked_set_prev h p a l s n p' :
  a ∉ l → h !! a = Some s → linked h p (a :: l) n → linked (<[a := set_prev s p']> h) p' (a :: l) n.
Proof.
  intros Ha Hs (t & Ht & Hp & Hn & Hl). rewrite Hs in Ht. injection Ht as <-.
  exists (set_prev s p'). rewrite lookup_insert_eq. split_and!; [done|done|done|].
  eapply linked_ext; [|exact Hl]. intros b Hb. rewrite lookup_insert_ne; [done|]. by intros ->.
Qed.

(** The part of a header that is not a link. *)
Definition content s : gset Z * Z * Z := (bitmap s, rest s, data_ptr s).

Lemma content_alter (f : slab → slab) (h : gmap Z slab) k :
  (∀ s, content (f s) = content s) → content <$> alter f k h = content <$> h.
Proof.
  intros Hf. apply map_eq. intros j. rewrite !lookup_fmap. destruct (decide (j = k)) as [->|Hj].
  - rewrite lookup_alter_eq. destruct (h !! k); simpl; [by rewrite Hf|done].
  - by rewrite lookup_alter_ne by done.
Qed.

Lemma content_lookup (h h' : gmap Z slab) a s :
  content <$> h = content <$> h' → h !! a = Some s → ∃ s', h' !! a = Some s' ∧ content s' = content s.
Proof.
  intros He Hs. assert ((content <$> h) !! a = Some (content s)) as Hc by (by rewrite lookup_fmap, Hs).
  rewrite He, lookup_fmap in Hc. destruct (h' !! a) as [s'|]; [|done].
  exists s'. split; [done|]. apply (inj Some). exact Hc.
Qed.

Lemma linked_lookup h p l n a : linked h p l n → a ∈ l → is_Some (h !! a).
Proof.
  revert p. induction l as [|b l IH]; intros p Hl Ha; [by apply not_elem_of_nil in Ha|].
  destruct Hl as (s & Hs & _ & _ & Hl). apply elem_of_cons in Ha as [->|Ha]; [eauto|by eapply IH].
Qed.

Lemma last_in (l : list Z) d : l ≠ [] → List.last l d ∈ l.
Proof.
  intros Hl. destruct (exists_last Hl) as (l' & x & ->). rewrite List.last_last.
  apply elem_of_app. right. by apply list_elem_of_singleton.
Qed.

Lemma unlink_linked h l1 a l2 s :
  NoDup (l1 ++ a :: l2) → 0 ∉ l1 ++ a :: l2 → linked h 0 (l1 ++ a :: l2) 0 → h !! a = Some s →
  linked (unlink h s) 0 (l1 ++ l2) 0 ∧
  (if prev s =? 0 then next s else hd 0 (l1 ++ a :: l2)) = hd 0 (l1 ++ l2).
Proof.
  intros Hnd H0 Hl Hs. apply linked_app in Hl as [Hl1 (t & Ht & Hp & Hn & Hl2)].
  rewrite Hs in Ht. injection Ht as <-. unfold unlink. rewrite Hp, Hn. simpl in Hl1.
  apply NoDup_app in Hnd as (Hnd1 & Hdis & Hnd2). apply NoDup_cons in Hnd2 as [Ha2 Hnd2].
  rewrite elem_of_app, elem_of_cons in H0.
  (* the next slab *)
  set (h1 := if hd 0 l2 =? 0 then h else alter (λ x, set_prev x (List.last l1 0)) (hd 0 l2) h).
  assert (linked h1 (List.last l1 0) l2 0 ∧ linked h1 0 l1 a) as [Hl2' Hl1'].
  { unfold h1. destruct l2 as [|c l2]; simpl; [by split|].
    destruct (c =? 0) eqn:Ec; [apply Z.eqb_eq in Ec; subst c; exfalso; apply H0; right; right; left|].
    destruct (linked_lookup _ _ _ _ c Hl2) as [sc Hsc]; [left|].
    rewrite (alter_present _ h c sc) by done. apply NoDup_cons in Hnd2 as [Hc2 Hnd2]. split.
    - by eapply linked_set_prev.
    - eapply linked_ext; [|exact Hl1]. intros b Hb. rewrite lookup_insert_ne; [done|].
      intros ->. apply (Hdis b Hb). right. left. }
  clearbody h1. clear Hl1 Hl2 Hs h.
  destruct l1 as [|b0 l1'] using rev_ind; [by rewrite Z.eqb_refl|].
  clear IHl1'. rewrite List.last_last in *.
  destruct (b0 =? 0) eqn:Eb.
  { apply Z.eqb_eq in Eb as ->. exfalso. apply H0. left. apply elem_of_app. right. left. }
  split; [|by destruct l1'].
  destruct (linked_lookup _ _ _ _ b0 Hl1') as [sb Hsb]; [apply elem_of_app; right; left|].
  rewrite (alter_present _ h1 b0 sb) by done. apply linked_app. rewrite List.last_last.
  apply NoDup_app in Hnd1 as (_ & Hb & _). split.
  - apply (linked_set_next h1 0 l1' b0 sb a); [|done|done]. intros Hin. apply (Hb b0 Hin). left.
  - eapply linked_ext; [|exact Hl2']. intros c Hc. rewrite lookup_insert_ne; [done|].
    intros ->. apply (Hdis c); [apply elem_of_app; right; left|by right].
Qed.

Lemma unlink_content h s : content <$> unlink h s = content <$> h.
Proof.
  unfold unlink. destruct (prev s =? 0), (next s =? 0); rewrite ?content_alter; done.
Qed.

Lemma unlink_lookup h s a :
  a ≠ prev s → a ≠ next s → unlink h s !! a = h !! a.
Proof.
  intros Hp Hn. unfold unlink. destruct (prev s =? 0), (next s =? 0); rewrite ?lookup_alter_ne by done; done.
Qed.

(** ** Well-formed groups *)

Section groups.
Variables (sizeof_slab : Z) (scan_zero : gset Z → Z).

(** The lowest clear bit. *)
Hypothesis scan_zero_lowest :
  ∀ b : gset Z, 0 ≤ scan_zero b ∧ (scan_zero b ∉ b) ∧ ∀ i, 0 ≤ i < scan_zero b → i ∈ b.

Record slab_ok g a s : Prop := Build_slab_ok {
  slab_pos : 0 < a;
  slab_aligned : (slab_span g | a);
  slab_top : a + slab_span g < 2 ^ 64;
  slab_data : data_ptr s = a + header_size sizeof_slab (align g);
  slab_bits : ∀ i, i ∈ bitmap s → 0 ≤ i < node_pre_slab g;
  slab_rest : rest s = node_pre_slab g - Z.of_nat (base.size (bitmap s));
}.

(** [fl] and [ul] are the free and the used list. *)
Record group_inv g (fl ul : list Z) : Prop := Build_group_inv {
  inv_shape : shape_ok sizeof_slab g;
  inv_slab : ∀ a s, slabs g !! a = Some s → slab_ok g a s;
  inv_free_head : free_head g = hd 0 fl;
  inv_used_head : used_head g = hd 0 ul;
  inv_free : chained (slabs g) fl;
  inv_used : linked (slabs g) 0 ul 0;
  inv_nodup : NoDup (fl ++ ul);
  inv_full : ∀ a s, slabs g !! a = Some s → rest s = 0 ↔ a ∈ ul;
}.

Definition group_ok g : Prop := ∃ fl ul, group_inv g fl ul.

(** The pages that [zones::allocate] gives for a new slab: aligned to their
    size, not null and of no slab of the group. *)
Definition fresh_pages g (fresh : Z) : Prop :=
  0 < fresh ∧ (slab_span g | fresh) ∧ fresh + slab_span g < 2 ^ 64 ∧ slabs g !! fresh = None.

(** An object in use. *)
Definition live g ptr : Prop :=
  ∃ a s i, slabs g !! a = Some s ∧ i ∈ bitmap s ∧ ptr = data_ptr s + i * obj_align_size g.

(** *** Objects and slabs *)

Lemma span_pow2 g : shape_ok sizeof_slab g → ∃ k, 12 ≤ k ≤ 16 ∧ slab_span g = 2 ^ k.
Proof using Type.
  intros Ho. destruct (shape_pages _ _ Ho) as (k & Hk & Hp). exists (12 + k). split; [lia|].
  unfold slab_span. rewrite Hp, Z.pow_add_r by lia. done.
Qed.

(** The slab of an address between its start and its end. *)
Lemma slab_of_inside g a x :
  shape_ok sizeof_slab g → (slab_span g | a) → 0 ≤ a → 0 ≤ x < slab_span g → slab_of g (a + x) = a.
Proof using Type.
  intros Ho [q ->] Ha Hx. destruct (span_pow2 g Ho) as (k & Hk & Hs). unfold slab_of. rewrite Hs in *.
  rewrite ldiff_pow2 by lia. rewrite Z.div_add_l by lia. rewrite Z.div_small by lia. lia.
Qed.

Lemma header_nonneg al : 0 ≤ header_size sizeof_slab al.
Proof using Type. unfold header_size, align_up. apply Z.ldiff_nonneg. left. apply u64_range. Qed.

Lemma object_slab g a s i :
  shape_ok sizeof_slab g → slab_ok g a s → 0 ≤ i < node_pre_slab g →
  slab_of g (data_ptr s + i * obj_align_size g) = a ∧
  u64 (data_ptr s + i * obj_align_size g - data_ptr s) / obj_align_size g = i.
Proof using Type.
  intros Ho Hs Hi. rewrite (slab_data _ _ _ Hs). pose proof (header_nonneg (align g)).
  pose proof (shape_fit _ _ Ho). pose proof (shape_obj _ _ Ho). pose proof (slab_top _ _ _ Hs).
  pose proof (slab_pos _ _ _ Hs). assert (0 ≤ i * obj_align_size g) by nia.
  assert ((i + 1) * obj_align_size g ≤ node_pre_slab g * obj_align_size g) by nia. split.
  - rewrite <-Z.add_assoc. apply slab_of_inside; [done|apply Hs|lia|lia].
  - replace (_ - _) with (i * obj_align_size g) by lia. rewrite u64_small by lia. apply Z.div_mul. lia.
Qed.

Lemma full_bitmap (b : gset Z) n :
  (∀ i, i ∈ b → 0 ≤ i < n) → Z.of_nat (base.size b) < n → ∃ i, 0 ≤ i < n ∧ i ∉ b.
Proof using Type.
  intros Hb Hn. destruct (decide (Exists (λ k, Z.of_nat k ∉ b) (seq 0 (Z.to_nat n)))) as [He|Hall].
  { apply Exists_exists in He as (k & Hk & Hkb). exists (Z.of_nat k). apply elem_of_seq in Hk. split; [lia|done]. }
  exfalso. assert (list_to_set (Z.of_nat <$> seq 0 (Z.to_nat n)) ⊆ b) as Hsub.
  { intros i Hi. apply elem_of_list_to_set, list_elem_of_fmap in Hi as (k & -> & Hk).
    destruct (decide (Z.of_nat k ∈ b)); [done|]. exfalso. apply Hall, Exists_exists. eauto. }
  apply subseteq_size in Hsub. rewrite size_list_to_set, length_fmap, length_seq in Hsub; [lia|].
  apply NoDup_fmap_2; [apply _|apply NoDup_seq].
Qed.

Lemma scan_zero_free (b : gset Z) n :
  (∀ i, i ∈ b → 0 ≤ i < n) → Z.of_nat (base.size b) < n → 0 ≤ scan_zero b < n ∧ scan_zero b ∉ b.
Proof using scan_zero_lowest.
  intros Hb Hn. destruct (full_bitmap b n Hb Hn) as (i & Hi & Hib).
  destruct (scan_zero_lowest b) as (H1 & H2 & H3). split; [|done]. split; [done|].
  destruct (decide (scan_zero b < n)); [done|]. destruct Hib. apply H3. lia.
Qed.

Lemma bitmap_size_le (b : gset Z) n : 0 ≤ n → (∀ i, i ∈ b → 0 ≤ i < n) → Z.of_nat (base.size b) ≤ n.
Proof using Type.
  intros Hn Hb. assert (b ⊆ list_to_set (Z.of_nat <$> seq 0 (Z.to_nat n))) as Hsub.
  { intros i Hi. apply elem_of_list_to_set, list_elem_of_fmap. exists (Z.to_nat i).
    specialize (Hb i Hi). split; [lia|]. apply elem_of_seq. lia. }
  apply subseteq_size in Hsub. rewrite size_list_to_set, length_fmap, length_seq in Hsub; [lia|].
  apply NoDup_fmap_2; [apply _|apply NoDup_seq].
Qed.

(** *** Updates of one slab *)

Definition same_shape g g' : Prop :=
  obj_align_size g' = obj_align_size g ∧ align g' = align g ∧
  node_pre_slab g' = node_pre_slab g ∧ page_pre_slab g' = page_pre_slab g ∧ size g' = size g.

Lemma slab_ok_content g g' a s s' :
  same_shape g g' → content s' = content s → slab_ok g a s → slab_ok g' a s'.
Proof using Type.
  intros (E1 & E2 & E3 & E4 & _) [= Eb Er Ed] [H1 H2 H3 H4 H5 H6].
  constructor; unfold slab_span in *; rewrite ?E2, ?E3, ?E4, ?Eb, ?Er, ?Ed; done.
Qed.

Lemma shape_ok_same g g' : same_shape g g' → shape_ok sizeof_slab g → shape_ok sizeof_slab g'.
Proof using Type.
  intros (E1 & E2 & E3 & E4 & _) []. constructor; unfold slab_span in *; rewrite ?E1, ?E2, ?E3, ?E4; done.
Qed.

(** The group after the header at [a] became [s1], up to links. *)
Lemma group_inv_update g g' fl ul fl' ul' a s1 :
  group_inv g fl ul → same_shape g g' → content <$> slabs g' = content <$> <[a := s1]> (slabs g) →
  slab_ok g a s1 → free_head g' = hd 0 fl' → used_head g' = hd 0 ul' →
  chained (slabs g') fl' → linked (slabs g') 0 ul' 0 → NoDup (fl' ++ ul') →
  (rest s1 = 0 ↔ a ∈ ul') → (∀ b, b ≠ a → b ∈ ul' ↔ b ∈ ul) → group_inv g' fl' ul'.
Proof using Type.
  intros Hi Hsh Hc Ha Hfh Huh Hfl Hul Hnd Hfull Hother.
  assert (∀ b s', slabs g' !! b = Some s' →
    b = a ∧ content s' = content s1 ∨ b ≠ a ∧ ∃ s, slabs g !! b = Some s ∧ content s' = content s) as Hb.
  { intros b s' Hs'. destruct (content_lookup _ _ _ _ Hc Hs') as (s & Hs & He).
    destruct (decide (b = a)) as [->|Hn].
    - rewrite lookup_insert_eq in Hs. injection Hs as <-. by left.
    - rewrite lookup_insert_ne in Hs by done. right. split; [done|]. by exists s. }
  constructor; [eapply shape_ok_same; [done|apply Hi]| |done..|].
  - intros b s' Hs'. destruct (Hb b s' Hs') as [[-> He]|(Hn & s & Hs & He)].
    + by eapply slab_ok_content.
    + eapply slab_ok_content; [done|done|]. by apply (inv_slab _ _ _ Hi).
  - intros b s' Hs'. destruct (Hb b s' Hs') as [[-> He]|(Hn & s & Hs & He)]; injection He as _ -> _.
    + done.
    + rewrite Hother by done. by apply (inv_full _ _ _ Hi).
Qed.

(** The objects in use depend on the contents only. *)
Lemma live_content g ptr :
  live g ptr ↔ ∃ a b r d i, (content <$> slabs g) !! a = Some (b, r, d) ∧ i ∈ b ∧ ptr = d + i * obj_align_size g.
Proof using Type.
  split.
  - intros (a & s & i & Hs & Hi & ->). exists a, (bitmap s), (rest s), (data_ptr s), i.
    by rewrite lookup_fmap, Hs.
  - intros (a & b & r & d & i & Hs & Hi & ->). rewrite lookup_fmap in Hs.
    destruct (slabs g !! a) as [s|] eqn:E; [|done]. injection Hs as <- <- <-. by exists a, s, i.
Qed.

Lemma live_update g g' a s s1 :
  same_shape g g' → slabs g !! a = Some s → content <$> slabs g' = content <$> <[a := s1]> (slabs g) →
  data_ptr s1 = data_ptr s →
  ∀ ptr, live g' ptr ↔
    (∃ i, i ∈ bitmap s1 ∧ ptr = data_ptr s + i * obj_align_size g) ∨
    ∃ b t i, b ≠ a ∧ slabs g !! b = Some t ∧ i ∈ bitmap t ∧ ptr = data_ptr t + i * obj_align_size g.
Proof using Type.
  intros (Eo & _) Hs Hc Hd ptr. rewrite live_content, Hc, Eo. split.
  - intros (b & bm & r & d & i & Hb & Hi & ->). rewrite lookup_fmap in Hb. destruct (decide (b = a)) as [->|Hn].
    + rewrite lookup_insert_eq in Hb. injection Hb as <- <- <-. left. exists i. by rewrite Hd.
    + rewrite lookup_insert_ne in Hb by done. destruct (slabs g !! b) as [t|] eqn:E; [|done].
      injection Hb as <- <- <-. right. by exists b, t, i.
  - intros [(i & Hi & ->)|(b & t & i & Hn & Ht & Hi & ->)].
    + exists a, (bitmap s1), (rest s1), (data_ptr s1), i. rewrite lookup_fmap, lookup_insert_eq.
      split_and!; [done|done|by rewrite Hd].
    + exists b, (bitmap t), (rest t), (data_ptr t), i. by rewrite lookup_fmap, lookup_insert_ne, Ht by done.
Qed.

(** *** Allocation *)

Lemma free_head_rest g a fl ul :
  group_inv g (a :: fl) ul →
  ∃ s, slabs g !! a = Some s ∧ next s = hd 0 fl ∧ slab_ok g a s ∧ 1 ≤ rest s ≤ bitmap_count ∧
       0 ≤ scan_zero (bitmap s) < node_pre_slab g ∧ scan_zero (bitmap s) ∉ bitmap s.
Proof using scan_zero_lowest.
  intros Hi. destruct (inv_free _ _ _ Hi) as (s & Hs & Hn & _). exists s.
  pose proof (inv_slab _ _ _ Hi a s Hs) as Hok. pose proof (shape_nodes _ _ (inv_shape _ _ _ Hi)) as Hnode.
  assert (rest s ≠ 0) as Hr.
  { intros H0. apply (inv_full _ _ _ Hi a s Hs) in H0. pose proof (inv_nodup _ _ _ Hi) as Hnd. simpl in Hnd.
    apply NoDup_cons in Hnd as [Hnd _]. apply Hnd, elem_of_app. by right. }
  pose proof (slab_rest _ _ _ Hok) as Hrest.
  pose proof (bitmap_size_le (bitmap s) (node_pre_slab g) ltac:(lia) (slab_bits _ _ _ Hok)) as Hsz.
  destruct (scan_zero_free (bitmap s) (node_pre_slab g) (slab_bits _ _ _ Hok)) as [Hi1 Hi2]; [lia|].
  split_and!; try done; lia.
Qed.

(** Setting a clear bit of a slab. *)
Lemma slab_ok_take g a s i :
  slab_ok g a s → 0 ≤ i < node_pre_slab g → i ∉ bitmap s → 1 ≤ rest s ≤ bitmap_count →
  slab_ok g a (set_bits s ({[i]} ∪ bitmap s) (u32 (rest s - 1))).
Proof using Type.
  intros [H1 H2 H3 H4 H5 H6] Hi Hb Hr. constructor; simpl; try done.
  - intros j [->%elem_of_singleton|Hj]%elem_of_union; [done|by apply H5].
  - rewrite u32_small by (unfold bitmap_count in *; lia). rewrite size_union by (by apply disjoint_singleton_l).
    rewrite size_singleton. lia.
Qed.

Lemma chained_alter (f : slab → slab) h k l : (∀ x, next (f x) = next x) → chained h l → chained (alter f k h) l.
Proof using Type.
  intros Hf. apply chained_ext. intros b t Hb Ht. destruct (decide (b = k)) as [->|Hn].
  - rewrite lookup_alter_eq, Ht. simpl. eauto.
  - rewrite lookup_alter_ne by done. eauto.
Qed.

Lemma linked_alter_ne (f : slab → slab) h k p l n : k ∉ l → linked h p l n → linked (alter f k h) p l n.
Proof using Type. intros Hk. apply linked_ext. intros b Hb. apply lookup_alter_ne. by intros ->. Qed.

Lemma linked_insert_ne h k x p l n : k ∉ l → linked h p l n → linked (<[k := x]> h) p l n.
Proof using Type. intros Hk. apply linked_ext. intros b Hb. apply lookup_insert_ne. by intros ->. Qed.

Lemma push_used_linked h a s ul :
  linked h 0 ul 0 → NoDup (a :: ul) → 0 ∉ ul → linked (push_used h a s (hd 0 ul)) 0 (a :: ul) 0.
Proof using Type.
  intros Hl [Ha Hnd]%NoDup_cons H0. unfold push_used. destruct ul as [|u ul]; cbn [hd].
  - rewrite Z.eqb_refl. exists (set_prev (set_next s 0) 0). by rewrite lookup_insert_eq.
  - apply not_elem_of_cons in H0 as [Hu _]. apply not_elem_of_cons in Ha as [Hau Ha].
    rewrite (proj2 (Z.eqb_neq u 0)) by done. destruct Hl as (t & Ht & Hp & Hn & Hl).
    apply NoDup_cons in Hnd as [Hnu _].
    exists (set_next (set_prev s 0) u). rewrite lookup_alter_ne, lookup_insert_eq by done.
    split_and!; [done|done|done|]. exists (set_prev t a).
    rewrite lookup_alter_eq, lookup_insert_ne, Ht by done. split_and!; [done|done|done|].
    apply linked_alter_ne; [done|]. by apply linked_insert_ne.
Qed.

Lemma push_used_content h a s uh : content <$> push_used h a s uh = content <$> <[a := s]> h.
Proof using Type.
  unfold push_used. destruct (uh =? 0); rewrite ?content_alter by done; rewrite !fmap_insert; done.
Qed.

Lemma push_used_chained h a s uh l : a ∉ l → chained h l → chained (push_used h a s uh) l.
Proof using Type.
  intros Ha Hl. assert (∀ x, chained (<[a := x]> h) l) as Hins.
  { intros x. eapply chained_ext; [|exact Hl]. intros b t Hb Ht. exists t.
    rewrite lookup_insert_ne; [done|]. by intros ->. }
  unfold push_used. destruct (uh =? 0); [done|]. by apply chained_alter.
Qed.

Lemma group_members g fl ul a : group_inv g fl ul → a ∈ fl ++ ul → 0 < a.
Proof using Type.
  intros Hi [Ha|Ha]%elem_of_app.
  - assert (∀ l, chained (slabs g) l → a ∈ l → is_Some (slabs g !! a)) as Hl.
    { clear. induction l as [|b l IH]; intros Hc Hin; [by apply not_elem_of_nil in Hin|].
      destruct Hc as (t & Ht & _ & Hc). apply elem_of_cons in Hin as [->|Hin]; [eauto|by apply IH]. }
    destruct (Hl fl (inv_free _ _ _ Hi) Ha) as [t Ht]. apply (inv_slab _ _ _ Hi a t Ht).
  - destruct (linked_lookup _ _ _ _ _ (inv_used _ _ _ Hi) Ha) as [t Ht]. apply (inv_slab _ _ _ Hi a t Ht).
Qed.

Lemma slab_update_keeps g g' fl ul a s s1 :
  group_inv g fl ul → slabs g !! a = Some s → next s1 = next s → slab_ok g a s1 → rest s ≠ 0 → rest s1 ≠ 0 →
  same_shape g g' → free_head g' = free_head g → used_head g' = used_head g → slabs g' = <[a := s1]> (slabs g) →
  group_inv g' fl ul.
Proof using Type.
  intros Hi Hs Hn Hok Hr Hr1 Hsh Hfh Huh Hh.
  assert (a ∉ ul) as Ha by (intros Ha; by apply (inv_full _ _ _ Hi a s Hs) in Ha).
  eapply (group_inv_update g g' fl ul fl ul a s1); try done; rewrite ?Hh;
    [done|rewrite Hfh; apply Hi|rewrite Huh; apply Hi| |apply linked_insert_ne; [done|apply Hi]|apply Hi].
  eapply chained_ext; [|exact (inv_free _ _ _ Hi)]. intros b t Hb Ht. destruct (decide (b = a)) as [->|Hba].
  - rewrite Hs in Ht. injection Ht as <-. exists s1. by rewrite lookup_insert_eq.
  - rewrite lookup_insert_ne by done. eauto.
Qed.

Lemma take_fills g g' a fl ul s s1 :
  group_inv g (a :: fl) ul → slabs g !! a = Some s → next s1 = next s → slab_ok g a s1 → rest s1 = 0 →
  same_shape g g' → free_head g' = next s1 → used_head g' = a →
  slabs g' = (let h := push_used (<[a := s1]> (slabs g)) a s1 (used_head g) in
              if next s1 =? 0 then h else alter (λ f, set_prev f 0) (next s1) h) →
  group_inv g' fl (a :: ul) ∧ content <$> slabs g' = content <$> <[a := s1]> (slabs g).
Proof using Type.
  intros Hi Hs Hn Hok Hr Hsh Hfh Huh Hh. pose proof (inv_nodup _ _ _ Hi) as Hnd. simpl in Hnd.
  apply NoDup_cons in Hnd as [Ha Hnd]. rewrite elem_of_app in Ha.
  destruct (inv_free _ _ _ Hi) as (t & Ht & Hnt & Hfl). rewrite Hs in Ht. injection Ht as <-.
  assert (0 ∉ fl ++ ul) as H0.
  { intros Hin. pose proof (group_members g (a :: fl) ul 0 Hi) as Hp. simpl in Hp.
    rewrite elem_of_cons in Hp. specialize (Hp (or_intror Hin)). lia. }
  assert (content <$> slabs g' = content <$> <[a := s1]> (slabs g)) as Hc.
  { rewrite Hh. cbv zeta. destruct (next s1 =? 0); rewrite ?content_alter by done;
      rewrite push_used_content, insert_insert_eq; done. }
  split; [|done].
  assert (NoDup (a :: ul)) as Hndu by (apply NoDup_cons; split; [tauto|]; by apply NoDup_app in Hnd as (_ & _ & ?)).
  assert (linked (slabs g) 0 ul 0) as Hul by apply Hi.
  rewrite elem_of_app in H0.
  assert (linked (push_used (<[a := s1]> (slabs g)) a s1 (used_head g)) 0 (a :: ul) 0) as Hl.
  { rewrite (inv_used_head _ _ _ Hi). apply push_used_linked; [apply linked_insert_ne; [tauto|done]|done|tauto]. }
  assert (chained (push_used (<[a := s1]> (slabs g)) a s1 (used_head g)) fl) as Hf.
  { apply push_used_chained; [tauto|]. eapply chained_ext; [|exact Hfl]. intros b t Hb Ht.
    exists t. rewrite lookup_insert_ne; [done|]. intros ->. tauto. }
  eapply (group_inv_update g g' (a :: fl) ul fl (a :: ul) a s1); try done; rewrite ?Hh.
  - rewrite Hfh. congruence.
  - destruct (next s1 =? 0); [done|]. by apply chained_alter.
  - destruct (next s1 =? 0) eqn:E; [done|]. apply linked_alter_ne; [|done].
    rewrite Hn, Hnt in E |- *. destruct fl as [|f fl]; [done|]. simpl.
    apply NoDup_cons in Hnd as [Hf0 _]. rewrite elem_of_app in Hf0. rewrite elem_of_cons.
    intros [->|Hin]; [apply Ha; left; left|tauto].
  - apply NoDup_app. apply NoDup_app in Hnd as (Hn1 & Hn2 & Hn3). split_and!; [done| |done].
    intros b Hb. rewrite elem_of_cons. intros [->|Hbu]; [tauto|by apply (Hn2 b)].
  - split; [intros _; left|done].
  - intros b Hb. rewrite elem_of_cons. tauto.
Qed.

Lemma alloc_head_spec g a fl ul :
  group_inv g (a :: fl) ul →
  ∃ s i g' fl' ul',
    (slabs g !! a = Some s ∧ 0 ≤ i < node_pre_slab g ∧ i ∉ bitmap s) ∧
    alloc_head scan_zero g = Some (data_ptr s + i * obj_align_size g, g') ∧
    group_inv g' fl' ul' ∧ same_shape g g' ∧ (∀ b, b ∈ fl' → b ∈ a :: fl) ∧
    content <$> slabs g' = content <$> <[a := set_bits s ({[i]} ∪ bitmap s) (u32 (rest s - 1))]> (slabs g).
Proof using scan_zero_lowest.
  intros Hi. destruct (free_head_rest g a fl ul Hi) as (s & Hs & Hn & Hok & Hr & Hsc & Hsb).
  set (i := scan_zero (bitmap s)) in *. exists s, i.
  pose proof (shape_nodes _ _ (inv_shape _ _ _ Hi)) as Hnode.
  pose proof (slab_ok_take g a s i Hok Hsc Hsb Hr) as Hok1.
  set (s1 := set_bits s ({[i]} ∪ bitmap s) (u32 (rest s - 1))) in *.
  unfold alloc_head. rewrite (inv_free_head _ _ _ Hi). simpl hd. rewrite Hs. cbn [mbind option_bind]. fold i.
  replace ((i <? bitmap_count) && (i <? node_pre_slab g)) with true by lia. cbn [negb]. fold s1.
  destruct (rest s1 =? 0) eqn:E; [apply Z.eqb_eq in E|apply Z.eqb_neq in E].
  - eexists _, fl, (a :: ul). split; [done|]. split; [reflexivity|].
    match goal with |- group_inv ?g' _ _ ∧ _ =>
      destruct (take_fills g g' a fl ul s s1) as [Hinv Hc]; try done end.
    split; [exact Hinv|]. split; [done|]. split; [intros b Hb; by right|exact Hc].
  - eexists _, (a :: fl), ul. split; [done|]. split; [reflexivity|].
    split; [apply (slab_update_keeps g _ (a :: fl) ul a s s1); try done; [lia|by rewrite (inv_free_head _ _ _ Hi)]|].
    by split_and!.
Qed.

(** A fresh slab becomes the free list. *)
Lemma new_slab_inv g ul fresh :
  group_inv g [] ul → fresh_pages g fresh →
  let g1 := new_memory_node sizeof_slab g fresh in
  let g2 := set_heads g1 fresh (used_head g1) (slabs g1) in
  group_inv g2 [fresh] ul ∧ same_shape g g2 ∧
  ∃ s, slabs g2 = <[fresh := s]> (slabs g) ∧ bitmap s = ∅.
Proof using Type.
  intros Hi (Hp & Hd & Ht & Hnone). simpl. pose proof (inv_shape _ _ _ Hi) as Hs.
  set (s := Build_slab ∅ (node_pre_slab g) 0 0 (align_up (fresh + sizeof_slab) (align g))).
  destruct (shape_align _ _ Hs) as (k & Hk & Hal).
  assert (0 < align g ≤ page_size) as Hale
    by (rewrite Hal; split; [lia|]; change page_size with (2 ^ 12); apply Z.pow_le_mono_r; lia).
  pose proof (shape_header _ _ Hs) as Hh. pose proof (shape_fit _ _ Hs) as Hfit.
  pose proof (shape_nodes _ _ Hs) as Hnode. pose proof (shape_obj _ _ Hs) as Hobj.
  assert (data_ptr s = fresh + header_size sizeof_slab (align g)) as Hdata.
  { simpl. apply align_up_offset; [apply Hs| |lia|lia|].
    - etrans; [apply power_of_two_span, Hs|]. etrans; [|exact Hd]. unfold slab_span. apply Z.divide_factor_l.
    - destruct (align_up_pow2 sizeof_slab (align g)) as (_ & Hup & _);
        [apply Hs|lia|unfold page_size in *; lia|].
      pose proof (Z.divide_pos_le (align g) (obj_align_size g) ltac:(lia) (shape_obj_aligned _ _ Hs)).
      unfold header_size in *. nia. }
  assert (fresh ∉ ul) as Hfu.
  { intros Hin. destruct (linked_lookup _ _ _ _ _ (inv_used _ _ _ Hi) Hin) as [t Ht']. congruence. }
  split; [|split; [done|by exists s]].
  eapply (group_inv_update g _ [] ul [fresh] ul fresh s); try done; simpl.
  - constructor; [done..|by intros i []%not_elem_of_empty|].
    change (bitmap s) with (∅ : gset Z). rewrite size_empty. unfold s. cbn [rest]. lia.
  - apply Hi.
  - exists s. by rewrite lookup_insert_eq.
  - apply linked_insert_ne; [done|apply Hi].
  - apply NoDup_cons. split; [done|]. apply (inv_nodup _ _ _ Hi).
  - split; [lia|done].
Qed.

(** The bit of an object. *)
Lemma live_bit g fl ul a s i :
  group_inv g fl ul → slabs g !! a = Some s → 0 ≤ i < node_pre_slab g →
  live g (data_ptr s + i * obj_align_size g) ↔ i ∈ bitmap s.
Proof using Type.
  intros Hi Hs Hin. split; [|intros Hb; by exists a, s, i]. intros (b & t & j & Ht & Hj & He).
  pose proof (inv_slab _ _ _ Hi a s Hs) as Ha. pose proof (inv_slab _ _ _ Hi b t Ht) as Hb.
  destruct (object_slab g a s i (inv_shape _ _ _ Hi) Ha Hin) as [Ha1 Ha2].
  destruct (object_slab g b t j (inv_shape _ _ _ Hi) Hb (slab_bits _ _ _ Hb j Hj)) as [Hb1 Hb2].
  rewrite He in Ha1. assert (a = b) as <- by congruence. rewrite Hs in Ht. injection Ht as <-.
  rewrite He in Ha2. congruence.
Qed.

Lemma live_inv g fl ul ptr :
  group_inv g fl ul → live g ptr →
  ∃ s i, slabs g !! slab_of g ptr = Some s ∧ i ∈ bitmap s ∧ ptr = data_ptr s + i * obj_align_size g ∧
         u64 (ptr - data_ptr s) / obj_align_size g = i.
Proof using Type.
  intros Hi (a & s & i & Hs & Hb & ->). pose proof (inv_slab _ _ _ Hi a s Hs) as Ha.
  destruct (object_slab g a s i (inv_shape _ _ _ Hi) Ha (slab_bits _ _ _ Ha i Hb)) as [-> He]. by exists s, i.
Qed.

Lemma content_dom (h h' : gmap Z slab) : content <$> h = content <$> h' → ∀ b, is_Some (h !! b) ↔ is_Some (h' !! b).
Proof using Type.
  intros He b. rewrite <-(fmap_is_Some content), <-lookup_fmap, He, lookup_fmap. apply fmap_is_Some.
Qed.

Lemma insert_dom (h : gmap Z slab) a s s1 b : h !! a = Some s → is_Some (<[a := s1]> h !! b) ↔ is_Some (h !! b).
Proof using Type.
  intros Hs. destruct (decide (b = a)) as [->|Hn].
  - rewrite lookup_insert_eq, Hs. split; eauto.
  - by rewrite lookup_insert_ne by done.
Qed.

Lemma alloc_head_effect g a fl ul :
  group_inv g (a :: fl) ul →
  ∃ ptr g' fl' ul',
    alloc_head scan_zero g = Some (ptr, g') ∧ group_inv g' fl' ul' ∧ same_shape g g' ∧
    (∀ b, b ∈ fl' → b ∈ a :: fl) ∧ slab_of g ptr = a ∧
    (∀ b, is_Some (slabs g' !! b) ↔ is_Some (slabs g !! b)) ∧
    ¬ live g ptr ∧ ∀ q, live g' q ↔ q = ptr ∨ live g q.
Proof using scan_zero_lowest.
  intros Hi. destruct (alloc_head_spec g a fl ul Hi)
    as (s & i & g' & fl' & ul' & (Hs & Hin & Hib) & Ha & Hinv & Hsh & Hfl & Hc).
  pose proof (inv_slab _ _ _ Hi a s Hs) as Hok.
  destruct (object_slab g a s i (inv_shape _ _ _ Hi) Hok Hin) as [Hof _].
  exists (data_ptr s + i * obj_align_size g), g', fl', ul'.
  split; [done|]. split; [done|]. split; [done|]. split; [done|]. split; [done|]. split; [|split].
  - intros b. by rewrite (content_dom _ _ Hc), (insert_dom _ _ _ _ _ Hs).
  - by rewrite (live_bit g _ _ a s i Hi Hs Hin).
  - intros q. rewrite (live_update g g' a s _ Hsh Hs Hc eq_refl). simpl. split.
    + intros [(j & [->%elem_of_singleton|Hj]%elem_of_union & ->)|(b & t & j & Hb & Ht & Hj & ->)].
      * by left.
      * right. by exists a, s, j.
      * right. by exists b, t, j.
    + intros [->|(b & t & j & Ht & Hj & ->)].
      * left. exists i. split; [|done]. apply elem_of_union. left. by apply elem_of_singleton.
      * destruct (decide (b = a)) as [->|Hb].
        -- rewrite Hs in Ht. injection Ht as <-. left. exists j. split; [|done]. apply elem_of_union. by right.
        -- right. by exists b, t, j.
Qed.

(** The effect of [alloc]: an object that was not in use, of the first free slab
    or of a new one. *)
Lemma alloc_spec g fl ul fresh :
  group_inv g fl ul → (free_head g = 0 → fresh_pages g fresh) →
  ∃ ptr g' fl' ul',
    alloc sizeof_slab scan_zero g fresh = Some (ptr, g') ∧ group_inv g' fl' ul' ∧ same_shape g g' ∧
    (∀ b, b ∈ fl' → b ∈ fl ∨ b = fresh ∧ free_head g = 0) ∧
    (slab_of g ptr ∈ fl ∨ slab_of g ptr = fresh ∧ free_head g = 0) ∧
    (∀ b, is_Some (slabs g' !! b) ↔ is_Some (slabs g !! b) ∨ b = fresh ∧ free_head g = 0) ∧
    ¬ live g ptr ∧ ∀ q, live g' q ↔ q = ptr ∨ live g q.
Proof using scan_zero_lowest.
  intros Hi Hfresh. unfold alloc. pose proof (inv_free_head _ _ _ Hi) as Hfh. destruct fl as [|a fl].
  - simpl in Hfh. specialize (Hfresh Hfh). rewrite Hfh, Z.eqb_refl.
    destruct (new_slab_inv g ul fresh Hi Hfresh) as (Hi2 & Hsh2 & s & Hh & Hb). cbv zeta in *.
    set (g2 := set_heads _ _ _ _) in *.
    destruct (alloc_head_effect g2 fresh [] ul Hi2)
      as (ptr & g' & fl' & ul' & Ha & Hinv & Hsh & Hfl & Hof & Hdom & Hnl & Hl).
    assert (∀ q, live g2 q ↔ live g q) as Hlq.
    { intros q. destruct Hfresh as (_ & _ & _ & Hnone). split.
      - intros (b & t & j & Ht & Hj & ->). rewrite Hh in Ht. destruct (decide (b = fresh)) as [->|Hn].
        + rewrite lookup_insert_eq in Ht. injection Ht as <-. rewrite Hb in Hj. by apply not_elem_of_empty in Hj.
        + rewrite lookup_insert_ne in Ht by done. by exists b, t, j.
      - intros (b & t & j & Ht & Hj & ->). exists b, t, j. rewrite Hh, lookup_insert_ne by congruence. done. }
    assert (slab_of g2 ptr = slab_of g ptr) as Hofe by done. rewrite Hofe in Hof.
    exists ptr, g', fl', ul'. split; [done|]. split; [done|]. split; [|split_and!].
    + destruct Hsh as (? & ? & ? & ? & ?), Hsh2 as (? & ? & ? & ? & ?). repeat split; congruence.
    + intros b Hb'%Hfl. apply list_elem_of_singleton in Hb' as ->. by right.
    + by right.
    + intros b. rewrite Hdom, Hh. destruct (decide (b = fresh)) as [->|Hn].
      * rewrite lookup_insert_eq. split; eauto.
      * rewrite lookup_insert_ne by done. tauto.
    + by rewrite <-Hlq.
    + intros q. by rewrite Hl, Hlq.
  - simpl in Hfh. assert (0 < a) as Hpos by (apply (group_members g (a :: fl) ul a Hi); left).
    rewrite (proj2 (Z.eqb_neq (free_head g) 0)) by lia.
    destruct (alloc_head_effect g a fl ul Hi) as (ptr & g' & fl' & ul' & Ha & Hinv & Hsh & Hfl & Hof & Hrest).
    exists ptr, g', fl', ul'. split; [done|]. split; [done|]. split; [done|]. split; [intros b Hb; left; by apply Hfl|].
    split; [left; rewrite Hof; left|]. destruct Hrest as (Hdom & Hrest). split; [|done].
    intros b. rewrite Hdom. assert (free_head g ≠ 0) by lia. tauto.
Qed.

(** *** Giving objects back *)

Lemma linked_insert_same h p l n a s s1 :
  h !! a = Some s → prev s1 = prev s → next s1 = next s → linked h p l n → linked (<[a := s1]> h) p l n.
Proof using Type.
  intros Hs Hp Hn. revert p. induction l as [|b l IH]; intros p; simpl; [done|].
  intros (t & Ht & Hpt & Hnt & Hl). destruct (decide (b = a)) as [->|Hb].
  - rewrite Hs in Ht. injection Ht as <-. exists s1. rewrite lookup_insert_eq. split_and!; [done|congruence|congruence|auto].
  - exists t. rewrite lookup_insert_ne by done. auto.
Qed.

Lemma slab_ok_give g a s i :
  0 ≤ node_pre_slab g ≤ bitmap_count → slab_ok g a s → i ∈ bitmap s →
  slab_ok g a (set_bits s (bitmap s ∖ {[i]}) (u32 (rest s + 1))) ∧ u32 (rest s + 1) = rest s + 1 ∧ 0 ≤ rest s.
Proof using Type.
  intros Hn Ho Hi. pose proof (bitmap_size_le (bitmap s) (node_pre_slab g) ltac:(lia) (slab_bits _ _ _ Ho)) as Hsz.
  pose proof (slab_rest _ _ _ Ho) as Hr. destruct Ho as [H1 H2 H3 H4 H5 H6].
  assert (u32 (rest s + 1) = rest s + 1) as Hu by (apply u32_small; unfold bitmap_count in *; lia).
  split; [|split; [done|lia]]. constructor; simpl; try done.
  - intros j [Hj _]%elem_of_difference. by apply H5.
  - rewrite Hu. rewrite size_difference by (by apply singleton_subseteq_l). rewrite size_singleton.
    assert (base.size (bitmap s) ≠ 0%nat) as Hz.
    { intros Hz%size_empty_inv. by apply (not_elem_of_empty (C := gset Z) i), Hz. }
    lia.
Qed.

(** A slab that was full leaves the used list and does not join the free list. *)
Lemma give_to_full g g' fl ul a s s1 :
  group_inv g fl ul → slabs g !! a = Some s → prev s1 = prev s → next s1 = next s → slab_ok g a s1 →
  rest s = 0 → rest s1 ≠ 0 → same_shape g g' → free_head g' = free_head g →
  used_head g' = (if prev s1 =? 0 then next s1 else used_head g) →
  slabs g' = (let h := alter (λ x, set_next (set_prev x 0) (free_head g)) a (unlink (<[a := s1]> (slabs g)) s1) in
              if free_head g =? 0 then h else alter (λ x, set_prev x a) (free_head g) h) →
  ∃ ul', group_inv g' fl ul' ∧ content <$> slabs g' = content <$> <[a := s1]> (slabs g).
Proof using Type.
  intros Hi Hs Hp Hn Hok Hr Hr1 Hsh Hfh Huh Hh. pose proof (inv_nodup _ _ _ Hi) as Hnd.
  assert (a ∈ ul) as Ha by (by apply (inv_full _ _ _ Hi a s Hs)).
  assert (0 ∉ fl ++ ul) as H0 by (intros Hin; pose proof (group_members g fl ul 0 Hi Hin); lia).
  apply list_elem_of_split in Ha as (l1 & l2 & ->). exists (l1 ++ l2).
  assert (content <$> slabs g' = content <$> <[a := s1]> (slabs g)) as Hc.
  { rewrite Hh. cbv zeta. destruct (free_head g =? 0); rewrite ?content_alter by done; apply unlink_content. }
  split; [|done].
  apply NoDup_app in Hnd as (Hnf & Hdis & Hnu). rewrite elem_of_app in H0.
  assert (linked (<[a := s1]> (slabs g)) 0 (l1 ++ a :: l2) 0) as Hl
    by (eapply linked_insert_same; [exact Hs|done|done|apply Hi]).
  destruct (unlink_linked (<[a := s1]> (slabs g)) l1 a l2 s1 Hnu) as [Hul Hhd]; [tauto|done|by rewrite lookup_insert_eq|].
  assert (a ∉ l1 ++ l2) as Hal.
  { rewrite <-Permutation_middle in Hnu. by apply NoDup_cons in Hnu as [? _]. }
  assert (a ∉ fl) as Haf by (intros Haf; apply (Hdis a Haf); apply elem_of_app; right; left).
  assert (∀ b, b ∈ fl → b ∉ l1 ++ l2) as Hdis'.
  { intros b Hb Hbl. apply (Hdis b Hb). rewrite <-Permutation_middle. by right. }
  eapply (group_inv_update g g' fl (l1 ++ a :: l2) fl (l1 ++ l2) a s1); try done.
  - rewrite Hfh. apply Hi.
  - rewrite Huh, (inv_used_head _ _ _ Hi). exact Hhd.
  - rewrite Hh. cbv zeta. assert (chained (unlink (<[a := s1]> (slabs g)) s1) fl) as Hcf.
    { eapply chained_ext; [|exact (inv_free _ _ _ Hi)]. intros b t Hb Ht. exists t. split; [|done].
      assert (b ≠ a) as Hba by congruence.
      apply linked_app in Hl as [_ (t' & Ht' & Hpt & Hnt & _)].
      rewrite lookup_insert_eq in Ht'. injection Ht' as <-.
      assert (∀ x, x ∈ l1 ++ l2 ∨ x = 0 → b ≠ x) as Hbx.
      { intros x [Hx| ->] ->; [by apply (Hdis' x)|]. apply H0. by left. }
      rewrite unlink_lookup, lookup_insert_ne; [done|done| |]; apply Hbx; rewrite ?Hpt, ?Hnt, elem_of_app.
      - destruct l1 as [|x l1]; [by right|]. left. left. by apply last_in.
      - destruct l2 as [|x l2]; [by right|]. left. right. left. }
    assert (chained (alter (λ x, set_next (set_prev x 0) (free_head g)) a (unlink (<[a := s1]> (slabs g)) s1)) fl) as Hcf'.
    { eapply chained_ext; [|exact Hcf]. intros b t Hb Ht. exists t. rewrite lookup_alter_ne by congruence. done. }
    destruct (free_head g =? 0); [done|]. by apply chained_alter.
  - rewrite Hh. cbv zeta. pose proof (linked_alter_ne (λ x, set_next (set_prev x 0) (free_head g)) _ a _ _ _ Hal Hul) as Hul'.
    destruct (free_head g =? 0) eqn:E; [done|]. apply linked_alter_ne; [|done].
    rewrite (inv_free_head _ _ _ Hi) in E |- *. destruct fl as [|f fl]; [done|]. apply Hdis'. left.
  - apply NoDup_app. split_and!; [done|done|]. rewrite <-Permutation_middle in Hnu. by apply NoDup_cons in Hnu as [_ ?].
  - intros b Hb. rewrite <-Permutation_middle, elem_of_cons. tauto.
Qed.

(** The effect of [free] on an object in use. *)
Lemma free_spec g fl ul ptr :
  group_inv g fl ul → live g ptr →
  ∃ g' ul', free g ptr = Some g' ∧ group_inv g' fl ul' ∧ same_shape g g' ∧
    (∀ b, is_Some (slabs g' !! b) ↔ is_Some (slabs g !! b)) ∧
    ∀ q, live g' q ↔ q ≠ ptr ∧ live g q.
Proof using Type.
  intros Hi Hlive. destruct (live_inv g fl ul ptr Hi Hlive) as (s & i & Hs & Hib & Hptr & Hidx).
  set (a := slab_of g ptr) in *. pose proof (inv_slab _ _ _ Hi a s Hs) as Hok.
  pose proof (shape_nodes _ _ (inv_shape _ _ _ Hi)) as Hnode.
  pose proof (slab_bits _ _ _ Hok i Hib) as Hrange.
  destruct (slab_ok_give g a s i) as (Hok1 & Hu & Hr0); [lia|done|done|].
  unfold free. fold a. rewrite Hs. cbn [mbind option_bind]. rewrite Hidx.
  rewrite (bool_decide_eq_true_2 (i ∈ bitmap s)) by done.
  replace (i <? bitmap_count) with true by lia. cbn [negb andb].
  set (s1 := set_bits s (bitmap s ∖ {[i]}) (u32 (rest s + 1))) in *.
  assert (rest s1 = rest s + 1) as Hr1 by done.
  assert (∀ g', same_shape g g' → content <$> slabs g' = content <$> <[a := s1]> (slabs g) →
    (∀ b, is_Some (slabs g' !! b) ↔ is_Some (slabs g !! b)) ∧ ∀ q, live g' q ↔ q ≠ ptr ∧ live g q) as Hlv.
  { intros g' Hsh Hc. split.
    - intros b. by rewrite (content_dom _ _ Hc), (insert_dom _ _ _ _ _ Hs).
    - intros q. rewrite (live_update g g' a s s1 Hsh Hs Hc eq_refl). split.
      + intros [(j & [Hj Hji]%elem_of_difference & ->)|(b & t & j & Hb & Ht & Hj & ->)].
        * split; [|by exists a, s, j]. rewrite Hptr. intros He. apply Hji, elem_of_singleton.
          pose proof (shape_obj _ _ (inv_shape _ _ _ Hi)). nia.
        * split; [|by exists b, t, j]. intros He. apply Hb.
          pose proof (inv_slab _ _ _ Hi b t Ht) as Hbt.
          destruct (object_slab g b t j (inv_shape _ _ _ Hi) Hbt (slab_bits _ _ _ Hbt j Hj)) as [<- _].
          by rewrite He.
      + intros [Hne (b & t & j & Ht & Hj & ->)]. destruct (decide (b = a)) as [->|Hb]; [|right; by exists b, t, j].
        rewrite Hs in Ht. injection Ht as <-. left. exists j. split; [|done].
        apply elem_of_difference. split; [done|]. intros ->%elem_of_singleton. by rewrite Hptr in Hne. }
  destruct (rest s1 =? 1) eqn:E; [apply Z.eqb_eq in E|apply Z.eqb_neq in E].
  - match goal with |- ∃ g' _, Some ?x = Some g' ∧ _ =>
      destruct (give_to_full g x fl ul a s s1) as (ul' & Hinv & Hc); try done; [lia|lia|] end.
    eexists _, ul'. split; [reflexivity|]. split; [exact Hinv|]. split; [done|]. by apply Hlv.
  - eexists _, ul. split; [reflexivity|]. split; [|split; [done|by apply Hlv]].
    apply (slab_update_keeps g _ fl ul a s s1); try done; lia.
Qed.

(** *** Runs *)

(** The states a group reaches from [g0] when objects [held0] are in use, with
    the objects then in use and all that were handed out on the way.  Clients
    give back what they hold. *)
Inductive slab_run g0 (held0 : gset Z) : slab_group → gset Z → list Z → Prop :=
| slab_start : slab_run g0 held0 g0 held0 []
| slab_taken g held log fresh ptr g' :
    slab_run g0 held0 g held log → (free_head g = 0 → fresh_pages g fresh) →
    alloc sizeof_slab scan_zero g fresh = Some (ptr, g') → slab_run g0 held0 g' ({[ptr]} ∪ held) (ptr :: log)
| slab_given_back g held log ptr g' :
    slab_run g0 held0 g held log → ptr ∈ held → free g ptr = Some g' →
    slab_run g0 held0 g' (held ∖ {[ptr]}) log.

Definition in_use g (held : gset Z) : Prop := ∀ q, live g q ↔ q ∈ held.

(** Slabs that are not on the free list stay off it and serve no object. *)
Lemma slab_run_inv g0 held0 fl0 ul0 g held log :
  group_inv g0 fl0 ul0 → in_use g0 held0 → slab_run g0 held0 g held log →
  ∃ fl ul, group_inv g fl ul ∧ in_use g held ∧ same_shape g0 g ∧
    ∀ b, is_Some (slabs g0 !! b) → b ∉ fl0 →
         is_Some (slabs g !! b) ∧ (b ∉ fl) ∧ Forall (λ ptr, slab_of g0 ptr ≠ b) log.
Proof using scan_zero_lowest.
  intros Hi0 Hu0. induction 1 as [|g held log fresh ptr g' _ IH Hfresh Ha|g held log ptr g' _ IH Hin Hf].
  - exists fl0, ul0. split_and!; [done|done|done|]. intros b Hb Hn. split_and!; [done|done|constructor].
  - destruct IH as (fl & ul & Hi & Hu & Hsh & Hb).
    destruct (alloc_spec g fl ul fresh Hi Hfresh)
      as (ptr1 & g1 & fl' & ul' & Ha1 & Hi' & Hsh' & Hfl & Hof & Hdom & _ & Hl).
    rewrite Ha in Ha1. injection Ha1 as <- <-. exists fl', ul'. split; [done|]. split; [|split].
    + intros q. by rewrite Hl, (Hu q), elem_of_union, elem_of_singleton.
    + destruct Hsh as (? & ? & ? & ? & ?), Hsh' as (? & ? & ? & ? & ?). repeat split; congruence.
    + assert (slab_of g0 ptr = slab_of g ptr) as Hsl
        by (unfold slab_of, slab_span; destruct Hsh as (_ & _ & _ & -> & _); done).
      intros b Hb0 Hn. destruct (Hb b Hb0 Hn) as (Hbs & Hbn & Hbl).
      assert (fresh = b → free_head g = 0 → False) as Hfb.
      { intros -> Hz. destruct (Hfresh Hz) as (_ & _ & _ & Hnone). rewrite Hnone in Hbs. by destruct Hbs. }
      split_and!; [apply Hdom; by left| |constructor; [|done]].
      * intros Hin. destruct (Hfl b Hin) as [?|[? ?]]; [done|by apply Hfb].
      * rewrite Hsl. intros He. destruct Hof as [Hof|[Hof Hz]]; [by rewrite He in Hof|apply Hfb; congruence].
  - destruct IH as (fl & ul & Hi & Hu & Hsh & Hb).
    destruct (free_spec g fl ul ptr Hi) as (g1 & ul' & Hf1 & Hi' & Hsh' & Hdom & Hl); [by apply Hu|].
    rewrite Hf in Hf1. injection Hf1 as <-. exists fl, ul'. split; [done|]. split; [|split].
    + intros q. rewrite Hl, (Hu q), elem_of_difference, elem_of_singleton. tauto.
    + destruct Hsh as (? & ? & ? & ? & ?), Hsh' as (? & ? & ? & ? & ?). repeat split; congruence.
    + intros b Hb0 Hn. destruct (Hb b Hb0 Hn) as (Hbs & Hbn & Hbl). split_and!; [by apply Hdom|done|done].
Qed.

Lemma make_slab_group_inv sz al :
  shape_ok sizeof_slab (make_slab_group sizeof_slab sz al) →
  group_inv (make_slab_group sizeof_slab sz al) [] [] ∧ in_use (make_slab_group sizeof_slab sz al) ∅.
Proof using Type.
  intros Hs. assert (slabs (make_slab_group sizeof_slab sz al) = ∅ ∧ free_head (make_slab_group sizeof_slab sz al) = 0 ∧
    used_head (make_slab_group sizeof_slab sz al) = 0) as (E1 & E2 & E3).
  { unfold make_slab_group. by destruct (slab_shape _ _ _). }
  split.
  - constructor; [done| |done|done|done|done|constructor|]; intros a s; rewrite E1; by rewrite lookup_empty.
  - intros q. split; [|by intros []%not_elem_of_empty]. intros (a & s & i & Hl & _). by rewrite E1, lookup_empty in Hl.
Qed.

(** Two objects in use do not overlap. *)
Lemma objects_apart g fl ul p q :
  group_inv g fl ul → live g p → live g q → p ≠ q → p + obj_align_size g ≤ q ∨ q + obj_align_size g ≤ p.
Proof using Type.
  intros Hi Hp Hq Hne. pose proof (inv_shape _ _ _ Hi) as Hs.
  destruct (live_inv g fl ul p Hi Hp) as (s & i & Hsp & Hib & Hpe & _).
  destruct (live_inv g fl ul q Hi Hq) as (t & j & Htq & Hjb & Hqe & _).
  pose proof (inv_slab _ _ _ Hi _ _ Hsp) as Ha. pose proof (inv_slab _ _ _ Hi _ _ Htq) as Hb.
  pose proof (slab_bits _ _ _ Ha i Hib) as Hir. pose proof (slab_bits _ _ _ Hb j Hjb) as Hjr.
  pose proof (shape_obj _ _ Hs) as Ho. pose proof (shape_fit _ _ Hs) as Hfit. pose proof (header_nonneg (align g)).
  rewrite (slab_data _ _ _ Ha) in Hpe. rewrite (slab_data _ _ _ Hb) in Hqe.
  destruct (decide (slab_of g p = slab_of g q)) as [He|Hn].
  - rewrite He in Hpe. assert (i ≠ j) by congruence. nia.
  - destruct (slab_aligned _ _ _ Ha) as [x Hx]. destruct (slab_aligned _ _ _ Hb) as [y Hy].
    assert (0 < slab_span g) by (destruct (span_pow2 g Hs) as (k & Hk & ->); lia).
    assert ((i + 1) * obj_align_size g ≤ node_pre_slab g * obj_align_size g) by nia.
    assert ((j + 1) * obj_align_size g ≤ node_pre_slab g * obj_align_size g) by nia.
    destruct (Z.lt_trichotomy x y) as [?|[->|?]]; [left|congruence|right]; nia.
Qed.

Lemma live_aligned g fl ul p : group_inv g fl ul → live g p → (align g | p).
Proof using Type.
  intros Hi (a & s & i & Hs & _ & ->). pose proof (inv_slab _ _ _ Hi a s Hs) as Ha.
  pose proof (inv_shape _ _ _ Hi) as Hsh. rewrite (slab_data _ _ _ Ha).
  pose proof (shape_header _ _ Hsh). pose proof (shape_align _ _ Hsh) as Hal.
  apply Z.divide_add_r; [apply Z.divide_add_r|].
  - etrans; [by apply power_of_two_span|]. etrans; [|apply Ha]. unfold slab_span. apply Z.divide_factor_l.
  - destruct (align_up_pow2 sizeof_slab (align g) Hal) as (_ & _ & Hd); [lia| |done].
    pose proof (power_of_two_span _ Hal) as Hd%Z.divide_pos_le; unfold page_size in *; lia.
  - apply Z.divide_mul_r, Hsh.
Qed.

(** C26: a slab group serves its clients.  In every state reached from a new
    group, an allocation succeeds and returns an aligned object apart from every
    object in use, and giving an object in use back succeeds. *)
Theorem slab_group_serves sz al g held log :
  0 < sizeof_slab ≤ page_size → power_of_two al → header_size sizeof_slab al ≤ 2048 →
  8 ≤ align_up sz al ≤ 15 * page_size → 0 < sz ≤ 15 * page_size →
  slab_run (make_slab_group sizeof_slab sz al) ∅ g held log →
  (∀ fresh, (free_head g = 0 → fresh_pages g fresh) →
     ∃ ptr g', alloc sizeof_slab scan_zero g fresh = Some (ptr, g') ∧ (ptr ∉ held) ∧ (al | ptr) ∧
               ∀ q, q ∈ held → ptr + sz ≤ q ∨ q + sz ≤ ptr) ∧
  (∀ ptr, ptr ∈ held → is_Some (free g ptr)).
Proof using scan_zero_lowest.
  intros H1 H2 H3 H4 H5 Hrun. pose proof (make_slab_group_shape sizeof_slab sz al H1 H2 H3 H4 H5) as Hs.
  destruct (make_slab_group_inv sz al Hs) as [Hi0 Hu0].
  destruct (slab_run_inv _ _ _ _ _ _ _ Hi0 Hu0 Hrun) as (fl & ul & Hi & Hu & Hsh & _). split.
  - intros fresh Hfresh.
    destruct (alloc_spec g fl ul fresh Hi Hfresh)
      as (ptr & g' & fl' & ul' & Ha & Hi' & Hsh' & _ & _ & _ & Hnl & Hl).
    exists ptr, g'. split; [done|]. split; [by rewrite <-(Hu ptr)|]. split.
    { replace al with (align g'); [apply (live_aligned g' fl' ul' ptr Hi'), Hl; by left|].
      destruct Hsh as (_ & E & _), Hsh' as (_ & E' & _). rewrite E', E. unfold make_slab_group.
      by destruct (slab_shape _ _ _). }
    intros q Hq.
    assert (sz ≤ obj_align_size g').
    { destruct Hsh as (E & _), Hsh' as (E' & _). rewrite E', E. unfold make_slab_group.
      destruct (slab_shape _ _ _). simpl. destruct (align_up_pow2 sz al H2) as (_ & Hup & _); [lia| |lia].
      destruct H2 as (k & Hk & ->). assert (2 ^ k ≤ 2 ^ 12) by (apply Z.pow_le_mono_r; lia). unfold page_size in *. lia. }
    destruct (objects_apart g' fl' ul' ptr q Hi'); [apply Hl; by left|apply Hl; right; by apply Hu| |lia|lia].
    intros ->. by apply Hnl, Hu.
  - intros ptr Hp. destruct (free_spec g fl ul ptr Hi) as (g' & _ & -> & _); [by apply Hu|eauto].
Qed.

(** a slab that was full is lost.  Once an object of a full slab has been
    given back, no later allocation is served from that slab. *)
Theorem full_slab_is_lost sz al g held log a s ptr g' g'' held'' log'' :
  shape_ok sizeof_slab (make_slab_group sizeof_slab sz al) →
  slab_run (make_slab_group sizeof_slab sz al) ∅ g held log →
  slabs g !! a = Some s → rest s = 0 → ptr ∈ held → slab_of g ptr = a → free g ptr = Some g' →
  slab_run g' (held ∖ {[ptr]}) g'' held'' log'' →
  Forall (λ q, slab_of g q ≠ a) log''.
Proof using scan_zero_lowest.
  intros Hs Hrun Ha Hr Hp Hof Hf Hrun'. destruct (make_slab_group_inv sz al Hs) as [Hi0 Hu0].
  destruct (slab_run_inv _ _ _ _ _ _ _ Hi0 Hu0 Hrun) as (fl & ul & Hi & Hu & _).
  destruct (free_spec g fl ul ptr Hi) as (g1 & ul' & Hf1 & Hi' & Hsh & Hdom & Hl); [by apply Hu|].
  rewrite Hf in Hf1. injection Hf1 as <-.
  assert (in_use g' (held ∖ {[ptr]})) as Hu'.
  { intros q. rewrite Hl, (Hu q), elem_of_difference, elem_of_singleton. tauto. }
  destruct (slab_run_inv _ _ _ _ _ _ _ Hi' Hu' Hrun') as (fl' & ul'' & _ & _ & _ & Hb).
  assert (a ∉ fl) as Hn.
  { intros Hin. pose proof (inv_nodup _ _ _ Hi) as Hnd. apply NoDup_app in Hnd as (_ & Hdis & _).
    apply (Hdis a Hin). by apply (inv_full _ _ _ Hi a s). }
  destruct (Hb a (proj2 (Hdom a) ltac:(eauto)) Hn) as (_ & _ & Hlog).
  eapply Forall_impl; [exact Hlog|]. intros q. unfold slab_of, slab_span. by destruct Hsh as (_ & _ & _ & -> & _).
Qed.

End groups.
