(* ===== verification/Kmalloc.v ===== *)
(** [kmalloc] and [kfree], src/kernel/mm/memory.cc, over the slab groups of
    Slab.v: the table of size classes, the search for the class of a request, the
    group of an object through the page descriptors, and the state of the whole
    kernel heap.  The theorems show that a request gets the smallest class that
    holds it, and that blocks of different requests never overlap and can be
    given back. *)
From stdpp Require Import base list numbers gmap.
From S2P Require Import Prelude VmAllocator Slab.

Local Open Scope Z_scope.
Set Default Proof Using "Type".

(** ** Size classes *)

Definition kmalloc_fixed_slab_size : list Z :=
  [8; 16; 24; 32; 40; 48; 56; 64; 80; 96; 112; 128; 160; 192; 256; 384; 448; 512; 768; 960;
   1024; 1536; 2048; 3072; 4096; 6144; 8192].

Definition class_size (k : Z) : Z := zget kmalloc_fixed_slab_size k.

(** The search of [kmalloc].  At the first class it reads the word before the
    table; [smaller_before] is whether that word is less than the size. *)
Fixpoint class_search (fuel : nat) (smaller_before : bool) (sz left right mid : Z) : Z :=
  match fuel with
  | O => mid
  | S fuel =>
      if left <? right then
        let mid := left + (right - left) / 2 in
        if sz <=? class_size mid then
          if (if mid =? 0 then smaller_before else class_size (mid - 1) <? sz) then mid
          else class_search fuel smaller_before sz left mid mid
        else class_search fuel smaller_before sz (mid + 1) right mid
      else mid
  end.
Definition kmalloc_class (smaller_before : bool) (sz : Z) : Z := class_search 28 smaller_before sz 0 27 0.

(** The groups of the size classes and [ref_slab] of the page descriptors, as
    the class of the group. *)
Record kernel_heap : Type := Build_kernel_heap {
  classes : list slab_group;
  ref_slab : gmap Z nat;
}.

Implicit Types (kh : kernel_heap) (g : slab_group) (a ptr : Z).

Section kmalloc.
Variables (sizeof_slab : Z) (scan_zero : gset Z → Z).

Definition make_kernel_heap : kernel_heap :=
  Build_kernel_heap ((λ sz, make_slab_group sizeof_slab sz 8) <$> kmalloc_fixed_slab_size) ∅.

(** The loop of [new_memory_node] over its pages. *)
Fixpoint tag_pages (m : gmap Z nat) (page : Z) (n k : nat) : gmap Z nat :=
  match n with
  | O => m
  | S n => tag_pages (<[page := k]> m) (page + page_size) n k
  end.

Definition kmalloc kh (smaller_before : bool) (sz al fresh : Z) : option (Z * kernel_heap) :=
  if sz <? al then None
  else if class_size 26 <? sz then None
  else
    let mid := kmalloc_class smaller_before sz in
    if class_size mid <? sz then None
    else
      let k := Z.to_nat mid in
      g ← classes kh !! k;
      if size g <? sz then None
      else
        '(ptr, g') ← alloc sizeof_slab scan_zero g fresh;
        let tags := if free_head g =? 0 then tag_pages (ref_slab kh) fresh (Z.to_nat (page_pre_slab g)) k
                    else ref_slab kh in
        if Z.land ptr (al - 1) =? 0
        then Some (ptr, Build_kernel_heap (<[k := g']> (classes kh)) tags) else None.

(** [slab_group::get_group_from]. *)
Definition get_group_from kh ptr : option nat := ref_slab kh !! align_down ptr page_size.

Definition kfree kh ptr : option kernel_heap :=
  k ← get_group_from kh ptr;
  g ← classes kh !! k;
  g' ← free g ptr;
  Some (Build_kernel_heap (<[k := g']> (classes kh)) (ref_slab kh)).

End kmalloc.

Definition class_ok (sz k : Z) : bool :=
  (0 <=? k) && (k <? 27) && (sz <=? class_size k) && ((k =? 0) || (class_size (k - 1) <? sz)).

(** A test of all integers below a bound. *)
Fixpoint check_below (n : nat) (f : Z → bool) : bool :=
  match n with
  | O => true
  | S n => f (Z.of_nat n) && check_below n f
  end.

Lemma check_below_spec n f : check_below n f = true → ∀ z, 0 ≤ z < Z.of_nat n → f z = true.
Proof.
  induction n as [|n IH]; simpl; intros Hc z Hz; [lia|]. apply andb_prop in Hc as [H1 H2].
  destruct (decide (z = Z.of_nat n)) as [->|Hn]; [done|]. apply IH; [done|lia].
Qed.

Lemma class_check_all : check_below (Z.to_nat 8193) (λ sz, class_ok sz (kmalloc_class true sz) && class_ok sz (kmalloc_class false sz)) = true.
Proof. vm_compute. reflexivity. Qed.

Lemma class_check_true sz before : 0 ≤ sz < 8193 → class_ok sz (kmalloc_class before sz) = true.
Proof.
  intros Hsz. rewrite <-(Z2Nat.id 8193) in Hsz by done.
  destruct (andb_prop _ _ (check_below_spec _ _ class_check_all sz Hsz)) as [H1 H2].
  destruct before; [exact H1|exact H2].
Qed.

Definition classes_increase : bool :=
  check_below 27 (λ b, check_below 27 (λ a, (b <? a) || (class_size a <=? class_size b))).

Lemma class_size_mono a b : 0 ≤ a ≤ b → b < 27 → class_size a ≤ class_size b.
Proof.
  intros Ha Hb. assert (classes_increase = true) as Hc by (vm_compute; reflexivity).
  pose proof (check_below_spec _ _ Hc b ltac:(simpl; lia)) as Hcb. cbv beta in Hcb.
  pose proof (check_below_spec _ _ Hcb a ltac:(simpl; lia)) as Hca. cbv beta in Hca. lia.
Qed.

(** [kmalloc] takes the smallest size class that holds the request, whatever
    lies before the table in memory. *)
Theorem kmalloc_takes_smallest_class sz before :
  0 ≤ sz ≤ 8192 →
  let k := kmalloc_class before sz in
  0 ≤ k < 27 ∧ sz ≤ class_size k ∧ ∀ j, 0 ≤ j < k → class_size j < sz.
Proof.
  intros Hsz. cbv zeta. assert (0 ≤ sz < 8193) as Hlt by lia.
  pose proof (class_check_true sz before Hlt) as Hc. revert Hc. generalize (kmalloc_class before sz) as k.
  intros k Hc. apply andb_prop in Hc as [[[H1 H2]%andb_prop H3]%andb_prop H4]. split; [lia|]. split; [lia|].
  intros j Hj. apply orb_prop in H4 as [H4|H4]; [lia|]. pose proof (class_size_mono j (k - 1)). lia.
Qed.

(** ** The kernel heap *)

#[local] Opaque kmalloc_class.

Section heap.
Variables (sizeof_slab : Z) (scan_zero : gset Z → Z).
Hypothesis scan_zero_lowest :
  ∀ b : gset Z, 0 ≤ scan_zero b ∧ (scan_zero b ∉ b) ∧ ∀ i, 0 ≤ i < scan_zero b → i ∈ b.

(** The blocks in use, with their class. *)
Implicit Types (held : gmap Z nat).

Record heap_inv kh held : Prop := Build_heap_inv {
  heap_group : ∀ k g, classes kh !! k = Some g →
    (∃ fl ul, group_inv sizeof_slab g fl ul) ∧ size g = class_size (Z.of_nat k) ∧
    size g ≤ obj_align_size g ∧ align g = 8;
  heap_apart : ∀ k k' g g' a b, k ≠ k' → classes kh !! k = Some g → classes kh !! k' = Some g' →
    is_Some (slabs g !! a) → is_Some (slabs g' !! b) → a + slab_span g ≤ b ∨ b + slab_span g' ≤ a;
  heap_tags : ∀ k g a p, classes kh !! k = Some g → is_Some (slabs g !! a) →
    a ≤ p < a + slab_span g → (page_size | p) → ref_slab kh !! p = Some k;
  heap_live : ∀ k g p, classes kh !! k = Some g → live g p ↔ held !! p = Some k;
  heap_classes : length (classes kh) = 27%nat;
  heap_held : ∀ p k, held !! p = Some k → (k < 27)%nat;
}.

(** Pages for a new slab of class [k]: aligned to their size and of no slab of
    the heap. *)
Definition heap_fresh kh k (fresh : Z) : Prop :=
  ∀ g, classes kh !! k = Some g →
    0 < fresh ∧ (slab_span g | fresh) ∧ fresh + slab_span g < 2 ^ 64 ∧
    ∀ k' g' a, classes kh !! k' = Some g' → is_Some (slabs g' !! a) →
      fresh + slab_span g ≤ a ∨ a + slab_span g' ≤ fresh.

Lemma tag_pages_lookup m page n k p :
  (page_size | page) → (page_size | p) →
  tag_pages m page n k !! p = if decide (page ≤ p < page + page_size * Z.of_nat n) then Some k else m !! p.
Proof using Type.
  revert m page. induction n as [|n IH]; intros m page Hpg Hp; simpl.
  { rewrite decide_False by lia. done. }
  rewrite IH by first [done|apply Z.divide_add_r; [done|apply Z.divide_refl]].
  destruct (decide (p = page)) as [->|Hne].
  - rewrite lookup_insert_eq, decide_False by (unfold page_size; lia).
    by rewrite decide_True by (unfold page_size; lia).
  - rewrite lookup_insert_ne by done. destruct Hpg as [x ->], Hp as [y ->].
    destruct (decide (_ ≤ _ < _)) as [H1|H1], (decide (_ ≤ _ < _)) as [H2|H2]; try done; unfold page_size in *; lia.
Qed.

Lemma heap_fresh_pages kh held k g fresh :
  heap_inv kh held → classes kh !! k = Some g → heap_fresh kh k fresh → fresh_pages g fresh.
Proof using Type.
  intros Hi Hg Hf. destruct (Hf g Hg) as (H1 & H2 & H3 & H4). split_and!; [done|done|done|].
  destruct (slabs g !! fresh) as [s|] eqn:E; [|done]. exfalso.
  destruct (heap_group _ _ Hi k g Hg) as [(fl & ul & Hinv) _].
  destruct (span_pow2 sizeof_slab g (inv_shape _ _ _ _ Hinv)) as (j & Hj & Hs).
  assert (0 < slab_span g) by (rewrite Hs; lia).
  destruct (H4 k g fresh Hg); [eauto|lia|lia].
Qed.

(** Where the objects of a slab are. *)
Lemma live_in_slab g fl ul p :
  group_inv sizeof_slab g fl ul → live g p →
  is_Some (slabs g !! slab_of g p) ∧ slab_of g p ≤ p ∧ p + obj_align_size g ≤ slab_of g p + slab_span g.
Proof using Type.
  intros Hi Hl. destruct (live_inv _ _ _ _ _ Hi Hl) as (s & i & Hs & Hb & Hp & _).
  pose proof (inv_slab _ _ _ _ Hi _ _ Hs) as Hok. pose proof (slab_bits _ _ _ _ Hok i Hb) as Hr.
  pose proof (inv_shape _ _ _ _ Hi) as Hsh. pose proof (shape_fit _ _ Hsh). pose proof (shape_obj _ _ Hsh).
  pose proof (header_nonneg sizeof_slab (align g)). rewrite (slab_data _ _ _ _ Hok) in Hp.
  split; [eauto|]. nia.
Qed.

(** Replacing the group of one class by one that keeps or adds slabs. *)
Lemma heap_inv_update kh held k g g' tags held' (added : Z → Prop) :
  heap_inv kh held → classes kh !! k = Some g → (∃ fl ul, group_inv sizeof_slab g' fl ul) → same_shape g g' →
  (∀ b, is_Some (slabs g' !! b) ↔ is_Some (slabs g !! b) ∨ added b) →
  (∀ b k' h a, added b → k' ≠ k → classes kh !! k' = Some h → is_Some (slabs h !! a) →
     b + slab_span g ≤ a ∨ a + slab_span h ≤ b) →
  (∀ k' h a p, classes kh !! k' = Some h → is_Some (slabs h !! a) → a ≤ p < a + slab_span h →
     (page_size | p) → tags !! p = Some k') →
  (∀ b p, added b → b ≤ p < b + slab_span g → (page_size | p) → tags !! p = Some k) →
  (∀ p, live g' p ↔ held' !! p = Some k) →
  (∀ p k', k' ≠ k → held' !! p = Some k' ↔ held !! p = Some k') →
  heap_inv (Build_kernel_heap (<[k := g']> (classes kh)) tags) held'.
Proof using Type.
  intros Hi Hg Hinv Hsh Hdom Hnew Htags Hnewtags Hlive Hother.
  assert (slab_span g' = slab_span g) as Hspan by (unfold slab_span; by destruct Hsh as (_ & _ & _ & -> & _)).
  assert (∀ j h, classes (Build_kernel_heap (<[k := g']> (classes kh)) tags) !! j = Some h →
    j = k ∧ h = g' ∨ j ≠ k ∧ classes kh !! j = Some h) as Hcl.
  { intros j h Hj. simpl in Hj. apply list_lookup_insert_Some in Hj as [(-> & -> & _)|[? ?]]; [by left|by right]. }
  constructor.
  - intros j h Hj. destruct (Hcl j h Hj) as [[-> ->]|[Hn Hj']]; [|by apply (heap_group _ _ Hi)].
    destruct (heap_group _ _ Hi k g Hg) as (_ & H1 & H2 & H3). destruct Hsh as (E1 & E2 & _ & _ & E5).
    split_and!; [done|congruence|congruence|congruence].
  - intros j j' h h' a b Hn Hj Hj' Ha Hb.
    destruct (Hcl j h Hj) as [[-> ->]|[Hn1 Hj1]], (Hcl j' h' Hj') as [[-> ->]|[Hn2 Hj2]]; [done| | |].
    + rewrite Hspan. apply Hdom in Ha as [Ha|Ha]; [by apply (heap_apart _ _ Hi k j' g h')|by apply (Hnew a j' h')].
    + rewrite Hspan. apply Hdom in Hb as [Hb|Hb]; [by apply (heap_apart _ _ Hi j k h g)|].
      destruct (Hnew b j h a Hb Hn1 Hj1 Ha); tauto.
    + by apply (heap_apart _ _ Hi j j' h h').
  - intros j h a p Hj Ha Hp Hd. destruct (Hcl j h Hj) as [[-> ->]|[Hn Hj']]; [|by apply (Htags j h a p)].
    rewrite Hspan in Hp. apply Hdom in Ha as [Ha|Ha]; [by apply (Htags k g a p)|by apply (Hnewtags a p)].
  - intros j h p Hj. destruct (Hcl j h Hj) as [[-> ->]|[Hn Hj']]; [done|].
    rewrite Hother by done. by apply (heap_live _ _ Hi).
  - simpl. rewrite length_insert. apply Hi.
  - intros p j Hp. destruct (decide (j = k)) as [->|Hn].
    + apply lookup_lt_Some in Hg. by rewrite (heap_classes _ _ Hi) in Hg.
    + apply (heap_held _ _ Hi p j). by apply Hother.
Qed.

(** An object new in a class overlaps no block in use. *)
Lemma new_object_apart kh held k g g' fl' ul' fresh ptr :
  heap_inv kh held → classes kh !! k = Some g → group_inv sizeof_slab g' fl' ul' → same_shape g g' →
  (free_head g = 0 → heap_fresh kh k fresh) →
  (∀ b, is_Some (slabs g' !! b) ↔ is_Some (slabs g !! b) ∨ b = fresh ∧ free_head g = 0) →
  ¬ live g ptr → (∀ q, live g' q ↔ q = ptr ∨ live g q) →
  ∀ q j h, held !! q = Some j → classes kh !! j = Some h →
    ptr + obj_align_size g ≤ q ∨ q + obj_align_size h ≤ ptr.
Proof using Type.
  intros Hi Hg Hinv Hsh Hfresh Hdom Hnl Hl q j h Hq Hh. destruct Hsh as (E1 & _ & _ & E4 & _).
  assert (slab_span g' = slab_span g) as Hspan by (unfold slab_span; by rewrite E4).
  assert (live h q) as Hlq by (by apply (heap_live _ _ Hi j h q Hh)).
  destruct (decide (j = k)) as [->|Hn].
  - rewrite Hg in Hh. injection Hh as <-. rewrite <-E1.
    apply (objects_apart sizeof_slab g' fl' ul'); [done|apply Hl; by left|apply Hl; by right|].
    intros ->. done.
  - destruct (heap_group _ _ Hi j h Hh) as [(fl & ul & Hinvh) _].
    destruct (live_in_slab h fl ul q Hinvh Hlq) as (Hb & Hq1 & Hq2).
    destruct (live_in_slab g' fl' ul' ptr Hinv) as (Ha & Hp1 & Hp2); [apply Hl; by left|].
    rewrite Hspan, E1 in Hp2. apply Hdom in Ha as [Ha|[Ha Hz]].
    + destruct (heap_apart _ _ Hi k j g h _ _ (not_eq_sym Hn) Hg Hh Ha Hb); lia.
    + destruct (Hfresh Hz g Hg) as (_ & _ & _ & Hd). destruct (Hd j h _ Hh Hb); lia.
Qed.

Lemma heap_class_known kh held k : heap_inv kh held → (k < 27)%nat → ∃ g, classes kh !! k = Some g.
Proof using Type. intros Hi Hk. apply lookup_lt_is_Some_2. by rewrite (heap_classes _ _ Hi). Qed.

Lemma aligned_land p m : 0 ≤ m ≤ 3 → (8 | p) → Z.land p (2 ^ m - 1) = 0.
Proof using Type.
  intros Hm [q ->]. replace (2 ^ m - 1) with (Z.ones m) by (rewrite Z.ones_equiv; lia).
  rewrite Z.land_ones by lia. replace 8 with (2 ^ (3 - m) * 2 ^ m)
    by (rewrite <-Z.pow_add_r by lia; by replace (3 - m + m) with 3 by lia).
  rewrite Z.mul_assoc. apply Z.mod_mul. lia.
Qed.

(** Adding an object to a class. *)
Lemma heap_inv_taken kh held k g g' fl' ul' fresh ptr :
  heap_inv kh held → classes kh !! k = Some g → group_inv sizeof_slab g' fl' ul' → same_shape g g' →
  (free_head g = 0 → heap_fresh kh k fresh) →
  (∀ b, is_Some (slabs g' !! b) ↔ is_Some (slabs g !! b) ∨ b = fresh ∧ free_head g = 0) →
  held !! ptr = None → (∀ q, live g' q ↔ q = ptr ∨ live g q) →
  heap_inv (Build_kernel_heap (<[k := g']> (classes kh))
              (if free_head g =? 0 then tag_pages (ref_slab kh) fresh (Z.to_nat (page_pre_slab g)) k else ref_slab kh))
           (<[ptr := k]> held).
Proof using Type.
  intros Hi Hg Hinv Hsh Hfresh Hdom Hnone Hlive.
  destruct (heap_group _ _ Hi k g Hg) as [(fl & ul & Hginv) _]. pose proof (inv_shape _ _ _ _ Hginv) as Hshape.
  assert (slab_span g = page_size * Z.of_nat (Z.to_nat (page_pre_slab g))) as Hspan.
  { destruct (shape_pages _ _ Hshape) as (e & He & Hp). unfold slab_span. rewrite Z2Nat.id; [done|].
    rewrite Hp. lia. }
  assert (free_head g = 0 → (page_size | fresh)) as Hpf.
  { intros Hz. destruct (Hfresh Hz g Hg) as (_ & Hd & _). etrans; [|exact Hd]. unfold slab_span. apply Z.divide_factor_l. }
  eapply (heap_inv_update kh held k g g' _ _ (λ b, b = fresh ∧ free_head g = 0)); try done; [by exists fl', ul'|..].
  - intros b k' h a [-> Hz] Hn Hh Ha. destruct (Hfresh Hz g Hg) as (_ & _ & _ & Hd). by apply (Hd k' h a).
  - intros k' h a p Hh Ha Hp Hd. destruct (free_head g =? 0) eqn:E; [|by apply (heap_tags _ _ Hi k' h a p)].
    apply Z.eqb_eq in E. rewrite tag_pages_lookup by auto. destruct (Hfresh E g Hg) as (_ & _ & _ & Hd').
    specialize (Hd' k' h a Hh Ha). rewrite decide_False by lia. by apply (heap_tags _ _ Hi k' h a p).
  - intros b p [-> Hz] Hp Hd. rewrite Hz, Z.eqb_refl. rewrite tag_pages_lookup by auto.
    by rewrite decide_True by lia.
  - intros p. rewrite Hlive, (heap_live _ _ Hi k g p Hg). destruct (decide (p = ptr)) as [->|Hp].
    + rewrite lookup_insert_eq. tauto.
    + rewrite lookup_insert_ne by done. tauto.
  - intros p k' Hk'. destruct (decide (p = ptr)) as [->|Hp].
    + rewrite lookup_insert_eq, Hnone. split; congruence.
    + by rewrite lookup_insert_ne by done.
Qed.

Lemma kmalloc_spec kh held before sz m fresh :
  heap_inv kh held → 0 ≤ m ≤ 3 → 2 ^ m ≤ sz ≤ 8192 →
  (∀ g, classes kh !! Z.to_nat (kmalloc_class before sz) = Some g → free_head g = 0 →
     heap_fresh kh (Z.to_nat (kmalloc_class before sz)) fresh) →
  ∃ ptr kh', kmalloc sizeof_slab scan_zero kh before sz (2 ^ m) fresh = Some (ptr, kh') ∧
    heap_inv kh' (<[ptr := Z.to_nat (kmalloc_class before sz)]> held) ∧ held !! ptr = None ∧
    ∀ q j, held !! q = Some j → ptr + sz ≤ q ∨ q + class_size (Z.of_nat j) ≤ ptr.
Proof using scan_zero_lowest.
  intros Hi Hm Hsz Hfresh. assert (0 < 2 ^ m) as Hm0 by lia.
  pose proof (class_check_true sz before ltac:(lia)) as Hc. revert Hc Hfresh. unfold kmalloc.
  generalize (kmalloc_class before sz) as mid. intros mid Hc Hfresh.
  apply andb_prop in Hc as [[[H1 H2]%andb_prop H3]%andb_prop _].
  destruct (heap_class_known kh held (Z.to_nat mid) Hi) as [g Hg]; [lia|].
  destruct (heap_group _ _ Hi _ g Hg) as ((fl & ul & Hinv) & Esz & Hobj & Hal). rewrite Z2Nat.id in Esz by lia.
  rewrite (proj2 (Z.ltb_ge sz (2 ^ m))) by lia.
  replace (class_size 26 <? sz) with false by (change (class_size 26) with 8192; lia).
  replace (class_size mid <? sz) with false by lia. cbv zeta. rewrite Hg. cbn [mbind option_bind].
  replace (size g <? sz) with false by lia.
  destruct (alloc_spec sizeof_slab scan_zero scan_zero_lowest g fl ul fresh Hinv)
    as (ptr & g' & fl' & ul' & Ha & Hinv' & Hsh & _ & _ & Hdom & Hnl & Hl).
  { intros Hz. apply (heap_fresh_pages kh held (Z.to_nat mid)); [done|done|by eapply Hfresh]. }
  rewrite Ha. cbn [mbind option_bind].
  assert (live g' ptr) as Hlp by (apply Hl; by left).
  rewrite aligned_land; [|done|].
  2:{ pose proof (live_aligned _ _ _ _ _ Hinv' Hlp) as Hd. destruct Hsh as (_ & E & _). by rewrite E, Hal in Hd. }
  rewrite Z.eqb_refl.
  assert (∀ q j h, held !! q = Some j → classes kh !! j = Some h →
    ptr + obj_align_size g ≤ q ∨ q + obj_align_size h ≤ ptr) as Hapart.
  { eapply new_object_apart; try done. intros Hz. by eapply Hfresh. }
  assert (∀ q j, held !! q = Some j → ptr + sz ≤ q ∨ q + class_size (Z.of_nat j) ≤ ptr) as Hapart'.
  { intros q j Hq. destruct (heap_class_known kh held j Hi) as [h Hh]; [by apply (heap_held _ _ Hi q)|].
    destruct (heap_group _ _ Hi j h Hh) as (_ & Ej & Hobjj & _). destruct (Hapart q j h Hq Hh); lia. }
  assert (held !! ptr = None) as Hnone.
  { destruct (held !! ptr) as [j|] eqn:E; [|done].
    destruct (heap_class_known kh held j Hi) as [h Hh]; [by apply (heap_held _ _ Hi ptr)|].
    destruct (heap_group _ _ Hi j h Hh) as ((fl1 & ul1 & Hinvh) & _ & _ & _).
    pose proof (shape_obj _ _ (inv_shape _ _ _ _ Hinvh)). pose proof (shape_obj _ _ (inv_shape _ _ _ _ Hinv)).
    destruct (Hapart ptr j h E Hh); lia. }
  eexists ptr, _. split; [reflexivity|]. split_and!; [|done|done].
  eapply heap_inv_taken; try done. intros Hz. by eapply Hfresh.
Qed.

Lemma kfree_spec kh held k ptr :
  heap_inv kh held → held !! ptr = Some k →
  ∃ kh', kfree kh ptr = Some kh' ∧ heap_inv kh' (delete ptr held).
Proof using Type.
  intros Hi Hp. destruct (heap_class_known kh held k Hi) as [g Hg]; [by apply (heap_held _ _ Hi ptr)|].
  destruct (heap_group _ _ Hi k g Hg) as ((fl & ul & Hinv) & _).
  assert (live g ptr) as Hl by (by apply (heap_live _ _ Hi k g ptr Hg)).
  destruct (live_in_slab g fl ul ptr Hinv Hl) as (Ha & Hp1 & Hp2).
  pose proof (shape_obj _ _ (inv_shape _ _ _ _ Hinv)) as Hobj.
  assert ((page_size | slab_of g ptr)) as Hpa.
  { destruct Ha as [s Hs]. etrans; [|exact (slab_aligned _ _ _ _ (inv_slab _ _ _ _ Hinv _ _ Hs))].
    unfold slab_span. apply Z.divide_factor_l. }
  assert (0 ≤ slab_of g ptr) as Hpos.
  { destruct Ha as [s Hs]. pose proof (slab_pos _ _ _ _ (inv_slab _ _ _ _ Hinv _ _ Hs)). lia. }
  unfold kfree, get_group_from. rewrite (heap_tags _ _ Hi k g (slab_of g ptr)); [|done|done| |].
  2:{ rewrite align_down_page by lia. pose proof (Z.div_mod ptr page_size ltac:(done)).
      pose proof (Z.mod_pos_bound ptr page_size ltac:(done)). destruct Hpa as [x Hx]. rewrite Hx in *.
      unfold page_size in *. lia. }
  2:{ rewrite align_down_page by lia. apply Z.divide_factor_l. }
  cbn [mbind option_bind]. rewrite Hg. cbn [mbind option_bind].
  destruct (free_spec sizeof_slab g fl ul ptr Hinv Hl) as (g' & ul' & -> & Hinv' & Hsh & Hdom & Hl').
  cbn [mbind option_bind]. eexists. split; [reflexivity|].
  eapply (heap_inv_update kh held k g g' _ _ (λ _, False)); try done.
  - by exists fl, ul'.
  - intros b. rewrite Hdom. tauto.
  - apply Hi.
  - intros p. rewrite Hl', (heap_live _ _ Hi k g p Hg). rewrite lookup_delete_Some. split; [intros [? ?]; by split|].
    intros [? ?]. split; [by apply not_eq_sym|done].
  - intros p k' Hk'. rewrite lookup_delete_Some. split; [tauto|]. intros Hp'. split; [|done].
    intros ->. congruence.
Qed.

(** The states the kernel heap reaches, with the blocks in use. *)
Inductive heap_run : kernel_heap → gmap Z nat → Prop :=
| heap_start : heap_run (make_kernel_heap sizeof_slab) ∅
| heap_taken kh held before sz m fresh ptr kh' :
    heap_run kh held → 0 ≤ m ≤ 3 → 2 ^ m ≤ sz ≤ 8192 →
    (∀ g, classes kh !! Z.to_nat (kmalloc_class before sz) = Some g → free_head g = 0 →
       heap_fresh kh (Z.to_nat (kmalloc_class before sz)) fresh) →
    kmalloc sizeof_slab scan_zero kh before sz (2 ^ m) fresh = Some (ptr, kh') →
    heap_run kh' (<[ptr := Z.to_nat (kmalloc_class before sz)]> held)
| heap_given_back kh held ptr kh' :
    heap_run kh held → is_Some (held !! ptr) → kfree kh ptr = Some kh' → heap_run kh' (delete ptr held).

Lemma make_kernel_heap_inv : 0 < sizeof_slab ≤ 2040 → heap_inv (make_kernel_heap sizeof_slab) ∅.
Proof using Type.
  intros Hs. assert (power_of_two 8) as H8 by (by exists 3).
  assert (∀ k g, classes (make_kernel_heap sizeof_slab) !! k = Some g →
    (k < 27)%nat ∧ g = make_slab_group sizeof_slab (class_size (Z.of_nat k)) 8) as Hcl.
  { intros k g Hg. pose proof (lookup_lt_Some _ _ _ Hg) as Hk. split; [done|].
    unfold make_kernel_heap in Hg. cbn [classes] in Hg. rewrite list_lookup_fmap in Hg.
    destruct (kmalloc_fixed_slab_size !! k) as [sz|] eqn:E; [|done]. injection Hg as <-. f_equal.
    unfold class_size, zget. rewrite Nat2Z.id. by rewrite (list_lookup_total_correct _ _ _ E). }
  assert (∀ k, (k < 27)%nat → 8 ≤ class_size (Z.of_nat k) ≤ 8192) as Hsize.
  { intros k Hk. pose proof (class_size_mono 0 (Z.of_nat k) ltac:(lia) ltac:(lia)) as H1.
    pose proof (class_size_mono (Z.of_nat k) 26 ltac:(lia) ltac:(lia)) as H2.
    change (class_size 0) with 8 in H1. change (class_size 26) with 8192 in H2. lia. }
  assert (header_size sizeof_slab 8 ≤ 2048) as Hh.
  { unfold header_size. destruct (align_up_pow2 sizeof_slab 8 H8); lia. }
  assert (∀ k g, classes (make_kernel_heap sizeof_slab) !! k = Some g →
    (group_inv sizeof_slab g [] [] ∧ in_use g ∅) ∧ size g = class_size (Z.of_nat k) ∧
    size g ≤ obj_align_size g ∧ align g = 8 ∧ slabs g = ∅) as Hgr.
  { intros k g Hg. destruct (Hcl k g Hg) as [Hk ->]. specialize (Hsize k Hk).
    destruct (align_up_pow2 (class_size (Z.of_nat k)) 8 H8) as (_ & Hup & _); [lia|lia|].
    split; [apply make_slab_group_inv, make_slab_group_shape; unfold page_size; done || lia|].
    unfold make_slab_group. destruct (slab_shape _ _ _). simpl. split_and!; [done|lia|done|done]. }
  constructor.
  - intros k g Hg. destruct (Hgr k g Hg) as ([Hinv _] & H1 & H2 & H3 & _). split_and!; [by exists [], []|done|done|done].
  - intros k k' g g' a b _ Hg _ [t Ha]. destruct (Hgr k g Hg) as (_ & _ & _ & _ & E). by rewrite E, lookup_empty in Ha.
  - intros k g a p' Hg [t Ha]. destruct (Hgr k g Hg) as (_ & _ & _ & _ & E). by rewrite E, lookup_empty in Ha.
  - intros k g p' Hg. destruct (Hgr k g Hg) as ([_ Hu] & _). rewrite (Hu p'), lookup_empty. split; [by intros []%not_elem_of_empty|done].
  - done.
  - intros p' k. by rewrite lookup_empty.
Qed.

Lemma heap_run_inv kh held : 0 < sizeof_slab ≤ 2040 → heap_run kh held → heap_inv kh held.
Proof using scan_zero_lowest.
  intros Hs. induction 1 as [|kh held before sz m fresh ptr kh' _ IH Hm Hsz Hfresh Hk|kh held ptr kh' _ IH [k Hp] Hk].
  - by apply make_kernel_heap_inv.
  - destruct (kmalloc_spec kh held before sz m fresh IH Hm Hsz Hfresh) as (ptr1 & kh1 & Hk1 & Hi & _).
    rewrite Hk in Hk1. injection Hk1 as <- <-. exact Hi.
  - destruct (kfree_spec kh held k ptr IH Hp) as (kh1 & Hk1 & Hi). rewrite Hk in Hk1. injection Hk1 as <-. exact Hi.
Qed.

(** C13: the kernel heap serves its clients.  In every state it reaches, a
    request of up to 8 KiB with an alignment of up to 8 returns a block that
    overlaps no block in use, and [kfree] accepts every block in use. *)
Theorem kernel_heap_serves kh held :
  0 < sizeof_slab ≤ 2040 → heap_run kh held →
  (∀ before sz m fresh, 0 ≤ m ≤ 3 → 2 ^ m ≤ sz ≤ 8192 →
     (∀ g, classes kh !! Z.to_nat (kmalloc_class before sz) = Some g → free_head g = 0 →
        heap_fresh kh (Z.to_nat (kmalloc_class before sz)) fresh) →
     ∃ ptr kh', kmalloc sizeof_slab scan_zero kh before sz (2 ^ m) fresh = Some (ptr, kh') ∧ held !! ptr = None ∧
       ∀ q j, held !! q = Some j → ptr + sz ≤ q ∨ q + class_size (Z.of_nat j) ≤ ptr) ∧
  (∀ ptr, is_Some (held !! ptr) → is_Some (kfree kh ptr)).
Proof using scan_zero_lowest.
  intros Hs Hrun. pose proof (heap_run_inv kh held Hs Hrun) as Hi. split.
  - intros before sz m fresh Hm Hsz Hfresh.
    destruct (kmalloc_spec kh held before sz m fresh Hi Hm Hsz Hfresh) as (ptr & kh' & Hk & _ & Hn & Ha). eauto.
  - intros ptr [k Hp]. destruct (kfree_spec kh held k ptr Hi Hp) as (kh' & -> & _). eauto.
Qed.

End heap.

(** ** Samples *)

Module HeapSample.

(** The lowest clear bit by search. *)
Definition scan_zero (b : gset Z) : Z :=
  default 0 (head (filter (λ i, i ∉ b) (Z.of_nat <$> seq 0 (S (base.size b))))).

Lemma head_filter_seq (b : gset Z) n i :
  head (filter (λ i, i ∉ b) (Z.of_nat <$> seq i n)) = None ∧ (∀ j, Z.of_nat i ≤ j < Z.of_nat (i + n) → j ∈ b) ∨
  ∃ k, head (filter (λ i, i ∉ b) (Z.of_nat <$> seq i n)) = Some k ∧ Z.of_nat i ≤ k ∧ (k ∉ b) ∧
       ∀ j, Z.of_nat i ≤ j < k → j ∈ b.
Proof.
  revert i. induction n as [|n IH]; intros i; [left; split; [done|intros; lia]|]. cbn [seq fmap list_fmap].
  destruct (decide (Z.of_nat i ∈ b)) as [Hb|Hb].
  - rewrite filter_cons_False by tauto. destruct (IH (S i)) as [[-> Hall]|(k & -> & Hk & Hkb & Hall)].
    + left. split; [done|]. intros j Hj. destruct (decide (j = Z.of_nat i)) as [->|]; [done|]. apply Hall. lia.
    + right. exists k. split_and!; [done|lia|done|]. intros j Hj.
      destruct (decide (j = Z.of_nat i)) as [->|]; [done|]. apply Hall. lia.
  - rewrite filter_cons_True by done. right. exists (Z.of_nat i). split_and!; [done|lia|done|]. intros j Hj. lia.
Qed.

Lemma scan_zero_lowest (b : gset Z) :
  0 ≤ scan_zero b ∧ (scan_zero b ∉ b) ∧ ∀ i, 0 ≤ i < scan_zero b → i ∈ b.
Proof.
  unfold scan_zero. destruct (head_filter_seq b (S (base.size b)) 0) as [[_ Hall]|(k & -> & Hk & Hkb & Hlow)].
  - exfalso. assert (list_to_set (Z.of_nat <$> seq 0 (S (base.size b))) ⊆ b) as Hsub.
    { intros i Hi. apply elem_of_list_to_set, list_elem_of_fmap in Hi as (k & -> & Hk).
      apply elem_of_seq in Hk. apply Hall. lia. }
    apply subseteq_size in Hsub. rewrite size_list_to_set, length_fmap, length_seq in Hsub; [lia|].
    apply NoDup_fmap_2; [apply _|apply NoDup_seq].
  - simpl. split_and!; [lia|done|]. intros i Hi. apply Hlow. lia.
Qed.

Lemma kmalloc_takes_smallest_class_witness :
  24 ≤ class_size (kmalloc_class true 20) ∧ class_size 1 < 20.
Proof.
  destruct (kmalloc_takes_smallest_class 20 true) as (_ & _ & Hl); [lia|].
  split; [vm_compute; discriminate|]. apply Hl. by vm_compute.
Defined.

(** A group whose slabs hold one object. *)
Definition one_object : slab_group := make_slab_group 96 61440 8.

Lemma one_object_shape : shape_ok 96 one_object.
Proof.
  apply make_slab_group_shape; [done|by exists 3|by vm_compute|by vm_compute|done].
Qed.

Lemma fresh_pages_of g fresh :
  slab_span g = 0x10000 → (0x10000 | fresh) → 0 < fresh → fresh < 2 ^ 32 → slabs g !! fresh = None → fresh_pages g fresh.
Proof. intros Hs Hd H1 H2 Hn. unfold fresh_pages. rewrite Hs. split_and!; [done|done|lia|done]. Qed.

Lemma slab_group_serves_witness :
  ∃ g held log, slab_run 96 scan_zero one_object ∅ g held log ∧ 0x10060 ∈ held ∧ is_Some (free g 0x10060).
Proof.
  assert (∃ g held log, slab_run 96 scan_zero one_object ∅ g held log ∧ 0x10060 ∈ held) as (g & held & log & Hrun & Hin).
  { eexists _, _, _. split.
    - eapply slab_taken with (fresh := 0x10000); [apply slab_start| |vm_compute; reflexivity].
      intros _. apply fresh_pages_of; [by vm_compute|by exists 1|done|done|done].
    - apply elem_of_union. left. by apply elem_of_singleton. }
  exists g, held, log. split; [done|]. split; [done|].
  destruct (slab_group_serves 96 scan_zero scan_zero_lowest 61440 8 g held log) as [_ Hf];
    [done|by exists 3|by vm_compute|by vm_compute|done|exact Hrun|by apply Hf].
Defined.

(** After one object was taken and given back, the next one comes from new
    pages at 0x20000 although the first slab is empty. *)
Definition taken : slab_group := default one_object (snd <$> alloc 96 scan_zero one_object 0x10000).
Definition given_back : slab_group := default one_object (free taken 0x10060).
Definition taken_again : slab_group := default one_object (snd <$> alloc 96 scan_zero given_back 0x20000).

Lemma taken_run : slab_run 96 scan_zero one_object ∅ taken ({[0x10060]} ∪ ∅) [0x10060].
Proof.
  eapply slab_taken with (fresh := 0x10000); [apply slab_start| |vm_compute; reflexivity].
  intros _. apply fresh_pages_of; [by vm_compute|by exists 1|done|done|done].
Qed.

Lemma taken_again_run held : slab_run 96 scan_zero given_back held taken_again ({[0x20060]} ∪ held) [0x20060].
Proof.
  eapply slab_taken with (fresh := 0x20000); [apply slab_start| |vm_compute; reflexivity].
  intros _. apply fresh_pages_of; [by vm_compute|by exists 2|done|done|by vm_compute].
Qed.

Lemma full_slab_is_lost_witness :
  free taken 0x10060 = Some given_back ∧ Forall (λ q, slab_of taken q ≠ 0x10000) [0x20060].
Proof.
  assert (free taken 0x10060 = Some given_back) as Hf by (vm_compute; reflexivity). split; [exact Hf|].
  assert (∃ s, slabs taken !! 0x10000 = Some s ∧ rest s = 0) as (s & Hs & Hr)
    by (eexists; split; vm_compute; reflexivity).
  eapply (full_slab_is_lost 96 scan_zero scan_zero_lowest 61440 8 taken _ _ 0x10000 s 0x10060 given_back);
    [apply one_object_shape|apply taken_run|exact Hs|exact Hr| |by vm_compute|exact Hf|apply taken_again_run].
  apply elem_of_union. left. by apply elem_of_singleton.
Defined.

Lemma first_slab_fresh : heap_fresh (make_kernel_heap 96) 0 0x10000.
Proof.
  intros g Hg. vm_compute in Hg. injection Hg as <-. split; [done|]. split; [by exists 16|]. split; [done|].
  intros k' g' a Hk [s Hs]. exfalso.
  assert (g' = default g' (classes (make_kernel_heap 96) !! k')) as He by (by rewrite Hk).
  unfold make_kernel_heap in Hk. cbn [classes] in Hk. rewrite list_lookup_fmap in Hk.
  destruct (kmalloc_fixed_slab_size !! k') as [sz|]; [|done]. injection Hk as <-.
  unfold make_slab_group in Hs. destruct (slab_shape _ _ _). simpl in Hs. by rewrite lookup_empty in Hs.
Qed.

Lemma kernel_heap_serves_witness :
  ∃ kh held, heap_run 96 scan_zero kh held ∧ is_Some (held !! 0x10060) ∧ is_Some (kfree kh 0x10060).
Proof.
  assert (∃ kh held, heap_run 96 scan_zero kh held ∧ is_Some (held !! 0x10060)) as (kh & held & Hrun & Hh).
  { eexists _, _. split.
    - eapply (heap_taken 96 scan_zero (make_kernel_heap 96) ∅ true 8 3 0x10000); [apply heap_start|done|done| |].
      + intros g _ _. exact first_slab_fresh.
      + vm_compute. reflexivity.
    - rewrite lookup_insert_eq. eauto. }
  exists kh, held. split; [done|]. split; [done|].
  by apply (kernel_heap_serves 96 scan_zero scan_zero_lowest kh held).
Defined.

End HeapSample.
