(* ===== verification/Paging.v ===== *)
(** Page tables: includes/kernel/arch/paging.hpp and src/kernel/arch/paging.cc.

    A page-table frame is a list of 512 entries, kept by physical address in
    [tables]; [counters] is [page_table_counter] of the page descriptors and
    [contents] the bytes of data frames.  Frames are allocated, shared and
    released through the interface [FrameStore] of Zones.v, so tables that two
    address spaces share are shared here.  Pointers to tables and frames are
    physical addresses: the offset of [pa2va] cancels.  [None] is a kernel stop: a
    panic, a failed assertion or an access through a null page descriptor. *)
From stdpp Require Import base list numbers gmap.
From S2P Require Import Prelude VmAllocator Zones.

Local Open Scope Z_scope.
Set Default Proof Using "Type".

(** ** Entries *)

Module PageFlags.

Definition present : Z := 1.
Definition writable : Z := 2.
Definition user_mode : Z := 4.
Definition write_through : Z := 8.
Definition cache_disable : Z := 16.
Definition accessed : Z := 32.
Definition dirty : Z := 64.
Definition big_page : Z := 128.

End PageFlags.

Module Action.

Definition override : Z := 1.
Definition cow : Z := 2.
Definition copy_all : Z := 4.

End Action.

Definition address_mask : Z := 0xFFFFFFFFFF000.
Definition get_addr (e : Z) : Z := Z.land e address_mask.
Definition set_addr (e p : Z) : Z := Z.lor (Z.ldiff e address_mask) (Z.land p address_mask).
Definition set_flags (e f : Z) : Z := Z.lor (Z.land e 0xFFFFFFFFFFFFF000) (Z.land f 0xFF).
Definition entry_flags (e : Z) : Z := Z.land e 0xFF.
Definition is_present (e : Z) : bool := has_flag e PageFlags.present.
Definition is_big_page (e : Z) : bool := has_flag e PageFlags.big_page.

(** ** Indices *)

(** [index_t::unpack], [from_pack], [from_virt_addr], [to_virt_addr] and
    [normalize_index]. *)
Definition indices : Type := Z * Z * Z * Z.

Definition from_virt_addr (p : Z) : Z := Z.shiftr p 12.
Definition unpack (index : Z) : indices :=
  (Z.land (Z.shiftr index 27) 0x1FF, Z.land (Z.shiftr index 18) 0x1FF, Z.land (Z.shiftr index 9) 0x1FF,
   Z.land index 0x1FF).
Definition from_pack (ix : indices) : Z :=
  let '(a, b, c, d) := ix in
  Z.lor (Z.shiftl (Z.lor (Z.shiftl (Z.lor (Z.shiftl a 9) b) 9) c) 9) d.
Definition to_virt_addr (index : Z) : Z := u64 (Z.shiftl index 12).

Definition normalize_index (ix : indices) : bool * indices :=
  let '(a, b, c, d) := ix in
  let '(n1, c, d) := if 512 <=? d then (true, c + 1, 0) else (false, c, d) in
  let '(n2, b, c) := if 512 <=? c then (true, b + 1, 0) else (n1, b, c) in
  let '(n3, a, b) := if 512 <=? b then (true, a + 1, 0) else (n2, a, b) in
  (n3, (a, b, c, d)).

(** ** Page-table memory *)

(** A table after its constructor. *)
Definition empty_table : list Z := replicate 512 0.

Section paging.
Context {S : Type} `{FS : FrameStore S}.

Record pmem : Type := Build_pmem {
  store : S;
  tables : gmap Z (list Z);
  counters : gmap Z Z;
  contents : gmap Z (list Z);
}.

Implicit Types (m : pmem) (base t i e : Z).

Definition set_store m (s : S) : pmem := Build_pmem s (tables m) (counters m) (contents m).
Definition set_tables m (ts : gmap Z (list Z)) : pmem := Build_pmem (store m) ts (counters m) (contents m).
Definition set_counter m t (n : Z) : pmem := Build_pmem (store m) (tables m) (<[t := n]> (counters m)) (contents m).
Definition counter_of m t : Z := default 0 (counters m !! t).

(** [base[i]] and an assignment to it. *)
Definition read m t i : option Z := tbl ← tables m !! t; tbl !! Z.to_nat i.
Definition write m t i e : option pmem :=
  tbl ← tables m !! t;
  if decide (Z.to_nat i < length tbl)%nat then Some (set_tables m (<[t := zset tbl i e]> (tables m))) else None.

Definition counter (tbl : list Z) : Z := Z.of_nat (length (filter (λ e, is_present e = true) tbl)).

(** [counter(base) == page_table_counter()]. *)
Definition counter_matches m t : bool :=
  match tables m !! t with Some tbl => counter tbl =? counter_of m t | None => false end.

Definition add_page_table_counter m t : pmem := set_counter m t (u16 (counter_of m t + 1)).
Definition sub_page_table_counter m t : pmem := set_counter m t (u16 (counter_of m t - 1)).

Definition new_page_table m : option (Z * pmem) :=
  '(f, s) ← fs_allocate (store m);
  Some (f, Build_pmem s (<[f := empty_table]> (tables m)) (<[f := 0]> (counters m)) (contents m)).

Definition delete_page_table m t : option pmem := set_store m <$> fs_deallocate (store m) t.

(** *** Sharing and splitting tables *)

(** The copy loop of [share_page_entry]: entries [i] on of [next] are made
    read-only and copied to [p]. *)
Fixpoint share_loop (n : nat) m (next p i readonly new_counter old_counter : Z) : option (Z * pmem) :=
  match n with
  | O => Some (new_counter, m)
  | Datatypes.S n =>
      if new_counter <? old_counter then
        e ← read m next i;
        if is_present e then
          s ← fs_bump (store m) (get_addr e);
          let e := set_flags e readonly in
          m ← write (set_store m s) next i e;
          m ← write m p i e;
          share_loop n m next p (i + 1) readonly (new_counter + 1) old_counter
        else share_loop n m next p (i + 1) readonly new_counter old_counter
      else Some (new_counter, m)
  end.

Definition share_page_entry m base i (flags actions : Z) : option pmem :=
  let readonly := Z.ldiff flags PageFlags.writable in
  if (readonly =? flags) && negb (has_flag actions Action.copy_all) then Some m
  else
    e ← read m base i;
    let next := get_addr e in
    if fs_reference (store m) next =? 1 then write m base i (set_flags e flags)
    else
      let old_counter := counter_of m next in
      if negb (counter_matches m next) then None
      else
        '(p, m) ← new_page_table m;
        '(new_counter, m) ← share_loop 512 m next p 0 readonly 0 old_counter;
        if negb (new_counter =? old_counter) then None
        else
          m ← delete_page_table m next;
          let m := set_counter m p new_counter in
          write m base i (set_flags (set_addr e p) flags).

Definition ensure_single m base i (flags actions : Z) : option pmem :=
  e ← read m base i;
  if is_present e then
    let flags :=
      if negb (Z.lor (entry_flags e) flags =? entry_flags e) && has_flag actions (Z.lor Action.cow Action.override)
      then Z.lor flags (entry_flags e) else flags in
    let flags := Z.ldiff flags (Z.lor PageFlags.accessed PageFlags.dirty) in
    share_page_entry m base i flags actions
  else
    '(p, m) ← new_page_table m;
    let m := add_page_table_counter m base in
    m ← write m base i (set_flags (set_addr e p) flags);
    if counter_matches m base then Some m else None.

(** [next()] of an entry. *)
Definition next_table m base i : option Z := get_addr <$> read m base i.

Definition ensure1 m base (a flags actions : Z) : option pmem := ensure_single m base a flags actions.
Definition ensure2 m base (a b flags actions : Z) : option pmem :=
  m ← ensure1 m base a flags actions;
  t ← next_table m base a;
  ensure_single m t b flags actions.
Definition ensure3 m base (a b c flags actions : Z) : option pmem :=
  m ← ensure2 m base a b flags actions;
  t1 ← next_table m base a;
  t2 ← next_table m t1 b;
  ensure_single m t2 c flags actions.

(** The page table of a page, [next()] of the entry at [a], [b], [c]. *)
Definition walk3 m base (a b c : Z) : option Z :=
  t1 ← next_table m base a;
  t2 ← next_table m t1 b;
  next_table m t2 c.

(** *** Mapping *)

(** The body of the loop of [map] for one page. *)
Definition map_page m base (ix : indices) (flags actions : Z) : option pmem :=
  let '(a, b, c, d) := ix in
  t ← walk3 m base a b c;
  e ← read m t d;
  '(target, m) ←
    (if is_present e then
       if negb (has_flag actions Action.override) then None
       else if 1 <=? fs_reference (store m) (get_addr e) then
         '(f, s) ← fs_allocate (store m);
         s ← fs_deallocate s (get_addr e);
         Some (f, Build_pmem s (tables m) (counters m)
                    (<[f := default [] (contents m !! get_addr e)]> (contents m)))
       else None
     else if has_flag actions Action.cow then None
     else
       '(f, s) ← fs_allocate (store m);
       Some (f, add_page_table_counter (set_store m s) t));
  write m t d (set_flags (set_addr e target) flags).

(** The loop of [map] and [map_to]: normalise the indices, build the tables of
    the page, run [page] on it. *)
Fixpoint map_loop (n : nat) m base (ix : indices) (flags actions : Z)
    (page : Z → pmem → indices → option pmem) (k : Z) : option pmem :=
  match n with
  | O => Some m
  | Datatypes.S n =>
      let '(moved, (a, b, c, d)) := normalize_index ix in
      m ← (if moved then ensure3 m base a b c flags actions else Some m);
      m ← page k m (a, b, c, d);
      map_loop n m base (a, b, c, d + 1) flags actions page (k + 1)
  end.

Definition map_pages m base (virt_start pages flags actions : Z)
    (page : Z → pmem → indices → option pmem) : option pmem :=
  if negb (Z.land virt_start (page_size - 1) =? 0) then None
  else
    let '(a, b, c, d) := unpack (from_virt_addr virt_start) in
    m ← ensure3 m base a b c flags actions;
    map_loop (Z.to_nat pages) m base (a, b, c, d) flags actions page 0.

Definition map m base (virt_start pages flags actions : Z) : option pmem :=
  let flags := Z.lor flags PageFlags.present in
  map_pages m base virt_start pages flags actions (λ _ m ix, map_page m base ix flags actions).

(** The body of the loop of [map_to]. *)
Definition map_page_to m base (ix : indices) (phy flags : Z) : option pmem :=
  let '(a, b, c, d) := ix in
  t ← walk3 m base a b c;
  e ← read m t d;
  let m := if is_present e then m else add_page_table_counter m t in
  write m t d (set_flags (set_addr e phy) flags).

Definition map_to m base (virt_start pages phy_start flags actions : Z) : option pmem :=
  let flags := Z.lor flags PageFlags.present in
  map_pages m base virt_start pages flags actions
    (λ k m ix, map_page_to m base ix (phy_start + page_size * k) flags).

(** *** Large pages *)

Definition big_pages : Z := 0x200000 / page_size.
Definition huge_pages : Z := 0x40000000 / page_size.

(** An entry of a page directory or directory pointer table that maps memory. *)
Definition set_large m t i (phy flags : Z) : option pmem :=
  e ← read m t i;
  let m := if is_present e then m else add_page_table_counter m t in
  write m t i (set_flags (set_addr e phy) (Z.lor flags PageFlags.big_page)).

Fixpoint big_map_loop (n : nat) m base (ix : indices) (phy flags actions : Z) : option pmem :=
  match n with
  | O => Some m
  | Datatypes.S n =>
      let '(moved, (a, b, c, d)) := normalize_index ix in
      m ← (if moved then ensure2 m base a b flags actions else Some m);
      t1 ← next_table m base a;
      t2 ← next_table m t1 b;
      m ← set_large m t2 c phy flags;
      big_map_loop n m base (a, b, c + 1, d) (phy + 0x200000) flags actions
  end.
Definition big_page_map_to m base (virt_start pages phy_start flags actions : Z) : option pmem :=
  if negb (Z.land virt_start (0x200000 - 1) =? 0) then None
  else if negb (Z.land pages (big_pages - 1) =? 0) then None
  else
    let flags := Z.lor flags PageFlags.present in
    let '(a, b, c, d) := unpack (from_virt_addr virt_start) in
    m ← ensure2 m base a b flags actions;
    big_map_loop (Z.to_nat (pages / big_pages)) m base (a, b, c, d) phy_start flags actions.

Fixpoint huge_map_loop (n : nat) m base (ix : indices) (phy flags actions : Z) : option pmem :=
  match n with
  | O => Some m
  | Datatypes.S n =>
      let '(moved, (a, b, c, d)) := normalize_index ix in
      m ← (if moved then ensure1 m base a flags actions else Some m);
      t1 ← next_table m base a;
      m ← set_large m t1 b phy flags;
      huge_map_loop n m base (a, b + 1, c, d) (phy + 0x40000000) flags actions
  end.
Definition huge_page_map_to m base (virt_start pages phy_start flags actions : Z) : option pmem :=
  if negb (Z.land virt_start (0x40000000 - 1) =? 0) then None
  else if negb (Z.land pages (huge_pages - 1) =? 0) then None
  else
    let flags := Z.lor flags PageFlags.present in
    let '(a, b, c, d) := unpack (from_virt_addr virt_start) in
    m ← ensure1 m base a flags actions;
    huge_map_loop (Z.to_nat (pages / huge_pages)) m base (a, b, c, d) phy_start flags actions.

(** *** Kernel space *)

Fixpoint prepare_loop (n : nat) m base (a : Z) : option pmem :=
  match n with
  | O => Some m
  | Datatypes.S n =>
      e ← read m base a;
      if is_present e then prepare_loop n m base (a + 1)
      else
        '(p, m) ← new_page_table (add_page_table_counter m base);
        m ← write m base a (set_flags (set_addr e p) (Z.lor PageFlags.writable PageFlags.present));
        prepare_loop n m base (a + 1)
  end.
Definition prepare_kernel_space m base : option pmem := prepare_loop 256 m base 256.

(** [map_kernel_space], with the table in [cr3] as [current]. *)
Fixpoint kernel_loop (n : nat) m base (current a : Z) : option pmem :=
  match n with
  | O => Some m
  | Datatypes.S n =>
      src ← read m current a;
      m ← write m base a src;
      kernel_loop n (if is_present src then add_page_table_counter m base else m) base current (a + 1)
  end.
Definition map_kernel_space m base (current : Z) : option pmem := kernel_loop 256 m base current 256.

(** *** Unmapping *)

(** Drop a table whose last entry went: [t] below entry [i] of [parent]. *)
Definition drop_table m (parent i t : Z) (count_parent : bool) : option pmem :=
  if counter_of m t =? 0 then
    m ← delete_page_table m t;
    e ← read m parent i;
    m ← write m parent i (set_flags e 0);
    if count_parent then
      if 0 <? counter_of m parent then Some (sub_page_table_counter m parent) else None
    else Some m
  else Some m.

(** The body of the loop of [unmap] for a present page with entry flags
    [flags]. *)
Definition unmap_page m base (ix : indices) (flags : Z) : option pmem :=
  let '(a, b, c, d) := ix in
  m ← ensure3 m base a b c flags (Z.lor Action.cow (Z.lor Action.override Action.copy_all));
  t3 ← next_table m base a;
  t2 ← next_table m t3 b;
  t1 ← next_table m t2 c;
  e ← read m t1 d;
  if negb ((fs_reference (store m) t3 =? 1) && (fs_reference (store m) t2 =? 1) && (fs_reference (store m) t1 =? 1))
  then None
  else
    s ← (if fs_known (store m) (get_addr e) then fs_deallocate (store m) (get_addr e) else Some (store m));
    m ← write (set_store m s) t1 d (set_flags e 0);
    if negb (0 <? counter_of m t1) then None
    else
      m ← drop_table (sub_page_table_counter m t1) t2 c t1 true;
      m ← drop_table m t3 b t2 true;
      drop_table m base a t3 false.

(** The loop of [unmap] from page [i] on.  [pml4e] is the entry the pointer of
    that name points to; it follows [a] only when an index wraps or a page was
    unmapped. *)
Fixpoint unmap_loop (fuel : nat) m base (pml4e : Z) (ix : indices) (i pages : Z) : option pmem :=
  match fuel with
  | O => Some m
  | Datatypes.S fuel =>
      if i <? pages then
        let '(moved, (a, b, c, d)) := normalize_index ix in
        let pml4e := if moved then a else pml4e in
        e4 ← read m base pml4e;
        if negb (is_present e4) then
          unmap_loop fuel m base pml4e (a + 1, 0, 0, 0)
            (i + ((512 - b) * 512 * 512 + (512 - c) * 512 + (512 - d))) pages
        else
          e3 ← read m (get_addr e4) b;
          if negb (is_present e3) then
            unmap_loop fuel m base pml4e (a, b + 1, 0, 0) (i + ((512 - c) * 512 + (512 - d))) pages
          else
            e2 ← read m (get_addr e3) c;
            if negb (is_present e2) then
              unmap_loop fuel m base pml4e (a, b, c + 1, 0) (i + (512 - d)) pages
            else
              e1 ← read m (get_addr e2) d;
              if is_present e1 then
                m ← unmap_page m base (a, b, c, d) (entry_flags e1);
                unmap_loop fuel m base a (a, b, c, d + 1) (i + 1) pages
              else unmap_loop fuel m base pml4e (a, b, c, d + 1) (i + 1) pages
      else Some m
  end.

Definition unmap m base (virt_start pages : Z) : option pmem :=
  if negb (Z.land virt_start (page_size - 1) =? 0) then None
  else
    let '(a, b, c, d) := unpack (from_virt_addr virt_start) in
    unmap_loop (Z.to_nat pages) m base a (a, b, c, d) 0 pages.

(** *** Queries *)

Definition has_flags m base (virt_start flags : Z) : option bool :=
  let '(a, b, c, d) := unpack (from_virt_addr (align_down virt_start page_size)) in
  let flags := Z.lor flags PageFlags.present in
  e4 ← read m base a;
  if negb (has_flag (entry_flags e4) flags) then Some false
  else
    e3 ← read m (get_addr e4) b;
    if negb (has_flag (entry_flags e3) flags) then Some false
    else if is_big_page e3 then Some true
    else
      e2 ← read m (get_addr e3) c;
      if negb (has_flag (entry_flags e2) flags) then Some false
      else if is_big_page e2 then Some true
      else
        e1 ← read m (get_addr e2) d;
        Some (has_flag (entry_flags e1) flags).

(** [get_map] by indices. *)
Definition lookup_page m base (ix : indices) : option (option Z) :=
  let '(a, b, c, d) := ix in
  e4 ← read m base a;
  if negb (is_present e4) then Some None
  else
    e3 ← read m (get_addr e4) b;
    if negb (is_present e3) then Some None
    else if is_big_page e3 then Some (Some (get_addr e3))
    else
      e2 ← read m (get_addr e3) c;
      if negb (is_present e2) then Some None
      else if is_big_page e2 then Some (Some (get_addr e2))
      else
        e1 ← read m (get_addr e2) d;
        Some (if is_present e1 then Some (get_addr e1) else None).
Definition get_map m base (virt_start : Z) : option (option Z) :=
  lookup_page m base (unpack (from_virt_addr (align_down virt_start page_size))).

(** *** Sharing an address space *)

Fixpoint clone_loop (fuel : nat) m base (to a i pages : Z) : option pmem :=
  match fuel with
  | O => Some m
  | Datatypes.S fuel =>
      if i <? pages then
        src ← read m base a;
        if negb (is_present src) then clone_loop fuel m base to a (i + huge_pages) pages
        else
          s ← fs_add_reference (store m) (get_addr src);
          let src := set_flags src (Z.ldiff (entry_flags src) PageFlags.writable) in
          m ← write (set_store m s) base a src;
          m ← write m to a src;
          clone_loop fuel (add_page_table_counter m to) base to (a + 1) (i + huge_pages) pages
      else Some m
  end.
Definition clone_readonly_to m base (virt_start pages to : Z) : option pmem :=
  let '(a, _, _, _) := unpack (from_virt_addr virt_start) in
  m ← clone_loop (Z.to_nat (pages / huge_pages + 1)) m base to a 0 pages;
  if counter_matches m to then Some m else None.

End paging.

Arguments pmem : clear implicits.

(** ** A frame store for samples *)

(** Frames from a counter up, with their reference counts. *)
Module CountedFrames.

Definition counted_frames : Type := Z * gmap Z Z.

Definition refs (s : counted_frames) (f : Z) : Z := default 0 (s.2 !! f).

#[export] Instance counted_frames_store : FrameStore counted_frames := {|
  fs_allocate s := if s.1 <? 2 ^ 40 then Some (s.1, (s.1 + page_size, <[s.1 := 1]> s.2)) else None;
  fs_deallocate s f := if 0 <? refs s f then Some (s.1, <[f := refs s f - 1]> s.2) else None;
  fs_add_reference s f := if 0 <? refs s f then Some (s.1, <[f := refs s f + 1]> s.2) else None;
  fs_bump s f := if f <? 2 ^ 40 then Some (s.1, <[f := refs s f + 1]> s.2) else None;
  fs_reference := refs;
  fs_known s f := f <? 2 ^ 40;
|}.

#[export] Instance counted_frames_laws : FrameStoreLaws counted_frames.
Proof.
  assert (∀ (s : counted_frames) n f g k, refs (n, <[f := k]> s.2) g = if decide (g = f) then k else refs s g) as Hrefs.
  { intros s n f g k. unfold refs. simpl. destruct (decide (g = f)) as [->|]; [by rewrite lookup_insert_eq|by rewrite lookup_insert_ne]. }
  exists (λ s, (0 < s.1 ∧ (page_size | s.1)) ∧ (∀ f, s.1 ≤ f → refs s f = 0) ∧ (∀ f, 0 < refs s f → f < 2 ^ 40)).
  - intros s f s' ([Hp Hd] & Hz & Hk) Ha. simpl in Ha. destruct (Z.ltb_spec s.1 (2 ^ 40)) as [Hlt|]; [|done]. injection Ha as <- <-.
    simpl. split; [|split; [split; [lia|done]|split; [by apply Z.ltb_lt|split; [by apply Hz|]]]]; [split; [split; [unfold page_size; lia|]|split]|].
    + destruct Hd as [k Hd]. exists (k + 1). rewrite Hd. lia.
    + intros g Hg. rewrite Hrefs, decide_False by (unfold page_size in Hg; lia). apply Hz. unfold page_size in Hg. lia.
    + intros g. rewrite Hrefs. destruct (decide (g = s.1)) as [->|]; [done|apply Hk].
    + split; [|done]. intros g. simpl. by rewrite Hrefs.
  - intros s f (Hp & Hz & Hk) Hr. simpl in Hr |- *. rewrite (proj2 (Z.ltb_lt 0 _) Hr). eexists. split; [done|]. split.
    + split; [done|]. simpl. split; intros g; rewrite Hrefs; destruct (decide (g = f)) as [->|]; auto.
      intros Hg. rewrite (Hz f Hg) in Hr. lia.
    + split; [|done]. intros g. simpl. by rewrite Hrefs.
  - intros s f (Hp & Hz & Hk) Hr. simpl in Hr |- *. rewrite (proj2 (Z.ltb_lt 0 _)) by lia. eexists. split; [done|]. split.
    + split; [done|]. simpl. split; intros g; rewrite Hrefs; destruct (decide (g = f)) as [->|]; auto.
      * intros Hg. rewrite (Hz f Hg) in Hr. lia.
      * intros _. apply Hk. lia.
    + split; [|done]. intros g. simpl. by rewrite Hrefs.
  - intros s f (Hp & Hz & Hk) Hr. simpl in Hr |- *. rewrite (proj2 (Z.ltb_lt f _)) by (apply Hk; lia). eexists. split; [done|]. split.
    + split; [done|]. simpl. split; intros g; rewrite Hrefs; destruct (decide (g = f)) as [->|]; auto.
      * intros Hg. rewrite (Hz f Hg) in Hr. lia.
      * intros _. apply Hk. lia.
    + split; [|done]. intros g. simpl. by rewrite Hrefs.
  - intros s f Hf. simpl in *. by rewrite Hf.
Defined.

(** Memory before the first page table, with frames from [first] up. *)
Definition empty_memory (first : Z) : pmem counted_frames := Build_pmem (first, ∅) ∅ ∅ ∅.

(** An empty page table at the frame after [first]. *)
Definition empty_space (first : Z) : option (Z * pmem counted_frames) :=
  new_page_table (empty_memory first).

End CountedFrames.
