(* ===== verification/PageFacts.v ===== *)
(** The structure of page tables that address spaces may share, and its
    preservation by the operations of Paging.v.

    [levels] gives every live frame its level: 0 for the top table of an address
    space, 1 to 3 for the tables below, 4 for data frames.  [pages_ok] relates
    the tables to their levels and to the reference counts of the frame store;
    [translate] is the frame a page of an address space is mapped to. *)
From stdpp Require Import base list numbers gmap.
From S2P Require Import Prelude VmAllocator Zones Paging.

Local Open Scope Z_scope.
Set Default Proof Using "Type".

(** ** Entries as numbers *)

Definition entry_range (e : Z) : Prop := 0 ≤ e < 2 ^ 52.

Lemma lor_disjoint k r : 0 ≤ r < 4096 → Z.lor (4096 * k) r = 4096 * k + r.
Proof.
  intros Hr. rewrite <-Z.lxor_lor, <-Z.add_nocarry_lxor; [done| |].
  all: replace r with (Z.land r (Z.ones 12)) by (rewrite Z.land_ones by lia; apply Z.mod_small; lia).
  all: rewrite (Z.land_comm r), Z.land_assoc, Z.land_ones by lia; change (2 ^ 12) with 4096.
  all: by rewrite Z.mul_comm, Z.mod_mul.
Qed.

Lemma land_mask e : entry_range e → Z.land e address_mask = 4096 * (e / 4096).
Proof.
  intros He. change address_mask with (Z.ldiff (Z.ones 52) (Z.ones 12)).
  rewrite Z.ldiff_land, Z.land_assoc, <-Z.ldiff_land, Z.land_ones by lia.
  rewrite Z.mod_small by apply He. rewrite Z.ldiff_ones_r, Z.shiftl_mul_pow2, Z.shiftr_div_pow2 by lia.
  change (2 ^ 12) with 4096. lia.
Qed.

Lemma land_high e : entry_range e → Z.land e 0xFFFFFFFFFFFFF000 = 4096 * (e / 4096).
Proof.
  intros He. change 0xFFFFFFFFFFFFF000 with (Z.ldiff (Z.ones 64) (Z.ones 12)).
  unfold entry_range in He. rewrite Z.ldiff_land, Z.land_assoc, <-Z.ldiff_land, Z.land_ones by lia.
  rewrite Z.mod_small by lia. rewrite Z.ldiff_ones_r, Z.shiftl_mul_pow2, Z.shiftr_div_pow2 by lia.
  change (2 ^ 12) with 4096. lia.
Qed.

Lemma ldiff_mask e : entry_range e → Z.ldiff e address_mask = e mod 4096.
Proof.
  intros He. change address_mask with (Z.ldiff (Z.ones 52) (Z.ones 12)).
  change 4096 with (2 ^ 12). rewrite <-(Z.land_ones e 12) by lia. apply Z.bits_inj'. intros i Hi.
  rewrite Z.ldiff_spec, Z.ldiff_spec, Z.land_spec, !Z.testbit_ones_nonneg by lia.
  destruct (decide (i < 52)).
  - replace (i <? 52) with true by lia. by destruct (i <? 12), (Z.testbit e i).
  - replace (i <? 52) with false by lia. replace (i <? 12) with false by lia.
    rewrite (Z.bits_above_log2 e i); [done|apply He|]. destruct (decide (e = 0)) as [->|]; [simpl; lia|].
    apply Z.log2_lt_pow2; [unfold entry_range in He; lia|].
    eapply Z.lt_le_trans; [apply He|]. apply Z.pow_le_mono_r; lia.
Qed.

Lemma set_flags_value e f : entry_range e → set_flags e f = 4096 * (e / 4096) + f mod 256.
Proof.
  intros He. unfold set_flags. rewrite land_high by done. change 0xFF with (Z.ones 8).
  rewrite Z.land_ones by lia. change (2 ^ 8) with 256. apply lor_disjoint.
  pose proof (Z.mod_pos_bound f 256 ltac:(lia)). lia.
Qed.

Lemma set_addr_value e p :
  entry_range e → frame_address p ∨ p = 0 → set_addr e p = p + e mod 4096.
Proof.
  intros He Hp. unfold set_addr. rewrite ldiff_mask by done.
  assert (entry_range p ∧ (4096 | p)) as [Hpr [k Hk]].
  { destruct Hp as [[Hp Hd]| ->]; [split; [unfold entry_range; lia|done]|split; [by unfold entry_range|by exists 0]]. }
  rewrite land_mask by done. rewrite Hk, Z.div_mul by lia.
  rewrite Z.lor_comm, lor_disjoint by (apply Z.mod_pos_bound; lia). lia.
Qed.

Lemma is_present_odd e : is_present e = Z.odd e.
Proof.
  unfold is_present, has_flag, PageFlags.present. change 1 with (Z.ones 1). rewrite Z.land_ones by lia.
  change (2 ^ 1) with 2. rewrite Zmod_odd. by destruct (Z.odd e).
Qed.

Lemma get_addr_value e : entry_range e → get_addr e = 4096 * (e / 4096).
Proof. apply land_mask. Qed.

(** An entry for frame [p] with flags [f]. *)
Lemma make_entry e p f :
  entry_range e → frame_address p → 0 ≤ f < 256 →
  let e' := set_flags (set_addr e p) f in
  entry_range e' ∧ e' = p + f ∧ get_addr e' = p ∧ is_present e' = Z.odd f.
Proof.
  intros He [Hp [k Hk]] Hf. cbv zeta.
  assert (0 ≤ e mod 4096 < 4096) by (apply Z.mod_pos_bound; lia).
  assert (entry_range (set_addr e p) ∧ set_addr e p / 4096 = k) as [Hr Hd].
  { rewrite set_addr_value by (done || by left; split; [|exists k]). unfold page_size in Hk.
    assert (k < 2 ^ 40) by lia. unfold entry_range. rewrite Hk. split; [lia|].
    rewrite Z.div_add_l, Z.div_small by lia. lia. }
  assert (set_flags (set_addr e p) f = p + f) as Hv.
  { rewrite set_flags_value, Hd, Z.mod_small by done. unfold page_size in Hk. lia. }
  rewrite Hv. unfold page_size in Hk. assert (entry_range (p + f)) as Hr' by (unfold entry_range; lia).
  split_and!; [done|done| |].
  - rewrite get_addr_value by done. rewrite Hk, Z.div_add_l, Z.div_small by lia. lia.
  - rewrite is_present_odd, Hk, Z.odd_add, Z.odd_mul. by rewrite andb_false_r.
Qed.

Lemma has_flag_bit x n : 0 ≤ n → has_flag x (2 ^ n) = Z.testbit x n.
Proof.
  intros Hn. unfold has_flag. destruct (Z.testbit x n) eqn:E.
  - apply negb_true_iff, Z.eqb_neq. intros H0. apply (f_equal (λ y, Z.testbit y n)) in H0.
    by rewrite Z.land_spec, E, Z.pow2_bits_true, Z.bits_0 in H0.
  - apply negb_false_iff, Z.eqb_eq, Z.bits_inj'. intros i Hi. rewrite Z.land_spec, Z.bits_0.
    destruct (decide (i = n)) as [->|Hin]; [by rewrite E|]. rewrite Z.pow2_bits_false by done. apply andb_false_r.
Qed.

Lemma make_entry_not_big e p f :
  entry_range e → frame_address p → 0 ≤ f < 128 → is_big_page (set_flags (set_addr e p) f) = false.
Proof.
  intros He Hp Hf. destruct (make_entry e p f He Hp ltac:(lia)) as (_ & -> & _).
  unfold is_big_page, PageFlags.big_page. change 128 with (2 ^ 7). rewrite has_flag_bit by lia.
  rewrite Z.testbit_odd, Z.shiftr_div_pow2 by lia. change (2 ^ 7) with 128. destruct Hp as [_ [k ->]].
  unfold page_size. replace (k * 4096 + f) with ((32 * k) * 128 + f) by lia.
  rewrite Z.div_add_l, (Z.div_small f), Z.add_0_r, Z.odd_mul by lia. done.
Qed.

(** Changing the flags of an entry. *)
Lemma reflag_entry e f :
  entry_range e → 0 ≤ f < 256 →
  entry_range (set_flags e f) ∧ get_addr (set_flags e f) = get_addr e ∧ is_present (set_flags e f) = Z.odd f ∧
  entry_flags (set_flags e f) = f.
Proof.
  intros He Hf. rewrite set_flags_value, Z.mod_small by done.
  assert (0 ≤ e / 4096) by (apply Z.div_pos; unfold entry_range in He; lia).
  pose proof (Z.div_mod e 4096 ltac:(lia)). pose proof (Z.mod_pos_bound e 4096 ltac:(lia)).
  assert (entry_range (4096 * (e / 4096) + f)) as Hr.
  { unfold entry_range in *. assert (e / 4096 < 2 ^ 40) by (apply Z.div_lt_upper_bound; lia). lia. }
  split_and!; [done| | |].
  - rewrite !get_addr_value by done. f_equal. symmetry. apply Z.div_unique with f; lia.
  - by rewrite is_present_odd, Z.odd_add, Z.odd_mul.
  - unfold entry_flags. change 0xFF with (Z.ones 8). rewrite Z.land_ones by lia. change (2 ^ 8) with 256.
    replace (4096 * (e / 4096) + f) with (f + (16 * (e / 4096)) * 256) by lia.
    rewrite Z.mod_add, Z.mod_small by lia. done.
Qed.

Lemma reflag_not_big e f : entry_range e → 0 ≤ f < 128 → is_big_page (set_flags e f) = false.
Proof.
  intros He Hf. unfold is_big_page, PageFlags.big_page. change 128 with (2 ^ 7). rewrite has_flag_bit by lia.
  rewrite set_flags_value, Z.mod_small by (done || lia).
  rewrite Z.testbit_odd, Z.shiftr_div_pow2 by lia. change (2 ^ 7) with 128.
  replace (4096 * (e / 4096) + f) with ((32 * (e / 4096)) * 128 + f) by lia.
  rewrite Z.div_add_l, (Z.div_small f), Z.add_0_r, Z.odd_mul by lia. done.
Qed.

Lemma entry_flags_range e : 0 ≤ entry_flags e < 256.
Proof. unfold entry_flags. change 0xFF with (Z.ones 8). rewrite Z.land_ones by lia. apply Z.mod_pos_bound. lia. Qed.

Lemma frame_of_entry e : entry_range e → 0 < e / 4096 → frame_address (get_addr e).
Proof.
  intros He Hp. rewrite get_addr_value by done. unfold entry_range in He.
  pose proof (Z.div_mod e 4096 ltac:(lia)). pose proof (Z.mod_pos_bound e 4096 ltac:(lia)).
  split; [lia|]. unfold page_size. apply Z.divide_factor_l.
Qed.

(** Removing one element of a duplicate-free list. *)
Lemma length_filter_ne {A} `{EqDecision A} (l : list A) x :
  NoDup l → (length l ≤ Datatypes.S (length (filter (λ y, y ≠ x) l)))%nat.
Proof.
  induction 1 as [|y l Hy Hnd IH]; [simpl; lia|]. destruct (decide (y = x)) as [->|Hn].
  - rewrite filter_cons_False by tauto. assert (filter (λ y, y ≠ x) l = l) as ->; [|simpl; lia].
    clear -Hy. induction l as [|z l IH]; [done|]. apply not_elem_of_cons in Hy as [Hz Hy].
    rewrite filter_cons_True by done. f_equal. by apply IH.
  - rewrite filter_cons_True by done. simpl. lia.
Qed.

Lemma empty_table_length : length empty_table = 512%nat.
Proof. apply length_replicate. Qed.

Lemma empty_table_lookup i e : empty_table !! i = Some e → e = 0.
Proof. by intros [-> _]%lookup_replicate. Qed.

Lemma empty_table_read i : (i < 512)%nat → empty_table !! i = Some 0.
Proof. intros. by apply lookup_replicate_2. Qed.

#[local] Opaque empty_table.

(** ** Tables and levels *)

Section pages.
Context {S : Type} `{FSL : FrameStoreLaws S}.
Implicit Types (m : pmem S) (t f r i e : Z) (lv : gmap Z nat) (ix : indices).

(** The frame a present entry refers to. *)
Definition child m t i : option Z :=
  e ← read m t i; if is_present e then Some (get_addr e) else None.

Definition translate m r ix : option Z :=
  let '(a, b, c, d) := ix in
  t3 ← child m r a; t2 ← child m t3 b; t1 ← child m t2 c; child m t1 d.

Definition reference m f : Z := fs_reference (store m) f.

Definition is_table lv t : Prop := ∃ l, lv !! t = Some l ∧ (l < 4)%nat.

(** Entry [x.2] of the live table [x.1] refers to [f]. *)
Definition points m lv (x : Z * Z) f : Prop := is_table lv x.1 ∧ 0 ≤ x.2 < 512 ∧ child m x.1 x.2 = Some f.

Record pages_ok m lv : Prop := Build_pages_ok {
  pk_store : fs_ok (store m);
  pk_level : ∀ f l, lv !! f = Some l → (l ≤ 4)%nat;
  pk_frame : ∀ f l, lv !! f = Some l →
    frame_address f ∧ 0 < reference m f ∧ fs_known (store m) f = true;
  pk_table : ∀ t l, lv !! t = Some l → (l < 4)%nat → ∃ tbl, tables m !! t = Some tbl ∧ length tbl = 512%nat;
  pk_entry : ∀ t l i e, lv !! t = Some l → (l < 4)%nat → 0 ≤ i → read m t i = Some e →
    entry_range e ∧
    (is_present e = true →
       (lv !! get_addr e = Some (Datatypes.S l) ∨ l = 3%nat ∧ fs_known (store m) (get_addr e) = false) ∧
       (l ≠ 3%nat → is_big_page e = false));
  pk_refs : ∀ f l, lv !! f = Some (Datatypes.S l) →
    ∀ ls, NoDup ls → Forall (λ x, points m lv x f) ls → Z.of_nat (length ls) ≤ reference m f;
}.

(** *** Reading and writing *)

Lemma read_table m lv t l i :
  pages_ok m lv → lv !! t = Some l → (l < 4)%nat → 0 ≤ i < 512 → ∃ e, read m t i = Some e.
Proof using Type.
  intros Hok Ht Hl Hi. destruct (pk_table _ _ Hok t l Ht Hl) as (tbl & Htbl & Hlen).
  unfold read. rewrite Htbl. simpl. apply lookup_lt_is_Some_2. lia.
Qed.

Lemma entry_write_spec m t i e m' :
  0 ≤ i → write m t i e = Some m' →
  store m' = store m ∧ counters m' = counters m ∧ contents m' = contents m ∧
  (∃ tbl, tables m !! t = Some tbl ∧ tables m' = <[t := zset tbl i e]> (tables m) ∧ (Z.to_nat i < length tbl)%nat) ∧
  ∀ t' j, 0 ≤ j → read m' t' j = if decide (t' = t ∧ j = i) then Some e else read m t' j.
Proof using Type.
  intros Hi. unfold write. destruct (tables m !! t) as [tbl|] eqn:Ht; [|done]. simpl.
  destruct (decide _) as [Hlt|]; [|done]. intros [= <-]. simpl. split_and!; [done|done|done|by exists tbl|].
  intros t' j Hj. unfold read. simpl. destruct (decide (t' = t)) as [->|Hn].
  - rewrite lookup_insert_eq, Ht. simpl. unfold zset. destruct (decide (j = i)) as [->|Hji].
    + rewrite decide_True by done. by apply list_lookup_insert_eq.
    + rewrite decide_False by tauto. apply list_lookup_insert_ne. lia.
  - rewrite lookup_insert_ne by done. by rewrite decide_False by tauto.
Qed.

Lemma write_total m lv t l i e :
  pages_ok m lv → lv !! t = Some l → (l < 4)%nat → 0 ≤ i < 512 → ∃ m', write m t i e = Some m'.
Proof using Type.
  intros Hok Ht Hl Hi. destruct (pk_table _ _ Hok t l Ht Hl) as (tbl & Htbl & Hlen).
  unfold write. rewrite Htbl. simpl. rewrite decide_True by lia. eauto.
Qed.

Lemma child_range m lv t i f :
  pages_ok m lv → is_table lv t → 0 ≤ i → child m t i = Some f → i < 512.
Proof using Type.
  intros Hok (l & Ht & Hl) Hi. destruct (pk_table _ _ Hok t l Ht Hl) as (tbl & Htbl & Hlen).
  unfold child, read. rewrite Htbl. simpl. destruct (tbl !! Z.to_nat i) eqn:E; [|done].
  intros _. apply lookup_lt_Some in E. lia.
Qed.

Lemma child_level m lv t l i f :
  pages_ok m lv → lv !! t = Some l → (l < 4)%nat → 0 ≤ i → child m t i = Some f →
  lv !! f = Some (Datatypes.S l) ∨ l = 3%nat ∧ fs_known (store m) f = false.
Proof using Type.
  intros Hok Ht Hl Hi. unfold child. destruct (read m t i) as [e|] eqn:E; [|done]. simpl.
  destruct (is_present e) eqn:Ep; [|done]. intros [= <-].
  destruct (pk_entry _ _ Hok t l i e Ht Hl Hi E) as [_ He]. by apply He.
Qed.

Lemma child_table m lv t l i f :
  pages_ok m lv → lv !! t = Some l → (l < 3)%nat → 0 ≤ i → child m t i = Some f → lv !! f = Some (Datatypes.S l).
Proof using Type.
  intros Hok Ht Hl Hi Hc. destruct (child_level m lv t l i f Hok Ht) as [?|[? _]]; [lia|done|done|done|lia].
Qed.

(** *** Translations *)

Definition index_ok ix : Prop :=
  let '(a, b, c, d) := ix in 0 ≤ a < 512 ∧ 0 ≤ b < 512 ∧ 0 ≤ c < 512 ∧ 0 ≤ d < 512.

(** Two memories whose tables correspond level by level translate alike. *)
Lemma translate_rel m m' (rel : nat → Z → Z → Prop) r ix :
  rel 0%nat r r → index_ok ix →
  (∀ k x y i, (k < 4)%nat → rel k x y → 0 ≤ i < 512 → option_Forall2 (rel (Datatypes.S k)) (child m' x i) (child m y i)) →
  option_Forall2 (rel 4%nat) (translate m' r ix) (translate m r ix).
Proof using Type.
  intros Hr Hix Hc. destruct ix as [[[a b] c] d]. destruct Hix as (Ha & Hb & Hcc & Hd). unfold translate.
  destruct (Hc 0%nat r r a ltac:(lia) Hr Ha) as [x3 y3 H3|]; simpl; [|constructor].
  destruct (Hc 1%nat x3 y3 b ltac:(lia) H3 Hb) as [x2 y2 H2|]; simpl; [|constructor].
  destruct (Hc 2%nat x2 y2 c ltac:(lia) H2 Hcc) as [x1 y1 H1|]; simpl; [|constructor].
  apply (Hc 3%nat); [lia|done|done].
Qed.

Lemma option_Forall2_eq {A} (R : A → A → Prop) (x y : option A) :
  (∀ a b, R a b → a = b) → option_Forall2 R x y → x = y.
Proof using Type. intros HR [a b Hab|]; [|done]. by rewrite (HR a b). Qed.

(** Live tables with the same children translate alike. *)
Lemma translate_live m m' lv r ix :
  pages_ok m lv → lv !! r = Some 0%nat → index_ok ix →
  (∀ t l i, lv !! t = Some l → (l < 4)%nat → 0 ≤ i < 512 → child m' t i = child m t i) →
  translate m' r ix = translate m r ix.
Proof using Type.
  intros Hok Hr Hix Hc.
  pose (rel := λ (k : nat) (x y : Z), x = y ∧ (k = 4%nat ∨ lv !! x = Some k)).
  apply (option_Forall2_eq (rel 4%nat)); [by intros a b [? _]|].
  apply translate_rel; [by split; [|right]|done|]. intros k x y i Hk [<- [?|Hx]] Hi; [lia|].
  rewrite (Hc x k i Hx Hk Hi). destruct (child m x i) as [f|] eqn:E; constructor. split; [done|].
  destruct (child_level m lv x k i f Hok Hx) as [?|[-> _]]; [done|lia|done|by right|by left].
Qed.

(** *** Evolution *)

(** [m'] keeps the live frames of [m] and what every address space is mapped
    to; no reference count grew by more than [n]. *)
Record evolves m lv m' lv' (n : Z) : Prop := Build_evolves {
  ev_ok : pages_ok m' lv';
  ev_levels : ∀ f l, lv !! f = Some l → lv' !! f = Some l;
  ev_new : ∀ f, lv !! f = None → lv' !! f ≠ Some 0%nat;
  ev_translate : ∀ r ix, lv !! r = Some 0%nat → index_ok ix → translate m' r ix = translate m r ix;
  ev_refs : ∀ f, reference m' f ≤ reference m f + n;
  ev_contents : contents m' = contents m;
  ev_known : ∀ f, fs_known (store m') f = fs_known (store m) f;
}.

Lemma evolves_trans m1 lv1 m2 lv2 m3 lv3 n k :
  evolves m1 lv1 m2 lv2 n → evolves m2 lv2 m3 lv3 k → evolves m1 lv1 m3 lv3 (n + k).
Proof using Type.
  intros [A1 A2 A3 A4 A5 A6 A7] [B1 B2 B3 B4 B5 B6 B7]. constructor; [done|auto| | | |congruence|].
  - intros f Hf Hf3. destruct (lv2 !! f) as [l|] eqn:E.
    + pose proof (B2 f l E) as E'. rewrite Hf3 in E'. injection E' as <-. by apply (A3 f).
    + by apply (B3 f).
  - intros r ix Hr Hix. rewrite B4; auto.
  - intros f. specialize (A5 f). specialize (B5 f). lia.
  - intros f. by rewrite B7.
Qed.

Lemma evolves_mono m lv m' lv' n k : n ≤ k → evolves m lv m' lv' n → evolves m lv m' lv' k.
Proof using Type. intros Hn []. constructor; try done. intros f. etrans; [eauto|lia]. Qed.

Lemma child_write m t i e m' t' j :
  0 ≤ i → 0 ≤ j → write m t i e = Some m' →
  child m' t' j =
    if decide (t' = t ∧ j = i) then (if is_present e then Some (get_addr e) else None) else child m t' j.
Proof using Type.
  intros Hi Hj Hw. destruct (entry_write_spec m t i e m' Hi Hw) as (_ & _ & _ & _ & Hr). unfold child.
  rewrite Hr by done. by destruct (decide _).
Qed.

Lemma write_length m lv t l i e m' t' l' :
  pages_ok m lv → 0 ≤ i → lv !! t = Some l → (l < 4)%nat → write m t i e = Some m' → lv !! t' = Some l' → (l' < 4)%nat →
  ∃ tbl, tables m' !! t' = Some tbl ∧ length tbl = 512%nat.
Proof using Type.
  intros Hok Hi Ht Hl Hw Ht' Hl'. destruct (entry_write_spec m t i e m' Hi Hw) as (_ & _ & _ & (tbl & Htbl & -> & _) & _).
  destruct (decide (t' = t)) as [->|Hn].
  - rewrite lookup_insert_eq. exists (zset tbl i e). split; [done|]. rewrite length_zset.
    destruct (pk_table _ _ Hok t l' Ht' Hl') as (tbl' & Htbl' & Hlen). congruence.
  - rewrite lookup_insert_ne by done. by apply (pk_table _ _ Hok t' l').
Qed.

(** Changing an entry without changing what it refers to. *)
Lemma reflag_evolves m lv t l i e e' m' :
  pages_ok m lv → lv !! t = Some l → (l < 4)%nat → 0 ≤ i < 512 → read m t i = Some e →
  entry_range e' → get_addr e' = get_addr e → is_present e' = is_present e →
  (is_present e' = true → l ≠ 3%nat → is_big_page e' = false) → write m t i e' = Some m' →
  evolves m lv m' lv 0 ∧ ∀ t' j, 0 ≤ j → child m' t' j = child m t' j.
Proof using Type.
  intros Hok Ht Hl Hi Hr He Ha Hp Hb Hw.
  destruct (entry_write_spec m t i e' m' ltac:(lia) Hw) as (Es & Ec & Eo & _ & Hread).
  assert (∀ t' j, 0 ≤ j → child m' t' j = child m t' j) as Hch.
  { intros t' j Hj. rewrite (child_write m t i e' m') by (done || lia). destruct (decide _) as [[-> ->]|]; [|done].
    unfold child. rewrite Hr. simpl. by rewrite Ha, Hp. }
  split; [|done].
  assert (pages_ok m' lv) as Hok'.
  { constructor.
    - rewrite Es. apply Hok.
    - apply Hok.
    - intros f l' Hf. unfold reference. rewrite Es. by apply (pk_frame _ _ Hok f l').
    - intros t' l' Ht' Hl'. apply (write_length m lv t l i e' m' t' l'); try done. lia.
    - intros t' l' j x Ht' Hl' Hj Hx. rewrite Hread in Hx by done. rewrite Es.
      destruct (decide (t' = t ∧ j = i)) as [[-> ->]|Hn]; [|by apply (pk_entry _ _ Hok t' l' j x)].
      injection Hx as <-. split; [done|]. intros Hpr. rewrite Ht in Ht'. injection Ht' as <-.
      destruct (pk_entry _ _ Hok t l i e Ht Hl ltac:(lia) Hr) as [_ Hold].
      rewrite Ha. split; [apply Hold; congruence|by apply Hb].
    - intros f l' Hf ls Hnd Hls. unfold reference. rewrite Es. apply (pk_refs _ _ Hok f l' Hf ls Hnd).
      eapply Forall_impl; [exact Hls|]. intros [x j] (H1 & H2 & H3). split; [done|]. split; [done|]. simpl in *.
      by rewrite <-Hch by lia. }
  constructor; [done|done|by intros f -> | | |done|by rewrite Es].
  - intros r ix Hr0 Hix. apply (translate_live m m' lv); try done. intros t' l' j _ _ Hj. apply Hch. lia.
  - intros f. unfold reference. rewrite Es. lia.
Qed.

Lemma live_not_fresh m lv f : pages_ok m lv → reference m f = 0 → lv !! f = None.
Proof using Type.
  intros Hok Hr. destruct (lv !! f) as [l|] eqn:E; [|done].
  destruct (pk_frame _ _ Hok f l E) as (_ & Hp & _). lia.
Qed.

(** A fresh frame is the child of no live table. *)
Lemma fresh_no_parent m lv f t i :
  pages_ok m lv → lv !! f = None → fs_known (store m) f = true → is_table lv t → 0 ≤ i → child m t i ≠ Some f.
Proof using Type.
  intros Hok Hf Hk (l & Ht & Hl) Hi Hc. destruct (child_level m lv t l i f Hok Ht Hl Hi Hc) as [?|[_ ?]]; congruence.
Qed.

Lemma is_table_insert lv p l t : is_table (<[p := l]> lv) t → t = p ∨ is_table lv t.
Proof using Type.
  intros (k & Hk & Hlt). destruct (decide (t = p)) as [->|Hn]; [by left|right].
  rewrite lookup_insert_ne in Hk by done. by exists k.
Qed.

(** A new table, at any level. *)
Lemma new_table_ok m lv p m' l :
  pages_ok m lv → new_page_table m = Some (p, m') → (l ≤ 3)%nat →
  lv !! p = None ∧ pages_ok m' (<[p := l]> lv) ∧ contents m' = contents m ∧
  (∀ g, fs_known (store m') g = fs_known (store m) g) ∧
  (∀ i, 0 ≤ i < 512 → read m' p i = Some 0) ∧ (∀ i, 0 ≤ i → child m' p i = None) ∧
  (∀ t i, t ≠ p → read m' t i = read m t i) ∧
  (∀ f, reference m' f = if decide (f = p) then 1 else reference m f) ∧ reference m p = 0 ∧
  (∀ t, counter_of m' t = if decide (t = p) then 0 else counter_of m t).
Proof using Type.
  intros Hok. unfold new_page_table. destruct (fs_allocate (store m)) as [[f s]|] eqn:Ea; [|done]. simpl.
  intros [= -> <-] Hl. destruct (fs_allocate_spec _ _ _ (pk_store _ _ Hok) Ea) as (Hs & Hf & Hk & Hr0 & Hr & Hkn).
  assert (lv !! p = None) as Hp by (by apply (live_not_fresh m)).
  set (m' := Build_pmem _ _ _ _).
  assert (∀ t i, t ≠ p → read m' t i = read m t i) as Hread.
  { intros t i Ht. unfold read, m'. simpl. by rewrite lookup_insert_ne by done. }
  assert (∀ t i, t ≠ p → child m' t i = child m t i) as Hch by (intros t i Ht; unfold child; by rewrite Hread).
  assert (∀ i e, read m' p i = Some e → e = 0) as Hzero.
  { intros i e He. unfold read, m' in He. simpl in He. rewrite lookup_insert_eq in He. simpl in He. by apply empty_table_lookup in He. }
  assert (∀ i, 0 ≤ i → child m' p i = None) as Hch0.
  { intros i Hi. unfold child. destruct (read m' p i) as [e|] eqn:E; [|done]. by apply Hzero in E as ->. }
  assert (∀ g, reference m' g = if decide (g = p) then 1 else reference m g) as Href by apply Hr.
  assert (∀ x g, 0 ≤ x.2 → points m' (<[p := l]> lv) x g → points m lv x g) as Hpts.
  { intros [x j] g Hj (H1 & H2 & H3). simpl in *. apply is_table_insert in H1 as [->|H1]; [by rewrite Hch0 in H3|].
    assert (x ≠ p) as Hx by (intros ->; destruct H1 as (k & Hk' & _); congruence).
    rewrite Hch in H3 by done. by split. }
  split; [done|]. split; [|split_and!; try done].
  2:{ intros i Hi. unfold read, m'. simpl. rewrite lookup_insert_eq. apply empty_table_read. lia. }
  2:{ intros t. unfold counter_of, m'. simpl. destruct (decide (t = p)) as [->|]; [by rewrite lookup_insert_eq|by rewrite lookup_insert_ne]. }
  constructor.
  - done.
  - intros g k. rewrite lookup_insert_Some. intros [[_ <-]|[_ Hg]]; [lia|by apply (pk_level _ _ Hok g)].
  - intros g k. rewrite lookup_insert_Some, Href. change (store m') with s. rewrite Hkn. intros [[<- _]|[Hn Hg]].
    + rewrite decide_True by done. done.
    + rewrite decide_False by done. by apply (pk_frame _ _ Hok g k).
  - intros t k. rewrite lookup_insert_Some. intros [[<- <-]|[Hn Ht]] Hk'; unfold m'; simpl.
    + exists empty_table. rewrite lookup_insert_eq. split; [done|]. apply empty_table_length.
    + rewrite lookup_insert_ne by done. by apply (pk_table _ _ Hok t k).
  - intros t k i e. rewrite lookup_insert_Some. intros [[<- <-]|[Hn Ht]] Hk' Hi He.
    + apply Hzero in He as ->. split; [by unfold entry_range|done].
    + rewrite Hread in He by done. destruct (pk_entry _ _ Hok t k i e Ht Hk' Hi He) as [H1 H2]. split; [done|].
      intros Hpr. destruct (H2 Hpr) as [[Hlv|[Hk3 Hun]] Hb]; (split; [|done]).
      * left. rewrite lookup_insert_ne; [done|]. intros ->. congruence.
      * right. split; [done|]. change (fs_known s (get_addr e) = false). by rewrite Hkn.
  - intros g k. rewrite lookup_insert_Some. intros [[<- _]|[Hn Hg]] ls Hnd Hls; rewrite Href.
    + destruct ls as [|x ls]; [rewrite decide_True by done; simpl; lia|]. exfalso.
      apply Forall_cons in Hls as [Hx _]. pose proof Hx as (_ & Hj & _). apply Hpts in Hx; [|lia].
      destruct Hx as (H1 & _ & H3). by apply (fresh_no_parent m lv p x.1 x.2 Hok Hp Hk H1 ltac:(lia)).
    + rewrite decide_False by done. apply (pk_refs _ _ Hok g k Hg ls Hnd).
      eapply Forall_impl; [exact Hls|]. intros x Hx. apply Hpts; [|done]. destruct Hx as (_ & ? & _). lia.
Qed.

Lemma new_table_evolves m lv p m' l :
  pages_ok m lv → new_page_table m = Some (p, m') → (1 ≤ l ≤ 3)%nat →
  lv !! p = None ∧ evolves m lv m' (<[p := l]> lv) 1 ∧ reference m' p = 1 ∧ counter_of m' p = 0 ∧
  (∀ i, 0 ≤ i < 512 → read m' p i = Some 0) ∧
  (∀ t i, t ≠ p → read m' t i = read m t i) ∧
  (∀ f, f ≠ p → reference m' f = reference m f) ∧ (∀ t, t ≠ p → counter_of m' t = counter_of m t).
Proof using Type.
  intros Hok Hn Hl. destruct (new_table_ok m lv p m' l Hok Hn ltac:(lia)) as (Hp & Hok' & Eo & Hkn & Hr0 & Hch0 & Hr & Hrf & Hz & Hc).
  split; [done|]. split; [|split_and!; try done].
  - constructor; try done.
    + intros g k Hg. rewrite lookup_insert_ne; [done|]. intros ->. congruence.
    + intros g Hg. rewrite lookup_insert_Some. intros [[_ ?]|[_ ?]]; [lia|congruence].
    + intros r ix Hr0' Hix. apply (translate_live m m' lv); try done. intros t k i Ht _ _. unfold child. rewrite Hr; [done|].
      intros ->. congruence.
    + intros g. rewrite Hrf. destruct (decide (g = p)) as [->|]; lia.
  - by rewrite Hrf, decide_True.
  - by rewrite Hc, decide_True.
  - intros f Hf. by rewrite Hrf, decide_False.
  - intros t Ht. by rewrite Hc, decide_False.
Qed.

(** *** Adding an entry *)

(** A table that no live table refers to. *)
Definition orphan m lv t : Prop := ∀ x j, is_table lv x → 0 ≤ j → child m x j ≠ Some t.

(** A live table may get one more entry that refers to [c] when the references
    of [c] cover it. *)
Lemma add_slot_ok m lv t l i e0 c e' (s : S) m' :
  pages_ok m lv → lv !! t = Some l → (l < 4)%nat → 0 ≤ i < 512 → read m t i = Some e0 → is_present e0 = false →
  lv !! c = Some (Datatypes.S l) → entry_range e' → get_addr e' = c → is_present e' = true →
  (l ≠ 3%nat → is_big_page e' = false) →
  fs_ok s → (∀ f, f ≠ c → fs_reference s f = reference m f) → (∀ f, fs_known s f = fs_known (store m) f) →
  (∀ ls, NoDup ls → Forall (λ x, points m lv x c) ls → Z.of_nat (length ls) + 1 ≤ fs_reference s c) →
  write (set_store m s) t i e' = Some m' →
  pages_ok m' lv ∧ store m' = s ∧ counters m' = counters m ∧ contents m' = contents m ∧
  (∀ t' j, 0 ≤ j → child m' t' j = if decide (t' = t ∧ j = i) then Some c else child m t' j) ∧
  (∀ t' j, 0 ≤ j → read m' t' j = if decide (t' = t ∧ j = i) then Some e' else read m t' j).
Proof using Type.
  intros Hok Ht Hl Hi Hr0 Hp0 Hc He Ha Hp Hb Hs Hrf Hkn Hbound Hw.
  destruct (entry_write_spec _ t i e' m' ltac:(lia) Hw) as (Es & Ec & Eo & (tbl & Htbl & Htb & Hlt) & Hread).
  simpl in Es, Ec, Eo, Htbl. assert (∀ t' j, read (set_store m s) t' j = read m t' j) as Hrs by done.
  assert (∀ t' j, 0 ≤ j → child m' t' j = if decide (t' = t ∧ j = i) then Some c else child m t' j) as Hch.
  { intros t' j Hj. unfold child. rewrite Hread, Hrs by done. destruct (decide _); [|done]. simpl. by rewrite Hp, Ha. }
  split; [|split_and!; done]. assert (is_table lv t) as Htab by (by exists l). constructor.
  - by rewrite Es.
  - apply Hok.
  - intros f k Hf. destruct (pk_frame _ _ Hok f k Hf) as (H1 & H2 & H3). unfold reference. rewrite Es, Hkn.
    split; [done|]. split; [|done]. destruct (decide (f = c)) as [->|Hn]; [|by rewrite Hrf].
    specialize (Hbound [] (NoDup_nil_2) (Forall_nil_2 _)). simpl in Hbound. lia.
  - intros t' k Ht' Hk. rewrite Htb. destruct (decide (t' = t)) as [->|Hn].
    + rewrite lookup_insert_eq. exists (zset tbl i e'). split; [done|]. rewrite length_zset.
      destruct (pk_table _ _ Hok t k Ht' Hk) as (tbl' & Htbl' & Hlen). congruence.
    + rewrite lookup_insert_ne by done. by apply (pk_table _ _ Hok t' k).
  - intros t' k j x Ht' Hk Hj Hx. rewrite Hread, Hrs in Hx by done. rewrite Es.
    destruct (decide (t' = t ∧ j = i)) as [[-> ->]|Hn].
    + injection Hx as <-. rewrite Ht in Ht'. injection Ht' as <-. split; [done|]. intros _. rewrite Ha. split; [by left|done].
    + destruct (pk_entry _ _ Hok t' k j x Ht' Hk Hj Hx) as [H1 H2]. split; [done|]. intros Hpr. rewrite Hkn. by apply H2.
  - intros f k Hf ls Hnd Hls. unfold reference. rewrite Es.
    assert (∀ x, points m' lv x f → x ≠ (t, i) → points m lv x f) as Hpts.
    { intros [x j] (H1 & H2 & H3) Hx. simpl in *. split; [done|]. split; [done|]. simpl. rewrite Hch in H3 by lia.
      rewrite decide_False in H3; [done|]. intros [-> ->]. done. }
    destruct (decide (f = c)) as [->|Hn].
    + pose (ls' := filter (λ x, x ≠ (t, i)) ls).
      assert (Z.of_nat (length ls') + 1 ≤ fs_reference s c) as Hb'.
      { apply Hbound; [by apply NoDup_filter|]. apply Forall_forall. intros x [Hx Hin]%list_elem_of_filter.
        rewrite Forall_forall in Hls. by apply Hpts; [apply Hls|]. }
      assert (length ls ≤ Datatypes.S (length ls'))%nat by (by apply length_filter_ne). lia.
    + rewrite Hrf by done. apply (pk_refs _ _ Hok f k Hf ls Hnd). rewrite Forall_forall in Hls |- *.
      intros x Hx. apply Hpts; [by apply Hls|]. intros ->. destruct (Hls _ Hx) as (_ & _ & H3). simpl in H3.
      rewrite Hch, decide_True in H3 by (done || lia). congruence.
Qed.

(** Changes of an orphan table are not seen by any address space. *)
Lemma translate_orphan m m' lv p k r ix :
  pages_ok m lv → orphan m lv p → lv !! p = Some k → (0 < k)%nat → lv !! r = Some 0%nat → index_ok ix →
  (∀ t l i, t ≠ p → lv !! t = Some l → (l < 4)%nat → 0 ≤ i < 512 → child m' t i = child m t i) →
  translate m' r ix = translate m r ix.
Proof using Type.
  intros Hok Horph Hp Hk Hr Hix Hc.
  pose (rel := λ (j : nat) (x y : Z), x = y ∧ (j = 4%nat ∨ lv !! x = Some j ∧ x ≠ p)).
  apply (option_Forall2_eq (rel 4%nat)); [by intros a b [? _]|].
  apply translate_rel; [|done|].
  { split; [done|]. right. split; [done|]. intros ->. rewrite Hp in Hr. injection Hr as ->. lia. }
  intros j x y i Hj [<- [?|[Hx Hxp]]] Hi; [lia|].
  rewrite (Hc x j i Hxp Hx Hj Hi). destruct (child m x i) as [f|] eqn:E; constructor. split; [done|].
  destruct (child_level m lv x j i f Hok Hx) as [Hf|[-> _]]; [done|lia|done| |by left].
  right. split; [done|]. intros ->. apply (Horph x i); [by exists j|lia|done].
Qed.

(** *** Copying a table *)

(** More references do no harm. *)
Lemma set_store_ok m lv (s : S) :
  pages_ok m lv → fs_ok s → (∀ f, reference m f ≤ fs_reference s f) →
  (∀ f, fs_known s f = fs_known (store m) f) → pages_ok (set_store m s) lv.
Proof using Type.
  intros Hok Hs Hr Hk. constructor; simpl; try done.
  - apply Hok.
  - intros f l Hf. destruct (pk_frame _ _ Hok f l Hf) as (H1 & H2 & H3). specialize (Hr f).
    split; [done|]. split; [unfold reference in *; simpl; lia|by rewrite Hk].
  - apply Hok.
  - intros t l i e Ht Hl Hi He. destruct (pk_entry _ _ Hok t l i e Ht Hl Hi He) as [H1 H2].
    split; [done|]. intros Hp. rewrite Hk. by apply H2.
  - intros f l Hf ls Hnd Hls. pose proof (pk_refs _ _ Hok f l Hf ls Hnd Hls). specialize (Hr f).
    unfold reference in *. simpl. lia.
Qed.

Lemma share_step m lv next p k i e c ro :
  pages_ok m lv → orphan m lv p → lv !! next = Some k → lv !! p = Some k → (1 ≤ k ≤ 3)%nat → next ≠ p →
  0 ≤ i < 512 → read m next i = Some e → is_present e = true → get_addr e = c → lv !! c = Some (Datatypes.S k) →
  read m p i = Some 0 → 0 ≤ ro < 128 → Z.odd ro = true → reference m c < 2 ^ 32 - 1 →
  ∃ s m1 m2, fs_bump (store m) c = Some s ∧ write (set_store m s) next i (set_flags e ro) = Some m1 ∧
    write m1 p i (set_flags e ro) = Some m2 ∧
    evolves m lv m2 lv 1 ∧ orphan m2 lv p ∧ counters m2 = counters m ∧
    (∀ t j, 0 ≤ j → child m2 t j = if decide (t = p ∧ j = i) then Some c else child m t j) ∧
    (∀ j, 0 ≤ j → j ≠ i → read m2 p j = read m p j) ∧
    (∀ f, f ≠ c → reference m2 f = reference m f).
Proof using Type.
  intros Hok Horph Hn Hp Hk Hne Hi He Hpr Hc Hlc Hp0 Hro Hodd Hsmall.
  destruct (pk_frame _ _ Hok c _ Hlc) as (_ & Hrc & _).
  destruct (fs_bump_spec (store m) c (pk_store _ _ Hok)) as (s & Hb & Hs & Hr & Hkn); [unfold reference in *; lia|].
  assert (pages_ok (set_store m s) lv) as Hok1.
  { apply set_store_ok; [done|done| |done]. intros f. rewrite Hr. unfold reference. destruct (decide (f = c)) as [->|]; lia. }
  destruct (pk_entry _ _ Hok next k i e Hn ltac:(lia) ltac:(lia) He) as [Her _].
  destruct (reflag_entry e ro Her ltac:(lia)) as (Hr1 & Hr2 & Hr3 & _).
  pose proof (reflag_not_big e ro Her Hro) as Hnb.
  destruct (write_total (set_store m s) lv next k i (set_flags e ro) Hok1 Hn) as [m1 Hm1]; [lia|done|].
  destruct (reflag_evolves (set_store m s) lv next k i e (set_flags e ro) m1) as [Hev Hch1]; try done; [lia|congruence|].
  pose proof (ev_ok _ _ _ _ _ Hev) as Hokm1.
  destruct (entry_write_spec _ next i _ m1 ltac:(lia) Hm1) as (Es1 & Ec1 & Eo1 & _ & Hread1). simpl in Es1, Ec1, Eo1.
  assert (read m1 p i = Some 0) as Hp1.
  { rewrite Hread1 by lia. rewrite decide_False by (intros [? _]; congruence). exact Hp0. }
  destruct (write_total m1 lv p k i (set_flags e ro) Hokm1 Hp) as [m2 Hm2]; [lia|done|].
  exists s, m1, m2. split; [done|]. split; [done|]. split; [done|].
  assert (write (set_store m1 s) p i (set_flags e ro) = Some m2) as Hm2'.
  { rewrite <-Es1. by destruct m1. }
  destruct (add_slot_ok m1 lv p k i 0 c (set_flags e ro) s m2) as (Hok2 & Es2 & Ec2 & Eo2 & Hch2 & Hread2); try done.
  { lia. } { congruence. } { congruence. }
  { intros f Hf. unfold reference. by rewrite Es1. } { intros f. by rewrite Es1. }
  { intros ls Hnd Hls. rewrite Hr, decide_True by done.
    assert (Z.of_nat (length ls) ≤ reference m c); [|unfold reference in *; lia].
    apply (pk_refs _ _ Hok c k Hlc ls Hnd). eapply Forall_impl; [exact Hls|].
    intros [x j] (H1 & H2 & H3). split; [done|]. split; [done|]. simpl in *. by rewrite Hch1 in H3 by lia. }
  assert (∀ t j, 0 ≤ j → child m2 t j = if decide (t = p ∧ j = i) then Some c else child m t j) as Hch.
  { intros t j Hj. rewrite Hch2 by done. destruct (decide _); [done|]. by rewrite Hch1 by done. }
  split; [|split_and!].
  - constructor; [done|done|by intros f -> | | |by rewrite Eo2, Eo1|].
    + intros r ix Hr0 Hix. apply (translate_orphan m m2 lv p k); try done; [lia|].
      intros t l j Ht _ _ Hj. rewrite Hch by lia. by rewrite decide_False by tauto.
    + intros f. unfold reference. rewrite Es2, Hr. destruct (decide (f = c)) as [->|]; lia.
    + intros f. by rewrite Es2, Hkn.
  - intros x j Hx Hj. rewrite Hch by done. destruct (decide _) as [[-> ->]|]; [|by apply Horph].
    intros [= ->]. congruence || (rewrite Hp in Hlc; injection Hlc as ?; lia).
  - by rewrite Ec2.
  - done.
  - intros j Hj Hji. rewrite Hread2, decide_False by tauto. rewrite Hread1, decide_False by (done || tauto || (intros [? _]; congruence)). done.
  - intros f Hf. unfold reference. by rewrite Es2, Hr, decide_False.
Qed.

(** The number of present entries of [t] from [i] on, among [n]. *)
Fixpoint kids (n : nat) m t i : Z :=
  match n with
  | O => 0
  | Datatypes.S n => (match child m t i with Some _ => 1 | None => 0 end) + kids n m t (i + 1)
  end.

Lemma kids_nonneg n m t i : 0 ≤ kids n m t i.
Proof using Type. revert i. induction n as [|n IH]; intros i; simpl; [lia|]. specialize (IH (i + 1)). destruct (child m t i); lia. Qed.

Lemma kids_zero n m t i j : kids n m t i = 0 → i ≤ j < i + Z.of_nat n → child m t j = None.
Proof using Type.
  revert i. induction n as [|n IH]; intros i Hk Hj; [lia|]. simpl in Hk. pose proof (kids_nonneg n m t (i + 1)).
  destruct (child m t i) eqn:E; [lia|]. destruct (decide (j = i)) as [->|]; [done|]. apply (IH (i + 1)); lia.
Qed.

Lemma kids_ext n m m' t t' i :
  (∀ j, i ≤ j < i + Z.of_nat n → child m' t' j = None ↔ child m t j = None) → kids n m' t' i = kids n m t i.
Proof using Type.
  revert i. induction n as [|n IH]; intros i Hc; simpl; [done|]. rewrite IH by (intros j Hj; apply Hc; lia).
  specialize (Hc i ltac:(lia)). destruct (child m' t' i), (child m t i); try done; exfalso;
    [by discriminate (proj2 Hc eq_refl)|by discriminate (proj1 Hc eq_refl)].
Qed.

Lemma kids_add n m m' t i j :
  i ≤ j < i + Z.of_nat n → child m t j = None → is_Some (child m' t j) →
  (∀ j', i ≤ j' → j' ≠ j → child m' t j' = child m t j') → kids n m' t i = kids n m t i + 1.
Proof using Type.
  intros Hj H0 [c H1] Ho. revert i Hj Ho. induction n as [|n IH]; intros i Hj Ho; [lia|]. simpl.
  destruct (decide (i = j)) as [->|Hn].
  - rewrite H0, H1. rewrite (kids_ext n m m' t t (j + 1)); [lia|]. intros j' Hj'. by rewrite Ho by lia.
  - rewrite Ho by lia. rewrite IH; [lia|lia|]. intros j' Hj'. apply Ho. lia.
Qed.

Lemma counter_kids m t tbl : tables m !! t = Some tbl → counter tbl = kids (length tbl) m t 0.
Proof using Type.
  intros Ht. assert (∀ (n i : nat), (i + n = length tbl)%nat → counter (drop i tbl) = kids n m t (Z.of_nat i)) as Hgen.
  { induction n as [|n IH]; intros i Hin; simpl.
    - by rewrite drop_ge by lia.
    - destruct (lookup_lt_is_Some_2 tbl i) as [e He]; [lia|]. rewrite (drop_S tbl e i He).
      replace (Z.of_nat i + 1) with (Z.of_nat (Datatypes.S i)) by lia. rewrite <-IH by lia.
      unfold child, read. rewrite Ht. cbn [mbind option_bind]. rewrite Nat2Z.id, He. cbn [mbind option_bind].
      unfold counter. destruct (is_present e) eqn:E; [rewrite filter_cons_True by done|rewrite filter_cons_False by congruence];
        cbn [length]; lia. }
  by apply (Hgen (length tbl) 0%nat).
Qed.

Lemma evolves_refl m lv : pages_ok m lv → evolves m lv m lv 0.
Proof using Type. intros Hok. constructor; try done. - by intros f ->. - intros f. lia. Qed.

Lemma share_loop_spec n m lv next p k i ro nc oc :
  pages_ok m lv → orphan m lv p → lv !! next = Some k → lv !! p = Some k → (1 ≤ k ≤ 3)%nat → next ≠ p →
  0 ≤ i → i + Z.of_nat n = 512 → (∀ j, i ≤ j < 512 → read m p j = Some 0) → 0 ≤ ro < 128 → Z.odd ro = true →
  (∀ f, reference m f + Z.of_nat n < 2 ^ 32 - 1) → oc = nc + kids n m next i →
  (∃ m', share_loop n m next p i ro nc oc = Some (oc, m') ∧ evolves m lv m' lv (Z.of_nat n) ∧ orphan m' lv p ∧
     counters m' = counters m ∧ (∀ t j, 0 ≤ j → t ≠ p → child m' t j = child m t j) ∧
     (∀ j, 0 ≤ j < 512 → child m' p j = if decide (i ≤ j) then child m next j else child m p j) ∧
     (∀ f l, lv !! f = Some l → (l ≤ k)%nat → reference m' f = reference m f)) ∨
  (share_loop n m next p i ro nc oc = None ∧ k = 3%nat ∧
   ∃ j f, 0 ≤ j ∧ child m next j = Some f ∧ fs_known (store m) f = false).
Proof using Type.
  revert m i nc. induction n as [|n IH]; intros m i nc Hok Horph Hn Hp Hk Hne Hi Hin Hp0 Hro Hodd Hsmall Hoc.
  { left. exists m. simpl in *. replace oc with nc by lia. split; [done|].
    split; [by apply evolves_refl|]. split_and!; try done. intros j Hj. by rewrite decide_False by lia. }
  cbn [share_loop]. cbn [kids] in Hoc. pose proof (kids_nonneg n m next (i + 1)) as Hkn.
  destruct (read_table m lv next k i Hok Hn ltac:(lia) ltac:(lia)) as [e He].
  destruct (nc <? oc) eqn:Eq; [apply Z.ltb_lt in Eq|apply Z.ltb_ge in Eq].
  2:{ left. exists m. assert (oc = nc) as -> by (destruct (child m next i); lia). split; [done|].
      split; [eapply evolves_mono; [|by apply evolves_refl]; lia|]. split_and!; try done.
      intros j Hj. destruct (decide (i ≤ j)) as [Hij|]; [|done].
      rewrite (kids_zero (Datatypes.S n) m next i j); [|cbn [kids]; lia|lia]. unfold child. by rewrite Hp0 by lia. }
  rewrite He. cbn [mbind option_bind]. destruct (is_present e) eqn:Epr.
  - assert (child m next i = Some (get_addr e)) as Hc by (unfold child; by rewrite He; simpl; rewrite Epr).
    destruct (child_level m lv next k i _ Hok Hn ltac:(lia) Hi Hc) as [Hlc|[-> Hun]].
    2:{ right. rewrite fs_bump_unknown by done. split; [done|]. split; [done|]. by exists i, (get_addr e). }
    destruct (share_step m lv next p k i e (get_addr e) ro) as (s & m1 & m2 & Hb & Hm1 & Hm2 & Hev & Horph2 & Ec2 & Hch2 & Hrd2 & Hrf2);
      try done; [lia|apply Hp0; lia|specialize (Hsmall (get_addr e)); lia|].
    rewrite Hb. cbn [mbind option_bind]. rewrite Hm1. cbn [mbind option_bind]. rewrite Hm2. cbn [mbind option_bind].
    assert (∀ j, 0 ≤ j → child m2 next j = child m next j) as Hnx
      by (intros j Hj; rewrite Hch2, decide_False by (done || intros [? _]; congruence); done).
    destruct (IH m2 (i + 1) (nc + 1)) as [(m' & Hl & Hev' & Horph' & Ec' & Hch' & Hp' & Hrf')|(Hl & -> & j & f & Hj0 & Hj & Hf)];
      try done.
    + apply Hev. + lia. + lia. + intros j Hj. rewrite Hrd2 by lia. apply Hp0. lia.
    + intros f. pose proof (ev_refs _ _ _ _ _ Hev f). specialize (Hsmall f). lia.
    + rewrite (kids_ext n m m2 next next (i + 1)) by (intros j Hj; by rewrite Hnx by lia). rewrite Hc in Hoc. lia.
    + left. exists m'. split; [done|].
      split; [replace (Z.of_nat (Datatypes.S n)) with (1 + Z.of_nat n) by lia; by eapply evolves_trans|].
      split; [done|]. split; [congruence|]. split; [|split].
      * intros t j Hj Ht. rewrite Hch' by done. rewrite Hch2 by done. by rewrite decide_False by tauto.
      * intros j Hj. rewrite Hp' by done. destruct (decide (i + 1 ≤ j)) as [H1|H1], (decide (i ≤ j)) as [H2|H2]; try lia.
        -- apply Hnx. lia.
        -- assert (j = i) as -> by lia. rewrite Hch2, decide_True by done. done.
        -- rewrite Hch2 by lia. by rewrite decide_False by lia.
      * intros f l Hf Hl'. rewrite (Hrf' f l Hf Hl'). apply Hrf2. intros ->. rewrite Hlc in Hf. injection Hf as <-. lia.
    + right. split; [done|]. split; [done|]. exists j, f. rewrite <-Hnx by done. by rewrite <-(ev_known _ _ _ _ _ Hev).
  - assert (child m next i = None) as Hc by (unfold child; rewrite He; simpl; by rewrite Epr).
    destruct (IH m (i + 1) nc) as [(m' & Hl & Hev' & Horph' & Ec' & Hch' & Hp' & Hrf')|(Hl & -> & j & f & Hj0 & Hj & Hf)]; try done.
    + lia. + lia. + intros j Hj. apply Hp0. lia. + intros f. specialize (Hsmall f). lia. + rewrite Hc in Hoc. lia.
    + left. exists m'. split; [done|]. split; [eapply evolves_mono; [|exact Hev']; lia|]. split; [done|]. split; [done|]. split; [done|].
      split; [|done]. intros j Hj. rewrite Hp' by done.
      destruct (decide (i + 1 ≤ j)) as [H1|H1], (decide (i ≤ j)) as [H2|H2]; try lia; try done.
      assert (j = i) as -> by lia. unfold child. rewrite Hp0, He by lia. simpl. by rewrite Epr.
    + right. split; [done|]. split; [done|]. by exists j, f.
Qed.

(** *** Taking an entry away *)

Lemma write_write m t i e1 e2 m1 m2 :
  0 ≤ i → write m t i e1 = Some m1 → write m1 t i e2 = Some m2 → write m t i e2 = Some m2.
Proof using Type.
  intros Hi. unfold write. destruct (tables m !! t) as [tbl|] eqn:Ht; [|done]. cbn [mbind option_bind].
  destruct (decide _) as [Hlt|]; [|done]. intros [= <-]. simpl. rewrite lookup_insert_eq. cbn [mbind option_bind].
  rewrite length_zset, decide_True by done. intros [= <-]. f_equal. unfold set_tables. simpl.
  unfold zset. by rewrite insert_insert_eq, list_insert_insert_eq.
Qed.

(** The live frames when one of the references of [c] goes. *)
Definition release m lv c : gmap Z nat := if decide (reference m c = 1) then delete c lv else lv.

Lemma release_lookup m lv c f l : release m lv c !! f = Some l ↔ lv !! f = Some l ∧ (f = c → reference m c ≠ 1).
Proof using Type.
  unfold release. destruct (decide (reference m c = 1)) as [Hr|Hr].
  - rewrite lookup_delete_Some. split; [intros [? ?]; split; [done|congruence]|].
    intros [? Hc]. split; [|done]. intros ->. by apply Hc.
  - split; [done|by intros [? _]].
Qed.

Lemma clear_slot_ok m lv t l i e c e' (s : S) m' :
  pages_ok m lv → lv !! t = Some l → (l < 4)%nat → 0 ≤ i < 512 → read m t i = Some e → is_present e = true →
  get_addr e = c → entry_range e' → is_present e' = false →
  fs_ok s → (∀ f, f ≠ c → fs_reference s f = reference m f) → (∀ f, fs_known s f = fs_known (store m) f) →
  (is_Some (lv !! c) → fs_reference s c = reference m c - 1) →
  write (set_store m s) t i e' = Some m' →
  pages_ok m' (release m lv c) ∧ store m' = s ∧ counters m' = counters m ∧ contents m' = contents m ∧
  (∀ t' j, 0 ≤ j → child m' t' j = if decide (t' = t ∧ j = i) then None else child m t' j) ∧
  (∀ t' j, 0 ≤ j → read m' t' j = if decide (t' = t ∧ j = i) then Some e' else read m t' j).
Proof using Type.
  intros Hok Ht Hl Hi Hr0 Hp0 Hc He Hp Hs Hrf Hkn Hrc Hw.
  destruct (entry_write_spec _ t i e' m' ltac:(lia) Hw) as (Es & Ec & Eo & (tbl & Htbl & Htb & Hlt) & Hread).
  simpl in Es, Ec, Eo, Htbl. assert (∀ t' j, read (set_store m s) t' j = read m t' j) as Hrs by done.
  assert (∀ t' j, 0 ≤ j → child m' t' j = if decide (t' = t ∧ j = i) then None else child m t' j) as Hch.
  { intros t' j Hj. unfold child. rewrite Hread, Hrs by done. destruct (decide _); [|done]. simpl. by rewrite Hp. }
  assert (points m lv (t, i) c) as Hti.
  { split; [by exists l|]. split; [done|]. unfold child. simpl. rewrite Hr0. simpl. by rewrite Hp0, Hc. }
  assert (∀ x f, points m' (release m lv c) x f → points m lv x f ∧ x ≠ (t, i)) as Hpts.
  { intros [x j] f ((k & Hk & Hk4) & H2 & H3). simpl in *. rewrite Hch in H3 by lia.
    destruct (decide _) as [|Hn]; [done|]. apply release_lookup in Hk as [Hk _].
    split; [split; [by exists k|done]|]. intros [= -> ->]. by apply Hn. }
  assert (∀ x, points m lv x c → x ≠ (t, i) → ∀ k, lv !! c = Some (Datatypes.S k) → reference m c ≠ 1) as Hsole.
  { intros x Hx Hne k Hk Hone. pose proof (pk_refs _ _ Hok c k Hk [(t, i); x]) as Hb. simpl in Hb.
    assert (2 ≤ reference m c); [|lia]. apply Hb; [|by repeat apply Forall_cons_2].
    constructor; [by rewrite list_elem_of_singleton; congruence|]. apply NoDup_singleton. }
  split; [|split_and!; done]. constructor.
  - by rewrite Es.
  - intros f k [Hf _]%release_lookup. by apply (pk_level _ _ Hok f).
  - intros f k [Hf Hfc]%release_lookup. destruct (pk_frame _ _ Hok f k Hf) as (H1 & H2 & H3). unfold reference.
    rewrite Es, Hkn. split; [done|]. split; [|done]. destruct (decide (f = c)) as [->|Hn]; [|by rewrite Hrf].
    specialize (Hfc eq_refl). rewrite Hrc by eauto. lia.
  - intros t' k [Ht' _]%release_lookup Hk. rewrite Htb. destruct (decide (t' = t)) as [->|Hn].
    + rewrite lookup_insert_eq. exists (zset tbl i e'). split; [done|]. rewrite length_zset.
      destruct (pk_table _ _ Hok t k Ht' Hk) as (tbl' & Htbl' & Hlen). congruence.
    + rewrite lookup_insert_ne by done. by apply (pk_table _ _ Hok t' k).
  - intros t' k j x [Ht' _]%release_lookup Hk Hj Hx. rewrite Hread, Hrs in Hx by done. rewrite Es.
    destruct (decide (t' = t ∧ j = i)) as [[-> ->]|Hn]; [injection Hx as <-; split; [done|congruence]|].
    destruct (pk_entry _ _ Hok t' k j x Ht' Hk Hj Hx) as [H1 H2]. split; [done|]. intros Hpr. rewrite Hkn.
    destruct (H2 Hpr) as [[Hlv|Hun] Hb]; (split; [|done]); [left|by right]. apply release_lookup. split; [done|].
    intros Hxc. assert (child m t' j = Some c) as Hcx by (unfold child; rewrite Hx; simpl; by rewrite Hpr, Hxc).
    assert (is_table lv t') as Htab by (by exists k). rewrite Hxc in Hlv.
    apply (Hsole (t', j)) with k; [|intros [= -> ->]; by apply Hn|done]. split; [done|]. simpl.
    split; [|done]. split; [done|]. by apply (child_range m lv t' j c).
  - intros f k [Hf Hfc]%release_lookup ls Hnd Hls. unfold reference. rewrite Es.
    assert (Forall (λ x, points m lv x f) ls) as Hls'.
    { eapply Forall_impl; [exact Hls|]. intros x Hx. by apply Hpts. }
    destruct (decide (f = c)) as [->|Hn]; [|rewrite Hrf by done; by apply (pk_refs _ _ Hok f k Hf ls)].
    rewrite Hrc by eauto. assert (Z.of_nat (length ((t, i) :: ls)) ≤ reference m c) as Hb; [|simpl in Hb; lia].
    apply (pk_refs _ _ Hok c k Hf); [|by constructor]. constructor; [|done]. intros Hin. rewrite Forall_forall in Hls.
    by destruct (Hpts _ _ (Hls _ Hin)).
Qed.

(** *** Replacing a shared table by its copy *)

Lemma set_counter_evolves m lv t n : pages_ok m lv → evolves m lv (set_counter m t n) lv 0.
Proof using Type.
  intros Hok. constructor; try done; [|by intros f ->|intros f; change (reference m f ≤ reference m f + 0); lia].
  constructor; apply Hok.
Qed.

Lemma redirect_evolves m lv base l i next p e' (s : S) m1 :
  pages_ok m lv → orphan m lv p → lv !! base = Some l → (l < 3)%nat → 0 ≤ i < 512 → child m base i = Some next →
  lv !! p = Some (Datatypes.S l) → 2 ≤ reference m next → next ≠ p →
  (∀ j, 0 ≤ j < 512 → child m p j = child m next j) →
  entry_range e' → get_addr e' = p → is_present e' = true → is_big_page e' = false →
  fs_deallocate (store m) next = Some s → write (set_store m s) base i e' = Some m1 →
  evolves m lv m1 lv 0 ∧ counters m1 = counters m ∧
  (∀ t j, 0 ≤ j → child m1 t j = if decide (t = base ∧ j = i) then Some p else child m t j) ∧
  (∀ f, f ≠ next → reference m1 f = reference m f).
Proof using Type.
  intros Hok Horph Hb Hl Hi Hc Hp Hr Hne Hcp He Ha Hpr Hnb Hd Hw.
  assert (lv !! next = Some (Datatypes.S l)) as Hn by (apply (child_table m lv base l i); (done || lia)).
  destruct (fs_deallocate_spec (store m) next (pk_store _ _ Hok)) as (s' & Hd' & Hs & Hrs & Hks); [unfold reference in Hr; lia|].
  rewrite Hd in Hd'. injection Hd' as <-.
  assert (∃ e, read m base i = Some e ∧ is_present e = true ∧ get_addr e = next) as (e & Hre & Hpe & Hae).
  { unfold child in Hc. destruct (read m base i) as [e|]; [|done]. simpl in Hc. exists e.
    destruct (is_present e); [|done]. by injection Hc. }
  assert (∃ m0, write (set_store m s) base i 0 = Some m0) as [m0 Hm0].
  { destruct (pk_table _ _ Hok base l Hb ltac:(lia)) as (tbl & Htbl & Hlen).
    unfold write. simpl. rewrite Htbl. simpl. rewrite decide_True by lia. eauto. }
  destruct (clear_slot_ok m lv base l i e next 0 s m0) as (Hok0 & Es0 & Ec0 & Eo0 & Hch0 & Hrd0);
    try done; [lia| |by rewrite Hrs, decide_True|].
  { intros f Hf. rewrite Hrs. by rewrite decide_False by done. }
  assert (release m lv next = lv) as Hrel by (unfold release; by rewrite decide_False by lia). rewrite Hrel in Hok0.
  destruct (write_total m0 lv base l i e' Hok0 Hb ltac:(lia) Hi) as [m1' Hm1'].
  assert (m1' = m1) as -> by (pose proof (write_write (set_store m s) base i 0 e' m0 m1' ltac:(lia) Hm0 Hm1'); congruence).
  assert (∀ x, ¬ points m0 lv x p) as Hnop.
  { intros [x j] (H1 & H2 & H3). simpl in *. rewrite Hch0 in H3 by lia. destruct (decide _); [done|].
    by apply (Horph x j); [|lia|]. }
  destruct (add_slot_ok m0 lv base l i 0 p e' (store m0) m1) as (Hok1 & Es1 & Ec1 & Eo1 & Hch1 & Hrd1); try done;
    [lia|by rewrite Hrd0, decide_True by (done || lia)|by apply Hok0| |].
  { intros ls _ Hls. destruct ls as [|x ls]; [|apply Forall_cons in Hls as [Hx _]; by apply Hnop in Hx].
    destruct (pk_frame _ _ Hok0 p _ Hp) as (_ & Hp0 & _). unfold reference in Hp0. simpl. lia. }
  assert (∀ t j, 0 ≤ j → child m1 t j = if decide (t = base ∧ j = i) then Some p else child m t j) as Hch.
  { intros t j Hj. rewrite Hch1 by done. destruct (decide _) as [|Hnd]; [done|]. rewrite Hch0 by done. by rewrite decide_False. }
  assert (∀ f, reference m1 f = fs_reference s f) as Hr1 by (intros f; unfold reference; by rewrite Es1, Es0).
  split; [|split; [congruence|split; [done|]]].
  2:{ intros f Hf. by rewrite Hr1, Hrs, decide_False by done. }
  constructor; [done|done|by intros f ->| | |congruence|].
  - intros r ix Hr0 Hix.
    pose (rel := λ (k : nat) (x y : Z), x = y ∧ (k = 4%nat ∨ lv !! x = Some k ∧ x ≠ p) ∨ k = Datatypes.S l ∧ x = p ∧ y = next).
    apply (option_Forall2_eq (rel 4%nat)); [intros x y [[? _]|(? & _)]; [done|lia]|].
    apply translate_rel; [left; split; [done|]; right; split; [done|]; intros ->; congruence|done|].
    assert (∀ k x j, (k < 4)%nat → lv !! x = Some k → 0 ≤ j → option_Forall2 (rel (Datatypes.S k)) (child m x j) (child m x j)) as Hsame.
    { intros k x j Hk Hx Hj. destruct (child m x j) as [f|] eqn:E; constructor. left. split; [done|].
      destruct (child_level m lv x k j f Hok Hx) as [Hf|[-> _]]; [done|lia|done| |by left].
      right. split; [done|]. intros ->. apply (Horph x j); [by exists k|lia|done]. }
    intros k x y j Hk [[<- [?|[Hx Hxp]]]|(-> & -> & ->)] Hj; [lia| |].
    + rewrite Hch by lia. destruct (decide _) as [[-> ->]|_]; [|by apply Hsame; [| |lia]].
      rewrite Hc. constructor. right. split_and!; [congruence|done|done].
    + rewrite Hch by lia. rewrite decide_False by (intros [-> _]; rewrite Hb in Hp; injection Hp; lia).
      rewrite Hcp by done. by apply Hsame; [| |lia].
  - intros f. rewrite Hr1, Hrs. destruct (decide (f = next)) as [->|]; unfold reference; lia.
  - intros f. by rewrite Es1, Es0, Hks.
Qed.

End pages.
