(* ===== verification/PageSharing.v ===== *)
(** Page-table sharing: [share_page_entry] and [ensure] split the tables that
    address spaces share after a fork before they are changed. *)
From stdpp Require Import base list numbers gmap.
From S2P Require Import Prelude VmAllocator Zones Paging PageFacts.

Set Default Proof Using "Type".
Local Open Scope Z_scope.

#[local] Opaque empty_table share_loop.

Section sharing.
Context {S : Type} `{FSL : FrameStoreLaws S}.
Implicit Types (m : pmem S) (t f r i e : Z) (lv : gmap Z nat) (ix : indices).

(** The counter of every live table is the number of its present entries. *)
Definition counters_ok m lv : Prop :=
  ∀ t l, lv !! t = Some l → (l < 4)%nat → counter_of m t = kids 512 m t 0.

Lemma kids_bound n m t i : kids n m t i ≤ Z.of_nat n.
Proof. revert i. induction n as [|n IH]; intros i; simpl; [lia|]. specialize (IH (i + 1)). destruct (child m t i); lia. Qed.

Lemma counters_match m lv t l :
  pages_ok m lv → counters_ok m lv → lv !! t = Some l → (l < 4)%nat → counter_matches m t = true.
Proof.
  intros Hok Hc Ht Hl. destruct (pk_table _ _ Hok t l Ht Hl) as (tbl & Htbl & Hlen).
  unfold counter_matches. rewrite Htbl. apply Z.eqb_eq. rewrite (counter_kids m t tbl Htbl), Hlen. symmetry. by apply (Hc t l).
Qed.

(** The ways in which a page-table operation may not return: no frame is left,
    or a leaf entry refers to a frame outside the zones. *)
Definition stuck m lv : Prop :=
  ∃ m1 lv1 n, evolves m lv m1 lv1 n ∧
    (fs_allocate (store m1) = None ∨
     ∃ t i f, lv1 !! t = Some 3%nat ∧ 0 ≤ i ∧ child m1 t i = Some f ∧ fs_known (store m1) f = false).

Lemma stuck_evolves m lv m' lv' n : evolves m lv m' lv' n → stuck m' lv' → stuck m lv.
Proof. intros He (m1 & lv1 & k & He1 & Hs). exists m1, lv1, (n + k). split; [by eapply evolves_trans|done]. Qed.

(** Entry [i] of [base], at level [l], refers to a table [t] that no other
    entry shares; nothing else changed at the levels down to [l]. *)
Record ensured m lv base (l : nat) i m' lv' t : Prop := Build_ensured {
  en_evolves : evolves m lv m' lv' 513;
  en_counters : counters_ok m' lv';
  en_child : child m' base i = Some t;
  en_level : lv' !! t = Some (Datatypes.S l);
  en_single : reference m' t = 1;
  en_refs : ∀ f k, lv !! f = Some k → (k ≤ l)%nat → reference m' f = reference m f;
  en_other : ∀ t' k j, lv !! t' = Some k → (k ≤ l)%nat → 0 ≤ j → ¬ (t' = base ∧ j = i) → child m' t' j = child m t' j;
}.

Lemma counter_of_set m t n t' : counter_of (set_counter m t n) t' = if decide (t' = t) then n else counter_of m t'.
Proof.
  unfold counter_of, set_counter. simpl. destruct (decide (t' = t)) as [->|]; [by rewrite lookup_insert_eq|by rewrite lookup_insert_ne].
Qed.

Lemma write_some m lv m0 t l i e :
  pages_ok m lv → lv !! t = Some l → (l < 4)%nat → 0 ≤ i < 512 → tables m0 = tables m → ∃ m', write m0 t i e = Some m'.
Proof.
  intros Hok Ht Hl Hi E. destruct (pk_table _ _ Hok t l Ht Hl) as (tbl & Htbl & Hlen).
  unfold write. rewrite E, Htbl. cbn [mbind option_bind]. rewrite decide_True by lia. eauto.
Qed.

Lemma fresh_table_orphan m lv p m1 l :
  pages_ok m lv → new_page_table m = Some (p, m1) → (1 ≤ l ≤ 3)%nat → orphan m1 (<[p := l]> lv) p.
Proof.
  intros Hok Hn Hl. destruct (new_table_evolves m lv p m1 l Hok Hn Hl) as (Hp & Hev & _ & _ & Hr0 & Hr & _).
  destruct (pk_frame _ _ (ev_ok _ _ _ _ _ Hev) p l (lookup_insert_eq _ _ _)) as (_ & _ & Hk). rewrite (ev_known _ _ _ _ _ Hev) in Hk.
  intros x j Hx Hj Hc. pose proof (child_range m1 _ x j p (ev_ok _ _ _ _ _ Hev) Hx Hj Hc) as Hj'.
  apply is_table_insert in Hx as [->|Hx].
  - unfold child in Hc. by rewrite Hr0 in Hc by lia.
  - apply (fresh_no_parent m lv p x j Hok Hp Hk Hx Hj). unfold child in *. rewrite <-Hr; [done|].
    intros ->. destruct Hx as (k & Hk' & _). congruence.
Qed.

Lemma ldiff_flags flags x :
  0 ≤ flags < 128 → Z.odd flags = true → Z.odd x = false → 0 ≤ Z.ldiff flags x < 128 ∧ Z.odd (Z.ldiff flags x) = true.
Proof.
  intros Hf Ho Hx. split; [|by rewrite <-Z.bit0_odd, Z.ldiff_spec, !Z.bit0_odd, Ho, Hx].
  assert (0 ≤ Z.ldiff flags x) as H0 by (apply Z.ldiff_nonneg; lia). split; [done|].
  assert (Z.ldiff flags x ≤ flags); [|lia]. apply Z.ldiff_le; [lia|]. apply Z.bits_inj'. intros n Hn.
  rewrite !Z.ldiff_spec, Z.bits_0. by destruct (Z.testbit flags n), (Z.testbit x n).
Qed.

Lemma lor_flags f g : 0 ≤ f < 128 → 0 ≤ g < 128 → 0 ≤ Z.lor f g < 128.
Proof.
  intros Hf Hg. split; [apply Z.lor_nonneg; lia|]. change 128 with (2 ^ 7) in *.
  destruct (decide (Z.lor f g = 0)) as [->|Hn]; [done|]. apply Z.log2_lt_pow2.
  - assert (0 ≤ Z.lor f g) by (apply Z.lor_nonneg; lia). lia.
  - rewrite Z.log2_lor by lia. apply Z.max_lub_lt.
    + destruct (decide (f = 0)) as [->|]; [done|]. apply Z.log2_lt_pow2; lia.
    + destruct (decide (g = 0)) as [->|]; [done|]. apply Z.log2_lt_pow2; lia.
Qed.

(** [share_page_entry] past its early returns. *)
Definition copy_table m base i e flags : option (pmem S) :=
  let next := get_addr e in
  let old_counter := counter_of m next in
  if negb (counter_matches m next) then None
  else
    '(p, m) ← new_page_table m;
    '(new_counter, m) ← share_loop 512 m next p 0 (Z.ldiff flags PageFlags.writable) 0 old_counter;
    if negb (new_counter =? old_counter) then None
    else
      m ← delete_page_table m next;
      let m := set_counter m p new_counter in
      write m base i (set_flags (set_addr e p) flags).

(** The tables after the copy loop: [p] holds the entries of [next]. *)
Record copied m lv next (l : nat) p m2 : Prop := Build_copied {
  cp_fresh : lv !! p = None;
  cp_evolves : evolves m lv m2 (<[p := l]> lv) 513;
  cp_orphan : orphan m2 (<[p := l]> lv) p;
  cp_counters : ∀ t, t ≠ p → counter_of m2 t = counter_of m t;
  cp_other : ∀ t j, 0 ≤ j → t ≠ p → child m2 t j = child m t j;
  cp_child : ∀ j, 0 ≤ j < 512 → child m2 p j = child m next j;
  cp_single : reference m2 p = 1;
  cp_refs : ∀ f k, lv !! f = Some k → (k ≤ l)%nat → reference m2 f = reference m f;
}.

Lemma table_copy_loop_spec m lv next l p m1 flags :
  pages_ok m lv → counters_ok m lv → lv !! next = Some l → (1 ≤ l ≤ 3)%nat → 0 ≤ flags < 128 → Z.odd flags = true →
  (∀ f, reference m f + 600 < 2 ^ 32 - 1) → new_page_table m = Some (p, m1) →
  let result := share_loop 512 m1 next p 0 flags 0 (counter_of m next) in
  (∃ m2, result = Some (counter_of m next, m2) ∧ copied m lv next l p m2) ∨ result = None ∧ stuck m lv.
Proof.
  intros Hok Hco Hn Hl Hf Hodd Hsmall Hnew result. pose proof (fresh_table_orphan m lv p m1 l Hok Hnew Hl) as Horph.
  destruct (new_table_evolves m lv p m1 l Hok Hnew Hl) as (Hp & Hev1 & Hrp & _ & Hr0 & Hr1 & Hrf1 & Hc1).
  set (lv1 := <[p := l]> lv) in *. assert (lv1 !! p = Some l) as Hp1 by apply lookup_insert_eq.
  assert (∀ f k, lv !! f = Some k → f ≠ p) as Hnp by (intros f k Hk ->; congruence).
  assert (∀ t j, t ≠ p → child m1 t j = child m t j) as Hch1 by (intros t j Ht; unfold child; by rewrite Hr1).
  assert (counter_of m next = 0 + kids 512 m1 next 0) as Hoc.
  { rewrite (Hco next l) by (done || lia). rewrite Z.add_0_l. symmetry. apply kids_ext. intros j Hj. by rewrite Hch1 by eauto. }
  destruct (share_loop_spec 512 m1 lv1 next p l 0 flags 0 (counter_of m next)
              (ev_ok _ _ _ _ _ Hev1) Horph (ev_levels _ _ _ _ _ Hev1 _ _ Hn) Hp1 ltac:(lia) ltac:(eauto) ltac:(lia) eq_refl
              ltac:(intros; apply Hr0; lia) Hf Hodd)
    as [(m2 & Hl2 & Hev2 & Horph2 & Ec2 & Hch2 & Hcp2 & Hrf2)|(Hl2 & Hk3 & j & f & Hj & Hcj & Hfu)]; [|done| |].
  { intros f. pose proof (ev_refs _ _ _ _ _ Hev1 f). specialize (Hsmall f). lia. }
  2:{ right. split; [done|]. exists m1, lv1, 1. split; [done|]. right. exists next, j, f.
      split; [rewrite <-Hk3; by apply Hev1|done]. }
  left. exists m2. split; [done|]. constructor; try done.
  - replace 513 with (1 + Z.of_nat 512) by lia. by eapply evolves_trans.
  - intros t Ht. unfold counter_of. rewrite Ec2. by apply Hc1.
  - intros t j Hj Ht. by rewrite Hch2, Hch1.
  - intros j Hj. rewrite Hcp2, decide_True by lia. apply Hch1. eauto.
  - by rewrite (Hrf2 p l).
  - intros f k Hfk Hk. rewrite (Hrf2 f k) by (done || by apply Hev1). apply Hrf1. eauto.
Qed.

Lemma copy_finish m lv base l i e flags p m2 :
  pages_ok m lv → counters_ok m lv → lv !! base = Some l → (l < 3)%nat → 0 ≤ i < 512 → read m base i = Some e →
  is_present e = true → 0 ≤ flags < 128 → Z.odd flags = true → reference m (get_addr e) ≠ 1 →
  copied m lv (get_addr e) (Datatypes.S l) p m2 →
  ∃ m3, (m ← delete_page_table m2 (get_addr e);
         write (set_counter m p (counter_of m2 (get_addr e))) base i (set_flags (set_addr e p) flags)) = Some m3 ∧
    ensured m lv base l i m3 (<[p := Datatypes.S l]> lv) p.
Proof.
  intros Hok Hco Hb Hl Hi He Hpr Hf Hodd Hone [Hp Hev Horph Hcnt Hch Hcp Hsingle Hrefs]. set (next := get_addr e) in *.
  set (lv1 := <[p := Datatypes.S l]> lv) in *. assert (lv1 !! p = Some (Datatypes.S l)) as Hp1 by apply lookup_insert_eq.
  assert (child m base i = Some next) as Hc by (unfold child; rewrite He; simpl; by rewrite Hpr).
  assert (lv !! next = Some (Datatypes.S l)) as Hn by (apply (child_table m lv base l i); (done || lia)).
  destruct (pk_entry _ _ Hok base l i e Hb ltac:(lia) ltac:(lia) He) as [Her _].
  destruct (pk_frame _ _ Hok next _ Hn) as (_ & Hnpos & _).
  destruct (pk_frame _ _ (ev_ok _ _ _ _ _ Hev) p _ Hp1) as (Hpf & _).
  assert (∀ f k, lv !! f = Some k → f ≠ p) as Hnp by (intros f k Hk ->; congruence).
  pose proof (Hrefs next _ Hn ltac:(lia)) as Hrn.
  destruct (fs_deallocate_spec (store m2) next) as (s & Hd & _); [apply Hev|unfold reference in *; lia|].
  unfold delete_page_table. rewrite Hd. cbn [mbind option_bind fmap option_map option_fmap].
  set (m2' := set_counter m2 p (counter_of m2 next)).
  destruct (make_entry e p flags Her Hpf ltac:(lia)) as (He1 & _ & He3 & He4).
  destruct (write_some m2 lv1 (set_store m2' s) base l i (set_flags (set_addr e p) flags)) as [m3 Hm3];
    [apply Hev|by apply Hev|lia|done|done|].
  pose proof (set_counter_evolves m2 lv1 p (counter_of m2 next) (ev_ok _ _ _ _ _ Hev)) as Hev'. fold m2' in Hev'.
  destruct (redirect_evolves m2' lv1 base l i next p (set_flags (set_addr e p) flags) s m3) as (Hev3 & Ec3 & Hch3 & Hrf3); try done.
  { apply Hev'. } { by apply Hev. } { change (child m2 base i = Some next). rewrite Hch; [done|lia|eauto]. }
  { change (2 ≤ reference m2 next). lia. } { eauto. }
  { intros j Hj. change (child m2 p j = child m2 next j). rewrite Hcp by done. symmetry. apply Hch; [lia|eauto]. }
  { by rewrite He4. } { by apply make_entry_not_big. }
  exists m3. split; [exact Hm3|]. constructor; try done.
  - replace 513 with (513 + (0 + 0)) by lia. repeat (eapply evolves_trans; [eassumption|]). done.
  - intros t k Ht Hk. unfold counter_of. rewrite Ec3. fold (counter_of m2' t). unfold m2'. rewrite counter_of_set.
    destruct (decide (t = p)) as [->|Htp].
    + rewrite Hcnt, (Hco next (Datatypes.S l)) by (done || eauto || lia). symmetry. apply kids_ext. intros j Hj.
      rewrite Hch3, decide_False by (lia || intros [-> _]; by apply (Hnp base l)). change (child m2' p j) with (child m2 p j).
      by rewrite Hcp by lia.
    + unfold lv1 in Ht. rewrite lookup_insert_ne in Ht by done. rewrite Hcnt, (Hco t k) by done. symmetry. apply kids_ext.
      intros j Hj. rewrite Hch3 by lia. destruct (decide _) as [[-> ->]|_]; [by rewrite Hc|].
      change (child m2' t j) with (child m2 t j). by rewrite Hch by (done || lia).
  - rewrite Hch3, decide_True by (done || lia). done.
  - rewrite Hrf3 by (intros ->; congruence). done.
  - intros f k Hfk Hk. rewrite Hrf3; [|intros ->; rewrite Hn in Hfk; injection Hfk; lia].
    change (reference m2' f) with (reference m2 f). apply (Hrefs f k Hfk). lia.
  - intros t k j Ht Hk Hj Hn'. rewrite Hch3, decide_False by done. change (child m2' t j) with (child m2 t j).
    apply Hch; [done|eauto].
Qed.

Lemma copy_table_spec m lv base l i e flags :
  pages_ok m lv → counters_ok m lv → lv !! base = Some l → (l < 3)%nat → 0 ≤ i < 512 → read m base i = Some e →
  is_present e = true → 0 ≤ flags < 128 → Z.odd flags = true → (∀ f, reference m f + 600 < 2 ^ 32 - 1) →
  reference m (get_addr e) ≠ 1 →
  (∃ m' lv' p, copy_table m base i e flags = Some m' ∧ ensured m lv base l i m' lv' p) ∨
  copy_table m base i e flags = None ∧ stuck m lv.
Proof.
  intros Hok Hco Hb Hl Hi He Hpr Hf Hodd Hsmall Hone.
  assert (child m base i = Some (get_addr e)) as Hc by (unfold child; rewrite He; simpl; by rewrite Hpr).
  assert (lv !! get_addr e = Some (Datatypes.S l)) as Hn by (apply (child_table m lv base l i); (done || lia)).
  unfold copy_table. rewrite (counters_match m lv _ (Datatypes.S l)) by (done || lia).
  destruct (ldiff_flags flags PageFlags.writable Hf Hodd eq_refl) as [Hro Hro1].
  pose proof (λ p m1, table_copy_loop_spec m lv (get_addr e) (Datatypes.S l) p m1 _ Hok Hco Hn ltac:(lia) Hro Hro1 Hsmall) as Hcopy.
  cbv zeta in *. revert Hcopy. generalize (share_loop (S := S) 512) as loop. intros loop Hcopy.
  cbn [negb]. destruct (new_page_table m) as [[p m1]|] eqn:Enew; cbn [mbind option_bind].
  2:{ right. split; [done|]. exists m, lv, 0. split; [by apply evolves_refl|]. left. unfold new_page_table in Enew.
      by destruct (fs_allocate (store m)) as [[? ?]|]. }
  destruct (Hcopy p m1 eq_refl) as [(m2 & Hl2 & Hcp)|[Hl2 Hst]]; rewrite Hl2; cbn [mbind option_bind]; [|by right].
  rewrite Z.eqb_refl. cbn [negb]. left.
  destruct (copy_finish m lv base l i e flags p m2 Hok Hco Hb Hl Hi He Hpr Hf Hodd Hone Hcp) as (m3 & Hm3 & Hen).
  exists m3, (<[p := Datatypes.S l]> lv), p. split; [|done]. rewrite <-Hm3.
  rewrite (cp_counters _ _ _ _ _ _ Hcp); [done|].
  intros Heq. rewrite Heq, (cp_fresh _ _ _ _ _ _ Hcp) in Hn. discriminate Hn.
Qed.

(** The flags and actions under which [share_page_entry] splits a table. *)
Definition splits (flags actions : Z) : Prop :=
  (Z.ldiff flags PageFlags.writable =? flags) && negb (has_flag actions Action.copy_all) = false.

Lemma share_page_entry_copy m base i e flags actions :
  splits flags actions → read m base i = Some e →
  share_page_entry m base i flags actions =
    (if fs_reference (store m) (get_addr e) =? 1 then write m base i (set_flags e flags) else copy_table m base i e flags).
Proof. intros Hs He. unfold share_page_entry. rewrite Hs, He. reflexivity. Qed.

Lemma share_page_entry_spec m lv base l i e flags actions :
  pages_ok m lv → counters_ok m lv → lv !! base = Some l → (l < 3)%nat → 0 ≤ i < 512 → read m base i = Some e →
  is_present e = true → 0 ≤ flags < 128 → Z.odd flags = true → (∀ f, reference m f + 600 < 2 ^ 32 - 1) →
  splits flags actions →
  (∃ m' lv' t, share_page_entry m base i flags actions = Some m' ∧ ensured m lv base l i m' lv' t) ∨
  share_page_entry m base i flags actions = None ∧ stuck m lv.
Proof.
  intros Hok Hco Hb Hl Hi He Hpr Hf Hodd Hsmall Hs. rewrite (share_page_entry_copy m base i e) by done.
  destruct (fs_reference (store m) (get_addr e) =? 1) eqn:E1; [|apply Z.eqb_neq in E1; by apply copy_table_spec].
  apply Z.eqb_eq in E1. left.
  destruct (pk_entry _ _ Hok base l i e Hb ltac:(lia) ltac:(lia) He) as [Her _].
  destruct (reflag_entry e flags Her ltac:(lia)) as (Hr1 & Hr2 & Hr3 & _).
  destruct (write_total m lv base l i (set_flags e flags) Hok Hb ltac:(lia) Hi) as [m' Hm'].
  destruct (reflag_evolves m lv base l i e (set_flags e flags) m') as [Hev Hch]; try done;
    [lia|congruence|intros _ _; by apply reflag_not_big|].
  destruct (entry_write_spec m base i _ m' ltac:(lia) Hm') as (Es & Ec & _).
  assert (child m base i = Some (get_addr e)) as Hc by (unfold child; rewrite He; simpl; by rewrite Hpr).
  exists m', lv, (get_addr e). split; [done|]. constructor.
  - eapply evolves_mono; [|done]. lia.
  - intros t k Ht Hk. unfold counter_of. rewrite Ec. rewrite (kids_ext 512 m m' t t 0); [by apply (Hco t k)|].
    intros j Hj. by rewrite Hch by lia.
  - by rewrite Hch by lia.
  - apply (child_table m lv base l i); (done || lia).
  - unfold reference. by rewrite Es.
  - intros f k _ _. unfold reference. by rewrite Es.
  - intros t k j _ _ Hj _. by apply Hch.
Qed.

(** *** Adding a table *)

Fixpoint walk m r (js : list Z) : option Z :=
  match js with
  | [] => Some r
  | j :: js => t ← child m r j; walk m t js
  end.

Lemma translate_walk m r a b c d : translate m r (a, b, c, d) = walk m r [a; b; c; d].
Proof.
  simpl. destruct (child m r a) as [t3|]; [|done]. simpl. destruct (child m t3 b) as [t2|]; [|done]. simpl.
  destruct (child m t2 c) as [t1|]; [|done]. simpl. by destruct (child m t1 d).
Qed.

Lemma walk_add_empty m m' lv base i p js x k :
  pages_ok m lv → (∀ l, lv !! base = Some l → (l < 3)%nat) →
  (∀ j, 0 ≤ j → child m' p j = None) → child m base i = None → child m' base i = Some p →
  (∀ t j, 0 ≤ j → is_table lv t → ¬ (t = base ∧ j = i) → child m' t j = child m t j) →
  lv !! x = Some k → (k + length js = 4)%nat → Forall (λ j, 0 ≤ j) js → walk m' x js = walk m x js.
Proof.
  intros Hok Hl Hp0 H0 H1 Ho. revert x k. induction js as [|j js IH]; intros x k Hx Hk Hjs; [done|].
  apply Forall_cons in Hjs as [Hj Hjs]. simpl in Hk |- *. destruct (decide (x = base ∧ j = i)) as [[-> ->]|Hn].
  - rewrite H0, H1. cbn [mbind option_bind]. specialize (Hl k Hx). destruct js as [|j js]; [simpl in Hk; lia|].
    apply Forall_cons in Hjs as [Hj' _]. simpl. by rewrite Hp0.
  - rewrite Ho by first [done|exists k; split; [done|lia]]. destruct (child m x j) as [t|] eqn:E; [|done]. cbn [mbind option_bind].
    destruct (child_level m lv x k j t Hok Hx) as [Ht|[-> _]]; [lia|done|done|apply (IH t (Datatypes.S k)); [done|lia|done]|].
    destruct js; [done|simpl in Hk; lia].
Qed.

Lemma kids_none n m t i : (∀ j, i ≤ j < i + Z.of_nat n → child m t j = None) → kids n m t i = 0.
Proof.
  revert i. induction n as [|n IH]; intros i Hn; simpl; [done|]. rewrite Hn by lia. rewrite IH; [done|].
  intros j Hj. apply Hn. lia.
Qed.

Lemma add_table_spec m lv base l i e flags p m1 :
  pages_ok m lv → counters_ok m lv → lv !! base = Some l → (l < 3)%nat → 0 ≤ i < 512 → read m base i = Some e →
  is_present e = false → 0 ≤ flags < 128 → Z.odd flags = true → new_page_table m = Some (p, m1) →
  ∃ m', write (add_page_table_counter m1 base) base i (set_flags (set_addr e p) flags) = Some m' ∧
    ensured m lv base l i m' (<[p := Datatypes.S l]> lv) p.
Proof.
  intros Hok Hco Hb Hl Hi He Hpr Hf Hodd Hnew.
  pose proof (fresh_table_orphan m lv p m1 (Datatypes.S l) Hok Hnew ltac:(lia)) as Horph.
  destruct (new_table_evolves m lv p m1 (Datatypes.S l) Hok Hnew ltac:(lia)) as (Hp & Hev & Hrp & Hcp & Hr0 & Hr1 & Hrf & Hc1).
  set (lv1 := <[p := Datatypes.S l]> lv) in *. assert (lv1 !! p = Some (Datatypes.S l)) as Hp1 by apply lookup_insert_eq.
  assert (∀ f k, lv !! f = Some k → f ≠ p) as Hnp by (intros f k Hk ->; congruence).
  destruct (pk_frame _ _ (ev_ok _ _ _ _ _ Hev) p _ Hp1) as (Hpf & _).
  destruct (pk_entry _ _ Hok base l i e Hb ltac:(lia) ltac:(lia) He) as [Her _].
  destruct (make_entry e p flags Her Hpf ltac:(lia)) as (He1 & _ & He3 & He4).
  set (m1' := add_page_table_counter m1 base). set (e' := set_flags (set_addr e p) flags) in *.
  pose proof (ev_ok _ _ _ _ _ (set_counter_evolves m1 lv1 base (u16 (counter_of m1 base + 1)) (ev_ok _ _ _ _ _ Hev))) as Hok1.
  change (pages_ok m1' lv1) in Hok1. assert (lv1 !! base = Some l) as Hb1 by (by apply Hev).
  destruct (write_total m1' lv1 base l i e' Hok1 Hb1 ltac:(lia) Hi) as [m' Hm'].
  destruct (add_slot_ok m1' lv1 base l i e p e' (store m1') m') as (Hok' & Es & Ec & Eo & Hch & Hrd); try done.
  { lia. } { change (read m1 base i = Some e). rewrite Hr1; [done|eauto]. } { by rewrite He4. }
  { intros _. by apply make_entry_not_big. } { apply Hok1. }
  { intros [|x ls] _ Hls; [change (0 + 1 ≤ reference m1 p); lia|]. apply Forall_cons in Hls as [(H1 & H2 & H3) _].
    by apply Horph in H3; [|done|lia]. }
  assert (∀ t j, 0 ≤ j → t ≠ p → child m' t j = if decide (t = base ∧ j = i) then Some p else child m t j) as Hch'.
  { intros t j Hj Ht. rewrite Hch by done. destruct (decide _); [done|]. unfold child. change (read m1' t j) with (read m1 t j).
    by rewrite Hr1. }
  assert (∀ j, 0 ≤ j → child m' p j = None) as Hp0.
  { intros j Hj. rewrite Hch, decide_False by (done || intros [-> _]; by apply (Hnp base l)).
    destruct (child m1' p j) as [f|] eqn:E; [|done]. change (child m1 p j = Some f) in E.
    pose proof (child_range m1 lv1 p j f (ev_ok _ _ _ _ _ Hev) ltac:(exists (Datatypes.S l); split; [done|lia]) Hj E).
    unfold child in E. by rewrite Hr0 in E by lia. }
  assert (child m base i = None) as Hc0 by (unfold child; rewrite He; simpl; by rewrite Hpr).
  assert (child m' base i = Some p) as Hc1' by (rewrite Hch'; [by rewrite decide_True|lia|eauto]).
  exists m'. split; [done|]. constructor; try done.
  - constructor; [done|apply Hev|apply Hev| | | |].
    + intros r [[[a b] c] d] Hr (Ha & Hb' & Hc & Hd). rewrite !translate_walk.
      eapply walk_add_empty; [done|by intros ?; rewrite Hb; intros [= <-]|done|done|done| |done|done|].
      * intros t j Hj (k & Ht & _) Hn. rewrite Hch' by eauto. by rewrite decide_False.
      * repeat (apply Forall_cons_2; [lia|]). apply Forall_nil_2.
    + intros f. unfold reference. rewrite Es. pose proof (ev_refs _ _ _ _ _ Hev f) as Hle. unfold reference in Hle.
      change (store m1') with (store m1). lia.
    + rewrite Eo. apply Hev.
    + intros f. rewrite Es. apply Hev.
  - intros t k Ht Hk. unfold counter_of. rewrite Ec. fold (counter_of m1' t). unfold m1', add_page_table_counter.
    rewrite counter_of_set. destruct (decide (t = base)) as [->|Htb].
    + rewrite Hc1 by eauto. rewrite (Hco base l) by (done || lia).
      rewrite (kids_add 512 m m' base 0 i) by first [done|lia|by eauto|intros j Hj Hn; rewrite Hch' by eauto; by rewrite decide_False by tauto].
      pose proof (kids_bound 512 m base 0). pose proof (kids_nonneg 512 m base 0). apply u16_small. lia.
    + destruct (decide (t = p)) as [->|Htp]; [rewrite Hcp; symmetry; apply kids_none; intros; by apply Hp0; lia|].
      unfold lv1 in Ht. rewrite lookup_insert_ne in Ht by done. rewrite Hc1, (Hco t k) by done. symmetry. apply kids_ext.
      intros j Hj. rewrite Hch' by (done || lia). by rewrite decide_False by tauto.
  - unfold reference. by rewrite Es.
  - intros f k Hfk Hk. unfold reference. rewrite Es. apply Hrf. eauto.
  - intros t k j Ht Hk Hj Hn. rewrite Hch' by eauto. by rewrite decide_False.
Qed.

Lemma splits_spec flags actions :
  splits flags actions ↔ Z.testbit flags 1 = true ∨ has_flag actions Action.copy_all = true.
Proof.
  assert ((Z.ldiff flags PageFlags.writable =? flags) = negb (Z.testbit flags 1)) as Hw.
  { destruct (Z.testbit flags 1) eqn:E; simpl; [apply Z.eqb_neq|apply Z.eqb_eq].
    - intros Heq. apply (f_equal (λ x, Z.testbit x 1)) in Heq. by rewrite Z.ldiff_spec, E in Heq.
    - apply Z.bits_inj'. intros n Hn. rewrite Z.ldiff_spec. change PageFlags.writable with (2 ^ 1).
      destruct (decide (n = 1)) as [->|Hne]; [by rewrite E|]. rewrite Z.pow2_bits_false by lia. apply andb_true_r. }
  unfold splits. rewrite Hw, andb_false_iff, !negb_false_iff. done.
Qed.

Lemma entry_flags_small e : is_big_page e = false → 0 ≤ entry_flags e < 128.
Proof.
  unfold is_big_page, PageFlags.big_page. change 128 with (2 ^ 7) at 1. rewrite has_flag_bit by lia. intros Hb.
  pose proof (entry_flags_range e) as Hr. assert (Z.testbit (entry_flags e) 7 = false) as Hb'.
  { unfold entry_flags. by rewrite Z.land_spec, Hb. }
  rewrite Z.testbit_odd, Z.shiftr_div_pow2 in Hb' by lia. change (2 ^ 7) with 128 in Hb'.
  assert (entry_flags e / 128 < 2) by (apply Z.div_lt_upper_bound; lia).
  assert (0 ≤ entry_flags e / 128) by (apply Z.div_pos; lia).
  pose proof (Z.div_mod (entry_flags e) 128 ltac:(lia)). pose proof (Z.mod_pos_bound (entry_flags e) 128 ltac:(lia)).
  destruct (decide (entry_flags e / 128 = 1)) as [He1|]; [by rewrite He1 in Hb'|lia].
Qed.

(** The flags [ensure_single] gives a present entry. *)
Lemma ensure_flags_ok e flags actions (b : bool) :
  is_big_page e = false → 0 ≤ flags < 128 → Z.odd flags = true → splits flags actions →
  let flags' := Z.ldiff (if b then Z.lor flags (entry_flags e) else flags) (Z.lor PageFlags.accessed PageFlags.dirty) in
  0 ≤ flags' < 128 ∧ Z.odd flags' = true ∧ splits flags' actions.
Proof.
  intros Hb Hf Ho Hs flags'. set (g := if b then Z.lor flags (entry_flags e) else flags) in *.
  assert (0 ≤ g < 128 ∧ Z.odd g = true) as [Hg Hgo].
  { unfold g. destruct b; [|done]. split; [by apply lor_flags; [|apply entry_flags_small]|].
    by rewrite <-Z.bit0_odd, Z.lor_spec, Z.bit0_odd, Ho. }
  destruct (ldiff_flags g (Z.lor PageFlags.accessed PageFlags.dirty) Hg Hgo eq_refl) as [H1 H2]. split; [done|]. split; [done|].
  rewrite splits_spec in Hs |- *. destruct Hs as [Hs|Hs]; [left|by right]. unfold flags'. rewrite Z.ldiff_spec.
  apply andb_true_iff. split; [|done]. unfold g. destruct b; [|done]. by rewrite Z.lor_spec, Hs.
Qed.

Lemma ensure_single_spec m lv base l i flags actions :
  pages_ok m lv → counters_ok m lv → lv !! base = Some l → (l < 3)%nat → 0 ≤ i < 512 →
  0 ≤ flags < 128 → Z.odd flags = true → (∀ f, reference m f + 600 < 2 ^ 32 - 1) → (splits flags actions) →
  (∃ m' lv' t, ensure_single m base i flags actions = Some m' ∧ ensured m lv base l i m' lv' t) ∨
  ensure_single m base i flags actions = None ∧ stuck m lv.
Proof.
  intros Hok Hco Hb Hl Hi Hf Hodd Hsmall Hs.
  destruct (read_table m lv base l i Hok Hb ltac:(lia) Hi) as [e He]. unfold ensure_single. rewrite He. cbn [mbind option_bind].
  destruct (is_present e) eqn:Hpr.
  - destruct (pk_entry _ _ Hok base l i e Hb ltac:(lia) ltac:(lia) He) as [_ Hbig]. destruct (Hbig Hpr) as [_ Hnb].
    edestruct (ensure_flags_ok e flags actions) as (H1 & H2 & H3); [apply Hnb; lia|done|done|done|].
    by apply (share_page_entry_spec m lv base l i e).
  - destruct (new_page_table m) as [[p m1]|] eqn:Enew; cbn [mbind option_bind].
    2:{ right. split; [done|]. exists m, lv, 0. split; [by apply evolves_refl|]. left. unfold new_page_table in Enew.
        by destruct (fs_allocate (store m)) as [[? ?]|]. }
    destruct (add_table_spec m lv base l i e flags p m1) as (m' & Hm' & Hen); try done.
    rewrite Hm'. cbn [mbind option_bind]. rewrite (counters_match m' _ base l (ev_ok _ _ _ _ _ (en_evolves _ _ _ _ _ _ _ _ Hen))
      (en_counters _ _ _ _ _ _ _ _ Hen)) by (by apply Hen || lia). left. by exists m', (<[p := Datatypes.S l]> lv), p.
Qed.

End sharing.
