(* ===== verification/PageMapping.v ===== *)
(** Mapping and unmapping pages of address spaces that share tables: an
    operation on one address space changes what that space maps the given pages
    to, and nothing else. *)
From stdpp Require Import base list numbers gmap.
From S2P Require Import Prelude VmAllocator Zones Paging PageFacts PageSharing.

Set Default Proof Using "Type".
Local Open Scope Z_scope.

#[local] Opaque empty_table share_loop.

Section mapping.
Context {S : Type} `{FSL : FrameStoreLaws S}.
Implicit Types (m : pmem S) (t f r i e : Z) (lv : gmap Z nat) (ix : indices).

(** ** Exclusive tables *)

(** The tables on the way to page table [t1] of [r], none of them shared. *)
Record chain m lv r (a b c t3 t2 t1 : Z) : Prop := Build_chain {
  ch_child3 : child m r a = Some t3;
  ch_child2 : child m t3 b = Some t2;
  ch_child1 : child m t2 c = Some t1;
  ch_single3 : reference m t3 = 1;
  ch_single2 : reference m t2 = 1;
  ch_single1 : reference m t1 = 1;
  ch_level3 : lv !! t3 = Some 1%nat;
  ch_level2 : lv !! t2 = Some 2%nat;
  ch_level1 : lv !! t1 = Some 3%nat;
}.

Lemma next_table_child m t i f : child m t i = Some f → next_table m t i = Some f.
Proof. unfold child, next_table. destruct (read m t i) as [e|]; [|done]. simpl. destruct (is_present e); [|done]. by intros [= ->]. Qed.

Lemma chain_walk m lv r a b c t3 t2 t1 : chain m lv r a b c t3 t2 t1 → walk3 m r a b c = Some t1.
Proof.
  intros Hc. unfold walk3. rewrite (next_table_child m r a t3) by apply Hc. cbn [mbind option_bind].
  rewrite (next_table_child m t3 b t2) by apply Hc. cbn [mbind option_bind]. by apply next_table_child, Hc.
Qed.

(** A frame with one reference has one parent. *)
Lemma single_parent m lv f l t i t' i' :
  pages_ok m lv → lv !! f = Some (Datatypes.S l) → reference m f = 1 → is_table lv t → is_table lv t' →
  0 ≤ i < 512 → 0 ≤ i' < 512 → child m t i = Some f → child m t' i' = Some f → t' = t ∧ i' = i.
Proof.
  intros Hok Hf Hr Ht Ht' Hi Hi' Hc Hc'. destruct (decide ((t', i') = (t, i))) as [[= -> ->]|Hn]; [done|]. exfalso.
  pose proof (pk_refs _ _ Hok f l Hf [(t', i'); (t, i)]) as Hb.
  assert (Z.of_nat (length [(t', i'); (t, i)]) ≤ reference m f); [|simpl in *; lia]. apply Hb.
  - constructor; [by rewrite list_elem_of_singleton|]. apply NoDup_singleton.
  - repeat apply Forall_cons_2; [by split|by split|apply Forall_nil_2].
Qed.

Lemma chain_unique m lv r a b c t3 t2 t1 r' a' b' c' :
  pages_ok m lv → chain m lv r a b c t3 t2 t1 → lv !! r = Some 0%nat → lv !! r' = Some 0%nat →
  0 ≤ a < 512 → 0 ≤ b < 512 → 0 ≤ c < 512 → 0 ≤ a' < 512 → 0 ≤ b' < 512 → 0 ≤ c' < 512 →
  walk m r' [a'; b'; c'] = Some t1 → r' = r ∧ a' = a ∧ b' = b ∧ c' = c.
Proof.
  intros Hok [C3 C2 C1 S3 S2 S1 L3 L2 L1] Hr Hr' Ha Hb Hc Ha' Hb' Hc'. cbn [walk].
  destruct (child m r' a') as [x3|] eqn:E3; [|done]. cbn [mbind option_bind].
  destruct (child m x3 b') as [x2|] eqn:E2; [|done]. cbn [mbind option_bind].
  destruct (child m x2 c') as [x1|] eqn:E1; [|done]. cbn [mbind option_bind]. intros [= ->].
  assert (lv !! x3 = Some 1%nat) as X3 by (apply (child_table m lv r' 0 a'); (done || lia)).
  assert (lv !! x2 = Some 2%nat) as X2 by (apply (child_table m lv x3 1 b'); (done || lia)).
  assert (∀ t k, lv !! t = Some k → (k < 4)%nat → is_table lv t) as Htab by (intros t k; by exists k).
  destruct (single_parent m lv t1 2 t2 c x2 c') as [-> ->]; try done; [eapply Htab; [done|lia]|eapply Htab; [done|lia]|].
  destruct (single_parent m lv t2 1 t3 b x3 b') as [-> ->]; try done; [eapply Htab; [done|lia]|eapply Htab; [done|lia]|].
  destruct (single_parent m lv t3 0 r a r' a') as [-> ->]; try done; [eapply Htab; [done|lia]|eapply Htab; [done|lia]].
Qed.

(** A change of entry [d] of an exclusive page table is seen by one page only. *)
Lemma chain_write m m' lv r a b c d t3 t2 t1 :
  pages_ok m lv → chain m lv r a b c t3 t2 t1 → lv !! r = Some 0%nat → index_ok (a, b, c, d) →
  (∀ t j, 0 ≤ j → ¬ (t = t1 ∧ j = d) → child m' t j = child m t j) →
  translate m' r (a, b, c, d) = child m' t1 d ∧
  ∀ r' ix, lv !! r' = Some 0%nat → index_ok ix → ¬ (r' = r ∧ ix = (a, b, c, d)) → translate m' r' ix = translate m r' ix.
Proof.
  intros Hok Hch Hr (Ha & Hb & Hc & Hd) Ho. pose proof Hch as [C3 C2 C1 S3 S2 S1 L3 L2 L1].
  assert (∀ t j k, lv !! t = Some k → (k < 3)%nat → 0 ≤ j → child m' t j = child m t j) as Hup.
  { intros t j k Ht Hk Hj. apply Ho; [done|]. intros [-> _]. rewrite L1 in Ht. injection Ht. lia. }
  split.
  - unfold translate. rewrite (Hup r a 0%nat) by (done || lia). rewrite C3. cbn [mbind option_bind].
    rewrite (Hup t3 b 1%nat) by (done || lia). rewrite C2. cbn [mbind option_bind].
    rewrite (Hup t2 c 2%nat) by (done || lia). by rewrite C1.
  - intros r' [[[a' b'] c'] d'] Hr' (Ha' & Hb' & Hc' & Hd') Hne. unfold translate.
    rewrite (Hup r' a' 0%nat) by (done || lia). destruct (child m r' a') as [x3|] eqn:E3; [|done]. cbn [mbind option_bind].
    assert (lv !! x3 = Some 1%nat) as X3 by (apply (child_table m lv r' 0 a'); (done || lia)).
    rewrite (Hup x3 b' 1%nat) by (done || lia). destruct (child m x3 b') as [x2|] eqn:E2; [|done]. cbn [mbind option_bind].
    assert (lv !! x2 = Some 2%nat) as X2 by (apply (child_table m lv x3 1 b'); (done || lia)).
    rewrite (Hup x2 c' 2%nat) by (done || lia). destruct (child m x2 c') as [x1|] eqn:E1; [|done]. cbn [mbind option_bind].
    apply Ho; [lia|]. intros [-> ->]. apply Hne.
    destruct (chain_unique m lv r a b c t3 t2 t1 r' a' b' c') as (-> & -> & -> & ->); try done.
    cbn [walk]. rewrite E3. cbn [mbind option_bind]. rewrite E2. cbn [mbind option_bind]. by rewrite E1.
Qed.

(** ** Building the tables of a page *)

Lemma ensure3_spec m lv r a b c flags actions :
  pages_ok m lv → counters_ok m lv → lv !! r = Some 0%nat → 0 ≤ a < 512 → 0 ≤ b < 512 → 0 ≤ c < 512 →
  0 ≤ flags < 128 → Z.odd flags = true → (∀ f, reference m f + 1700 < 2 ^ 32 - 1) → splits flags actions →
  (∃ m' lv' t3 t2 t1, ensure3 m r a b c flags actions = Some m' ∧ evolves m lv m' lv' 1539 ∧ counters_ok m' lv' ∧
     chain m' lv' r a b c t3 t2 t1) ∨
  ensure3 m r a b c flags actions = None ∧ stuck m lv.
Proof.
  intros Hok Hco Hr Ha Hb Hc Hf Hodd Hsmall Hs. unfold ensure3, ensure2, ensure1.
  destruct (ensure_single_spec m lv r 0 a flags actions) as [(m1 & lv1 & t3 & -> & [Ev1 Co1 C3 L3 S3 R1 O1])|[-> Hst]];
    try done; [lia|intros f; specialize (Hsmall f); lia| |by right].
  cbn [mbind option_bind]. rewrite (next_table_child m1 r a t3 C3). cbn [mbind option_bind].
  destruct (ensure_single_spec m1 lv1 t3 1 b flags actions) as [(m2 & lv2 & t2 & -> & [Ev2 Co2 C2 L2 S2 R2 O2])|[-> Hst]];
    try done; [apply Ev1|lia|intros f; pose proof (ev_refs _ _ _ _ _ Ev1 f); specialize (Hsmall f); lia| |].
  2:{ right. split; [done|]. by eapply stuck_evolves. }
  assert (lv1 !! r = Some 0%nat) as Hr1 by (by apply Ev1).
  assert (∀ t k k', lv1 !! t = Some k → lv1 !! t3 = Some k' → k ≠ k' → t ≠ t3) as Hne by congruence.
  cbn [mbind option_bind].
  assert (child m2 r a = Some t3) as C3' by (rewrite (O2 r 0%nat a Hr1) by first [done|lia|intros [-> _]; congruence]; done).
  rewrite (next_table_child m2 r a t3 C3'). cbn [mbind option_bind]. rewrite (next_table_child m2 t3 b t2 C2). cbn [mbind option_bind].
  destruct (ensure_single_spec m2 lv2 t2 2 c flags actions) as [(m3 & lv3 & t1 & -> & [Ev3 Co3 C1 L1 S1 R3 O3])|[-> Hst]];
    try done; [apply Ev2|lia| | |].
  { intros f. pose proof (ev_refs _ _ _ _ _ Ev1 f). pose proof (ev_refs _ _ _ _ _ Ev2 f). specialize (Hsmall f). lia. }
  2:{ right. split; [done|]. eapply stuck_evolves, stuck_evolves; done. }
  left. exists m3, lv3, t3, t2, t1. split; [done|].
  assert (lv2 !! r = Some 0%nat) as Hr2 by (by apply Ev2). assert (lv2 !! t3 = Some 1%nat) as L3' by (by apply Ev2).
  split; [replace 1539 with (513 + (513 + 513)) by lia; repeat (eapply evolves_trans; [eassumption|]); done|]. split; [done|].
  constructor; try done.
  - rewrite (O3 r 0%nat a Hr2) by first [done|lia|intros [-> _]; congruence]. done.
  - rewrite (O3 t3 1%nat b L3') by first [done|lia|intros [-> _]; congruence]. done.
  - rewrite (R3 t3 1%nat), (R2 t3 1%nat) by (done || lia). done.
  - rewrite (R3 t2 2%nat) by (done || lia). done.
  - by apply Ev3.
  - by apply Ev3.
Qed.

(** ** What an operation leaves alone *)

(** [m'] agrees with [m] on every page of every address space but those in
    [P]: on the frame it is mapped to and on the contents of that frame. *)
Record keeps m lv m' lv' (n : Z) (P : Z → indices → Prop) : Prop := Build_keeps {
  kp_ok : pages_ok m' lv';
  kp_roots : ∀ r, lv' !! r = Some 0%nat ↔ lv !! r = Some 0%nat;
  kp_translate : ∀ r ix, lv !! r = Some 0%nat → index_ok ix → ¬ P r ix → translate m' r ix = translate m r ix;
  kp_contents : ∀ r ix f, lv !! r = Some 0%nat → index_ok ix → ¬ P r ix → translate m r ix = Some f →
    contents m' !! f = contents m !! f;
  kp_refs : ∀ f, reference m' f ≤ reference m f + n;
  kp_known : ∀ f, fs_known (store m') f = fs_known (store m) f;
}.

Lemma keeps_trans m1 lv1 m2 lv2 m3 lv3 n k P :
  keeps m1 lv1 m2 lv2 n P → keeps m2 lv2 m3 lv3 k P → keeps m1 lv1 m3 lv3 (n + k) P.
Proof.
  intros [A1 A3 A4 A5 A6 A7] [B1 B3 B4 B5 B6 B7]. constructor; [done| | | | |].
  - intros r. by rewrite B3, A3.
  - intros r ix Hr Hix HP. rewrite B4; [by apply A4|by apply A3|done|done].
  - intros r ix f Hr Hix HP Hf. rewrite (B5 r ix f); [by apply (A5 r ix)|by apply A3|done|done|by rewrite A4].
  - intros f. specialize (A6 f). specialize (B6 f). lia.
  - intros f. by rewrite B7.
Qed.

Lemma keeps_mono m lv m' lv' n k (P Q : Z → indices → Prop) :
  n ≤ k → (∀ r ix, P r ix → Q r ix) → keeps m lv m' lv' n P → keeps m lv m' lv' k Q.
Proof.
  intros Hn HPQ [A1 A3 A4 A5 A6 A7]. constructor; try done.
  - intros r ix Hr Hix HQ. apply A4; auto.
  - intros r ix f Hr Hix HQ. apply A5; auto.
  - intros f. etrans; [apply A6|lia].
Qed.

Lemma evolves_keeps m lv m' lv' n P : evolves m lv m' lv' n → keeps m lv m' lv' n P.
Proof.
  intros [A1 A2 A3 A4 A5 A6 A7]. constructor; try done.
  - intros r. split; [|apply A2]. intros Hr. destruct (lv !! r) as [k|] eqn:E; [|by apply A3 in E].
    rewrite (A2 r k E) in Hr. by injection Hr as ->.
  - intros r ix Hr Hix _. by apply A4.
  - intros. by rewrite A6.
Qed.

(** ** A fresh data frame *)

Lemma set_contents_ok m lv c : pages_ok m lv → pages_ok (Build_pmem (store m) (tables m) (counters m) c) lv.
Proof. intros Hok. constructor; apply Hok. Qed.

Lemma new_frame_ok m lv f (s : S) :
  pages_ok m lv → fs_allocate (store m) = Some (f, s) →
  lv !! f = None ∧ frame_address f ∧ fs_known (store m) f = true ∧ fs_reference s f = 1 ∧
  (∀ g, g ≠ f → fs_reference s g = reference m g) ∧ (∀ g, fs_known s g = fs_known (store m) g) ∧
  pages_ok (set_store m s) (<[f := 4%nat]> lv) ∧ orphan (set_store m s) (<[f := 4%nat]> lv) f.
Proof.
  intros Hok Ha. destruct (fs_allocate_spec _ _ _ (pk_store _ _ Hok) Ha) as (Hs & Hf & Hk & Hr0 & Hr & Hkn).
  assert (lv !! f = None) as Hn by (by apply (live_not_fresh m)).
  assert (∀ g, g ≠ f → fs_reference s g = reference m g) as Hrg by (intros g Hg; by rewrite Hr, decide_False).
  assert (∀ t, is_table (<[f := 4%nat]> lv) t → is_table lv t) as Htab.
  { intros t (k & Ht & Hk'). apply lookup_insert_Some in Ht as [[_ <-]|[_ Ht]]; [lia|by exists k]. }
  assert (∀ t k, <[f := 4%nat]> lv !! t = Some k → (k < 4)%nat → lv !! t = Some k) as Hlow.
  { intros t k Ht Hk'. apply lookup_insert_Some in Ht as [[_ <-]|[_ Ht]]; [lia|done]. }
  assert (orphan (set_store m s) (<[f := 4%nat]> lv) f) as Horph.
  { intros x j Hx Hj. apply (fresh_no_parent m lv f x j Hok Hn Hk); [by apply Htab|done]. }
  split_and!; try done; [by rewrite Hr, decide_True|]. constructor.
  - done.
  - intros g k. rewrite lookup_insert_Some. intros [[_ <-]|[_ Hg]]; [lia|by apply (pk_level _ _ Hok g)].
  - intros g k. rewrite lookup_insert_Some. unfold reference. simpl. intros [[<- _]|[Hg Hgk]].
    + split; [done|]. rewrite Hr, decide_True, Hkn by done. done.
    + rewrite Hrg, Hkn by done. by apply (pk_frame _ _ Hok g k).
  - intros t k Ht Hk'. by apply (pk_table _ _ Hok t k); [apply Hlow|].
  - intros t k i e Ht Hk' Hi He. destruct (pk_entry _ _ Hok t k i e (Hlow t k Ht Hk') Hk' Hi He) as [H1 H2].
    split; [done|]. intros Hp. destruct (H2 Hp) as [[Hl|[H3 Hun]] Hb]; (split; [|done]).
    + left. rewrite lookup_insert_ne; [done|]. intros ->. congruence.
    + right. split; [done|]. by rewrite Hkn.
  - intros g k. rewrite lookup_insert_Some. intros [[<- _]|[Hg Hgk]] ls Hnd Hls; unfold reference; simpl.
    + destruct ls as [|x ls]; [rewrite Hr, decide_True by done; simpl; lia|]. exfalso.
      apply Forall_cons in Hls as [(H1 & H2 & H3) _]. by apply (Horph x.1 x.2 H1 ltac:(lia)).
    + rewrite Hrg by done. apply (pk_refs _ _ Hok g k Hgk ls Hnd). eapply Forall_impl; [exact Hls|].
      intros x (H1 & H2 & H3). split; [by apply Htab|done].
Qed.

(** ** Mapping one page *)

Lemma translate_frame m lv r ix f :
  pages_ok m lv → lv !! r = Some 0%nat → index_ok ix → translate m r ix = Some f →
  lv !! f = Some 4%nat ∨ fs_known (store m) f = false.
Proof.
  intros Hok Hr. destruct ix as [[[a b] c] d]. intros (Ha & Hb & Hc & Hd). unfold translate.
  destruct (child m r a) as [t3|] eqn:E3; [|done]. cbn [mbind option_bind].
  destruct (child m t3 b) as [t2|] eqn:E2; [|done]. cbn [mbind option_bind].
  destruct (child m t2 c) as [t1|] eqn:E1; [|done]. cbn [mbind option_bind]. intros E0.
  assert (lv !! t3 = Some 1%nat) as X3 by (apply (child_table m lv r 0 a); (done || lia)).
  assert (lv !! t2 = Some 2%nat) as X2 by (apply (child_table m lv t3 1 b); (done || lia)).
  assert (lv !! t1 = Some 3%nat) as X1 by (apply (child_table m lv t2 2 c); (done || lia)).
  destruct (child_level m lv t1 3 d f) as [?|[_ ?]]; try done; [lia|lia|by left|by right].
Qed.

(** Entry [d] of an exclusive page table changed, with frames of data. *)
Lemma leaf_change m lv m' lv' r a b c d t3 t2 t1 n :
  pages_ok m lv → chain m lv r a b c t3 t2 t1 → lv !! r = Some 0%nat → index_ok (a, b, c, d) →
  pages_ok m' lv' → (∀ t k, (k < 4)%nat → lv' !! t = Some k ↔ lv !! t = Some k) →
  (∀ t j, 0 ≤ j → ¬ (t = t1 ∧ j = d) → child m' t j = child m t j) →
  (∀ f, lv !! f = Some 4%nat ∨ fs_known (store m) f = false → contents m' !! f = contents m !! f) →
  (∀ g k, lv !! g = Some k → (k < 4)%nat → reference m' g = reference m g) →
  (∀ f, reference m' f ≤ reference m f + n) → (∀ f, fs_known (store m') f = fs_known (store m) f) →
  keeps m lv m' lv' n (λ r' ix, r' = r ∧ ix = (a, b, c, d)) ∧ chain m' lv' r a b c t3 t2 t1 ∧
  translate m' r (a, b, c, d) = child m' t1 d.
Proof.
  intros Hok Hch Hr Hix Hok' Hlv Ho Hcon Hrf Hn Hkn.
  destruct (chain_write m m' lv r a b c d t3 t2 t1 Hok Hch Hr Hix Ho) as [Htr Hother].
  split; [|split; [|done]].
  - constructor; try done.
    + intros r'. apply Hlv. lia.
    + intros r' ix f Hr' Hix' _ Hf. apply Hcon. by apply (translate_frame m lv r' ix).
  - destruct Hch as [C3 C2 C1 S3 S2 S1 L3 L2 L1]. destruct Hix as (Ha & Hb & Hc & Hd).
    assert (∀ t j k, lv !! t = Some k → (k < 3)%nat → 0 ≤ j → child m' t j = child m t j) as Hup.
    { intros t j k Ht Hk Hj. apply Ho; [done|]. intros [-> _]. rewrite L1 in Ht. injection Ht. lia. }
    constructor; try (apply Hlv; [lia|done]); try (erewrite Hrf; [done|done|lia]).
    + by rewrite (Hup r a 0%nat) by (done || lia).
    + by rewrite (Hup t3 b 1%nat) by (done || lia).
    + by rewrite (Hup t2 c 2%nat) by (done || lia).
Qed.

(** What mapping page [ix] of [r] leads to. *)
Record mapped m lv r ix m' lv' f : Prop := Build_mapped {
  mp_counters : counters_ok m' lv';
  mp_frame : translate m' r ix = Some f;
  mp_level : lv' !! f = Some 4%nat;
  mp_fresh : lv !! f = None;
  mp_known : fs_known (store m) f = true;
  mp_single : reference m' f = 1;
  mp_contents : ∀ old, translate m r ix = Some old → contents m' !! f = Some (default [] (contents m !! old));
}.

Lemma add_page_spec m lv r a b c d t3 t2 t1 e flags f (s : S) :
  pages_ok m lv → counters_ok m lv → chain m lv r a b c t3 t2 t1 → lv !! r = Some 0%nat → index_ok (a, b, c, d) →
  read m t1 d = Some e → is_present e = false → 0 ≤ flags < 128 → Z.odd flags = true → fs_allocate (store m) = Some (f, s) →
  ∃ m' lv', write (add_page_table_counter (set_store m s) t1) t1 d (set_flags (set_addr e f) flags) = Some m' ∧
    keeps m lv m' lv' 1 (λ r' ix, r' = r ∧ ix = (a, b, c, d)) ∧ chain m' lv' r a b c t3 t2 t1 ∧
    mapped m lv r (a, b, c, d) m' lv' f.
Proof.
  intros Hok Hco Hch Hr Hix He Hpr Hf Hodd Ha.
  destruct (new_frame_ok m lv f s Hok Ha) as (Hn & Hfa & Hkf & Hr1 & Hrg & Hkn & Hok1 & Horph).
  set (lv1 := <[f := 4%nat]> lv) in *. assert (index_ok (a, b, c, d)) as (_ & _ & _ & Hd) by done.
  pose proof (ch_level1 _ _ _ _ _ _ _ _ _ Hch) as L1. destruct (pk_entry _ _ Hok t1 3 d e L1 ltac:(lia) ltac:(lia) He) as [Her _].
  assert (lv1 !! t1 = Some 3%nat) as L1' by (unfold lv1; rewrite lookup_insert_ne; [done|]; intros ->; congruence).
  destruct (make_entry e f flags Her Hfa ltac:(lia)) as (He1 & _ & He3 & He4).
  set (m1 := add_page_table_counter (set_store m s) t1). set (e' := set_flags (set_addr e f) flags) in *.
  assert (pages_ok m1 lv1) as Hokm1 by apply (set_counter_evolves _ _ _ _ Hok1).
  destruct (write_total m1 lv1 t1 3 d e' Hokm1 L1' ltac:(lia) Hd) as [m' Hm'].
  destruct (add_slot_ok m1 lv1 t1 3 d e f e' (store m1) m') as (Hok' & Es & Ec & Eo & Hc' & _); try done.
  { lia. } { apply lookup_insert_eq. } { by rewrite He4. } { apply Hokm1. }
  { intros [|x ls] _ Hls; [change (0 + 1 ≤ fs_reference s f); lia|]. apply Forall_cons in Hls as [(H1 & H2 & H3) _].
    by apply Horph in H3; [|done|lia]. }
  assert (∀ t k, (k < 4)%nat → lv1 !! t = Some k ↔ lv !! t = Some k) as Hlv.
  { intros t k Hk. unfold lv1. rewrite lookup_insert_Some. split; [intros [[_ <-]|[_ ?]]; [lia|done]|].
    intros Ht. right. split; [|done]. intros ->. congruence. }
  assert (child m t1 d = None) as Hc0 by (unfold child; rewrite He; simpl; by rewrite Hpr).
  assert (counters_ok m' lv1) as Hco'.
  { intros t k Ht Hk. apply Hlv in Ht; [|done]. unfold counter_of. rewrite Ec. fold (counter_of m1 t).
    unfold m1, add_page_table_counter. rewrite counter_of_set. destruct (decide (t = t1)) as [->|Htn].
    - change (counter_of (set_store m s) t1) with (counter_of m t1). rewrite (Hco t1 k) by done.
      rewrite (kids_add 512 m m' t1 0 d); [|lia|done| |].
      + pose proof (kids_bound 512 m t1 0). pose proof (kids_nonneg 512 m t1 0). apply u16_small. lia.
      + rewrite Hc', decide_True by (done || lia). eauto.
      + intros j Hj Hjd. rewrite Hc', decide_False by (done || tauto). done.
    - change (counter_of (set_store m s) t) with (counter_of m t). rewrite (Hco t k) by done. symmetry. apply kids_ext.
      intros j Hj. rewrite Hc', decide_False by (lia || tauto). done. }
  assert (∀ g, reference m' g = fs_reference s g) as Hr' by (intros g; unfold reference; by rewrite Es).
  destruct (leaf_change m lv m' lv1 r a b c d t3 t2 t1 1) as (Hk & Hch' & Htr); try done.
  { intros t j Hj Hne. rewrite Hc', decide_False by done. done. } { intros g _. by rewrite Eo. }
  { intros g k Hg _. rewrite Hr'. apply Hrg. intros ->. congruence. }
  { intros g. rewrite Hr'. destruct (decide (g = f)) as [->|Hgf]; [|rewrite Hrg by done; lia].
    rewrite Hr1. destruct (fs_allocate_spec _ _ _ (pk_store _ _ Hok) Ha) as (_ & _ & _ & H0 & _). unfold reference. lia. }
  { intros g. rewrite Es. apply Hkn. }
  exists m', lv1. split; [done|]. split; [done|]. split; [done|]. constructor; try done.
  - rewrite Htr, Hc', decide_True by (done || lia). done.
  - apply lookup_insert_eq.
  - by rewrite Hr'.
  - intros old Hold. exfalso. pose proof (chain_write m m lv r a b c d t3 t2 t1 Hok Hch Hr Hix ltac:(done)) as [Heq _].
    congruence.
Qed.

(** Entry [i] of [t] is pointed from [c] to the fresh frame [f]. *)
Lemma swap_slot_ok m lv t i e e' f (s1 s2 : S) con m' :
  let c := get_addr e in
  let m1 := set_store m s1 in
  pages_ok m1 lv → orphan m1 lv f → lv !! f = Some 4%nat → lv !! t = Some 3%nat → 0 ≤ i < 512 → read m t i = Some e →
  is_present e = true → lv !! c = Some 4%nat → c ≠ f → entry_range e' → get_addr e' = f → is_present e' = true →
  fs_deallocate s1 c = Some s2 → write (Build_pmem s2 (tables m) (counters m) con) t i e' = Some m' →
  pages_ok m' (release m1 lv c) ∧ store m' = s2 ∧ counters m' = counters m ∧ contents m' = con ∧
  (∀ g, fs_reference s2 g = if decide (g = c) then fs_reference s1 c - 1 else fs_reference s1 g) ∧
  (∀ g, fs_known s2 g = fs_known s1 g) ∧
  (∀ t' j, 0 ≤ j → child m' t' j = if decide (t' = t ∧ j = i) then Some f else child m t' j).
Proof.
  intros c m1 Hok Horph Hf Ht Hi He Hpr Hc Hcf Her Ha Hp' Hd Hw.
  destruct (pk_frame _ _ Hok c 4 Hc) as (_ & Hpos & _). change (0 < fs_reference s1 c) in Hpos.
  destruct (fs_deallocate_spec s1 c) as (s2' & Hd' & Hs2 & Hr2 & Hk2); [apply Hok|done|].
  rewrite Hd in Hd'. injection Hd' as <-.
  set (m1c := Build_pmem s1 (tables m) (counters m) con).
  assert (pages_ok m1c lv) as Hok1 by apply (set_contents_ok m1 lv con Hok).
  destruct (write_some m1c lv (set_store m1c s2) t 3 i 0) as [m0 Hm0]; try done; [lia|].
  destruct (clear_slot_ok m1c lv t 3 i e c 0 s2 m0) as (Hok0 & Es0 & Ec0 & Eo0 & Hch0 & Hrd0); try done.
  { lia. } { intros g Hg. by rewrite Hr2, decide_False. } { intros _. by rewrite Hr2, decide_True. }
  change (release m1c lv c) with (release m1 lv c) in Hok0.
  assert (release m1 lv c !! t = Some 3%nat) as Ht0 by (apply release_lookup; split; [done|intros ->; congruence]).
  assert (release m1 lv c !! f = Some 4%nat) as Hf0 by (apply release_lookup; split; [done|congruence]).
  destruct (write_total m0 _ t 3 i e' Hok0 Ht0 ltac:(lia) Hi) as [m'' Hm''].
  assert (m'' = m') as -> by (pose proof (write_write (set_store m1c s2) t i 0 e' m0 m'' ltac:(lia) Hm0 Hm'') as Hww;
                              change (write (Build_pmem s2 (tables m) (counters m) con) t i e' = Some m'') in Hww; congruence).
  destruct (add_slot_ok m0 (release m1 lv c) t 3 i 0 f e' (store m0) m') as (Hok' & Es & Ec & Eo & Hch & Hrd); try done.
  { lia. } { rewrite Hrd0, decide_True by (done || lia). done. } { apply Hok0. }
  { intros [|x ls] _ Hls; [destruct (pk_frame _ _ Hok0 f 4 Hf0) as (_ & H0 & _); unfold reference in H0; simpl; lia|].
    apply Forall_cons in Hls as [(H1 & H2 & H3) _]. rewrite Hch0 in H3 by lia. destruct (decide _); [done|]. exfalso.
    apply (Horph x.1 x.2); [|lia|done]. destruct H1 as (k & [Hk _]%release_lookup & Hk4). by exists k. }
  split; [done|]. split; [congruence|]. split; [by rewrite Ec, Ec0|]. split; [by rewrite Eo, Eo0|]. split; [done|]. split; [done|].
  intros t' j Hj. rewrite Hch by done. destruct (decide _) as [|Hn]; [done|]. rewrite Hch0, decide_False by done. done.
Qed.

Lemma replace_page_spec m lv r a b c d t3 t2 t1 e flags f (s1 : S) :
  let old := get_addr e in
  pages_ok m lv → counters_ok m lv → chain m lv r a b c t3 t2 t1 → lv !! r = Some 0%nat → index_ok (a, b, c, d) →
  read m t1 d = Some e → is_present e = true → fs_known (store m) old = true → 0 ≤ flags < 128 → Z.odd flags = true →
  fs_allocate (store m) = Some (f, s1) →
  ∃ s2 m' lv', fs_deallocate s1 old = Some s2 ∧
    write (Build_pmem s2 (tables m) (counters m) (<[f := default [] (contents m !! old)]> (contents m))) t1 d
      (set_flags (set_addr e f) flags) = Some m' ∧
    keeps m lv m' lv' 1 (λ r' ix, r' = r ∧ ix = (a, b, c, d)) ∧ chain m' lv' r a b c t3 t2 t1 ∧
    mapped m lv r (a, b, c, d) m' lv' f.
Proof.
  intros old Hok Hco Hch Hr Hix He Hpr Hko Hf Hodd Ha.
  destruct (new_frame_ok m lv f s1 Hok Ha) as (Hn & Hfa & Hkf & Hr1 & Hrg & Hkn & Hok1 & Horph).
  set (lv1 := <[f := 4%nat]> lv) in *. assert (index_ok (a, b, c, d)) as (_ & _ & _ & Hd) by done.
  pose proof (ch_level1 _ _ _ _ _ _ _ _ _ Hch) as L1. destruct (pk_entry _ _ Hok t1 3 d e L1 ltac:(lia) ltac:(lia) He) as [Her _].
  assert (child m t1 d = Some old) as Hc0 by (unfold child; rewrite He; simpl; by rewrite Hpr).
  assert (lv !! old = Some 4%nat) as Lo.
  { destruct (child_level m lv t1 3 d old) as [?|[_ ?]]; try done; [lia|lia|congruence]. }
  assert (old ≠ f) as Hof by (intros Heq; congruence).
  assert (∀ t k, lv !! t = Some k → lv1 !! t = Some k) as Hup.
  { intros t k Ht. unfold lv1. rewrite lookup_insert_ne; [done|]. intros ->. congruence. }
  destruct (make_entry e f flags Her Hfa ltac:(lia)) as (He1 & _ & He3 & He4).
  destruct (pk_frame _ _ Hok old 4 Lo) as (_ & Hpos & _).
  destruct (fs_deallocate_spec s1 old) as (s2 & Hdl & _); [apply Hok1|rewrite Hrg by done; done|].
  set (con := <[f := default [] (contents m !! old)]> (contents m)). set (e' := set_flags (set_addr e f) flags) in *.
  destruct (write_some m lv (Build_pmem s2 (tables m) (counters m) con) t1 3 d e') as [m' Hm']; try done; [lia|].
  destruct (swap_slot_ok m lv1 t1 d e e' f s1 s2 con m') as (Hok' & Es & Ec & Eo & Hr2 & Hk2 & Hc'); try done.
  { apply lookup_insert_eq. } { by apply Hup. } { by apply Hup. } { by rewrite He4. }
  set (lv' := release (set_store m s1) lv1 (get_addr e)) in *. fold old in Hr2, lv'.
  assert (∀ t k, (k < 4)%nat → lv' !! t = Some k ↔ lv !! t = Some k) as Hlv.
  { intros t k Hk. unfold lv'. rewrite release_lookup. unfold lv1. rewrite lookup_insert_Some. split.
    - intros [[[_ <-]|[_ ?]] _]; [lia|done].
    - intros Ht. split; [right; split; [|done]; intros ->; congruence|]. intros ->. rewrite Lo in Ht. injection Ht. lia. }
  assert (counters_ok m' lv') as Hco'.
  { intros t k Ht Hk. apply Hlv in Ht; [|done]. unfold counter_of. rewrite Ec. fold (counter_of m t). rewrite (Hco t k) by done.
    symmetry. apply kids_ext. intros j Hj. rewrite Hc' by lia. destruct (decide _) as [[-> ->]|]; [by rewrite Hc0|done]. }
  assert (∀ g, reference m' g = fs_reference s2 g) as Hr' by (intros g; unfold reference; by rewrite Es).
  destruct (leaf_change m lv m' lv' r a b c d t3 t2 t1 1) as (Hk & Hch' & Htr); try done.
  { intros t j Hj Hne. rewrite Hc', decide_False by done. done. }
  { intros g Hg. rewrite Eo. unfold con. rewrite lookup_insert_ne; [done|]. intros ->. destruct Hg; congruence. }
  { intros g k Hg Hk. rewrite Hr', Hr2, decide_False by (intros ->; rewrite Lo in Hg; injection Hg; lia).
    apply Hrg. intros ->. congruence. }
  { intros g. rewrite Hr', Hr2. destruct (decide (g = old)) as [->|Hgo]; [rewrite Hrg by done; lia|].
    destruct (decide (g = f)) as [->|Hgf]; [|rewrite Hrg by done; lia].
    rewrite Hr1. destruct (fs_allocate_spec _ _ _ (pk_store _ _ Hok) Ha) as (_ & _ & _ & H0 & _). unfold reference. lia. }
  { intros g. rewrite Es, Hk2. apply Hkn. }
  exists s2, m', lv'. split; [done|]. split; [done|]. split; [done|]. split; [done|]. constructor; try done.
  - rewrite Htr, Hc', decide_True by (done || lia). done.
  - unfold lv'. apply release_lookup. split; [apply lookup_insert_eq|]. intros Heq. by symmetry in Heq.
  - by rewrite Hr', Hr2, decide_False by done.
  - intros old' Hold. pose proof (chain_write m m lv r a b c d t3 t2 t1 Hok Hch Hr Hix ltac:(done)) as [Heq _].
    rewrite Eo. unfold con. rewrite lookup_insert_eq. congruence.
Qed.

(** A page that [map] accepts under [actions]: one that is mapped may be
    replaced, one that is not is not expected to be there. *)
Definition mappable m r ix (actions : Z) : Prop :=
  match translate m r ix with
  | Some old => has_flag actions Action.override = true ∧ fs_known (store m) old = true
  | None => has_flag actions Action.cow = false
  end.

Lemma map_page_spec m lv r a b c d t3 t2 t1 flags actions :
  pages_ok m lv → counters_ok m lv → chain m lv r a b c t3 t2 t1 → lv !! r = Some 0%nat → index_ok (a, b, c, d) →
  0 ≤ flags < 128 → Z.odd flags = true → mappable m r (a, b, c, d) actions →
  (∃ m' lv' f, map_page m r (a, b, c, d) flags actions = Some m' ∧
    keeps m lv m' lv' 1 (λ r' ix, r' = r ∧ ix = (a, b, c, d)) ∧ chain m' lv' r a b c t3 t2 t1 ∧
    mapped m lv r (a, b, c, d) m' lv' f) ∨
  map_page m r (a, b, c, d) flags actions = None ∧ fs_allocate (store m) = None.
Proof.
  intros Hok Hco Hch Hr Hix Hf Hodd Hm. assert (index_ok (a, b, c, d)) as (_ & _ & _ & Hd) by done.
  pose proof (ch_level1 _ _ _ _ _ _ _ _ _ Hch) as L1.
  destruct (read_table m lv t1 3 d Hok L1 ltac:(lia) Hd) as [e He].
  pose proof (chain_write m m lv r a b c d t3 t2 t1 Hok Hch Hr Hix ltac:(done)) as [Htr _].
  unfold mappable in Hm. rewrite Htr in Hm. unfold child in Hm. rewrite He in Hm. cbn [mbind option_bind] in Hm.
  unfold map_page. rewrite (chain_walk m lv r a b c t3 t2 t1 Hch). cbn [mbind option_bind]. rewrite He. cbn [mbind option_bind].
  destruct (is_present e) eqn:Hpr.
  - destruct Hm as [-> Hko]. cbn [negb]. assert (lv !! get_addr e = Some 4%nat) as Lo.
    { destruct (child_level m lv t1 3 d (get_addr e)) as [?|[_ ?]]; try done; [lia|lia| |congruence].
      unfold child. rewrite He. simpl. by rewrite Hpr. }
    destruct (pk_frame _ _ Hok _ 4 Lo) as (_ & Hpos & _). unfold reference in Hpos.
    assert ((1 <=? fs_reference (store m) (get_addr e)) = true) as -> by (apply Z.leb_le; lia).
    destruct (fs_allocate (store m)) as [[f s1]|] eqn:Ea; cbn [mbind option_bind]; [|by right]. left.
    destruct (replace_page_spec m lv r a b c d t3 t2 t1 e flags f s1) as (s2 & m' & lv' & Hdl & Hw & Hk & Hch' & Hmp); try done.
    exists m', lv', f. rewrite Hdl. cbn [mbind option_bind]. done.
  - rewrite Hm. destruct (fs_allocate (store m)) as [[f s1]|] eqn:Ea; cbn [mbind option_bind]; [|by right]. left.
    destruct (add_page_spec m lv r a b c d t3 t2 t1 e flags f s1) as (m' & lv' & Hw & Hk & Hch' & Hmp); try done.
    by exists m', lv', f.
Qed.

(** ** Page numbers *)

Definition pack4 ix : Z := let '(a, b, c, d) := ix in ((a * 512 + b) * 512 + c) * 512 + d.

Lemma unpack_value p : unpack p = (p / 2 ^ 27 mod 512, p / 2 ^ 18 mod 512, p / 2 ^ 9 mod 512, p mod 512).
Proof.
  unfold unpack. change 0x1FF with (Z.ones 9). rewrite !Z.land_ones by lia. rewrite !Z.shiftr_div_pow2 by lia. done.
Qed.

Lemma unpack_ok p : index_ok (unpack p).
Proof. rewrite unpack_value. unfold index_ok. repeat split; apply Z.mod_pos_bound; lia. Qed.

Lemma pack_unpack p : 0 ≤ p < 2 ^ 36 → pack4 (unpack p) = p.
Proof.
  intros Hp. rewrite unpack_value. unfold pack4.
  replace (2 ^ 27) with (512 * 512 * 512) by done. replace (2 ^ 18) with (512 * 512) by done. replace (2 ^ 9) with 512 by done.
  rewrite <-!Z.div_div by lia. rewrite (Z.mod_small (p / 512 / 512 / 512)).
  - pose proof (Z.div_mod p 512 ltac:(lia)). pose proof (Z.div_mod (p / 512) 512 ltac:(lia)).
    pose proof (Z.div_mod (p / 512 / 512) 512 ltac:(lia)). lia.
  - rewrite !Z.div_div by lia. split; [apply Z.div_pos; lia|apply Z.div_lt_upper_bound; lia].
Qed.

Lemma unpack_pack ix : index_ok ix → unpack (pack4 ix) = ix.
Proof.
  destruct ix as [[[a b] c] d]. intros (Ha & Hb & Hc & Hd). rewrite unpack_value. unfold pack4.
  assert (∀ x y, 0 ≤ y < 512 → (x * 512 + y) / 512 = x) as Hdiv by (intros; rewrite Z.div_add_l, Z.div_small; lia).
  assert (∀ x y, 0 ≤ y < 512 → (x * 512 + y) mod 512 = y) as Hmod by (intros; rewrite Z.add_comm, Z.mod_add, Z.mod_small; lia).
  replace (2 ^ 27) with (512 * 512 * 512) by done. replace (2 ^ 18) with (512 * 512) by done. replace (2 ^ 9) with 512 by done.
  rewrite <-!Z.div_div, !Hdiv, !Hmod by lia. by rewrite Z.mod_small.
Qed.

Lemma normalize_ok ix : index_ok ix → normalize_index ix = (false, ix).
Proof.
  destruct ix as [[[a b] c] d]. intros (Ha & Hb & Hc & Hd). unfold normalize_index.
  rewrite !(proj2 (Z.leb_gt _ _)) by lia. done.
Qed.

(** The indices of the next page, after [pte_index++] and [normalize_index]. *)
Lemma normalize_next a b c d :
  index_ok (a, b, c, d) → pack4 (a, b, c, d) + 1 < 2 ^ 36 →
  ∃ moved, normalize_index (a, b, c, d + 1) = (moved, unpack (pack4 (a, b, c, d) + 1)) ∧
    (moved = false → unpack (pack4 (a, b, c, d) + 1) = (a, b, c, d + 1)).
Proof.
  intros (Ha & Hb & Hc & Hd) Hlt.
  assert (∀ moved ix, index_ok ix → pack4 ix = pack4 (a, b, c, d) + 1 → normalize_index (a, b, c, d + 1) = (moved, ix) →
    (moved = false → ix = (a, b, c, d + 1)) →
    ∃ moved, normalize_index (a, b, c, d + 1) = (moved, unpack (pack4 (a, b, c, d) + 1)) ∧
      (moved = false → unpack (pack4 (a, b, c, d) + 1) = (a, b, c, d + 1))) as Hgen.
  { intros moved ix Hix Hpk Hn Hm. exists moved. by rewrite <-Hpk, unpack_pack. }
  assert (∀ x, (if 512 <=? x then 512 ≤ x else x < 512)) as Hle by (intros x; by case Z.leb_spec).
  pose proof (Hle (d + 1)) as Hd'. pose proof (Hle (c + 1)) as Hc'. pose proof (Hle (b + 1)) as Hb'.
  pose proof (Hle b) as Hb0. pose proof (Hle c) as Hc0.
  destruct (512 <=? d + 1) eqn:Ed; [destruct (512 <=? c + 1) eqn:Ec; [destruct (512 <=? b + 1) eqn:Eb|]|].
  - apply (Hgen true (a + 1, 0, 0, 0)); [unfold pack4 in Hlt; repeat split; lia|unfold pack4; lia| |done].
    unfold normalize_index. by rewrite Ed, Ec, Eb.
  - apply (Hgen true (a, b + 1, 0, 0)); [repeat split; lia|unfold pack4; lia| |done].
    unfold normalize_index. by rewrite Ed, Ec, Eb.
  - apply (Hgen true (a, b, c + 1, 0)); [repeat split; lia|unfold pack4; lia| |done].
    unfold normalize_index. rewrite Ed, Ec. destruct (512 <=? b); [lia|done].
  - apply (Hgen false (a, b, c, d + 1)); [repeat split; lia|unfold pack4; lia| |done].
    unfold normalize_index. rewrite Ed. destruct (512 <=? c); [lia|]. destruct (512 <=? b); [lia|done].
Qed.

Lemma unpack_inj p q : 0 ≤ p < 2 ^ 36 → 0 ≤ q < 2 ^ 36 → unpack p = unpack q → p = q.
Proof. intros Hp Hq Heq. rewrite <-(pack_unpack p Hp), <-(pack_unpack q Hq). by rewrite Heq. Qed.

(** ** Mapping a range of pages *)

(** The pages [p], ..., [p + n - 1] of [r]. *)
Definition in_range r p n (r' : Z) ix : Prop := r' = r ∧ ∃ j, p ≤ j < p + n ∧ ix = unpack j.

(** Page [ix] of [r] is mapped to [f], and no other page is. *)
Definition owned m lv r ix f : Prop :=
  translate m r ix = Some f ∧
  ∀ r' ix', lv !! r' = Some 0%nat → index_ok ix' → translate m r' ix' = Some f → r' = r ∧ ix' = ix.

(** The pages of the range are owned; a page that was mapped before has the
    contents of the frame it was mapped to. *)
Definition range_mapped m r p n m' lv' : Prop :=
  ∀ j, p ≤ j < p + n → ∃ f, owned m' lv' r (unpack j) f ∧
    ∀ old, translate m r (unpack j) = Some old → contents m' !! f = Some (default [] (contents m !! old)).

(** The operation stopped: after changing only pages in [P], no frame was left,
    or a table to be copied had an entry for a frame outside the zones. *)
Definition halted m lv (P : Z → indices → Prop) : Prop :=
  ∃ m1 lv1 n, keeps m lv m1 lv1 n P ∧
    (fs_allocate (store m1) = None ∨
     ∃ t i f, lv1 !! t = Some 3%nat ∧ 0 ≤ i ∧ child m1 t i = Some f ∧ fs_known (store m1) f = false).

Lemma halted_keeps m lv m' lv' n (P Q : Z → indices → Prop) :
  (∀ r ix, P r ix → Q r ix) → keeps m lv m' lv' n Q → halted m' lv' P → halted m lv Q.
Proof.
  intros HPQ Hk (m1 & lv1 & k & Hk1 & Hs). exists m1, lv1, (n + k). split; [|done].
  eapply keeps_trans; [done|]. by eapply keeps_mono; [|exact HPQ|].
Qed.

(** A page of a range, its tables built: the step of the loop. *)
Lemma range_step m lv r p n m2 lv2 f m' lv' k :
  0 ≤ p → p + n < 2 ^ 36 → 0 ≤ n → lv !! r = Some 0%nat → keeps m lv m2 lv2 k (λ r' ix, r' = r ∧ ix = unpack p) →
  owned m2 lv2 r (unpack p) f →
  (∀ old, translate m r (unpack p) = Some old → contents m2 !! f = Some (default [] (contents m !! old))) →
  keeps m2 lv2 m' lv' (1540 * n) (in_range r (p + 1) n) → range_mapped m2 r (p + 1) n m' lv' →
  range_mapped m r p (n + 1) m' lv'.
Proof.
  intros Hp Hn Hn0 Hr Hk [Htr Hex] Hcon Hk' Hmap j Hj. assert (lv2 !! r = Some 0%nat) as Hr2 by (by apply Hk).
  assert (∀ j, p < j < p + n + 1 → unpack j ≠ unpack p) as Hne by (intros i Hi Heq; apply unpack_inj in Heq; lia).
  assert (¬ in_range r (p + 1) n r (unpack p)) as Hnin by (intros (_ & i & Hi & Heq); by apply (Hne i); [lia|]).
  destruct (decide (j = p)) as [->|Hjp].
  - exists f. assert (translate m' r (unpack p) = Some f) as Htr'.
    { rewrite (kp_translate _ _ _ _ _ _ Hk'); try done. apply unpack_ok. }
    split; [split; [done|]|].
    + intros r' ix' Hr' Hix' Ht. apply (kp_roots _ _ _ _ _ _ Hk') in Hr'.
      destruct (decide (r' = r)) as [->|Hnr]; [|apply Hex; [done|done|]; rewrite <-Ht; symmetry; apply (kp_translate _ _ _ _ _ _ Hk'); try done; by intros [? _]].
      split; [done|]. set (q := pack4 ix'). assert (unpack q = ix') as Hq by (by apply unpack_pack).
      destruct (decide (p + 1 ≤ q < p + 1 + n)) as [Hin|Hout].
      * destruct (Hmap q Hin) as (g & [Hg Hgex] & _). rewrite Hq, Ht in Hg. injection Hg as <-.
        destruct (Hgex r (unpack p)) as [_ ->]; [by apply (kp_roots _ _ _ _ _ _ Hk')|apply unpack_ok|done|done].
      * apply (Hex r ix'); [done|done|]. rewrite <-Ht. symmetry. apply (kp_translate _ _ _ _ _ _ Hk'); try done.
        intros (_ & i & Hi & ->). apply Hout. unfold q. rewrite pack_unpack by lia. lia.
    + intros old Hold. rewrite (kp_contents _ _ _ _ _ _ Hk' r (unpack p) f); [by apply Hcon|done|apply unpack_ok|done|done].
  - destruct (Hmap j ltac:(lia)) as (g & Hg & Hgc). exists g. split; [done|]. intros old Hold.
    assert (¬ (r = r ∧ unpack j = unpack p)) as Hnp by (intros [_ Heq]; by apply (Hne j); [lia|]).
    rewrite (Hgc old).
    + by rewrite (kp_contents _ _ _ _ _ _ Hk r (unpack j) old) by (done || apply unpack_ok).
    + rewrite (kp_translate _ _ _ _ _ _ Hk) by (done || apply unpack_ok). done.
Qed.

Lemma mappable_keeps m lv m' lv' n (P : Z → indices → Prop) r ix actions :
  keeps m lv m' lv' n P → lv !! r = Some 0%nat → index_ok ix → ¬ P r ix → mappable m r ix actions → mappable m' r ix actions.
Proof.
  intros Hk Hr Hix HP. unfold mappable. rewrite (kp_translate _ _ _ _ _ _ Hk r ix Hr Hix HP).
  destruct (translate m r ix); [|done]. by rewrite (kp_known _ _ _ _ _ _ Hk).
Qed.

(** One iteration of the loop of [map]. *)
Lemma map_step m lv r p ix flags actions moved :
  pages_ok m lv → counters_ok m lv → lv !! r = Some 0%nat → 0 ≤ flags < 128 → Z.odd flags = true → splits flags actions →
  (∀ f, reference m f + 1700 < 2 ^ 32 - 1) → normalize_index ix = (moved, unpack p) →
  (moved = false → let '(a, b, c, _) := unpack p in ∃ t3 t2 t1, chain m lv r a b c t3 t2 t1) → mappable m r (unpack p) actions →
  let '(a, b, c, d) := unpack p in
  let result :=
    m ← (if moved then ensure3 m r a b c flags actions else Some m); map_page m r (a, b, c, d) flags actions in
  (∃ m2 lv2 f, result = Some m2 ∧ keeps m lv m2 lv2 1540 (λ r' ix, r' = r ∧ ix = unpack p) ∧
     counters_ok m2 lv2 ∧ (∃ t3 t2 t1, chain m2 lv2 r a b c t3 t2 t1) ∧ owned m2 lv2 r (unpack p) f ∧
     ∀ old, translate m r (unpack p) = Some old → contents m2 !! f = Some (default [] (contents m !! old))) ∨
  result = None ∧ halted m lv (λ r' ix, r' = r ∧ ix = unpack p).
Proof.
  intros Hok Hco Hr Hf Hodd Hs Hsmall Hnorm Hchain Hm. pose proof (unpack_ok p) as Hix.
  destruct (unpack p) as [[[a b] c] d] eqn:Eu. cbv zeta. set (P := λ r' ix, r' = r ∧ ix = (a, b, c, d)).
  assert (index_ok (a, b, c, d)) as (Ha & Hb & Hc & Hd) by done.
  assert ((∃ m1 lv1 t3 t2 t1, (if moved then ensure3 m r a b c flags actions else Some m) = Some m1 ∧
            evolves m lv m1 lv1 1539 ∧ counters_ok m1 lv1 ∧ chain m1 lv1 r a b c t3 t2 t1) ∨
          (if moved then ensure3 m r a b c flags actions else Some m) = None ∧ stuck m lv)
    as [(m1 & lv1 & t3 & t2 & t1 & -> & Hev & Hco1 & Hch)|[-> Hst]].
  { destruct moved; [by apply ensure3_spec|]. left. destruct Hchain as (t3 & t2 & t1 & Hch); [done|].
    exists m, lv, t3, t2, t1. split; [done|]. split; [|done]. eapply evolves_mono; [|by apply evolves_refl]. lia. }
  2:{ right. split; [done|]. destruct Hst as (m1 & lv1 & n & Hev & Hst). exists m1, lv1, n. split; [|done].
      by apply evolves_keeps. }
  cbn [mbind option_bind]. pose proof (evolves_keeps m lv m1 lv1 1539 (λ _ _, False) Hev) as Hk0.
  assert (lv1 !! r = Some 0%nat) as Hr1 by (by apply Hev).
  destruct (map_page_spec m1 lv1 r a b c d t3 t2 t1 flags actions) as [(m2 & lv2 & f & -> & Hk & Hch2 & Hmp)|[-> Hal]]; try done.
  { apply Hev. } { by apply (mappable_keeps _ _ _ _ _ _ _ _ _ Hk0); [| |intros []|]. }
  2:{ right. split; [done|]. exists m1, lv1, 1539. split; [by apply evolves_keeps|by left]. }
  left. exists m2, lv2, f. split; [done|].
  assert (keeps m lv m2 lv2 1540 P) as Hk2.
  { replace 1540 with (1539 + 1) by lia. eapply keeps_trans; [by apply evolves_keeps|done]. }
  split; [done|]. split; [apply Hmp|]. split; [by exists t3, t2, t1|]. split; [split; [apply Hmp|]|].
  - intros r' ix' Hr' Hix' Ht. destruct (decide (r' = r ∧ ix' = (a, b, c, d))) as [|Hn]; [done|]. exfalso.
    apply (kp_roots _ _ _ _ _ _ Hk) in Hr'. rewrite (kp_translate _ _ _ _ _ _ Hk r' ix' Hr' Hix' Hn) in Ht.
    destruct (translate_frame m1 lv1 r' ix' f (ev_ok _ _ _ _ _ Hev) Hr' Hix' Ht) as [Hl|Hu].
    + by rewrite (mp_fresh _ _ _ _ _ _ _ Hmp) in Hl.
    + by rewrite (mp_known _ _ _ _ _ _ _ Hmp) in Hu.
  - intros old Hold. rewrite (mp_contents _ _ _ _ _ _ _ Hmp old); [by rewrite (ev_contents _ _ _ _ _ Hev)|].
    by rewrite (ev_translate _ _ _ _ _ Hev).
Qed.

Lemma map_loop_spec n m lv r p ix flags actions k :
  pages_ok m lv → counters_ok m lv → lv !! r = Some 0%nat → 0 ≤ flags < 128 → Z.odd flags = true → splits flags actions →
  0 ≤ p → p + Z.of_nat n < 2 ^ 36 → (∀ f, reference m f + 1700 * (Z.of_nat n + 1) < 2 ^ 32 - 1) →
  (∃ moved, normalize_index ix = (moved, unpack p) ∧
     (moved = false → let '(a, b, c, _) := unpack p in ∃ t3 t2 t1, chain m lv r a b c t3 t2 t1)) →
  (∀ j, p ≤ j < p + Z.of_nat n → mappable m r (unpack j) actions) →
  let result := map_loop n m r ix flags actions (λ _ m ix, map_page m r ix flags actions) k in
  (∃ m' lv', result = Some m' ∧ keeps m lv m' lv' (1540 * Z.of_nat n) (in_range r p (Z.of_nat n)) ∧ counters_ok m' lv' ∧
     range_mapped m r p (Z.of_nat n) m' lv') ∨
  result = None ∧ halted m lv (in_range r p (Z.of_nat n)).
Proof.
  revert m lv p ix k. induction n as [|n IH]; intros m lv p ix k Hok Hco Hr Hf Hodd Hs Hp Hpn Hsmall (moved & Hnorm & Hchain) Hm result.
  { left. exists m, lv. split; [done|]. split; [by apply (evolves_keeps m lv m lv 0), evolves_refl|].
    split; [done|]. intros j Hj. lia. }
  pose proof (map_step m lv r p ix flags actions moved Hok Hco Hr Hf Hodd Hs
    ltac:(intros f; specialize (Hsmall f); lia) Hnorm Hchain ltac:(apply Hm; lia)) as Hstep.
  unfold result. cbn [map_loop]. rewrite Hnorm. pose proof (pack_unpack p ltac:(lia)) as Hpk. pose proof (unpack_ok p) as Hix.
  destruct (unpack p) as [[[a b] c] d] eqn:Eu. cbv zeta in Hstep.
  set (P := λ r' ix, r' = r ∧ ix = (a, b, c, d)) in *.
  assert (∀ r' ix', P r' ix' → in_range r p (Z.of_nat (Datatypes.S n)) r' ix') as HP.
  { intros r' ix' [-> ->]. split; [done|]. exists p. split; [lia|done]. }
  destruct (if moved then _ else _) as [m1|]; cbn [mbind option_bind] in Hstep |- *.
  2:{ right. destruct Hstep as [(? & ? & ? & ? & _)|[_ (m1 & lv1 & k' & Hk & Hs')]]; [done|]. split; [done|].
      exists m1, lv1, k'. split; [|done]. by eapply keeps_mono; [|exact HP|]. }
  destruct Hstep as [(m2 & lv2 & f & -> & Hk & Hco2 & (t3 & t2 & t1 & Hch) & Hown & Hcon)|[-> (m2 & lv2 & k' & Hk & Hs')]]; cbn [mbind option_bind].
  2:{ right. split; [done|]. exists m2, lv2, k'. split; [|done]. by eapply keeps_mono; [|exact HP|]. }
  destruct (normalize_next a b c d Hix) as (moved' & Hnorm' & Hsame); [unfold pack4 in *; lia|]. rewrite Hpk in Hnorm', Hsame.
  assert (∀ r' ix', in_range r (p + 1) (Z.of_nat n) r' ix' → in_range r p (Z.of_nat (Datatypes.S n)) r' ix') as HQ.
  { intros r' ix' (-> & j & Hj & ->). split; [done|]. exists j. split; [lia|done]. }
  assert (keeps m lv m2 lv2 1540 (in_range r p (Z.of_nat (Datatypes.S n)))) as Hk' by (by eapply keeps_mono; [|exact HP|]).
  destruct (IH m2 lv2 (p + 1) (a, b, c, d + 1) (k + 1)) as [(m' & lv' & -> & Hk2 & Hco' & Hmap)|[-> Hh]]; try done; try lia.
  { apply Hk. } { by apply Hk. }
  { intros g. pose proof (kp_refs _ _ _ _ _ _ Hk g). specialize (Hsmall g). lia. }
  { exists moved'. split; [done|]. intros ->. rewrite Hsame by done. by exists t3, t2, t1. }
  { intros j Hj. apply (mappable_keeps _ _ _ _ _ _ _ _ _ Hk); [done|apply unpack_ok| |apply Hm; lia].
    intros [_ Heq]. rewrite <-Eu in Heq. apply unpack_inj in Heq; lia. }
  - left. exists m', lv'. split; [done|]. replace (1540 * Z.of_nat (Datatypes.S n)) with (1540 + 1540 * Z.of_nat n) by lia.
    split; [eapply keeps_trans; [done|]; by eapply keeps_mono; [|exact HQ|]|]. split; [done|].
    replace (Z.of_nat (Datatypes.S n)) with (Z.of_nat n + 1) by lia.
    rewrite <-Eu in Hown, Hcon. eapply range_step; try done; try lia. unfold P in Hk. by rewrite Eu.
  - right. split; [done|]. by eapply halted_keeps.
Qed.

Lemma land_page q : Z.land (q * page_size) (page_size - 1) = 0.
Proof. unfold page_size. change (4096 - 1) with (Z.ones 12). rewrite Z.land_ones by lia. by apply Z.mod_mul. Qed.

Lemma from_virt_page q : from_virt_addr (q * page_size) = q.
Proof. unfold from_virt_addr. rewrite Z.shiftr_div_pow2 by lia. apply Z.div_mul. unfold page_size. lia. Qed.

Lemma map_spec m lv r q n flags actions :
  pages_ok m lv → counters_ok m lv → lv !! r = Some 0%nat → 0 ≤ q → 0 ≤ n → q + n < 2 ^ 36 →
  0 ≤ flags < 128 → splits (Z.lor flags PageFlags.present) actions → (∀ f, reference m f + 1700 * (n + 2) < 2 ^ 32 - 1) →
  (∀ j, q ≤ j < q + n → mappable m r (unpack j) actions) →
  (∃ m' lv', map m r (q * page_size) n flags actions = Some m' ∧
     keeps m lv m' lv' (1539 + 1540 * n) (in_range r q n) ∧ counters_ok m' lv' ∧ range_mapped m r q n m' lv') ∨
  map m r (q * page_size) n flags actions = None ∧ halted m lv (in_range r q n).
Proof.
  intros Hok Hco Hr Hq0 Hn Hq Hf Hs Hsmall Hm. unfold map, map_pages. rewrite land_page, from_virt_page. cbn [negb Z.eqb].
  set (fl := Z.lor flags PageFlags.present) in *.
  assert (0 ≤ fl < 128) as Hfl by (apply lor_flags; [done|unfold PageFlags.present; lia]).
  assert (Z.odd fl = true) as Hodd by (unfold fl; rewrite <-Z.bit0_odd, Z.lor_spec; apply orb_true_r).
  pose proof (unpack_ok q) as Hix. destruct (unpack q) as [[[a b] c] d] eqn:Eu. destruct Hix as (Ha & Hb & Hc & Hd).
  destruct (ensure3_spec m lv r a b c fl actions) as [(m1 & lv1 & t3 & t2 & t1 & -> & Hev & Hco1 & Hch)|[-> Hst]]; try done.
  { intros f. specialize (Hsmall f). lia. }
  2:{ right. split; [done|]. destruct Hst as (m1 & lv1 & k & Hev & Hst). exists m1, lv1, k. split; [by apply evolves_keeps|done]. }
  cbn [mbind option_bind]. pose proof (evolves_keeps m lv m1 lv1 1539 (in_range r q n) Hev) as Hk.
  destruct (map_loop_spec (Z.to_nat n) m1 lv1 r q (a, b, c, d) fl actions 0) as [(m' & lv' & -> & Hk' & Hco' & Hmap)|[-> Hh]];
    rewrite ?Z2Nat.id in * by lia; try done.
  { apply Hev. } { by apply Hev. }
  { intros f. pose proof (ev_refs _ _ _ _ _ Hev f). specialize (Hsmall f). lia. }
  { exists false. split; [by rewrite Eu; apply normalize_ok|]. intros _. rewrite Eu. by exists t3, t2, t1. }
  { intros j Hj. apply (mappable_keeps m lv m1 lv1 1539 (λ _ _, False)); [by apply evolves_keeps|done|apply unpack_ok|tauto|by apply Hm]. }
  - left. exists m', lv'. split; [done|]. split; [by eapply keeps_trans|]. split; [done|].
    intros j Hj. destruct (Hmap j Hj) as (f & Hown & Hcon). exists f. split; [done|]. intros old Hold.
    rewrite <-(ev_contents _ _ _ _ _ Hev). apply Hcon. by rewrite (ev_translate _ _ _ _ _ Hev) by (done || apply unpack_ok).
  - right. split; [done|]. eapply (halted_keeps _ _ _ _ _ (in_range r q n)); done.
Qed.


End mapping.
