(* ===== verification/PageUnmapping.v ===== *)
(** Unmapping a page: [unmap] takes the page from its address space, releases
    the frame and the tables that become empty, and leaves every other page
    alone. *)
From stdpp Require Import base list numbers gmap.
From S2P Require Import Prelude VmAllocator Zones Paging PageFacts PageSharing PageMapping.

Set Default Proof Using "Type".
Local Open Scope Z_scope.

#[local] Opaque empty_table share_loop.

Section unmapping.
Context {S : Type} `{FSL : FrameStoreLaws S}.
Implicit Types (m : pmem S) (t f r i e : Z) (lv : gmap Z nat) (ix : indices).

(** The counters of the live tables but [r]. *)
Definition counters_but m lv r : Prop :=
  ∀ t l, lv !! t = Some l → (l < 4)%nat → t ≠ r → counter_of m t = kids 512 m t 0.

Lemma set_counter_ok m lv t n : pages_ok m lv → pages_ok (set_counter m t n) lv.
Proof. intros Hok. apply (set_counter_evolves m lv t n Hok). Qed.

(** ** The leaf *)

Lemma clear_leaf_spec m lv r a b c d t3 t2 t1 e (s : S) :
  let f := get_addr e in
  pages_ok m lv → counters_ok m lv → chain m lv r a b c t3 t2 t1 → lv !! r = Some 0%nat → index_ok (a, b, c, d) →
  read m t1 d = Some e → is_present e = true →
  (if fs_known (store m) f then fs_deallocate (store m) f else Some (store m)) = Some s →
  ∃ m1 lv1, write (set_store m s) t1 d (set_flags e 0) = Some m1 ∧ counter_of m1 t1 = counter_of m t1 ∧
    0 < counter_of m t1 ∧
    let m2 := sub_page_table_counter m1 t1 in
    keeps m lv m2 lv1 0 (λ r' ix, r' = r ∧ ix = (a, b, c, d)) ∧ counters_ok m2 lv1 ∧ chain m2 lv1 r a b c t3 t2 t1 ∧
    translate m2 r (a, b, c, d) = None.
Proof.
  intros f Hok Hco Hch Hr Hix He Hpr Hs. assert (index_ok (a, b, c, d)) as (_ & _ & _ & Hd) by done.
  pose proof (ch_level1 _ _ _ _ _ _ _ _ _ Hch) as L1. destruct (pk_entry _ _ Hok t1 3 d e L1 ltac:(lia) ltac:(lia) He) as [Her _].
  destruct (reflag_entry e 0 Her ltac:(lia)) as (He1 & _ & He3 & _).
  assert (child m t1 d = Some f) as Hc0 by (unfold child; rewrite He; simpl; by rewrite Hpr).
  destruct (write_some m lv (set_store m s) t1 3 d (set_flags e 0)) as [m1 Hm1]; try done; [lia|].
  assert (fs_ok s ∧ (∀ g, g ≠ f → fs_reference s g = reference m g) ∧ (∀ g, fs_known s g = fs_known (store m) g) ∧
          (is_Some (lv !! f) → lv !! f = Some 4%nat ∧ fs_reference s f = reference m f - 1) ∧ (∀ g, fs_reference s g ≤ reference m g))
    as (Hs0 & Hrg & Hkn & Hrf & Hle).
  { destruct (child_level m lv t1 3 d f) as [Lf|[_ Hun]]; try done; [lia|lia| |].
    - destruct (pk_frame _ _ Hok f 4 Lf) as (_ & Hpos & Hk). rewrite Hk in Hs.
      destruct (fs_deallocate_spec (store m) f (pk_store _ _ Hok) Hpos) as (s' & Hd' & Hs' & Hr' & Hk').
      rewrite Hs in Hd'. injection Hd' as <-. split; [done|]. split; [intros g Hg; by rewrite Hr', decide_False|].
      split; [done|]. split; [intros _; split; [done|]; by rewrite Hr', decide_True|].
      intros g. rewrite Hr'. unfold reference. destruct (decide (g = f)) as [->|]; lia.
    - rewrite Hun in Hs. injection Hs as <-. split; [apply Hok|]. split; [done|]. split; [done|]. split; [|intros g; unfold reference; lia].
      intros [k Hk]. destruct (pk_frame _ _ Hok f k Hk) as (_ & _ & ?). congruence. }
  destruct (clear_slot_ok m lv t1 3 d e f (set_flags e 0) s m1) as (Hok1 & Es & Ec & Eo & Hc1 & Hrd1); try done.
  { lia. } { intros Hf. by apply Hrf. }
  assert (0 < counter_of m t1) as Hpos.
  { rewrite (Hco t1 3%nat) by (done || lia). pose proof (kids_nonneg 512 m t1 0).
    destruct (decide (kids 512 m t1 0 = 0)) as [Hz|]; [|lia]. by rewrite (kids_zero 512 m t1 0 d Hz) in Hc0 by lia. }
  exists m1, (release m lv f). split; [done|]. split; [by unfold counter_of; rewrite Ec|]. split; [done|]. cbv zeta.
  set (m2 := sub_page_table_counter m1 t1).
  assert (∀ t k, (k < 4)%nat → release m lv f !! t = Some k ↔ lv !! t = Some k) as Hlv.
  { intros t k Hk. rewrite release_lookup. split; [by intros [? _]|]. intros Ht. split; [done|]. intros ->.
    destruct Hrf as [Hf _]; [by eauto|]. rewrite Ht in Hf. injection Hf. lia. }
  assert (counters_ok m2 (release m lv f)) as Hco2.
  { intros t k Ht Hk. apply Hlv in Ht; [|done]. unfold m2, sub_page_table_counter. rewrite counter_of_set.
    change (kids 512 (set_counter m1 t1 (u16 (counter_of m1 t1 - 1))) t 0) with (kids 512 m1 t 0). unfold counter_of. rewrite Ec.
    fold (counter_of m t1) (counter_of m t). destruct (decide (t = t1)) as [->|Htn].
    - rewrite (Hco t1 k) in * by done. rewrite (kids_add 512 m1 m t1 0 d) in * by first
        [lia|by eauto|by rewrite Hc1, decide_True by (done || lia)|intros j Hj Hn; by rewrite Hc1, decide_False by (done || tauto)].
      pose proof (kids_bound 512 m1 t1 0). pose proof (kids_nonneg 512 m1 t1 0). rewrite u16_small by lia. lia.
    - rewrite (Hco t k) by done. symmetry. apply kids_ext. intros j Hj. by rewrite Hc1, decide_False by (lia || tauto). }
  assert (∀ g, reference m2 g = fs_reference s g) as Hr2 by (intros g; unfold reference; change (store m2) with (store m1); by rewrite Es).
  destruct (leaf_change m lv m2 (release m lv f) r a b c d t3 t2 t1 0) as (Hk & Hch' & Htr); try done.
  { by apply set_counter_ok. } { intros t j Hj Hne. change (child m2 t j) with (child m1 t j). by rewrite Hc1, decide_False by done. }
  { intros g _. change (contents m2) with (contents m1). by rewrite Eo. }
  { intros g k Hg Hk. rewrite Hr2. apply Hrg. intros ->. destruct Hrf as [Hf _]; [by eauto|]. rewrite Hg in Hf. injection Hf. lia. }
  { intros g. rewrite Hr2, Z.add_0_r. apply Hle. } { intros g. change (store m2) with (store m1). by rewrite Es. }
  split; [done|]. split; [done|]. split; [done|]. rewrite Htr. change (child m2 t1 d) with (child m1 t1 d).
  by rewrite Hc1, decide_True by (done || lia).
Qed.

(** ** Empty tables *)

(** [drop_table] of table [t] at entry [i] of [parent]: the translation of no
    page changes. *)
Record dropped m lv parent (l : nat) i m' lv' : Prop := Build_dropped {
  dr_keeps : keeps m lv m' lv' 0 (λ _ _, False);
  dr_levels : ∀ x k, (k ≤ l)%nat → lv' !! x = Some k ↔ lv !! x = Some k;
  dr_live : ∀ x k, lv' !! x = Some k → lv !! x = Some k;
  dr_child : ∀ x j, 0 ≤ j → ¬ (x = parent ∧ j = i) → child m' x j = child m x j;
  dr_refs : ∀ f k, lv !! f = Some k → (k ≤ l)%nat → reference m' f = reference m f;
}.

Lemma dropped_refl m lv parent l i : pages_ok m lv → dropped m lv parent l i m lv.
Proof. intros Hok. constructor; try done. by apply evolves_keeps, evolves_refl. Qed.

Lemma drop_empty_spec m lv parent l i t e (s : S) m1 :
  pages_ok m lv → lv !! parent = Some l → (l < 3)%nat → 0 ≤ i < 512 → read m parent i = Some e → is_present e = true →
  get_addr e = t → lv !! t = Some (Datatypes.S l) → reference m t = 1 → kids 512 m t 0 = 0 → fs_deallocate (store m) t = Some s →
  write (set_store m s) parent i (set_flags e 0) = Some m1 →
  dropped m lv parent l i m1 (delete t lv) ∧ counters m1 = counters m ∧ child m1 parent i = None.
Proof.
  intros Hok Hp Hl Hi He Hpr Ha Ht Hr1 Hk0 Hd Hw.
  destruct (pk_entry _ _ Hok parent l i e Hp ltac:(lia) ltac:(lia) He) as [Her _].
  destruct (reflag_entry e 0 Her ltac:(lia)) as (He1 & _ & He3 & _).
  destruct (fs_deallocate_spec (store m) t (pk_store _ _ Hok)) as (s' & Hd' & Hs & Hrs & Hks); [unfold reference in Hr1; lia|].
  rewrite Hd in Hd'. injection Hd' as <-.
  destruct (clear_slot_ok m lv parent l i e t (set_flags e 0) s m1) as (Hok1 & Es & Ec & Eo & Hc1 & _); try done.
  { lia. } { intros g Hg. by rewrite Hrs, decide_False. } { intros _. by rewrite Hrs, decide_True. }
  unfold release in Hok1. rewrite decide_True in Hok1 by done.
  assert (∀ g, g ≠ t → reference m1 g = reference m g) as Hrg by (intros g Hg; unfold reference; by rewrite Es, Hrs, decide_False).
  assert (child m parent i = Some t) as Hc by (unfold child; rewrite He; simpl; by rewrite Hpr, Ha).
  assert (∀ j, 0 ≤ j → child m t j = None) as Hempty.
  { intros j Hj. destruct (child m t j) as [g|] eqn:E; [|done].
    assert (j < 512) by (apply (child_range m lv t j g); try done; exists (Datatypes.S l); split; [done|lia]).
    by rewrite (kids_zero 512 m t 0 j Hk0) in E by lia. }
  assert (child m1 parent i = None) as Hcn by (by rewrite Hc1, decide_True by (done || lia)).
  assert (∀ x k, (k ≤ l)%nat → delete t lv !! x = Some k ↔ lv !! x = Some k) as Hlv.
  { intros x k Hk. rewrite lookup_delete_Some. split; [by intros [_ ?]|]. intros Hx. split; [|done]. intros ->.
    rewrite Ht in Hx. injection Hx. lia. }
  split; [|split; [congruence|done]]. constructor; try done.
  - constructor; try done.
    + intros r. apply Hlv. lia.
    + intros r [[[a b] c] d] Hr (Ha' & Hb' & Hc' & Hd') _. rewrite !translate_walk. symmetry.
      apply (walk_add_empty m1 m (delete t lv) parent i t [a; b; c; d] r 0%nat); try done.
      * intros k Hk. apply lookup_delete_Some in Hk as [_ Hk]. rewrite Hp in Hk. by injection Hk as <-.
      * intros x j Hj _ Hn. rewrite Hc1, decide_False by done. done.
      * by apply Hlv; [lia|].
      * repeat (apply Forall_cons_2; [lia|]). apply Forall_nil_2.
    + intros. by rewrite Eo.
    + intros g. destruct (decide (g = t)) as [->|]; [|rewrite Hrg by done; lia].
      unfold reference. rewrite Es, Hrs, decide_True by done. lia.
    + intros g. by rewrite Es.
  - by intros x k [_ Hx]%lookup_delete_Some.
  - intros x j Hj Hn. by rewrite Hc1, decide_False.
  - intros f k Hf Hk. apply Hrg. intros ->. rewrite Ht in Hf. injection Hf. lia.
Qed.

Lemma drop_table_spec m lv parent l i t count :
  pages_ok m lv → counters_ok m lv → lv !! parent = Some l → (l < 3)%nat → 0 ≤ i < 512 → child m parent i = Some t →
  reference m t = 1 →
  ∃ m' lv', drop_table m parent i t count = Some m' ∧ dropped m lv parent l i m' lv' ∧
    if count : bool then counters_ok m' lv' else counters_but m' lv' parent.
Proof.
  intros Hok Hco Hp Hl Hi Hc Hr1. assert (lv !! t = Some (Datatypes.S l)) as Ht by (apply (child_table m lv parent l i); (done || lia)).
  unfold drop_table. rewrite (Hco t (Datatypes.S l)) by (done || lia). destruct (kids 512 m t 0 =? 0) eqn:Ek.
  2:{ exists m, lv. split; [done|]. split; [by apply dropped_refl|]. destruct count; [done|]. intros x k Hx Hk _. by apply (Hco x k). }
  apply Z.eqb_eq in Ek.
  assert (∃ e, read m parent i = Some e ∧ is_present e = true ∧ get_addr e = t) as (e & He & Hpr & Ha).
  { unfold child in Hc. destruct (read m parent i) as [e|]; [|done]. simpl in Hc. exists e.
    destruct (is_present e); [|done]. by injection Hc. }
  destruct (fs_deallocate_spec (store m) t (pk_store _ _ Hok)) as (s & Hd & _); [unfold reference in Hr1; lia|].
  unfold delete_page_table. rewrite Hd. cbn [mbind option_bind fmap option_fmap option_map].
  change (read (set_store m s) parent i) with (read m parent i). rewrite He. cbn [mbind option_bind].
  destruct (write_some m lv (set_store m s) parent l i (set_flags e 0)) as [m1 Hm1]; try done; [lia|].
  rewrite Hm1. cbn [mbind option_bind].
  destruct (drop_empty_spec m lv parent l i t e s m1) as (Hdr & Ec & Hcn); try done.
  assert (∀ x k, delete t lv !! x = Some k → (k < 4)%nat → x ≠ parent → counter_of m1 x = kids 512 m1 x 0) as Hothers.
  { intros x k [_ Hx]%lookup_delete_Some Hk Hn. unfold counter_of. rewrite Ec. fold (counter_of m x). rewrite (Hco x k) by done.
    symmetry. apply kids_ext. intros j Hj. by rewrite (dr_child _ _ _ _ _ _ _ Hdr) by (lia || tauto). }
  destruct count; [|exists m1, (delete t lv); by split; [|split]].
  assert (counter_of m1 parent = kids 512 m1 parent 0 + 1) as Hcp.
  { unfold counter_of. rewrite Ec. fold (counter_of m parent). rewrite (Hco parent l) by (done || lia).
    apply kids_add with i; [lia|done|by eauto|]. intros j Hj Hn. symmetry. apply Hdr; [lia|tauto]. }
  pose proof (kids_bound 512 m1 parent 0). pose proof (kids_nonneg 512 m1 parent 0).
  assert ((0 <? counter_of m1 parent) = true) as -> by (apply Z.ltb_lt; lia).
  exists (sub_page_table_counter m1 parent), (delete t lv). split; [done|]. destruct Hdr as [[D1 D2 D3 D4 D5 D6] D7 D8 D9 D10]. split.
  - constructor; try done. constructor; try done. by apply set_counter_ok.
  - intros x k Hx Hk. unfold sub_page_table_counter. rewrite counter_of_set.
    change (kids 512 (set_counter m1 parent (u16 (counter_of m1 parent - 1))) x 0) with (kids 512 m1 x 0).
    destruct (decide (x = parent)) as [->|Hn]; [|by apply (Hothers x k)]. rewrite Hcp, u16_small by lia. lia.
Qed.

(** ** Unmapping *)

Lemma keeps_silent m lv m' lv' (P : Z → indices → Prop) : keeps m lv m' lv' 0 (λ _ _, False) → keeps m lv m' lv' 0 P.
Proof. intros Hk. apply (keeps_mono m lv m' lv' 0 0 (λ _ _, False)); [lia|by intros ? ? []|done]. Qed.

(** The three tables of an unmapped page, from the lowest up. *)
Lemma drop_tables_spec m lv r a b c t3 t2 t1 :
  pages_ok m lv → counters_ok m lv → chain m lv r a b c t3 t2 t1 → lv !! r = Some 0%nat →
  0 ≤ a < 512 → 0 ≤ b < 512 → 0 ≤ c < 512 →
  ∃ m' lv', (m ← drop_table m t2 c t1 true; m ← drop_table m t3 b t2 true; drop_table m r a t3 false) = Some m' ∧
    keeps m lv m' lv' 0 (λ _ _, False) ∧ counters_but m' lv' r.
Proof.
  intros Hok Hco [C3 C2 C1 S3 S2 S1 L3 L2 L1] Hr Ha Hb Hc.
  assert (∀ x y k k', lv !! x = Some k → lv !! y = Some k' → k ≠ k' → x ≠ y) as Hne by congruence.
  destruct (drop_table_spec m lv t2 2 c t1 true) as (m1 & lv1 & -> & [K1 V1 _ H1 R1] & Hco1); try done; [lia|].
  cbn [mbind option_bind].
  destruct (drop_table_spec m1 lv1 t3 1 b t2 true) as (m2 & lv2 & -> & [K2 V2 _ H2 R2] & Hco2); try done.
  { apply K1. } { apply V1; [lia|done]. } { lia. }
  { rewrite H1; [done|lia|]. intros [E _]. by apply (Hne t3 t2 1%nat 2%nat). } { by rewrite (R1 t2 2%nat) by (done || lia). }
  cbn [mbind option_bind].
  destruct (drop_table_spec m2 lv2 r 0 a t3 false) as (m3 & lv3 & -> & [K3 V3 _ H3 R3] & Hco3); try done.
  { apply K2. } { apply V2; [lia|]. by apply V1; [lia|]. } { lia. }
  { rewrite H2; [rewrite H1; [done|lia|]|lia|].
    - intros [E _]. by apply (Hne r t2 0%nat 2%nat).
    - intros [E _]. by apply (Hne r t3 0%nat 1%nat). }
  { rewrite (R2 t3 1%nat), (R1 t3 1%nat) by (done || lia || by apply V1; [lia|]). done. }
  exists m3, lv3. split; [done|]. split; [|done].
  replace 0 with (0 + (0 + 0)) by done. repeat (eapply keeps_trans; [eassumption|]). done.
Qed.

Lemma unmap_page_spec m lv r ix flags f :
  pages_ok m lv → counters_ok m lv → lv !! r = Some 0%nat → index_ok ix → translate m r ix = Some f →
  0 ≤ flags < 128 → Z.odd flags = true → (∀ g, reference m g + 1700 < 2 ^ 32 - 1) →
  (∃ m' lv', unmap_page m r ix flags = Some m' ∧ keeps m lv m' lv' 1539 (λ r' ix', r' = r ∧ ix' = ix) ∧
     counters_but m' lv' r ∧ translate m' r ix = None) ∨
  unmap_page m r ix flags = None ∧ halted m lv (λ _ _, False).
Proof.
  intros Hok Hco Hr Hix Htr Hf Hodd Hsmall. destruct ix as [[[a b] c] d]. assert (index_ok (a, b, c, d)) as (Ha & Hb & Hc & Hd) by done.
  unfold unmap_page. set (actions := Z.lor Action.cow (Z.lor Action.override Action.copy_all)).
  assert (splits flags actions) as Hs by (apply splits_spec; by right).
  destruct (ensure3_spec m lv r a b c flags actions) as [(m1 & lv1 & t3 & t2 & t1 & -> & Hev & Hco1 & Hch)|[-> Hst]]; try done.
  2:{ right. split; [done|]. destruct Hst as (m1 & lv1 & k & Hev & Hst). exists m1, lv1, k. split; [by apply evolves_keeps|done]. }
  left. cbn [mbind option_bind]. pose proof Hch as [C3 C2 C1 S3 S2 S1 L3 L2 L1]. pose proof (ev_ok _ _ _ _ _ Hev) as Hok1.
  assert (lv1 !! r = Some 0%nat) as Hr1 by (by apply Hev).
  rewrite (next_table_child m1 r a t3 C3). cbn [mbind option_bind]. rewrite (next_table_child m1 t3 b t2 C2). cbn [mbind option_bind].
  rewrite (next_table_child m1 t2 c t1 C1). cbn [mbind option_bind].
  pose proof (chain_write m1 m1 lv1 r a b c d t3 t2 t1 Hok1 Hch Hr1 Hix ltac:(done)) as [Heq _].
  rewrite (ev_translate _ _ _ _ _ Hev) in Heq by done. rewrite Htr in Heq.
  assert (∃ e, read m1 t1 d = Some e ∧ is_present e = true) as (e & He & Hpr).
  { unfold child in Heq. destruct (read m1 t1 d) as [e|]; [|done]. simpl in Heq. exists e. by destruct (is_present e). }
  rewrite He. cbn [mbind option_bind]. unfold reference in S3, S2, S1. rewrite S3, S2, S1. cbn [negb andb Z.eqb Pos.eqb].
  assert (∃ s, (if fs_known (store m1) (get_addr e) then fs_deallocate (store m1) (get_addr e) else Some (store m1)) = Some s) as [s Hsd].
  { destruct (fs_known (store m1) (get_addr e)) eqn:Ek; [|by eauto].
    destruct (child_level m1 lv1 t1 3 d (get_addr e)) as [Lf|[_ ?]]; try done; [lia|lia|by unfold child; rewrite He; simpl; rewrite Hpr| |congruence].
    destruct (pk_frame _ _ Hok1 _ 4 Lf) as (_ & Hpos & _).
    destruct (fs_deallocate_spec (store m1) (get_addr e) (pk_store _ _ Hok1) Hpos) as (s & Hs' & _). eauto. }
  rewrite Hsd. cbn [mbind option_bind].
  destruct (clear_leaf_spec m1 lv1 r a b c d t3 t2 t1 e s) as (m2 & lv2 & -> & Hcnt & Hpos & Hk & Hco2 & Hch2 & Htr2); try done.
  cbn [mbind option_bind]. rewrite Hcnt. assert ((0 <? counter_of m1 t1) = true) as -> by (by apply Z.ltb_lt). cbn [negb].
  destruct (drop_tables_spec (sub_page_table_counter m2 t1) lv2 r a b c t3 t2 t1) as (m3 & lv3 & -> & Hk3 & Hco3); try done.
  { apply Hk. } { by apply Hk. }
  exists m3, lv3. split; [done|]. split; [|split; [done|]].
  - replace 1539 with (1539 + (0 + 0)) by done. eapply keeps_trans; [by apply evolves_keeps|]. eapply keeps_trans; [exact Hk|].
    by apply keeps_silent.
  - rewrite (kp_translate _ _ _ _ _ _ Hk3); [done|by apply Hk|done|by intros []].
Qed.

(** The entry of page [ix] has no bit of a large page. *)
Definition plain_leaf m r ix : Prop :=
  let '(a, b, c, d) := ix in
  ∀ t e, walk m r [a; b; c] = Some t → read m t d = Some e → is_big_page e = false.

Lemma read_child m lv t l i :
  pages_ok m lv → lv !! t = Some l → (l < 4)%nat → 0 ≤ i < 512 →
  ∃ e, read m t i = Some e ∧ child m t i = if is_present e then Some (get_addr e) else None.
Proof.
  intros Hok Ht Hl Hi. destruct (read_table m lv t l i Hok Ht Hl Hi) as [e He]. exists e. split; [done|].
  unfold child. by rewrite He.
Qed.

(** The loop of [unmap] on one page. *)
Lemma unmap_one m lv r ix a b c d :
  ix = (a, b, c, d) → pages_ok m lv → lv !! r = Some 0%nat → index_ok ix → plain_leaf m r ix →
  unmap_loop 1 m r a ix 0 1 = Some m ∧ translate m r ix = None ∨
  (∃ f flags, unmap_loop 1 m r a ix 0 1 = unmap_page m r ix flags ∧ translate m r ix = Some f ∧
     0 ≤ flags < 128 ∧ Z.odd flags = true).
Proof.
  intros -> Hok Hr Hix Hpl. cbn [unmap_loop]. rewrite normalize_ok by done. cbn [Z.ltb Z.compare]. destruct Hix as (Ha & Hb & Hc & Hd).
  destruct (read_child m lv r 0 a Hok Hr ltac:(lia) Ha) as (e4 & E4 & C4). rewrite E4. cbn [mbind option_bind]. unfold translate. rewrite C4.
  destruct (is_present e4) eqn:P4; cbn [negb mbind option_bind]; [|by left].
  assert (lv !! get_addr e4 = Some 1%nat) as X3 by (apply (child_table m lv r 0 a); (done || lia)).
  destruct (read_child m lv _ 1 b Hok X3 ltac:(lia) Hb) as (e3 & E3 & C3). rewrite E3, C3. cbn [mbind option_bind].
  destruct (is_present e3) eqn:P3; cbn [negb mbind option_bind]; [|by left].
  assert (lv !! get_addr e3 = Some 2%nat) as X2 by (apply (child_table m lv (get_addr e4) 1 b); (done || lia)).
  destruct (read_child m lv _ 2 c Hok X2 ltac:(lia) Hc) as (e2 & E2 & C2). rewrite E2, C2. cbn [mbind option_bind].
  destruct (is_present e2) eqn:P2; cbn [negb mbind option_bind]; [|by left].
  assert (lv !! get_addr e2 = Some 3%nat) as X1 by (apply (child_table m lv (get_addr e3) 2 c); (done || lia)).
  destruct (read_child m lv _ 3 d Hok X1 ltac:(lia) Hd) as (e1 & E1 & C1). rewrite E1, C1. cbn [mbind option_bind].
  destruct (is_present e1) eqn:P1; [|by left]. right. exists (get_addr e1), (entry_flags e1). split; [|split; [done|]].
  - by destruct (unmap_page m r (a, b, c, d) (entry_flags e1)).
  - split.
    + apply entry_flags_small, (Hpl (get_addr e2)); [|done]. cbn [walk]. rewrite C4. cbn [mbind option_bind]. rewrite C3.
      cbn [mbind option_bind]. by rewrite C2.
    + rewrite is_present_odd in P1. unfold entry_flags. change 0xFF with (Z.ones 8).
      rewrite <-Z.bit0_odd, Z.land_spec, Z.bit0_odd, P1. done.
Qed.


End unmapping.
