(* ===== verification/PageFork.v ===== *)
(** Sharing an address space: what [clone_readonly_to] gives the child of a
    fork, and samples of page-table operations on shared and dropped tables. *)
From stdpp Require Import base list numbers gmap.
From S2P Require Import Prelude VmAllocator Zones Paging PageFacts PageSharing PageMapping PageUnmapping.

Set Default Proof Using "Type".
Local Open Scope Z_scope.

#[local] Opaque empty_table share_loop.

Section fork.
Context {S : Type} `{FSL : FrameStoreLaws S}.
Implicit Types (m : pmem S) (t f r i e : Z) (lv : gmap Z nat) (ix : indices).

Lemma clone_step m lv base to a e :
  let c := get_addr e in
  let e' := set_flags e (Z.ldiff (entry_flags e) PageFlags.writable) in
  pages_ok m lv → counters_ok m lv → lv !! base = Some 0%nat → lv !! to = Some 0%nat → base ≠ to → 0 ≤ a < 512 →
  read m base a = Some e → is_present e = true → child m to a = None → (∀ f, reference m f < 2 ^ 32 - 1) →
  ∃ s m1 m2, fs_add_reference (store m) c = Some s ∧ write (set_store m s) base a e' = Some m1 ∧
    write m1 to a e' = Some m2 ∧
    let m' := add_page_table_counter m2 to in
    pages_ok m' lv ∧ counters_ok m' lv ∧ contents m' = contents m ∧
    (∀ t j, 0 ≤ j → child m' t j = if decide (t = to ∧ j = a) then Some c else child m t j) ∧
    (∀ f, reference m' f ≤ reference m f + 1).
Proof.
  intros c e' Hok Hco Hb Ht Hbt Ha He Hpr Hto Hsmall.
  assert (child m base a = Some c) as Hc by (unfold child; rewrite He; simpl; by rewrite Hpr).
  assert (lv !! c = Some 1%nat) as Lc by (apply (child_table m lv base 0 a); (done || lia)).
  destruct (pk_frame _ _ Hok c 1 Lc) as (_ & Hpos & _). unfold reference in Hpos.
  destruct (fs_add_reference_spec (store m) c (pk_store _ _ Hok)) as (s & Hs & Hso & Hrs & Hks); [specialize (Hsmall c); unfold reference in Hsmall; lia|].
  assert (∀ f, fs_reference s f = if decide (f = c) then reference m c + 1 else reference m f) as Hrs' by done.
  assert (pages_ok (set_store m s) lv) as Hok1.
  { apply set_store_ok; [done|done| |done]. intros f. rewrite Hrs'. destruct (decide (f = c)) as [->|]; lia. }
  destruct (pk_entry _ _ Hok base 0 a e Hb ltac:(lia) ltac:(lia) He) as [Her Hbig]. destruct (Hbig Hpr) as [_ Hnb].
  pose proof (entry_flags_small e ltac:(by apply Hnb)) as Hfl.
  assert (Z.odd (entry_flags e) = true) as Hodd.
  { rewrite is_present_odd in Hpr. unfold entry_flags. change 0xFF with (Z.ones 8).
    by rewrite <-Z.bit0_odd, Z.land_spec, Z.bit0_odd, Hpr. }
  destruct (ldiff_flags (entry_flags e) PageFlags.writable Hfl Hodd eq_refl) as [Hf1 Hf2].
  destruct (reflag_entry e (Z.ldiff (entry_flags e) PageFlags.writable) Her ltac:(lia)) as (He1 & He2 & He3 & _). fold e' in He1, He2, He3.
  assert (is_present e' = true) as Hpr' by (by rewrite He3).
  destruct (write_total (set_store m s) lv base 0 a e' Hok1 Hb ltac:(lia) Ha) as [m1 Hm1].
  destruct (reflag_evolves (set_store m s) lv base 0 a e e' m1) as [Hev Hch1]; try done; [lia|congruence|intros _ _; by apply reflag_not_big|].
  destruct (entry_write_spec _ base a e' m1 ltac:(lia) Hm1) as (Es1 & Ec1 & Eo1 & _). simpl in Es1, Ec1, Eo1.
  pose proof (ev_ok _ _ _ _ _ Hev) as Hokm1. destruct (read_table m1 lv to 0 a Hokm1 Ht ltac:(lia) Ha) as [e0 He0].
  assert (is_present e0 = false) as Hp0.
  { assert (child m1 to a = None) as Hn by (rewrite Hch1 by lia; exact Hto). unfold child in Hn. rewrite He0 in Hn. simpl in Hn.
    by destruct (is_present e0). }
  destruct (write_total m1 lv to 0 a e' Hokm1 Ht ltac:(lia) Ha) as [m2 Hm2].
  destruct (add_slot_ok m1 lv to 0 a e0 c e' (store m1) m2) as (Hok2 & Es2 & Ec2 & Eo2 & Hch2 & _); try done.
  { lia. } { intros _. by apply reflag_not_big. } { apply Hokm1. }
  { intros ls Hnd Hls. rewrite Es1, Hrs', decide_True by done.
    pose proof (pk_refs _ _ Hok c 0 Lc ls Hnd) as Hle. assert (Z.of_nat (length ls) ≤ reference m c); [|lia].
    apply Hle. eapply Forall_impl; [exact Hls|]. intros x (H1 & H2 & H3). split; [done|]. split; [done|].
    change (child (set_store m s) x.1 x.2 = Some c). by rewrite <-Hch1 by lia. }
  exists s, m1, m2. split; [done|]. split; [done|]. split; [done|]. cbv zeta. set (m' := add_page_table_counter m2 to).
  assert (∀ t j, 0 ≤ j → child m' t j = if decide (t = to ∧ j = a) then Some c else child m t j) as Hch.
  { intros t j Hj. change (child m' t j) with (child m2 t j). rewrite Hch2 by done. destruct (decide _); [done|]. by apply Hch1. }
  split; [by apply set_counter_ok|]. split; [|split; [|split; [done|]]].
  - intros t k Hk Hk4.
    assert (counter_of m' t = if decide (t = to) then u16 (counter_of m to + 1) else counter_of m t) as ->.
    { unfold m', add_page_table_counter. rewrite counter_of_set. unfold counter_of. by rewrite Ec2, Ec1. }
    destruct (decide (t = to)) as [->|Hn]; rewrite (Hco _ k) by done.
    + rewrite (kids_add 512 m m' to 0 a) by first [lia|done|rewrite Hch, decide_True by (done || lia); by eauto|
        intros j Hj Hn; by rewrite Hch, decide_False by (done || tauto)].
      pose proof (kids_bound 512 m to 0). pose proof (kids_nonneg 512 m to 0). apply u16_small. lia.
    + symmetry. apply kids_ext. intros j Hj. by rewrite Hch, decide_False by (lia || tauto).
  - change (contents m') with (contents m2). by rewrite Eo2, Eo1.
  - intros f. unfold reference. change (store m') with (store m2). rewrite Es2, Es1, Hrs'. unfold reference.
    destruct (decide (f = c)) as [->|]; lia.
Qed.

(** At an absent entry the loop runs out its pages in place. *)
Lemma clone_loop_idle fuel m base to a i pages e :
  read m base a = Some e → is_present e = false → clone_loop fuel m base to a i pages = Some m.
Proof.
  intros He Hp. revert i. induction fuel as [|fuel IH]; intros i; [done|]. cbn [clone_loop].
  destruct (i <? pages); [|done]. rewrite He. cbn [mbind option_bind]. rewrite Hp. apply IH.
Qed.

Lemma page_clone_loop_spec fuel m lv base to a i pages g :
  pages_ok m lv → counters_ok m lv → lv !! base = Some 0%nat → lv !! to = Some 0%nat → base ≠ to →
  0 ≤ a ≤ g → g < 512 → child m base g = None → (∀ j, a ≤ j < g → is_Some (child m base j)) →
  (∀ j, a ≤ j → child m to j = None) → (∀ f, reference m f + (g - a) < 2 ^ 32 - 1) →
  g - a ≤ Z.of_nat fuel → (a < g → i + (g - a - 1) * huge_pages < pages) →
  ∃ m', clone_loop fuel m base to a i pages = Some m' ∧ pages_ok m' lv ∧ counters_ok m' lv ∧ contents m' = contents m ∧
    (∀ f, reference m' f ≤ reference m f + (g - a)) ∧
    ∀ t j, 0 ≤ j → child m' t j = if decide (t = to ∧ a ≤ j < g) then child m base j else child m t j.
Proof.
  revert m a i. induction fuel as [|fuel IH]; intros m a i Hok Hco Hb Ht Hbt Ha Hg Hgap Hrun Hto Hsmall Hfuel Hpages.
  { exists m. split; [done|]. do 3 (split; [done|]). split; [lia|]. intros t j Hj. by rewrite decide_False by lia. }
  destruct (read_child m lv base 0 a Hok Hb ltac:(lia) ltac:(lia)) as (e & He & Hc).
  destruct (decide (a = g)) as [->|Hn].
  - rewrite Hgap in Hc. destruct (is_present e) eqn:Hp; [done|]. exists m. rewrite (clone_loop_idle _ _ _ _ _ _ _ e) by done.
    split; [done|]. do 3 (split; [done|]). split; [lia|]. intros t j Hj. by rewrite decide_False by lia.
  - destruct (is_present e) eqn:Hp; [|destruct (Hrun a ltac:(lia)) as [? ?]; congruence].
    cbn [clone_loop]. assert (0 < huge_pages) by done. assert ((i <? pages) = true) as -> by (apply Z.ltb_lt; nia).
    rewrite He. cbn [mbind option_bind]. rewrite Hp. cbn [negb].
    destruct (clone_step m lv base to a e) as (s & m1 & m2 & -> & Hm1 & Hm2 & Hok' & Hco' & Eo' & Hch' & Hrf'); try done.
    { lia. } { apply Hto. lia. } { intros f. specialize (Hsmall f). lia. }
    cbn [mbind option_bind]. rewrite Hm1. cbn [mbind option_bind]. rewrite Hm2. cbn [mbind option_bind].
    set (m' := add_page_table_counter m2 to) in *.
    assert (∀ j, 0 ≤ j → child m' base j = child m base j) as Hbase by (intros j Hj; rewrite Hch', decide_False by (done || tauto); done).
    destruct (IH m' (a + 1) (i + huge_pages)) as (m3 & Hl & Hok3 & Hco3 & Eo3 & Hrf3 & Hch3); try done.
    { lia. } { by rewrite Hbase by lia. } { intros j Hj. rewrite Hbase by lia. apply Hrun. lia. }
    { intros j Hj. rewrite Hch', decide_False by lia. apply Hto. lia. }
    { intros f. specialize (Hsmall f). specialize (Hrf' f). lia. } { lia. } { intros Hlt. specialize (Hpages ltac:(lia)). nia. }
    exists m3. split; [done|]. split; [done|]. split; [done|]. split; [congruence|].
    split; [intros f; specialize (Hrf' f); specialize (Hrf3 f); lia|]. intros t j Hj. rewrite Hch3 by done. rewrite Hbase by done.
    destruct (decide (t = to ∧ a + 1 ≤ j < g)) as [[-> H1]|H1]; [by rewrite decide_True by lia|].
    rewrite Hch' by done. destruct (decide (t = to ∧ j = a)) as [[-> ->]|H2].
    + rewrite decide_True by lia. done.
    + rewrite decide_False; [done|]. intros [-> H3]. destruct (decide (j = a)) as [->|]; [by apply H2|apply H1; lia].
Qed.

Lemma clone_spec m lv base to pages g :
  pages_ok m lv → counters_ok m lv → lv !! base = Some 0%nat → lv !! to = Some 0%nat → base ≠ to →
  0 ≤ g < 512 → child m base g = None → (∀ j, 0 ≤ j < g → is_Some (child m base j)) →
  (∀ j, 0 ≤ j → child m to j = None) → (∀ f, reference m f + 512 < 2 ^ 32 - 1) → g * huge_pages ≤ pages →
  ∃ m', clone_readonly_to m base 0 pages to = Some m' ∧ pages_ok m' lv ∧ counters_ok m' lv ∧ contents m' = contents m ∧
    (∀ f, reference m' f ≤ reference m f + 512) ∧
    ∀ t j, 0 ≤ j → child m' t j = if decide (t = to ∧ 0 ≤ j < g) then child m base j else child m t j.
Proof.
  intros Hok Hco Hb Ht Hbt Hg Hgap Hrun Hto Hsmall Hpages. unfold clone_readonly_to.
  replace (unpack (from_virt_addr 0)) with (0, 0, 0, 0) by done. assert (0 < huge_pages) as Hh by done.
  assert (0 ≤ pages / huge_pages) by (apply Z.div_pos; nia).
  assert (g ≤ pages / huge_pages) by (apply Z.div_le_lower_bound; lia).
  destruct (page_clone_loop_spec (Z.to_nat (pages / huge_pages + 1)) m lv base to 0 0 pages g)
    as (m' & -> & Hok' & Hco' & Eo & Hrf & Hch); try done.
  { lia. } { lia. } { intros f. specialize (Hsmall f). lia. } { lia. } { nia. }
  cbn [mbind option_bind]. rewrite (counters_match m' lv to 0) by (done || lia). exists m'. split; [done|]. do 3 (split; [done|]).
  split; [|done]. intros f. specialize (Hrf f). lia.
Qed.

(** [clone_readonly_to] of the whole user range, into an empty address space
    [to], shares the top-level entries of [base] up to the first one that is not
    present and no others: below that gap [g] the two spaces map every page
    alike, from it on [to] maps nothing.  No other translation changes. *)
Theorem clone_shares_up_to_gap m lv base to pages g :
  pages_ok m lv → counters_ok m lv → lv !! base = Some 0%nat → lv !! to = Some 0%nat → base ≠ to →
  0 ≤ g < 512 → child m base g = None → (∀ j, 0 ≤ j < g → is_Some (child m base j)) →
  (∀ j, 0 ≤ j → child m to j = None) → (∀ f, reference m f + 512 < 2 ^ 32 - 1) → g * huge_pages ≤ pages →
  ∃ m', clone_readonly_to m base 0 pages to = Some m' ∧ pages_ok m' lv ∧ counters_ok m' lv ∧ contents m' = contents m ∧
    (∀ a b c d, index_ok (a, b, c, d) →
       translate m' to (a, b, c, d) = if decide (a < g) then translate m base (a, b, c, d) else None) ∧
    (∀ r ix, lv !! r = Some 0%nat → r ≠ to → index_ok ix → translate m' r ix = translate m r ix).
Proof.
  intros Hok Hco Hb Ht Hbt Hg Hgap Hrun Hto Hsmall Hpages.
  destruct (clone_spec m lv base to pages g) as (m' & -> & Hok' & Hco' & Eo & _ & Hch); try done.
  exists m'. split; [done|]. do 3 (split; [done|]).
  assert (∀ x j k, lv !! x = Some k → x ≠ to → 0 ≤ j → child m' x j = child m x j) as Hx.
  { intros x j k Hk Hn Hj. by rewrite Hch, decide_False by tauto. }
  assert (∀ t3 b c d, lv !! t3 = Some 1%nat → 0 ≤ b < 512 → 0 ≤ c < 512 → 0 ≤ d < 512 →
    (t2 ← child m' t3 b; t1 ← child m' t2 c; child m' t1 d) = (t2 ← child m t3 b; t1 ← child m t2 c; child m t1 d)) as Hrest.
  { intros t3 b c d L3 Hb' Hc Hd. rewrite (Hx t3 b 1%nat) by first [done|lia|intros ->; congruence].
    destruct (child m t3 b) as [t2|] eqn:E2; [|done]. cbn [mbind option_bind].
    assert (lv !! t2 = Some 2%nat) as L2 by (apply (child_table m lv t3 1 b); (done || lia)).
    rewrite (Hx t2 c 2%nat) by first [done|lia|intros ->; congruence].
    destruct (child m t2 c) as [t1|] eqn:E1; [|done]. cbn [mbind option_bind].
    assert (lv !! t1 = Some 3%nat) as L1 by (apply (child_table m lv t2 2 c); (done || lia)).
    apply (Hx t1 d 3%nat); [done|intros ->; congruence|lia]. }
  split.
  - intros a b c d (Ha & Hb' & Hc & Hd). unfold translate. rewrite Hch by lia. destruct (decide (a < g)) as [Hag|Hag].
    + rewrite decide_True by lia. destruct (child m base a) as [t3|] eqn:E3; [|done]. cbn [mbind option_bind].
      apply Hrest; [apply (child_table m lv base 0 a); (done || lia)|done|done|done].
    + rewrite decide_False by lia. by rewrite Hto by lia.
  - intros r [[[a b] c] d] Hr Hn (Ha & Hb' & Hc & Hd). unfold translate. rewrite (Hx r a 0%nat) by (done || lia).
    destruct (child m r a) as [t3|] eqn:E3; [|done]. cbn [mbind option_bind].
    apply Hrest; [apply (child_table m lv r 0 a); (done || lia)|done|done|done].
Qed.

End fork.

(** ** Samples *)

Module PageSample.
Import CountedFrames.

(** Two empty address spaces; a page in the first; the second forked from it. *)
Definition parent : Z := 0x1000.
Definition spawned : Z := 0x2000.
Definition empty_spaces : pmem counted_frames :=
  default (empty_memory parent)
    ('(_, m) ← new_page_table (empty_memory parent); '(_, m) ← new_page_table m; Some m).
Definition one_page : pmem counted_frames := default empty_spaces (map empty_spaces parent 0x400000 1 6 0).
Definition forked : pmem counted_frames :=
  default one_page (clone_readonly_to one_page parent 0 (2 ^ 35) spawned).
Definition page : indices := unpack (0x400000 / page_size).

(** The facts about a sample that the theorems ask for. *)
Definition sound (n : Z) (m : pmem counted_frames) (lv : gmap Z nat) : Prop :=
  pages_ok m lv ∧ counters_ok m lv ∧ lv !! parent = Some 0%nat ∧ lv !! spawned = Some 0%nat ∧
  ∀ f, reference m f ≤ n.

Lemma lookup_empty_default f : reference (empty_memory parent) f = 0.
Proof. unfold reference. simpl. unfold refs. simpl. by rewrite lookup_empty. Qed.

Lemma empty_memory_ok : pages_ok (empty_memory parent) ∅.
Proof.
  constructor; try (intros *; by rewrite lookup_empty). simpl. split; [split; [done|by exists 1]|]. by split.
Qed.

Lemma empty_spaces_sound : ∃ lv, sound 1 empty_spaces lv.
Proof.
  destruct (new_page_table (empty_memory parent)) as [[p1 m1]|] eqn:E1; [|by vm_compute in E1].
  destruct (new_page_table m1) as [[p2 m2]|] eqn:E2; [|by injection E1 as <- <-; vm_compute in E2].
  assert (p1 = parent ∧ p2 = spawned ∧ empty_spaces = m2) as (-> & -> & ->).
  { unfold empty_spaces. rewrite E1. cbn [mbind option_bind]. rewrite E2. cbn [mbind option_bind default].
    injection E1 as <- <-. injection E2 as <- <-. done. }
  destruct (new_table_ok _ _ _ _ 0 empty_memory_ok E1 ltac:(lia)) as (_ & Hok1 & _ & _ & _ & Hc1 & Hr1 & Hrf1 & Hz1 & Hk1).
  destruct (new_table_ok _ _ _ _ 0 Hok1 E2 ltac:(lia)) as (Hn & Hok2 & _ & _ & _ & Hc2 & Hr2 & Hrf2 & Hz2 & Hk2).
  eexists. split; [exact Hok2|]. split; [|split; [done|split; [done|]]].
  - intros t l Ht _. rewrite kids_none; [|intros j Hj].
    + rewrite Hk2, Hk1. by repeat destruct (decide _).
    + destruct (decide (t = spawned)) as [->|Hn2]; [apply Hc2; lia|].
      unfold child. rewrite Hr2 by done. fold (child m1 t j). destruct (decide (t = parent)) as [->|Hn1]; [apply Hc1; lia|].
      rewrite !lookup_insert_ne in Ht by done. done.
  - intros f. rewrite Hrf2, Hrf1. assert (reference (empty_memory parent) f = 0) as -> by apply lookup_empty_default.
    repeat destruct (decide _); lia.
Qed.

Lemma default_some {A} (d : A) (x : option A) : match x with Some _ => true | None => false end = true → x = Some (default d x).
Proof. by destruct x. Qed.

Lemma one_page_some : map empty_spaces parent (1024 * page_size) 1 6 0 = Some one_page.
Proof. apply (default_some empty_spaces). vm_compute. reflexivity. Qed.

Lemma one_page_sound : ∃ lv, sound 4000 one_page lv.
Proof.
  destruct empty_spaces_sound as (lv & Hok & Hco & Hp & Hs & Hsmall).
  assert (∀ j, 1024 ≤ j < 1024 + 1 → mappable empty_spaces parent (unpack j) 0) as Hm.
  { intros j Hj. assert (j = 1024) as -> by lia. by vm_compute. }
  destruct (map_spec empty_spaces lv parent 1024 1 6 0 Hok Hco Hp) as [(m & lv' & E & Hk & Hco' & _)|[E _]];
    [lia|lia|lia|lia|done|intros f; specialize (Hsmall f); lia|done| |]; rewrite one_page_some in E; [|discriminate E].
  apply (inj Some) in E as <-. exists lv'. split; [apply Hk|]. split; [done|]. split; [by apply Hk|]. split; [by apply Hk|].
  intros f. pose proof (kp_refs _ _ _ _ _ _ Hk f). specialize (Hsmall f). lia.
Qed.

Lemma forked_some : clone_readonly_to one_page parent 0 (2 ^ 35) spawned = Some forked.
Proof. apply (default_some one_page). vm_compute. reflexivity. Qed.

Lemma spawned_empty : tables one_page !! spawned = Some empty_table.
Proof. vm_compute. reflexivity. Qed.

Lemma spawned_no_child j : child one_page spawned j = None.
Proof.
  unfold child, read. rewrite spawned_empty. cbn [mbind option_bind].
  destruct (empty_table !! Z.to_nat j) as [e|] eqn:E; [|done]. by apply empty_table_lookup in E as ->.
Qed.

Lemma parent_gap : child one_page parent 1 = None ∧ is_Some (child one_page parent 0).
Proof. split; [vm_compute; reflexivity|]. vm_compute. eauto. Qed.

Lemma forked_sound : ∃ lv, sound 5000 forked lv.
Proof.
  destruct one_page_sound as (lv & Hok & Hco & Hp & Hs & Hsmall). destruct parent_gap as [Hgap Hrun]. exists lv.
  destruct (clone_spec one_page lv parent spawned (2 ^ 35) 1 Hok Hco Hp Hs) as (m' & E & Hok' & Hco' & _ & Hrf & _).
  - discriminate.
  - lia.
  - exact Hgap.
  - intros j Hj. assert (j = 0) as -> by lia. exact Hrun.
  - intros j _. apply spawned_no_child.
  - intros f. specialize (Hsmall f). lia.
  - vm_compute. discriminate.
  - rewrite forked_some in E. apply (inj Some) in E as <-. split; [exact Hok'|]. split; [exact Hco'|]. split; [exact Hp|]. split; [exact Hs|].
    intros f. specialize (Hrf f). specialize (Hsmall f). lia.
Qed.

Lemma spawned_page_mappable j :
  0x400000 / page_size ≤ j < 0x400000 / page_size + 1 → mappable forked spawned (unpack j) (Z.lor Action.override Action.cow).
Proof. change (0x400000 / page_size) with 1024. intros Hj. assert (j = 1024) as -> by lia. vm_compute. by split. Qed.

Lemma page_shared : translate forked parent page = translate forked spawned page ∧ is_Some (translate forked parent page).
Proof. split; [vm_compute; reflexivity|]. vm_compute. eauto. Qed.


Lemma plain_leaf_check (m : pmem counted_frames) r a b c d :
  match walk m r [a; b; c] with
  | Some t => match read m t d with Some e => negb (is_big_page e) | None => true end
  | None => true
  end = true → plain_leaf m r (a, b, c, d).
Proof. intros H t e Ht He. rewrite Ht, He in H. by apply negb_true_iff in H. Qed.

Lemma page_plain : plain_leaf forked parent page.
Proof. change page with (0, 0, 2, 0). apply plain_leaf_check. vm_compute. reflexivity. Qed.


Lemma clone_shares_up_to_gap_witness :
  ∃ m', clone_readonly_to one_page parent 0 (2 ^ 35) spawned = Some m' ∧
    translate m' spawned page = translate one_page parent page ∧ translate m' spawned (1, 0, 0, 0) = None.
Proof.
  destruct one_page_sound as (lv & Hok & Hco & Hp & Hs & Hsmall).
  destruct (clone_shares_up_to_gap one_page lv parent spawned (2 ^ 35) 1 Hok Hco Hp Hs) as (m' & E & _ & _ & _ & Hto & _).
  - discriminate.
  - lia.
  - apply parent_gap.
  - intros j Hj. assert (j = 0) as -> by lia. apply parent_gap.
  - intros j _. apply spawned_no_child.
  - intros f. specialize (Hsmall f). lia.
  - vm_compute. discriminate.
  - exists m'. split; [exact E|]. split; [|rewrite Hto; [reflexivity|repeat split; lia]].
    change page with (0, 0, 2, 0). rewrite Hto; [reflexivity|repeat split; lia].
Defined.

(** ** Where the tables go wrong *)

(** A page mapped read-only in the child of a fork appears in its parent:
    [share_page_entry] does not split a table for a mapping without the writable
    flag, so the new entry is written into the table both spaces use. *)
Theorem read_only_map_leaks :
  get_map forked parent 0x600000 = Some None ∧
  (m ← map forked spawned 0x600000 1 PageFlags.user_mode 0; get_map m parent 0x600000) =
  (m ← map forked spawned 0x600000 1 PageFlags.user_mode 0; get_map m spawned 0x600000) ∧
  (m ← map forked spawned 0x600000 1 PageFlags.user_mode 0; get_map m parent 0x600000) = Some (Some 0x8000).
Proof. vm_compute. done. Qed.

(** [unmap] of a range may leave a page of the range mapped: where the range
    starts in a part without tables, the pages it skips are counted with one
    table too many, and the loop ends before the end of the range. *)
Theorem unmap_skips_mapped_page :
  (m ← map one_page parent 0x80000000 1 6 0;
   m ← unmap m parent 0x40000000 (0x40000000 / page_size + 1);
   get_map m parent 0x80000000) = Some (Some 0x9000).
Proof. vm_compute. done. Qed.

(** Unmapping the last page of a space drops the top-level entry but not the
    count of the root, so that the next mapping there fails its check. *)
Lemma root_count_not_dropped :
  (m ← unmap one_page parent 0x400000 1; Some (counter_of m parent, map m parent 0x400000 1 6 0)) = Some (1, None).
Proof. vm_compute. done. Qed.

(** Unmapping a read-only page takes the writable flag from the top-level entry
    that its writable neighbours use. *)
Lemma unmap_write_protects_neighbours :
  (m ← map one_page parent 0x401000 1 PageFlags.user_mode 0; e ← read m parent 0; Some (has_flag e PageFlags.writable)) = Some true ∧
  (m ← map one_page parent 0x401000 1 PageFlags.user_mode 0; m ← unmap m parent 0x401000 1;
   e ← read m parent 0; Some (has_flag e PageFlags.writable)) = Some false.
Proof. vm_compute. done. Qed.

End PageSample.
