(* ===== verification/VmInfo.v ===== *)
(** The address space of a process: [info_t] of src/kernel/mm/vm.cc, which joins
    the areas of VmAllocator.v with the page tables of Paging.v.  The page faults
    and system calls that change it are in VmCalls.v.

    A [kernel] is what address spaces share: physical memory with its page
    tables, the [map_t] records of file mappings under their addresses, the
    memory objects and the state of the devices.  An [info_t] is one address
    space.  Files and pseudo files are virtual classes: [Devices] has the methods
    the code calls on them, [D] being the state they may change.  A null pointer
    is 0, an address that [New] returns is an argument, and [None] is a stop of
    the kernel: a failed assertion, a panic, a call through a null or dangling
    pointer or a loop that does not end.  Locks and the reload of CR3 leave no
    trace. *)
From stdpp Require Import base list numbers gmap.
From S2P Require Import Prelude Abi Usercopy DataPlane VmAllocator Zones Paging.

Local Open Scope Z_scope.
Set Default Proof Using "Type".

(** ** Shared state *)

Record map_t : Type := Build_map_t {
  mt_file : Z;
  mt_object : Z;
  mt_backing : Z;
  mt_physical : Z;
  mt_pseudo : Z;
  file_offset : Z;
  file_length : Z;
  mmap_length : Z;
  mt_vm_info : Z;
}.

(** The constructors of [map_t]. *)
Definition map_of_file (file offset len mmap_len vmi : Z) : map_t := Build_map_t file 0 0 0 0 offset len mmap_len vmi.
Definition map_of_object (backing obj offset len vmi : Z) : map_t := Build_map_t 0 obj backing 0 0 offset len len vmi.
Definition map_of_physical (phy offset len mmap_len vmi : Z) : map_t := Build_map_t 0 0 0 phy 0 offset len mmap_len vmi.
Definition copy_map (mt : map_t) (vmi : Z) : map_t :=
  Build_map_t (mt_file mt) (mt_object mt) (mt_backing mt) (mt_physical mt) (mt_pseudo mt)
    (file_offset mt) (file_length mt) (mmap_length mt) vmi.
Definition set_pseudo (mt : map_t) (pseudo : Z) : map_t :=
  Build_map_t (mt_file mt) (mt_object mt) (mt_backing mt) (mt_physical mt) pseudo
    (file_offset mt) (file_length mt) (mmap_length mt) (mt_vm_info mt).

(** The methods of [file] and [pseudo_t] the code calls: [pread file offset size]
    is the bytes a read puts into the buffer. *)
Class Devices (D : Type) : Type := {
  get_pseudo : Z → Z;
  get_mode : Z → Z;
  pread : Z → Z → Z → list Z;
  supports_physical_mmap : Z → bool;
  get_physical_mmap : D → Z → Z → Z → option Z;
  allow_mapping : D → Z → Z → bool → bool → bool;
  allow_fork_mapping : Z → bool → bool;
  on_mapping_created : D → Z → Z → D;
  on_mapping_released : D → Z → Z → D;
}.

Definition user_mmap_top_address : Z := 0x0000800000000000.
Definition user_code_bottom_address : Z := 0x200000.
Definition user_head_size : Z := 4 * 2 ^ 30.

Definition is_kernel_space_pointer (address : Z) : bool :=
  (0xFFFF800000000000 <=? address) && (address <=? 0xFFFFFFFFFFFFFFFF).

Definition zero_page : list Z := replicate 4096 0.

(** [bytes] written over the start of a page. *)
Definition fill_page (bytes : list Z) : list Z := bytes ++ drop (length bytes) zero_page.

Definition to_paging_flags (fl : Z) : Z :=
  Z.lor (if has_flag fl VmFlags.writeable then PageFlags.writable else 0)
    (Z.lor (if has_flag fl VmFlags.user_mode then PageFlags.user_mode else 0)
           (if has_flag fl VmFlags.disable_cache then PageFlags.cache_disable else 0)).

Record info_t : Type := Build_info_t {
  vma_ : vm_allocator;
  paging_ : Z;
  heap_vm_ : option vm_t;
  heap_top_ : Z;
}.

Definition set_vma (i : info_t) (v : vm_allocator) : info_t := Build_info_t v (paging_ i) (heap_vm_ i) (heap_top_ i).
Definition set_heap_top (i : info_t) (top : Z) : info_t := Build_info_t (vma_ i) (paging_ i) (heap_vm_ i) top.
Definition set_flags_of (vm : vm_t) (fl : Z) : vm_t := Build_vm_t (start vm) (end_ vm) fl (method vm) (user_data vm).
Definition set_user_data (vm : vm_t) (p : Z) : vm_t := Build_vm_t (start vm) (end_ vm) (flags vm) (method vm) p.
Definition page_count_of (vm : vm_t) : Z := (end_ vm - start vm) / page_size.

Definition is_file (vm : vm_t) : bool := has_flag (flags vm) VmFlags.file.

Section vm.
Context {S D : Type} `{FrameStore S} `{Devices D} `{AreaList}.

Record kernel : Type := Build_kernel {
  k_mem : pmem S;
  k_maps : gmap Z map_t;
  k_objects : gmap Z MemoryObject.memory_object;
  k_devices : D;
}.

Implicit Types (k : kernel) (i : info_t) (vm : vm_t) (m : pmem S).

Definition set_mem k m : kernel := Build_kernel m (k_maps k) (k_objects k) (k_devices k).
Definition set_maps k (ms : gmap Z map_t) : kernel := Build_kernel (k_mem k) ms (k_objects k) (k_devices k).
Definition set_devices k (d : D) : kernel := Build_kernel (k_mem k) (k_maps k) (k_objects k) d.

(** A whole page written through the linear mapping. *)
Definition write_page k (f : Z) (bytes : list Z) : kernel :=
  set_mem k (Build_pmem (store (k_mem k)) (tables (k_mem k)) (counters (k_mem k)) (<[f := bytes]> (contents (k_mem k)))).

(** The hook calls behind [pseudo != nullptr]. *)
Definition mapping_created k (pseudo fl : Z) : kernel :=
  if pseudo =? 0 then k else set_devices k (on_mapping_created (k_devices k) pseudo fl).
Definition mapping_released k (pseudo fl : Z) : kernel :=
  if pseudo =? 0 then k else set_devices k (on_mapping_released (k_devices k) pseudo fl).

(** The hook and the [Delete] of a file mapping. *)
Definition release_map k (p fl : Z) : option kernel :=
  mt ← k_maps k !! p;
  let k := mapping_released k (mt_pseudo mt) fl in
  Some (set_maps k (delete p (k_maps k))).

Definition map_in k i (virt pages fl actions : Z) : option kernel :=
  set_mem k <$> map (k_mem k) (paging_ i) virt pages fl actions.
Definition map_to_in k i (virt pages phy fl actions : Z) : option kernel :=
  set_mem k <$> map_to (k_mem k) (paging_ i) virt pages phy fl actions.
Definition unmap_in k i (virt pages : Z) : option kernel :=
  set_mem k <$> unmap (k_mem k) (paging_ i) virt pages.

(** ** Construction and destruction *)

Definition make_info k : option (info_t * kernel) :=
  '(root, m) ← new_page_table (k_mem k);
  Some (Build_info_t (make_vm_allocator user_mmap_top_address user_code_bottom_address) root None 0, set_mem k m).

Fixpoint destroy_loop k i (l : list vm_t) : option kernel :=
  match l with
  | [] => Some k
  | vm :: rest =>
      k ← unmap_in k i (start vm) (page_count_of vm);
      k ← (if is_file vm then release_map k (user_data vm) (flags vm) else Some k);
      destroy_loop k i rest
  end.

(** [~info_t] and the destructor of its page table. *)
Definition destroy_info k i : option kernel :=
  k ← destroy_loop k i (areas (vma_ i));
  set_mem k <$> delete_page_table (k_mem k) (paging_ i).

(** ** The heap *)

Definition init_brk i (p : Z) : option (bool * info_t) :=
  '(vm, v) ← add_map (vma_ i) p (u64 (p + user_head_size))
     (Z.lor VmFlags.readable (Z.lor VmFlags.writeable (Z.lor VmFlags.expand VmFlags.user_mode))) pf_heap_break 0;
  Some match vm with
       | None => (false, Build_info_t v (paging_ i) None (heap_top_ i))
       | Some hv => (true, Build_info_t v (paging_ i) (Some hv) (start hv))
       end.

Definition set_brk k i (ptr : Z) : option (bool * info_t * kernel) :=
  let ptr := align_up ptr page_size in
  hv ← heap_vm_ i;
  if (end_ hv <? ptr) || (ptr <? start hv) then Some (false, i, k)
  else
    k ← (if heap_top_ i <? ptr then Some k else unmap_in k i ptr ((heap_top_ i - ptr) / page_size));
    Some (true, set_heap_top i ptr, k).

(** The loop of [set_brk_now], whose body does not change [current_map]. *)
Fixpoint grow_loop (fuel : nat) k i (hv : vm_t) (ptr current_map : Z) : option kernel :=
  if ptr <? current_map then
    match fuel with
    | O => None
    | Datatypes.S fuel =>
        k ← map_in k i current_map 1 (to_paging_flags (flags hv)) 0;
        grow_loop fuel k i hv ptr current_map
    end
  else Some k.

Definition set_brk_now (fuel : nat) k i (ptr : Z) : option (bool * info_t * kernel) :=
  let ptr := align_up ptr page_size in
  hv ← heap_vm_ i;
  if (end_ hv <? ptr) || (ptr <? start hv) then Some (false, i, k)
  else
    k ← (if heap_top_ i <? ptr then grow_loop fuel k i hv ptr (heap_top_ i)
         else unmap_in k i ptr ((heap_top_ i - ptr) / page_size));
    Some (true, set_heap_top i ptr, k).

Definition get_brk i : Z := heap_top_ i.

(** ** Demand paging *)

Definition expand_brk k i (page address : Z) (item : vm_t) : option (bool * kernel) :=
  if address <? heap_top_ i
  then k ← map_in k i page 1 (to_paging_flags (flags item)) Action.override; Some (true, k)
  else Some (false, k).

(** The start of the other methods: map the page and find its frame. *)
Definition map_frame k i (page : Z) (item : vm_t) : option (option Z * kernel) :=
  k ← map_in k i page 1 (to_paging_flags (flags item)) Action.override;
  f ← get_map (k_mem k) (paging_ i) page;
  Some (f, k).

Definition expand_vm k i (page : Z) (item : vm_t) : option (bool * kernel) :=
  if negb (has_flag (flags item) VmFlags.expand) then Some (false, k)
  else
    '(f, k) ← map_frame k i page item;
    Some match f with None => (false, k) | Some f => (true, write_page k f zero_page) end.

Definition expand_bss k i (page : Z) (item : vm_t) : option (bool * kernel) :=
  if negb (has_flag (flags item) VmFlags.expand) then Some (false, k)
  else
    '(f, k) ← map_frame k i page item;
    f ← f;
    Some (true, write_page k f zero_page).

Definition expand_file k i (page : Z) (item : vm_t) : option (bool * kernel) :=
  mt ← k_maps k !! user_data item;
  let length_read := u64 (page - start item) in
  '(f, k) ← map_frame k i page item;
  f ← f;
  let length_can_read := if file_length mt <? length_read then 0 else file_length mt - length_read in
  let size := if page_size <? length_can_read then page_size else length_can_read in
  Some (true, write_page k f (fill_page (pread (mt_file mt) (u64 (file_offset mt + length_read)) size))).

Definition expand_memory_object k i (page : Z) (item : vm_t) : option (bool * kernel) :=
  if user_data item =? 0 then Some (false, k)
  else
    mt ← k_maps k !! user_data item;
    if mt_object mt =? 0 then Some (false, k)
    else
      '(f, k) ← map_frame k i page item;
      match f with
      | None => Some (false, k)
      | Some f =>
          let k := write_page k f zero_page in
          let relative := u64 (page - start item) in
          if file_length mt <=? relative then Some (true, k)
          else
            let available := file_length mt - relative in
            let amount := if page_size <? available then page_size else available in
            object ← k_objects k !! mt_object mt;
            let '(status, actual, buffer) :=
              MemoryObject.read object (u64 (file_offset mt + relative)) (Some zero_page) amount in
            let k := write_page k f (default [] buffer) in
            if status_ok status && (actual =? amount) then Some (true, k)
            else k ← unmap_in k i page 1; Some (false, k)
      end.

Definition expand_physical k i (page : Z) (item : vm_t) : option (bool * kernel) :=
  if user_data item =? 0 then Some (false, k)
  else
    mt ← k_maps k !! user_data item;
    if mt_physical mt =? 0 then Some (false, k)
    else
      k ← map_to_in k i page 1 (mt_physical mt + (page - start item)) (to_paging_flags (flags item)) Action.override;
      Some (true, k).

Definition expand k i (fault : page_fault_method) (page address : Z) (item : vm_t) : option (bool * kernel) :=
  match fault with
  | pf_none => Some (false, k)
  | pf_common => expand_vm k i page item
  | pf_common_with_bss => expand_bss k i page item
  | pf_heap_break => expand_brk k i page address item
  | pf_file => expand_file k i page item
  | pf_memory_object => expand_memory_object k i page item
  | pf_physical => expand_physical k i page item
  end.

(** ** Copy on write *)

Definition copy_at k i (address : Z) : option (bool * kernel) :=
  match get_vm_area (vma_ i) address with
  | None => Some (false, k)
  | Some vm =>
      if negb (has_flag (flags vm) VmFlags.writeable) then Some (false, k)
      else if negb (has_flag (flags vm) VmFlags.cow) then Some (false, k)
      else
        let page := align_down address page_size in
        let fl := to_paging_flags (flags vm) in
        let actions := Z.lor Action.override Action.cow in
        if bool_decide (method vm = pf_physical) then
          if user_data vm =? 0 then Some (false, k)
          else
            mt ← k_maps k !! user_data vm;
            if mt_physical mt =? 0 then Some (false, k)
            else k ← map_to_in k i page 1 (mt_physical mt + (page - start vm)) fl actions; Some (true, k)
        else k ← map_in k i page 1 fl actions; Some (true, k)
  end.

(** ** Mapping and unmapping *)

(** The area of a new mapping, at a fixed address or by first fit. *)
Definition place i (p len fl : Z) (fault : page_fault_method) (data : Z) : option (option vm_t * info_t) :=
  if p =? 0 then
    let '(vm, v) := allocate_map (vma_ i) len fl fault data in Some (vm, set_vma i v)
  else
    '(vm, v) ← add_map (vma_ i) p (u64 (p + len)) fl fault data;
    Some (vm, set_vma i v).

(** The [map_t] of a file mapping, with the fault method: [None] where the
    device refuses, [fresh] being the result of [New]. *)
Definition file_map k (self file offset len mmap_len cflags fresh : Z) : option (page_fault_method * kernel) :=
  let pseudo := get_pseudo file in
  if negb (pseudo =? 0) && supports_physical_mmap pseudo then
    phy ← get_physical_mmap (k_devices k) pseudo offset mmap_len;
    if fresh =? 0 then None
    else
      let mt := set_pseudo (map_of_physical phy offset len mmap_len self) pseudo in
      Some (pf_physical, mapping_created (set_maps k (<[fresh := mt]> (k_maps k))) pseudo cflags)
  else if fresh =? 0 then None
  else Some (pf_file, set_maps k (<[fresh := map_of_file file offset len mmap_len self]> (k_maps k))).

Definition map_file k i (self p file offset len mmap_len attr fresh : Z) : option (option vm_t * info_t * kernel) :=
  if is_kernel_space_pointer p then Some (None, i, k)
  else if (mmap_len =? 0) || (2 ^ 64 - 1 - (page_size - 1) <? mmap_len) || (mmap_len <? len)
          || (2 ^ 64 - 1 - len <? offset) then Some (None, i, k)
  else
    let alen := align_up mmap_len page_size in
    if negb (p =? 0) && negb (is_user_space_range p alen) then Some (None, i, k)
    else
      let cflags := Z.lor (Z.lor VmFlags.lock (Z.lor VmFlags.user_mode VmFlags.expand)) attr in
      if file =? 0 then
        '(vm, i) ← place i p alen cflags pf_common self;
        Some (vm, i, k)
      else
        let cflags := Z.lor cflags VmFlags.file in
        match file_map k self file offset len mmap_len cflags fresh with
        | None => Some (None, i, k)
        | Some (fault, k) =>
            '(vm, i) ← place i p alen cflags fault fresh;
            match vm with
            | Some vm => Some (Some vm, i, k)
            | None => k ← release_map k fresh cflags; Some (None, i, k)
            end
        end.

Definition map_memory_object k i (self p backing obj offset len attr fresh : Z) : option (option vm_t * info_t * kernel) :=
  if (backing =? 0) || (obj =? 0) || (len =? 0) || (2 ^ 64 - 1 - (page_size - 1) <? len) then Some (None, i, k)
  else
    object ← k_objects k !! obj;
    if (MemoryObject.size object <? offset) || (MemoryObject.size object - offset <? len) then Some (None, i, k)
    else if is_kernel_space_pointer p then Some (None, i, k)
    else
      let alen := align_up len page_size in
      if negb (p =? 0) && negb (is_user_space_range p alen) then Some (None, i, k)
      else if fresh =? 0 then Some (None, i, k)
      else
        let cflags := Z.lor (Z.lor VmFlags.lock (Z.lor VmFlags.user_mode (Z.lor VmFlags.expand VmFlags.file))) attr in
        '(vm, i) ← place i p alen cflags pf_memory_object fresh;
        match vm with
        | Some vm => Some (Some vm, i, set_maps k (<[fresh := map_of_object backing obj offset len self]> (k_maps k)))
        | None => Some (None, i, k)
        end.

Definition umap_file k i (address size : Z) : option (bool * info_t * kernel) :=
  if (size =? 0) || negb (Z.land address (page_size - 1) =? 0) || negb (Z.land size (page_size - 1) =? 0)
  then Some (false, i, k)
  else
    match get_vm_area (vma_ i) address with
    | None => Some (false, i, k)
    | Some vm =>
        if negb (Z.land (start vm) (page_size - 1) =? 0) || (end_ vm <=? start vm)
           || negb ((end_ vm - start vm) mod page_size =? 0) then Some (false, i, k)
        else if negb (size =? end_ vm - start vm) then Some (false, i, k)
        else
          k ← unmap_in k i (start vm) (page_count_of vm);
          k ← (if is_file vm then release_map k (user_data vm) (flags vm) else Some k);
          Some (true, set_vma i (deallocate_map (vma_ i) vm), k)
    end.

(** ** Forking *)

(** The loop of [vm_allocator::clone]: the areas of the source, in place, and
    those inserted into [to]; [fresh] are the addresses of the new [map_t]s. *)
Fixpoint clone_areas k (l to : list vm_t) (flag info : Z) (fresh : list Z) : option (list vm_t * list vm_t * kernel) :=
  match l with
  | [] => Some ([], to, k)
  | item :: rest =>
      let item := set_flags_of item (Z.lor (flags item) flag) in
      '(new_item, k, fresh) ←
        (if is_file item then
           mt ← k_maps k !! user_data item;
           match fresh with
           | [] => None
           | p :: fresh =>
               Some (set_user_data item p,
                     mapping_created (set_maps k (<[p := copy_map mt info]> (k_maps k))) (mt_pseudo mt) (flags item), fresh)
           end
         else Some (set_user_data item info, k, fresh));
      '(l', to', k) ← clone_areas k rest (insert_area to new_item) flag info fresh;
      Some (item :: l', to', k)
  end.

Definition clone k (v to : vm_allocator) (flag info : Z) (fresh : list Z) : option (vm_allocator * vm_allocator * kernel) :=
  '(l, l', k) ← clone_areas k (areas v) (areas to) flag info fresh;
  Some (with_areas v l, Build_vm_allocator l' (range_top v) (range_bottom v), k).

(** The mapping of a physical area whose device refuses to have it inherited. *)
Definition fork_disallowed k vm : option (option map_t) :=
  if negb (is_file vm) || negb (bool_decide (method vm = pf_physical)) || (user_data vm =? 0) then Some None
  else
    mt ← k_maps k !! user_data vm;
    Some (if (mt_pseudo mt =? 0) || allow_fork_mapping (mt_pseudo mt) true then None else Some mt).

Fixpoint restore_loop k i (l : list vm_t) : option kernel :=
  match l with
  | [] => Some k
  | vm :: rest =>
      d ← fork_disallowed k vm;
      k ← match d with
          | None => Some k
          | Some mt =>
              map_to_in k i (start vm) (page_count_of vm) (mt_physical mt) (to_paging_flags (flags vm))
                (Z.lor Action.override Action.cow)
          end;
      restore_loop k i rest
  end.

Definition restore_fork_disallowed_mappings k i : option kernel := restore_loop k i (areas (vma_ i)).

(** The first area that the child must not inherit. *)
Fixpoint first_disallowed k (l : list vm_t) : option (option vm_t) :=
  match l with
  | [] => Some None
  | vm :: rest =>
      if negb (has_flag (flags vm) VmFlags.writeable) then first_disallowed k rest
      else
        d ← fork_disallowed k vm;
        match d with Some _ => Some (Some vm) | None => first_disallowed k rest end
  end.

Fixpoint remove_loop (fuel : nat) k i : option (info_t * kernel) :=
  d ← first_disallowed k (areas (vma_ i));
  match d with
  | None => Some (i, k)
  | Some vm =>
      match fuel with
      | O => None
      | Datatypes.S fuel =>
          if end_ vm - start vm =? 0 then Some (i, k)
          else
            match umap_file k i (start vm) (end_ vm - start vm) with
            | Some (true, i, k) => remove_loop fuel k i
            | Some (false, i, k) => Some (i, k)
            | None => None
            end
      end
  end.

(** Every round removes an area. *)
Definition remove_fork_disallowed_mappings k i : option (info_t * kernel) := remove_loop (length (areas (vma_ i))) k i.

(** [share_to]: the new state of the parent and of the child [c] at address [info]. *)
Definition share_to k i (c : info_t) (info : Z) (fresh : list Z) : option (info_t * info_t * kernel) :=
  '(v, vc, k) ← clone k (vma_ i) (vma_ c) VmFlags.cow info fresh;
  let i := set_vma i v in
  let c := set_vma c vc in
  m ← clone_readonly_to (k_mem k) (paging_ i) 0 (user_mmap_top_address / page_size) (paging_ c);
  let k := set_mem k m in
  k ← restore_fork_disallowed_mappings k i;
  '(c, k) ← remove_fork_disallowed_mappings k c;
  Some (i, c, k).

End vm.

Arguments kernel : clear implicits.
Arguments Build_kernel {S D}.
Arguments k_mem {S D}.
Arguments k_maps {S D}.
Arguments k_objects {S D}.
Arguments k_devices {S D}.
