(* ===== verification/VmCalls.v ===== *)
(** What enters an address space from outside: the page-fault handlers of
    src/kernel/mm/vm.cc, the memory system calls of
    src/kernel/syscall/data_plane.cc and mm.cc, and the kernel's own mappings
    ([vmalloc], [vfree] and [MemoryAllocator] of src/kernel/mm/memory.cc).

    The thread a fault or a call runs on gives its process and address space as
    arguments; the copies from and to user memory give their status and the
    frame they read, the capability table its entry.  The numbers of scopes are
    generated by the build and are fields of [scopes]. *)
From stdpp Require Import base list numbers gmap.
From S2P Require Import Prelude Abi Usercopy Capability DataPlane VmAllocator Zones Paging VmInfo.

Local Open Scope Z_scope.
Set Default Proof Using "Type".

(** ** Page faults *)

Module PageFault.

Definition present : Z := 1.
Definition write : Z := 2.
Definition reserved_write : Z := 8.
Definition instruction_fetch : Z := 16.

End PageFault.

Inductive request_result : Type := request_ok | no_handled.

Inductive fault_signal : Type := sigsegv | sigstkflt.

(** The part of [interrupt_info] the handlers read. *)
Record interrupt_info : Type := Build_interrupt_info {
  error_code : Z;
  kernel_space : bool;
}.

(** ** The frames of the calls *)

Record memory_map_frame : Type := Build_memory_map_frame {
  mf_struct_size : Z;
  mf_flags : Z;
  mf_hint : Z;
  mf_object : Z;
  mf_offset : Z;
  mf_length : Z;
  mf_address : Z;
  mf_reserved0 : Z;
  mf_reserved1 : Z;
}.
Definition memory_map_frame_sizeof : Z := 64.

Record memory_unmap_frame : Type := Build_memory_unmap_frame {
  uf_struct_size : Z;
  uf_flags : Z;
  uf_address : Z;
  uf_length : Z;
  uf_reserved0 : Z;
  uf_reserved1 : Z;
}.
Definition memory_unmap_frame_sizeof : Z := 40.

Definition MEMORY_MAP_READ : Z := 1.
Definition MEMORY_MAP_WRITE : Z := 2.
Definition MEMORY_MAP_EXEC : Z := 4.
Definition MEMORY_MAP_SHARED : Z := 8.
Definition MEMORY_MAP_MAX_BYTES : Z := 2 ^ 30.
Definition file_mode_read : Z := 1.
Definition file_mode_write : Z := 2.

Record scopes : Type := Build_scopes {
  SCOPE_MEMORY_OBJECT : Z;
  SCOPE_FILE : Z;
  SCOPE_STREAM : Z;
}.

(** What [entry.object->get<T>()] yields. *)
Record casts : Type := Build_casts {
  as_memory_object : object → Z;
  as_file : object → Z;
}.

(** The object a mapping is of. *)
Inductive map_source : Type :=
| anonymous
| of_file (file : Z)
| of_object (backing obj : Z).

Definition vm_flags_of (fl : Z) : Z :=
  Z.lor (if has_flag fl MEMORY_MAP_READ then VmFlags.readable else 0)
    (Z.lor (if has_flag fl MEMORY_MAP_WRITE then VmFlags.writeable else 0)
      (Z.lor (if has_flag fl MEMORY_MAP_EXEC then VmFlags.executeable else 0)
             (if has_flag fl MEMORY_MAP_SHARED then VmFlags.shared else 0))).

Definition valid_map_frame (f : memory_map_frame) : bool :=
  negb ((mf_struct_size f <? memory_map_frame_sizeof)
     || negb (no_flag_outside (mf_flags f) (Z.lor MEMORY_MAP_READ (Z.lor MEMORY_MAP_WRITE (Z.lor MEMORY_MAP_EXEC MEMORY_MAP_SHARED))))
     || ((mf_object f =? HANDLE_INVALID) && negb (mf_offset f =? 0))
     || (mf_length f =? 0) || negb (mf_address f =? 0) || negb (mf_reserved0 f =? 0) || negb (mf_reserved1 f =? 0)
     || negb (Z.land (mf_offset f) (page_size - 1) =? 0)
     || (negb (mf_hint f =? 0) &&
         (negb (is_user_space_pointer (mf_hint f)) || negb (Z.land (mf_hint f) (page_size - 1) =? 0)))
     || (MEMORY_MAP_MAX_BYTES <? mf_length f)).

Section calls.
Context {S D : Type} `{FrameStore S} `{Devices D} `{AreaList}.
Implicit Types (k : kernel S D) (i : info_t) (inter : interrupt_info).

(** ** Page faults *)

(** The result, the signal sent to the process and the kernel; [thread] is the
    address space of the running thread, if there is one. *)
Definition page_fault_cow k (thread : option info_t) inter (address : Z) :
    option (request_result * option fault_signal * kernel S D) :=
  match thread with
  | None => Some (no_handled, None, k)
  | Some i =>
      if is_kernel_space_pointer address then
        if negb (kernel_space inter) then Some (request_ok, Some sigstkflt, k) else None
      else
        '(copied, k) ← copy_at k i address;
        Some (if (copied : bool) then request_ok else no_handled, None, k)
  end.

Definition page_fault_present k (thread : option info_t) (kernel_vm_info : info_t) inter (address : Z) :
    option (request_result * option fault_signal * kernel S D) :=
  match thread with
  | None => Some (no_handled, None, k)
  | Some i =>
      if is_kernel_space_pointer address && negb (kernel_space inter) then Some (request_ok, Some sigsegv, k)
      else
        let info := if is_kernel_space_pointer address then kernel_vm_info else i in
        match get_vm_area (vma_ info) address with
        | None => Some (no_handled, None, k)
        | Some vm =>
            '(expanded, k) ← expand k info (method vm) (align_down address page_size) address vm;
            Some (if (expanded : bool) then request_ok else no_handled, None, k)
        end
  end.

(** [recovered] is the result of [recover_page_fault], which looks the
    instruction up in the table of user copies. *)
Definition page_fault_func k (thread : option info_t) (kernel_vm_info : info_t) inter (address : Z) (recovered : bool) :
    option (request_result * option fault_signal * kernel S D) :=
  let code := error_code inter in
  if has_flag code PageFault.reserved_write then None
  else if has_flag code PageFault.write && has_flag code PageFault.present then page_fault_cow k thread inter address
  else if negb (has_flag code PageFault.present) then page_fault_present k thread kernel_vm_info inter address
  else if has_flag code PageFault.instruction_fetch && kernel_space inter then None
  else Some (if recovered then request_ok else no_handled, None, k).

(** ** System calls *)

(** The checks on the capability of a mapping. *)
Definition map_object k (sc : scopes) (ca : casts) (process : Z) (f : memory_map_frame) (e : option entry) :
    na_status + map_source :=
  if mf_object f =? HANDLE_INVALID then inr anonymous
  else
    match e with
    | Some (Build_entry (Some o) _ _ meta) =>
        if (m_binding meta =? BINDING_MEMORY_OBJECT) && (m_scope meta =? SCOPE_MEMORY_OBJECT sc) then
          if negb (has_flag (m_protocol_rights meta) MEMORY_RIGHT_MAP) then inl ACCESS_DENIED
          else if has_flag (mf_flags f) MEMORY_MAP_READ && negb (has_flag (m_protocol_rights meta) MEMORY_RIGHT_READ)
          then inl ACCESS_DENIED
          else if has_flag (mf_flags f) MEMORY_MAP_WRITE && negb (has_flag (m_protocol_rights meta) MEMORY_RIGHT_WRITE)
          then inl ACCESS_DENIED
          else
            match k_objects k !! as_memory_object ca o with
            | Some object =>
                if (MemoryObject.size object <? mf_offset f) || (MemoryObject.size object - mf_offset f <? mf_length f)
                then inl INVALID_ARGUMENT
                else inr (of_object o (as_memory_object ca o))
            | None => inl INVALID_ARGUMENT
            end
        else if negb (m_scope meta =? SCOPE_FILE sc) && negb (m_scope meta =? SCOPE_STREAM sc) then inl WRONG_SCOPE
        else
          let file := as_file ca o in
          if file =? 0 then inl WRONG_BINDING
          else if has_flag (mf_flags f) MEMORY_MAP_READ && negb (has_flag (get_mode file) file_mode_read)
          then inl ACCESS_DENIED
          else if has_flag (mf_flags f) MEMORY_MAP_SHARED && has_flag (mf_flags f) MEMORY_MAP_WRITE
                  && negb (has_flag (get_mode file) file_mode_write) then inl ACCESS_DENIED
          else if negb (get_pseudo file =? 0)
                  && negb (allow_mapping (k_devices k) process (get_pseudo file)
                             (has_flag (mf_flags f) MEMORY_MAP_WRITE) (has_flag (mf_flags f) MEMORY_MAP_SHARED))
          then inl ACCESS_DENIED
          else inr (of_file file)
    | _ => inl INVALID_HANDLE
    end.

(** The status, the address written to the frame, the address space and the
    kernel; [copied_in] is the copy of the frame and [copied_out] the status of
    the copy back. *)
Definition memory_map k i (sc : scopes) (ca : casts) (process self : Z) (copied_in : na_status * memory_map_frame)
    (e : option entry) (fresh : Z) (copied_out : na_status) : option (na_status * Z * info_t * kernel S D) :=
  let '(status, f) := copied_in in
  if negb (status_ok status) then Some (status, 0, i, k)
  else if negb (valid_map_frame f) then Some (INVALID_ARGUMENT, 0, i, k)
  else
    match map_object k sc ca process f e with
    | inl status => Some (status, 0, i, k)
    | inr source =>
        let fl := vm_flags_of (mf_flags f) in
        '(vm, i, k) ←
          match source with
          | of_object backing obj => map_memory_object k i self (mf_hint f) backing obj (mf_offset f) (mf_length f) fl fresh
          | of_file file => map_file k i self (mf_hint f) file (mf_offset f) (mf_length f) (mf_length f) fl fresh
          | anonymous => map_file k i self (mf_hint f) 0 (mf_offset f) (mf_length f) (mf_length f) fl fresh
          end;
        match vm with
        | None => Some (RESOURCE_EXHAUSTED, 0, i, k)
        | Some vm =>
            if status_ok copied_out then Some (STATUS_OK, start vm, i, k)
            else
              '(_, i, k) ← umap_file k i (start vm) (end_ vm - start vm);
              Some (copied_out, 0, i, k)
        end
    end.

Definition memory_unmap k i (copied_in : na_status * memory_unmap_frame) : option (na_status * info_t * kernel S D) :=
  let '(status, f) := copied_in in
  if negb (status_ok status) then Some (status, i, k)
  else if (uf_struct_size f <? memory_unmap_frame_sizeof) || negb (uf_flags f =? 0) || (uf_address f =? 0)
          || (uf_length f =? 0) || negb (uf_reserved0 f =? 0) || negb (uf_reserved1 f =? 0)
          || negb (Z.land (uf_address f) (page_size - 1) =? 0) || (MEMORY_MAP_MAX_BYTES <? uf_length f)
  then Some (INVALID_ARGUMENT, i, k)
  else
    let rounded := align_up (uf_length f) page_size in
    if rounded <? uf_length f then Some (INVALID_ARGUMENT, i, k)
    else
      '(ok, i, k) ← umap_file k i (uf_address f) rounded;
      Some (if (ok : bool) then STATUS_OK else INVALID_ARGUMENT, i, k).

(** The result is an error number of errno.hpp. *)
Definition brk k i (ptr : Z) : option (Z * info_t * kernel S D) :=
  if negb (is_user_space_pointer ptr) then Some (u64 Errno.EINVAL, i, k)
  else
    '(ok, i, k) ← set_brk k i ptr;
    Some (if (ok : bool) then 0 else u64 Errno.EIO, i, k).

Definition sbrk k i (offset : Z) : option (Z * info_t * kernel S D) :=
  if offset =? 0 then Some (get_brk i, i, k)
  else
    let r := get_brk i in
    '(_, i, k) ← set_brk k i (u64 (r + offset));
    Some (r, i, k).

(** ** The kernel's own mappings *)

Definition vmalloc k (kernel_vm_info : info_t) (size align : Z) : option (Z * info_t * kernel S D) :=
  let '(vm, v) := allocate_map (vma_ kernel_vm_info) size align pf_none 0 in
  vm ← vm;
  let info := set_vma kernel_vm_info v in
  k ← map_in k info (start vm) (page_count_of vm) PageFlags.writable 0;
  Some (start vm, info, k).

Definition vfree k (kernel_vm_info : info_t) (address : Z) : option (info_t * kernel S D) :=
  match get_vm_area (vma_ kernel_vm_info) address with
  | None => Some (kernel_vm_info, k)
  | Some vm =>
      let info := set_vma kernel_vm_info (deallocate_map (vma_ kernel_vm_info) vm) in
      k ← unmap_in k info (start vm) (page_count_of vm);
      Some (info, k)
  end.

(** ** Rights *)

(** What a capability must allow for the mapping [f] asks for. *)
Definition allows_map k (sc : scopes) (ca : casts) (process : Z) (f : memory_map_frame) (o : object) (meta : metadata) : Prop :=
  let reads := has_flag (mf_flags f) MEMORY_MAP_READ in
  let writes := has_flag (mf_flags f) MEMORY_MAP_WRITE in
  let shares := has_flag (mf_flags f) MEMORY_MAP_SHARED in
  let rights := m_protocol_rights meta in
  let file := as_file ca o in
  if (m_binding meta =? BINDING_MEMORY_OBJECT) && (m_scope meta =? SCOPE_MEMORY_OBJECT sc) then
    has_flag rights MEMORY_RIGHT_MAP = true ∧ (reads = true → has_flag rights MEMORY_RIGHT_READ = true) ∧
    (writes = true → has_flag rights MEMORY_RIGHT_WRITE = true)
  else
    (m_scope meta = SCOPE_FILE sc ∨ m_scope meta = SCOPE_STREAM sc) ∧
    (reads = true → has_flag (get_mode file) file_mode_read = true) ∧
    (shares = true → writes = true → has_flag (get_mode file) file_mode_write = true) ∧
    (get_pseudo file ≠ 0 → allow_mapping (k_devices k) process (get_pseudo file) writes shares = true).

Lemma map_object_allows k sc ca process f e source :
  map_object k sc ca process f e = inr source → mf_object f ≠ HANDLE_INVALID →
  ∃ o g s meta, e = Some (Build_entry (Some o) g s meta) ∧ allows_map k sc ca process f o meta.
Proof.
  unfold map_object. intros E Hh. rewrite (proj2 (Z.eqb_neq _ _) Hh) in E.
  destruct e as [[[o|] g s meta]|]; [|done..]. exists o, g, s, meta. split; [done|]. unfold allows_map. cbv zeta in *.
  destruct (_ && _).
  - destruct (has_flag _ MEMORY_RIGHT_MAP); [|done]. split; [done|].
    destruct (has_flag _ MEMORY_MAP_READ), (has_flag _ MEMORY_RIGHT_READ), (has_flag _ MEMORY_MAP_WRITE), (has_flag _ MEMORY_RIGHT_WRITE);
      by simpl in E.
  - destruct (Z.eqb_spec (m_scope meta) (SCOPE_FILE sc)), (Z.eqb_spec (m_scope meta) (SCOPE_STREAM sc)); cbn [negb andb] in E; try done;
      (split; [by (left + right)|]); destruct (as_file ca o =? 0); try done;
      destruct (has_flag _ MEMORY_MAP_READ && _) eqn:E1; try done; destruct (_ && _ && negb (has_flag _ file_mode_write)) eqn:E2; try done;
      destruct (negb (get_pseudo _ =? 0) && _) eqn:E3; try done; clear E;
      destruct (has_flag _ MEMORY_MAP_READ), (has_flag _ MEMORY_MAP_WRITE), (has_flag _ MEMORY_MAP_SHARED), (has_flag _ file_mode_read),
        (has_flag _ file_mode_write); cbn in *; try done;
      destruct (Z.eqb_spec (get_pseudo (as_file ca o)) 0); cbn in *; try done; split_and!; try done; intros _; by apply negb_false_iff.
Qed.

(** C33: A mapping of an object that succeeds was allowed by the capability of the
    handle: the map right and the right of each kind of access for a memory
    object; for a file the mode it was opened with, where writing back to it needs
    the write mode, and the consent of its device. *)
Theorem memory_map_respects_rights k i sc ca process self copied_in e fresh out a i' k' :
  memory_map k i sc ca process self copied_in e fresh out = Some (STATUS_OK, a, i', k') →
  mf_object copied_in.2 ≠ HANDLE_INVALID →
  ∃ o g s meta, e = Some (Build_entry (Some o) g s meta) ∧ allows_map k sc ca process copied_in.2 o meta.
Proof.
  destruct copied_in as [st f]. unfold memory_map. intros E Hh.
  destruct (status_ok st) eqn:Est; cbn [negb] in E; [|injection E as -> _ _ _; by vm_compute in Est].
  destruct (valid_map_frame f); [|discriminate E]. cbn [negb] in E.
  destruct (map_object k sc ca process f e) as [status|source] eqn:Eo; [|by eapply map_object_allows].
  injection E as -> _ _ _. exfalso. revert Eo. unfold map_object. by repeat case_match.
Qed.

End calls.
