(* ===== verification/VmPages.v ===== *)
(** Page faults: what a page shows after its first access and after a write to a
    page that a fork shares, and that nothing else changes.  The facts join the
    handlers of VmCalls.v with the isolation of [map] in PageMapping.v. *)
From stdpp Require Import base list numbers gmap.
From S2P Require Import Prelude Abi Usercopy DataPlane VmAllocator Zones Paging PageFacts PageSharing PageMapping VmInfo VmCalls.

Local Open Scope Z_scope.
Set Default Proof Using "Type".

#[local] Opaque empty_table share_loop.

Lemma paging_flags_range fl : 0 ≤ to_paging_flags fl < 128.
Proof. unfold to_paging_flags. by repeat case_match. Qed.

Lemma writeable_splits fl actions :
  has_flag fl VmFlags.writeable = true → splits (Z.lor (to_paging_flags fl) PageFlags.present) actions.
Proof. intros Hw. unfold splits, to_paging_flags. rewrite Hw. by repeat case_match. Qed.

(** The bytes page [page] of the area [item] starts with: zeros, the bytes of
    the file or those of the memory object at the offset of the page, as far as
    the mapping reaches, and zeros behind. *)
Section image.
Context {S D : Type} `{FrameStore S} `{Devices D} `{AreaList}.

Definition page_image (k : kernel S D) (item : vm_t) (page : Z) : option (list Z) :=
  let relative := page - start item in
  match method item with
  | pf_common | pf_common_with_bss => if has_flag (flags item) VmFlags.expand then Some zero_page else None
  | pf_file =>
      mt ← k_maps k !! user_data item;
      let count := Z.min page_size (Z.max 0 (file_length mt - relative)) in
      Some (fill_page (pread (mt_file mt) (file_offset mt + relative) count))
  | pf_memory_object =>
      mt ← k_maps k !! user_data item;
      object ← k_objects k !! mt_object mt;
      let count := Z.min page_size (Z.max 0 (file_length mt - relative)) in
      if bool_decide (user_data item ≠ 0 ∧ mt_object mt ≠ 0 ∧ 0 ≤ file_offset mt ∧
                      file_offset mt + file_length mt ≤ MemoryObject.size object)
      then Some (fill_page (take (Z.to_nat count) (drop (Z.to_nat (file_offset mt + relative)) (MemoryObject.bytes_ object))))
      else None
  | _ => None
  end.

End image.

Section pages.
Context {S D : Type} `{FSL : FrameStoreLaws S} `{Devices D} `{AreaList}.
Implicit Types (k : kernel S D) (i : info_t) (m : pmem S) (lv : gmap Z nat) (item : vm_t).

(** [get_map] is the translation. *)
Lemma get_map_translate m lv r q :
  pages_ok m lv → lv !! r = Some 0%nat → 0 ≤ q → get_map m r (q * page_size) = Some (translate m r (unpack q)).
Proof.
  intros Hok Hr Hq. unfold get_map. assert (align_down (q * page_size) page_size = q * page_size) as ->.
  { rewrite align_down_page by (unfold page_size; lia). rewrite Z.div_mul by (unfold page_size; lia). lia. }
  rewrite from_virt_page. pose proof (unpack_ok q) as Hix. destruct (unpack q) as [[[a b] c] d]. destruct Hix as (Ha & Hb & Hc & Hd).
  unfold lookup_page, translate, child.
  destruct (read_table m lv r 0 a Hok Hr ltac:(lia) Ha) as [e4 E4]. rewrite E4. cbn [mbind option_bind].
  destruct (is_present e4) eqn:P4; cbn [negb mbind option_bind]; [|done].
  assert (lv !! get_addr e4 = Some 1%nat) as L3 by (apply (child_table m lv r 0 a); [done|done|lia|lia|unfold child; rewrite E4; simpl; by rewrite P4]).
  destruct (read_table m lv _ 1 b Hok L3 ltac:(lia) Hb) as [e3 E3]. rewrite E3. cbn [mbind option_bind].
  destruct (is_present e3) eqn:P3; cbn [negb mbind option_bind]; [|done].
  destruct (pk_entry m lv Hok _ 1 b e3 L3 ltac:(lia) ltac:(lia) E3) as [_ B3]. destruct (B3 P3) as [_ B3']. rewrite B3' by lia.
  assert (lv !! get_addr e3 = Some 2%nat) as L2
    by (apply (child_table m lv (get_addr e4) 1 b); [done|done|lia|lia|unfold child; rewrite E3; simpl; by rewrite P3]).
  destruct (read_table m lv _ 2 c Hok L2 ltac:(lia) Hc) as [e2 E2]. rewrite E2. cbn [mbind option_bind].
  destruct (is_present e2) eqn:P2; cbn [negb mbind option_bind]; [|done].
  destruct (pk_entry m lv Hok _ 2 c e2 L2 ltac:(lia) ltac:(lia) E2) as [_ B2]. destruct (B2 P2) as [_ B2']. rewrite B2' by lia.
  assert (lv !! get_addr e2 = Some 3%nat) as L1
    by (apply (child_table m lv (get_addr e3) 2 c); [done|done|lia|lia|unfold child; rewrite E2; simpl; by rewrite P2]).
  destruct (read_table m lv _ 3 d Hok L1 ltac:(lia) Hd) as [e1 E1]. by rewrite E1.
Qed.

(** The state after a page of [i] was given the frame [f] with [bytes], and
    nothing else changed. *)
Definition page_shows k lv i q k' (bytes : list Z) : Prop :=
  ∃ lv' f, pages_ok (k_mem k') lv' ∧ counters_ok (k_mem k') lv' ∧
    owned (k_mem k') lv' (paging_ i) (unpack q) f ∧ contents (k_mem k') !! f = Some bytes ∧
    ∀ r' ix, lv !! r' = Some 0%nat → index_ok ix → ¬ (r' = paging_ i ∧ ix = unpack q) →
      translate (k_mem k') r' ix = translate (k_mem k) r' ix ∧
      ∀ g, translate (k_mem k) r' ix = Some g → contents (k_mem k') !! g = contents (k_mem k) !! g.

Definition page_halted k lv i q : Prop := halted (k_mem k) lv (in_range (paging_ i) q 1).

Lemma in_one r q r' ix : in_range r q 1 r' ix ↔ r' = r ∧ ix = unpack q.
Proof.
  split; [intros [-> (j & Hj & ->)]; split; [done|]; by replace j with q by lia|].
  intros [-> ->]. split; [done|]. exists q. split; [lia|done].
Qed.

(** What a fault needs of the page tables. *)
Record faultable k lv i q : Prop := Build_faultable {
  fa_ok : pages_ok (k_mem k) lv;
  fa_counters : counters_ok (k_mem k) lv;
  fa_root : lv !! paging_ i = Some 0%nat;
  fa_page : 0 ≤ q < 2 ^ 36 - 1;
  fa_refs : ∀ f, reference (k_mem k) f + 5100 < 2 ^ 32 - 1;
}.

(** Mapping the page and writing it whole. *)
Lemma map_write_shows k lv i q fl actions k1 lv1 f bytes :
  faultable k lv i q → map (k_mem k) (paging_ i) (q * page_size) 1 fl actions = Some (k_mem k1) →
  keeps (k_mem k) lv (k_mem k1) lv1 3079 (in_range (paging_ i) q 1) → counters_ok (k_mem k1) lv1 →
  owned (k_mem k1) lv1 (paging_ i) (unpack q) f →
  page_shows k lv i q (write_page k1 f bytes) bytes.
Proof.
  intros Hfa _ Hk Hco Hown. exists lv1, f. split; [by apply set_contents_ok, Hk|]. split; [exact Hco|]. split; [exact Hown|].
  split; [apply lookup_insert_eq|]. intros r' ix Hr' Hix Hn.
  assert (¬ in_range (paging_ i) q 1 r' ix) as Hn' by (by rewrite in_one). split.
  - exact (kp_translate _ _ _ _ _ _ Hk r' ix Hr' Hix Hn').
  - intros g Hg. simpl. rewrite lookup_insert_ne; [by apply (kp_contents _ _ _ _ _ _ Hk r' ix)|].
    intros <-. destruct Hown as [_ Hown]. apply Hn. apply (Hown r' ix); [by apply (kp_roots _ _ _ _ _ _ Hk)|done|].
    change (translate (k_mem k1) r' ix = Some f). by rewrite (kp_translate _ _ _ _ _ _ Hk r' ix Hr' Hix Hn').
Qed.

Lemma map_frame_spec k lv i q item :
  faultable k lv i q → has_flag (flags item) VmFlags.writeable = true → translate (k_mem k) (paging_ i) (unpack q) = None →
  (∃ f k1, map_frame k i (q * page_size) item = Some (Some f, k1) ∧ k_maps k1 = k_maps k ∧ k_objects k1 = k_objects k ∧
     ∀ bytes, page_shows k lv i q (write_page k1 f bytes) bytes) ∨
  map_frame k i (q * page_size) item = None ∧ page_halted k lv i q.
Proof.
  intros Hfa Hw Hn. pose proof Hfa as [Hok Hco Hr Hq Href].
  destruct (map_spec (k_mem k) lv (paging_ i) q 1 (to_paging_flags (flags item)) Action.override) as [(m' & lv' & E & Hk & Hco' & Hm)|[E Hh]];
    try done; [lia|lia|apply paging_flags_range|by apply writeable_splits|..].
  { intros j Hj. replace j with q by lia. unfold mappable. by rewrite Hn. }
  - left. destruct (Hm q ltac:(lia)) as (f & Hown & _). exists f, (set_mem k m'). unfold map_frame, map_in. rewrite E. simpl.
    rewrite (get_map_translate m' lv' (paging_ i) q (kp_ok _ _ _ _ _ _ Hk)); [|by apply (kp_roots _ _ _ _ _ _ Hk)|lia].
    cbn [mbind option_bind]. destruct Hown as [Ht Hu]. rewrite Ht. split_and!; try done. intros bytes.
    eapply (map_write_shows k lv i q); [done|exact E|exact Hk|exact Hco'|by split].
  - right. unfold map_frame, map_in. by rewrite E.
Qed.

(** The number of bytes a page takes from its source. *)
Lemma page_count_min (file_len relative : Z) :
  0 ≤ relative < 2 ^ 64 → 0 ≤ file_len < 2 ^ 64 →
  (let left := if file_len <? u64 relative then 0 else file_len - u64 relative in
   if page_size <? left then page_size else left) = Z.min page_size (Z.max 0 (file_len - relative)).
Proof.
  intros Hr Hf. rewrite u64_small by lia. cbv zeta. unfold page_size.
  destruct (Z.ltb_spec file_len relative); case_match; lia.
Qed.

(** The mapping an area is of, with lengths and offsets of 64 bits. *)
Record area_source k item (page : Z) : Prop := Build_area_source {
  as_page : 0 ≤ page - start item < 2 ^ 64;
  as_map : ∀ mt, k_maps k !! user_data item = Some mt →
    0 ≤ file_length mt < 2 ^ 64 ∧ 0 ≤ file_offset mt ∧ file_offset mt + (page - start item) < 2 ^ 64;
}.

Lemma read_object_page object offset count :
  0 ≤ offset → 0 ≤ count ≤ page_size → offset + count ≤ MemoryObject.size object → MemoryObject.size object < 2 ^ 64 →
  MemoryObject.read object offset (Some zero_page) count =
  (STATUS_OK, count, Some (fill_page (take (Z.to_nat count) (drop (Z.to_nat offset) (MemoryObject.bytes_ object))))).
Proof.
  intros Ho Hc Hs Hsz. unfold MemoryObject.read. rewrite bool_decide_false, andb_false_r by done.
  assert (valid_extent offset count (MemoryObject.size object) = true) as -> by (unfold valid_extent; rewrite u64_small by lia; lia). cbn [negb].
  simpl. rewrite object_copy_bytes; [|lia|done|lia| |unfold MemoryObject.size in Hs; lia].
  2: { unfold zlength, zero_page. rewrite length_replicate. unfold page_size in Hc. lia. }
  unfold fill_page. set (bs := take _ (drop _ _)). assert (length bs = Z.to_nat count) as ->; [|done].
  unfold bs. rewrite length_take, length_drop. unfold MemoryObject.size, zlength in *. lia.
Qed.

(** The first access to a page of a writable area: the handler maps it. *)
Lemma expand_shows k lv i q address item bytes :
  faultable k lv i q → has_flag (flags item) VmFlags.writeable = true → translate (k_mem k) (paging_ i) (unpack q) = None →
  area_source k item (q * page_size) → (∀ p o, k_objects k !! p = Some o → object_wf o) →
  page_image k item (q * page_size) = Some bytes →
  (∃ k', expand k i (method item) (q * page_size) address item = Some (true, k') ∧ page_shows k lv i q k' bytes) ∨
  expand k i (method item) (q * page_size) address item = None ∧ page_halted k lv i q.
Proof.
  intros Hfa Hw Hn [Hp Hsrc] Hobj Him. unfold page_image in Him. cbv zeta in Him.
  destruct (map_frame_spec k lv i q item Hfa Hw Hn) as [(f & k1 & E & Hm1 & Ho1 & Hs)|[E Hh]].
  - left. unfold expand. destruct (method item); try done; unfold expand_vm, expand_bss, expand_file, expand_memory_object.
    + destruct (has_flag _ VmFlags.expand); [|done]. injection Him as <-. cbn [negb]. rewrite E. simpl. eauto.
    + destruct (has_flag _ VmFlags.expand); [|done]. injection Him as <-. cbn [negb]. rewrite E. simpl. eauto.
    + apply bind_Some in Him as (mt & Hmt & Him). injection Him as <-. rewrite Hmt. cbn [mbind option_bind]. rewrite E. cbn [mbind option_bind].
      destruct (Hsrc mt Hmt) as (Hl & Ho & Hol). pose proof (page_count_min (file_length mt) _ Hp Hl) as Hcount. cbv zeta in Hcount.
      rewrite Hcount, (u64_small (_ - start item)), u64_small by lia. eauto.
    + apply bind_Some in Him as (mt & Hmt & Him). apply bind_Some in Him as (object & Hob & Him).
      destruct (bool_decide _) eqn:Hb; [|done]. apply bool_decide_eq_true in Hb as (Hd0 & Hm0 & Hoff & Hext). injection Him as <-.
      rewrite (proj2 (Z.eqb_neq _ _) Hd0), Hmt. cbn [mbind option_bind]. rewrite (proj2 (Z.eqb_neq _ _) Hm0), E. cbn [mbind option_bind].
      destruct (Hsrc mt Hmt) as (Hl & Ho & Hol). rewrite (u64_small (_ - start item)) by lia.
      destruct (Z.leb_spec (file_length mt) (q * page_size - start item)) as [Hle|Hlt].
      * eexists. split; [done|]. rewrite Z.max_l by lia. rewrite Z.min_r by (unfold page_size; lia). apply Hs.
      * simpl. rewrite Ho1, Hob. cbn [mbind option_bind].
        replace (Z.max 0 _) with (file_length mt - (q * page_size - start item)) by lia.
        assert ((if page_size <? file_length mt - (q * page_size - start item) then page_size
                 else file_length mt - (q * page_size - start item)) = Z.min page_size (file_length mt - (q * page_size - start item)))
          as -> by (case_match; lia).
        pose proof (Hobj _ _ Hob) as Hwf. unfold object_wf, MEMORY_OBJECT_MAX_BYTES in Hwf.
        rewrite u64_small, read_object_page by (unfold page_size in *; lia). rewrite Z.eqb_refl. change (status_ok STATUS_OK) with true. cbn [andb].
        eexists. split; [done|]. unfold write_page. simpl. unfold page_shows. simpl. setoid_rewrite insert_insert_eq. apply Hs.
  - right. split; [|done]. unfold expand. destruct (method item); try done; unfold expand_vm, expand_bss, expand_file, expand_memory_object.
    + destruct (has_flag _ VmFlags.expand); [|done]. cbn [negb]. by rewrite E.
    + destruct (has_flag _ VmFlags.expand); [|done]. cbn [negb]. by rewrite E.
    + apply bind_Some in Him as (mt & Hmt & _). rewrite Hmt. cbn [mbind option_bind]. by rewrite E.
    + apply bind_Some in Him as (mt & Hmt & Him). apply bind_Some in Him as (object & Hob & Him).
      destruct (bool_decide _) eqn:Hb; [|done]. apply bool_decide_eq_true in Hb as (Hd0 & Hm0 & _).
      rewrite (proj2 (Z.eqb_neq _ _) Hd0), Hmt. cbn [mbind option_bind]. by rewrite (proj2 (Z.eqb_neq _ _) Hm0), E.
Qed.

(** ** Page faults *)

Lemma fault_page address : 0 ≤ address → align_down address page_size = address / page_size * page_size.
Proof. intros Ha. rewrite align_down_page by done. lia. Qed.



(** The heap does not clear its pages: a page that is accessed for the first time
    below the break shows what its frame held before. *)
Lemma heap_page_keeps_bytes k lv i q address item k' :
  faultable k lv i q → has_flag (flags item) VmFlags.writeable = true → translate (k_mem k) (paging_ i) (unpack q) = None →
  address < heap_top_ i → expand_brk k i (q * page_size) address item = Some (true, k') →
  contents (k_mem k') = contents (k_mem k).
Proof.
  intros [Hok Hco Hr Hq Href] Hw Hn Ha E. unfold expand_brk in E. rewrite (proj2 (Z.ltb_lt _ _) Ha) in E.
  apply bind_Some in E as (k1 & E1 & E). injection E as <-. apply fmap_Some in E1 as (m & E1 & ->). simpl. revert E1.
  unfold map, map_pages. rewrite land_page, from_virt_page. cbn [negb Z.eqb].
  set (fl := Z.lor (to_paging_flags (flags item)) PageFlags.present).
  assert (0 ≤ fl < 128 ∧ Z.odd fl = true) as [Hfl Hodd] by (unfold fl, to_paging_flags; by repeat case_match).
  pose proof (unpack_ok q) as Hix. destruct (unpack q) as [[[a b] c] d] eqn:Eu. pose proof Hix as (Ha' & Hb & Hc & Hd).
  destruct (ensure3_spec (k_mem k) lv (paging_ i) a b c fl Action.override) as [(m1 & lv1 & t3 & t2 & t1 & -> & Hev & Hco1 & Hch)|[-> _]];
    try done; [intros g; specialize (Href g); lia|by apply writeable_splits|].
  change (Z.to_nat 1) with 1%nat. cbn [mbind option_bind map_loop]. rewrite normalize_ok by done. cbn [mbind option_bind].
  rewrite <-(ev_contents _ _ _ _ _ Hev). unfold map_page. rewrite (chain_walk m1 lv1 _ a b c t3 t2 t1 Hch). cbn [mbind option_bind].
  pose proof (chain_write m1 m1 lv1 (paging_ i) a b c d t3 t2 t1 (ev_ok _ _ _ _ _ Hev) Hch) as Hcw.
  destruct Hcw as [Htr _]; [by apply (ev_levels _ _ _ _ _ Hev)|done|done|].
  rewrite (ev_translate _ _ _ _ _ Hev), Hn in Htr by done. unfold child in Htr.
  destruct (read m1 t1 d) as [e|] eqn:Er; [|done]. cbn [mbind option_bind] in Htr |- *. destruct (is_present e); [done|].
  cbn [has_flag]. intros E. apply bind_Some in E as (m2 & E2 & E). injection E as <-.
  apply bind_Some in E2 as ([f1 m3] & E3 & E2). change (has_flag Action.override Action.cow) with false in E3. cbv iota in E3.
  apply bind_Some in E3 as ([f2 s2] & _ & E3). injection E3 as <- <-.
  by apply entry_write_spec in E2 as (_ & _ & -> & _); [|lia].
Qed.

End pages.
