(* ===== verification/Framebuffer.v ===== *)
(** The framebuffer device of src/kernel/dev/framebuffer.cc: the lease of its one
    writer, which is taken by opening the device for writing and is kept while
    the open file or a writable mapping of it exists, and the physical pages a
    mapping may cover.

    Methods that pass bytes on to the drawing backend and [force_offline], which
    ends a process, are not part of the model.  The pseudo files other than the
    framebuffer keep the defaults of [pseudo_t]; which file has which pseudo
    file, the modes of open files and the reads of file systems are parameters
    of the instance of [Devices]. *)
From stdpp Require Import base list numbers.
From S2P Require Import Prelude Abi VmAllocator VmInfo VmCalls.

Local Open Scope Z_scope.
Set Default Proof Using "Type".

(** [framebuffer_pseudo_t] with the flag [framebuffer_user_writer] of
    src/kernel/terminal.cc that it sets; a process is its address, 0 is none. *)
Record framebuffer_pseudo_t : Type := Build_framebuffer_pseudo_t {
  writer_open_references_ : Z;
  writer_active_ : bool;
  writable_mappings_ : Z;
  writer_process_ : Z;
  framebuffer_user_writer : bool;
}.

(** The part of [framebuffer_t] that mappings use. *)
Record framebuffer_t : Type := Build_framebuffer_t {
  physical_addr : Z;
  pitch : Z;
  height : Z;
  bbp : Z;
}.

Implicit Types (d : framebuffer_pseudo_t).

Definition make_framebuffer : framebuffer_pseudo_t := Build_framebuffer_pseudo_t 0 false 0 0 false.

Definition frame_bytes (fb : framebuffer_t) : Z := u32 (pitch fb * height fb).

Definition set_references d (n : Z) : framebuffer_pseudo_t :=
  Build_framebuffer_pseudo_t n (writer_active_ d) (writable_mappings_ d) (writer_process_ d) (framebuffer_user_writer d).
Definition set_mappings d (n : Z) : framebuffer_pseudo_t :=
  Build_framebuffer_pseudo_t (writer_open_references_ d) (writer_active_ d) n (writer_process_ d) (framebuffer_user_writer d).

(** [user_enabled] is [term::framebuffer_user_enabled] and [frontend] whether
    the caller holds the console-frontend capability. *)
Definition open d (fl : Z) (user_enabled : bool) (process : Z) (frontend : bool) : Z * framebuffer_pseudo_t :=
  if negb (has_flag fl file_mode_write) then (0, d)
  else if negb user_enabled then (Errno.EBUSY, d)
  else if (process =? 0) || negb frontend then (Errno.EACCES, d)
  else if writer_active_ d then (Errno.EBUSY, d)
  else (0, Build_framebuffer_pseudo_t 1 true (writable_mappings_ d) process true).

Definition release_writer_if_idle_locked d : framebuffer_pseudo_t :=
  if (writer_open_references_ d =? 0) && (writable_mappings_ d =? 0) && writer_active_ d
  then Build_framebuffer_pseudo_t (writer_open_references_ d) false (writable_mappings_ d) 0 false
  else d.

Definition close_with_flags d (fl : Z) : framebuffer_pseudo_t :=
  if negb (has_flag fl file_mode_write) then d
  else if writer_open_references_ d =? 0 then d
  else release_writer_if_idle_locked (set_references d (writer_open_references_ d - 1)).

Definition fb_mapping_created d (fl : Z) : framebuffer_pseudo_t :=
  if has_flag fl VmFlags.writeable then set_mappings d (u64 (writable_mappings_ d + 1)) else d.

Definition fb_mapping_released d (fl : Z) : framebuffer_pseudo_t :=
  if negb (has_flag fl VmFlags.writeable) then d
  else if writable_mappings_ d =? 0 then d
  else release_writer_if_idle_locked (set_mappings d (writable_mappings_ d - 1)).

Definition fb_allow_mapping d (process : Z) (frontend writable shared : bool) : bool :=
  if negb writable then true
  else if (process =? 0) || negb frontend then false
  else writer_active_ d && (writer_process_ d =? process) && shared.

Definition fb_physical_mmap (backend : option framebuffer_t) (offset len : Z) : option Z :=
  match backend with
  | None => None
  | Some fb =>
      if negb (bbp fb =? 32) then None
      else
        let mapped_bytes := align_up (frame_bytes fb) page_size in
        if (physical_addr fb =? 0) || (mapped_bytes <=? offset) || (mapped_bytes - offset <? len)
           || negb (Z.land offset (page_size - 1) =? 0) || negb (Z.land (physical_addr fb) (page_size - 1) =? 0)
        then None else Some (physical_addr fb + offset)
  end.

(** ** The devices of the kernel *)

Section devices.
Context (fb : Z) (backend : option framebuffer_t) (frontend : Z → bool).
Context (pseudo_of mode_of : Z → Z) (read_file : Z → Z → Z → list Z).

(** The virtual calls: those of the framebuffer at address [fb], the defaults
    of [pseudo_t] for all others. *)
#[local] Instance kernel_devices : Devices framebuffer_pseudo_t := {|
  get_pseudo := pseudo_of;
  get_mode := mode_of;
  pread := read_file;
  supports_physical_mmap p := p =? fb;
  get_physical_mmap d p offset len := if p =? fb then fb_physical_mmap backend offset len else None;
  allow_mapping d process p writable shared :=
    if p =? fb then fb_allow_mapping d process (frontend process) writable shared else true;
  allow_fork_mapping p writable := if p =? fb then negb writable else true;
  on_mapping_created d p fl := if p =? fb then fb_mapping_created d fl else d;
  on_mapping_released d p fl := if p =? fb then fb_mapping_released d fl else d;
|}.

End devices.

(** ** What a mapping covers *)

(** The pages of an accepted mapping, rounded up, are pages of the frame. *)
Theorem physical_mapping_stays_in_frame fb offset len p :
  0 ≤ physical_addr fb → 0 ≤ offset → 0 < len < 2 ^ 63 → fb_physical_mmap (Some fb) offset len = Some p →
  (page_size | p) ∧ physical_addr fb ≤ p ∧
  p + align_up len page_size ≤ physical_addr fb + align_up (frame_bytes fb) page_size.
Proof.
  intros Hp Ho Hl. unfold fb_physical_mmap. destruct (negb (bbp fb =? 32)); [done|].
  destruct (align_up_rounds (frame_bytes fb)) as (_ & _ & Hdiv);
    [apply Z.mod_pos_bound; done|unfold page_size, frame_bytes; pose proof (Z.mod_pos_bound (pitch fb * height fb) (2 ^ 32)); unfold u32; lia|].
  set (mapped := align_up (frame_bytes fb) page_size) in *.
  destruct (_ || _ || _ || _ || _) eqn:E; [done|]. intros [= <-].
  rewrite !orb_false_iff, !negb_false_iff, !Z.eqb_eq in E. destruct E as ((((_ & Hlo) & Hlen) & Hoa) & Hpa).
  apply Z.leb_gt in Hlo. apply Z.ltb_ge in Hlen.
  assert (∀ x, Z.land x (page_size - 1) = 0 → (page_size | x)) as Hland.
  { intros x Hx. change (page_size - 1) with (Z.ones 12) in Hx. rewrite Z.land_ones in Hx by lia. by apply Z.mod_divide. }
  apply Hland in Hoa, Hpa. split; [by apply Z.divide_add_r|]. split; [lia|].
  destruct (align_up_rounds len) as (_ & Hup & Hlen'); [lia|unfold page_size; lia|].
  assert ((page_size | mapped - offset - align_up len page_size)) as [q Hq] by (apply Z.divide_sub_r; [by apply Z.divide_sub_r|done]).
  assert (0 ≤ q) by (unfold page_size in *; nia). unfold page_size in *. nia.
Qed.
