(* ===== verification/VmLedger.v ===== *)
(** The books of file mappings over all address spaces: every operation of
    VmInfo.v that adds or removes a file area is a sequence of [move]s, each of
    which adds a [map_t] with its area and the device's hook or removes the three
    together.  [CountsMappings] is what the address spaces rely on in a device
    that counts its writable mappings; [move_ledger] is the invariant of the
    books against that interface. *)
From stdpp Require Import base list numbers gmap.
From S2P Require Import Prelude Abi Usercopy DataPlane VmAllocator Zones Paging VmInfo VmCalls.

Local Open Scope Z_scope.
Set Default Proof Using "Type".

(** ** Claims *)

(** A file area of the address space [c_owner]: the address of its [map_t] and
    what devices look at. *)
Record claim : Type := Build_claim {
  c_owner : Z;
  c_data : Z;
  c_writable : bool;
  c_physical : bool;
}.

Definition claim_of (o : Z) (vm : vm_t) : option claim :=
  if is_file vm
  then Some (Build_claim o (user_data vm) (has_flag (flags vm) VmFlags.writeable) (bool_decide (method vm = pf_physical)))
  else None.

Definition claims (o : Z) (l : list vm_t) : list claim := omap (claim_of o) l.

Definition pseudo_at (ms : gmap Z map_t) (p : Z) : Z := default 0 (mt_pseudo <$> ms !! p).

Section ledger.
Context {D : Type} `{Devices D}.
Implicit Types (d : D) (ms : gmap Z map_t) (L : list claim) (c : claim).

Definition created d (p fl : Z) : D := if p =? 0 then d else on_mapping_created d p fl.
Definition released d (p fl : Z) : D := if p =? 0 then d else on_mapping_released d p fl.

Definition books : Type := list claim * gmap Z map_t * D.

(** What allows a mapping of a device: the device itself, or, for the copies
    of a fork, another mapping of the same kind. *)
Definition justified (o : Z) (copies : bool) L ms d c (pseudo : Z) : Prop :=
  pseudo = 0 ∨ c_physical c = true ∧ (∃ shared, allow_mapping d o pseudo (c_writable c) shared = true) ∨
  copies = true ∧ ∃ c', c' ∈ L ∧ pseudo_at ms (c_data c') = pseudo ∧ c_writable c' = c_writable c ∧ c_physical c' = c_physical c.

Inductive move (o : Z) (copies : bool) : books → books → Prop :=
| move_perm L L' ms d : L ≡ₚ L' → move o copies (L, ms, d) (L', ms, d)
| move_add L ms d c mt fl :
    c_owner c = o → ms !! c_data c = None → 0 < c_data c < 2 ^ 64 → c_writable c = has_flag fl VmFlags.writeable →
    justified o copies L ms d c (mt_pseudo mt) →
    move o copies (L, ms, d) (c :: L, <[c_data c := mt]> ms, created d (mt_pseudo mt) fl)
| move_remove L ms d c mt fl :
    c_owner c = o → ms !! c_data c = Some mt → c_writable c = has_flag fl VmFlags.writeable →
    move o copies (c :: L, ms, d) (L, delete (c_data c) ms, released d (mt_pseudo mt) fl).

(** ** Devices that count *)

Class CountsMappings : Type := {
  tracked : Z → bool;
  held : D → Z → Z;
  tracked_null : tracked 0 = false;
  created_held d p fl q : tracked q = true → 0 ≤ held d q < 2 ^ 64 - 1 →
    held (on_mapping_created d p fl) q = held d q + (if bool_decide (p = q) && has_flag fl VmFlags.writeable then 1 else 0);
  released_held d p fl q : tracked q = true → 0 ≤ held d q →
    (p = q → has_flag fl VmFlags.writeable = true → 0 < held d q) →
    held (on_mapping_released d p fl) q = held d q - (if bool_decide (p = q) && has_flag fl VmFlags.writeable then 1 else 0);
}.

(** The claims on [q] for writing. *)
Definition writes ms (q : Z) c : Prop := c_writable c = true ∧ pseudo_at ms (c_data c) = q.
#[global] Instance writes_dec ms q c : Decision (writes ms q c) := _.
Definition writers ms (q : Z) L : Z := Z.of_nat (length (filter (writes ms q) L)).

Context `{CountsMappings}.

Record ledger_ok (b : books) : Prop := Build_ledger_ok {
  lo_nodup : NoDup (c_data <$> b.1.1);
  lo_maps : ∀ p, is_Some (b.1.2 !! p) ↔ p ∈ c_data <$> b.1.1;
  lo_range : ∀ p, p ∈ c_data <$> b.1.1 → 0 < p < 2 ^ 64;
  lo_physical : ∀ c, c ∈ b.1.1 → pseudo_at b.1.2 (c_data c) ≠ 0 → c_physical c = true;
  lo_count : ∀ q, tracked q = true → held b.2 q = writers b.1.2 q b.1.1;
}.

(** Distinct addresses are fewer than [2 ^ 64]. *)
Lemma addresses_length (l : list Z) : NoDup l → (∀ p, p ∈ l → 0 < p < 2 ^ 64) → Z.of_nat (length l) < 2 ^ 64.
Proof.
  intros Hnd Hr. assert (length l ≤ length (seqZ 1 (2 ^ 64 - 1)))%nat as Hle.
  { apply submseteq_length, NoDup_submseteq; [done|]. intros p Hp. apply elem_of_seqZ. specialize (Hr p Hp). lia. }
  rewrite length_seqZ in Hle. lia.
Qed.

#[global] Instance writers_perm ms q : Proper (Permutation ==> eq) (writers ms q).
Proof. intros L L' Hp. unfold writers. by rewrite Hp. Qed.

(** A change of the maps at an address no claim of [L] has does not matter. *)
Lemma writers_ext ms ms' q L :
  (∀ c, c ∈ L → pseudo_at ms' (c_data c) = pseudo_at ms (c_data c)) → writers ms' q L = writers ms q L.
Proof.
  intros He. unfold writers. do 2 f_equal. induction L as [|c L IH]; [done|].
  assert (writes ms' q c ↔ writes ms q c) as Hc by (unfold writes; rewrite He by left; done).
  rewrite !filter_cons. rewrite IH by (intros; apply He; by right).
  by destruct (decide (writes ms' q c)), (decide (writes ms q c)); try tauto.
Qed.

Lemma pseudo_at_insert ms p q mt : pseudo_at (<[p := mt]> ms) q = if decide (q = p) then mt_pseudo mt else pseudo_at ms q.
Proof.
  unfold pseudo_at. destruct (decide (q = p)) as [->|]; [by rewrite lookup_insert_eq|by rewrite lookup_insert_ne].
Qed.

Lemma pseudo_at_delete ms p q : q ≠ p → pseudo_at (delete p ms) q = pseudo_at ms q.
Proof. intros Hn. unfold pseudo_at. by rewrite lookup_delete_ne. Qed.

Lemma writers_bound ms q L : 0 ≤ writers ms q L ≤ Z.of_nat (length L).
Proof. unfold writers. pose proof (length_filter (writes ms q) L). lia. Qed.

Lemma writers_cons ms q c L :
  writers ms q (c :: L) = writers ms q L + (if decide (writes ms q c) then 1 else 0).
Proof. unfold writers. rewrite filter_cons. destruct (decide (writes ms q c)); cbn [length]; lia. Qed.

Lemma ledger_add L ms d c mt fl :
  ledger_ok (L, ms, d) → ms !! c_data c = None → 0 < c_data c < 2 ^ 64 → c_writable c = has_flag fl VmFlags.writeable →
  (mt_pseudo mt ≠ 0 → c_physical c = true) →
  ledger_ok (c :: L, <[c_data c := mt]> ms, created d (mt_pseudo mt) fl).
Proof.
  intros Hok Hnone Hrange Hw Hph. assert (c_data c ∉ c_data <$> L) as Hnew.
  { intros Hin. apply (lo_maps _ Hok) in Hin. simpl in Hin. rewrite Hnone in Hin. by destruct Hin. }
  assert (∀ c', c' ∈ L → c_data c' ≠ c_data c) as Hne.
  { intros c' Hc' Heq. apply Hnew. rewrite <-Heq. by apply list_elem_of_fmap_2. }
  destruct Hok as [Hnd Hm Hr Hp Hc]. simpl in *.
  assert (∀ q, writers (<[c_data c := mt]> ms) q L = writers ms q L) as Hext.
  { intros q. apply writers_ext. intros c' Hc'. rewrite pseudo_at_insert, decide_False by auto. done. }
  assert (NoDup (c_data <$> c :: L)) as Hnd' by (by constructor).
  assert (∀ p, p ∈ c_data <$> c :: L → 0 < p < 2 ^ 64) as Hr'.
  { intros p Hin. csimpl in Hin. apply elem_of_cons in Hin as [->|Hin]; auto. }
  pose proof (addresses_length _ Hnd' Hr') as Hlen. rewrite length_fmap in Hlen. cbn [length] in Hlen.
  constructor; simpl; try done.
  - intros p. rewrite elem_of_cons, <-Hm. destruct (decide (p = c_data c)) as [->|Hn].
    + rewrite lookup_insert_eq. split; [by left|done].
    + rewrite lookup_insert_ne by done. tauto.
  - intros c' Hin. rewrite pseudo_at_insert. apply elem_of_cons in Hin as [->|Hin].
    + by rewrite decide_True.
    + rewrite decide_False by auto. by apply Hp.
  - intros q Hq. rewrite writers_cons, Hext, <-(Hc q Hq).
    assert (writes (<[c_data c := mt]> ms) q c ↔ mt_pseudo mt = q ∧ has_flag fl VmFlags.writeable = true) as Hiff.
    { unfold writes. rewrite pseudo_at_insert, decide_True, Hw by done. tauto. }
    pose proof (writers_bound ms q L) as Hb. rewrite <-(Hc q Hq) in Hb. unfold created. destruct (Z.eqb_spec (mt_pseudo mt) 0) as [Hz|Hz].
    + rewrite decide_False; [lia|]. rewrite Hiff, Hz. intros [<- _]. by rewrite tracked_null in Hq.
    + rewrite created_held by (done || lia). f_equal. destruct (decide (writes _ q c)) as [Hd|Hd]; rewrite Hiff in Hd.
      * destruct Hd as [-> ->]. by rewrite bool_decide_true.
      * destruct (bool_decide _) eqn:E1; [|done]. apply bool_decide_eq_true in E1.
        by destruct (has_flag fl _); [destruct Hd|].
Qed.

Lemma ledger_remove L ms d c mt fl :
  ledger_ok (c :: L, ms, d) → ms !! c_data c = Some mt → c_writable c = has_flag fl VmFlags.writeable →
  ledger_ok (L, delete (c_data c) ms, released d (mt_pseudo mt) fl).
Proof.
  intros [Hnd Hm Hr Hp Hc] Hmt Hw. simpl in *. apply NoDup_cons in Hnd as [Hnew Hnd].
  assert (∀ c', c' ∈ L → c_data c' ≠ c_data c) as Hne.
  { intros c' Hc' Heq. apply Hnew. rewrite <-Heq. by apply list_elem_of_fmap_2. }
  constructor; simpl; try done.
  - intros p. destruct (decide (p = c_data c)) as [->|Hn].
    + rewrite lookup_delete_eq. split; [by intros []|done].
    + rewrite lookup_delete_ne, Hm by done. rewrite elem_of_cons. tauto.
  - intros p Hin. apply Hr. by right.
  - intros c' Hin. rewrite pseudo_at_delete by auto. apply Hp. by right.
  - intros q Hq. rewrite (writers_ext ms) by (intros c' Hin; apply pseudo_at_delete; auto).
    pose proof (Hc q Hq) as Hcq. rewrite writers_cons in Hcq. pose proof (writers_bound ms q L) as Hb.
    assert (writes ms q c ↔ mt_pseudo mt = q ∧ has_flag fl VmFlags.writeable = true) as Hiff.
    { unfold writes, pseudo_at. rewrite Hmt, Hw. simpl. tauto. }
    unfold released. destruct (Z.eqb_spec (mt_pseudo mt) 0) as [Hz|Hz].
    + rewrite Hcq, decide_False; [lia|]. rewrite Hiff, Hz. intros [<- _]. by rewrite tracked_null in Hq.
    + destruct (decide (writes ms q c)) as [Hd|Hd]; rewrite Hiff in Hd.
      * rewrite released_held by (done || lia). destruct Hd as [-> ->]. rewrite bool_decide_true by done. simpl. lia.
      * rewrite released_held by (done || lia || intros; tauto). destruct (bool_decide _) eqn:E1; simpl; [|lia].
        apply bool_decide_eq_true in E1. destruct (has_flag fl _); [|lia]. by destruct Hd.
Qed.

Lemma move_ledger o copies b b' : move o copies b b' → ledger_ok b → ledger_ok b'.
Proof.
  destruct 1 as [L L' ms d Hp|L ms d c mt fl _ Hn Hr Hw Hj|L ms d c mt fl _ Hm Hw]; intros Hok.
  - destruct Hok as [Hnd Hm Hr Hph Hc]. simpl in *. constructor; simpl; setoid_rewrite <-Hp; try done.
  - apply ledger_add; try done. intros Hz. destruct Hj as [?|[[? _]|(_ & c' & Hin & Hp & _ & <-)]]; [done|done|].
    apply (lo_physical _ Hok c'); simpl; [done|congruence].
  - by eapply ledger_remove.
Qed.

Lemma moves_ledger o copies b b' : rtc (move o copies) b b' → ledger_ok b → ledger_ok b'.
Proof. induction 1; eauto using move_ledger. Qed.

End ledger.

#[global] Arguments CountsMappings D {_}.
