(* ===== verification/VmMoves.v ===== *)
(** The operations on address spaces as moves of the ledger: faults and the heap
    leave the books alone, mapping adds a claim or nothing, unmapping removes
    one, a fork copies claims and an exit removes all of them. *)
From stdpp Require Import base list numbers gmap sorting.
From S2P Require Import Prelude Abi Usercopy Capability DataPlane VmAllocator Zones Paging VmInfo VmCalls VmLedger.

Local Open Scope Z_scope.
Set Default Proof Using "Type".

(** The address space of a process. *)
Record space_ok (i : info_t) : Prop := Build_space_ok {
  so_areas : areas_wf (vma_ i);
  so_top : range_top (vma_ i) = user_mmap_top_address;
  so_bottom : range_bottom (vma_ i) = user_code_bottom_address;
}.

Section moves.
Context {S D : Type} `{FrameStore S} `{Devices D} `{HL : AreaListLaws}.
Implicit Types (k : kernel S D) (i : info_t) (vm : vm_t) (L : list claim).

Definition books_of L k : books := (L, k_maps k, k_devices k).

(** ** Operations that leave the books alone *)

Definition same_books k k' : Prop := k_maps k' = k_maps k ∧ k_devices k' = k_devices k.

Lemma same_books_trans k1 k2 k3 : same_books k1 k2 → same_books k2 k3 → same_books k1 k3.
Proof. intros [] []. split; congruence. Qed.

Lemma same_books_of L k k' : same_books k k' → books_of L k' = books_of L k.
Proof. intros [Hm Hd]. unfold books_of. by rewrite Hm, Hd. Qed.

Lemma set_mem_books k (r : option (pmem S)) k' : set_mem k <$> r = Some k' → same_books k k'.
Proof. by intros (m & _ & ->)%fmap_Some. Qed.

(** Case analysis on the steps of an operation in [option]. *)
Ltac run_option :=
  repeat match goal with
  | E : Some _ = Some _ |- _ => injection E as E; subst
  | E : None = Some _ |- _ => discriminate E
  | E : mbind _ _ = Some _ |- _ => apply bind_Some in E as (? & ? & E)
  | E : (let '(_, _) := ?p in _) = Some _ |- _ => destruct p
  | E : (if ?b then _ else _) = Some _ |- _ => destruct b eqn:?
  | E : (match ?o with Some _ => _ | None => _ end) = Some _ |- _ => destruct o eqn:?
  end.

Lemma map_in_books k i virt n fl actions k' : map_in k i virt n fl actions = Some k' → same_books k k'.
Proof. apply set_mem_books. Qed.
Lemma map_to_in_books k i virt n phy fl actions k' : map_to_in k i virt n phy fl actions = Some k' → same_books k k'.
Proof. apply set_mem_books. Qed.
Lemma unmap_in_books k i virt n k' : unmap_in k i virt n = Some k' → same_books k k'.
Proof. apply set_mem_books. Qed.

Lemma map_frame_books k i page item f k' : map_frame k i page item = Some (f, k') → same_books k k'.
Proof. unfold map_frame. intros E. run_option. simplify_eq. by eapply map_in_books. Qed.

Lemma expand_books k i fault page address item ok k' : expand k i fault page address item = Some (ok, k') → same_books k k'.
Proof.
  unfold expand, expand_vm, expand_bss, expand_brk, expand_file, expand_memory_object, expand_physical.
  intros E. destruct fault; run_option; simplify_eq; try done;
    try match goal with E : map_frame _ _ _ _ = Some _ |- _ => apply map_frame_books in E end;
    repeat (case_match; simplify_eq); try done; eauto using map_in_books, map_to_in_books;
    match goal with E : unmap_in _ _ _ _ = Some _ |- _ => apply unmap_in_books in E end; by eapply same_books_trans.
Qed.

Lemma copy_at_books k i address ok k' : copy_at k i address = Some (ok, k') → same_books k k'.
Proof. unfold copy_at. intros E. run_option; simplify_eq; eauto using map_in_books, map_to_in_books; done. Qed.

Lemma page_fault_books k thread kinfo inter address recovered r sg k' :
  page_fault_func k thread kinfo inter address recovered = Some (r, sg, k') → same_books k k'.
Proof.
  unfold page_fault_func, page_fault_cow, page_fault_present. intros E.
  run_option; simplify_eq; eauto using copy_at_books, expand_books; done.
Qed.

Lemma set_brk_books k i ptr ok i' k' :
  set_brk k i ptr = Some (ok, i', k') → same_books k k' ∧ vma_ i' = vma_ i.
Proof. unfold set_brk. intros E. run_option; simplify_eq; split; eauto using unmap_in_books; done. Qed.

(** ** Placing an area *)

Lemma align_up_aligned a : 0 ≤ a → a + (page_size - 1) < 2 ^ 64 → (page_size | a) → align_up a page_size = a.
Proof.
  intros Ha Hb Hd. destruct (align_up_rounds a Ha Hb) as (Hl & Hu & Hd'). destruct Hd as [x ->], Hd' as [y Hy].
  rewrite Hy in *. unfold page_size in *. f_equal. nia.
Qed.

(** A mapping at a fixed address is placed where nothing is. *)
Definition free_hint i (p len : Z) : Prop := p = 0 ∨ (page_size | p) ∧ free_at (vma_ i) p len.

Lemma place_spec i p len fl fault data r i' :
  space_ok i → 0 < len < 2 ^ 48 → (page_size | len) → free_hint i p len → place i p len fl fault data = Some (r, i') →
  space_ok i' ∧
  match r with
  | Some vm => areas (vma_ i') ≡ₚ vm :: areas (vma_ i) ∧ vm = Build_vm_t (start vm) (start vm + len) fl fault data
  | None => i' = i
  end.
Proof using HL.
  intros [Hw Ht Hb] Hl Hd Hh. unfold place. destruct (Z.eqb_spec p 0) as [->|Hp].
  - destruct (allocate_map (vma_ i) len fl fault data) as [r0 v] eqn:E. intros [= <- <-].
    pose proof (allocate_map_spec (vma_ i) len fl fault data Hw) as Hs. rewrite E in Hs. cbv zeta in Hs.
    rewrite Ht, align_up_aligned in Hs by (done || unfold page_size; lia).
    specialize (Hs ltac:(lia) ltac:(unfold page_size; lia) ltac:(unfold user_mmap_top_address; lia)).
    assert (range_top v = range_top (vma_ i) ∧ range_bottom v = range_bottom (vma_ i)) as [Hv1 Hv2].
    { unfold allocate_map in E. cbv zeta in E. repeat case_match; by simplify_eq. }
    destruct r0 as [vm|].
    + destruct Hs as (_ & He & _ & Hp & Hw' & Hvm). split; [constructor; simpl; [done|congruence|congruence]|]. split; [done|].
      by rewrite <-He.
    + destruct Hs as [-> _]. split; [done|]. by destruct i.
  - destruct Hh as [?|[Hpd Hf]]; [done|]. pose proof Hf as (Hf1 & Hf2 & _). rewrite Hb in Hf1. rewrite Ht in Hf2.
    unfold user_code_bottom_address, user_mmap_top_address in *. rewrite u64_small by lia.
    destruct (add_map_free (vma_ i) p (p + len) fl fault data) as (v & E & Hp' & Hw'); try done; [lia|by apply Z.divide_add_r| |].
    { by replace (p + len - p) with len by lia. }
    rewrite E. simpl. intros [= <- <-]. assert (range_top v = range_top (vma_ i) ∧ range_bottom v = range_bottom (vma_ i)) as [Hv1 Hv2].
    { unfold add_map in E. repeat case_match; by simplify_eq. }
    split; [constructor; simpl; [done|by rewrite Hv1, Ht|by rewrite Hv2, Hb]|done].
Qed.

(** ** Claims of areas *)

Lemma claims_perm o l l' : l ≡ₚ l' → claims o l ≡ₚ claims o l'.
Proof. intros Hp. unfold claims. by rewrite Hp. Qed.

Lemma claims_cons o vm l : claims o (vm :: l) = option_list (claim_of o vm) ++ claims o l.
Proof. unfold claims. simpl. by destruct (claim_of o vm). Qed.

(** The claims of an address space beside those of the others. *)
Definition moved o copies i L k i' k' : Prop :=
  rtc (move o copies) (books_of (claims o (areas (vma_ i)) ++ L) k) (books_of (claims o (areas (vma_ i')) ++ L) k').

Lemma moved_same o copies i L k i' k' : same_books k k' → areas (vma_ i') ≡ₚ areas (vma_ i) → moved o copies i L k i' k'.
Proof.
  intros Hb Ha. unfold moved. rewrite (same_books_of _ k k' Hb). apply rtc_once, move_perm. by rewrite (claims_perm o _ _ Ha).
Qed.

(** An area without a file. *)
Lemma moved_plain o copies i L k i' vm :
  is_file vm = false → areas (vma_ i') ≡ₚ vm :: areas (vma_ i) → moved o copies i L k i' k.
Proof.
  intros Hf Ha. apply rtc_once, move_perm. rewrite (claims_perm o _ _ Ha), claims_cons. unfold claim_of. by rewrite Hf.
Qed.

(** ** Mapping and unmapping *)

Lemma release_map_spec k p fl k' :
  release_map k p fl = Some k' →
  ∃ mt, k_maps k !! p = Some mt ∧ k_maps k' = delete p (k_maps k) ∧ k_devices k' = released (k_devices k) (mt_pseudo mt) fl.
Proof.
  unfold release_map, mapping_released, released. intros E. run_option. exists x. split; [done|]. by case_match.
Qed.

(** The claim of an area that is removed with its [map_t]. *)
Lemma release_move o copies L k vm k' :
  is_file vm = true → release_map k (user_data vm) (flags vm) = Some k' →
  rtc (move o copies) (books_of (option_list (claim_of o vm) ++ L) k) (books_of L k').
Proof.
  intros Hf (mt & Hmt & Hm & Hd)%release_map_spec. unfold claim_of. rewrite Hf. simpl. unfold books_of. rewrite Hm, Hd.
  apply rtc_once. eapply (move_remove o copies L _ _ (Build_claim _ _ _ _)); done.
Qed.

Lemma umap_file_moved o copies i L k address sz ok i' k' :
  space_ok i → umap_file k i address sz = Some (ok, i', k') →
  space_ok i' ∧ moved o copies i L k i' k' ∧
  if ok then ∃ vm, get_vm_area (vma_ i) address = Some vm ∧ vm :: areas (vma_ i') ≡ₚ areas (vma_ i) else i' = i.
Proof using HL.
  intros [Hw Ht Hb] E. unfold umap_file in E. run_option; simplify_eq; try (split_and!; [done|by apply moved_same|done]).
  all: match goal with E : get_vm_area _ _ = Some ?v |- _ => rename v into vm, E into Hvm end.
  all: destruct (areas_wf_remove (vma_ i) vm) as [Hw' Hp]; [done|by apply get_vm_area_exact in Hvm as [? _]|].
  all: match goal with E : unmap_in _ _ _ _ = Some _ |- _ => apply unmap_in_books in E; rename E into Hsame end.
  all: split; [by constructor|]; split; [|by exists vm]; unfold moved; simpl; rewrite <-(same_books_of _ k _ Hsame).
  all: etrans; [apply rtc_once, move_perm; by rewrite <-(claims_perm o _ _ Hp), claims_cons, <-app_assoc|].
  - by apply release_move.
  - unfold claim_of. match goal with E : is_file vm = false |- _ => rewrite E end. by apply rtc_refl.
Qed.

Lemma moved_add o i L k i' k' vm mt :
  is_file vm = true → areas (vma_ i') ≡ₚ vm :: areas (vma_ i) →
  k_maps k !! user_data vm = None → 0 < user_data vm < 2 ^ 64 →
  k_maps k' = <[user_data vm := mt]> (k_maps k) → k_devices k' = created (k_devices k) (mt_pseudo mt) (flags vm) →
  (mt_pseudo mt ≠ 0 → method vm = pf_physical) →
  (mt_pseudo mt = 0 ∨ ∃ shared, allow_mapping (k_devices k) o (mt_pseudo mt) (has_flag (flags vm) VmFlags.writeable) shared = true) →
  moved o false i L k i' k'.
Proof.
  intros Hf Ha Hn Hr Hm Hd Hph Hj. unfold moved, books_of. rewrite Hm, Hd.
  etrans; [|apply rtc_once, move_perm; by rewrite (claims_perm o _ _ Ha), claims_cons].
  unfold claim_of. rewrite Hf. simpl. apply rtc_once.
  apply (move_add o false _ (k_maps k) (k_devices k) (Build_claim o (user_data vm) _ _) mt (flags vm)); simpl; try done.
  destruct (decide (mt_pseudo mt = 0)) as [?|Hz]; [by left|right; left]. destruct Hj as [?|?]; [done|].
  split; [by apply bool_decide_true, Hph|done].
Qed.

Lemma file_map_spec k self file offset len mmap_len cflags fresh fault k1 :
  file_map k self file offset len mmap_len cflags fresh = Some (fault, k1) →
  fresh ≠ 0 ∧ ∃ mt, k_maps k1 = <[fresh := mt]> (k_maps k) ∧ k_devices k1 = created (k_devices k) (mt_pseudo mt) cflags ∧
    (mt_pseudo mt ≠ 0 → mt_pseudo mt = get_pseudo file ∧ supports_physical_mmap (get_pseudo file) = true ∧ fault = pf_physical).
Proof.
  unfold file_map, mapping_created, created. intros E. run_option; simplify_eq;
    (match goal with E : (fresh =? 0) = false |- _ => apply Z.eqb_neq in E; split; [exact E|] end).
  - exists (set_pseudo (map_of_physical x offset len mmap_len self) (get_pseudo file)). simpl.
    match goal with E : _ && _ = true |- _ => apply andb_true_iff in E as [Hz Hs] end. apply negb_true_iff in Hz. rewrite Hz. done.
  - eexists (map_of_file file offset len mmap_len self). split; [done|]. split; [done|]. by intros [].
Qed.

(** A [map_t] that is made and released again. *)
Lemma moved_back o i L k k1 k' fresh fl fault mt :
  k_maps k !! fresh = None → 0 < fresh < 2 ^ 64 → k_maps k1 = <[fresh := mt]> (k_maps k) →
  k_devices k1 = created (k_devices k) (mt_pseudo mt) fl → (mt_pseudo mt ≠ 0 → fault = pf_physical) →
  (mt_pseudo mt = 0 ∨ ∃ shared, allow_mapping (k_devices k) o (mt_pseudo mt) (has_flag fl VmFlags.writeable) shared = true) →
  release_map k1 fresh fl = Some k' → moved o false i L k i k'.
Proof.
  intros Hn Hr Hm Hd Hph Hj (mt' & Hmt & Hm' & Hd')%release_map_spec. rewrite Hm, lookup_insert_eq in Hmt. injection Hmt as <-.
  set (c := Build_claim o fresh (has_flag fl VmFlags.writeable) (bool_decide (fault = pf_physical))).
  unfold moved, books_of. rewrite Hm', Hd', Hm, Hd.
  eapply rtc_l; [|apply rtc_once; by eapply (move_remove o false _ _ _ c mt fl); [|apply lookup_insert_eq|]].
  apply (move_add o false _ (k_maps k) (k_devices k) c mt fl); try done.
  destruct (decide (mt_pseudo mt = 0)) as [?|Hz]; [by left|right; left]. destruct Hj as [?|?]; [done|].
  split; [by apply bool_decide_true, Hph|done].
Qed.

(** What lets a file be mapped by [o]. *)
Definition may_map k (o file : Z) (writable : bool) : Prop :=
  file ≠ 0 → supports_physical_mmap (get_pseudo file) = true →
  ∃ shared, allow_mapping (k_devices k) o (get_pseudo file) writable shared = true.

Lemma map_file_moved o i L k self p file offset len mmap_len attr fresh r i' k' :
  space_ok i → 0 ≤ mmap_len < 2 ^ 47 → free_hint i p (align_up mmap_len page_size) →
  k_maps k !! fresh = None → 0 ≤ fresh < 2 ^ 64 → has_flag attr VmFlags.file = false →
  may_map k o file (has_flag attr VmFlags.writeable) →
  map_file k i self p file offset len mmap_len attr fresh = Some (r, i', k') →
  space_ok i' ∧ moved o false i L k i' k' ∧
  match r with Some vm => vm ∈ areas (vma_ i') | None => i' = i end.
Proof using HL.
  intros Hok Hl Hh Hn Hr Hattr Hmay E. unfold map_file in E. cbv zeta in E.
  set (cf := Z.lor (Z.lor VmFlags.lock (Z.lor VmFlags.user_mode VmFlags.expand)) attr) in *.
  run_option; simplify_eq; try (split_and!; [done|by apply moved_same|done]);
    rewrite !orb_false_iff in *; destruct_and!.
  all: (destruct (align_up_rounds mmap_len) as (Hl1 & Hl2 & Hd); [lia|unfold page_size; lia|]).
  all: (assert (0 < align_up mmap_len page_size < 2 ^ 48) as Hlen by (unfold page_size in *; lia)).
  all: (match goal with E : place _ _ _ _ _ _ = Some (?r, _) |- _ =>
          destruct (place_spec _ _ _ _ _ _ _ _ Hok Hlen Hd Hh E) as [Hok' Hpl] end).
  { destruct r as [vm|]; [|subst; split_and!; [done|by apply moved_same|done]]. destruct Hpl as [Hp Hvm].
    split_and!; [done| |rewrite Hp; left]. apply (moved_plain o false i L k' i' vm); [|done].
    rewrite Hvm. unfold is_file, cf. simpl. by rewrite !has_flag_lor, Hattr. }
  all: match goal with E : file_map _ _ _ _ _ _ _ _ = Some _ |- _ =>
         apply file_map_spec in E as (Hf0 & mt & Hm & Hdev & Hps) end.
  all: assert (0 < fresh < 2 ^ 64) as Hfr by lia.
  all: assert (has_flag (Z.lor cf VmFlags.file) VmFlags.writeable = has_flag attr VmFlags.writeable) as Hwr
         by (unfold cf; rewrite !has_flag_lor, orb_false_r; done).
  all: assert (mt_pseudo mt = 0 ∨ ∃ shared, allow_mapping (k_devices k) o (mt_pseudo mt)
         (has_flag (Z.lor cf VmFlags.file) VmFlags.writeable) shared = true) as Hj
         by (destruct (decide (mt_pseudo mt = 0)) as [?|Hz]; [by left|right]; destruct (Hps Hz) as (-> & Hsup & _);
             rewrite Hwr; apply Hmay; [by apply Z.eqb_neq|done]).
  - destruct Hpl as [Hp Hvm]. split_and!; [done| |rewrite Hp; left].
    destruct v as [vs ve vf vmeth vd]. injection Hvm as -> -> -> ->.
    eapply (moved_add o i L k i' k' (Build_vm_t _ _ _ _ _) mt); simpl; try done.
    + unfold is_file. simpl. rewrite has_flag_lor. apply orb_true_r.
    + intros Hz. by apply Hps.
  - subst. split_and!; [done| |done]. eapply moved_back; try done.
Qed.

Lemma map_memory_object_moved o i L k self p backing obj offset len attr fresh r i' k' :
  space_ok i → 0 ≤ len < 2 ^ 47 → free_hint i p (align_up len page_size) → k_maps k !! fresh = None → 0 ≤ fresh < 2 ^ 64 →
  map_memory_object k i self p backing obj offset len attr fresh = Some (r, i', k') →
  space_ok i' ∧ moved o false i L k i' k' ∧
  match r with Some vm => vm ∈ areas (vma_ i') | None => i' = i end.
Proof using HL.
  intros Hok Hl Hh Hn Hr E. unfold map_memory_object in E. cbv zeta in E.
  run_option; simplify_eq; try (split_and!; [done|by apply moved_same|done]); rewrite !orb_false_iff in *; destruct_and!.
  all: (destruct (align_up_rounds len) as (Hl1 & Hl2 & Hd); [lia|unfold page_size; lia|]).
  all: (assert (0 < align_up len page_size < 2 ^ 48) as Hlen by (unfold page_size in *; lia)).
  all: (match goal with E : place _ _ _ _ _ _ = Some (?r, _) |- _ =>
          destruct (place_spec _ _ _ _ _ _ _ _ Hok Hlen Hd Hh E) as [Hok' Hpl] end).
  - destruct Hpl as [Hp Hvm]. split_and!; [done| |rewrite Hp; left].
    destruct v as [vs ve vf vmeth vd]. injection Hvm as -> -> -> ->.
    eapply (moved_add o i L k i' _ (Build_vm_t _ _ _ _ _) (map_of_object backing obj offset len self)); simpl; try done; [|lia|by left].
    unfold is_file. simpl. by rewrite !has_flag_lor.
  - subst. split_and!; [done|by apply moved_same|done].
Qed.

Lemma moved_trans o copies i1 i2 i3 L k1 k2 k3 :
  moved o copies i1 L k1 i2 k2 → moved o copies i2 L k2 i3 k3 → moved o copies i1 L k1 i3 k3.
Proof. unfold moved. intros. by etrans. Qed.

Lemma vm_flags_file fl : has_flag (vm_flags_of fl) VmFlags.file = false.
Proof. unfold vm_flags_of. rewrite !has_flag_lor. by repeat case_match. Qed.

Lemma vm_flags_writeable fl : has_flag (vm_flags_of fl) VmFlags.writeable = has_flag fl MEMORY_MAP_WRITE.
Proof. unfold vm_flags_of. rewrite !has_flag_lor. by repeat case_match. Qed.

(** The checks of [memory_map] ask the device. *)
Lemma map_object_may k sc ca process f e source file :
  map_object k sc ca process f e = inr source → source = of_file file →
  (∀ q, supports_physical_mmap q = true → q ≠ 0) →
  may_map k process file (has_flag (mf_flags f) MEMORY_MAP_WRITE).
Proof.
  unfold map_object. intros E -> Hsup _ Hs. specialize (Hsup _ Hs). repeat case_match; simplify_eq.
  match goal with E : _ && negb (allow_mapping _ _ _ _ _) = false |- _ => rename E into Ha end.
  rewrite (proj2 (Z.eqb_neq _ _) Hsup) in Ha. simpl in Ha. apply negb_false_iff in Ha. eauto.
Qed.

Lemma valid_frame_length f : 0 ≤ mf_length f → valid_map_frame f = true → 0 < mf_length f ≤ 2 ^ 30.
Proof.
  unfold valid_map_frame, MEMORY_MAP_MAX_BYTES. intros Hl Hv. apply negb_true_iff in Hv. rewrite !orb_false_iff in Hv.
  destruct_and!. lia.
Qed.

Lemma memory_map_moved i L k sc ca process self st f e fresh out r a i' k' :
  space_ok i → 0 ≤ mf_length f → free_hint i (mf_hint f) (align_up (mf_length f) page_size) →
  k_maps k !! fresh = None → 0 ≤ fresh < 2 ^ 64 → (∀ q, supports_physical_mmap q = true → q ≠ 0) →
  memory_map k i sc ca process self (st, f) e fresh out = Some (r, a, i', k') →
  space_ok i' ∧ moved process false i L k i' k'.
Proof using HL.
  intros Hok Hl Hh Hn Hr Hsup E. unfold memory_map in E. cbv zeta in E.
  destruct (status_ok st); cbn [negb] in E; [|simplify_eq; split; [done|by apply moved_same]].
  destruct (valid_map_frame f) eqn:Hv; cbn [negb] in E; [|simplify_eq; split; [done|by apply moved_same]].
  destruct (map_object k sc ca process f e) as [|source] eqn:Hobj; [simplify_eq; split; [done|by apply moved_same]|].
  pose proof (valid_frame_length f Hl Hv) as Hlen.
  apply bind_Some in E as ([[vm i1] k1] & E1 & E).
  assert (space_ok i1 ∧ moved process false i L k i1 k1 ∧ match vm with Some vm => vm ∈ areas (vma_ i1) | None => i1 = i end)
    as (Hok1 & Hm1 & Hvm).
  { destruct source as [|file|backing obj]; [| |by eapply map_memory_object_moved; [..|exact E1]; (done || lia)].
    all: eapply map_file_moved; [..|exact E1]; try done; try lia; [apply vm_flags_file|rewrite vm_flags_writeable].
    - by intros [].
    - by eapply map_object_may. }
  destruct vm as [vm|]; [|by simplify_eq]. destruct (status_ok out); [by simplify_eq|].
  apply bind_Some in E as ([[ok i2] k2] & E2 & E). simplify_eq.
  destruct (umap_file_moved process false i1 L k1 _ _ _ _ _ Hok1 E2) as (Hok2 & Hm2 & _).
  split; [done|]. by eapply moved_trans.
Qed.

Lemma memory_unmap_moved o i L k st f r i' k' :
  space_ok i → memory_unmap k i (st, f) = Some (r, i', k') → space_ok i' ∧ moved o false i L k i' k'.
Proof using HL.
  intros Hok E. unfold memory_unmap in E. run_option; simplify_eq; try (split; [done|by apply moved_same]).
  match goal with E : umap_file _ _ _ _ = Some _ |- _ =>
    destruct (umap_file_moved o false i L k _ _ _ _ _ Hok E) as (? & ? & _) end. done.
Qed.

(** ** Exit *)

Lemma destroy_loop_moved o copies i L l k k' :
  destroy_loop k i l = Some k' → rtc (move o copies) (books_of (claims o l ++ L) k) (books_of L k').
Proof.
  revert k. induction l as [|vm l IH]; intros k E; simpl in E; [by simplify_eq|].
  apply bind_Some in E as (k1 & E1 & E). apply bind_Some in E as (k2 & E2 & E).
  apply unmap_in_books in E1. rewrite <-(same_books_of _ k k1 E1), claims_cons, <-app_assoc.
  etrans; [|by apply (IH k2)]. destruct (is_file vm) eqn:Hf; [by apply release_move|].
  simplify_eq. unfold claim_of. by rewrite Hf.
Qed.

Lemma destroy_info_moved o copies i L k k' :
  destroy_info k i = Some k' → rtc (move o copies) (books_of (claims o (areas (vma_ i)) ++ L) k) (books_of L k').
Proof.
  unfold destroy_info. intros (k1 & E1 & E)%bind_Some. apply set_mem_books in E. rewrite (same_books_of _ _ _ E).
  by eapply destroy_loop_moved.
Qed.

(** ** Fork *)

Lemma flagged_claim o vm : claim_of o (set_flags_of vm (Z.lor (flags vm) VmFlags.cow)) = claim_of o vm.
Proof. unfold claim_of, is_file. simpl. rewrite !has_flag_lor. by rewrite !orb_false_r. Qed.

(** The addresses that [New] returns for the copies. *)
Definition fresh_maps k (fresh : list Z) : Prop :=
  NoDup fresh ∧ ∀ p, p ∈ fresh → k_maps k !! p = None ∧ 0 < p < 2 ^ 64.

(** The copy of one area. *)
Lemma clone_item_moved o q L k vm to info p mt :
  is_file vm = true → k_maps k !! user_data vm = Some mt → k_maps k !! p = None → 0 < p < 2 ^ 64 →
  option_list (claim_of q vm) ⊆ L →
  rtc (move o true) (books_of (claims o to ++ L) k)
    (books_of (claims o (insert_area to (set_user_data vm p)) ++ L)
       (mapping_created (set_maps k (<[p := copy_map mt info]> (k_maps k))) (mt_pseudo mt) (flags vm))).
Proof using HL.
  intros Hf Hmt Hn Hr Hin.
  set (c := Build_claim o p (has_flag (flags vm) VmFlags.writeable) (bool_decide (method vm = pf_physical))).
  assert (claim_of o (set_user_data vm p) = Some c) as Hc by (unfold claim_of, is_file in *; simpl; by rewrite Hf).
  etrans; [|apply rtc_once, move_perm; by rewrite (claims_perm o _ _ (insert_area_perm to _)), claims_cons, Hc].
  replace (k_maps (mapping_created _ _ _)) with (<[p := copy_map mt info]> (k_maps k)) by (unfold mapping_created; by case_match).
  replace (k_devices (mapping_created _ _ _)) with (created (k_devices k) (mt_pseudo mt) (flags vm))
    by (unfold mapping_created, created; by case_match).
  apply rtc_once, (move_add o true _ _ _ c (copy_map mt info) (flags vm)); try done.
  right. right. split; [done|]. unfold claim_of in Hin. rewrite Hf in Hin. simpl in Hin.
  eexists. split; [apply elem_of_app; right; apply Hin; left|]. simpl. unfold pseudo_at. by rewrite Hmt.
Qed.

Lemma clone_areas_moved o q L k l to info fresh l' to' k' :
  clone_areas k l to VmFlags.cow info fresh = Some (l', to', k') → fresh_maps k fresh → claims q l ⊆ L →
  rtc (move o true) (books_of (claims o to ++ L) k) (books_of (claims o to' ++ L) k') ∧ claims q l' = claims q l.
Proof using HL.
  revert k to fresh l' to' k'. induction l as [|vm l IH]; intros k to fresh l' to' k' E Hfr Hin; simpl in E; [by simplify_eq|].
  apply bind_Some in E as ([[item k1] fresh1] & E1 & E). apply bind_Some in E as ([[l2 to2] k2] & E2 & E). injection E as <- <- <-.
  rewrite claims_cons in Hin. rewrite claims_cons, flagged_claim.
  set (fvm := set_flags_of vm (Z.lor (flags vm) VmFlags.cow)) in *.
  assert (fresh_maps k1 fresh1 ∧
    rtc (move o true) (books_of (claims o to ++ L) k) (books_of (claims o (insert_area to item) ++ L) k1)) as [Hfr1 Hm].
  2: { destruct (IH k1 _ fresh1 l2 to2 k2 E2 Hfr1) as [Hm2 Hc]; [intros c Hc; apply Hin, elem_of_app; by right|].
       split; [by etrans|]. by rewrite claims_cons, Hc. }
  destruct (is_file fvm) eqn:Hf.
  - apply bind_Some in E1 as (mt & Hmt & E1). destruct fresh as [|p fresh]; [done|]. injection E1 as <- <- <-. destruct Hfr as [Hnd Hfr].
    apply NoDup_cons in Hnd as [Hpn Hnd]. destruct (Hfr p) as [Hpf Hpr]; [left|]. split.
    + split; [done|]. intros p' Hp'. destruct (Hfr p') as [Hn' ?]; [by right|]. split; [|done].
      unfold mapping_created. case_match; simpl; rewrite lookup_insert_ne; try done; by intros ->.
    + apply (clone_item_moved o q L k fvm to info p mt); try done. intros c Hc. apply Hin, elem_of_app. left.
      by rewrite <-flagged_claim.
  - injection E1 as <- <- <-. split; [done|]. apply rtc_once, move_perm.
    rewrite (claims_perm o _ _ (insert_area_perm to _)), claims_cons. unfold claim_of, is_file in *. simpl in *. by rewrite Hf.
Qed.

(** The ranges of areas. *)
Definition ranges (l : list vm_t) : list (Z * Z) := (λ vm, (start vm, end_ vm)) <$> l.

Lemma clone_areas_ranges k l to flag info fresh l' to' k' :
  clone_areas k l to flag info fresh = Some (l', to', k') → ranges l' = ranges l ∧ ranges to' ≡ₚ ranges l ++ ranges to.
Proof using HL.
  revert k to fresh l' to' k'. induction l as [|vm l IH]; intros k to fresh l' to' k' E; simpl in E; [by simplify_eq|].
  apply bind_Some in E as ([[item k1] fresh1] & E1 & E). apply bind_Some in E as ([[l2 to2] k2] & E2 & E). injection E as <- <- <-.
  destruct (IH _ _ _ _ _ _ E2) as [Hl Ht]. split; [csimpl; by rewrite <-Hl|]. rewrite Ht.
  assert ((start item, end_ item) = (start vm, end_ vm)) as Hi.
  { clear E2. destruct (is_file _); [apply bind_Some in E1 as (mt & _ & E1); destruct fresh; [done|]|]; by injection E1 as <- _ _. }
  change (ranges (vm :: l)) with ((start vm, end_ vm) :: ranges l). rewrite <-Hi.
  transitivity (ranges l ++ ranges (item :: to)); [|csimpl; by rewrite Permutation_middle].
  f_equiv. unfold ranges. by rewrite insert_area_perm.
Qed.

(** Areas with the ranges of a well-formed space, kept in order, are one. *)
Lemma areas_wf_ranges v l :
  areas_wf v → ranges l ≡ₚ ranges (areas v) → StronglySorted end_le l →
  areas_wf (Build_vm_allocator l (range_top v) (range_bottom v)).
Proof.
  intros Hw Hr Hs. destruct (Permutation_map_inv _ _ Hr) as (l3 & Heq & Hp).
  assert (∀ j a, l !! j = Some a → ∃ b, l3 !! j = Some b ∧ start a = start b ∧ end_ a = end_ b) as Hl.
  { intros j a Ha. assert (ranges l !! j = Some (start a, end_ a)) as Hj by (unfold ranges; by rewrite list_lookup_fmap, Ha).
    rewrite Heq in Hj. apply list_lookup_fmap_Some in Hj as (b & Heq' & Hb). simplify_eq. by exists b. }
  assert (Forall (area_ok (Build_vm_allocator l (range_top v) (range_bottom v))) l) as Hok.
  { apply Forall_lookup. intros j a Ha. destruct (Hl j a Ha) as (b & Hb & Hs1 & He1).
    assert (area_ok v b) as [] by (pose proof (wf_each v Hw) as Hf; rewrite Hp, Forall_lookup in Hf; eauto).
    constructor; simpl; congruence || (rewrite Hs1; lia) || (rewrite He1; lia) || (rewrite Hs1, He1; lia). }
  constructor; simpl; [apply Hw|apply Hw|done|].
  apply sorted_before_iff; [eapply Forall_impl; [exact Hok|by intros ? []]|]. split; [done|].
  intros j1 j2 a1 a2 Ha1 Ha2 Hn. destruct (Hl _ _ Ha1) as (b1 & Hb1 & Hs1 & He1), (Hl _ _ Ha2) as (b2 & Hb2 & Hs2 & He2).
  assert (pairwise_apart l3) as Hpw.
  { eapply pairwise_apart_perm; [symmetry; exact Hp|]. apply sorted_before_iff; [by apply areas_wf_nonempty|apply Hw]. }
  specialize (Hpw _ _ _ _ Hb1 Hb2 Hn). unfold apart, before in *. by rewrite Hs1, He1, Hs2, He2.
Qed.

Lemma clone_areas_sorted k l to flag info fresh l' to' k' :
  clone_areas k l to flag info fresh = Some (l', to', k') → StronglySorted end_le to → StronglySorted end_le to'.
Proof using HL.
  revert k to fresh l' to' k'. induction l as [|vm l IH]; intros k to fresh l' to' k' E Hs; simpl in E; [by simplify_eq|].
  apply bind_Some in E as ([[item k1] fresh1] & E1 & E). apply bind_Some in E as ([[l2 to2] k2] & E2 & E). injection E as <- <- <-.
  eapply IH; [exact E2|]. by apply insert_area_sorted.
Qed.

Lemma land_page_zero x : (page_size | x) → Z.land x (page_size - 1) = 0.
Proof.
  intros Hx. change (page_size - 1) with (Z.ones 12). rewrite Z.land_ones by lia. by apply Z.mod_divide.
Qed.

(** [umap_file] does not refuse an area of the space. *)
Lemma umap_file_accepts k i vm ok i' k' :
  space_ok i → vm ∈ areas (vma_ i) → umap_file k i (start vm) (end_ vm - start vm) = Some (ok, i', k') → ok = true.
Proof using HL.
  intros [Hw _ _] Hin. assert (area_ok (vma_ i) vm) as [_ Hne _ Hs He] by (pose proof (wf_each _ Hw) as Hf; rewrite Forall_forall in Hf; auto).
  assert (get_vm_area (vma_ i) (start vm) = Some vm) as Hg by (apply get_vm_area_exact; [done|]; split; [done|unfold contains; lia]).
  assert ((page_size | end_ vm - start vm)) as Hd by (by apply Z.divide_sub_r).
  unfold umap_file. rewrite Hg, !land_page_zero by done. rewrite (proj2 (Z.eqb_neq (end_ vm - start vm) 0)) by lia.
  rewrite (proj2 (Z.leb_gt _ _)) by lia. rewrite (proj2 (Z.mod_divide _ page_size ltac:(done)) Hd), !Z.eqb_refl. cbn [orb negb].
  intros E. by run_option; simplify_eq.
Qed.

Lemma first_disallowed_some k l vm : first_disallowed k l = Some (Some vm) → vm ∈ l.
Proof.
  induction l as [|x l IH]; intros E; simpl in E; [by simplify_eq|]. destruct (has_flag _ _); simpl in E; [|right; auto].
  apply bind_Some in E as ([?|] & _ & E); [simplify_eq; left|right; auto].
Qed.

(** No writable mapping of a device that refuses is left. *)
Definition inheritable k (l : list vm_t) : Prop :=
  ∀ vm mt, vm ∈ l → is_file vm = true → has_flag (flags vm) VmFlags.writeable = true → method vm = pf_physical →
    user_data vm ≠ 0 → k_maps k !! user_data vm = Some mt → mt_pseudo mt ≠ 0 → allow_fork_mapping (mt_pseudo mt) true = true.

Lemma first_disallowed_none k l : first_disallowed k l = Some None → inheritable k l.
Proof.
  induction l as [|x l IH]; intros E; simpl in E; [intros vm mt Hin; by apply not_elem_of_nil in Hin|].
  assert (first_disallowed k l = Some None ∧
    (has_flag (flags x) VmFlags.writeable = true → fork_disallowed k x = Some None)) as [El Hx].
  { destruct (has_flag _ _); simpl in E; [|done]. by apply bind_Some in E as ([?|] & ? & E). }
  intros vm mt Hin Hf Hw Hm Hz Hmt Hp. apply elem_of_cons in Hin as [->|Hin]; [|by apply (IH El vm mt)].
  specialize (Hx Hw). unfold fork_disallowed in Hx. rewrite Hf, bool_decide_true, (proj2 (Z.eqb_neq _ _) Hz) in Hx by done.
  cbn [negb orb] in Hx. rewrite Hmt in Hx. simpl in Hx. rewrite (proj2 (Z.eqb_neq _ _) Hp) in Hx. simpl in Hx.
  by destruct (allow_fork_mapping _ _).
Qed.

Lemma remove_loop_moved o copies L fuel k i i' k' :
  space_ok i → remove_loop fuel k i = Some (i', k') →
  space_ok i' ∧ moved o copies i L k i' k' ∧ inheritable k' (areas (vma_ i')).
Proof using HL.
  revert k i. induction fuel as [|fuel IH]; intros k i Hok E; cbn [remove_loop] in E; apply bind_Some in E as ([vm|] & E1 & E); try done.
  1, 3: simplify_eq; split_and!; [done|by apply moved_same|by apply first_disallowed_none].
  pose proof (first_disallowed_some _ _ _ E1) as Hin.
  assert (start vm < end_ vm) as Hne by (pose proof (areas_wf_nonempty _ (so_areas _ Hok)) as Hf; rewrite Forall_forall in Hf; auto).
  rewrite (proj2 (Z.eqb_neq _ _)) in E by lia.
  destruct (umap_file k i (start vm) (end_ vm - start vm)) as [[[ok i1] k1]|] eqn:Eu; [|done].
  rewrite (umap_file_accepts _ _ _ _ _ _ Hok Hin Eu) in *. destruct (umap_file_moved o copies i L k _ _ _ _ _ Hok Eu) as (Hok1 & Hm1 & _).
  destruct (IH k1 i1 Hok1 E) as (Hok' & Hm' & Hin'). split_and!; [done| |done]. by eapply moved_trans.
Qed.

(** The fuel of the loop is enough: every round removes an area. *)
Lemma remove_loop_fuel fuel k i :
  space_ok i → (length (areas (vma_ i)) ≤ fuel)%nat → remove_loop (Datatypes.S fuel) k i = remove_loop fuel k i.
Proof using HL.
  revert k i. induction fuel as [|fuel IH]; intros k i Hok Hl.
  - destruct (areas (vma_ i)) as [|vm l] eqn:E; simpl in Hl; [|lia]. cbn [remove_loop]. by rewrite E.
  - cbn [remove_loop]. destruct (first_disallowed k (areas (vma_ i))) as [[vm|]|] eqn:E1; try done.
    cbn [mbind option_bind]. destruct (_ =? 0); [done|].
    destruct (umap_file k i (start vm) (end_ vm - start vm)) as [[[[] i1] k1]|] eqn:Eu; try done.
    destruct (umap_file_moved 0 false i [] k _ _ _ _ _ Hok Eu) as (Hok1 & _ & vm' & _ & Hp). apply Permutation_length in Hp.
    simpl in Hp. apply IH; [done|lia].
Qed.

Lemma restore_loop_books k i l k' : restore_loop k i l = Some k' → same_books k k'.
Proof.
  revert k. induction l as [|vm l IH]; intros k E; simpl in E; [by simplify_eq|].
  apply bind_Some in E as (d & _ & E). apply bind_Some in E as (k1 & E1 & E). apply IH in E.
  eapply same_books_trans; [|exact E]. destruct d; [by eapply map_to_in_books|by simplify_eq].
Qed.

Lemma ranges_sorted l l' : ranges l' = ranges l → StronglySorted end_le l → StronglySorted end_le l'.
Proof.
  revert l'. induction l as [|x l IH]; intros [|y l'] Hr Hs; try done; try (by constructor).
  change ((start y, end_ y) :: ranges l' = (start x, end_ x) :: ranges l) in Hr. injection Hr as _ He Hr.
  apply StronglySorted_inv in Hs as [Hs Hx]. constructor; [by apply IH|].
  apply Forall_lookup. intros j z Hz. assert (ranges l' !! j = Some (start z, end_ z)) as Hj by (unfold ranges; by rewrite list_lookup_fmap, Hz).
  rewrite Hr in Hj. apply list_lookup_fmap_Some in Hj as (w & Heq & Hw). rewrite Forall_lookup in Hx. specialize (Hx j w Hw).
  unfold end_le in *. injection Heq as _ ->. by rewrite He.
Qed.

(** A fork: the child [o] gets copies of the claims of its parent [q], and keeps
    no writable mapping of a device that refuses to have it inherited. *)
Lemma share_to_moved o q L k i c info fresh i' c' k' :
  space_ok i → areas (vma_ c) = [] → fresh_maps k fresh → share_to k i c info fresh = Some (i', c', k') →
  space_ok i' ∧ space_ok c' ∧ inheritable k' (areas (vma_ c')) ∧
  rtc (move o true) (books_of (claims q (areas (vma_ i)) ++ L) k)
    (books_of (claims o (areas (vma_ c')) ++ claims q (areas (vma_ i')) ++ L) k').
Proof using HL.
  intros [Hw Ht Hb] Hc Hfr E. unfold share_to in E. apply bind_Some in E as ([[v vc] k1] & Ec & E).
  unfold clone in Ec. rewrite Hc in Ec. apply bind_Some in Ec as ([[l lc] k0] & Ea & Ec). injection Ec as <- <- <-.
  apply bind_Some in E as (m & _ & E). apply bind_Some in E as (k2 & Er & E). apply bind_Some in E as ([c1 k3] & Erm & E).
  injection E as <- <- <-. apply restore_loop_books in Er.
  destruct (clone_areas_ranges _ _ _ _ _ _ _ _ _ Ea) as [Hr1 Hr2]. rewrite app_nil_r in Hr2.
  assert (StronglySorted end_le lc) as Hsc by (eapply clone_areas_sorted; [exact Ea|constructor]).
  assert (StronglySorted end_le l) as Hsl by (eapply ranges_sorted; [exact Hr1|by apply areas_wf_sorted]).
  assert (space_ok (set_vma i (with_areas (vma_ i) l))) as Hoki.
  { constructor; simpl; [|done|done]. apply (areas_wf_ranges (vma_ i)); [done|by rewrite Hr1|done]. }
  assert (space_ok (set_vma c (Build_vm_allocator lc (range_top (vma_ i)) (range_bottom (vma_ i))))) as Hokc.
  { constructor; simpl; [|done|done]. by apply areas_wf_ranges. }
  unfold remove_fork_disallowed_mappings in Erm.
  destruct (remove_loop_moved o true (claims q l ++ L) _ _ _ _ _ Hokc Erm) as (Hokc' & Hm & Hinh). split_and!; [done|done|done|].
  destruct (clone_areas_moved o q (claims q (areas (vma_ i)) ++ L) k _ _ _ _ _ _ _ Ea Hfr) as [Hm0 Hcl].
  { intros x Hx. apply elem_of_app. by left. }
  etrans; [exact Hm0|]. unfold moved in Hm. simpl in Hm |- *. rewrite <-Hcl. etrans; [|exact Hm].
  rewrite (same_books_of _ _ _ Er). by apply rtc_refl.
Qed.

End moves.

#[global] Arguments same_books {S D}.
