(* ===== verification/FramebufferLease.v ===== *)
(** The lease of the framebuffer over all address spaces: the device of
    Framebuffer.v keeps the interface [CountsMappings], so the ledger of VmWorld.v
    holds for it, and every move of the ledger keeps its writable mappings with
    the process that holds the lease. *)
From stdpp Require Import base list numbers gmap.
From S2P Require Import Prelude Abi VmAllocator Zones Paging VmInfo VmCalls VmLedger VmMoves Framebuffer VmWorld.

Local Open Scope Z_scope.
Set Default Proof Using "Type".

Implicit Types (d : framebuffer_pseudo_t) (b : books (D := framebuffer_pseudo_t)).

(** The lease is active while the file is open or writable mappings exist. *)
Record lease_ok d : Prop := Build_lease_ok {
  le_references : 0 ≤ writer_open_references_ d;
  le_mappings : 0 ≤ writable_mappings_ d;
  le_active : writer_active_ d = true ↔ 0 < writer_open_references_ d + writable_mappings_ d;
  le_terminal : framebuffer_user_writer d = writer_active_ d;
}.

(** The calls of open files. *)
Inductive fb_step (frontend : Z → bool) : framebuffer_pseudo_t → framebuffer_pseudo_t → Prop :=
| fb_open d fl enabled process : fb_step frontend d (open d fl enabled process (frontend process)).2
| fb_close d fl : fb_step frontend d (close_with_flags d fl).

Lemma release_idle d :
  release_writer_if_idle_locked d = d ∨
  writer_active_ (release_writer_if_idle_locked d) = false ∧ writer_open_references_ d = 0 ∧ writable_mappings_ d = 0 ∧
  writer_active_ d = true.
Proof.
  unfold release_writer_if_idle_locked. destruct (_ && _ && _) eqn:E; [right|by left].
  rewrite !andb_true_iff, !Z.eqb_eq in E. tauto.
Qed.

(** Ending an idle lease restores the invariant. *)
Lemma release_idle_ok d :
  0 ≤ writer_open_references_ d → 0 ≤ writable_mappings_ d →
  (0 < writer_open_references_ d + writable_mappings_ d → writer_active_ d = true) → framebuffer_user_writer d = writer_active_ d →
  lease_ok (release_writer_if_idle_locked d).
Proof.
  intros Hr Hm Ha Ht. unfold release_writer_if_idle_locked.
  destruct (Z.eqb_spec (writer_open_references_ d) 0) as [Er|Er]; destruct (Z.eqb_spec (writable_mappings_ d) 0) as [Em|Em];
    destruct (writer_active_ d) eqn:Eact; constructor; simpl; rewrite ?Eact; try done; split; (done || lia || intros; apply Ha; lia).
Qed.

Lemma fb_step_lease frontend d d' :
  fb_step frontend d d' → lease_ok d →
  lease_ok d' ∧ writable_mappings_ d' = writable_mappings_ d ∧
  (0 < writable_mappings_ d → writer_process_ d' = writer_process_ d).
Proof.
  intros [d0 fl enabled process|d0 fl] Hok; pose proof Hok as [Hr Hm Ha Ht].
  - unfold open. repeat case_match; simpl; try (split; [exact Hok|done]).
    assert (¬ 0 < writer_open_references_ d0 + writable_mappings_ d0) as Hn by (intros Hx; apply Ha in Hx; congruence).
    split; [constructor; simpl; [lia|done|split; [lia|done]|done]|]. split; [done|lia].
  - unfold close_with_flags. destruct (negb _); [split; [exact Hok|done]|].
    destruct (Z.eqb_spec (writer_open_references_ d0) 0); [split; [exact Hok|done]|].
    split; [apply release_idle_ok; simpl; try done; [lia|]; intros; apply Ha; lia|].
    unfold release_writer_if_idle_locked. simpl. destruct (_ && _ && _) eqn:E; simpl; [|done]. split; [done|].
    rewrite !andb_true_iff, !Z.eqb_eq in E. lia.
Qed.

Section lease.
Context (fb : Z) (backend : option framebuffer_t) (frontend : Z → bool).
Context (pseudo_of mode_of : Z → Z) (read_file : Z → Z → Z → list Z) (fb_nonnull : fb ≠ 0).

#[local] Instance the_devices : Devices framebuffer_pseudo_t := kernel_devices fb backend frontend pseudo_of mode_of read_file.

Lemma released_mappings d fl :
  0 ≤ writable_mappings_ d → (has_flag fl VmFlags.writeable = true → 0 < writable_mappings_ d) →
  writable_mappings_ (fb_mapping_released d fl) = writable_mappings_ d - (if has_flag fl VmFlags.writeable then 1 else 0).
Proof.
  intros Hm Hp. unfold fb_mapping_released. destruct (has_flag _ _); simpl; [|lia]. specialize (Hp eq_refl).
  rewrite (proj2 (Z.eqb_neq _ _)) by lia. unfold release_writer_if_idle_locked. by case_match.
Qed.

#[local] Instance framebuffer_counts : CountsMappings framebuffer_pseudo_t.
Proof using fb_nonnull.
  refine {| tracked q := q =? fb; held d q := if q =? fb then writable_mappings_ d else 0 |}.
  - apply Z.eqb_neq. congruence.
  - intros d p fl q ->%Z.eqb_eq. rewrite Z.eqb_refl. simpl. intros Hh. destruct (Z.eqb_spec p fb) as [->|Hn].
    + rewrite bool_decide_true by done. unfold fb_mapping_created. destruct (has_flag _ _); simpl; [|lia]. apply u64_small. lia.
    + rewrite bool_decide_false by done. simpl. lia.
  - intros d p fl q ->%Z.eqb_eq. rewrite Z.eqb_refl. simpl. intros Hh Hp. destruct (Z.eqb_spec p fb) as [->|Hn].
    + rewrite bool_decide_true by done. by apply released_mappings; [|apply Hp].
    + rewrite bool_decide_false by done. simpl. lia.
Defined.

(** Writable mappings of the framebuffer are with the holder of the lease or,
    in the course of a fork, with its child [oo]. *)
Definition one_writer (oo : option Z) b : Prop :=
  lease_ok b.2 ∧ ∀ c, c ∈ b.1.1 → writes b.1.2 fb c → c_owner c = writer_process_ b.2 ∨ oo = Some (c_owner c).

Lemma ledger_mappings L ms d : ledger_ok (L, ms, d) → writable_mappings_ d = writers ms fb L.
Proof. intros Hl. pose proof (lo_count _ Hl fb) as Hc. simpl in Hc. rewrite Z.eqb_refl in Hc. by apply Hc. Qed.

Lemma writers_pos ms q L c : c ∈ L → writes ms q c → 0 < writers ms q L.
Proof.
  intros Hc Hw. unfold writers. assert (c ∈ filter (writes ms q) L) as Hin by (by apply list_elem_of_filter).
  destruct (filter _ L); [by apply not_elem_of_nil in Hin|simpl; lia].
Qed.

(** A writable mapping exists only under an active lease. *)
Lemma writer_has_lease L ms d c : ledger_ok (L, ms, d) → lease_ok d → c ∈ L → writes ms fb c → writer_active_ d = true.
Proof.
  intros Hl [Hr Hm Ha _] Hc Hw. apply Ha. pose proof (writers_pos ms fb L c Hc Hw). rewrite (ledger_mappings L ms d Hl) in *. lia.
Qed.

Lemma created_lease d p fl :
  lease_ok d → writable_mappings_ d < 2 ^ 64 - 1 →
  (p = fb → has_flag fl VmFlags.writeable = true → writer_active_ d = true) →
  lease_ok (created d p fl) ∧ writer_process_ (created d p fl) = writer_process_ d.
Proof using fb_nonnull.
  intros [Hr Hm Ha Ht] Hb Hp. unfold created. destruct (Z.eqb_spec p 0) as [|Hz]; [by split|]. simpl.
  destruct (Z.eqb_spec p fb) as [->|]; [|by split]. unfold fb_mapping_created. destruct (has_flag _ _) eqn:E; [|by split].
  split; [|done]. specialize (Hp eq_refl eq_refl). constructor; simpl; rewrite ?u64_small by lia; try done; [lia|].
  split; [lia|done].
Qed.

Lemma released_lease d p fl :
  lease_ok d → (p = fb → has_flag fl VmFlags.writeable = true → 0 < writable_mappings_ d) →
  lease_ok (released d p fl) ∧
  (writer_process_ (released d p fl) = writer_process_ d ∨ writer_active_ (released d p fl) = false).
Proof using fb_nonnull.
  intros Hok Hp. pose proof Hok as [Hr Hm Ha Ht]. unfold released. destruct (Z.eqb_spec p 0) as [|Hz]; [auto|]. simpl.
  destruct (Z.eqb_spec p fb) as [->|]; [|auto]. unfold fb_mapping_released. destruct (has_flag _ _) eqn:E; simpl; [|auto].
  specialize (Hp eq_refl eq_refl). rewrite (proj2 (Z.eqb_neq _ _)) by lia. split.
  - apply release_idle_ok; simpl; try done; [lia|]. intros. apply Ha. lia.
  - destruct (release_idle (set_mappings d (writable_mappings_ d - 1))) as [->|[? _]]; [by left|by right].
Qed.

Lemma move_one_writer o copies oo b b' :
  (copies = true → oo = Some o) → move o copies b b' → ledger_ok b → one_writer oo b → one_writer oo b'.
Proof using fb_nonnull.
  intros Hoo Hmv Hl. pose proof (move_ledger o copies b b' Hmv Hl) as Hl'. revert Hl Hl'.
  destruct Hmv as [L L' ms d Hp|L ms d c mt fl Ho Hn Hr Hw Hj|L ms d c mt fl Ho Hm Hw]; intros Hl Hl' [Hlease Hone]; simpl in *.
  - split; [done|]. simpl. intros c Hc. rewrite <-Hp in Hc. auto.
  - assert (mt_pseudo mt = fb → has_flag fl VmFlags.writeable = true →
      writer_active_ d = true ∧ (o = writer_process_ d ∨ oo = Some o)) as Hact.
    { intros Hfb Hwr. rewrite Hfb, Hwr in *. destruct Hj as [?|[(_ & shared & Ha)|(Hcp & c' & Hin & Hps & Hwc & _)]]; [done| |].
      - simpl in Ha. rewrite Z.eqb_refl, Hw in Ha. unfold fb_allow_mapping in Ha. simpl in Ha. destruct (_ || _); [done|].
        rewrite !andb_true_iff, Z.eqb_eq in Ha. destruct Ha as [[? ?] _]. auto.
      - split; [|right; auto]. apply (writer_has_lease L ms d c' Hl Hlease Hin). split; [congruence|done]. }
    destruct (created_lease d (mt_pseudo mt) fl Hlease) as [Hlease' Hwp]; [|by intros; apply Hact|].
    { rewrite (ledger_mappings L ms d Hl). pose proof (writers_bound ms fb L). pose proof (lo_nodup _ Hl') as Hnd.
      pose proof (addresses_length _ Hnd (lo_range _ Hl')) as Hlen. simpl in Hlen. rewrite length_fmap in Hlen. lia. }
    split; [done|]. simpl. rewrite Hwp. intros c' Hc' [Hw' Hp']. rewrite pseudo_at_insert in Hp'. apply elem_of_cons in Hc' as [->|Hc'].
    + rewrite decide_True in Hp' by done. rewrite Ho. apply Hact; [done|congruence].
    + rewrite decide_False in Hp'; [by apply Hone|]. intros Heq. pose proof (lo_nodup _ Hl') as Hnd. simpl in Hnd.
      apply NoDup_cons in Hnd as [Hnd _]. apply Hnd. rewrite <-Heq. by apply list_elem_of_fmap_2.
  - destruct (released_lease d (mt_pseudo mt) fl Hlease) as [Hlease' Hwp].
    { intros Hfb Hwr. rewrite (ledger_mappings _ _ _ Hl). apply (writers_pos _ _ _ c); [left|].
      split; [congruence|]. unfold pseudo_at. by rewrite Hm. }
    split; [done|]. simpl. intros c' Hc' Hw'.
    assert (writes ms fb c') as Hwr.
    { destruct Hw' as [? Hp']. split; [done|]. rewrite pseudo_at_delete in Hp'; [done|]. intros Heq.
      pose proof (lo_nodup _ Hl) as Hnd. simpl in Hnd. apply NoDup_cons in Hnd as [Hnd _]. apply Hnd. rewrite <-Heq.
      by apply list_elem_of_fmap_2. }
    destruct Hwp as [->|Hoff]; [apply Hone; [by right|done]|].
    pose proof (writer_has_lease _ _ _ c' Hl' Hlease' Hc' Hw'). congruence.
Qed.

Lemma moves_one_writer o copies oo b b' :
  (copies = true → oo = Some o) → rtc (move o copies) b b' → ledger_ok b → one_writer oo b → one_writer oo b'.
Proof using fb_nonnull.
  intros Hoo. induction 1 as [|b1 b2 b3 Hm _ IH]; intros Hl Ho; [done|].
  apply IH; [by eapply move_ledger|by eapply move_one_writer].
Qed.

Lemma fb_step_held d d' q : fb_step frontend d d' → tracked q = true → held d' q = held d q.
Proof.
  intros Hs _. simpl. case_match; [|done]. destruct Hs; unfold open, close_with_flags, release_writer_if_idle_locked;
    by repeat case_match.
Qed.

Lemma step_one_writer b b' :
  ledger_step (fb_step frontend) b b' → ledger_ok b → one_writer None b → ledger_ok b' ∧ one_writer None b'.
Proof using fb_nonnull.
  intros [o b1 b2 Hm|o b1 b2 Hm Hinh|L ms d d' Hd] Hl Ho.
  - split; [by eapply moves_ledger|]. by apply (moves_one_writer o false None b1 b2).
  - assert (ledger_ok b2) as Hl2 by (by eapply moves_ledger). split; [done|].
    destruct (moves_one_writer o true (Some o) b1 b2) as [Hlease Hone]; try done.
    { destruct Ho as [Hlease Hone]. split; [done|]. intros c Hc Hw. left. by destruct (Hone c Hc Hw). }
    split; [done|]. intros c Hc Hw. destruct (Hone c Hc Hw) as [?|[= Hco]]; [by left|]. exfalso.
    destruct Hw as [Hwr Hps]. specialize (Hinh c Hc (eq_sym Hco) Hwr). rewrite Hps in Hinh. simpl in Hinh. rewrite Z.eqb_refl in Hinh.
    assert (negb true = true); [|done]. apply Hinh; [|pose proof (lo_range _ Hl2 (c_data c)) as Hr|done].
    + apply (lo_physical _ Hl2 c Hc). by rewrite Hps.
    + intros Hz. rewrite Hz in Hr. assert (0 < 0 < 2 ^ 64); [|lia]. apply Hr. rewrite <-Hz. by apply list_elem_of_fmap_2.
  - destruct Ho as [Hlease Hone]. simpl in *. destruct (fb_step_lease frontend d d' Hd Hlease) as (Hlease' & Hm & Hwp). split.
    + destruct Hl as [? ? ? ? Hc]. constructor; try done. intros q Hq. etrans; [by apply fb_step_held|exact (Hc q Hq)].
    + split; [done|]. simpl. intros c Hc Hw. destruct (Hone c Hc Hw) as [Ho|?]; [left|done]. rewrite Ho. symmetry. apply Hwp.
      rewrite (ledger_mappings _ _ _ Hl). by eapply writers_pos.
Qed.

Context {S : Type} `{FrameStore S} `{HL : AreaListLaws}.

Lemma framebuffer_nonnull (q : Z) : supports_physical_mmap q = true → q ≠ 0.
Proof using fb_nonnull. simpl. by intros ->%Z.eqb_eq. Qed.

Lemma steps_one_writer (w w' : world (S := S) (D := framebuffer_pseudo_t)) :
  rtc (step (fb_step frontend)) w w' → world_ok w → ledger_ok (world_books w) → one_writer None (world_books w) →
  ledger_ok (world_books w') ∧ one_writer None (world_books w').
Proof using HL fb_nonnull.
  induction 1 as [|w1 w2 w3 Hs _ IH]; intros Hw Hl Ho; [done|].
  destruct (step_ledger (fb_step frontend) framebuffer_nonnull w1 w2 Hw Hs) as [Hw2 Hl2].
  destruct (step_one_writer _ _ Hl2 Hl Ho) as [Hl' Ho']. by apply IH.
Qed.

(** The writable mappings of the framebuffer in a world. *)
Definition maps_for_writing (w : world (S := S) (D := framebuffer_pseudo_t)) (o : Z) (vm : vm_t) : Prop :=
  ∃ i, w_spaces w !! o = Some i ∧ vm ∈ areas (vma_ i) ∧ is_file vm = true ∧
       has_flag (flags vm) VmFlags.writeable = true ∧ pseudo_at (k_maps (w_kernel w)) (user_data vm) = fb.

Lemma maps_for_writing_claim w o vm :
  maps_for_writing w o vm ↔
  ∃ i c, w_spaces w !! o = Some i ∧ vm ∈ areas (vma_ i) ∧ claim_of o vm = Some c ∧ writes (k_maps (w_kernel w)) fb c.
Proof.
  unfold maps_for_writing, claim_of, writes. split.
  - intros (i & Hi & Hvm & -> & Hw & Hp). eauto 10.
  - intros (i & c & Hi & Hvm & Hc & Hw & Hp). exists i. destruct (is_file vm); [|done]. by injection Hc as <-.
Qed.

(** C5: However processes open and close the framebuffer, map and unmap it, fork
    and exit, all its writable mappings are in the address space of the one
    process that holds the lease, and the lease is held exactly as long as the
    file is open for writing or such a mapping exists. *)
Theorem framebuffer_has_one_writer w0 w :
  booted w0 → k_devices (w_kernel w0) = make_framebuffer → rtc (step (fb_step frontend)) w0 w →
  let d := k_devices (w_kernel w) in
  (∀ o vm, maps_for_writing w o vm → writer_active_ d = true ∧ o = writer_process_ d) ∧
  (writer_active_ d = true ↔ 0 < writer_open_references_ d ∨ ∃ o vm, maps_for_writing w o vm) ∧
  framebuffer_user_writer d = writer_active_ d.
Proof using HL fb_nonnull.
  intros Hb Hd Hs d. destruct (booted_ok w0 Hb) as [Hw0 Hl0].
  assert (one_writer None (world_books w0)) as Ho0.
  { destruct Hb as (Hsp & _ & _). unfold world_books, books_of, one_writer. simpl. rewrite Hd, Hsp. split; [by constructor|].
    intros c Hc. unfold all_claims in Hc. rewrite map_to_list_empty in Hc. by apply not_elem_of_nil in Hc. }
  destruct (steps_one_writer w0 w Hs Hw0 Hl0 Ho0) as [Hl [Hlease Hone]]. simpl in Hlease, Hone. fold d in Hlease, Hone.
  assert (∀ o vm, maps_for_writing w o vm → ∃ c, c_owner c = o ∧ c ∈ all_claims (w_spaces w) ∧ writes (k_maps (w_kernel w)) fb c) as Hcl.
  { intros o vm (i & c & Hi & Hvm & Hc & Hw)%maps_for_writing_claim. exists c.
    assert (c_owner c = o) as <- by (unfold claim_of in Hc; case_match; by simplify_eq).
    split; [done|]. split; [|done]. apply elem_of_all_claims. eauto. }
  split; [|split; [|apply Hlease]].
  - intros o vm (c & <- & Hc & Hw)%Hcl. split; [|by destruct (Hone c Hc Hw)]. by apply (writer_has_lease _ _ d c Hl Hlease).
  - rewrite (le_active _ Hlease). split.
    + intros Hp. destruct (decide (0 < writer_open_references_ d)) as [?|Hn]; [by left|right].
      pose proof (ledger_mappings _ _ _ Hl) as Hm. fold d in Hm. unfold writers in Hm.
      destruct (filter _ (all_claims _)) as [|c l] eqn:Ef; [simpl in Hm; pose proof (le_references _ Hlease); lia|].
      assert (c ∈ filter (writes (k_maps (w_kernel w)) fb) (all_claims (w_spaces w))) as Hin by (rewrite Ef; left).
      apply list_elem_of_filter in Hin as [Hw Hc]. apply elem_of_all_claims in Hc as (i & vm & Hi & Hvm & Hcl').
      exists (c_owner c), vm. apply maps_for_writing_claim. eauto 10.
    + intros [?|(o & vm & (c & _ & Hc & Hw)%Hcl)]; [pose proof (le_mappings _ Hlease); lia|].
      pose proof (writer_has_lease _ _ d c Hl Hlease Hc Hw) as Hact. by apply (le_active _ Hlease).
Qed.

End lease.
