(* ===== verification/VmSamples.v ===== *)
(** Concrete address spaces for the theorems of VmPages.v, VmWorld.v and
    FramebufferLease.v: a console that holds the framebuffer, and the two processes
    of PageFork.v after a fork; and what a fork does to a console that has drawn. *)
From stdpp Require Import base list numbers gmap.
From S2P Require Import Prelude Abi Usercopy Capability DataPlane VmAllocator Zones Paging PageFacts PageSharing PageMapping PageFork.
From S2P Require Import VmInfo VmCalls VmPages VmLedger VmMoves Framebuffer VmWorld FramebufferLease.

Local Open Scope Z_scope.

Import SortedList CountedFrames.

(** The framebuffer at address [fb], behind file 9, with two pages of pixels in
    memory outside the zones; process 1 is the console frontend. *)
Definition fb : Z := 0x5000.
Definition screen : framebuffer_t := Build_framebuffer_t (2 ^ 41) 4096 2 32.
Definition frontend (process : Z) : bool := process =? 1.
Definition pseudo_of (file : Z) : Z := if file =? 9 then fb else 0.

#[local] Instance sample_devices : Devices framebuffer_pseudo_t :=
  kernel_devices fb (Some screen) frontend pseudo_of (λ _, 3) (λ _ _ count, replicate (Z.to_nat count) 7).

Lemma fb_nonnull : fb ≠ 0.
Proof. done. Qed.

#[local] Instance sample_counts : CountsMappings framebuffer_pseudo_t :=
  framebuffer_counts fb (Some screen) frontend pseudo_of (λ _, 3) (λ _ _ count, replicate (Z.to_nat count) 7) fb_nonnull.

Definition boot : kernel counted_frames framebuffer_pseudo_t := Build_kernel (empty_memory 0x1000) ∅ ∅ make_framebuffer.
Definition no_info : info_t := Build_info_t (make_vm_allocator 0 0) 0 None 0.

(** Process 1 starts, opens the framebuffer for writing and maps it. *)
Definition started : info_t * kernel counted_frames framebuffer_pseudo_t := default (no_info, boot) (make_info boot).
Definition opened : kernel counted_frames framebuffer_pseudo_t :=
  set_devices started.2 (open make_framebuffer 2 true 1 (frontend 1)).2.
Definition sample_scopes : scopes := Build_scopes 3 4 5.
Definition sample_casts : casts := Build_casts (λ _, 0) (λ o, o).
Definition map_frame_9 : memory_map_frame :=
  Build_memory_map_frame 64 (MEMORY_MAP_READ + MEMORY_MAP_WRITE + MEMORY_MAP_SHARED) 0 20 0 0x2000 0 0 0.
Definition entry_9 : entry :=
  Build_entry (Some 9) 1 active (Build_metadata BINDING_KERNEL_VIEW [] 4 1 0 0 0).
Definition mapped : na_status * Z * info_t * kernel counted_frames framebuffer_pseudo_t :=
  default (STATUS_OK, 0, no_info, boot)
    (memory_map opened started.1 sample_scopes sample_casts 1 0x7000 (STATUS_OK, map_frame_9) (Some entry_9) 0x8000 STATUS_OK).
Definition console : info_t := mapped.1.2.
Definition drawing : kernel counted_frames framebuffer_pseudo_t := mapped.2.

Lemma console_maps :
  memory_map opened started.1 sample_scopes sample_casts 1 0x7000 (STATUS_OK, map_frame_9) (Some entry_9) 0x8000 STATUS_OK
  = Some (mapped.1.1.1, mapped.1.1.2, console, drawing).
Proof. vm_compute. reflexivity. Qed.

Definition booted_world : world := Build_world boot ∅.
Definition console_world : world := Build_world drawing {[1 := console]}.

Lemma booted_sample : booted booted_world.
Proof. split; [done|]. split; [done|]. intros q Hq. simpl. by case_match. Qed.

Lemma console_run : rtc (step (fb_step frontend)) booted_world console_world.
Proof.
  eapply rtc_l; [apply (step_spawn _ boot ∅ 1 started.1 started.2); [done|vm_compute; reflexivity]|].
  eapply rtc_l; [apply (step_device _ started.2 _ (open make_framebuffer 2 true 1 (frontend 1)).2)|].
  { assert (k_devices started.2 = make_framebuffer) as -> by (vm_compute; reflexivity). constructor. }
  apply rtc_once. change (<[1 := started.1]> ∅) with ({[1 := started.1]} : gmap Z info_t).
  assert ({[1 := console]} = <[1 := console]> ({[1 := started.1]} : gmap Z info_t)) as Hs by (by rewrite insert_singleton).
  unfold console_world. rewrite Hs. fold opened.
  eapply (step_map _ opened _ 1 started.1 sample_scopes sample_casts 0x7000 STATUS_OK map_frame_9 (Some entry_9) 0x8000 STATUS_OK);
    [by rewrite lookup_singleton_eq|done|by left|vm_compute; reflexivity|done|exact console_maps].
Qed.

Definition screen_area : vm_t := default (search_key 0) (head (areas (vma_ console))).

Lemma console_writes : maps_for_writing fb console_world 1 screen_area.
Proof. exists console. split; [apply lookup_singleton_eq|]. split; [vm_compute; left|]. by vm_compute. Qed.

Lemma framebuffer_has_one_writer_witness :
  writer_active_ (k_devices drawing) = true ∧ 1 = writer_process_ (k_devices drawing).
Proof.
  destruct (framebuffer_has_one_writer fb (Some screen) frontend pseudo_of (λ _, 3) (λ _ _ count, replicate (Z.to_nat count) 7) fb_nonnull
    booted_world console_world booted_sample eq_refl console_run) as [Hone _].
  exact (Hone 1 screen_area console_writes).
Defined.


Lemma physical_mapping_stays_in_frame_witness : 2 ^ 41 + align_up 4097 page_size ≤ 2 ^ 41 + align_up (frame_bytes screen) page_size.
Proof.
  destruct (physical_mapping_stays_in_frame screen 0 4097 (2 ^ 41)) as (_ & _ & Hle); [done|done|done|vm_compute; reflexivity|exact Hle].
Defined.

(** The child of the fork of PageFork.v, with a writable area over the page it
    shares and one more. *)
Definition heap_area : vm_t :=
  Build_vm_t 0x400000 0x402000 (Z.lor VmFlags.writeable (Z.lor VmFlags.user_mode (Z.lor VmFlags.expand VmFlags.cow))) pf_common 0.
Definition child_space : info_t :=
  Build_info_t (Build_vm_allocator [heap_area] user_mmap_top_address user_code_bottom_address) PageSample.spawned None 0.
Definition forked_kernel : kernel counted_frames framebuffer_pseudo_t := Build_kernel PageSample.forked ∅ ∅ make_framebuffer.

Lemma child_faultable : ∃ lv, ∀ q, 0 ≤ q < 2 ^ 36 - 1 → faultable forked_kernel lv child_space q.
Proof.
  destruct PageSample.forked_sound as (lv & Hok & Hco & Hp & Hs & Hsmall). exists lv. intros q Hq.
  constructor; [exact Hok|exact Hco|exact Hs|exact Hq|]. intros f. specialize (Hsmall f). cbn [k_mem forked_kernel]. lia.
Qed.



(** ** A fork of the console *)

(** [fork] of the console in kernel [k]. *)
Definition fork_console (k : kernel counted_frames framebuffer_pseudo_t) : option (info_t * info_t * kernel counted_frames framebuffer_pseudo_t) :=
  '(c, k) ← make_info k; share_to k console c 0x9000 [0xA000].

(** The first write of the console to the screen. *)
Definition draw (k : kernel counted_frames framebuffer_pseudo_t) : option (request_result * option fault_signal * kernel counted_frames framebuffer_pseudo_t) :=
  page_fault_func k (Some console) console (Build_interrupt_info 6 false) 0x200000 false.


Lemma memory_map_respects_rights_witness :
  ∃ o g s meta, Some entry_9 = Some (Build_entry (Some o) g s meta) ∧
    allows_map opened sample_scopes sample_casts 1 map_frame_9 o meta.
Proof.
  apply (memory_map_respects_rights opened started.1 sample_scopes sample_casts 1 0x7000 (STATUS_OK, map_frame_9) (Some entry_9) 0x8000
    STATUS_OK mapped.1.1.2 console drawing); [|discriminate].
  rewrite console_maps. vm_compute. reflexivity.
Defined.
