(* ===== verification/InputEventSource.v ===== *)
(** The input event source of src/kernel/input_event_source.cc: the one subscriber of
    the hardware input, its channel, and the publication of key events with a mark
    for events that were lost.

    The channels are those of ChannelSystem.v.  The encoding of an event is
    generated from an interface description and is a parameter; addresses and
    allocation results of messages come from the environment.  The source takes its
    lock anew after each send; here a publication runs as a whole. *)
From stdpp Require Import base list numbers gmap.
From S2P Require Import Prelude Abi Usercopy BoundedQueue Capability ResourceTable Channel ChannelSystem.

Local Open Scope Z_scope.
Set Default Proof Using "Type".

Definition INPUT_EVENT_KIND_OVERRUN : Z := 2.
Definition INPUT_EVENT_KIND_FRAMEBUFFER_DISABLE : Z := 3.
Definition INPUT_EVENT_KIND_FRAMEBUFFER_ENABLE : Z := 4.

Definition max_subscribers : nat := 1.

Record subscriber : Type := Build_subscriber {
  producer : khandle;
  receiver : khandle;
  capacity : Z;
  overrun_pending : bool;
  reserved : bool;
}.

Definition no_subscriber : subscriber := Build_subscriber None None 0 false false.
Abbreviation subscribers := (list subscriber).
Definition make_source : subscribers := replicate max_subscribers no_subscriber.

Definition set_reserved (b : bool) (sub : subscriber) : subscriber :=
  Build_subscriber (producer sub) (receiver sub) (capacity sub) (overrun_pending sub) b.
Definition set_pending (b : bool) (sub : subscriber) : subscriber :=
  Build_subscriber (producer sub) (receiver sub) (capacity sub) b (reserved sub).
(** A slot whose handles were moved out. *)
Definition cleared (sub : subscriber) : subscriber := Build_subscriber None None 0 false (reserved sub).

Implicit Types (k : ipc) (subs : subscribers).

(** Dropping a handle; [last] tells for which objects it is the last reference. *)
Definition drop_handle (last : Z → bool) k (o : khandle) : ipc :=
  match o with Some o => if last o then destroy_endpoint k o else k | None => k end.

Definition release_kernel_producer (last : Z → bool) k (o : khandle) : ipc :=
  match o with
  | None => k
  | Some x =>
    let k1 := match k_endpoints k !! x with
              | Some (s, side) => update_state s (λ st, kernel_owner_released st side) k
              | None => k
              end in
    drop_handle last k1 o
  end.

(** The two handles of a subscriber that has been taken out of its slot. *)
Definition release_handles (last : Z → bool) k (sub : subscriber) : ipc :=
  drop_handle last (release_kernel_producer last k (producer sub)) (receiver sub).

(** ** Subscribing *)

(** The receiver of a slot has no owner any more. *)
Definition receiver_closed k (sub : subscriber) : bool :=
  match receiver sub with
  | None => true
  | Some o =>
    match k_endpoints k !! o with
    | None => true
    | Some (s, side) => has_flag (signals (state_at k s) (1 - side)) SIGNAL_PEER_CLOSED
    end
  end.

(** The first slot that is free or whose receiver is closed, and what is left to
    release of its old contents. *)
Fixpoint find_slot k subs (i : nat) : option (nat * option subscriber) :=
  match subs with
  | [] => None
  | sub :: subs' =>
    if reserved sub then find_slot k subs' (S i)
    else match producer sub with
    | None => Some (i, None)
    | Some _ => if receiver_closed k sub then Some (i, Some sub) else find_slot k subs' (S i)
    end
  end.

(** The first locked part: the slot is reserved. *)
Definition reserve_slot k subs : option (nat * option subscriber * subscribers) :=
  match find_slot k subs 0 with
  | None => None
  | Some (i, stale) =>
    let clear sub := match stale with Some _ => cleared sub | None => sub end in
    Some (i, stale, alter (λ sub, set_reserved true (clear sub)) i subs)
  end.

Definition event_channel_options (max_events : Z) : channel_options :=
  Build_options channel_options_sizeof 0 (max_events + 1) (u64 ((max_events + 1) * 64)) 0 0.

(** The second locked part: the new handles enter the slot unless it was lost. *)
Definition commit_slot subs (i : nat) (p r : object) (max_events : Z) : bool * subscribers :=
  match subs !! i with
  | Some sub =>
    if negb (reserved sub) || match producer sub with Some _ => true | None => false end
    then (false, <[i := set_reserved false sub]> subs)
    else (true, <[i := Build_subscriber (Some p) (Some r) max_events false false]> subs)
  | None => (false, subs)
  end.

(** The handle for the caller, the channels and the slots. *)
Definition subscribe (last : Z → bool) k subs (max_events : Z) (e : create_env) : khandle * ipc * subscribers :=
  if (max_events =? 0) || (64 <? max_events) then (None, k, subs)
  else match reserve_slot k subs with
  | None => (None, k, subs)
  | Some (i, stale, subs1) =>
    let k1 := match stale with Some sub => release_handles last k sub | None => k end in
    let '(status, ends, k2) := create_raw_channel_kernel k1 (Some (event_channel_options max_events)) e in
    match ends with
    | None => (None, k2, alter (set_reserved false) i subs1)
    | Some (p, r) =>
      match k_endpoints k2 !! p with
      | None => (None, drop_handle last k2 (Some r), alter (set_reserved false) i subs1)
      | Some (s, side) =>
        let k3 := update_state s (λ st, kernel_owner_acquired st side) k2 in
        let '(committed, subs2) := commit_slot subs1 i p r max_events in
        if committed then (Some r, k3, subs2)
        else (None, drop_handle last (release_kernel_producer last k3 (Some p)) (Some r), subs2)
      end
    end
  end.

(** Taking back a subscription whose reply could not be sent. *)
Fixpoint take_receiver (r : object) subs : option (subscriber * subscribers) :=
  match subs with
  | [] => None
  | sub :: subs' =>
    if bool_decide (receiver sub = Some r) then Some (sub, cleared sub :: subs')
    else '(found, rest) ← take_receiver r subs'; Some (found, sub :: rest)
  end.
Definition rollback_subscription (last : Z → bool) k subs (r : khandle) : bool * ipc * subscribers :=
  match r with
  | None => (false, k, subs)
  | Some r =>
    match take_receiver r subs with
    | None => (false, k, subs)
    | Some (sub, subs') => (true, release_handles last k sub, subs')
    end
  end.

(** The destructor. *)
Definition destroy_source (last : Z → bool) k subs : ipc := foldl (release_handles last) k subs.

(** ** Publishing *)

(** The address and the allocation results of one message. *)
Record send_alloc : Type := Build_send_alloc {
  sa_message : Z;
  sa_message_ok : bool;
  sa_bytes_ok : bool;
  sa_data_ok : bool;
  sa_gc : gc_env;
}.

Definition send_wire k (o : khandle) (wire : list Z) (a : send_alloc) : na_status * ipc :=
  send_raw_channel_object k o (Some wire) (Z.of_nat (length wire)) (sa_message a) (sa_message_ok a)
    (sa_bytes_ok a) (sa_data_ok a) (sa_gc a).

(** [get_control] of two handles compared. *)
Definition same_handle (o o' : khandle) : bool := bool_decide (o = o').

(** The slot after an ordinary event was sent with [status]: whether its handles are
    to be released, and the slot. *)
Definition settle_event (target sub : subscriber) (pending : bool) (status : na_status) : bool * subscriber :=
  if negb (same_handle (producer sub) (producer target)) then (false, sub)
  else if bool_decide (status = WOULD_BLOCK) || bool_decide (status = RESOURCE_EXHAUSTED)
  then (false, set_pending true sub)
  else if bool_decide (status = PEER_CLOSED) then (true, cleared sub)
  else if status_ok status then (false, set_pending pending sub)
  else (false, sub).

(** The slot after a mark was sent in place of an event. *)
Definition settle_mark (target sub : subscriber) (status : na_status) : subscriber :=
  if same_handle (producer sub) (producer target) then set_pending (negb (status_ok status)) sub else sub.

(** The body of the loop for one slot; the mark is [None] when it was not encoded.
    [a1] is the allocation of a pending mark, [a2] of what follows. *)
Definition publish_to (last : Z → bool) k (sub : subscriber) (wire : list Z) (mark : option (list Z))
    (a1 a2 : send_alloc) : ipc * subscriber :=
  match producer sub, receiver sub with
  | Some _, Some r =>
    match k_endpoints k !! r with
    | None => (k, sub)
    | Some (s, side) =>
      let '(closed, pending, k1) :=
        match mark with
        | Some mark_wire =>
          if overrun_pending sub then
            let '(status, k1) := send_wire k (producer sub) mark_wire a1 in
            (bool_decide (status = PEER_CLOSED), negb (status_ok status), k1)
          else (false, false, k)
        | None => (false, overrun_pending sub, k)
        end in
      if closed then (k1, sub)
      else if capacity sub <=? queued_messages (state_at k1 s) side then
        let '(status, k2) := match mark with
                             | Some mark_wire => send_wire k1 (producer sub) mark_wire a2
                             | None => (RESOURCE_EXHAUSTED, k1)
                             end in
        (k2, settle_mark sub sub status)
      else
        let '(status, k2) := send_wire k1 (producer sub) wire a2 in
        let '(stale, sub') := settle_event sub sub pending status in
        (if stale then release_handles last k2 sub else k2, sub')
    end
  | _, _ => (k, sub)
  end.

Fixpoint publish_loop (last : Z → bool) k subs (wire : list Z) (mark : option (list Z))
    (allocs : list (send_alloc * send_alloc)) : ipc * subscribers :=
  match subs, allocs with
  | sub :: subs', (a1, a2) :: allocs' =>
    let '(k1, sub') := publish_to last k sub wire mark a1 a2 in
    let '(k2, rest) := publish_loop last k1 subs' wire mark allocs' in
    (k2, sub' :: rest)
  | _, _ => (k, subs)
  end.

(** A key event: its code, modifiers and kind. *)
Record key_event : Type := Build_key_event {
  key_code : Z;
  modifiers : Z;
  kind : Z;
}.
Definition overrun_event : key_event := Build_key_event 0 0 INPUT_EVENT_KIND_OVERRUN.

(** [encode] is [KeyEvent_encode] to a buffer of 128 bytes, [None] when the writer is
    not good afterwards. *)
Definition publish (encode : key_event → option (list Z)) (last : Z → bool) k subs (e : key_event)
    (allocs : list (send_alloc * send_alloc)) : ipc * subscribers :=
  match encode e with
  | None => (k, subs)
  | Some wire => publish_loop last k subs wire (encode overrun_event) allocs
  end.

Definition publish_framebuffer_event (encode : key_event → option (list Z)) (last : Z → bool) k
    (source : option subscribers) (enabled : bool) (allocs : list (send_alloc * send_alloc)) : ipc * option subscribers :=
  match source with
  | None => (k, None)
  | Some subs =>
    let '(k', subs') := publish encode last k subs
      (Build_key_event 0 0 (if enabled then INPUT_EVENT_KIND_FRAMEBUFFER_ENABLE
                            else INPUT_EVENT_KIND_FRAMEBUFFER_DISABLE)) allocs in
    (k', Some subs')
  end.
