(* ===== verification/InputFacts.v ===== *)
(** What the input event source of InputEventSource.v promises: over any number of
    publications and reads the receiver gets the published events in order, and an
    event that did not fit is followed by an overrun mark as long as the receiver is
    open; a subscription is exclusive; and an event between the subscription and the
    delivery of the receiver ends it. *)
From stdpp Require Import base list numbers gmap relations.
From S2P Require Import Prelude Abi Usercopy BoundedQueue Capability ResourceTable.
From S2P Require Import Channel ChannelFacts ChannelSystem ChannelMachine ChannelTransfer ChannelGC InputEventSource.

Local Open Scope Z_scope.
Set Default Proof Using "Type".

Implicit Types (k : ipc) (st : channel_state) (a : send_alloc).

(** ** Sending on the channel of a subscriber *)

(** The payloads queued for one side of a channel. *)
Definition inbox k (s side : Z) : list (option (list Z)) :=
  (λ p, cm_bytes (message_at (k_heap k) p)) <$> ptrs (queue_of (state_at k s) side).

(** The settings of a channel made for [cap] events; no operation count overflows. *)
Definition event_channel (cap : Z) st : Prop :=
  cs_valid st = true ∧ max_messages st = cap + 1 ∧ max_bytes st = (cap + 1) * 64 ∧ 0 ≤ max_resources st ∧
  0 ≤ active_operations st < 2 ^ 64 - 1.

(** Producer [p] and receiver [r] are the two ends of the channel [s]. *)
Record connected (p r : object) (s cap : Z) k : Prop := Build_connected {
  cn_wf : ipc_wf k;
  cn_producer : k_endpoints k !! p = Some (s, 0);
  cn_receiver : k_endpoints k !! r = Some (s, 1);
  cn_registered : s ∈ k_registry k;
  cn_channel : ∃ st, k_states k !! s = Some st ∧ event_channel cap st;
  cn_cap : 1 ≤ cap ≤ 64;
}.

Lemma queue_ptrs st side p : 0 ≤ side ≤ 1 → p ∈ ptrs (queue_of st side) → p ∈ all_ptrs st.
Proof. intros Hs Hp. unfold all_ptrs. apply elem_of_app. destruct (side_cases side Hs); subst; auto. Qed.

(** Channels with the same queues and messages have the same inboxes. *)
Lemma inbox_same k k' s st st' side :
  k_states k !! s = Some st → k_states k' !! s = Some st' → cs_queues st' = cs_queues st → 0 ≤ side ≤ 1 →
  (∀ p, p ∈ all_ptrs st → k_heap k' !! p = k_heap k !! p) → inbox k' s side = inbox k s side.
Proof.
  intros Hs Hs' Hq Hside Hh. unfold inbox. rewrite (state_at_present k s st), (state_at_present k' s st') by done.
  unfold queue_of in *. rewrite Hq. apply list_fmap_ext. intros i p Hp. unfold message_at. rewrite Hh; [done|].
  eapply queue_ptrs; [done|]. unfold queue_of. by eapply list_elem_of_lookup_2.
Qed.

(** Counting owners or roots leaves both ends connected. *)
Lemma connected_update p r s cap k s' f :
  inert f → (∀ st, active_operations (f st) = active_operations st) → connected p r s cap k →
  connected p r s cap (update_state s' f k) ∧ inbox (update_state s' f k) s 1 = inbox k s 1.
Proof.
  intros Hf Ho [Hwf Hp Hr Hreg (st & Hs & Hv & Hmm & Hmb & Hmr & Hop) Hcap].
  assert (∃ st', k_states (update_state s' f k) !! s = Some st' ∧ cs_queues st' = cs_queues st ∧ event_channel cap st')
    as (st' & Hs' & Hq & Hch).
  { unfold update_state. cbn [k_states with_states]. destruct (decide (s' = s)) as [->|Hne].
    - exists (f st). rewrite lookup_alter_eq, Hs. destruct (Hf st) as (Hfq & H1 & H2 & H3 & _ & _ & _ & H4).
      split_and!; [done..|]. unfold event_channel. by rewrite H1, H2, H3, H4, Ho.
    - exists st. rewrite lookup_alter_ne by done. by split_and!. }
  split; [|by apply (inbox_same k _ s st st')]. split; try done; [by apply update_state_wf|by eexists].
Qed.

(** The collection at the end of a send, with the operation that ends there. *)
Lemma collect_and_end env k s st :
  ipc_wf k → k_states k !! s = Some st → s ∈ k_registry k → 1 ≤ active_operations st < 2 ^ 64 →
  let k' := update_state s end_operation (collect_orphaned_channels env k) in
  ipc_wf k' ∧ s ∈ k_registry k' ∧ ∃ st', k_states k' !! s = Some st' ∧ cs_queues st' = cs_queues st ∧
    cs_valid st' = cs_valid st ∧ max_messages st' = max_messages st ∧ max_bytes st' = max_bytes st ∧
    max_resources st' = max_resources st ∧ active_operations st' = active_operations st - 1 ∧
    ∀ p, p ∈ all_ptrs st → k_heap k' !! p = k_heap k !! p.
Proof.
  intros Hwf Hs Hr Ho k'. assert (live k s) as Hlive.
  { exists s. split; [|done]. split; [done|]. rewrite (state_at_present k s st Hs). unfold is_gc_root, can_reap.
    rewrite (proj2 (Z.eqb_neq _ _)) by lia. by rewrite andb_false_r, orb_true_r. }
  destruct (intact_collect s (contents st) (k_heap k) env k Hwf Hlive) as (Hr' & st1 & Hs1 & Hc & Hh).
  { split; [done|]. by exists st. }
  injection Hc as Hq Hv Hmm Hmb Hmr Hop.
  split; [apply update_state_wf; [by apply collect_wf|apply inert_end]|]. split; [done|].
  exists (end_operation st1). unfold k', update_state. cbn [k_states with_states]. rewrite lookup_alter_eq, Hs1.
  split_and!; try done.
  - simpl. rewrite Hop, u64_small; lia.
  - intros p Hp. simpl. apply Hh. unfold all_ptrs, queue_of in *. by rewrite Hq.
Qed.

(** An endpoint of the sender survives a send that does not give it up. *)
Lemma end_endpoint env k s (o : object) :
  gc_last env o = false →
  k_endpoints (update_state s end_operation (collect_orphaned_channels env k)) !! o = k_endpoints k !! o.
Proof. intros Ho. exact (endpoint_collect env o Ho k). Qed.

(** The environment of a send to the channel between [p] and [r]: a new address,
    and references to both ends remain. *)
Record alloc_ok (p r : object) k a : Prop := Build_alloc_ok {
  al_fresh : fresh k (sa_message a);
  al_producer : gc_last (sa_gc a) p = false;
  al_receiver : gc_last (sa_gc a) r = false;
}.

Definition wire_ok (w : list Z) : Prop := 1 ≤ Z.of_nat (length w) ≤ 64.

(** A channel for [cap] events inside an operation. *)
Definition busy_channel (cap : Z) st : Prop :=
  cs_valid st = true ∧ max_messages st = cap + 1 ∧ max_bytes st = (cap + 1) * 64 ∧ 0 ≤ max_resources st ∧
  1 ≤ active_operations st < 2 ^ 64.

Lemma event_rejects st w ok ok' cap :
  1 ≤ cap → busy_channel cap st → wire_ok w → message_valid (make_message (Z.of_nat (length w)) 0 ok ok') = true →
  enqueue_rejects st 0 (Some (kernel_message (Some w) (Z.of_nat (length w)) ok ok')) 0 = None.
Proof.
  intros Hcap (Hv & _ & Hb & Hr & _) [Hw1 Hw2] Hm. unfold enqueue_rejects, kernel_message.
  rewrite (proj2 (Z.eqb_neq _ 0)) by lia. rewrite Hv. unfold message_valid, resource_count in *. simpl in *.
  rewrite orb_true_r. simpl. rewrite Hb, u64_small by lia. rewrite !(proj2 (Z.ltb_ge _ _)) by lia. done.
Qed.

Lemma send_ends (p r : object) s cap k st env :
  ipc_wf k → k_endpoints k !! p = Some (s, 0) → k_endpoints k !! r = Some (s, 1) → s ∈ k_registry k →
  k_states k !! s = Some st → busy_channel cap st → 1 ≤ cap ≤ 64 → gc_last env p = false → gc_last env r = false →
  let k' := update_state s end_operation (collect_orphaned_channels env k) in
  connected p r s cap k' ∧ inbox k' s 1 = inbox k s 1 ∧ ∀ x, k_heap k !! x = None → k_heap k' !! x = None.
Proof.
  intros Hwf Hp Hr Hreg Hs (Hv & Hmm & Hmb & Hmr & Hop) Hcap Hlp Hlr k'.
  destruct (collect_and_end env k s st Hwf Hs Hreg Hop) as (Hwf' & Hreg' & st' & Hs' & Hq & Hv' & Hmm' & Hmb' & Hmr' & Hop' & Hh).
  split_and!.
  - split; [done|exact (eq_trans (end_endpoint env k s p Hlp) Hp)|exact (eq_trans (end_endpoint env k s r Hlr) Hr)|done| |done].
    exists st'. split; [done|]. unfold event_channel. rewrite Hv', Hmm', Hmb', Hmr', Hop'. split_and!; try done; lia.
  - by apply (inbox_same k k' s st st').
  - intros x Hx. by apply collect_heap.
Qed.

(** What the locked part of a send does to the channel of a subscriber. *)
Lemma enqueue_event k s st cap w a :
  ipc_wf k → k_states k !! s = Some st → busy_channel cap st → 1 ≤ cap → wire_ok w →
  message_valid (make_message (Z.of_nat (length w)) 0 (sa_bytes_ok a) (sa_data_ok a)) = true →
  let m := kernel_message (Some w) (Z.of_nat (length w)) (sa_bytes_ok a) (sa_data_ok a) in
  let res := enqueue_kernel st (k_globals k) 0 (Some (sa_message a, m)) [] 0 in
  refused st (k_globals k) m [] res ∨ sent st (k_globals k) 0 (sa_message a) m [] res.
Proof.
  intros Hwf Hs Hch Hcap Hw Hm m res.
  assert (enqueue_rejects st 0 (Some m) 0 = None) as Hrej.
  { eapply event_rejects; [exact Hcap|exact Hch|done|done]. }
  unfold res, enqueue_kernel.
  change (enqueue_rejects st 0 _ _) with (enqueue_rejects st 0 (Some m) 0). rewrite Hrej.
  pose proof (enqueue_rejects_none st 0 m [] Hrej) as Hsend.
  pose proof (iw_channels k Hwf s st Hs) as Hst. pose proof (iw_within k Hwf) as Hg.
  assert (0 ≤ cm_byte_count m) as Hb by (unfold m; rewrite kernel_message_size; lia).
  destruct (enqueue_kernel_locked_eq st _ _ 0 (sa_message a) m [] 0 Hst Hg ltac:(lia) Hb Hsend) as [Href| ->]; [by left|].
  exact (enqueue_locked_spec st _ _ 0 (sa_message a) m [] Hst Hg ltac:(lia) Hb Hsend).
Qed.

(** A message pushed to the queue of the receiver is the last of its inbox. *)
Lemma inbox_push k s st w a fifo :
  let m := kernel_message (Some w) (Z.of_nat (length w)) (sa_bytes_ok a) (sa_data_ok a) in
  let q := queue_of st 1 in
  let st' := set_queue 1 (push_queue q fifo (sent_message m [])) st in
  channel_wf st (k_heap k) → k_states k !! s = Some st → fresh k (sa_message a) → wire_ok w →
  try_push (q_fifo q) (sa_message a) = (true, fifo) →
  q_bytes q + cm_byte_count m ≤ max_bytes st → q_resources q + resource_count (sent_message m []) ≤ max_resources st →
  ∀ k', k_states k' !! s = Some st' → k_heap k' = <[sa_message a := sent_message m []]> (k_heap k) →
  inbox k' s 1 = inbox k s 1 ++ [Some w].
Proof.
  intros m q st' Hst Hs [Hnn Hfr] [Hw1 Hw2] Hpush Hb Hr k' Hs' Hh.
  destruct (limits_small st _ Hst) as (Hmb & Hmr & _). pose proof (cw_queues st _ Hst 1 ltac:(lia)) as Hq. fold q in Hq.
  destruct (push_ok _ _ _ _ q (sa_message a) (sent_message m []) fifo Hq Hpush) as (_ & Hptrs & _); try done; try lia.
  { simpl. unfold m. rewrite kernel_message_size. lia. }
  unfold inbox. rewrite (state_at_present k s st), (state_at_present k' s st') by done.
  unfold st'. rewrite queue_set_eq by (lia || apply Hst). fold q. rewrite Hptrs, fmap_app, Hh. f_equal.
  - apply list_fmap_ext. intros i p Hp. unfold message_at. rewrite lookup_insert_ne; [done|]. intros <-.
    pose proof (qo_stored _ _ _ _ _ Hq) as Hstored. eapply Forall_lookup_1 in Hstored as (_ & m' & Hm' & _); [|exact Hp]. congruence.
  - simpl. unfold message_at. rewrite lookup_insert_eq. simpl. unfold m, kernel_message.
    by rewrite (proj2 (Z.eqb_neq _ 0)) by lia.
Qed.

(** A send either appends its payload to the inbox of the receiver or leaves it as
    it is and says why. *)
Lemma send_wire_spec p r s cap k w a :
  connected p r s cap k → alloc_ok p r k a → wire_ok w →
  let '(status, k') := send_wire k (Some p) w a in
  connected p r s cap k' ∧ (∀ x, x ≠ sa_message a → k_heap k !! x = None → k_heap k' !! x = None) ∧
  (status = STATUS_OK ∧ inbox k' s 1 = inbox k s 1 ++ [Some w] ∨
   status ∈ [PEER_CLOSED; WOULD_BLOCK; RESOURCE_EXHAUSTED] ∧ inbox k' s 1 = inbox k s 1).
Proof.
  intros [Hwf Hp Hr Hreg (st & Hs & Hch) Hcap] [Hfresh Hlp Hlr] Hw.
  pose proof Hch as (Hv & Hmm & Hmb & Hmr & Hop). pose proof Hw as [Hw1 Hw2].
  unfold send_wire, send_raw_channel_object. rewrite Hp.
  set (k1 := update_state s begin_operation k). set (st1 := begin_operation st).
  assert (k_states k1 !! s = Some st1) as Hs1.
  { unfold k1, update_state. cbn [k_states with_states]. by rewrite lookup_alter_eq, Hs. }
  assert (ipc_wf k1) as Hwf1 by (apply update_state_wf; [done|apply inert_begin]).
  assert (busy_channel cap st1) as Hbusy by (unfold busy_channel; simpl; rewrite u64_small by lia; split_and!; done || lia).
  assert (inbox k1 s 1 = inbox k s 1) as Hin1 by (by apply (inbox_same k k1 s st st1)).
  rewrite (proj2 (Z.ltb_ge _ _)) by (unfold CHANNEL_MAX_MESSAGE_BYTES; lia). rewrite andb_false_r. simpl orb.
  destruct (negb (sa_message_ok a) || _) eqn:Halloc.
  - assert (k_states (update_state s end_operation k1) !! s = Some (end_operation st1)) as Hs2.
    { unfold update_state. cbn [k_states with_states]. by rewrite lookup_alter_eq, Hs1. }
    split_and!; [|done|].
    + split; [apply update_state_wf; [done|apply inert_end]|done..| |done]. eexists. split; [exact Hs2|].
      unfold event_channel. simpl. rewrite u64_up_down by lia. done.
    + right. split; [do 2 right; left|]. rewrite <- Hin1. by apply (inbox_same k1 _ s st1 (end_operation st1)).
  - apply orb_false_iff in Halloc as [_ Hvalid]. apply negb_false_iff in Hvalid.
    rewrite (state_at_present k1 s st1 Hs1).
    pose proof (enqueue_event k1 s st1 cap w a Hwf1 Hs1 Hbusy ltac:(lia) Hw Hvalid) as Henq.
    cbv zeta in Henq. set (m := kernel_message _ _ _ _) in *. set (res := enqueue_kernel _ _ _ _ _ _) in *. clearbody res.
    destruct Henq as [Href|(fifo & Hpush & _ & Hb & Hrs & Hw' & ->)].
    + pose proof (refused_status _ _ _ _ _ Href) as Hno. destruct Href as (status & Hst & ->).
      cbn [er_status er_globals er_state er_events er_message] in *. rewrite Hno.
      assert (cm_resources m = []) as -> by (unfold m, kernel_message; by destruct (_ =? 0)). cbn [foldl run_hooks].
      rewrite (put_state_present k1 s st1), insert_id by done. replace (with_globals _ _) with k1 by by destruct k1.
      destruct (send_ends p r s cap k1 st1 (sa_gc a)) as (Hc & Hi & Hh); try done.
      split_and!; [done|intros x _; by apply Hh|]. right. by rewrite Hi.
    + pose proof (iw_channels k1 Hwf1 s st1 Hs1) as Hst1. assert (fresh k1 (sa_message a)) as Hfr1 by done.
      assert (0 ≤ cm_byte_count m) as Hm by (unfold m; rewrite kernel_message_size; lia).
      pose proof (pushed_ok (others k1 s) (k_globals k1) st1 (k_heap k1) Hst1 (others_accounts k1 s st1 Hwf1 Hs1) 1
        (sa_message a) (sent_message m []) fifo _ ltac:(lia) (proj1 Hfr1) (proj2 Hfr1) Hm Hb Hrs Hpush eq_refl Hw') as Hok.
      change (1 - 0) with 1 in *. set (st2 := set_queue 1 _ st1) in *.
      cbn [er_status er_globals er_state er_events er_message run_hooks foldl]. change (status_ok STATUS_OK) with true. cbv iota.
      rewrite (put_state_present k1 s st1) by done.
      set (k3 := notify_channel_waiters _).
      assert (ipc_wf k3) as Hwf3 by exact (generation_wf _ (ipc_update k1 s st1 _ _ _ Hwf1 Hs1 Hok)).
      assert (k_states k3 !! s = Some st2) as Hs3 by exact (lookup_insert_eq _ _ _).
      destruct (send_ends p r s cap k3 st2 (sa_gc a)) as (Hc & Hi & Hh); try done.
      split_and!; [done| |].
      * intros x Hx Hn. apply Hh. unfold k3. cbn [k_heap notify_channel_waiters with_heap]. by rewrite lookup_insert_ne.
      * left. split; [done|]. rewrite Hi, <- Hin1. exact (inbox_push k1 s st1 w a fifo Hst1 Hs1 Hfr1 Hw Hpush Hb Hrs k3 Hs3 eq_refl).
Qed.

(** ** What a publication adds to the stream *)

(** The fate of the published events, and the marks between them. *)
Inductive item : Type :=
| Accepted (w : list Z)
| Lost (w : list Z)
| Mark.

Definition event_of (i : item) : option (list Z) := match i with Accepted w | Lost w => Some w | Mark => None end.
(** What an item puts into the channel, where a mark is encoded as [mark]. *)
Definition payload_of (mark : list Z) (i : item) : option (list Z) :=
  match i with Accepted w => Some w | Lost _ => None | Mark => Some mark end.
Definition stream (mark : list Z) (hist : list item) : list (option (list Z)) := Some <$> omap (payload_of mark) hist.

(** Every lost event has a mark after it, or one is pending. *)
Definition covered (hist : list item) (pending : bool) : Prop :=
  ∀ h1 w h2, hist = h1 ++ Lost w :: h2 → Mark ∈ h2 ∨ pending = true.

(** Extending a covered history: a new loss is marked or pending, and a pending mark is
    only given up for a mark. *)
Lemma covered_app hist b l b' :
  covered hist b → covered l b' → (b = true → Mark ∈ l ∨ b' = true) → covered (hist ++ l) b'.
Proof.
  intros H1 H2 H3 h1 w h2 Heq. apply app_eq_inv in Heq as [(h & -> & Hl)|(h & -> & Hl)].
  - destruct h as [|i h]; simpl in Hl.
    + destruct (H2 [] w h2); auto.
    + injection Hl as <- ->. destruct (H1 h1 w h eq_refl) as [Hm|Hb]; [left; set_solver|].
      destruct (H3 Hb); [left; set_solver|auto].
  - destruct (H2 h w h2 Hl); auto.
Qed.

Lemma stream_app mark l l' : stream mark (l ++ l') = stream mark l ++ stream mark l'.
Proof. unfold stream. by rewrite omap_app, fmap_app. Qed.

Lemma covered_unit (i : item) (b : bool) : (∀ w, i = Lost w → b = true) → covered [i] b.
Proof.
  intros Hi h1 w h2 Heq. right. apply (Hi w). destruct h1 as [|x [|y h1]]; by simplify_eq/=.
Qed.

Lemma covered_marked w : covered [Lost w; Mark] false.
Proof. intros h1 w' h2 Heq. destruct h1 as [|x [|y [|z h1]]]; simplify_eq/=. left. by left. Qed.

Lemma refusal_not_ok status : status ∈ [PEER_CLOSED; WOULD_BLOCK; RESOURCE_EXHAUSTED] → status_ok status = false.
Proof. rewrite !elem_of_cons, elem_of_nil. by intros [->|[->|[->|[]]]]. Qed.

(** ** Events that fit *)

(** The receiver is open and its queue, the global budget and the heap have room for
    [w]. *)
Record room_for (s cap : Z) k (w : list Z) a : Prop := Build_room_for {
  rm_state : is_Some (k_states k !! s);
  rm_open : owners (state_at k s) 1 ≠ 0;
  rm_count : count_ (q_fifo (queue_of (state_at k s) 1)) < cap;
  rm_bytes : q_bytes (queue_of (state_at k s) 1) + Z.of_nat (length w) ≤ max_bytes (state_at k s);
  rm_global : (reserve_global (k_globals k) (Z.of_nat (length w)) 0).1 = true;
  rm_alloc : sa_message_ok a = true ∧ sa_bytes_ok a = true ∧ sa_data_ok a = true;
}.

Lemma locked_accepts st g h w a cap :
  let m := kernel_message (Some w) (Z.of_nat (length w)) true true in
  channel_wf st h → busy_channel cap st → wire_ok w → owners st 1 ≠ 0 → count_ (q_fifo (queue_of st 1)) < cap →
  q_bytes (queue_of st 1) + Z.of_nat (length w) ≤ max_bytes st → (reserve_global g (Z.of_nat (length w)) 0).1 = true →
  er_status (enqueue_kernel_locked st g 0 (sa_message a) m [] 0) = STATUS_OK.
Proof.
  intros m Hst (_ & Hmm & Hmb & Hmr & _) [Hw1 Hw2] Ho Hcount Hb Hg. unfold enqueue_kernel_locked. change (1 - 0) with 1.
  rewrite (proj2 (Z.eqb_neq _ _)) by done. cbn [negb Z.eqb andb orb].
  destruct (limits_small st h Hst) as (Hmb' & Hmr' & _). pose proof (cw_queues st h Hst 1 ltac:(lia)) as Hq.
  pose proof (qo_fifo _ _ _ _ _ Hq) as Hwq. pose proof (qo_capacity _ _ _ _ _ Hq) as Hcap.
  pose proof (qo_resources_max _ _ _ _ _ Hq) as Hrs. pose proof (queue_ok_nonneg _ _ _ _ _ Hq) as [Hqb _].
  assert (queue_full (q_fifo (queue_of st 1)) = false) as Hfull.
  { unfold queue_full. rewrite Hcap, Hmm. apply andb_false_iff. right. apply Z.eqb_neq. lia. }
  assert (cm_byte_count m = Z.of_nat (length w)) as Hm by apply kernel_message_size.
  rewrite Hfull, Hm, !u64_small by (simpl; lia). rewrite (proj2 (Z.ltb_ge _ _)), (proj2 (Z.ltb_ge _ _)) by (simpl; lia).
  cbn [orb]. change (Z.of_nat (length [])) with 0. destruct (reserve_global g _ 0) as [granted g1]. simpl in Hg. subst granted.
  cbn [negb append_loop]. destruct (not_full_push _ (sa_message a) Hwq Hfull) as [fifo ->]. done.
Qed.

Lemma send_wire_accepts p r s cap k w a :
  connected p r s cap k → wire_ok w → room_for s cap k w a → (send_wire k (Some p) w a).1 = STATUS_OK.
Proof.
  intros [Hwf Hp _ _ (st & Hs & Hch) Hcap] Hw [_ Ho Hcount Hb Hg (Ha1 & Ha2 & Ha3)].
  pose proof Hch as (Hv & Hmm & Hmb & Hmr & Hop). pose proof Hw as [Hw1 Hw2].
  rewrite (state_at_present k s st Hs) in Ho, Hcount, Hb.
  unfold send_wire, send_raw_channel_object. rewrite Hp, Ha1, Ha2, Ha3.
  set (k1 := update_state s begin_operation k). set (st1 := begin_operation st).
  assert (k_states k1 !! s = Some st1) as Hs1.
  { unfold k1, update_state. cbn [k_states with_states]. by rewrite lookup_alter_eq, Hs. }
  assert (ipc_wf k1) as Hwf1 by (apply update_state_wf; [done|apply inert_begin]).
  assert (busy_channel cap st1) as Hbusy by (unfold busy_channel; simpl; rewrite u64_small by lia; split_and!; done || lia).
  rewrite (proj2 (Z.ltb_ge _ _)) by (unfold CHANNEL_MAX_MESSAGE_BYTES; lia). rewrite andb_false_r. cbn [orb negb].
  assert (message_valid (make_message (Z.of_nat (length w)) 0 true true) = true) as Hvalid.
  { unfold message_valid, make_message. cbn [cm_bytes cm_byte_count cm_resource_capacity].
    by rewrite (proj2 (Z.eqb_neq _ 0)) by lia. }
  rewrite Hvalid. cbn [negb fst]. rewrite (state_at_present k1 s st1 Hs1). unfold enqueue_kernel.
  change (enqueue_rejects st1 0 _ _) with
    (enqueue_rejects st1 0 (Some (kernel_message (Some w) (Z.of_nat (length w)) true true)) 0).
  rewrite (event_rejects st1 w true true cap ltac:(lia) Hbusy Hw Hvalid).
  exact (locked_accepts st1 (k_globals k1) (k_heap k1) w a cap (iw_channels k1 Hwf1 s st1 Hs1) Hbusy Hw Ho Hcount Hb Hg).
Qed.

Section publishing.
Context (encode : key_event → option (list Z)) (last : Z → bool).
(** An encoded event takes at most the 64 bytes that the channel has for it. *)
Hypothesis encodes_small : ∀ e, ∃ w, encode e = Some w ∧ wire_ok w.
Context (p r : object) (s cap : Z).

(** The slot of a subscriber with this channel. *)
Definition subscription (pending : bool) : subscriber := Build_subscriber (Some p) (Some r) cap pending false.

(** The two messages of a publication have addresses of their own. *)
Definition allocs_ok k (a1 a2 : send_alloc) : Prop :=
  alloc_ok p r k a1 ∧ alloc_ok p r k a2 ∧ sa_message a1 ≠ sa_message a2.

(** The part of a publication that sends a pending mark. *)
Lemma pending_mark_spec k mark a1 a2 :
  connected p r s cap k → allocs_ok k a1 a2 → wire_ok mark →
  let '(status, k1) := send_wire k (Some p) mark a1 in
  connected p r s cap k1 ∧ alloc_ok p r k1 a2 ∧
  ∃ l, inbox k1 s 1 = inbox k s 1 ++ stream mark l ∧ covered l false ∧ omap event_of l = [] ∧
    (status = STATUS_OK ∧ l = [Mark] ∨ status ∈ [PEER_CLOSED; WOULD_BLOCK; RESOURCE_EXHAUSTED] ∧ l = []).
Proof.
  intros Hc (H1 & [[Hn Hf] Hp2 Hr2] & Hne) Hm. pose proof (send_wire_spec p r s cap k mark a1 Hc H1 Hm) as Hs.
  destruct (send_wire k (Some p) mark a1) as [status k1]. destruct Hs as (Hc1 & Hh & Hout).
  split_and!; [done|split; [split; [done|]|done..]; by apply Hh|].
  destruct Hout as [[-> Hi]|[Hst Hi]].
  - exists [Mark]. split_and!; [done| |done|by left]. by apply covered_unit.
  - exists []. split_and!; [by rewrite app_nil_r| |done|by right]. intros h1 w h2 Heq. by destruct h1.
Qed.

(** The event itself, or a mark in its place, with a mark pending or not. *)
Definition publish_event k (pending now : bool) (w mark : list Z) a : ipc * subscriber :=
  if cap <=? queued_messages (state_at k s) 1 then
    let '(status, k2) := send_wire k (Some p) mark a in
    (k2, settle_mark (subscription pending) (subscription pending) status)
  else
    let '(status, k2) := send_wire k (Some p) w a in
    let '(stale, sub') := settle_event (subscription pending) (subscription pending) now status in
    (if stale then release_handles last k2 (subscription pending) else k2, sub').

Lemma settle_same pending status now :
  settle_event (subscription pending) (subscription pending) now status =
  if bool_decide (status = WOULD_BLOCK) || bool_decide (status = RESOURCE_EXHAUSTED) then (false, subscription true)
  else if bool_decide (status = PEER_CLOSED) then (true, cleared (subscription pending))
  else if status_ok status then (false, subscription now) else (false, subscription pending).
Proof. unfold settle_event, same_handle. by rewrite bool_decide_eq_true_2. Qed.

Lemma publish_event_spec k pending now w mark a :
  connected p r s cap k → alloc_ok p r k a → wire_ok w → wire_ok mark →
  let '(k', sub') := publish_event k pending now w mark a in
  sub' = cleared (subscription pending) ∨
  ∃ l pending', sub' = subscription pending' ∧ connected p r s cap k' ∧ inbox k' s 1 = inbox k s 1 ++ stream mark l ∧
    omap event_of l = [w] ∧ covered l pending' ∧ (now = true → Mark ∈ l ∨ pending' = true).
Proof.
  intros Hc Ha Hw Hm. unfold publish_event. destruct (cap <=? _).
  - pose proof (send_wire_spec p r s cap k mark a Hc Ha Hm) as Hs. destruct (send_wire k (Some p) mark a) as [status k2].
    destruct Hs as (Hc2 & _ & Hout). right. unfold settle_mark, same_handle. rewrite bool_decide_eq_true_2 by done.
    destruct Hout as [[-> Hi]|[Hst Hi]].
    + exists [Lost w; Mark], false. split_and!; try done; [apply covered_marked|]. intros _. left. by right; left.
    + exists [Lost w], true. unfold set_pending. rewrite (refusal_not_ok status Hst). split_and!; try done; [by rewrite app_nil_r| |by right]. by apply covered_unit.
  - pose proof (send_wire_spec p r s cap k w a Hc Ha Hw) as Hs. destruct (send_wire k (Some p) w a) as [status k2].
    destruct Hs as (Hc2 & _ & Hout). rewrite settle_same. destruct Hout as [[-> Hi]|[Hst Hi]].
    + right. exists [Accepted w], now. simpl. split_and!; try done; [|by right]. by apply covered_unit.
    + assert (status = PEER_CLOSED ∨ (bool_decide (status = WOULD_BLOCK) || bool_decide (status = RESOURCE_EXHAUSTED)) = true) as Hcase.
      { apply elem_of_cons in Hst as [->|Hst]; [by left|right].
        apply elem_of_cons in Hst as [->|Hst]; [done|]. by apply list_elem_of_singleton in Hst as ->. }
      destruct Hcase as [->|Hcase]; [by left|]. rewrite Hcase. right.
      exists [Lost w], true. split_and!; try done; [by rewrite app_nil_r| |by right]. by apply covered_unit.
Qed.

(** One publication: the subscription ends because its receiver is closed, or the
    channel gets what the history of the publication says. *)
Lemma publish_spec k pending e a1 a2 :
  connected p r s cap k → allocs_ok k a1 a2 →
  ∃ w mark, encode e = Some w ∧ encode overrun_event = Some mark ∧
    let '(k', subs) := publish encode last k [subscription pending] e [(a1, a2)] in
    subs = [cleared (subscription pending)] ∨
    ∃ l pending', subs = [subscription pending'] ∧ connected p r s cap k' ∧ inbox k' s 1 = inbox k s 1 ++ stream mark l ∧
      omap event_of l = [w] ∧ covered l pending' ∧ (pending = true → Mark ∈ l ∨ pending' = true).
Proof using encodes_small.
  intros Hc Ha. destruct (encodes_small e) as (w & He & Hw). destruct (encodes_small overrun_event) as (mark & Ho & Hm).
  exists w, mark. split; [done|]. split; [done|]. unfold publish. rewrite He, Ho. cbn [publish_loop].
  unfold publish_to. cbn [producer receiver subscription overrun_pending capacity]. rewrite (cn_receiver _ _ _ _ _ Hc).
  destruct pending.
  - pose proof (pending_mark_spec k mark a1 a2 Hc Ha Hm) as Hs. destruct (send_wire k (Some p) mark a1) as [status k1].
    destruct Hs as (Hc1 & Ha2 & l0 & Hi0 & Hcov0 & He0 & Hout).
    destruct (bool_decide (status = PEER_CLOSED)) eqn:Hclosed.
    { destruct Hout as [[-> _]|[_ ->]]; [done|]. right. exists [Lost w], true. rewrite Hi0.
      split_and!; try done; [by apply covered_unit|by right]. }
    pose proof (publish_event_spec k1 true (negb (status_ok status)) w mark a2 Hc1 Ha2 Hw Hm) as Hevent.
    match goal with |- context [if cap <=? ?q then ?x else ?y] =>
      change (if cap <=? q then x else y) with (publish_event k1 true (negb (status_ok status)) w mark a2) end.
    destruct (publish_event _ _ _ _ _ _) as [k' sub']. destruct Hevent as [->|(l & b' & -> & Hc' & Hi & Hev & Hcov & Hnow)]; [by left|].
    right. exists (l0 ++ l), b'. rewrite Hi, Hi0, stream_app, app_assoc, omap_app, He0.
    split_and!; try done; [by eapply covered_app|]. intros _.
    destruct Hout as [[_ ->]|[Hst ->]]; [left; by left|]. apply Hnow. by rewrite (refusal_not_ok status Hst).
  - pose proof (publish_event_spec k false false w mark a2 Hc (proj1 (proj2 Ha)) Hw Hm) as Hevent.
    match goal with |- context [if cap <=? ?q then ?x else ?y] =>
      change (if cap <=? q then x else y) with (publish_event k false false w mark a2) end.
    destruct (publish_event _ _ _ _ _ _) as [k' sub']. destruct Hevent as [->|(l & b' & -> & Hrest)]; [by left|].
    right. by exists l, b'.
Qed.


(** ** All publications *)

(** The channels, the slot, the events published so far and what the receiver has
    taken.  Whatever else happens leaves the two ends connected and takes messages
    from the front of the inbox. *)
Inductive feed : ipc → subscriber → list (list Z) → list (option (list Z)) → Prop :=
| feed_start k : connected p r s cap k → inbox k s 1 = [] → feed k (subscription false) [] []
| feed_publish k sub events taken e w a1 a2 k' sub' :
    feed k sub events taken → encode e = Some w → allocs_ok k a1 a2 →
    publish encode last k [sub] e [(a1, a2)] = (k', [sub']) → producer sub' = Some p →
    feed k' sub' (events ++ [w]) taken
| feed_other k sub events taken k' l :
    feed k sub events taken → connected p r s cap k' → inbox k s 1 = l ++ inbox k' s 1 → feed k' sub events (taken ++ l).

(** C9: While its receiver is open a subscriber misses nothing silently: what it has
    taken from its channel and what is still queued are the published events in
    their order, and every event that was dropped in between is followed by an
    overrun mark, unless the mark is still to be sent. *)
Theorem input_loss_is_marked k sub events taken :
  feed k sub events taken →
  ∃ mark hist, encode overrun_event = Some mark ∧ omap event_of hist = events ∧
    taken ++ inbox k s 1 = stream mark hist ∧ covered hist (overrun_pending sub).
Proof using encodes_small.
  intros Hf. destruct (encodes_small overrun_event) as (mark & Hm & _). exists mark.
  cut (∃ hist pending, sub = subscription pending ∧ connected p r s cap k ∧ omap event_of hist = events ∧
    taken ++ inbox k s 1 = stream mark hist ∧ covered hist pending).
  { intros (hist & pending & -> & _ & H). by exists hist. }
  induction Hf as [k Hc Hi|k sub events taken e w a1 a2 k' sub' _ IH He Ha Hp Hs|k sub events taken k' l _ IH Hc Hi].
  - exists [], false. rewrite Hi. split_and!; try done. intros h1 w h2 Heq. by destruct h1.
  - destruct IH as (hist & pending & -> & Hc & Hev & Hst & Hcov).
    destruct (publish_spec k pending e a1 a2 Hc Ha) as (w' & mark' & He' & Hm' & Hpub). simplify_eq.
    rewrite Hp in Hpub. destruct Hpub as [[= ->]|(l & b' & [= ->] & Hc' & Hi' & Hl & Hcl & Hb)]; [done|].
    exists (hist ++ l), b'. rewrite Hi', app_assoc, Hst, stream_app, omap_app, Hl.
    split_and!; try done. by eapply covered_app.
  - destruct IH as (hist & pending & -> & _ & Hev & Hst & Hcov). exists hist, pending.
    rewrite <- app_assoc, <- Hi. by split_and!.
Qed.
End publishing.

(** ** Subscriptions *)

Lemma inert_owner_acquired side : inert (λ st, kernel_owner_acquired st side).
Proof. intros st. unfold kernel_owner_acquired. destruct (_ <=? _); [|done]. simpl. by rewrite length_zset. Qed.
Lemma inert_owner_released side : inert (λ st, kernel_owner_released st side).
Proof. intros st. unfold kernel_owner_released. destruct (_ <=? _); [|done]. simpl. by rewrite length_zset. Qed.

(** Room for a new channel stays when handles are dropped. *)
Lemma release_handles_fresh last k sub e :
  ipc_wf k → fresh_channel k e →
  ipc_wf (release_handles last k sub) ∧ fresh_channel (release_handles last k sub) e.
Proof.
  assert (∀ k s f, inert f → ipc_wf k ∧ fresh_channel k e → ipc_wf (update_state s f k) ∧ fresh_channel (update_state s f k) e) as Hupd.
  { intros k' s f Hf [Hwf [H1 H2 H3 H4]]. split; [by apply update_state_wf|]. split; try done.
    unfold update_state. cbn [k_states with_states]. by apply lookup_alter_None. }
  assert (∀ k o, ipc_wf k ∧ fresh_channel k e → ipc_wf (drop_handle last k o) ∧ fresh_channel (drop_handle last k o) e) as Hdrop.
  { intros k' [o|]; [|done]. simpl. destruct (last o); [|done]. intros [Hwf [H1 H2 H3 H4]].
    split; [by apply destroy_endpoint_wf|]. unfold destroy_endpoint. repeat case_match; [|done..].
    split; try done; [|by apply lookup_delete_None; right..]. unfold update_state. cbn [k_states with_states].
    by apply lookup_alter_None. }
  intros Hwf Hf. unfold release_handles. apply Hdrop. unfold release_kernel_producer.
  destruct (producer sub) as [o|]; [|done]. apply Hdrop. repeat case_match; [|done..]. apply Hupd; [apply inert_owner_released|done].
Qed.

Lemma create_event_channel k cap e :
  ipc_wf k → fresh_channel k e → 1 ≤ cap ≤ 64 →
  let '(_, ends, k') := create_raw_channel_kernel k (Some (event_channel_options cap)) e in
  match ends with
  | Some (p, r) => connected p r (ce_state e) cap k' ∧ inbox k' (ce_state e) 1 = []
  | None => True
  end.
Proof.
  intros Hwf Hf Hcap. unfold create_raw_channel_kernel. change (options_valid _) with true. cbn [negb].
  assert (fill_defaults (event_channel_options cap) =
    Build_options channel_options_sizeof 0 (cap + 1) ((cap + 1) * 64) CHANNEL_DEFAULT_MAX_RESOURCES 0) as ->.
  { unfold fill_defaults, event_channel_options. simpl. rewrite u64_small by lia.
    by rewrite !(proj2 (Z.eqb_neq _ 0)) by lia. }
  pose proof (create_wf k (Build_options channel_options_sizeof 0 (cap + 1) ((cap + 1) * 64) CHANNEL_DEFAULT_MAX_RESOURCES 0) e
    Hwf Hf ltac:(simpl; lia) ltac:(simpl; lia) ltac:(done)) as Hwf'. revert Hwf'.
  unfold create_raw_channel_with_options. destruct (_ || _); [done|]. destruct (negb (ce_state_ok e)); [done|].
  destruct (ce_queue0_ok e), (ce_queue1_ok e), (ce_registered e); try done. cbn [negb cs_valid make_channel andb].
  destruct (negb (ce_left_ok e) || negb (ce_right_ok e)) eqn:Hends; [done|].
  apply orb_false_iff in Hends as [Hl Hr]. apply negb_false_iff in Hl, Hr. rewrite Hl, Hr. cbn [snd]. set (st0 := make_channel _ _ _ _ _ _).
  set (k3 := make_endpoint _ (ce_right e) _ _). intros Hwf'.
  assert (k_states k3 !! ce_state e = Some (endpoint_object_created (endpoint_object_created st0))) as Hs.
  { unfold k3, make_endpoint, update_state. cbn [k_states with_states with_endpoints with_registry].
    by rewrite !lookup_alter_eq, lookup_insert_eq. }
  split.
  - split; [done| | | | |done].
    + unfold k3, make_endpoint, update_state. cbn [k_endpoints with_states with_endpoints].
      etrans; [apply lookup_insert_ne, not_eq_sym, Hf|apply lookup_insert_eq].
    + apply lookup_insert_eq.
    + apply elem_of_app. right. by left.
    + eexists. split; [exact Hs|]. done.
  - unfold inbox. by rewrite (state_at_present _ _ _ Hs).
Qed.

(** The second half of a subscription, on a reserved and empty slot. *)
Definition install (last : Z → bool) k (sub : subscriber) (max_events : Z) (e : create_env) : khandle * ipc * subscribers :=
  let '(status, ends, k2) := create_raw_channel_kernel k (Some (event_channel_options max_events)) e in
  match ends with
  | None => (None, k2, [set_reserved false sub])
  | Some (p, r) =>
    match k_endpoints k2 !! p with
    | None => (None, drop_handle last k2 (Some r), [set_reserved false sub])
    | Some (s, side) =>
      let k3 := update_state s (λ st, kernel_owner_acquired st side) k2 in
      let '(committed, subs2) := commit_slot [sub] 0 p r max_events in
      if committed : bool then (Some r, k3, subs2)
      else (None, drop_handle last (release_kernel_producer last k3 (Some p)) (Some r), subs2)
    end
  end.

Lemma install_connects last k sub max_events e h k' subs' :
  ipc_wf k → fresh_channel k e → 1 ≤ max_events ≤ 64 → reserved sub = true → producer sub = None →
  install last k sub max_events e = (h, k', subs') →
  match h with
  | Some r => 1 ≤ max_events ≤ 64 ∧ ∃ p, subs' = [subscription p r max_events false] ∧
      connected p r (ce_state e) max_events k' ∧ inbox k' (ce_state e) 1 = []
  | None => True
  end.
Proof.
  intros Hwf Hf Hmax Hres Hprod. unfold install. pose proof (create_event_channel k max_events e Hwf Hf Hmax) as Hc.
  destruct (create_raw_channel_kernel _ _ _) as [[status [[p r]|]] k2]; [|by intros [= <- <- <-]]. destruct Hc as [Hc Hi].
  rewrite (cn_producer _ _ _ _ _ Hc : @lookup Z _ _ _ p (k_endpoints k2) = Some (ce_state e, 0)). unfold commit_slot. simpl. rewrite Hres, Hprod. intros [= <- <- <-].
  split; [done|]. exists p. split; [done|]. rewrite <- Hi.
  apply connected_update; [apply inert_owner_acquired|done|done].
Qed.

(** C21: A subscription is exclusive and complete.  It succeeds only when the slot is
    free or its receiver has no owner any more; then the slot holds the two ends of a
    new, empty channel for that many events.  Otherwise the caller gets nothing, and
    a slot with an open receiver is as before. *)
Theorem subscribe_connects last k sub max_events e h k' subs' :
  ipc_wf k → fresh_channel k e → reserved sub = false → 0 ≤ max_events →
  subscribe last k [sub] max_events e = (h, k', subs') →
  match h with
  | Some r => (producer sub = None ∨ receiver_closed k sub = true) ∧ 1 ≤ max_events ≤ 64 ∧
      ∃ p, subs' = [subscription p r max_events false] ∧ connected p r (ce_state e) max_events k' ∧ inbox k' (ce_state e) 1 = []
  | None => producer sub ≠ None → receiver_closed k sub = false → subs' = [sub] ∧ k' = k
  end.
Proof.
  intros Hwf Hf Hres Hpos. unfold subscribe. destruct (_ || _) eqn:Hlim; [by intros [= <- <- <-]|].
  apply orb_false_iff in Hlim as [H0 H64]. apply Z.eqb_neq in H0. apply Z.ltb_ge in H64.
  assert (1 ≤ max_events ≤ 64) as Hmax by lia. unfold reserve_slot. cbn [find_slot]. rewrite Hres.
  destruct (producer sub) as [o|] eqn:Hprod; [destruct (receiver_closed k sub) eqn:Hclosed; [|by intros [= <- <- <-]]|].
  - intros Hsub. destruct (release_handles_fresh last k sub e Hwf Hf) as [Hwf1 Hf1].
    apply (install_connects last _ (set_reserved true (cleared sub)) _ _ _ _ _ Hwf1 Hf1 Hmax eq_refl eq_refl) in Hsub. destruct h; [|done]. by auto.
  - intros Hsub. assert (producer (set_reserved true sub) = None) as Hp1 by done.
    apply (install_connects last _ (set_reserved true sub) _ _ _ _ _ Hwf Hf Hmax eq_refl Hp1) in Hsub. destruct h; [|done]. by auto.
Qed.

(** ** Samples *)

(** An encoding of three bytes, a subscription for one event on a new system, and the
    receiver in the table of a process. *)
Definition sample_encode (e : key_event) : option (list Z) := Some [u8 (key_code e); u8 (modifiers e); u8 (kind e)].
Definition keep_all (o : Z) : bool := false.
Definition sample_env : create_env := Build_create_env 10 100 200 true true true true true true.
Definition subscribed : khandle * ipc * subscribers := subscribe keep_all initial_ipc make_source 1 sample_env.
Definition sample_gc : gc_env := Build_gc_env true (λ _, true) keep_all.
Definition sample_alloc (x : Z) : send_alloc := Build_send_alloc x true true true sample_gc.
Definition input_k0 : ipc := run_hook subscribed.1.2 (Acquire 200 table_root).
Definition key_a : key_event := Build_key_event 65 0 0.
Definition key_b : key_event := Build_key_event 66 0 0.
Definition input_k1 : ipc := (publish sample_encode keep_all input_k0 subscribed.2 key_a [(sample_alloc 500, sample_alloc 501)]).1.
Definition input_k2 : ipc := (publish sample_encode keep_all input_k1 subscribed.2 key_b [(sample_alloc 502, sample_alloc 503)]).1.

(** An event that is published before the receiver of a new subscription has an
    owner finds the channel closed and ends the subscription. *)
Theorem early_event_ends_subscription :
  subscribed.1.1 = Some 200 ∧ producer <$> subscribed.2 = [Some 100] ∧
  (publish sample_encode keep_all subscribed.1.2 subscribed.2 key_a [(sample_alloc 500, sample_alloc 501)]).2 = [no_subscriber].
Proof. vm_compute. done. Qed.

Lemma sample_encodes e : ∃ w, sample_encode e = Some w ∧ wire_ok w.
Proof. eexists. by split. Qed.

Lemma sample_fresh : fresh_channel initial_ipc sample_env.
Proof. by split. Qed.

Lemma input_k0_connected : connected 100 200 10 1 input_k0 ∧ inbox input_k0 10 1 = [].
Proof.
  destruct (install_connects keep_all initial_ipc (set_reserved true no_subscriber) 1 sample_env _ _ _ initial_ipc_wf
    sample_fresh ltac:(lia) eq_refl eq_refl eq_refl) as (_ & p & Hp & Hc & Hi).
  injection Hp as <-. rewrite <- Hi. unfold input_k0.
  apply (connected_update 100 200 10 1 subscribed.1.2 10 (λ st, endpoint_hook 1 st (Acquire 200 table_root)));
    [apply inert_hook|apply hook_operations|exact Hc].
Qed.

Lemma sample_alloc_ok k x : x ≠ null → k_heap k !! x = None → alloc_ok 100 200 k (sample_alloc x).
Proof. intros Hx Hk. by split. Qed.

Lemma subscribe_connects_witness :
  (producer no_subscriber = None ∨ receiver_closed initial_ipc no_subscriber = true) ∧ 1 ≤ 1 ≤ 64 ∧
  ∃ p, subscribed.2 = [subscription p 200 1 false] ∧ connected p 200 10 1 subscribed.1.2 ∧ inbox subscribed.1.2 10 1 = [].
Proof.
  apply (subscribe_connects keep_all initial_ipc no_subscriber 1 sample_env (Some 200) subscribed.1.2 subscribed.2
           initial_ipc_wf sample_fresh eq_refl); [lia|]. vm_compute. reflexivity.
Defined.


(** Two events for a channel that holds one: the second is lost, and its mark waits
    behind the first. *)
Lemma input_loss_is_marked_witness :
  ∃ mark hist, sample_encode overrun_event = Some mark ∧ omap event_of hist = [[65; 0; 0]; [66; 0; 0]] ∧
    [] ++ inbox input_k2 10 1 = stream mark hist ∧ covered hist false.
Proof.
  apply (input_loss_is_marked sample_encode keep_all sample_encodes 100 200 10 1 input_k2 (subscription 100 200 1 false)).
  eapply (feed_publish _ _ _ _ _ _ input_k1 _ [[65; 0; 0]] _ key_b _ (sample_alloc 502) (sample_alloc 503)).
  - eapply (feed_publish _ _ _ _ _ _ input_k0 _ [] _ key_a _ (sample_alloc 500) (sample_alloc 501)).
    + apply feed_start; apply input_k0_connected.
    + reflexivity.
    + split_and!; [by apply sample_alloc_ok|by apply sample_alloc_ok|done].
    + vm_compute. reflexivity.
    + reflexivity.
  - reflexivity.
  - split_and!; [by apply sample_alloc_ok|by apply sample_alloc_ok|done].
  - vm_compute. reflexivity.
  - reflexivity.
Defined.
