(* ===== verification/Console.v ===== *)
(** The kernel console of includes/kernel/terminal.hpp and src/kernel/terminal.cc:
    the escape-sequence parser, the [terminal] template at [minimal_terminal], the
    terminal the kernel log is written to, and the cell drawing of
    src/kernel/framebuffer.cc.

    The cells of the console are two fixed arrays that the code indexes without
    checks; an access outside them is [None] here.  Characters are bytes from 0 to
    255.  UTF-8 decoding belongs to freelibcxx and is a parameter, like the font and
    the clock.  [stand_terminal], which no code selects, is not part of the model. *)
From stdpp Require Import base list numbers.
From S2P Require Import Prelude.

Local Open Scope Z_scope.
Set Default Proof Using "Type".

(** ** Escape sequences *)

Definition BOLD : Z := 1.
Definition ITALIC : Z := 2.
Definition UNDERLINE : Z := 4.
Definition BLINK : Z := 8.
Definition REVERSE : Z := 16.
Definition FRAME : Z := 32.

Definition FG16 : Z := 1.
Definition BG16 : Z := 2.
Definition FG_DEFAULT : Z := 64.
Definition BG_DEFAULT : Z := 128.

Inductive ascii_state : Type := none | esc | csi_number | csi_split | end_.

#[global] Instance ascii_state_eq_dec : EqDecision ascii_state.
Proof. solve_decision. Defined.

(** The 256-colour and 24-bit fields of [char_attribute] are never set. *)
Record char_attribute : Type := Build_char_attribute {
  bg16 : Z;
  fg16 : Z;
  additional_flags : Z;
  removal_flags : Z;
  attr_flags : Z;
}.

Record escape_string_state : Type := Build_escape_string_state {
  state : ascii_state;
  attr : char_attribute;
  num : Z;
  command : Z;
  command_num : Z;
  private_mode : bool;
}.

Definition no_attribute : char_attribute := Build_char_attribute 0 0 0 0 0.
(** [escape_string_state::reset], which also is the initial value. *)
Definition reset_escape : escape_string_state := Build_escape_string_state none no_attribute 0 0 0 false.

Definition set_state (s : ascii_state) (e : escape_string_state) : escape_string_state :=
  Build_escape_string_state s (attr e) (num e) (command e) (command_num e) (private_mode e).
Definition set_num (n : Z) (e : escape_string_state) : escape_string_state :=
  Build_escape_string_state (state e) (attr e) n (command e) (command_num e) (private_mode e).
Definition set_attr (a : char_attribute) (e : escape_string_state) : escape_string_state :=
  Build_escape_string_state (state e) a (num e) (command e) (command_num e) (private_mode e).
Definition set_private (e : escape_string_state) : escape_string_state :=
  Build_escape_string_state (state e) (attr e) (num e) (command e) (command_num e) true.
Definition set_command (c n : Z) (e : escape_string_state) : escape_string_state :=
  Build_escape_string_state (state e) (attr e) (num e) c n (private_mode e).

Definition add_flag (f : Z) (a : char_attribute) : char_attribute :=
  Build_char_attribute (bg16 a) (fg16 a) (Z.lor (additional_flags a) f) (removal_flags a) (attr_flags a).
Definition remove_flag (f : Z) (a : char_attribute) : char_attribute :=
  Build_char_attribute (bg16 a) (fg16 a) (additional_flags a) (Z.lor (removal_flags a) f) (attr_flags a).
Definition set_attr_flags (f : Z) (a : char_attribute) : char_attribute :=
  Build_char_attribute (bg16 a) (fg16 a) (additional_flags a) (removal_flags a) f.
Definition set_fg16 (c : Z) (a : char_attribute) : char_attribute :=
  Build_char_attribute (bg16 a) c (additional_flags a) (removal_flags a)
    (Z.ldiff (Z.lor (attr_flags a) FG16) FG_DEFAULT).
Definition set_bg16 (c : Z) (a : char_attribute) : char_attribute :=
  Build_char_attribute c (fg16 a) (additional_flags a) (removal_flags a)
    (Z.ldiff (Z.lor (attr_flags a) BG16) BG_DEFAULT).

Definition between (lo v hi : Z) : bool := (lo <=? v) && (v <=? hi).

(** The attribute one SGR parameter gives; [None] for an unknown one. *)
Definition sgr_attribute (val : Z) (a : char_attribute) : option char_attribute :=
  if val =? 0 then Some (Build_char_attribute (bg16 a) (fg16 a) 0 (2 ^ 32 - 1) (Z.lor BG_DEFAULT FG_DEFAULT))
  else if val =? 1 then Some (add_flag BOLD a)
  else if val =? 3 then Some (add_flag ITALIC a)
  else if val =? 4 then Some (add_flag UNDERLINE a)
  else if val =? 5 then Some (add_flag BLINK a)
  else if val =? 7 then Some (add_flag REVERSE a)
  else if between 30 val 37 then Some (set_fg16 (val - 30) a)
  else if between 40 val 47 then Some (set_bg16 (val - 40) a)
  else if between 90 val 97 then Some (set_fg16 (val - 90 + 8) a)
  else if between 100 val 107 then Some (set_bg16 (val - 100 + 8) a)
  else if val =? 38 then Some a
  else if val =? 39 then Some (set_attr_flags (Z.lor (attr_flags a) FG_DEFAULT) a)
  else if val =? 48 then Some a
  else if val =? 49 then Some (set_attr_flags (Z.lor (attr_flags a) BG_DEFAULT) a)
  else if val =? 21 then Some (remove_flag BOLD a)
  else if val =? 22 then Some (remove_flag BOLD a)
  else if val =? 23 then Some (remove_flag ITALIC a)
  else if val =? 24 then Some (remove_flag UNDERLINE a)
  else if val =? 25 then Some (remove_flag BLINK a)
  else if val =? 27 then Some (remove_flag REVERSE a)
  else if val =? 51 then Some (add_flag FRAME a)
  else if val =? 54 then Some (remove_flag FRAME a)
  else None.

Definition parse_csi (e : escape_string_state) : bool * escape_string_state :=
  match sgr_attribute (i32 (num e)) (attr e) with
  | Some a => (true, set_num 0 (set_attr a e))
  | None => (false, set_num 0 e)
  end.

Definition chr_esc : Z := 27.
Definition chr_lf : Z := 10.
Definition chr_cr : Z := 13.
Definition chr_bs : Z := 8.
Definition chr_bel : Z := 7.

(** The final bytes A B C D F G H J K f h l n r s u. *)
Definition command_bytes : list Z := [65; 66; 67; 68; 70; 71; 72; 74; 75; 102; 104; 108; 110; 114; 115; 117].
Definition is_separator (ch : Z) : bool := (ch =? 59) || (ch =? 58).

(** What one byte does to the parser: read on, a whole sequence, or an end
    without one. *)
Inductive parsed : Type :=
| more (e : escape_string_state)
| complete (e : escape_string_state)
| stopped (e : escape_string_state).

(** The byte after a parameter. *)
Definition parse_split (ch : Z) (e : escape_string_state) : parsed :=
  if is_separator ch then more (set_state csi_number (parse_csi e).2)
  else if ch =? 109 then
    let '(ok, e') := parse_csi e in
    if negb ok then stopped reset_escape else complete (set_state end_ e')
  else if bool_decide (ch ∈ command_bytes) then
    complete (set_state end_ (set_num 0 (set_command ch (num e) e)))
  else stopped reset_escape.

Definition parse_byte (ch : Z) (e : escape_string_state) : parsed :=
  match state e with
  | none => if negb (ch =? chr_esc) then stopped reset_escape else more (set_state esc e)
  | esc => if ch =? 91 then more (set_state csi_number e) else stopped reset_escape
  | csi_number =>
    if between 0x40 ch 0x7E || is_separator ch then parse_split ch (set_state csi_split e)
    else if between 48 ch 57 then more (set_num (u32 (num e * 10 + ch - 48)) e)
    else if (ch =? 63) && (num e =? 0) then more (set_private e)
    else stopped reset_escape
  | csi_split => parse_split ch e
  | end_ => stopped e
  end.

Fixpoint parse_loop (e : escape_string_state) (sv : list Z) : option (list Z) * escape_string_state :=
  match sv with
  | [] => (None, e)
  | ch :: sv' =>
    match parse_byte ch e with
    | more e' => parse_loop e' sv'
    | complete e' => (Some sv', e')
    | stopped e' => (None, e')
    end
  end.

Definition stream_parse_escape_state (e : escape_string_state) (str : list Z)
    : option (list Z) * escape_string_state :=
  let e' := match str with
            | ch :: _ => if decide (state e = end_) then if ch =? chr_esc then set_state none e else e else e
            | [] => e
            end in
  parse_loop e' str.

(** ** The terminal *)

Record minimal_term_char_t : Type := Build_minimal_term_char_t {
  ch_ : Z;
  color : Z;
  ch_flags : Z;
}.

Record rectangle : Type := Build_rectangle {
  left_ : Z;
  right_ : Z;
  top_ : Z;
  bottom_ : Z;
}.

Definition rect_empty (r : rectangle) : bool := (right_ r =? left_ r) || (top_ r =? bottom_ r).
Definition no_rect : rectangle := Build_rectangle 0 0 0 0.
(** [operator+=]. *)
Definition rect_add (r rect : rectangle) : rectangle :=
  if negb (rect_empty r)
  then Build_rectangle (Z.min (left_ rect) (left_ r)) (Z.max (right_ rect) (right_ r))
         (Z.min (top_ rect) (top_ r)) (Z.max (bottom_ rect) (bottom_ r))
  else rect.

(** The position fields of [terminal]. *)
Record cursor : Type := Build_cursor {
  row_offset_ : Z;
  row_ : Z;
  col_ : Z;
  rows_ : Z;
  cols_ : Z;
  lock_row_ : Z;
  lock_col_ : Z;
}.

(** Its placeholder fields, the blinking cursor. *)
Record placeholder : Type := Build_placeholder {
  placeholder_time_ : Z;
  enable_placeholder_ : bool;
  placeholder_show_ : bool;
  placeholder_reset_ : bool;
  placeholder_row_ : Z;
  placeholder_col_ : Z;
  placeholder_valid_ : bool;
}.

Definition max_element_for_line : Z := 240.
Definition max_lines : Z := 68.

(** The members of [minimal_terminal]. *)
Record minimal_cells : Type := Build_minimal_cells {
  term_chars_ : list minimal_term_char_t;
  term_char_cols_ : list Z;
  stack_pos_ : Z;
  stack_ : list Z;
}.

(** [backend_] is the address of the backend, 0 for none. *)
Record terminal : Type := Build_terminal {
  position : cursor;
  dirty_ : rectangle;
  escape_state_ : escape_string_state;
  backend_ : Z;
  last_char_ : minimal_term_char_t;
  blinking : placeholder;
  drop_ : bool;
  cells : minimal_cells;
}.

Implicit Types (t : terminal) (m : minimal_cells) (p row col : Z) (str : list Z).

Definition row t : Z := row_ (position t).
Definition col t : Z := col_ (position t).
Definition rows t : Z := rows_ (position t).
Definition cols t : Z := cols_ (position t).
Definition row_offset t : Z := row_offset_ (position t).

Definition set_position t (c : cursor) : terminal :=
  Build_terminal c (dirty_ t) (escape_state_ t) (backend_ t) (last_char_ t) (blinking t) (drop_ t) (cells t).
Definition set_dirty t (r : rectangle) : terminal :=
  Build_terminal (position t) r (escape_state_ t) (backend_ t) (last_char_ t) (blinking t) (drop_ t) (cells t).
Definition set_escape t (e : escape_string_state) : terminal :=
  Build_terminal (position t) (dirty_ t) e (backend_ t) (last_char_ t) (blinking t) (drop_ t) (cells t).
Definition set_backend t (b : Z) : terminal :=
  Build_terminal (position t) (dirty_ t) (escape_state_ t) b (last_char_ t) (blinking t) (drop_ t) (cells t).
Definition set_last t (c : minimal_term_char_t) (d : bool) : terminal :=
  Build_terminal (position t) (dirty_ t) (escape_state_ t) (backend_ t) c (blinking t) d (cells t).
Definition set_blinking t (b : placeholder) : terminal :=
  Build_terminal (position t) (dirty_ t) (escape_state_ t) (backend_ t) (last_char_ t) b (drop_ t) (cells t).
Definition set_cells t m : terminal :=
  Build_terminal (position t) (dirty_ t) (escape_state_ t) (backend_ t) (last_char_ t) (blinking t) (drop_ t) m.

Definition move_to t row col : terminal :=
  let c := position t in
  set_position t (Build_cursor (row_offset_ c) row col (rows_ c) (cols_ c) (lock_row_ c) (lock_col_ c)).
Definition mark_dirty t (r : rectangle) : terminal := set_dirty t (rect_add (dirty_ t) r).
Definition mark_cell t row col : terminal := mark_dirty t (Build_rectangle col (col + 1) row (row + 1)).
Definition viewport t : rectangle := Build_rectangle 0 (cols t) (row_offset t) (row_offset t + rows t).
Definition set_placeholder_valid t (v : bool) : terminal :=
  let b := blinking t in
  set_blinking t (Build_placeholder (placeholder_time_ b) (enable_placeholder_ b) (placeholder_show_ b)
                    (placeholder_reset_ b) (placeholder_row_ b) (placeholder_col_ b) v).
Definition set_placeholder_reset t : terminal :=
  let b := blinking t in
  set_blinking t (Build_placeholder (placeholder_time_ b) (enable_placeholder_ b) (placeholder_show_ b)
                    true (placeholder_row_ b) (placeholder_col_ b) (placeholder_valid_ b)).

(** A new terminal, the memory of which is zero but for the colours. *)
Definition make_minimal_terminal : terminal :=
  Build_terminal (Build_cursor 0 0 0 0 0 0 0) no_rect reset_escape 0 (Build_minimal_term_char_t 0 7 0)
    (Build_placeholder 0 false false false (-1) (-1) false) false
    (Build_minimal_cells (replicate (Z.to_nat (max_lines * max_element_for_line)) (Build_minimal_term_char_t 0 7 0))
       (replicate (Z.to_nat max_lines) 0) 0 (replicate 64 0)).

(** The numbers of rows and columns come from the backend. *)
Definition attach_backend t (backend backend_rows backend_cols : Z) : terminal :=
  let c := position t in
  let t1 := set_backend (set_position t (Build_cursor (row_offset_ c) (row_ c) (col_ c) (i32 backend_rows)
                                           (i32 backend_cols) (lock_row_ c) (lock_col_ c))) backend in
  set_placeholder_valid (set_dirty t1 (viewport t1)) false.
Definition reattach_backend t (backend_rows backend_cols : Z) : terminal :=
  if backend_ t =? 0 then t else attach_backend t (backend_ t) backend_rows backend_cols.
Definition detach_backend t : terminal := set_backend t 0.
Definition commit_changes t : terminal :=
  let c := position t in
  set_position t (Build_cursor (row_offset_ c) (row_ c) (col_ c) (rows_ c) (cols_ c) (row_ c) (col_ c)).

(** *** The cells *)

(** An element of an array; [None] outside of it. *)
Definition array_at {A} (l : list A) (i : Z) : option A := if i <? 0 then None else l !! Z.to_nat i.
Definition array_set {A} (l : list A) (i : Z) (x : A) : option (list A) :=
  if (i <? 0) || (Z.of_nat (length l) <=? i) then None else Some (<[Z.to_nat i := x]> l).

(** Pointers to cells are indices of [term_chars_]. *)
Definition load_char m p : option minimal_term_char_t := array_at (term_chars_ m) p.
Definition store_char m p (c : minimal_term_char_t) : option minimal_cells :=
  l ← array_set (term_chars_ m) p c; Some (Build_minimal_cells l (term_char_cols_ m) (stack_pos_ m) (stack_ m)).

Definition alloc_char row col : Z := row * max_element_for_line + col.

(** The outer [None] is an access outside the array, the inner one a null pointer. *)
Definition get_char m row col : option (option Z) :=
  if max_lines <=? row then Some None
  else
    n ← array_at (term_char_cols_ m) row;
    Some (if n <=? col then None else Some (row * max_element_for_line + col)).

Definition free_char m p : option minimal_cells :=
  c ← load_char m p; store_char m p (Build_minimal_term_char_t 0 (color c) (ch_flags c)).

Definition update_row_cols m row col : option minimal_cells :=
  l ← array_set (term_char_cols_ m) row (u16 col);
  Some (Build_minimal_cells (term_chars_ m) l (stack_pos_ m) (stack_ m)).

(** A [memmove] of all elements [n] places down; the last [n] stay. *)
Definition shift_down {A} (n : nat) (l : list A) : list A := drop n l ++ drop (length l - n) l.

Definition pop_history m (n : Z) : Z * minimal_cells :=
  if n <? max_lines
  then (n, Build_minimal_cells (shift_down (Z.to_nat (n * max_element_for_line)) (term_chars_ m))
             (shift_down (Z.to_nat n) (term_char_cols_ m)) (stack_pos_ m) (stack_ m))
  else (0, m).

Definition set_stack m (pos : Z) (s : list Z) : minimal_cells :=
  Build_minimal_cells (term_chars_ m) (term_char_cols_ m) pos s.

(** [memcpy] of [sv] to position [pos] of an array. *)
Definition array_copy (l : list Z) (pos : Z) (sv : list Z) : option (list Z) :=
  if (pos <? 0) || (Z.of_nat (length l) <? pos + Z.of_nat (length sv)) then None
  else Some (take (Z.to_nat pos) l ++ sv ++ drop (Z.to_nat pos + length sv) l).

Definition push_escape_string m (sv : list Z) : option (bool * minimal_cells) :=
  let sv_size := i32 (Z.of_nat (length sv)) in
  let size := Z.min sv_size (64 - stack_pos_ m - 1) in
  if negb (size =? sv_size) then Some (false, m)
  else
    s ← array_copy (stack_ m) (stack_pos_ m) (take (Z.to_nat size) sv);
    Some (true, set_stack m (stack_pos_ m + size) s).

Definition escape_string m : list Z := take (Z.to_nat (stack_pos_ m)) (stack_ m).
Definition pop_escape_string m : minimal_cells := set_stack m 0 (stack_ m).

(** The colours and flags of a new character, from the character before it. *)
Definition make_state (prev : option minimal_term_char_t) (c : minimal_term_char_t) (codepoint : Z)
    (a : char_attribute) : minimal_term_char_t * char_attribute :=
  let codepoint := if 255 <? codepoint then 255 else codepoint in
  let new_flags := match prev with
                   | Some q => u8 (Z.lor (Z.ldiff (ch_flags q) (removal_flags a)) (additional_flags a))
                   | None => ch_flags c
                   end in
  let new_color := match prev with Some q => color q | None => 0 end in
  let defaults := Z.lor FG_DEFAULT BG_DEFAULT in
  let a1 := match prev with
            | Some _ => a
            | None => if Z.ldiff (attr_flags a) defaults =? 0 then set_attr_flags (Z.lor (attr_flags a) defaults) a else a
            end in
  let a2 := if has_flag (attr_flags a1) FG_DEFAULT
            then Build_char_attribute (bg16 a1) 7 (additional_flags a1) (removal_flags a1) (Z.lor (attr_flags a1) FG16)
            else a1 in
  let color1 := if has_flag (attr_flags a2) FG16 then u8 (Z.lor (Z.land new_color 0xF0) (fg16 a2)) else new_color in
  let a3 := if has_flag (attr_flags a2) BG_DEFAULT
            then Build_char_attribute 0 (fg16 a2) (additional_flags a2) (removal_flags a2) (Z.lor (attr_flags a2) BG16)
            else a2 in
  let color2 := if has_flag (attr_flags a3) BG16
                then u8 (Z.lor (Z.land color1 0x0F) (Z.shiftl (bg16 a3) 4)) else color1 in
  (Build_minimal_term_char_t (u8 codepoint) color2 new_flags, a3).

(** The loop over the rows upwards, which ends after as many rows as there are
    above; the pointer is null when no row has a character. *)
Fixpoint previous_loop (fuel : nat) m row col : option (option Z * Z * Z) :=
  if row <? 0 then Some (None, row, col)
  else match fuel with
  | O => None
  | S fuel' =>
    n ← array_at (term_char_cols_ m) row;
    if n =? 0 then previous_loop fuel' m (row - 1) max_element_for_line
    else
      let col := if n <? col then n else col in
      q ← get_char m row (col - 1);
      Some (q, row, col - 1)
  end.

Definition previous_term_char m row col : option (option Z * Z * Z) :=
  let '(row, col) := if col =? 0 then (row - 1, max_element_for_line) else (row, col) in
  previous_loop (Z.to_nat (row + 1)) m row col.

(** Loading through a pointer that may be null. *)
Definition load_previous m (q : option Z) : option (option minimal_term_char_t) :=
  match q with Some p => c ← load_char m p; Some (Some c) | None => Some None end.

Definition push_char t (codepoint : Z) : option terminal :=
  let p := alloc_char (row t) (col t) in
  prev ← (if drop_ t then Some (Some (last_char_ t))
          else
            '(q, _, _) ← previous_term_char (cells t) (row t) (col t);
            load_previous (cells t) q);
  c ← load_char (cells t) p;
  let '(c', a) := make_state prev c codepoint (attr (escape_state_ t)) in
  m ← store_char (cells t) p c';
  Some (set_escape (set_cells (set_last t (last_char_ t) false) m) (set_attr a (escape_state_ t))).

(** *** Commands *)

Fixpoint ofold {A S} (f : S → A → option S) (l : list A) (s : S) : option S :=
  match l with
  | [] => Some s
  | x :: l' => s' ← f s x; ofold f l' s'
  end.

Definition clear_cell m row col : option minimal_cells :=
  q ← get_char m row col;
  match q with Some p => free_char m p | None => Some m end.

Definition clear_cells t (first_row first_col last_row last_col : Z) : option terminal :=
  let first_row := Z.max first_row 0 in
  let last_row := Z.min last_row max_lines in
  let first_col := Z.max first_col 0 in
  let last_col := Z.min last_col (cols t) in
  m ← ofold (λ m row,
        let col_begin := if row =? first_row then first_col else 0 in
        ofold (λ m col, clear_cell m row col) (seqZ col_begin (last_col - col_begin)) m)
      (seqZ first_row (last_row - first_row)) (cells t);
  Some (set_cells t m).

(** [apply_escape_command]; the commands m h l n r s u do nothing. *)
Definition apply_escape_command t : option terminal :=
  let e := escape_state_ t in
  let count := if command_num e =? 0 then 1 else i32 (command_num e) in
  let c := command e in
  if c =? 65 then Some (move_to t (Z.max (i32 (row t - count)) 0) (col t))
  else if c =? 66 then Some (move_to t (Z.min (i32 (row t + count)) (max_lines - 1)) (col t))
  else if c =? 67 then Some (move_to t (row t) (Z.min (i32 (col t + count)) (cols t)))
  else if c =? 68 then Some (move_to t (row t) (Z.max (i32 (col t - count)) 0))
  else if c =? 71 then Some (move_to t (row t) (Z.min (Z.max (i32 (count - 1)) 0) (cols t)))
  else if (c =? 72) || (c =? 102) then Some (move_to t (row_offset t) 0)
  else if c =? 70 then Some (move_to t (Z.max (i32 (row t - count)) 0) 0)
  else if c =? 74 then
    t' ← (if command_num e =? 2 then clear_cells t (row_offset t) 0 max_lines (cols t)
          else if command_num e =? 1 then clear_cells t (row_offset t) 0 (row t) (col t + 1)
          else clear_cells t (row t) (col t) max_lines (cols t));
    Some (set_dirty t' (viewport t'))
  else if c =? 75 then
    t' ← (if command_num e =? 1 then clear_cells t (row t) 0 (row t + 1) (col t + 1)
          else if command_num e =? 2 then clear_cells t (row t) 0 (row t + 1) (cols t)
          else clear_cells t (row t) (col t) (row t + 1) (cols t));
    Some (mark_dirty t' (Build_rectangle 0 (cols t') (row t') (row t' + 1)))
  else Some t.

Definition move_cursor_back_inner t : terminal :=
  let t1 := if 0 <? col t then move_to t (row t) (col t - 1)
            else if row_offset t <? row t then move_to t (row t - 1) (Z.max (cols t - 1) 0)
            else t in
  mark_cell (mark_cell t1 (row t) (col t)) (row t1) (col t1).

(** Removing the character before the cursor. *)
Definition pop_char_inner t (allow_committed : bool) : option (bool * terminal) :=
  '(q, r, c) ← previous_term_char (cells t) (row t) (col t);
  match q with
  | None => Some (false, t)
  | Some p =>
    let lr := lock_row_ (position t) in
    if negb allow_committed && (((r =? lr) && (c <? lock_col_ (position t))) || (r <? lr)) then Some (false, t)
    else
      ch ← load_char (cells t) p;
      m ← free_char (cells t) p;
      let t1 := mark_cell (mark_cell (set_cells t m) r c) (row t) (col t) in
      Some (true, move_to (set_last t1 ch true) r c)
  end.
Definition pop_char t : option (bool * terminal) := pop_char_inner t false.

Definition viewport_is_full t : bool := row_offset t + rows t <=? row t + 1.

Definition push_new_line t : terminal :=
  if viewport_is_full t then
    let t1 := set_dirty t (viewport t) in
    let '(n, m) := pop_history (cells t) 1 in
    let c := position t in
    set_cells (set_position t1 (Build_cursor (if n =? 0 then row_offset_ c + 1 else row_offset_ c) (row_ c) 0
                                  (rows_ c) (cols_ c) (lock_row_ c - 1) (lock_col_ c))) m
  else move_to t (row t + 1) 0.

(** Whether the current character is skipped, and the rest of the string. *)
Definition goto_next_row t (ch : Z) str : option (bool * terminal * list Z) :=
  let t1 := mark_cell t (row t) (col t) in
  m ← update_row_cols (cells t1) (row t1) (col t1);
  let t2 := push_new_line (set_cells t1 m) in
  Some (if ch =? chr_lf then (true, t2, tail str) else (false, t2, str)).

(** ** Writing strings *)

(** How a write ends: with a terminal, with an access outside the arrays, or
    with the fuel used up. *)
Inductive result : Type :=
| Returned (t : terminal)
| Overrun
| OutOfFuel.

(** One round of the loop: another round on the rest, or a [break]. *)
Inductive round : Type :=
| Again (t : terminal) (rest : list Z)
| Broke (t : terminal).

Section writing.

(** [advance_utf8] splits the first character off a string, [utf8_to_unicode] is
    its code point. *)
Variable advance_utf8 : list Z → option (list Z * list Z).
Variable utf8_to_unicode : list Z → option Z.

(** The part of a round after the escape sequences, on a string that starts with
    [ch]. *)
Definition put_round t (ch : Z) str : option (terminal * list Z) :=
  if ch =? chr_cr then Some (move_to t (row t) 0, tail str)
  else if ch =? chr_bs then Some (move_cursor_back_inner t, tail str)
  else if ch =? chr_bel then Some (t, tail str)
  else
    let next_row t str (next : bool) :=
      if next || (col t =? cols t) then
        '(skip, t', str') ← goto_next_row t ch str;
        Some (if skip : bool then (t', str') else (set_escape t' reset_escape, str'))
      else Some (set_escape t reset_escape, str) in
    if ch =? chr_lf then next_row t str true
    else match advance_utf8 str with
    | None => Some (t, tail str)
    | Some (slice, rest) =>
      t1 ← push_char t (match utf8_to_unicode slice with Some c => c | None => 0xFE end);
      let t2 := mark_cell t1 (row t1) (col t1) in
      let t3 := move_to t2 (row t2) (i32 (col t2 + 1)) in
      m ← update_row_cols (cells t3) (row t3) (col t3);
      next_row (set_cells t3 m) rest false
    end.

(** [push_string_nolock] with [no_escape]. *)
Fixpoint plain_loop (fuel : nat) t str : result :=
  match str with
  | [] => Returned t
  | ch :: _ =>
    match fuel with
    | O => OutOfFuel
    | S fuel' =>
      match put_round t ch str with
      | Some (t', rest) => plain_loop fuel' t' rest
      | None => Overrun
      end
    end
  end.

Definition push_plain t str : result := plain_loop (length str) (set_placeholder_reset t) str.

Definition escaping t (ch : Z) : bool :=
  (ch =? chr_esc) || negb (bool_decide (state (escape_state_ t) = none) || bool_decide (state (escape_state_ t) = end_)).

(** The escape string that did not fit is written as text. *)
Definition overflow_escape t : option terminal :=
  match push_plain t (escape_string (cells t)) with
  | Returned t' => Some (set_cells t' (pop_escape_string (cells t')))
  | _ => None
  end.

(** A round of the loop on a string that starts with [ch]. *)
Definition push_round t (ch : Z) str : option round :=
  let put t := '(t', rest) ← put_round t ch str; Some (Again t' rest) in
  if escaping t ch then
    let e := escape_state_ t in
    let e := if decide (state e = end_) then set_state none e else e in
    let '(ret, e') := stream_parse_escape_state e str in
    let t1 := set_escape t e' in
    match ret with
    | Some rest =>
      t2 ← apply_escape_command (set_cells t1 (pop_escape_string (cells t1)));
      Some (Again t2 rest)
    | None =>
      if decide (state e' = none) then put t1
      else
        '(ok, m) ← push_escape_string (cells t1) str;
        if ok : bool then Some (Broke (set_cells t1 m))
        else t2 ← overflow_escape t1; put t2
    end
  else put t.

Fixpoint push_loop (fuel : nat) t str : result :=
  match str with
  | [] => Returned t
  | ch :: _ =>
    match fuel with
    | O => OutOfFuel
    | S fuel' =>
      match push_round t ch str with
      | Some (Again t' rest) => push_loop fuel' t' rest
      | Some (Broke t') => Returned t'
      | None => Overrun
      end
    end
  end.

(** Every round takes at least one byte, so the length of the string is enough
    fuel. *)
Definition push_string t str : result := push_loop (length str) (set_placeholder_reset t) str.

End writing.

(** ** Drawing *)

Record cell_t : Type := Build_cell_t {
  codepoint : Z;
  fg : Z;
  bg : Z;
  cell_flags : Z;
}.

Definition color16 : list Z :=
  [0x000000; 0xAA0000; 0x00AA00; 0xAA5500; 0x0000AA; 0xAA00AA; 0x00AAAA; 0xAAAAAA;
   0x555555; 0xFF5555; 0x55FF55; 0xFFFF55; 0x5555FF; 0xFF55FF; 0x55FFFF; 0xFFFFFF].

(** The conversion of a [char], which is signed, to a code point. *)
Definition char_codepoint (c : Z) : Z := u32 (if 128 <=? c then c - 256 else c).

Definition to_cell (c : option minimal_term_char_t) : cell_t :=
  match c with
  | None => Build_cell_t 0 (zget color16 7) (zget color16 0) 0
  | Some c => Build_cell_t (char_codepoint (ch_ c)) (zget color16 (Z.land (color c) 0x0F))
                (zget color16 (Z.shiftr (Z.land (color c) 0xF0) 4)) (ch_flags c)
  end.

(** What a flush hands to the backend, at a row and a column of the screen. *)
Inductive drawing : Type :=
| Commit (row col : Z) (cell : cell_t)
| CommitPlaceholder (row col : Z) (show : bool).

(** The cell at a position. *)
Definition cell_at m row col : option cell_t :=
  q ← get_char m row col;
  c ← load_previous m q;
  Some (to_cell c).

Definition placeholder_freq_us : Z := 1300 * 1000.

(** The blinking cursor, when it is enabled: whether it was updated. *)
Definition update_placeholder t (now : Z) : bool * terminal :=
  let b := blinking t in
  if negb (enable_placeholder_ b) then (false, t)
  else
    let cursor_moved := negb (placeholder_valid_ b) || negb (placeholder_row_ b =? row t)
                        || negb (placeholder_col_ b =? col t) in
    let blink := placeholder_freq_us <? u64 (now - placeholder_time_ b) in
    if negb (cursor_moved || blink || placeholder_reset_ b) then (false, t)
    else
      let t1 := if placeholder_valid_ b then mark_cell t (placeholder_row_ b) (placeholder_col_ b) else t in
      let t2 := mark_cell t1 (row t1) (col t1) in
      let show := if placeholder_reset_ b then true
                  else if negb cursor_moved then negb (placeholder_show_ b) else placeholder_show_ b in
      (true, set_blinking t2 (Build_placeholder now (enable_placeholder_ b) show false (row t2) (col t2) true)).

Definition clip (view r : rectangle) : rectangle :=
  Build_rectangle (Z.max (left_ r) (left_ view)) (Z.min (right_ r) (right_ view))
    (Z.max (top_ r) (top_ view)) (Z.min (bottom_ r) (bottom_ view)).

(** The commits of the cells of a rectangle, row by row. *)
Definition commit_cells m (view dirty : rectangle) : option (list drawing) :=
  ofold (λ acc row,
    ofold (λ acc col,
      cell ← cell_at m row col;
      Some (acc ++ [Commit (row - top_ view) (col - left_ view) cell]))
      (seqZ (left_ dirty) (right_ dirty - left_ dirty)) acc)
    (seqZ (top_ dirty) (bottom_ dirty - top_ dirty)) [].

(** [flush_dirty] at time [now].  The source releases the lock around each
    commit; here no other call runs in between. *)
Definition flush_dirty t (now : Z) : option (terminal * list drawing) :=
  let '(update, t1) := update_placeholder t now in
  if rect_empty (dirty_ t1) || (backend_ t1 =? 0) then Some (t1, [])
  else
    let view := viewport t1 in
    let b := blinking t1 in
    drawn ← commit_cells (cells t1) view (clip view (dirty_ t1));
    Some (set_dirty t1 no_rect,
          drawn ++
          (if update && (top_ view <=? placeholder_row_ b) && (placeholder_row_ b <? bottom_ view)
              && (left_ view <=? placeholder_col_ b) && (placeholder_col_ b <? right_ view)
           then [CommitPlaceholder (placeholder_row_ b - top_ view) (placeholder_col_ b - left_ view)
                   (placeholder_show_ b)]
           else [])).
Definition flush_all t (now : Z) : option (terminal * list drawing) :=
  flush_dirty (set_placeholder_valid (set_dirty t (viewport t)) false) now.

Definition scroll t (lines : Z) : terminal :=
  let c := position t in
  let offset := i32 (row_offset_ c + lines) in
  let offset := if lines <? 0 then Z.max offset 0 else Z.min offset max_lines in
  set_position (set_dirty t (Build_rectangle 0 (cols t) 0 (rows t)))
    (Build_cursor offset (row_ c) (col_ c) (rows_ c) (cols_ c) (lock_row_ c) (lock_col_ c)).

Definition enable_placeholder t : terminal :=
  let b := blinking t in
  set_blinking t (Build_placeholder (placeholder_time_ b) true (placeholder_show_ b) (placeholder_reset_ b)
                    (placeholder_row_ b) (placeholder_col_ b) (placeholder_valid_ b)).

(** [font_16X8]: glyphs of sixteen bytes, one per line, in a table. *)
Definition get_glyph (vga_font : list Z) (code : Z) : list Z :=
  let index := if 255 <? code then 254 else code in
  take 16 (drop (Z.to_nat (index * 16)) vga_font).
Definition hit (glyph : list Z) (x y : Z) : bool := Z.testbit (zget glyph y) (8 - x - 1).

(** [framebuffer_backend] with 32-bit pixels; [frame] are the sizes of its memory. *)
Record frame : Type := Build_frame {
  fb_pitch : Z;
  fb_width : Z;
  fb_height : Z;
  font_width_ : Z;
  font_height_ : Z;
}.

Definition rows_cols (f : frame) : Z * Z := (fb_height f / font_height_ f, fb_width f / font_width_ f).
(** Pixels from one line to the next. *)
Definition stride (f : frame) : Z := fb_pitch f / 4.

(** The stores of a rectangle of one glyph, as pixel index and colour; [None] is
    the panic of the range check. *)
Definition paint (f : frame) (row col : Z) (pixel : Z → Z → Z) : option (list (Z * Z)) :=
  if (fb_height f <? u32 (u32 (row + 1) * font_height_ f)) || (fb_width f <? u32 (u32 (col + 1) * font_width_ f))
  then None
  else
    let dst := stride f * u32 (row * font_height_ f) + u32 (col * font_width_ f) in
    Some (i ← seqZ 0 (font_height_ f); (λ j, (dst + i * stride f + j, pixel j i)) <$> seqZ 0 (font_width_ f)).

Definition commit (vga_font : list Z) (f : frame) (row col : Z) (c : cell_t) : option (list (Z * Z)) :=
  paint f row col (λ x y, if fg c =? bg c then fg c
                          else if hit (get_glyph vga_font (codepoint c)) x y then fg c else bg c).
Definition commit_placeholder (f : frame) (row col : Z) (show : bool) : option (list (Z * Z)) :=
  paint f row col (λ _ _, if show then 0xA0A0A0 else 0).

Definition draw (vga_font : list Z) (f : frame) (d : drawing) : option (list (Z * Z)) :=
  match d with
  | Commit row col c => commit vga_font f row col c
  | CommitPlaceholder row col show => commit_placeholder f row col show
  end.
