(* ===== verification/ConsoleFacts.v ===== *)
(** What the kernel console of Console.v keeps: whatever is logged, every access to
    its arrays and every pixel it draws is in range, unless a command moves the
    cursor to the right by itself; a parser that may be fed in pieces; and two
    ways in which commands go wrong. *)
From stdpp Require Import base list numbers.
From S2P Require Import Prelude Console.

Local Open Scope Z_scope.
Set Default Proof Using "Type".

Implicit Types (t : terminal) (m : minimal_cells) (str : list Z).

(** ** The log *)

(** [write_to] of src/kernel/terminal.cc without the terminals of the manager: the
    string is pushed to the early terminal, which is flushed unless a process draws. *)
Record entry : Type := Build_entry {
  text : list Z;
  written_at : Z;
  user_writer : bool;
}.

Section log.
Variable advance_utf8 : list Z → option (list Z * list Z).
Variable utf8_to_unicode : list Z → option Z.

Abbreviation push := (push_string advance_utf8 utf8_to_unicode).
Abbreviation push_round_ := (push_round advance_utf8 utf8_to_unicode).

Definition write_to t (e : entry) : option (terminal * list drawing) :=
  match push t (text e) with
  | Returned t' => if user_writer e then Some (t', []) else flush_dirty t' (written_at e)
  | _ => None
  end.

Fixpoint write_log t (log : list entry) : option (terminal * list drawing) :=
  match log with
  | [] => Some (t, [])
  | e :: log' =>
    '(t1, d1) ← write_to t e;
    '(t2, d2) ← write_log t1 log';
    Some (t2, d1 ++ d2)
  end.

(** A command that keeps the cursor in its line: all but C and G, with a number
    that is a count of an [int]. *)
Definition tame (e : escape_string_state) : bool :=
  negb (command e =? 67) && negb (command e =? 71) && between 0 (command_num e) (2 ^ 31 - 69).

(** The commands applied while a string is written are tame. *)
Fixpoint tame_loop (fuel : nat) t str : bool :=
  match str, fuel with
  | ch :: _, S fuel' =>
    match push_round_ t ch str with
    | Some (Again t' rest) => tame (escape_state_ t') && tame_loop fuel' t' rest
    | _ => true
    end
  | _, _ => true
  end.
Definition tame_string t str : bool := tame_loop (length str) (set_placeholder_reset t) str.

Fixpoint tame_log t (log : list entry) : bool :=
  match log with
  | [] => true
  | e :: log' =>
    tame_string t (text e) && match write_to t e with Some (t', _) => tame_log t' log' | None => true end
  end.

End log.

(** ** The invariant *)

Record cells_ok m : Prop := Build_cells_ok {
  ce_chars : Z.of_nat (length (term_chars_ m)) = max_lines * max_element_for_line;
  ce_cols : Z.of_nat (length (term_char_cols_ m)) = max_lines;
  ce_widths : Forall (λ n, 0 ≤ n ≤ max_element_for_line) (term_char_cols_ m);
  ce_pos : 0 ≤ stack_pos_ m ≤ 63;
  ce_stack : length (stack_ m) = 64%nat;
}.

Record cursor_ok (c : cursor) : Prop := Build_cursor_ok {
  cu_offset : row_offset_ c = 0;
  cu_row : 0 ≤ row_ c < max_lines;
  cu_col : 0 ≤ col_ c < cols_ c;
  cu_cols : cols_ c ≤ max_element_for_line;
  cu_rows : 1 ≤ rows_ c ≤ max_lines;
}.

Definition console_ok t : Prop := cursor_ok (position t) ∧ cells_ok (cells t).

(** Two cursors on screens of one size. *)
Definition same_size (c c' : cursor) : Prop := rows_ c' = rows_ c ∧ cols_ c' = cols_ c.

(** ** Arrays *)

Lemma array_at_in {A} (l : list A) i : 0 ≤ i < Z.of_nat (length l) → ∃ x, array_at l i = Some x ∧ ∀ P, Forall P l → P x.
Proof.
  intros Hi. unfold array_at. rewrite (proj2 (Z.ltb_ge _ _)) by lia.
  destruct (lookup_lt_is_Some_2 l (Z.to_nat i)) as [x Hx]; [lia|].
  exists x. split; [done|]. intros P HP. by eapply Forall_lookup_1.
Qed.

Lemma array_set_in {A} (l : list A) i x :
  0 ≤ i < Z.of_nat (length l) → array_set l i x = Some (<[Z.to_nat i := x]> l).
Proof. intros Hi. unfold array_set. rewrite (proj2 (Z.ltb_ge _ _)), (proj2 (Z.leb_gt _ _)) by lia. done. Qed.

Lemma length_shift_down {A} n (l : list A) : (n ≤ length l)%nat → length (shift_down n l) = length l.
Proof. intros. unfold shift_down. rewrite length_app, !length_drop. lia. Qed.

Lemma shift_down_Forall {A} (P : A → Prop) n (l : list A) : Forall P l → Forall P (shift_down n l).
Proof. intros. unfold shift_down. apply Forall_app. split; by apply Forall_drop. Qed.

Lemma ofold_invariant {A S} (P : S → Prop) (f : S → A → option S) (l : list A) s :
  P s → (∀ s x, P s → x ∈ l → ∃ s', f s x = Some s' ∧ P s') → ∃ s', ofold f l s = Some s' ∧ P s'.
Proof.
  revert s. induction l as [|x l IH]; intros s Hs Hf; simpl; [eauto|].
  destruct (Hf s x Hs) as (s1 & -> & H1); [by left|]. simpl.
  apply IH; [done|]. intros s2 y ??. apply Hf; [done|by right].
Qed.

(** ** Cells *)

Local Arguments load_char : simpl never.
Local Arguments store_char : simpl never.
Local Arguments get_char : simpl never.
Local Arguments update_row_cols : simpl never.
Local Arguments alloc_char : simpl never.
Local Arguments Z.add : simpl never.
Local Arguments Z.mul : simpl never.

Lemma load_char_in m p : cells_ok m → 0 ≤ p < max_lines * max_element_for_line → ∃ c, load_char m p = Some c.
Proof.
  intros Hm Hp. destruct (array_at_in (term_chars_ m) p) as (c & Hc & _); [rewrite (ce_chars _ Hm); lia|]. eauto.
Qed.

Lemma store_char_in m p c :
  cells_ok m → 0 ≤ p < max_lines * max_element_for_line → ∃ m', store_char m p c = Some m' ∧ cells_ok m'.
Proof.
  intros Hm Hp. unfold store_char. rewrite array_set_in by (rewrite (ce_chars _ Hm); lia). simpl.
  eexists. split; [done|]. destruct Hm. split; simpl; [by rewrite length_insert|done..].
Qed.

Lemma get_char_in m row col :
  cells_ok m → 0 ≤ row → 0 ≤ col →
  ∃ q, get_char m row col = Some q ∧ ∀ p, q = Some p → 0 ≤ p < max_lines * max_element_for_line.
Proof.
  intros Hm Hr Hc. unfold get_char. destruct (Z.leb_spec max_lines row); [eexists; split; [done|]; done|].
  destruct (array_at_in (term_char_cols_ m) row) as (n & -> & Hn); [rewrite (ce_cols _ Hm); lia|]. simpl.
  specialize (Hn _ (ce_widths _ Hm)). simpl in Hn.
  eexists. split; [done|]. intros p. destruct (Z.leb_spec n col); [done|].
  intros [= <-]. unfold max_lines, max_element_for_line in *. lia.
Qed.

Lemma free_char_in m p :
  cells_ok m → 0 ≤ p < max_lines * max_element_for_line → ∃ m', free_char m p = Some m' ∧ cells_ok m'.
Proof.
  intros Hm Hp. unfold free_char. destruct (load_char_in m p Hm Hp) as [c ->]. simpl. by apply store_char_in.
Qed.

Lemma update_row_cols_in m row col :
  cells_ok m → 0 ≤ row < max_lines → 0 ≤ col ≤ max_element_for_line →
  ∃ m', update_row_cols m row col = Some m' ∧ cells_ok m'.
Proof.
  intros Hm Hr Hc. unfold update_row_cols. rewrite array_set_in by (rewrite (ce_cols _ Hm); lia). simpl.
  eexists. split; [done|]. unfold max_element_for_line in *. rewrite u16_small by lia.
  destruct Hm. split; simpl; [done|by rewrite length_insert| |done..]. by apply Forall_insert.
Qed.

Lemma pop_history_in m : cells_ok m → (pop_history m 1).1 = 1 ∧ cells_ok (pop_history m 1).2.
Proof.
  intros [H1 H2 H3 H4 H5]. unfold pop_history. simpl. split; [done|]. unfold max_lines, max_element_for_line in *.
  split; simpl; [|rewrite length_shift_down by lia; done|by apply shift_down_Forall|done..].
  rewrite length_shift_down; [done|]. lia.
Qed.

Lemma previous_loop_in m row col :
  cells_ok m → row < max_lines → 0 < col →
  ∃ q r c, previous_loop (Z.to_nat (row + 1)) m row col = Some (q, r, c) ∧
    ∀ p, q = Some p → 0 ≤ p < max_lines * max_element_for_line.
Proof.
  intros Hm. remember (Z.to_nat (row + 1)) as fuel eqn:Hf. revert row col Hf.
  induction fuel as [|fuel IH]; intros row col Hf Hr Hc; simpl.
  { rewrite (proj2 (Z.ltb_lt _ _)) by lia. eexists _, _, _. split; [done|]. done. }
  rewrite (proj2 (Z.ltb_ge _ _)) by lia.
  destruct (array_at_in (term_char_cols_ m) row) as (n & -> & Hn); [rewrite (ce_cols _ Hm); lia|]. simpl.
  specialize (Hn _ (ce_widths _ Hm)). simpl in Hn.
  destruct (Z.eqb_spec n 0); [apply IH; unfold max_element_for_line; lia|].
  destruct (get_char_in m row ((if n <? col then n else col) - 1) Hm) as (q & -> & Hq);
    [lia|destruct (Z.ltb_spec n col); lia|]. simpl. eauto.
Qed.

Lemma previous_in m row col :
  cells_ok m → 0 ≤ row < max_lines → 0 ≤ col →
  ∃ q r c, previous_term_char m row col = Some (q, r, c) ∧ ∀ p, q = Some p → 0 ≤ p < max_lines * max_element_for_line.
Proof.
  intros Hm Hr Hc. unfold previous_term_char.
  destruct (Z.eqb_spec col 0); apply previous_loop_in; try done; unfold max_element_for_line; lia.
Qed.

(** ** Operations *)

(** A terminal in order with a screen of the same size as [t]. *)
Definition keeps t t' : Prop := console_ok t' ∧ same_size (position t) (position t').

Lemma console_keeps_trans t1 t2 t3 : keeps t1 t2 → keeps t2 t3 → keeps t1 t3.
Proof. intros [_ [H1 H2]] [? [H3 H4]]. split; [done|]. split; congruence. Qed.

(** Moving the cursor inside the screen. *)
Lemma move_to_keeps t row col :
  console_ok t → 0 ≤ row < max_lines → 0 ≤ col < cols t → keeps t (move_to t row col).
Proof. intros [[] Hm] ??. split; [|done]. by split. Qed.

Lemma set_cells_keeps t m : console_ok t → cells_ok m → keeps t (set_cells t m).
Proof. by intros [Hc _] Hm. Qed.

Lemma push_char_keeps t code :
  console_ok t → ∃ t', push_char t code = Some t' ∧ keeps t t' ∧ position t' = position t.
Proof.
  intros [Hc Hm]. destruct Hc. unfold push_char.
  assert (0 ≤ alloc_char (row t) (col t) < max_lines * max_element_for_line) as Hp
    by (unfold alloc_char, row, col, max_lines, max_element_for_line in *; lia).
  assert (∃ prev, (if drop_ t then Some (Some (last_char_ t))
    else '(q, _, _) ← previous_term_char (cells t) (row t) (col t); load_previous (cells t) q) = Some prev) as [prev ->].
  { destruct (drop_ t); [eauto|]. destruct (previous_in (cells t) (row t) (col t)) as (q & r & c & -> & Hq); [done|done|by apply cu_col0|].
    simpl. destruct q as [p|]; simpl; [|eauto]. destruct (load_char_in (cells t) p) as [x ->]; [done|by apply Hq|]. eauto. }
  cbn [mbind option_bind]. destruct (load_char_in (cells t) _ Hm Hp) as [c ->]. cbn [mbind option_bind].
  destruct (make_state prev c code (attr (escape_state_ t))) as [c' a].
  destruct (store_char_in (cells t) _ c' Hm Hp) as (m & -> & Hm'). by eexists.
Qed.

Lemma clear_cell_in m row col :
  cells_ok m → 0 ≤ row → 0 ≤ col → ∃ m', clear_cell m row col = Some m' ∧ cells_ok m'.
Proof.
  intros Hm Hr Hc. unfold clear_cell. destruct (get_char_in m row col Hm Hr Hc) as (q & -> & Hq). simpl.
  destruct q as [p|]; [|eauto]. apply free_char_in; [done|by apply Hq].
Qed.

Lemma clear_cells_keeps t r1 c1 r2 c2 :
  console_ok t → ∃ t', clear_cells t r1 c1 r2 c2 = Some t' ∧ keeps t t' ∧ position t' = position t.
Proof.
  intros Ht. unfold clear_cells.
  match goal with |- context [ofold ?f ?l ?s] => destruct (ofold_invariant cells_ok f l s) as (m & -> & Hm) end.
  - apply Ht.
  - intros m r Hm Hr. apply elem_of_seqZ in Hr. apply ofold_invariant; [done|].
    intros m' c Hm' Hc. apply elem_of_seqZ in Hc. apply clear_cell_in; [done|lia|].
    destruct (r =? Z.max r1 0); lia.
  - eexists. split; [done|]. split; [by apply set_cells_keeps|done].
Qed.

Lemma apply_escape_command_keeps t :
  console_ok t → ∃ t', apply_escape_command t = Some t' ∧ escape_state_ t' = escape_state_ t ∧
    (tame (escape_state_ t) = true → keeps t t').
Proof.
  intros Ht. pose proof Ht as [[] Hm]. unfold apply_escape_command, tame, between.
  set (e := escape_state_ t). set (count := if command_num e =? 0 then 1 else i32 (command_num e)).
  assert (between 0 (command_num e) (2 ^ 31 - 69) = true → 1 ≤ count ≤ 2 ^ 31 - 69) as Hcount.
  { unfold between, count. rewrite andb_true_iff, !Z.leb_le. intros ?.
    destruct (Z.eqb_spec (command_num e) 0); [lia|]. rewrite i32_small by lia. lia. }
  unfold between in Hcount. rewrite andb_true_iff, !Z.leb_le in Hcount. clearbody count.
  assert (∀ r1 c1 r2 c2, ∃ t1, clear_cells t r1 c1 r2 c2 = Some t1 ∧ escape_state_ t1 = e ∧ keeps t t1) as Hclear.
  { intros. destruct (clear_cells_keeps t r1 c1 r2 c2 Ht) as (t1 & H1 & H2 & H3). exists t1. split; [done|]. split; [|done].
    unfold clear_cells in H1. apply bind_Some in H1 as (? & _ & [= <-]). done. }
  repeat match goal with |- context [if ?b then _ else _] =>
    lazymatch b with (command _ =? _) => destruct b eqn:? | _ || _ => destruct b eqn:? end end.
  8,9: repeat match goal with |- context [if command_num ?x =? ?n then _ else _] => destruct (command_num x =? n) end;
    match goal with |- context [clear_cells _ ?a ?b ?c ?d] => destruct (Hclear a b c d) as (t1 & -> & ? & ?) end;
    by eexists.
  8: by eexists.
  all: eexists; split; [done|]; split; [done|]; intros Htame; rewrite ?andb_false_r in Htame; try done;
    rewrite !andb_true_iff, !Z.leb_le in Htame; specialize (Hcount (proj2 Htame));
    unfold row, col, cols, row_offset, max_lines, max_element_for_line in *;
    (apply move_to_keeps; [done|rewrite ?i32_small by lia; unfold max_lines; lia|]);
    rewrite ?i32_small by lia; unfold cols; lia.
Qed.

Lemma move_cursor_back_keeps t : console_ok t → keeps t (move_cursor_back_inner t).
Proof.
  intros Ht. pose proof Ht as [[] _]. unfold move_cursor_back_inner.
  match goal with |- keeps t (mark_cell (mark_cell ?t1 _ _) _ _) => cut (keeps t t1); [done|] end.
  destruct (Z.ltb_spec 0 (col t)); [apply move_to_keeps; unfold row, col, cols in *; [done|lia..]|].
  destruct (Z.ltb_spec (row_offset t) (row t)); [|done].
  apply move_to_keeps; unfold row, col, cols, row_offset in *; [done|lia..].
Qed.

(** A cursor one past the end of its line, which a new line brings back. *)
Definition at_edge t : Prop :=
  cells_ok (cells t) ∧ row_offset t = 0 ∧ 0 ≤ row t < max_lines ∧ 0 ≤ col t ≤ cols t ∧
  1 ≤ cols t ≤ max_element_for_line ∧ 1 ≤ rows t ≤ max_lines.

Lemma console_at_edge t : console_ok t → at_edge t.
Proof. intros [[] Hm]. unfold at_edge, row, col, rows, cols, row_offset. split; [done|]. lia. Qed.

Lemma edge_console t : at_edge t → col t ≠ cols t → console_ok t.
Proof. unfold at_edge, row, col, rows, cols, row_offset. intros (Hm & ?) ?. split; [|done]. split; lia. Qed.

Lemma push_new_line_keeps t : at_edge t → keeps t (push_new_line t).
Proof.
  intros (Hm & Ho & Hr & Hc & Hcs & Hrs). unfold push_new_line.
  destruct (viewport_is_full t) eqn:Hf.
  - destruct (pop_history (cells t) 1) as [n m] eqn:Hp. pose proof (pop_history_in _ Hm) as [Hn Hm'].
    rewrite Hp in Hn, Hm'. simpl in Hn, Hm'. subst n. simpl.
    unfold row, col, rows, cols, row_offset in *. split; [split; [|done]|done]. split; simpl; lia.
  - unfold viewport_is_full in Hf. apply Z.leb_gt in Hf.
    unfold row, col, rows, cols, row_offset in *. split; [split; [|done]|done]. split; simpl; unfold row; lia.
Qed.

Lemma goto_next_row_keeps t ch str :
  at_edge t → ∃ skip t' rest, goto_next_row t ch str = Some (skip, t', rest) ∧ keeps t t' ∧
    (skip = true → rest = tail str) ∧ (skip = false → rest = str) ∧ (ch = chr_lf → skip = true).
Proof.
  intros Ht. pose proof Ht as (Hm & Ho & Hr & Hc & Hcs & Hrs). unfold goto_next_row. set (t1 := mark_cell t (row t) (col t)). cbv zeta.
  destruct (update_row_cols_in (cells t1) (row t1) (col t1) Hm Hr) as (m & -> & Hm'); [change (0 ≤ col t ≤ max_element_for_line); lia|].
  assert (keeps t (push_new_line (set_cells t1 m))) as Hk.
  { change (keeps (set_cells t1 m) (push_new_line (set_cells t1 m))). apply push_new_line_keeps. by split. }
  cbn [mbind option_bind].
  destruct (Z.eqb_spec ch chr_lf); eexists _, _, _; (split; [done|]); done.
Qed.

Lemma length_take_le (l : list Z) (n : Z) : Z.of_nat (length (take (Z.to_nat n) l)) ≤ Z.max n 0.
Proof. rewrite length_take. lia. Qed.

Lemma push_escape_string_in m str :
  cells_ok m → Z.of_nat (length str) < 2 ^ 31 → ∃ ok m', push_escape_string m str = Some (ok, m') ∧ cells_ok m'.
Proof.
  intros Hm Hs. unfold push_escape_string. rewrite i32_small by lia. pose proof (ce_pos _ Hm).
  match goal with |- context [negb ?b] => destruct b eqn:Hb end; simpl; [|by eexists _, _].
  apply Z.eqb_eq in Hb. unfold array_copy. rewrite firstn_all2 by lia.
  rewrite (proj2 (Z.ltb_ge _ _)), (proj2 (Z.ltb_ge _ _)) by (rewrite ?(ce_stack _ Hm); lia). simpl.
  eexists _, _. split; [done|]. destruct Hm. split; simpl; [done..|lia|].
  rewrite !length_app, length_take, length_drop. lia.
Qed.

Lemma escape_string_length m : cells_ok m → Z.of_nat (length (escape_string m)) < 2 ^ 31.
Proof. intros Hm. unfold escape_string. rewrite length_take, (ce_stack _ Hm). lia. Qed.

Lemma pop_escape_string_in m : cells_ok m → cells_ok (pop_escape_string m).
Proof. intros []. by split. Qed.

Section writing.
Variable advance_utf8 : list Z → option (list Z * list Z).
Variable utf8_to_unicode : list Z → option Z.
(** Decoding takes the bytes of the first character. *)
Hypothesis advance_takes : ∀ s slice rest, advance_utf8 s = Some (slice, rest) → (length rest < length s)%nat.

Lemma put_round_keeps t ch str :
  console_ok t →
  ∃ t' rest, put_round advance_utf8 utf8_to_unicode t ch (ch :: str) = Some (t', rest) ∧ keeps t t' ∧
    (length rest < length (ch :: str))%nat.
Proof using advance_takes.
  intros Ht. pose proof Ht as [[] Hm]. unfold put_round. simpl tail.
  destruct (ch =? chr_cr). { eexists _, _. split; [done|]. split; [|simpl; lia]. by apply move_to_keeps; [|unfold row, cols; lia..]. }
  destruct (ch =? chr_bs). { eexists _, _. split; [done|]. split; [by apply move_cursor_back_keeps|simpl; lia]. }
  destruct (ch =? chr_bel). { eexists _, _. split; [done|]. split; [done|simpl; lia]. }
  destruct (Z.eqb_spec ch chr_lf) as [->|Hlf].
  { destruct (goto_next_row_keeps t chr_lf (chr_lf :: str)) as (skip & t' & rest & -> & Hk & Hs & _ & Hlf); [by apply console_at_edge|].
    rewrite Hlf in * by done. rewrite Hs by done. eexists _, _. split; [done|]. split; [done|simpl; lia]. }
  destruct (advance_utf8 (ch :: str)) as [[slice rest]|] eqn:Ha; [|eexists _, _; split; [done|]; split; [done|simpl; lia]].
  apply advance_takes in Ha.
  destruct (push_char_keeps t (match utf8_to_unicode slice with Some c => c | None => 0xFE end) Ht) as (t1 & -> & [[_ Hm1] Hs1] & Hp1).
  cbn [mbind option_bind]. cbv zeta.
  set (t3 := move_to (mark_cell t1 (row t1) (col t1)) _ _).
  assert (row t3 = row t ∧ col t3 = col t + 1 ∧ cols t3 = cols t ∧ rows t3 = rows t ∧ row_offset t3 = row_offset t)
    as (Hr3 & Hc3 & Hcs3 & Hrs3 & Ho3).
  { unfold t3, row, col, cols, rows, row_offset. simpl. rewrite Hp1. unfold max_element_for_line in *. rewrite i32_small; [done|lia]. }
  destruct (update_row_cols_in (cells t3) (row t3) (col t3)) as (m & -> & Hm3); [done|unfold row, col, cols in *; lia..|].
  cbn [mbind option_bind]. set (t4 := set_cells t3 m).
  assert (at_edge t4) as Hedge.
  { change (cells_ok m ∧ row_offset t3 = 0 ∧ 0 ≤ row t3 < max_lines ∧ 0 ≤ col t3 ≤ cols t3 ∧ 1 ≤ cols t3 ≤ max_element_for_line ∧ 1 ≤ rows t3 ≤ max_lines).
    split; [done|]. unfold row, col, cols, rows, row_offset in *. lia. }
  assert (same_size (position t) (position t4)) as Hsz by done.
  destruct (Z.eqb_spec (col t4) (cols t4)) as [Heq|Hne]; simpl.
  - destruct (goto_next_row_keeps t4 ch rest Hedge) as (skip & t' & rest' & -> & [Hok' Hsz'] & Hs & Hns & _). simpl.
    assert (length rest' < length (ch :: str))%nat as Hlen.
    { destruct skip; [rewrite Hs by done|rewrite Hns by done; done]. destruct rest; simpl in *; lia. }
    assert (keeps t t') as Hk. { split; [done|]. destruct Hsz, Hsz'. split; congruence. }
    destruct skip; eexists _, _; (split; [done|]); by split.
  - eexists _, _. split; [done|]. split; [|done]. split; [|done]. exact (edge_console t4 Hedge Hne).
Qed.

Lemma plain_loop_keeps fuel t str :
  console_ok t → (length str ≤ fuel)%nat →
  ∃ t', plain_loop advance_utf8 utf8_to_unicode fuel t str = Returned t' ∧ keeps t t'.
Proof using advance_takes.
  revert t str. induction fuel as [|fuel IH]; intros t [|ch str] Ht Hlen; simpl in *; [by eexists|lia|by eexists|].
  destruct (put_round_keeps t ch str Ht) as (t1 & rest & -> & Hk1 & Hr). simpl in Hr.
  destruct (IH t1 rest) as (t2 & -> & Hk2); [by destruct Hk1|lia|]. exists t2. split; [done|]. by eapply console_keeps_trans.
Qed.

Lemma overflow_escape_keeps t :
  console_ok t → ∃ t', overflow_escape advance_utf8 utf8_to_unicode t = Some t' ∧ keeps t t'.
Proof using advance_takes.
  intros Ht. unfold overflow_escape, push_plain.
  destruct (plain_loop_keeps (length (escape_string (cells t))) (set_placeholder_reset t) (escape_string (cells t)))
    as (t1 & -> & [Hok Hs]); [done..|].
  eexists. split; [done|]. split; [|done]. destruct Hok. split; [done|]. by apply pop_escape_string_in.
Qed.

(** What the parser returns is shorter than what it was given. *)
Lemma parse_loop_shorter e str rest e' : parse_loop e str = (Some rest, e') → (length rest < length str)%nat.
Proof.
  revert e. induction str as [|ch str IH]; intros e; simpl; [done|].
  destruct (parse_byte ch e); [|by intros [= <- _]; lia|done]. intros H%IH. lia.
Qed.

(** One round keeps the terminal in order, and after a tame command. *)
Lemma push_round_keeps t ch str :
  console_ok t → Z.of_nat (length (ch :: str)) < 2 ^ 31 →
  ∃ r, push_round advance_utf8 utf8_to_unicode t ch (ch :: str) = Some r ∧
    match r with
    | Again t' rest => (length rest < length (ch :: str))%nat ∧ (tame (escape_state_ t') = true → keeps t t')
    | Broke t' => keeps t t'
    end.
Proof using advance_takes.
  intros Ht Hlen. unfold push_round.
  assert (∀ t1, keeps t t1 → ∃ r, ('(t', rest) ← put_round advance_utf8 utf8_to_unicode t1 ch (ch :: str); Some (Again t' rest)) = Some r ∧
    match r with
    | Again t' rest => (length rest < length (ch :: str))%nat ∧ (tame (escape_state_ t') = true → keeps t t')
    | Broke t' => keeps t t'
    end) as Hput.
  { intros t1 H1. destruct (put_round_keeps t1 ch str (proj1 H1)) as (t2 & rest & -> & Hk & Hr).
    eexists. split; [done|]. split; [done|]. intros _. by eapply console_keeps_trans. }
  destruct (escaping t ch); [|by apply Hput].
  destruct (stream_parse_escape_state _ _) as [[rest|] e'] eqn:Hparse.
  - destruct (apply_escape_command_keeps (set_cells (set_escape t e') (pop_escape_string (cells t)))) as (t2 & Ha & He & Hk).
    { destruct Ht. split; [done|]. by apply pop_escape_string_in. }
    change (cells (set_escape t e')) with (cells t). rewrite Ha. eexists. split; [done|]. split.
    + unfold stream_parse_escape_state in Hparse. by eapply parse_loop_shorter.
    + intros Htame. rewrite He in Htame. by apply Hk.
  - destruct (decide (state e' = none)); [by apply (Hput (set_escape t e'))|].
    destruct (push_escape_string_in (cells t) (ch :: str)) as (ok & m & Hp & Hm); [by destruct Ht|done|].
    change (cells (set_escape t e')) with (cells t). rewrite Hp. destruct ok.
    { eexists. split; [done|]. by apply (set_cells_keeps (set_escape t e')). }
    destruct (overflow_escape_keeps (set_escape t e') Ht) as (t2 & Ho & Hk2). cbn [mbind option_bind]. rewrite Ho. by apply Hput.
Qed.

Lemma push_loop_keeps fuel t str :
  console_ok t → (length str ≤ fuel)%nat → Z.of_nat (length str) < 2 ^ 31 →
  tame_loop advance_utf8 utf8_to_unicode fuel t str = true →
  ∃ t', push_loop advance_utf8 utf8_to_unicode fuel t str = Returned t' ∧ keeps t t'.
Proof using advance_takes.
  revert t str. induction fuel as [|fuel IH]; intros t [|ch str] Ht Hfuel Hlen Htame; simpl in Hfuel; [by eexists|lia|by eexists|].
  destruct (push_round_keeps t ch str Ht Hlen) as (r & Hr & Hk). cbn [tame_loop push_loop] in *. rewrite Hr in *.
  destruct r as [t1 rest|t1]; [|by eexists]. destruct Hk as [Hshort Hk]. simpl in Hshort, Hlen.
  apply andb_true_iff in Htame as [Htame Hrest]. specialize (Hk Htame).
  destruct (IH t1 rest) as (t2 & -> & Hk2); [by destruct Hk|lia|lia|done|].
  exists t2. split; [done|]. by eapply console_keeps_trans.
Qed.
End writing.

(** ** Drawing *)

(** A drawing at a position of the screen. *)
Definition on_screen (c : cursor) (d : drawing) : Prop :=
  match d with
  | Commit row col _ | CommitPlaceholder row col _ => 0 ≤ row < rows_ c ∧ 0 ≤ col < cols_ c
  end.

Lemma on_screen_same c c' ds : same_size c c' → Forall (on_screen c') ds → Forall (on_screen c) ds.
Proof. intros [Hr Hc]. apply Forall_impl. intros []; simpl; by rewrite Hr, Hc. Qed.

Lemma cell_at_in m row col : cells_ok m → 0 ≤ row → 0 ≤ col → ∃ c, cell_at m row col = Some c.
Proof.
  intros Hm Hr Hc. unfold cell_at. destruct (get_char_in m row col Hm Hr Hc) as (q & -> & Hq). simpl.
  destruct q as [p|]; simpl; [|eauto]. destruct (load_char_in m p Hm) as [c ->]; [by apply Hq|]. simpl. eauto.
Qed.

Lemma commit_cells_on_screen t d :
  console_ok t →
  ∃ ds, commit_cells (cells t) (viewport t) (clip (viewport t) d) = Some ds ∧ Forall (on_screen (position t)) ds.
Proof.
  intros [[] Hm]. unfold commit_cells. apply ofold_invariant; [done|].
  intros acc r Hacc Hr. apply elem_of_seqZ in Hr. apply ofold_invariant; [done|].
  intros acc' c Hacc' Hc. apply elem_of_seqZ in Hc. simpl in Hr, Hc.
  unfold row_offset, rows, cols in *. rewrite cu_offset0 in *.
  destruct (cell_at_in (cells t) r c Hm) as [cell ->]; [lia..|]. simpl.
  eexists. split; [done|]. apply Forall_app. split; [done|]. apply Forall_singleton. simpl.
  unfold row_offset. rewrite cu_offset0. lia.
Qed.

Lemma update_placeholder_keeps t now : console_ok t → keeps t (update_placeholder t now).2.
Proof.
  intros Ht. unfold update_placeholder. destruct (negb (enable_placeholder_ (blinking t))); [done|].
  cbv zeta. match goal with |- context [if negb ?b then _ else _] => destruct b end; [|done].
  by destruct (placeholder_valid_ (blinking t)).
Qed.

Lemma flush_dirty_on_screen t now :
  console_ok t →
  ∃ t' ds, flush_dirty t now = Some (t', ds) ∧ keeps t t' ∧ Forall (on_screen (position t')) ds.
Proof.
  intros Ht. unfold flush_dirty. pose proof (update_placeholder_keeps t now Ht) as [Ht1 Hs1].
  destruct (update_placeholder t now) as [update t1]. simpl in *.
  destruct (rect_empty (dirty_ t1) || (backend_ t1 =? 0)); [by eexists _, _|].
  destruct (commit_cells_on_screen t1 (dirty_ t1) Ht1) as (ds & -> & Hds). simpl.
  eexists _, _. split; [done|]. split; [done|]. apply Forall_app. split; [done|].
  match goal with |- context [if ?b then _ else _] => destruct b eqn:Hb end; [|done].
  rewrite !andb_true_iff, !Z.leb_le, !Z.ltb_lt in Hb. apply Forall_singleton. unfold on_screen. simpl.
  unfold row_offset, rows, cols in *. lia.
Qed.

(** The sizes of a frame with room for its lines. *)
Record frame_ok (f : frame) : Prop := Build_frame_ok {
  fr_font : 0 < font_width_ f ∧ 0 < font_height_ f;
  fr_width : 0 ≤ fb_width f < 2 ^ 32;
  fr_height : 0 ≤ fb_height f < 2 ^ 32;
  fr_stride : fb_width f ≤ stride f;
}.

Definition pixels_inside (f : frame) (px : list (Z * Z)) : Prop := Forall (λ w, 0 ≤ w.1 < stride f * fb_height f) px.

(** A coordinate of the last cell that fits. *)
Lemma cell_fits size n x : 0 < n → 0 ≤ x < size / n → (x + 1) * n ≤ size.
Proof. intros Hn Hx. pose proof (Z.mul_div_le size n Hn). nia. Qed.

Lemma paint_inside f row col pixel :
  frame_ok f → 0 ≤ row < (rows_cols f).1 → 0 ≤ col < (rows_cols f).2 →
  ∃ px, paint f row col pixel = Some px ∧ pixels_inside f px.
Proof.
  intros [[Hw Hh] Hwd Hht Hst] Hr Hc. simpl in Hr, Hc.
  pose proof (cell_fits _ _ _ Hh Hr) as Hrow. pose proof (cell_fits _ _ _ Hw Hc) as Hcol.
  unfold paint. rewrite (u32_small (row + 1)), (u32_small (col + 1)) by nia.
  rewrite (u32_small ((row + 1) * _)), (u32_small ((col + 1) * _)) by nia.
  rewrite !(proj2 (Z.ltb_ge _ _)) by lia. simpl. rewrite !u32_small by nia.
  eexists. split; [done|]. unfold pixels_inside. apply Forall_bind, Forall_forall. intros i Hi. apply Forall_fmap, Forall_forall. intros j Hj.
  apply list_elem_of_In, elem_of_seqZ in Hi, Hj. simpl.
  replace (stride f * (row * font_height_ f) + col * font_width_ f + i * stride f + j)
    with (stride f * (row * font_height_ f + i) + (col * font_width_ f + j)) by ring.
  assert (0 ≤ col * font_width_ f + j < stride f) by nia.
  assert (0 ≤ row * font_height_ f + i ≤ fb_height f - 1) by nia. nia.
Qed.

Lemma draw_inside font f c d :
  frame_ok f → rows_cols f = (rows_ c, cols_ c) → on_screen c d → ∃ px, draw font f d = Some px ∧ pixels_inside f px.
Proof. intros Hf Hsize Hd. destruct d, Hd; apply paint_inside; try done; by rewrite Hsize. Qed.

(** ** What is logged *)

Section log_facts.
Variable advance_utf8 : list Z → option (list Z * list Z).
Variable utf8_to_unicode : list Z → option Z.
Hypothesis advance_takes : ∀ s slice rest, advance_utf8 s = Some (slice, rest) → (length rest < length s)%nat.

Lemma write_to_keeps t e :
  console_ok t → Z.of_nat (length (text e)) < 2 ^ 31 → tame_string advance_utf8 utf8_to_unicode t (text e) = true →
  ∃ t' ds, write_to advance_utf8 utf8_to_unicode t e = Some (t', ds) ∧ keeps t t' ∧ Forall (on_screen (position t)) ds.
Proof using advance_takes.
  intros Ht Hlen Htame. unfold write_to, push_string.
  destruct (push_loop_keeps advance_utf8 utf8_to_unicode advance_takes (length (text e)) (set_placeholder_reset t) (text e))
    as (t1 & -> & Hk1); [done..|].
  destruct (user_writer e); [by eexists _, _|].
  destruct (flush_dirty_on_screen t1 (written_at e)) as (t2 & ds & -> & Hk2 & Hds); [by destruct Hk1|].
  assert (keeps t t2) as Hk by exact (console_keeps_trans _ _ _ Hk1 Hk2).
  eexists _, _. split; [done|]. split; [done|]. exact (on_screen_same _ _ _ (proj2 Hk) Hds).
Qed.

Lemma write_log_keeps t log :
  console_ok t → Forall (λ e, Z.of_nat (length (text e)) < 2 ^ 31) log →
  tame_log advance_utf8 utf8_to_unicode t log = true →
  ∃ t' ds, write_log advance_utf8 utf8_to_unicode t log = Some (t', ds) ∧ keeps t t' ∧ Forall (on_screen (position t)) ds.
Proof using advance_takes.
  revert t. induction log as [|e log IH]; intros t Ht Hlen Htame; [by eexists _, _|].
  apply Forall_cons_1 in Hlen as [Hl Hlen]. cbn [tame_log write_log] in *. apply andb_true_iff in Htame as [Htame Hrest].
  destruct (write_to_keeps t e Ht Hl Htame) as (t1 & d1 & Hw & Hk1 & Hd1). rewrite Hw in *. cbn [mbind option_bind].
  destruct (IH t1) as (t2 & d2 & -> & Hk2 & Hd2); [by destruct Hk1|done..|].
  eexists _, _. split; [done|]. split; [by eapply console_keeps_trans|]. apply Forall_app. split; [done|].
  exact (on_screen_same _ _ _ (proj2 Hk1) Hd2).
Qed.


End log_facts.

(** ** The parser *)

(** A byte after which the parser is inside a sequence only asks for more. *)
Lemma parse_loop_resumes e e1 s1 s2 :
  parse_loop e s1 = (None, e1) → state e1 ≠ none → state e1 ≠ end_ → parse_loop e (s1 ++ s2) = parse_loop e1 s2.
Proof.
  revert e. induction s1 as [|ch s1 IH]; intros e; simpl; [by intros [= ->]|].
  destruct (parse_byte ch e) as [e'|e'|e'] eqn:Hb; [by apply IH|done|]. intros [= ->] Hn He. exfalso. revert Hb.
  unfold parse_byte, parse_split. destruct (state e) eqn:Hs.
  all: repeat case_match; intros [= <-]; done.
Qed.

(** C35: The parser may be fed in pieces: when a piece ends inside a sequence,
    parsing the next piece from the state it left gives what parsing both pieces at
    once gives. *)
Theorem parser_resumes e e1 s1 s2 :
  stream_parse_escape_state e s1 = (None, e1) → state e1 ≠ none → state e1 ≠ end_ →
  stream_parse_escape_state e (s1 ++ s2) = stream_parse_escape_state e1 s2.
Proof.
  intros H Hn He. destruct s1 as [|ch s1]; [by injection H as ->|].
  assert (stream_parse_escape_state e1 s2 = parse_loop e1 s2) as ->.
  { unfold stream_parse_escape_state. destruct s2; [done|]. by rewrite decide_False. }
  unfold stream_parse_escape_state in *. by apply parse_loop_resumes.
Qed.

(** ** Two faults of the commands *)

(** A terminal of 67 lines and 240 columns, a screen of 1920 times 1080. *)
Definition full_hd : terminal := attach_backend make_minimal_terminal 1 67 240.
(** Decoding of ASCII, enough for the examples. *)
Definition ascii_advance (s : list Z) : option (list Z * list Z) :=
  match s with c :: s' => Some ([c], s') | [] => None end.
Definition ascii_codepoint (s : list Z) : option Z := head s.

Abbreviation push_ascii := (push_string ascii_advance ascii_codepoint).

(** A cursor moved to the right end by ESC [ 999 C is not brought back: on the
    last line of the buffer, which ESC [ 99 B reaches, the next character is
    written behind the array of cells. *)
Theorem cursor_forward_overruns : push_ascii full_hd [27; 91; 57; 57; 66; 27; 91; 57; 57; 57; 67; 65] = Overrun.
Proof. vm_compute. reflexivity. Qed.

(** A colour sequence repeats the command before it: ESC [ 1 m directly after
    ESC [ n A moves the cursor up by n lines once more. *)
Theorem sgr_repeats_cursor_up advance codepoint t :
  state (escape_state_ t) = end_ → command (escape_state_ t) = 65 → num (escape_state_ t) = 0 →
  ∃ t', push_string advance codepoint t [27; 91; 49; 109] = Returned t' ∧
    row t' = Z.max (i32 (row t - (if command_num (escape_state_ t) =? 0 then 1 else i32 (command_num (escape_state_ t))))) 0.
Proof.
  destruct t as [pos dirty [st a n c cn priv] backend last blink drop m]. simpl. intros -> -> ->.
  eexists. split; reflexivity.
Qed.

(** ** Samples *)

(** A new terminal attached to a screen that fits its arrays is in order. *)
Lemma attach_in_order b r c :
  1 ≤ r ≤ max_lines → 1 ≤ c ≤ max_element_for_line → console_ok (attach_backend make_minimal_terminal b r c).
Proof.
  unfold max_lines, max_element_for_line. intros Hr Hc. split.
  - split; simpl; rewrite ?i32_small by lia; unfold max_lines, max_element_for_line; lia.
  - unfold attach_backend, make_minimal_terminal.
    split; cbn [cells term_chars_ term_char_cols_ stack_pos_ stack_ set_placeholder_valid set_blinking set_dirty set_backend
      set_position]; rewrite ?length_replicate, ?Z2Nat.id by done; [done..| |lia|done]. by apply Forall_replicate.
Qed.

Lemma ascii_advance_takes s slice rest : ascii_advance s = Some (slice, rest) → (length rest < length s)%nat.
Proof. destruct s; [done|]. intros [= _ <-]. simpl. lia. Qed.

(** The screen of [full_hd], and two messages: a red line of text, then one that
    clears the rest of its line and is cut inside a sequence. *)
Definition full_hd_frame : frame := Build_frame 7680 1920 1080 8 16.
Definition sample_log : list entry :=
  [Build_entry [27; 91; 51; 49; 109; 72; 105; 13; 10] 0 false; Build_entry [27; 91; 75; 66; 8; 27; 91] 1 true;
   Build_entry [109; 67; 10] 2 false].


Lemma parser_resumes_witness :
  stream_parse_escape_state reset_escape ([27; 91; 49] ++ [50; 72; 65])
  = stream_parse_escape_state (set_num 1 (set_state csi_number reset_escape)) [50; 72; 65].
Proof. by apply parser_resumes. Defined.

Lemma sgr_repeats_cursor_up_witness :
  let t := set_escape (move_to full_hd 10 0) (Build_escape_string_state end_ no_attribute 0 65 2 false) in
  ∃ t', push_ascii t [27; 91; 49; 109] = Returned t' ∧ row t' = 8.
Proof.
  intros t. apply (sgr_repeats_cursor_up ascii_advance ascii_codepoint t); reflexivity.
Defined.
